(* ===== verification/_CoqProject ===== *)
-Q . S2P
Prelude.v
CLib.v
IpWire.v
IpDns.v
IpFragment.v
Inet.v
Socks.v
Rules.v
Json.v
JsonText.v
Events.v
HttpSafety.v
IpTcp.v
IpUdp.v
Prompt.v
TempRules.v
Config.v
ConfigValid.v
ConfigText.v
RulesConfig.v
Policy.v
Sha256.v
RuleFeed.v
Disk.v
FeedCache.v
Traffic.v
TrafficHistory.v
TrafficReport.v
TrafficRules.v
ConfigMutation.v
ConfigRender.v
DnsClient.v
Crypto.v
Shadowsocks.v
Chain.v
Packet.v
Outline.v
