(* ===== verification/Prelude.v ===== *)
(** * The ClambHook native runtime: a verification development

    ClambHook routes the traffic of a machine through chains of proxies.  Its
    core is the C library under [native/src].  A configuration document
    ([config.c]) describes profiles: chains, policy groups, rules, rule sets
    and subscriptions.  From a profile the runtime compiles a rule engine
    ([rules_config.c], [rules.c]) and creates a policy manager ([policy.c]).
    An IP packet of the TUN device enters [ip_stack.c] (on top of lwIP), is
    reassembled, and goes to the TCP or to the UDP half, which open flows
    towards a dialer; the dialer asks the temporary rules
    ([temporary_rules.c]), the user ([prompt.c]) and the rule engine, and a
    policy group resolves to one of its chains, which [protocol.c] dials hop by
    hop, with Trojan, Shadowsocks ([protocol_shadowsocks.c]) and other
    protocols, for streams and for datagrams ([protocol_packet.c]).  Names are
    resolved by its own DNS client ([dns.c], [dns_quic.c]), the document is
    edited through requests ([config_mutation.c]), and servers are imported
    from Outline's access keys ([outline.c]).  What happens is appended to a
    ring of events ([events.c]) that clients replay as JSON ([json.c]);
    addresses are exchanged in the SOCKS format ([socks.c]); feeds and license
    servers are reached through a guard for URLs ([http_safety.c]).  Every
    connection is counted in the traffic store ([traffic.c]), from which
    reports, a history file and requests for new rules are made.

    ** Files

    - [Prelude]: machine integers at their width, byte buffers ([sub], [put],
      [lenZ]), the outcomes of a C function ([Done], [Raise] with the error it
      reports, [Fault] for an access outside a buffer or another undefined
      operation) with their monad, and the list and arithmetic lemmas the
      components share.
    - [CLib]: [error.c] and what the code uses of the C library: [strchr],
      [strrchr], the space and case classes, [strtol], [strtoul] and decimal
      printing.
    - [IpWire] ([ip_stack.c]): big-endian fields, the Internet checksum, the
      walk over IPv6 extension headers, and the IPv4, TCP and UDP checksums.
    - [IpDns] ([ip_stack.c]): compressed DNS names, the scan of the answers
      and the reverse cache from which a flow takes its domain.
    - [IpFragment] ([ip_stack.c]): the fragment flows with their coverage
      bitmap, storing, completing and expiring them, and
      [prepare_input_packet].
    - [IpTcp] ([ip_stack.c]): the TCP flow table, the choice of an internal
      port and the translation of packets towards lwIP and back.
    - [IpUdp] ([ip_stack.c]): endpoint texts, the UDP flow table with the
      dialer's callbacks as recorded effects, and the response packets.
    - [Inet]: the class [Inet] of what the code relies on of [inet_pton] and
      [inet_ntop], and an instance of it.
    - [Socks] ([socks.c]), [Rules] ([rules.c]), [Json] ([json.c]), [Events]
      ([events.c]), [HttpSafety] ([http_safety.c]): one component each.
    - [JsonText]: the chains of appends with which reports are written, and
      the lemmas that relate them to JSON values.
    - [Prompt] ([prompt.c]): the manager, the shared pending prompts on a heap
      and the threads that wait for an answer.
    - [TempRules] ([temporary_rules.c]): the table of rules with an expiry,
      their matching, insertion from requests and reports.
    - [Config], [ConfigValid], [ConfigText] ([config.c]): validation of a
      document over the tree of the TOML library; what a well-formed document
      is, declaratively; and durations, the rewriting of the active profile,
      paths and the JSON of tables.
    - [RulesConfig] ([rules_config.c]): the rule engine of a profile and the
      explanation of a route.
    - [Policy] ([policy.c]): policy groups, their choices, the commit of probe
      results and the probe thread's schedule.
    - [Sha256], [RuleFeed], [FeedCache] ([rule_feed.c]): the digest that names
      a cache file; the parser of rule lists in its three formats; and the
      cache files (text, atomic replacement on a disk, loading), the store of
      a response and the refresh over HTTP with its redirects.  [Disk]: the
      files that a crash can leave, and the loop of a write.
    - [Traffic], [TrafficHistory], [TrafficReport], [TrafficRules]
      ([traffic.c]): the store of connections with its counters, events and
      lookups; the history file; the filtered snapshot; and the requests for
      rules that are made from a connection or a suggestion.
    - [ConfigMutation], [ConfigRender] ([config_mutation.c]): the operations of
      an edit on the JSON of the document, and the TOML text of the result,
      with a reader of such texts, after the TOML specification, as the
      reference.
    - [DnsClient] ([dns.c], [dns_quic.c]): queries and answers, the upstreams of
      a profile and the exchange over TLS, HTTPS and QUIC; what a session of a
      transport returns is an argument.
    - [Crypto] ([clib/src/crypto.c]): the wrappers over the ciphers of OpenSSL
      and SHA-224.
    - [Shadowsocks] ([protocol_shadowsocks.c]): key derivation, the frames of a
      stream with their nonces, datagrams, the two relaying threads and the
      dial.
    - [Chain] ([protocol.c]): dialing of chains, with the other protocols as a
      record of dialers, the Trojan header, the TLS settings, and the thread
      that relays between a descriptor and TLS as a step function.
    - [Packet] ([protocol_packet.c]): packet connections, direct, over Trojan,
      Shadowsocks and the tunnels.
    - [Outline] ([outline.c]): access keys as URLs, JSON and YAML, the fetch of
      dynamic keys, the review and the requests of an import and a refresh.

    A C function is a function of the same name.  What it changes through
    pointers is passed and returned as a record with the fields of the
    source's struct; a linked list is a list, newest first; a failing function
    returns [Raise] with the status and the message of its [ch_error_set].
    Reads and writes of packets go through [rd], [rds] and [wr], which give
    [Fault] outside of the buffer, so that memory safety is a theorem about a
    definition and not an assumption of it.  What the environment decides
    (whether an allocation succeeds, what [malloc] leaves in a buffer, the
    clock, random numbers, an lwIP result, a dialer, a probe, the cache of
    downloaded lists) is an argument, and the theorems hold for every value of
    it.  Where threads share state, each critical section is one step of a
    relation and the theorems are about every interleaving ([Prompt], [Policy],
    [Events]).  Code outside of the repository is a class with its documented
    laws: [Inet] and [InetText] (addresses and their texts), [Double] and
    [DoubleCompare] (text to [double] and back, and comparisons), [LongDouble]
    (the arithmetic of durations), [DoubleRate], [DoubleSize] and [DoubleWhole]
    (rates, sizes and whole numbers), [Network] (libcurl's URL parser,
    [getaddrinfo], [getnameinfo]), [Evp] (authenticated ciphers), [Digest]
    (MD5, HMAC and the decoder of Base64) and [Base64] (its encoder); each has a
    concrete instance in the witnesses.  A write to disk is the sequence of disks that exist while it
    runs, so that a crash at any moment is covered.

    ** What is proved

    - Wire format: the checksum functions fill in fields for which the
      receiver's ones'-complement sum closes, for any packet; the walk over
      extension headers and the reader of DNS names stay inside the packet.
    - Fragments: honest fragments of a datagram that arrive in any order, mixed
      with nothing else of the same key, are reassembled to that datagram;
      overlaps kill the flow; from every reachable state no packet makes the
      code leave a buffer.  A hole beyond the final fragment is accepted, with
      the bytes [malloc] left there ([fragment_hole_exposes_heap]).
    - TCP: every reachable flow table has distinct keys, distinct live ports in
      range and an exact count; a new flow always finds a port; a segment that
      enters, and any reply of lwIP to it, are translated so that the client
      sees the endpoint it contacted, with valid checksums.
    - UDP: the texts handed to the dialer read back as the addresses; a
      response packet passes the receiver's checks of this very stack and
      carries the payload.
    - DNS cache: what is stored is found until it expires; the cache never
      grows beyond one entry ([dns_cache_never_grows]).
    - SOCKS: decoding inverts encoding and encoding inverts decoding; decoding
      never leaves the buffer.
    - Rules: a decision is that of the first rule which applies, where applying
      is stated declaratively; a CIDR contains an address exactly when the
      prefixes agree; suffix matching respects labels; a compiled engine
      decides for a chain that the configuration names.
    - JSON: printing then parsing gives the value back; the parser returns a
      value or an error on every text, the buffer holds the printed text or
      has failed; object mutation satisfies the map laws.
    - Events: the ring refines an unbounded log of which it shows the last
      [capacity] entries; the pages of a query partition the matching events;
      a race between the two critical sections of a query loses an event
      ([query_race_loses_event]).
    - URLs: an address is refused exactly when it is in one of the blocks of
      the special-purpose registries, also embedded in IPv6; a prepared
      endpoint has no user information and every address of its host is
      public.
    - Prompts: a waiting connection is let through only by an answer or a
      default that allows; no freed prompt is reached, whatever the
      interleaving; destruction drains the waiters.  A timeout on an answered
      prompt overwrites the answer ([prompt_timeout_overrides_allow]).
    - Temporary rules: the newest live rule that matches decides; the table
      stays within its limit with distinct identifiers; its report parses to
      the live rules.  A rule text that does not parse is inserted as an empty
      rule ([unparsable_rule_is_inserted]).
    - Configuration: validation accepts exactly the well-formed documents of
      the declarative definition [config_wf]; durations, paths, the rewritten
      active profile and the JSON of tables mean what they say.  Some invalid
      documents are reported as loaded, without a configuration
      ([parse_ok_without_config]).
    - From a document to a route: the engine of a well-formed profile is
      compiled from its tables, unless a subscription has the empty action
      ([empty_action_breaks_engine]) or the cache of a list fails with an error
      that is not tolerated; an explanation shows the decision and a
      chain of the profile; a decision for a group is resolved by every
      reachable policy manager to a member of that group.
    - Policy groups: every reachable group chooses as its type prescribes
      (selected, first healthy, lowest latency, stable hash, hysteresis), a
      selection is a member and carries datagrams when it has to, load
      balancing is stable between refreshes.  An interval of zero starves the
      later groups ([zero_interval_starves]).
    - Rule lists: the digest does not depend on how the text is cut; what the
      parser accepts is sorted, without repetition, canonical and within the
      limits, and a list reads back from each format; a written cache replaces
      the old one atomically and loads as it was stored when it is not larger
      than what is read back; every request of a
      refresh goes to a public endpoint of the configured origin, and a failed
      refresh changes nothing.  A list within all limits can be too large to
      be loaded again ([oversized_cache_unreadable]).
    - Traffic: from the opening of a connection to its closing the totals are
      the sums of what was counted, whatever else happens; its events are
      numbered without gaps; the reserve keeps room for active connections;
      the history file is replaced atomically and read back after a restart;
      a snapshot is JSON with the page, the totals and the hits per rule of
      the store; a temporary rule made from a connection decides the later
      ones to its host (written without a final dot), under a name of its own; a
      cleanup changes one
      rule and keeps the others in order.
    - Edits: an edit changes the part of the document it names and keeps every
      other member; interception of TLS is never switched on without the
      consent that the request has to carry; the text of an edited document,
      read back as TOML, is that document, when its numbers are whole and of at
      most [9.0e15].
    - DNS client: an answer is taken only when it has the number and the
      questions of the query; every upstream of a proxy has an address, has
      bootstrap addresses or is reached through a chain, so that the resolver
      of the system is never asked for it.
    - Shadowsocks: what one side writes the other reads, for streams, cut in
      any way, and for datagrams; every frame has its own nonce, counted from
      zero; the derived keys are those of RFC 5869.
    - Chains: dialing a chain succeeds exactly when the calls of its protocols
      succeed, each over the connection of the one before it and for the next
      server, the last for the target; a Trojan header reads as it was meant;
      the certificate of a TLS server
      is checked for the name or the address unless the settings say
      otherwise; the relay keeps the order of the bytes.  When the caller has
      closed, the relay ends after one buffer, whatever is left
      ([pump_ends_before_the_end]).
    - Packet connections: datagrams sent over Trojan are received as they were
      sent, whatever pieces the stream arrives in.
    - Outline: a written key is read back; a resolved key can be dialed, and
      only public endpoints of its own origin are asked for it; the request
      made of a key, read back as JSON, configures the server of the key.  The
      parser reads beyond the end of a key without padding
      ([unpadded_key_over_read]).

    ** Bounds and fuel

    Loops that consume a packet or a list are structural, or take as fuel the
    bound that the source itself writes in the loop (16 extension headers, 128
    steps in a DNS name, 65 levels of the JSON of a table).  The parser of
    [json.c] takes fuel from the length of the text and [parse_total] shows
    that it never runs out, as [duration_loop_returns] does for durations; the
    doubling loop of [ch_json_reserve] takes 64 rounds, enough to reach
    [SIZE_MAX]; the folding loop of the checksum is shown to exit
    ([checksum_fold_exits]); the port search takes one step for each port of
    its range, the bound of the source; the search for the name of a rule takes
    one round more than there are rules, and [unique_rule_name_found] shows
    that more rounds change nothing.  The relay of [protocol.c] takes as fuel
    the bytes that arrived; a key of [outline.c] inside a key takes the length
    of the text, and [parse_ss_fuel] shows that more changes nothing; the
    merges and the levels of a YAML document take the bounds of the source (16
    and 64).

    ** What is not modelled

    Sockets and locks as such (each modelled function is one critical section;
    where a function has several, they are kept apart), lwIP itself, the
    ciphers, the TOML and YAML parsers (a document is the tree they return),
    the transfer of libcurl and the handshakes of TLS and QUIC (their results
    are arguments) and the operating-system services.  In the configuration,
    rule-list, traffic, protocol and Outline files allocation is taken to
    succeed, but for the JSON buffer.  Not yet modelled are the relaying of
    bytes between an lwIP control block and a descriptor and the life cycle of
    the packet interface, the protocols VMESS, ShadowTLS, Tor, OpenVPN and
    WireGuard, the converter of other clients' profiles, the JSON reports and
    the import of a configuration, the runtime with its listeners, the tunnel
    stack, the HTTP API server, the developer tools, the conditioner and
    licensing. *)

From stdpp Require Export base numbers list strings option.
From Stdlib Require Export ZArith Lia Bool.
From Stdlib Require Ascii String.

#[global] Open Scope Z_scope.

(** ** Machine integers

    A w-bit unsigned integer of the source is a [Z]; the places where C wraps
    around are written with these functions. *)

Definition u8 (z : Z) : Z := z mod 2 ^ 8.
Definition u16 (z : Z) : Z := z mod 2 ^ 16.
Definition u32 (z : Z) : Z := z mod 2 ^ 32.
Definition u64 (z : Z) : Z := z mod 2 ^ 64.

Definition s32 (z : Z) : Z := (z + 2 ^ 31) mod 2 ^ 32 - 2 ^ 31.

Definition UINT16_MAX : Z := 65535.
Definition UINT64_MAX : Z := 2 ^ 64 - 1.
Definition SIZE_MAX : Z := 2 ^ 64 - 1.
Definition INT64_MIN : Z := - 2 ^ 63.
Definition INT64_MAX : Z := 2 ^ 63 - 1.

(** ** Byte buffers

    A buffer ([uint8_t *] with a length, or [char *] without its terminating
    NUL) is a list of integers; [bytes_ok] says that they are bytes. *)

Abbreviation bytes := (list Z).

Definition byte_ok (b : Z) : Prop := 0 <= b < 256.
Definition bytes_ok (l : bytes) : Prop := Forall byte_ok l.

Definition lenZ {A : Type} (l : list A) : Z := Z.of_nat (length l).

Definition byte_at (l : bytes) (i : Z) : Z := default 0 (l !! Z.to_nat i).

(** [sub l i n]: the [n] bytes starting at offset [i] ([l + i] in the source). *)
Definition sub {A : Type} (l : list A) (i n : Z) : list A :=
  take (Z.to_nat n) (drop (Z.to_nat i) l).

(** [put l i v]: the buffer after writing the bytes [v] at offset [i]. *)
Definition put {A : Type} (l : list A) (i : Z) (v : list A) : list A :=
  take (Z.to_nat i) l ++ v ++ drop (Z.to_nat i + length v) l.

(** ** C strings

    [str] turns a literal into the list of its character codes. *)

Definition str (s : String.string) : bytes :=
  map (fun c => Z.of_N (Ascii.N_of_ascii c)) (String.list_ascii_of_string s).

(** A C string in memory stops at its first NUL. *)
Fixpoint until_nul (l : bytes) : bytes :=
  match l with
  | [] => []
  | c :: l' => if c =? 0 then [] else c :: until_nul l'
  end.

Definition cchar_ok (c : Z) : Prop := 0 < c < 256.
Definition cstr_ok (l : bytes) : Prop := Forall cchar_ok l.

(** ** Outcomes

    [Done a]: the call returns [a].  [Raise e]: it returns an error.  [Fault]:
    it reads or writes outside the buffer it was given (undefined behaviour in
    C), so a theorem that excludes [Fault] is a memory-safety theorem. *)

Inductive outcome (E A : Type) : Type :=
| Done (a : A)
| Raise (e : E)
| Fault.
Arguments Done {E A} a.
Arguments Raise {E A} e.
Arguments Fault {E A}.

#[export] Instance outcome_ret {E} : MRet (outcome E) := fun A a => Done a.
#[export] Instance outcome_bind {E} : MBind (outcome E) := fun A B k m =>
  match m with
  | Done a => k a
  | Raise e => Raise e
  | Fault => Fault
  end.

(** Reading one byte of a buffer. *)
Definition rd {E} (l : bytes) (i : Z) : outcome E Z :=
  if 0 <=? i then
    match l !! Z.to_nat i with Some b => Done b | None => Fault end
  else Fault.

(** Reading [n] bytes from offset [i] on ([memcpy] and [memcmp] sources). *)
Definition rds {E} (l : bytes) (i n : Z) : outcome E bytes :=
  if (0 <=? i) && (0 <=? n) && (i + n <=? lenZ l) then Done (sub l i n) else Fault.

(** Writing the bytes [v] at offset [i]. *)
Definition wr {E} (l : bytes) (i : Z) (v : bytes) : outcome E bytes :=
  if (0 <=? i) && (i + lenZ v <=? lenZ l) then Done (put l i v) else Fault.

Definition no_fault {E A} (m : outcome E A) : Prop := m <> Fault.

(** ** Proof automation *)

(** Case analysis on the test of the first [if] of the goal, with the
    arithmetic facts left to [lia]. *)
Ltac case_if :=
  match goal with
  | |- context [if ?b then _ else _] => destruct b eqn:?
  end.

Ltac case_if_in H :=
  match type of H with
  | context [if ?b then _ else _] => destruct b eqn:?
  end.

(** Close an equation between outcomes, or a goal with contradictory ones. *)
Ltac outcome_inv :=
  repeat match goal with
  | H : Done _ = Done _ |- _ => injection H; clear H; intros
  | H : Raise _ = Raise _ |- _ => injection H; clear H; intros
  | H : Some _ = Some _ |- _ => injection H; clear H; intros
  | H : Done _ = Raise _ |- _ => discriminate H
  | H : Raise _ = Done _ |- _ => discriminate H
  | H : Done _ = Fault |- _ => discriminate H
  | H : Fault = Done _ |- _ => discriminate H
  | H : Raise _ = Fault |- _ => discriminate H
  | H : Fault = Raise _ |- _ => discriminate H
  | H : Some _ = None |- _ => discriminate H
  | H : None = Some _ |- _ => discriminate H
  end.

Create HintDb bytes.
Create Rewrite HintDb bytes.

(** ** Joining the bytes of a field *)

Lemma lor_shift8 a b : 0 <= b < 256 -> Z.lor (Z.shiftl a 8) b = a * 256 + b.
Proof.
  intros. rewrite Z.shiftl_mul_pow2 by lia. change (2 ^ 8) with 256.
  rewrite <- Z.add_lor_land. assert (Z.land (a * 256) b = 0) as ->; [|lia].
  apply Z.bits_inj'. intros n Hn. rewrite Z.land_spec, Z.bits_0.
  destruct (decide (n < 8)).
  - change 256 with (2 ^ 8). rewrite Z.mul_pow2_bits_low by lia. reflexivity.
  - rewrite (Z.bits_above_log2 b n); [apply andb_false_r|lia|].
    destruct (decide (b = 0)) as [->|]; [simpl; lia|].
    enough (Z.log2 b < 8) by lia. apply Z.log2_lt_pow2; lia.
Qed.

(** ** Lengths, offsets and updates of buffers *)

Section Buffers.
Context {A : Type}.
Implicit Types l v : list A.

Lemma lenZ_nonneg l : 0 <= lenZ l.
Proof. unfold lenZ. lia. Qed.

Lemma lenZ_nil : lenZ (@nil A) = 0.
Proof. reflexivity. Qed.

Lemma lenZ_cons (x : A) l : lenZ (x :: l) = 1 + lenZ l.
Proof. unfold lenZ. simpl. lia. Qed.

Lemma lenZ_app l v : lenZ (l ++ v) = lenZ l + lenZ v.
Proof. unfold lenZ. rewrite length_app. lia. Qed.

Lemma lenZ_replicate n (x : A) : lenZ (replicate n x) = Z.of_nat n.
Proof. unfold lenZ. rewrite length_replicate. reflexivity. Qed.

Lemma lenZ_sub l i n :
  0 <= i -> 0 <= n -> i + n <= lenZ l -> lenZ (sub l i n) = n.
Proof.
  unfold lenZ, sub. intros. rewrite length_take, length_drop. lia.
Qed.

Lemma lenZ_put l i v :
  0 <= i -> i + lenZ v <= lenZ l -> lenZ (put l i v) = lenZ l.
Proof.
  unfold lenZ, put. intros. rewrite !length_app, length_take, length_drop. lia.
Qed.

Lemma sub_full l : sub l 0 (lenZ l) = l.
Proof. unfold sub, lenZ. rewrite drop_0, Nat2Z.id. apply take_ge. lia. Qed.

Lemma lookup_sub l i n j :
  0 <= i -> 0 <= n -> 0 <= j < n ->
  sub l i n !! Z.to_nat j = l !! Z.to_nat (i + j).
Proof.
  unfold sub. intros. rewrite lookup_take_lt by lia. rewrite lookup_drop.
  f_equal. lia.
Qed.

Lemma lookup_put_in l i v j :
  0 <= i -> i + lenZ v <= lenZ l -> i <= j < i + lenZ v ->
  put l i v !! Z.to_nat j = v !! Z.to_nat (j - i).
Proof.
  unfold put, lenZ. intros.
  rewrite lookup_app_r by (rewrite length_take; lia).
  rewrite length_take, lookup_app_l by lia. f_equal. lia.
Qed.

Lemma lookup_put_out l i v j :
  0 <= i -> i + lenZ v <= lenZ l -> 0 <= j -> j < i \/ i + lenZ v <= j ->
  put l i v !! Z.to_nat j = l !! Z.to_nat j.
Proof.
  unfold put, lenZ. intros ??? [?|?].
  - rewrite lookup_app_l by (rewrite length_take; lia).
    apply lookup_take_lt. lia.
  - rewrite lookup_app_r by (rewrite length_take; lia).
    rewrite length_take, lookup_app_r by lia.
    rewrite lookup_drop. f_equal. lia.
Qed.

Lemma sub_put_out l i v j n :
  0 <= i -> i + lenZ v <= lenZ l -> 0 <= j -> 0 <= n ->
  j + n <= i \/ i + lenZ v <= j ->
  sub (put l i v) j n = sub l j n.
Proof.
  intros. apply list_eq. intros k.
  destruct (decide (Z.of_nat k < n)).
  - rewrite <- (Nat2Z.id k), !lookup_sub, lookup_put_out by lia. reflexivity.
  - unfold sub. rewrite !lookup_take_ge by lia. reflexivity.
Qed.

Lemma sub_put_same l i v :
  0 <= i -> i + lenZ v <= lenZ l -> sub (put l i v) i (lenZ v) = v.
Proof.
  intros. pose proof (lenZ_nonneg v). apply list_eq. intros k.
  destruct (decide (Z.of_nat k < lenZ v)).
  - rewrite <- (Nat2Z.id k), lookup_sub, lookup_put_in by lia. f_equal. lia.
  - unfold sub. rewrite lookup_take_ge by lia.
    symmetry. apply lookup_ge_None. unfold lenZ in *. lia.
Qed.

Lemma sub_put_in l i v j n :
  0 <= j -> j <= i -> i + lenZ v <= j + n -> j + n <= lenZ l ->
  sub (put l i v) j n = put (sub l j n) (i - j) v.
Proof.
  intros. pose proof (lenZ_nonneg v). apply list_eq. intros k.
  assert (Hsub : lenZ (sub l j n) = n) by (apply lenZ_sub; lia).
  destruct (decide (Z.of_nat k < n)).
  - rewrite <- (Nat2Z.id k), lookup_sub by lia.
    destruct (decide (i <= j + Z.of_nat k < i + lenZ v)).
    + rewrite !lookup_put_in by lia. f_equal. lia.
    + rewrite !lookup_put_out by lia. rewrite lookup_sub by lia. reflexivity.
  - unfold sub at 1. rewrite lookup_take_ge by lia.
    symmetry. apply lookup_ge_None.
    enough (lenZ (put (sub l j n) (i - j) v) = n) by (unfold lenZ in *; lia).
    rewrite lenZ_put; lia.
Qed.

Lemma sub_sub l i n j m :
  0 <= i -> 0 <= n -> 0 <= j -> 0 <= m -> j + m <= n ->
  sub (sub l i n) j m = sub l (i + j) m.
Proof.
  intros. apply list_eq. intros k.
  destruct (decide (Z.of_nat k < m)).
  - rewrite <- (Nat2Z.id k), !lookup_sub by lia. f_equal. lia.
  - unfold sub. rewrite !lookup_take_ge by lia. reflexivity.
Qed.

Lemma sub_app_l l v i n :
  0 <= i -> 0 <= n -> i + n <= lenZ l -> sub (l ++ v) i n = sub l i n.
Proof.
  unfold lenZ. intros. apply list_eq. intros k.
  destruct (decide (Z.of_nat k < n)).
  - rewrite <- (Nat2Z.id k), !lookup_sub by lia. apply lookup_app_l. lia.
  - unfold sub. rewrite !lookup_take_ge by lia. reflexivity.
Qed.

Lemma sub_app_r (h P : bytes) : sub (h ++ P) (lenZ h) (lenZ P) = P.
Proof.
  unfold sub, lenZ. rewrite !Nat2Z.id, drop_app_ge, Nat.sub_diag, drop_0 by lia. apply take_ge. lia.
Qed.

Lemma sub_split l i n m :
  0 <= i -> 0 <= n -> 0 <= m -> i + n + m <= lenZ l ->
  sub l i (n + m) = sub l i n ++ sub l (i + n) m.
Proof.
  unfold sub, lenZ. intros.
  rewrite Z2Nat.inj_add by lia. rewrite (Z2Nat.inj_add i n) by lia.
  rewrite <- drop_drop. rewrite <- take_take_drop. reflexivity.
Qed.

End Buffers.

#[export] Hint Resolve lenZ_nonneg : bytes.
#[export] Hint Rewrite @lenZ_nil @lenZ_cons @lenZ_app @lenZ_replicate : bytes.

Lemma byte_at_put_in l i v j :
  0 <= i -> i + lenZ v <= lenZ l -> i <= j < i + lenZ v ->
  byte_at (put l i v) j = byte_at v (j - i).
Proof. intros. unfold byte_at. rewrite lookup_put_in by lia. reflexivity. Qed.

Lemma byte_at_put_out l i v j :
  0 <= i -> i + lenZ v <= lenZ l -> 0 <= j -> j < i \/ i + lenZ v <= j ->
  byte_at (put l i v) j = byte_at l j.
Proof. intros. unfold byte_at. rewrite lookup_put_out by lia. reflexivity. Qed.

Lemma byte_at_sub l i n j :
  0 <= i -> 0 <= n -> 0 <= j < n -> byte_at (sub l i n) j = byte_at l (i + j).
Proof. intros. unfold byte_at. rewrite lookup_sub by lia. reflexivity. Qed.

Lemma byte_at_app_l l v i : 0 <= i < lenZ l -> byte_at (l ++ v) i = byte_at l i.
Proof.
  unfold byte_at, lenZ. intros. rewrite lookup_app_l by lia. reflexivity.
Qed.

Lemma byte_at_app_r l v i :
  lenZ l <= i -> byte_at (l ++ v) i = byte_at v (i - lenZ l).
Proof.
  unfold byte_at, lenZ. intros. rewrite lookup_app_r by lia.
  do 2 f_equal. lia.
Qed.

Lemma bytes_eq l v :
  lenZ l = lenZ v -> (forall i, 0 <= i < lenZ l -> byte_at l i = byte_at v i) ->
  l = v.
Proof.
  unfold lenZ. intros Hlen Hall. apply list_eq_same_length with (length l);
    [lia|lia|].
  intros i x y Hi Hx Hy. specialize (Hall (Z.of_nat i)).
  unfold byte_at in Hall. rewrite Nat2Z.id, Hx, Hy in Hall. apply Hall. lia.
Qed.

Lemma bytes_ok_app l v : bytes_ok (l ++ v) <-> bytes_ok l /\ bytes_ok v.
Proof. apply Forall_app. Qed.

Lemma bytes_ok_sub l i n : bytes_ok l -> bytes_ok (sub l i n).
Proof. intros. apply Forall_take, Forall_drop. assumption. Qed.

Lemma bytes_ok_put l i v : bytes_ok l -> bytes_ok v -> bytes_ok (put l i v).
Proof.
  intros. apply bytes_ok_app. split; [apply Forall_take; assumption|].
  apply bytes_ok_app. split; [assumption | apply Forall_drop; assumption].
Qed.

Lemma byte_at_ok l i : bytes_ok l -> byte_ok (byte_at l i).
Proof.
  intros H. unfold byte_at. destruct (l !! Z.to_nat i) eqn:E; simpl.
  - eapply Forall_lookup_1; eauto.
  - unfold byte_ok. lia.
Qed.

Lemma bytes_ok_replicate0 n : bytes_ok (replicate n 0).
Proof. apply Forall_replicate. unfold byte_ok. lia. Qed.

#[export] Hint Resolve bytes_ok_sub bytes_ok_put byte_at_ok bytes_ok_replicate0 : bytes.

Lemma rd_Done {E} l i : 0 <= i < lenZ l -> @rd E l i = Done (byte_at l i).
Proof.
  unfold rd, byte_at, lenZ. intros H. rewrite (proj2 (Z.leb_le 0 i)) by lia.
  destruct (l !! Z.to_nat i) eqn:Hl; [reflexivity|].
  apply lookup_ge_None in Hl. lia.
Qed.

Lemma rd_inv {E} l i b : @rd E l i = Done b -> 0 <= i < lenZ l /\ b = byte_at l i.
Proof.
  unfold rd, byte_at, lenZ. destruct (0 <=? i) eqn:Hi; [|discriminate].
  destruct (l !! Z.to_nat i) eqn:Hl; [|discriminate].
  intros [= <-]. apply lookup_lt_Some in Hl. split; [lia|reflexivity].
Qed.

Lemma rd_no_Raise {E} l i (e : E) : rd l i <> Raise e.
Proof. unfold rd. case_if; [destruct (l !! Z.to_nat i)|]; discriminate. Qed.

Lemma rds_Done {E} l i n :
  0 <= i -> 0 <= n -> i + n <= lenZ l -> @rds E l i n = Done (sub l i n).
Proof. intros. unfold rds. case_if; [reflexivity|lia]. Qed.

(** Reading a byte, or a block, at a known position. *)
Lemma rd_mid {E} (a : bytes) x b i : i = lenZ a -> @rd E (a ++ x :: b) i = Done x.
Proof.
  intros ->. unfold rd, lenZ. rewrite (proj2 (Z.leb_le 0 _)), Nat2Z.id by lia.
  rewrite lookup_app_r, Nat.sub_diag by lia. reflexivity.
Qed.

Lemma rds_mid {E} (a b c : bytes) i n :
  i = lenZ a -> n = lenZ b -> @rds E (a ++ b ++ c) i n = Done b.
Proof.
  intros -> ->. pose proof (lenZ_nonneg a). pose proof (lenZ_nonneg b). pose proof (lenZ_nonneg c).
  rewrite rds_Done by (rewrite ?lenZ_app; lia). f_equal. unfold sub, lenZ.
  rewrite !Nat2Z.id, drop_app_ge, Nat.sub_diag, drop_0 by lia. apply take_app_length.
Qed.

Lemma wr_Done {E} l i v :
  0 <= i -> i + lenZ v <= lenZ l -> @wr E l i v = Done (put l i v).
Proof. intros. unfold wr. case_if; [reflexivity|lia]. Qed.

Lemma bind_Done {E A B} (a : A) (k : A -> outcome E B) : (Done a ≫= k) = k a.
Proof. reflexivity. Qed.

Lemma done_pair {E A B} (a c : A) (b d : B) : Done (a, b) = Done (c, d) :> outcome E (A * B) -> a = c /\ b = d.
Proof. intros Heq. injection Heq. auto. Qed.

Lemma bind_Done_inv {E A B} (m : outcome E A) (k : A -> outcome E B) b :
  (m ≫= k) = Done b -> exists a, m = Done a /\ k a = Done b.
Proof. destruct m; simpl; intros H; try discriminate. eauto. Qed.

(** The bytes of a concrete list are bytes: by evaluation. *)
Definition bytes_okb (l : bytes) : bool := forallb (fun b => (0 <=? b) && (b <? 256)) l.

Lemma bytes_okb_ok l : bytes_okb l = true -> bytes_ok l.
Proof.
  intros H. unfold bytes_okb in H. rewrite forallb_forall in H. apply Forall_forall.
  intros b Hb. specialize (H b Hb). unfold byte_ok. lia.
Qed.

Ltac bytes_ok_tac := apply bytes_okb_ok; vm_compute; reflexivity.

(** Run the reads and writes at the head of the goal; their bounds are proved
    by [lia], after the length of updated buffers has been simplified. *)
Ltac io_side :=
  repeat (rewrite lenZ_put by io_side); autorewrite with bytes; cbn [length]; lia.

Ltac io_step :=
  match goal with
  | |- context [@mbind _ _ _ _ _ (rd ?l ?i)] => rewrite (rd_Done l i) by io_side
  | |- context [@mbind _ _ _ _ _ (rds ?l ?i ?n)] => rewrite (rds_Done l i n) by io_side
  | |- context [@mbind _ _ _ _ _ (wr ?l ?i ?v)] => rewrite (wr_Done l i v) by io_side
  | |- context [@mbind _ _ _ _ _ (Done ?a)] => idtac
  end; cbn [mbind outcome_bind].

Ltac io := repeat io_step.

(** ** Lists without duplicates *)

Lemma NoDup_map_inj {A B : Type} (f : A -> B) l x y :
  NoDup (map f l) -> x ∈ l -> y ∈ l -> f x = f y -> x = y.
Proof.
  induction l as [|a l IH]; cbn [map]; intros Hnd Hx Hy E; [apply elem_of_nil in Hx as []|].
  apply list.NoDup_cons in Hnd as [Ha Hnd].
  assert (Hin : forall z, z ∈ l -> f z ∈ map f l).
  { intros z Hz. apply list_elem_of_In, in_map, list_elem_of_In, Hz. }
  apply elem_of_cons in Hx as [-> | Hx], Hy as [-> | Hy]; auto.
  - destruct Ha. rewrite E. auto.
  - destruct Ha. rewrite <- E. auto.
Qed.

Lemma NoDup_map_sub {A B : Type} (f : A -> B) l k :
  sublist k l -> NoDup (map f l) -> NoDup (map f k).
Proof.
  intros Hs Hn. eapply sublist_NoDup; [exact Hn|]. exact (fmap_sublist f _ _ Hs).
Qed.

Lemma Forall_sublist {A} (P : A -> Prop) l l' : l `sublist_of` l' -> Forall P l' -> Forall P l.
Proof. induction 1; intros HF; inversion_clear HF || auto; auto. Qed.
