(* ===== verification/CLib.v ===== *)
(** * The C library as the runtime uses it, and the error type

    The character class, string and number functions of the C library in the
    "C" locale ([ctype.h], [string.h], [strtol]), the decimal output of
    [printf], and the error record of [native/src/error.c]. *)

From S2P Require Import Prelude.

(** ** Errors: [native/include/clambhook/error.h], [native/src/error.c] *)

Module Error.

Inductive ch_status : Type :=
| CH_OK
| CH_ERROR_INVALID_ARGUMENT
| CH_ERROR_OUT_OF_MEMORY
| CH_ERROR_INVALID_STATE
| CH_ERROR_IO
| CH_ERROR_PARSE
| CH_ERROR_NOT_FOUND
| CH_ERROR_UNSUPPORTED
| CH_ERROR_INTERNAL.

#[export] Instance ch_status_eq_dec : EqDecision ch_status.
Proof. solve_decision. Defined.

(** [message] is a 256-byte array that holds a NUL-terminated string. *)
Record ch_error : Type := mk_error { code : ch_status; message : bytes }.

Definition ch_error_clear : ch_error := mk_error CH_OK [].

(** [vsnprintf] into the 256-byte array keeps 255 bytes. *)
Definition ch_error_set (c : ch_status) (formatted : bytes) : ch_error :=
  mk_error c (take 255 formatted).

Definition ch_status_name (s : ch_status) : bytes :=
  match s with
  | CH_OK => str "ok"
  | CH_ERROR_INVALID_ARGUMENT => str "invalid_argument"
  | CH_ERROR_OUT_OF_MEMORY => str "out_of_memory"
  | CH_ERROR_INVALID_STATE => str "invalid_state"
  | CH_ERROR_IO => str "io"
  | CH_ERROR_PARSE => str "parse"
  | CH_ERROR_NOT_FOUND => str "not_found"
  | CH_ERROR_UNSUPPORTED => str "unsupported"
  | CH_ERROR_INTERNAL => str "internal"
  end.

Lemma ch_error_set_bound c m : lenZ (message (ch_error_set c m)) <= 255.
Proof. unfold ch_error_set, lenZ. simpl. rewrite length_take. lia. Qed.

End Error.

Export Error.

(** A fallible call of the runtime. *)
Abbreviation result := (outcome ch_error).

Definition fail {A} (c : ch_status) (m : bytes) : result A := Raise (ch_error_set c m).

(** ** Characters *)

Definition isspace (c : Z) : bool := ((9 <=? c) && (c <=? 13)) || (c =? 32).
Definition isdigit (c : Z) : bool := (48 <=? c) && (c <=? 57).
Definition isalnum (c : Z) : bool := isdigit c || ((65 <=? c) && (c <=? 90)) || ((97 <=? c) && (c <=? 122)).
Definition tolower (c : Z) : Z := if (65 <=? c) && (c <=? 90) then c + 32 else c.

(** A digit of [printf("%x")], and its value. *)
Definition hex_digit (v : Z) : Z := if v <? 10 then 48 + v else 87 + v.

(** ** Strings *)

Definition beq (a b : bytes) : bool := bool_decide (a = b).

(** [strchr]: the text before the first [c] and the text after it. *)
Fixpoint split_first (c : Z) (s : bytes) : option (bytes * bytes) :=
  match s with
  | [] => None
  | x :: s' =>
      if x =? c then Some ([], s')
      else match split_first c s' with
           | Some (a, b) => Some (x :: a, b)
           | None => None
           end
  end.

(** [strrchr]: the text before the last [c] and the text after it. *)
Fixpoint split_last (c : Z) (s : bytes) : option (bytes * bytes) :=
  match s with
  | [] => None
  | x :: s' =>
      match split_last c s' with
      | Some (a, b) => Some (x :: a, b)
      | None => if x =? c then Some ([], s') else None
      end
  end.

Fixpoint is_prefix (p s : bytes) : bool :=
  match p, s with
  | [], _ => true
  | _ :: _, [] => false
  | x :: p', y :: s' => (x =? y) && is_prefix p' s'
  end.

(** [strstr(s, p) != NULL] *)
Fixpoint contains (s p : bytes) : bool :=
  is_prefix p s || match s with [] => false | _ :: s' => contains s' p end.

(** [while (isspace(c)) ++s] *)
Fixpoint skip_space (s : bytes) : bytes :=
  match s with
  | [] => []
  | c :: s' => if isspace c then skip_space s' else s
  end.

(** The trailing counterpart: cut the string after its last non-space. *)
Fixpoint trim_right (s : bytes) : bytes :=
  match s with
  | [] => []
  | c :: s' =>
      match trim_right s' with
      | [] => if isspace c then [] else [c]
      | t => c :: t
      end
  end.

Definition trim (s : bytes) : bytes := trim_right (skip_space s).

(** ** Decimal numbers *)

Fixpoint scan_digits (acc : Z) (s : bytes) : Z * bytes :=
  match s with
  | c :: s' => if isdigit c then scan_digits (acc * 10 + (c - 48)) s' else (acc, s)
  | [] => (acc, [])
  end.

Record number_scan : Type := mk_scan {
  scan_value : Z;      (** the converted number, clamped on overflow *)
  scan_rest : bytes;   (** the text from [end] on *)
  scan_any : bool;     (** [end != start] *)
  scan_range : bool    (** [errno == ERANGE] *)
}.

(** The optional sign of a number. *)
Definition scan_sign (t : bytes) : bool * bytes :=
  match t with
  | c :: t' => if c =? 45 then (true, t') else if c =? 43 then (false, t') else (false, t)
  | [] => (false, t)
  end.

(** [strtol(s, &end, 10)] and [strtoimax]: [long] and [intmax_t] have 64 bits. *)
Definition strtol (s : bytes) : number_scan :=
  let t := skip_space s in
  let '(neg, t) := scan_sign t in
  match t with
  | c :: _ =>
      if isdigit c then
        let '(n, rest) := scan_digits 0 t in
        let v := if (neg : bool) then - n else n in
        let w := Z.max INT64_MIN (Z.min v INT64_MAX) in
        mk_scan w rest true (negb (v =? w))
      else mk_scan 0 s false false
  | [] => mk_scan 0 s false false
  end.

(** [strtoul(s, &end, 10)]: a minus sign negates modulo 2^64. *)
Definition strtoul (s : bytes) : number_scan :=
  let t := skip_space s in
  let '(neg, t) := scan_sign t in
  match t with
  | c :: _ =>
      if isdigit c then
        let '(n, rest) := scan_digits 0 t in
        if n <=? UINT64_MAX then mk_scan (if (neg : bool) then u64 (- n) else n) rest true false
        else mk_scan UINT64_MAX rest true true
      else mk_scan 0 s false false
  | [] => mk_scan 0 s false false
  end.

(** [printf("%d")] and its width variants. *)
Fixpoint dec_digits (fuel : nat) (z : Z) (acc : bytes) : bytes :=
  match fuel with
  | O => acc
  | S fuel' =>
      let acc' := (48 + z mod 10) :: acc in
      if z <? 10 then acc' else dec_digits fuel' (z / 10) acc'
  end.

Definition dec_nonneg (z : Z) : bytes := dec_digits (S (Z.to_nat (Z.log2 z))) z [].
Definition dec (z : Z) : bytes :=
  if z <? 0 then 45 :: dec_nonneg (- z) else dec_nonneg z.

Example dec_ex : dec (-40957) = str "-40957" /\ dec 0 = str "0".
Proof. split; reflexivity. Qed.
Example strtol_ex :
  strtol (str "  -120x") = mk_scan (-120) (str "x") true false /\
  scan_range (strtol (str "99999999999999999999")) = true.
Proof. split; vm_compute; reflexivity. Qed.

(** ** Facts about splitting and trimming *)

Lemma beq_true a b : beq a b = true <-> a = b.
Proof. apply bool_decide_eq_true. Qed.

Lemma beq_refl a : beq a a = true.
Proof. apply beq_true. reflexivity. Qed.

Lemma beq_false a b : beq a b = false <-> a <> b.
Proof. apply bool_decide_eq_false. Qed.

Lemma split_first_Some c s a b :
  split_first c s = Some (a, b) -> s = a ++ c :: b /\ c ∉ a.
Proof.
  revert a. induction s as [|x s IH]; intros a; simpl; [discriminate|].
  destruct (x =? c) eqn:Hx.
  - intros [= <- <-]. apply Z.eqb_eq in Hx. subst. split; [reflexivity|].
    apply not_elem_of_nil.
  - destruct (split_first c s) as [[a' b']|]; [|discriminate].
    intros [= <- <-]. destruct (IH a' eq_refl) as [-> Hn]. split; [reflexivity|].
    apply not_elem_of_cons. split; [lia|assumption].
Qed.

Lemma split_first_app c a b :
  c ∉ a -> split_first c (a ++ c :: b) = Some (a, b).
Proof.
  induction a as [|x a IH]; intros Hn; simpl.
  - rewrite Z.eqb_refl. reflexivity.
  - apply not_elem_of_cons in Hn as [Hx Hn].
    rewrite (proj2 (Z.eqb_neq x c)) by congruence. rewrite IH by assumption.
    reflexivity.
Qed.

Lemma split_last_None c s : split_last c s = None <-> c ∉ s.
Proof.
  induction s as [|x s IH]; simpl.
  - split; [intros; apply not_elem_of_nil | reflexivity].
  - rewrite not_elem_of_cons. destruct (split_last c s) as [[a b]|].
    + split; [discriminate|]. intros [_ H]. apply IH in H. discriminate.
    + destruct (x =? c) eqn:Hx.
      * split; [discriminate|]. intros [H _]. lia.
      * split; [|reflexivity]. intros _. split; [lia|]. apply IH. reflexivity.
Qed.

Lemma split_last_Some c s a b :
  split_last c s = Some (a, b) -> s = a ++ c :: b /\ c ∉ b.
Proof.
  revert a b. induction s as [|x s IH]; intros a b; simpl; [discriminate|].
  destruct (split_last c s) as [[a' b']|] eqn:Hs.
  - intros [= <- <-]. destruct (IH a' b' eq_refl) as [-> Hn]. split; [reflexivity|assumption].
  - destruct (x =? c) eqn:Hx; [|discriminate]. intros [= <- <-].
    apply Z.eqb_eq in Hx. subst. split; [reflexivity|]. apply split_last_None. assumption.
Qed.

Lemma split_last_app c a b :
  c ∉ b -> split_last c (a ++ c :: b) = Some (a, b).
Proof.
  intros Hn. induction a as [|x a IH]; simpl.
  - rewrite (proj2 (split_last_None c b)) by assumption. rewrite Z.eqb_refl. reflexivity.
  - rewrite IH. reflexivity.
Qed.

(** ** Trimming and folding *)

Lemma skip_space_idem s : skip_space (skip_space s) = skip_space s.
Proof.
  induction s as [|c s IH]; simpl; [reflexivity|].
  destruct (isspace c) eqn:Hc; [assumption|]. simpl. rewrite Hc. reflexivity.
Qed.

Lemma skip_space_head c s : isspace c = false -> skip_space (c :: s) = c :: s.
Proof. intros H. simpl. rewrite H. reflexivity. Qed.

Lemma skip_space_spaces a s :
  Forall (fun c => isspace c = true) a -> skip_space (a ++ s) = skip_space s.
Proof. induction 1 as [|c a Hc Ha IH]; simpl; [reflexivity|]. rewrite Hc. assumption. Qed.

(** What [skip_space] leaves is a suffix that starts with a non-space. *)
Lemma skip_space_spec s :
  exists a, s = a ++ skip_space s /\ Forall (fun c => isspace c = true) a.
Proof.
  induction s as [|c s [a [Hs Ha]]]; simpl.
  - exists []. split; [reflexivity|constructor].
  - destruct (isspace c) eqn:Hc.
    + exists (c :: a). split; [simpl; congruence|constructor; assumption].
    + exists []. split; [reflexivity|constructor].
Qed.

Lemma trim_right_cons_ne c s : isspace c = false -> trim_right (c :: s) <> [].
Proof. intros H. simpl. destruct (trim_right s); [rewrite H|]; discriminate. Qed.

Lemma trim_right_idem s : trim_right (trim_right s) = trim_right s.
Proof.
  induction s as [|c s IH]; simpl; [reflexivity|].
  destruct (trim_right s) as [|d t] eqn:Ht.
  - destruct (isspace c) eqn:Hc; [reflexivity|]. simpl. rewrite Hc. reflexivity.
  - change (trim_right (c :: d :: t) = c :: d :: t).
    cbn [trim_right] in IH |- *. rewrite IH. reflexivity.
Qed.

Lemma skip_space_trim_right s :
  skip_space (trim_right (skip_space s)) = trim_right (skip_space s).
Proof.
  induction s as [|c s IH]; simpl; [reflexivity|].
  destruct (isspace c) eqn:Hc; [assumption|].
  simpl. destruct (trim_right s); simpl; rewrite ?Hc; simpl; rewrite ?Hc; reflexivity.
Qed.

Lemma trim_idem s : trim (trim s) = trim s.
Proof. unfold trim. rewrite skip_space_trim_right. apply trim_right_idem. Qed.

Lemma tolower_idem c : tolower (tolower c) = tolower c.
Proof. unfold tolower. repeat case_if; lia. Qed.

Lemma tolower_isspace c : isspace (tolower c) = isspace c.
Proof. unfold tolower, isspace. repeat case_if; lia. Qed.

Lemma map_tolower_idem s : map tolower (map tolower s) = map tolower s.
Proof. rewrite List.map_map. apply List.map_ext. apply tolower_idem. Qed.

Lemma skip_space_map_tolower s : skip_space (map tolower s) = map tolower (skip_space s).
Proof.
  induction s as [|c s IH]; simpl; [reflexivity|]. rewrite tolower_isspace.
  destruct (isspace c); [assumption|reflexivity].
Qed.

Lemma trim_right_map_tolower s : trim_right (map tolower s) = map tolower (trim_right s).
Proof.
  induction s as [|c s IH]; simpl; [reflexivity|]. rewrite IH, tolower_isspace.
  destruct (trim_right s); simpl; [destruct (isspace c)|]; reflexivity.
Qed.

Lemma trim_map_tolower s : trim (map tolower s) = map tolower (trim s).
Proof. unfold trim. rewrite skip_space_map_tolower, trim_right_map_tolower. reflexivity. Qed.

(** ** Decimal numbers read back *)

Definition digits_ok (s : bytes) : Prop := Forall (fun c => isdigit c = true) s.

Definition starts_digit (s : bytes) : bool :=
  match s with c :: _ => isdigit c | [] => false end.

Lemma dec_digit_ok z : 0 <= z -> isdigit (48 + z mod 10) = true.
Proof.
  intros. pose proof (Z.mod_pos_bound z 10 ltac:(lia)). unfold isdigit. lia.
Qed.

Lemma dec_digits_spec fuel z acc :
  0 <= z -> (Z.to_nat (Z.log2 z) < fuel)%nat ->
  exists d, dec_digits fuel z acc = d ++ acc /\ digits_ok d /\
            (forall s, scan_digits 0 (d ++ s) = scan_digits z s) /\
            (exists c d', d = c :: d' /\ (0 < z -> 49 <= c) /\ (z = 0 -> d' = [])).
Proof.
  revert z acc. induction fuel as [|fuel IH]; intros z acc Hz Hf; [lia|].
  cbn [dec_digits]. pose proof (Z.mod_pos_bound z 10 ltac:(lia)) as Hm.
  pose proof (dec_digit_ok z Hz) as Hd.
  destruct (z <? 10) eqn:Hlt.
  - exists [48 + z mod 10]. rewrite (Z.mod_small z 10) in * by lia.
    split; [reflexivity|]. split; [constructor; [assumption|constructor]|]. split.
    + intros s. cbn [app scan_digits]. rewrite Hd. f_equal. lia.
    + exists (48 + z), []. split; [reflexivity|]. split; [lia|reflexivity].
  - assert (Hlog : (Z.to_nat (Z.log2 (z / 10)) < fuel)%nat).
    { pose proof (Z.log2_nonneg (z / 10)).
      assert (Z.log2 (z / 10) < Z.log2 z); [|lia].
      apply Z.log2_lt_pow2; [apply Z.div_str_pos; lia|].
      pose proof (Z.log2_spec z ltac:(lia)) as [_ Hs].
      rewrite Z.pow_succ_r in Hs by apply Z.log2_nonneg.
      assert (0 < 2 ^ Z.log2 z) by (apply Z.pow_pos_nonneg; [lia|apply Z.log2_nonneg]).
      apply Z.div_lt_upper_bound; lia. }
    destruct (IH (z / 10) ((48 + z mod 10) :: acc)) as (d & Hdec & Hok & Hscan & c & d' & Hcd & Hpos & _);
      [apply Z.div_pos; lia|assumption|].
    exists (d ++ [48 + z mod 10]). split; [rewrite Hdec, <- app_assoc; reflexivity|].
    split; [apply Forall_app; split; [assumption|constructor; [assumption|constructor]]|].
    split.
    + intros s. rewrite <- app_assoc. rewrite Hscan. cbn [app scan_digits]. rewrite Hd.
      f_equal. pose proof (Z.div_mod z 10 ltac:(lia)). lia.
    + exists c, (d' ++ [48 + z mod 10]). subst d. split; [reflexivity|]. split; [|lia].
      intros _. apply Hpos. apply Z.div_str_pos. lia.
Qed.

Lemma dec_nonneg_spec z :
  0 <= z ->
  digits_ok (dec_nonneg z) /\
  (forall s, scan_digits 0 (dec_nonneg z ++ s) = scan_digits z s) /\
  exists c d, dec_nonneg z = c :: d /\ (0 < z -> 49 <= c) /\ (z = 0 -> d = []).
Proof.
  intros Hz. unfold dec_nonneg.
  destruct (dec_digits_spec (S (Z.to_nat (Z.log2 z))) z [] Hz ltac:(lia))
    as (d & -> & Hok & Hscan & c & d' & Hd & Hpos & Hzero).
  rewrite app_nil_r. eauto 10.
Qed.

Lemma scan_digits_stop z s : starts_digit s = false -> scan_digits z s = (z, s).
Proof. destruct s as [|c s]; simpl; [reflexivity|]. intros ->. reflexivity. Qed.

(** A printed number that fits its type is read back by [strtol]. *)
Lemma strtol_dec n s :
  INT64_MIN <= n <= INT64_MAX -> starts_digit s = false ->
  strtol (dec n ++ s) = mk_scan n s true false.
Proof.
  intros Hn Hs. unfold dec.
  assert (H : forall m, 0 <= m -> exists c d, dec_nonneg m = c :: d /\ isdigit c = true).
  { intros m Hm. destruct (dec_nonneg_spec m Hm) as (Hok & _ & c & d & E & _).
    exists c, d. split; [assumption|]. rewrite E in Hok. inversion Hok; assumption. }
  unfold INT64_MIN, INT64_MAX in *.
  destruct (n <? 0) eqn:Hneg; unfold strtol.
  - destruct (H (- n) ltac:(lia)) as (c & d & E & Hc).
    destruct (dec_nonneg_spec (- n) ltac:(lia)) as (_ & Hscan & _).
    cbn [app]. rewrite skip_space_head by reflexivity. cbn [scan_sign Z.eqb Pos.eqb].
    rewrite E. cbn [app]. rewrite Hc. rewrite E in Hscan.
    cbn [app] in Hscan. rewrite Hscan, scan_digits_stop by assumption.
    unfold INT64_MIN, INT64_MAX. f_equal; lia.
  - destruct (H n ltac:(lia)) as (c & d & E & Hc).
    destruct (dec_nonneg_spec n ltac:(lia)) as (_ & Hscan & _).
    rewrite E. cbn [app]. assert (isspace c = false) by (unfold isdigit, isspace in *; lia).
    rewrite skip_space_head by assumption. rewrite E in Hscan. cbn [app] in Hscan.
    assert (48 <= c <= 57) by (unfold isdigit in Hc; lia).
    cbn [scan_sign]. rewrite (proj2 (Z.eqb_neq c 45)), (proj2 (Z.eqb_neq c 43)) by lia.
    rewrite Hc, Hscan, scan_digits_stop by assumption.
    unfold INT64_MIN, INT64_MAX. f_equal; lia.
Qed.

(** A printed 64-bit number is read back by [strtoul]. *)
Lemma strtoul_dec n s :
  0 <= n <= UINT64_MAX -> starts_digit s = false ->
  strtoul (dec n ++ s) = mk_scan n s true false.
Proof.
  intros Hn Hs. unfold dec. destruct (n <? 0) eqn:Hneg; [lia|]. unfold strtoul.
  destruct (dec_nonneg_spec n ltac:(lia)) as (Hok & Hscan & c & d & E & _).
  rewrite E in *. cbn [app] in *. inversion_clear Hok as [|?? Hc _].
  assert (48 <= c <= 57) by (unfold isdigit in Hc; lia).
  rewrite skip_space_head by (unfold isspace; lia). cbn [scan_sign].
  rewrite (proj2 (Z.eqb_neq c 45)), (proj2 (Z.eqb_neq c 43)) by lia.
  rewrite Hc, Hscan, scan_digits_stop by assumption. destruct (n <=? UINT64_MAX) eqn:E'; [reflexivity|lia].
Qed.

Lemma scan_digits_lower s acc :
  digits_ok s -> 0 <= acc -> acc * 10 ^ lenZ s <= fst (scan_digits acc s).
Proof.
  intros Hs. revert acc. induction Hs as [|c s Hc Hs IH]; intros acc Ha.
  - change (lenZ (@nil Z)) with 0. cbn. lia.
  - cbn [scan_digits]. rewrite Hc. unfold isdigit in Hc. rewrite lenZ_cons.
    pose proof (lenZ_nonneg s). rewrite Z.pow_add_r by lia.
    specialize (IH (acc * 10 + (c - 48)) ltac:(lia)).
    assert (0 < 10 ^ lenZ s) by (apply Z.pow_pos_nonneg; lia). nia.
Qed.

(** A number below [10 ^ k] prints in at most [k] digits. *)
Lemma dec_length n k : 0 <= n < 10 ^ k -> 1 <= k -> 1 <= lenZ (dec n) <= k.
Proof.
  intros Hn Hk. unfold dec. destruct (n <? 0) eqn:Hneg; [lia|].
  destruct (dec_nonneg_spec n ltac:(lia)) as (Hok & Hscan & c & d & E & Hpos & Hzero).
  specialize (Hscan []). rewrite app_nil_r in Hscan. rewrite E in *. rewrite lenZ_cons.
  pose proof (lenZ_nonneg d). destruct (decide (n = 0)) as [->|Hn0].
  { rewrite Hzero by reflexivity. change (lenZ (@nil Z)) with 0. lia. }
  split; [lia|]. inversion_clear Hok as [|?? Hc Hd]. cbn [scan_digits] in Hscan. rewrite Hc in Hscan.
  pose proof (scan_digits_lower d (0 * 10 + (c - 48)) Hd ltac:(lia)) as Hlow. rewrite Hscan in Hlow.
  cbn [fst] in Hlow. assert (Hp : 10 ^ lenZ d < 10 ^ k).
  { assert (0 < 10 ^ lenZ d) by (apply Z.pow_pos_nonneg; lia). specialize (Hpos ltac:(lia)). nia. }
  apply Z.pow_lt_mono_r_iff in Hp; lia.
Qed.

Lemma dec_digits_only n : 0 <= n -> digits_ok (dec n).
Proof.
  intros Hn. unfold dec. destruct (n <? 0) eqn:Hneg; [lia|]. apply (dec_nonneg_spec n Hn).
Qed.

(** The text of a number has no NUL. *)
Lemma dec_positive n : Forall (fun c => 0 < c) (dec n).
Proof.
  assert (Hd : forall m, 0 <= m -> Forall (fun c => 0 < c) (dec_nonneg m)).
  { intros m Hm. eapply List.Forall_impl; [|apply (dec_nonneg_spec m Hm)]. cbn. unfold isdigit. lia. }
  unfold dec. destruct (n <? 0) eqn:E; [constructor; [lia|apply Hd; lia]|apply Hd; lia].
Qed.

Lemma digits_avoid s c : digits_ok s -> isdigit c = false -> c ∉ s.
Proof.
  intros Hs Hc Hin. unfold digits_ok in Hs. rewrite Forall_forall in Hs.
  apply list_elem_of_In, Hs in Hin. congruence.
Qed.

Lemma dec_inj m n : 0 <= m -> 0 <= n -> dec m = dec n -> m = n.
Proof.
  intros Hm Hn. unfold dec. rewrite !(proj2 (Z.ltb_ge _ 0)) by assumption. intros E.
  destruct (dec_nonneg_spec m Hm) as (_ & Sm & _). destruct (dec_nonneg_spec n Hn) as (_ & Sn & _).
  specialize (Sm []). specialize (Sn []). rewrite E, Sn in Sm. injection Sm. auto.
Qed.

(** [strcasecmp(a, b) == 0] *)
Definition strcaseeq (a b : bytes) : bool := beq (map tolower a) (map tolower b).

Lemma strcaseeq_true a b : strcaseeq a b = true <-> map tolower a = map tolower b.
Proof. apply beq_true. Qed.

Lemma is_prefix_spec p s : is_prefix p s = true <-> exists r, s = p ++ r.
Proof.
  revert s. induction p as [|x p IH]; intros s; cbn; [split; eauto|].
  destruct s as [|y s]; [split; [discriminate|intros [r E]; discriminate]|].
  rewrite andb_true_iff, Z.eqb_eq, IH. split.
  - intros [-> [r ->]]. eauto.
  - intros [r [= -> ->]]. eauto.
Qed.

Lemma split_first_None c s : split_first c s = None <-> c ∉ s.
Proof.
  destruct (split_first c s) as [[a b]|] eqn:E.
  - apply split_first_Some in E as [-> _]. split; [discriminate|]. intros H. destruct H.
    apply elem_of_app. right. left.
  - split; [|reflexivity]. intros _ Hin. apply list_elem_of_split_l in Hin as (a & b & -> & Ha).
    rewrite split_first_app in E by exact Ha. discriminate.
Qed.
