(* ===== verification/IpWire.v ===== *)
(** * Packet bytes of the TUN stack: [native/src/ip_stack.c]

    Big-endian fields, the Internet checksum, the IPv4 and IPv6 checksum
    writers and the IPv6 extension-header walk.  A packet is the list of its
    bytes; the [length] argument of the C functions is the length of the list. *)

From S2P Require Import Prelude CLib.

Module Wire.

Definition CH_IP_STACK_MAX_PACKET : Z := 65535.
Definition CH_IP_STACK_EXTENSION_HEADER_LIMIT : Z := 512.

(** ** Big-endian fields *)

Definition ch_ip_stack_read_u16 (p : bytes) (i : Z) : result Z :=
  b0 ← rd p i; b1 ← rd p (i + 1);
  Done (u16 (Z.lor (Z.shiftl b0 8) b1)).

Definition ch_ip_stack_read_u32 (p : bytes) (i : Z) : result Z :=
  b0 ← rd p i; b1 ← rd p (i + 1); b2 ← rd p (i + 2); b3 ← rd p (i + 3);
  Done (Z.lor (Z.lor (Z.lor (Z.shiftl b0 24) (Z.shiftl b1 16)) (Z.shiftl b2 8)) b3).

Definition be16 (v : Z) : bytes := [u8 (Z.shiftr v 8); u8 v].

Definition ch_ip_stack_write_u16 (p : bytes) (i v : Z) : result bytes := wr p i (be16 v).

(** ** The Internet checksum *)

Fixpoint ch_ip_stack_checksum_add (l : bytes) (sum : Z) : Z :=
  match l with
  | b0 :: b1 :: l' =>
      ch_ip_stack_checksum_add l' (u32 (sum + Z.lor (Z.shiftl b0 8) b1))
  | [b0] => u32 (sum + Z.shiftl b0 8)
  | [] => sum
  end.

(** The loop of [checksum_finish]; two rounds are enough for a 32-bit sum
    ([checksum_fold_exits]). *)
Fixpoint checksum_fold (fuel : nat) (sum : Z) : Z :=
  match fuel with
  | O => sum
  | S fuel' =>
      if Z.shiftr sum 16 =? 0 then sum
      else checksum_fold fuel' (u32 (Z.land sum 65535 + Z.shiftr sum 16))
  end.

Definition ch_ip_stack_checksum_finish (sum : Z) : Z := u16 (Z.lnot (checksum_fold 2 sum)).

Definition ch_ip_stack_checksum (l : bytes) : Z :=
  ch_ip_stack_checksum_finish (ch_ip_stack_checksum_add l 0).

(** ** IPv4: header checksum, and the TCP checksum with its pseudo header *)

Definition ch_ip_stack_ipv4_checksums (packet : bytes) : result bytes :=
  let length := lenZ packet in
  b0 ← rd packet 0;
  let header_length := Z.land b0 15 * 4 in
  if (header_length <? 20) || (header_length >? length) then Done packet
  else
    packet ← wr packet 10 [0; 0];
    header ← rds packet 0 header_length;
    packet ← ch_ip_stack_write_u16 packet 10 (ch_ip_stack_checksum header);
    proto ← rd packet 9;
    if negb (proto =? 6) || (length <? header_length + 20) then Done packet
    else
      let tcp_length := length - header_length in
      packet ← wr packet (header_length + 16) [0; 0];
      addresses ← rds packet 12 8;
      let sum := ch_ip_stack_checksum_add addresses 0 in
      let sum := ch_ip_stack_checksum_add
                   [0; 6; u8 (Z.shiftr tcp_length 8); u8 tcp_length] sum in
      segment ← rds packet header_length tcp_length;
      let sum := ch_ip_stack_checksum_add segment sum in
      ch_ip_stack_write_u16 packet (header_length + 16) (ch_ip_stack_checksum_finish sum).

(** ** The IPv6 extension-header chain *)

Definition is_extension (protocol : Z) : bool :=
  (protocol =? 0) || (protocol =? 43) || (protocol =? 60) || (protocol =? 51).

(** The loop; [fuel] is [16 - extension_count]. *)
Fixpoint ipv6_transport_loop (fuel : nat) (packet : bytes) (protocol offset : Z)
    : result (option (Z * Z)) :=
  let length := lenZ packet in
  if is_extension protocol then
    match fuel with
    | O => Done None
    | S fuel' =>
        if offset + 2 >? length then Done None
        else
          units ← rd packet (offset + 1);
          let extension_length :=
            if protocol =? 51 then (units + 2) * 4 else (units + 1) * 8 in
          if (extension_length <? 8) || (offset + extension_length >? length)
             || (offset + extension_length >? CH_IP_STACK_EXTENSION_HEADER_LIMIT)
          then Done None
          else
            next ← rd packet offset;
            ipv6_transport_loop fuel' packet next (offset + extension_length)
    end
  else if protocol =? 44 then Done None
  else Done (Some (protocol, offset)).

(** [Some (protocol, offset)] for the source's return value 1. *)
Definition ch_ip_stack_ipv6_transport (packet : bytes) : result (option (Z * Z)) :=
  let length := lenZ packet in
  if length <? 40 then Done None
  else
    b0 ← rd packet 0;
    if negb (Z.shiftr b0 4 =? 6) then Done None
    else
      payload ← ch_ip_stack_read_u16 packet 4;
      if negb (payload =? length - 40) then Done None
      else
        protocol ← rd packet 6;
        ipv6_transport_loop 16 packet protocol 40.

Definition be32 (v : Z) : bytes :=
  [u8 (Z.shiftr v 24); u8 (Z.shiftr v 16); u8 (Z.shiftr v 8); u8 v].

Definition ch_ip_stack_ipv6_tcp_checksum (packet : bytes) : result bytes :=
  let length := lenZ packet in
  transport ← ch_ip_stack_ipv6_transport packet;
  match transport with
  | None => Done packet
  | Some (protocol, tcp_offset) =>
      if negb (protocol =? 6) || (length <? tcp_offset + 20) then Done packet
      else
        let tcp_length := length - tcp_offset in
        packet ← wr packet (tcp_offset + 16) [0; 0];
        addresses ← rds packet 8 32;
        let sum := ch_ip_stack_checksum_add addresses 0 in
        let sum := ch_ip_stack_checksum_add (be32 tcp_length ++ [0; 0; 0; 6]) sum in
        segment ← rds packet tcp_offset tcp_length;
        let sum := ch_ip_stack_checksum_add segment sum in
        ch_ip_stack_write_u16 packet (tcp_offset + 16) (ch_ip_stack_checksum_finish sum)
  end.

(** ** UDP checksums, as read (0 when the packet verifies) and as written *)

Definition ch_ip_stack_udp_checksum_ipv4 (packet : bytes) : result Z :=
  let length := lenZ packet in
  b0 ← rd packet 0;
  let header_length := Z.land b0 15 * 4 in
  if (header_length <? 20) || (length <? header_length + 8) then Done UINT16_MAX
  else
    let udp_length := length - header_length in
    addresses ← rds packet 12 8;
    let sum := ch_ip_stack_checksum_add addresses 0 in
    let sum := ch_ip_stack_checksum_add
                 [0; 17; u8 (Z.shiftr udp_length 8); u8 udp_length] sum in
    datagram ← rds packet header_length udp_length;
    Done (ch_ip_stack_checksum_finish (ch_ip_stack_checksum_add datagram sum)).

Definition ch_ip_stack_udp_checksum_ipv6 (packet : bytes) : result Z :=
  let length := lenZ packet in
  transport ← ch_ip_stack_ipv6_transport packet;
  match transport with
  | None => Done UINT16_MAX
  | Some (protocol, udp_offset) =>
      if negb (protocol =? 17) || (length <? udp_offset + 8) then Done UINT16_MAX
      else
        let udp_length := length - udp_offset in
        addresses ← rds packet 8 32;
        let sum := ch_ip_stack_checksum_add addresses 0 in
        let sum := ch_ip_stack_checksum_add (be32 udp_length ++ [0; 0; 0; 17]) sum in
        datagram ← rds packet udp_offset udp_length;
        Done (ch_ip_stack_checksum_finish (ch_ip_stack_checksum_add datagram sum))
  end.

(** ** Facts: big-endian fields *)

Lemma land_ones8 a : Z.land a 15 = a mod 16.
Proof. change 15 with (Z.ones 4). apply Z.land_ones. lia. Qed.

Lemma land_ones16 a : Z.land a 65535 = a mod 65536.
Proof. change 65535 with (Z.ones 16). apply Z.land_ones. lia. Qed.

Definition word_at (l : bytes) (i : Z) : Z := byte_at l i * 256 + byte_at l (i + 1).

Lemma word_at_range l i : bytes_ok l -> 0 <= word_at l i <= 65535.
Proof.
  intros H. pose proof (byte_at_ok l i H). pose proof (byte_at_ok l (i + 1) H).
  unfold word_at, byte_ok in *. lia.
Qed.

Lemma read_u16_word p i :
  bytes_ok p -> 0 <= i -> i + 2 <= lenZ p ->
  ch_ip_stack_read_u16 p i = Done (word_at p i).
Proof.
  intros Hok Hi Hl. unfold ch_ip_stack_read_u16.
  io. pose proof (byte_at_ok p (i + 1) Hok) as H1. unfold byte_ok in H1.
  rewrite lor_shift8 by lia. unfold u16. rewrite Z.mod_small; [reflexivity|].
  pose proof (word_at_range p i Hok). unfold word_at in *. lia.
Qed.

Lemma be16_ok v : bytes_ok (be16 v).
Proof.
  unfold be16, u8. repeat constructor; try apply Z.mod_pos_bound; lia.
Qed.

Lemma be16_value v : 0 <= v <= 65535 -> u8 (Z.shiftr v 8) * 256 + u8 v = v.
Proof.
  intros. unfold u8. rewrite Z.shiftr_div_pow2 by lia. change (2 ^ 8) with 256.
  rewrite (Z.mod_small (v / 256)); [|split; [apply Z.div_pos|apply Z.div_lt_upper_bound]; lia].
  pose proof (Z.div_mod v 256). lia.
Qed.

Lemma word_at_put16 l i v :
  0 <= i -> i + 2 <= lenZ l -> 0 <= v <= 65535 -> word_at (put l i (be16 v)) i = v.
Proof.
  intros. unfold word_at. assert (lenZ (be16 v) = 2) by reflexivity.
  rewrite !byte_at_put_in by lia. replace (i - i) with 0 by lia.
  replace (i + 1 - i) with 1 by lia. apply be16_value. assumption.
Qed.

Lemma word_at_put_out l i v j :
  0 <= i -> i + lenZ v <= lenZ l -> 0 <= j -> j + 2 <= i \/ i + lenZ v <= j ->
  word_at (put l i v) j = word_at l j.
Proof.
  intros. unfold word_at. rewrite !byte_at_put_out by lia. reflexivity.
Qed.

(** ** Facts: the ones'-complement sum *)

(** The sum of the big-endian words of a buffer, an odd last byte padded. *)
Fixpoint wsum (l : bytes) : Z :=
  match l with
  | b0 :: b1 :: l' => b0 * 256 + b1 + wsum l'
  | [b0] => b0 * 256
  | [] => 0
  end.

Lemma pair_ind (P : bytes -> Prop) :
  P [] -> (forall a, P [a]) -> (forall a b l, P l -> P (a :: b :: l)) -> forall l, P l.
Proof.
  intros H0 H1 H2 l. enough (P l /\ forall a, P (a :: l)) by tauto.
  induction l as [|x l [IH1 IH2]]; auto.
Qed.

Lemma wsum_range l : bytes_ok l -> 0 <= wsum l /\ 2 * wsum l <= 65535 * (lenZ l + 1).
Proof.
  induction l as [|a|a b l IH] using pair_ind; intros H.
  - unfold lenZ. simpl. lia.
  - unfold lenZ. simpl. inversion H; subst. unfold byte_ok in *. lia.
  - inversion H as [|? ? Ha H']; subst. inversion H' as [|? ? Hb H'']; subst.
    specialize (IH H''). rewrite !lenZ_cons. unfold byte_ok in *. simpl. lia.
Qed.

Lemma checksum_add_wsum l s :
  bytes_ok l -> 0 <= s -> s + wsum l < 2 ^ 32 ->
  ch_ip_stack_checksum_add l s = s + wsum l.
Proof.
  revert s. induction l as [|a|a b l IH] using pair_ind; intros s H Hs Hlt.
  - simpl. lia.
  - inversion H; subst. unfold byte_ok in *. simpl in *. unfold u32.
    rewrite Z.shiftl_mul_pow2 by lia. apply Z.mod_small. lia.
  - inversion H as [|? ? Ha H']; subst. inversion H' as [|? ? Hb H'']; subst.
    pose proof (wsum_range l H''). unfold byte_ok in *. simpl in Hlt |- *.
    rewrite lor_shift8 by lia. unfold u32. rewrite Z.mod_small by lia.
    rewrite IH by (assumption || lia). lia.
Qed.

Lemma wsum_app l v : Z.even (lenZ l) = true -> wsum (l ++ v) = wsum l + wsum v.
Proof.
  induction l as [|a|a b l IH] using pair_ind; intros H; [reflexivity|discriminate|].
  simpl. rewrite IH; [lia|]. rewrite !lenZ_cons in H.
  replace (1 + (1 + lenZ l)) with (lenZ l + 2 * 1) in H by lia.
  rewrite Z.even_add_mul_2 in H. assumption.
Qed.

(** Two bytes at an even offset contribute one word of the sum. *)
Lemma wsum_put16 l i a b :
  0 <= i -> i + 2 <= lenZ l -> Z.even i = true ->
  wsum (put l i [a; b]) = wsum l - word_at l i + (a * 256 + b).
Proof.
  intros Hi Hl He. unfold put.
  assert (Hlen : lenZ (take (Z.to_nat i) l) = i).
  { unfold lenZ in *. rewrite length_take. lia. }
  rewrite wsum_app by (rewrite Hlen; assumption).
  assert (Hl' : l = take (Z.to_nat i) l ++ byte_at l i :: byte_at l (i + 1) :: drop (Z.to_nat i + 2) l).
  { rewrite <- (take_drop (Z.to_nat i) l) at 1. f_equal.
    unfold lenZ in Hl. unfold byte_at.
    destruct (lookup_lt_is_Some_2 l (Z.to_nat i) ltac:(lia)) as [x Hx].
    destruct (lookup_lt_is_Some_2 l (S (Z.to_nat i)) ltac:(lia)) as [y Hy].
    rewrite (drop_S l x), (drop_S l y) by assumption.
    replace (Z.to_nat (i + 1)) with (S (Z.to_nat i)) by lia.
    rewrite Hx, Hy. replace (Z.to_nat i + 2)%nat with (S (S (Z.to_nat i))) by lia. reflexivity. }
  assert (Hw : wsum l = wsum (take (Z.to_nat i) l) + (word_at l i + wsum (drop (Z.to_nat i + 2) l))).
  { rewrite Hl' at 1. rewrite wsum_app by (rewrite Hlen; assumption). unfold word_at. simpl. lia. }
  cbn [app length wsum]. lia.
Qed.

Lemma checksum_fold_spec s :
  0 <= s < 2 ^ 32 ->
  let f := checksum_fold 2 s in
  0 <= f <= 65535 /\ f mod 65535 = s mod 65535 /\ (f = 0 <-> s = 0).
Proof.
  intros Hs. cbn [checksum_fold].
  rewrite !land_ones16, !Z.shiftr_div_pow2 by lia. change (2 ^ 16) with 65536.
  pose proof (Z.div_mod s 65536 ltac:(lia)). pose proof (Z.mod_pos_bound s 65536 ltac:(lia)).
  set (q := s / 65536) in *. set (r := s mod 65536) in *.
  assert (0 <= q < 65536) by (unfold q; split; [apply Z.div_pos|apply Z.div_lt_upper_bound]; lia).
  destruct (q =? 0) eqn:Hq.
  { cbv zeta. repeat split; lia. }
  assert (Hu : u32 (r + q) = r + q) by (apply Z.mod_small; lia). rewrite Hu.
  assert (Hmod : (r + q) mod 65535 = s mod 65535).
  { rewrite (Z.div_mod s 65536) by lia. fold q r.
    replace (65536 * q + r) with (r + q + q * 65535) by lia.
    rewrite Z.mod_add by lia. reflexivity. }
  pose proof (Z.div_mod (r + q) 65536 ltac:(lia)). pose proof (Z.mod_pos_bound (r + q) 65536 ltac:(lia)).
  set (q2 := (r + q) / 65536) in *. set (r2 := (r + q) mod 65536) in *.
  assert (0 <= q2 < 2) by (unfold q2; split; [apply Z.div_pos|apply Z.div_lt_upper_bound]; lia).
  destruct (q2 =? 0) eqn:Hq2.
  { cbv zeta. repeat split; lia. }
  assert (Hu2 : u32 (r2 + q2) = r2 + q2) by (apply Z.mod_small; lia). rewrite Hu2.
  cbv zeta. split; [lia|]. split; [|lia]. rewrite <- Hmod.
  replace (r + q) with (r2 + q2 + q2 * 65535) by lia. rewrite Z.mod_add by lia. reflexivity.
Qed.

(** The loop of [checksum_finish] has left its condition after two rounds. *)
Lemma checksum_fold_exits s : 0 <= s < 2 ^ 32 -> Z.shiftr (checksum_fold 2 s) 16 = 0.
Proof.
  intros Hs. destruct (checksum_fold_spec s Hs) as [H _].
  rewrite Z.shiftr_div_pow2 by lia. apply Z.div_small. change (2 ^ 16) with 65536. lia.
Qed.

Lemma checksum_finish_spec s :
  0 <= s < 2 ^ 32 -> ch_ip_stack_checksum_finish s = 65535 - checksum_fold 2 s.
Proof.
  intros Hs. destruct (checksum_fold_spec s Hs) as [H _].
  unfold ch_ip_stack_checksum_finish, u16, Z.lnot.
  replace (Z.pred (- checksum_fold 2 s)) with (65535 - checksum_fold 2 s + (-1) * 2 ^ 16) by lia.
  rewrite Z.mod_add by lia. apply Z.mod_small. lia.
Qed.

Lemma checksum_finish_range s :
  0 <= s < 2 ^ 32 -> 0 <= ch_ip_stack_checksum_finish s <= 65535.
Proof.
  intros Hs. rewrite checksum_finish_spec by assumption.
  destruct (checksum_fold_spec s Hs). lia.
Qed.

(** Adding the complement to the sum it was computed from makes it verify. *)
Lemma checksum_closes s :
  0 <= s -> s + 65535 < 2 ^ 32 ->
  ch_ip_stack_checksum_finish (s + ch_ip_stack_checksum_finish s) = 0.
Proof.
  intros Hs Hlt. destruct (checksum_fold_spec s ltac:(lia)) as (Hr & Hm & Hz).
  rewrite (checksum_finish_spec s) by lia. set (f := checksum_fold 2 s) in *.
  destruct (checksum_fold_spec (s + (65535 - f)) ltac:(lia)) as (Hr' & Hm' & Hz').
  rewrite checksum_finish_spec by lia. set (g := checksum_fold 2 (s + (65535 - f))) in *.
  assert (Hg : g mod 65535 = 0).
  { rewrite Hm'. replace (s + (65535 - f)) with (s - f + 1 * 65535) by lia.
    rewrite Z.mod_add by lia. rewrite Zminus_mod, <- Hm, Z.sub_diag. reflexivity. }
  destruct (decide (g = 65535)); [lia|].
  rewrite Z.mod_small in Hg by lia. lia.
Qed.

(** A segment whose checksum field is zero verifies once the complement of its
    sum is written there; [s0] is the sum of the pseudo header. *)
Lemma segment_closes seg k s0 :
  bytes_ok seg -> lenZ seg <= 65535 -> 0 <= s0 <= 2 ^ 30 ->
  0 <= k -> k + 2 <= lenZ seg -> Z.even k = true -> word_at seg k = 0 ->
  let c := ch_ip_stack_checksum_finish (ch_ip_stack_checksum_add seg s0) in
  0 <= c <= 65535 /\
  ch_ip_stack_checksum_finish (ch_ip_stack_checksum_add (put seg k (be16 c)) s0) = 0.
Proof.
  intros Hok Hlen Hs0 Hk Hk2 Hev Hz c. destruct (wsum_range seg Hok) as [Hw1 Hw2].
  unfold c. rewrite (checksum_add_wsum seg) by (assumption || lia).
  pose proof (checksum_finish_range (s0 + wsum seg) ltac:(lia)) as Hc.
  split; [assumption|]. set (d := ch_ip_stack_checksum_finish (s0 + wsum seg)) in *.
  assert (Hd : wsum (put seg k (be16 d)) = wsum seg + d).
  { unfold be16. rewrite wsum_put16, Hz by assumption. rewrite be16_value by assumption. lia. }
  rewrite checksum_add_wsum; [|apply bytes_ok_put; [assumption|apply be16_ok]|lia|lia].
  rewrite Hd, Z.add_assoc. apply checksum_closes; lia.
Qed.

Lemma header_length_range b : 0 <= Z.land b 15 * 4 <= 60 /\ Z.even (Z.land b 15 * 4) = true.
Proof.
  rewrite land_ones8. pose proof (Z.mod_pos_bound b 16 ltac:(lia)). split; [lia|].
  replace (b mod 16 * 4) with (0 + 2 * (b mod 16 * 2)) by lia.
  rewrite Z.even_add_mul_2. reflexivity.
Qed.

(** The sum of the TCP segment of an IPv4 packet with its pseudo header, as a
    receiver recomputes it (0 when the checksum field is right). *)
Definition ipv4_tcp_verify (packet : bytes) (header_length : Z) : Z :=
  let tcp_length := lenZ packet - header_length in
  ch_ip_stack_checksum_finish
    (ch_ip_stack_checksum_add (sub packet header_length tcp_length)
       (ch_ip_stack_checksum_add [0; 6; u8 (Z.shiftr tcp_length 8); u8 tcp_length]
          (ch_ip_stack_checksum_add (sub packet 12 8) 0))).

Definition ipv6_tcp_verify (packet : bytes) (tcp_offset : Z) : Z :=
  let tcp_length := lenZ packet - tcp_offset in
  ch_ip_stack_checksum_finish
    (ch_ip_stack_checksum_add (sub packet tcp_offset tcp_length)
       (ch_ip_stack_checksum_add (be32 tcp_length ++ [0; 0; 0; 6])
          (ch_ip_stack_checksum_add (sub packet 8 32) 0))).

Lemma u8_ok z : byte_ok (u8 z).
Proof. unfold byte_ok, u8. apply Z.mod_pos_bound. lia. Qed.

Lemma pseudo_range l pseudo :
  bytes_ok l -> bytes_ok pseudo -> lenZ l <= 32 -> lenZ pseudo <= 8 ->
  0 <= ch_ip_stack_checksum_add pseudo (ch_ip_stack_checksum_add l 0) <= 2 ^ 30.
Proof.
  intros Hl Hp H1 H2. destruct (wsum_range l Hl), (wsum_range pseudo Hp).
  rewrite (checksum_add_wsum l 0) by (assumption || lia).
  rewrite checksum_add_wsum by (assumption || lia). lia.
Qed.

Lemma word_at_put_zero l i : 0 <= i -> i + 2 <= lenZ l -> word_at (put l i [0; 0]) i = 0.
Proof. intros. apply (word_at_put16 l i 0); lia. Qed.

Lemma word_at_sub l i n j :
  0 <= i -> 0 <= n -> 0 <= j -> j + 2 <= n -> word_at (sub l i n) j = word_at l (i + j).
Proof.
  intros. unfold word_at. rewrite !byte_at_sub by lia. do 2 f_equal. lia.
Qed.

(** Writing the transport checksum of a packet whose field at [field] is zero:
    [off] is where the segment starts. *)
Lemma write_transport_checksum p off field s0 :
  bytes_ok p -> lenZ p <= 65535 -> 0 <= s0 <= 2 ^ 30 ->
  0 <= off -> off <= field -> Z.even (field - off) = true -> field + 2 <= lenZ p ->
  word_at p field = 0 ->
  let c := ch_ip_stack_checksum_finish
             (ch_ip_stack_checksum_add (sub p off (lenZ p - off)) s0) in
  ch_ip_stack_checksum_finish
    (ch_ip_stack_checksum_add (sub (put p field (be16 c)) off (lenZ p - off)) s0) = 0.
Proof.
  intros Hok Hlen Hs0 Ho Hf He Hl Hz c. assert (Hb : lenZ (be16 c) = 2) by reflexivity.
  assert (Hsub : lenZ (sub p off (lenZ p - off)) = lenZ p - off) by (apply lenZ_sub; lia).
  rewrite sub_put_in by lia.
  apply segment_closes; try lia; [apply bytes_ok_sub; assumption|assumption|].
  rewrite word_at_sub by lia. rewrite <- Hz. f_equal. lia.
Qed.

Lemma header_closes p hl :
  bytes_ok p -> lenZ p <= 65535 -> 20 <= hl <= lenZ p -> word_at p 10 = 0 ->
  ch_ip_stack_checksum (sub (put p 10 (be16 (ch_ip_stack_checksum (sub p 0 hl)))) 0 hl) = 0.
Proof.
  intros Hok Hlen Hhl Hz. unfold ch_ip_stack_checksum.
  set (c := ch_ip_stack_checksum_finish (ch_ip_stack_checksum_add (sub p 0 hl) 0)).
  assert (Hb : lenZ (be16 c) = 2) by reflexivity.
  assert (Hsub : lenZ (sub p 0 hl) = hl) by (apply lenZ_sub; lia).
  rewrite sub_put_in by lia. replace (10 - 0) with 10 by lia.
  unfold c. apply segment_closes; try lia; try reflexivity.
  - apply bytes_ok_sub. assumption.
  - rewrite word_at_sub by lia. assumption.
Qed.

(** What [ipv4_checksums] leaves in the packet. *)
Definition ipv4_checksums_post (packet packet' : bytes) (hl : Z) : Prop :=
  lenZ packet' = lenZ packet /\ bytes_ok packet' /\
  ch_ip_stack_checksum (sub packet' 0 hl) = 0 /\
  (byte_at packet 9 = 6 -> hl + 20 <= lenZ packet -> ipv4_tcp_verify packet' hl = 0) /\
  (forall i, 0 <= i < lenZ packet -> i <> 10 -> i <> 11 ->
     ~ (byte_at packet 9 = 6 /\ hl + 16 <= i < hl + 18) -> byte_at packet' i = byte_at packet i).

Lemma ipv4_checksums_spec packet hl :
  bytes_ok packet -> hl = Z.land (byte_at packet 0) 15 * 4 ->
  20 <= hl <= lenZ packet -> lenZ packet <= 65535 ->
  exists packet', ch_ip_stack_ipv4_checksums packet = Done packet' /\
    ipv4_checksums_post packet packet' hl.
Proof.
  intros Hok Hhl H20 Hlen. unfold ch_ip_stack_ipv4_checksums.
  destruct (header_length_range (byte_at packet 0)) as [_ Hev].
  rewrite <- Hhl in Hev.
  io_step. rewrite <- Hhl. rewrite (proj2 (orb_false_iff _ _)) by lia.
  io_step. set (p1 := put packet 10 [0; 0]).
  assert (Hl1 : lenZ p1 = lenZ packet) by (apply lenZ_put; change (lenZ [0; 0]) with 2; lia).
  assert (Hok1 : bytes_ok p1) by (apply bytes_ok_put; [assumption|apply (be16_ok 0)]).
  assert (Hz1 : word_at p1 10 = 0) by (apply word_at_put_zero; lia).
  io_step. unfold ch_ip_stack_write_u16. set (c := ch_ip_stack_checksum (sub p1 0 hl)).
  assert (Hbc : lenZ (be16 c) = 2) by reflexivity.
  io_step. set (p2 := put p1 10 (be16 c)).
  assert (Hl2 : lenZ p2 = lenZ packet) by (unfold p2; rewrite lenZ_put; lia).
  assert (Hok2 : bytes_ok p2) by (apply bytes_ok_put; [assumption|apply be16_ok]).
  assert (Hh2 : ch_ip_stack_checksum (sub p2 0 hl) = 0) by (apply header_closes; assumption || lia).
  assert (H0c : lenZ [0; 0] = 2) by reflexivity.
  assert (Hout : forall i, 0 <= i < lenZ packet -> i <> 10 -> i <> 11 -> byte_at p2 i = byte_at packet i).
  { intros i Hi Hi0 Hi1. unfold p2, p1. rewrite !byte_at_put_out; rewrite ?lenZ_put; lia. }
  io_step. rewrite (Hout 9) by lia.
  destruct (negb (byte_at packet 9 =? 6) || (lenZ packet <? hl + 20)) eqn:Hc.
  { eexists. split; [reflexivity|]. repeat split; auto; intros; lia. }
  apply orb_false_iff in Hc as [Hp9 Hfit].
  io_step. set (p3 := put p2 (hl + 16) [0; 0]).
  assert (Hl3 : lenZ p3 = lenZ packet) by (unfold p3; rewrite lenZ_put; lia).
  assert (Hok3 : bytes_ok p3) by (apply bytes_ok_put; [assumption|apply (be16_ok 0)]).
  io_step. io_step. set (tl := lenZ packet - hl).
  set (s0 := ch_ip_stack_checksum_add [0; 6; _; _] _).
  set (c2 := ch_ip_stack_checksum_finish _). assert (Hbc2 : lenZ (be16 c2) = 2) by reflexivity.
  rewrite wr_Done by lia. eexists. split; [reflexivity|].
  assert (Hps : bytes_ok [0; 6; u8 (Z.shiftr tl 8); u8 tl])
    by (repeat constructor; try apply u8_ok; unfold byte_ok; lia).
  split; [rewrite lenZ_put; lia|]. split; [apply bytes_ok_put; [assumption|apply be16_ok]|].
  split; [|split].
  - rewrite sub_put_out by lia. unfold p3. rewrite sub_put_out by lia. assumption.
  - intros _ _. unfold ipv4_tcp_verify. rewrite lenZ_put, Hl3 by lia. fold tl.
    rewrite (sub_put_out p3 (hl + 16) (be16 c2) 12 8) by lia. fold s0.
    replace tl with (lenZ p3 - hl) by lia. unfold c2. replace tl with (lenZ p3 - hl) by lia.
    apply write_transport_checksum; try lia; try assumption.
    + unfold s0. apply pseudo_range; try assumption;
        [apply bytes_ok_sub; assumption|rewrite lenZ_sub; lia|unfold lenZ; simpl; lia].
    + replace (hl + 16 - hl) with 16 by lia. reflexivity.
    + apply word_at_put_zero; lia.
  - intros i Hi Hi0 Hi1 Hi2. unfold p3. rewrite !byte_at_put_out by (rewrite ?lenZ_put; lia).
    apply Hout; lia.
Qed.

(** ** The extension-header walk *)

Lemma extension_length_range units protocol :
  0 <= units < 256 ->
  8 <= (if protocol =? 51 then (units + 2) * 4 else (units + 1) * 8) <= 2048.
Proof. intros. case_if; lia. Qed.

(** The walk never reads outside the packet; a transport header it reports
    starts inside the packet, after at most 512 bytes of headers. *)
Lemma ipv6_transport_loop_safe fuel packet protocol offset :
  bytes_ok packet -> 40 <= offset <= lenZ packet -> byte_ok protocol ->
  exists r, ipv6_transport_loop fuel packet protocol offset = Done r /\
    forall proto off, r = Some (proto, off) ->
      offset <= off <= lenZ packet /\ (off = offset \/ off <= 512) /\
      byte_ok proto /\ is_extension proto = false /\ proto <> 44.
Proof.
  revert protocol offset. induction fuel as [|fuel IH]; intros protocol offset Hok Hoff Hpr;
    cbn [ipv6_transport_loop]; destruct (is_extension protocol) eqn:Hext.
  - eexists. split; [reflexivity|]. discriminate.
  - destruct (protocol =? 44) eqn:H44; (eexists; split; [reflexivity|]); [discriminate|].
    intros ? ? [= <- <-]. split_and!; auto; lia.
  - destruct (offset + 2 >? lenZ packet) eqn:Hfit; [eexists; split; [reflexivity|discriminate]|].
    io_step. pose proof (byte_at_ok packet (offset + 1) Hok) as Hu. unfold byte_ok in Hu.
    pose proof (extension_length_range _ protocol Hu) as Hel. set (el := if protocol =? 51 then _ else _) in *.
    case_if; [eexists; split; [reflexivity|discriminate]|].
    unfold CH_IP_STACK_EXTENSION_HEADER_LIMIT in *. io_step.
    destruct (IH (byte_at packet offset) (offset + el) Hok ltac:(lia) (byte_at_ok _ _ Hok)) as (r & Hr & Hs).
    exists r. split; [assumption|]. intros proto off E.
    destruct (Hs proto off E) as (? & ? & ? & ? & ?). split_and!; auto; lia.
  - destruct (protocol =? 44) eqn:H44; (eexists; split; [reflexivity|]); [discriminate|].
    intros ? ? [= <- <-]. split_and!; auto; lia.
Qed.

(** The walk depends on the extension headers alone: a packet that agrees with
    it before the transport header gives the same answer. *)
Lemma ipv6_transport_loop_agree fuel p q protocol offset proto off :
  bytes_ok p -> byte_ok protocol -> lenZ p = lenZ q -> 40 <= offset <= lenZ p ->
  (forall i, 40 <= i < off -> byte_at p i = byte_at q i) ->
  ipv6_transport_loop fuel p protocol offset = Done (Some (proto, off)) ->
  ipv6_transport_loop fuel q protocol offset = Done (Some (proto, off)).
Proof.
  intros Hok. revert protocol offset.
  induction fuel as [|fuel IH]; intros protocol offset Hpr Hlen Hoff Hag;
    cbn [ipv6_transport_loop]; destruct (is_extension protocol) eqn:Hext; auto.
  rewrite <- Hlen. destruct (offset + 2 >? lenZ p) eqn:Hfit; [discriminate|].
  pose proof (byte_at_ok p (offset + 1) Hok) as Hu. unfold byte_ok in Hu.
  io_step. pose proof (extension_length_range _ protocol Hu) as Hel.
  set (el := if protocol =? 51 then _ else _) in *.
  case_if; [discriminate|]. io_step. intros Hrun.
  destruct (ipv6_transport_loop_safe fuel p (byte_at p offset) (offset + el) Hok ltac:(lia) (byte_at_ok _ _ Hok))
    as (r & Hr & Hs). rewrite Hr in Hrun. injection Hrun as ->.
  destruct (Hs proto off eq_refl) as (? & _).
  io_step. rewrite <- (Hag (offset + 1)) by lia. fold el. rewrite Heqb.
  io_step. rewrite <- (Hag offset) by lia.
  apply IH; auto; try lia. apply byte_at_ok. assumption.
Qed.

Lemma ipv6_transport_safe packet :
  bytes_ok packet ->
  exists r, ch_ip_stack_ipv6_transport packet = Done r /\
    forall proto off, r = Some (proto, off) ->
      40 <= off <= lenZ packet /\ (off = 40 \/ off <= 512) /\
      byte_ok proto /\ is_extension proto = false /\ proto <> 44 /\
      Z.shiftr (byte_at packet 0) 4 = 6 /\ word_at packet 4 = lenZ packet - 40.
Proof.
  intros Hok. unfold ch_ip_stack_ipv6_transport.
  destruct (lenZ packet <? 40) eqn:H40; [eexists; split; [reflexivity|discriminate]|].
  io_step. destruct (Z.shiftr (byte_at packet 0) 4 =? 6) eqn:Hv;
    [|eexists; split; [reflexivity|discriminate]]. cbn [negb].
  rewrite read_u16_word by (assumption || lia). cbn [mbind outcome_bind].
  destruct (word_at packet 4 =? lenZ packet - 40) eqn:Hpl;
    [|eexists; split; [reflexivity|discriminate]]. cbn [negb]. io_step.
  destruct (ipv6_transport_loop_safe 16 packet (byte_at packet 6) 40 Hok ltac:(lia) (byte_at_ok _ _ Hok))
    as (r & Hr & Hs).
  exists r. split; [assumption|]. intros proto off E. destruct (Hs proto off E) as (? & ? & ? & ? & ?).
  split_and!; auto; lia.
Qed.

Lemma ipv6_transport_agree p q proto off :
  bytes_ok p -> bytes_ok q -> lenZ p = lenZ q ->
  (forall i, 0 <= i < 8 \/ 40 <= i < off -> byte_at p i = byte_at q i) ->
  ch_ip_stack_ipv6_transport p = Done (Some (proto, off)) ->
  ch_ip_stack_ipv6_transport q = Done (Some (proto, off)).
Proof.
  intros Hp Hq Hlen Hag Hrun.
  destruct (ipv6_transport_safe p Hp) as (r & Hr & Hs). rewrite Hr in Hrun. injection Hrun as ->.
  destruct (Hs proto off eq_refl) as (? & _). revert Hr.
  unfold ch_ip_stack_ipv6_transport. rewrite <- Hlen.
  destruct (lenZ p <? 40) eqn:H40; [discriminate|].
  rewrite (rd_Done p 0), (rd_Done q 0) by lia. cbn [mbind outcome_bind]. rewrite (Hag 0) by lia.
  case_if; [discriminate|].
  rewrite (read_u16_word p), (read_u16_word q) by (assumption || lia). cbn [mbind outcome_bind].
  assert (word_at p 4 = word_at q 4) as -> by (unfold word_at; rewrite !Hag by lia; reflexivity).
  case_if; [discriminate|].
  rewrite (rd_Done p 6), (rd_Done q 6) by lia. cbn [mbind outcome_bind]. rewrite (Hag 6) by lia.
  apply ipv6_transport_loop_agree; auto with bytes; lia.
Qed.

Lemma ipv6_tcp_checksum_spec packet off :
  bytes_ok packet -> lenZ packet <= 65535 ->
  ch_ip_stack_ipv6_transport packet = Done (Some (6, off)) -> off + 20 <= lenZ packet ->
  exists packet', ch_ip_stack_ipv6_tcp_checksum packet = Done packet' /\
    lenZ packet' = lenZ packet /\ bytes_ok packet' /\ ipv6_tcp_verify packet' off = 0 /\
    ch_ip_stack_ipv6_transport packet' = Done (Some (6, off)) /\
    (forall i, 0 <= i < lenZ packet -> ~ (off + 16 <= i < off + 18) ->
       byte_at packet' i = byte_at packet i).
Proof.
  intros Hok Hlen Ht Hfit. unfold ch_ip_stack_ipv6_tcp_checksum. rewrite Ht. cbn [mbind outcome_bind].
  destruct (ipv6_transport_safe packet Hok) as (r & Hr & Hs). rewrite Ht in Hr. injection Hr as <-.
  destruct (Hs 6 off eq_refl) as (Hoff & _).
  rewrite (proj2 (orb_false_iff _ _)) by (simpl; lia).
  assert (H0c : lenZ [0; 0] = 2) by reflexivity.
  io_step. set (p1 := put packet (off + 16) [0; 0]).
  assert (Hl1 : lenZ p1 = lenZ packet) by (unfold p1; rewrite lenZ_put; lia).
  assert (Hok1 : bytes_ok p1) by (apply bytes_ok_put; [assumption|apply (be16_ok 0)]).
  io_step. io_step. set (tl := lenZ packet - off). set (s0 := ch_ip_stack_checksum_add (be32 tl ++ _) _).
  set (c := ch_ip_stack_checksum_finish _). assert (Hbc : lenZ (be16 c) = 2) by reflexivity.
  unfold ch_ip_stack_write_u16. rewrite wr_Done by lia. eexists. split; [reflexivity|].
  assert (Hps : bytes_ok (be32 tl ++ [0; 0; 0; 6]))
    by (repeat constructor; try apply u8_ok; unfold byte_ok; lia).
  assert (Hok2 : bytes_ok (put p1 (off + 16) (be16 c))) by (apply bytes_ok_put; [assumption|apply be16_ok]).
  assert (Hl2 : lenZ (put p1 (off + 16) (be16 c)) = lenZ packet) by (rewrite lenZ_put; lia).
  assert (Hout : forall i, 0 <= i < lenZ packet -> ~ (off + 16 <= i < off + 18) ->
    byte_at (put p1 (off + 16) (be16 c)) i = byte_at packet i).
  { intros i Hi Hne. unfold p1. rewrite !byte_at_put_out by (rewrite ?lenZ_put; lia). reflexivity. }
  split; [assumption|]. split; [assumption|]. split; [|split; [|assumption]].
  - unfold ipv6_tcp_verify. rewrite Hl2. fold tl.
    rewrite (sub_put_out p1 (off + 16) (be16 c) 8 32) by lia. fold s0.
    replace tl with (lenZ p1 - off) by lia. unfold c. replace tl with (lenZ p1 - off) by lia.
    apply write_transport_checksum; try lia; try assumption.
    + unfold s0. apply pseudo_range; try assumption;
        [apply bytes_ok_sub; assumption|rewrite lenZ_sub; lia|unfold lenZ; simpl; lia].
    + replace (off + 16 - off) with 16 by lia. reflexivity.
    + apply word_at_put_zero; lia.
  - eapply ipv6_transport_agree; [exact Hok|exact Hok2|lia| |exact Ht].
    intros i Hi. symmetry. apply Hout; lia.
Qed.

(** ** Properties *)

(** after [ch_ip_stack_ipv4_checksums] has run on an IPv4 packet with a
    valid header length, the recomputed header checksum is zero, a TCP segment
    recomputes to zero as well, the packet keeps its length and no byte other
    than the two checksum fields has changed. *)
Theorem ipv4_checksums_valid packet hl :
  bytes_ok packet -> hl = Z.land (byte_at packet 0) 15 * 4 ->
  20 <= hl <= lenZ packet -> lenZ packet <= 65535 ->
  exists packet', ch_ip_stack_ipv4_checksums packet = Done packet' /\
    ipv4_checksums_post packet packet' hl.
Proof. apply ipv4_checksums_spec. Qed.

(** for every 32-bit sum the folding loop of [checksum_finish] terminates
    with a 16-bit value, and adding the checksum it returns to the sum makes
    the sum verify (fold to 0xffff, i.e. checksum zero). *)
Theorem checksum_finish_correct s :
  0 <= s -> s + 65535 < 2 ^ 32 ->
  Z.shiftr (checksum_fold 2 s) 16 = 0 /\
  0 <= ch_ip_stack_checksum_finish s <= 65535 /\
  ch_ip_stack_checksum_finish (s + ch_ip_stack_checksum_finish s) = 0.
Proof.
  intros. split_and!; [apply checksum_fold_exits; lia| | |apply checksum_closes; assumption];
    apply checksum_finish_range; lia.
Qed.

(** on every byte string the IPv6 extension-header walk terminates, reads
    only bytes of the packet, and a transport header that it reports lies
    inside the packet, is not an extension or fragment header, and is preceded
    by at most 512 bytes of headers (40 without extensions). *)
Theorem ipv6_transport_memory_safe packet :
  bytes_ok packet ->
  exists r, ch_ip_stack_ipv6_transport packet = Done r /\
    forall proto off, r = Some (proto, off) ->
      40 <= off <= lenZ packet /\ (off = 40 \/ off <= 512) /\
      is_extension proto = false /\ proto <> 44.
Proof.
  intros Hok. destruct (ipv6_transport_safe packet Hok) as (r & Hr & Hs).
  exists r. split; [assumption|]. intros proto off E.
  destruct (Hs proto off E) as (? & ? & ? & ? & ? & _). auto.
Qed.

(** [ch_ip_stack_ipv6_tcp_checksum] makes the TCP checksum of an IPv6
    packet verify and changes nothing but the two checksum bytes, wherever the
    extension headers put the TCP header. *)
Theorem ipv6_tcp_checksum_valid packet off :
  bytes_ok packet -> lenZ packet <= 65535 ->
  ch_ip_stack_ipv6_transport packet = Done (Some (6, off)) -> off + 20 <= lenZ packet ->
  exists packet', ch_ip_stack_ipv6_tcp_checksum packet = Done packet' /\
    lenZ packet' = lenZ packet /\ ipv6_tcp_verify packet' off = 0 /\
    (forall i, 0 <= i < lenZ packet -> ~ (off + 16 <= i < off + 18) ->
       byte_at packet' i = byte_at packet i).
Proof.
  intros Hok Hl Ht Hf. destruct (ipv6_tcp_checksum_spec packet off Hok Hl Ht Hf)
    as (q & ? & ? & ? & ? & ? & ?). eauto 10.
Qed.

(** ** Witnesses *)

(** An IPv4 TCP packet and an IPv6 TCP packet with an extension header. *)
Definition w_ipv4_tcp : bytes :=
  [69;0;0;41;0;1;0;0;64;6;1;2;10;0;0;1;10;0;0;2] ++ [0;80;0;81;0;0;0;1;0;0;0;0;80;2;16;0;9;9;0;0] ++ [7].

Definition w_ipv6_tcp : bytes :=
  [96;0;0;0;0;28;0;64] ++ replicate 32 1 ++ [6;0;0;0;0;0;0;0]
  ++ [0;80;0;81;0;0;0;1;0;0;0;0;80;2;16;0;9;9;0;0].

End Wire.
