(* ===== verification/IpDns.v ===== *)
(** * DNS names and the address-to-domain cache of the TUN stack

    [ch_ip_stack_dns_read_name] and the cache behind
    [ch_ip_stack_domain_hint] of [native/src/ip_stack.c].  The cache remembers
    which domain an address was resolved from, so that rules on domains can be
    applied to flows that only carry addresses. *)

From S2P Require Import Prelude CLib IpWire.

Module Dns.
Import Wire.

Definition CH_IP_STACK_DNS_CACHE_LIMIT : Z := 1024.
Definition CH_IP_STACK_DNS_MAX_TTL_MS : Z := 86400000.
Definition CH_IP_STACK_DNS_NAME_CAPACITY : Z := 256.
Definition CH_IP_STACK_DOMAIN_HINT_CAPACITY : Z := 264.

(** ** Reading a (compressed) name *)

(** The loop; [fuel] is [128 - steps], [name] what has been written so far. *)
Fixpoint dns_read_name_loop (fuel : nat) (message : bytes) (cursor next : Z)
    (name : bytes) (jumped : bool) : result (option (bytes * Z)) :=
  let length := lenZ message in
  if negb (cursor <? length) then Done None
  else
    match fuel with
    | O => Done None
    | S fuel' =>
        label_length ← rd message cursor;
        if Z.land label_length 192 =? 192 then
          if cursor + 1 >=? length then Done None
          else
            low ← rd message (cursor + 1);
            let pointer := Z.lor (Z.shiftl (Z.land label_length 63) 8) low in
            if pointer >=? length then Done None
            else dns_read_name_loop fuel' message pointer
                   (if jumped then next else cursor + 2) name true
        else if negb (Z.land label_length 192 =? 0) || (label_length >? 63) then Done None
        else
          let cursor := cursor + 1 in
          let written := lenZ name in
          if label_length =? 0 then
            let next := if jumped then next else cursor in
            if written =? 0 then Done None else Done (Some (name, next))
          else if (cursor + label_length >? length)
               || (written + (if written =? 0 then 0 else 1) + label_length
                     >=? CH_IP_STACK_DNS_NAME_CAPACITY)
          then Done None
          else
            label ← rds message cursor label_length;
            let name := (if written >? 0 then name ++ [46] else name) ++ map tolower label in
            let cursor := cursor + label_length in
            dns_read_name_loop fuel' message cursor (if jumped then next else cursor)
              name jumped
    end.

Definition ch_ip_stack_dns_read_name (message : bytes) (offset : Z)
    : result (option (bytes * Z)) :=
  dns_read_name_loop 128 message offset offset [] false.

(** ** The cache *)

Inductive address_family : Type := AF_INET | AF_INET6.

#[export] Instance address_family_eq_dec : EqDecision address_family.
Proof. solve_decision. Defined.

Definition ch_ip_stack_address_length (af : address_family) : Z :=
  match af with AF_INET6 => 16 | AF_INET => 4 end.

Record dns_entry : Type := mk_dns_entry {
  entry_address : bytes;      (** [uint8_t address\[16\]] *)
  entry_family : address_family;
  entry_domain : bytes;
  entry_expires_at : Z;       (** [u32_t] milliseconds *)
  entry_sequence : Z          (** [uint64_t] *)
}.

Record dns_cache : Type := mk_dns_cache {
  dns_entries : list dns_entry;
  dns_sequence : Z
}.

Definition empty_dns_cache : dns_cache := mk_dns_cache [] 0.

Definition ch_ip_stack_dns_entry_alive (entry : dns_entry) (now : Z) : bool :=
  s32 (u32 (entry_expires_at entry - now)) >? 0.

(** [entry->address_family == family && memcmp(entry->address, address, n) == 0] *)
Definition entry_is (af : address_family) (address : bytes) (entry : dns_entry) : bool :=
  let n := Z.to_nat (ch_ip_stack_address_length af) in
  bool_decide (entry_family entry = af) && beq (take n (entry_address entry)) (take n address).

(** The selection loop of [dns_cache_store] from [index] on. *)
Fixpoint dns_select (af : address_family) (address : bytes) (now : Z)
    (entries : list dns_entry) (index selected : nat) (oldest : Z) : nat :=
  match entries with
  | [] => selected
  | entry :: rest =>
      if entry_is af address entry then index
      else if negb (ch_ip_stack_dns_entry_alive entry now)
      then dns_select af address now rest (S index) index 0
      else if negb (oldest =? 0) && (entry_sequence entry <? oldest)
      then dns_select af address now rest (S index) index (entry_sequence entry)
      else dns_select af address now rest (S index) selected oldest
  end.

(** The index of the smallest sequence number, the second loop. *)
Fixpoint dns_oldest (entries : list dns_entry) (index selected : nat) (least : Z) : nat :=
  match entries with
  | [] => selected
  | entry :: rest =>
      if entry_sequence entry <? least
      then dns_oldest rest (S index) index (entry_sequence entry)
      else dns_oldest rest (S index) selected least
  end.

Definition dns_ttl (ttl_seconds : Z) : Z :=
  let ms := u64 (ttl_seconds * 1000) in
  let ms := if ms =? 0 then 1000 else ms in
  if ms >? CH_IP_STACK_DNS_MAX_TTL_MS then CH_IP_STACK_DNS_MAX_TTL_MS else ms.

(** [memset], [memcpy] and [snprintf] into the selected entry. *)
Definition dns_new_entry (af : address_family) (address domain : bytes)
    (now ttl_ms sequence : Z) : dns_entry :=
  let n := ch_ip_stack_address_length af in
  mk_dns_entry (take (Z.to_nat n) address ++ replicate (Z.to_nat (16 - n)) 0) af
    (take (Z.to_nat (CH_IP_STACK_DNS_NAME_CAPACITY - 1)) (until_nul domain))
    (u32 (now + u32 ttl_ms)) sequence.

(** [grow]: whether the [realloc] to one more entry succeeds. *)
Definition ch_ip_stack_dns_cache_store (cache : dns_cache) (now : Z) (af : address_family)
    (address domain : bytes) (ttl_seconds : Z) (grow : bool) : dns_cache :=
  let entries := dns_entries cache in
  let count := length entries in
  let sequence := u64 (dns_sequence cache + 1) in
  let entry := dns_new_entry af address domain now (dns_ttl ttl_seconds) sequence in
  let selected := dns_select af address now entries 0 count UINT64_MAX in
  if (selected =? count)%nat then
    if lenZ entries <? CH_IP_STACK_DNS_CACHE_LIMIT then
      if grow then mk_dns_cache (entries ++ [entry]) sequence else cache
    else
      match entries with
      | first :: rest =>
          mk_dns_cache (<[dns_oldest rest 1 0 (entry_sequence first) := entry]> entries) sequence
      | [] => cache
      end
  else mk_dns_cache (<[selected := entry]> entries) sequence.

(** The skipped questions of a response: the offset after [n] of them. *)
Fixpoint dns_skip_questions (n : nat) (response : bytes) (offset : Z) : result (option Z) :=
  match n with
  | O => Done (Some offset)
  | S n' =>
      r ← ch_ip_stack_dns_read_name response offset;
      match r with
      | None => Done None
      | Some (_, offset) =>
          if offset + 4 >? lenZ response then Done None
          else dns_skip_questions n' response (offset + 4)
      end
  end.

Fixpoint dns_store_answers (n : nat) (cache : dns_cache) (now : Z) (domain response : bytes)
    (offset : Z) (grow : bool) : result dns_cache :=
  match n with
  | O => Done cache
  | S n' =>
      r ← ch_ip_stack_dns_read_name response offset;
      match r with
      | None => Done cache
      | Some (_, offset) =>
          if offset + 10 >? lenZ response then Done cache
          else
            type ← ch_ip_stack_read_u16 response offset;
            record_class ← ch_ip_stack_read_u16 response (offset + 2);
            ttl ← ch_ip_stack_read_u32 response (offset + 4);
            data_length ← ch_ip_stack_read_u16 response (offset + 8);
            let offset := offset + 10 in
            if offset + data_length >? lenZ response then Done cache
            else
              cache ←
                (if (record_class =? 1) && (type =? 1) && (data_length =? 4) then
                   address ← rds response offset 4;
                   Done (ch_ip_stack_dns_cache_store cache now AF_INET address domain ttl grow)
                 else if (record_class =? 1) && (type =? 28) && (data_length =? 16) then
                   address ← rds response offset 16;
                   Done (ch_ip_stack_dns_cache_store cache now AF_INET6 address domain ttl grow)
                 else Done cache);
              dns_store_answers n' cache now domain response (offset + data_length) grow
      end
  end.

Definition ch_ip_stack_dns_cache_response (cache : dns_cache) (now : Z)
    (query response : bytes) (grow : bool) : result dns_cache :=
  if (lenZ query <? 12) || (lenZ response <? 12) then Done cache
  else
    questions ← ch_ip_stack_read_u16 query 4;
    if questions =? 0 then Done cache
    else
      r ← ch_ip_stack_dns_read_name query 12;
      match r with
      | None => Done cache
      | Some (domain, _) =>
          question_count ← ch_ip_stack_read_u16 response 4;
          o ← dns_skip_questions (Z.to_nat question_count) response 12;
          match o with
          | None => Done cache
          | Some offset =>
              answer_count ← ch_ip_stack_read_u16 response 6;
              dns_store_answers (Z.to_nat answer_count) cache now domain response offset grow
          end
      end.

Fixpoint dns_find (af : address_family) (address : bytes) (now : Z)
    (entries : list dns_entry) (index : nat) : option (nat * dns_entry) :=
  match entries with
  | [] => None
  | entry :: rest =>
      if entry_is af address entry && ch_ip_stack_dns_entry_alive entry now
      then Some (index, entry)
      else dns_find af address now rest (S index)
  end.

(** A hit refreshes the entry's sequence number. *)
Definition ch_ip_stack_dns_cache_lookup (cache : dns_cache) (now : Z) (af : address_family)
    (address : bytes) : option bytes * dns_cache :=
  match dns_find af address now (dns_entries cache) 0 with
  | Some (i, e) =>
      let sequence := u64 (dns_sequence cache + 1) in
      (Some (entry_domain e),
       mk_dns_cache
         (<[i := mk_dns_entry (entry_address e) (entry_family e) (entry_domain e)
                   (entry_expires_at e) sequence]> (dns_entries cache)) sequence)
  | None => (None, cache)
  end.

(** [snprintf] of "domain:port" into the 264-byte hint, empty when it does not fit. *)
Definition ch_ip_stack_domain_hint (cache : dns_cache) (now : Z) (af : address_family)
    (address : bytes) (port : Z) : bytes * dns_cache :=
  match ch_ip_stack_dns_cache_lookup cache now af address with
  | (None, cache) => ([], cache)
  | (Some domain, cache) =>
      let hint := domain ++ [58] ++ dec port in
      (if lenZ hint >=? CH_IP_STACK_DOMAIN_HINT_CAPACITY then [] else hint, cache)
  end.

(** ** Facts: names *)

Definition lowercase (name : bytes) : Prop := Forall (fun c => tolower c = c) name.

Lemma lowercase_map l : lowercase (map tolower l).
Proof.
  apply List.Forall_map, List.Forall_forall. intros c _. apply tolower_idem.
Qed.

Lemma dns_read_name_loop_safe fuel message cursor next name jumped :
  bytes_ok message -> 0 <= cursor -> 0 <= next -> lenZ name <= 255 -> lowercase name ->
  exists r, dns_read_name_loop fuel message cursor next name jumped = Done r /\
    forall n nx, r = Some (n, nx) ->
      1 <= lenZ n <= 255 /\ lowercase n /\
      (if jumped then nx = next else cursor < nx <= lenZ message).
Proof.
  intros Hok. revert cursor next name jumped.
  induction fuel as [|fuel IH]; intros cursor next name jumped Hc Hn Hl Hlow;
    cbn [dns_read_name_loop]; (destruct (cursor <? lenZ message) eqn:Hin; cbn [negb];
      [|eexists; split; [reflexivity|discriminate]]).
  { eexists. split; [reflexivity|discriminate]. }
  io_step. pose proof (byte_at_ok message cursor Hok) as Hb. unfold byte_ok in Hb.
  destruct (Z.land (byte_at message cursor) 192 =? 192) eqn:Hptr.
  - destruct (cursor + 1 >=? lenZ message) eqn:H1; [eexists; split; [reflexivity|discriminate]|].
    io_step. set (pointer := Z.lor _ _).
    destruct (pointer >=? lenZ message) eqn:Hp; [eexists; split; [reflexivity|discriminate]|].
    assert (0 <= pointer).
    { apply Z.lor_nonneg. split; [apply Z.shiftl_nonneg, Z.land_nonneg; lia|].
      apply (byte_at_ok message (cursor + 1) Hok). }
    destruct (IH pointer (if jumped then next else cursor + 2) name true) as (r & Hr & Hs);
      try assumption; [destruct jumped; lia|].
    exists r. split; [assumption|]. intros n nx E. destruct (Hs n nx E) as (? & ? & ?).
    split_and!; auto; destruct jumped; lia.
  - destruct (negb (Z.land (byte_at message cursor) 192 =? 0) || (byte_at message cursor >? 63)) eqn:Hbad;
      [eexists; split; [reflexivity|discriminate]|].
    pose proof (lenZ_nonneg name).
    destruct (byte_at message cursor =? 0) eqn:Hzero.
    + destruct (lenZ name =? 0) eqn:He; (eexists; split; [reflexivity|]); [discriminate|].
      intros n nx [= <- <-]. split_and!; auto; try lia. destruct jumped; lia.
    + case_if; [eexists; split; [reflexivity|discriminate]|].
      unfold CH_IP_STACK_DNS_NAME_CAPACITY in *. io_step.
      set (label := sub message (cursor + 1) (byte_at message cursor)).
      set (name' := (if lenZ name >? 0 then name ++ [46] else name) ++ map tolower label).
      assert (Hl' : lenZ name' <= 255).
      { unfold name', lenZ in *. rewrite length_app, length_map. unfold label, sub.
        rewrite length_take, length_drop.
        destruct (Z.of_nat (length name) >? 0) eqn:?, (Z.of_nat (length name) =? 0) eqn:?;
          rewrite ?length_app; cbn [length]; lia. }
      assert (Hlow' : lowercase name').
      { apply Forall_app. split; [|apply lowercase_map].
        destruct (lenZ name >? 0); [apply Forall_app; split; [assumption|]|assumption].
        constructor; [reflexivity|constructor]. }
      destruct (IH (cursor + 1 + byte_at message cursor)
                  (if jumped then next else cursor + 1 + byte_at message cursor) name' jumped)
        as (r & Hr & Hs); try assumption; try lia; [destruct jumped; lia|].
      exists r. split; [assumption|]. intros n nx E. destruct (Hs n nx E) as (? & ? & ?).
      split_and!; auto; destruct jumped; lia.
Qed.

(** ** Facts: lifetimes *)

Lemma dns_ttl_range t : 0 <= t < 2 ^ 32 -> 1000 <= dns_ttl t <= 86400000.
Proof.
  intros. unfold dns_ttl, CH_IP_STACK_DNS_MAX_TTL_MS, u64.
  rewrite Z.mod_small by lia. repeat case_if; lia.
Qed.

(** The signed comparison of 32-bit clocks: an entry stored at [now] is alive
    [d] milliseconds later exactly when [d] is smaller than its lifetime. *)
Lemma entry_alive_iff now d ttl e :
  0 < ttl <= 86400000 -> 0 <= d < 2 ^ 31 - 86400000 -> entry_expires_at e = u32 (now + u32 ttl) ->
  ch_ip_stack_dns_entry_alive e (u32 (now + d)) = (d <? ttl).
Proof.
  intros Ht Hd He. unfold ch_ip_stack_dns_entry_alive, s32. rewrite He.
  assert (u32 ttl = ttl) as -> by (apply Z.mod_small; lia).
  assert (Hu : u32 (u32 (now + ttl) - u32 (now + d)) = (ttl - d) mod 2 ^ 32).
  { unfold u32. rewrite <- Zminus_mod. f_equal. lia. }
  rewrite Hu. destruct (d <? ttl) eqn:Hlt.
  - rewrite (Z.mod_small (ttl - d)) by lia. rewrite Z.mod_small by lia. lia.
  - destruct (decide (ttl = d)) as [->|].
    + replace (d - d) with 0 by lia. reflexivity.
    + replace (ttl - d) with (ttl - d + 2 ^ 32 + (-1) * 2 ^ 32) by lia.
      rewrite Z.mod_add by lia. rewrite (Z.mod_small (ttl - d + 2 ^ 32)) by lia.
      replace (ttl - d + 2 ^ 32 + 2 ^ 31) with (ttl - d + 2 ^ 31 + 1 * 2 ^ 32) by lia.
      rewrite Z.mod_add by lia. rewrite Z.mod_small by lia. lia.
Qed.

(** ** Facts: selection and lookup *)

Lemma entry_is_new af address domain now ttl q :
  ch_ip_stack_address_length af <= lenZ address ->
  entry_is af address (dns_new_entry af address domain now ttl q) = true.
Proof.
  intros H. unfold entry_is, dns_new_entry. cbn [entry_family entry_address].
  rewrite bool_decide_eq_true_2 by reflexivity. apply beq_true.
  set (n := Z.to_nat (ch_ip_stack_address_length af)) in *.
  assert (length (take n address) = n).
  { rewrite length_take. unfold n, lenZ, ch_ip_stack_address_length in *. destruct af; lia. }
  rewrite take_app_le by lia. rewrite take_take, Nat.min_id. reflexivity.
Qed.

(** The first entry of that address, if there is one, is selected; otherwise
    the selected index designates an entry of another address. *)
Lemma dns_select_spec af address now entries index selected oldest :
  let r := dns_select af address now entries index selected oldest in
  (exists k e, entries !! k = Some e /\ r = (index + k)%nat /\ entry_is af address e = true /\
     forall j x, (j < k)%nat -> entries !! j = Some x -> entry_is af address x = false)
  \/ ((forall j x, entries !! j = Some x -> entry_is af address x = false) /\
      (r = selected \/ (index <= r < index + length entries)%nat)).
Proof.
  revert index selected oldest. induction entries as [|e entries IH]; intros index selected oldest r; unfold r.
  - right. split; [intros j x H; rewrite lookup_nil in H; discriminate|left; reflexivity].
  - destruct (entry_is af address e) eqn:He.
    { left. exists 0%nat, e. cbn [dns_select]. rewrite He. split_and!; auto; try lia; intros; lia. }
    assert (Hr : exists s' o', dns_select af address now (e :: entries) index selected oldest =
                   dns_select af address now entries (S index) s' o' /\ (s' = selected \/ s' = index)).
    { cbn [dns_select]. rewrite He. repeat case_if; eauto 10. }
    destruct Hr as (s' & o' & -> & Hs'). cbn [length].
    destruct (IH (S index) s' o') as [(k & x & Hk & Hr & Hx & Hj)|[Hall Hr]].
    + left. exists (S k), x. split_and!; auto; [lia|].
      intros [|j] y Hlt Hy; [injection Hy as <-; assumption|]. simpl in Hy. eapply Hj; [|exact Hy]. lia.
    + right. split.
      * intros [|j] y Hy; [injection Hy as <-; assumption|]. simpl in Hy. eauto.
      * destruct Hs' as [-> | ->]; lia.
Qed.

Lemma dns_find_spec af address now entries index k e :
  entries !! k = Some e -> entry_is af address e = true ->
  ch_ip_stack_dns_entry_alive e now = true ->
  (forall j x, (j < k)%nat -> entries !! j = Some x -> entry_is af address x = false) ->
  dns_find af address now entries index = Some ((index + k)%nat, e).
Proof.
  revert index k. induction entries as [|x entries IH]; intros index k Hk He Ha Hj.
  - rewrite lookup_nil in Hk. discriminate.
  - simpl. destruct k as [|k].
    + injection Hk as ->. rewrite He, Ha. simpl. do 2 f_equal. lia.
    + rewrite (Hj 0%nat x) by (reflexivity || lia). simpl. simpl in Hk.
      rewrite (IH (S index) k); auto; [do 2 f_equal; lia|].
      intros j y Hlt Hy. apply (Hj (S j) y); [lia|assumption].
Qed.

Lemma dns_find_None af address now entries index :
  (forall j x, entries !! j = Some x ->
     entry_is af address x && ch_ip_stack_dns_entry_alive x now = false) ->
  dns_find af address now entries index = None.
Proof.
  revert index. induction entries as [|x entries IH]; intros index H; simpl; [reflexivity|].
  rewrite (H 0%nat x) by reflexivity. apply IH. intros j y Hy. apply (H (S j) y Hy).
Qed.

Lemma dns_oldest_range entries index selected least :
  (selected < index + length entries)%nat ->
  (dns_oldest entries index selected least < index + length entries)%nat.
Proof.
  revert index selected least. induction entries as [|e entries IH]; intros; simpl in *; [lia|].
  case_if; eapply Nat.lt_le_trans; try apply IH; lia.
Qed.

(** Overwriting slot [k] of a list whose earlier entries have other addresses. *)
Lemma insert_first_match af address (entries : list dns_entry) k e :
  (k < length entries)%nat ->
  (forall j x, (j < k)%nat -> entries !! j = Some x -> entry_is af address x = false) ->
  <[k := e]> entries !! k = Some e /\
  forall j x, (j < k)%nat -> <[k := e]> entries !! j = Some x -> entry_is af address x = false.
Proof.
  intros Hk Hj. split; [apply list_lookup_insert_eq; assumption|].
  intros j x Hlt. rewrite list_lookup_insert_ne by lia. apply Hj. assumption.
Qed.

(** After a store, the first entry of that address is the new one. *)
Lemma dns_cache_store_slot cache now af address domain ttl :
  let e := dns_new_entry af address domain now (dns_ttl ttl) (u64 (dns_sequence cache + 1)) in
  let cache' := ch_ip_stack_dns_cache_store cache now af address domain ttl true in
  exists k, dns_entries cache' !! k = Some e /\
    forall j x, (j < k)%nat -> dns_entries cache' !! j = Some x -> entry_is af address x = false.
Proof.
  cbv zeta. unfold ch_ip_stack_dns_cache_store. set (e := dns_new_entry _ _ _ _ _ _).
  destruct cache as [entries q]. cbn [dns_entries dns_sequence].
  pose proof (dns_select_spec af address now entries 0 (length entries) UINT64_MAX) as Hsel.
  cbv zeta in Hsel. set (sel := dns_select _ _ _ _ _ _ _) in *.
  destruct (sel =? length entries)%nat eqn:Hs.
  - apply Nat.eqb_eq in Hs.
    destruct Hsel as [(k & x & Hk & Hr & _)|[Hall _]]; [apply lookup_lt_Some in Hk; lia|].
    destruct (lenZ entries <? CH_IP_STACK_DNS_CACHE_LIMIT) eqn:Hlim.
    + exists (length entries). cbn [dns_entries]. split.
      * rewrite lookup_app_r by lia. rewrite Nat.sub_diag. reflexivity.
      * intros j x Hlt. rewrite lookup_app_l by lia. apply Hall.
    + destruct entries as [|first rest]; [discriminate|].
      eexists. cbn [dns_entries]. apply insert_first_match; [|intros; eapply Hall; eassumption].
      apply (dns_oldest_range rest 1 0). lia.
  - apply Nat.eqb_neq in Hs. exists sel. cbn [dns_entries].
    destruct Hsel as [(k & x & Hk & Hr & _ & Hj)|[Hall Hr]].
    + rewrite Hr. apply insert_first_match; [apply lookup_lt_Some in Hk; lia|assumption].
    + apply insert_first_match; [lia|]. intros; eapply Hall; eassumption.
Qed.

(** ** The cache as a state machine *)

(** One cache operation of the stack: a store or a lookup, at any time. *)
Inductive dns_step : dns_cache -> dns_cache -> Prop :=
| dns_step_store cache now af address domain ttl grow :
    dns_step cache (ch_ip_stack_dns_cache_store cache now af address domain ttl grow)
| dns_step_lookup cache now af address :
    dns_step cache (snd (ch_ip_stack_dns_cache_lookup cache now af address)).

(** The states after [n] operations on an empty cache. *)
Inductive dns_reach : nat -> dns_cache -> Prop :=
| dns_reach_empty : dns_reach 0 empty_dns_cache
| dns_reach_step n c c' : dns_reach n c -> dns_step c c' -> dns_reach (S n) c'.

(** At most one entry, with sequence numbers that have not wrapped. *)
Definition dns_small (n : Z) (c : dns_cache) : Prop :=
  (length (dns_entries c) <= 1)%nat /\ 0 <= dns_sequence c <= n /\
  Forall (fun e => 0 <= entry_sequence e <= dns_sequence c) (dns_entries c).

(** With an entry in the cache, the selection never leaves the cache: the entry
    itself is taken, whether it matches, has expired or is merely the oldest. *)
Lemma dns_select_single af address now e :
  entry_sequence e < UINT64_MAX ->
  dns_select af address now [e] 0 1 UINT64_MAX = 0%nat.
Proof.
  intros H. simpl. case_if; [reflexivity|]. case_if; [reflexivity|].
  case_if; [reflexivity|]. unfold UINT64_MAX in *. lia.
Qed.

Lemma dns_store_small n cache now af address domain ttl grow :
  dns_small n cache -> n < UINT64_MAX ->
  dns_small (n + 1) (ch_ip_stack_dns_cache_store cache now af address domain ttl grow).
Proof.
  intros (Hlen & Hq & Hall) Hn. destruct cache as [entries q]. cbn [dns_entries dns_sequence] in *.
  assert (Hu : u64 (q + 1) = q + 1) by (apply Z.mod_small; unfold UINT64_MAX in *; lia).
  unfold ch_ip_stack_dns_cache_store. cbn [dns_entries dns_sequence]. rewrite Hu.
  destruct entries as [|e [|e' rest]]; [| |cbn [length] in Hlen; lia].
  - simpl. destruct grow; unfold dns_small; cbn [dns_entries dns_sequence]; split_and!; simpl;
      repeat constructor; simpl; lia.
  - inversion Hall as [|? ? He _]; subst.
    cbn [length]. rewrite dns_select_single by (unfold UINT64_MAX in *; lia). simpl.
    unfold dns_small. cbn [dns_entries dns_sequence]. split_and!; simpl; repeat constructor; simpl; lia.
Qed.

Lemma dns_lookup_small n cache now af address :
  dns_small n cache -> n < UINT64_MAX ->
  dns_small (n + 1) (snd (ch_ip_stack_dns_cache_lookup cache now af address)).
Proof.
  intros (Hlen & Hq & Hall) Hn. destruct cache as [entries q]. cbn [dns_entries dns_sequence] in *.
  assert (Hu : u64 (q + 1) = q + 1) by (apply Z.mod_small; unfold UINT64_MAX in *; lia).
  unfold ch_ip_stack_dns_cache_lookup. cbn [dns_entries dns_sequence]. rewrite Hu.
  destruct (dns_find af address now entries 0) as [[i e]|]; cbn [snd]; unfold dns_small;
    cbn [dns_entries dns_sequence]; split_and!; rewrite ?length_insert; try lia.
  - apply Forall_insert; [|simpl; lia]. eapply List.Forall_impl; [|exact Hall]. simpl. lia.
  - eapply List.Forall_impl; [|exact Hall]. simpl. lia.
Qed.

Lemma dns_reach_small n c :
  dns_reach n c -> Z.of_nat n <= UINT64_MAX -> dns_small (Z.of_nat n) c.
Proof.
  induction 1 as [|n c c' Hr IH Hs]; intros Hn.
  - repeat constructor; simpl; lia.
  - rewrite Nat2Z.inj_succ in Hn |- *. rewrite <- Z.add_1_r. destruct Hs.
    + apply dns_store_small; [apply IH|]; lia.
    + apply dns_lookup_small; [apply IH|]; lia.
Qed.

(** ** Properties *)

(** reading a DNS name terminates on every message and offset (compression
    loops included), reads only bytes of the message, and a name it returns is
    non-empty, lower case and fits the 256-byte buffer with its terminator; the
    offset it returns lies after the name and inside the message. *)
Theorem dns_read_name_memory_safe message offset :
  bytes_ok message -> 0 <= offset ->
  exists r, ch_ip_stack_dns_read_name message offset = Done r /\
    forall name next, r = Some (name, next) ->
      1 <= lenZ name < CH_IP_STACK_DNS_NAME_CAPACITY /\ lowercase name /\
      offset < next <= lenZ message.
Proof.
  intros Hok Ho.
  destruct (dns_read_name_loop_safe 128 message offset offset [] false Hok Ho Ho) as (r & Hr & Hs);
    [unfold lenZ; simpl; lia|constructor|].
  exists r. split; [assumption|]. intros name next E. destruct (Hs name next E) as (? & ? & ?).
  unfold CH_IP_STACK_DNS_NAME_CAPACITY. split_and!; auto; lia.
Qed.

(** an address that has just been stored is found again: [d] milliseconds
    later the lookup returns its domain, as long as [d] is below the entry's
    lifetime (the record's TTL, at least one second, at most one day). *)
Theorem dns_cache_store_lookup cache now af address domain ttl d :
  ch_ip_stack_address_length af <= lenZ address -> 0 <= ttl < 2 ^ 32 ->
  0 <= d < dns_ttl ttl ->
  fst (ch_ip_stack_dns_cache_lookup
         (ch_ip_stack_dns_cache_store cache now af address domain ttl true)
         (u32 (now + d)) af address)
  = Some (take 255 (until_nul domain)).
Proof.
  intros Ha Ht Hd. pose proof (dns_ttl_range ttl Ht).
  destruct (dns_cache_store_slot cache now af address domain ttl) as (k & Hk & Hj).
  unfold ch_ip_stack_dns_cache_lookup.
  erewrite dns_find_spec; [|exact Hk|apply entry_is_new; assumption| |exact Hj]; [reflexivity|].
  rewrite (entry_alive_iff now d (dns_ttl ttl)); [lia|lia|lia|reflexivity].
Qed.

(** (code bug) however many addresses are stored, the cache never holds
    more than one entry.  In every state reachable by fewer than 2^64 stores and
    lookups it has at most one, although the limit is 1024; so storing an IPv4
    address makes every other one unknown, alive or not. *)
Theorem dns_cache_never_grows n c :
  dns_reach n c -> Z.of_nat n < UINT64_MAX ->
  (length (dns_entries c) <= 1)%nat /\
  forall now address domain ttl other now', lenZ address = 4 -> lenZ other = 4 -> other <> address ->
    fst (ch_ip_stack_dns_cache_lookup
           (ch_ip_stack_dns_cache_store c now AF_INET address domain ttl true)
           now' AF_INET other) = None.
Proof.
  intros Hr Hn. pose proof (dns_reach_small n c Hr ltac:(lia)) as Hsmall.
  split; [apply Hsmall|]. intros now address domain ttl other now' Ha Ho Hne.
  destruct (dns_store_small _ c now AF_INET address domain ttl true Hsmall ltac:(lia)) as (Hlen & _).
  destruct (dns_cache_store_slot c now AF_INET address domain ttl) as (k & Hk & _).
  unfold ch_ip_stack_dns_cache_lookup. rewrite dns_find_None; [reflexivity|].
  intros j x Hx. apply lookup_lt_Some in Hk as Hk'. apply lookup_lt_Some in Hx as Hx'.
  replace j with k in Hx by lia. rewrite Hk in Hx. injection Hx as <-.
  apply andb_false_iff. left. apply andb_false_iff. right. apply beq_false.
  unfold lenZ in *. cbn [dns_new_entry entry_address ch_ip_stack_address_length].
  change (Z.to_nat 4) with 4%nat.
  rewrite take_app_le by (rewrite length_take; lia). rewrite take_take, Nat.min_id, !take_ge by lia.
  congruence.
Qed.

(** ** Witnesses *)

(** The name www.Ex, and a pointer back to it. *)
Definition w_message : bytes := [3;119;119;119;2;69;120;0;192;0].

End Dns.
