(* ===== verification/IpFragment.v ===== *)
(** * Reassembly of IP fragments: [native/src/ip_stack.c]

    [ch_ip_stack_fragment_store] collects the fragments of a datagram in a flow
    (payload buffer, bitmap of the bytes received, header of the first
    fragment) and returns the packet once it is complete;
    [ch_ip_stack_prepare_input_packet] recognises fragments in the packets read
    from the TUN device. *)

From S2P Require Import Prelude CLib IpWire IpDns.

Module Fragment.
Import Wire Dns.

Definition CH_IP_STACK_FRAGMENT_FLOW_LIMIT : Z := 64.
Definition CH_IP_STACK_FRAGMENT_TIMEOUT_MS : Z := 30000.
Definition CH_IP_STACK_FRAGMENT_DATA_CAPACITY : Z := 65535.
Definition CH_IP_STACK_FRAGMENT_COVERAGE_BYTES : Z := 8192.

Record fragment_flow : Type := mk_flow {
  f_source_address : bytes;
  f_target_address : bytes;
  f_header : bytes;                (** the first [header_length] bytes of [header] *)
  f_data : bytes;                  (** 65535 bytes from [malloc] *)
  f_coverage : bytes;              (** the bitmap, 8192 bytes from [calloc] *)
  f_next_header_offset : Z;
  f_total_payload_length : Z;
  f_covered_length : Z;
  f_identifier : Z;
  f_address_family : address_family;
  f_protocol : Z;
  f_total_known : bool;
  f_have_first : bool;
  f_dead : bool;
  f_last_activity : Z
}.

(** [fragment_flows] (newest first) and [fragment_flow_count] of the stack. *)
Record fragment_table : Type := mk_table {
  fragment_flows : list fragment_flow;
  fragment_flow_count : Z
}.

(** ** The bitmap *)

Definition ch_ip_stack_fragment_covered (coverage : bytes) (offset : Z) : result bool :=
  b ← rd coverage (Z.shiftr offset 3);
  Done (negb (Z.land b (u8 (Z.shiftl 1 (Z.land offset 7))) =? 0)).

Definition ch_ip_stack_fragment_mark (coverage : bytes) (offset : Z) : result bytes :=
  b ← rd coverage (Z.shiftr offset 3);
  wr coverage (Z.shiftr offset 3) [u8 (Z.lor b (u8 (Z.shiftl 1 (Z.land offset 7))))].

(** The two loops over the offsets of a fragment. *)
Fixpoint any_covered (n : nat) (coverage : bytes) (offset : Z) : result bool :=
  match n with
  | O => Done false
  | S n' =>
      c ← ch_ip_stack_fragment_covered coverage offset;
      if (c : bool) then Done true else any_covered n' coverage (offset + 1)
  end.

Fixpoint mark_range (n : nat) (coverage : bytes) (offset : Z) : result bytes :=
  match n with
  | O => Done coverage
  | S n' =>
      coverage ← ch_ip_stack_fragment_mark coverage offset;
      mark_range n' coverage (offset + 1)
  end.

(** ** Flows *)

Definition flow_is (af : address_family) (source target : bytes) (identifier protocol : Z)
    (flow : fragment_flow) : bool :=
  let n := Z.to_nat (ch_ip_stack_address_length af) in
  negb (f_dead flow) && bool_decide (f_address_family flow = af)
  && (f_identifier flow =? identifier) && (f_protocol flow =? protocol)
  && beq (take n (f_source_address flow)) (take n source)
  && beq (take n (f_target_address flow)) (take n target).

(** The position of the flow in the list. *)
Definition ch_ip_stack_fragment_find (table : fragment_table) (af : address_family)
    (source target : bytes) (identifier protocol : Z) : option (nat * fragment_flow) :=
  list_find (fun f => flow_is af source target identifier protocol f = true)
    (fragment_flows table).

Definition ch_ip_stack_fragment_sweep (table : fragment_table) : fragment_table :=
  mk_table (filter (fun f => f_dead f = false) (fragment_flows table))
    (fragment_flow_count table
     - lenZ (filter (fun f => f_dead f = true) (fragment_flows table))).

(** A fresh flow; [junk] is what [malloc] left in the payload buffer. *)
Definition new_flow (af : address_family) (source target : bytes) (identifier protocol now : Z)
    (junk : bytes) : fragment_flow :=
  let n := ch_ip_stack_address_length af in
  let pad a := take (Z.to_nat n) a ++ replicate (Z.to_nat (16 - n)) 0 in
  mk_flow (pad source) (pad target) [] junk
    (replicate (Z.to_nat CH_IP_STACK_FRAGMENT_COVERAGE_BYTES) 0)
    0 0 0 identifier af protocol false false false now.

Definition ch_ip_stack_fragment_create (table : fragment_table) (af : address_family)
    (source target : bytes) (identifier protocol now : Z) (junk : bytes) (mem buffers : bool)
    : result fragment_table :=
  if fragment_flow_count table >=? CH_IP_STACK_FRAGMENT_FLOW_LIMIT then
    fail CH_ERROR_INVALID_STATE (str "native IP fragment flow limit reached")
  else if negb mem then
    fail CH_ERROR_OUT_OF_MEMORY (str "allocate IP fragment flow")
  else if negb buffers then
    fail CH_ERROR_OUT_OF_MEMORY (str "allocate IP fragment buffers")
  else
    Done (mk_table (new_flow af source target identifier protocol now junk :: fragment_flows table)
            (fragment_flow_count table + 1)).

(** ** Storing one fragment *)

Record fragment : Type := mk_fragment {
  frag_header : bytes;             (** the bytes before the payload *)
  frag_next_header_offset : Z;
  frag_offset : Z;
  frag_payload : bytes;
  frag_more : bool
}.

(** What happens to the flow: it stays, or it is marked dead and swept. *)
Inductive verdict : Type :=
| Keep (flow : fragment_flow)
| Drop (r : result bytes).

(** The reassembled packet of a complete flow. *)
Definition build_packet (flow : fragment_flow) : result bytes :=
  let packet_length := lenZ (f_header flow) + f_total_payload_length flow in
  payload ← rds (f_data flow) 0 (f_total_payload_length flow);
  let packet := f_header flow ++ payload in
  match f_address_family flow with
  | AF_INET =>
      packet ← ch_ip_stack_write_u16 packet 2 (u16 packet_length);
      field ← ch_ip_stack_read_u16 packet 6;
      packet ← ch_ip_stack_write_u16 packet 6 (Z.land field 16384);
      packet ← wr packet 10 [0; 0];
      header ← rds packet 0 (lenZ (f_header flow));
      ch_ip_stack_write_u16 packet 10 (ch_ip_stack_checksum header)
  | AF_INET6 =>
      if f_next_header_offset flow >=? lenZ (f_header flow) then
        fail CH_ERROR_INTERNAL (str "invalid saved IPv6 extension chain")
      else
        packet ← wr packet (f_next_header_offset flow) [f_protocol flow];
        ch_ip_stack_write_u16 packet 4 (u16 (packet_length - 40))
  end.

(** The flow with the fragment's bytes added. *)
Definition add_payload (flow : fragment_flow) (frag : fragment) (now : Z) : result fragment_flow :=
  data ← wr (f_data flow) (frag_offset frag) (frag_payload frag);
  coverage ← mark_range (length (frag_payload frag)) (f_coverage flow) (frag_offset frag);
  Done (mk_flow (f_source_address flow) (f_target_address flow) (f_header flow) data coverage
          (f_next_header_offset flow) (f_total_payload_length flow)
          (f_covered_length flow + lenZ (frag_payload frag))
          (f_identifier flow) (f_address_family flow) (f_protocol flow)
          (f_total_known flow) (f_have_first flow) (f_dead flow) now).

Definition set_first (flow : fragment_flow) (frag : fragment) : fragment_flow :=
  mk_flow (f_source_address flow) (f_target_address flow) (frag_header frag) (f_data flow)
    (f_coverage flow) (frag_next_header_offset frag) (f_total_payload_length flow)
    (f_covered_length flow) (f_identifier flow) (f_address_family flow) (f_protocol flow)
    (f_total_known flow) true (f_dead flow) (f_last_activity flow).

Definition set_total (flow : fragment_flow) (total : Z) : fragment_flow :=
  mk_flow (f_source_address flow) (f_target_address flow) (f_header flow) (f_data flow)
    (f_coverage flow) (f_next_header_offset flow) total
    (f_covered_length flow) (f_identifier flow) (f_address_family flow) (f_protocol flow)
    true (f_have_first flow) (f_dead flow) (f_last_activity flow).

(** The part of [fragment_store] that works on the flow; [mem]: whether the
    allocation of the reassembled packet succeeds. *)
Definition fragment_accept (flow : fragment_flow) (frag : fragment) (now : Z) (mem : bool)
    : result verdict :=
  let fragment_end := frag_offset frag + lenZ (frag_payload frag) in
  if (f_total_known flow && (fragment_end >? f_total_payload_length flow))
     || (negb (frag_more frag) && f_total_known flow
         && negb (fragment_end =? f_total_payload_length flow))
  then Done (Drop (fail CH_ERROR_PARSE (str "inconsistent IP fragment total length")))
  else
    overlap ← any_covered (length (frag_payload frag)) (f_coverage flow) (frag_offset frag);
    if (overlap : bool) then
      Done (Drop (fail CH_ERROR_PARSE (str "overlapping IP fragments are rejected")))
    else
      flow ← add_payload flow frag now;
      if (frag_offset frag =? 0)
         && (lenZ (frag_header frag) >? CH_IP_STACK_EXTENSION_HEADER_LIMIT)
      then Done (Drop (fail CH_ERROR_PARSE (str "IP fragment header is too large")))
      else
        let flow := if frag_offset frag =? 0 then set_first flow frag else flow in
        if negb (frag_more frag) && (f_covered_length flow >? fragment_end) then
          Done (Drop (fail CH_ERROR_PARSE (str "IP fragments extend beyond final fragment")))
        else
          let flow := if frag_more frag then flow else set_total flow fragment_end in
          if negb (f_have_first flow) || negb (f_total_known flow)
             || negb (f_covered_length flow =? f_total_payload_length flow)
          then Done (Keep flow)
          else if lenZ (f_header flow) + f_total_payload_length flow >? CH_IP_STACK_MAX_PACKET
          then Done (Drop (fail CH_ERROR_PARSE (str "reassembled IP packet is too large")))
          else if negb mem
          then Done (Drop (fail CH_ERROR_OUT_OF_MEMORY (str "allocate reassembled IP packet")))
          else Done (Drop (build_packet flow)).

(** [flow->dead = 1] *)
Definition kill (flow : fragment_flow) : fragment_flow :=
  mk_flow (f_source_address flow) (f_target_address flow) (f_header flow) (f_data flow)
    (f_coverage flow) (f_next_header_offset flow) (f_total_payload_length flow)
    (f_covered_length flow) (f_identifier flow) (f_address_family flow) (f_protocol flow)
    (f_total_known flow) (f_have_first flow) true (f_last_activity flow).

(** The environment of one call: the clock, what [malloc] returns for the
    payload buffer, and whether each group of allocations succeeds (the flow,
    its two buffers, the packet that leaves). *)
Record fragment_env : Type := mk_env {
  env_now : Z;
  env_junk : bytes;
  env_mem_flow : bool;
  env_mem_buffers : bool;
  env_mem_packet : bool
}.

(** [Done None]: stored, the datagram is not complete yet. *)
Definition ch_ip_stack_fragment_store (table : fragment_table) (af : address_family)
    (source target : bytes) (identifier protocol : Z) (frag : fragment) (env : fragment_env)
    : fragment_table * result (option bytes) :=
  let n := lenZ (frag_payload frag) in
  if (frag_offset frag >? CH_IP_STACK_FRAGMENT_DATA_CAPACITY)
     || (n >? CH_IP_STACK_FRAGMENT_DATA_CAPACITY - frag_offset frag)
     || (frag_more frag && ((n =? 0) || negb (Z.land n 7 =? 0)))
  then (table, fail CH_ERROR_PARSE (str "invalid IP fragment offset or length"))
  else
    let with_flow (table : fragment_table) (i : nat) (flow : fragment_flow) :=
      match fragment_accept flow frag (env_now env) (env_mem_packet env) with
      | Done (Keep flow) =>
          (mk_table (<[i := flow]> (fragment_flows table)) (fragment_flow_count table), Done None)
      | Done (Drop r) =>
          (ch_ip_stack_fragment_sweep
             (mk_table (<[i := kill flow]> (fragment_flows table)) (fragment_flow_count table)),
           packet ← r; Done (Some packet))
      | Raise e => (table, Raise e)
      | Fault => (table, Fault)
      end in
    match ch_ip_stack_fragment_find table af source target identifier protocol with
    | Some (i, flow) => with_flow table i flow
    | None =>
        match ch_ip_stack_fragment_create table af source target identifier protocol
                (env_now env) (env_junk env) (env_mem_flow env)
                (env_mem_buffers env) with
        | Done table =>
            with_flow table 0%nat
              (new_flow af source target identifier protocol (env_now env) (env_junk env))
        | Raise e => (table, Raise e)
        | Fault => (table, Fault)
        end
    end.

(** The expiry of [ch_ip_stack_tick]. *)
Definition fragment_tick (table : fragment_table) (now : Z) : fragment_table :=
  ch_ip_stack_fragment_sweep
    (mk_table
       (map (fun f => if u32 (now - f_last_activity f) >=? CH_IP_STACK_FRAGMENT_TIMEOUT_MS
                      then kill f else f) (fragment_flows table))
       (fragment_flow_count table)).

(** ** Recognising fragments *)

(** The extension-header loop of [prepare_input_packet]; [fuel] is
    [16 - extension_count]. *)
Fixpoint input_extension_loop (fuel : nat) (packet : bytes)
    (next_header cursor next_header_offset : Z) : result (Z * Z * Z) :=
  let length := lenZ packet in
  if is_extension next_header then
    match fuel with
    | O => fail CH_ERROR_PARSE (str "invalid IPv6 extension header chain")
    | S fuel' =>
        if cursor + 2 >? length then
          fail CH_ERROR_PARSE (str "invalid IPv6 extension header chain")
        else
          units ← rd packet (cursor + 1);
          let extension_length :=
            if next_header =? 51 then (units + 2) * 4 else (units + 1) * 8 in
          if (extension_length <? 8) || (cursor + extension_length >? length)
             || (cursor + extension_length >? CH_IP_STACK_EXTENSION_HEADER_LIMIT)
          then fail CH_ERROR_PARSE (str "invalid or excessive IPv6 extension header")
          else
            next ← rd packet cursor;
            input_extension_loop fuel' packet next (cursor + extension_length) cursor
    end
  else Done (next_header, cursor, next_header_offset).

(** A whole datagram, or the arguments of [fragment_store]. *)
Inductive input_kind : Type :=
| Whole
| Fragmented (af : address_family) (source target : bytes) (identifier protocol : Z)
    (frag : fragment).

Definition classify_ipv4 (packet : bytes) : result input_kind :=
  let length := lenZ packet in
  let invalid := fail CH_ERROR_PARSE (str "invalid IPv4 packet header") in
  b0 ← rd packet 0;
  let header_length := Z.land b0 15 * 4 in
  if (header_length <? 20) || (header_length >? length) then invalid
  else
    total ← ch_ip_stack_read_u16 packet 2;
    if negb (total =? length) then invalid
    else
      header ← rds packet 0 header_length;
      if negb (ch_ip_stack_checksum header =? 0) then invalid
      else
        fragment_field ← ch_ip_stack_read_u16 packet 6;
        let fragment_offset := Z.land fragment_field 8191 * 8 in
        let more_fragments := negb (Z.land fragment_field 8192 =? 0) in
        if (fragment_offset =? 0) && negb more_fragments then Done Whole
        else
          source ← rds packet 12 4;
          target ← rds packet 16 4;
          identifier ← ch_ip_stack_read_u16 packet 4;
          protocol ← rd packet 9;
          payload ← rds packet header_length (length - header_length);
          Done (Fragmented AF_INET source target identifier protocol
                  (mk_fragment header 0 fragment_offset payload more_fragments)).

Definition classify_ipv6 (packet : bytes) : result input_kind :=
  let length := lenZ packet in
  let invalid := fail CH_ERROR_PARSE (str "invalid IPv6 packet length") in
  if length <? 40 then invalid
  else
    payload_length ← ch_ip_stack_read_u16 packet 4;
    if negb (payload_length =? length - 40) then invalid
    else
      first ← rd packet 6;
      '(next_header, cursor, next_header_offset) ← input_extension_loop 16 packet first 40 6;
      if negb (next_header =? 44) then Done Whole
      else if cursor + 8 >? length then
        fail CH_ERROR_PARSE (str "invalid IPv6 fragment header")
      else
        reserved ← rd packet (cursor + 1);
        if negb (reserved =? 0) then
          fail CH_ERROR_PARSE (str "invalid IPv6 fragment header")
        else
          fragment_field ← ch_ip_stack_read_u16 packet (cursor + 2);
          if negb (Z.land fragment_field 6 =? 0) then
            fail CH_ERROR_PARSE (str "invalid IPv6 fragment reserved bits")
          else
            source ← rds packet 8 16;
            target ← rds packet 24 16;
            identifier ← ch_ip_stack_read_u32 packet (cursor + 4);
            protocol ← rd packet cursor;
            header ← rds packet 0 cursor;
            payload ← rds packet (cursor + 8) (length - cursor - 8);
            Done (Fragmented AF_INET6 source target identifier protocol
                    (mk_fragment header next_header_offset (Z.land fragment_field 65528)
                       payload (negb (Z.land fragment_field 1 =? 0)))).

Definition ch_ip_stack_prepare_input_packet (table : fragment_table) (packet : bytes)
    (env : fragment_env) : fragment_table * result (option bytes) :=
  let kind :=
    b0 ← rd packet 0;
    if Z.shiftr b0 4 =? 4 then classify_ipv4 packet else classify_ipv6 packet in
  match kind with
  | Done Whole =>
      (table, if env_mem_packet env then Done (Some packet)
              else fail CH_ERROR_OUT_OF_MEMORY (str "copy IP packet input"))
  | Done (Fragmented af source target identifier protocol frag) =>
      ch_ip_stack_fragment_store table af source target identifier protocol frag env
  | Raise e => (table, Raise e)
  | Fault => (table, Fault)
  end.

(** ** Facts: the bitmap *)

(** Whether byte [offset] of the payload is marked. *)
Definition cov (coverage : bytes) (offset : Z) : bool :=
  Z.testbit (byte_at coverage (Z.shiftr offset 3)) (Z.land offset 7).

Lemma offset_split o : Z.shiftr o 3 = o / 8 /\ Z.land o 7 = o mod 8.
Proof.
  split; [apply Z.shiftr_div_pow2; lia|].
  change 7 with (Z.ones 3). apply Z.land_ones. lia.
Qed.

Lemma offset_range o : 0 <= o < 65536 -> 0 <= Z.shiftr o 3 < 8192 /\ 0 <= Z.land o 7 < 8.
Proof.
  intros H. destruct (offset_split o) as [-> ->]. split; [|apply Z.mod_pos_bound; lia].
  split; [apply Z.div_pos|apply Z.div_lt_upper_bound]; lia.
Qed.

Lemma offset_inj o o' :
  Z.shiftr o 3 = Z.shiftr o' 3 -> Z.land o 7 = Z.land o' 7 -> o = o'.
Proof.
  destruct (offset_split o) as [-> ->], (offset_split o') as [-> ->]. intros Hq Hr.
  pose proof (Z.div_mod o 8 ltac:(lia)). pose proof (Z.div_mod o' 8 ltac:(lia)). lia.
Qed.

Lemma bit_mask k : 0 <= k < 8 -> u8 (Z.shiftl 1 k) = 2 ^ k /\ 0 < 2 ^ k < 256.
Proof.
  intros H. rewrite Z.shiftl_mul_pow2, Z.mul_1_l by lia.
  assert (0 < 2 ^ k < 2 ^ 8).
  { split; [apply Z.pow_pos_nonneg; lia|apply Z.pow_lt_mono_r; lia]. }
  split; [apply Z.mod_small; lia|lia].
Qed.

Lemma land_pow2_zero b k : 0 <= k -> (Z.land b (2 ^ k) =? 0) = negb (Z.testbit b k).
Proof.
  intros Hk. destruct (Z.testbit b k) eqn:Hb; simpl.
  - apply Z.eqb_neq. intros H0. apply (f_equal (fun z => Z.testbit z k)) in H0.
    rewrite Z.land_spec, Hb, Z.pow2_bits_true, Z.bits_0 in H0 by lia. discriminate.
  - apply Z.eqb_eq. apply Z.bits_inj'. intros n Hn.
    rewrite Z.land_spec, Z.bits_0, Z.pow2_bits_eqb by lia.
    destruct (k =? n) eqn:E; [|apply andb_false_r]. apply Z.eqb_eq in E. subst. rewrite Hb. reflexivity.
Qed.

Lemma lor_byte_ok a b : byte_ok a -> byte_ok b -> byte_ok (Z.lor a b).
Proof.
  unfold byte_ok. intros Ha Hb. split; [apply Z.lor_nonneg; lia|].
  destruct (decide (Z.lor a b = 0)) as [->|Hne]; [lia|].
  assert (0 <= Z.lor a b) by (apply Z.lor_nonneg; lia).
  change 256 with (2 ^ 8). apply Z.log2_lt_pow2; [lia|].
  rewrite Z.log2_lor by lia.
  assert (forall x, 0 <= x < 256 -> Z.log2 x < 8).
  { intros x Hx. destruct (decide (x = 0)) as [->|]; [reflexivity|]. apply Z.log2_lt_pow2; lia. }
  apply Z.max_lub_lt; auto.
Qed.

Definition bitmap_ok (coverage : bytes) : Prop :=
  bytes_ok coverage /\ lenZ coverage = CH_IP_STACK_FRAGMENT_COVERAGE_BYTES.

Lemma fragment_covered_cov coverage o :
  bitmap_ok coverage -> 0 <= o < 65536 ->
  ch_ip_stack_fragment_covered coverage o = Done (cov coverage o).
Proof.
  intros [Hok Hlen] Ho. unfold CH_IP_STACK_FRAGMENT_COVERAGE_BYTES in Hlen.
  destruct (offset_range o Ho) as [Hq Hr]. unfold ch_ip_stack_fragment_covered. io_step.
  destruct (bit_mask _ Hr) as [-> _]. rewrite land_pow2_zero, negb_involutive by lia. reflexivity.
Qed.

Lemma fragment_mark_cov coverage o :
  bitmap_ok coverage -> 0 <= o < 65536 ->
  exists coverage', ch_ip_stack_fragment_mark coverage o = Done coverage' /\ bitmap_ok coverage' /\
    forall o', 0 <= o' < 65536 -> cov coverage' o' = (o =? o') || cov coverage o'.
Proof.
  intros [Hok Hlen] Ho. unfold bitmap_ok, CH_IP_STACK_FRAGMENT_COVERAGE_BYTES in *.
  destruct (offset_range o Ho) as [Hq Hr]. unfold ch_ip_stack_fragment_mark. io_step.
  destruct (bit_mask _ Hr) as [-> Hm]. set (q := Z.shiftr o 3) in *. set (r := Z.land o 7) in *.
  assert (Hb : byte_ok (Z.lor (byte_at coverage q) (2 ^ r)))
    by (apply lor_byte_ok; [apply byte_at_ok; assumption|unfold byte_ok; lia]).
  assert (Hu : u8 (Z.lor (byte_at coverage q) (2 ^ r)) = Z.lor (byte_at coverage q) (2 ^ r))
    by (apply Z.mod_small; exact Hb).
  rewrite Hu. assert (H1 : lenZ [Z.lor (byte_at coverage q) (2 ^ r)] = 1) by reflexivity.
  rewrite wr_Done by lia. eexists. split; [reflexivity|]. split.
  { split; [apply bytes_ok_put; [assumption|constructor; [assumption|constructor]]|rewrite lenZ_put; lia]. }
  intros o' Ho'. destruct (offset_range o' Ho') as [Hq' Hr']. unfold cov.
  destruct (decide (Z.shiftr o' 3 = q)) as [E|E].
  - rewrite E, byte_at_put_in by lia. rewrite Z.sub_diag. cbn [byte_at].
    change (byte_at [Z.lor (byte_at coverage q) (2 ^ r)] 0) with (Z.lor (byte_at coverage q) (2 ^ r)).
    rewrite Z.lor_spec, Z.pow2_bits_eqb by lia. rewrite orb_comm. f_equal.
    destruct (r =? Z.land o' 7) eqn:Er.
    + apply Z.eqb_eq in Er. symmetry. apply Z.eqb_eq, offset_inj; [symmetry; exact E|exact Er].
    + apply Z.eqb_neq in Er. symmetry. apply Z.eqb_neq. intros <-. exact (Er eq_refl).
  - rewrite byte_at_put_out by lia.
    rewrite (proj2 (Z.eqb_neq o o')); [reflexivity|]. intros <-. apply E. reflexivity.
Qed.

Lemma mark_range_cov n coverage o :
  bitmap_ok coverage -> 0 <= o -> o + Z.of_nat n <= 65536 ->
  exists coverage', mark_range n coverage o = Done coverage' /\ bitmap_ok coverage' /\
    forall o', 0 <= o' < 65536 ->
      cov coverage' o' = ((o <=? o') && (o' <? o + Z.of_nat n)) || cov coverage o'.
Proof.
  revert coverage o. induction n as [|n IH]; intros coverage o Hb Ho Hn; cbn [mark_range].
  - exists coverage. split; [reflexivity|]. split; [assumption|]. intros o' Ho'.
    rewrite Nat2Z.inj_0. destruct ((o <=? o') && (o' <? o + 0)) eqn:E; [lia|reflexivity].
  - destruct (fragment_mark_cov coverage o Hb ltac:(lia)) as (c1 & -> & Hb1 & H1). cbn [mbind outcome_bind].
    destruct (IH c1 (o + 1) Hb1 ltac:(lia) ltac:(lia)) as (c2 & -> & Hb2 & H2).
    exists c2. split; [reflexivity|]. split; [assumption|]. intros o' Ho'.
    rewrite H2, H1 by assumption.
    destruct (Z.leb_spec (o + 1) o'), (Z.ltb_spec o' (o + 1 + Z.of_nat n)), (Z.eqb_spec o o'),
      (Z.leb_spec o o'), (Z.ltb_spec o' (o + Z.of_nat (S n))); simpl; lia || reflexivity.
Qed.

Lemma any_covered_false n coverage o :
  bitmap_ok coverage -> 0 <= o -> o + Z.of_nat n <= 65536 ->
  (forall o', o <= o' < o + Z.of_nat n -> cov coverage o' = false) ->
  any_covered n coverage o = Done false.
Proof.
  revert o. induction n as [|n IH]; intros o Hb Ho Hn Hall; cbn [any_covered]; [reflexivity|].
  rewrite fragment_covered_cov by (assumption || lia). cbn [mbind outcome_bind].
  rewrite Hall by lia. apply IH; [assumption|lia|lia|]. intros. apply Hall. lia.
Qed.

Lemma any_covered_true n coverage o o' :
  bitmap_ok coverage -> 0 <= o -> o + Z.of_nat n <= 65536 ->
  o <= o' < o + Z.of_nat n -> cov coverage o' = true ->
  any_covered n coverage o = Done true.
Proof.
  revert o. induction n as [|n IH]; intros o Hb Ho Hn Hr Hc; cbn [any_covered]; [lia|].
  rewrite fragment_covered_cov by (assumption || lia). cbn [mbind outcome_bind].
  destruct (cov coverage o) eqn:E; [reflexivity|]. apply IH; auto; try lia.
  destruct (decide (o' = o)); [congruence|lia].
Qed.

Lemma cov_zero n o : cov (replicate n 0) o = false.
Proof.
  unfold cov, byte_at.
  destruct (replicate n 0 !! Z.to_nat (Z.shiftr o 3)) eqn:E.
  - apply lookup_replicate in E as [-> _]. apply Z.bits_0.
  - apply Z.bits_0.
Qed.

Lemma empty_bitmap : bitmap_ok (replicate (Z.to_nat CH_IP_STACK_FRAGMENT_COVERAGE_BYTES) 0).
Proof. split; [apply bytes_ok_replicate0|]. rewrite lenZ_replicate. reflexivity. Qed.

(** ** Fragmentation of a datagram

    [consecutive P o F]: [F] cuts the payload [P], from offset [o] on, into
    consecutive fragments. *)

Definition frag_length (f : fragment) : Z := lenZ (frag_payload f).
Definition frag_end (f : fragment) : Z := frag_offset f + frag_length f.

Fixpoint consecutive (P : bytes) (o : Z) (F : list fragment) : Prop :=
  match F with
  | [] => False
  | f :: F' =>
      frag_offset f = o /\ 1 <= frag_length f /\ frag_end f <= lenZ P /\
      frag_payload f = sub P o (frag_length f) /\
      match F' with
      | [] => frag_more f = false /\ frag_end f = lenZ P
      | _ => frag_more f = true /\ Z.land (frag_length f) 7 = 0 /\ consecutive P (frag_end f) F'
      end
  end.

Record honest (P : bytes) (f : fragment) : Prop := mk_honest {
  honest_offset : 0 <= frag_offset f;
  honest_length : 1 <= frag_length f;
  honest_end : frag_end f <= lenZ P;
  honest_payload : frag_payload f = sub P (frag_offset f) (frag_length f);
  honest_last : frag_more f = false -> frag_end f = lenZ P;
  honest_more : frag_more f = true -> Z.land (frag_length f) 7 = 0
}.

Definition apart (f g : fragment) : Prop :=
  frag_end f <= frag_offset g \/ frag_end g <= frag_offset f.

Definition total_length (F : list fragment) : Z := foldr (fun f n => frag_length f + n) 0 F.

Definition covers (F : list fragment) (o : Z) : Prop :=
  Exists (fun f => frag_offset f <= o < frag_end f) F.

(** What a cut of [P] gives, in any order. *)
Record fragmentation (P : bytes) (F : list fragment) : Prop := mk_fragmentation {
  cut_honest : Forall (honest P) F;
  cut_apart : ForallOrdPairs apart F;
  cut_total : total_length F = lenZ P;
  cut_covers : forall o, 0 <= o < lenZ P -> covers F o;
  cut_last : Exists (fun f => frag_more f = false) F;
  cut_first : Exists (fun f => frag_offset f = 0) F
}.

Lemma consecutive_facts P F o :
  consecutive P o F -> 0 <= o ->
  Forall (honest P) F /\ Forall (fun f => o <= frag_offset f) F /\ ForallOrdPairs apart F /\
  total_length F = lenZ P - o /\ (forall i, o <= i < lenZ P -> covers F i) /\
  Exists (fun f => frag_more f = false) F.
Proof.
  revert o. induction F as [|f F IH]; intros o HF Ho; [destruct HF|].
  cbn [consecutive] in HF. destruct HF as (Hoff & Hlen & Hend & Hpay & Htail). destruct F as [|g F].
  - destruct Htail as [Hm He]. unfold frag_end in *. split_and!.
    + constructor; [|constructor]. constructor; unfold frag_end; try lia; congruence.
    + constructor; [lia|constructor].
    + constructor; constructor.
    + simpl. lia.
    + intros i Hi. apply Exists_cons_hd. unfold frag_end. lia.
    + apply Exists_cons_hd. assumption.
  - destruct Htail as (Hm & H7 & Htail).
    destruct (IH (frag_end f) Htail ltac:(unfold frag_end in *; lia)) as (H1 & H2 & H3 & H4 & H5 & H6).
    clear IH Htail. split_and!.
    + constructor; [|assumption]. constructor; try lia; congruence.
    + constructor; [lia|]. revert H2. apply List.Forall_impl. intros h. unfold frag_end in *. lia.
    + constructor; [|assumption]. revert H2. apply List.Forall_impl. intros h. unfold apart. lia.
    + simpl in *. unfold frag_end in *. lia.
    + intros i Hi. destruct (decide (i < frag_end f)).
      * apply Exists_cons_hd. lia.
      * right. apply H5. lia.
    + right. assumption.
Qed.

Lemma consecutive_fragmentation P F : consecutive P 0 F -> fragmentation P F.
Proof.
  intros HF. destruct (consecutive_facts P F 0 HF ltac:(lia)) as (H1 & _ & H3 & H4 & H5 & H6).
  constructor; auto; [lia|]. destruct F as [|f F]; [destruct HF|].
  apply Exists_cons_hd. apply HF.
Qed.

Lemma apart_sym f g : apart f g -> apart g f.
Proof. unfold apart. tauto. Qed.

Lemma apart_permutation F G : F ≡ₚ G -> ForallOrdPairs apart F -> ForallOrdPairs apart G.
Proof.
  induction 1 as [|x F G HFG IH|x y F|F G H HFG IH HGH IH']; intros HF; auto.
  - inversion HF; subst. constructor; [|auto]. rewrite <- HFG. assumption.
  - inversion_clear HF as [|? ? Hy Hx]. inversion_clear Hx as [|? ? Hx' HF'].
    inversion_clear Hy as [|? ? Hyx Hy'].
    constructor; [constructor; [apply apart_sym|]|constructor]; assumption.
Qed.

Lemma total_permutation F G : F ≡ₚ G -> total_length F = total_length G.
Proof. induction 1; simpl; lia. Qed.

Lemma fragmentation_permutation P F G : F ≡ₚ G -> fragmentation P F -> fragmentation P G.
Proof.
  intros HP [H1 H2 H3 H4 H5 H6]. constructor.
  - rewrite <- HP. assumption.
  - exact (apart_permutation _ _ HP H2).
  - rewrite <- (total_permutation _ _ HP). assumption.
  - intros o Ho. unfold covers. rewrite <- HP. exact (H4 o Ho).
  - rewrite <- HP. assumption.
  - rewrite <- HP. assumption.
Qed.

Lemma total_nonneg F : 0 <= total_length F.
Proof.
  induction F as [|f F IH]; simpl; [lia|].
  pose proof (lenZ_nonneg (frag_payload f)). unfold frag_length. lia.
Qed.

Lemma total_app F G : total_length (F ++ G) = total_length F + total_length G.
Proof. induction F as [|f F IH]; simpl; lia. Qed.

(** ** One flow collecting a datagram

    [flow_inv key P D flow]: the flow has received exactly the fragments [D] of
    the payload [P]. *)

Record flow_inv (is_key : fragment_flow -> bool) (P : bytes) (D : list fragment)
    (flow : fragment_flow) : Prop := mk_flow_inv {
  inv_key : is_key flow = true;
  inv_bitmap : bitmap_ok (f_coverage flow);
  inv_data : lenZ (f_data flow) = CH_IP_STACK_FRAGMENT_DATA_CAPACITY;
  inv_cov : forall o, 0 <= o < 65536 -> cov (f_coverage flow) o = true <-> covers D o;
  inv_slices : Forall (fun g => sub (f_data flow) (frag_offset g) (frag_length g)
                                = frag_payload g) D;
  inv_covered : f_covered_length flow = total_length D;
  inv_total : f_total_known flow = true -> f_total_payload_length flow = lenZ P;
  inv_last : f_total_known flow = true <-> Exists (fun g => frag_more g = false) D;
  inv_first : f_have_first flow = true <-> Exists (fun g => frag_offset g = 0) D;
  inv_header : f_have_first flow = true ->
    Exists (fun g => frag_offset g = 0 /\ f_header flow = frag_header g
                     /\ f_next_header_offset flow = frag_next_header_offset g) D
}.

(** The key of a flow does not depend on what it has collected. *)
Definition stable (is_key : fragment_flow -> bool) : Prop :=
  forall a b, f_source_address a = f_source_address b ->
    f_target_address a = f_target_address b -> f_identifier a = f_identifier b ->
    f_address_family a = f_address_family b -> f_protocol a = f_protocol b ->
    f_dead a = f_dead b -> is_key a = is_key b.

Lemma flow_is_stable af source target identifier protocol :
  stable (flow_is af source target identifier protocol).
Proof. intros a b H1 H2 H3 H4 H5 H6. unfold flow_is. rewrite H1, H2, H3, H4, H5, H6. reflexivity. Qed.

Lemma covers_cons f D o : covers (f :: D) o <-> (frag_offset f <= o < frag_end f) \/ covers D o.
Proof. apply Exists_cons. Qed.

Lemma add_payload_inv is_key P D flow f now :
  stable is_key -> lenZ P <= CH_IP_STACK_FRAGMENT_DATA_CAPACITY ->
  flow_inv is_key P D flow -> honest P f -> Forall (honest P) D -> Forall (apart f) D ->
  exists flow', add_payload flow f now = Done flow' /\
    is_key flow' = true /\ bitmap_ok (f_coverage flow') /\
    lenZ (f_data flow') = CH_IP_STACK_FRAGMENT_DATA_CAPACITY /\
    (forall o, 0 <= o < 65536 -> cov (f_coverage flow') o = true <-> covers (f :: D) o) /\
    Forall (fun g => sub (f_data flow') (frag_offset g) (frag_length g) = frag_payload g) (f :: D) /\
    f_covered_length flow' = total_length (f :: D) /\
    f_total_known flow' = f_total_known flow /\
    f_total_payload_length flow' = f_total_payload_length flow /\
    f_have_first flow' = f_have_first flow /\ f_header flow' = f_header flow /\
    f_next_header_offset flow' = f_next_header_offset flow.
Proof.
  intros Hst HP [] [] HD Hap. unfold CH_IP_STACK_FRAGMENT_DATA_CAPACITY in *.
  unfold add_payload. unfold frag_end, frag_length in honest_end0, honest_length0.
  rewrite wr_Done by lia. cbn [mbind outcome_bind].
  destruct (mark_range_cov (length (frag_payload f)) (f_coverage flow) (frag_offset f) inv_bitmap0
              honest_offset0 ltac:(fold (lenZ (frag_payload f)); lia)) as (c & -> & Hc & Hcov).
  cbn [mbind outcome_bind]. eexists. split; [reflexivity|]. cbn. split_and!; try reflexivity; auto.
  - rewrite <- inv_key0. apply Hst; reflexivity.
  - rewrite lenZ_put; lia.
  - intros o Ho. rewrite Hcov, orb_true_iff, covers_cons, inv_cov0 by lia.
    apply or_iff_compat_r. fold (lenZ (frag_payload f)). unfold frag_end, frag_length. lia.
  - constructor; [apply sub_put_same; lia|].
    rewrite Forall_forall in HD, Hap, inv_slices0 |- *. intros g Hg.
    destruct (HD g Hg) as [Ho' Hl' He' _ _ _]. pose proof (Hap g Hg) as Hfg.
    unfold apart, frag_end, frag_length in *. rewrite sub_put_out by lia. apply inv_slices0, Hg.
  - rewrite inv_covered0. apply Z.add_comm.
Qed.

(** The flow after the bookkeeping of [fragment_store]. *)
Definition book (flow : fragment_flow) (f : fragment) : fragment_flow :=
  let flow := if frag_offset f =? 0 then set_first flow f else flow in
  if frag_more f then flow else set_total flow (frag_end f).

Definition complete (flow : fragment_flow) : bool :=
  f_have_first flow && f_total_known flow
  && (f_covered_length flow =? f_total_payload_length flow).

Lemma accept_total_ok is_key P D flow f :
  flow_inv is_key P D flow -> frag_end f <= lenZ P ->
  (frag_more f = false -> frag_end f = lenZ P) ->
  (f_total_known flow && (frag_end f >? f_total_payload_length flow))
  || (negb (frag_more f) && f_total_known flow
      && negb (frag_end f =? f_total_payload_length flow)) = false.
Proof.
  intros [] Hend Hlast. destruct (f_total_known flow); [|destruct (frag_more f); reflexivity].
  rewrite inv_total0 by reflexivity. destruct (frag_more f); simpl; [lia|].
  rewrite Hlast by reflexivity. lia.
Qed.

Lemma accept_no_overlap is_key P D flow f :
  flow_inv is_key P D flow -> 0 <= frag_offset f -> frag_end f <= 65535 -> Forall (apart f) D ->
  any_covered (length (frag_payload f)) (f_coverage flow) (frag_offset f) = Done false.
Proof.
  intros [] H0 Hend Hap. unfold frag_end, frag_length, lenZ in Hend.
  apply any_covered_false; [assumption..|lia|]. intros o Ho.
  apply not_true_iff_false. rewrite inv_cov0 by lia. intros Hc.
  apply Exists_exists in Hc as (g & Hg & Hr). rewrite Forall_forall in Hap.
  specialize (Hap g Hg). unfold apart, frag_end, frag_length, lenZ in *. lia.
Qed.

Lemma book_inv is_key P D flow f now flow1 :
  stable is_key -> lenZ P <= CH_IP_STACK_FRAGMENT_DATA_CAPACITY ->
  flow_inv is_key P D flow -> honest P f -> Forall (honest P) D -> Forall (apart f) D ->
  add_payload flow f now = Done flow1 -> flow_inv is_key P (f :: D) (book flow1 f).
Proof.
  intros Hst HP Hinv Hf HD Hap Hadd.
  destruct (add_payload_inv is_key P D flow f now Hst HP Hinv Hf HD Hap)
    as (flow1' & Hadd' & H1 & H2 & H3 & H4 & H5 & H6 & H7 & H8 & H9 & H10 & H11).
  rewrite Hadd in Hadd'. injection Hadd' as <-. destruct Hinv, Hf.
  assert (Hkey : is_key (book flow1 f) = is_key flow1)
    by (apply Hst; unfold book; destruct (frag_offset f =? 0), (frag_more f); reflexivity).
  unfold book in *. destruct (frag_offset f =? 0) eqn:E0, (frag_more f) eqn:Em;
    constructor; cbn in *; try assumption; try congruence; rewrite ?H7, ?H9, ?Exists_cons, ?inv_last0, ?inv_first0;
    try (intuition congruence);
    try (split; [intros _; left; lia|reflexivity]);
    try (intros _; left; split; [lia|split; reflexivity]);
    try (intros Hx; right; rewrite H10, H11; rewrite <- inv_first0 in Hx; auto);
    try (split; [intros ?; right; assumption|intros [?|?]; [lia|assumption]]).
Qed.

Lemma accept_step is_key P D flow f now :
  stable is_key -> lenZ P <= CH_IP_STACK_FRAGMENT_DATA_CAPACITY ->
  flow_inv is_key P D flow -> honest P f -> Forall (honest P) D -> Forall (apart f) D ->
  total_length (f :: D) <= lenZ P ->
  lenZ (frag_header f) <= CH_IP_STACK_EXTENSION_HEADER_LIMIT ->
  Forall (fun g => lenZ (frag_header g) + lenZ P <= CH_IP_STACK_MAX_PACKET) (f :: D) ->
  exists flow', flow_inv is_key P (f :: D) flow' /\
    fragment_accept flow f now true
    = Done (if complete flow' then Drop (build_packet flow') else Keep flow').
Proof.
  intros Hst HP Hinv Hf HD Hap Htot Hlim Hmax.
  destruct (add_payload_inv is_key P D flow f now Hst HP Hinv Hf HD Hap)
    as (flow1 & Hadd & _ & _ & _ & _ & _ & Hc1 & _).
  pose proof (book_inv is_key P D flow f now flow1 Hst HP Hinv Hf HD Hap Hadd) as Hbook.
  exists (book flow1 f). split; [assumption|].
  destruct Hf. unfold CH_IP_STACK_FRAGMENT_DATA_CAPACITY in *.
  unfold fragment_accept. fold (frag_length f). fold (frag_end f).
  rewrite (accept_total_ok is_key P D flow f Hinv honest_end0 honest_last0).
  rewrite (accept_no_overlap is_key P D flow f Hinv) by (assumption || lia).
  cbn [mbind outcome_bind]. rewrite Hadd. cbn [mbind outcome_bind].
  rewrite (proj2 (andb_false_iff _ _)) by (right; lia).
  replace (f_covered_length (if frag_offset f =? 0 then set_first flow1 f else flow1))
    with (total_length (f :: D)) by (rewrite <- Hc1; destruct (frag_offset f =? 0); reflexivity).
  rewrite (proj2 (andb_false_iff _ _))
    by (destruct (frag_more f); [left; reflexivity|right; rewrite honest_last0 by reflexivity; lia]).
  fold (book flow1 f). generalize dependent (book flow1 f). intros flow' Hbook.
  unfold complete. destruct (f_have_first flow') eqn:E1; [|reflexivity].
  destruct (f_total_known flow') eqn:E2; [|reflexivity]. cbn [negb orb andb].
  destruct (f_covered_length flow' =? f_total_payload_length flow') eqn:E3; [|reflexivity].
  cbn [negb]. replace (lenZ (f_header flow') + f_total_payload_length flow' >? CH_IP_STACK_MAX_PACKET)
    with false; [reflexivity|].
  rewrite (inv_total _ _ _ _ Hbook E2). pose proof (inv_header _ _ _ _ Hbook E1) as Hh.
  apply Exists_exists in Hh as (g & Hg & _ & -> & _).
  rewrite Forall_forall in Hmax. specialize (Hmax g Hg). lia.
Qed.

Lemma land_pow2_cases b k : 0 <= k -> Z.land b (2 ^ k) = 0 \/ Z.land b (2 ^ k) = 2 ^ k.
Proof.
  intros Hk. destruct (Z.testbit b k) eqn:Hb; [right|left; apply Z.eqb_eq].
  - apply Z.bits_inj'. intros n Hn. rewrite Z.land_spec, Z.pow2_bits_eqb by lia.
    destruct (k =? n) eqn:E; [|apply andb_false_r]. apply Z.eqb_eq in E. subst. rewrite Hb. reflexivity.
  - rewrite land_pow2_zero, Hb by lia. reflexivity.
Qed.

(** ** The packet of a complete flow *)

Definition header_ok (af : address_family) (f : fragment) : Prop :=
  bytes_ok (frag_header f) /\ lenZ (frag_header f) <= CH_IP_STACK_EXTENSION_HEADER_LIMIT /\
  match af with
  | AF_INET => 20 <= lenZ (frag_header f)
  | AF_INET6 => 40 <= lenZ (frag_header f) /\ 6 <= frag_next_header_offset f < lenZ (frag_header f)
  end.

(** [packet] is the datagram with payload [P] whose header is that of [first],
    with the fields that describe the fragment replaced. *)
Definition reassembled (af : address_family) (protocol : Z) (first : fragment) (P packet : bytes)
    : Prop :=
  let header := frag_header first in
  let hl := lenZ header in
  lenZ packet = hl + lenZ P /\ sub packet hl (lenZ P) = P /\
  match af with
  | AF_INET =>
      word_at packet 2 = hl + lenZ P /\
      word_at packet 6 = Z.land (word_at header 6) 16384 /\
      ch_ip_stack_checksum (sub packet 0 hl) = 0 /\
      forall i, 0 <= i < hl -> i ∉ [2; 3; 6; 7; 10; 11] -> byte_at packet i = byte_at header i
  | AF_INET6 =>
      word_at packet 4 = hl + lenZ P - 40 /\
      byte_at packet (frag_next_header_offset first) = protocol /\
      forall i, 0 <= i < hl -> i ∉ [4; 5; frag_next_header_offset first] ->
        byte_at packet i = byte_at header i
  end.

Lemma not_elem_cons (i x : Z) l : i ∉ x :: l <-> i <> x /\ i ∉ l.
Proof. apply not_elem_of_cons. Qed.

Lemma build_ipv4 header P :
  bytes_ok header -> bytes_ok P -> 20 <= lenZ header -> lenZ header + lenZ P <= 65535 ->
  let packet := header ++ P in
  let p2 := put packet 2 (be16 (u16 (lenZ header + lenZ P))) in
  let p6 := put p2 6 (be16 (Z.land (word_at p2 6) 16384)) in
  let p10 := put p6 10 [0; 0] in
  let out := put p10 10 (be16 (ch_ip_stack_checksum (sub p10 0 (lenZ header)))) in
  forall first, frag_header first = header -> reassembled AF_INET 0 first P out.
Proof.
  intros Hh HP H20 Hmax packet p2 p6 p10 out first Hfirst. pose proof (lenZ_nonneg P).
  assert (Hlen : lenZ packet = lenZ header + lenZ P) by apply lenZ_app.
  assert (Hb : forall v, lenZ (be16 v) = 2) by reflexivity. assert (Hz : lenZ [0; 0] = 2) by reflexivity.
  assert (L2 : lenZ p2 = lenZ packet) by (apply lenZ_put; rewrite ?Hb; lia).
  assert (L6 : lenZ p6 = lenZ packet) by (unfold p6; rewrite lenZ_put; rewrite ?Hb; lia).
  assert (L10 : lenZ p10 = lenZ packet) by (unfold p10; rewrite lenZ_put; rewrite ?Hz; lia).
  assert (Lo : lenZ out = lenZ packet) by (unfold out; rewrite lenZ_put; rewrite ?Hb; lia).
  assert (Hok10 : bytes_ok p10).
  { repeat apply bytes_ok_put; try apply be16_ok; [|apply (be16_ok 0)]. apply bytes_ok_app; auto. }
  assert (H0 : word_at packet 6 = word_at header 6)
    by (unfold word_at, packet; rewrite !byte_at_app_l by lia; reflexivity).
  pose proof (word_at_range header 6 Hh) as Hr.
  assert (Hdf : 0 <= Z.land (word_at header 6) 16384 <= 65535).
  { destruct (land_pow2_cases (word_at header 6) 14 ltac:(lia)) as [E|E];
      change (2 ^ 14) with 16384 in E; rewrite E; lia. }
  unfold reassembled. rewrite Hfirst. split_and!.
  - lia.
  - unfold out, p10, p6, p2.
    rewrite !sub_put_out; rewrite ?Hb, ?Hz; repeat (rewrite lenZ_put; rewrite ?Hb, ?Hz); try lia.
    unfold packet, sub. rewrite drop_app_ge by (unfold lenZ; lia). unfold lenZ.
    rewrite !Nat2Z.id, Nat.sub_diag, drop_0. apply take_ge. lia.
  - unfold out. rewrite word_at_put_out by (rewrite ?Hb; lia).
    unfold p10. rewrite word_at_put_out by (rewrite ?Hz; lia).
    unfold p6. rewrite word_at_put_out by (rewrite ?Hb; lia).
    unfold p2. rewrite word_at_put16; unfold u16; rewrite ?Z.mod_small; lia.
  - unfold out. rewrite word_at_put_out by (rewrite ?Hb; lia).
    unfold p10. rewrite word_at_put_out by (rewrite ?Hz; lia).
    unfold p6. assert (Hp2 : word_at p2 6 = word_at header 6).
    { unfold p2. rewrite word_at_put_out by (rewrite ?Hb; lia). assumption. }
    rewrite Hp2, word_at_put16; lia.
  - unfold out. apply header_closes; try lia; [assumption|]. apply word_at_put_zero; lia.
  - intros i Hi Hni. rewrite !not_elem_cons in Hni.
    unfold out, p10, p6, p2.
    rewrite !byte_at_put_out; rewrite ?Hb, ?Hz; repeat (rewrite lenZ_put; rewrite ?Hb, ?Hz); try lia.
    unfold packet. apply byte_at_app_l. lia.
Qed.

Lemma build_ipv6 header P nho protocol :
  40 <= lenZ header -> 6 <= nho < lenZ header -> lenZ header + lenZ P <= 65535 ->
  forall first, frag_header first = header -> frag_next_header_offset first = nho ->
  reassembled AF_INET6 protocol first P
    (put (put (header ++ P) nho [protocol]) 4 (be16 (u16 (lenZ header + lenZ P - 40)))).
Proof.
  intros H40 Hn Hmax first Hfirst Hnho. pose proof (lenZ_nonneg P).
  assert (Hlen : lenZ (header ++ P) = lenZ header + lenZ P) by apply lenZ_app.
  set (packet := header ++ P) in *. set (p1 := put packet nho [protocol]).
  assert (Hb : forall v, lenZ (be16 v) = 2) by reflexivity.
  assert (Hz : lenZ [protocol] = 1) by reflexivity.
  assert (L1 : lenZ p1 = lenZ packet) by (apply lenZ_put; lia).
  unfold reassembled. rewrite Hfirst, Hnho. split_and!.
  - rewrite lenZ_put; rewrite ?Hb; lia.
  - rewrite sub_put_out by (rewrite ?Hb; lia). unfold p1. rewrite sub_put_out by lia. apply sub_app_r.
  - rewrite word_at_put16; unfold u16; rewrite ?Z.mod_small; lia.
  - rewrite byte_at_put_out by (rewrite ?Hb; lia). unfold p1. rewrite byte_at_put_in by lia.
    rewrite Z.sub_diag. reflexivity.
  - intros i Hi Hni. rewrite !not_elem_cons in Hni.
    rewrite byte_at_put_out by (rewrite ?Hb; lia). unfold p1. rewrite byte_at_put_out by lia.
    apply byte_at_app_l. lia.
Qed.

(** The slices of a whole fragmentation determine the payload. *)
Lemma slices_determine P F data :
  fragmentation P F -> lenZ P <= lenZ data ->
  Forall (fun g => sub data (frag_offset g) (frag_length g) = frag_payload g) F ->
  sub data 0 (lenZ P) = P.
Proof.
  intros [HF _ _ Hcov _ _] Hlen Hs. pose proof (lenZ_nonneg P).
  apply bytes_eq; [rewrite lenZ_sub; lia|]. rewrite lenZ_sub by lia. intros i Hi.
  rewrite byte_at_sub by lia. specialize (Hcov i Hi).
  apply Exists_exists in Hcov as (g & Hg & Hr). rewrite Forall_forall in HF, Hs.
  destruct (HF g Hg) as [Ho Hl He Hp _ _]. specialize (Hs g Hg). unfold frag_end in *.
  replace (byte_at data (0 + i)) with (byte_at (frag_payload g) (i - frag_offset g)).
  - rewrite Hp, byte_at_sub by lia. f_equal. lia.
  - rewrite <- Hs, byte_at_sub by lia. f_equal. lia.
Qed.

Lemma flow_is_fields af source target identifier protocol flow :
  flow_is af source target identifier protocol flow = true ->
  f_address_family flow = af /\ f_protocol flow = protocol /\ f_dead flow = false.
Proof.
  unfold flow_is. rewrite !andb_true_iff, negb_true_iff, bool_decide_eq_true, !Z.eqb_eq.
  intuition.
Qed.

Lemma complete_packet af source target identifier protocol P D flow :
  flow_inv (flow_is af source target identifier protocol) P D flow ->
  fragmentation P D -> bytes_ok P ->
  Forall (fun g => header_ok af g /\ lenZ (frag_header g) + lenZ P <= CH_IP_STACK_MAX_PACKET) D ->
  complete flow = true /\
  exists first packet, first ∈ D /\ frag_offset first = 0 /\
    build_packet flow = Done packet /\ reassembled af protocol first P packet.
Proof.
  intros Hinv HD HP Hhdr. pose proof HD as [_ _ Htot _ Hlast Hfirst].
  destruct (flow_is_fields _ _ _ _ _ _ (inv_key _ _ _ _ Hinv)) as (Haf & Hproto & _).
  apply (inv_first _ _ _ _ Hinv) in Hfirst. apply (inv_last _ _ _ _ Hinv) in Hlast.
  pose proof (inv_total _ _ _ _ Hinv Hlast) as HT. pose proof (inv_covered _ _ _ _ Hinv) as HC.
  split. { unfold complete. rewrite Hfirst, Hlast, HC, HT. simpl. lia. }
  pose proof (inv_header _ _ _ _ Hinv Hfirst) as Hh.
  apply Exists_exists in Hh as (g & Hg & Hg0 & Hgh & Hgn).
  assert (Hin : g ∈ D) by (apply list_elem_of_In; exact Hg).
  rewrite Forall_forall in Hhdr. destruct (Hhdr g Hg) as [(Hok & Hlim & Hshape) Hmax].
  pose proof (inv_data _ _ _ _ Hinv) as Hdata. pose proof (lenZ_nonneg P).
  pose proof (lenZ_nonneg (frag_header g)).
  unfold CH_IP_STACK_MAX_PACKET, CH_IP_STACK_FRAGMENT_DATA_CAPACITY in *.
  pose proof (slices_determine P D (f_data flow) HD ltac:(lia) (inv_slices _ _ _ _ Hinv)) as Hpay.
  exists g. unfold build_packet. rewrite Haf, HT, Hgh. io_step. rewrite Hpay.
  set (header := frag_header g) in *.
  assert (Hlen : lenZ (header ++ P) = lenZ header + lenZ P) by apply lenZ_app.
  destruct af; cbn [header_ok] in Hshape.
  - eexists. split; [exact Hin|]. split; [exact Hg0|]. unfold ch_ip_stack_write_u16.
    assert (Hb : forall v, lenZ (be16 v) = 2) by reflexivity.
    assert (Hz : lenZ [0; 0] = 2) by reflexivity.
    rewrite wr_Done by (rewrite ?Hb; lia). cbn [mbind outcome_bind].
    set (p2 := put _ 2 _).
    assert (L2 : lenZ p2 = lenZ (header ++ P)) by (apply lenZ_put; rewrite ?Hb; lia).
    rewrite read_u16_word by (lia || (apply bytes_ok_put; [apply bytes_ok_app; auto|apply be16_ok])).
    cbn [mbind outcome_bind]. rewrite wr_Done by (rewrite ?Hb; lia). cbn [mbind outcome_bind].
    set (p6 := put p2 6 _).
    assert (L6 : lenZ p6 = lenZ p2) by (apply lenZ_put; rewrite ?Hb; lia).
    rewrite wr_Done by lia. cbn [mbind outcome_bind]. set (p10 := put p6 10 _).
    assert (L10 : lenZ p10 = lenZ p6) by (apply lenZ_put; lia).
    rewrite rds_Done by lia. cbn [mbind outcome_bind]. rewrite wr_Done by (rewrite ?Hb; lia).
    split; [reflexivity|]. apply build_ipv4; auto.
  - eexists. split; [exact Hin|]. split; [exact Hg0|]. rewrite Hgn, Hproto.
    replace (frag_next_header_offset g >=? lenZ header) with false by lia.
    assert (Hz : lenZ [protocol] = 1) by reflexivity.
    rewrite wr_Done by lia. cbn [mbind outcome_bind]. unfold ch_ip_stack_write_u16.
    rewrite wr_Done; [|lia|change (lenZ (be16 _)) with 2; rewrite lenZ_put; lia].
    split; [reflexivity|]. apply build_ipv6; auto; lia.
Qed.

(** ** A sequence of fragments through the table *)

Section Arrivals.
Context (af : address_family) (source target : bytes) (identifier protocol : Z).

Abbreviation store table frag env :=
  (ch_ip_stack_fragment_store table af source target identifier protocol frag env).
Abbreviation is_key := (flow_is af source target identifier protocol).

Fixpoint store_all (table : fragment_table) (arrivals : list (fragment * fragment_env))
    : fragment_table * list (result (option bytes)) :=
  match arrivals with
  | [] => (table, [])
  | (frag, env) :: rest =>
      let '(table, r) := store table frag env in
      let '(table, rs) := store_all table rest in (table, r :: rs)
  end.

Definition env_ok (env : fragment_env) : Prop :=
  lenZ (env_junk env) = CH_IP_STACK_FRAGMENT_DATA_CAPACITY /\
  (env_mem_flow env = true /\ env_mem_buffers env = true) /\ env_mem_packet env = true.

Definition alive (flow : fragment_flow) : Prop := f_dead flow = false.

(** The flows of a table are alive and counted, and there are at most 64. *)
Definition table_ok (table : fragment_table) : Prop :=
  Forall alive (fragment_flows table) /\
  fragment_flow_count table = lenZ (fragment_flows table) /\
  fragment_flow_count table <= CH_IP_STACK_FRAGMENT_FLOW_LIMIT.

Lemma find_head flow flows c :
  is_key flow = true ->
  ch_ip_stack_fragment_find (mk_table (flow :: flows) c) af source target identifier protocol
  = Some (0%nat, flow).
Proof.
  intros H. unfold ch_ip_stack_fragment_find. cbn [list_find fragment_flows].
  destruct (decide (is_key flow = true)); [reflexivity|contradiction].
Qed.

Lemma filter_alive flows :
  Forall alive flows ->
  filter (fun f => f_dead f = false) flows = flows /\ filter (fun f => f_dead f = true) flows = [].
Proof.
  induction 1 as [|f flows Hf _ [IH1 IH2]]; [split; reflexivity|].
  rewrite !filter_cons, IH1, IH2. unfold alive in Hf. rewrite Hf.
  split; [rewrite decide_True|rewrite decide_False]; auto.
Qed.

Lemma sweep_alive flows c :
  Forall alive flows -> ch_ip_stack_fragment_sweep (mk_table flows c) = mk_table flows c.
Proof.
  intros H. unfold ch_ip_stack_fragment_sweep. cbn [fragment_flows fragment_flow_count].
  destruct (filter_alive flows H) as [-> ->]. rewrite lenZ_nil. f_equal. lia.
Qed.

Lemma sweep_killed flow flows c :
  Forall alive flows ->
  ch_ip_stack_fragment_sweep (mk_table (kill flow :: flows) (c + 1)) = mk_table flows c.
Proof.
  intros H. unfold ch_ip_stack_fragment_sweep. cbn [fragment_flows fragment_flow_count].
  rewrite !filter_cons, decide_False, decide_True by (simpl; congruence).
  destruct (filter_alive flows H) as [-> ->]. f_equal. unfold lenZ. simpl. lia.
Qed.

Lemma flow_is_new now junk :
  lenZ source = ch_ip_stack_address_length af -> lenZ target = ch_ip_stack_address_length af ->
  is_key (new_flow af source target identifier protocol now junk) = true.
Proof.
  intros Hs Ht. unfold flow_is, new_flow. cbn -[take replicate ch_ip_stack_address_length].
  rewrite bool_decide_eq_true_2, !Z.eqb_refl by reflexivity. cbn [andb].
  assert (H : forall a : bytes, lenZ a = ch_ip_stack_address_length af ->
    take (Z.to_nat (ch_ip_stack_address_length af))
      (take (Z.to_nat (ch_ip_stack_address_length af)) a
       ++ replicate (Z.to_nat (16 - ch_ip_stack_address_length af)) 0)
    = take (Z.to_nat (ch_ip_stack_address_length af)) a).
  { intros a Ha. unfold lenZ in Ha. rewrite <- Ha, Nat2Z.id, (take_ge a) by lia.
    rewrite take_app_le by lia. apply take_ge. lia. }
  rewrite !H, !beq_refl by assumption. reflexivity.
Qed.

Lemma new_flow_inv P now junk :
  lenZ source = ch_ip_stack_address_length af -> lenZ target = ch_ip_stack_address_length af ->
  lenZ junk = CH_IP_STACK_FRAGMENT_DATA_CAPACITY ->
  flow_inv is_key P [] (new_flow af source target identifier protocol now junk).
Proof.
  intros Hs Ht Hj. constructor; try discriminate.
  - apply flow_is_new; assumption.
  - exact empty_bitmap.
  - exact Hj.
  - intros o Ho. cbn [f_coverage new_flow]. rewrite cov_zero. unfold covers. rewrite Exists_nil.
    split; [discriminate|tauto].
  - constructor.
  - reflexivity.
  - rewrite Exists_nil. split; [discriminate|tauto].
  - rewrite Exists_nil. split; [discriminate|tauto].
Qed.

(** The first fragment of a datagram opens a flow. *)
Lemma store_opens table f env :
  ch_ip_stack_fragment_find table af source target identifier protocol = None ->
  fragment_flow_count table < CH_IP_STACK_FRAGMENT_FLOW_LIMIT ->
  env_mem_flow env = true /\ env_mem_buffers env = true ->
  lenZ source = ch_ip_stack_address_length af -> lenZ target = ch_ip_stack_address_length af ->
  store table f env
  = (if (frag_offset f >? CH_IP_STACK_FRAGMENT_DATA_CAPACITY)
        || (frag_length f >? CH_IP_STACK_FRAGMENT_DATA_CAPACITY - frag_offset f)
        || (frag_more f && ((frag_length f =? 0) || negb (Z.land (frag_length f) 7 =? 0)))
     then (table, fail CH_ERROR_PARSE (str "invalid IP fragment offset or length"))
     else store (mk_table (new_flow af source target identifier protocol (env_now env) (env_junk env)
                           :: fragment_flows table) (fragment_flow_count table + 1)) f env).
Proof.
  intros Hf Hc [Hm Hb] Hs Ht. unfold ch_ip_stack_fragment_store at 1. fold (frag_length f).
  case_if; [reflexivity|]. rewrite Hf. unfold ch_ip_stack_fragment_create. rewrite Hm, Hb.
  replace (fragment_flow_count table >=? CH_IP_STACK_FRAGMENT_FLOW_LIMIT) with false by lia.
  cbn [negb]. unfold ch_ip_stack_fragment_store. fold (frag_length f). rewrite Heqb.
  rewrite find_head by (apply flow_is_new; assumption). reflexivity.
Qed.

Definition frag_ok (P : bytes) (f : fragment) : Prop :=
  header_ok af f /\ lenZ (frag_header f) + lenZ P <= CH_IP_STACK_MAX_PACKET.

Lemma honest_guard P f :
  honest P f -> lenZ P <= CH_IP_STACK_FRAGMENT_DATA_CAPACITY ->
  (frag_offset f >? CH_IP_STACK_FRAGMENT_DATA_CAPACITY)
  || (frag_length f >? CH_IP_STACK_FRAGMENT_DATA_CAPACITY - frag_offset f)
  || (frag_more f && ((frag_length f =? 0) || negb (Z.land (frag_length f) 7 =? 0))) = false.
Proof.
  intros [H1 H2 H3 _ _ H6] HP. unfold frag_end in *.
  destruct (frag_more f); [rewrite H6 by reflexivity|]; simpl; lia.
Qed.

(** One more fragment of a flow that is still incomplete. *)
Lemma store_step P D flow flows c f env :
  flow_inv is_key P D flow -> env_ok env -> Forall alive flows ->
  Forall (honest P) (f :: D) -> Forall (apart f) D -> total_length (f :: D) <= lenZ P ->
  Forall (frag_ok P) (f :: D) ->
  exists flow', flow_inv is_key P (f :: D) flow' /\
    store (mk_table (flow :: flows) (c + 1)) f env
    = if complete flow'
      then (mk_table flows c, packet ← build_packet flow'; Done (Some packet))
      else (mk_table (flow' :: flows) (c + 1), Done None).
Proof.
  intros Hinv (Hjunk & Hm1 & Hm2) Halive HFD Hap Htot Hok.
  inversion_clear HFD as [|? ? Hf HD]. inversion Hok as [|? ? [[_ [Hlim _]] Hmax] _]; subst.
  pose proof (lenZ_nonneg (frag_header f)).
  assert (HP : lenZ P <= CH_IP_STACK_FRAGMENT_DATA_CAPACITY)
    by (unfold CH_IP_STACK_MAX_PACKET, CH_IP_STACK_FRAGMENT_DATA_CAPACITY in *; lia).
  destruct (accept_step is_key P D flow f (env_now env) (flow_is_stable _ _ _ _ _) HP Hinv Hf HD Hap
              Htot Hlim) as (flow' & Hinv' & Hacc).
  { revert Hok. apply List.Forall_impl. intros g [_ Hg]. exact Hg. }
  exists flow'. split; [assumption|]. unfold ch_ip_stack_fragment_store. fold (frag_length f).
  rewrite (honest_guard P f Hf HP), find_head by (apply Hinv). rewrite Hm2, Hacc.
  destruct (complete flow'); [|reflexivity]. f_equal. apply sweep_killed. assumption.
Qed.

Lemma store_all_collect P arrivals D flow flows c :
  flow_inv is_key P D flow -> Forall alive flows -> bytes_ok P -> arrivals <> [] ->
  fragmentation P (arrivals.*1 ++ D) -> Forall (frag_ok P) (arrivals.*1 ++ D) ->
  Forall env_ok (arrivals.*2) ->
  exists first packet, first ∈ arrivals.*1 ++ D /\ frag_offset first = 0 /\
    reassembled af protocol first P packet /\
    store_all (mk_table (flow :: flows) (c + 1)) arrivals
    = (mk_table flows c, replicate (length arrivals - 1) (Done None) ++ [Done (Some packet)]).
Proof.
  revert D flow. induction arrivals as [|[f env] rest IH]; intros D flow Hinv Ha HP Hne Hcut Hok Henv;
    [contradiction|]. clear Hne. cbn [fmap list_fmap fst snd app] in *.
  assert (Hp : f :: (rest.*1 ++ D) ≡ₚ rest.*1 ++ f :: D) by apply Permutation_middle.
  pose proof (fragmentation_permutation _ _ _ Hp Hcut) as Hcut'.
  assert (Hok' : Forall (frag_ok P) (rest.*1 ++ f :: D)) by (rewrite <- Hp; assumption).
  inversion_clear Henv as [|? ? He Henv'].
  pose proof (total_nonneg (rest.*1)) as Hnn.
  destruct (store_step P D flow flows c f env) as (flow' & Hinv' & Hstore); auto.
  { apply cut_honest in Hcut'. apply Forall_app in Hcut' as [_ ?]. assumption. }
  { apply cut_apart in Hcut. inversion_clear Hcut as [|? ? Hx _]. apply Forall_app in Hx as [_ ?]. assumption. }
  { apply cut_total in Hcut'. rewrite total_app in Hcut'. lia. }
  { apply Forall_app in Hok' as [_ ?]. assumption. }
  cbn [store_all]. rewrite Hstore. destruct rest as [|x rest].
  - destruct (complete_packet _ _ _ _ _ _ _ _ Hinv' Hcut' HP Hok')
      as (Hc & first & packet & Hin & H0 & Hb & Hre).
    exists first, packet. rewrite Hc, Hb. cbn [store_all mbind outcome_bind length replicate Nat.sub app].
    split_and!; auto.
  - assert (Hinc : complete flow' = false).
    { apply cut_total in Hcut'. apply cut_honest in Hcut. destruct x as [g e].
      cbn [fmap list_fmap fst app] in Hcut, Hcut'.
      inversion_clear Hcut as [|? ? _ Hr]. inversion_clear Hr as [|? ? Hg _]. destruct Hg.
      rewrite app_comm_cons, total_app in Hcut'. cbn [total_length foldr] in Hcut'.
      fold (total_length (rest.*1)) in Hcut'. pose proof (total_nonneg (rest.*1)).
      unfold complete. destruct (f_total_known flow') eqn:Ek; [|destruct (f_have_first flow'); reflexivity].
      rewrite (inv_covered _ _ _ _ Hinv'), (inv_total _ _ _ _ Hinv' Ek).
      destruct (f_have_first flow'); [|reflexivity]. cbn [andb total_length foldr] in *. lia. }
    rewrite Hinc.
    destruct (IH (f :: D) flow' Hinv' Ha HP ltac:(discriminate) Hcut' Hok' Henv')
      as (first & packet & Hin & H0 & Hre & ->).
    exists first, packet. split_and!; auto; [rewrite Hp; assumption|].
    cbn [length Nat.sub replicate app]. rewrite Nat.sub_0_r. reflexivity.
Qed.


End Arrivals.

(** ** Memory safety of the reassembly *)

Definition shape_ok (af : address_family) (header : bytes) (nho : Z) : Prop :=
  bytes_ok header /\
  match af with AF_INET => 20 <= lenZ header | AF_INET6 => 40 <= lenZ header /\ 6 <= nho end.

Record flow_wf (flow : fragment_flow) : Prop := mk_flow_wf {
  wf_alive : alive flow;
  wf_bitmap : bitmap_ok (f_coverage flow);
  wf_data : lenZ (f_data flow) = CH_IP_STACK_FRAGMENT_DATA_CAPACITY;
  wf_total : 0 <= f_total_payload_length flow <= CH_IP_STACK_FRAGMENT_DATA_CAPACITY;
  wf_header : f_have_first flow = true ->
    shape_ok (f_address_family flow) (f_header flow) (f_next_header_offset flow)
}.

Definition table_wf (table : fragment_table) : Prop :=
  Forall flow_wf (fragment_flows table) /\ table_ok table.

(** The fragments that [prepare_input_packet] can extract. *)
Definition frag_wf (af : address_family) (f : fragment) : Prop :=
  0 <= frag_offset f /\ header_ok af f.

Lemma build_packet_safe flow :
  flow_wf flow -> f_have_first flow = true -> no_fault (build_packet flow).
Proof.
  intros [_ _ Hd Ht Hh] Hf. destruct (Hh Hf) as [Hok Hshape].
  unfold CH_IP_STACK_FRAGMENT_DATA_CAPACITY in *. pose proof (lenZ_nonneg (f_header flow)).
  unfold build_packet, ch_ip_stack_write_u16, ch_ip_stack_read_u16. io_step.
  set (payload := sub _ _ _).
  assert (Hlen : lenZ (f_header flow ++ payload) = lenZ (f_header flow) + f_total_payload_length flow)
    by (rewrite lenZ_app; unfold payload; rewrite lenZ_sub; lia).
  pose proof (lenZ_nonneg payload).
  assert (Hb : forall v, lenZ (be16 v) = 2) by reflexivity. assert (Hz : lenZ [0; 0] = 2) by reflexivity.
  destruct (f_address_family flow).
  - rewrite wr_Done by (rewrite ?Hb; lia). cbn [mbind outcome_bind]. set (p2 := put _ 2 _).
    assert (L2 : lenZ p2 = lenZ (f_header flow ++ payload)) by (apply lenZ_put; rewrite ?Hb; lia).
    rewrite !rd_Done by lia. cbn [mbind outcome_bind]. rewrite wr_Done by (rewrite ?Hb; lia).
    cbn [mbind outcome_bind]. set (p6 := put p2 6 _).
    assert (L6 : lenZ p6 = lenZ p2) by (apply lenZ_put; rewrite ?Hb; lia).
    rewrite wr_Done by lia. cbn [mbind outcome_bind]. set (p10 := put p6 10 _).
    assert (L10 : lenZ p10 = lenZ p6) by (apply lenZ_put; lia).
    rewrite rds_Done by lia. cbn [mbind outcome_bind]. rewrite wr_Done by (rewrite ?Hb; lia). discriminate.
  - case_if; [discriminate|]. assert (H1 : lenZ [f_protocol flow] = 1) by reflexivity.
    rewrite wr_Done by lia. cbn [mbind outcome_bind].
    rewrite wr_Done; [discriminate|lia|rewrite Hb, lenZ_put; lia].
Qed.

(** The flow that [fragment_store] keeps is well formed. *)
Lemma add_payload_wf flow f now :
  flow_wf flow -> 0 <= frag_offset f -> frag_end f <= CH_IP_STACK_FRAGMENT_DATA_CAPACITY ->
  exists flow', add_payload flow f now = Done flow' /\ flow_wf flow' /\
    f_have_first flow' = f_have_first flow /\ f_address_family flow' = f_address_family flow.
Proof.
  intros [Ha Hb Hd Ht Hh] H0 He. unfold CH_IP_STACK_FRAGMENT_DATA_CAPACITY in *.
  unfold frag_end, frag_length in He. unfold add_payload. rewrite wr_Done by lia. cbn [mbind outcome_bind].
  destruct (mark_range_cov (length (frag_payload f)) (f_coverage flow) (frag_offset f) Hb H0
              ltac:(fold (lenZ (frag_payload f)); lia)) as (c & -> & Hc & _).
  cbn [mbind outcome_bind]. eexists. split; [reflexivity|]. split; [|split; reflexivity].
  constructor; auto. cbn [f_data]. rewrite lenZ_put; unfold CH_IP_STACK_FRAGMENT_DATA_CAPACITY; lia.
Qed.

Lemma book_wf flow f :
  flow_wf flow -> frag_wf (f_address_family flow) f ->
  frag_end f <= CH_IP_STACK_FRAGMENT_DATA_CAPACITY -> flow_wf (book flow f).
Proof.
  intros [Ha Hb Hd Ht Hh] [H0 (Hok & _ & Hshape)] He. pose proof (lenZ_nonneg (frag_payload f)).
  unfold frag_end, frag_length in *.
  unfold book. destruct (frag_offset f =? 0), (frag_more f); constructor; auto; cbn -[Z.add];
    try (unfold frag_end, frag_length; lia).
  all: intros _; split; [assumption|]; destruct (f_address_family flow); tauto.
Qed.

Lemma any_covered_safe n coverage o :
  bitmap_ok coverage -> 0 <= o -> o + Z.of_nat n <= 65536 ->
  exists b, any_covered n coverage o = Done b.
Proof.
  revert o. induction n as [|n IH]; intros o Hb Ho Hn; cbn [any_covered]; [eauto|].
  rewrite fragment_covered_cov by (assumption || lia). cbn [mbind outcome_bind].
  destruct (cov coverage o); [eauto|]. apply IH; auto; lia.
Qed.

Lemma accept_safe flow f now mem :
  flow_wf flow -> frag_wf (f_address_family flow) f ->
  frag_end f <= CH_IP_STACK_FRAGMENT_DATA_CAPACITY ->
  exists v, fragment_accept flow f now mem = Done v /\
    match v with Keep flow' => flow_wf flow' | Drop r => no_fault r end.
Proof.
  intros Hwf Hfr He. pose proof Hfr as [H0 _].
  destruct (add_payload_wf flow f now Hwf H0 He) as (flow1 & Hadd & Hwf1 & Hf1 & Haf).
  rewrite <- Haf in Hfr. pose proof (book_wf flow1 f Hwf1 Hfr He) as Hbook.
  unfold fragment_accept. fold (frag_length f). fold (frag_end f).
  case_if; [eexists; split; [reflexivity|discriminate]|].
  destruct (any_covered_safe (length (frag_payload f)) (f_coverage flow) (frag_offset f)) as [b ->];
    [apply Hwf|assumption|unfold frag_end, frag_length, lenZ, CH_IP_STACK_FRAGMENT_DATA_CAPACITY in He; lia|].
  cbn [mbind outcome_bind]. destruct b; [eexists; split; [reflexivity|discriminate]|].
  rewrite Hadd. cbn [mbind outcome_bind]. case_if; [eexists; split; [reflexivity|discriminate]|].
  case_if; [eexists; split; [reflexivity|discriminate]|]. fold (book flow1 f).
  destruct (f_have_first (book flow1 f)) eqn:E1; [|eexists; split; [reflexivity|assumption]].
  destruct (f_total_known (book flow1 f)); [|eexists; split; [reflexivity|assumption]].
  cbn [negb orb]. case_if; [eexists; split; [reflexivity|assumption]|].
  case_if; [eexists; split; [reflexivity|discriminate]|].
  destruct mem; [|eexists; split; [reflexivity|discriminate]].
  eexists. split; [reflexivity|]. apply build_packet_safe; assumption.
Qed.


(** ** The table *)

Lemma sweep_insert_kill flows c i flow :
  flows !! i = Some flow -> Forall alive flows ->
  ch_ip_stack_fragment_sweep (mk_table (<[i := kill flow]> flows) c)
  = mk_table (delete i flows) (c - 1).
Proof.
  intros Hi Ha. unfold ch_ip_stack_fragment_sweep. cbn [fragment_flows fragment_flow_count].
  enough (H : filter (fun f => f_dead f = false) (<[i := kill flow]> flows) = delete i flows /\
              length (filter (fun f => f_dead f = true) (<[i := kill flow]> flows)) = 1%nat).
  { destruct H as [-> H]. unfold lenZ. rewrite H. reflexivity. }
  revert i Hi. induction Ha as [|g flows Hg Ha IH]; intros [|i] Hi; try discriminate.
  - cbn [list_insert insert list_delete delete]. rewrite !filter_cons, decide_False, decide_True by (simpl; congruence).
    destruct (filter_alive flows Ha) as [-> ->]. split; reflexivity.
  - cbn [list_insert insert list_delete delete]. unfold alive in Hg.
    rewrite !filter_cons, decide_True, decide_False by (rewrite Hg; congruence).
    destruct (IH i Hi) as [IH1 IH2]. split; [f_equal; exact IH1|exact IH2].
Qed.

Lemma store_flow_wf table i flow f now mem :
  table_wf table -> fragment_flows table !! i = Some flow ->
  frag_wf (f_address_family flow) f -> frag_end f <= CH_IP_STACK_FRAGMENT_DATA_CAPACITY ->
  let out := match fragment_accept flow f now mem with
    | Done (Keep flow) =>
        (mk_table (<[i := flow]> (fragment_flows table)) (fragment_flow_count table), Done None)
    | Done (Drop r) =>
        (ch_ip_stack_fragment_sweep
           (mk_table (<[i := kill flow]> (fragment_flows table)) (fragment_flow_count table)),
         packet ← r; Done (Some packet))
    | Raise e => (table, Raise e)
    | Fault => (table, Fault)
    end in
  table_wf out.1 /\ no_fault out.2.
Proof.
  intros [Hall (Hal & Hc & Hlim)] Hi Hf He.
  assert (Hwf : flow_wf flow) by (eapply Forall_lookup_1; eauto).
  destruct (accept_safe flow f now mem Hwf Hf He) as (v & -> & Hv). destruct v as [flow'|r]; cbn [fst snd].
  - split; [|discriminate]. split; [|split; [|split]]; cbn [fragment_flows fragment_flow_count].
    + apply Forall_insert; assumption.
    + apply Forall_insert; [assumption|apply Hv].
    + unfold lenZ. rewrite length_insert. assumption.
    + assumption.
  - split; [|destruct r; [discriminate|discriminate|destruct (Hv eq_refl)]].
    rewrite sweep_insert_kill by assumption. pose proof (lookup_lt_Some _ _ _ Hi).
    split; [|split; [|split]]; cbn [fragment_flows fragment_flow_count].
    + apply Forall_delete. assumption.
    + apply Forall_delete. assumption.
    + rewrite Hc. unfold lenZ. rewrite length_delete by (eexists; eassumption). lia.
    + lia.
Qed.

Lemma new_flow_wf af source target identifier protocol now junk :
  lenZ junk = CH_IP_STACK_FRAGMENT_DATA_CAPACITY ->
  flow_wf (new_flow af source target identifier protocol now junk).
Proof.
  intros Hj. constructor; try reflexivity; try assumption; try discriminate.
  - exact empty_bitmap.
  - cbn. unfold CH_IP_STACK_FRAGMENT_DATA_CAPACITY. lia.
Qed.

Lemma find_spec table af source target identifier protocol i flow :
  ch_ip_stack_fragment_find table af source target identifier protocol = Some (i, flow) ->
  fragment_flows table !! i = Some flow /\ flow_is af source target identifier protocol flow = true.
Proof. intros H. apply list_find_Some in H as (H1 & H2 & _). split; assumption. Qed.

Lemma store_wf table af source target identifier protocol f env :
  table_wf table -> lenZ (env_junk env) = CH_IP_STACK_FRAGMENT_DATA_CAPACITY -> frag_wf af f ->
  let out := ch_ip_stack_fragment_store table af source target identifier protocol f env in
  table_wf out.1 /\ no_fault out.2.
Proof.
  intros Hwf Hj Hf. unfold ch_ip_stack_fragment_store. fold (frag_length f).
  case_if; [split; [assumption|discriminate]|].
  assert (He : frag_end f <= CH_IP_STACK_FRAGMENT_DATA_CAPACITY) by (unfold frag_end; lia).
  destruct (ch_ip_stack_fragment_find table af source target identifier protocol) as [[i flow]|] eqn:Hfind.
  - apply find_spec in Hfind as [Hi Hkey]. apply flow_is_fields in Hkey as (Haf & _ & _).
    apply store_flow_wf; auto. rewrite Haf. assumption.
  - unfold ch_ip_stack_fragment_create. case_if; [split; [assumption|discriminate]|].
    destruct (env_mem_flow env); [|split; [assumption|discriminate]].
    destruct (env_mem_buffers env); [|split; [assumption|discriminate]].
    apply (store_flow_wf (mk_table _ _) 0%nat); auto.
    destruct Hwf as (Hall & Hal & Hc & Hlim).
    pose proof (new_flow_wf af source target identifier protocol (env_now env) (env_junk env) Hj).
    split; [|split; [|split]]; cbn [fragment_flows fragment_flow_count].
    + constructor; assumption.
    + constructor; [reflexivity|assumption].
    + rewrite lenZ_cons. lia.
    + lia.
Qed.

Lemma sweep_length flows :
  lenZ (filter (fun f => f_dead f = false) flows) + lenZ (filter (fun f => f_dead f = true) flows)
  = lenZ flows.
Proof.
  unfold lenZ. induction flows as [|f flows IH]; [reflexivity|]. rewrite !filter_cons.
  destruct (f_dead f); [rewrite decide_False, decide_True by congruence
                       |rewrite decide_True, decide_False by congruence]; cbn [length]; lia.
Qed.

Lemma sweep_wf table :
  Forall (fun f => f_dead f = false -> flow_wf f) (fragment_flows table) ->
  fragment_flow_count table = lenZ (fragment_flows table) ->
  fragment_flow_count table <= CH_IP_STACK_FRAGMENT_FLOW_LIMIT ->
  table_wf (ch_ip_stack_fragment_sweep table).
Proof.
  intros Hall Hc Hlim. unfold ch_ip_stack_fragment_sweep.
  pose proof (sweep_length (fragment_flows table)) as Hs.
  pose proof (lenZ_nonneg (filter (fun f => f_dead f = true) (fragment_flows table))).
  assert (H1 : Forall (fun f => f_dead f = false /\ flow_wf f)
                 (filter (fun f => f_dead f = false) (fragment_flows table))).
  { apply Forall_forall. intros f Hin. apply list_elem_of_In, list_elem_of_filter in Hin as [Hd Hin].
    split; [assumption|]. rewrite Forall_forall in Hall. apply Hall; [apply list_elem_of_In|]; assumption. }
  split; [|split; [|split]]; cbn [fragment_flows fragment_flow_count]; try lia.
  - revert H1. apply List.Forall_impl. tauto.
  - revert H1. apply List.Forall_impl. unfold alive. tauto.
Qed.

Lemma tick_wf table now : table_wf table -> table_wf (fragment_tick table now).
Proof.
  intros (Hall & _ & Hc & Hlim). apply sweep_wf; cbn [fragment_flows fragment_flow_count].
  - apply Forall_map. revert Hall. apply List.Forall_impl. intros f Hf. case_if; [discriminate|auto].
  - rewrite Hc. unfold lenZ. rewrite length_map. reflexivity.
  - assumption.
Qed.


(** ** Packets read from the device *)

Lemma read_u16_Done p i :
  bytes_ok p -> 0 <= i -> i + 2 <= lenZ p ->
  ch_ip_stack_read_u16 p i = Done (word_at p i) /\ 0 <= word_at p i <= 65535.
Proof. intros. split; [apply read_u16_word|apply word_at_range]; assumption. Qed.

Lemma land_nonneg_l a b : 0 <= a -> 0 <= Z.land a b.
Proof. intros. apply Z.land_nonneg. lia. Qed.

Lemma classify_ipv4_safe packet :
  bytes_ok packet -> 1 <= lenZ packet ->
  match classify_ipv4 packet with
  | Done Whole => True
  | Done (Fragmented af source target _ _ f) =>
      af = AF_INET /\ lenZ source = 4 /\ lenZ target = 4 /\ frag_wf af f
  | Raise _ => True
  | Fault => False
  end.
Proof.
  intros Hok Hlen. unfold classify_ipv4. io_step.
  destruct (header_length_range (byte_at packet 0)) as [Hr _].
  case_if; [exact I|]. set (hl := Z.land (byte_at packet 0) 15 * 4) in *.
  destruct (read_u16_Done packet 2 Hok ltac:(lia) ltac:(lia)) as [-> _]. cbn [mbind outcome_bind].
  case_if; [exact I|]. rewrite (rds_Done packet 0 hl) by lia. cbn [mbind outcome_bind]. case_if; [exact I|].
  destruct (read_u16_Done packet 6 Hok ltac:(lia) ltac:(lia)) as [-> H6]. cbn [mbind outcome_bind].
  case_if; [exact I|]. rewrite !rds_Done by lia. cbn [mbind outcome_bind].
  destruct (read_u16_Done packet 4 Hok ltac:(lia) ltac:(lia)) as [-> _]. cbn [mbind outcome_bind].
  io_step.
  split_and!; try reflexivity; try (rewrite lenZ_sub; lia).
  unfold CH_IP_STACK_EXTENSION_HEADER_LIMIT. split; [|split; [|split]]; cbn [frag_offset frag_header].
  - pose proof (land_nonneg_l (word_at packet 6) 8191). lia.
  - apply bytes_ok_sub. assumption.
  - rewrite lenZ_sub; unfold CH_IP_STACK_EXTENSION_HEADER_LIMIT; lia.
  - rewrite lenZ_sub; lia.
Qed.

Lemma input_extension_loop_safe fuel packet nh cursor nho :
  bytes_ok packet -> 40 <= cursor <= lenZ packet -> cursor <= 512 -> 6 <= nho < cursor ->
  match input_extension_loop fuel packet nh cursor nho with
  | Done (nh', cursor', nho') =>
      40 <= cursor' <= lenZ packet /\ cursor' <= 512 /\ 6 <= nho' < cursor' /\
      is_extension nh' = false
  | Raise _ => True
  | Fault => False
  end.
Proof.
  revert nh cursor nho. induction fuel as [|fuel IH]; intros nh cursor nho Hok Hc Hl Hn;
    cbn [input_extension_loop]; destruct (is_extension nh) eqn:E; try exact I;
    try (split_and!; (assumption || lia)).
  case_if; [exact I|]. io_step.
  destruct (extension_length_range (byte_at packet (cursor + 1)) nh) as [Hx _]; [apply byte_at_ok; assumption|].
  case_if; [exact I|]. io_step. unfold CH_IP_STACK_EXTENSION_HEADER_LIMIT in *.
  apply IH; auto; lia.
Qed.

(** The walk of [prepare_input_packet] and the one of [ipv6_transport] agree. *)
Lemma walks_agree fuel packet nh cursor nho :
  match input_extension_loop fuel packet nh cursor nho with
  | Done (nh', cursor', _) =>
      ipv6_transport_loop fuel packet nh cursor
      = Done (if nh' =? 44 then None else Some (nh', cursor'))
  | Raise _ => ipv6_transport_loop fuel packet nh cursor = Done None
  | Fault => ipv6_transport_loop fuel packet nh cursor = Fault
  end.
Proof.
  revert nh cursor nho. induction fuel as [|fuel IH]; intros nh cursor nho;
    cbn [input_extension_loop ipv6_transport_loop]; destruct (is_extension nh) eqn:E;
    [reflexivity|destruct (nh =? 44); reflexivity| |destruct (nh =? 44); reflexivity].
  case_if; [reflexivity|].
  destruct (rd packet (cursor + 1)) as [u|e|] eqn:E1; cbn [mbind outcome_bind];
    [|apply rd_no_Raise in E1 as []|reflexivity].
  case_if; [reflexivity|].
  destruct (rd packet cursor) as [n|e|] eqn:E2; cbn [mbind outcome_bind];
    [|apply rd_no_Raise in E2 as []|reflexivity].
  apply IH.
Qed.


Lemma classify_ipv6_safe packet :
  bytes_ok packet ->
  match classify_ipv6 packet with
  | Done Whole => True
  | Done (Fragmented af source target _ _ f) =>
      af = AF_INET6 /\ lenZ source = 16 /\ lenZ target = 16 /\ frag_wf af f
  | Raise _ => True
  | Fault => False
  end.
Proof.
  intros Hok. unfold classify_ipv6. case_if; [exact I|].
  destruct (read_u16_Done packet 4 Hok ltac:(lia) ltac:(lia)) as [-> _]. cbn [mbind outcome_bind].
  case_if; [exact I|]. io_step.
  pose proof (input_extension_loop_safe 16 packet (byte_at packet 6) 40 6 Hok ltac:(lia) ltac:(lia) ltac:(lia)) as Hw.
  destruct (input_extension_loop 16 packet (byte_at packet 6) 40 6) as [[[nh cursor] nho]|e|];
    cbn [mbind outcome_bind]; [|exact I|contradiction].
  case_if; [exact I|]. case_if; [exact I|]. rewrite (rd_Done packet (cursor + 1)) by lia.
  cbn [mbind outcome_bind]. case_if; [exact I|].
  destruct (read_u16_Done packet (cursor + 2) Hok ltac:(lia) ltac:(lia)) as [-> Hf]. cbn [mbind outcome_bind].
  case_if; [exact I|]. unfold ch_ip_stack_read_u32. rewrite !rds_Done by lia. cbn [mbind outcome_bind].
  rewrite !rd_Done by lia. cbn [mbind outcome_bind].
  split_and!; try reflexivity; try (rewrite lenZ_sub; lia).
  split; [|split; [|split]]; cbn [frag_offset frag_header frag_next_header_offset].
  - apply land_nonneg_l. lia.
  - apply bytes_ok_sub. assumption.
  - rewrite lenZ_sub; unfold CH_IP_STACK_EXTENSION_HEADER_LIMIT; lia.
  - rewrite lenZ_sub; lia.
Qed.

Lemma prepare_input_wf table packet env :
  table_wf table -> lenZ (env_junk env) = CH_IP_STACK_FRAGMENT_DATA_CAPACITY ->
  bytes_ok packet -> 1 <= lenZ packet ->
  table_wf (ch_ip_stack_prepare_input_packet table packet env).1 /\
  no_fault (ch_ip_stack_prepare_input_packet table packet env).2.
Proof.
  intros Hwf Hj Hok Hlen. unfold ch_ip_stack_prepare_input_packet.
  rewrite rd_Done by lia. cbn [mbind outcome_bind].
  pose proof (classify_ipv4_safe packet Hok Hlen) as H4.
  pose proof (classify_ipv6_safe packet Hok) as H6.
  destruct (Z.shiftr (byte_at packet 0) 4 =? 4).
  - destruct (classify_ipv4 packet) as [[|af s t id proto f]|e|]; try contradiction;
      try (split; [assumption|discriminate]).
    + split; [assumption|]. destruct (env_mem_packet env); discriminate.
    + apply store_wf; tauto.
  - destruct (classify_ipv6 packet) as [[|af s t id proto f]|e|]; try contradiction;
      try (split; [assumption|discriminate]).
    + split; [assumption|]. destruct (env_mem_packet env); discriminate.
    + apply store_wf; tauto.
Qed.

(** The tables the stack can reach: packets come in, the timer ticks. *)
Inductive frag_reach : fragment_table -> Prop :=
| frag_reach_empty : frag_reach (mk_table [] 0)
| frag_reach_packet table packet env :
    frag_reach table -> lenZ (env_junk env) = CH_IP_STACK_FRAGMENT_DATA_CAPACITY ->
    bytes_ok packet -> 1 <= lenZ packet ->
    frag_reach (ch_ip_stack_prepare_input_packet table packet env).1
| frag_reach_tick table now : frag_reach table -> frag_reach (fragment_tick table now).

Lemma frag_reach_wf table : frag_reach table -> table_wf table.
Proof.
  induction 1 as [|table packet env _ IH Hj Hok Hl|table now _ IH].
  - split; [constructor|]. split; [constructor|]. split; [reflexivity|]. cbn.
    unfold CH_IP_STACK_FRAGMENT_FLOW_LIMIT. lia.
  - apply prepare_input_wf; assumption.
  - apply tick_wf. assumption.
Qed.

(** ** Properties *)

(** C1: Reassembly is correct whatever the order of arrival.  Take any payload
    cut into consecutive fragments (each but the last a multiple of 8 bytes),
    deliver them in any order, each once, to a table that has no flow for the
    datagram and room for one: every call but the last reports that the
    datagram is incomplete, the last returns the packet with exactly the
    original payload, the header of the first fragment with its length,
    fragment and checksum fields (IPv4) or next-header and length fields (IPv6)
    rewritten, and the table is back to what it was. *)
Theorem fragment_reassembly_any_order table af source target identifier protocol P cuts arrivals :
  table_ok table -> fragment_flow_count table < CH_IP_STACK_FRAGMENT_FLOW_LIMIT ->
  ch_ip_stack_fragment_find table af source target identifier protocol = None ->
  lenZ source = ch_ip_stack_address_length af -> lenZ target = ch_ip_stack_address_length af ->
  bytes_ok P -> consecutive P 0 cuts -> arrivals.*1 ≡ₚ cuts ->
  Forall (frag_ok af P) cuts -> Forall env_ok (arrivals.*2) ->
  exists first packet, first ∈ cuts /\ frag_offset first = 0 /\
    reassembled af protocol first P packet /\
    store_all af source target identifier protocol table arrivals
    = (table, replicate (length arrivals - 1) (Done None) ++ [Done (Some packet)]).
Proof.
  intros (Hal & Hc & _) Hroom Hfind Hs Ht HP Hcut Hperm Hok Henv.
  destruct arrivals as [|[f env] rest].
  { cbn in Hperm. apply Permutation_nil in Hperm. subst. destruct Hcut. }
  pose proof (fragmentation_permutation _ _ _ (symmetry Hperm) (consecutive_fragmentation _ _ Hcut)) as HF.
  assert (Hok' : Forall (frag_ok af P) (((f, env) :: rest).*1 ++ []))
    by (rewrite app_nil_r, Hperm; assumption).
  pose proof Henv as Henv0. cbn [fmap list_fmap snd] in Henv0. inversion_clear Henv0 as [|? ? (Hj & Hm & _) _].
  pose proof (new_flow_inv af source target identifier protocol P (env_now env) (env_junk env) Hs Ht Hj) as Hnew.
  destruct (store_all_collect af source target identifier protocol P ((f, env) :: rest) [] _
              (fragment_flows table) (fragment_flow_count table) Hnew Hal HP ltac:(discriminate)
              ltac:(rewrite app_nil_r; exact HF) Hok' Henv)
    as (first & packet & Hin & H0 & Hre & Hall).
  exists first, packet. rewrite app_nil_r in Hin. split; [rewrite <- Hperm; assumption|].
  split; [assumption|]. split; [assumption|].
  cbn [store_all]. rewrite (store_opens af source target identifier protocol table f env) by assumption.
  cbn [fmap list_fmap fst] in HF. pose proof (cut_honest _ _ HF) as Hh. inversion_clear Hh as [|? ? Hf _].
  inversion_clear Hok' as [|? ? [(_ & _ & _) Hmax] _]. pose proof (lenZ_nonneg (frag_header f)).
  rewrite (honest_guard P f Hf) by (unfold CH_IP_STACK_MAX_PACKET, CH_IP_STACK_FRAGMENT_DATA_CAPACITY in *; lia).
  destruct table as [flows c]. exact Hall.
Qed.

(** A fragment that overlaps a byte already received is rejected with a
    parse error and the whole flow is discarded, the other flows untouched. *)
Theorem fragment_overlap_rejected table af source target identifier protocol i flow f env o :
  table_wf table ->
  ch_ip_stack_fragment_find table af source target identifier protocol = Some (i, flow) ->
  0 <= frag_offset f -> frag_end f <= CH_IP_STACK_FRAGMENT_DATA_CAPACITY ->
  (frag_more f = true -> Z.land (frag_length f) 7 = 0) ->
  frag_offset f <= o < frag_end f -> cov (f_coverage flow) o = true ->
  exists text,
    ch_ip_stack_fragment_store table af source target identifier protocol f env
    = (mk_table (delete i (fragment_flows table)) (fragment_flow_count table - 1),
       fail CH_ERROR_PARSE text).
Proof.
  intros [Hwf (Hal & _)] Hfind H0 He H7 Ho Hc. pose proof (find_spec _ _ _ _ _ _ _ _ Hfind) as [Hi _].
  assert (Hfw : flow_wf flow) by (eapply Forall_lookup_1; eauto).
  unfold ch_ip_stack_fragment_store. fold (frag_length f).
  replace (_ || _ || _) with false
    by (unfold frag_end in *; destruct (frag_more f); [rewrite H7 by reflexivity|]; simpl; lia).
  rewrite Hfind. unfold fragment_accept. fold (frag_length f). fold (frag_end f).
  rewrite (any_covered_true _ _ _ o (wf_bitmap _ Hfw)); try assumption;
    [|unfold frag_end, frag_length, lenZ, CH_IP_STACK_FRAGMENT_DATA_CAPACITY in *; lia..].
  cbn [mbind outcome_bind].
  case_if; rewrite sweep_insert_kill by assumption; eexists; reflexivity.
Qed.

(** C12: Memory safety of the packet intake: in every table the stack can reach
    from start, for every packet of at least one byte, header parsing, the
    extension-header walk, the bitmap and the payload buffer are accessed
    within their bounds; at most 64 flows exist and the counter is exact. *)
Theorem prepare_input_memory_safe table packet env :
  frag_reach table -> lenZ (env_junk env) = CH_IP_STACK_FRAGMENT_DATA_CAPACITY ->
  bytes_ok packet -> 1 <= lenZ packet ->
  no_fault (ch_ip_stack_prepare_input_packet table packet env).2 /\
  table_ok (ch_ip_stack_prepare_input_packet table packet env).1.
Proof.
  intros Hr Hj Hok Hlen.
  destruct (prepare_input_wf table packet env (frag_reach_wf _ Hr) Hj Hok Hlen) as [[_ Ht] Hn].
  split; assumption.
Qed.

(** The two extension-header walks of the stack agree: on a packet with a
    consistent IPv6 header, [prepare_input_packet] treats it as a whole
    datagram exactly when [ipv6_transport] finds its transport header, so a
    packet that passes the intake is never re-classified later. *)
Theorem ipv6_whole_iff_transport packet :
  bytes_ok packet -> Z.shiftr (byte_at packet 0) 4 = 6 -> 40 <= lenZ packet ->
  classify_ipv6 packet = Done Whole <->
  exists protocol offset, ch_ip_stack_ipv6_transport packet = Done (Some (protocol, offset)).
Proof.
  intros Hok Hv Hlen. unfold classify_ipv6, ch_ip_stack_ipv6_transport.
  replace (lenZ packet <? 40) with false by lia. rewrite (rd_Done packet 0) by lia.
  cbn [mbind outcome_bind]. rewrite Hv. cbn [Z.eqb Pos.eqb negb].
  destruct (read_u16_Done packet 4 Hok ltac:(lia) ltac:(lia)) as [-> _]. cbn [mbind outcome_bind].
  case_if; [split; [discriminate|intros (? & ? & ?); discriminate]|].
  rewrite (rd_Done packet 6) by lia. cbn [mbind outcome_bind].
  pose proof (walks_agree 16 packet (byte_at packet 6) 40 6) as Hw.
  destruct (input_extension_loop 16 packet (byte_at packet 6) 40 6) as [[[nh c] nho]|e|];
    cbn [mbind outcome_bind]; rewrite Hw; [|split; [discriminate|intros (? & ? & ?); discriminate]..].
  destruct (nh =? 44); cbn [negb]; [|split; eauto].
  split; [|intros (? & ? & ?); discriminate]. case_if; [discriminate|]. intros H.
  repeat (apply bind_Done_inv in H as (? & ? & H); try case_if_in H; try discriminate).
Qed.


(** The fragments of the next property: 8 bytes at offset 800, the final
    fragment (4 bytes at offset 16), then the first 8 bytes. *)
Definition hole_header : bytes := [69;0;0;28;0;1;32;0;64;17;0;0;10;0;0;1;10;0;0;2].

Definition hole_fragments : list fragment :=
  [mk_fragment hole_header 0 800 [1;2;3;4;5;6;7;8] true;
   mk_fragment hole_header 0 16 [9;10;11;12] false;
   mk_fragment hole_header 0 0 [13;14;15;16;17;18;19;20] true].

Definition hole_env (j : Z) : fragment_env :=
  mk_env 1000 (replicate (Z.to_nat CH_IP_STACK_FRAGMENT_DATA_CAPACITY) j) true true true.

(** Completeness is decided by the number of bytes received, not by which
    bytes they are, and a fragment beyond the end announced by the final
    fragment is only rejected when it arrives after it.  A datagram with a
    hole, whose missing 8 bytes are compensated by 8 bytes beyond its end, is
    therefore emitted, with the hole filled by whatever [malloc] left in the
    payload buffer ([j] below). *)
Theorem fragment_hole_exposes_heap j :
  exists packet,
    store_all AF_INET [10;0;0;1] [10;0;0;2] 1 17 (mk_table [] 0)
      (map (fun f => (f, hole_env j)) hole_fragments)
    = (mk_table [] 0, [Done None; Done None; Done (Some packet)]) /\
    sub packet 20 20
    = [13;14;15;16;17;18;19;20] ++ replicate 8 j ++ [9;10;11;12].
Proof. eexists. split; [vm_compute; reflexivity|reflexivity]. Qed.

(** ** Witnesses *)

Definition w_cuts : list fragment :=
  [mk_fragment hole_header 0 0 [1;2;3;4;5;6;7;8] true; mk_fragment hole_header 0 8 [9;10;11] false].

Lemma junk_ok j : lenZ (env_junk (hole_env j)) = CH_IP_STACK_FRAGMENT_DATA_CAPACITY.
Proof. unfold hole_env. cbn [env_junk]. rewrite lenZ_replicate. reflexivity. Qed.

Lemma hole_header_ok : bytes_ok hole_header.
Proof. bytes_ok_tac. Qed.

Lemma fragment_reassembly_any_order_witness :
  exists first packet, first ∈ w_cuts /\ frag_offset first = 0 /\
    reassembled AF_INET 17 first [1;2;3;4;5;6;7;8;9;10;11] packet /\
    store_all AF_INET [10;0;0;1] [10;0;0;2] 1 17 (mk_table [] 0)
      (map (fun f => (f, hole_env 0)) (rev w_cuts))
    = (mk_table [] 0, [Done None; Done (Some packet)]).
Proof.
  refine (fragment_reassembly_any_order (mk_table [] 0) AF_INET [10;0;0;1] [10;0;0;2] 1 17
            [1;2;3;4;5;6;7;8;9;10;11] w_cuts (map (fun f => (f, hole_env 0)) (rev w_cuts))
            _ _ _ _ _ _ _ _ _ _).
  - split; [constructor|]. split; [reflexivity|]. unfold CH_IP_STACK_FRAGMENT_FLOW_LIMIT. cbn. lia.
  - reflexivity.
  - reflexivity.
  - reflexivity.
  - reflexivity.
  - bytes_ok_tac.
  - cbv -[Z.le]. split_and!; try reflexivity; lia.
  - apply Permutation_swap.
  - repeat constructor; try (cbv; discriminate); exact hole_header_ok.
  - repeat constructor; apply junk_ok.
Defined.

(** A table with one flow that has received bytes 0-7. *)
Definition w_table : fragment_table :=
  (store_all AF_INET [10;0;0;1] [10;0;0;2] 1 17 (mk_table [] 0)
     [(mk_fragment hole_header 0 0 [1;2;3;4;5;6;7;8] true, hole_env 0)]).1.


Lemma w_table_wf : table_wf w_table.
Proof.
  unfold w_table. cbn [store_all].
  destruct (store_wf (mk_table [] 0) AF_INET [10;0;0;1] [10;0;0;2] 1 17
              (mk_fragment hole_header 0 0 [1;2;3;4;5;6;7;8] true) (hole_env 0)) as [H _].
  - apply frag_reach_wf. constructor.
  - apply junk_ok.
  - split; [cbn; lia|]. split; [exact hole_header_ok|]. split; cbv; discriminate.
  - destruct (ch_ip_stack_fragment_store _ _ _ _ _ _ _ _). exact H.
Qed.

Lemma w_table_finds :
  match ch_ip_stack_fragment_find w_table AF_INET [10;0;0;1] [10;0;0;2] 1 17 with
  | Some (_, flow) => cov (f_coverage flow) 7
  | None => false
  end = true.
Proof. vm_compute. reflexivity. Qed.

Lemma prepare_input_memory_safe_witness :
  no_fault (ch_ip_stack_prepare_input_packet (mk_table [] 0) hole_header (hole_env 0)).2 /\
  table_ok (ch_ip_stack_prepare_input_packet (mk_table [] 0) hole_header (hole_env 0)).1.
Proof.
  apply (prepare_input_memory_safe (mk_table [] 0) hole_header (hole_env 0));
    [constructor|apply junk_ok|exact hole_header_ok|cbv; discriminate].
Defined.

(** An IPv6 datagram: one hop-by-hop extension header, then UDP. *)
Definition w_ipv6 : bytes :=
  [96;0;0;0;0;16;0;64] ++ replicate 32 0 ++ [17;0;0;0;0;0;0;0] ++ [0;53;0;53;0;8;0;0].


End Fragment.
