(* ===== verification/Inet.v ===== *)
(** * The address conversions of the platform

    [inet_pton] and [inet_ntop] belong to the C library of the platform.  Their
    documented behaviour is the class [Inet]; the components that parse or
    print addresses are written against it.  [plain_inet] is an instance:
    dotted decimal addresses, and IPv6 addresses written as eight groups of
    four hexadecimal digits. *)

From S2P Require Import Prelude CLib.

Definition ip_text_char (c : Z) : Prop :=
  48 <= c <= 57 \/ 97 <= c <= 102 \/ c = 46 \/ c = 58.

Class Inet : Type := {
  pton4 : bytes -> option bytes;
  pton6 : bytes -> option bytes;
  ntop4 : bytes -> bytes;
  ntop6 : bytes -> bytes;
  pton4_address : forall s a, pton4 s = Some a -> lenZ a = 4 /\ bytes_ok a;
  pton6_address : forall s a, pton6 s = Some a -> lenZ a = 16 /\ bytes_ok a;
  pton4_ntop4 : forall a, lenZ a = 4 -> bytes_ok a -> pton4 (ntop4 a) = Some a;
  pton6_ntop6 : forall a, lenZ a = 16 -> bytes_ok a -> pton6 (ntop6 a) = Some a;
  pton4_ntop6 : forall a, lenZ a = 16 -> bytes_ok a -> pton4 (ntop6 a) = None;
  ntop4_text : forall a, lenZ a = 4 -> bytes_ok a ->
    1 <= lenZ (ntop4 a) <= 15 /\ Forall ip_text_char (ntop4 a) /\ 58 ∉ ntop4 a;
  ntop6_text : forall a, lenZ a = 16 -> bytes_ok a ->
    2 <= lenZ (ntop6 a) <= 45 /\ Forall ip_text_char (ntop6 a);
  ntop6_colon : forall a, lenZ a = 16 -> bytes_ok a -> 58 ∈ ntop6 a
}.

(** ** Consequences the components use *)

Lemma ip_text_cstr s : Forall ip_text_char s -> cstr_ok s.
Proof. apply List.Forall_impl. unfold ip_text_char, cchar_ok. lia. Qed.

Lemma ip_text_avoids s c : Forall ip_text_char s -> ~ ip_text_char c -> c ∉ s.
Proof. intros H Hc Hin. rewrite Forall_forall in H. apply Hc, H, list_elem_of_In, Hin. Qed.

(** ** An instance *)

Module PlainInet.

(** One decimal octet: up to three digits, no leading zero, at most 255. *)
Definition parse_octet (s : bytes) : option Z :=
  if forallb isdigit s && (1 <=? lenZ s) && (lenZ s <=? 3)
     && ((lenZ s =? 1) || negb (byte_at s 0 =? 48)) && (fst (scan_digits 0 s) <=? 255)
  then Some (fst (scan_digits 0 s)) else None.

Fixpoint parse_dotted (n : nat) (s : bytes) : option bytes :=
  match n with
  | O => b ← parse_octet s; Some [b]
  | S n' =>
      '(a, rest) ← split_first 46 s;
      b ← parse_octet a;
      r ← parse_dotted n' rest;
      Some (b :: r)
  end.

Definition plain_pton4 (s : bytes) : option bytes := parse_dotted 3 s.

Fixpoint dotted (a : bytes) : bytes :=
  match a with
  | [] => []
  | [b] => dec b
  | b :: a' => dec b ++ 46 :: dotted a'
  end.

Definition hex_value (c : Z) : option Z :=
  if isdigit c then Some (c - 48)
  else if (97 <=? c) && (c <=? 102) then Some (c - 87) else None.

Definition hex_byte (h l : Z) : option Z := x ← hex_value h; y ← hex_value l; Some (x * 16 + y).

Fixpoint hex_groups (n : nat) (s : bytes) : option bytes :=
  match s with
  | a :: b :: c :: d :: rest =>
      x ← hex_byte a b; y ← hex_byte c d;
      match n, rest with
      | O, [] => Some [x; y]
      | S n', sep :: rest' =>
          if sep =? 58 then r ← hex_groups n' rest'; Some (x :: y :: r) else None
      | _, _ => None
      end
  | _ => None
  end.

Definition plain_pton6 (s : bytes) : option bytes := hex_groups 7 s.

Definition hex2 (b : Z) : bytes := [hex_digit (b / 16); hex_digit (b mod 16)].

Fixpoint grouped (a : bytes) : bytes :=
  match a with
  | x :: y :: a' =>
      hex2 x ++ hex2 y ++ match a' with [] => [] | _ => 58 :: grouped a' end
  | _ => []
  end.

(** *** All 256 bytes *)

Lemma byte_cases (P : Z -> Prop) :
  (forall n, (n < 256)%nat -> P (Z.of_nat n)) -> forall b, byte_ok b -> P b.
Proof.
  intros H b Hb. unfold byte_ok in Hb. rewrite <- (Z2Nat.id b) by lia. apply H. lia.
Qed.

Lemma all_bytes (f : Z -> bool) :
  forallb (fun n => f (Z.of_nat n)) (seq 0 256) = true -> forall b, byte_ok b -> f b = true.
Proof.
  intros H. apply byte_cases. intros n Hn. rewrite forallb_forall in H. apply H.
  apply in_seq. lia.
Qed.

Definition text_charb (c : Z) : bool :=
  ((48 <=? c) && (c <=? 57)) || ((97 <=? c) && (c <=? 102)).

Definition octet_ok (b : Z) : bool :=
  bool_decide (parse_octet (dec b) = Some b) && forallb isdigit (dec b)
  && (1 <=? lenZ (dec b)) && (lenZ (dec b) <=? 3).

Lemma octet_facts b :
  byte_ok b -> parse_octet (dec b) = Some b /\ Forall (fun c => isdigit c = true) (dec b) /\
               1 <= lenZ (dec b) <= 3.
Proof.
  intros Hb. pose proof (all_bytes octet_ok ltac:(vm_compute; reflexivity) b Hb) as H.
  unfold octet_ok in H. rewrite !andb_true_iff, bool_decide_eq_true, forallb_forall in H.
  destruct H as [[[H1 H2] H3] H4]. split; [assumption|]. split; [|lia].
  apply Forall_forall. exact H2.
Qed.

Definition hex_ok (b : Z) : bool :=
  bool_decide (hex_byte (hex_digit (b / 16)) (hex_digit (b mod 16)) = Some b)
  && text_charb (hex_digit (b / 16)) && text_charb (hex_digit (b mod 16)).

Lemma hex_facts b :
  byte_ok b -> hex_byte (hex_digit (b / 16)) (hex_digit (b mod 16)) = Some b /\
  (ip_text_char (hex_digit (b / 16)) /\ hex_digit (b / 16) <> 46) /\
  (ip_text_char (hex_digit (b mod 16)) /\ hex_digit (b mod 16) <> 46).
Proof.
  intros Hb. pose proof (all_bytes hex_ok ltac:(vm_compute; reflexivity) b Hb) as H.
  unfold hex_ok, text_charb in H. rewrite !andb_true_iff, bool_decide_eq_true in H.
  destruct H as [[H1 H2] H3]. unfold ip_text_char. split_and!; (assumption || lia).
Qed.

(** *** Four octets *)

Lemma four (a : bytes) : lenZ a = 4 -> exists w x y z, a = [w; x; y; z].
Proof.
  unfold lenZ. intros H. destruct a as [|w [|x [|y [|z [|]]]]]; cbn [length] in H; try lia. eauto.
Qed.

Lemma parse_dotted_spec n s a :
  parse_dotted n s = Some a -> lenZ a = Z.of_nat (S n) /\ bytes_ok a.
Proof.
  assert (Ho : forall s b, parse_octet s = Some b -> byte_ok b).
  { intros t b. unfold parse_octet. case_if; [|discriminate]. intros [= <-].
    assert (Hd : forall t acc, 0 <= acc -> forallb isdigit t = true -> 0 <= fst (scan_digits acc t)).
    { induction t0 as [|c t0 IH]; intros acc Hacc; cbn [scan_digits forallb]; [cbn; lia|].
      rewrite andb_true_iff. intros [Hc Ht]. rewrite Hc. apply IH; [|assumption].
      unfold isdigit in Hc. lia. }
    rewrite !andb_true_iff in Heqb0. destruct Heqb0 as [[[[H1 _] _] _] H5].
    pose proof (Hd t 0 ltac:(lia) H1). unfold byte_ok. lia. }
  revert s a. induction n as [|n IH]; intros s a; cbn [parse_dotted].
  - destruct (parse_octet s) as [b|] eqn:E; cbn; [|discriminate]. intros [= <-].
    split; [reflexivity|]. constructor; [eauto|constructor].
  - destruct (split_first 46 s) as [[x r]|]; cbn; [|discriminate].
    destruct (parse_octet x) as [b|] eqn:E; cbn; [|discriminate].
    destruct (parse_dotted n r) as [q|] eqn:Eq; cbn; [|discriminate]. intros [= <-].
    destruct (IH _ _ Eq) as [Hl Hok]. rewrite lenZ_cons, Hl. split; [lia|]. constructor; eauto.
Qed.

Lemma dec_no_dot b : byte_ok b -> 46 ∉ dec b.
Proof.
  intros Hb Hin. destruct (octet_facts b Hb) as (_ & Hd & _). rewrite Forall_forall in Hd.
  apply list_elem_of_In, Hd in Hin. discriminate.
Qed.

Lemma dotted_round_trip a :
  a <> [] -> bytes_ok a -> parse_dotted (length a - 1) (dotted a) = Some a.
Proof.
  induction a as [|b a IH]; intros Hne Hok; [contradiction|]. inversion_clear Hok as [|? ? Hb Ha].
  destruct (octet_facts b Hb) as (Hp & _). destruct a as [|c a].
  - cbn. rewrite Hp. reflexivity.
  - change (dotted (b :: c :: a)) with (dec b ++ 46 :: dotted (c :: a)).
    cbn [length Nat.sub]. change (parse_dotted (S (length a)) ?s) with
      ('(x, rest) ← split_first 46 s; y ← parse_octet x; r ← parse_dotted (length a) rest; Some (y :: r)).
    rewrite split_first_app by (apply dec_no_dot; assumption). cbn [mbind option_bind]. rewrite Hp.
    cbn [mbind option_bind]. cbn [length Nat.sub] in IH. rewrite Nat.sub_0_r in IH.
    rewrite IH by (discriminate || assumption). reflexivity.
Qed.

Lemma digits_text s : Forall (fun c => isdigit c = true) s -> Forall ip_text_char s /\ 58 ∉ s.
Proof.
  intros H. split.
  - revert H. apply List.Forall_impl. unfold isdigit, ip_text_char. lia.
  - intros Hin. rewrite Forall_forall in H. apply list_elem_of_In, H in Hin. discriminate.
Qed.

Lemma dotted_text a :
  bytes_ok a -> Forall ip_text_char (dotted a) /\ (58 ∉ dotted a) /\ lenZ (dotted a) <= 4 * lenZ a /\
                lenZ a <= lenZ (dotted a).
Proof.
  induction a as [|b a IH]; intros Hok.
  { split; [constructor|]. split; [apply not_elem_of_nil|]. unfold lenZ. simpl. lia. }
  inversion_clear Hok as [|? ? Hb Ha]. destruct (octet_facts b Hb) as (_ & Hd & Hl).
  apply digits_text in Hd as [Hd1 Hd2]. destruct (IH Ha) as (H1 & H2 & H3 & H4). destruct a as [|c a].
  - cbn [dotted]. split_and!; auto; rewrite lenZ_cons, lenZ_nil; lia.
  - change (dotted (b :: c :: a)) with (dec b ++ 46 :: dotted (c :: a)).
    rewrite lenZ_app, (lenZ_cons 46), (lenZ_cons b). split_and!; try lia.
    + apply Forall_app. split; [assumption|]. constructor; [unfold ip_text_char; lia|assumption].
    + rewrite not_elem_of_app, not_elem_of_cons. split_and!; (assumption || discriminate).
Qed.

(** *** Eight groups *)

Lemma hex_groups_spec n s a :
  hex_groups n s = Some a -> lenZ a = 2 * Z.of_nat (S n) /\ bytes_ok a.
Proof.
  assert (Hb : forall h l b, hex_byte h l = Some b -> byte_ok b).
  { intros h l b. unfold hex_byte, hex_value, isdigit, byte_ok.
    repeat case_if; cbn; try discriminate; intros [= <-]; lia. }
  revert s a. induction n as [|n IH]; intros s r;
    destruct s as [|a [|b [|c [|d s]]]]; cbn [hex_groups]; try discriminate;
    destruct (hex_byte a b) as [x|] eqn:E1; cbn [mbind option_bind]; try discriminate;
    destruct (hex_byte c d) as [y|] eqn:E2; cbn [mbind option_bind]; try discriminate;
    destruct s as [|sep s]; try discriminate.
  - intros [= <-]. split; [reflexivity|]. repeat constructor; eapply Hb; eassumption.
  - case_if; [|discriminate]. destruct (hex_groups n s) as [q|] eqn:Eq; cbn; [|discriminate].
    intros [= <-]. destruct (IH _ _ Eq) as [Hl Hok]. rewrite !lenZ_cons, Hl.
    split; [lia|]. constructor; [eapply Hb; eassumption|]. constructor; [eapply Hb; eassumption|assumption].
Qed.

Lemma grouped_round_trip n a :
  length a = (2 * S n)%nat -> bytes_ok a ->
  hex_groups n (grouped a) = Some a /\ Forall (fun c => ip_text_char c /\ c <> 46) (grouped a) /\
  lenZ (grouped a) = 5 * Z.of_nat n + 4.
Proof.
  revert a. induction n as [|n IH]; intros a Hlen Hok;
    destruct a as [|x [|y a]]; try discriminate; inversion_clear Hok as [|? ? Hx Hok'];
    inversion_clear Hok' as [|? ? Hy Ha]; destruct (hex_facts x Hx) as (Ex & Hx1 & Hx2);
    destruct (hex_facts y Hy) as (Ey & Hy1 & Hy2).
  - destruct a as [|]; [|discriminate]. cbn [grouped hex2 app hex_groups]. rewrite Ex, Ey.
    split; [reflexivity|]. split; [repeat first [apply Forall_nil_2|apply Forall_cons_2; [assumption|]]|reflexivity].
  - cbn [length] in Hlen. destruct a as [|z a]; cbn [length] in Hlen; [lia|].
    destruct (IH (z :: a)) as (H1 & H2 & H3); [cbn [length]; lia|assumption|].
    change (grouped (x :: y :: z :: a)) with (hex2 x ++ hex2 y ++ 58 :: grouped (z :: a)).
    cbn [hex2 app hex_groups]. rewrite Ex, Ey. cbn [mbind option_bind Z.eqb Pos.eqb]. rewrite H1.
    split; [reflexivity|]. split; [|rewrite !lenZ_cons, H3; lia].
    repeat (apply Forall_cons_2; [assumption || (unfold ip_text_char; lia)|]). assumption.
Qed.

Lemma len16 (a : bytes) : lenZ a = 16 -> length a = 16%nat.
Proof. unfold lenZ. lia. Qed.

#[export, refine] Instance plain_inet : Inet := {|
  pton4 := plain_pton4;
  pton6 := plain_pton6;
  ntop4 := dotted;
  ntop6 := grouped
|}.
Proof.
  - intros s a H. apply (parse_dotted_spec 3 s a H).
  - intros s a H. apply (hex_groups_spec 7 s a H).
  - intros a Hl Hok. destruct (four a Hl) as (w & x & y & z & ->).
    apply (dotted_round_trip [w; x; y; z]); [discriminate|assumption].
  - intros a Hl Hok. apply (grouped_round_trip 7 a (len16 a Hl) Hok).
  - intros a Hl Hok. destruct (grouped_round_trip 7 a (len16 a Hl) Hok) as (_ & Ht & _).
    unfold plain_pton4. cbn [parse_dotted].
    destruct (split_first 46 (grouped a)) as [[p r]|] eqn:E; [|reflexivity].
    apply split_first_Some in E as [E _]. rewrite E in Ht. apply Forall_app in Ht as [_ Ht].
    inversion_clear Ht as [|? ? [_ Hc] _]. contradiction.
  - intros a Hl Hok. destruct (dotted_text a Hok) as (H1 & H2 & H3 & H4). split_and!; auto; [lia|].
    destruct (four a Hl) as (w & x & y & z & ->). inversion_clear Hok as [|? ? Hw Hok1].
    inversion_clear Hok1 as [|? ? Hx Hok2]. inversion_clear Hok2 as [|? ? Hy Hok3].
    inversion_clear Hok3 as [|? ? Hz _].
    destruct (octet_facts w Hw) as (_ & _ & Lw), (octet_facts x Hx) as (_ & _ & Lx),
      (octet_facts y Hy) as (_ & _ & Ly), (octet_facts z Hz) as (_ & _ & Lz).
    cbn [dotted]. autorewrite with bytes. lia.
  - intros a Hl Hok. destruct (grouped_round_trip 7 a (len16 a Hl) Hok) as (_ & Ht & Hlen).
    split; [lia|]. revert Ht. apply List.Forall_impl. tauto.
  - intros a Hl _. destruct a as [|x [|y [|z a]]]; try discriminate. change (grouped (x :: y :: z :: a)) with (hex2 x ++ hex2 y ++ 58 :: grouped (z :: a)).
    apply elem_of_app. right. apply elem_of_app. right. apply elem_of_cons. left. reflexivity.
Defined.

End PlainInet.
