(* ===== verification/Socks.v ===== *)
(** * SOCKS addresses: [native/src/socks.c]

    [ch_socks_encode_address] turns a "host:port" text into the SOCKS5 address
    format (address type, address, big-endian port), and
    [ch_socks_decode_address] reads one from the front of a buffer. *)

From S2P Require Import Prelude CLib Inet.

Module Socks.

Definition CH_SOCKS_ATYP_IPV4 : Z := 1.
Definition CH_SOCKS_ATYP_DOMAIN : Z := 3.
Definition CH_SOCKS_ATYP_IPV6 : Z := 4.

Definition split_failed {A} : result A := fail CH_ERROR_PARSE (str "socks: split host/port failed").

(** The host and port texts: "[host]:port", or "host:port" without another colon. *)
Definition split_texts (address : bytes) : result (bytes * bytes) :=
  match address with
  | 91 :: address' =>
      match split_first 93 address' with
      | Some (host, 58 :: port) => if beq port [] then split_failed else Done (host, port)
      | _ => split_failed
      end
  | _ =>
      match split_last 58 address with
      | Some (host, port) =>
          if beq host [] || beq port [] || bool_decide (58 ∈ host) then split_failed
          else Done (host, port)
      | None => split_failed
      end
  end.

Definition ch_socks_split_address (address : bytes) : result (bytes * Z) :=
  '(host, port_start) ← split_texts address;
  let parsed := strtol port_start in
  if scan_range parsed || negb (scan_any parsed) || negb (beq (scan_rest parsed) [])
     || (scan_value parsed <? 0) || (scan_value parsed >? 65535)
  then fail CH_ERROR_PARSE (str "socks: invalid port")
  else if (lenZ host =? 0) || (lenZ host >? 255)
  then fail CH_ERROR_PARSE (str "socks: domain length out of range")
  else Done (host, scan_value parsed).

Section Resolver.
Context `{Inet}.

Definition ch_socks_encode_address (address : bytes) : result bytes :=
  '(host, port) ← ch_socks_split_address address;
  let suffix := [u8 (Z.shiftr port 8); u8 (Z.land port 255)] in
  match pton4 host with
  | Some raw => Done ([CH_SOCKS_ATYP_IPV4] ++ raw ++ suffix)
  | None =>
      match pton6 host with
      | Some raw => Done ([CH_SOCKS_ATYP_IPV6] ++ raw ++ suffix)
      | None => Done ([CH_SOCKS_ATYP_DOMAIN; u8 (lenZ host)] ++ host ++ suffix)
      end
  end.

(** The common end of [decode]: the port at [offset]. *)
Definition decode_port (encoded host : bytes) (offset : Z) : result (bytes * Z * Z) :=
  hi ← rd encoded offset;
  lo ← rd encoded (offset + 1);
  Done (host, u16 (Z.lor (u16 (Z.shiftl hi 8)) lo), offset + 2).

(** Host, port and number of bytes consumed. *)
Definition ch_socks_decode_address (encoded : bytes) : result (bytes * Z * Z) :=
  let encoded_length := lenZ encoded in
  let short what := fail CH_ERROR_PARSE (str "socks: read " ++ what ++ str ": unexpected end of input") in
  if encoded_length <? 1 then short (str "atyp")
  else
    atyp ← rd encoded 0;
    if atyp =? CH_SOCKS_ATYP_IPV4 then
      if encoded_length <? 1 + 4 + 2 then short (str "ipv4")
      else raw ← rds encoded 1 4; decode_port encoded (ntop4 raw) 5
    else if atyp =? CH_SOCKS_ATYP_IPV6 then
      if encoded_length <? 1 + 16 + 2 then short (str "ipv6")
      else raw ← rds encoded 1 16; decode_port encoded (ntop6 raw) 17
    else if atyp =? CH_SOCKS_ATYP_DOMAIN then
      if encoded_length <? 1 + 1 then short (str "domain len")
      else
        domain_length ← rd encoded 1;
        if domain_length =? 0 then fail CH_ERROR_PARSE (str "socks: empty domain")
        else if encoded_length <? 2 + domain_length + 2 then short (str "domain")
        else
          host ← rds encoded 2 domain_length;
          decode_port encoded host (2 + domain_length)
    else
      fail CH_ERROR_PARSE (str "socks: unsupported atyp 0x"
                           ++ [hex_digit (atyp / 16); hex_digit (atyp mod 16)]).

(** ** Facts *)

Lemma port_bytes port :
  0 <= port <= 65535 ->
  u16 (Z.lor (u16 (Z.shiftl (u8 (Z.shiftr port 8)) 8)) (u8 (Z.land port 255))) = port.
Proof.
  intros Hp. change 255 with (Z.ones 8). rewrite Z.land_ones by lia.
  unfold u8. rewrite Z.mod_mod by lia. rewrite Z.shiftr_div_pow2 by lia.
  assert (Hq : 0 <= port / 2 ^ 8 < 256) by (split; [apply Z.div_pos|apply Z.div_lt_upper_bound]; lia).
  rewrite (Z.mod_small (port / 2 ^ 8)) by lia. rewrite Z.shiftl_mul_pow2 by lia.
  unfold u16 at 2. rewrite Z.mod_small by lia.
  rewrite <- Z.shiftl_mul_pow2, lor_shift8 by (try apply Z.mod_pos_bound; lia).
  replace (port / 2 ^ 8 * 256 + port mod 2 ^ 8) with port by (pose proof (Z.div_mod port (2 ^ 8)); lia).
  apply Z.mod_small. lia.
Qed.

Lemma split_address_bounds address host port :
  ch_socks_split_address address = Done (host, port) ->
  1 <= lenZ host <= 255 /\ 0 <= port <= 65535.
Proof.
  unfold ch_socks_split_address. intros E. apply bind_Done_inv in E as ([h p] & _ & E).
  repeat case_if_in E; try discriminate. injection E as <- <-. pose proof (lenZ_nonneg h). lia.
Qed.

(** The port is read right after the address. *)
Lemma decode_port_at (a host rest : bytes) (port i : Z) :
  i = lenZ a -> 0 <= port <= 65535 ->
  decode_port (a ++ [u8 (Z.shiftr port 8); u8 (Z.land port 255)] ++ rest) host i
  = Done (host, port, i + 2).
Proof.
  intros Hi Hp. unfold decode_port. cbn [app]. rewrite (rd_mid a _ _ i) by assumption. cbn [mbind outcome_bind].
  rewrite (cons_middle (u8 (Z.shiftr port 8))), app_assoc, rd_mid
    by (rewrite lenZ_app, lenZ_cons, lenZ_nil; lia).
  cbn [mbind outcome_bind]. rewrite port_bytes by assumption. reflexivity.
Qed.

(** What the receiver sees of a host text. *)
Definition canonical (host : bytes) : bytes :=
  match pton4 host with
  | Some raw => ntop4 raw
  | None => match pton6 host with Some raw => ntop6 raw | None => host end
  end.

Lemma encode_decode address host port enc rest :
  ch_socks_split_address address = Done (host, port) ->
  ch_socks_encode_address address = Done enc ->
  ch_socks_decode_address (enc ++ rest) = Done (canonical host, port, lenZ enc).
Proof.
  intros Hs He. destruct (split_address_bounds _ _ _ Hs) as [Hh Hp].
  unfold ch_socks_encode_address in He. rewrite Hs in He. cbn [mbind outcome_bind] in He.
  pose proof (lenZ_nonneg rest). unfold canonical, ch_socks_decode_address.
  set (suffix := [u8 (Z.shiftr port 8); u8 (Z.land port 255)]) in *.
  assert (Hsuf : lenZ suffix = 2) by reflexivity.
  destruct (pton4 host) as [raw|] eqn:E4; [|destruct (pton6 host) as [raw|] eqn:E6].
  - apply pton4_address in E4 as [Hl _].
    assert (enc = [CH_SOCKS_ATYP_IPV4] ++ raw ++ suffix) as -> by congruence. rewrite <- !app_assoc.
    rewrite !lenZ_app, Hl, Hsuf. change (lenZ [CH_SOCKS_ATYP_IPV4]) with 1.
    repeat (replace (_ <? _) with false by lia).
    change (rd ([CH_SOCKS_ATYP_IPV4] ++ ?t) 0) with (@Done ch_error Z 1). cbn [mbind outcome_bind Z.eqb Pos.eqb CH_SOCKS_ATYP_IPV4].
    rewrite (rds_mid [1] raw) by (rewrite ?Hl; reflexivity). cbn [mbind outcome_bind].
    rewrite app_assoc. apply decode_port_at; [rewrite lenZ_app, Hl; reflexivity|assumption].
  - apply pton6_address in E6 as [Hl _].
    assert (enc = [CH_SOCKS_ATYP_IPV6] ++ raw ++ suffix) as -> by congruence. rewrite <- !app_assoc.
    rewrite !lenZ_app, Hl, Hsuf. change (lenZ [CH_SOCKS_ATYP_IPV6]) with 1.
    repeat (replace (_ <? _) with false by lia).
    change (rd ([CH_SOCKS_ATYP_IPV6] ++ ?t) 0) with (@Done ch_error Z 4).
    cbn [mbind outcome_bind Z.eqb Pos.eqb CH_SOCKS_ATYP_IPV4 CH_SOCKS_ATYP_IPV6].
    rewrite (rds_mid [4] raw) by (rewrite ?Hl; reflexivity). cbn [mbind outcome_bind].
    rewrite app_assoc. apply decode_port_at; [rewrite lenZ_app, Hl; reflexivity|assumption].
  - assert (Hu : u8 (lenZ host) = lenZ host) by (apply Z.mod_small; lia). rewrite Hu in He.
    assert (enc = [CH_SOCKS_ATYP_DOMAIN; lenZ host] ++ host ++ suffix) as -> by congruence. rewrite <- !app_assoc. rewrite !lenZ_app, Hsuf.
    change (lenZ [CH_SOCKS_ATYP_DOMAIN; lenZ host]) with 2.
    repeat (replace (_ <? _) with false by lia).
    change (rd ([CH_SOCKS_ATYP_DOMAIN; ?n] ++ ?t) 0) with (@Done ch_error Z 3).
    change (rd ([CH_SOCKS_ATYP_DOMAIN; ?n] ++ ?t) 1) with (@Done ch_error Z n).
    cbn [mbind outcome_bind Z.eqb Pos.eqb CH_SOCKS_ATYP_IPV4 CH_SOCKS_ATYP_IPV6 CH_SOCKS_ATYP_DOMAIN].
    replace (lenZ host =? 0) with false by lia.
    repeat (replace (_ <? _) with false by lia).
    rewrite (rds_mid [3; lenZ host] host) by reflexivity. cbn [mbind outcome_bind].
    rewrite app_assoc. unfold suffix. rewrite decode_port_at by (rewrite ?lenZ_app; (reflexivity || lia)).
    do 2 f_equal. lia.
Qed.

Lemma dec_port_text port :
  0 <= port <= 65535 ->
  strtol (dec port) = mk_scan port [] true false /\ dec port <> [] /\ (58 ∉ dec port).
Proof.
  intros Hp. pose proof (strtol_dec port [] ltac:(unfold INT64_MIN, INT64_MAX; lia) eq_refl) as H0.
  rewrite app_nil_r in H0. unfold dec. replace (port <? 0) with false by lia.
  destruct (dec_nonneg_spec port ltac:(lia)) as (Hd & _ & c & d & E & _).
  split; [unfold dec in H0; replace (port <? 0) with false in H0 by lia; exact H0|].
  split; [rewrite E; discriminate|]. intros Hin. unfold digits_ok in Hd. rewrite Forall_forall in Hd.
  apply list_elem_of_In, Hd in Hin. discriminate.
Qed.

Lemma split_address_port address host port :
  split_texts address = Done (host, dec port) -> 1 <= lenZ host <= 255 -> 0 <= port <= 65535 ->
  ch_socks_split_address address = Done (host, port).
Proof.
  intros Hs Hh Hp. destruct (dec_port_text port Hp) as (Hscan & _ & _).
  unfold ch_socks_split_address. rewrite Hs. cbn [mbind outcome_bind]. rewrite Hscan.
  cbn [scan_range scan_any scan_rest scan_value orb negb]. change (beq [] []) with true. cbn [negb orb].
  rewrite (proj2 (orb_false_iff _ _)) by lia. rewrite (proj2 (orb_false_iff _ _)) by lia. reflexivity.
Qed.

Lemma split_plain host port :
  1 <= lenZ host <= 255 -> 0 <= port <= 65535 -> 58 ∉ host -> hd 0 host <> 91 ->
  ch_socks_split_address (host ++ 58 :: dec port) = Done (host, port).
Proof.
  intros Hh Hp Hc Hb. destruct (dec_port_text port Hp) as (_ & Hne & Hcol).
  apply split_address_port; auto. destruct host as [|x host]; [rewrite lenZ_nil in Hh; lia|]. cbn [hd] in Hb.
  assert (Hm : split_texts ((x :: host) ++ 58 :: dec port)
               = match split_last 58 ((x :: host) ++ 58 :: dec port) with
                 | Some (host, port) =>
                     if beq host [] || beq port [] || bool_decide (58 ∈ host) then split_failed
                     else Done (host, port)
                 | None => split_failed
                 end).
  { unfold split_texts. cbn [app]. destruct x as [|p|p]; try reflexivity.
    repeat (destruct p as [p|p|]; try reflexivity). contradiction. }
  rewrite Hm, split_last_app by assumption.
  rewrite (proj2 (beq_false (dec port) [])) by assumption.
  rewrite bool_decide_eq_false_2 by assumption. reflexivity.
Qed.

Lemma split_bracketed host port :
  1 <= lenZ host <= 255 -> 0 <= port <= 65535 -> 93 ∉ host ->
  ch_socks_split_address (91 :: host ++ 93 :: 58 :: dec port) = Done (host, port).
Proof.
  intros Hh Hp Hc. destruct (dec_port_text port Hp) as (_ & Hne & _).
  apply split_address_port; auto. unfold split_texts. rewrite split_first_app by assumption.
  rewrite (proj2 (beq_false (dec port) [])) by assumption. reflexivity.
Qed.

Lemma bytes_port enc i :
  bytes_ok enc -> 0 <= i -> i + 2 <= lenZ enc ->
  exists port, 0 <= port <= 65535 /\ (forall host, decode_port enc host i = Done (host, port, i + 2)) /\
    sub enc i 2 = [u8 (Z.shiftr port 8); u8 (Z.land port 255)].
Proof.
  intros Hok Hi Hl. pose proof (byte_at_ok enc i Hok) as Hb0. pose proof (byte_at_ok enc (i + 1) Hok) as Hb1.
  unfold byte_ok in *. exists (byte_at enc i * 256 + byte_at enc (i + 1)).
  split; [lia|]. split.
  - intros host. unfold decode_port. io. unfold u16 at 2. rewrite Z.shiftl_mul_pow2 by lia.
    rewrite Z.mod_small by lia. rewrite <- Z.shiftl_mul_pow2, lor_shift8 by lia.
    unfold u16. rewrite Z.mod_small by lia. reflexivity.
  - apply bytes_eq; [rewrite lenZ_sub by lia; reflexivity|]. rewrite lenZ_sub by lia. intros j Hj.
    rewrite byte_at_sub by lia. change 255 with (Z.ones 8). rewrite Z.land_ones, Z.shiftr_div_pow2 by lia.
    set (b0 := byte_at enc i) in *. set (b1 := byte_at enc (i + 1)) in *. change (2 ^ 8) with 256.
    assert ((b0 * 256 + b1) / 256 = b0) as -> by (symmetry; apply Z.div_unique with b1; lia).
    assert ((b0 * 256 + b1) mod 256 = b1) as -> by (symmetry; apply Z.mod_unique with b0; lia).
    unfold u8. rewrite !Z.mod_small by lia.
    assert (j = 0 \/ j = 1) as [-> | ->] by lia; unfold b0, b1; rewrite ?Z.add_0_r; reflexivity.
Qed.

Lemma ip_head s : Forall ip_text_char s -> hd 0 s <> 91.
Proof. destruct 1 as [|c s Hc _]; cbn; [discriminate|]. unfold ip_text_char in Hc. lia. Qed.

Lemma sub_whole (enc : bytes) n k m :
  0 <= k -> 0 <= m -> n = 1 + k + m -> n <= lenZ enc -> 1 <= lenZ enc ->
  sub enc 0 n = [byte_at enc 0] ++ sub enc 1 k ++ sub enc (1 + k) m.
Proof.
  intros Hk Hm -> Hn H1. rewrite <- Z.add_assoc. rewrite (sub_split enc 0 1 (k + m)) by lia.
  rewrite (sub_split enc (0 + 1) k m) by lia. f_equal.
  apply bytes_eq; rewrite lenZ_sub by lia; [reflexivity|]. intros i Hi.
  rewrite byte_at_sub by lia. replace i with 0 by lia. reflexivity.
Qed.

(** *** Properties *)

(** SOCKS addresses survive the wire.  Whatever address text [encode]
    accepts, [decode] reads back from the front of a buffer, followed by any
    bytes, the same port and host (an IP literal in canonical form), and
    consumes exactly the encoded bytes. *)
Theorem socks_encode_decode address enc rest :
  ch_socks_encode_address address = Done enc ->
  exists host port, ch_socks_split_address address = Done (host, port) /\
    ch_socks_decode_address (enc ++ rest) = Done (canonical host, port, lenZ enc).
Proof.
  intros He. pose proof He as He'. unfold ch_socks_encode_address in He'.
  apply bind_Done_inv in He' as ([host port] & Hs & _). exists host, port.
  split; [assumption|]. apply (encode_decode address); assumption.
Qed.

(** [decode] is the exact inverse on IP addresses: formatting the decoded
    host and port (brackets around an IPv6 host) and encoding the text gives
    back the bytes that were consumed. *)
Theorem socks_decode_encode enc host port n :
  bytes_ok enc -> ch_socks_decode_address enc = Done (host, port, n) ->
  (byte_at enc 0 = CH_SOCKS_ATYP_IPV4 ->
   ch_socks_encode_address (host ++ 58 :: dec port) = Done (sub enc 0 n)) /\
  (byte_at enc 0 = CH_SOCKS_ATYP_IPV6 ->
   ch_socks_encode_address (91 :: host ++ 93 :: 58 :: dec port) = Done (sub enc 0 n)).
Proof.
  intros Hok Hd. unfold ch_socks_decode_address in Hd. case_if_in Hd; [discriminate|].
  rewrite (rd_Done enc 0) in Hd by lia. cbn [mbind outcome_bind] in Hd.
  split; intros Ht; rewrite Ht in Hd;
    cbn [CH_SOCKS_ATYP_IPV4 CH_SOCKS_ATYP_IPV6 Z.eqb Pos.eqb] in Hd;
    case_if_in Hd; try discriminate; rewrite rds_Done in Hd by lia; cbn [mbind outcome_bind] in Hd.
  - destruct (bytes_port enc 5 Hok) as (port' & Hp & Hdp & Hsuf); [lia..|].
    rewrite Hdp in Hd. injection Hd as <- <- <-. set (raw := sub enc 1 4) in *.
    assert (Hl : lenZ raw = 4) by (apply lenZ_sub; lia).
    assert (Hr : bytes_ok raw) by (apply bytes_ok_sub; assumption).
    destruct (ntop4_text raw Hl Hr) as (Hlen & Htext & Hcolon).
    unfold ch_socks_encode_address. rewrite split_plain by (auto using ip_head; lia).
    cbn [mbind outcome_bind]. rewrite pton4_ntop4 by assumption.
    rewrite (sub_whole enc _ 4 2), Ht by lia. rewrite <- Hsuf. reflexivity.
  - destruct (bytes_port enc 17 Hok) as (port' & Hp & Hdp & Hsuf); [lia..|].
    rewrite Hdp in Hd. injection Hd as <- <- <-. set (raw := sub enc 1 16) in *.
    assert (Hl : lenZ raw = 16) by (apply lenZ_sub; lia).
    assert (Hr : bytes_ok raw) by (apply bytes_ok_sub; assumption).
    destruct (ntop6_text raw Hl Hr) as (Hlen & Htext).
    unfold ch_socks_encode_address.
    rewrite split_bracketed by (try (apply (ip_text_avoids _ _ Htext); unfold ip_text_char); lia).
    cbn [mbind outcome_bind]. rewrite pton4_ntop6, pton6_ntop6 by assumption.
    rewrite (sub_whole enc _ 16 2), Ht by lia. rewrite <- Hsuf. reflexivity.
Qed.

(** [decode] is memory safe on every buffer, of any length and content: it
    either returns a parse error or a host of 1 to 255 bytes and a 16-bit port,
    having consumed no more than the buffer holds. *)
Theorem socks_decode_memory_safe enc :
  bytes_ok enc ->
  (exists text, ch_socks_decode_address enc = fail CH_ERROR_PARSE text) \/
  (exists host port n, ch_socks_decode_address enc = Done (host, port, n) /\
     1 <= lenZ host <= 255 /\ 0 <= port <= 65535 /\ 1 <= n <= lenZ enc).
Proof.
  intros Hok. unfold ch_socks_decode_address. case_if; [left; eauto|]. io_step.
  case_if; [|case_if; [|case_if; [|left; eauto]]].
  - case_if; [left; eauto|]. rewrite rds_Done by lia. cbn [mbind outcome_bind]. right.
    destruct (bytes_port enc 5 Hok) as (port & Hp & Hdp & _); [lia..|]. rewrite Hdp.
    pose proof (ntop4_text (sub enc 1 4) ltac:(apply lenZ_sub; lia) ltac:(auto with bytes)) as (? & _).
    do 3 eexists. split; [reflexivity|]. lia.
  - case_if; [left; eauto|]. rewrite rds_Done by lia. cbn [mbind outcome_bind]. right.
    destruct (bytes_port enc 17 Hok) as (port & Hp & Hdp & _); [lia..|]. rewrite Hdp.
    pose proof (ntop6_text (sub enc 1 16) ltac:(apply lenZ_sub; lia) ltac:(auto with bytes)) as (? & _).
    do 3 eexists. split; [reflexivity|]. lia.
  - case_if; [left; eauto|]. io_step. pose proof (byte_at_ok enc 1 Hok) as Hb. unfold byte_ok in Hb.
    case_if; [left; eauto|]. case_if; [left; eauto|]. rewrite rds_Done by lia. cbn [mbind outcome_bind].
    right. destruct (bytes_port enc (2 + byte_at enc 1) Hok) as (port & Hp & Hdp & _); [lia..|].
    rewrite Hdp. do 3 eexists. split; [reflexivity|]. rewrite lenZ_sub by lia. lia.
Qed.

End Resolver.

End Socks.
