(* ===== verification/Rules.v ===== *)
(** * The routing rule engine: [native/src/rules.c]

    Rules are compiled (matchers normalised, CIDRs parsed, actions resolved
    against the known chains and groups) and then consulted in order for each
    connection; the first rule that matches decides. *)

From S2P Require Import Prelude CLib IpDns Inet.

Module Rules.
Import Dns.

(** A [const char *] that may be NULL, and a [ch_string_list]. *)
Abbreviation cstring := (option bytes).
Abbreviation string_list := (list (option bytes)).

(** ** Normalised strings *)

Definition ch_trimmed_copy (value : cstring) : bytes := trim (default [] value).

Definition ch_trimmed_lower (value : cstring) (strip_dot : bool) : bytes :=
  let value := trim (default [] value) in
  let value := match value with
    | c :: value' => if strip_dot && (c =? 46) then value' else value
    | [] => value
    end in
  map tolower value.

Definition ch_owned_strings_contains (strings : list bytes) (value : bytes) : bool :=
  existsb (fun item => beq item value) strings.

Fixpoint owned_strings_loop (input : string_list) (strip_dot : bool) (output : list bytes)
    : list bytes :=
  match input with
  | [] => output
  | item :: input' =>
      let normalized := ch_trimmed_lower item strip_dot in
      if beq normalized [] || ch_owned_strings_contains output normalized
      then owned_strings_loop input' strip_dot output
      else owned_strings_loop input' strip_dot (output ++ [normalized])
  end.

Definition ch_owned_strings_compile (input : string_list) (strip_dot : bool) : list bytes :=
  owned_strings_loop input strip_dot [].

Definition ch_name_known (names : string_list) (name : bytes) : bool :=
  existsb (fun item => match item with Some s => beq s name | None => false end) names.

(** ** CIDR blocks *)

Record ch_cidr : Type := mk_cidr {
  cidr_family : address_family;
  cidr_address : bytes;
  prefix_length : Z;
  cidr_text : bytes
}.

Definition ch_cidr_contains (cidr : ch_cidr) (address : bytes) : bool :=
  let whole := prefix_length cidr / 8 in
  let remainder := prefix_length cidr mod 8 in
  if (whole >? 0) && negb (beq (sub (cidr_address cidr) 0 whole) (sub address 0 whole)) then false
  else if remainder =? 0 then true
  else
    let mask := u8 (Z.shiftl 255 (8 - remainder)) in
    Z.land (byte_at (cidr_address cidr) whole) mask =? Z.land (byte_at address whole) mask.

Definition INET6_ADDRSTRLEN : Z := 46.

(** The text without one pair of enclosing brackets. *)
Definition unbracket (host : bytes) : bytes :=
  let length := lenZ host in
  if (byte_at host 0 =? 91) && (length >? 1) && (byte_at host (length - 1) =? 93)
  then sub host 1 (length - 2) else host.

Section Resolver.
Context `{Inet}.

Definition parse_ip (host : bytes) : option (address_family * bytes) :=
  match pton4 host with
  | Some a => Some (AF_INET, a)
  | None => match pton6 host with Some a => Some (AF_INET6, a) | None => None end
  end.

(** One iteration of [ch_cidr_list_compile]. *)
Definition cidr_compile (item : cstring) : result ch_cidr :=
  let raw := default [] item in
  let invalid := fail CH_ERROR_PARSE (str "invalid CIDR " ++ raw) in
  let copy := ch_trimmed_lower (Some raw) false in
  match split_last 47 copy with
  | None => invalid
  | Some (address, prefix_text) =>
      if beq address [] || beq prefix_text [] then invalid
      else
        let prefix := strtol prefix_text in
        match parse_ip address with
        | None => invalid
        | Some (family, raw_address) =>
            let limit := match family with AF_INET => 32 | AF_INET6 => 128 end in
            if (scan_value prefix <? 0) || (scan_value prefix >? limit) || scan_range prefix
               || negb (scan_any prefix) || negb (beq (scan_rest prefix) [])
            then invalid
            else Done (mk_cidr family raw_address (scan_value prefix) copy)
        end
  end.

Fixpoint ch_cidr_list_compile (input : string_list) : result (list ch_cidr) :=
  match input with
  | [] => Done []
  | item :: input' =>
      cidr ← cidr_compile item;
      rest ← ch_cidr_list_compile input';
      Done (cidr :: rest)
  end.

(** The text of the first block that contains the host. *)
Definition ch_match_cidrs (cidrs : list ch_cidr) (raw_host : bytes) : option bytes :=
  if lenZ raw_host >=? INET6_ADDRSTRLEN + 2 then None
  else
    match parse_ip (unbracket raw_host) with
    | None => None
    | Some (family, address) =>
        match List.find (fun c => bool_decide (cidr_family c = family) && ch_cidr_contains c address)
                cidrs with
        | Some c => Some (cidr_text c)
        | None => None
        end
    end.

(** ** Compiled rules *)

Record ch_rule_set_spec : Type := mk_rule_set_spec {
  set_spec_name : cstring;
  set_spec_domains : string_list;
  set_spec_domain_suffixes : string_list;
  set_spec_domain_keywords : string_list;
  set_spec_cidrs : string_list
}.

Record ch_rule_spec : Type := mk_rule_spec {
  spec_name : cstring;
  spec_action : cstring;
  spec_rule_sets : string_list;
  spec_domains : string_list;
  spec_domain_suffixes : string_list;
  spec_domain_keywords : string_list;
  spec_cidrs : string_list;
  spec_source_cidrs : string_list;
  spec_ports : list Z;
  spec_networks : string_list;
  spec_processes : string_list
}.

Record ch_compiled_rule_set : Type := mk_compiled_set {
  set_name : bytes;
  set_domains : list bytes;
  set_suffixes : list bytes;
  set_keywords : list bytes;
  set_cidrs : list ch_cidr
}.

Record ch_compiled_rule : Type := mk_compiled_rule {
  rule_name : bytes;
  action : bytes;
  chain_name : cstring;
  group_name : cstring;
  domains : list bytes;
  suffixes : list bytes;
  keywords : list bytes;
  cidrs : list ch_cidr;
  source_cidrs : list ch_cidr;
  ports : list Z;
  networks : list bytes;
  processes : list bytes;
  rule_sets : list ch_compiled_rule_set
}.

Record ch_rule_engine : Type := mk_engine {
  default_chain : bytes;
  rules : list ch_compiled_rule;
  needs_process : bool
}.

Definition CH_RULE_ACTION_CHAIN : bytes := str "chain".
Definition CH_RULE_ACTION_GROUP : bytes := str "group".
Definition CH_RULE_ACTION_DIRECT : bytes := str "direct".
Definition CH_RULE_ACTION_BLOCK : bytes := str "block".
Definition CH_RULE_ACTION_REJECT : bytes := str "reject".

Definition ch_compile_rule_set (input : ch_rule_set_spec) : result ch_compiled_rule_set :=
  let set_domains := ch_owned_strings_compile (set_spec_domains input) false in
  let set_suffixes := ch_owned_strings_compile (set_spec_domain_suffixes input) true in
  let set_keywords := ch_owned_strings_compile (set_spec_domain_keywords input) false in
  set_cidrs ← ch_cidr_list_compile (set_spec_cidrs input);
  Done (mk_compiled_set (default [] (set_spec_name input))
          set_domains set_suffixes set_keywords set_cidrs).

(** The action, chain and group of the rule. *)
Definition ch_parse_action (raw : cstring) (known_chains known_groups : string_list)
    : result (bytes * cstring * cstring) :=
  let trimmed := ch_trimmed_copy raw in
  let normalized := ch_trimmed_lower raw false in
  let key := match split_first 58 normalized with Some (k, _) => k | None => normalized end in
  let target := match split_first 58 trimmed with Some (_, t) => Some (trim t) | None => None end in
  let unknown := fail CH_ERROR_PARSE (str "unknown action " ++ default [] raw) in
  if beq key CH_RULE_ACTION_DIRECT || beq key CH_RULE_ACTION_BLOCK || beq key CH_RULE_ACTION_REJECT
  then match target with Some _ => unknown | None => Done (key, None, None) end
  else
    match target with
    | None => unknown
    | Some name =>
        if beq name [] then unknown
        else if beq key CH_RULE_ACTION_CHAIN then
          if ch_name_known known_chains name then Done (CH_RULE_ACTION_CHAIN, Some name, None)
          else fail CH_ERROR_NOT_FOUND (str "chain " ++ name ++ str " not found")
        else if beq key CH_RULE_ACTION_GROUP then
          if ch_name_known known_groups name then Done (CH_RULE_ACTION_GROUP, None, Some name)
          else fail CH_ERROR_NOT_FOUND (str "policy group " ++ name ++ str " not found")
        else unknown
    end.

Definition ch_find_rule_set (sets : list ch_rule_set_spec) (name : bytes)
    : option ch_rule_set_spec :=
  List.find (fun s => match set_spec_name s with Some n => beq n name | None => false end) sets.

(** The loop of [ch_compile_rule] over the rule set references. *)
Fixpoint rule_sets_loop (input : string_list) (known : list ch_rule_set_spec)
    (output : list ch_compiled_rule_set) : result (list ch_compiled_rule_set) :=
  match input with
  | [] => Done output
  | item :: input' =>
      let name := ch_trimmed_copy item in
      if beq name [] || existsb (fun s => beq (set_name s) name) output
      then rule_sets_loop input' known output
      else
        match ch_find_rule_set known name with
        | None => fail CH_ERROR_NOT_FOUND (str "rule set " ++ name ++ str " not found")
        | Some set =>
            compiled ← ch_compile_rule_set set;
            rule_sets_loop input' known (output ++ [compiled])
        end
  end.

Definition nonempty {A} (l : list A) : bool := match l with [] => false | _ => true end.

Definition ch_compile_rule (input : ch_rule_spec) (known_chains known_groups : string_list)
    (known_rule_sets : list ch_rule_set_spec) : result ch_compiled_rule :=
  let trimmed_name := ch_trimmed_copy (spec_name input) in
  let name := if beq trimmed_name [] then str "unnamed" else trimmed_name in
  '(action, chain, group) ← ch_parse_action (spec_action input) known_chains known_groups;
  if nonempty (spec_rule_sets input)
     && (nonempty (spec_domains input) || nonempty (spec_domain_suffixes input)
         || nonempty (spec_domain_keywords input) || nonempty (spec_cidrs input))
  then fail CH_ERROR_INVALID_ARGUMENT (str "rule_sets cannot be combined with destination matchers")
  else
    let domains := ch_owned_strings_compile (spec_domains input) false in
    let suffixes := ch_owned_strings_compile (spec_domain_suffixes input) true in
    let keywords := ch_owned_strings_compile (spec_domain_keywords input) false in
    cidrs ← ch_cidr_list_compile (spec_cidrs input);
    source_cidrs ← ch_cidr_list_compile (spec_source_cidrs input);
    let networks := ch_owned_strings_compile (spec_networks input) false in
    let processes := ch_owned_strings_compile (spec_processes input) false in
    rule_sets ← rule_sets_loop (spec_rule_sets input) known_rule_sets [];
    Done (mk_compiled_rule name action chain group domains suffixes keywords cidrs source_cidrs
            (spec_ports input) networks processes rule_sets).

Fixpoint compile_rules (inputs : list ch_rule_spec) (known_chains known_groups : string_list)
    (known_rule_sets : list ch_rule_set_spec) : result (list ch_compiled_rule) :=
  match inputs with
  | [] => Done []
  | input :: inputs' =>
      rule ← ch_compile_rule input known_chains known_groups known_rule_sets;
      rest ← compile_rules inputs' known_chains known_groups known_rule_sets;
      Done (rule :: rest)
  end.

Definition ch_rule_engine_compile (inputs : list ch_rule_spec) (default_chain : cstring)
    (known_chains known_groups : string_list) (known_rule_sets : list ch_rule_set_spec)
    : result ch_rule_engine :=
  let normalized_default := ch_trimmed_copy default_chain in
  if beq normalized_default [] then
    fail CH_ERROR_INVALID_ARGUMENT (str "rules: default chain is required")
  else if negb (ch_name_known known_chains normalized_default) then
    fail CH_ERROR_NOT_FOUND (str "rules: default chain " ++ normalized_default ++ str " not found")
  else
    compiled ← compile_rules inputs known_chains known_groups known_rule_sets;
    Done (mk_engine normalized_default compiled (existsb (fun r => nonempty (processes r)) compiled)).

Definition ch_rule_engine_needs_process (engine : option ch_rule_engine) : bool :=
  match engine with Some e => needs_process e | None => false end.

(** ** Matching *)

Definition ch_normalize_host (host : bytes) : bytes :=
  let host := trim host in
  let host := if lenZ host >=? 2 then unbracket host else host in
  let length := lenZ host in
  let host := if (length >? 0) && (byte_at host (length - 1) =? 46)
              then sub host 0 (length - 1) else host in
  map tolower host.

(** Host and port of a target; the port is empty when there is none. *)
Definition ch_split_target (target : cstring) : bytes * bytes :=
  let host := trim (default [] target) in
  let separator :=
    if byte_at host 0 =? 91 then
      match split_last 93 host with
      | Some (inner, 58 :: port) => if beq port [] then None else Some (inner ++ [93], port)
      | _ => None
      end
    else split_last 58 host in
  match separator with
  | Some (before, port) =>
      let scan := strtol port in
      if negb (beq port []) && negb (scan_range scan) && scan_any scan && beq (scan_rest scan) []
      then (ch_normalize_host before, port)
      else (ch_normalize_host host, [])
  | None => (ch_normalize_host host, [])
  end.

Inductive match_kind : Type :=
| kind_network | kind_port | kind_source_cidr | kind_process
| kind_domain | kind_domain_suffix | kind_domain_keyword | kind_cidr
| kind_rule_set_domain | kind_rule_set_domain_suffix | kind_rule_set_domain_keyword
| kind_rule_set_cidr | kind_all_traffic.

Definition kind_text (k : match_kind) : bytes :=
  match k with
  | kind_network => str "network"
  | kind_port => str "port"
  | kind_source_cidr => str "source_cidr"
  | kind_process => str "process"
  | kind_domain => str "domain"
  | kind_domain_suffix => str "domain_suffix"
  | kind_domain_keyword => str "domain_keyword"
  | kind_cidr => str "cidr"
  | kind_rule_set_domain => str "rule_set_domain"
  | kind_rule_set_domain_suffix => str "rule_set_domain_suffix"
  | kind_rule_set_domain_keyword => str "rule_set_domain_keyword"
  | kind_rule_set_cidr => str "rule_set_cidr"
  | kind_all_traffic => str "all_traffic"
  end.

(** [ch_match]: kind and value. *)
Abbreviation ch_match := (match_kind * bytes)%type.

Definition suffix_matches (host suffix : bytes) : bool :=
  let host_length := lenZ host in
  let suffix_length := lenZ suffix in
  beq host suffix
  || ((host_length >? suffix_length) && (byte_at host (host_length - suffix_length - 1) =? 46)
      && beq (sub host (host_length - suffix_length) suffix_length) suffix).

Definition ch_domain_match (domains suffixes keywords : list bytes) (host : bytes)
    : option ch_match :=
  if ch_owned_strings_contains domains host then Some (kind_domain, host)
  else
    match List.find (suffix_matches host) suffixes with
    | Some suffix => Some (kind_domain_suffix, suffix)
    | None =>
        match List.find (contains host) keywords with
        | Some keyword => Some (kind_domain_keyword, keyword)
        | None => None
        end
    end.

Definition process_pattern_matches (name path base pattern : bytes) : bool :=
  beq pattern name || (negb (beq path []) && beq pattern path)
  || (negb (beq base []) && beq pattern base).

Definition ch_process_match (patterns : list bytes) (name path : cstring) : option bytes :=
  let normalized_name := ch_trimmed_lower name false in
  let normalized_path := ch_trimmed_lower path false in
  let base := match split_last 47 normalized_path with Some (_, b) => b | None => normalized_path end in
  List.find (process_pattern_matches normalized_name normalized_path base) patterns.

Record ch_rule_match_context : Type := mk_context {
  network : cstring;
  target : cstring;
  source : cstring;
  process_name : cstring;
  process_path : cstring
}.

Definition set_kind (k : match_kind) : match_kind :=
  match k with
  | kind_domain => kind_rule_set_domain
  | kind_domain_suffix => kind_rule_set_domain_suffix
  | _ => kind_rule_set_domain_keyword
  end.

(** [snprintf(storage, 512, "%s:%s", name, value)] *)
Definition storage (name value : bytes) : bytes := take 511 (name ++ [58] ++ value).

Definition rule_set_match (host : bytes) (set : ch_compiled_rule_set) : option ch_match :=
  match ch_domain_match (set_domains set) (set_suffixes set) (set_keywords set) host with
  | Some (kind, value) => Some (set_kind kind, storage (set_name set) value)
  | None =>
      match ch_match_cidrs (set_cidrs set) host with
      | Some cidr => Some (kind_rule_set_cidr, storage (set_name set) cidr)
      | None => None
      end
  end.

Fixpoint rule_sets_match (host : bytes) (sets : list ch_compiled_rule_set) : option ch_match :=
  match sets with
  | [] => None
  | set :: sets' =>
      match rule_set_match host set with Some m => Some m | None => rule_sets_match host sets' end
  end.

(** One condition of [ch_rule_matches]: it is skipped when not configured,
    fails the rule when it has no match, and names the match when none is
    recorded yet. *)
Definition condition (configured : bool) (found : option ch_match) (m : option ch_match)
    : option (option ch_match) :=
  if configured then
    match found with
    | None => None
    | Some f => Some (match m with Some _ => m | None => Some f end)
    end
  else Some m.

Definition port_match (ports : list Z) (port : bytes) : option ch_match :=
  let scan := strtol port in
  if negb (scan_any scan) || negb (beq (scan_rest scan) []) then None
  else if existsb (fun p => p =? scan_value scan) ports then Some (kind_port, port) else None.

Definition named (kind : match_kind) (value : option bytes) : option ch_match :=
  match value with Some v => Some (kind, v) | None => None end.

Definition ch_rule_matches (rule : ch_compiled_rule) (context : ch_rule_match_context)
    (network host port : bytes) : option ch_match :=
  m ← condition (nonempty (networks rule))
        (if ch_owned_strings_contains (networks rule) network then Some (kind_network, network) else None)
        None;
  m ← condition (nonempty (ports rule)) (port_match (ports rule) port) m;
  m ← condition (nonempty (source_cidrs rule))
        (named kind_source_cidr
           (ch_match_cidrs (source_cidrs rule) (fst (ch_split_target (source context))))) m;
  m ← condition (nonempty (processes rule))
        (named kind_process
           (ch_process_match (processes rule) (process_name context) (process_path context))) m;
  m ← condition (nonempty (domains rule) || nonempty (suffixes rule) || nonempty (keywords rule))
        (ch_domain_match (domains rule) (suffixes rule) (keywords rule) host) m;
  m ← condition (nonempty (cidrs rule)) (named kind_cidr (ch_match_cidrs (cidrs rule) host)) m;
  m ← (if nonempty (rule_sets rule) then
         match rule_sets_match host (rule_sets rule) with None => None | Some f => Some (Some f) end
       else Some m);
  Some (default (kind_all_traffic, str "*") m).

(** ** The decision *)

Record ch_rule_decision : Type := mk_decision {
  d_rule_name : bytes;
  d_rule_number : Z;
  d_action : bytes;
  d_chain_name : bytes;
  d_group_name : bytes;
  d_target : bytes;
  d_host : bytes;
  d_port : bytes;
  d_network : bytes;
  d_source : bytes;
  d_is_default : bool;
  d_elapsed_ns : Z;
  d_matcher_kind : bytes;
  d_matcher_value : bytes;
  d_summary : bytes
}.

(** The first matching rule, its position (from 1) and its match. *)
Fixpoint select_rule (rules : list ch_compiled_rule) (context : ch_rule_match_context)
    (network host port : bytes) (number : Z) : option (ch_compiled_rule * ch_match * Z) :=
  match rules with
  | [] => None
  | rule :: rules' =>
      match ch_rule_matches rule context network host port with
      | Some m => Some (rule, m, number)
      | None => select_rule rules' context network host port (number + 1)
      end
  end.

Definition quoted (s : bytes) : bytes := [34] ++ s ++ [34].

Definition summary_of (selected : option (ch_compiled_rule * ch_match * Z)) : bytes :=
  take 767
    match selected with
    | None => str "No rule matched; used the default chain."
    | Some (rule, (kind, value), _) =>
        if beq value [] then
          str "Rule " ++ quoted (rule_name rule) ++ str " matched " ++ kind_text kind ++ str "."
        else
          str "Rule " ++ quoted (rule_name rule) ++ str " matched " ++ kind_text kind ++ str " "
          ++ quoted value ++ str "."
    end.

Definition elapsed (started finished : Z) : Z :=
  let elapsed := if finished >=? started then finished - started else 0 in
  if elapsed >? INT64_MAX then INT64_MAX else elapsed.

(** [started] and [finished] are the two readings of the monotonic clock. *)
Definition ch_rule_engine_decide (engine : option ch_rule_engine)
    (context : option ch_rule_match_context) (started finished : Z) : result ch_rule_decision :=
  match engine, context with
  | Some engine, Some context =>
      match target context with
      | None => fail CH_ERROR_INVALID_ARGUMENT
                  (str "rule engine, context, target, and decision are required")
      | Some target_text =>
          let network := ch_trimmed_lower (network context) false in
          let '(host, port) := ch_split_target (Some target_text) in
          let selected := select_rule (rules engine) context network host port 1 in
          let common name number act chain group is_default kind value :=
            mk_decision name number act chain group target_text host port network
              (default [] (source context)) is_default (elapsed started finished) kind value
              (summary_of selected) in
          match selected with
          | None =>
              Done (common [] (lenZ (rules engine) + 1) CH_RULE_ACTION_CHAIN (default_chain engine) []
                      true [] [])
          | Some (rule, (kind, value), number) =>
              Done (common (rule_name rule) number (action rule) (default [] (chain_name rule))
                      (default [] (group_name rule)) false (kind_text kind) value)
          end
      end
  | _, _ => fail CH_ERROR_INVALID_ARGUMENT
              (str "rule engine, context, target, and decision are required")
  end.

(** ** Facts: normalised lists *)

Lemma contains_elem strings value :
  ch_owned_strings_contains strings value = true <-> value ∈ strings.
Proof.
  unfold ch_owned_strings_contains. rewrite existsb_exists, list_elem_of_In. split.
  - intros (x & Hx & E). apply beq_true in E. subst. assumption.
  - intros Hx. exists value. rewrite beq_refl. auto.
Qed.

Lemma owned_strings_loop_spec input strip output :
  NoDup output -> Forall (fun s => s <> []) output ->
  NoDup (owned_strings_loop input strip output) /\
  Forall (fun s => s <> []) (owned_strings_loop input strip output) /\
  forall s, s ∈ owned_strings_loop input strip output <->
    s ∈ output \/ (s <> [] /\ exists item, item ∈ input /\ ch_trimmed_lower item strip = s).
Proof.
  revert output. induction input as [|item input IH]; intros output Hnd Hne; cbn [owned_strings_loop].
  { split_and!; auto. intros s. split; [auto|]. intros [?|(_ & i & Hi & _)]; [assumption|].
    apply elem_of_nil in Hi as []. }
  set (n := ch_trimmed_lower item strip).
  destruct (beq n []) eqn:E1; [|destruct (ch_owned_strings_contains output n) eqn:E2]; cbn [orb].
  - destruct (IH output Hnd Hne) as (H1 & H2 & H3). split_and!; auto. intros s. rewrite H3.
    apply beq_true in E1. split; (intros [?|(Hs & i & Hi & Es)]; [auto|right; split; [assumption|]]).
    + exists i. split; [right; assumption|assumption].
    + apply elem_of_cons in Hi as [-> | Hi]; [|eauto]. fold n in Es. congruence.
  - destruct (IH output Hnd Hne) as (H1 & H2 & H3). split_and!; auto. intros s. rewrite H3.
    apply contains_elem in E2. split; (intros [?|(Hs & i & Hi & Es)]; [auto|]).
    + right. split; [assumption|]. exists i. split; [right; assumption|assumption].
    + apply elem_of_cons in Hi as [-> | Hi]; [left; fold n in Es; congruence|right; eauto].
  - apply beq_false in E1. apply not_true_iff_false in E2. rewrite contains_elem in E2.
    destruct (IH (output ++ [n])) as (H1 & H2 & H3).
    { apply list.NoDup_app. split_and!; [assumption| |apply NoDup_singleton].
      intros x Hx Hx'. apply list_elem_of_singleton in Hx'. congruence. }
    { apply Forall_app. split; [assumption|constructor; [assumption|constructor]]. }
    split_and!; auto. intros s. rewrite H3, elem_of_app, list_elem_of_singleton. split.
    + intros [[?| ->]|(Hs & i & Hi & Es)]; [auto| |].
      * right. split; [assumption|]. exists item. split; [left|reflexivity].
      * right. split; [assumption|]. exists i. split; [right; assumption|assumption].
    + intros [?|(Hs & i & Hi & Es)]; [auto|].
      apply elem_of_cons in Hi as [-> | Hi]; [left; right; symmetry; exact Es|right; eauto].
Qed.

(** ** Facts: addresses as numbers *)

Fixpoint address_value (l : bytes) : Z :=
  match l with [] => 0 | b :: l' => b * 2 ^ (8 * lenZ l') + address_value l' end.

Lemma address_value_range l : bytes_ok l -> 0 <= address_value l < 2 ^ (8 * lenZ l).
Proof.
  induction 1 as [|b l Hb Hl IH]; cbn [address_value]; [split; [lia|reflexivity]|].
  rewrite lenZ_cons. pose proof (lenZ_nonneg l).
  replace (8 * (1 + lenZ l)) with (8 + 8 * lenZ l) by lia. rewrite Z.pow_add_r by lia.
  unfold byte_ok in Hb. change (2 ^ 8) with 256. nia.
Qed.

Lemma address_value_app a b :
  address_value (a ++ b) = address_value a * 2 ^ (8 * lenZ b) + address_value b.
Proof.
  induction a as [|x a IH]; cbn [app address_value]; [lia|]. rewrite IH, lenZ_app.
  pose proof (lenZ_nonneg a). pose proof (lenZ_nonneg b).
  rewrite Z.mul_add_distr_l, Z.pow_add_r by lia. lia.
Qed.

Lemma div_unique_pair q r a b m : 0 <= a < m -> 0 <= b < m -> q * m + a = r * m + b -> q = r /\ a = b.
Proof. intros Ha Hb E. assert (q = r) by nia. subst. lia. Qed.

Lemma address_value_inj a b :
  bytes_ok a -> bytes_ok b -> lenZ a = lenZ b -> address_value a = address_value b -> a = b.
Proof.
  intros Ha. revert b. induction Ha as [|x a Hx Ha IH]; intros b Hb Hlen E.
  - destruct b; [reflexivity|]. rewrite lenZ_nil, lenZ_cons in Hlen. pose proof (lenZ_nonneg b). lia.
  - destruct Hb as [|y b Hy Hb]; [rewrite lenZ_nil, lenZ_cons in Hlen; pose proof (lenZ_nonneg a); lia|].
    rewrite !lenZ_cons in Hlen. cbn [address_value] in E.
    assert (Hl : lenZ a = lenZ b) by lia. rewrite Hl in E.
    pose proof (address_value_range a Ha) as Ra. rewrite Hl in Ra.
    destruct (div_unique_pair _ _ _ _ _ Ra (address_value_range b Hb) E) as [-> E'].
    f_equal. apply IH; assumption.
Qed.

(** The high bits of a byte, by mask and by division. *)
Lemma mask_high_bits r b :
  1 <= r <= 7 -> byte_ok b -> Z.land b (u8 (Z.shiftl 255 (8 - r))) = b / 2 ^ (8 - r) * 2 ^ (8 - r).
Proof.
  intros Hr Hb. apply Z.eqb_eq. revert b Hb.
  assert (Hc : r = 1 \/ r = 2 \/ r = 3 \/ r = 4 \/ r = 5 \/ r = 6 \/ r = 7) by lia.
  destruct Hc as [-> | [-> | [-> | [-> | [-> | [-> | ->]]]]]];
    apply PlainInet.all_bytes; vm_compute; reflexivity.
Qed.

Lemma split_at (l : bytes) w : 0 <= w < lenZ l ->
  l = sub l 0 w ++ byte_at l w :: sub l (w + 1) (lenZ l - w - 1).
Proof.
  intros Hw. rewrite <- (sub_full l) at 1. replace (lenZ l) with (w + (1 + (lenZ l - w - 1))) at 1 by lia.
  rewrite sub_split, (sub_split l (0 + w) 1) by lia. f_equal. rewrite Z.add_0_l.
  change (byte_at l w :: ?t) with ([byte_at l w] ++ t). f_equal.
  apply bytes_eq; rewrite lenZ_sub by lia; [reflexivity|]. intros i Hi. rewrite byte_at_sub by lia.
  replace i with 0 by lia. rewrite Z.add_0_r. reflexivity.
Qed.

Definition family_bits (family : address_family) : Z := 8 * ch_ip_stack_address_length family.

(** A block as [ch_cidr_list_compile] builds it. *)
Definition cidr_wf (c : ch_cidr) : Prop :=
  lenZ (cidr_address c) = ch_ip_stack_address_length (cidr_family c) /\ bytes_ok (cidr_address c) /\
  0 <= prefix_length c <= family_bits (cidr_family c).

(** Membership in a block: the addresses agree on the first [prefix_length]
    of their [bits] bits. *)
Definition in_block (c : ch_cidr) (address : bytes) : Prop :=
  let low := family_bits (cidr_family c) - prefix_length c in
  address_value (cidr_address c) / 2 ^ low = address_value address / 2 ^ low.

Lemma value_prefix a w :
  bytes_ok a -> 0 <= w <= lenZ a ->
  address_value a / 2 ^ (8 * (lenZ a - w)) = address_value (sub a 0 w).
Proof.
  intros Hok Hw. rewrite <- (sub_full a) at 1. replace (lenZ a) with (w + (lenZ a - w)) at 1 by lia.
  rewrite sub_split by lia. rewrite Z.add_0_l, address_value_app, lenZ_sub by lia.
  pose proof (address_value_range (sub a w (lenZ a - w)) ltac:(auto with bytes)) as Hr.
  rewrite lenZ_sub in Hr by lia. rewrite Z.div_add_l, Z.div_small by lia. lia.
Qed.

Lemma value_prefix_bits a w r :
  bytes_ok a -> 0 <= w < lenZ a -> 1 <= r <= 7 ->
  address_value a / 2 ^ (8 * (lenZ a - w - 1) + (8 - r))
  = address_value (sub a 0 w) * 2 ^ r + byte_at a w / 2 ^ (8 - r) /\
  0 <= byte_at a w / 2 ^ (8 - r) < 2 ^ r.
Proof.
  intros Hok Hw Hr. pose proof (byte_at_ok a w Hok) as Hb. unfold byte_ok in Hb.
  assert (H8 : 2 ^ 8 = 2 ^ r * 2 ^ (8 - r)) by (rewrite <- Z.pow_add_r by lia; f_equal; lia).
  assert (Hp : 0 < 2 ^ (8 - r)) by (apply Z.pow_pos_nonneg; lia).
  split; [|split; [apply Z.div_pos; lia|apply Z.div_lt_upper_bound; lia]].
  rewrite Z.pow_add_r, <- Z.div_div by (try (apply Z.pow_pos_nonneg; lia); lia).
  replace (lenZ a - w - 1) with (lenZ a - (w + 1)) by lia. rewrite value_prefix by (auto; lia).
  rewrite sub_split by lia. rewrite Z.add_0_l, address_value_app.
  assert (E : sub a w 1 = [byte_at a w]).
  { apply bytes_eq; rewrite lenZ_sub by lia; [reflexivity|]. intros i Hi. rewrite byte_at_sub by lia.
    replace i with 0 by lia. rewrite Z.add_0_r. reflexivity. }
  rewrite E. change (8 * lenZ [byte_at a w]) with 8. 
  replace (address_value [byte_at a w]) with (byte_at a w)
    by (cbn [address_value]; change (2 ^ (8 * lenZ (@nil Z))) with 1; lia).
  rewrite H8, Z.mul_assoc, Z.div_add_l by lia. reflexivity.
Qed.

(** [ch_cidr_contains] decides membership. *)
Lemma cidr_contains_spec c address :
  cidr_wf c -> lenZ address = lenZ (cidr_address c) -> bytes_ok address ->
  ch_cidr_contains c address = true <-> in_block c address.
Proof.
  intros (Hlen & Hok & Hp) Hl Ha. unfold ch_cidr_contains, in_block.
  set (a := cidr_address c) in *. set (p := prefix_length c) in *.
  unfold family_bits in *. rewrite <- Hlen in *.
  pose proof (Z.div_mod p 8 ltac:(lia)) as Hdm. pose proof (Z.mod_pos_bound p 8 ltac:(lia)) as Hm.
  assert (Hw : 0 <= p / 8) by (apply Z.div_pos; lia). set (w := p / 8) in *. set (r := p mod 8) in *.
  assert (Hpre : (w >? 0) && negb (beq (sub a 0 w) (sub address 0 w)) = false
                 <-> address_value (sub a 0 w) = address_value (sub address 0 w)).
  { rewrite andb_false_iff, negb_false_iff, beq_true. split.
    - intros [H0|E]; [|congruence]. replace w with 0 by lia. reflexivity.
    - intros E. right. apply address_value_inj; auto with bytes. rewrite !lenZ_sub; lia. }
  destruct (r =? 0) eqn:Hr.
  - replace (8 * lenZ a - p) with (8 * (lenZ a - w)) by lia. rewrite value_prefix by (auto; lia).
    rewrite <- Hl, value_prefix, <- Hpre by (auto; lia).
    destruct ((w >? 0) && _); [split; discriminate|tauto].
  - replace (8 * lenZ a - p) with (8 * (lenZ a - w - 1) + (8 - r)) by lia.
    destruct (value_prefix_bits a w r Hok ltac:(lia) ltac:(lia)) as [-> Ra].
    rewrite <- Hl. destruct (value_prefix_bits address w r Ha ltac:(lia) ltac:(lia)) as [-> Rb].
    rewrite !mask_high_bits by (lia || auto with bytes).
    assert (Hpos : 0 < 2 ^ (8 - r)) by (apply Z.pow_pos_nonneg; lia).
    destruct ((w >? 0) && _).
    + split; [discriminate|]. intros E. destruct (div_unique_pair _ _ _ _ _ Ra Rb E) as [E' _].
      apply Hpre in E'. discriminate.
    + rewrite Z.eqb_eq. split; [intros E|].
      * apply Z.mul_reg_r in E; [|lia].
        rewrite E. f_equal. f_equal. apply Hpre. reflexivity.
      * intros E. destruct (div_unique_pair _ _ _ _ _ Ra Rb E) as [_ ->]. reflexivity.
Qed.

Lemma parse_ip_wf host family address :
  parse_ip host = Some (family, address) ->
  lenZ address = ch_ip_stack_address_length family /\ bytes_ok address.
Proof.
  unfold parse_ip. destruct (pton4 host) eqn:E4.
  - intros [= <- <-]. apply pton4_address in E4. exact E4.
  - destruct (pton6 host) eqn:E6; [|discriminate]. intros [= <- <-]. apply pton6_address in E6. exact E6.
Qed.

Lemma cidr_compile_wf item c : cidr_compile item = Done c -> cidr_wf c.
Proof.
  unfold cidr_compile. destruct (split_last 47 _) as [[a p]|]; [|discriminate].
  case_if; [discriminate|]. destruct (parse_ip a) as [[family raw]|] eqn:E; [|discriminate].
  case_if; [discriminate|]. intros [= <-]. apply parse_ip_wf in E as [Hl Hok].
  unfold cidr_wf, family_bits. cbn [cidr_family cidr_address prefix_length]. split_and!; auto.
  - lia.
  - destruct family; cbn in *; lia.
Qed.

Lemma cidr_list_compile_wf input cs : ch_cidr_list_compile input = Done cs -> Forall cidr_wf cs.
Proof.
  revert cs. induction input as [|i input IH]; cbn [ch_cidr_list_compile]; intros cs E.
  - injection E as <-. constructor.
  - apply bind_Done_inv in E as (c & Hc & E). apply bind_Done_inv in E as (rest & Hr & E).
    injection E as <-. constructor; [eapply cidr_compile_wf; eauto|auto].
Qed.

(** ** Facts: what each matcher means *)

Lemma suffix_matches_spec host suffix :
  suffix_matches host suffix = true <-> host = suffix \/ exists p, host = p ++ 46 :: suffix.
Proof.
  pose proof (lenZ_nonneg suffix). unfold suffix_matches.
  rewrite orb_true_iff, !andb_true_iff, beq_true, Z.eqb_eq, beq_true. apply or_iff_compat_l. split.
  - intros [[Hlen Hdot] Hs]. exists (sub host 0 (lenZ host - lenZ suffix - 1)).
    rewrite (split_at host (lenZ host - lenZ suffix - 1)) at 1 by lia. rewrite Hdot. do 2 f_equal.
    rewrite <- Hs at 3. f_equal; lia.
  - intros (p & ->). pose proof (lenZ_nonneg p). rewrite !lenZ_app, lenZ_cons. split; [split; [lia|]|].
    + replace (lenZ p + (1 + lenZ suffix) - lenZ suffix - 1) with (lenZ p) by lia.
      rewrite byte_at_app_r, Z.sub_diag by lia. reflexivity.
    + rewrite (cons_middle 46 p suffix), app_assoc.
      replace (lenZ p + (1 + lenZ suffix) - lenZ suffix) with (lenZ (p ++ [46]))
        by (rewrite lenZ_app, lenZ_cons, lenZ_nil; lia).
      unfold sub, lenZ. rewrite !Nat2Z.id, drop_app_length. apply take_ge. lia.
Qed.

Lemma contains_spec s p : contains s p = true <-> exists a b, s = a ++ p ++ b.
Proof.
  induction s as [|x s IH]; cbn [contains]; rewrite orb_true_iff, is_prefix_spec.
  - split.
    + intros [(r & E)|E]; [|discriminate]. exists [], r. assumption.
    + intros (a & b & E). left. exists b. destruct a; [assumption|discriminate].
  - rewrite IH. split.
    + intros [(r & ->)|(a & b & ->)]; [exists [], r; reflexivity|exists (x :: a), b; reflexivity].
    + intros (a & b & E). destruct a as [|y a]; [left; exists b; assumption|].
      injection E as -> ->. right. eauto.
Qed.

Definition domain_applies (domains suffixes keywords : list bytes) (host : bytes) : Prop :=
  host ∈ domains \/
  (exists s, s ∈ suffixes /\ (host = s \/ exists p, host = p ++ 46 :: s)) \/
  (exists k, k ∈ keywords /\ exists a b, host = a ++ k ++ b).

Lemma find_is_Some {A} (f : A -> bool) l :
  is_Some (List.find f l) <-> exists x, x ∈ l /\ f x = true.
Proof.
  split.
  - intros [x Hx]. apply find_some in Hx as [Hin Hf]. exists x. rewrite list_elem_of_In. auto.
  - intros (x & Hin & Hf). destruct (List.find f l) eqn:E; [eauto|].
    apply list_elem_of_In in Hin. apply (find_none _ _ E) in Hin. congruence.
Qed.

Lemma domain_match_spec domains suffixes keywords host :
  is_Some (ch_domain_match domains suffixes keywords host)
  <-> domain_applies domains suffixes keywords host.
Proof.
  unfold ch_domain_match, domain_applies. rewrite <- contains_elem.
  destruct (ch_owned_strings_contains domains host); [split; [auto|eauto]|].
  pose proof (find_is_Some (suffix_matches host) suffixes) as Hs.
  pose proof (find_is_Some (contains host) keywords) as Hk.
  setoid_rewrite suffix_matches_spec in Hs. setoid_rewrite contains_spec in Hk.
  rewrite <- Hs, <- Hk.
  destruct (List.find (suffix_matches host) suffixes); [split; [eauto|eauto]|].
  destruct (List.find (contains host) keywords); [split; [eauto|eauto]|].
  split; [intros []; discriminate|]. intros [?|[[]|[]]]; discriminate.
Qed.

(** The host text is an address of one of the blocks. *)
Definition host_in_blocks (cs : list ch_cidr) (host : bytes) : Prop :=
  lenZ host < INET6_ADDRSTRLEN + 2 /\
  exists family address, parse_ip (unbracket host) = Some (family, address) /\
    exists c, c ∈ cs /\ cidr_family c = family /\ in_block c address.

Lemma match_cidrs_spec cs host :
  Forall cidr_wf cs -> is_Some (ch_match_cidrs cs host) <-> host_in_blocks cs host.
Proof.
  intros Hwf. unfold ch_match_cidrs, host_in_blocks. case_if.
  { split; [intros []; discriminate|lia]. }
  destruct (parse_ip (unbracket host)) as [[family address]|] eqn:E.
  2: { split; [intros []; discriminate|]. intros (_ & f & a & E' & _). discriminate. }
  pose proof (parse_ip_wf _ _ _ E) as [Hl Hok]. rewrite Forall_forall in Hwf.
  pose proof (find_is_Some (fun c => bool_decide (cidr_family c = family) && ch_cidr_contains c address) cs) as Hf.
  assert (Hx : (exists c, c ∈ cs /\ bool_decide (cidr_family c = family) && ch_cidr_contains c address = true)
               <-> exists c, c ∈ cs /\ cidr_family c = family /\ in_block c address).
  { split; intros (c & Hin & Hc); exists c; (split; [assumption|]);
      assert (Hcw : cidr_wf c) by (apply Hwf, list_elem_of_In; assumption); pose proof Hcw as [Hcl _].
    - apply andb_true_iff in Hc as [Hfam Hc]. apply bool_decide_eq_true in Hfam.
      split; [assumption|]. apply cidr_contains_spec; auto. congruence.
    - destruct Hc as [Hfam Hc]. rewrite bool_decide_eq_true_2 by assumption. simpl.
      apply cidr_contains_spec; auto. congruence. }
  rewrite Hx in Hf. destruct (List.find _ cs).
  - split; [intros _|eauto]. split; [lia|]. do 2 eexists. split; [reflexivity|]. apply Hf. eauto.
  - split; [intros []; discriminate|]. intros (_ & f & a & [= <- <-] & Hc). apply Hf in Hc as []. discriminate.
Qed.

Definition process_applies (patterns : list bytes) (name path : cstring) : Prop :=
  let name := ch_trimmed_lower name false in
  let path := ch_trimmed_lower path false in
  let base := match split_last 47 path with Some (_, b) => b | None => path end in
  exists p, p ∈ patterns /\ (p = name \/ (path <> [] /\ p = path) \/ (base <> [] /\ p = base)).

Lemma process_match_spec patterns name path :
  is_Some (ch_process_match patterns name path) <-> process_applies patterns name path.
Proof.
  unfold ch_process_match, process_applies. rewrite find_is_Some.
  unfold process_pattern_matches.
  setoid_rewrite orb_true_iff. setoid_rewrite orb_true_iff. setoid_rewrite andb_true_iff.
  setoid_rewrite negb_true_iff. setoid_rewrite beq_true. setoid_rewrite beq_false.
  split; intros (p & Hp & Hx); exists p; tauto.
Qed.

Definition port_applies (ports : list Z) (port : bytes) : Prop :=
  scan_any (strtol port) = true /\ scan_rest (strtol port) = [] /\ scan_value (strtol port) ∈ ports.

Lemma port_match_spec ports port : is_Some (port_match ports port) <-> port_applies ports port.
Proof.
  unfold port_match, port_applies. destruct (scan_any (strtol port)); cbn [negb orb].
  2: { split; [intros []; discriminate|]. intros (? & _). discriminate. }
  destruct (beq (scan_rest (strtol port)) []) eqn:E; cbn [negb].
  2: { apply beq_false in E. split; [intros []; discriminate|]. intros (_ & ? & _). contradiction. }
  apply beq_true in E. pose proof (existsb_exists (fun p => p =? scan_value (strtol port)) ports) as He.
  destruct (existsb _ ports).
  - split; [intros _|eauto]. split_and!; auto. destruct He as [He _].
    destruct (He eq_refl) as (x & Hx & Ex). apply list_elem_of_In. apply Z.eqb_eq in Ex. congruence.
  - split; [intros []; discriminate|]. intros (_ & _ & Hin). destruct He as [_ He].
    discriminate He. exists (scan_value (strtol port)). rewrite Z.eqb_refl. split; [|reflexivity].
    apply list_elem_of_In. assumption.
Qed.

(** ** Facts: rules *)

Definition set_applies (host : bytes) (s : ch_compiled_rule_set) : Prop :=
  domain_applies (set_domains s) (set_suffixes s) (set_keywords s) host \/
  host_in_blocks (set_cidrs s) host.

(** What it means for a rule to apply: every matcher it configures holds. *)
Record rule_applies (rule : ch_compiled_rule) (context : ch_rule_match_context)
    (network host port : bytes) : Prop := mk_applies {
  on_network : networks rule <> [] -> network ∈ networks rule;
  on_port : ports rule <> [] -> port_applies (ports rule) port;
  on_source : source_cidrs rule <> [] ->
    host_in_blocks (source_cidrs rule) (fst (ch_split_target (source context)));
  on_process : processes rule <> [] ->
    process_applies (processes rule) (process_name context) (process_path context);
  on_domain : domains rule <> [] \/ suffixes rule <> [] \/ keywords rule <> [] ->
    domain_applies (domains rule) (suffixes rule) (keywords rule) host;
  on_cidr : cidrs rule <> [] -> host_in_blocks (cidrs rule) host;
  on_rule_set : rule_sets rule <> [] -> exists s, s ∈ rule_sets rule /\ set_applies host s
}.

Definition rule_wf (rule : ch_compiled_rule) : Prop :=
  Forall cidr_wf (cidrs rule) /\ Forall cidr_wf (source_cidrs rule) /\
  Forall (fun s => Forall cidr_wf (set_cidrs s)) (rule_sets rule).

Lemma nonempty_true {A} (l : list A) : nonempty l = true <-> l <> [].
Proof. destruct l; cbn; split; (discriminate || tauto). Qed.

Lemma condition_spec configured found m :
  is_Some (condition configured found m) <-> (configured = true -> is_Some found).
Proof.
  unfold condition. destruct configured; [|split; [discriminate|eauto]].
  destruct found; split; eauto. - intros [? E]. discriminate. - intros Hx. destruct (Hx eq_refl). discriminate.
Qed.

Lemma named_spec k v : is_Some (named k v) <-> is_Some v.
Proof. destruct v; cbn; split; intros [? ?]; eauto; discriminate. Qed.

Lemma bind_is_Some {A B} (P : Prop) (m : option A) (k : A -> option B) (Q : Prop) :
  (is_Some m <-> P) -> (forall a, is_Some (k a) <-> Q) -> is_Some (m ≫= k) <-> P /\ Q.
Proof.
  intros Hm Hk. destruct m as [a|]; cbn.
  - rewrite Hk. split; [|tauto]. intros; split; [apply Hm; eauto|assumption].
  - split; [intros []; discriminate|]. intros [Hp _]. apply Hm in Hp as []. discriminate.
Qed.

Lemma rule_sets_match_spec host sets :
  Forall (fun s => Forall cidr_wf (set_cidrs s)) sets ->
  is_Some (rule_sets_match host sets) <-> exists s, s ∈ sets /\ set_applies host s.
Proof.
  assert (Hone : forall s, Forall cidr_wf (set_cidrs s) ->
                 is_Some (rule_set_match host s) <-> set_applies host s).
  { intros s Hs. unfold rule_set_match, set_applies. rewrite <- domain_match_spec, <- match_cidrs_spec by assumption.
    destruct (ch_domain_match _ _ _ host) as [[k v]|]; [split; eauto|].
    destruct (ch_match_cidrs (set_cidrs s) host); split; eauto. intros [[? E]|[? E]]; discriminate. }
  induction 1 as [|s sets Hs _ IH]; cbn [rule_sets_match].
  - split; [intros []; discriminate|]. intros (s & Hin & _). apply elem_of_nil in Hin as [].
  - setoid_rewrite elem_of_cons. specialize (Hone s Hs).
    destruct (rule_set_match host s) as [m|].
    + split; [intros _; exists s; split; [left; reflexivity|apply Hone; eauto]|eauto].
    + rewrite IH. split; [intros (x & Hx & Ha); eauto|].
      intros (x & [-> | Hx] & Ha); [apply Hone in Ha as []; discriminate|eauto].
Qed.

Lemma rule_matches_spec rule context network host port :
  rule_wf rule ->
  is_Some (ch_rule_matches rule context network host port)
  <-> rule_applies rule context network host port.
Proof.
  intros (Hc & Hs & Hr). unfold ch_rule_matches.
  erewrite bind_is_Some; [|apply condition_spec|intros m1].
  2: { erewrite bind_is_Some; [|apply condition_spec|intros m2].
  2: { erewrite bind_is_Some; [|apply condition_spec|intros m3].
  2: { erewrite bind_is_Some; [|apply condition_spec|intros m4].
  2: { erewrite bind_is_Some; [|apply condition_spec|intros m5].
  2: { erewrite bind_is_Some; [|apply condition_spec|intros m6].
  2: { erewrite (bind_is_Some (nonempty (rule_sets rule) = true ->
                   is_Some (rule_sets_match host (rule_sets rule))) _ _ True); [| |intros; split; eauto].
       - reflexivity.
       - destruct (nonempty (rule_sets rule)); [|split; [discriminate|eauto]].
         destruct (rule_sets_match host (rule_sets rule)); split; eauto.
         + intros []. discriminate.
         + intros Hx. destruct (Hx eq_refl). discriminate. }
    reflexivity. } reflexivity. } reflexivity. } reflexivity. } reflexivity. }
  rewrite !named_spec, !match_cidrs_spec, process_match_spec, domain_match_spec, port_match_spec,
    rule_sets_match_spec, !nonempty_true by assumption.
  assert (Hnet : is_Some (if ch_owned_strings_contains (networks rule) network
                          then Some (kind_network, network) else None) <-> network ∈ networks rule).
  { rewrite <- contains_elem. destruct (ch_owned_strings_contains _ _); split; eauto.
    intros []. discriminate. discriminate. }
  rewrite Hnet, !orb_true_iff, !nonempty_true.
  split; [intros (? & ? & ? & ? & ? & ? & ? & _); constructor; tauto|intros []; tauto].
Qed.

(** ** Facts: compilation *)

Lemma rule_sets_loop_wf input known output sets :
  rule_sets_loop input known output = Done sets ->
  Forall (fun s => Forall cidr_wf (set_cidrs s)) output ->
  Forall (fun s => Forall cidr_wf (set_cidrs s)) sets.
Proof.
  revert output. induction input as [|item input IH]; intros output E Ho; cbn [rule_sets_loop] in E.
  - injection E as <-. assumption.
  - case_if_in E; [eauto|]. destruct (ch_find_rule_set known _) as [s|]; [|discriminate].
    apply bind_Done_inv in E as (c & Hc & E). apply IH in E; [assumption|].
    apply Forall_app. split; [assumption|]. constructor; [|constructor].
    unfold ch_compile_rule_set in Hc. apply bind_Done_inv in Hc as (cs & Hcs & Hc).
    injection Hc as <-. eapply cidr_list_compile_wf; eauto.
Qed.

(** A rule's action names a chain or group that exists, or needs none. *)
Definition action_ok (known_chains known_groups : string_list) (r : ch_compiled_rule) : Prop :=
  (action r ∈ [CH_RULE_ACTION_DIRECT; CH_RULE_ACTION_BLOCK; CH_RULE_ACTION_REJECT] /\
   chain_name r = None /\ group_name r = None) \/
  (action r = CH_RULE_ACTION_CHAIN /\ group_name r = None /\
   exists name, chain_name r = Some name /\ Some name ∈ known_chains) \/
  (action r = CH_RULE_ACTION_GROUP /\ chain_name r = None /\
   exists name, group_name r = Some name /\ Some name ∈ known_groups).

Lemma name_known_spec names name : ch_name_known names name = true <-> Some name ∈ names.
Proof.
  unfold ch_name_known. rewrite existsb_exists, list_elem_of_In. split.
  - intros ([s|] & Hin & E); [|discriminate]. apply beq_true in E. subst. assumption.
  - intros Hin. exists (Some name). rewrite beq_refl. auto.
Qed.

Lemma compile_rule_ok input known_chains known_groups known_sets r :
  ch_compile_rule input known_chains known_groups known_sets = Done r ->
  rule_wf r /\ action_ok known_chains known_groups r.
Proof.
  unfold ch_compile_rule. intros E. apply bind_Done_inv in E as ([[act chain] group] & Ha & E).
  case_if_in E; [discriminate|]. apply bind_Done_inv in E as (cs & Hcs & E).
  apply bind_Done_inv in E as (ss & Hss & E). apply bind_Done_inv in E as (sets & Hsets & E).
  injection E as <-. split.
  - split_and!; cbn; [eapply cidr_list_compile_wf; eauto..|]. eapply rule_sets_loop_wf; eauto.
  - unfold ch_parse_action in Ha. unfold action_ok. cbn [action chain_name group_name].
    repeat case_if_in Ha; repeat case_match; try discriminate; injection Ha as <- <- <-.
    all: repeat match goal with
           | E : ch_name_known _ _ = true |- _ => apply name_known_spec in E
           | E : _ || _ = true |- _ => rewrite !orb_true_iff, !beq_true in E
           end; eauto 10.
    all: left; rewrite !elem_of_cons; tauto.
Qed.

Lemma compile_rules_ok inputs known_chains known_groups known_sets rs :
  compile_rules inputs known_chains known_groups known_sets = Done rs ->
  Forall (fun r => rule_wf r /\ action_ok known_chains known_groups r) rs.
Proof.
  revert rs. induction inputs as [|i inputs IH]; cbn [compile_rules]; intros rs E.
  - injection E as <-. constructor.
  - apply bind_Done_inv in E as (r & Hr & E). apply bind_Done_inv in E as (rest & Hrest & E).
    injection E as <-. constructor; [eapply compile_rule_ok; eauto|auto].
Qed.

(** ** Facts: the decision *)

Lemma select_rule_spec rs context network host port n :
  match select_rule rs context network host port n with
  | None => forall r, r ∈ rs -> ch_rule_matches r context network host port = None
  | Some (rule, m, k) =>
      exists i, k = n + Z.of_nat i /\ rs !! i = Some rule /\
        ch_rule_matches rule context network host port = Some m /\
        forall j r, (j < i)%nat -> rs !! j = Some r ->
          ch_rule_matches r context network host port = None
  end.
Proof.
  revert n. induction rs as [|r rs IH]; intros n; cbn [select_rule].
  - intros r Hr. apply elem_of_nil in Hr as [].
  - destruct (ch_rule_matches r context network host port) as [m|] eqn:E.
    + exists 0%nat. split_and!; [lia|reflexivity|assumption|]. intros j r' Hj. lia.
    + specialize (IH (n + 1)). destruct (select_rule rs context network host port (n + 1)) as [[[rule m] k]|].
      * destruct IH as (i & -> & Hi & Hm & Hfirst). exists (S i). split_and!; [lia|assumption|assumption|].
        intros [|j] r' Hj Hr'; cbn in Hr'; [congruence|]. apply (Hfirst j); [lia|assumption].
      * intros x Hx. apply elem_of_cons in Hx as [-> | Hx]; auto.
Qed.

(** The engines that compilation produces. *)
Definition engine_ok (known_chains known_groups : string_list) (e : ch_rule_engine) : Prop :=
  Some (default_chain e) ∈ known_chains /\ default_chain e <> [] /\
  Forall (fun r => rule_wf r /\ action_ok known_chains known_groups r) (rules e) /\
  needs_process e = existsb (fun r => nonempty (processes r)) (rules e).

Lemma engine_compile_ok inputs dc known_chains known_groups known_sets e :
  ch_rule_engine_compile inputs dc known_chains known_groups known_sets = Done e ->
  engine_ok known_chains known_groups e.
Proof.
  unfold ch_rule_engine_compile. destruct (beq (ch_trimmed_copy dc) []) eqn:E0; [discriminate|].
  destruct (ch_name_known known_chains (ch_trimmed_copy dc)) eqn:E1; cbn [negb]; [|discriminate].
  intros E. apply bind_Done_inv in E as (rs & Hrs & E). injection E as <-.
  apply beq_false in E0. apply name_known_spec in E1.
  split_and!; auto. cbn [rules]. eapply compile_rules_ok; eauto.
Qed.

(** A rule that does not look at the process ignores it. *)
Lemma rule_matches_process_irrelevant r context context' network host port :
  processes r = [] -> source context = source context' ->
  ch_rule_matches r context network host port = ch_rule_matches r context' network host port.
Proof. intros Hp Hs. unfold ch_rule_matches. rewrite Hp, Hs. reflexivity. Qed.

Lemma select_rule_process_irrelevant rs context context' network host port n :
  existsb (fun r => nonempty (processes r)) rs = false -> source context = source context' ->
  select_rule rs context network host port n = select_rule rs context' network host port n.
Proof.
  intros Hp Hs. revert n. induction rs as [|r rs IH]; intros n; cbn [select_rule]; [reflexivity|].
  cbn [existsb] in Hp. apply orb_false_iff in Hp as [Hr Hp].
  rewrite (rule_matches_process_irrelevant r context context'), IH; auto.
  destruct (processes r); [reflexivity|discriminate].
Qed.

(** *** Properties *)

(** C3: The engine implements first-match routing.  For a compiled engine the
    decision is the first rule, in configuration order, all of whose
    configured matchers hold (network, port, source block, process, domain,
    destination block, rule set, each in its declarative meaning), and the
    default chain exactly when no rule applies. *)
Theorem decide_first_applicable_rule inputs dc known_chains known_groups known_sets e context text
    started finished :
  ch_rule_engine_compile inputs dc known_chains known_groups known_sets = Done e ->
  target context = Some text ->
  exists d, ch_rule_engine_decide (Some e) (Some context) started finished = Done d /\
    let applies r := rule_applies r context (d_network d) (d_host d) (d_port d) in
    (d_host d, d_port d) = ch_split_target (Some text) /\
    d_network d = ch_trimmed_lower (network context) false /\
    ((d_is_default d = true /\ (forall r, r ∈ rules e -> ~ applies r) /\
      d_rule_number d = lenZ (rules e) + 1 /\ d_action d = CH_RULE_ACTION_CHAIN /\
      d_chain_name d = default_chain e) \/
     (d_is_default d = false /\ exists i r,
        rules e !! i = Some r /\ applies r /\
        (forall j r', (j < i)%nat -> rules e !! j = Some r' -> ~ applies r') /\
        d_rule_number d = Z.of_nat i + 1 /\ d_rule_name d = rule_name r /\ d_action d = action r /\
        d_chain_name d = default [] (chain_name r) /\ d_group_name d = default [] (group_name r))).
Proof.
  intros Hc Ht. apply engine_compile_ok in Hc as (_ & _ & Hrs & _).
  unfold ch_rule_engine_decide. rewrite Ht. destruct (ch_split_target (Some text)) as [host port].
  set (net := ch_trimmed_lower (network context) false).
  pose proof (select_rule_spec (rules e) context net host port 1) as Hs.
  rewrite Forall_forall in Hrs.
  assert (Hno : forall r, r ∈ rules e -> ch_rule_matches r context net host port = None ->
                ~ rule_applies r context net host port).
  { intros r Hr Hm. apply list_elem_of_In, Hrs in Hr as [Hwf _].
    rewrite <- rule_matches_spec, Hm by assumption. intros []. discriminate. }
  destruct (select_rule (rules e) context net host port 1) as [[[r [k v]] n]|].
  - destruct Hs as (i & -> & Hi & Hm & Hfirst). eexists. split; [reflexivity|]. cbn. split_and!; auto.
    right. split; [reflexivity|]. exists i, r. split_and!; auto; [| |lia].
    + apply rule_matches_spec; [|rewrite Hm; eauto].
      apply Hrs, list_elem_of_In, list_elem_of_lookup_2 with i. assumption.
    + intros j r' Hj Hr'. apply Hno; [eapply list_elem_of_lookup_2; eauto|eauto].
  - eexists. split; [reflexivity|]. cbn. split_and!; auto. left. split_and!; auto.
Qed.

(** CIDR matching is arithmetic prefix equality: a compiled block contains
    an address of its family exactly when the two addresses, read as big-endian
    numbers, agree after dropping the low bits that the prefix does not cover
    (also when the prefix ends inside a byte). *)
Theorem cidr_contains_iff_prefix item c address :
  cidr_compile item = Done c -> lenZ address = lenZ (cidr_address c) -> bytes_ok address ->
  ch_cidr_contains c address = true <->
  address_value (cidr_address c) / 2 ^ (8 * lenZ (cidr_address c) - prefix_length c)
  = address_value address / 2 ^ (8 * lenZ (cidr_address c) - prefix_length c).
Proof.
  intros Hc Hl Hok. apply cidr_compile_wf in Hc as Hwf. rewrite (cidr_contains_spec c address Hwf Hl Hok).
  destruct Hwf as (Hlen & _). unfold in_block, family_bits. rewrite Hlen. reflexivity.
Qed.

(** A domain-suffix rule matches the domain itself and its subdomains and
    nothing else: the label boundary is respected. *)
Theorem suffix_matches_iff host suffix :
  suffix_matches host suffix = true <-> host = suffix \/ exists p, host = p ++ 46 :: suffix.
Proof. exact (suffix_matches_spec host suffix). Qed.

(** Compiling a list of strings keeps exactly the normalised (trimmed, lower
    case, optionally without one leading dot) non-empty entries, once each. *)
Theorem owned_strings_compile_spec input strip :
  NoDup (ch_owned_strings_compile input strip) /\
  forall s, s ∈ ch_owned_strings_compile input strip <->
    s <> [] /\ exists item, item ∈ input /\ ch_trimmed_lower item strip = s.
Proof.
  destruct (owned_strings_loop_spec input strip []) as (H1 & _ & H3); [constructor|constructor|].
  split; [assumption|]. intros s. unfold ch_owned_strings_compile. rewrite H3.
  split; [|auto]. intros [Hn|?]; [apply elem_of_nil in Hn as []|assumption].
Qed.

(** Every decision names a known target. *)
Lemma decide_known_target inputs dc known_chains known_groups known_sets e context
    started finished d :
  ch_rule_engine_compile inputs dc known_chains known_groups known_sets = Done e ->
  ch_rule_engine_decide (Some e) context started finished = Done d ->
  (d_action d = CH_RULE_ACTION_CHAIN /\ Some (d_chain_name d) ∈ known_chains) \/
  (d_action d = CH_RULE_ACTION_GROUP /\ Some (d_group_name d) ∈ known_groups) \/
  d_action d ∈ [CH_RULE_ACTION_DIRECT; CH_RULE_ACTION_BLOCK; CH_RULE_ACTION_REJECT].
Proof.
  intros Hc Hd. apply engine_compile_ok in Hc as (Hdef & _ & Hrs & _).
  unfold ch_rule_engine_decide in Hd. destruct context as [context|]; [|discriminate].
  destruct (target context) as [text|]; [|discriminate].
  destruct (ch_split_target (Some text)) as [host port].
  pose proof (select_rule_spec (rules e) context (ch_trimmed_lower (network context) false) host port 1) as Hs.
  destruct (select_rule (rules e) context _ host port 1) as [[[r [k v]] n]|]; injection Hd as <-; cbn.
  - destruct Hs as (i & _ & Hi & _). rewrite Forall_forall in Hrs.
    apply list_elem_of_lookup_2, list_elem_of_In, Hrs in Hi as [_ [(Ha & _)|[(Ha & _ & name & -> & Hn)|(Ha & _ & name & -> & Hn)]]];
      cbn; auto.
  - auto.
Qed.

(** An action without a chain leaves the chain of the decision empty. *)
Lemma decide_plain_action inputs dc known_chains known_groups known_sets e context
    started finished d :
  ch_rule_engine_compile inputs dc known_chains known_groups known_sets = Done e ->
  ch_rule_engine_decide (Some e) context started finished = Done d ->
  d_action d ∈ [CH_RULE_ACTION_DIRECT; CH_RULE_ACTION_BLOCK; CH_RULE_ACTION_REJECT] ->
  d_chain_name d = [].
Proof.
  intros Hc Hd. apply engine_compile_ok in Hc as (_ & _ & Hrs & _).
  unfold ch_rule_engine_decide in Hd. destruct context as [context|]; [|discriminate].
  destruct (target context) as [text|]; [|discriminate].
  destruct (ch_split_target (Some text)) as [host port].
  pose proof (select_rule_spec (rules e) context (ch_trimmed_lower (network context) false) host port 1) as Hs.
  destruct (select_rule (rules e) context _ host port 1) as [[[r [k v]] n]|]; injection Hd as <-; cbn.
  - destruct Hs as (i & _ & Hi & _). rewrite Forall_forall in Hrs.
    apply list_elem_of_lookup_2, list_elem_of_In, Hrs in Hi as [_ [(_ & -> & _)|[(-> & _)|(_ & -> & _)]]];
      cbn; auto; rewrite !elem_of_cons, elem_of_nil; intuition discriminate.
  - rewrite !elem_of_cons, elem_of_nil. intuition discriminate.
Qed.

(** Every decision of a compiled engine is executable: it names a chain
    that is known when its action is "chain" (the default chain included), a
    known group when it is "group", and the other actions are direct, block or
    reject. *)
Theorem decide_names_known_target inputs dc known_chains known_groups known_sets e context
    started finished d :
  ch_rule_engine_compile inputs dc known_chains known_groups known_sets = Done e ->
  ch_rule_engine_decide (Some e) context started finished = Done d ->
  (d_action d = CH_RULE_ACTION_CHAIN /\ Some (d_chain_name d) ∈ known_chains) \/
  (d_action d = CH_RULE_ACTION_GROUP /\ Some (d_group_name d) ∈ known_groups) \/
  d_action d ∈ [CH_RULE_ACTION_DIRECT; CH_RULE_ACTION_BLOCK; CH_RULE_ACTION_REJECT].
Proof. apply decide_known_target. Qed.

(** [needs_process] is exact in the direction that matters: when the engine
    reports that no rule needs process metadata, the decision does not depend
    on the process name and path, so skipping the process lookup is safe. *)
Theorem needs_process_sound inputs dc known_chains known_groups known_sets e net tgt src name path
    name' path' started finished :
  ch_rule_engine_compile inputs dc known_chains known_groups known_sets = Done e ->
  ch_rule_engine_needs_process (Some e) = false ->
  ch_rule_engine_decide (Some e) (Some (mk_context net tgt src name path)) started finished
  = ch_rule_engine_decide (Some e) (Some (mk_context net tgt src name' path')) started finished.
Proof.
  intros Hc Hn. apply engine_compile_ok in Hc as (_ & _ & _ & Hp). cbn in Hn. rewrite Hn in Hp.
  unfold ch_rule_engine_decide. cbn [target network source].
  destruct tgt as [text|]; [|reflexivity]. destruct (ch_split_target (Some text)) as [host port].
  rewrite (select_rule_process_irrelevant _ (mk_context net (Some text) src name path)
             (mk_context net (Some text) src name' path')) by (symmetry; assumption || reflexivity).
  reflexivity.
Qed.

End Resolver.

(** ** Witnesses *)

Import PlainInet.

Definition w_spec (act : bytes) (suffixes blocks : string_list) : ch_rule_spec :=
  mk_rule_spec (Some (str "r")) (Some act) [] [] suffixes [] blocks [] [] [] [].

Definition w_specs : list ch_rule_spec :=
  [w_spec (str "block") [Some (str ".Ads.example")] [];
   w_spec (str "chain:exit") [] [Some (str "10.0.0.0/13")]].

Definition w_engine : ch_rule_engine :=
  mk_engine (str "main")
    [mk_compiled_rule (str "r") (str "block") None None [] [str "ads.example"] [] [] [] [] [] [] [];
     mk_compiled_rule (str "r") (str "chain") (Some (str "exit")) None [] [] []
       [mk_cidr AF_INET [10;0;0;0] 13 (str "10.0.0.0/13")] [] [] [] [] []]
    false.

Lemma w_engine_compiles :
  ch_rule_engine_compile w_specs (Some (str " main ")) [Some (str "main"); Some (str "exit")] [] []
  = Done w_engine.
Proof. vm_compute. reflexivity. Qed.

Definition w_context : ch_rule_match_context :=
  mk_context (Some (str "tcp")) (Some (str "10.7.1.2:443")) None None None.

Lemma decide_first_applicable_rule_witness :
  exists d, ch_rule_engine_decide (Some w_engine) (Some w_context) 0 5 = Done d /\
    let applies r := rule_applies r w_context (d_network d) (d_host d) (d_port d) in
    (d_host d, d_port d) = ch_split_target (Some (str "10.7.1.2:443")) /\
    d_network d = ch_trimmed_lower (network w_context) false /\
    ((d_is_default d = true /\ (forall r, r ∈ rules w_engine -> ~ applies r) /\
      d_rule_number d = lenZ (rules w_engine) + 1 /\ d_action d = CH_RULE_ACTION_CHAIN /\
      d_chain_name d = default_chain w_engine) \/
     (d_is_default d = false /\ exists i r,
        rules w_engine !! i = Some r /\ applies r /\
        (forall j r', (j < i)%nat -> rules w_engine !! j = Some r' -> ~ applies r') /\
        d_rule_number d = Z.of_nat i + 1 /\ d_rule_name d = rule_name r /\ d_action d = action r /\
        d_chain_name d = default [] (chain_name r) /\ d_group_name d = default [] (group_name r))).
Proof.
  exact (decide_first_applicable_rule w_specs (Some (str " main ")) _ [] [] w_engine w_context
           (str "10.7.1.2:443") 0 5 w_engine_compiles eq_refl).
Defined.

Definition w_decision : ch_rule_decision :=
  match ch_rule_engine_decide (Some w_engine) (Some w_context) 0 5 with
  | Done d => d
  | _ => mk_decision [] 0 [] [] [] [] [] [] [] [] false 0 [] [] []
  end.

End Rules.
