(* ===== verification/Json.v ===== *)
(** * JSON values: [native/src/json.c]

    The growing output buffer, the recursive-descent parser, the accessors and
    mutations of the value tree, and the printer.  The conversions between text
    and [double] belong to the C library; they are the class [Double]. *)

From S2P Require Import Prelude CLib.

(** [strtod] on a number token: [None] stands for a range error or a value that
    is not finite; [double_of_int64] is the C conversion; [format_17g] is
    [printf("%.17g")]. *)
Class Double : Type := {
  double : Type;
  strtod : bytes -> option double;
  double_of_int64 : Z -> double;
  format_17g : double -> bytes;
  isfinite : double -> bool;
  strtod_int64 : forall n, INT64_MIN <= n <= INT64_MAX -> strtod (dec n) = Some (double_of_int64 n)
}.

Module Json.

(** ** The output buffer *)

Record ch_json_buffer : Type := mk_buffer {
  buffer_data : bytes;       (** the first [length] bytes of [data] *)
  buffer_capacity : Z;
  buffer_failed : bool
}.

Definition ch_json_init : ch_json_buffer := mk_buffer [] 0 false.

(** The doubling loop of [ch_json_reserve]; 64 rounds reach [SIZE_MAX]. *)
Fixpoint reserve_loop (fuel : nat) (next needed : Z) : Z :=
  if next <? needed then
    match fuel with
    | O => next
    | S fuel' => if next >? SIZE_MAX / 2 then needed else reserve_loop fuel' (next * 2) needed
    end
  else next.

(** [grow n]: whether [realloc] to [n] bytes succeeds. *)
Definition ch_json_reserve (grow : Z -> bool) (buffer : ch_json_buffer) (extra : Z)
    : ch_json_buffer * bool :=
  let length := lenZ (buffer_data buffer) in
  let failed := mk_buffer (buffer_data buffer) (buffer_capacity buffer) true in
  if buffer_failed buffer then (buffer, false)
  else if extra >? SIZE_MAX - length - 1 then (failed, false)
  else
    let needed := length + extra + 1 in
    if needed <=? buffer_capacity buffer then (buffer, true)
    else
      let next := reserve_loop 64 (if buffer_capacity buffer =? 0 then 128 else buffer_capacity buffer)
                    needed in
      if grow next then (mk_buffer (buffer_data buffer) next false, true) else (failed, false).

Definition ch_json_append (grow : Z -> bool) (buffer : ch_json_buffer) (value : bytes)
    : ch_json_buffer * bool :=
  let '(buffer, ok) := ch_json_reserve grow buffer (lenZ value) in
  if (ok : bool) then
    (mk_buffer (buffer_data buffer ++ value) (buffer_capacity buffer) (buffer_failed buffer), true)
  else (buffer, false).

(** The text of one character of a string. *)
Definition escape_char (c : Z) : bytes :=
  if c =? 34 then [92; 34]
  else if c =? 92 then [92; 92]
  else if c =? 8 then [92; 98]
  else if c =? 12 then [92; 102]
  else if c =? 10 then [92; 110]
  else if c =? 13 then [92; 114]
  else if c =? 9 then [92; 116]
  else if c <? 32 then
    [92; 117; 48; 48; hex_digit (Z.shiftr c 4); hex_digit (Z.land c 15)]
  else [c].

Fixpoint append_escaped (grow : Z -> bool) (buffer : ch_json_buffer) (value : bytes)
    : ch_json_buffer * bool :=
  match value with
  | [] => (buffer, true)
  | c :: value' =>
      let '(buffer, ok) := ch_json_append grow buffer (escape_char c) in
      if (ok : bool) then append_escaped grow buffer value' else (buffer, false)
  end.

Definition ch_json_append_string (grow : Z -> bool) (buffer : ch_json_buffer) (value : option bytes)
    : ch_json_buffer * bool :=
  let '(buffer, ok) := ch_json_append grow buffer [34] in
  if negb ok then (buffer, false)
  else
    let '(buffer, ok) := append_escaped grow buffer (default [] value) in
    if negb ok then (buffer, false) else ch_json_append grow buffer [34].

(** The text, and the empty buffer. *)
Definition ch_json_take (buffer : ch_json_buffer) : option bytes * ch_json_buffer :=
  if buffer_failed buffer then (None, ch_json_init)
  else (Some (buffer_data buffer), mk_buffer [] 0 (buffer_failed buffer)).

Section Doubles.
Context `{Double}.

(** ** Values *)

Record ch_number : Type := mk_number {
  number_value : double;
  number_integer : Z;
  number_is_integer : bool
}.

#[warnings="-register-all"]
Inductive ch_json_value : Type :=
| CH_JSON_NULL
| CH_JSON_BOOL (b : bool)
| CH_JSON_NUMBER (n : ch_number)
| CH_JSON_STRING (s : bytes)
| CH_JSON_ARRAY (items : list ch_json_value)
| CH_JSON_OBJECT (members : list (bytes * ch_json_value)).

(** ** The parser

    A parser function takes the text from the cursor on and returns what is
    left; [total] is the length of the input, for the offset in messages. *)

Definition ch_json_parse_error {A} (total : Z) (cursor message : bytes) : result A :=
  fail CH_ERROR_PARSE
    (str "JSON parse error at byte " ++ dec_nonneg (total - lenZ cursor) ++ str ": " ++ message).

Definition ch_json_hex (c : Z) : option Z :=
  if (48 <=? c) && (c <=? 57) then Some (c - 48)
  else if (97 <=? c) && (c <=? 102) then Some (c - 97 + 10)
  else if (65 <=? c) && (c <=? 70) then Some (c - 65 + 10)
  else None.

(** The value of four hexadecimal digits. *)
Definition ch_json_code_unit (a b c d : Z) : option Z :=
  w ← ch_json_hex a; x ← ch_json_hex b; y ← ch_json_hex c; z ← ch_json_hex d;
  Some (Z.lor (Z.shiftl (Z.lor (Z.shiftl (Z.lor (Z.shiftl w 4) x) 4) y) 4) z).

(** The bytes that [ch_json_append_codepoint] appends: it hands a NUL-terminated
    buffer to [ch_json_append]. *)
Definition ch_json_append_codepoint (codepoint : Z) : bytes :=
  until_nul
    (map u8
       (if codepoint <=? 127 then [codepoint]
        else if codepoint <=? 2047 then
          [Z.lor 192 (Z.shiftr codepoint 6); Z.lor 128 (Z.land codepoint 63)]
        else if codepoint <=? 65535 then
          [Z.lor 224 (Z.shiftr codepoint 12); Z.lor 128 (Z.land (Z.shiftr codepoint 6) 63);
           Z.lor 128 (Z.land codepoint 63)]
        else
          [Z.lor 240 (Z.shiftr codepoint 18); Z.lor 128 (Z.land (Z.shiftr codepoint 12) 63);
           Z.lor 128 (Z.land (Z.shiftr codepoint 6) 63); Z.lor 128 (Z.land codepoint 63)])).

Definition simple_escape (e : Z) : option Z :=
  if e =? 34 then Some 34
  else if e =? 92 then Some 92
  else if e =? 47 then Some 47
  else if e =? 98 then Some 8
  else if e =? 102 then Some 12
  else if e =? 110 then Some 10
  else if e =? 114 then Some 13
  else if e =? 116 then Some 9
  else None.

Section Parser.
Context (total : Z).

Abbreviation error := (ch_json_parse_error total).

(** The loop of [ch_json_parse_string_raw]. *)
Fixpoint string_loop (s output : bytes) : result (bytes * bytes) :=
  match s with
  | [] => error [] (str "unterminated string")
  | character :: s1 =>
      if character =? 34 then Done (output, s1)
      else if character <? 32 then error s1 (str "unescaped control character")
      else if negb (character =? 92) then string_loop s1 (output ++ [character])
      else
        match s1 with
        | [] => error [] (str "incomplete escape")
        | escape :: s2 =>
            if escape =? 117 then
              match s2 with
              | a :: b :: c :: d :: s3 =>
                  match ch_json_code_unit a b c d with
                  | None => error s2 (str "invalid Unicode escape")
                  | Some codepoint =>
                      if (55296 <=? codepoint) && (codepoint <=? 56319) then
                        match s3 with
                        | x :: y :: s4 =>
                            if negb (x =? 92) || negb (y =? 117) then
                              error s3 (str "high surrogate without low surrogate")
                            else
                              match s4 with
                              | a' :: b' :: c' :: d' :: s5 =>
                                  match ch_json_code_unit a' b' c' d' with
                                  | None => error s4 (str "invalid Unicode escape")
                                  | Some low =>
                                      if (low <? 56320) || (low >? 57343) then
                                        error s5 (str "invalid low surrogate")
                                      else
                                        string_loop s5
                                          (output ++ ch_json_append_codepoint
                                             (65536 + Z.shiftl (codepoint - 55296) 10 + (low - 56320)))
                                  end
                              | _ => error s4 (str "incomplete Unicode escape")
                              end
                        | _ => error s3 (str "high surrogate without low surrogate")
                        end
                      else if (56320 <=? codepoint) && (codepoint <=? 57343) then
                        error s3 (str "unexpected low surrogate")
                      else string_loop s3 (output ++ ch_json_append_codepoint codepoint)
                  end
              | _ => error s2 (str "incomplete Unicode escape")
              end
            else
              match simple_escape escape with
              | Some replacement => string_loop s2 (output ++ [replacement])
              | None => error s2 (str "invalid escape")
              end
        end
  end.

Definition ch_json_parse_string_raw (s : bytes) : result (bytes * bytes) :=
  match s with
  | c :: s' => if c =? 34 then string_loop s' [] else error s (str "expected string")
  | [] => error s (str "expected string")
  end.

(** *** Numbers *)

Fixpoint skip_digits (s : bytes) : bytes :=
  match s with c :: s' => if isdigit c then skip_digits s' else s | [] => [] end.

Definition is_char (c : Z) (s : bytes) : bool := match s with x :: _ => x =? c | [] => false end.

(** The extent of a number token: whether it is an integer token and what
    follows, or the place of the error. *)
Definition scan_exponent (integer_token : bool) (s : bytes) : bool * bytes + bytes :=
  if is_char 101 s || is_char 69 s then
    let r := tail s in
    let r := if is_char 43 r || is_char 45 r then tail r else r in
    if starts_digit r then inl (false, skip_digits r) else inr r
  else inl (integer_token, s).

Definition scan_fraction (s : bytes) : bool * bytes + bytes :=
  if is_char 46 s then
    let r := tail s in
    if starts_digit r then scan_exponent false (skip_digits r) else inr r
  else scan_exponent true s.

Definition scan_number (s : bytes) : bool * bytes + bytes :=
  let s1 := if is_char 45 s then tail s else s in
  match s1 with
  | [] => inr s1
  | c :: r =>
      if c =? 48 then scan_fraction r
      else if (49 <=? c) && (c <=? 57) then scan_fraction (skip_digits s1)
      else inr s1
  end.

Definition ch_json_parse_number (s : bytes) : result (ch_json_value * bytes) :=
  match scan_number s with
  | inr place => error place (str "invalid number")
  | inl (integer_token, rest) =>
      let text := take (length s - length rest) s in
      match strtod text with
      | None => error rest (str "invalid number")
      | Some number =>
          let parsed := strtol text in
          let exact_integer := integer_token && negb (scan_range parsed) && scan_any parsed
                               && beq (scan_rest parsed) [] in
          Done (CH_JSON_NUMBER
                  (mk_number number (if exact_integer then scan_value parsed else 0) exact_integer),
                rest)
      end
  end.

(** *** Values

    A round of the loop of [ch_json_parse_array], then the rest of the loop. *)
Definition array_item (parse : bytes -> result (ch_json_value * bytes))
    (loop : bytes -> list ch_json_value -> result (list ch_json_value * bytes)) (s : bytes) (items : list ch_json_value)
    : result (list ch_json_value * bytes) :=
  '(item, s1) ← parse s;
  let items := items ++ [item] in
  match skip_space s1 with
  | [] => error [] (str "expected comma or closing bracket")
  | c :: s2 =>
      if c =? 93 then Done (items, s2)
      else if c =? 44 then loop (skip_space s2) items
      else error s2 (str "expected comma or closing bracket")
  end.

(** A round of the loop of [ch_json_parse_object], then the rest of the loop. *)
Definition object_member (parse : bytes -> result (ch_json_value * bytes))
    (loop : bytes -> list (bytes * ch_json_value) -> result (list (bytes * ch_json_value) * bytes))
    (s : bytes) (members : list (bytes * ch_json_value)) : result (list (bytes * ch_json_value) * bytes) :=
  '(key, s1) ← ch_json_parse_string_raw s;
  match skip_space s1 with
  | [] => error [] (str "expected colon")
  | c :: s2 =>
      if negb (c =? 58) then error s2 (str "expected colon")
      else
        '(member_value, s3) ← parse s2;
        let members := members ++ [(key, member_value)] in
        match skip_space s3 with
        | [] => error [] (str "expected comma or closing brace")
        | c :: s4 =>
            if c =? 125 then Done (members, s4)
            else if c =? 44 then loop (skip_space s4) members
            else error s4 (str "expected comma or closing brace")
        end
  end.

(** [fuel] bounds the number of nested calls; [depth] counts the levels as the
    source does.  Running out of fuel is [Fault]. *)

Fixpoint ch_json_parse_value (fuel : nat) (depth : Z) (s : bytes)
    : result (ch_json_value * bytes) :=
  match fuel with
  | O => Fault
  | S fuel' =>
      let s := skip_space s in
      let depth := depth + 1 in
      if depth >? 64 then error s (str "nesting exceeds 64 levels")
      else
        match s with
        | [] => error s (str "expected value")
        | c :: s' =>
            if c =? 34 then
              '(string, rest) ← ch_json_parse_string_raw s; Done (CH_JSON_STRING string, rest)
            else if c =? 91 then
              let s1 := skip_space s' in
              if is_char 93 s1 then Done (CH_JSON_ARRAY [], tail s1)
              else '(items, rest) ← parse_items fuel' depth s1 []; Done (CH_JSON_ARRAY items, rest)
            else if c =? 123 then
              let s1 := skip_space s' in
              if is_char 125 s1 then Done (CH_JSON_OBJECT [], tail s1)
              else '(members, rest) ← parse_members fuel' depth s1 []; Done (CH_JSON_OBJECT members, rest)
            else if is_prefix (str "null") s then Done (CH_JSON_NULL, drop 4 s)
            else if is_prefix (str "true") s then Done (CH_JSON_BOOL true, drop 4 s)
            else if is_prefix (str "false") s then Done (CH_JSON_BOOL false, drop 5 s)
            else if (c =? 45) || isdigit c then ch_json_parse_number s
            else error s (str "unexpected token")
        end
  end

with parse_items (fuel : nat) (depth : Z) (s : bytes) (items : list ch_json_value)
    : result (list ch_json_value * bytes) :=
  match fuel with
  | O => Fault
  | S fuel' => array_item (ch_json_parse_value fuel' depth) (parse_items fuel' depth) s items
  end
with parse_members (fuel : nat) (depth : Z) (s : bytes) (members : list (bytes * ch_json_value))
    : result (list (bytes * ch_json_value) * bytes) :=
  match fuel with
  | O => Fault
  | S fuel' => object_member (ch_json_parse_value fuel' depth) (parse_members fuel' depth) s members
  end.

End Parser.

(** Two units of fuel per input byte are enough ([parse_total]). *)
Definition ch_json_parse (json : option bytes) : result ch_json_value :=
  match json with
  | None => fail CH_ERROR_INVALID_ARGUMENT (str "JSON input is required")
  | Some json =>
      let total := lenZ json in
      '(value, rest) ← ch_json_parse_value total (2 * length json + 2) 0 json;
      let rest := skip_space rest in
      if beq rest [] then Done value
      else ch_json_parse_error total rest (str "trailing data")
  end.

(** ** Accessors

    A [ch_json_value *] that may be NULL is an option. *)

Inductive ch_json_type : Type :=
| TYPE_NULL | TYPE_BOOL | TYPE_NUMBER | TYPE_STRING | TYPE_ARRAY | TYPE_OBJECT.

Definition ch_json_value_type (value : option ch_json_value) : ch_json_type :=
  match value with
  | None | Some CH_JSON_NULL => TYPE_NULL
  | Some (CH_JSON_BOOL _) => TYPE_BOOL
  | Some (CH_JSON_NUMBER _) => TYPE_NUMBER
  | Some (CH_JSON_STRING _) => TYPE_STRING
  | Some (CH_JSON_ARRAY _) => TYPE_ARRAY
  | Some (CH_JSON_OBJECT _) => TYPE_OBJECT
  end.

Definition ch_json_bool_value (value : option ch_json_value) (fallback : bool) : bool :=
  match value with Some (CH_JSON_BOOL b) => b | _ => fallback end.

Definition ch_json_number_value (value : option ch_json_value) (fallback : double) : double :=
  match value with Some (CH_JSON_NUMBER n) => number_value n | _ => fallback end.

Definition ch_json_int64_value (value : option ch_json_value) : option Z :=
  match value with
  | Some (CH_JSON_NUMBER n) => if number_is_integer n then Some (number_integer n) else None
  | _ => None
  end.

Definition ch_json_string_value (value : option ch_json_value) : option bytes :=
  match value with Some (CH_JSON_STRING s) => Some s | _ => None end.

Definition ch_json_array_size (value : option ch_json_value) : Z :=
  match value with Some (CH_JSON_ARRAY items) => lenZ items | _ => 0 end.

Definition ch_json_array_get (value : option ch_json_value) (index : nat) : option ch_json_value :=
  match value with Some (CH_JSON_ARRAY items) => items !! index | _ => None end.

Definition ch_json_object_size (value : option ch_json_value) : Z :=
  match value with Some (CH_JSON_OBJECT members) => lenZ members | _ => 0 end.

Definition ch_json_object_key (value : option ch_json_value) (index : nat) : option bytes :=
  match value with Some (CH_JSON_OBJECT members) => fst <$> members !! index | _ => None end.

Definition ch_json_object_value (value : option ch_json_value) (index : nat)
    : option ch_json_value :=
  match value with Some (CH_JSON_OBJECT members) => snd <$> members !! index | _ => None end.

(** The first member with the key. *)
Fixpoint member_get (members : list (bytes * ch_json_value)) (key : bytes)
    : option ch_json_value :=
  match members with
  | [] => None
  | (k, v) :: members' => if beq k key then Some v else member_get members' key
  end.

Definition ch_json_object_get (value : option ch_json_value) (key : option bytes)
    : option ch_json_value :=
  match value, key with
  | Some (CH_JSON_OBJECT members), Some key => member_get members key
  | _, _ => None
  end.

(** ** Constructors and mutations *)

Definition ch_json_value_new_bool (value : bool) : ch_json_value := CH_JSON_BOOL value.

Definition ch_json_value_new_number (value : double) : option ch_json_value :=
  if isfinite value then Some (CH_JSON_NUMBER (mk_number value 0 false)) else None.

Definition ch_json_value_new_int64 (value : Z) : ch_json_value :=
  CH_JSON_NUMBER (mk_number (double_of_int64 value) value true).

Definition ch_json_value_new_string (value : option bytes) : ch_json_value :=
  CH_JSON_STRING (default [] value).

Definition ch_json_value_new_array : ch_json_value := CH_JSON_ARRAY [].
Definition ch_json_value_new_object : ch_json_value := CH_JSON_OBJECT [].

Fixpoint ch_json_value_clone (value : ch_json_value) : ch_json_value :=
  match value with
  | CH_JSON_NULL => CH_JSON_NULL
  | CH_JSON_BOOL b => CH_JSON_BOOL b
  | CH_JSON_NUMBER n => CH_JSON_NUMBER n
  | CH_JSON_STRING s => CH_JSON_STRING s
  | CH_JSON_ARRAY items =>
      CH_JSON_ARRAY
        ((fix clone_items l :=
            match l with [] => [] | v :: l' => ch_json_value_clone v :: clone_items l' end) items)
  | CH_JSON_OBJECT members =>
      CH_JSON_OBJECT
        ((fix clone_members l :=
            match l with
            | [] => []
            | (k, v) :: l' => (k, ch_json_value_clone v) :: clone_members l'
            end) members)
  end.

Definition ch_json_array_append (array item : option ch_json_value) : result ch_json_value :=
  match array, item with
  | Some (CH_JSON_ARRAY items), Some item => Done (CH_JSON_ARRAY (items ++ [item]))
  | _, _ => fail CH_ERROR_INVALID_ARGUMENT (str "JSON array and item are required")
  end.

(** Replace the value of the first member with the key, if there is one. *)
Fixpoint member_replace (members : list (bytes * ch_json_value)) (key : bytes) (v : ch_json_value)
    : option (list (bytes * ch_json_value)) :=
  match members with
  | [] => None
  | (k, w) :: members' =>
      if beq k key then Some ((k, v) :: members')
      else match member_replace members' key v with
           | Some r => Some ((k, w) :: r)
           | None => None
           end
  end.

Definition ch_json_object_set (object : option ch_json_value) (key : option bytes)
    (member_value : option ch_json_value) : result ch_json_value :=
  match object, key, member_value with
  | Some (CH_JSON_OBJECT members), Some key, Some v =>
      if beq key [] then
        fail CH_ERROR_INVALID_ARGUMENT (str "JSON object, key, and value are required")
      else
        Done (CH_JSON_OBJECT
                match member_replace members key v with
                | Some members => members
                | None => members ++ [(key, v)]
                end)
  | _, _, _ => fail CH_ERROR_INVALID_ARGUMENT (str "JSON object, key, and value are required")
  end.

Fixpoint member_remove (members : list (bytes * ch_json_value)) (key : bytes)
    : list (bytes * ch_json_value) * bool :=
  match members with
  | [] => ([], false)
  | (k, v) :: members' =>
      if beq k key then (members', true)
      else let '(r, found) := member_remove members' key in ((k, v) :: r, found)
  end.

Definition ch_json_object_remove (object : option ch_json_value) (key : option bytes)
    : option ch_json_value * bool :=
  match object, key with
  | Some (CH_JSON_OBJECT members), Some key =>
      let '(members, found) := member_remove members key in (Some (CH_JSON_OBJECT members), found)
  | _, _ => (object, false)
  end.

(** ** The printer *)

(** [m >>? k]: continue when the append succeeded. *)
Notation "m >>? k" := (let '(b, ok) := m in if (ok : bool) then k b else (b, false))
  (at level 62, right associativity, only parsing).

Section Printer.
Context (grow : Z -> bool).

(** The loops over the items of an array and the members of an object. *)
Definition append_list {A} (append_item : A -> ch_json_buffer -> ch_json_buffer * bool) :=
  fix append_list (first : bool) (l : list A) (buffer : ch_json_buffer) : ch_json_buffer * bool :=
    match l with
    | [] => (buffer, true)
    | x :: l' =>
        (if first then (buffer, true) else ch_json_append grow buffer [44]) >>? (fun buffer =>
        append_item x buffer >>? (fun buffer =>
        append_list false l' buffer))
    end.

Fixpoint ch_json_append_value (value : ch_json_value) (buffer : ch_json_buffer)
    : ch_json_buffer * bool :=
  match value with
  | CH_JSON_NULL => ch_json_append grow buffer (str "null")
  | CH_JSON_BOOL b => ch_json_append grow buffer (if b then str "true" else str "false")
  | CH_JSON_NUMBER n =>
      ch_json_append grow buffer
        (if number_is_integer n then dec (number_integer n) else format_17g (number_value n))
  | CH_JSON_STRING s => ch_json_append_string grow buffer (Some s)
  | CH_JSON_ARRAY items =>
      ch_json_append grow buffer [91] >>? (fun buffer =>
      append_list ch_json_append_value true items buffer >>? (fun buffer =>
      ch_json_append grow buffer [93]))
  | CH_JSON_OBJECT members =>
      ch_json_append grow buffer [123] >>? (fun buffer =>
      append_list
        (fun '(k, v) buffer =>
           ch_json_append_string grow buffer (Some k) >>? (fun buffer =>
           ch_json_append grow buffer [58] >>? (fun buffer =>
           ch_json_append_value v buffer)))
        true members buffer >>? (fun buffer =>
      ch_json_append grow buffer [125]))
  end.

End Printer.

(** ** Facts: the buffer *)

Lemma reserve_loop_spec fuel next needed :
  0 < next <= SIZE_MAX -> needed <= SIZE_MAX -> needed <= next * 2 ^ Z.of_nat fuel ->
  needed <= reserve_loop fuel next needed /\ next <= reserve_loop fuel next needed <= SIZE_MAX.
Proof.
  revert next. induction fuel as [|fuel IH]; intros next Hn Hs Hf; cbn [reserve_loop].
  - rewrite Nat2Z.inj_0, Z.pow_0_r in Hf. case_if; lia.
  - case_if; [|lia]. case_if; [lia|]. unfold SIZE_MAX in *.
    rewrite Nat2Z.inj_succ, Z.pow_succ_r in Hf by lia.
    destruct (IH (next * 2)) as [H1 H2]; [split; [lia|]|assumption|lia|lia].
    assert (next <= (2 ^ 64 - 1) / 2) by lia.
    assert ((2 ^ 64 - 1) / 2 = 2 ^ 63 - 1) as E by reflexivity. lia.
Qed.

(** The text and its terminator fit the allocation. *)
Definition buffer_ok (b : ch_json_buffer) : Prop :=
  0 <= buffer_capacity b <= SIZE_MAX /\
  ((buffer_data b = [] /\ buffer_capacity b = 0) \/ lenZ (buffer_data b) + 1 <= buffer_capacity b).

Lemma reserve_spec grow b extra :
  buffer_ok b -> 0 <= extra ->
  let '(b', ok) := ch_json_reserve grow b extra in
  buffer_ok b' /\ buffer_data b' = buffer_data b /\
  (ok = true -> buffer_failed b = false /\ buffer_failed b' = false /\
                lenZ (buffer_data b) + extra + 1 <= buffer_capacity b') /\
  (buffer_failed b = false -> lenZ (buffer_data b) + extra + 1 <= SIZE_MAX ->
   (forall n, grow n = true) -> ok = true).
Proof.
  intros Hok He. pose proof Hok as [Hc Hb]. pose proof (lenZ_nonneg (buffer_data b)). unfold ch_json_reserve.
  destruct (buffer_failed b) eqn:Ef; [split_and!; auto; discriminate|].
  case_if; [split_and!; auto; try discriminate; lia|].
  case_if; [split_and!; auto; intros; split_and!; auto; lia|].
  set (next := if buffer_capacity b =? 0 then 128 else buffer_capacity b).
  assert (Hn : 0 < next <= SIZE_MAX) by (unfold next; case_if; unfold SIZE_MAX in *; lia).
  destruct (reserve_loop_spec 64 next (lenZ (buffer_data b) + extra + 1)) as [H1 H2];
    [assumption|lia|change (2 ^ Z.of_nat 64) with (2 ^ 64); unfold SIZE_MAX in *; lia|].
  destruct (grow _) eqn:Eg.
  - split; [split; cbn [buffer_capacity buffer_data buffer_failed]; [lia|right; lia]|]. split_and!; cbn [buffer_capacity buffer_data buffer_failed]; auto; intros; split_and!; auto; lia.
  - split_and!; cbn [buffer_capacity buffer_data buffer_failed]; auto; [discriminate|]. intros _ _ Hg. rewrite Hg in Eg. discriminate.
Qed.

(** [writes grow f t]: [f] appends [t] when it succeeds, keeps the buffer
    within its allocation, and succeeds when the text fits and memory lasts. *)
Definition writes (grow : Z -> bool) (f : ch_json_buffer -> ch_json_buffer * bool) (t : bytes) : Prop :=
  forall b, buffer_ok b ->
    let '(b', ok) := f b in
    buffer_ok b' /\
    (ok = true -> buffer_data b' = buffer_data b ++ t /\ (buffer_failed b = false -> buffer_failed b' = false)) /\
    (buffer_failed b = false -> lenZ (buffer_data b) + lenZ t + 1 <= SIZE_MAX ->
     (forall n, grow n = true) -> ok = true).

Lemma append_writes grow t : writes grow (fun b => ch_json_append grow b t) t.
Proof.
  intros b Hb. unfold ch_json_append.
  pose proof (reserve_spec grow b (lenZ t) Hb (lenZ_nonneg t)) as Hr.
  destruct (ch_json_reserve grow b (lenZ t)) as [b1 ok]. destruct Hr as (Hok1 & Hd & Ht & Hf).
  destruct ok; [|split_and!; auto; discriminate].
  destruct (Ht eq_refl) as (_ & Hf1 & Hroom). split_and!; auto.
  - split; [apply Hok1|]. right. cbn. rewrite lenZ_app, Hd. lia.
  - intros _. cbn. rewrite Hd. auto.
Qed.

Lemma writes_nothing grow : writes grow (fun b => (b, true)) [].
Proof. intros b Hb. split_and!; auto. intros _. rewrite app_nil_r. auto. Qed.

Lemma writes_seq grow f g t u :
  writes grow f t -> writes grow g u ->
  writes grow (fun b => let '(b, ok) := f b in if (ok : bool) then g b else (b, false)) (t ++ u).
Proof.
  intros Hf Hg b Hb. specialize (Hf b Hb). destruct (f b) as [b1 ok1]. destruct Hf as (Hb1 & Ht & Hs).
  pose proof (lenZ_nonneg u). rewrite !lenZ_app. destruct ok1.
  - destruct (Ht eq_refl) as [Hd Hf1]. specialize (Hg b1 Hb1). destruct (g b1) as [b2 ok2].
    destruct Hg as (Hb2 & Hu & Hs2). split_and!; auto.
    + intros Hok. destruct (Hu Hok) as [-> ?]. rewrite Hd, app_assoc. auto.
    + intros Hnf Hfit Hgrow. apply Hs2; auto. rewrite Hd, lenZ_app. lia.
  - split_and!; auto; [discriminate|]. intros Hnf Hfit Hgrow. apply Hs; auto. lia.
Qed.

Lemma writes_ext grow f g t : (forall b, f b = g b) -> writes grow f t -> writes grow g t.
Proof. intros E Hf b Hb. rewrite <- E. exact (Hf b Hb). Qed.

Definition print_string (s : bytes) : bytes := [34] ++ concat (map escape_char s) ++ [34].

Lemma append_string_writes grow s :
  writes grow (fun b => ch_json_append_string grow b (Some s)) (print_string s).
Proof.
  assert (He : writes grow (fun b => append_escaped grow b s) (concat (map escape_char s))).
  { induction s as [|c s IH]; cbn [append_escaped map concat]; [apply writes_nothing|].
    apply (writes_seq grow _ _ _ _ (append_writes grow (escape_char c)) IH). }
  pose proof (writes_seq grow _ _ _ _ (append_writes grow [34])
                (writes_seq grow _ _ _ _ He (append_writes grow [34]))) as Hw.
  revert Hw. apply writes_ext. intros b. unfold ch_json_append_string. change (default [] (Some s)) with s.
  destruct (ch_json_append grow b [34]) as [b1 [|]]; [|reflexivity]. cbn [negb].
  destruct (append_escaped grow b1 s) as [b2 [|]]; reflexivity.
Qed.

(** ** Facts: the printed text *)

Fixpoint join (l : list bytes) : bytes :=
  match l with
  | [] => []
  | [x] => x
  | x :: l' => x ++ [44] ++ join l'
  end.

Fixpoint print_value (value : ch_json_value) : bytes :=
  match value with
  | CH_JSON_NULL => str "null"
  | CH_JSON_BOOL b => if b then str "true" else str "false"
  | CH_JSON_NUMBER n =>
      if number_is_integer n then dec (number_integer n) else format_17g (number_value n)
  | CH_JSON_STRING s => print_string s
  | CH_JSON_ARRAY items => [91] ++ join (map print_value items) ++ [93]
  | CH_JSON_OBJECT members =>
      [123] ++ join (map (fun '(k, v) => print_string k ++ [58] ++ print_value v) members) ++ [125]
  end.

(** Induction on values, through the lists of their children. *)
Lemma json_ind (P : ch_json_value -> Prop) :
  P CH_JSON_NULL -> (forall b, P (CH_JSON_BOOL b)) -> (forall n, P (CH_JSON_NUMBER n)) ->
  (forall s, P (CH_JSON_STRING s)) ->
  (forall items, Forall P items -> P (CH_JSON_ARRAY items)) ->
  (forall members, Forall (fun m => P (snd m)) members -> P (CH_JSON_OBJECT members)) ->
  forall v, P v.
Proof.
  intros H0 H1 H2 H3 H4 H5. fix IH 1. intros [|b|n|s|items|members].
  - exact H0.
  - exact (H1 b).
  - exact (H2 n).
  - exact (H3 s).
  - apply H4. induction items as [|v items IHi]; constructor; [exact (IH v)|exact IHi].
  - apply H5. induction members as [|[k v] members IHm]; constructor; [exact (IH v)|exact IHm].
Qed.

Lemma join_cons x l : l <> [] -> join (x :: l) = x ++ [44] ++ join l.
Proof. destruct l; [contradiction|reflexivity]. Qed.

(** The separator and the rest of a list, after its first element. *)
Definition join_rest (l : list bytes) : bytes := match l with [] => [] | _ => [44] ++ join l end.

Lemma join_split x l : join (x :: l) = x ++ join_rest l.
Proof. destruct l; [symmetry; apply app_nil_r|reflexivity]. Qed.

Lemma append_list_writes {A} grow (item : A -> ch_json_buffer -> ch_json_buffer * bool)
    (text : A -> bytes) l :
  Forall (fun x => writes grow (item x) (text x)) l ->
  writes grow (append_list grow item true l) (join (map text l)) /\
  writes grow (append_list grow item false l) (join_rest (map text l)).
Proof.
  induction 1 as [|x l Hx Hl [_ IH]]; cbn [append_list map].
  - split; apply writes_nothing.
  - cbn [join_rest]. rewrite join_split. split.
    + exact (writes_seq grow _ _ _ _ Hx IH).
    + exact (writes_seq grow _ _ _ _ (append_writes grow [44]) (writes_seq grow _ _ _ _ Hx IH)).
Qed.

Lemma append_value_writes grow v : writes grow (ch_json_append_value grow v) (print_value v).
Proof.
  induction v as [|b|n|s|items IH|members IH] using json_ind; cbn [ch_json_append_value print_value].
  - apply append_writes.
  - apply append_writes.
  - apply append_writes.
  - apply append_string_writes.
  - destruct (append_list_writes grow _ _ _ IH) as [Hl _].
    exact (writes_seq grow _ _ _ _ (append_writes grow [91])
             (writes_seq grow _ _ _ _ Hl (append_writes grow [93]))).
  - destruct (append_list_writes grow
        (fun '(k, v) buffer =>
           ch_json_append_string grow buffer (Some k) >>? (fun buffer =>
           ch_json_append grow buffer [58] >>? (fun buffer =>
           ch_json_append_value grow v buffer)))
        (fun '(k, v) => print_string k ++ [58] ++ print_value v) members) as [Hl _].
    { revert IH. apply List.Forall_impl. intros [k v] Hv.
      exact (writes_seq grow _ _ _ _ (append_string_writes grow k)
               (writes_seq grow _ _ _ _ (append_writes grow [58]) Hv)). }
    exact (writes_seq grow _ _ _ _ (append_writes grow [123])
             (writes_seq grow _ _ _ _ Hl (append_writes grow [125]))).
Qed.


(** ** Facts: what the parser consumes *)

Lemma skip_space_length s : (length (skip_space s) <= length s)%nat.
Proof. induction s as [|c s IH]; cbn [skip_space]; [lia|]. case_if; cbn [length]; lia. Qed.

Lemma skip_space_ok s : bytes_ok s -> bytes_ok (skip_space s).
Proof. induction 1; cbn [skip_space]; [constructor|]. case_if; [assumption|constructor; assumption]. Qed.

Lemma until_nul_cstr l : bytes_ok l -> cstr_ok (until_nul l).
Proof.
  induction 1 as [|c l Hc Hl IH]; cbn [until_nul]; [constructor|]. case_if; constructor; auto.
  unfold cchar_ok, byte_ok in *. lia.
Qed.

Lemma codepoint_cstr c : cstr_ok (ch_json_append_codepoint c).
Proof. apply until_nul_cstr, Forall_map, Forall_true. intros x. apply Z.mod_pos_bound. lia. Qed.

Lemma simple_escape_char e c : simple_escape e = Some c -> cchar_ok c.
Proof. unfold simple_escape, cchar_ok. repeat case_if; intros [= <-]; lia. Qed.

(** A parsed string consumes input and is a C string: no NUL inside. *)
Definition string_result (s output : bytes) (r : result (bytes * bytes)) : Prop :=
  match r with
  | Done (o, rest) =>
      (length rest < length s)%nat /\ bytes_ok rest /\ exists t, o = output ++ t /\ cstr_ok t
  | Raise _ => True
  | Fault => False
  end.

Lemma string_result_step s s' output t r :
  (length s' <= length s)%nat -> cstr_ok t ->
  string_result s' (output ++ t) r -> string_result s output r.
Proof.
  intros Hl Ht. destruct r as [[o rest]|e|]; cbn; auto. intros (H1 & H2 & u & -> & Hu).
  split; [lia|]. split; [assumption|]. exists (t ++ u). rewrite app_assoc. split; [reflexivity|].
  apply Forall_app. auto.
Qed.

Lemma string_loop_result total s output :
  bytes_ok s -> string_result s output (string_loop total s output).
Proof.
  assert (Hn : exists n, (length s <= n)%nat) by eauto. destruct Hn as [n Hn]. revert s output Hn.
  induction n as [|n IH]; intros s output Hn Hok; [destruct s; [exact I|cbn in Hn; lia]|].
  destruct s as [|c s1]; [exact I|]. inversion_clear Hok as [|? ? Hc H1]. cbn [length] in Hn.
  assert (Hrec : forall s' t, (length s' <= length s1)%nat -> bytes_ok s' -> cstr_ok t ->
            string_result (c :: s1) output (string_loop total s' (output ++ t))).
  { intros s' t Hl Hs' Ht. apply string_result_step with s' t; [cbn [length]; lia|assumption|].
    apply IH; [lia|assumption]. }
  cbn [string_loop].
  case_if; [cbn; split; [lia|]; split; [assumption|]; exists []; rewrite app_nil_r; split; [reflexivity|constructor]|].
  case_if; [exact I|]. case_if.
  { apply Hrec; [lia|assumption|]. constructor; [|constructor]. unfold byte_ok, cchar_ok in *. lia. }
  destruct s1 as [|e s2]; [exact I|]. inversion_clear H1 as [|? ? He H2]. cbn [length] in Hrec.
  case_if.
  2: { destruct (simple_escape e) as [x|] eqn:Ex; [|exact I].
       apply Hrec; [lia|assumption|constructor; [eapply simple_escape_char; eauto|constructor]]. }
  destruct s2 as [|x1 [|x2 [|x3 [|x4 s3]]]]; try exact I. cbn [length] in Hrec.
  destruct (ch_json_code_unit x1 x2 x3 x4) as [cp|]; [|exact I].
  assert (H3 : bytes_ok s3) by (do 4 (inversion_clear H2 as [|? ? _ H2']; rename H2' into H2); assumption).
  case_if; [|case_if; [exact I|apply Hrec; [lia|assumption|apply codepoint_cstr]]].
  destruct s3 as [|y1 [|y2 s4]]; try exact I. cbn [length] in Hrec. case_if; [exact I|].
  destruct s4 as [|z1 [|z2 [|z3 [|z4 s5]]]]; try exact I. cbn [length] in Hrec.
  destruct (ch_json_code_unit z1 z2 z3 z4) as [low|]; [|exact I]. case_if; [exact I|].
  apply Hrec; [lia| |apply codepoint_cstr].
  do 6 (inversion_clear H3 as [|? ? _ H3']; rename H3' into H3). assumption.
Qed.

Lemma parse_string_result total s :
  bytes_ok s -> string_result s [] (ch_json_parse_string_raw total s).
Proof.
  intros Hok. unfold ch_json_parse_string_raw. destruct s as [|c s]; [exact I|].
  case_if; [|exact I]. inversion_clear Hok.
  pose proof (string_loop_result total s [] ltac:(assumption)) as Hr. revert Hr.
  apply (string_result_step (c :: s) s [] []); [cbn [length]; lia|constructor].
Qed.

Lemma skip_digits_suffix s :
  (length (skip_digits s) <= length s)%nat /\ (bytes_ok s -> bytes_ok (skip_digits s)).
Proof.
  induction s as [|c s [IH1 IH2]]; cbn [skip_digits]; [auto|]. case_if; cbn [length]; [|auto].
  split; [lia|]. intros Hok. inversion_clear Hok. auto.
Qed.

Lemma tail_suffix (s : bytes) :
  (length (tail s) <= length s)%nat /\ (bytes_ok s -> bytes_ok (tail s)).
Proof. destruct s as [|c s]; cbn; [auto|]. split; [lia|]. intros Hok. inversion_clear Hok. assumption. Qed.

(** A number token is not empty. *)
Lemma scan_fraction_suffix s tok rest :
  scan_fraction s = inl (tok, rest) ->
  (length rest <= length s)%nat /\ (bytes_ok s -> bytes_ok rest).
Proof.
  assert (Hx : forall tok s tok' rest, scan_exponent tok s = inl (tok', rest) ->
            (length rest <= length s)%nat /\ (bytes_ok s -> bytes_ok rest)).
  { intros tk t tk' r. unfold scan_exponent. case_if; [|intros [= <- <-]; auto].
    destruct (tail_suffix t) as [T1 T2], (tail_suffix (tail t)) as [T3 T4].
    case_if; [|discriminate]. case_if; intros [= <- <-].
    - destruct (skip_digits_suffix (tail (tail t))). split; [lia|auto].
    - destruct (skip_digits_suffix (tail t)). split; [lia|auto]. }
  unfold scan_fraction. case_if; [|intros E; apply Hx in E; assumption].
  case_if; [|discriminate]. intros E. apply Hx in E as [E1 E2].
  destruct (tail_suffix s), (skip_digits_suffix (tail s)). split; [lia|auto].
Qed.

Lemma scan_number_suffix s tok rest :
  scan_number s = inl (tok, rest) ->
  (length rest < length s)%nat /\ (bytes_ok s -> bytes_ok rest).
Proof.
  unfold scan_number. intros E.
  assert (Hs1 : (length (if is_char 45 s then tail s else s) <= length s)%nat /\
                (bytes_ok s -> bytes_ok (if is_char 45 s then tail s else s)))
    by (case_if; [apply tail_suffix|auto]).
  destruct (if is_char 45 s then tail s else s) as [|c r]; [discriminate|].
  destruct Hs1 as [L1 O1]. cbn [length] in L1.
  case_if_in E; [|case_if_in E; [|discriminate]]; apply scan_fraction_suffix in E as [E1 E2].
  - split; [lia|]. intros Hok. apply E2. specialize (O1 Hok). inversion_clear O1. assumption.
  - assert (Hd : isdigit c = true) by (unfold isdigit; lia).
    cbn [skip_digits] in E1, E2. rewrite Hd in E1, E2. destruct (skip_digits_suffix r) as [D1 D2].
    split; [lia|]. intros Hok. apply E2, D2. specialize (O1 Hok). inversion_clear O1. assumption.
Qed.

(** ** Facts: totality, nesting depth and C strings *)

Fixpoint height (v : ch_json_value) : Z :=
  match v with
  | CH_JSON_ARRAY items => 1 + foldr Z.max 0 (map height items)
  | CH_JSON_OBJECT members => 1 + foldr Z.max 0 (map (fun m => height (snd m)) members)
  | _ => 1
  end.

(** Every string and key of the value is a C string. *)
Fixpoint strings_ok (v : ch_json_value) : Prop :=
  match v with
  | CH_JSON_STRING s => cstr_ok s
  | CH_JSON_ARRAY items => foldr and True (map strings_ok items)
  | CH_JSON_OBJECT members => foldr and True (map (fun m => cstr_ok (fst m) /\ strings_ok (snd m)) members)
  | _ => True
  end.

(** A value at nesting level [depth] parsed from [s]. *)
Definition value_result (depth : Z) (s : bytes) (r : result (ch_json_value * bytes)) : Prop :=
  match r with
  | Done (v, rest) =>
      (length rest < length s)%nat /\ bytes_ok rest /\ depth + height v <= 64 /\ strings_ok v
  | Raise _ => True
  | Fault => False
  end.

Definition children_result {A} (depth : Z) (s : bytes) (h : A -> Z) (ok : A -> Prop)
    (r : result (list A * bytes)) : Prop :=
  match r with
  | Done (l, rest) =>
      (length rest < length s)%nat /\ bytes_ok rest /\
      depth + foldr Z.max 0 (map h l) <= 64 /\ foldr and True (map ok l)
  | Raise _ => True
  | Fault => False
  end.

Lemma max_nonneg {A} (h : A -> Z) l : 0 <= foldr Z.max 0 (map h l).
Proof. induction l; cbn [map foldr]; lia. Qed.

Lemma max_snoc {A} (h : A -> Z) l x :
  foldr Z.max 0 (map h (l ++ [x])) = Z.max (foldr Z.max 0 (map h l)) (Z.max (h x) 0).
Proof. induction l as [|y l IH]; cbn [app map foldr]; [lia|]. rewrite IH. lia. Qed.

Lemma and_snoc {A} (ok : A -> Prop) l x :
  foldr and True (map ok l) -> ok x -> foldr and True (map ok (l ++ [x])).
Proof. induction l as [|y l IH]; cbn [app map foldr]; tauto. Qed.

Lemma is_char_tail c s : is_char c s = true -> s = c :: tail s.
Proof. destruct s as [|x s]; cbn; [discriminate|]. intros E. apply Z.eqb_eq in E. congruence. Qed.

Lemma drop_result depth s n v :
  bytes_ok s -> (0 < n)%nat -> s <> [] -> depth + height v <= 64 -> strings_ok v ->
  value_result depth s (Done (v, drop n s)).
Proof.
  intros Hok Hn Hs Hd Hv. split_and!; auto; [|apply Forall_drop; assumption].
  rewrite length_drop. destruct s; [contradiction|cbn [length]; lia].
Qed.

Lemma parse_number_result total depth s :
  bytes_ok s -> depth + 1 <= 64 -> value_result depth s (ch_json_parse_number total s).
Proof.
  intros Hok Hd. unfold ch_json_parse_number.
  destruct (scan_number s) as [[tok rest]|place] eqn:E; [|exact I].
  destruct (strtod _); [|exact I]. apply scan_number_suffix in E as [E1 E2]. split_and!; auto. exact I.
Qed.

Definition values_ok (total : Z) (fuel : nat) : Prop :=
  forall depth s, bytes_ok s -> (2 * length s + 1 < fuel)%nat ->
    value_result depth s (ch_json_parse_value total fuel depth s).

Definition items_ok (total : Z) (fuel : nat) : Prop :=
  forall depth s items, bytes_ok s -> (2 * length s + 2 < fuel)%nat ->
    depth + foldr Z.max 0 (map height items) <= 64 -> foldr and True (map strings_ok items) ->
    children_result depth s height strings_ok (parse_items total fuel depth s items).

Definition members_ok (total : Z) (fuel : nat) : Prop :=
  forall depth s members, bytes_ok s -> (2 * length s + 2 < fuel)%nat ->
    depth + foldr Z.max 0 (map (fun m => height (snd m)) members) <= 64 ->
    foldr and True (map (fun m => cstr_ok (fst m) /\ strings_ok (snd m)) members) ->
    children_result depth s (fun m => height (snd m)) (fun m => cstr_ok (fst m) /\ strings_ok (snd m))
      (parse_members total fuel depth s members).

Lemma parse_value_step total fuel :
  items_ok total fuel -> members_ok total fuel -> values_ok total (S fuel).
Proof.
  intros IHi IHm.
  intros depth s0 Hok Hf. cbn [ch_json_parse_value].
  pose proof (skip_space_length s0) as Hl. pose proof (skip_space_ok s0 Hok) as Hs.
  set (s := skip_space s0) in *. case_if; [exact I|].
  assert (Hweak : forall r, value_result depth s r -> value_result depth s0 r).
  { intros [[v rest]|e|]; cbn; auto. intros (? & ?). split; [lia|assumption]. }
  apply Hweak. destruct s as [|c s'] eqn:Es; [exact I|]. rewrite <- Es in *.
  assert (Hlen : length s = S (length s')) by (rewrite Es; reflexivity).
  assert (Hs' : bytes_ok s') by (rewrite Es in Hs; inversion_clear Hs; assumption).
  assert (Hne : s <> []) by congruence.
  case_if.
  { pose proof (parse_string_result total s Hs) as Hr.
    destruct (ch_json_parse_string_raw total s) as [[o rest]|e|]; [|exact I|contradiction].
    destruct Hr as (H1 & H2 & t & -> & H3). cbn. split_and!; auto. lia. }
  case_if.
  { pose proof (skip_space_length s'). pose proof (skip_space_ok s' Hs') as Hs1.
    set (s1 := skip_space s') in *. case_if.
    - destruct (tail_suffix s1) as [T1 T2]. cbn. split_and!; auto; lia.
    - pose proof (IHi (depth + 1) s1 [] Hs1 ltac:(lia) ltac:(cbn; lia) I) as Hr.
      destruct (parse_items total fuel (depth + 1) s1 []) as [[items rest]|e|]; [|exact I|contradiction].
      destruct Hr as (H1 & H2 & H3 & H4). cbn [mbind outcome_bind value_result height strings_ok].
      split_and!; auto; lia. }
  case_if.
  { pose proof (skip_space_length s'). pose proof (skip_space_ok s' Hs') as Hs1.
    set (s1 := skip_space s') in *. case_if.
    - destruct (tail_suffix s1) as [T1 T2]. cbn. split_and!; auto; lia.
    - pose proof (IHm (depth + 1) s1 [] Hs1 ltac:(lia) ltac:(cbn; lia) I) as Hr.
      destruct (parse_members total fuel (depth + 1) s1 []) as [[ms rest]|e|]; [|exact I|contradiction].
      destruct Hr as (H1 & H2 & H3 & H4). cbn [mbind outcome_bind value_result height strings_ok].
      split_and!; auto; lia. }
  case_if; [apply drop_result; cbn; auto; lia|]. case_if; [apply drop_result; cbn; auto; lia|].
  case_if; [apply drop_result; cbn; auto; lia|].
  case_if; [apply parse_number_result; [assumption|lia]|exact I].
Qed.

Lemma parse_items_step total fuel :
  values_ok total fuel -> items_ok total fuel -> items_ok total (S fuel).
Proof.
  intros IHv IHi.
  intros depth s items Hok Hf Hd Hi. cbn [parse_items]; unfold array_item.
  pose proof (IHv depth s Hok ltac:(lia)) as Hr.
  destruct (ch_json_parse_value total fuel depth s) as [[v s1]|e|]; [|exact I|contradiction].
  destruct Hr as (H1 & H2 & H3 & H4). cbn [mbind outcome_bind].
  pose proof (skip_space_length s1). pose proof (skip_space_ok s1 H2) as Hs1.
  destruct (skip_space s1) as [|c s2] eqn:E; [exact I|]. inversion_clear Hs1 as [|? ? _ Hs2]. cbn [length] in *.
  assert (Hd' : depth + foldr Z.max 0 (map height (items ++ [v])) <= 64) by (rewrite max_snoc; pose proof (max_nonneg height items); lia).
  pose proof (and_snoc strings_ok items v Hi H4) as Hi'.
  case_if; [cbn; split_and!; auto; lia|]. case_if; [|exact I].
  pose proof (skip_space_length s2). pose proof (skip_space_ok s2 Hs2) as Hs3.
  pose proof (IHi depth (skip_space s2) (items ++ [v]) Hs3 ltac:(lia) Hd' Hi') as Hr.
  destruct (parse_items total fuel depth (skip_space s2) (items ++ [v])) as [[l rest]|e|]; auto.
  destruct Hr as (? & ?). split; [lia|assumption].
Qed.

Lemma parse_members_step total fuel :
  values_ok total fuel -> members_ok total fuel -> members_ok total (S fuel).
Proof.
  intros IHv IHm.
  intros depth s members Hok Hf Hd Hi. cbn [parse_members]; unfold object_member.
  pose proof (parse_string_result total s Hok) as Hk.
  destruct (ch_json_parse_string_raw total s) as [[key s1]|e|]; [|exact I|contradiction].
  destruct Hk as (K1 & K2 & t & -> & K3). cbn [mbind outcome_bind app].
  pose proof (skip_space_length s1). pose proof (skip_space_ok s1 K2) as Hs1.
  destruct (skip_space s1) as [|c s2] eqn:E; [exact I|]. inversion_clear Hs1 as [|? ? _ Hs2]. cbn [length] in *.
  case_if; [exact I|]. pose proof (IHv depth s2 Hs2 ltac:(lia)) as Hr.
  destruct (ch_json_parse_value total fuel depth s2) as [[v s3]|e|]; [|exact I|contradiction].
  destruct Hr as (H1 & H2 & H3 & H4). cbn [mbind outcome_bind].
  pose proof (skip_space_length s3). pose proof (skip_space_ok s3 H2) as Hs3.
  destruct (skip_space s3) as [|c' s4] eqn:E'; [exact I|]. inversion_clear Hs3 as [|? ? _ Hs4]. cbn [length] in *.
  assert (Hd' : depth + foldr Z.max 0 (map (fun m => height (snd m)) (members ++ [(t, v)])) <= 64)
    by (rewrite max_snoc; cbn [snd]; pose proof (max_nonneg (fun m => height (snd m)) members); lia).
  pose proof (and_snoc (fun m => cstr_ok (fst m) /\ strings_ok (snd m)) members (t, v) Hi (conj K3 H4)) as Hi'.
  case_if; [cbn; split_and!; auto; lia|]. case_if; [|exact I].
  pose proof (skip_space_length s4). pose proof (skip_space_ok s4 Hs4) as Hs5.
  pose proof (IHm depth (skip_space s4) (members ++ [(t, v)]) Hs5 ltac:(lia) Hd' Hi') as Hr.
  destruct (parse_members total fuel depth (skip_space s4) (members ++ [(t, v)])) as [[l rest]|e|]; auto.
  destruct Hr as (? & ?). split; [lia|assumption].
Qed.

Lemma parse_results total fuel :
  values_ok total fuel /\ items_ok total fuel /\ members_ok total fuel.
Proof.
  induction fuel as [|fuel (IHv & IHi & IHm)]; [split_and!; unfold values_ok, items_ok, members_ok; intros; lia|].
  split_and!; [apply parse_value_step|apply parse_items_step|apply parse_members_step]; assumption.
Qed.

(** ** Facts: reading back what was printed *)

Lemma string_loop_escape total c s output :
  cchar_ok c -> string_loop total (escape_char c ++ s) output = string_loop total s (output ++ [c]).
Proof.
  unfold cchar_ok, escape_char. intros Hc.
  destruct (c =? 34) eqn:E1; [apply Z.eqb_eq in E1; subst; reflexivity|].
  destruct (c =? 92) eqn:E2; [apply Z.eqb_eq in E2; subst; reflexivity|].
  destruct (c =? 8) eqn:E3; [apply Z.eqb_eq in E3; subst; reflexivity|].
  destruct (c =? 12) eqn:E4; [apply Z.eqb_eq in E4; subst; reflexivity|].
  destruct (c =? 10) eqn:E5; [apply Z.eqb_eq in E5; subst; reflexivity|].
  destruct (c =? 13) eqn:E6; [apply Z.eqb_eq in E6; subst; reflexivity|].
  destruct (c =? 9) eqn:E7; [apply Z.eqb_eq in E7; subst; reflexivity|].
  destruct (c <? 32) eqn:E8.
  - assert (Hz : exists n, (n < 32)%nat /\ c = Z.of_nat n) by (exists (Z.to_nat c); lia).
    destruct Hz as (n & Hn & ->). do 32 (destruct n as [|n]; [reflexivity || lia|]). lia.
  - cbn [app string_loop]. rewrite E1, E8, E2. reflexivity.
Qed.

Lemma string_loop_print total s output rest :
  cstr_ok s ->
  string_loop total (concat (map escape_char s) ++ 34 :: rest) output = Done (output ++ s, rest).
Proof.
  intros Hs. revert output. induction Hs as [|c s Hc _ IH]; intros output; cbn [map concat app].
  - cbn. rewrite app_nil_r. reflexivity.
  - rewrite <- app_assoc, string_loop_escape, IH by assumption. rewrite <- app_assoc. reflexivity.
Qed.

Lemma parse_string_print total s rest :
  cstr_ok s -> ch_json_parse_string_raw total (print_string s ++ rest) = Done (s, rest).
Proof.
  intros Hs. unfold print_string. cbn [app ch_json_parse_string_raw Z.eqb Pos.eqb].
  rewrite <- app_assoc. cbn [app]. apply string_loop_print. assumption.
Qed.

(** The text after a value: it does not continue a number. *)
Definition delimited (rest : bytes) : Prop :=
  match rest with [] => True | c :: _ => c = 44 \/ c = 93 \/ c = 125 end.

Lemma skip_digits_all d rest :
  digits_ok d -> starts_digit rest = false -> skip_digits (d ++ rest) = rest.
Proof.
  intros Hd Hr. induction Hd as [|c d Hc _ IH]; cbn [app].
  - destruct rest as [|c rest]; cbn in *; [reflexivity|]. rewrite Hr. reflexivity.
  - cbn [skip_digits]. rewrite Hc. assumption.
Qed.

Lemma delimited_stops rest :
  delimited rest -> starts_digit rest = false /\ scan_fraction rest = inl (true, rest).
Proof.
  destruct rest as [|c rest]; [split; reflexivity|].
  intros [-> | [-> | ->]]; split; reflexivity.
Qed.

Lemma scan_number_digits n rest r :
  starts_digit rest = false -> scan_fraction rest = r -> scan_number (dec n ++ rest) = r.
Proof.
  intros Hd Hf.
  assert (Hpos : forall z, 0 <= z ->
    match dec_nonneg z ++ rest with
    | [] => inr (dec_nonneg z ++ rest)
    | c :: r =>
        if c =? 48 then scan_fraction r
        else if (49 <=? c) && (c <=? 57) then scan_fraction (skip_digits (dec_nonneg z ++ rest))
        else inr (dec_nonneg z ++ rest)
    end = r).
  { intros z Hz. destruct (dec_nonneg_spec z Hz) as (Hok & _ & c & d & E & Hc & Hzero).
    rewrite skip_digits_all by assumption. rewrite E in *. inversion_clear Hok as [|? ? Hcd _].
    unfold isdigit in Hcd. cbn [app]. destruct (c =? 48) eqn:E48.
    - assert (z = 0) by lia. rewrite Hzero by assumption. exact Hf.
    - replace ((49 <=? c) && (c <=? 57)) with true by lia. exact Hf. }
  unfold scan_number, dec. destruct (n <? 0) eqn:En.
  - cbn [app is_char Z.eqb Pos.eqb tail]. apply Hpos. lia.
  - destruct (dec_nonneg_spec n ltac:(lia)) as (Hok & _ & c & d & E & _).
    assert (Hm : is_char 45 (dec_nonneg n ++ rest) = false).
    { rewrite E in *. inversion_clear Hok as [|? ? Hcd _]. unfold isdigit in Hcd. cbn. lia. }
    rewrite Hm. apply Hpos. lia.
Qed.

Lemma scan_number_dec n rest : delimited rest -> scan_number (dec n ++ rest) = inl (true, rest).
Proof. intros Hr. destruct (delimited_stops rest Hr). apply scan_number_digits; assumption. Qed.

(** Values whose printed text determines them: C strings, and integers that
    carry the [double] that the parser computes. *)
Fixpoint exact (v : ch_json_value) : Prop :=
  match v with
  | CH_JSON_NUMBER n =>
      number_is_integer n = true /\ INT64_MIN <= number_integer n <= INT64_MAX /\
      number_value n = double_of_int64 (number_integer n)
  | CH_JSON_STRING s => cstr_ok s
  | CH_JSON_ARRAY items => foldr and True (map exact items)
  | CH_JSON_OBJECT members => foldr and True (map (fun m => cstr_ok (fst m) /\ exact (snd m)) members)
  | _ => True
  end.

(** The first character of a printed value. *)
Lemma dec_head n : exists c d, dec n = c :: d /\ (c = 45 \/ 48 <= c <= 57).
Proof.
  unfold dec. destruct (n <? 0) eqn:E; [eauto|].
  destruct (dec_nonneg_spec n ltac:(lia)) as (Hok & _ & c & d & E' & _). rewrite E' in *.
  inversion_clear Hok as [|? ? Hc _]. unfold isdigit in Hc. exists c, d. split; [reflexivity|lia].
Qed.

Lemma is_prefix_head p c s : hd 0 p <> c -> p <> [] -> is_prefix p (c :: s) = false.
Proof. destruct p as [|x p]; cbn; [contradiction|]. intros Hx _. rewrite (proj2 (Z.eqb_neq x c)); auto. Qed.

Lemma height_pos v : 1 <= height v.
Proof.
  destruct v; cbn [height]; try lia; [pose proof (max_nonneg height items)
    |pose proof (max_nonneg (fun m => height (snd m)) members)]; lia.
Qed.

(** [t] is a text of the value [v], wherever it stands: the parser takes it and
    nothing more. *)
Record reads_as (t : bytes) (v : ch_json_value) : Prop := {
  reads_head : exists c d, t = c :: d /\ isspace c = false /\ c <> 93;
  reads_value total fuel depth rest :
    (2 * length t < fuel)%nat -> depth + height v <= 64 -> delimited rest ->
    ch_json_parse_value total fuel depth (t ++ rest) = Done (v, rest)
}.

Lemma reads_skip t v rest : reads_as t v -> skip_space (t ++ rest) = t ++ rest.
Proof. intros [(c & d & -> & Hs & _) _]. apply skip_space_head, Hs. Qed.

Lemma join_skip t ts v rest : reads_as t v -> skip_space (join (t :: ts) ++ rest) = join (t :: ts) ++ rest.
Proof. intros Ht. rewrite join_split, <- app_assoc. apply (reads_skip t v), Ht. Qed.

(** The items of an array, from a value on. *)
Lemma read_items total depth rest t v ts vs fuel acc :
  Forall2 reads_as (t :: ts) (v :: vs) ->
  (2 * length (join (t :: ts)) + 1 < fuel)%nat ->
  depth + foldr Z.max 0 (map height (v :: vs)) <= 64 ->
  parse_items total fuel depth (join (t :: ts) ++ 93 :: rest) acc = Done (acc ++ v :: vs, rest).
Proof.
  revert t v vs fuel acc. induction ts as [|u ts IH]; intros t v vs fuel acc Hall Hf Hd;
    inversion_clear Hall as [|? ? ? ? Hv Hl]; destruct fuel as [|fuel]; try lia; cbn [parse_items]; unfold array_item.
  - inversion Hl; subst. cbn [join map foldr] in *. rewrite (reads_value _ _ Hv); [|lia|lia|right; left; reflexivity].
    cbn [mbind outcome_bind]. rewrite skip_space_head by reflexivity. reflexivity.
  - inversion Hl as [|? w ? vs' Hw Hl']; subst.
    change (join (t :: u :: ts)) with (t ++ [44] ++ join (u :: ts)) in *.
    cbn [map foldr] in Hd. rewrite !length_app in Hf. cbn [length] in Hf.
    rewrite <- !app_assoc. cbn [app]. rewrite (reads_value _ _ Hv); [|lia|lia|left; reflexivity].
    cbn [mbind outcome_bind]. rewrite skip_space_head by reflexivity. cbn [Z.eqb Pos.eqb].
    rewrite (join_skip u ts w) by exact Hw.
    rewrite (IH u w vs'); [rewrite <- app_assoc; reflexivity|constructor; auto|lia|cbn [map foldr] in *; lia].
Qed.

Definition print_member (m : bytes * ch_json_value) : bytes :=
  print_string (fst m) ++ [58] ++ print_value (snd m).

(** A member of an object: its key and the text of its value. *)
Definition key_text (m : bytes * bytes) : bytes := print_string (fst m) ++ [58] ++ snd m.

Definition reads_member (m : bytes * bytes) (v : bytes * ch_json_value) : Prop :=
  cstr_ok (fst m) /\ fst v = fst m /\ reads_as (snd m) (snd v).

Lemma member_skip m ms rest : skip_space (join (map key_text (m :: ms)) ++ rest) = join (map key_text (m :: ms)) ++ rest.
Proof.
  cbn [map]. rewrite join_split. unfold key_text, print_string. cbn [app]. apply skip_space_head. reflexivity.
Qed.

Lemma read_members total depth rest m v ms vs fuel acc :
  Forall2 reads_member (m :: ms) (v :: vs) ->
  (2 * length (join (map key_text (m :: ms))) + 1 < fuel)%nat ->
  depth + foldr Z.max 0 (map (fun m => height (snd m)) (v :: vs)) <= 64 ->
  parse_members total fuel depth (join (map key_text (m :: ms)) ++ 125 :: rest) acc = Done (acc ++ v :: vs, rest).
Proof.
  revert m v vs fuel acc. induction ms as [|w ms IH]; intros [k t] [k' v] vs fuel acc Hall Hf Hd;
    inversion_clear Hall as [|? ? ? ? (Hk & Ek & Hv) Hl]; cbn [fst snd] in *; subst k'; destruct fuel as [|fuel]; try lia;
    cbn [parse_members]; unfold object_member.
  - inversion Hl; subst. cbn [map join foldr snd] in *. unfold key_text in *. cbn [fst snd] in *.
    rewrite !length_app in Hf. cbn [length] in Hf. rewrite <- !app_assoc, parse_string_print by assumption.
    cbn [mbind outcome_bind app]. rewrite skip_space_head by reflexivity. cbn [Z.eqb Pos.eqb negb].
    rewrite (reads_value _ _ Hv); [|lia|lia|right; right; reflexivity].
    cbn [mbind outcome_bind]. rewrite skip_space_head by reflexivity. reflexivity.
  - inversion Hl as [|w1 w' ms1 vs' Hw Hl']; subst.
    change (join (map key_text ((k, t) :: w :: ms))) with (key_text (k, t) ++ [44] ++ join (map key_text (w :: ms))) in *.
    unfold key_text at 1. unfold key_text at 1 in Hf. cbn [fst snd] in *.
    cbn [map foldr snd] in Hd. rewrite !length_app in Hf. cbn [length] in Hf.
    rewrite <- !app_assoc, parse_string_print by assumption. cbn [mbind outcome_bind app].
    rewrite skip_space_head by reflexivity. cbn [Z.eqb Pos.eqb negb].
    rewrite (reads_value _ _ Hv); [|lia|lia|left; reflexivity].
    cbn [mbind outcome_bind]. rewrite skip_space_head by reflexivity. cbn [Z.eqb Pos.eqb].
    rewrite member_skip, (IH w w' vs'); [rewrite <- app_assoc; reflexivity|constructor; assumption|lia|cbn [map foldr] in *; lia].
Qed.

Lemma foldr_and_Forall {A} (P : A -> Prop) l : foldr and True (map P l) <-> Forall P l.
Proof.
  induction l as [|x l IH]; cbn [map foldr]; [split; [constructor|exact (fun _ => I)]|].
  rewrite IH. split; [intros [? ?]; constructor; assumption|intros Hl; inversion_clear Hl; auto].
Qed.

(** [t] is a number wherever it stands. *)
Definition number_token (t : bytes) (integer : bool) : Prop :=
  forall rest, delimited rest -> scan_number (t ++ rest) = inl (integer, rest).

(** The number that the parser makes of a token with the given [double]. *)
Definition number_of (t : bytes) (d : double) (integer : bool) : ch_number :=
  let parsed := strtol t in
  let is_exact := integer && negb (scan_range parsed) && scan_any parsed && beq (scan_rest parsed) [] in
  mk_number d (if is_exact then scan_value parsed else 0) is_exact.

Lemma read_number t d integer :
  number_token t integer -> strtod t = Some d -> reads_as t (CH_JSON_NUMBER (number_of t d integer)).
Proof.
  intros Hscan Hd. assert (Hhead : exists c r, t = c :: r /\ (c = 45 \/ 48 <= c <= 57)).
  { specialize (Hscan [] I). rewrite app_nil_r in Hscan. unfold scan_number in Hscan.
    destruct t as [|c r]; [discriminate|]. exists c, r. split; [reflexivity|]. cbn [is_char] in Hscan.
    destruct (c =? 45) eqn:E; [lia|]. destruct (c =? 48) eqn:E0; [lia|].
    destruct ((49 <=? c) && (c <=? 57)) eqn:E1; [lia|discriminate]. }
  destruct Hhead as (c & r & Et & Hc). constructor.
  { exists c, r. split; [exact Et|]. unfold isspace. split; lia. }
  intros total fuel depth rest Hf Hh Hr. destruct fuel as [|fuel]; [lia|]. cbn [ch_json_parse_value height] in *.
  assert (Hp : ch_json_parse_number total (t ++ rest) = Done (CH_JSON_NUMBER (number_of t d integer), rest)).
  { unfold ch_json_parse_number. rewrite Hscan by exact Hr. rewrite length_app.
    replace (length t + length rest - length rest)%nat with (length t) by lia. rewrite take_app_length, Hd. reflexivity. }
  rewrite Et in *. cbn [app] in *. rewrite skip_space_head by (unfold isspace; lia).
  replace (depth + 1 >? 64) with false by lia.
  replace (c =? 34) with false by lia. replace (c =? 91) with false by lia.
  replace (c =? 123) with false by lia.
  rewrite !is_prefix_head by (cbn; (discriminate || lia)).
  replace ((c =? 45) || isdigit c) with true by (unfold isdigit; lia). exact Hp.
Qed.

Lemma read_int n : INT64_MIN <= n <= INT64_MAX -> reads_as (dec n) (CH_JSON_NUMBER (mk_number (double_of_int64 n) n true)).
Proof.
  intros Hn. pose proof (read_number (dec n) (double_of_int64 n) true (scan_number_dec n) (strtod_int64 n Hn)) as Hr.
  unfold number_of in Hr. pose proof (strtol_dec n [] Hn eq_refl) as Hs. rewrite app_nil_r in Hs. rewrite Hs in Hr. exact Hr.
Qed.

Lemma read_string s : cstr_ok s -> reads_as (print_string s) (CH_JSON_STRING s).
Proof.
  intros Hs. constructor; [do 2 eexists; split; [reflexivity|]; split; [reflexivity|discriminate]|].
  intros total fuel depth rest Hf Hd Hr. destruct fuel as [|fuel]; [lia|]. cbn [ch_json_parse_value height] in *.
  replace (depth + 1 >? 64) with false by lia. change (skip_space (print_string s ++ rest)) with (print_string s ++ rest).
  rewrite parse_string_print by assumption. reflexivity.
Qed.

Lemma read_array ts vs : Forall2 reads_as ts vs -> reads_as ([91] ++ join ts ++ [93]) (CH_JSON_ARRAY vs).
Proof.
  intros Hall. constructor; [do 2 eexists; split; [reflexivity|]; split; [reflexivity|discriminate]|].
  intros total fuel depth rest Hf Hd Hr. destruct fuel as [|fuel]; [lia|]. cbn [ch_json_parse_value].
  cbn [height] in Hd. pose proof (max_nonneg height vs). replace (depth + 1 >? 64) with false by lia.
  rewrite <- !app_assoc. cbn [app]. rewrite skip_space_head by reflexivity. cbn [Z.eqb Pos.eqb].
  inversion Hall as [|t v ts' vs' Hv Hl]; subst; [reflexivity|]. rewrite (join_skip t ts' v) by exact Hv.
  assert (H93 : is_char 93 (join (t :: ts') ++ 93 :: rest) = false).
  { destruct (reads_head _ _ Hv) as (c & d & -> & _ & Hc). rewrite join_split. cbn. lia. }
  rewrite H93. rewrite !length_app in Hf. cbn [length] in Hf. rewrite (read_items _ _ _ t v ts' vs'); [reflexivity|assumption|lia|lia].
Qed.

(** An object ends with its brace, whatever follows. *)
Lemma read_object_before total fuel depth rest ms vs :
  Forall2 reads_member ms vs ->
  2 * lenZ ([123] ++ join (map key_text ms) ++ [125]) < Z.of_nat fuel -> depth + height (CH_JSON_OBJECT vs) <= 64 ->
  ch_json_parse_value total fuel depth (([123] ++ join (map key_text ms) ++ [125]) ++ rest) = Done (CH_JSON_OBJECT vs, rest).
Proof.
  intros Hall Hf Hd. unfold lenZ in Hf. destruct fuel as [|fuel]; [lia|]. cbn [ch_json_parse_value].
  cbn [height] in Hd. pose proof (max_nonneg (fun m => height (snd m)) vs).
  replace (depth + 1 >? 64) with false by lia.
  rewrite <- !app_assoc. cbn [app]. rewrite skip_space_head by reflexivity. cbn [Z.eqb Pos.eqb].
  inversion Hall as [|m v ms' vs' Hv Hl]; subst; [reflexivity|]. rewrite member_skip.
  assert (H125 : is_char 125 (join (map key_text (m :: ms')) ++ 125 :: rest) = false).
  { cbn [map]. rewrite join_split. reflexivity. }
  rewrite H125. rewrite !length_app in Hf. cbn [length] in Hf. rewrite (read_members _ _ _ m v ms' vs'); [reflexivity|assumption|lia|lia].
Qed.

Lemma read_object ms vs :
  Forall2 reads_member ms vs -> reads_as ([123] ++ join (map key_text ms) ++ [125]) (CH_JSON_OBJECT vs).
Proof.
  intros Hall. constructor; [do 2 eexists; split; [reflexivity|]; split; [reflexivity|discriminate]|].
  intros total fuel depth rest Hf Hd _. apply read_object_before; [assumption|unfold lenZ; lia|assumption].
Qed.

Lemma read_back v : exact v -> reads_as (print_value v) v.
Proof.
  induction v as [|b|n|s|items IH|members IH] using json_ind; intros Hx.
  - constructor; [do 2 eexists; split; [reflexivity|]; split; [reflexivity|discriminate]|].
    intros total fuel depth rest Hf Hd Hr. destruct fuel as [|fuel]; [lia|]. cbn [ch_json_parse_value height] in *.
    replace (depth + 1 >? 64) with false by lia. reflexivity.
  - constructor; [destruct b; (do 2 eexists; split; [reflexivity|]; split; [reflexivity|discriminate])|].
    intros total fuel depth rest Hf Hd Hr. destruct fuel as [|fuel]; [lia|]. cbn [ch_json_parse_value height] in *.
    replace (depth + 1 >? 64) with false by lia. destruct b; reflexivity.
  - destruct n as [value n flag]. cbn in Hx. destruct Hx as (-> & Hn & ->). apply read_int, Hn.
  - apply read_string, Hx.
  - cbn [exact] in Hx. apply foldr_and_Forall in Hx. apply read_array.
    induction items as [|v items IHi]; cbn [map]; [constructor|]. inversion_clear IH. inversion_clear Hx. constructor; auto.
  - cbn [exact] in Hx. apply foldr_and_Forall in Hx. cbn [print_value].
    replace (map (fun '(k, v) => print_string k ++ [58] ++ print_value v) members)
      with (map key_text (map (fun m => (fst m, print_value (snd m))) members))
      by (rewrite map_map; apply map_ext; intros [k v]; reflexivity).
    apply read_object. induction members as [|[k v] members IHm]; cbn [map]; [constructor|].
    inversion_clear IH. inversion_clear Hx as [|? ? [Hk Hv] Hms]. constructor; [split_and!; auto|auto].
Qed.

Lemma parse_returns json :
  bytes_ok json ->
  (exists e, ch_json_parse (Some json) = Raise e) \/
  (exists v, ch_json_parse (Some json) = Done v /\ height v <= 64 /\ strings_ok v).
Proof.
  intros Hok. unfold ch_json_parse.
  pose proof (proj1 (parse_results (lenZ json) (2 * length json + 2)%nat) 0 json Hok ltac:(lia)) as Hr.
  destruct (ch_json_parse_value _ _ 0 json) as [[v rest]|e|]; [|left; eauto|contradiction].
  destruct Hr as (_ & _ & Hh & Hs). cbn [mbind outcome_bind]. case_if; [right|left; eexists; reflexivity].
  exists v. split_and!; auto.
Qed.

(** The accessors give C strings out of a parsed value. *)
Lemma member_get_ok members key v :
  foldr and True (map (fun m => cstr_ok (fst m) /\ strings_ok (snd m)) members) ->
  member_get members key = Some v -> strings_ok v.
Proof.
  induction members as [|[k w] members IH]; cbn; [discriminate|]. intros [[_ Hw] Hm] E.
  destruct (beq k key); [congruence|auto].
Qed.

Lemma object_get_ok value key v :
  strings_ok value -> ch_json_object_get (Some value) (Some key) = Some v -> strings_ok v.
Proof. destruct value; cbn [ch_json_object_get]; try discriminate. apply member_get_ok. Qed.

Lemma array_get_ok value index v :
  strings_ok value -> ch_json_array_get (Some value) index = Some v -> strings_ok v.
Proof.
  destruct value as [| | | |items|]; cbn [ch_json_array_get]; try discriminate. revert index.
  induction items as [|w items IH]; intros [|index]; cbn; try discriminate; intros [Hw Hi] E; [congruence|eauto].
Qed.

Lemma string_value_ok value :
  match value with Some v => strings_ok v | None => True end ->
  cstr_ok (default [] (ch_json_string_value value)).
Proof. destruct value as [[]|]; cbn; auto; intros; constructor. Qed.

Lemma parse_text t v : reads_as t v -> height v <= 64 -> ch_json_parse (Some t) = Done v.
Proof.
  intros Ht Hh. unfold ch_json_parse.
  pose proof (reads_value t v Ht (lenZ t) (2 * length t + 2)%nat 0 [] ltac:(lia) ltac:(lia) I) as Hr.
  rewrite app_nil_r in Hr. rewrite Hr. reflexivity.
Qed.

(** A line with an object. *)
Lemma parse_object_line ms vs :
  Forall2 reads_member ms vs -> height (CH_JSON_OBJECT vs) <= 64 ->
  ch_json_parse (Some (([123] ++ join (map key_text ms) ++ [125]) ++ [10])) = Done (CH_JSON_OBJECT vs).
Proof.
  intros Hall Hh. unfold ch_json_parse. set (t := [123] ++ join (map key_text ms) ++ [125]).
  cbv zeta. pose proof (read_object_before (lenZ (t ++ [10])) (2 * length (t ++ [10]) + 2) 0 [10] ms vs Hall) as Hr. fold t in Hr.
  rewrite Hr; [reflexivity|unfold lenZ; rewrite length_app; lia|lia].
Qed.

Lemma parse_printed v :
  exact v -> height v <= 64 -> ch_json_parse (Some (print_value v)) = Done v.
Proof.
  intros Hx Hh. apply parse_text; [apply read_back, Hx|exact Hh].
Qed.

(** ** Facts: objects *)

Lemma member_replace_get members key v :
  match member_replace members key v with
  | Some ms =>
      member_get ms key = Some v /\ (forall k, k <> key -> member_get ms k = member_get members k) /\
      map fst ms = map fst members
  | None => key ∉ map fst members
  end.
Proof.
  induction members as [|[k w] members IH]; cbn [member_replace]; [apply not_elem_of_nil|].
  destruct (beq k key) eqn:E.
  - apply beq_true in E. subst. cbn [member_get map fst]. rewrite beq_refl. split_and!; auto.
    intros k' Hk. rewrite (proj2 (beq_false key k')) by congruence. reflexivity.
  - apply beq_false in E. destruct (member_replace members key v) as [r|].
    + destruct IH as (H1 & H2 & H3). cbn [member_get map fst].
      rewrite (proj2 (beq_false k key)) by congruence. split_and!; auto; [|congruence].
      intros k' Hk. destruct (beq k k'); auto.
    + cbn [map fst]. rewrite not_elem_of_cons. auto.
Qed.

Lemma member_get_snoc members key v k :
  key ∉ map fst members ->
  member_get (members ++ [(key, v)]) k = if beq key k then Some v else member_get members k.
Proof.
  induction members as [|[x w] members IH]; cbn [app member_get map fst]; [reflexivity|].
  rewrite not_elem_of_cons. intros [Hx Hn]. destruct (beq x k) eqn:E; [|auto].
  apply beq_true in E. subst. rewrite (proj2 (beq_false key k)) by congruence. reflexivity.
Qed.

Lemma member_get_None members key : key ∉ map fst members -> member_get members key = None.
Proof.
  induction members as [|[k v] members IH]; cbn [member_get map fst]; [reflexivity|].
  rewrite not_elem_of_cons. intros [Hk Hn]. rewrite (proj2 (beq_false k key)) by congruence. auto.
Qed.

Lemma member_remove_get members key :
  let '(ms, found) := member_remove members key in
  (forall k, k <> key -> member_get ms k = member_get members k) /\
  (NoDup (map fst members) -> NoDup (map fst ms) /\ key ∉ map fst ms) /\
  (forall k, k ∈ map fst ms -> k ∈ map fst members) /\
  (found = true <-> key ∈ map fst members).
Proof.
  induction members as [|[k v] members IH]; cbn [member_remove].
  { split_and!; auto; [|split; [discriminate|intros Hn; apply elem_of_nil in Hn as []]].
    intros Hn. split; [assumption|apply not_elem_of_nil]. }
  destruct (beq k key) eqn:E.
  - apply beq_true in E. subst. cbn [map fst member_get]. split_and!.
    + intros k' Hk. rewrite (proj2 (beq_false key k')) by congruence. reflexivity.
    + intros Hnd. apply list.NoDup_cons in Hnd as [? ?]. auto.
    + intros k' Hk. right. assumption.
    + split; [left|reflexivity].
  - apply beq_false in E. destruct (member_remove members key) as [r found].
    destruct IH as (H1 & H2 & H3 & H4). cbn [map fst member_get]. split_and!.
    + intros k' Hk. destruct (beq k k'); auto.
    + intros Hnd. apply list.NoDup_cons in Hnd as [Hk Hnd]. destruct (H2 Hnd) as [Hr Hkey].
      split; [|rewrite not_elem_of_cons; auto]. apply list.NoDup_cons. split; [|assumption]. auto.
    + intros k' Hk'. apply elem_of_cons in Hk' as [-> | Hk']; [left|right; auto].
    + rewrite H4, elem_of_cons. split; [auto|intros [?|?]; [congruence|assumption]].
Qed.

(** *** Properties *)

(** C4: Printing and parsing are inverse.  Whatever memory there is, the code's
    printer either reports failure, or what it appended to the buffer is a text
    from which the parser gives back exactly the value: for a value of nesting
    depth at most 64 whose strings are C strings and whose numbers are 64-bit
    integers.  The printer succeeds when the buffer can grow and the text fits
    [size_t]; the text does not depend on the buffer. *)
Theorem parse_print_round_trip v :
  exact v -> height v <= 64 ->
  exists text, ch_json_parse (Some text) = Done v /\
    forall grow b, buffer_ok b -> buffer_failed b = false ->
      let '(b', ok) := ch_json_append_value grow v b in
      (ok = true -> buffer_data b' = buffer_data b ++ text) /\
      (lenZ (buffer_data b) + lenZ text + 1 <= SIZE_MAX -> (forall n, grow n = true) -> ok = true).
Proof.
  intros Hx Hh. exists (print_value v). split; [apply parse_printed; assumption|]. intros grow b Hb Hf.
  pose proof (append_value_writes grow v b Hb) as Hw. destruct (ch_json_append_value grow v b) as [b' ok].
  destruct Hw as (_ & H2 & H3). split; [apply H2|auto].
Qed.

(** C38: The parser is total and bounded: on every byte string it returns (the
    fuel of the model is never exhausted), either an error or a value whose
    nesting depth is at most 64 and whose strings and keys contain no NUL, so
    that [strlen] and [strcmp] see all of them. *)
Theorem parse_total json :
  bytes_ok json ->
  (exists e, ch_json_parse (Some json) = Raise e) \/
  (exists v, ch_json_parse (Some json) = Done v /\ height v <= 64 /\ strings_ok v).
Proof. apply parse_returns. Qed.

(** The printer and its growing buffer agree with the reference text: it
    either reports failure, or the buffer holds the old text followed by the
    printed value; it never writes past the allocation; and it succeeds when
    memory is available and the total length fits [size_t]. *)
Theorem append_value_prints grow v b :
  buffer_ok b -> buffer_failed b = false ->
  let '(b', ok) := ch_json_append_value grow v b in
  buffer_ok b' /\
  (ok = true -> buffer_data b' = buffer_data b ++ print_value v) /\
  (lenZ (buffer_data b) + lenZ (print_value v) + 1 <= SIZE_MAX ->
   (forall n, grow n = true) -> ok = true).
Proof.
  intros Hb Hf. pose proof (append_value_writes grow v b Hb) as Hw.
  destruct (ch_json_append_value grow v b) as [b' ok]. destruct Hw as (H1 & H2 & H3).
  split_and!; auto. intros Hok. apply (H2 Hok).
Qed.

(** Setting a member of an object is a map update: the key then reads the
    new value, every other key is unchanged, the order of existing keys is
    kept, and no key is duplicated if none was. *)
Theorem object_set_get members key v :
  key <> [] ->
  exists ms,
    ch_json_object_set (Some (CH_JSON_OBJECT members)) (Some key) (Some v)
    = Done (CH_JSON_OBJECT ms) /\
    (forall k, ch_json_object_get (Some (CH_JSON_OBJECT ms)) (Some k)
               = if beq key k then Some v
                 else ch_json_object_get (Some (CH_JSON_OBJECT members)) (Some k)) /\
    (exists l, map fst ms = map fst members ++ l) /\
    (NoDup (map fst members) -> NoDup (map fst ms)).
Proof.
  intros Hk. cbn [ch_json_object_set ch_json_object_get].
  rewrite (proj2 (beq_false key [])) by assumption. eexists. split; [reflexivity|].
  pose proof (member_replace_get members key v) as Hr.
  destruct (member_replace members key v) as [ms|].
  - destruct Hr as (H1 & H2 & H3). split_and!.
    + intros k. destruct (beq key k) eqn:E; [apply beq_true in E; congruence|].
      apply H2. apply beq_false in E. congruence.
    + exists []. rewrite app_nil_r. assumption.
    + rewrite H3. auto.
  - split_and!.
    + intros k. apply member_get_snoc. assumption.
    + exists [key]. rewrite map_app. reflexivity.
    + intros Hnd. rewrite map_app. apply list.NoDup_app. split_and!; [assumption| |apply NoDup_singleton].
      intros x Hx Hx'. apply list_elem_of_singleton in Hx'. cbn in Hx'. congruence.
Qed.

(** Removing a member of an object without duplicate keys deletes exactly
    that key, and the call reports whether it was there. *)
Theorem object_remove_get members key :
  NoDup (map fst members) ->
  exists ms found,
    ch_json_object_remove (Some (CH_JSON_OBJECT members)) (Some key)
    = (Some (CH_JSON_OBJECT ms), found) /\
    (found = true <-> key ∈ map fst members) /\ NoDup (map fst ms) /\
    (forall k, ch_json_object_get (Some (CH_JSON_OBJECT ms)) (Some k)
               = if beq key k then None
                 else ch_json_object_get (Some (CH_JSON_OBJECT members)) (Some k)).
Proof.
  intros Hnd. cbn [ch_json_object_remove ch_json_object_get].
  pose proof (member_remove_get members key) as Hr.
  destruct (member_remove members key) as [ms found]. destruct Hr as (H1 & H2 & _ & H4).
  destruct (H2 Hnd) as [Hms Hkey]. exists ms, found. split_and!; auto.
  intros k. destruct (beq key k) eqn:E.
  - apply beq_true in E. subst. apply member_get_None. assumption.
  - apply beq_false in E. apply H1. congruence.
Qed.

(** A [\u0000] escape disappears from the parsed string. *)
Lemma nul_escape_vanishes :
  ch_json_parse (Some ([34; 97] ++ str "\u0000" ++ [98; 34])) = Done (CH_JSON_STRING (str "ab")).
Proof. reflexivity. Qed.

End Doubles.

(** ** An instance of [Double], and witnesses

    Integral doubles, represented by the integer. *)

#[export, refine] Instance plain_double : Double := {|
  double := Z;
  strtod := fun t =>
    let s := strtol t in
    if scan_any s && (beq (scan_rest s) [] || beq (scan_rest s) (str ".000")) && negb (scan_range s)
    then Some (scan_value s) else None;
  double_of_int64 := fun n => n;
  format_17g := dec;
  isfinite := fun n => (INT64_MIN <=? n) && (n <=? INT64_MAX)
|}.
Proof.
  intros n Hn. pose proof (strtol_dec n [] Hn eq_refl) as Hs. rewrite app_nil_r in Hs. rewrite Hs. reflexivity.
Defined.

Definition w_value : ch_json_value :=
  CH_JSON_OBJECT
    [(str "a", CH_JSON_ARRAY [ch_json_value_new_int64 (-12); CH_JSON_NULL; CH_JSON_BOOL true]);
     ([31; 34; 200], CH_JSON_STRING [10; 92; 65])].

Lemma parse_print_round_trip_witness :
  exists b, ch_json_append_value (fun _ => true) w_value ch_json_init = (b, true) /\ ch_json_parse (Some (buffer_data b)) = Done w_value.
Proof.
  destruct (parse_print_round_trip w_value) as (text & Hp & Ha); [| vm_compute; discriminate |].
  { cbv [exact w_value foldr map fst snd]. repeat split; try exact I;
      try (vm_compute; discriminate); repeat constructor; unfold cchar_ok; lia. }
  specialize (Ha (fun _ => true) ch_json_init ltac:(split; [vm_compute; split; discriminate|left; split; reflexivity]) eq_refl).
  destruct (ch_json_append_value (fun _ => true) w_value ch_json_init) as [b ok] eqn:E. exists b.
  assert (Hok : ok = true) by (apply (f_equal snd) in E; rewrite <- (E : _ = ok); vm_compute; reflexivity).
  destruct Ha as [Ht _]. split; [congruence|]. rewrite (Ht Hok). exact Hp.
Defined.

Lemma parse_total_witness :
  (exists e, ch_json_parse (Some (str "[1, {}]x")) = Raise e) \/
  (exists v, ch_json_parse (Some (str "[1, {}]x")) = Done v /\ height v <= 64 /\ strings_ok v).
Proof. apply (parse_total (str "[1, {}]x")). bytes_ok_tac. Defined.

End Json.
