(* ===== verification/JsonText.v ===== *)
(** * Writing JSON reports

    The runtime writes its reports with chains of appends to a buffer,
    [ch_json_append(...) && ch_json_append_string(...) && ...].  Here are such
    chains as lists of operations, and the lemmas that relate a chain to the
    text it writes and to the value that the text denotes. *)

From S2P Require Import Prelude CLib Json.

Module JsonText.
Import Json.

(** An [&&] chain of calls that append to a buffer. *)
Abbreviation json_op := (ch_json_buffer -> ch_json_buffer * bool).

Fixpoint all_of (ops : list json_op) : json_op :=
  match ops with
  | [] => fun buffer => (buffer, true)
  | op :: ops' =>
      fun buffer => let '(buffer, ok) := op buffer in if (ok : bool) then all_of ops' buffer else (buffer, false)
  end.

(** The literal [{"key":], [,"key":] and the like. *)
Definition quoted_key (key : String.string) : bytes := [34] ++ str key ++ [34; 58].

Section Append.
Context (grow : Z -> bool).

Definition append (text : bytes) : json_op := fun buffer => ch_json_append grow buffer text.
Definition append_text (text : bytes) : json_op :=
  fun buffer => ch_json_append_string grow buffer (Some text).

End Append.

(** [if (okay && condition) okay = ...] *)
Definition when_op (condition : bool) (op : json_op) : json_op :=
  if condition then op else fun buffer => (buffer, true).

Definition bool_text (b : bool) : bytes := if b then str "true" else str "false".

(** [okay ? ch_json_take(&json) : NULL], with the error of the caller. *)
Definition take_text (op : json_op) (message : bytes) : result bytes :=
  let '(buffer, okay) := op ch_json_init in
  match if (okay : bool) then fst (ch_json_take buffer) else None with
  | Some text => Done text
  | None => fail CH_ERROR_OUT_OF_MEMORY message
  end.

(** ** Facts *)

Lemma all_of_writes grow ops texts :
  Forall2 (writes grow) ops texts -> writes grow (all_of ops) (concat texts).
Proof. induction 1 as [|op t ops ts Hop _ IH]; [apply writes_nothing|exact (writes_seq grow _ _ _ _ Hop IH)]. Qed.

Lemma append_spec grow t : writes grow (append grow t) t.
Proof. apply append_writes. Qed.

Lemma append_text_spec grow s : writes grow (append_text grow s) (print_string s).
Proof. apply append_string_writes. Qed.

Lemma take_text_spec grow op t m :
  writes grow op t ->
  (take_text op m = Done t \/ exists e, take_text op m = Raise e) /\
  (lenZ t + 1 <= SIZE_MAX -> (forall n, grow n = true) -> take_text op m = Done t).
Proof.
  intros Hw. specialize (Hw ch_json_init). unfold take_text. destruct (op ch_json_init) as [b ok].
  destruct Hw as (_ & Ht & Hs); [split; [vm_compute; split; discriminate|left; split; reflexivity]|].
  cbn in Ht, Hs. change (lenZ (@nil Z)) with 0 in Hs. destruct ok.
  - destruct (Ht eq_refl) as [Hd Hf]. unfold ch_json_take. rewrite Hf by reflexivity. cbn. rewrite Hd. auto.
  - split; [right; eexists; reflexivity|]. intros H1 H2. specialize (Hs eq_refl ltac:(lia) H2). discriminate.
Qed.

Lemma all_of_text grow ops texts t :
  Forall2 (writes grow) ops texts -> concat texts = t -> writes grow (all_of ops) t.
Proof. intros Hw <-. apply all_of_writes, Hw. Qed.

(** Collect the pieces of a chain. *)
Ltac collect :=
  repeat first [apply Forall2_nil | apply Forall2_cons;
    [first [apply append_spec | apply append_text_spec | eassumption]|]].

(** Two texts with the same pieces: the literals are computed, the other pieces
    stay as they are. *)
Ltac literals :=
  repeat match goal with
  | |- context [print_string (str ?s)] =>
      let v := eval vm_compute in (print_string (str s)) in change (print_string (str s)) with v
  | |- context [quoted_key ?s] =>
      let v := eval vm_compute in (quoted_key s) in change (quoted_key s) with v
  | |- context [str ?s] =>
      let v := eval vm_compute in (str s) in change (str s) with v
  end.

Ltac same_text :=
  literals; cbn [concat join map app]; repeat (rewrite <- app_assoc; cbn [app]); rewrite ?app_nil_r;
  reflexivity.

(** *** Chains that fail *)

Lemma all_of_fails ops : Exists (fun op : json_op => forall b, snd (op b) = false) ops ->
  forall b, snd (all_of ops b) = false.
Proof.
  induction 1 as [op ops Hop|op ops _ IH]; intros b; cbn [all_of].
  - specialize (Hop b). destruct (op b) as [b' ok]. cbn in Hop. subst ok. reflexivity.
  - destruct (op b) as [b' []]; [apply IH|reflexivity].
Qed.

Lemma append_list_fails {A} grow (item : A -> json_op) l :
  Exists (fun x => forall b, snd (item x b) = false) l ->
  forall first b, snd (append_list grow item first l b) = false.
Proof.
  induction 1 as [x l Hx|x l _ IH]; intros first b; cbn [append_list].
  - assert (E : forall b', exists b2, item x b' = (b2, false)).
    { intros b'. specialize (Hx b'). destruct (item x b') as [b2 ok]. cbn in Hx. subst. eauto. }
    destruct first; [|destruct (ch_json_append grow b [44]) as [b1 []]; [|reflexivity]].
    + destruct (E b) as [b2 ->]. reflexivity.
    + destruct (E b1) as [b2 ->]. reflexivity.
  - destruct first; [|destruct (ch_json_append grow b [44]) as [b1 []]; [|reflexivity]].
    + destruct (item x b) as [b2 []]; [apply IH|reflexivity].
    + destruct (item x b1) as [b2 []]; [apply IH|reflexivity].
Qed.

(** A list whose items are written one after the other. *)
Lemma list_writes {A B} grow (item : A -> json_op) (value : A -> option B) (text : B -> bytes) l :
  (forall x, match value x with
             | Some v => writes grow (item x) (text v)
             | None => forall b, snd (item x b) = false
             end) ->
  match mapM value l with
  | Some vs => writes grow (append_list grow item true l) (join (map text vs))
  | None => forall b, snd (append_list grow item true l b) = false
  end.
Proof.
  intros Hitem. destruct (mapM value l) as [vs|] eqn:E.
  - apply mapM_Some in E.
    set (f x := match value x with Some v => text v | None => [] end).
    assert (Hm : map text vs = map f l).
    { induction E as [|x v l vs Hx Hl IH]; [reflexivity|]. cbn [map]. unfold f at 1. rewrite Hx, IH. reflexivity. }
    rewrite Hm. apply (append_list_writes grow item f l).
    apply Forall_forall. intros x Hin. specialize (Hitem x). unfold f.
    destruct (value x) as [v|] eqn:Ev; [exact Hitem|]. exfalso. apply list_elem_of_In in Hin.
    clear - E Hin Ev. induction E as [|y v l vs Hy Hl IH]; [apply elem_of_nil in Hin as []|].
    apply elem_of_cons in Hin as [-> |Hin]; [congruence|auto].
  - intros b. apply append_list_fails. apply mapM_None_1 in E.
    eapply list.Exists_impl; [exact E|]. cbn. intros x Hx. specialize (Hitem x). rewrite Hx in Hitem. exact Hitem.
Qed.

Section Values.
Context `{Double}.

Definition text_value (s : bytes) : ch_json_value := CH_JSON_STRING s.
Definition int_value (n : Z) : ch_json_value := CH_JSON_NUMBER (mk_number (double_of_int64 n) n true).

(** A string literal of the source is a C string. *)
Lemma literal_ok s : forallb (fun c => (0 <? c) && (c <? 256)) s = true -> cstr_ok s.
Proof.
  intros Hs. apply Forall_forall. intros c Hc. rewrite forallb_forall in Hs. apply Hs in Hc.
  unfold cchar_ok. lia.
Qed.

(** The members of an object, the later ones after a comma. *)
Definition member_text (m : bytes * ch_json_value) : bytes := print_string (fst m) ++ [58] ++ print_value (snd m).

Definition rest_text (ms : list (bytes * ch_json_value)) : bytes :=
  concat (map (fun m => [44] ++ member_text m) ms).

Lemma rest_text_app ms ms' : rest_text (ms ++ ms') = rest_text ms ++ rest_text ms'.
Proof. unfold rest_text. rewrite List.map_app, concat_app. reflexivity. Qed.

Lemma rest_text_cons m ms : rest_text (m :: ms) = [44] ++ member_text m ++ rest_text ms.
Proof. unfold rest_text. cbn [map concat]. rewrite <- app_assoc. reflexivity. Qed.

Lemma rest_text_if (b : bool) m : rest_text (if b then [m] else []) = if b then [44] ++ member_text m else [].
Proof. destruct b; [rewrite rest_text_cons; cbn; rewrite app_nil_r|]; reflexivity. Qed.

Lemma join_concat x l : join (x :: l) = x ++ concat (map (app [44]) l).
Proof.
  revert x. induction l as [|y l IH]; intros x; [symmetry; apply app_nil_r|].
  change (join (x :: y :: l)) with (x ++ [44] ++ join (y :: l)). rewrite IH. reflexivity.
Qed.

Lemma object_members m ms :
  print_value (CH_JSON_OBJECT (m :: ms)) = [123] ++ member_text m ++ rest_text ms ++ [125].
Proof.
  change (print_value (CH_JSON_OBJECT (m :: ms)))
    with ([123] ++ join (map (fun '(k, v) => print_string k ++ [58] ++ print_value v) (m :: ms)) ++ [125]).
  cbn [map]. rewrite join_concat, List.map_map, <- app_assoc. destruct m as [k v]. f_equal. f_equal. f_equal.
  unfold rest_text. f_equal. apply List.map_ext. intros [k' v']. reflexivity.
Qed.

Lemma when_writes grow b op t : writes grow op t -> writes grow (when_op b op) (if b then t else []).
Proof. intros Hw. destruct b; [exact Hw|apply writes_nothing]. Qed.



(** A list of chains, with commas between them. *)
Lemma append_each_writes grow (ops : list json_op) texts :
  Forall2 (writes grow) ops texts ->
  writes grow (append_list grow (fun op : json_op => op) true ops) (join texts) /\
  writes grow (append_list grow (fun op : json_op => op) false ops) (concat (map (app [44]) texts)).
Proof.
  induction 1 as [|op t ops ts Hop _ [_ IH]]; [split; apply writes_nothing|].
  split.
  - rewrite join_concat. apply (writes_seq grow _ _ _ _ Hop IH).
  - cbn [map concat]. rewrite <- app_assoc.
    apply (writes_seq grow _ _ _ _ (append_writes grow [44]) (writes_seq grow _ _ _ _ Hop IH)).
Qed.
(** ** Objects with numbers that are not integers

    A member with the text that is written and the value that is read. *)
Record field : Type := mk_field { field_key : bytes; field_text : bytes; field_value : ch_json_value }.

Definition field_ok (f : field) : Prop := cstr_ok (field_key f) /\ reads_as (field_text f) (field_value f).

Definition object_text (fs : list field) : bytes :=
  [123] ++ join (map (fun f => key_text (field_key f, field_text f)) fs) ++ [125].

Definition object_value (fs : list field) : ch_json_value :=
  CH_JSON_OBJECT (map (fun f => (field_key f, field_value f)) fs).

Lemma fields_members fs : Forall field_ok fs ->
  Forall2 reads_member (map (fun f => (field_key f, field_text f)) fs) (map (fun f => (field_key f, field_value f)) fs).
Proof. induction 1 as [|f fs [Hk Hv] _ IH]; cbn [map]; constructor; [split_and!; auto|exact IH]. Qed.

Lemma fields_keys fs :
  map (fun f => key_text (field_key f, field_text f)) fs = map key_text (map (fun f => (field_key f, field_text f)) fs).
Proof. rewrite List.map_map. reflexivity. Qed.

Lemma reads_fields fs : Forall field_ok fs -> reads_as (object_text fs) (object_value fs).
Proof. intros Hall. unfold object_text. rewrite fields_keys. apply read_object, fields_members, Hall. Qed.

Lemma parse_fields_line fs :
  Forall field_ok fs -> height (object_value fs) <= 64 -> ch_json_parse (Some (object_text fs ++ [10])) = Done (object_value fs).
Proof. intros Hall Hh. unfold object_text. rewrite fields_keys. apply parse_object_line; [apply fields_members, Hall|exact Hh]. Qed.

(** The height of an object is one more than that of its tallest member. *)
Lemma fields_height fs n : 0 <= n -> Forall (fun f => height (field_value f) <= n) fs -> height (object_value fs) <= n + 1.
Proof.
  intros Hn Hall. unfold object_value. cbn [height]. rewrite List.map_map. cbn [snd].
  induction Hall as [|f fs Hf _ IH]; cbn [map foldr]; lia.
Qed.

Lemma field_get fs key :
  ch_json_object_get (Some (object_value fs)) (Some key) = field_value <$> List.find (fun f => beq (field_key f) key) fs.
Proof.
  unfold object_value. cbn [ch_json_object_get]. induction fs as [|f fs IH]; [reflexivity|]. cbn [map member_get List.find].
  destruct (beq (field_key f) key); [reflexivity|exact IH].
Qed.

Definition text_field (key : String.string) (s : bytes) : field := mk_field (str key) (print_string s) (text_value s).
Definition int_field (key : String.string) (n : Z) : field := mk_field (str key) (dec n) (int_value n).
Definition bool_field (key : String.string) (b : bool) : field := mk_field (str key) (bool_text b) (CH_JSON_BOOL b).

Lemma text_field_ok key s : cstr_ok (str key) -> cstr_ok s -> field_ok (text_field key s).
Proof. intros Hk Hs. split; [exact Hk|apply read_string, Hs]. Qed.

Lemma int_field_ok key n : cstr_ok (str key) -> INT64_MIN <= n <= INT64_MAX -> field_ok (int_field key n).
Proof. intros Hk Hn. split; [exact Hk|apply read_int, Hn]. Qed.

Lemma bool_field_ok key b : cstr_ok (str key) -> field_ok (bool_field key b).
Proof. intros Hk. split; [exact Hk|]. exact (read_back (CH_JSON_BOOL b) I). Qed.

(** The number of a text that is one. *)
Definition number_text (t : bytes) : ch_number :=
  match scan_number t, strtod t with
  | inl (integer, _), Some d => number_of t d integer
  | _, _ => mk_number (double_of_int64 0) 0 false
  end.

Lemma reads_number_text t integer d :
  number_token t integer -> strtod t = Some d ->
  reads_as t (CH_JSON_NUMBER (number_text t)) /\ number_value (number_text t) = d.
Proof.
  intros Ht Hd. pose proof (Ht [] I) as Hs. rewrite app_nil_r in Hs. unfold number_text. rewrite Hs, Hd.
  split; [apply read_number; assumption|reflexivity].
Qed.
End Values.

(** A literal key, and the elements of a list that is written out. *)
Ltac key_ok := apply literal_ok; reflexivity.
Ltac each := repeat apply List.Forall_cons; try apply List.Forall_nil.

End JsonText.
