(* ===== verification/Events.v ===== *)
(** * The event ring and its replay query: [native/src/events.c]

    A fixed-capacity ring of events with a running total, snapshots in
    chronological order, and the JSON replay query with its filters and
    pagination. *)

From Stdlib Require Import Sorting.Sorted.
From S2P Require Import Prelude CLib Json.

Module Events.
Import Json.

Record ch_event : Type := mk_event {
  sequence : Z;
  shard_id : Z;
  lamport : Z;
  timestamp_ns : Z;
  event_type : option bytes;
  data_json : option bytes
}.

(** The zeroed slot of [calloc]. *)
Definition no_event : ch_event := mk_event 0 0 0 0 None None.

Record ch_event_ring : Type := mk_ring {
  events : list ch_event;
  head : Z;
  size : Z;
  capacity : Z;
  total : Z
}.

Definition ch_event_copy (source : ch_event) : ch_event :=
  mk_event (sequence source) (shard_id source) (lamport source) (timestamp_ns source)
    (Some (default [] (event_type source))) (Some (default (str "null") (data_json source))).

(** [sizeof(ch_event)]: six 8-byte fields. *)
Definition event_bytes : Z := 48.

Definition ch_event_ring_create (capacity : Z) : result ch_event_ring :=
  if (capacity =? 0) || (capacity >? SIZE_MAX / event_bytes) then
    fail CH_ERROR_INVALID_ARGUMENT (str "event ring capacity must be greater than zero")
  else Done (mk_ring (replicate (Z.to_nat capacity) no_event) 0 0 capacity 0).

(** The two critical sections are the steps of the ring: [mutex] is held
    throughout each of them. *)
Definition ch_event_ring_append (ring : ch_event_ring) (event : ch_event) : ch_event_ring :=
  let copy := ch_event_copy event in
  let total := u64 (total ring + 1) in
  let copy := mk_event total (shard_id copy) (lamport copy) (timestamp_ns copy)
                (event_type copy) (data_json copy) in
  mk_ring (<[Z.to_nat (head ring) := copy]> (events ring))
    ((head ring + 1) mod capacity ring)
    (if size ring <? capacity ring then size ring + 1 else size ring)
    (capacity ring) total.

Definition event_at (l : list ch_event) (i : Z) : ch_event := default no_event (l !! Z.to_nat i).

Definition oldest_index (ring : ch_event_ring) : Z :=
  (head ring + capacity ring - size ring) mod capacity ring.

(** The retained events in chronological order: the loops of [since] and
    [snapshot] visit these. *)
Definition retained (ring : ch_event_ring) : list ch_event :=
  map (fun offset => event_at (events ring) ((oldest_index ring + Z.of_nat offset) mod capacity ring))
    (seq 0 (Z.to_nat (size ring))).

(** The replayed events and whether nothing older was lost. *)
Definition ch_event_ring_since (ring : ch_event_ring) (since : Z) : list ch_event * bool :=
  if size ring =? 0 then ([], true)
  else
    let oldest := lamport (event_at (events ring) (oldest_index ring)) in
    let complete := (since =? UINT64_MAX) || (oldest <=? u64 (since + 1)) in
    (map ch_event_copy (filter (fun e => lamport e > since) (retained ring)), complete).

Definition ch_event_ring_snapshot (ring : ch_event_ring) : list ch_event :=
  if size ring =? 0 then [] else map ch_event_copy (retained ring).

Definition ch_event_ring_oldest_lamport (ring : option ch_event_ring) : Z :=
  match ring with
  | None => 0
  | Some ring => if size ring >? 0 then lamport (event_at (events ring) (oldest_index ring)) else 0
  end.

Definition ch_event_ring_length (ring : option ch_event_ring) : Z :=
  match ring with None => 0 | Some ring => size ring end.

Definition ch_event_ring_total (ring : option ch_event_ring) : Z :=
  match ring with None => 0 | Some ring => total ring end.

Section Doubles.
Context `{Double}.

(** ** Filters *)

(** The items of a JSON array, or none. *)
Definition array_items (value : option ch_json_value) : list ch_json_value :=
  match value with Some (CH_JSON_ARRAY items) => items | _ => [] end.

Definition pattern_matches (event_type pattern : bytes) : bool :=
  let length := lenZ pattern in
  if (length >? 0) && (byte_at pattern (length - 1) =? 42)
  then is_prefix (sub pattern 0 (length - 1)) event_type
  else beq event_type pattern.

Fixpoint type_loop (patterns : list ch_json_value) (event_type : bytes) : bool :=
  match patterns with
  | [] => false
  | p :: patterns' =>
      match ch_json_string_value (Some p) with
      | None => false
      | Some pattern => if pattern_matches event_type pattern then true else type_loop patterns' event_type
      end
  end.

Definition event_type_matches (types : option ch_json_value) (event_type : bytes) : bool :=
  match array_items types with [] => true | items => type_loop items event_type end.

Definition event_connection_matches (conn_ids : option ch_json_value) (data_json : option bytes)
    : bool :=
  match array_items conn_ids with
  | [] => true
  | items =>
      let data := match ch_json_parse (Some (default (str "{}") data_json)) with
                  | Done v => Some v
                  | _ => None
                  end in
      match ch_json_string_value (ch_json_object_get data (Some (str "conn_id"))) with
      | None => false
      | Some conn_id =>
          existsb (fun candidate =>
            match ch_json_string_value (Some candidate) with
            | Some c => beq c conn_id
            | None => false
            end) items
      end
  end.

(** Shard and Lamport value of a well-formed cursor. *)
Definition cursor_fields (cursor : ch_json_value) : option (Z * Z) :=
  shard ← ch_json_int64_value (ch_json_object_get (Some cursor) (Some (str "shard_id")));
  lamport ← ch_json_int64_value (ch_json_object_get (Some cursor) (Some (str "lamport")));
  if (shard <? 0) || (lamport <? 0) then None else Some (shard, lamport).

Fixpoint event_cursor (cursors : list ch_json_value) (shard_id : Z) : option Z :=
  match cursors with
  | [] => None
  | cursor :: cursors' =>
      match cursor_fields cursor with
      | Some (shard, lamport) =>
          if shard =? shard_id then Some lamport else event_cursor cursors' shard_id
      | None => event_cursor cursors' shard_id
      end
  end.

(** ** The query *)

Record query : Type := mk_query {
  q_types : option ch_json_value;
  q_conn_ids : option ch_json_value;
  q_cursors : list ch_json_value;
  q_after : option Z;
  q_limit : Z
}.

Definition not_array (value : option ch_json_value) : bool :=
  match value with None | Some (CH_JSON_ARRAY _) => false | Some _ => true end.

(** The checks at the start of [ch_event_ring_query_json]. *)
Definition parse_query (request_json : option bytes) : result query :=
  let invalid m := fail CH_ERROR_INVALID_ARGUMENT (str m) in
  let document := match request_json with None | Some [] => str "{}" | Some d => d end in
  request ← ch_json_parse (Some document);
  let get key := ch_json_object_get (Some request) (Some (str key)) in
  match ch_json_value_type (Some request) with
  | TYPE_OBJECT =>
      let types := get "types"%string in
      let conn_ids := get "conn_ids"%string in
      let cursors := get "since"%string in
      if not_array types || not_array conn_ids || not_array cursors then
        invalid "event filters must be arrays"%string
      else
        let after_value := get "after_sequence"%string in
        let after := match ch_json_int64_value after_value with
                     | Some n => if n >=? 0 then Some n else None
                     | None => None
                     end in
        match after_value, after with
        | Some _, None => invalid "after_sequence must be a non-negative integer"%string
        | _, _ =>
            let limit := match get "limit"%string with
                         | None => Some 256
                         | Some v =>
                             match ch_json_int64_value (Some v) with
                             | Some n => if (n <=? 0) || (n >? 4096) then None else Some n
                             | None => None
                             end
                         end in
            match limit with
            | None => invalid "event limit must be between 1 and 4096"%string
            | Some limit => Done (mk_query types conn_ids (array_items cursors) after limit)
            end
        end
  | _ => invalid "event request must be a JSON object"%string
  end.

Definition eligible (q : query) (e : ch_event) : bool :=
  match q_after q with Some after => sequence e >? after | None => false end
  || match event_cursor (q_cursors q) (shard_id e) with
     | Some cursor => lamport e >? cursor
     | None => false
     end.

Definition matches (q : query) (e : ch_event) : bool :=
  event_type_matches (q_types q) (default [] (event_type e))
  && event_connection_matches (q_conn_ids q) (data_json e).

(** The loop over the snapshot: the emitted events, and the resume position
    when the limit cut the page short. *)
Fixpoint scan (q : query) (l : list ch_event) (emitted : list ch_event) (last_scanned : Z)
    : list ch_event * option Z :=
  match l with
  | [] => (emitted, None)
  | e :: l' =>
      let advance := match q_after q with Some _ => sequence e | None => last_scanned end in
      if negb (eligible q e) then scan q l' emitted last_scanned
      else if negb (matches q e) then scan q l' emitted advance
      else if lenZ emitted =? q_limit q then (emitted, Some last_scanned)
      else scan q l' (emitted ++ [e]) advance
  end.

(** Whether a cursor of the request may have missed events. *)
Definition cursor_complete (snapshot : list ch_event) (cursor : ch_json_value) : bool :=
  match cursor_fields cursor with
  | None => false
  | Some (shard, lamport_cursor) =>
      let oldest := foldl (fun oldest e =>
        if (shard_id e =? shard) && (lamport e <? oldest) then lamport e else oldest)
        UINT64_MAX snapshot in
      negb ((oldest =? UINT64_MAX) || ((oldest >? 0) && (oldest >? u64 (lamport_cursor + 1))))
  end.

Record response : Type := mk_response {
  r_events : list ch_event;
  r_complete : bool;
  r_next_sequence : Z
}.

(** [snapshot] and [total] are read by two separate critical sections. *)
Definition run_query (q : query) (snapshot : list ch_event) (total : Z) : response :=
  let after := default 0 (q_after q) in
  let complete :=
    match q_after q, snapshot with
    | Some after, e :: _ => negb (sequence e >? u64 (after + 1))
    | _, _ => true
    end in
  let complete := complete && forallb (cursor_complete snapshot) (q_cursors q) in
  match scan q snapshot [] after with
  | (emitted, None) => mk_response emitted complete total
  | (emitted, Some last_scanned) => mk_response emitted false last_scanned
  end.

(** The text of the response ([ch_json_append] is assumed to find memory). *)
Definition quoted_key (k : String.string) : bytes := [34] ++ str k ++ [34; 58].

Definition event_json (e : ch_event) : bytes :=
  [123] ++ quoted_key "sequence" ++ dec (sequence e)
  ++ [44] ++ quoted_key "shard_id" ++ dec (shard_id e)
  ++ [44] ++ quoted_key "lamport" ++ dec (lamport e)
  ++ [44] ++ quoted_key "ts_ns" ++ dec (timestamp_ns e)
  ++ [44] ++ quoted_key "type" ++ print_string (default [] (event_type e))
  ++ [44] ++ quoted_key "data" ++ default [] (data_json e) ++ [125].

Definition response_json (r : response) : bytes :=
  [123] ++ quoted_key "events" ++ [91] ++ join (map event_json (r_events r)) ++ [93]
  ++ [44] ++ quoted_key "complete" ++ (if r_complete r then str "true" else str "false")
  ++ [44] ++ quoted_key "next_sequence" ++ dec (r_next_sequence r) ++ [125].

(** [ring] is the ring when the snapshot is taken, [ring'] when the total is
    read; other threads may append in between. *)
Definition ch_event_ring_query_json (ring ring' : ch_event_ring) (request_json : option bytes)
    : result bytes :=
  q ← parse_query request_json;
  Done (response_json (run_query q (ch_event_ring_snapshot ring) (ch_event_ring_total (Some ring')))).

(** ** Facts: the ring *)

Record ring_ok (r : ch_event_ring) : Prop := mk_ring_ok {
  ok_capacity : 0 < capacity r;
  ok_length : lenZ (events r) = capacity r;
  ok_head : 0 <= head r < capacity r;
  ok_size : 0 <= size r <= capacity r
}.

(** The slot of the [k]-th oldest event. *)
Lemma slot_spec r k :
  0 < capacity r ->
  (oldest_index r + k) mod capacity r = (head r - size r + k) mod capacity r.
Proof.
  intros Hc. unfold oldest_index. rewrite Z.add_mod_idemp_l by lia.
  replace (head r + capacity r - size r + k) with (head r - size r + k + 1 * capacity r) by lia.
  apply Z.mod_add. lia.
Qed.

Lemma retained_spec r :
  0 < capacity r ->
  retained r = map (fun k => event_at (events r) ((head r - size r + Z.of_nat k) mod capacity r))
                 (seq 0 (Z.to_nat (size r))).
Proof. intros Hc. apply map_ext. intros k. rewrite slot_spec by assumption. reflexivity. Qed.

(** A slot other than the head. *)
Lemma slot_not_head h c d : 0 <= h < c -> 0 < d < c -> (h - d) mod c <> h.
Proof.
  intros Hh Hd. destruct (decide (d <= h)).
  - rewrite Z.mod_small by lia. lia.
  - replace (h - d) with (h - d + c + (-1) * c) by lia. rewrite Z.mod_add, Z.mod_small by lia. lia.
Qed.

Lemma event_at_insert_ne l i j e :
  0 <= i -> 0 <= j -> i <> j -> event_at (<[Z.to_nat i := e]> l) j = event_at l j.
Proof. intros. unfold event_at. rewrite list_lookup_insert_ne by lia. reflexivity. Qed.

Lemma event_at_insert_eq l i e :
  0 <= i < lenZ l -> event_at (<[Z.to_nat i := e]> l) i = e.
Proof. unfold lenZ, event_at. intros. rewrite list_lookup_insert_eq by lia. reflexivity. Qed.

(** The event that [append] stores. *)
Definition stamped (r : ch_event_ring) (e : ch_event) : ch_event :=
  let copy := ch_event_copy e in
  mk_event (u64 (total r + 1)) (shard_id copy) (lamport copy) (timestamp_ns copy)
    (event_type copy) (data_json copy).

Lemma retained_append r e :
  ring_ok r ->
  retained (ch_event_ring_append r e)
  = drop (if size r <? capacity r then 0 else 1) (retained r) ++ [stamped r e].
Proof.
  intros [Hc Hl Hh Hs]. set (r' := ch_event_ring_append r e).
  assert (Hc' : capacity r' = capacity r) by reflexivity.
  assert (Hev : events r' = <[Z.to_nat (head r) := stamped r e]> (events r)) by reflexivity.
  rewrite retained_spec by lia. rewrite (retained_spec r Hc), Hc', Hev.
  assert (Hslot : forall x, (head r' - x) mod capacity r = (head r + 1 - x) mod capacity r).
  { intros x. change (head r') with ((head r + 1) mod capacity r). apply Zminus_mod_idemp_l. }
  set (at' := fun x => event_at (<[Z.to_nat (head r) := stamped r e]> (events r)) (x mod capacity r)).
  assert (Hold : forall d, 0 < d < capacity r ->
            at' (head r - d) = event_at (events r) ((head r - d) mod capacity r)).
  { intros d Hd. unfold at'. apply event_at_insert_ne;
      [lia|apply Z.mod_pos_bound; lia|]. intros E. symmetry in E. revert E. apply slot_not_head; lia. }
  assert (Hnew : at' (head r) = stamped r e).
  { unfold at'. rewrite Z.mod_small by lia. apply event_at_insert_eq. lia. }
  assert (Hsize : size r' = if size r <? capacity r then size r + 1 else size r) by reflexivity.
  rewrite Hsize. destruct (size r <? capacity r) eqn:Hfull.
  - rewrite Z2Nat.inj_add, Nat.add_1_r, seq_S, map_app, drop_0 by lia. cbn [map Nat.add]. f_equal.
    + apply map_ext_in. intros k Hk. apply in_seq in Hk.
      replace (head r' - (size r + 1) + Z.of_nat k) with (head r' - (size r + 1 - Z.of_nat k)) by lia.
      rewrite Hslot. replace (head r + 1 - (size r + 1 - Z.of_nat k)) with (head r - (size r - Z.of_nat k)) by lia.
      transitivity (at' (head r - (size r - Z.of_nat k))); [reflexivity|].
      rewrite Hold by lia. do 2 f_equal. lia.
    + f_equal. transitivity (at' (head r)); [|exact Hnew]. apply (f_equal (event_at _)).
      replace (head r' - (size r + 1) + Z.of_nat (Z.to_nat (size r))) with (head r' - 1) by lia.
      rewrite Hslot. f_equal. lia.
  - assert (size r = capacity r) as Hsc by lia. rewrite Hsc.
    destruct (Z.to_nat (capacity r)) as [|n] eqn:En; [lia|].
    rewrite seq_S at 1. rewrite map_app. cbn [seq map drop Nat.add]. f_equal.
    + rewrite <- seq_shift, map_map. apply map_ext_in. intros k Hk. apply in_seq in Hk.
      replace (head r' - capacity r + Z.of_nat k) with (head r' - (capacity r - Z.of_nat k)) by lia.
      rewrite Hslot.
      replace (head r + 1 - (capacity r - Z.of_nat k)) with (head r - (capacity r - 1 - Z.of_nat k)) by lia.
      transitivity (at' (head r - (capacity r - 1 - Z.of_nat k))); [reflexivity|].
      rewrite Hold by lia. do 2 f_equal. lia.
    + f_equal. transitivity (at' (head r)); [|exact Hnew]. apply (f_equal (event_at _)).
      replace (head r' - capacity r + Z.of_nat n) with (head r' - 1) by lia.
      rewrite Hslot. f_equal. lia.
Qed.

Lemma append_ok r e : ring_ok r -> ring_ok (ch_event_ring_append r e).
Proof.
  intros [Hc Hl Hh Hs]. constructor; cbn [capacity events head size ch_event_ring_append].
  - assumption.
  - unfold lenZ in *. rewrite length_insert. assumption.
  - apply Z.mod_pos_bound. lia.
  - case_if; lia.
Qed.

Lemma create_ok c r : ch_event_ring_create c = Done r -> 0 <= c -> ring_ok r /\ retained r = [] /\ total r = 0.
Proof.
  unfold ch_event_ring_create. case_if; [discriminate|]. intros [= <-] Hc. split; [|split; reflexivity].
  constructor; cbn; try lia. rewrite lenZ_replicate. lia.
Qed.

(** ** The abstract log *)

(** The rings reachable from a fresh one, with the list of all events that were
    appended (as stamped), oldest first. *)
Inductive history : ch_event_ring -> list ch_event -> Prop :=
| history_create c r : 0 <= c -> ch_event_ring_create c = Done r -> history r []
| history_append r h e : history r h -> history (ch_event_ring_append r e) (h ++ [stamped r e]).

(** The last [n] elements. *)
Definition last_n {A} (n : Z) (l : list A) : list A := drop (length l - Z.to_nat n) l.

Lemma last_n_snoc {A} n (l : list A) x :
  0 < n -> last_n n (l ++ [x]) = drop (if lenZ l <? n then 0 else 1) (last_n n l) ++ [x].
Proof.
  intros Hn. unfold last_n, lenZ. rewrite length_app. cbn [length].
  rewrite drop_drop. destruct (Z.of_nat (length l) <? n) eqn:E.
  - replace (length l + 1 - Z.to_nat n)%nat with 0%nat by lia.
    replace (length l - Z.to_nat n + 0)%nat with 0%nat by lia. reflexivity.
  - rewrite drop_app_le by lia. do 2 f_equal. lia.
Qed.

(** The ring refines the log: it retains the last [capacity] events of the
    history, its size and total count them, and sequence numbers are the
    positions in the history. *)
Lemma history_retained r h :
  history r h -> lenZ h < 2 ^ 64 ->
  ring_ok r /\ retained r = last_n (capacity r) h /\ size r = Z.min (lenZ h) (capacity r) /\
  total r = lenZ h /\ (forall i e, h !! i = Some e -> sequence e = Z.of_nat i + 1).
Proof.
  induction 1 as [c r Hc Hr|r h e Hh IH]; intros Hlen.
  - destruct (create_ok c r Hr Hc) as (Hok & Hret & Htot). split; [assumption|]. rewrite Hret, Htot.
    unfold ch_event_ring_create in Hr. case_if_in Hr; [discriminate|]. injection Hr as <-.
    cbn [capacity size]. split_and!; [reflexivity|change (lenZ (@nil ch_event)) with 0; lia|reflexivity|].
    intros i e Hi. destruct i; discriminate.
  - rewrite lenZ_app, lenZ_cons, lenZ_nil in *. destruct IH as (Hok & Hret & Hsize & Htot & Hseq); [lia|].
    pose proof Hok as [Hc _ _ _]. pose proof (lenZ_nonneg h).
    split; [apply append_ok; assumption|]. rewrite retained_append, Hret by assumption.
    cbn [capacity size total ch_event_ring_append].
    assert (Hsz : (size r <? capacity r) = (lenZ h <? capacity r)) by lia.
    split; [rewrite last_n_snoc, Hsz by lia; reflexivity|].
    split; [rewrite Hsz; case_if; lia|].
    assert (Hu : u64 (total r + 1) = lenZ h + 1) by (unfold u64; rewrite Htot, Z.mod_small; lia).
    split; [rewrite Hu; lia|].
    intros i x Hx. apply lookup_app_Some in Hx as [Hx|[Hi Hx]]; [auto|].
    destruct (i - length h)%nat eqn:Ei; cbn in Hx; [|discriminate]. injection Hx as <-.
    cbn. rewrite Hu. unfold lenZ. lia.
Qed.

(** ** Facts: pagination *)

(** The events a client that has seen everything up to [a] still wants. *)
Definition wanted (q : query) (a : Z) (l : list ch_event) : list ch_event :=
  List.filter (fun e => (sequence e >? a) && matches q e) l.

Definition increasing (l : list ch_event) : Prop :=
  StronglySorted (fun x y => sequence x < sequence y) l.

Lemma wanted_none q a l : Forall (fun e => sequence e <= a) l -> wanted q a l = [].
Proof.
  induction 1 as [|e l He _ IH]; [reflexivity|]. cbn [wanted List.filter].
  replace (sequence e >? a) with false by lia. exact IH.
Qed.

Lemma wanted_later q a b l :
  Forall (fun e => sequence e <= a \/ b < sequence e) l -> a <= b -> wanted q a l = wanted q b l.
Proof.
  intros Hl Hab. induction Hl as [|e l He _ IH]; [reflexivity|]. cbn [wanted List.filter].
  assert (E : (sequence e >? a) = (sequence e >? b)) by lia. rewrite E.
  unfold wanted in IH. rewrite IH. reflexivity.
Qed.

Lemma wanted_app q a l l' : wanted q a (l ++ l') = wanted q a l ++ wanted q a l'.
Proof. apply List.filter_app. Qed.

(** The loop, after the events [seen] and with the resume position [last]. *)
Lemma scan_spec q a l seen emitted last :
  q_after q = Some a -> q_cursors q = [] -> increasing l -> a <= last ->
  Forall (fun e => sequence e <= last) seen ->
  Forall (fun e => sequence e <= a \/ last < sequence e) l ->
  lenZ emitted <= q_limit q ->
  match scan q l emitted last with
  | (out, None) => out = emitted ++ wanted q a l /\ lenZ out <= q_limit q
  | (out, Some p) =>
      exists page, out = emitted ++ page /\ wanted q a l = page ++ wanted q p (seen ++ l) /\
        lenZ out = q_limit q /\ wanted q p (seen ++ l) <> [] /\ a <= p
  end.
Proof.
  intros Hq Hcur. revert seen emitted last. induction l as [|e l IH];
    intros seen emitted last Hs Hal Hseen Hl Hlen; cbn [scan].
  { rewrite app_nil_r. auto. }
  inversion_clear Hs as [|? ? Hs' Hlt]. inversion_clear Hl as [|? ? He Hl'].
  assert (Hmid : seen ++ e :: l = (seen ++ [e]) ++ l) by (rewrite <- app_assoc; reflexivity).
  assert (Hel : eligible q e = (sequence e >? a))
    by (unfold eligible; rewrite Hq, Hcur; cbn [event_cursor]; apply orb_false_r).
  rewrite Hel, Hq. cbn [wanted List.filter]. fold (wanted q a l).
  destruct (sequence e >? a) eqn:Ea; cbn [negb andb].
  2: { rewrite Hmid. apply IH; auto. apply Forall_app. split; [assumption|constructor; [lia|constructor]]. }
  assert (Hadv : Forall (fun x => sequence x <= sequence e) (seen ++ [e])).
  { apply Forall_app. split; [|constructor; [lia|constructor]]. revert Hseen. apply List.Forall_impl. lia. }
  assert (Hnext : Forall (fun x => sequence x <= a \/ sequence e < sequence x) l).
  { revert Hlt. apply List.Forall_impl. auto. }
  destruct (matches q e) eqn:Em; cbn [negb].
  - case_if.
    + exists []. rewrite app_nil_r. cbn [app].
      assert (Hw : wanted q last (seen ++ e :: l) = e :: wanted q a l).
      { rewrite wanted_app, wanted_none by assumption. cbn [app wanted List.filter].
        replace (sequence e >? last) with true by lia. rewrite Em. cbn [andb]. f_equal.
        symmetry. apply wanted_later; auto. }
      rewrite Hw. split_and!; auto; lia || discriminate.
    + rewrite Hmid. specialize (IH (seen ++ [e]) (emitted ++ [e]) (sequence e) Hs' ltac:(lia) Hadv Hnext).
      rewrite lenZ_app, lenZ_cons, lenZ_nil in IH. specialize (IH ltac:(lia)).
      destruct (scan q l (emitted ++ [e]) (sequence e)) as [out [p|]].
      * destruct IH as (page & -> & Hw & Hp). exists (e :: page). rewrite <- app_assoc. cbn [app].
        split; [reflexivity|]. split; [rewrite Hw; reflexivity|]. rewrite <- app_assoc in Hp. exact Hp.
      * destruct IH as [-> IH2]. rewrite <- app_assoc in *. auto.
  - rewrite Hmid. apply IH; auto. lia.
Qed.

(** Sequences of a reachable ring. *)
Lemma history_increasing r h :
  history r h -> lenZ h < 2 ^ 64 ->
  increasing h /\ Forall (fun e => sequence e <= total r) h.
Proof.
  intros Hh Hlen. destruct (history_retained r h Hh Hlen) as (_ & _ & _ & Htot & Hseq). split.
  - clear Hh. unfold increasing. assert (Hgen : forall k, (forall i e, h !! i = Some e -> sequence e = Z.of_nat (k + i) + 1) ->
              StronglySorted (fun x y => sequence x < sequence y) h).
    { clear. induction h as [|e h IH]; intros k Hk; constructor.
      - apply (IH (S k)). intros i x Hx. rewrite (Hk (S i) x Hx). lia.
      - apply Forall_forall. intros x Hx. apply list_elem_of_In, list_elem_of_lookup in Hx as [i Hi].
        rewrite (Hk 0%nat e eq_refl), (Hk (S i) x Hi). lia. }
    apply (Hgen 0%nat). exact Hseq.
  - apply Forall_forall. intros x Hx. apply list_elem_of_In, list_elem_of_lookup in Hx as [i Hi].
    rewrite (Hseq i x Hi), Htot. apply lookup_lt_Some in Hi. unfold lenZ. lia.
Qed.

Lemma increasing_copy l : increasing l -> increasing (map ch_event_copy l).
Proof.
  induction 1 as [|e l Hs IH Hf]; cbn [map]; constructor; [assumption|].
  apply Forall_map. revert Hf. apply List.Forall_impl. auto.
Qed.

Lemma increasing_drop n l : increasing l -> increasing (drop n l).
Proof.
  intros Hl. revert n. induction Hl as [|e l Hs IH Hf]; intros n; [rewrite drop_nil; constructor|].
  destruct n; [constructor; assumption|apply IH].
Qed.

Lemma snapshot_retained r : ring_ok r -> ch_event_ring_snapshot r = map ch_event_copy (retained r).
Proof.
  intros [_ _ _ Hs]. unfold ch_event_ring_snapshot. case_if; [|reflexivity].
  unfold retained. replace (size r) with 0 by lia. reflexivity.
Qed.

Lemma snapshot_facts r h :
  history r h -> lenZ h < 2 ^ 64 ->
  ch_event_ring_snapshot r = map ch_event_copy (last_n (capacity r) h) /\
  increasing (ch_event_ring_snapshot r) /\
  Forall (fun e => sequence e <= total r) (ch_event_ring_snapshot r).
Proof.
  intros Hh Hlen. destruct (history_retained r h Hh Hlen) as (Hok & Hret & _ & _ & _).
  destruct (history_increasing r h Hh Hlen) as [Hinc Hle].
  rewrite snapshot_retained, Hret by assumption. split; [reflexivity|]. split.
  - apply increasing_copy, increasing_drop. assumption.
  - apply Forall_map. apply Forall_drop. revert Hle. apply List.Forall_impl. auto.
Qed.

(** One page of a query by sequence. *)
Lemma page_spec q a l t :
  q_after q = Some a -> q_cursors q = [] -> 0 <= q_limit q -> increasing l ->
  Forall (fun e => sequence e <= t) l ->
  let r := run_query q l t in
  wanted q a l = r_events r ++ wanted q (r_next_sequence r) l /\
  lenZ (r_events r) <= q_limit q /\
  (r_next_sequence r = t \/ (lenZ (r_events r) = q_limit q /\ wanted q (r_next_sequence r) l <> [])).
Proof.
  intros Hq Hc Hlim Hinc Hle. unfold run_query. rewrite Hq. change (default 0 (Some a)) with a.
  assert (Hl : Forall (fun e => sequence e <= a \/ a < sequence e) l)
    by (apply Forall_forall; intros; lia).
  pose proof (scan_spec q a l [] [] a Hq Hc Hinc ltac:(lia) ltac:(constructor) Hl Hlim) as Hs.
  destruct (scan q l [] a) as [out [p|]]; cbn [r_events r_next_sequence].
  - destruct Hs as (page & -> & Hw & Hp1 & Hp2 & _). cbn [app] in *. split_and!; [exact Hw|lia|right; auto].
  - destruct Hs as [-> Hlen]. cbn [app] in *. rewrite (wanted_none q t l), app_nil_r by assumption. auto.
Qed.

(** Copying an event that the ring stored does not change it. *)
Lemma stamped_copy r e : ch_event_copy (stamped r e) = stamped r e.
Proof. reflexivity. Qed.

Lemma history_copied r h : history r h -> map ch_event_copy h = h.
Proof.
  induction 1 as [|r h e _ IH]; [reflexivity|]. rewrite map_app, IH. cbn [map].
  rewrite stamped_copy. reflexivity.
Qed.

Lemma snapshot_last r h :
  history r h -> lenZ h < 2 ^ 64 -> ch_event_ring_snapshot r = last_n (capacity r) h.
Proof.
  intros Hh Hlen. destruct (snapshot_facts r h Hh Hlen) as (-> & _ & _). unfold last_n.
  change (map ch_event_copy ?l) with (ch_event_copy <$> l). rewrite fmap_drop. f_equal.
  exact (history_copied r h Hh).
Qed.

(** Nothing wanted was evicted when the oldest retained event is at most [a + 1]. *)
Lemma complete_retains q a r h :
  history r h -> lenZ h < 2 ^ 64 -> 0 <= a < 2 ^ 63 ->
  match ch_event_ring_snapshot r with [] => True | e :: _ => sequence e <= a + 1 end ->
  wanted q a (ch_event_ring_snapshot r) = wanted q a h.
Proof.
  intros Hh Hlen Ha Hfirst.
  destruct (history_retained r h Hh Hlen) as ([Hc _ _ _] & _ & _ & _ & Hseq).
  set (k := (length h - Z.to_nat (capacity r))%nat).
  assert (Hd : ch_event_ring_snapshot r = drop k h) by (apply snapshot_last; assumption).
  rewrite Hd in *. rewrite <- (take_drop k h) at 2. rewrite wanted_app, (wanted_none q a (take k h)); [reflexivity|].
  apply Forall_forall. intros e He. apply list_elem_of_In, list_elem_of_lookup in He as [i Hi].
  apply lookup_take_Some in Hi as [Hi Hik]. rewrite (Hseq i e Hi).
  destruct (drop k h) as [|x t] eqn:Ed.
  - apply (f_equal length) in Ed. rewrite length_drop in Ed. apply lookup_lt_Some in Hi. cbn in Ed. lia.
  - assert (Hx : h !! k = Some x) by (rewrite <- (Nat.add_0_r k), <- lookup_drop, Ed; reflexivity).
    rewrite (Hseq k x Hx) in Hfirst. lia.
Qed.

Lemma run_query_complete q l t a :
  q_after q = Some a -> 0 <= a < 2 ^ 63 -> r_complete (run_query q l t) = true ->
  match l with [] => True | e :: _ => sequence e <= a + 1 end /\
  scan q l [] a = (r_events (run_query q l t), None) /\ r_next_sequence (run_query q l t) = t.
Proof.
  intros Hq Ha. unfold run_query. rewrite Hq. change (default 0 (Some a)) with a.
  destruct (scan q l [] a) as [out [p|]]; cbn [r_complete r_events r_next_sequence]; [discriminate|].
  intros Hc. apply andb_true_iff in Hc as [Hc _]. split; [|auto]. destruct l as [|e l]; [exact I|].
  unfold u64 in Hc. rewrite Z.mod_small in Hc by lia. lia.
Qed.

(** *** Properties *)

(** C5: The ring refines an append-only log: after any sequence of appends on a
    fresh ring, the snapshot is the last [capacity] events of the history in
    order, the length and total count them, and every event's sequence number
    is its position in the history. *)
Theorem ring_refines_log r h :
  history r h -> lenZ h < 2 ^ 64 ->
  ch_event_ring_snapshot r = last_n (capacity r) h /\
  ch_event_ring_length (Some r) = Z.min (lenZ h) (capacity r) /\
  ch_event_ring_total (Some r) = lenZ h /\
  (forall i e, h !! i = Some e -> sequence e = Z.of_nat i + 1).
Proof.
  intros Hh Hlen. destruct (history_retained r h Hh Hlen) as (_ & _ & Hs & Ht & Hseq).
  split_and!; auto. apply snapshot_last; assumption.
Qed.

(** Pagination neither loses nor repeats events: when the snapshot and the
    total are read from the same ring, the events a client still wants after
    position [a] are those of the page followed by those it wants after the
    returned position; the page respects the limit, and a page that stops early
    is full and leaves something to fetch. *)
Theorem query_pages_partition r h q a :
  history r h -> lenZ h < 2 ^ 64 -> q_after q = Some a -> q_cursors q = [] -> 0 <= q_limit q ->
  let page := run_query q (ch_event_ring_snapshot r) (ch_event_ring_total (Some r)) in
  wanted q a (ch_event_ring_snapshot r)
  = r_events page ++ wanted q (r_next_sequence page) (ch_event_ring_snapshot r) /\
  lenZ (r_events page) <= q_limit q /\
  (r_next_sequence page = ch_event_ring_total (Some r) \/
   (lenZ (r_events page) = q_limit q /\
    wanted q (r_next_sequence page) (ch_event_ring_snapshot r) <> [])).
Proof.
  intros Hh Hlen Hq Hc Hlim. destruct (snapshot_facts r h Hh Hlen) as (_ & Hinc & Hle).
  apply page_spec; assumption.
Qed.

(** The "complete" flag can be trusted: when a query by sequence is answered
    as complete, the page holds every matching event of the whole history after
    [a], including what the ring no longer retains. *)
Theorem query_complete_is_complete r h q a :
  history r h -> lenZ h < 2 ^ 64 -> q_after q = Some a -> q_cursors q = [] ->
  0 <= a < 2 ^ 63 -> 0 <= q_limit q ->
  let page := run_query q (ch_event_ring_snapshot r) (ch_event_ring_total (Some r)) in
  r_complete page = true -> r_events page = wanted q a h.
Proof.
  intros Hh Hlen Hq Hc Ha Hlim page Hcomp.
  destruct (run_query_complete q _ _ a Hq Ha Hcomp) as (Hfirst & _ & Hnext).
  destruct (snapshot_facts r h Hh Hlen) as (_ & Hinc & Hle).
  destruct (page_spec q a (ch_event_ring_snapshot r) (ch_event_ring_total (Some r)) Hq Hc Hlim Hinc Hle)
    as (Hpart & _ & _).
  rewrite <- (complete_retains q a r h Hh Hlen Ha Hfirst), Hpart.
  rewrite Hnext, wanted_none, app_nil_r by assumption. reflexivity.
Qed.

(** (code bug) the query reads the snapshot and the total in two critical
    sections.  When another thread appends a matching event between them and
    the page is not cut by the limit, the event is missing from the page, yet
    the returned resume position is already past it: the client that resumes
    from it never receives the event. *)
Theorem query_race_loses_event r h q a e :
  history r h -> lenZ h + 1 < 2 ^ 64 -> q_after q = Some a -> q_cursors q = [] -> a <= lenZ h ->
  lenZ (wanted q a (ch_event_ring_snapshot r)) < q_limit q -> matches q (stamped r e) = true ->
  let r' := ch_event_ring_append r e in
  let page := run_query q (ch_event_ring_snapshot r) (ch_event_ring_total (Some r')) in
  stamped r e ∈ wanted q a (ch_event_ring_snapshot r') /\
  (stamped r e ∉ r_events page) /\
  (stamped r e ∉ wanted q (r_next_sequence page) (ch_event_ring_snapshot r')).
Proof.
  intros Hh Hlen Hq Hc Ha Hlim Hm r' page.
  destruct (snapshot_facts r h Hh ltac:(lia)) as (_ & Hinc & Hle).
  destruct (history_retained r h Hh ltac:(lia)) as (Hok & _ & _ & Htot & _).
  assert (Hseq : sequence (stamped r e) = lenZ h + 1)
    by (cbn; unfold u64; rewrite Htot, Z.mod_small; pose proof (lenZ_nonneg h); lia).
  assert (Htot' : ch_event_ring_total (Some r') = lenZ h + 1) by exact Hseq.
  assert (Hpage : r_events page = wanted q a (ch_event_ring_snapshot r) /\ r_next_sequence page = lenZ h + 1).
  { destruct (page_spec q a (ch_event_ring_snapshot r) (lenZ h + 1) Hq Hc) as (H1 & H2 & H3).
    - pose proof (lenZ_nonneg (wanted q a (ch_event_ring_snapshot r))). lia.
    - assumption.
    - revert Hle. apply List.Forall_impl. lia.
    - unfold page. rewrite Htot'. destruct H3 as [E|[E _]].
      + rewrite H1, E. rewrite wanted_none, app_nil_r; [auto|]. revert Hle. apply List.Forall_impl. lia.
      + apply (f_equal lenZ) in H1. rewrite lenZ_app in H1.
        pose proof (lenZ_nonneg (wanted q (r_next_sequence (run_query q (ch_event_ring_snapshot r) (lenZ h + 1)))
                                  (ch_event_ring_snapshot r))). lia. }
  destruct Hpage as [Hev Hnext]. split_and!.
  - unfold r'. rewrite snapshot_retained by (apply append_ok; assumption). rewrite retained_append by assumption.
    rewrite map_app. unfold wanted. apply list_elem_of_In, filter_In. split.
    + apply in_app_iff. right. left. apply stamped_copy.
    + rewrite Hm, Hseq. lia.
  - rewrite Hev. unfold wanted. rewrite list_elem_of_In, filter_In. intros [Hin _].
    rewrite Forall_forall in Hle. specialize (Hle _ Hin). lia.
  - rewrite Hnext. unfold wanted. rewrite list_elem_of_In, filter_In. intros [_ Hx]. lia.
Qed.

End Doubles.

(** ** Witnesses *)

Definition w_event (n : Z) : ch_event := mk_event 0 1 n 0 (Some (str "conn.open")) (Some (str "{}")).

Definition w_ring0 : ch_event_ring := mk_ring [no_event; no_event] 0 0 2 0.
Definition w_ring (n : nat) : ch_event_ring :=
  Nat.iter n (fun r => ch_event_ring_append r (w_event 7)) w_ring0.
Definition w_stamped (i : nat) : ch_event := stamped (w_ring i) (w_event 7).
Definition w_history (n : nat) : list ch_event := map w_stamped (seq 0 n).

Lemma w_history_ok n : history (w_ring n) (w_history n).
Proof.
  induction n as [|n IH].
  - apply (history_create 2); [lia|reflexivity].
  - unfold w_history. rewrite seq_S, map_app. cbn [map Nat.add].
    exact (history_append (w_ring n) (w_history n) (w_event 7) IH).
Qed.

Definition w_query : query := mk_query None None [] (Some 1) 2.

Lemma ring_refines_log_witness :
  ch_event_ring_snapshot (w_ring 3) = last_n (capacity (w_ring 3)) (w_history 3) /\
  ch_event_ring_length (Some (w_ring 3)) = Z.min (lenZ (w_history 3)) (capacity (w_ring 3)) /\
  ch_event_ring_total (Some (w_ring 3)) = lenZ (w_history 3) /\
  (forall i e, w_history 3 !! i = Some e -> sequence e = Z.of_nat i + 1).
Proof. apply (ring_refines_log (w_ring 3) (w_history 3) (w_history_ok 3)). reflexivity. Defined.

End Events.
