(* ===== verification/HttpSafety.v ===== *)
(** * Safe HTTP endpoints: [native/src/http_safety.c]

    The runtime fetches licence documents, rule feeds and country databases
    from URLs a user or a server supplies.  [ch_http_endpoint_prepare] accepts
    a URL only when every address its host resolves to is a public one, and
    pins the address for the request.  libcurl's URL parser, [getaddrinfo] and
    [getnameinfo] are the class [Network]; no law of theirs is assumed. *)

From S2P Require Import Prelude CLib IpDns Inet Rules.

Module HttpSafety.

Export Dns.

(** ** Addresses *)

Definition http_ipv4_unsafe (address : bytes) : bool :=
  let a0 := byte_at address 0 in
  let a1 := byte_at address 1 in
  let a2 := byte_at address 2 in
  (a0 =? 0) || (a0 =? 10) || (a0 =? 127)
  || ((a0 =? 172) && (a1 >=? 16) && (a1 <=? 31))
  || ((a0 =? 192) && (a1 =? 168))
  || ((a0 =? 169) && (a1 =? 254))
  || ((a0 =? 100) && (a1 >=? 64) && (a1 <=? 127))
  || ((a0 =? 192) && (a1 =? 0) && (a2 =? 0))
  || ((a0 =? 192) && (a1 =? 0) && (a2 =? 2))
  || ((a0 =? 192) && (a1 =? 88) && (a2 =? 99))
  || ((a0 =? 198) && (Z.land a1 254 =? 18))
  || ((a0 =? 198) && (a1 =? 51) && (a2 =? 100))
  || ((a0 =? 203) && (a1 =? 0) && (a2 =? 113))
  || (a0 >=? 224).

(** A socket address: the family and the address bytes of the two families
    the code reads, or another family. *)
Inductive sockaddr : Type :=
| sockaddr_in (sin_addr : bytes)
| sockaddr_in6 (sin6_addr : bytes)
| sockaddr_other (sa_family : Z).

Definition mapped : bytes := [0; 0; 0; 0; 0; 0; 0; 0; 0; 0; 255; 255].
Definition compatible : bytes := [0; 0; 0; 0; 0; 0; 0; 0; 0; 0; 0; 0].
Definition nat64 : bytes := [0; 100; 255; 155; 0; 0; 0; 0; 0; 0; 0; 0].

Definition all_zero (l : bytes) : bool := forallb (fun b => b =? 0) l.

(** The tests of [http_sockaddr_unsafe] on an address with no IPv4 address
    inside. *)
Definition native_ipv6_unsafe (a : bytes) : bool :=
  let b := byte_at a in
  let unspecified := all_zero (sub a 0 16) in
  let loopback := negb unspecified && all_zero (sub a 0 15) && (b 15 =? 1) in
  if unspecified || loopback || (Z.land (b 0) 254 =? 252)
     || ((b 0 =? 254) && (Z.land (b 1) 192 =? 128)) || (b 0 =? 255) then true
  else if negb (Z.land (b 0) 224 =? 32) then true
  else
    ((b 0 =? 32) && (b 1 =? 1) && (b 2 =? 0) && (b 3 =? 0))
    || ((b 0 =? 32) && (b 1 =? 1) && (b 2 =? 0) && (b 3 =? 2))
    || ((b 0 =? 32) && (b 1 =? 1) && (b 2 =? 13) && (b 3 =? 184))
    || ((b 0 =? 32) && (b 1 =? 1) && (b 2 =? 0)
        && ((Z.land (b 3) 240 =? 16) || (Z.land (b 3) 240 =? 32)))
    || ((b 0 =? 32) && (b 1 =? 2)).

Definition http_sockaddr_unsafe (address : option sockaddr) : bool :=
  match address with
  | None | Some (sockaddr_other _) => true
  | Some (sockaddr_in a) => http_ipv4_unsafe a
  | Some (sockaddr_in6 a) =>
      let prefix := sub a 0 12 in
      let embedded := sub a 12 4 in
      if beq prefix mapped then http_ipv4_unsafe embedded
      else if beq prefix compatible
              && (negb (byte_at a 12 =? 0) || negb (byte_at a 13 =? 0)
                  || negb (byte_at a 14 =? 0) || (byte_at a 15 >? 1))
      then http_ipv4_unsafe embedded
      else if beq prefix nat64 then http_ipv4_unsafe embedded
      else native_ipv6_unsafe a
  end.

(** ** Host names *)

Definition http_host_is_metadata (host : bytes) : bool :=
  strcaseeq host (str "metadata") || strcaseeq host (str "instance-data")
  || strcaseeq host (str "metadata.google.internal")
  || strcaseeq host (str "metadata.azure.internal").

Definition http_host_is_localhost (host : bytes) : bool :=
  let length := lenZ host in
  let suffix := str ".localhost" in
  strcaseeq host (str "localhost")
  || ((length >? lenZ suffix) && strcaseeq (sub host (length - lenZ suffix) (lenZ suffix)) suffix).

(** The text after the first occurrence of [p] ([strstr]). *)
Fixpoint after (p s : bytes) : option bytes :=
  if is_prefix p s then Some (drop (length p) s)
  else match s with [] => None | _ :: s' => after p s' end.

(** The part of the text before the first of [/], [?] and [#] ([strcspn]). *)
Fixpoint authority_part (s : bytes) : bytes :=
  match s with
  | [] => []
  | c :: s' => if (c =? 47) || (c =? 63) || (c =? 35) then [] else c :: authority_part s'
  end.

Definition http_url_has_userinfo (url : bytes) : bool :=
  match after (str "://") url with
  | None => false
  | Some authority => existsb (fun c => c =? 64) (authority_part authority)
  end.

(** ** Endpoints *)

Record ch_http_endpoint : Type := mk_endpoint {
  ep_url : bytes;
  ep_scheme : bytes;
  ep_host : bytes;
  ep_port : bytes;
  ep_resolve : bytes
}.

(** What [curl_url_get] gives for each part of a parsed URL; [None] is a status
    other than [CURLUE_OK].  The port is asked for with [CURLU_DEFAULT_PORT]. *)
Record curl_parts : Type := mk_parts {
  part_scheme : option bytes;
  part_host : option bytes;
  part_port : option bytes;
  part_url : option bytes;
  part_user : option bytes;
  part_password : option bytes
}.

Class Network : Type := {
  curl_url_set : bytes -> option curl_parts;
  getaddrinfo : bytes -> bytes -> Z * list (option sockaddr);
  gai_strerror : Z -> bytes;
  getnameinfo : option sockaddr -> option bytes
}.

Section Endpoints.
Context `{Network}.

(** The parts the code needs, when they are all there and acceptable. *)
Definition url_parts (url : bytes) : option (curl_parts * ch_http_endpoint) :=
  parsed ← curl_url_set url;
  scheme ← part_scheme parsed;
  host ← part_host parsed;
  port ← part_port parsed;
  text ← part_url parsed;
  if (negb (strcaseeq scheme (str "http")) && negb (strcaseeq scheme (str "https")))
     || beq host []
  then None
  else Some (parsed, mk_endpoint text scheme host port []).

Definition strip_brackets (host : bytes) : bytes :=
  let length := lenZ host in
  if (length >=? 2) && (byte_at host 0 =? 91) && (byte_at host (length - 1) =? 93)
  then sub host 1 (length - 2) else host.

Fixpoint strip_dots (host : bytes) : bytes :=
  match host with
  | [] => []
  | c :: host' =>
      match strip_dots host' with
      | [] => if c =? 46 then [] else [c]
      | rest => c :: rest
      end
  end.

Definition canonical_host (host : bytes) : bytes := strip_dots (strip_brackets host).

(** The loop over the resolved addresses: [numeric] is the text of the first
    one, the candidate to pin. *)
Fixpoint check_addresses (label host numeric : bytes) (candidates : list (option sockaddr))
  : result bytes :=
  match candidates with
  | [] => Done numeric
  | candidate :: rest =>
      if http_sockaddr_unsafe candidate then
        fail CH_ERROR_INVALID_ARGUMENT
          (label ++ str " host " ++ host ++ str " resolves to a non-public address")
      else if beq numeric [] then
        match getnameinfo candidate with
        | None => fail CH_ERROR_IO (str "format " ++ label ++ str " address for " ++ host)
        | Some text => check_addresses label host text rest
        end
      else check_addresses label host numeric rest
  end.

Definition has_colon (s : bytes) : bool := existsb (fun c => c =? 58) s.

Definition bracketed (s : bytes) : bytes := if has_colon s then [91] ++ s ++ [93] else s.

(** The [CURLOPT_RESOLVE] entry. *)
Definition pin (host port numeric : bytes) : bytes :=
  bracketed host ++ [58] ++ port ++ [58] ++ bracketed numeric.

(** [purpose] is the text of the error messages; the output pointer is not
    null. *)
Definition ch_http_endpoint_prepare (url purpose : option bytes) : result ch_http_endpoint :=
  let label := match purpose with None | Some [] => str "request" | Some p => p end in
  let credentials :=
    fail CH_ERROR_INVALID_ARGUMENT (label ++ str " URL must not contain credentials") in
  if match url with Some u => http_url_has_userinfo u | None => false end then credentials
  else
    match u ← url; url_parts u with
    | None =>
        fail CH_ERROR_INVALID_ARGUMENT (label ++ str " URL must be http or https with a host")
    | Some (parsed, endpoint) =>
        if bool_decide (is_Some (part_user parsed)) || bool_decide (is_Some (part_password parsed)) then credentials
        else
          let host := canonical_host (ep_host endpoint) in
          if http_host_is_localhost host || http_host_is_metadata host then
            fail CH_ERROR_INVALID_ARGUMENT (label ++ str " host " ++ host ++ str " is not public")
          else
            let '(resolved, addresses) := getaddrinfo host (ep_port endpoint) in
            if negb (resolved =? 0) || bool_decide (addresses = []) then
              fail CH_ERROR_IO
                (str "resolve " ++ label ++ str " host " ++ host ++ str ": "
                 ++ gai_strerror resolved)
            else
              numeric ← check_addresses label host [] addresses;
              Done (mk_endpoint (ep_url endpoint) (ep_scheme endpoint) host (ep_port endpoint)
                      (pin host (ep_port endpoint) numeric))
    end.

Definition ch_http_endpoint_same_origin (first next : option ch_http_endpoint) : bool :=
  match first, next with
  | Some a, Some b =>
      strcaseeq (ep_scheme a) (ep_scheme b) && strcaseeq (ep_host a) (ep_host b)
      && beq (ep_port a) (ep_port b)
  | _, _ => false
  end.

End Endpoints.

(** ** The address blocks of the special-purpose registries

    The ranges the code refuses, as CIDR blocks of the rule engine; membership
    is arithmetic on the address as a number ([Rules.in_block]). *)

Definition block (family : address_family) (address : bytes) (prefix : Z) : Rules.ch_cidr :=
  Rules.mk_cidr family address prefix [].

Definition special_ipv4 : list Rules.ch_cidr := [
  block AF_INET [0; 0; 0; 0] 8;         (* this network *)
  block AF_INET [10; 0; 0; 0] 8;        (* private use *)
  block AF_INET [127; 0; 0; 0] 8;       (* loopback *)
  block AF_INET [172; 16; 0; 0] 12;     (* private use *)
  block AF_INET [192; 168; 0; 0] 16;    (* private use *)
  block AF_INET [169; 254; 0; 0] 16;    (* link local, cloud metadata *)
  block AF_INET [100; 64; 0; 0] 10;     (* shared address space *)
  block AF_INET [192; 0; 0; 0] 24;      (* protocol assignments *)
  block AF_INET [192; 0; 2; 0] 24;      (* documentation *)
  block AF_INET [192; 88; 99; 0] 24;    (* 6to4 relay anycast *)
  block AF_INET [198; 18; 0; 0] 15;     (* benchmarking *)
  block AF_INET [198; 51; 100; 0] 24;   (* documentation *)
  block AF_INET [203; 0; 113; 0] 24;    (* documentation *)
  block AF_INET [224; 0; 0; 0] 3        (* multicast, reserved, broadcast *)
].

(** The address that starts with the given 16-bit groups. *)
Definition groups (l : list Z) : bytes :=
  take 16 (concat (map (fun g => [g / 256; g mod 256]) l) ++ replicate 16 0).

Definition special_ipv6 : list Rules.ch_cidr := [
  block AF_INET6 (groups [0x2001; 0x0000]) 32;   (* Teredo *)
  block AF_INET6 (groups [0x2001; 0x0002]) 32;   (* benchmarking *)
  block AF_INET6 (groups [0x2001; 0x0db8]) 32;   (* documentation *)
  block AF_INET6 (groups [0x2001; 0x0010]) 28;   (* ORCHID *)
  block AF_INET6 (groups [0x2001; 0x0020]) 28;   (* ORCHIDv2 *)
  block AF_INET6 (groups [0x2002]) 16            (* 6to4 *)
].

Definition mapped_block := block AF_INET6 (mapped ++ [0; 0; 0; 0]) 96.
Definition nat64_block := block AF_INET6 (nat64 ++ [0; 0; 0; 0]) 96.
Definition compatible_block := block AF_INET6 (groups []) 96.
Definition global_unicast := block AF_INET6 (groups [0x2000]) 3.

Definition public_ipv4 (a : bytes) : Prop := ~ exists b, b ∈ special_ipv4 /\ Rules.in_block b a.

(** An IPv6 address that carries an IPv4 address in its last four bytes: the
    mapped, the NAT64 and the compatible addresses, [::] and [::1] apart. *)
Definition embeds_ipv4 (a : bytes) : Prop :=
  Rules.in_block mapped_block a \/ Rules.in_block nat64_block a \/
  (Rules.in_block compatible_block a /\ 1 < Rules.address_value a).

Definition public_ipv6 (a : bytes) : Prop :=
  (embeds_ipv4 a /\ public_ipv4 (sub a 12 4)) \/
  (~ embeds_ipv4 a /\ Rules.in_block global_unicast a /\
   ~ exists b, b ∈ special_ipv6 /\ Rules.in_block b a).

Definition public (address : sockaddr) : Prop :=
  match address with
  | sockaddr_in a => public_ipv4 a
  | sockaddr_in6 a => public_ipv6 a
  | sockaddr_other _ => False
  end.

Definition sockaddr_ok (address : sockaddr) : Prop :=
  match address with
  | sockaddr_in a => lenZ a = 4 /\ bytes_ok a
  | sockaddr_in6 a => lenZ a = 16 /\ bytes_ok a
  | sockaddr_other _ => True
  end.

(** *** Facts on blocks *)

Lemma beq_cons x y (l m : bytes) : beq (x :: l) (y :: m) = (x =? y) && beq l m.
Proof.
  apply eq_true_iff_eq. rewrite andb_true_iff, !beq_true, Z.eqb_eq. split.
  - intros [= -> ->]. auto.
  - intros [-> ->]. reflexivity.
Qed.

Lemma length_ipv4 (a : bytes) : lenZ a = 4 -> exists x y z w, a = [x; y; z; w].
Proof.
  unfold lenZ. intros. destruct a as [|x [|y [|z [|w [|]]]]]; cbn in *; try lia. eauto.
Qed.

Definition block_okb (b : Rules.ch_cidr) : bool :=
  (lenZ (Rules.cidr_address b) =? ch_ip_stack_address_length (Rules.cidr_family b))
  && bytes_okb (Rules.cidr_address b)
  && (0 <=? Rules.prefix_length b)
  && (Rules.prefix_length b <=? Rules.family_bits (Rules.cidr_family b)).

Lemma in_block_iff b a :
  block_okb b = true -> lenZ a = ch_ip_stack_address_length (Rules.cidr_family b) -> bytes_ok a ->
  Rules.in_block b a <-> Rules.ch_cidr_contains b a = true.
Proof.
  unfold block_okb. rewrite !andb_true_iff. intros [[[Hl Hb] H0] H1] Ha Hok. symmetry.
  apply Rules.cidr_contains_spec; [|lia|assumption].
  unfold Rules.cidr_wf. split_and!; try lia. apply bytes_okb_ok, Hb.
Qed.

Lemma in_blocks_iff bs a family :
  forallb (fun b => block_okb b && bool_decide (Rules.cidr_family b = family)) bs = true ->
  lenZ a = ch_ip_stack_address_length family -> bytes_ok a ->
  (exists b, b ∈ bs /\ Rules.in_block b a) <->
  existsb (fun b => Rules.ch_cidr_contains b a) bs = true.
Proof.
  intros Hbs Hl Hok. rewrite existsb_exists. rewrite forallb_forall in Hbs.
  assert (Hiff : forall b, In b bs -> Rules.in_block b a <-> Rules.ch_cidr_contains b a = true).
  { intros b Hb. apply Hbs in Hb. apply andb_true_iff in Hb as [Hb Hf].
    apply bool_decide_eq_true in Hf. apply in_block_iff; congruence. }
  split; intros (b & Hb & H); exists b; [apply list_elem_of_In in Hb|rewrite list_elem_of_In];
    (split; [assumption|apply Hiff; assumption]).
Qed.

(** The bytes that a mask maps to [v] are an interval. *)
Lemma mask_range (lo hi m v : Z) b :
  forallb (fun n => Bool.eqb (v =? Z.land (Z.of_nat n) m)
                      ((lo <=? Z.of_nat n) && (Z.of_nat n <=? hi))) (seq 0 256) = true ->
  byte_ok b -> (v =? Z.land b m) = (lo <=? b) && (b <=? hi).
Proof.
  intros Hall Hb. apply Bool.eqb_prop.
  exact (PlainInet.all_bytes (fun c => Bool.eqb (v =? Z.land c m) ((lo <=? c) && (c <=? hi))) Hall b Hb).
Qed.

(** Membership, with the number of whole bytes and the mask of the next one
    computed. *)
Lemma contains_block f c p t a n m :
  Z.to_nat (p / 8) = n -> (if p mod 8 =? 0 then 0 else u8 (Z.shiftl 255 (8 - p mod 8))) = m ->
  Rules.ch_cidr_contains (Rules.mk_cidr f c p t) a
  = beq (take n c) (take n a) && (Z.land (nth n c 0) m =? Z.land (nth n a 0) m).
Proof.
  intros <- <-. unfold Rules.ch_cidr_contains. cbn [Rules.cidr_address Rules.prefix_length].
  assert (Hn : forall l, byte_at l (p / 8) = nth (Z.to_nat (p / 8)) l 0).
  { intros l. unfold byte_at. rewrite nth_lookup. reflexivity. }
  rewrite !Hn. unfold sub. change (Z.to_nat 0) with 0%nat. rewrite !drop_0.
  destruct (p / 8 >? 0) eqn:Hp.
  - destruct (beq (take _ c) _); [cbn [andb negb]|reflexivity].
    case_if; [rewrite !Z.land_0_r; reflexivity|reflexivity].
  - replace (Z.to_nat (p / 8)) with 0%nat by lia. cbn [andb take]. change (beq [] []) with true.
    case_if; [rewrite !Z.land_0_r; reflexivity|reflexivity].
Qed.

(** Evaluate block membership of an address given byte by byte. *)
Ltac eval_blocks :=
  unfold block; cbn [existsb];
  repeat (erewrite contains_block by (vm_compute; reflexivity));
  cbn -[Z.land Z.geb Z.leb Z.eqb beq orb]; rewrite ?Z.land_0_r, ?beq_cons;
  change (beq [] []) with true; change (0 =? 0) with true; rewrite ?andb_true_r, ?orb_false_r.

(** Compute the literals that the bytes of a block come from. *)
Ltac eval_literals :=
  repeat match goal with
  | |- context [?a / 256] => let v := eval vm_compute in (a / 256) in change (a / 256) with v
  | |- context [?a mod 256] => let v := eval vm_compute in (a mod 256) in change (a mod 256) with v
  end;
  repeat match goal with
  | |- context [Z.land (Zpos ?a) (Zpos ?m)] =>
      let v := eval vm_compute in (Z.land (Zpos a) (Zpos m)) in change (Z.land (Zpos a) (Zpos m)) with v
  end.

(** Put the literal of every comparison with a variable on the right. *)
Ltac literals_right :=
  repeat match goal with
  | |- context [Z0 =? ?v] => is_var v; rewrite (Z.eqb_sym Z0 v)
  | |- context [Zpos ?c =? ?v] => is_var v; rewrite (Z.eqb_sym (Zpos c) v)
  end.

Lemma ipv4_unsafe_blocks x y z w :
  bytes_ok [x; y; z; w] ->
  http_ipv4_unsafe [x; y; z; w]
  = existsb (fun b => Rules.ch_cidr_contains b [x; y; z; w]) special_ipv4.
Proof.
  intros Hok. unfold http_ipv4_unsafe, special_ipv4. eval_blocks.
  inversion_clear Hok as [|?? Hx Hok']. inversion_clear Hok' as [|?? Hy _].
  rewrite (mask_range 16 31 240 (Z.land 16 240) y), (mask_range 64 127 192 (Z.land 64 192) y),
    (mask_range 224 255 224 (Z.land 224 224) x), (Z.eqb_sym (Z.land 18 254))
    by (assumption || (vm_compute; reflexivity)).
  change (byte_at [x; y; z; w] 0) with x. change (byte_at [x; y; z; w] 1) with y.
  change (byte_at [x; y; z; w] 2) with z. change (Z.land 18 254) with 18.
  rewrite !Z.geb_leb. literals_right.
  replace (x <=? 255) with true by (unfold byte_ok in Hx; lia).
  rewrite !andb_true_l, !andb_true_r, !orb_assoc, !andb_assoc. reflexivity.
Qed.

Lemma ipv4_unsafe_spec a :
  lenZ a = 4 -> bytes_ok a -> http_ipv4_unsafe a = false <-> public_ipv4 a.
Proof.
  intros Hl Hok. unfold public_ipv4.
  rewrite (in_blocks_iff _ _ AF_INET) by (assumption || (vm_compute; reflexivity)).
  destruct (length_ipv4 a Hl) as (x & y & z & w & ->). rewrite <- ipv4_unsafe_blocks by assumption.
  rewrite not_true_iff_false. reflexivity.
Qed.

(** The tests on the prefix are the block tests. *)
Lemma prefix_block (a pre : bytes) :
  lenZ a = 16 -> lenZ pre = 12 ->
  Rules.ch_cidr_contains (block AF_INET6 (pre ++ [0; 0; 0; 0]) 96) a = beq (sub a 0 12) pre.
Proof.
  intros Ha Hp. unfold block. erewrite contains_block by (vm_compute; reflexivity).
  rewrite !Z.land_0_r, Z.eqb_refl, andb_true_r.
  rewrite take_app_le by (unfold lenZ in Hp; lia). rewrite (take_ge pre) by (unfold lenZ in Hp; lia).
  unfold sub. change (Z.to_nat 0) with 0%nat. rewrite drop_0.
  apply eq_true_iff_eq. rewrite !beq_true. split; auto.
Qed.

Lemma length_ipv6 (a : bytes) :
  lenZ a = 16 -> exists b0 b1 b2 b3 rest, a = b0 :: b1 :: b2 :: b3 :: rest.
Proof. unfold lenZ. intros. destruct a as [|? [|? [|? [|]]]]; cbn in *; try lia. eauto 6. Qed.

(** A global unicast address is not caught by the tests before the one for
    global unicast. *)
Lemma global_first_tests b0 :
  byte_ok b0 -> (Z.land b0 224 =? 32) = true ->
  (b0 =? 0) = false /\ (Z.land b0 254 =? 252) = false /\
  (b0 =? 254) = false /\ (b0 =? 255) = false.
Proof.
  intros Hb Hg. rewrite Z.eqb_sym, (mask_range 32 63 224 32 b0) in Hg
    by (assumption || (vm_compute; reflexivity)).
  rewrite (Z.eqb_sym (Z.land b0 254)), (mask_range 252 253 254 252 b0) by (assumption || (vm_compute; reflexivity)).
  split_and!; lia.
Qed.

Lemma native_unsafe_blocks a :
  lenZ a = 16 -> bytes_ok a ->
  native_ipv6_unsafe a
  = negb (Rules.ch_cidr_contains global_unicast a)
    || existsb (fun b => Rules.ch_cidr_contains b a) special_ipv6.
Proof.
  intros Hl Hok. destruct (length_ipv6 a Hl) as (b0 & b1 & b2 & b3 & rest & ->).
  unfold native_ipv6_unsafe, special_ipv6, global_unicast. eval_blocks.
  change (byte_at (b0 :: b1 :: b2 :: b3 :: rest) 0) with b0.
  change (byte_at (b0 :: b1 :: b2 :: b3 :: rest) 1) with b1.
  change (byte_at (b0 :: b1 :: b2 :: b3 :: rest) 2) with b2.
  change (byte_at (b0 :: b1 :: b2 :: b3 :: rest) 3) with b3.
  change (all_zero (sub (b0 :: ?l) 0 16)) with ((b0 =? 0) && all_zero (sub l 0 15)).
  change (all_zero (sub (b0 :: ?l) 0 15)) with ((b0 =? 0) && all_zero (sub l 0 14)).
  eval_literals. literals_right. rewrite !(Z.eqb_sym (Zpos _) (Z.land _ _)).
  destruct (Z.land b0 224 =? 32) eqn:Hg.
  - inversion_clear Hok as [|?? Hb0 _]. destruct (global_first_tests b0 Hb0 Hg) as (-> & -> & -> & ->).
    cbn [andb orb negb]. rewrite ?andb_assoc.
    destruct (b0 =? 32), (b1 =? 1), (b1 =? 2), (b2 =? 0), (b2 =? 13), (b3 =? 0), (b3 =? 2),
      (b3 =? 184), (Z.land b3 240 =? 16), (Z.land b3 240 =? 32); reflexivity.
  - cbn [andb orb negb]. case_if; reflexivity.
Qed.

Lemma beq_prefix_value a :
  lenZ a = 16 -> bytes_ok a -> beq (sub a 0 12) compatible = true ->
  (negb (byte_at a 12 =? 0) || negb (byte_at a 13 =? 0) || negb (byte_at a 14 =? 0)
   || (byte_at a 15 >? 1)) = true <-> 1 < Rules.address_value a.
Proof.
  intros Hl Hok Hp. apply beq_true in Hp. pose proof (sub_full a) as E. rewrite Hl in E.
  replace 16 with (12 + 4) in E by reflexivity. rewrite sub_split, Hp in E by lia.
  assert (H4 : lenZ (sub a (0 + 12) 4) = 4) by (rewrite lenZ_sub; lia).
  destruct (length_ipv4 _ H4) as (x & y & z & w & E4). rewrite E4 in E. rewrite <- E in *.
  cbn in Hok. repeat (inversion_clear Hok as [|?? ? Hok']; rename Hok' into Hok). unfold byte_ok in *.
  change (byte_at (compatible ++ [x; y; z; w]) 12) with x.
  change (byte_at (compatible ++ [x; y; z; w]) 13) with y.
  change (byte_at (compatible ++ [x; y; z; w]) 14) with z.
  change (byte_at (compatible ++ [x; y; z; w]) 15) with w.
  rewrite Rules.address_value_app. change (Rules.address_value compatible) with 0.
  change (Rules.address_value [x; y; z; w]) with (x * 2 ^ 24 + (y * 2 ^ 16 + (z * 2 ^ 8 + (w * 2 ^ 0 + 0)))).
  lia.
Qed.

(** The embedding test of the code, as one formula. *)
Lemma embeds_spec a :
  lenZ a = 16 -> bytes_ok a ->
  embeds_ipv4 a <->
  beq (sub a 0 12) mapped = true \/ beq (sub a 0 12) nat64 = true \/
  (beq (sub a 0 12) compatible = true /\
   (negb (byte_at a 12 =? 0) || negb (byte_at a 13 =? 0) || negb (byte_at a 14 =? 0)
    || (byte_at a 15 >? 1)) = true).
Proof.
  intros Hl Hok. unfold embeds_ipv4.
  rewrite !in_block_iff by (assumption || (vm_compute; reflexivity)).
  unfold mapped_block, nat64_block, compatible_block.
  change (groups []) with (compatible ++ [0; 0; 0; 0]).
  rewrite !prefix_block by (assumption || reflexivity).
  assert (H : beq (sub a 0 12) compatible = true ->
              (1 < Rules.address_value a <->
               (negb (byte_at a 12 =? 0) || negb (byte_at a 13 =? 0) || negb (byte_at a 14 =? 0)
                || (byte_at a 15 >? 1)) = true)).
  { intros Hp. symmetry. apply beq_prefix_value; assumption. }
  tauto.
Qed.

Lemma native_unsafe_spec a :
  lenZ a = 16 -> bytes_ok a ->
  native_ipv6_unsafe a = false <->
  Rules.in_block global_unicast a /\ ~ exists b, b ∈ special_ipv6 /\ Rules.in_block b a.
Proof.
  intros Hl Hok. rewrite native_unsafe_blocks, orb_false_iff, negb_false_iff by assumption.
  rewrite (in_blocks_iff _ _ AF_INET6), in_block_iff by (assumption || (vm_compute; reflexivity)).
  rewrite not_true_iff_false. reflexivity.
Qed.

Lemma ipv6_unsafe_spec a :
  lenZ a = 16 -> bytes_ok a ->
  http_sockaddr_unsafe (Some (sockaddr_in6 a)) = false <-> public_ipv6 a.
Proof.
  intros Hl Hok. unfold public_ipv6. rewrite <- native_unsafe_spec by assumption.
  rewrite <- ipv4_unsafe_spec by (auto with bytes; rewrite lenZ_sub; lia).
  rewrite (embeds_spec a Hl Hok). cbn [http_sockaddr_unsafe].
  set (t := negb (byte_at a 12 =? 0) || _ || _ || _).
  destruct (beq (sub a 0 12) mapped) eqn:E1, (beq (sub a 0 12) compatible) eqn:E2,
    (beq (sub a 0 12) nat64) eqn:E3, t eqn:E4; cbn [andb]; intuition discriminate.
Qed.

Lemma sockaddr_unsafe_spec address :
  sockaddr_ok address -> http_sockaddr_unsafe (Some address) = false <-> public address.
Proof.
  destruct address as [a|a|f]; cbn [sockaddr_ok public].
  - intros [Hl Hok]. cbn [http_sockaddr_unsafe]. apply ipv4_unsafe_spec; assumption.
  - intros [Hl Hok]. apply ipv6_unsafe_spec; assumption.
  - cbn. split; [discriminate|tauto].
Qed.

(** the address test is the one of the registries.  [http_sockaddr_unsafe]
    accepts an IPv4 address exactly when it is in none of the fourteen
    special-purpose blocks, and an IPv6 address exactly when it carries a
    public IPv4 address (mapped, NAT64 or compatible form) or is a global
    unicast address outside the six special blocks there; it accepts no other
    family.  Membership is arithmetic on the address as a number, so the
    byte tests and masks of the code are compared with the registries. *)
Theorem sockaddr_unsafe_iff_special address :
  sockaddr_ok address -> http_sockaddr_unsafe (Some address) = false <-> public address.
Proof. apply sockaddr_unsafe_spec. Qed.

(** ** Facts: names *)

(** [localhost] and every name under it, in any letter case. *)
Definition localhost_name (host : bytes) : Prop :=
  map tolower host = str "localhost" \/
  exists p, p <> [] /\ map tolower host = p ++ str ".localhost".

Lemma localhost_spec host : http_host_is_localhost host = true <-> localhost_name host.
Proof.
  unfold http_host_is_localhost, localhost_name. rewrite orb_true_iff, andb_true_iff, !strcaseeq_true.
  change (map tolower (str "localhost")) with (str "localhost").
  change (map tolower (str ".localhost")) with (str ".localhost").
  change (lenZ (str ".localhost")) with 10. apply or_iff_compat_l. split.
  - intros [Hl E]. exists (map tolower (sub host 0 (lenZ host - 10))). split.
    + intros E0. apply (f_equal lenZ) in E0. unfold lenZ in E0 at 1. rewrite length_map in E0.
      fold (lenZ (sub host 0 (lenZ host - 10))) in E0. rewrite lenZ_sub in E0 by lia.
      change (lenZ (@nil Z)) with 0 in E0. lia.
    + rewrite <- E, <- map_app, <- (sub_full host) at 1. f_equal.
      replace (lenZ host) with (lenZ host - 10 + 10) at 1 by lia. rewrite sub_split by lia.
      rewrite Z.add_0_l. reflexivity.
  - intros (p & Hp & E). assert (Hlen : lenZ host = lenZ p + 10).
    { apply (f_equal lenZ) in E. rewrite lenZ_app in E. unfold lenZ in *. rewrite length_map in E.
      cbn in E |- *. lia. }
    assert (0 < lenZ p) by (destruct p; [congruence|rewrite lenZ_cons; pose proof (lenZ_nonneg p); lia]).
    split; [lia|]. unfold sub. rewrite <- firstn_map, <- skipn_map, E.
    replace (Z.to_nat (lenZ host - 10)) with (length p) by (unfold lenZ in *; lia).
    rewrite drop_app_length. reflexivity.
Qed.

Lemma strip_dots_end host p : strip_dots host <> p ++ [46].
Proof.
  revert p. induction host as [|c host IH]; intros p; cbn [strip_dots].
  - destruct p; discriminate.
  - destruct (strip_dots host) as [|d rest].
    + destruct (c =? 46) eqn:E; [destruct p; discriminate|].
      destruct p as [|x p]; [intros [= ->]; discriminate|destruct p; discriminate].
    + destruct p as [|x p]; [discriminate|]. intros [= -> E]. exact (IH p E).
Qed.

(** ** Facts: endpoints *)

Section EndpointFacts.
Context `{Network}.

Lemma check_addresses_spec label host numeric candidates out :
  check_addresses label host numeric candidates = Done out ->
  Forall (fun a => http_sockaddr_unsafe a = false) candidates /\
  (out = numeric \/ exists a, a ∈ candidates /\ getnameinfo a = Some out) /\
  (numeric = [] -> candidates <> [] -> exists a, a ∈ candidates /\ getnameinfo a = Some out).
Proof.
  revert numeric. induction candidates as [|a rest IH]; intros numeric; cbn [check_addresses].
  - intros [= ->]. split_and!; [constructor|auto|congruence].
  - destruct (http_sockaddr_unsafe a) eqn:Ha; [discriminate|]. destruct (beq numeric []) eqn:Hn.
    + destruct (getnameinfo a) as [t|] eqn:Hg; [|discriminate]. intros E.
      apply IH in E as (H1 & H2 & _).
      assert (exists x, x ∈ a :: rest /\ getnameinfo x = Some out).
      { destruct H2 as [-> | (x & Hx & E)]; [exists a; split; [left|assumption]|].
        exists x. split; [right; assumption|assumption]. }
      split_and!; auto.
    + intros E. apply IH in E as (H1 & H2 & _). split_and!; [auto| |].
      * destruct H2 as [-> | (x & Hx & E)]; [auto|]. right. exists x. split; [right|]; assumption.
      * intros ->. discriminate.
Qed.

Lemma check_addresses_first label host a rest text :
  Forall (fun a => http_sockaddr_unsafe a = false) (a :: rest) ->
  getnameinfo a = Some text -> text <> [] ->
  check_addresses label host [] (a :: rest) = Done text.
Proof.
  intros HF Hg Ht. inversion_clear HF as [|?? Ha Hr]. cbn [check_addresses].
  rewrite Ha, Hg. change (beq [] []) with true. cbn match. clear Ha Hg.
  induction Hr as [|b rest Hb Hr IH]; cbn [check_addresses]; [reflexivity|].
  rewrite Hb. destruct (beq text []) eqn:E; [apply beq_true in E; congruence|exact IH].
Qed.

(** What an endpoint the runtime may connect to satisfies. *)
Record endpoint_public (url : bytes) (ep : ch_http_endpoint) (addresses : list (option sockaddr))
  : Prop := mk_public {
  pub_userinfo : http_url_has_userinfo url = false;
  pub_scheme : map tolower (ep_scheme ep) = str "http" \/ map tolower (ep_scheme ep) = str "https";
  pub_local : ~ localhost_name (ep_host ep);
  pub_metadata : http_host_is_metadata (ep_host ep) = false;
  pub_dot : forall p, ep_host ep <> p ++ [46];
  pub_resolved : getaddrinfo (ep_host ep) (ep_port ep) = (0, addresses);
  pub_addresses : Forall (fun a => exists s, a = Some s /\ (sockaddr_ok s -> public s)) addresses;
  pub_pin : exists a text, a ∈ addresses /\ getnameinfo a = Some text /\
            ep_resolve ep = pin (ep_host ep) (ep_port ep) text
}.

Lemma safe_is_public a :
  http_sockaddr_unsafe a = false -> exists s, a = Some s /\ (sockaddr_ok s -> public s).
Proof.
  destruct a as [s|]; [|discriminate]. intros Ha. exists s. split; [reflexivity|].
  intros Hs. apply sockaddr_unsafe_spec; assumption.
Qed.

Lemma url_parts_scheme url parsed ep :
  url_parts url = Some (parsed, ep) ->
  map tolower (ep_scheme ep) = str "http" \/ map tolower (ep_scheme ep) = str "https".
Proof.
  unfold url_parts. destruct (curl_url_set url) as [c|]; [|discriminate]. cbn [mbind option_bind].
  destruct (part_scheme c) as [scheme|]; [|discriminate]. cbn [mbind option_bind].
  destruct (part_host c), (part_port c), (part_url c); cbn [mbind option_bind]; try discriminate.
  case_if; [discriminate|]. intros [= <- <-]. cbn [ep_scheme].
  rewrite orb_false_iff, andb_false_iff, !negb_false_iff, !strcaseeq_true in Heqb. apply Heqb.
Qed.

Lemma prepare_public url purpose ep :
  ch_http_endpoint_prepare (Some url) purpose = Done ep ->
  exists addresses, endpoint_public url ep addresses.
Proof.
  unfold ch_http_endpoint_prepare. destruct (http_url_has_userinfo url) eqn:Hu; [discriminate|].
  cbn [mbind option_bind]. destruct (url_parts url) as [[parsed e]|] eqn:Hparts; [|discriminate].
  case_if; [discriminate|]. destruct (_ || http_host_is_metadata _) eqn:Hn; [discriminate|].
  apply orb_false_iff in Hn as [Hlocal Hmeta].
  destruct (getaddrinfo _ _) as [code addresses] eqn:Hg.
  destruct (negb (code =? 0) || _) eqn:Hc; [discriminate|]. apply orb_false_iff in Hc as [Hc Hne].
  apply negb_false_iff, Z.eqb_eq in Hc as ->. apply bool_decide_eq_false in Hne.
  intros E. apply bind_Done_inv in E as (numeric & Hcheck & E). injection E as <-.
  apply check_addresses_spec in Hcheck as (Hsafe & _ & Hpin).
  exists addresses. constructor; cbn [ep_scheme ep_host ep_port ep_resolve]; try assumption.
  - eapply url_parts_scheme; eauto.
  - rewrite <- localhost_spec. congruence.
  - apply strip_dots_end.
  - eapply List.Forall_impl; [|exact Hsafe]. apply safe_is_public.
  - destruct (Hpin eq_refl Hne) as (a & Ha & Ht). eauto.
Qed.

(** a prepared endpoint is public and pinned.  When
    [ch_http_endpoint_prepare] succeeds, the URL has no user information, the
    scheme is http or https, the canonical host is neither a localhost name
    nor a cloud metadata name and has no final dot, every address the host
    resolves to is public in the sense of the registries (not only the one
    used), and the [CURLOPT_RESOLVE] entry pins the text of one of exactly
    those addresses. *)
Theorem endpoint_prepare_public url purpose ep :
  ch_http_endpoint_prepare (Some url) purpose = Done ep ->
  exists addresses, endpoint_public url ep addresses.
Proof. apply prepare_public. Qed.

(** a public host is accepted.  A URL without user information that libcurl
    parses into an http or https endpoint, whose host is an ordinary name and
    resolves to public addresses only, is accepted, and the first resolved
    address is the one pinned. *)
Theorem endpoint_prepare_accepts url purpose parsed ep a rest text :
  http_url_has_userinfo url = false ->
  url_parts url = Some (parsed, ep) -> part_user parsed = None -> part_password parsed = None ->
  http_host_is_localhost (canonical_host (ep_host ep)) = false ->
  http_host_is_metadata (canonical_host (ep_host ep)) = false ->
  getaddrinfo (canonical_host (ep_host ep)) (ep_port ep) = (0, a :: rest) ->
  Forall (fun a => exists s, a = Some s /\ sockaddr_ok s /\ public s) (a :: rest) ->
  getnameinfo a = Some text -> text <> [] ->
  ch_http_endpoint_prepare (Some url) purpose =
  Done (mk_endpoint (ep_url ep) (ep_scheme ep) (canonical_host (ep_host ep)) (ep_port ep)
          (pin (canonical_host (ep_host ep)) (ep_port ep) text)).
Proof.
  intros Hu Hparts Huser Hpass Hl Hm Hg HF Ht Hne. unfold ch_http_endpoint_prepare.
  rewrite Hu. cbn [mbind option_bind]. rewrite Hparts, Huser, Hpass.
  rewrite !bool_decide_eq_false_2 by (intros [? ?]; discriminate). cbn [orb].
  rewrite Hl, Hm, Hg. cbn [orb]. rewrite Z.eqb_refl, bool_decide_eq_false_2 by discriminate.
  cbn [negb orb]. rewrite (check_addresses_first _ _ a rest text); [reflexivity| |assumption..].
  eapply List.Forall_impl; [|exact HF]. intros x (s & -> & Hs & Hp).
  apply sockaddr_unsafe_spec; assumption.
Qed.

End EndpointFacts.

(** A network with one host. *)
Definition w_network : Network := {|
  curl_url_set := fun url =>
    if beq url (str "https://Example.org./feed") then
      Some (mk_parts (Some (str "https")) (Some (str "Example.org.")) (Some (str "443"))
              (Some url) None None)
    else None;
  getaddrinfo := fun host port =>
    if beq host (str "Example.org")
    then (0, [Some (sockaddr_in [93; 184; 216; 34]); Some (sockaddr_in [1; 1; 1; 1])]) else (-2, []);
  gai_strerror := fun _ => str "unknown name";
  getnameinfo := fun a =>
    match a with Some (sockaddr_in b) => Some (PlainInet.dotted b) | _ => None end
|}.

Definition w_endpoint : ch_http_endpoint :=
  mk_endpoint (str "https://Example.org./feed") (str "https") (str "Example.org") (str "443")
    (str "Example.org:443:93.184.216.34").

End HttpSafety.
