(* ===== verification/IpTcp.v ===== *)
(** * TCP address translation of the IP stack: [native/src/ip_stack.c]

    A TCP connection that an application opens through the TUN device is
    terminated by the stack: the packet's destination is rewritten to the
    address of the stack's interface and to a port of its own, behind which a
    listener of lwIP waits, and the packets that lwIP sends back get the
    application's destination as their source again.  This file models the
    flow table, the allocation of the internal ports and the two rewriting
    steps.  lwIP itself is a parameter: the results of its calls are the
    record [lwip_env]. *)

From S2P Require Import Prelude CLib IpWire IpDns.

Module Tcp.

Export Wire Dns.

Definition CH_IP_STACK_TCP_FIRST_PORT : Z := 20000.
Definition CH_IP_STACK_TCP_LAST_PORT : Z := 59999.
Definition CH_IP_STACK_TCP_FLOW_LIMIT : Z := 512.

(** ** Data *)

(** The fields of [struct ch_ip_stack_tcp_flow] that routing a packet uses; the
    protocol control blocks, the descriptor and the byte queues belong to the
    relaying of data, which is not part of this component. *)
Record tcp_flow : Type := mk_tcp_flow {
  t_source_address : bytes;    (** [uint8_t\[16\]] *)
  t_target_address : bytes;
  t_address_family : address_family;
  t_source_port : Z;           (** [uint16_t] *)
  t_target_port : Z;
  t_internal_port : Z;
  t_created_at : Z;            (** [u32_t] milliseconds *)
  t_domain_hint : bytes;
  t_dead : bool
}.

(** The part of [struct ch_ip_stack] the component changes. *)
Record tcp_state : Type := mk_tcp_state {
  tcp_flows : list tcp_flow;
  tcp_flow_count : Z;
  next_tcp_port : Z;
  tcp_dns : dns_cache
}.

(** The part that is fixed when the stack is created. *)
Record tcp_config : Type := mk_tcp_config {
  cfg_ipv4 : bytes;            (** [netif_ip4_addr(&stack->interface)] *)
  cfg_ipv6 : bytes;            (** [netif_ip6_addr(&stack->interface, stack->ipv6_index)] *)
  cfg_dialer : bool            (** [stack->tcp_dialer != NULL] *)
}.

(** [err_t] of lwIP, as far as the code tells the values apart. *)
Inductive err_t : Type := ERR_OK | ERR_MEM | ERR_USE | ERR_OTHER.

#[export] Instance err_t_eq_dec : EqDecision err_t.
Proof. solve_decision. Defined.

(** One call's environment: the clock, the allocator and lwIP.  [lw_listen] is
    the error of [tcp_listen_with_backlog_and_err] and whether it returned a
    control block. *)
Record lwip_env : Type := mk_lwip {
  lw_now : Z;
  lw_calloc : bool;
  lw_new : Z -> bool;          (** [tcp_new_ip_type(...) != NULL], by attempted port *)
  lw_bind : Z -> err_t;        (** [tcp_bind(pcb, &local, port)] *)
  lw_listen : bool * err_t
}.

(** ** The flow table *)

Definition address_is (af : address_family) (stored address : bytes) : bool :=
  let n := Z.to_nat (ch_ip_stack_address_length af) in beq (take n stored) (take n address).

Definition is_input (af : address_family) (source : bytes) (source_port : Z) (target : bytes)
    (target_port : Z) (flow : tcp_flow) : bool :=
  negb (t_dead flow) && bool_decide (t_address_family flow = af)
  && (t_source_port flow =? source_port) && (t_target_port flow =? target_port)
  && address_is af (t_source_address flow) source
  && address_is af (t_target_address flow) target.

Definition ch_ip_stack_tcp_flow_for_input (state : tcp_state) (af : address_family)
    (source : bytes) (source_port : Z) (target : bytes) (target_port : Z) : option tcp_flow :=
  List.find (is_input af source source_port target target_port) (tcp_flows state).

Definition is_output (af : address_family) (client : bytes) (client_port internal_port : Z)
    (flow : tcp_flow) : bool :=
  negb (t_dead flow) && bool_decide (t_address_family flow = af)
  && (t_source_port flow =? client_port) && (t_internal_port flow =? internal_port)
  && address_is af (t_source_address flow) client.

Definition ch_ip_stack_tcp_flow_for_output (state : tcp_state) (af : address_family)
    (client : bytes) (client_port internal_port : Z) : option tcp_flow :=
  List.find (is_output af client client_port internal_port) (tcp_flows state).

Definition ch_ip_stack_tcp_port_in_use (state : tcp_state) (port : Z) : bool :=
  existsb (fun flow => negb (t_dead flow) && (t_internal_port flow =? port)) (tcp_flows state).

(** [++stack->next_tcp_port] with the wrap to the first port. *)
Definition advance_port (port : Z) : Z :=
  let next := u16 (port + 1) in
  if next >? CH_IP_STACK_TCP_LAST_PORT then CH_IP_STACK_TCP_FIRST_PORT else next.

(** The allocation loop: the port to try next, and the port that was bound or
    the last error. *)
Fixpoint bind_loop (fuel : nat) (state : tcp_state) (env : lwip_env) (next : Z) (bind_error : err_t)
    : Z * (Z + err_t) :=
  match fuel with
  | O => (next, inr bind_error)
  | S fuel' =>
      let port := next in
      let next := advance_port next in
      if ch_ip_stack_tcp_port_in_use state port then bind_loop fuel' state env next bind_error
      else if negb (lw_new env port) then (next, inr ERR_MEM)
      else
        match lw_bind env port with
        | ERR_OK => (next, inl port)
        | e => bind_loop fuel' state env next e
        end
  end.

Definition port_attempts : nat :=
  Z.to_nat (CH_IP_STACK_TCP_LAST_PORT - CH_IP_STACK_TCP_FIRST_PORT + 1).

Definition pad (af : address_family) (a : bytes) : bytes :=
  let n := ch_ip_stack_address_length af in
  take (Z.to_nat n) a ++ replicate (Z.to_nat (16 - n)) 0.

Definition ch_ip_stack_tcp_flow_create (state : tcp_state) (env : lwip_env) (af : address_family)
    (source : bytes) (source_port : Z) (target : bytes) (target_port : Z)
    : tcp_state * result tcp_flow :=
  if tcp_flow_count state >=? CH_IP_STACK_TCP_FLOW_LIMIT then
    (state, fail CH_ERROR_INVALID_STATE (str "native TCP TUN flow limit reached"))
  else if negb (lw_calloc env) then
    (state, fail CH_ERROR_OUT_OF_MEMORY (str "allocate TCP TUN flow"))
  else
    let '(hint, dns) :=
      ch_ip_stack_domain_hint (tcp_dns state) (lw_now env) af target target_port in
    let '(next, bound) := bind_loop port_attempts state env (next_tcp_port state) ERR_USE in
    let state := mk_tcp_state (tcp_flows state) (tcp_flow_count state) next dns in
    match bound with
    | inr bind_error =>
        (state,
         fail (if bool_decide (bind_error = ERR_MEM) then CH_ERROR_OUT_OF_MEMORY
               else CH_ERROR_INVALID_STATE)
           (str "allocate internal TCP TUN listener"))
    | inl port =>
        let '(listener, listen_error) := lw_listen env in
        if negb listener || negb (bool_decide (listen_error = ERR_OK)) then
          (state,
           fail (if bool_decide (listen_error = ERR_MEM) then CH_ERROR_OUT_OF_MEMORY
                 else CH_ERROR_INTERNAL)
             (str "listen for internal TCP TUN flow"))
        else
          let flow := mk_tcp_flow (pad af source) (pad af target) af source_port target_port port
                        (lw_now env) hint false in
          (mk_tcp_state (flow :: tcp_flows state) (tcp_flow_count state + 1) next dns, Done flow)
    end.

(** Dead flows leave the table. *)
Definition ch_ip_stack_tcp_sweep (state : tcp_state) : tcp_state :=
  mk_tcp_state (filter (fun f => t_dead f = false) (tcp_flows state))
    (tcp_flow_count state - lenZ (filter (fun f => t_dead f = true) (tcp_flows state)))
    (next_tcp_port state) (tcp_dns state).

(** ** Packets from the stack to the application *)

Definition ch_ip_stack_rewrite_tcp_output (state : tcp_state) (packet : bytes) : result bytes :=
  let length := lenZ packet in
  b0 ← rd packet 0;
  let version := Z.shiftr b0 4 in
  if version =? 6 then
    transport ← ch_ip_stack_ipv6_transport packet;
    match transport with
    | None => Done packet
    | Some (protocol, tcp_offset) =>
        if negb (protocol =? 6) || (length <? tcp_offset + 20) then Done packet
        else
          internal_port ← ch_ip_stack_read_u16 packet tcp_offset;
          client_port ← ch_ip_stack_read_u16 packet (tcp_offset + 2);
          client ← rds packet 24 16;
          match ch_ip_stack_tcp_flow_for_output state AF_INET6 client client_port internal_port with
          | None => Done packet
          | Some flow =>
              target ← rds (t_target_address flow) 0 16;
              packet ← wr packet 8 target;
              packet ← ch_ip_stack_write_u16 packet tcp_offset (t_target_port flow);
              ch_ip_stack_ipv6_tcp_checksum packet
          end
    end
  else if (length <? 40) || negb (version =? 4) then Done packet
  else
    protocol ← rd packet 9;
    if negb (protocol =? 6) then Done packet
    else
      let header_length := Z.land b0 15 * 4 in
      if (header_length <? 20) || (length <? header_length + 20) then Done packet
      else
        internal_port ← ch_ip_stack_read_u16 packet header_length;
        client_port ← ch_ip_stack_read_u16 packet (header_length + 2);
        client ← rds packet 16 4;
        match ch_ip_stack_tcp_flow_for_output state AF_INET client client_port internal_port with
        | None => Done packet
        | Some flow =>
            target ← rds (t_target_address flow) 0 4;
            packet ← wr packet 12 target;
            packet ← ch_ip_stack_write_u16 packet header_length (t_target_port flow);
            ch_ip_stack_ipv4_checksums packet
        end.

(** ** Packets from the application to the stack *)

(** A state change with an outcome: [Raise] keeps the state reached. *)
Definition with_state {S A B} (s : S) (m : result A) (k : A -> S * result B) : S * result B :=
  match m with
  | Done a => k a
  | Raise e => (s, Raise e)
  | Fault => (s, Fault)
  end.

(** The flow of a segment: the one in the table, or a new one for a SYN without
    ACK; [Done None] for a stray segment. *)
Definition input_flow (state : tcp_state) (env : lwip_env) (af : address_family)
    (source : bytes) (source_port : Z) (target : bytes) (target_port flags : Z)
    : tcp_state * result (option tcp_flow) :=
  match ch_ip_stack_tcp_flow_for_input state af source source_port target target_port with
  | Some flow => (state, Done (Some flow))
  | None =>
      let syn := negb (Z.land flags 2 =? 0) in
      let ack := negb (Z.land flags 16 =? 0) in
      if negb syn || ack then (state, Done None)
      else
        let '(state, created) :=
          ch_ip_stack_tcp_flow_create state env af source source_port target target_port in
        (state, flow ← created; Done (Some flow))
  end.

Definition ch_ip_stack_prepare_ipv4_tcp_input (config : tcp_config) (state : tcp_state)
    (env : lwip_env) (packet : bytes) : tcp_state * result bytes :=
  let length := lenZ packet in
  with_state state (b0 ← rd packet 0; n ← ch_ip_stack_read_u16 packet 2; Done (b0, n))
    (fun '(b0, total_length) =>
  let header_length := Z.land b0 15 * 4 in
  if (header_length <? 20) || (header_length >? length) || (total_length <? header_length)
     || negb (total_length =? length)
  then (state, fail CH_ERROR_PARSE (str "invalid IPv4 packet length"))
  else
    with_state state (p ← rd packet 9; d ← rds packet 16 4; Done (p, d)) (fun '(protocol, target) =>
    if negb (protocol =? 6) || beq target (cfg_ipv4 config) then (state, Done packet)
    else if negb (cfg_dialer config) then
      (state, fail CH_ERROR_UNSUPPORTED (str "IPv4 TCP forwarding has no route dialer"))
    else
      with_state state (ch_ip_stack_read_u16 packet 6) (fun fragment =>
      if negb (Z.land fragment 16383 =? 0) then
        (state, fail CH_ERROR_UNSUPPORTED (str "fragmented IPv4 TCP forwarding is not implemented"))
      else if length <? header_length + 20 then
        (state, fail CH_ERROR_PARSE (str "truncated IPv4 TCP packet"))
      else
        with_state state (rd packet (header_length + 12)) (fun offset_byte =>
        let tcp_header_length := Z.shiftr offset_byte 4 * 4 in
        if (tcp_header_length <? 20) || (header_length + tcp_header_length >? length) then
          (state, fail CH_ERROR_PARSE (str "invalid IPv4 TCP header"))
        else
          with_state state
            (source_port ← ch_ip_stack_read_u16 packet header_length;
             target_port ← ch_ip_stack_read_u16 packet (header_length + 2);
             source ← rds packet 12 4;
             flags ← rd packet (header_length + 13);
             Done (source_port, target_port, source, flags))
            (fun '(source_port, target_port, source, flags) =>
          let '(state, flow) :=
            input_flow state env AF_INET source source_port target target_port flags in
          with_state state flow (fun flow =>
          match flow with
          | None => (state, Done packet)
          | Some flow =>
              (state,
               packet ← wr packet 16 (cfg_ipv4 config);
               packet ← ch_ip_stack_write_u16 packet (header_length + 2) (t_internal_port flow);
               ch_ip_stack_ipv4_checksums packet)
          end)))))).

Definition ch_ip_stack_prepare_ipv6_tcp_input (config : tcp_config) (state : tcp_state)
    (env : lwip_env) (packet : bytes) : tcp_state * result bytes :=
  let length := lenZ packet in
  let bad_length := (state, fail CH_ERROR_PARSE (str "invalid IPv6 packet length")) in
  if length <? 40 then bad_length
  else
    with_state state (ch_ip_stack_read_u16 packet 4) (fun payload =>
    if negb (payload =? length - 40) then bad_length
    else
      with_state state (ch_ip_stack_ipv6_transport packet) (fun transport =>
      match transport with
      | None => (state, fail CH_ERROR_PARSE (str "invalid IPv6 extension header chain"))
      | Some (protocol, tcp_offset) =>
          with_state state (rds packet 24 16) (fun target =>
          if negb (protocol =? 6) || beq target (cfg_ipv6 config) then (state, Done packet)
          else if negb (cfg_dialer config) then
            (state, fail CH_ERROR_UNSUPPORTED (str "IPv6 TCP forwarding has no route dialer"))
          else if length <? tcp_offset + 20 then
            (state, fail CH_ERROR_PARSE (str "truncated IPv6 TCP packet"))
          else
            with_state state (rd packet (tcp_offset + 12)) (fun offset_byte =>
            let tcp_header_length := Z.shiftr offset_byte 4 * 4 in
            if (tcp_header_length <? 20) || (tcp_offset + tcp_header_length >? length) then
              (state, fail CH_ERROR_PARSE (str "invalid IPv6 TCP header"))
            else
              with_state state
                (source_port ← ch_ip_stack_read_u16 packet tcp_offset;
                 target_port ← ch_ip_stack_read_u16 packet (tcp_offset + 2);
                 source ← rds packet 8 16;
                 flags ← rd packet (tcp_offset + 13);
                 Done (source_port, target_port, source, flags))
                (fun '(source_port, target_port, source, flags) =>
              let '(state, flow) :=
                input_flow state env AF_INET6 source source_port target target_port flags in
              with_state state flow (fun flow =>
              match flow with
              | None => (state, Done packet)
              | Some flow =>
                  (state,
                   packet ← wr packet 24 (cfg_ipv6 config);
                   packet ← ch_ip_stack_write_u16 packet (tcp_offset + 2) (t_internal_port flow);
                   ch_ip_stack_ipv6_tcp_checksum packet)
              end))))
      end)).

Definition ch_ip_stack_prepare_tcp_input (config : tcp_config) (state : tcp_state) (env : lwip_env)
    (packet : bytes) : tcp_state * result bytes :=
  with_state state (rd packet 0) (fun b0 =>
  let version := Z.shiftr b0 4 in
  if version =? 4 then ch_ip_stack_prepare_ipv4_tcp_input config state env packet
  else if version =? 6 then ch_ip_stack_prepare_ipv6_tcp_input config state env packet
  else (state, Done packet)).

(** ** The table invariant *)

(** [flow->dead = 1], as the abort, error and tick paths set it. *)
Definition kill_flow (f : tcp_flow) : tcp_flow :=
  mk_tcp_flow (t_source_address f) (t_target_address f) (t_address_family f) (t_source_port f)
    (t_target_port f) (t_internal_port f) (t_created_at f) (t_domain_hint f) true.

Definition live (state : tcp_state) : list tcp_flow :=
  filter (fun f => t_dead f = false) (tcp_flows state).

Definition port_in_range (port : Z) : Prop :=
  CH_IP_STACK_TCP_FIRST_PORT <= port <= CH_IP_STACK_TCP_LAST_PORT.

(** The five-tuple a flow stands for. *)
Definition flow_key (f : tcp_flow) : address_family * bytes * Z * bytes * Z :=
  (t_address_family f, t_source_address f, t_source_port f, t_target_address f, t_target_port f).

Record flow_ok (f : tcp_flow) : Prop := mk_flow_ok {
  fo_source : exists a, lenZ a = ch_ip_stack_address_length (t_address_family f) /\ bytes_ok a /\
                        t_source_address f = pad (t_address_family f) a;
  fo_target : exists a, lenZ a = ch_ip_stack_address_length (t_address_family f) /\ bytes_ok a /\
                        t_target_address f = pad (t_address_family f) a;
  fo_target_port : 0 <= t_target_port f <= UINT16_MAX;
  fo_internal : port_in_range (t_internal_port f)
}.

Record tcp_ok (state : tcp_state) : Prop := mk_tcp_ok {
  ok_count : tcp_flow_count state = lenZ (tcp_flows state);
  ok_limit : tcp_flow_count state <= CH_IP_STACK_TCP_FLOW_LIMIT;
  ok_next : port_in_range (next_tcp_port state);
  ok_flows : Forall flow_ok (tcp_flows state);
  ok_ports : NoDup (map t_internal_port (live state));
  ok_keys : NoDup (map flow_key (live state))
}.

(** ** Facts: ports *)

Lemma advance_port_range port : port_in_range port -> port_in_range (advance_port port).
Proof.
  unfold port_in_range, advance_port, CH_IP_STACK_TCP_FIRST_PORT, CH_IP_STACK_TCP_LAST_PORT, u16.
  intros. rewrite Z.mod_small by lia. case_if; lia.
Qed.

Lemma port_in_use_spec state port :
  ch_ip_stack_tcp_port_in_use state port = true <-> port ∈ map t_internal_port (live state).
Proof.
  unfold ch_ip_stack_tcp_port_in_use, live. rewrite existsb_exists, list_elem_of_In, in_map_iff. split.
  - intros (f & Hf & E). apply andb_true_iff in E as [Hd Hp]. exists f. split; [lia|].
    apply list_elem_of_In, list_elem_of_filter. apply list_elem_of_In in Hf.
    split; [destruct (t_dead f); [discriminate|reflexivity]|assumption].
  - intros (f & <- & Hf). apply list_elem_of_In, list_elem_of_filter in Hf as [Hd Hf].
    exists f. split; [apply list_elem_of_In; assumption|]. rewrite Hd, Z.eqb_refl. reflexivity.
Qed.

Lemma bind_loop_spec fuel state env next e next' r :
  port_in_range next -> bind_loop fuel state env next e = (next', r) ->
  port_in_range next' /\
  forall port, r = inl port ->
    port_in_range port /\ port ∉ map t_internal_port (live state).
Proof.
  revert next e. induction fuel as [|fuel IH]; intros next e Hn; cbn [bind_loop].
  - intros [= <- <-]. split; [assumption|discriminate].
  - pose proof (advance_port_range next Hn) as Ha.
    destruct (ch_ip_stack_tcp_port_in_use state next) eqn:Hu; [apply IH; assumption|].
    destruct (lw_new env next); cbn [negb]; [|intros [= <- <-]; split; [assumption|discriminate]].
    destruct (lw_bind env next); [|apply IH; assumption..].
    intros [= <- <-]. split; [assumption|]. intros port [= <-]. split; [assumption|].
    rewrite <- port_in_use_spec. congruence.
Qed.

(** The ports the loop tries, in order. *)
Fixpoint tried (fuel : nat) (next : Z) : list Z :=
  match fuel with O => [] | S fuel' => next :: tried fuel' (advance_port next) end.

Lemma bind_loop_accepts fuel state env next e :
  (forall port, lw_new env port = true) -> (forall port, lw_bind env port = ERR_OK) ->
  (forall port, port ∈ tried fuel next -> port ∈ map t_internal_port (live state)) \/
  exists next' port, bind_loop fuel state env next e = (next', inl port).
Proof.
  intros Hnew Hbind. revert next e. induction fuel as [|fuel IH]; intros next e; cbn [tried bind_loop].
  - left. intros port Hp. apply elem_of_nil in Hp as [].
  - destruct (ch_ip_stack_tcp_port_in_use state next) eqn:Hu.
    + destruct (IH (advance_port next) e) as [Hall | H]; [left|right; exact H].
      intros port Hp. apply elem_of_cons in Hp as [-> | Hp]; [apply port_in_use_spec, Hu|auto].
    + right. rewrite Hnew, Hbind. cbn [negb]. eauto.
Qed.

(** The position of a port on the cycle. *)
Lemma advance_port_cycle port :
  port_in_range port ->
  (advance_port port - CH_IP_STACK_TCP_FIRST_PORT)
  = (port - CH_IP_STACK_TCP_FIRST_PORT + 1) mod 40000.
Proof.
  unfold port_in_range, advance_port, CH_IP_STACK_TCP_FIRST_PORT, CH_IP_STACK_TCP_LAST_PORT, u16.
  intros. rewrite Z.mod_small by lia. case_if.
  - replace port with 59999 by lia. reflexivity.
  - rewrite Z.mod_small by lia. lia.
Qed.

Lemma tried_spec fuel next port :
  port_in_range next -> port ∈ tried fuel next ->
  exists k, (k < fuel)%nat /\
    port = CH_IP_STACK_TCP_FIRST_PORT + (next - CH_IP_STACK_TCP_FIRST_PORT + Z.of_nat k) mod 40000.
Proof.
  revert next. induction fuel as [|fuel IH]; intros next Hn Hp; cbn [tried] in Hp;
    [apply elem_of_nil in Hp as []|].
  apply elem_of_cons in Hp as [-> | Hp].
  - exists 0%nat. split; [lia|]. unfold port_in_range, CH_IP_STACK_TCP_FIRST_PORT, CH_IP_STACK_TCP_LAST_PORT in *.
    rewrite Z.mod_small by lia. lia.
  - destruct (IH _ (advance_port_range _ Hn) Hp) as (k & Hk & ->). exists (S k). split; [lia|].
    rewrite advance_port_cycle by assumption. rewrite Zplus_mod_idemp_l. do 2 f_equal. lia.
Qed.

Lemma tried_NoDup fuel next :
  port_in_range next -> (Z.of_nat fuel <= 40000) -> NoDup (tried fuel next).
Proof.
  revert next. induction fuel as [|fuel IH]; intros next Hn Hf; cbn [tried]; [constructor|].
  constructor; [|apply IH; [apply advance_port_range; assumption|lia]].
  intros Hin. apply tried_spec in Hin as (k & Hk & E); [|apply advance_port_range; assumption].
  rewrite advance_port_cycle, Zplus_mod_idemp_l in E by assumption.
  unfold port_in_range, CH_IP_STACK_TCP_FIRST_PORT, CH_IP_STACK_TCP_LAST_PORT in *.
  pose proof (Z.div_mod (next - 20000 + 1 + Z.of_nat k) 40000 ltac:(lia)).
  pose proof (Z.mod_pos_bound (next - 20000 + 1 + Z.of_nat k) 40000 ltac:(lia)). lia.
Qed.

Lemma tried_length fuel next : length (tried fuel next) = fuel.
Proof. revert next. induction fuel; intros next; cbn [tried length]; auto. Qed.

Lemma live_length state : (length (live state) <= length (tcp_flows state))%nat.
Proof. apply length_filter. Qed.

(** Fewer live flows than ports: the loop finds a free one. *)
Lemma bind_loop_finds state env next e :
  tcp_ok state -> port_in_range next ->
  (forall port, lw_new env port = true) -> (forall port, lw_bind env port = ERR_OK) ->
  exists next' port, bind_loop port_attempts state env next e = (next', inl port).
Proof.
  intros Hok Hn Hnew Hbind.
  destruct (bind_loop_accepts port_attempts state env next e Hnew Hbind) as [Hall | H]; [|exact H].
  exfalso. assert (Hle : (length (tried port_attempts next) <= length (map t_internal_port (live state)))%nat).
  { apply NoDup_incl_length; [apply NoDup_ListNoDup, tried_NoDup; [assumption|vm_compute; discriminate]|].
    intros port Hp. apply list_elem_of_In, Hall, list_elem_of_In, Hp. }
  rewrite tried_length, length_map in Hle. pose proof (live_length state).
  destruct Hok as [Hc Hl _ _ _ _]. unfold CH_IP_STACK_TCP_FLOW_LIMIT, lenZ in *.
  apply inj_le in Hle. unfold port_attempts in Hle. rewrite Z2Nat.id in Hle by (vm_compute; discriminate).
  change (CH_IP_STACK_TCP_LAST_PORT - CH_IP_STACK_TCP_FIRST_PORT + 1) with 40000 in Hle. lia.
Qed.

(** ** Facts: the table *)

Lemma pad_take af a :
  lenZ a = ch_ip_stack_address_length af ->
  take (Z.to_nat (ch_ip_stack_address_length af)) (pad af a) = a /\ length (pad af a) = 16%nat.
Proof.
  intros Hl. unfold pad, lenZ in *. split.
  - rewrite take_app_le by (rewrite length_take; lia). rewrite take_take, Nat.min_id. apply take_ge. lia.
  - rewrite length_app, length_take, length_replicate. destruct af; cbn in *; lia.
Qed.

Lemma pad_inj af a b :
  lenZ a = ch_ip_stack_address_length af -> lenZ b = ch_ip_stack_address_length af ->
  pad af a = pad af b -> a = b.
Proof.
  intros Ha Hb E. rewrite <- (proj1 (pad_take af a Ha)), <- (proj1 (pad_take af b Hb)), E. reflexivity.
Qed.

Lemma address_is_pad af a b :
  lenZ a = ch_ip_stack_address_length af -> lenZ b = ch_ip_stack_address_length af ->
  address_is af (pad af a) b = true <-> a = b.
Proof.
  intros Ha Hb. unfold address_is. rewrite beq_true, (proj1 (pad_take af a Ha)).
  rewrite (take_ge b) by (unfold lenZ in *; lia). reflexivity.
Qed.

Lemma is_input_spec f af source sport target tport :
  flow_ok f -> lenZ source = ch_ip_stack_address_length af ->
  lenZ target = ch_ip_stack_address_length af ->
  is_input af source sport target tport f = true <->
  t_dead f = false /\ flow_key f = (af, pad af source, sport, pad af target, tport).
Proof.
  intros [(a & Ha & _ & Ea) (b & Hb & _ & Eb) _ _] Hs Ht. unfold is_input, flow_key.
  rewrite !andb_true_iff, negb_true_iff, bool_decide_eq_true, !Z.eqb_eq, Ea, Eb. split.
  - intros [[[[[Hd <-] ->] ->] H1] H2]. split; [assumption|].
    apply address_is_pad in H1, H2; congruence.
  - intros [Hd E]. injection E as <- E1 -> E2 ->. apply pad_inj in E1, E2; try assumption. subst a b.
    split_and!; auto; apply address_is_pad; auto.
Qed.

Lemma is_output_spec f af client cport port :
  flow_ok f -> lenZ client = ch_ip_stack_address_length af ->
  is_output af client cport port f = true <->
  t_dead f = false /\ t_address_family f = af /\ t_source_address f = pad af client /\
  t_source_port f = cport /\ t_internal_port f = port.
Proof.
  intros [(a & Ha & _ & Ea) _ _ _] Hc. unfold is_output.
  rewrite !andb_true_iff, negb_true_iff, bool_decide_eq_true, !Z.eqb_eq, Ea. split.
  - intros [[[[Hd <-] ->] ->] H1]. split_and!; auto. apply address_is_pad in H1; congruence.
  - intros (Hd & <- & E & -> & ->). apply pad_inj in E; try assumption. subst a.
    split_and!; auto. apply address_is_pad; auto.
Qed.

Lemma live_elem state f : f ∈ live state <-> t_dead f = false /\ f ∈ tcp_flows state.
Proof. unfold live. rewrite list_elem_of_filter. reflexivity. Qed.

Lemma find_live (P : tcp_flow -> bool) state f :
  tcp_ok state -> List.find P (tcp_flows state) = Some f ->
  P f = true /\ f ∈ tcp_flows state /\ flow_ok f.
Proof.
  intros Hok E. apply find_some in E as [Hin HP]. apply list_elem_of_In in Hin.
  split_and!; auto. destruct Hok as [_ _ _ HF _ _]. rewrite Forall_forall in HF.
  apply HF, list_elem_of_In, Hin.
Qed.

(** The flow found for a segment is the one with its five-tuple. *)
Lemma for_input_spec state af source sport target tport f :
  tcp_ok state -> lenZ source = ch_ip_stack_address_length af ->
  lenZ target = ch_ip_stack_address_length af ->
  ch_ip_stack_tcp_flow_for_input state af source sport target tport = Some f ->
  f ∈ live state /\ flow_ok f /\ flow_key f = (af, pad af source, sport, pad af target, tport).
Proof.
  intros Hok Hs Ht E. apply find_live in E as (HP & Hin & Hf); [|assumption].
  apply is_input_spec in HP as [Hd Hk]; try assumption. split_and!; auto. apply live_elem. auto.
Qed.

Lemma for_input_None state af source sport target tport :
  tcp_ok state -> lenZ source = ch_ip_stack_address_length af ->
  lenZ target = ch_ip_stack_address_length af ->
  ch_ip_stack_tcp_flow_for_input state af source sport target tport = None ->
  (af, pad af source, sport, pad af target, tport) ∉ map flow_key (live state).
Proof.
  intros Hok Hs Ht E Hin. apply list_elem_of_In, in_map_iff in Hin as (f & Hk & Hf).
  apply list_elem_of_In, live_elem in Hf as [Hd Hf]. apply list_elem_of_In in Hf.
  pose proof (find_none _ _ E f Hf) as HP. destruct Hok as [_ _ _ HF _ _].
  rewrite Forall_forall in HF.
  rewrite (proj2 (is_input_spec f af source sport target tport (HF f Hf) Hs Ht)) in HP by auto.
  discriminate.
Qed.

(** Internal ports are unique, so the flow of a packet that lwIP sends is
    determined by its source port. *)
Lemma for_output_unique state f client cport :
  tcp_ok state -> f ∈ live state -> lenZ client = ch_ip_stack_address_length (t_address_family f) ->
  t_source_address f = pad (t_address_family f) client -> t_source_port f = cport ->
  ch_ip_stack_tcp_flow_for_output state (t_address_family f) client cport (t_internal_port f) = Some f.
Proof.
  intros Hok Hf Hc Es Ep. pose proof Hf as Hl. apply live_elem in Hl as [Hd Hin].
  pose proof (ok_flows _ Hok) as HF. rewrite Forall_forall in HF.
  unfold ch_ip_stack_tcp_flow_for_output.
  destruct (List.find _ (tcp_flows state)) as [g|] eqn:E.
  - apply find_live in E as (HP & Hg & Hgok); [|assumption].
    apply is_output_spec in HP as (Hgd & _ & _ & _ & Hport); [|assumption..].
    f_equal. eapply (NoDup_map_inj t_internal_port); [apply (ok_ports _ Hok)| | |exact Hport];
      [apply live_elem; auto|assumption].
  - exfalso. pose proof (find_none _ _ E f (proj1 (list_elem_of_In _ _) Hin)) as HP.
    rewrite (proj2 (is_output_spec f _ client cport _ (HF f (proj1 (list_elem_of_In _ _) Hin)) Hc)) in HP
      by auto.
    discriminate.
Qed.

(** ** The operations preserve the invariant *)

Lemma create_spec state env af source sport target tport state' r :
  tcp_ok state -> lenZ source = ch_ip_stack_address_length af -> bytes_ok source ->
  lenZ target = ch_ip_stack_address_length af -> bytes_ok target -> 0 <= tport <= UINT16_MAX ->
  (af, pad af source, sport, pad af target, tport) ∉ map flow_key (live state) ->
  ch_ip_stack_tcp_flow_create state env af source sport target tport = (state', r) ->
  tcp_ok state' /\ r <> Fault /\
  forall f, r = Done f ->
    tcp_flows state' = f :: tcp_flows state /\ t_dead f = false /\ flow_ok f /\
    flow_key f = (af, pad af source, sport, pad af target, tport) /\
    t_internal_port f ∉ map t_internal_port (live state).
Proof.
  intros Hok Hs Hsb Ht Htb Htp Hkey. unfold ch_ip_stack_tcp_flow_create.
  destruct (_ >=? _) eqn:Hlim; [intros [= <- <-]; split_and!; auto; discriminate|].
  destruct (lw_calloc env); cbn [negb]; [|intros [= <- <-]; split_and!; auto; discriminate].
  destruct (ch_ip_stack_domain_hint _ _ _ _ _) as [hint dns].
  destruct (bind_loop _ _ _ _ _) as [next bound] eqn:Hb. destruct Hok as [Hc Hl Hn HF Hp Hk].
  apply bind_loop_spec in Hb as [Hnext Hbound]; [|assumption].
  assert (Hbase : tcp_ok (mk_tcp_state (tcp_flows state) (tcp_flow_count state) next dns))
    by (constructor; assumption).
  destruct bound as [port|e]; [|intros [= <- <-]; split_and!; auto; discriminate].
  destruct (Hbound port eq_refl) as [Hport Hfree]. destruct (lw_listen env) as [listener le].
  case_if; [intros [= <- <-]; split_and!; auto; discriminate|]. intros [= <- <-].
  set (f := mk_tcp_flow _ _ _ _ _ _ _ _ _). cbn [tcp_flows tcp_flow_count].
  assert (Hf : flow_ok f) by (constructor; cbn; eauto).
  split_and!; [|discriminate|intros g [= <-]; split_and!; auto].
  unfold CH_IP_STACK_TCP_FLOW_LIMIT in *. constructor; cbn [tcp_flows tcp_flow_count next_tcp_port];
    [rewrite lenZ_cons; lia|unfold CH_IP_STACK_TCP_FLOW_LIMIT; lia|assumption|constructor; assumption|..];
    unfold live; cbn [tcp_flows]; rewrite filter_cons_True by reflexivity; cbn [map];
    apply list.NoDup_cons; split; assumption.
Qed.

Lemma input_flow_spec state env af source sport target tport flags state' r :
  tcp_ok state -> lenZ source = ch_ip_stack_address_length af -> bytes_ok source ->
  lenZ target = ch_ip_stack_address_length af -> bytes_ok target -> 0 <= tport <= UINT16_MAX ->
  input_flow state env af source sport target tport flags = (state', r) ->
  tcp_ok state' /\ r <> Fault /\
  forall o, r = Done o ->
    ch_ip_stack_tcp_flow_for_input state' af source sport target tport = o.
Proof.
  intros Hok Hs Hsb Ht Htb Htp. unfold input_flow.
  destruct (ch_ip_stack_tcp_flow_for_input state _ _ _ _ _) as [f|] eqn:E.
  - intros [= <- <-]. split_and!; [assumption|discriminate|]. intros o [= <-]. assumption.
  - case_if; [intros [= <- <-]; split_and!; [assumption|discriminate|intros o [= <-]; assumption]|].
    destruct (ch_ip_stack_tcp_flow_create _ _ _ _ _ _ _) as [st created] eqn:Hc. intros [= <- <-].
    apply for_input_None in E; [|assumption..].
    apply create_spec in Hc as (Hok' & Hnf & Hf); [|assumption..].
    split_and!; [assumption|destruct created; cbn; congruence|].
    intros o Ho. apply bind_Done_inv in Ho as (f & -> & Ho). injection Ho as <-.
    destruct (Hf f eq_refl) as (Efl & Hd & Hfok & Hk & _).
    unfold ch_ip_stack_tcp_flow_for_input. rewrite Efl. cbn [List.find].
    rewrite (proj2 (is_input_spec f af source sport target tport Hfok Hs Ht)) by auto. reflexivity.
Qed.

Lemma with_state_inv {S A B} (s : S) (m : result A) (k : A -> S * result B) s' r :
  with_state s m k = (s', r) ->
  (exists a, m = Done a /\ k a = (s', r)) \/
  (s' = s /\ (exists e, m = Raise e /\ r = Raise e)) \/ (s' = s /\ m = Fault /\ r = Fault).
Proof. destruct m; cbn; intros; eauto; right; [left|right]; simplify_eq; eauto. Qed.

Lemma read_u16_range p i v : bytes_ok p -> ch_ip_stack_read_u16 p i = Done v -> 0 <= v <= UINT16_MAX.
Proof.
  intros Hok E. unfold ch_ip_stack_read_u16 in E.
  apply bind_Done_inv in E as (b0 & H0 & E). apply bind_Done_inv in E as (b1 & H1 & E).
  injection E as <-. unfold u16, UINT16_MAX. change (2 ^ 16) with 65536.
  pose proof (Z.mod_pos_bound (Z.lor (Z.shiftl b0 8) b1) 65536). lia.
Qed.

Lemma rds_inv {E} l i n v : @rds E l i n = Done v -> lenZ v = n /\ v = sub l i n /\ 0 <= i /\ 0 <= n /\ i + n <= lenZ l.
Proof.
  unfold rds. destruct (_ && _ && _) eqn:Hc; [|discriminate]. intros [= <-].
  split_and!; try lia; [apply lenZ_sub; lia|reflexivity].
Qed.

Ltac state_inv H :=
  let a := fresh "a" in let Ha := fresh "Ha" in
  apply with_state_inv in H as [(a & Ha & H) | [(-> & _) | (-> & _)]];
    [cbv beta in H|assumption|assumption].

Lemma prepare_ipv4_ok config state env packet state' r :
  tcp_ok state -> bytes_ok packet ->
  ch_ip_stack_prepare_ipv4_tcp_input config state env packet = (state', r) -> tcp_ok state'.
Proof.
  intros Hok Hb H. unfold ch_ip_stack_prepare_ipv4_tcp_input in H. state_inv H.
  destruct a as [b0 n]. case_if_in H; [simplify_eq; assumption|]. state_inv H.
  destruct a as [protocol target]. case_if_in H; [simplify_eq; assumption|].
  case_if_in H; [simplify_eq; assumption|]. state_inv H.
  case_if_in H; [simplify_eq; assumption|]. case_if_in H; [simplify_eq; assumption|]. state_inv H.
  case_if_in H; [simplify_eq; assumption|]. state_inv H. destruct a1 as [[[sport tport] source] flags].
  apply bind_Done_inv in Ha0 as (pb & _ & Ha0). apply bind_Done_inv in Ha0 as (d & Hd & Ha0).
  injection Ha0 as -> ->.
  apply bind_Done_inv in Ha3 as (p1 & Hp1 & Ha3). apply bind_Done_inv in Ha3 as (p2 & Hp2 & Ha3).
  apply bind_Done_inv in Ha3 as (p3 & Hp3 & Ha3). apply bind_Done_inv in Ha3 as (p4 & Hp4 & Ha3).
  injection Ha3 as -> -> -> ->. apply rds_inv in Hd as (Hd & -> & _), Hp3 as (Hs & -> & _).
  apply read_u16_range in Hp2; [|assumption].
  destruct (input_flow _ _ _ _ _ _ _ _) as [st o] eqn:Hin.
  apply input_flow_spec in Hin as (Hst & _); auto with bytes.
  apply with_state_inv in H as [(o' & _ & H) | [(-> & _) | (-> & _)]]; [|assumption..].
  destruct o'; simplify_eq; assumption.
Qed.

Lemma prepare_ipv6_ok config state env packet state' r :
  tcp_ok state -> bytes_ok packet ->
  ch_ip_stack_prepare_ipv6_tcp_input config state env packet = (state', r) -> tcp_ok state'.
Proof.
  intros Hok Hb H. unfold ch_ip_stack_prepare_ipv6_tcp_input in H.
  case_if_in H; [simplify_eq; assumption|]. state_inv H.
  case_if_in H; [simplify_eq; assumption|]. state_inv H.
  destruct a0 as [[protocol off]|]; [|simplify_eq; assumption]. state_inv H.
  do 3 (case_if_in H; [simplify_eq; assumption|]). state_inv H.
  case_if_in H; [simplify_eq; assumption|]. state_inv H. destruct a2 as [[[sport tport] source] flags].
  apply bind_Done_inv in Ha3 as (p1 & Hp1 & Ha3). apply bind_Done_inv in Ha3 as (p2 & Hp2 & Ha3).
  apply bind_Done_inv in Ha3 as (p3 & Hp3 & Ha3). apply bind_Done_inv in Ha3 as (p4 & Hp4 & Ha3).
  injection Ha3 as -> -> -> ->. apply rds_inv in Ha1 as (Hd & -> & _), Hp3 as (Hs & -> & _).
  apply read_u16_range in Hp2; [|assumption].
  destruct (input_flow _ _ _ _ _ _ _ _) as [st o] eqn:Hin.
  apply input_flow_spec in Hin as (Hst & _); auto with bytes.
  apply with_state_inv in H as [(o' & _ & H) | [(-> & _) | (-> & _)]]; [|assumption..].
  destruct o'; simplify_eq; assumption.
Qed.

Lemma prepare_ok config state env packet state' r :
  tcp_ok state -> bytes_ok packet ->
  ch_ip_stack_prepare_tcp_input config state env packet = (state', r) -> tcp_ok state'.
Proof.
  intros Hok Hb H. unfold ch_ip_stack_prepare_tcp_input in H. state_inv H.
  case_if_in H; [eapply prepare_ipv4_ok; eauto|]. case_if_in H; [eapply prepare_ipv6_ok; eauto|].
  simplify_eq. assumption.
Qed.

Lemma kill_sublist (l : list tcp_flow) i f :
  l !! i = Some f ->
  sublist (filter (fun f => t_dead f = false) (<[i := kill_flow f]> l))
          (filter (fun f => t_dead f = false) l).
Proof.
  revert i. induction l as [|g l IH]; intros i E; [discriminate|]. destruct i as [|i].
  - injection E as ->. change (<[0%nat := kill_flow f]> (f :: l)) with (kill_flow f :: l).
    rewrite filter_cons_False by discriminate. rewrite filter_cons.
    case_decide; [apply sublist_cons|]; reflexivity.
  - change (<[S i := kill_flow f]> (g :: l)) with (g :: <[i := kill_flow f]> l).
    rewrite !filter_cons. case_decide; [apply sublist_skip|]; apply IH; exact E.
Qed.

Lemma kill_ok state i f :
  tcp_ok state -> tcp_flows state !! i = Some f ->
  tcp_ok (mk_tcp_state (<[i := kill_flow f]> (tcp_flows state)) (tcp_flow_count state)
            (next_tcp_port state) (tcp_dns state)).
Proof.
  intros [Hc Hl Hn HF Hp Hk] E. pose proof (kill_sublist _ _ _ E) as Hs.
  constructor; cbn [tcp_flows tcp_flow_count next_tcp_port]; auto.
  - unfold lenZ in *. rewrite length_insert. assumption.
  - apply Forall_insert; [assumption|]. pose proof (Forall_lookup_1 _ _ _ _ HF E) as [? ? ? ?].
    constructor; assumption.
  - eapply NoDup_map_sub; [exact Hs|exact Hp].
  - eapply NoDup_map_sub; [exact Hs|exact Hk].
Qed.

Lemma filter_split (l : list tcp_flow) :
  lenZ (filter (fun f => t_dead f = false) l) + lenZ (filter (fun f => t_dead f = true) l) = lenZ l.
Proof.
  induction l as [|f l IH]; [reflexivity|]. rewrite lenZ_cons.
  destruct (t_dead f) eqn:E.
  - rewrite filter_cons_False, filter_cons_True, lenZ_cons by congruence. lia.
  - rewrite filter_cons_True, filter_cons_False, lenZ_cons by congruence. lia.
Qed.

Lemma sweep_ok state : tcp_ok state -> tcp_ok (ch_ip_stack_tcp_sweep state).
Proof.
  intros [Hc Hl Hn HF Hp Hk]. pose proof (filter_split (tcp_flows state)).
  pose proof (lenZ_nonneg (filter (fun f => t_dead f = true) (tcp_flows state))).
  assert (Hlive : live (ch_ip_stack_tcp_sweep state) = live state).
  { unfold live. cbn [tcp_flows ch_ip_stack_tcp_sweep]. apply list_filter_filter_l. auto. }
  constructor; rewrite ?Hlive; auto; cbn [ch_ip_stack_tcp_sweep tcp_flows tcp_flow_count]; try lia.
  apply Forall_forall. intros f Hf. apply list_elem_of_In, list_elem_of_filter in Hf as [_ Hf].
  rewrite Forall_forall in HF. apply HF, list_elem_of_In, Hf.
Qed.

(** ** Runs of the table

    Packets arrive, flows die (the peer closes, lwIP reports an error, the
    handshake times out, the stack aborts the flow), the table is swept. *)
Inductive tcp_step : tcp_state -> tcp_state -> Prop :=
| step_packet config env packet state state' r :
    bytes_ok packet ->
    ch_ip_stack_prepare_tcp_input config state env packet = (state', r) -> tcp_step state state'
| step_death state i f :
    tcp_flows state !! i = Some f ->
    tcp_step state (mk_tcp_state (<[i := kill_flow f]> (tcp_flows state)) (tcp_flow_count state)
                      (next_tcp_port state) (tcp_dns state))
| step_sweep state : tcp_step state (ch_ip_stack_tcp_sweep state)
| step_dns state dns :
    tcp_step state (mk_tcp_state (tcp_flows state) (tcp_flow_count state) (next_tcp_port state) dns).

Definition tcp_initial : tcp_state := mk_tcp_state [] 0 CH_IP_STACK_TCP_FIRST_PORT empty_dns_cache.

Inductive tcp_reachable : tcp_state -> Prop :=
| reach_initial : tcp_reachable tcp_initial
| reach_step state state' : tcp_reachable state -> tcp_step state state' -> tcp_reachable state'.

Lemma reachable_ok state : tcp_reachable state -> tcp_ok state.
Proof.
  induction 1 as [|state state' _ IH Hs].
  - constructor; cbn; auto using NoDup_nil_2; unfold port_in_range, CH_IP_STACK_TCP_FLOW_LIMIT,
      CH_IP_STACK_TCP_FIRST_PORT, CH_IP_STACK_TCP_LAST_PORT; lia.
  - destruct Hs as [config env packet state state' r Hb H|state i f E|state|state dns].
    + eapply prepare_ok; eauto.
    + apply kill_ok; assumption.
    + apply sweep_ok; assumption.
    + destruct IH. constructor; assumption.
Qed.

(** the flow table is sound in every reachable state.  However packets,
    deaths of flows and sweeps interleave, the table holds at most 512 flows
    and its counter is their number, every internal port is between 20000 and
    59999, no two live flows share an internal port, and no two live flows
    stand for the same connection. *)
Theorem tcp_table_sound state : tcp_reachable state -> tcp_ok state.
Proof. apply reachable_ok. Qed.

(** an internal port is found whenever there is room.  In a table under the
    flow limit, when memory is available and lwIP accepts the control block,
    the binding and the listener, [tcp_flow_create] returns a live flow for
    the connection: the loop over the port range cannot end without a free
    port, wherever it starts and whichever ports are taken. *)
Theorem tcp_flow_create_succeeds state env af source sport target tport :
  tcp_ok state -> tcp_flow_count state < CH_IP_STACK_TCP_FLOW_LIMIT ->
  lw_calloc env = true -> (forall port, lw_new env port = true) ->
  (forall port, lw_bind env port = ERR_OK) -> lw_listen env = (true, ERR_OK) ->
  exists state' f,
    ch_ip_stack_tcp_flow_create state env af source sport target tport = (state', Done f) /\
    tcp_flows state' = f :: tcp_flows state /\ t_dead f = false /\
    flow_key f = (af, pad af source, sport, pad af target, tport) /\
    port_in_range (t_internal_port f) /\
    t_internal_port f ∉ map t_internal_port (live state).
Proof.
  intros Hok Hlt Hmem Hnew Hbind Hlisten.
  destruct (ch_ip_stack_domain_hint (tcp_dns state) (lw_now env) af target tport) as [hint dns] eqn:Hh.
  destruct (bind_loop_finds state env (next_tcp_port state) ERR_USE Hok (ok_next _ Hok) Hnew Hbind)
    as (next & port & Hb).
  destruct (bind_loop_spec _ _ _ _ _ _ _ (ok_next _ Hok) Hb) as [_ Hp].
  destruct (Hp port eq_refl) as [Hrange Hfree].
  unfold ch_ip_stack_tcp_flow_create. rewrite Hh, Hb, Hmem, Hlisten.
  destruct (_ >=? _) eqn:E; [lia|]. cbn [negb].
  rewrite bool_decide_eq_true_2 by reflexivity. cbn [negb orb].
  do 2 eexists. split; [reflexivity|]. cbn. auto.
Qed.

(** ** Rewriting a segment *)

Definition source_at (af : address_family) : Z := match af with AF_INET => 12 | AF_INET6 => 8 end.
Definition target_at (af : address_family) : Z := match af with AF_INET => 16 | AF_INET6 => 24 end.

Definition source_of (af : address_family) (p : bytes) : bytes :=
  sub p (source_at af) (ch_ip_stack_address_length af).
Definition target_of (af : address_family) (p : bytes) : bytes :=
  sub p (target_at af) (ch_ip_stack_address_length af).

(** [p] is a packet of the family with a TCP header at [off]. *)
Record segment (af : address_family) (p : bytes) (off : Z) : Prop := mk_segment {
  seg_bytes : bytes_ok p;
  seg_length : lenZ p <= CH_IP_STACK_MAX_PACKET;
  seg_fits : off + 20 <= lenZ p;
  seg_header :
    match af with
    | AF_INET => Z.shiftr (byte_at p 0) 4 = 4 /\ off = Z.land (byte_at p 0) 15 * 4 /\ 20 <= off /\
                 byte_at p 9 = 6
    | AF_INET6 => ch_ip_stack_ipv6_transport p = Done (Some (6, off))
    end
}.

(** A receiver accepts the checksums of the packet. *)
Definition verified (af : address_family) (p : bytes) (off : Z) : Prop :=
  match af with
  | AF_INET => ch_ip_stack_checksum (sub p 0 off) = 0 /\ ipv4_tcp_verify p off = 0
  | AF_INET6 => ipv6_tcp_verify p off = 0
  end.

(** Both directions write an address, a port and the checksums. *)
Definition retarget (af : address_family) (p : bytes) (at_address : Z) (address : bytes)
    (at_port port : Z) : result bytes :=
  p ← wr p at_address address;
  p ← ch_ip_stack_write_u16 p at_port port;
  match af with
  | AF_INET => ch_ip_stack_ipv4_checksums p
  | AF_INET6 => ch_ip_stack_ipv6_tcp_checksum p
  end.

Definition header_end (af : address_family) : Z := match af with AF_INET => 20 | AF_INET6 => 40 end.

Lemma segment_offset af p off : segment af p off -> header_end af <= off /\ off + 20 <= lenZ p.
Proof.
  intros [Hb Hl Hf Hh]. destruct af; cbn [header_end].
  - lia.
  - destruct (ipv6_transport_safe p Hb) as (r & Hr & Hs). rewrite Hh in Hr. injection Hr as <-.
    destruct (Hs 6 off eq_refl) as (? & _). lia.
Qed.

(** Being a segment depends on the bytes before the header that are not the
    addresses, checksums or lengths. *)
Lemma segment_agree af p q off :
  segment af p off -> bytes_ok q -> lenZ q = lenZ p ->
  (forall i, 0 <= i < 8 \/ i = 9 /\ af = AF_INET \/ 40 <= i < off /\ af = AF_INET6 ->
     byte_at q i = byte_at p i) ->
  segment af q off.
Proof.
  intros [Hb Hl Hf Hh] Hq Hlen Hag. constructor; try lia; [assumption|]. destruct af.
  - rewrite !Hag by auto with lia. exact Hh.
  - eapply ipv6_transport_agree; [exact Hb|exact Hq|lia| |exact Hh].
    intros i Hi. symmetry. apply Hag. tauto.
Qed.

(** The bytes a rewriting may change. *)
Definition touched (af : address_family) (off at_address at_port i : Z) : Prop :=
  at_address <= i < at_address + ch_ip_stack_address_length af \/ at_port <= i < at_port + 2 \/
  off + 16 <= i < off + 18 \/ (af = AF_INET /\ 10 <= i < 12).

Lemma checksums_spec af p off :
  segment af p off ->
  exists q, match af with
            | AF_INET => ch_ip_stack_ipv4_checksums p
            | AF_INET6 => ch_ip_stack_ipv6_tcp_checksum p
            end = Done q /\
    bytes_ok q /\ lenZ q = lenZ p /\ verified af q off /\
    (forall i, 0 <= i < lenZ p -> ~ (off + 16 <= i < off + 18) -> ~ (af = AF_INET /\ 10 <= i < 12) ->
       byte_at q i = byte_at p i).
Proof.
  intros Hseg. destruct (segment_offset _ _ _ Hseg) as [Ho _]. destruct Hseg as [Hb Hl Hf Hh].
  unfold CH_IP_STACK_MAX_PACKET in Hl. destruct af; cbn [header_end] in Ho.
  - destruct Hh as (Hv & Hoff & H20 & H6).
    destruct (ipv4_checksums_spec p off Hb Hoff ltac:(lia) Hl) as (q & Hq & Hlq & Hbq & Hc & Ht & Hout).
    exists q. split_and!; auto; [split; [assumption|apply Ht; lia]|].
    intros i Hi H1 H2. apply Hout; try lia; intros ->; apply H2; (split; [reflexivity|lia]).
  - destruct (ipv6_tcp_checksum_spec p off Hb Hl Hh Hf) as (q & Hq & Hlq & Hbq & Hc & _ & Hout).
    exists q. split_and!; auto.
Qed.

Lemma retarget_spec af p off at_address address at_port port :
  segment af p off -> at_address = source_at af \/ at_address = target_at af ->
  lenZ address = ch_ip_stack_address_length af -> bytes_ok address ->
  at_port = off \/ at_port = off + 2 -> 0 <= port <= UINT16_MAX ->
  exists q, retarget af p at_address address at_port port = Done q /\
    segment af q off /\ lenZ q = lenZ p /\ verified af q off /\
    sub q at_address (ch_ip_stack_address_length af) = address /\ word_at q at_port = port /\
    (forall i, 0 <= i < lenZ p -> ~ touched af off at_address at_port i -> byte_at q i = byte_at p i).
Proof.
  intros Hseg Ha Hal Hab Hp Hport. destruct (segment_offset _ _ _ Hseg) as [Ho Hf].
  set (n := ch_ip_stack_address_length af) in *.
  assert (Hn : 0 <= n) by (unfold n; destruct af; cbn; lia).
  assert (Haddr : 8 <= at_address /\ at_address + n <= header_end af /\
                  (af = AF_INET -> 12 <= at_address))
    by (unfold n; destruct af, Ha; subst; cbn; split_and!; (lia || discriminate || (intros; lia))).
  destruct Haddr as (Ha8 & Hae & Ha12). unfold retarget. unfold ch_ip_stack_write_u16.
  assert (Hbe : lenZ (be16 port) = 2) by reflexivity. unfold UINT16_MAX in Hport.
  rewrite wr_Done by lia. cbn [mbind outcome_bind]. set (p1 := put p at_address address).
  assert (Hl1 : lenZ p1 = lenZ p) by (unfold p1; rewrite lenZ_put; lia).
  rewrite wr_Done by lia. cbn [mbind outcome_bind]. set (p2 := put p1 at_port (be16 port)).
  assert (Hl2 : lenZ p2 = lenZ p) by (unfold p2; rewrite lenZ_put; lia).
  assert (Hb2 : bytes_ok p2).
  { apply bytes_ok_put; [|apply be16_ok]. apply bytes_ok_put; [apply Hseg|assumption]. }
  assert (Hout2 : forall i, 0 <= i -> ~ (at_address <= i < at_address + n) ->
                    ~ (at_port <= i < at_port + 2) -> byte_at p2 i = byte_at p i).
  { intros i Hi H1 H2. unfold p2, p1. rewrite !byte_at_put_out by (rewrite ?lenZ_put; lia). reflexivity. }
  assert (Hseg2 : segment af p2 off).
  { eapply segment_agree; eauto. intros i Hi. apply Hout2; try lia;
      destruct Hi as [Hi | [[-> ->] | [Hi ->]]]; cbn in *; lia. }
  destruct (checksums_spec af p2 off Hseg2) as (q & Hq & Hbq & Hlq & Hv & Hout).
  rewrite Hl2 in *. exists q.
  assert (Hsame : forall i, 0 <= i < lenZ p -> i < off + 16 -> at_address <= i ->
                    i < header_end af -> byte_at q i = byte_at p2 i).
  { intros i Hi Hi16 Hia Hie. apply Hout; [lia|lia|]. intros [-> ?]. specialize (Ha12 eq_refl). lia. }
  split_and!; auto.
  - eapply segment_agree; [exact Hseg2|assumption|lia|]. intros i Hi. apply Hout.
    + destruct Hi as [? | [[-> ->] | [? ->]]]; cbn in *; lia.
    + destruct Hi as [? | [[-> ->] | [? ->]]]; cbn in *; lia.
    + intros [-> ?]. destruct Hi as [? | [[-> _] | [_ ?]]]; [lia|lia|discriminate].
  - apply bytes_eq; [rewrite lenZ_sub by (unfold n; destruct af; cbn; lia); lia|].
    rewrite lenZ_sub by (unfold n; destruct af; cbn; lia). intros i Hi.
    rewrite byte_at_sub, Hsame by (destruct af; cbn in *; lia).
    unfold p2. rewrite byte_at_put_out by lia. unfold p1. rewrite byte_at_put_in by lia. f_equal. lia.
  - transitivity (word_at p2 at_port); [|apply word_at_put16; lia]. unfold word_at.
    rewrite !Hout; try reflexivity; try lia; intros [-> ?]; cbn in *; lia.
  - intros i Hi Ht. unfold touched in Ht. fold n in Ht. rewrite Hout by (tauto || lia).
    apply Hout2; tauto || lia.
Qed.

(** ** Address translation *)

Definition interface_address (config : tcp_config) (af : address_family) : bytes :=
  match af with AF_INET => cfg_ipv4 config | AF_INET6 => cfg_ipv6 config end.

Definition config_ok (config : tcp_config) : Prop :=
  forall af, lenZ (interface_address config af) = ch_ip_stack_address_length af /\
             bytes_ok (interface_address config af).

Lemma input_reads p off :
  bytes_ok p -> 0 <= off -> off + 20 <= lenZ p ->
  forall i n, 0 <= i -> 0 <= n -> i + n <= lenZ p ->
  (source_port ← ch_ip_stack_read_u16 p off;
   target_port ← ch_ip_stack_read_u16 p (off + 2);
   source ← rds p i n;
   flags ← rd p (off + 13);
   Done (source_port, target_port, source, flags) : result _)
  = Done (word_at p off, word_at p (off + 2), sub p i n, byte_at p (off + 13)).
Proof.
  intros Hb Ho Hf i n Hi Hn Hin. rewrite !read_u16_word by (assumption || lia). cbn [mbind outcome_bind].
  rewrite rds_Done by lia. cbn [mbind outcome_bind]. rewrite rd_Done by lia. reflexivity.
Qed.

(** The flow of a segment is looked up or created, and the packet is redirected
    to it. *)
Definition translation (config : tcp_config) (state : tcp_state) (env : lwip_env)
    (af : address_family) (p : bytes) (off : Z) (state' : tcp_state) (q : bytes) : Prop :=
  exists o,
    input_flow state env af (source_of af p) (word_at p off) (target_of af p) (word_at p (off + 2))
      (byte_at p (off + 13)) = (state', Done o) /\
    match o with
    | None => q = p
    | Some f => retarget af p (target_at af) (interface_address config af) (off + 2)
                  (t_internal_port f) = Done q
    end.

Lemma prepare_ipv4_translates config state env p off state' q :
  segment AF_INET p off -> target_of AF_INET p <> cfg_ipv4 config ->
  ch_ip_stack_prepare_ipv4_tcp_input config state env p = (state', Done q) ->
  translation config state env AF_INET p off state' q.
Proof.
  intros Hseg Hne H. destruct (segment_offset _ _ _ Hseg) as [Ho Hf]. cbn [header_end] in Ho.
  destruct Hseg as [Hb Hl _ (Hv & Hoff & H20 & H6)].
  unfold ch_ip_stack_prepare_ipv4_tcp_input in H. rewrite (rd_Done p 0) in H by lia.
  rewrite (read_u16_word p 2) in H by (assumption || lia).
  cbn [mbind outcome_bind with_state] in H. rewrite <- Hoff in H.
  case_if_in H; [discriminate|]. rewrite (rd_Done p 9), (rds_Done p 16 4) in H by lia.
  cbn [mbind outcome_bind with_state] in H. rewrite H6 in H. change (negb (6 =? 6)) with false in H.
  cbn [orb] in H. destruct (beq (sub p 16 4) (cfg_ipv4 config)) eqn:Hd;
    [apply beq_true in Hd; exfalso; apply Hne; exact Hd|].
  case_if_in H; [discriminate|]. rewrite (read_u16_word p 6) in H by (assumption || lia).
  cbn [with_state] in H. case_if_in H; [discriminate|]. case_if_in H; [discriminate|].
  rewrite (rd_Done p (off + 12)) in H by lia. cbn [with_state] in H. case_if_in H; [discriminate|].
  rewrite (input_reads p off Hb ltac:(lia) Hf 12 4) in H by lia. cbn [with_state] in H.
  unfold translation, source_of, target_of.
  cbn [source_at target_at ch_ip_stack_address_length interface_address] in *.
  destruct (input_flow _ _ _ _ _ _ _ _) as [st o] eqn:Hin.
  destruct o as [[f|]| |]; cbn [with_state] in H; try discriminate; injection H as <- H;
    (eexists; split; [reflexivity|]); [exact H|symmetry; assumption].
Qed.

Lemma prepare_ipv6_translates config state env p off state' q :
  segment AF_INET6 p off -> target_of AF_INET6 p <> cfg_ipv6 config ->
  ch_ip_stack_prepare_ipv6_tcp_input config state env p = (state', Done q) ->
  translation config state env AF_INET6 p off state' q.
Proof.
  intros Hseg Hne H. destruct (segment_offset _ _ _ Hseg) as [Ho Hf]. cbn [header_end] in Ho.
  destruct Hseg as [Hb Hl _ Hh].
  destruct (ipv6_transport_safe p Hb) as (r & Hr & Hs). rewrite Hh in Hr. injection Hr as <-.
  destruct (Hs 6 off eq_refl) as (_ & _ & _ & _ & _ & Hv & Hlen).
  unfold ch_ip_stack_prepare_ipv6_tcp_input in H. destruct (lenZ p <? 40) eqn:H40; [lia|].
  rewrite (read_u16_word p 4) in H by (assumption || lia). cbn [with_state] in H.
  rewrite Hlen, Z.eqb_refl, Hh in H.
  cbn [with_state negb] in H. rewrite (rds_Done p 24 16) in H by lia. cbn [with_state] in H.
  change (negb (6 =? 6)) with false in H. cbn [orb] in H.
  destruct (beq (sub p 24 16) (cfg_ipv6 config)) eqn:Hd;
    [apply beq_true in Hd; exfalso; apply Hne; exact Hd|].
  case_if_in H; [discriminate|]. case_if_in H; [discriminate|].
  rewrite (rd_Done p (off + 12)) in H by lia. cbn [with_state] in H. case_if_in H; [discriminate|].
  rewrite (input_reads p off Hb ltac:(lia) Hf 8 16) in H by lia. cbn [with_state] in H.
  unfold translation, source_of, target_of.
  cbn [source_at target_at ch_ip_stack_address_length interface_address] in *.
  destruct (input_flow _ _ _ _ _ _ _ _) as [st o] eqn:Hin.
  destruct o as [[f|]| |]; cbn [with_state] in H; try discriminate; injection H as <- H;
    (eexists; split; [reflexivity|]); [exact H|symmetry; assumption].
Qed.

Lemma segment_version af p off :
  segment af p off ->
  0 < lenZ p /\ Z.shiftr (byte_at p 0) 4 = match af with AF_INET => 4 | AF_INET6 => 6 end.
Proof.
  intros Hseg. destruct (segment_offset _ _ _ Hseg) as [Ho Hf]. destruct Hseg as [Hb _ _ Hh].
  destruct af; cbn [header_end] in Ho; [split; [lia|apply Hh]|].
  destruct (ipv6_transport_safe p Hb) as (r & Hr & Hs). rewrite Hh in Hr. injection Hr as <-.
  destruct (Hs 6 off eq_refl) as (_ & _ & _ & _ & _ & Hv & _). split; [lia|assumption].
Qed.

(** A segment for a foreign address that [prepare_tcp_input] accepts. *)
Lemma prepare_translates config state env af p off state' q :
  segment af p off -> target_of af p <> interface_address config af ->
  ch_ip_stack_prepare_tcp_input config state env p = (state', Done q) ->
  translation config state env af p off state' q.
Proof.
  intros Hseg Hne H. destruct (segment_version _ _ _ Hseg) as [H0 Hv].
  unfold ch_ip_stack_prepare_tcp_input in H. rewrite (rd_Done p 0) in H by lia. cbn [with_state] in H.
  rewrite Hv in H. destruct af.
  - apply prepare_ipv4_translates; assumption.
  - apply prepare_ipv6_translates; assumption.
Qed.

(** A segment of a known flow on its way back. *)
Lemma rewrite_translates state af p off f :
  segment af p off -> flow_ok f -> t_address_family f = af ->
  ch_ip_stack_tcp_flow_for_output state af (target_of af p) (word_at p (off + 2)) (word_at p off)
  = Some f ->
  ch_ip_stack_rewrite_tcp_output state p =
  retarget af p (source_at af)
    (take (Z.to_nat (ch_ip_stack_address_length af)) (t_target_address f)) off (t_target_port f).
Proof.
  intros Hseg [_ (b & Hb & _ & Eb) _ _] Haf Hfind.
  destruct (segment_offset _ _ _ Hseg) as [Ho Hf]. destruct Hseg as [Hbp Hl _ Hh].
  assert (Htake : forall n, n = ch_ip_stack_address_length af ->
            @rds ch_error (t_target_address f) 0 n = Done (take (Z.to_nat n) (t_target_address f))).
  { intros n ->. rewrite Haf in *. destruct (pad_take af b Hb) as [_ H16]. rewrite <- Eb in H16.
    rewrite rds_Done; [reflexivity|unfold lenZ; rewrite ?H16; destruct af; cbn; lia..]. }
  unfold ch_ip_stack_rewrite_tcp_output, retarget, target_of in *.
  destruct af; cbn [source_at target_at ch_ip_stack_address_length header_end] in *.
  - destruct Hh as (Hv & Hoff & H20 & H6). rewrite (rd_Done p 0) by lia. cbn [mbind outcome_bind].
    rewrite Hv, <- Hoff. change (4 =? 6) with false. change (negb (4 =? 4)) with false. cbn match.
    destruct (lenZ p <? 40) eqn:H40; [lia|]. cbn [orb]. rewrite (rd_Done p 9) by lia.
    cbn [mbind outcome_bind]. rewrite H6. change (negb (6 =? 6)) with false. cbn match.
    case_if; [lia|]. rewrite !read_u16_word by (assumption || lia). cbn [mbind outcome_bind].
    rewrite (rds_Done p 16 4) by lia. cbn [mbind outcome_bind]. rewrite Hfind.
    rewrite Htake by reflexivity. reflexivity.
  - destruct (ipv6_transport_safe p Hbp) as (r & Hr & Hs). rewrite Hh in Hr. injection Hr as <-.
    destruct (Hs 6 off eq_refl) as (_ & _ & _ & _ & _ & Hv & _).
    rewrite (rd_Done p 0) by lia. cbn [mbind outcome_bind].
    rewrite Hv, Hh. change (6 =? 6) with true. cbn [mbind outcome_bind negb orb]. cbn match.
    case_if; [lia|]. rewrite !read_u16_word by (assumption || lia). cbn [mbind outcome_bind].
    rewrite (rds_Done p 24 16) by lia. cbn [mbind outcome_bind]. rewrite Hfind.
    rewrite Htake by reflexivity. reflexivity.
Qed.

(** What a rewriting leaves of the packet: the other address, the other port,
    the rest of the TCP header and the data. *)
Lemma retarget_frame af p q off at_address at_port :
  segment af p off -> lenZ q = lenZ p ->
  at_address = source_at af \/ at_address = target_at af -> at_port = off \/ at_port = off + 2 ->
  (forall i, 0 <= i < lenZ p -> ~ touched af off at_address at_port i -> byte_at q i = byte_at p i) ->
  (at_address = source_at af -> target_of af q = target_of af p) /\
  (at_address = target_at af -> source_of af q = source_of af p) /\
  (at_port = off -> word_at q (off + 2) = word_at p (off + 2)) /\
  (at_port = off + 2 -> word_at q off = word_at p off) /\
  sub q (off + 4) 12 = sub p (off + 4) 12 /\
  sub q (off + 18) (lenZ p - off - 18) = sub p (off + 18) (lenZ p - off - 18).
Proof.
  intros Hseg Hlen Ha Hp Hout. destruct (segment_offset _ _ _ Hseg) as [Ho Hf].
  assert (Haddr : 8 <= at_address /\ at_address + ch_ip_stack_address_length af <= header_end af)
    by (destruct af, Ha; subst; cbn; lia).
  assert (Hoff : 0 <= off) by (destruct af; cbn in *; lia).
  assert (Hsub : forall i n, 0 <= i -> 0 <= n -> i + n <= lenZ p ->
            (forall k, i <= k < i + n -> ~ touched af off at_address at_port k) -> sub q i n = sub p i n).
  { intros i n Hi Hn Hin Ht. apply bytes_eq; rewrite !lenZ_sub by lia; [reflexivity|].
    intros k Hk. rewrite !byte_at_sub by lia. apply Hout; [lia|apply Ht; lia]. }
  assert (Hfree : forall k, header_end af <= k \/ target_at af <= k /\ at_address = source_at af \/
              source_at af <= k < target_at af /\ at_address = target_at af ->
            ~ (at_port <= k < at_port + 2) -> ~ (off + 16 <= k < off + 18) ->
            ~ touched af off at_address at_port k).
  { unfold touched. intros k Hk H1 H2 [H | [H | [H | [-> H]]]]; try tauto;
      destruct Ha, Hk as [? | [[? ?] | [? ?]]]; subst; try destruct af; cbn in *; lia. }
  unfold source_of, target_of, word_at in *.
  split_and!; intros; subst; try (rewrite !Hout; [reflexivity|lia || (apply Hfree; lia)..]);
    try (apply Hsub; [..|intros k Hk; apply Hfree]; destruct af; cbn in *; lia).
Qed.

(** The reply of a translated connection, as the application must see it. *)
Definition restored (af : address_family) (p r r' : bytes) (off roff : Z) : Prop :=
  segment af r' roff /\ verified af r' roff /\ lenZ r' = lenZ r /\
  source_of af r' = target_of af p /\ word_at r' roff = word_at p (off + 2) /\
  target_of af r' = target_of af r /\ word_at r' (roff + 2) = word_at r (roff + 2) /\
  sub r' (roff + 4) 12 = sub r (roff + 4) 12 /\
  sub r' (roff + 18) (lenZ r - roff - 18) = sub r (roff + 18) (lenZ r - roff - 18) /\
  (forall i, 0 <= i < lenZ r -> ~ touched af roff (source_at af) roff i -> byte_at r' i = byte_at r i).

Lemma reply_restored state af p off r roff f :
  tcp_ok state -> segment af p off -> segment af r roff ->
  ch_ip_stack_tcp_flow_for_input state af (source_of af p) (word_at p off) (target_of af p)
    (word_at p (off + 2)) = Some f ->
  target_of af r = source_of af p -> word_at r roff = t_internal_port f ->
  word_at r (roff + 2) = word_at p off ->
  exists r', ch_ip_stack_rewrite_tcp_output state r = Done r' /\ restored af p r r' off roff.
Proof.
  intros Hok Hp Hr Hf Ha Hport Hcp. destruct (segment_offset _ _ _ Hp) as [Ho Hfit].
  assert (Hls : lenZ (source_of af p) = ch_ip_stack_address_length af)
    by (apply lenZ_sub; destruct af; cbn in *; lia).
  assert (Hlt : lenZ (target_of af p) = ch_ip_stack_address_length af)
    by (apply lenZ_sub; destruct af; cbn in *; lia).
  destruct (for_input_spec _ _ _ _ _ _ _ Hok Hls Hlt Hf) as (Hlive & Hfok & Hkey).
  injection Hkey as Haf Hsa Hsp Hta Htp.
  assert (Hout : ch_ip_stack_tcp_flow_for_output state af (target_of af r) (word_at r (roff + 2))
                   (word_at r roff) = Some f).
  { rewrite Ha, Hport, Hcp, <- Haf. apply for_output_unique; rewrite ?Haf; auto. }
  rewrite (rewrite_translates state af r roff f Hr Hfok Haf Hout), Hta, (proj1 (pad_take af _ Hlt)), Htp.
  destruct (retarget_spec af r roff (source_at af) (target_of af p) roff (word_at p (off + 2)) Hr)
    as (r' & Hr' & Hseg & Hlen & Hv & Hsrc & Hprt & Hbytes); auto.
  { apply bytes_ok_sub, Hp. }
  { apply word_at_range, Hp. }
  exists r'. split; [assumption|].
  destruct (retarget_frame af r r' roff (source_at af) roff Hr Hlen ltac:(auto) ltac:(auto) Hbytes)
    as (Htg & _ & Hw & _ & Hmid & Hrest).
  unfold restored. split_and!; auto.
Qed.

(** C2: TCP address translation is transparent.  Take a TCP segment for a
    foreign address that [prepare_tcp_input] accepts and whose connection has
    a flow afterwards.  The packet it hands to lwIP is the same segment with
    the interface's address and the flow's internal port as its destination
    and with checksums that verify; and every segment that lwIP sends back
    from that port to that client leaves [rewrite_tcp_output] with the
    original destination as its source, again with checksums that verify.  In
    both directions every byte but those of that address, of that port and of
    the checksums is untouched: sequence and acknowledgement numbers, flags,
    window, options and data.  IPv4 and IPv6 alike, with IPv4 options and IPv6
    extension headers. *)
Theorem tcp_translation_round_trip config state env af p off state' q f :
  config_ok config -> tcp_ok state -> segment af p off ->
  target_of af p <> interface_address config af ->
  ch_ip_stack_prepare_tcp_input config state env p = (state', Done q) ->
  ch_ip_stack_tcp_flow_for_input state' af (source_of af p) (word_at p off) (target_of af p)
    (word_at p (off + 2)) = Some f ->
  (segment af q off /\ verified af q off /\ lenZ q = lenZ p /\
   source_of af q = source_of af p /\ word_at q off = word_at p off /\
   target_of af q = interface_address config af /\ word_at q (off + 2) = t_internal_port f /\
   sub q (off + 4) 12 = sub p (off + 4) 12 /\ sub q (off + 18) (lenZ p - off - 18) = sub p (off + 18) (lenZ p - off - 18) /\
   (forall i, 0 <= i < lenZ p -> ~ touched af off (target_at af) (off + 2) i -> byte_at q i = byte_at p i)) /\
  forall r roff, segment af r roff -> target_of af r = source_of af p ->
    word_at r roff = t_internal_port f -> word_at r (roff + 2) = word_at p off ->
    exists r', ch_ip_stack_rewrite_tcp_output state' r = Done r' /\ restored af p r r' off roff.
Proof.
  intros Hcfg Hok Hseg Hne Hprep Hf. assert (Hok' : tcp_ok state').
  { eapply prepare_ok; [exact Hok|apply Hseg|exact Hprep]. }
  split; [|intros r roff Hr Ha Hp Hc; apply (reply_restored state' af p off r roff f); assumption].
  destruct (prepare_translates _ _ _ _ _ _ _ _ Hseg Hne Hprep) as (o & Hin & Hq).
  destruct (segment_offset _ _ _ Hseg) as [Ho Hfit].
  assert (Hls : lenZ (source_of af p) = ch_ip_stack_address_length af)
    by (apply lenZ_sub; destruct af; cbn in *; lia).
  assert (Hlt : lenZ (target_of af p) = ch_ip_stack_address_length af)
    by (apply lenZ_sub; destruct af; cbn in *; lia).
  pose proof (word_at_range p (off + 2) (seg_bytes _ _ _ Hseg)) as Hw.
  apply input_flow_spec in Hin as (_ & _ & Hin);
    try (assumption || (apply bytes_ok_sub, Hseg)).
  specialize (Hin o eq_refl). rewrite Hf in Hin. subst o.
  destruct (for_input_spec _ _ _ _ _ _ _ Hok' Hls Hlt Hf) as (_ & [_ _ _ Hport] & _).
  destruct (Hcfg af) as [Hcl Hcb].
  destruct (retarget_spec af p off (target_at af) (interface_address config af) (off + 2)
              (t_internal_port f) Hseg) as (q' & Hq' & Hs' & Hlen & Hv & Hta & Hpt & Hbytes); auto.
  { unfold port_in_range, CH_IP_STACK_TCP_FIRST_PORT, CH_IP_STACK_TCP_LAST_PORT, UINT16_MAX in *. lia. }
  rewrite Hq in Hq'. injection Hq' as <-.
  destruct (retarget_frame af p q off (target_at af) (off + 2) Hseg Hlen ltac:(auto) ltac:(auto) Hbytes)
    as (_ & Hsrc & _ & Hsp & Hmid & Hrest).
  split_and!; auto.
Qed.

(** ** Witnesses *)

(** The first packet of a connection from 10.0.0.2:51200 to 93.184.216.34:443. *)
Definition w_syn : bytes :=
  [69; 0; 0; 40; 0; 1; 64; 0; 64; 6; 0; 0; 10; 0; 0; 2; 93; 184; 216; 34]
  ++ [200; 0; 1; 187; 0; 0; 0; 7; 0; 0; 0; 0; 80; 2; 255; 255; 0; 0; 0; 0].

Definition w_config : tcp_config := mk_tcp_config [10; 0; 0; 1] (replicate 15 0 ++ [7]) true.
Definition w_env : lwip_env := mk_lwip 5 true (fun _ => true) (fun _ => ERR_OK) (true, ERR_OK).

Definition w_run : tcp_state * result bytes :=
  ch_ip_stack_prepare_tcp_input w_config tcp_initial w_env w_syn.

Definition w_flow : tcp_flow :=
  mk_tcp_flow (pad AF_INET [10; 0; 0; 2]) (pad AF_INET [93; 184; 216; 34]) AF_INET 51200 443 20000 5 []
    false.

Lemma w_syn_segment : segment AF_INET w_syn 20.
Proof. constructor; [bytes_ok_tac|vm_compute; discriminate..|]. split_and!; vm_compute; (reflexivity || discriminate). Qed.

Lemma tcp_translation_round_trip_witness :
  target_of AF_INET (match snd w_run with Done q => q | _ => [] end) = [10; 0; 0; 1] /\
  word_at (match snd w_run with Done q => q | _ => [] end) 22 = 20000.
Proof.
  assert (H := tcp_translation_round_trip w_config tcp_initial w_env AF_INET w_syn 20 (fst w_run)
                 (match snd w_run with Done q => q | _ => [] end) w_flow).
  destruct H as [(_ & _ & _ & _ & _ & Ht & Hp & _) _].
  - intros [|]; split; (reflexivity || bytes_ok_tac).
  - apply reachable_ok, reach_initial.
  - apply w_syn_segment.
  - vm_compute. discriminate.
  - vm_compute. reflexivity.
  - vm_compute. reflexivity.
  - split; [exact Ht|exact Hp].
Defined.

End Tcp.
