(* ===== verification/IpUdp.v ===== *)
(** * UDP through the IP stack: [native/src/ip_stack.c]

    A UDP datagram that an application sends through the TUN device is given
    to a route dialer (or, on port 53, to the DNS exchange), and the answers
    are written back to the device as IP packets.  This file models the
    endpoint texts, the packets that are written, the flow table and the
    handling of an incoming datagram.  The dialer, sender, receiver, closer,
    observer and DNS callbacks belong to whoever creates the stack: their
    results are the record [udp_env], their effects are values of [effect]. *)

From S2P Require Import Prelude CLib IpWire IpDns Inet.

Module Udp.

Export Wire Dns.

Definition CH_IP_STACK_UDP_FLOW_LIMIT : Z := 512.
Definition CH_IP_STACK_UDP_FLOW_TIMEOUT_MS : Z := 120000.
Definition INET6_ADDRSTRLEN : Z := 46.

(** ** Endpoint texts *)

Section Endpoint.
Context `{Inet}.

Definition ntop (af : address_family) (address : bytes) : bytes :=
  match af with AF_INET => ntop4 address | AF_INET6 => ntop6 address end.

Definition pton (af : address_family) (host : bytes) : option bytes :=
  match af with AF_INET => pton4 host | AF_INET6 => pton6 host end.

(** [None] for the return value 0; [inet_ntop] cannot fail on a buffer of
    [INET6_ADDRSTRLEN] bytes. *)
Definition ch_ip_stack_format_endpoint (af : address_family) (address : bytes) (port : Z)
    : option bytes :=
  let host := ntop af (take (Z.to_nat (ch_ip_stack_address_length af)) address) in
  let endpoint :=
    match af with
    | AF_INET6 => [91] ++ host ++ [93; 58] ++ dec port
    | AF_INET => host ++ [58] ++ dec port
    end in
  if (lenZ endpoint >? 0) && (lenZ endpoint <? INET6_ADDRSTRLEN + 10) then Some endpoint else None.

(** The host and port texts of an endpoint. *)
Definition endpoint_texts (af : address_family) (endpoint : bytes) : option (bytes * bytes) :=
  match af with
  | AF_INET6 =>
      match endpoint with
      | 91 :: rest =>
          match split_first 93 rest with
          | Some (host, 58 :: port) => if beq port [] then None else Some (host, port)
          | _ => None
          end
      | _ => None
      end
  | AF_INET =>
      match split_last 58 endpoint with
      | Some (host, port) => if beq host [] || beq port [] then None else Some (host, port)
      | None => None
      end
  end.

Definition ch_ip_stack_parse_endpoint (endpoint : option bytes) (af : address_family)
    : option (bytes * Z) :=
  endpoint ← endpoint;
  '(host, port_start) ← endpoint_texts af endpoint;
  if (lenZ host =? 0) || (lenZ host >=? INET6_ADDRSTRLEN) then None
  else
    let port := strtoul port_start in
    if scan_range port || negb (scan_any port) || negb (beq (scan_rest port) [])
       || (scan_value port =? 0) || (scan_value port >? UINT16_MAX)
    then None
    else
      address ← pton af host;
      Some (address, scan_value port).

End Endpoint.

(** ** Packets to the application *)

(** [random] is the value of [ch_lwip_random], [mem] whether [calloc] succeeds;
    the result is the packet given to the packet writer. *)
Definition ch_ip_stack_emit_udp_response (mtu : Z) (af : address_family) (remote_address : bytes)
    (remote_port : Z) (client_address : bytes) (client_port : Z) (payload : bytes)
    (random : Z) (mem : bool) : result bytes :=
  let payload_length := lenZ payload in
  let ip_header_length := match af with AF_INET6 => 40 | AF_INET => 20 end in
  let packet_length := ip_header_length + 8 + payload_length in
  if (payload_length >? UINT16_MAX - 8) || (packet_length >? mtu)
     || (packet_length >? CH_IP_STACK_MAX_PACKET)
  then fail CH_ERROR_INVALID_ARGUMENT (str "UDP TUN response exceeds the configured MTU")
  else if negb mem then fail CH_ERROR_OUT_OF_MEMORY (str "allocate UDP TUN response")
  else
    let packet := replicate (Z.to_nat packet_length) 0 in
    packet ←
      match af with
      | AF_INET6 =>
          packet ← wr packet 0 [96];
          packet ← ch_ip_stack_write_u16 packet 4 (u16 (8 + payload_length));
          packet ← wr packet 6 [17];
          packet ← wr packet 7 [64];
          remote ← rds remote_address 0 16;
          packet ← wr packet 8 remote;
          client ← rds client_address 0 16;
          wr packet 24 client
      | AF_INET =>
          packet ← wr packet 0 [69];
          packet ← ch_ip_stack_write_u16 packet 2 (u16 packet_length);
          packet ← ch_ip_stack_write_u16 packet 4 (u16 random);
          packet ← wr packet 6 [64];
          packet ← wr packet 8 [64];
          packet ← wr packet 9 [17];
          remote ← rds remote_address 0 4;
          packet ← wr packet 12 remote;
          client ← rds client_address 0 4;
          wr packet 16 client
      end;
    let udp_offset := ip_header_length in
    packet ← ch_ip_stack_write_u16 packet udp_offset remote_port;
    packet ← ch_ip_stack_write_u16 packet (udp_offset + 2) client_port;
    packet ← ch_ip_stack_write_u16 packet (udp_offset + 4) (u16 (8 + payload_length));
    packet ← (if payload_length >? 0 then wr packet (udp_offset + 8) payload else Done packet);
    udp_checksum ←
      match af with
      | AF_INET6 => ch_ip_stack_udp_checksum_ipv6 packet
      | AF_INET => ch_ip_stack_udp_checksum_ipv4 packet
      end;
    let udp_checksum := if udp_checksum =? 0 then UINT16_MAX else udp_checksum in
    packet ← ch_ip_stack_write_u16 packet (udp_offset + 6) udp_checksum;
    match af with
    | AF_INET =>
        header ← rds packet 0 20;
        ch_ip_stack_write_u16 packet 10 (ch_ip_stack_checksum header)
    | AF_INET6 => Done packet
    end.

(** ** Flows *)

Record udp_flow : Type := mk_udp_flow {
  u_connection : Z;            (** the dialer's handle *)
  u_source_address : bytes;    (** [uint8_t\[16\]] *)
  u_target_address : bytes;
  u_address_family : address_family;
  u_source_port : Z;
  u_target_port : Z;
  u_domain_hint : bytes;
  u_last_activity : Z;
  u_dead : bool;
  u_flow_id : Z;
  u_close_observed : bool
}.

Record udp_state : Type := mk_udp_state {
  udp_flows : list udp_flow;
  udp_flow_count : Z;
  udp_dns : dns_cache
}.

Record udp_config : Type := mk_udp_config {
  uc_ipv4 : bytes;
  uc_ipv6 : bytes;
  uc_mtu : Z;
  uc_dialer : bool;            (** [stack->udp_dialer != NULL] *)
  uc_dns : bool;               (** [stack->dns_exchange != NULL] *)
  uc_bytes : bool;             (** [stack->flow_bytes != NULL] *)
  uc_close : bool              (** [stack->flow_close != NULL] *)
}.

(** The calls of the stack's callbacks. *)
Inductive effect : Type :=
| packet_writer (packet : bytes)
| udp_sender (connection : Z) (target payload : bytes)
| udp_closer (connection : Z)
| flow_bytes (flow_id rx_delta tx_delta : Z)
| flow_close (flow_id : Z) (reason : bytes).

(** What the environment answers during one call.  [ue_clock k] is the [k]-th
    reading of [sys_now]. *)
Record udp_env : Type := mk_udp_env {
  ue_clock : nat -> Z;
  ue_random : Z;
  ue_mem_flow : bool;
  ue_mem_packet : bool;
  ue_mem_dns : bool;
  ue_dial : bytes -> bytes -> bytes -> result unit * option Z * Z;
  ue_send : Z -> bytes -> bytes -> result unit;
  ue_receive : Z -> nat -> result (option (bytes * bytes));
  ue_exchange : bytes -> result unit * option bytes
}.

Definition observe_bytes (config : udp_config) (flow_id rx_delta tx_delta : Z) : list effect :=
  if uc_bytes config && negb (flow_id =? 0) && (negb (rx_delta =? 0) || negb (tx_delta =? 0))
  then [flow_bytes flow_id rx_delta tx_delta] else [].

Definition observe_close (config : udp_config) (flow : udp_flow) (reason : bytes) : list effect :=
  if u_close_observed flow then []
  else if uc_close config && negb (u_flow_id flow =? 0) then [flow_close (u_flow_id flow) reason]
  else [].

Definition is_flow (af : address_family) (source : bytes) (source_port : Z) (target : bytes)
    (target_port : Z) (flow : udp_flow) : bool :=
  let n := Z.to_nat (ch_ip_stack_address_length af) in
  negb (u_dead flow) && bool_decide (u_address_family flow = af)
  && (u_source_port flow =? source_port) && (u_target_port flow =? target_port)
  && beq (take n (u_source_address flow)) (take n source)
  && beq (take n (u_target_address flow)) (take n target).

(** The position of the flow in the list. *)
Definition ch_ip_stack_udp_flow_find (state : udp_state) (af : address_family) (source : bytes)
    (source_port : Z) (target : bytes) (target_port : Z) : option (nat * udp_flow) :=
  list_find (fun f => is_flow af source source_port target target_port f = true) (udp_flows state).

(** [flow->dead = 1] *)
Definition kill_flow (f : udp_flow) : udp_flow :=
  mk_udp_flow (u_connection f) (u_source_address f) (u_target_address f) (u_address_family f)
    (u_source_port f) (u_target_port f) (u_domain_hint f) (u_last_activity f) true (u_flow_id f)
    (u_close_observed f).

(** [flow->last_activity = now] *)
Definition touch_flow (now : Z) (f : udp_flow) : udp_flow :=
  mk_udp_flow (u_connection f) (u_source_address f) (u_target_address f) (u_address_family f)
    (u_source_port f) (u_target_port f) (u_domain_hint f) now (u_dead f) (u_flow_id f)
    (u_close_observed f).

Definition update_flow (state : udp_state) (i : nat) (f : udp_flow) : udp_state :=
  mk_udp_state (<[i := f]> (udp_flows state)) (udp_flow_count state) (udp_dns state).

Section Flows.
Context `{Inet}.

Definition ch_ip_stack_udp_flow_create (state : udp_state) (env : udp_env) (af : address_family)
    (source : bytes) (source_port : Z) (target : bytes) (target_port : Z)
    : udp_state * list effect * result udp_flow :=
  if udp_flow_count state >=? CH_IP_STACK_UDP_FLOW_LIMIT then
    (state, [], fail CH_ERROR_INVALID_STATE (str "native UDP TUN flow limit reached"))
  else if negb (ue_mem_flow env) then
    (state, [], fail CH_ERROR_OUT_OF_MEMORY (str "allocate UDP TUN flow"))
  else
    let '(hint, dns) :=
      ch_ip_stack_domain_hint (udp_dns state) (ue_clock env 0) af target target_port in
    let state := mk_udp_state (udp_flows state) (udp_flow_count state) dns in
    match ch_ip_stack_format_endpoint af target target_port,
          ch_ip_stack_format_endpoint af source source_port with
    | Some target_text, Some source_text =>
        let '(status, connection, flow_id) := ue_dial env target_text source_text hint in
        match status, connection with
        | Done _, Some connection =>
            let n := ch_ip_stack_address_length af in
            let pad a := take (Z.to_nat n) a ++ replicate (Z.to_nat (16 - n)) 0 in
            let flow := mk_udp_flow connection (pad source) (pad target) af source_port target_port
                          hint (ue_clock env 1) false flow_id false in
            (mk_udp_state (flow :: udp_flows state) (udp_flow_count state + 1) dns, [], Done flow)
        | Done _, None =>
            (state, [], fail CH_ERROR_INVALID_STATE (str "UDP TUN dialer returned no connection"))
        | Raise e, _ =>
            (state, match connection with Some c => [udp_closer c] | None => [] end, Raise e)
        | Fault, _ => (state, [], Fault)
        end
    | _, _ => (state, [], fail CH_ERROR_INTERNAL (str "format UDP TUN route endpoints"))
    end.

(** The receive loop of the tick, at most four datagrams. *)
Fixpoint receive_loop (attempts : nat) (config : udp_config) (env : udp_env) (attempt : nat)
    (flow : udp_flow) : udp_flow * list effect :=
  match attempts with
  | O => (flow, [])
  | S attempts' =>
      match ue_receive env (u_connection flow) attempt with
      | Raise e =>
          if bool_decide (code e = CH_ERROR_NOT_FOUND) then (flow, []) else (kill_flow flow, [])
      | Done (Some (payload, source)) =>
          if lenZ payload >? uc_mtu config then (kill_flow flow, [])
          else
            match ch_ip_stack_parse_endpoint (Some source) (u_address_family flow) with
            | None => (kill_flow flow, [])
            | Some (remote_address, remote_port) =>
                match ch_ip_stack_emit_udp_response (uc_mtu config) (u_address_family flow)
                        remote_address remote_port (u_source_address flow) (u_source_port flow)
                        payload (ue_random env) (ue_mem_packet env) with
                | Done packet =>
                    let '(flow, effects) :=
                      receive_loop attempts' config env (S attempt)
                        (touch_flow (ue_clock env attempt) flow) in
                    (flow,
                     packet_writer packet
                       :: observe_bytes config (u_flow_id flow) (lenZ payload) 0 ++ effects)
                | _ => (kill_flow flow, [])
                end
            end
      | _ => (kill_flow flow, [])
      end
  end.

Definition ch_ip_stack_udp_flow_tick (config : udp_config) (env : udp_env) (flow : udp_flow)
    : udp_flow * list effect :=
  if u_dead flow then (flow, [])
  else
    let '(flow, effects) := receive_loop 4 config env 0 flow in
    if u32 (ue_clock env 4 - u_last_activity flow) >=? CH_IP_STACK_UDP_FLOW_TIMEOUT_MS
    then (kill_flow flow, effects) else (flow, effects).

(** Dead flows leave the table and their connections are closed. *)
Definition ch_ip_stack_udp_sweep (config : udp_config) (state : udp_state)
    : udp_state * list effect :=
  let dead := filter (fun f => u_dead f = true) (udp_flows state) in
  (mk_udp_state (filter (fun f => u_dead f = false) (udp_flows state))
     (udp_flow_count state - lenZ dead) (udp_dns state),
   concat (map (fun f => observe_close config f (str "closed") ++ [udp_closer (u_connection f)]) dead)).

(** ** Datagrams from the application *)

Definition ch_ip_stack_handle_udp_payload (config : udp_config) (state : udp_state) (env : udp_env)
    (af : address_family) (source : bytes) (source_port : Z) (target : bytes) (target_port : Z)
    (payload : bytes) : udp_state * list effect * result unit :=
  if (target_port =? 53) && uc_dns config then
    let '(status, response) := ue_exchange env payload in
    match response with
    | Some response =>
        match ch_ip_stack_dns_cache_response (udp_dns state) (ue_clock env 0) payload response
                (ue_mem_dns env) with
        | Done dns =>
            let state := mk_udp_state (udp_flows state) (udp_flow_count state) dns in
            match ch_ip_stack_emit_udp_response (uc_mtu config) af target target_port source
                    source_port response (ue_random env) (ue_mem_packet env) with
            | Done packet => (state, [packet_writer packet], Done tt)
            | Raise e => (state, [], Raise e)
            | Fault => (state, [], Fault)
            end
        | Raise e => (state, [], Raise e)
        | Fault => (state, [], Fault)
        end
    | None => (state, [], status)
    end
  else if negb (uc_dialer config) then
    (state, [], fail CH_ERROR_UNSUPPORTED (str "UDP forwarding has no route dialer"))
  else
    let '(state, closed, found) :=
      match ch_ip_stack_udp_flow_find state af source source_port target target_port with
      | Some (i, flow) => (state, [], Done (i, flow))
      | None =>
          let '(state, closed, created) :=
            ch_ip_stack_udp_flow_create state env af source source_port target target_port in
          (state, closed, flow ← created; Done (0%nat, flow))
      end in
    match found with
    | Raise e => (state, closed, Raise e)
    | Fault => (state, closed, Fault)
    | Done (i, flow) =>
        match ch_ip_stack_format_endpoint af target target_port with
        | None =>
            (update_flow state i (kill_flow flow), closed,
             fail CH_ERROR_INTERNAL (str "format UDP TUN target endpoint"))
        | Some text =>
            let sent := closed ++ [udp_sender (u_connection flow) text payload] in
            match ue_send env (u_connection flow) text payload with
            | Done _ =>
                (update_flow state i (touch_flow (ue_clock env 2) flow),
                 sent ++ observe_bytes config (u_flow_id flow) 0 (lenZ payload), Done tt)
            | Raise e => (update_flow state i (kill_flow flow), sent, Raise e)
            | Fault => (state, sent, Fault)
            end
        end
    end.

(** The outcome of an input handler: the state, the calls made, and whether the
    packet was handled. *)
Abbreviation handled := (udp_state * list effect * result bool)%type.

Definition guarded {A} (state : udp_state) (m : result A) (k : A -> handled) : handled :=
  match m with
  | Done a => k a
  | Raise e => (state, [], Raise e)
  | Fault => (state, [], Fault)
  end.

Definition handle_payload (config : udp_config) (state : udp_state) (env : udp_env)
    (af : address_family) (source : bytes) (source_port : Z) (target : bytes) (target_port : Z)
    (payload : bytes) : handled :=
  let '(state, effects, status) :=
    ch_ip_stack_handle_udp_payload config state env af source source_port target target_port payload in
  (state, effects, _ ← status; Done true).

Definition ch_ip_stack_handle_ipv4_udp (config : udp_config) (state : udp_state) (env : udp_env)
    (packet : bytes) : handled :=
  let length := lenZ packet in
  guarded state (p ← rd packet 9; t ← rds packet 16 4; Done (p, t)) (fun '(protocol, target) =>
  if negb (protocol =? 17) || beq target (uc_ipv4 config) then (state, [], Done false)
  else
    guarded state (rd packet 0) (fun b0 =>
    let header_length := Z.land b0 15 * 4 in
    if (header_length <? 20) || (length <? header_length + 8) then
      (state, [], fail CH_ERROR_PARSE (str "truncated IPv4 UDP packet"))
    else
      guarded state (ch_ip_stack_read_u16 packet 6) (fun fragment =>
      if negb (Z.land fragment 16383 =? 0) then
        (state, [], fail CH_ERROR_UNSUPPORTED
                      (str "fragmented IPv4 UDP forwarding is not implemented"))
      else
        guarded state (ch_ip_stack_read_u16 packet (header_length + 4)) (fun udp_length =>
        if (udp_length <? 8) || negb (header_length + udp_length =? length) then
          (state, [], fail CH_ERROR_PARSE (str "invalid IPv4 UDP length"))
        else
          guarded state
            (wire ← ch_ip_stack_read_u16 packet (header_length + 6);
             sum ← ch_ip_stack_udp_checksum_ipv4 packet;
             Done (negb (wire =? 0) && negb (sum =? 0)))
            (fun bad =>
          if (bad : bool) then (state, [], fail CH_ERROR_PARSE (str "invalid IPv4 UDP checksum"))
          else
            guarded state
              (source ← rds packet 12 4;
               source_port ← ch_ip_stack_read_u16 packet header_length;
               target_port ← ch_ip_stack_read_u16 packet (header_length + 2);
               payload ← rds packet (header_length + 8) (udp_length - 8);
               Done (source, source_port, target_port, payload))
              (fun '(source, source_port, target_port, payload) =>
            handle_payload config state env AF_INET source source_port target target_port
              payload)))))).

Definition ch_ip_stack_handle_ipv6_udp (config : udp_config) (state : udp_state) (env : udp_env)
    (packet : bytes) : handled :=
  let length := lenZ packet in
  guarded state (ch_ip_stack_ipv6_transport packet) (fun transport =>
  match transport with
  | None => (state, [], fail CH_ERROR_PARSE (str "invalid IPv6 extension header chain"))
  | Some (protocol, udp_offset) =>
      guarded state (rds packet 24 16) (fun target =>
      if negb (protocol =? 17) || beq target (uc_ipv6 config) then (state, [], Done false)
      else if length <? udp_offset + 8 then
        (state, [], fail CH_ERROR_PARSE (str "truncated IPv6 UDP packet"))
      else
        guarded state
          (udp_length ← ch_ip_stack_read_u16 packet (udp_offset + 4);
           wire ← ch_ip_stack_read_u16 packet (udp_offset + 6);
           Done (udp_length, wire))
          (fun '(udp_length, wire) =>
        if (udp_length <? 8) || negb (udp_offset + udp_length =? length) || (wire =? 0) then
          (state, [], fail CH_ERROR_PARSE (str "invalid IPv6 UDP length or checksum field"))
        else
          guarded state (ch_ip_stack_udp_checksum_ipv6 packet) (fun sum =>
          if negb (sum =? 0) then
            (state, [], fail CH_ERROR_PARSE (str "invalid IPv6 UDP checksum"))
          else
            guarded state
              (source ← rds packet 8 16;
               source_port ← ch_ip_stack_read_u16 packet udp_offset;
               target_port ← ch_ip_stack_read_u16 packet (udp_offset + 2);
               payload ← rds packet (udp_offset + 8) (udp_length - 8);
               Done (source, source_port, target_port, payload))
              (fun '(source, source_port, target_port, payload) =>
            handle_payload config state env AF_INET6 source source_port target target_port
              payload))))
  end).

Definition ch_ip_stack_handle_udp_input (config : udp_config) (state : udp_state) (env : udp_env)
    (packet : bytes) : handled :=
  guarded state (rd packet 0) (fun b0 =>
  if Z.shiftr b0 4 =? 4 then ch_ip_stack_handle_ipv4_udp config state env packet
  else ch_ip_stack_handle_ipv6_udp config state env packet).

End Flows.

(** ** Facts: endpoint texts *)

Section EndpointFacts.
Context `{Inet}.

Lemma ntop_text af a :
  lenZ a = ch_ip_stack_address_length af -> bytes_ok a ->
  1 <= lenZ (ntop af a) <= 45 /\ Forall ip_text_char (ntop af a) /\ pton af (ntop af a) = Some a.
Proof.
  intros Hl Hok. destruct af; cbn [ntop pton ch_ip_stack_address_length] in *.
  - destruct (ntop4_text a Hl Hok) as (? & ? & _). split_and!; try lia; [assumption|].
    apply pton4_ntop4; assumption.
  - destruct (ntop6_text a Hl Hok) as (? & ?). split_and!; try lia; [assumption|].
    apply pton6_ntop6; assumption.
Qed.

Lemma endpoint_texts_format af host port :
  Forall ip_text_char host -> 1 <= lenZ host -> 0 <= port ->
  endpoint_texts af
    (match af with
     | AF_INET6 => [91] ++ host ++ [93; 58] ++ dec port
     | AF_INET => host ++ [58] ++ dec port
     end) = Some (host, dec port).
Proof.
  intros Hh Hlen Hp. pose proof (dec_digits_only port Hp) as Hd.
  assert (Hne : beq (dec port) [] = false).
  { apply beq_false. intros E. pose proof (dec_length port (port + 1)) as Hl.
    rewrite E in Hl. change (lenZ (@nil Z)) with 0 in Hl.
    assert (port < 10 ^ (port + 1)) by (apply Z.lt_trans with (port + 1); [lia|apply Z.pow_gt_lin_r; lia]).
    lia. }
  destruct af; cbn [endpoint_texts app].
  - rewrite split_last_app by (apply digits_avoid; [assumption|reflexivity]). rewrite Hne.
    destruct (beq host []) eqn:E; [|reflexivity]. apply beq_true in E. subst host.
    change (lenZ (@nil Z)) with 0 in Hlen. lia.
  - rewrite split_first_app by (apply ip_text_avoids; [assumption|unfold ip_text_char; lia]).
    rewrite Hne. reflexivity.
Qed.

(** endpoint texts round-trip.  For every address and every port from 1 to
    65535 the text of [format_endpoint] fits its buffer, and
    [parse_endpoint] reads the same address and port back from it. *)
Theorem endpoint_round_trip af address port :
  lenZ address = ch_ip_stack_address_length af -> bytes_ok address -> 1 <= port <= UINT16_MAX ->
  exists text, ch_ip_stack_format_endpoint af address port = Some text /\
    ch_ip_stack_parse_endpoint (Some text) af = Some (address, port).
Proof.
  intros Hl Hok Hp. unfold UINT16_MAX in Hp. destruct (ntop_text af address Hl Hok) as (Hlen & Htext & Hpton).
  pose proof (dec_length port 5 ltac:(lia) ltac:(lia)) as Hd.
  unfold ch_ip_stack_format_endpoint. rewrite take_ge by (unfold lenZ in Hl; lia).
  set (text := match af with AF_INET => _ | AF_INET6 => _ end).
  assert (Htl : 0 < lenZ text < 56)
    by (unfold text; destruct af; cbn [app]; rewrite ?lenZ_cons, ?lenZ_app, ?lenZ_cons; lia).
  exists text. unfold INET6_ADDRSTRLEN. split; [case_if; [reflexivity|lia]|].
  unfold ch_ip_stack_parse_endpoint. cbn [mbind option_bind].
  assert (Ht : endpoint_texts af text = Some (ntop af address, dec port))
    by (apply endpoint_texts_format; [assumption|lia..]).
  rewrite Ht. cbn [mbind option_bind]. unfold INET6_ADDRSTRLEN. case_if; [lia|].
  rewrite <- (app_nil_r (dec port)), strtoul_dec by (reflexivity || (unfold UINT64_MAX; lia)).
  cbn [scan_range scan_any scan_rest scan_value negb orb]. change (beq [] []) with true. cbn [negb orb].
  unfold UINT16_MAX. case_if; [lia|]. rewrite Hpton. reflexivity.
Qed.

End EndpointFacts.

Import PlainInet.

(** ** Facts: a packet written field by field *)

Fixpoint fill (p : bytes) (fields : list (Z * bytes)) : bytes :=
  match fields with
  | [] => p
  | (i, v) :: rest => fill (put p i v) rest
  end.

Definition fits (n : Z) (field : Z * bytes) : Prop :=
  0 <= fst field /\ fst field + lenZ (snd field) <= n.

Definition apart (f g : Z * bytes) : Prop :=
  fst f + lenZ (snd f) <= fst g \/ fst g + lenZ (snd g) <= fst f.

Definition outside (k : Z) (field : Z * bytes) : Prop :=
  k < fst field \/ fst field + lenZ (snd field) <= k.

Lemma fill_length p fs : Forall (fits (lenZ p)) fs -> lenZ (fill p fs) = lenZ p.
Proof.
  revert p. induction fs as [|[i v] fs IH]; intros p HF; cbn [fill]; [reflexivity|].
  inversion_clear HF as [|?? [Hi Hv] Hr]. cbn [fst snd] in *.
  assert (E : lenZ (put p i v) = lenZ p) by (apply lenZ_put; lia).
  rewrite IH; [assumption|rewrite E; assumption].
Qed.

Lemma fill_bytes_ok p fs :
  bytes_ok p -> Forall (fun f => bytes_ok (snd f)) fs -> bytes_ok (fill p fs).
Proof.
  revert p. induction fs as [|[i v] fs IH]; intros p Hp HF; cbn [fill]; [assumption|].
  inversion_clear HF. apply IH; [apply bytes_ok_put; assumption|assumption].
Qed.

Lemma fill_out p fs k :
  Forall (fits (lenZ p)) fs -> 0 <= k -> Forall (outside k) fs ->
  byte_at (fill p fs) k = byte_at p k.
Proof.
  revert p. induction fs as [|[i v] fs IH]; intros p HF Hk Ho; cbn [fill]; [reflexivity|].
  inversion_clear HF as [|?? [Hi Hv] Hr]. inversion_clear Ho as [|?? Hko Hor].
  unfold outside in Hko. cbn [fst snd] in *.
  assert (E : lenZ (put p i v) = lenZ p) by (apply lenZ_put; lia).
  rewrite IH by (rewrite ?E; assumption). apply byte_at_put_out; lia.
Qed.

Lemma fill_app p fs gs : fill p (fs ++ gs) = fill (fill p fs) gs.
Proof. revert p. induction fs as [|[i v] fs IH]; intros p; cbn [fill app]; [reflexivity|apply IH]. Qed.

Lemma fill_field p fs i v :
  Forall (fits (lenZ p)) fs -> ForallOrdPairs apart fs -> In (i, v) fs ->
  sub (fill p fs) i (lenZ v) = v.
Proof.
  revert p. induction fs as [|[j w] fs IH]; intros p HF HA Hin; [destruct Hin|].
  inversion_clear HF as [|?? [Hj Hw] Hr]. inversion_clear HA as [|?? Ha Har]. cbn [fst snd fill] in *.
  assert (E : lenZ (put p j w) = lenZ p) by (apply lenZ_put; lia).
  destruct Hin as [[= -> ->] | Hin]; [|apply IH; [rewrite E|..]; assumption].
  pose proof (lenZ_nonneg v). apply bytes_eq.
  - rewrite lenZ_sub; [reflexivity|lia..|]. rewrite fill_length; rewrite E; assumption || lia.
  - rewrite lenZ_sub by (rewrite ?fill_length; rewrite ?E; assumption || lia). intros k Hk.
    rewrite byte_at_sub by lia. rewrite fill_out; [|rewrite E; assumption|lia|].
    + rewrite byte_at_put_in by lia. f_equal. lia.
    + eapply List.Forall_impl; [|exact Ha]. unfold apart, outside. cbn [fst snd]. intros g Hg. lia.
Qed.

Lemma wr_fill {E} p fs i v :
  Forall (fits (lenZ p)) fs -> fits (lenZ p) (i, v) ->
  @wr E (fill p fs) i v = Done (fill p (fs ++ [(i, v)])).
Proof.
  intros HF [Hi Hv]. cbn [fst snd] in *. rewrite wr_Done by (rewrite ?fill_length; assumption || lia).
  rewrite fill_app. reflexivity.
Qed.

Lemma word_of_sub p i v : 0 <= i -> 0 <= v <= 65535 -> sub p i 2 = be16 v -> word_at p i = v.
Proof.
  intros Hi Hv E. rewrite <- (be16_value v Hv). unfold word_at.
  assert (H0 : byte_at (sub p i 2) 0 = byte_at p (i + 0)) by (apply byte_at_sub; lia).
  assert (H1 : byte_at (sub p i 2) 1 = byte_at p (i + 1)) by (apply byte_at_sub; lia).
  rewrite E in H0, H1. rewrite Z.add_0_r in H0. rewrite <- H0, <- H1. reflexivity.
Qed.

Lemma byte_of_sub p i b : 0 <= i -> sub p i 1 = [b] -> byte_at p i = b.
Proof.
  intros Hi E. assert (H0 : byte_at (sub p i 1) 0 = byte_at p (i + 0)) by (apply byte_at_sub; lia).
  rewrite E, Z.add_0_r in H0. symmetry. exact H0.
Qed.

(** ** Facts: UDP checksums *)

(** A checksum that comes out as zero is sent as 0xffff and still verifies. *)
Lemma segment_closes_ones seg k s0 :
  bytes_ok seg -> lenZ seg <= 65535 -> 0 <= s0 <= 2 ^ 30 ->
  0 <= k -> k + 2 <= lenZ seg -> Z.even k = true -> word_at seg k = 0 ->
  ch_ip_stack_checksum_finish (ch_ip_stack_checksum_add seg s0) = 0 ->
  ch_ip_stack_checksum_finish (ch_ip_stack_checksum_add (put seg k (be16 65535)) s0) = 0.
Proof.
  intros Hok Hlen Hs0 Hk Hk2 Hev Hz Hc. destruct (wsum_range seg Hok) as [Hw1 Hw2].
  rewrite checksum_add_wsum in Hc by (assumption || lia).
  assert (Hd : wsum (put seg k (be16 65535)) = wsum seg + 65535).
  { unfold be16. rewrite wsum_put16, Hz by assumption. rewrite be16_value by lia. lia. }
  rewrite checksum_add_wsum; [|apply bytes_ok_put; [assumption|apply be16_ok]|lia|lia].
  rewrite Hd, Z.add_assoc. set (s := s0 + wsum seg) in *.
  rewrite checksum_finish_spec in Hc |- * by lia.
  destruct (checksum_fold_spec s ltac:(lia)) as (Hr & Hm & Hz').
  destruct (checksum_fold_spec (s + 65535) ltac:(lia)) as (Hr' & Hm' & Hz'').
  rewrite <- (Z.mul_1_l 65535) in Hm' at 3. rewrite Z.mod_add, <- Hm in Hm' by lia.
  replace (checksum_fold 2 s) with 65535 in Hm' by lia. change (65535 mod 65535) with 0 in Hm'.
  set (g := checksum_fold 2 (s + 65535)) in *. destruct (decide (g = 65535)); [lia|].
  rewrite Z.mod_small in Hm' by lia. lia.
Qed.

(** What the code writes into the checksum field makes the datagram verify. *)
Lemma udp_field_closes p off s0 :
  bytes_ok p -> lenZ p <= 65535 -> 0 <= s0 <= 2 ^ 30 -> 0 <= off -> off + 8 <= lenZ p ->
  word_at p (off + 6) = 0 ->
  let c := ch_ip_stack_checksum_finish
             (ch_ip_stack_checksum_add (sub p off (lenZ p - off)) s0) in
  let field := if c =? 0 then UINT16_MAX else c in
  1 <= field <= 65535 /\
  ch_ip_stack_checksum_finish
    (ch_ip_stack_checksum_add (sub (put p (off + 6) (be16 field)) off (lenZ p - off)) s0) = 0.
Proof.
  intros Hok Hlen Hs0 Ho Hl Hz c field.
  assert (Hsub : lenZ (sub p off (lenZ p - off)) = lenZ p - off) by (apply lenZ_sub; lia).
  assert (Hws : word_at (sub p off (lenZ p - off)) 6 = 0) by (rewrite word_at_sub by lia; exact Hz).
  destruct (segment_closes (sub p off (lenZ p - off)) 6 s0) as [Hc _]; auto with bytes; try lia.
  fold c in Hc. unfold field, UINT16_MAX. destruct (c =? 0) eqn:E; (split; [lia|]).
  - assert (Hb : lenZ (be16 65535) = 2) by reflexivity. rewrite sub_put_in by lia.
    replace (off + 6 - off) with 6 by lia. apply segment_closes_ones; auto with bytes; try lia.
  - apply write_transport_checksum; try assumption; try lia.
    replace (off + 6 - off) with 6 by lia. reflexivity.
Qed.

Definition udp_pseudo4 (p : bytes) : Z :=
  let n := lenZ p - 20 in
  ch_ip_stack_checksum_add [0; 17; u8 (Z.shiftr n 8); u8 n] (ch_ip_stack_checksum_add (sub p 12 8) 0).

Definition udp_pseudo6 (p : bytes) : Z :=
  let n := lenZ p - 40 in
  ch_ip_stack_checksum_add (be32 n ++ [0; 0; 0; 17]) (ch_ip_stack_checksum_add (sub p 8 32) 0).

Definition udp_offset (af : address_family) : Z := match af with AF_INET6 => 40 | AF_INET => 20 end.

Definition udp_pseudo (af : address_family) (p : bytes) : Z :=
  match af with AF_INET6 => udp_pseudo6 p | AF_INET => udp_pseudo4 p end.

(** The header of a packet without options or extension headers. *)
Definition plain_header (af : address_family) (p : bytes) : Prop :=
  match af with
  | AF_INET => byte_at p 0 = 69
  | AF_INET6 => byte_at p 0 = 96 /\ word_at p 4 = lenZ p - 40 /\ byte_at p 6 = 17
  end.

Lemma plain_transport p :
  bytes_ok p -> 40 <= lenZ p -> plain_header AF_INET6 p ->
  ch_ip_stack_ipv6_transport p = Done (Some (17, 40)).
Proof.
  intros Hb Hl (H0 & H4 & H6). unfold ch_ip_stack_ipv6_transport. destruct (lenZ p <? 40) eqn:E; [lia|].
  rewrite (rd_Done p 0) by lia. cbn [mbind outcome_bind]. rewrite H0. change (negb (Z.shiftr 96 4 =? 6)) with false.
  cbn match. rewrite read_u16_word by (assumption || lia). cbn [mbind outcome_bind].
  rewrite H4, Z.eqb_refl. cbn [negb]. rewrite (rd_Done p 6) by lia. cbn [mbind outcome_bind].
  rewrite H6. reflexivity.
Qed.

Lemma udp_checksum_eval af p :
  bytes_ok p -> udp_offset af + 8 <= lenZ p -> plain_header af p ->
  match af with
  | AF_INET6 => ch_ip_stack_udp_checksum_ipv6 p
  | AF_INET => ch_ip_stack_udp_checksum_ipv4 p
  end = Done (ch_ip_stack_checksum_finish
                (ch_ip_stack_checksum_add (sub p (udp_offset af) (lenZ p - udp_offset af))
                   (udp_pseudo af p))).
Proof.
  intros Hb Hl Hh. destruct af; cbn [udp_offset udp_pseudo plain_header] in *.
  - unfold ch_ip_stack_udp_checksum_ipv4. rewrite (rd_Done p 0) by lia. cbn [mbind outcome_bind].
    rewrite Hh. change (Z.land 69 15 * 4) with 20. case_if; [lia|].
    rewrite (rds_Done p 12 8) by lia. cbn [mbind outcome_bind].
    rewrite (rds_Done p 20 (lenZ p - 20)) by lia. reflexivity.
  - unfold ch_ip_stack_udp_checksum_ipv6. rewrite plain_transport by (assumption || lia).
    cbn [mbind outcome_bind]. change (negb (17 =? 17)) with false. cbn [orb]. case_if; [lia|].
    rewrite (rds_Done p 8 32) by lia. cbn [mbind outcome_bind].
    rewrite (rds_Done p 40 (lenZ p - 40)) by lia. reflexivity.
Qed.

Lemma udp_pseudo_range af p :
  bytes_ok p -> udp_offset af <= lenZ p -> 0 <= udp_pseudo af p <= 2 ^ 30.
Proof.
  intros Hb Hl. destruct af; cbn [udp_offset udp_pseudo] in *; apply pseudo_range; auto with bytes;
    try (rewrite lenZ_sub; lia); try (unfold lenZ; simpl; lia);
    repeat constructor; try apply u8_ok; unfold byte_ok; lia.
Qed.

(** ** Facts: the packets that are written *)

Definition ip_fields (af : address_family) (n random : Z) (remote client : bytes)
    : list (Z * bytes) :=
  match af with
  | AF_INET6 =>
      [(0, [96]); (4, be16 (u16 (8 + n))); (6, [17]); (7, [64]); (8, remote); (24, client)]
  | AF_INET =>
      [(0, [69]); (2, be16 (u16 (28 + n))); (4, be16 (u16 random)); (6, [64]); (8, [64]); (9, [17]);
       (12, remote); (16, client)]
  end.

Definition udp_fields (off remote_port client_port : Z) (payload : bytes) : list (Z * bytes) :=
  [(off, be16 remote_port); (off + 2, be16 client_port); (off + 4, be16 (u16 (8 + lenZ payload)));
   (off + 8, payload)].

Lemma put_empty (p : bytes) i v : lenZ v = 0 -> put p i v = p.
Proof.
  intros Hv. destruct v as [|b l]; [|rewrite lenZ_cons in Hv; pose proof (lenZ_nonneg l); lia].
  unfold put. cbn [app length]. rewrite Nat.add_0_r, take_drop. reflexivity.
Qed.

Lemma lenZ_one (b : Z) : lenZ [b] = 1.
Proof. reflexivity. Qed.

Lemma lenZ_be16 v : lenZ (be16 v) = 2.
Proof. reflexivity. Qed.

Ltac field_tac :=
  repeat first [apply List.Forall_nil | apply List.Forall_cons | apply FOP_nil | apply FOP_cons];
  unfold fits, apart, outside; cbn [fst snd]; rewrite ?lenZ_one, ?lenZ_be16; lia.

(** The arguments of one call. *)
Record response : Type := mk_response {
  r_family : address_family;
  r_random : Z;
  r_remote : bytes;
  r_client : bytes;
  r_payload : bytes;
  r_remote_port : Z;
  r_client_port : Z
}.

Record response_ok (r : response) : Prop := mk_response_ok {
  ro_remote : lenZ (r_remote r) = ch_ip_stack_address_length (r_family r);
  ro_client : lenZ (r_client r) = ch_ip_stack_address_length (r_family r);
  ro_remote_bytes : bytes_ok (r_remote r);
  ro_client_bytes : bytes_ok (r_client r);
  ro_payload_bytes : bytes_ok (r_payload r);
  ro_remote_port : 0 <= r_remote_port r <= UINT16_MAX;
  ro_client_port : 0 <= r_client_port r <= UINT16_MAX;
  ro_size : udp_offset (r_family r) + 8 + lenZ (r_payload r) <= CH_IP_STACK_MAX_PACKET
}.

Definition r_offset (r : response) : Z := udp_offset (r_family r).
Definition r_length (r : response) : Z := r_offset r + 8 + lenZ (r_payload r).

Definition r_body (r : response) : list (Z * bytes) :=
  ip_fields (r_family r) (lenZ (r_payload r)) (r_random r) (r_remote r) (r_client r)
  ++ udp_fields (r_offset r) (r_remote_port r) (r_client_port r) (r_payload r).

(** The packet without checksums, the checksum field, the packet with it, and
    the finished packet. *)
Definition r_datagram (r : response) : bytes :=
  fill (replicate (Z.to_nat (r_length r)) 0) (r_body r).

Definition r_field (r : response) : Z :=
  let p := r_datagram r in
  let c := ch_ip_stack_checksum_finish
             (ch_ip_stack_checksum_add (sub p (r_offset r) (lenZ p - r_offset r))
                (udp_pseudo (r_family r) p)) in
  if c =? 0 then UINT16_MAX else c.

Definition r_summed (r : response) : bytes := put (r_datagram r) (r_offset r + 6) (be16 (r_field r)).

Definition r_packet (r : response) : bytes :=
  match r_family r with
  | AF_INET6 => r_summed r
  | AF_INET => put (r_summed r) 10 (be16 (ch_ip_stack_checksum (sub (r_summed r) 0 20)))
  end.

Ltac response_cases r H :=
  let af := fresh "af" in let random := fresh "random" in let remote := fresh "remote" in
  let client := fresh "client" in let payload := fresh "payload" in
  let rp := fresh "rp" in let cp := fresh "cp" in
  destruct r as [af random remote client payload rp cp];
  destruct H as [?Hremote ?Hclient ?Hrb ?Hcb ?Hpb ?Hrp ?Hcp ?Hsize];
  pose proof (lenZ_nonneg payload);
  unfold r_body, r_length in *;
  unfold r_offset, ip_fields, udp_fields, CH_IP_STACK_MAX_PACKET, UINT16_MAX in *;
  cbn [r_family r_random r_remote r_client r_payload r_remote_port r_client_port] in *;
  destruct af; cbn [udp_offset app ch_ip_stack_address_length] in *.

Section Response.
Context (r : response) (Hr : response_ok r).

Lemma zero_length : lenZ (replicate (Z.to_nat (r_length r)) 0) = r_length r.
Proof. rewrite lenZ_replicate. response_cases r Hr; lia. Qed.

Lemma body_fits : Forall (fits (r_length r)) (r_body r).
Proof. response_cases r Hr; field_tac. Qed.

Lemma body_apart : ForallOrdPairs apart (r_body r).
Proof. response_cases r Hr; field_tac. Qed.

Lemma datagram_length : lenZ (r_datagram r) = r_length r.
Proof. unfold r_datagram. rewrite fill_length; rewrite zero_length; [reflexivity|apply body_fits]. Qed.

Lemma datagram_ok : bytes_ok (r_datagram r).
Proof.
  unfold r_datagram. apply fill_bytes_ok; [apply bytes_ok_replicate0|].
  assert (H1 : forall b, 0 <= b < 256 -> bytes_ok [b])
    by (intros; repeat constructor; unfold byte_ok; lia).
  response_cases r Hr;
    repeat (apply List.Forall_cons; [cbn [snd]; first [apply be16_ok | assumption | apply H1; lia]|]);
    apply List.Forall_nil.
Qed.

Lemma datagram_field i v : In (i, v) (r_body r) -> sub (r_datagram r) i (lenZ v) = v.
Proof.
  intros Hin. apply fill_field; [rewrite zero_length; apply body_fits|apply body_apart|assumption].
Qed.

Lemma datagram_zero k : 0 <= k -> Forall (outside k) (r_body r) -> byte_at (r_datagram r) k = 0.
Proof.
  intros Hk Ho. unfold r_datagram.
  rewrite fill_out; [|rewrite zero_length; apply body_fits|assumption..].
  unfold byte_at. destruct (replicate _ 0 !! _) eqn:E; [|reflexivity].
  apply lookup_replicate in E as [-> _]. reflexivity.
Qed.

Lemma datagram_header : plain_header (r_family r) (r_datagram r).
Proof.
  pose proof datagram_length as Hl. pose proof datagram_field as Hf.
  set (p := r_datagram r) in *. clearbody p.
  response_cases r Hr; cbn [plain_header].
  - apply byte_of_sub; [lia|]. apply (Hf 0 [69]). cbn; auto.
  - split_and!.
    + apply byte_of_sub; [lia|]. apply (Hf 0 [96]). cbn; auto.
    + rewrite Hl. replace (40 + 8 + lenZ payload - 40) with (u16 (8 + lenZ payload))
        by (unfold u16; rewrite Z.mod_small; lia).
      apply word_of_sub; [lia|unfold u16; rewrite Z.mod_small; lia|].
      apply (Hf 4 (be16 (u16 (8 + lenZ payload)))). cbn; auto.
    + apply byte_of_sub; [lia|]. apply (Hf 6 [17]). cbn; auto.
Qed.

Lemma datagram_checksum_field : word_at (r_datagram r) (r_offset r + 6) = 0.
Proof.
  unfold word_at. rewrite !datagram_zero; [reflexivity|response_cases r Hr; (lia || field_tac)..].
Qed.

Lemma wr_payload z fs :
  lenZ z = r_length r -> Forall (fits (lenZ z)) fs ->
  (if lenZ (r_payload r) >? 0 then wr (fill z fs) (r_offset r + 8) (r_payload r) else Done (fill z fs))
  = (Done (fill z (fs ++ [(r_offset r + 8, r_payload r)])) : result bytes).
Proof.
  intros Hz HF. pose proof (lenZ_nonneg (r_payload r)).
  assert (0 <= r_offset r) by (unfold r_offset; destruct (r_family r); cbn; lia).
  destruct (lenZ (r_payload r) >? 0) eqn:E.
  - apply wr_fill; [assumption|]. unfold r_length in Hz. split; cbn [fst snd]; lia.
  - rewrite fill_app. cbn [fill]. rewrite put_empty by lia. reflexivity.
Qed.

End Response.

(** The address buffers of the call hold at least the address. *)
Definition holds (af : address_family) (buffer address : bytes) : Prop :=
  ch_ip_stack_address_length af <= lenZ buffer /\
  address = sub buffer 0 (ch_ip_stack_address_length af).

Lemma rds_holds {E} af buffer address n :
  holds af buffer address -> n = ch_ip_stack_address_length af ->
  @rds E buffer 0 n = Done address.
Proof.
  intros [Hl ->] ->. apply rds_Done; [lia|destruct af; cbn; lia|lia].
Qed.

Ltac wr_step Hz :=
  unfold ch_ip_stack_write_u16;
  rewrite wr_fill by (rewrite Hz; field_tac); cbn [mbind outcome_bind app].

(** The writes of the header and of the datagram. *)
Lemma emit_writes r mtu remote_buffer client_buffer :
  response_ok r -> r_length r <= mtu ->
  holds (r_family r) remote_buffer (r_remote r) -> holds (r_family r) client_buffer (r_client r) ->
  ch_ip_stack_emit_udp_response mtu (r_family r) remote_buffer (r_remote_port r) client_buffer
    (r_client_port r) (r_payload r) (r_random r) true
  = (udp_checksum ←
       match r_family r with
       | AF_INET6 => ch_ip_stack_udp_checksum_ipv6 (r_datagram r)
       | AF_INET => ch_ip_stack_udp_checksum_ipv4 (r_datagram r)
       end;
     packet ← ch_ip_stack_write_u16 (r_datagram r) (r_offset r + 6)
                (if udp_checksum =? 0 then UINT16_MAX else udp_checksum);
     match r_family r with
     | AF_INET =>
         header ← rds packet 0 20;
         ch_ip_stack_write_u16 packet 10 (ch_ip_stack_checksum header)
     | AF_INET6 => Done packet
     end).
Proof.
  intros Hr Hmtu Hrem Hcli. pose proof (zero_length r Hr) as Hz. pose proof (wr_payload r) as Hwp.
  pose proof (fun n => rds_holds (E := ch_error) _ _ _ n Hrem) as Hrd.
  pose proof (fun n => rds_holds (E := ch_error) _ _ _ n Hcli) as Hcd. clear Hrem Hcli.
  unfold ch_ip_stack_emit_udp_response, r_datagram. cbv zeta.
  response_cases r Hr; (destruct (_ || _ || _) eqn:Hc; [lia|]); cbn [negb];

    match goal with |- context [replicate (Z.to_nat ?k) 0] => set (z := replicate (Z.to_nat k) 0) in * end;
    change (wr z 0) with (wr (fill z []) 0 : bytes -> result bytes).
  all: repeat first [rewrite Hwp by (first [exact Hz | rewrite Hz; field_tac]);
                       cbn [mbind outcome_bind app]
                    | wr_step Hz | rewrite Hrd by reflexivity; cbn [mbind outcome_bind]
                    | rewrite Hcd by reflexivity; cbn [mbind outcome_bind]].
  all: reflexivity.
Qed.

Lemma summed_spec r :
  response_ok r ->
  bytes_ok (r_summed r) /\ lenZ (r_summed r) = r_length r /\ 1 <= r_field r <= 65535 /\
  word_at (r_summed r) (r_offset r + 6) = r_field r /\
  (forall k, 0 <= k -> ~ (r_offset r + 6 <= k < r_offset r + 8) ->
     byte_at (r_summed r) k = byte_at (r_datagram r) k) /\
  ch_ip_stack_checksum_finish
    (ch_ip_stack_checksum_add (sub (r_summed r) (r_offset r) (r_length r - r_offset r))
       (udp_pseudo (r_family r) (r_datagram r))) = 0.
Proof.
  intros Hr. pose proof (datagram_length r Hr) as Hl. pose proof (datagram_ok r Hr) as Hok.
  assert (Hsz : 20 <= r_offset r /\ r_offset r + 8 <= r_length r /\ r_length r <= 65535).
  { response_cases r Hr; lia. }
  assert (Hlo : udp_offset (r_family r) <= lenZ (r_datagram r)) by (rewrite Hl; unfold r_offset in *; lia).
  destruct (udp_field_closes (r_datagram r) (r_offset r) (udp_pseudo (r_family r) (r_datagram r)))
    as [Hf Hc]; try assumption; try lia.
  { apply udp_pseudo_range; assumption. }
  { apply datagram_checksum_field; assumption. }
  fold (r_field r) in Hf, Hc. fold (r_summed r) in Hc. rewrite Hl in Hc.
  assert (Hb : lenZ (be16 (r_field r)) = 2) by reflexivity.
  split_and!; try lia; try assumption.
  - apply bytes_ok_put; [assumption|apply be16_ok].
  - unfold r_summed. rewrite lenZ_put; lia.
  - unfold r_summed. apply word_at_put16; lia.
  - intros k Hk Ho. unfold r_summed. apply byte_at_put_out; lia.
Qed.

Lemma emit_eval r mtu remote_buffer client_buffer :
  response_ok r -> r_length r <= mtu ->
  holds (r_family r) remote_buffer (r_remote r) -> holds (r_family r) client_buffer (r_client r) ->
  ch_ip_stack_emit_udp_response mtu (r_family r) remote_buffer (r_remote_port r) client_buffer
    (r_client_port r) (r_payload r) (r_random r) true = Done (r_packet r).
Proof.
  intros Hr Hmtu Hrem Hcli. rewrite (emit_writes r) by assumption.
  pose proof (datagram_length r Hr) as Hl.
  assert (Hsz : 20 <= r_offset r /\ r_offset r + 8 <= r_length r).
  { response_cases r Hr; lia. }
  destruct (summed_spec r Hr) as (_ & Hsl & _).
  rewrite udp_checksum_eval; [|apply datagram_ok; assumption|rewrite Hl; exact (proj2 Hsz)
                              |apply datagram_header; assumption].
  cbn [mbind outcome_bind]. fold (r_offset r). fold (r_field r). unfold ch_ip_stack_write_u16.
  assert (Hb : forall v, lenZ (be16 v) = 2) by reflexivity.
  rewrite wr_Done by (rewrite ?Hb; lia). cbn [mbind outcome_bind]. fold (r_summed r).
  unfold r_packet. destruct (r_family r); [|reflexivity].
  rewrite rds_Done by lia. cbn [mbind outcome_bind]. apply wr_Done; rewrite ?Hb; lia.
Qed.

(** Where the finished packet differs from the one without checksums. *)
Lemma packet_agrees r :
  response_ok r ->
  bytes_ok (r_packet r) /\ lenZ (r_packet r) = r_length r /\
  (forall k, 0 <= k -> ~ (r_offset r + 6 <= k < r_offset r + 8) ->
     ~ (r_family r = AF_INET /\ 10 <= k < 12) -> byte_at (r_packet r) k = byte_at (r_datagram r) k) /\
  (forall i m, r_offset r <= i -> 0 <= m -> i + m <= r_length r ->
     sub (r_packet r) i m = sub (r_summed r) i m) /\
  (r_family r = AF_INET -> ch_ip_stack_checksum (sub (r_packet r) 0 20) = 0).
Proof.
  intros Hr. destruct (summed_spec r Hr) as (Hok & Hl & _ & _ & Hout & _).
  pose proof (datagram_zero r Hr) as Hz.
  assert (Hsz : 20 <= r_offset r /\ r_offset r + 8 <= r_length r /\ r_length r <= 65535 /\
                (r_family r = AF_INET -> r_offset r = 20)).
  { response_cases r Hr; split_and!; (lia || reflexivity || discriminate). }
  destruct Hsz as (H20 & Hfit & Hmax & H4). unfold r_packet.
  destruct (r_family r) eqn:Haf; [|split_and!; auto; discriminate].
  set (c := ch_ip_stack_checksum (sub (r_summed r) 0 20)). assert (Hb : lenZ (be16 c) = 2) by reflexivity.
  specialize (H4 eq_refl). split_and!.
  - apply bytes_ok_put; [assumption|apply be16_ok].
  - rewrite lenZ_put; lia.
  - intros k Hk H1 H2. rewrite byte_at_put_out; [apply Hout; assumption|lia..|].
    enough (~ (10 <= k < 12)) by lia. intros H. apply H2. auto.
  - intros i m Hi Hm Him. apply sub_put_out; lia.
  - intros _. apply header_closes; try assumption; try lia.
    unfold word_at. rewrite !Hout by lia. rewrite !Hz; [reflexivity|..]; try lia;
      response_cases r Hr; try discriminate; field_tac.
Qed.

Lemma packet_field r i v :
  response_ok r -> In (i, v) (r_body r) -> i + lenZ v <= r_offset r + 6 \/ r_offset r + 8 <= i ->
  (r_family r = AF_INET -> i + lenZ v <= 10 \/ 12 <= i) ->
  sub (r_packet r) i (lenZ v) = v.
Proof.
  intros Hr Hin H1 H2. destruct (packet_agrees r Hr) as (_ & Hl & Hag & _).
  pose proof (body_fits r Hr) as HF. rewrite Forall_forall in HF. destruct (HF _ Hin) as [Hi Hv].
  cbn [fst snd] in *. pose proof (lenZ_nonneg v).
  transitivity (sub (r_datagram r) i (lenZ v)); [|apply datagram_field; assumption].
  pose proof (datagram_length r Hr) as Hd.
  apply bytes_eq; rewrite !lenZ_sub by lia; [reflexivity|]. intros k Hk. rewrite !byte_at_sub by lia.
  apply Hag; [lia|lia|]. intros [E ?]. specialize (H2 E). lia.
Qed.

Lemma packet_header r : response_ok r -> plain_header (r_family r) (r_packet r).
Proof.
  intros Hr. destruct (packet_agrees r Hr) as (_ & Hl & Hag & _). pose proof (datagram_header r Hr) as Hh.
  pose proof (datagram_length r Hr) as Hd. assert (H20 : 20 <= r_offset r) by (response_cases r Hr; lia).
  unfold plain_header, word_at in *. destruct (r_family r).
  - rewrite Hag by lia. exact Hh.
  - rewrite !Hag, Hl by (lia || (intros [? ?]; discriminate)). rewrite Hd in Hh. exact Hh.
Qed.

Lemma packet_verifies r :
  response_ok r ->
  match r_family r with
  | AF_INET6 => ch_ip_stack_udp_checksum_ipv6 (r_packet r)
  | AF_INET => ch_ip_stack_udp_checksum_ipv4 (r_packet r)
  end = Done 0.
Proof.
  intros Hr. destruct (packet_agrees r Hr) as (Hok & Hl & Hag & Hsub & _).
  destruct (summed_spec r Hr) as (_ & _ & _ & _ & _ & Hc). pose proof (datagram_length r Hr) as Hd.
  assert (Hsz : r_offset r + 8 <= r_length r) by (response_cases r Hr; lia).
  rewrite udp_checksum_eval; [|assumption|rewrite Hl; exact Hsz|apply packet_header; assumption].
  fold (r_offset r). rewrite Hl, Hsub by lia. f_equal. etransitivity; [|exact Hc]. do 2 f_equal.
  assert (Hps : forall i m, 0 <= i -> 0 <= m -> i + m <= r_offset r -> 12 <= i \/ r_family r = AF_INET6 ->
            sub (r_packet r) i m = sub (r_datagram r) i m).
  { intros i m Hi Hm Him H12. apply bytes_eq; rewrite !lenZ_sub by lia; [reflexivity|].
    intros k Hk. rewrite !byte_at_sub by lia. apply Hag; [lia|lia|].
    intros [E ?]. destruct H12 as [? | ?]; [lia|congruence]. }
  unfold udp_pseudo, udp_pseudo4, udp_pseudo6, r_offset in *.
  destruct (r_family r); cbn [udp_offset] in *; rewrite Hps, Hl, Hd by (lia || auto with lia); reflexivity.
Qed.

(** The reading of the handlers, on a packet that was written. *)
Lemma packet_reads r :
  response_ok r ->
  let p := r_packet r in
  let off := r_offset r in
  ch_ip_stack_read_u16 p off = Done (r_remote_port r) /\
  ch_ip_stack_read_u16 p (off + 2) = Done (r_client_port r) /\
  ch_ip_stack_read_u16 p (off + 4) = Done (8 + lenZ (r_payload r)) /\
  ch_ip_stack_read_u16 p (off + 6) = Done (r_field r) /\
  @rds ch_error p (off + 8) (lenZ (r_payload r)) = Done (r_payload r) /\
  @rds ch_error p (match r_family r with AF_INET => 12 | AF_INET6 => 8 end)
    (ch_ip_stack_address_length (r_family r)) = Done (r_remote r) /\
  @rds ch_error p (match r_family r with AF_INET => 16 | AF_INET6 => 24 end)
    (ch_ip_stack_address_length (r_family r)) = Done (r_client r).
Proof.
  intros Hr p off. destruct (packet_agrees r Hr) as (Hok & Hl & _ & Hsub & _).
  destruct (summed_spec r Hr) as (Hsok & Hsl & _ & Hw & _). fold p in Hok, Hl, Hsub. fold off in Hw, Hsub.
  pose proof (packet_field r) as Hf. fold p in Hf.
  assert (Hwf : word_at p (off + 6) = r_field r).
  { assert (Hs2 : sub p (off + 6) 2 = sub (r_summed r) (off + 6) 2)
      by (apply Hsub; unfold off; response_cases r Hr; lia).
    assert (Hws : word_at (sub p (off + 6) 2) 0 = word_at p (off + 6 + 0))
      by (apply word_at_sub; unfold off; response_cases r Hr; lia).
    rewrite Hs2, word_at_sub, !Z.add_0_r in Hws by (unfold off; response_cases r Hr; lia). congruence. }
  specialize (fun i v => Hf i v Hr). clearbody p. revert Hwf Hl Hf. unfold off. clear off Hsub Hw Hsok Hsl.
  generalize (r_field r). intros field.
  response_cases r Hr; intros Hwf Hl Hf;
    assert (Hu : u16 (8 + lenZ payload) = 8 + lenZ payload) by (apply Z.mod_small; lia);
    rewrite Hu in Hf; rewrite !read_u16_word by (assumption || lia); rewrite Hwf, !rds_Done by lia;
    split_and!; f_equal; try apply word_of_sub; try lia.
  all: first [apply (Hf _ (be16 _)) | rewrite <- Hremote; apply Hf | rewrite <- Hclient; apply Hf | apply Hf].
  all: first [discriminate | intros; rewrite ?lenZ_be16; lia | cbn [In]; tauto].
Qed.

Lemma packet_fragment r :
  response_ok r -> r_family r = AF_INET -> ch_ip_stack_read_u16 (r_packet r) 6 = Done 16384.
Proof.
  intros Hr Haf. destruct (packet_agrees r Hr) as (Hok & Hl & Hag & _).
  assert (Hsz : 28 <= r_length r /\ r_offset r = 20) by (response_cases r Hr; (split; lia) || discriminate).
  rewrite read_u16_word by (assumption || lia). unfold word_at.
  rewrite !Hag by lia. rewrite (datagram_zero r Hr (6 + 1)) by (try lia; response_cases r Hr; try discriminate; field_tac).
  rewrite (byte_of_sub (r_datagram r) 6 64); [reflexivity|lia|]. apply (datagram_field r Hr 6 [64]).
  response_cases r Hr; [cbn; auto 10|discriminate].
Qed.

Section Accepted.
Context `{Inet}.
Context (config : udp_config) (state : udp_state) (env : udp_env).

Definition own_address (af : address_family) : bytes :=
  match af with AF_INET => uc_ipv4 config | AF_INET6 => uc_ipv6 config end.

Lemma ipv4_accepted r :
  response_ok r -> r_family r = AF_INET -> r_client r <> uc_ipv4 config ->
  ch_ip_stack_handle_ipv4_udp config state env (r_packet r) =
  handle_payload config state env AF_INET (r_remote r) (r_remote_port r) (r_client r)
    (r_client_port r) (r_payload r).
Proof.
  intros Hr Haf Hne. destruct (packet_agrees r Hr) as (Hok & Hl & _ & _ & _).
  destruct (packet_reads r Hr) as (Hrp & Hcp & Hlen & Hwire & Hpay & Hrem & Hcli).
  pose proof (packet_verifies r Hr) as Hsum. pose proof (packet_header r Hr) as Hh.
  pose proof (packet_fragment r Hr Haf) as Hfrag. destruct (summed_spec r Hr) as (_ & _ & Hf & _).
  assert (H9 : byte_at (r_packet r) 9 = 17).
  { apply byte_of_sub; [lia|]. apply (packet_field r 9 [17] Hr); rewrite ?lenZ_one;
      response_cases r Hr; try discriminate; try lia. cbn; auto 10. }
  assert (Hoff : r_offset r = 20 /\ r_length r = 28 + lenZ (r_payload r)).
  { response_cases r Hr; [split; lia|discriminate]. }
  destruct Hoff as [Hoff Hlength]. rewrite Hoff, Haf in *. cbn [ch_ip_stack_address_length plain_header] in *.
  pose proof (lenZ_nonneg (r_payload r)).
  unfold ch_ip_stack_handle_ipv4_udp. rewrite (rd_Done (r_packet r) 9) by lia. rewrite H9, Hcli.
  cbn [mbind outcome_bind guarded]. change (negb (17 =? 17)) with false. cbn [orb].
  rewrite (proj2 (beq_false _ _) Hne), (rd_Done (r_packet r) 0), Hh by lia. cbn [guarded].
  change (Z.land 69 15 * 4) with 20. cbn match. case_if; [lia|].
  rewrite Hfrag. cbn [guarded]. change (negb (Z.land 16384 16383 =? 0)) with false. cbn match.
  rewrite Hlen. cbn [guarded]. case_if; [lia|].
  rewrite Hwire, Hsum. cbn [mbind outcome_bind guarded]. rewrite andb_false_r.
  rewrite Hrem, Hrp, Hcp. cbn [mbind outcome_bind].
  replace (8 + lenZ (r_payload r) - 8) with (lenZ (r_payload r)) by lia. rewrite Hpay. reflexivity.
Qed.

Lemma ipv6_accepted r :
  response_ok r -> r_family r = AF_INET6 -> r_client r <> uc_ipv6 config ->
  ch_ip_stack_handle_ipv6_udp config state env (r_packet r) =
  handle_payload config state env AF_INET6 (r_remote r) (r_remote_port r) (r_client r)
    (r_client_port r) (r_payload r).
Proof.
  intros Hr Haf Hne. destruct (packet_agrees r Hr) as (Hok & Hl & _ & _ & _).
  destruct (packet_reads r Hr) as (Hrp & Hcp & Hlen & Hwire & Hpay & Hrem & Hcli).
  pose proof (packet_verifies r Hr) as Hsum. pose proof (packet_header r Hr) as Hh.
  destruct (summed_spec r Hr) as (_ & _ & Hf & _).
  assert (Hoff : r_offset r = 40 /\ r_length r = 48 + lenZ (r_payload r)).
  { response_cases r Hr; [discriminate|split; lia]. }
  destruct Hoff as [Hoff Hlength]. rewrite Hoff, Haf in *. cbn [ch_ip_stack_address_length] in *.
  pose proof (lenZ_nonneg (r_payload r)).
  unfold ch_ip_stack_handle_ipv6_udp. rewrite plain_transport by (assumption || lia).
  cbn [guarded]. rewrite Hcli. cbn [guarded]. change (negb (17 =? 17)) with false. cbn [orb].
  rewrite (proj2 (beq_false _ _) Hne). cbn match. case_if; [lia|].
  rewrite Hlen, Hwire. cbn [mbind outcome_bind guarded]. case_if; [lia|].
  rewrite Hsum. cbn [guarded]. change (negb (0 =? 0)) with false. cbn match.
  rewrite Hrem, Hrp, Hcp. cbn [mbind outcome_bind].
  replace (8 + lenZ (r_payload r) - 8) with (lenZ (r_payload r)) by lia. rewrite Hpay. reflexivity.
Qed.

(** the UDP packets written to the device are well formed.  Every response
    that fits the MTU is emitted; an IPv4 packet has a header checksum that
    verifies; and the stack's own reader, which checks header, lengths,
    fragment field and UDP checksum (also the case where the sum is zero and
    0xffff is sent), accepts the packet and recovers exactly the addresses,
    ports and payload it was built from. *)
Theorem udp_response_round_trip r mtu remote_buffer client_buffer :
  response_ok r -> r_length r <= mtu ->
  holds (r_family r) remote_buffer (r_remote r) -> holds (r_family r) client_buffer (r_client r) ->
  r_client r <> own_address (r_family r) ->
  exists packet,
    ch_ip_stack_emit_udp_response mtu (r_family r) remote_buffer (r_remote_port r) client_buffer
      (r_client_port r) (r_payload r) (r_random r) true = Done packet /\
    (r_family r = AF_INET -> ch_ip_stack_checksum (sub packet 0 20) = 0) /\
    ch_ip_stack_handle_udp_input config state env packet =
    handle_payload config state env (r_family r) (r_remote r) (r_remote_port r) (r_client r)
      (r_client_port r) (r_payload r).
Proof.
  intros Hr Hmtu Hrem Hcli Hne. exists (r_packet r).
  destruct (packet_agrees r Hr) as (Hok & Hl & _ & _ & Hsum).
  split_and!; [apply emit_eval; assumption|assumption|].
  pose proof (packet_header r Hr) as Hh. assert (0 < r_length r) by (response_cases r Hr; lia).
  unfold ch_ip_stack_handle_udp_input. rewrite (rd_Done (r_packet r) 0) by lia. cbn [guarded].
  unfold own_address in Hne. destruct (r_family r) eqn:Haf; cbn [plain_header] in Hh.
  - rewrite Hh. apply ipv4_accepted; assumption.
  - rewrite (proj1 Hh). apply ipv6_accepted; assumption.
Qed.

End Accepted.

(** ** Witness: a DNS answer to 10.0.0.2:40000 *)

Definition w_response : response :=
  mk_response AF_INET 7 [1; 1; 1; 1] [10; 0; 0; 2] [65; 66; 67] 53 40000.

Definition w_config : udp_config :=
  mk_udp_config [10; 0; 0; 1] (replicate 15 0 ++ [7]) 1500 true false true true.

Definition w_state : udp_state := mk_udp_state [] 0 empty_dns_cache.

Definition w_env : udp_env :=
  mk_udp_env (fun _ => 0) 7 true true true (fun _ _ _ => (Done tt, Some 1, 9)) (fun _ _ _ => Done tt)
    (fun _ _ => Done None) (fun _ => (Done tt, None)).

End Udp.
