(* ===== verification/Prompt.v ===== *)
(** * Interactive prompts: [native/src/prompt.c]

    Connections that no rule decides wait for the user.  Requests for the same
    process and destination share one pending prompt; the threads that wait on
    it block in [pthread_cond_timedwait] and the last one to leave frees it.

    The pending prompts live on a heap of addresses, since the list of the
    manager and the blocked threads share them; using an address that was freed
    is a [Fault].  Every part of a function between taking and releasing the
    mutex is one step: [await] is [await_enter] up to the first wait and then
    [await_wake] each time the wait returns.  The prompts, the threads and the
    operations of other threads are interleaved by [trace]. *)

From stdpp Require Export gmap.
From S2P Require Import Prelude CLib.

Module Prompt.

Definition CH_PROMPT_DEFAULT_TIMEOUT_SECONDS : Z := 30.
Definition CH_PROMPT_MAX_TIMEOUT_SECONDS : Z := 3600.
Definition CH_PROMPT_SILENT_LIMIT : Z := 256.

(** ** Data *)

Record ch_prompt_request : Type := mk_request {
  rq_conn_id : option bytes;             (** [None] is [NULL] *)
  rq_profile : option bytes;
  rq_network : option bytes;
  rq_target : option bytes;
  rq_target_host : option bytes;
  rq_target_port : option bytes;
  rq_process_pid : Z;
  rq_process_name : option bytes;
  rq_process_path : option bytes;
  rq_code_sign_id : option bytes;
  rq_code_sign_status : option bytes;
  rq_would_use_chain : option bytes;
  rq_would_use_group : option bytes;
  rq_source : option bytes
}.

Record ch_prompt_snapshot : Type := mk_snapshot {
  id : bytes;
  conn_id : bytes;
  profile : bytes;
  network : bytes;
  target : bytes;
  target_host : bytes;
  target_port : bytes;
  process_pid : Z;
  process_name : bytes;
  process_path : bytes;
  code_sign_id : bytes;
  code_sign_status : bytes;
  would_use_chain : bytes;
  would_use_group : bytes;
  created_ns : Z;
  expires_ns : Z;
  waiters : Z
}.

Record prompt_pending : Type := mk_pending {
  p_snapshot : ch_prompt_snapshot;
  p_key : bytes;
  p_resolved : bool;
  p_allow : bool
}.

Record prompt_silent : Type := mk_silent {
  s_snapshot : ch_prompt_snapshot;
  s_allow : bool
}.

Record ch_prompt_manager : Type := mk_manager {
  enabled : bool;
  default_allow : bool;
  timeout_seconds : Z;
  silent_mode : bytes;
  sequence : Z;
  pending : list Z;                      (** addresses, in the order of [next] *)
  silent : list prompt_silent;
  silent_count : Z
}.

(** The prompts that are allocated. *)
Abbreviation heap := (gmap Z prompt_pending).

Definition deref (h : heap) (a : Z) : result prompt_pending :=
  match h !! a with Some p => Done p | None => Fault end.

(** ** Helpers *)

Definition prompt_copy (value : option bytes) : bytes := default [] value.

(** [mem]: whether every copy succeeds. *)
Definition prompt_snapshot_copy (source : ch_prompt_snapshot) (mem : bool)
    : option ch_prompt_snapshot :=
  if mem then Some source else None.

Definition prompt_snapshot_from_request (request : ch_prompt_request) (identifier : bytes)
    (now timeout : Z) (mem : bool) : option ch_prompt_snapshot :=
  if mem then
    Some (mk_snapshot identifier (prompt_copy (rq_conn_id request))
            (prompt_copy (rq_profile request)) (prompt_copy (rq_network request))
            (prompt_copy (rq_target request)) (prompt_copy (rq_target_host request))
            (prompt_copy (rq_target_port request)) (rq_process_pid request)
            (prompt_copy (rq_process_name request)) (prompt_copy (rq_process_path request))
            (prompt_copy (rq_code_sign_id request)) (prompt_copy (rq_code_sign_status request))
            (prompt_copy (rq_would_use_chain request)) (prompt_copy (rq_would_use_group request))
            now (now + timeout * 1000000000) 0)
  else None.

(** [process == NULL || process[0] == '\0'] *)
Definition absent (value : option bytes) : bool := beq (prompt_copy value) [].

Definition key_process (request : ch_prompt_request) : bytes :=
  if negb (absent (rq_process_path request)) then prompt_copy (rq_process_path request)
  else if negb (absent (rq_process_name request)) then prompt_copy (rq_process_name request)
  else take 63 (str "pid:" ++ dec (rq_process_pid request) ++ str "|source:"
                ++ prompt_copy (rq_source request)).

Definition bar : Z := 124.

Definition prompt_key (request : ch_prompt_request) : bytes :=
  prompt_copy (rq_profile request) ++ [bar] ++ key_process request ++ [bar]
  ++ prompt_copy (rq_network request) ++ [bar] ++ prompt_copy (rq_target_host request) ++ [bar]
  ++ prompt_copy (rq_target_port request).

(** ** The manager *)

Definition ch_prompt_manager_create : ch_prompt_manager :=
  mk_manager false false CH_PROMPT_DEFAULT_TIMEOUT_SECONDS [] 0 [] [] 0.

Definition set_answer (p : prompt_pending) (allow : bool) : prompt_pending :=
  mk_pending (p_snapshot p) (p_key p) true allow.

Fixpoint prompt_resolve_all_locked (h : heap) (l : list Z) (allow : bool) : result heap :=
  match l with
  | [] => Done h
  | a :: l' =>
      p ← deref h a;
      prompt_resolve_all_locked (if p_resolved p then h else <[a := set_answer p allow]> h) l' allow
  end.

Definition ch_prompt_manager_cancel_all (m : ch_prompt_manager) (h : heap) : result heap :=
  prompt_resolve_all_locked h (pending m) false.

(** What [ch_config] gives for the table [prompt]: [None] when a key is not
    there, otherwise the typed access. *)
Record prompt_table : Type := mk_prompt_table {
  t_enabled : option (result bool);
  t_default_allow : option (result bool);
  t_timeout_seconds : option (result Z);
  t_silent_mode : option (result bytes)
}.

Definition field {A} (get : prompt_table -> option (result A)) (table : option prompt_table)
    (fallback : A) : result A :=
  match table with
  | None => Done fallback
  | Some t => match get t with None => Done fallback | Some r => r end
  end.

Definition settings (table : option prompt_table) : result (bool * bool * Z * bytes) :=
  on ← field t_enabled table false;
  allow ← field t_default_allow table false;
  timeout ← field t_timeout_seconds table 0;
  mode ← field t_silent_mode table [];
  Done (on, allow,
        if timeout >? 0 then
          if timeout >? CH_PROMPT_MAX_TIMEOUT_SECONDS then CH_PROMPT_MAX_TIMEOUT_SECONDS else timeout
        else CH_PROMPT_DEFAULT_TIMEOUT_SECONDS,
        mode).

(** [mem]: the copy of the empty mode.  [silent_mode] has six bytes. *)
Definition ch_prompt_manager_configure (m : ch_prompt_manager) (h : heap)
    (table : option prompt_table) (mem : bool) : result (ch_prompt_manager * heap) :=
  if negb mem then fail CH_ERROR_OUT_OF_MEMORY (str "configure prompt manager")
  else
    '(on, allow, timeout, mode) ← settings table;
    h ← prompt_resolve_all_locked h (pending m) false;
    Done (mk_manager on allow timeout (take 5 mode) (sequence m) (pending m) (silent m)
            (silent_count m), h).

Definition ch_prompt_manager_enabled (m : ch_prompt_manager) : bool := enabled m.

(** [prompt_pending_link] and the unlinking after it: the list without the
    first occurrence of [target]; the nodes in front of it are read. *)
Fixpoint prompt_pending_link (h : heap) (l : list Z) (target : Z) : result (list Z) :=
  match l with
  | [] => Done []
  | a :: l' =>
      if a =? target then Done l'
      else _ ← deref h a; rest ← prompt_pending_link h l' target; Done (a :: rest)
  end.

Fixpoint prompt_pending_key (h : heap) (l : list Z) (key : bytes) : result (option Z) :=
  match l with
  | [] => Done None
  | a :: l' =>
      p ← deref h a;
      if negb (p_resolved p) && beq (p_key p) key then Done (Some a)
      else prompt_pending_key h l' key
  end.

(** The list without its last node, when it has two or more. *)
Fixpoint cut_last (l : list prompt_silent) : list prompt_silent :=
  match l with
  | a :: ((_ :: _) as rest) => match rest with [_] => [a] | _ => a :: cut_last rest end
  | _ => l
  end.

(** What the environment decides during one [await]: the clock, whether each
    allocation succeeds, and the address that [calloc] returns. *)
Record await_env : Type := mk_await_env {
  aw_now : Z;
  aw_silent : bool;
  aw_key : bool;
  aw_address : option Z;
  aw_condition : bool;
  aw_copy : bool
}.

Definition with_sequence (m : ch_prompt_manager) (n : Z) : ch_prompt_manager :=
  mk_manager (enabled m) (default_allow m) (timeout_seconds m) (silent_mode m) n (pending m)
    (silent m) (silent_count m).

Definition prompt_record_silent_locked (m : ch_prompt_manager) (request : ch_prompt_request)
    (allow : bool) (env : await_env) : ch_prompt_manager :=
  if negb (aw_silent env) then m
  else
    let m := with_sequence m (u64 (sequence m + 1)) in
    match prompt_snapshot_from_request request (str "silent-" ++ dec (sequence m)) (aw_now env) 0
            (aw_copy env) with
    | None => m
    | Some s =>
        let s := mk_snapshot (id s) (conn_id s) (profile s) (network s) (target s) (target_host s)
                   (target_port s) (process_pid s) (process_name s) (process_path s)
                   (code_sign_id s) (code_sign_status s) (would_use_chain s) (would_use_group s)
                   (created_ns s) 0 (waiters s) in
        let l := mk_silent s allow :: silent m in
        let n := silent_count m + 1 in
        if n <=? CH_PROMPT_SILENT_LIMIT then
          mk_manager (enabled m) (default_allow m) (timeout_seconds m) (silent_mode m) (sequence m)
            (pending m) l n
        else
          mk_manager (enabled m) (default_allow m) (timeout_seconds m) (silent_mode m) (sequence m)
            (pending m) (cut_last l) (n - 1)
    end.

(** How the first critical section of [await] ends. *)
Inductive await_step : Type :=
| Returns (allow gated : bool)
| Fails (e : ch_error)
| Blocks (a : Z).

Definition add_waiters (p : prompt_pending) (n : Z) : prompt_pending :=
  let s := p_snapshot p in
  mk_pending
    (mk_snapshot (id s) (conn_id s) (profile s) (network s) (target s) (target_host s)
       (target_port s) (process_pid s) (process_name s) (process_path s) (code_sign_id s)
       (code_sign_status s) (would_use_chain s) (would_use_group s) (created_ns s) (expires_ns s)
       (u64 (waiters s + n)))
    (p_key p) (p_resolved p) (p_allow p).

Definition link_pending (m : ch_prompt_manager) (l : list Z) : ch_prompt_manager :=
  mk_manager (enabled m) (default_allow m) (timeout_seconds m) (silent_mode m) (sequence m) l
    (silent m) (silent_count m).

(** [++pending->snapshot.waiters] and the first wait. *)
Definition start_wait (m : ch_prompt_manager) (h : heap) (a : Z)
    : result (ch_prompt_manager * heap * await_step) :=
  p ← deref h a;
  Done (m, <[a := add_waiters p 1]> h, Blocks a).

Definition open_prompt (m : ch_prompt_manager) (h : heap) (request : ch_prompt_request)
    (key : bytes) (env : await_env) : result (ch_prompt_manager * heap * await_step) :=
  let m := with_sequence m (u64 (sequence m + 1)) in
  let no_memory what := Done (m, h, Fails (ch_error_set CH_ERROR_OUT_OF_MEMORY what)) in
  match aw_address env with
  | None => no_memory (str "allocate pending prompt")
  | Some a =>
      if negb (aw_condition env) then no_memory (str "initialize pending prompt")
      else
        match prompt_snapshot_from_request request (str "prompt-" ++ dec (sequence m)) (aw_now env)
                (timeout_seconds m) (aw_copy env) with
        | None => no_memory (str "copy pending prompt")
        | Some s =>
            start_wait (link_pending m (a :: pending m)) (<[a := mk_pending s key false false]> h) a
        end
  end.

Definition await_enter (m : ch_prompt_manager) (h : heap) (request : ch_prompt_request)
    (env : await_env) : result (ch_prompt_manager * heap * await_step) :=
  if negb (enabled m) then Done (m, h, Returns false false)
  else if negb (beq (silent_mode m) []) then
    let allow := beq (silent_mode m) (str "allow") in
    Done (prompt_record_silent_locked m request allow env, h, Returns allow true)
  else if negb (aw_key env) then
    Done (m, h, Fails (ch_error_set CH_ERROR_OUT_OF_MEMORY (str "allocate prompt key")))
  else
    let key := prompt_key request in
    found ← prompt_pending_key h (pending m) key;
    match found with
    | Some a => start_wait m h a
    | None => open_prompt m h request key env
    end.

(** What [pthread_cond_timedwait] returns: 0, [ETIMEDOUT], [EINTR] or another
    error. *)
Inductive wait_status : Type := WAIT_OK | WAIT_TIMEDOUT | WAIT_INTR | WAIT_ERROR.
#[export] Instance wait_status_eq : EqDecision wait_status.
Proof. solve_decision. Defined.

(** The body of the waiting loop. *)
Definition await_body (m : ch_prompt_manager) (status : wait_status) (p : prompt_pending)
    : prompt_pending :=
  if bool_decide (status = WAIT_TIMEDOUT) && negb (p_resolved p) then
    set_answer p (default_allow m)
  else if negb (bool_decide (status = WAIT_OK)) && negb (bool_decide (status = WAIT_INTR)) then
    set_answer p false
  else p.

(** One return of the wait: [None] when the thread waits again, otherwise the
    answer it returns with. *)
Definition await_wake (m : ch_prompt_manager) (h : heap) (a : Z) (status : wait_status)
    : result (ch_prompt_manager * heap * option bool) :=
  p ← deref h a;
  let p := await_body m status p in
  if negb (p_resolved p) then Done (m, <[a := p]> h, None)
  else
    let p := add_waiters p (-1) in
    let h := <[a := p]> h in
    if waiters (p_snapshot p) =? 0 then
      l ← prompt_pending_link h (pending m) a;
      Done (link_pending m l, delete a h, Some (p_allow p))
    else Done (m, h, Some (p_allow p)).

Fixpoint find_prompt (h : heap) (l : list Z) (wanted : bytes) : result (option Z) :=
  match l with
  | [] => Done None
  | a :: l' =>
      p ← deref h a;
      if p_resolved p || negb (beq (id (p_snapshot p)) wanted) then find_prompt h l' wanted
      else Done (Some a)
  end.

Definition ch_prompt_manager_resolve (m : ch_prompt_manager) (h : heap) (wanted : option bytes)
    (allow mem : bool) : heap * result ch_prompt_snapshot :=
  if absent wanted then
    (h, fail CH_ERROR_INVALID_ARGUMENT (str "prompt identifier and snapshot are required"))
  else
    match find_prompt h (pending m) (prompt_copy wanted) with
    | Done None => (h, fail CH_ERROR_NOT_FOUND (str "prompt not found"))
    | Done (Some a) =>
        match h !! a with
        | None => (h, Fault)
        | Some p =>
            match prompt_snapshot_copy (p_snapshot p) mem with
            | None => (h, fail CH_ERROR_OUT_OF_MEMORY (str "copy resolved prompt"))
            | Some s => (<[a := set_answer p allow]> h, Done s)
            end
        end
    | Raise e => (h, Raise e)
    | Fault => (h, Fault)
    end.

Definition ch_prompt_manager_silent_decision (m : ch_prompt_manager) (wanted : option bytes)
    (mem : bool) : result (ch_prompt_snapshot * bool) :=
  match wanted with
  | None => fail CH_ERROR_INVALID_ARGUMENT (str "silent decision inputs are required")
  | Some wanted =>
      match List.find (fun s => beq (id (s_snapshot s)) wanted) (silent m) with
      | None => fail CH_ERROR_NOT_FOUND (str "silent decision not found")
      | Some s =>
          match prompt_snapshot_copy (s_snapshot s) mem with
          | None => fail CH_ERROR_OUT_OF_MEMORY (str "copy silent decision")
          | Some snapshot => Done (snapshot, s_allow s)
          end
      end
  end.

(** [destroy] up to its loop; the loop waits until [destroy_waiting] is false
    and then frees what is left in the list. *)
Definition destroy_begin (m : ch_prompt_manager) (h : heap) : result (ch_prompt_manager * heap) :=
  h ← prompt_resolve_all_locked h (pending m) false;
  Done (mk_manager false (default_allow m) (timeout_seconds m) (silent_mode m) (sequence m)
          (pending m) (silent m) (silent_count m), h).

Fixpoint destroy_waiting (h : heap) (l : list Z) : result bool :=
  match l with
  | [] => Done false
  | a :: l' =>
      p ← deref h a;
      if waiters (p_snapshot p) >? 0 then Done true else destroy_waiting h l'
  end.

Fixpoint destroy_free (h : heap) (l : list Z) : result heap :=
  match l with
  | [] => Done h
  | a :: l' => _ ← deref h a; destroy_free (delete a h) l'
  end.

(** ** Interleavings *)

Record answer : Type := mk_answer { a_thread : Z; a_prompt : bytes; a_allow : bool }.

(** The manager with the prompts, the threads that are blocked in [await] with
    the prompt each waits on, and the answers given so far, newest first. *)
Record world : Type := mk_world {
  w_manager : ch_prompt_manager;
  w_heap : heap;
  w_waiting : gmap Z Z;
  w_answers : list answer
}.

Definition w_initial : world := mk_world ch_prompt_manager_create ∅ ∅ [].

(** One critical section. *)
Inductive op : Type :=
| Await (thread : Z) (request : ch_prompt_request) (env : await_env)
| Wake (thread : Z) (status : wait_status)
| Resolve (wanted : option bytes) (allow mem : bool)
| CancelAll
| Configure (table : option prompt_table) (mem : bool)
| DestroyBegin.

Definition run_await (w : world) (thread : Z) (request : ch_prompt_request) (env : await_env)
    : result world :=
  '(m, h, s) ← await_enter (w_manager w) (w_heap w) request env;
  Done (mk_world m h (match s with Blocks a => <[thread := a]> (w_waiting w) | _ => w_waiting w end)
          (w_answers w)).

Definition run_wake (w : world) (thread : Z) (status : wait_status) : result world :=
  match w_waiting w !! thread with
  | None => Done w
  | Some a =>
      p ← deref (w_heap w) a;
      '(m, h, r) ← await_wake (w_manager w) (w_heap w) a status;
      match r with
      | None => Done (mk_world m h (w_waiting w) (w_answers w))
      | Some allow =>
          Done (mk_world m h (delete thread (w_waiting w))
                  (mk_answer thread (id (p_snapshot p)) allow :: w_answers w))
      end
  end.

(** Errors that a call reports leave the world as it is. *)
Definition run_op (w : world) (o : op) : result world :=
  let keep m h := Done (mk_world m h (w_waiting w) (w_answers w)) in
  match o with
  | Await thread request env => run_await w thread request env
  | Wake thread status => run_wake w thread status
  | Resolve wanted allow mem =>
      match ch_prompt_manager_resolve (w_manager w) (w_heap w) wanted allow mem with
      | (_, Fault) => Fault
      | (h, _) => keep (w_manager w) h
      end
  | CancelAll => h ← ch_prompt_manager_cancel_all (w_manager w) (w_heap w); keep (w_manager w) h
  | Configure table mem =>
      match ch_prompt_manager_configure (w_manager w) (w_heap w) table mem with
      | Done (m, h) => keep m h
      | Raise _ => Done w
      | Fault => Fault
      end
  | DestroyBegin => '(m, h) ← destroy_begin (w_manager w) (w_heap w); keep m h
  end.

(** A thread calls [await] when it is not in it; [calloc] returns an address
    that is not allocated; [waiters] has 64 bits and there are fewer threads. *)
Definition legal (w : world) (o : op) : Prop :=
  match o with
  | Await thread _ env =>
      w_waiting w !! thread = None /\ Z.of_nat (size (w_waiting w)) < 2 ^ 32 /\
      match aw_address env with Some a => w_heap w !! a = None | None => True end
  | Configure (Some t) _ =>
      (** the typed accesses return *)
      t_enabled t <> Some Fault /\ t_default_allow t <> Some Fault /\
      t_timeout_seconds t <> Some Fault /\ t_silent_mode t <> Some Fault
  | _ => True
  end.

Inductive trace : list op -> world -> Prop :=
| trace_start : trace [] w_initial
| trace_step ops w o w' :
    trace ops w -> legal w o -> run_op w o = Done w' -> trace (ops ++ [o]) w'.

(** ** The invariant of the table *)

Definition waiting_on (w : gmap Z Z) (a : Z) : Z := Z.of_nat (size (filter (fun x => x.2 = a) w)).

Record table_inv (w : world) : Prop := {
  inv_nodup : NoDup (pending (w_manager w));
  inv_live a : a ∈ pending (w_manager w) <-> is_Some (w_heap w !! a);
  inv_waiters a p : w_heap w !! a = Some p ->
    waiters (p_snapshot p) = waiting_on (w_waiting w) a /\ 1 <= waiters (p_snapshot p);
  inv_threads t a : w_waiting w !! t = Some a -> is_Some (w_heap w !! a);
  inv_keys a b p q : w_heap w !! a = Some p -> w_heap w !! b = Some q ->
    p_resolved p = false -> p_resolved q = false -> p_key p = p_key q -> a = b;
  inv_size : Z.of_nat (size (w_waiting w)) <= 2 ^ 32
}.

Lemma waiting_on_insert w t a b :
  w !! t = None -> waiting_on (<[t := a]> w) b = waiting_on w b + (if decide (a = b) then 1 else 0).
Proof.
  intros Ht. unfold waiting_on. case_decide as Hab.
  - rewrite map_filter_insert_True by exact Hab. rewrite map_size_insert_None; [lia|].
    apply map_lookup_filter_None. left. exact Ht.
  - rewrite map_filter_insert_False by exact Hab. rewrite delete_id by exact Ht. lia.
Qed.

Lemma waiting_on_delete w t a b :
  w !! t = Some a -> waiting_on (delete t w) b = waiting_on w b - (if decide (a = b) then 1 else 0).
Proof.
  intros Ht. pose proof (waiting_on_insert (delete t w) t a b (lookup_delete_eq _ _)) as H.
  rewrite insert_delete_id in H by exact Ht. lia.
Qed.

Lemma waiting_on_size w a : waiting_on w a <= Z.of_nat (size w).
Proof. unfold waiting_on. apply inj_le, map_size_filter. Qed.

Lemma waiting_on_zero w a : waiting_on w a = 0 -> forall t, w !! t <> Some a.
Proof.
  unfold waiting_on. intros H t Ht. assert (E : filter (fun x => x.2 = a) w = ∅) by (apply map_size_empty_inv; lia).
  apply (map_filter_empty_not_lookup _ _ t a E) in Ht; [assumption|reflexivity].
Qed.

(** ** What the loops over the list do *)

Definition all_live (h : heap) (l : list Z) : Prop := forall a, a ∈ l -> is_Some (h !! a).

Lemma all_live_cons h a l : all_live h (a :: l) -> exists p, h !! a = Some p /\ all_live h l.
Proof.
  intros H. destruct (H a ltac:(left)) as [p Hp]. exists p. split; [exact Hp|].
  intros b Hb. apply H. right. exact Hb.
Qed.

Lemma all_live_insert h l a p : all_live h l -> all_live (<[a := p]> h) l.
Proof.
  intros H b Hb. destruct (decide (b = a)) as [->|Hne]; [rewrite lookup_insert_eq; eauto|].
  rewrite lookup_insert_ne by congruence. auto.
Qed.

Lemma deref_Some h a p : h !! a = Some p -> deref h a = Done p.
Proof. unfold deref. intros ->. reflexivity. Qed.

Definition close (allow : bool) (p : prompt_pending) : prompt_pending :=
  if p_resolved p then p else set_answer p allow.

Lemma close_idem allow p : close allow (close allow p) = close allow p.
Proof. unfold close. destruct p as [s k [] v]; reflexivity. Qed.

Lemma resolve_all_spec allow l : forall h,
  all_live h l ->
  exists h', prompt_resolve_all_locked h l allow = Done h' /\
    forall a, h' !! a = if decide (a ∈ l) then close allow <$> h !! a else h !! a.
Proof.
  induction l as [|b l IH]; intros h Hl.
  { exists h. split; [reflexivity|]. intros a. rewrite decide_False by apply not_elem_of_nil. reflexivity. }
  destruct (all_live_cons _ _ _ Hl) as (p & Hp & Hl'). cbn [prompt_resolve_all_locked].
  rewrite (deref_Some _ _ _ Hp). cbn [mbind outcome_bind].
  set (h1 := if p_resolved p then h else _).
  assert (Hh1 : forall a, h1 !! a = if decide (a = b) then Some (close allow p) else h !! a).
  { intros a. unfold h1, close. destruct (decide (a = b)) as [->|Hne]; destruct (p_resolved p).
    - exact Hp.
    - apply lookup_insert_eq.
    - reflexivity.
    - apply lookup_insert_ne. congruence. }
  destruct (IH h1) as (h' & E & Hh').
  { intros a Ha. rewrite Hh1. case_decide; eauto. }
  exists h'. split; [exact E|]. intros a. rewrite Hh', Hh1. clear -Hp.
  destruct (decide (a = b)) as [->|Hne].
  - rewrite (decide_True (P := b ∈ b :: l)) by left. rewrite Hp. cbn [fmap option_fmap option_map].
    case_decide; [rewrite close_idem|]; reflexivity.
  - destruct (decide (a ∈ l)) as [Hin|Hin].
    + rewrite decide_True by (right; exact Hin). reflexivity.
    + rewrite decide_False; [reflexivity|]. rewrite elem_of_cons. tauto.
Qed.

(** Both searches over the list are a search for a decidable property. *)
Fixpoint search (h : heap) (ok : prompt_pending -> bool) (l : list Z) : result (option Z) :=
  match l with
  | [] => Done None
  | a :: l' => p ← deref h a; if ok p then Done (Some a) else search h ok l'
  end.

Lemma pending_key_search h key l :
  prompt_pending_key h l key = search h (fun p => negb (p_resolved p) && beq (p_key p) key) l.
Proof. induction l as [|a l IH]; [reflexivity|]. cbn. rewrite IH. reflexivity. Qed.

Lemma find_prompt_search h i l :
  find_prompt h l i = search h (fun p => negb (p_resolved p) && beq (id (p_snapshot p)) i) l.
Proof.
  induction l as [|a l IH]; [reflexivity|]. cbn. rewrite IH. destruct (deref h a); [|reflexivity..].
  cbn. destruct (p_resolved a0), (beq _ i); reflexivity.
Qed.

Lemma search_spec h ok l :
  all_live h l ->
  (exists a p, search h ok l = Done (Some a) /\ a ∈ l /\ h !! a = Some p /\ ok p = true) \/
  (search h ok l = Done None /\ forall a p, a ∈ l -> h !! a = Some p -> ok p = false).
Proof.
  induction l as [|a l IH]; intros Hl.
  { right. split; [reflexivity|]. intros a p Ha. apply not_elem_of_nil in Ha. tauto. }
  destruct (all_live_cons _ _ _ Hl) as (p & Hp & Hl'). cbn [search].
  rewrite (deref_Some _ _ _ Hp). cbn [mbind outcome_bind]. destruct (ok p) eqn:Hok.
  { left. exists a, p. split_and!; auto. left. }
  destruct (IH Hl') as [(b & q & E & Hb & Hq & Hk)|[E Hn]].
  - left. exists b, q. split_and!; auto. right. exact Hb.
  - right. split; [exact E|]. intros b q Hb Hq. apply elem_of_cons in Hb as [-> |Hb]; [congruence|eauto].
Qed.

Lemma filter_ne_absent (a : Z) (l : list Z) : a ∉ l -> filter (fun b => b <> a) l = l.
Proof.
  induction l as [|b l IH]; intros H; [reflexivity|]. apply not_elem_of_cons in H as [Hne H].
  rewrite filter_cons_True by congruence. f_equal. auto.
Qed.

Lemma pending_link_spec h l a :
  all_live h l -> NoDup l -> prompt_pending_link h l a = Done (filter (fun b => b <> a) l).
Proof.
  induction l as [|b l IH]; intros Hl Hnd; [reflexivity|].
  destruct (all_live_cons _ _ _ Hl) as (p & Hp & Hl'). apply list.NoDup_cons in Hnd as [Hb Hnd].
  cbn [prompt_pending_link]. rewrite filter_cons. destruct (Z.eqb_spec b a) as [->|Hne].
  - rewrite decide_False by tauto. f_equal. symmetry. apply filter_ne_absent, Hb.
  - rewrite decide_True by exact Hne. rewrite (deref_Some _ _ _ Hp). cbn [mbind outcome_bind].
    rewrite IH by assumption. reflexivity.
Qed.

(** ** What one step does to a prompt *)

Definition prompt_id (n : Z) : bytes := str "prompt-" ++ dec n.

(** The operations that may allow a connection: the user's answer, and a
    timeout while the configuration allows by default. *)
Definition authorises (w : world) (o : op) (i : bytes) : Prop :=
  (exists mem, o = Resolve (Some i) true mem) \/
  (exists t a p, o = Wake t WAIT_TIMEDOUT /\ w_waiting w !! t = Some a /\
     w_heap w !! a = Some p /\ id (p_snapshot p) = i /\ p_resolved p = false /\
     default_allow (w_manager w) = true).

(** An answer is given once, and can only turn into a denial. *)
Record moves (w : world) (o : op) (p q : prompt_pending) : Prop := {
  moves_id : id (p_snapshot q) = id (p_snapshot p);
  moves_key : p_key q = p_key p;
  moves_answered : p_resolved p = true ->
    p_resolved q = true /\ (p_allow q = true -> p_allow p = true);
  moves_allowed : p_resolved p = false -> p_resolved q = true -> p_allow q = true ->
    authorises w o (id (p_snapshot p))
}.

Record step_rel (w : world) (o : op) (w' : world) : Prop := {
  sr_sequence : sequence (w_manager w') = sequence (w_manager w) \/
    sequence (w_manager w') = u64 (sequence (w_manager w) + 1);
  sr_heap a q : w_heap w' !! a = Some q ->
    (w_heap w !! a = None /\ p_resolved q = false /\
     sequence (w_manager w') = u64 (sequence (w_manager w) + 1) /\
     id (p_snapshot q) = prompt_id (sequence (w_manager w'))) \/
    (exists p, w_heap w !! a = Some p /\ moves w o p q);
  sr_fresh a b : w_heap w !! a = None -> w_heap w !! b = None ->
    is_Some (w_heap w' !! a) -> is_Some (w_heap w' !! b) -> a = b;
  sr_answers : w_answers w' = w_answers w \/
    exists t a p q, w_waiting w !! t = Some a /\ w_heap w !! a = Some p /\ moves w o p q /\
      p_resolved q = true /\
      w_answers w' = mk_answer t (id (p_snapshot p)) (p_allow q) :: w_answers w /\
      (forall r, w_heap w' !! a = Some r -> p_resolved r = true /\ p_allow r = p_allow q)
}.

Lemma moves_refl w o p : moves w o p p.
Proof. split; auto; congruence. Qed.

Lemma moves_close w o p : moves w o p (close false p).
Proof. unfold close. destruct (p_resolved p) eqn:E; [apply moves_refl|]. split; try reflexivity; cbn; congruence. Qed.

Lemma moves_waiters w o p q n : moves w o p q -> moves w o p (add_waiters q n).
Proof. intros []. split; assumption. Qed.

(** A step that answers prompts and leaves the rest of the table alone. *)
Definition updated (w : world) (o : op) (h : heap) : Prop :=
  forall a, option_Forall2 (fun p q => p_snapshot q = p_snapshot p /\ moves w o p q)
              (w_heap w !! a) (h !! a).

Lemma updated_live w o h a : updated w o h -> is_Some (h !! a) <-> is_Some (w_heap w !! a).
Proof. intros H. destruct (H a); split; intros [? ?]; try discriminate; eauto. Qed.

Lemma updated_back w o h a q :
  updated w o h -> h !! a = Some q ->
  exists p, w_heap w !! a = Some p /\ p_snapshot q = p_snapshot p /\ moves w o p q.
Proof. intros H Hq. destruct (H a) as [p q' [Hs Hm]|]; [|discriminate]. injection Hq as ->. eauto. Qed.

Lemma updated_step w o m h :
  table_inv w -> updated w o h -> pending m = pending (w_manager w) ->
  sequence m = sequence (w_manager w) ->
  let w' := mk_world m h (w_waiting w) (w_answers w) in
  table_inv w' /\ step_rel w o w'.
Proof.
  intros [Hnd Hlive Hwait Hthr Hkeys Hsize] Hu Hp Hs w'. subst w'. split.
  - split; cbn.
    + rewrite Hp. exact Hnd.
    + intros a. rewrite Hp, (updated_live _ _ _ _ Hu). apply Hlive.
    + intros a q Hq. destruct (updated_back _ _ _ _ _ Hu Hq) as (p & E & -> & _). eauto.
    + intros t a Ht. apply (updated_live _ _ _ _ Hu). eauto.
    + intros a b q r Hq Hr Eq Er Ek.
      destruct (updated_back _ _ _ _ _ Hu Hq) as (p & E & _ & [_ Hk Ha _]).
      destruct (updated_back _ _ _ _ _ Hu Hr) as (p' & E' & _ & [_ Hk' Ha' _]).
      apply (Hkeys a b p p'); auto; [| |congruence].
      * destruct (p_resolved p); [|reflexivity]. destruct (Ha eq_refl). congruence.
      * destruct (p_resolved p'); [|reflexivity]. destruct (Ha' eq_refl). congruence.
    + exact Hsize.
  - split; cbn; [left; exact Hs| | |left; reflexivity].
    + intros a q Hq. right. destruct (updated_back _ _ _ _ _ Hu Hq) as (p & E & _ & Hm). eauto.
    + intros a b Ha _ Hx _. apply (updated_live _ _ _ _ Hu) in Hx as [? ?]. congruence.
Qed.

Lemma pending_all_live w : table_inv w -> all_live (w_heap w) (pending (w_manager w)).
Proof. intros H a Ha. apply (inv_live w H), Ha. Qed.

(** Answering every open prompt. *)
Lemma resolve_all_updated w o :
  table_inv w ->
  exists h, prompt_resolve_all_locked (w_heap w) (pending (w_manager w)) false = Done h /\
    updated w o h /\ h = close false <$> w_heap w.
Proof.
  intros Hinv. destruct (resolve_all_spec false _ _ (pending_all_live w Hinv)) as (h & E & Hh).
  assert (Hall : forall a, h !! a = close false <$> w_heap w !! a).
  { intros a. rewrite Hh. case_decide as Ha; [reflexivity|]. rewrite (inv_live w Hinv) in Ha.
    destruct (w_heap w !! a); [exfalso; eauto|reflexivity]. }
  exists h. split; [exact E|]. split.
  - intros a. rewrite Hall. destruct (w_heap w !! a) as [p|]; constructor.
    split; [unfold close; destruct (p_resolved p); reflexivity|apply moves_close].
  - apply map_eq. intros a. rewrite Hall, lookup_fmap. reflexivity.
Qed.

Definition steps_to (w : world) (o : op) : Prop :=
  exists w', run_op w o = Done w' /\ table_inv w' /\ step_rel w o w'.

Lemma updated_self w o : updated w o (w_heap w).
Proof. intros b. destruct (w_heap w !! b); constructor. split; [reflexivity|apply moves_refl]. Qed.

Lemma stutter w o : table_inv w -> run_op w o = Done w -> steps_to w o.
Proof.
  intros H E. exists w. split; [exact E|]. destruct w as [m h t a].
  apply (updated_step (mk_world m h t a) o m h); auto. apply (updated_self (mk_world m h t a)).
Qed.

Lemma close_all_steps w o m :
  table_inv w -> pending m = pending (w_manager w) -> sequence m = sequence (w_manager w) ->
  run_op w o = (h ← prompt_resolve_all_locked (w_heap w) (pending (w_manager w)) false;
                Done (mk_world m h (w_waiting w) (w_answers w))) ->
  steps_to w o.
Proof.
  intros Hinv Hp Hs E. destruct (resolve_all_updated w o Hinv) as (h & Eh & Hu & _).
  rewrite Eh in E. eexists. split; [exact E|]. apply updated_step; assumption.
Qed.

Lemma settings_returns t :
  legal w_initial (Configure t true) -> settings t <> Fault.
Proof.
  assert (Hf : forall A (get : prompt_table -> option (result A)) d,
             match t with Some t => get t <> Some Fault | None => True end -> field get t d <> Fault).
  { intros A get d H. destruct t as [t|]; [|discriminate]. cbn. destruct (get t) as [r|]; [|discriminate].
    congruence. }
  intros H. assert (t = None \/ exists u, t = Some u) as [-> |[u ->]] by (destruct t; eauto); [discriminate|].
  destruct H as (H1 & H2 & H3 & H4). unfold settings.
  repeat match goal with
  | |- context [field ?g _ ?d] =>
      let E := fresh in
      pose proof (Hf _ g d ltac:(assumption)) as E; destruct (field g _ d) as [?|?|];
      cbn [mbind outcome_bind]; [|discriminate|congruence]; clear E
  end.
  discriminate.
Qed.

Lemma configure_steps w t mem :
  table_inv w -> legal w (Configure t mem) -> steps_to w (Configure t mem).
Proof.
  intros Hinv Hl. destruct mem; [|apply stutter; [exact Hinv|reflexivity]].
  pose proof (settings_returns t Hl) as Hs.
  destruct (settings t) as [[[[on allow] timeout] mode]|e|] eqn:E; [| |congruence].
  - destruct (resolve_all_updated w (Configure t true) Hinv) as (h & Eh & Hu & _).
    eexists. split; [|apply (updated_step w (Configure t true)
      (mk_manager on allow timeout (take 5 mode) (sequence (w_manager w)) (pending (w_manager w))
         (silent (w_manager w)) (silent_count (w_manager w))) h); auto].
    cbn [run_op]. unfold ch_prompt_manager_configure. cbn [negb]. rewrite E. cbn [mbind outcome_bind].
    rewrite Eh. reflexivity.
  - apply stutter; [exact Hinv|]. cbn [run_op]. unfold ch_prompt_manager_configure. cbn [negb].
    rewrite E. reflexivity.
Qed.

Lemma insert_updated w o a p q :
  w_heap w !! a = Some p -> p_snapshot q = p_snapshot p -> moves w o p q ->
  updated w o (<[a := q]> (w_heap w)).
Proof.
  intros Hp Hs Hm b. destruct (decide (b = a)) as [->|Hne].
  - rewrite Hp, lookup_insert_eq. constructor. auto.
  - rewrite lookup_insert_ne by congruence. destruct (w_heap w !! b); constructor.
    split; [reflexivity|apply moves_refl].
Qed.

Lemma resolve_steps w wanted allow mem :
  table_inv w -> steps_to w (Resolve wanted allow mem).
Proof.
  intros Hinv. unfold steps_to. cbn [run_op]. unfold ch_prompt_manager_resolve.
  assert (Hsame : forall r : result world, r = Done (mk_world (w_manager w) (w_heap w) (w_waiting w) (w_answers w)) ->
            exists w', r = Done w' /\ table_inv w' /\ step_rel w (Resolve wanted allow mem) w').
  { intros r ->. eexists. split; [reflexivity|]. apply updated_step; auto using updated_self. }
  destruct (absent wanted) eqn:Habs; [apply Hsame; reflexivity|].
  destruct wanted as [i|]; [|discriminate]. change (prompt_copy (Some i)) with i. rewrite find_prompt_search.
  destruct (search_spec (w_heap w) (fun p => negb (p_resolved p) && beq (id (p_snapshot p)) i) _
              (pending_all_live w Hinv)) as [(a & p & -> & _ & Hp & Hok)|[-> _]].
  - rewrite Hp. apply andb_true_iff in Hok as [Hr Hi]. apply negb_true_iff in Hr. apply beq_true in Hi.
    unfold prompt_snapshot_copy. destruct mem.
    + eexists. split; [reflexivity|]. apply updated_step; auto. apply (insert_updated _ _ _ p); auto.
      split; try reflexivity; cbn; [congruence|]. intros _ _ ->. left. exists true. subst i. reflexivity.
    + apply Hsame. reflexivity.
  - apply Hsame. reflexivity.
Qed.

Lemma body_moves w t a p status :
  w_waiting w !! t = Some a -> w_heap w !! a = Some p ->
  let q := await_body (w_manager w) status p in
  p_snapshot q = p_snapshot p /\ moves w (Wake t status) p q.
Proof.
  intros Ht Hp q. subst q. unfold await_body.
  destruct (bool_decide_reflect (status = WAIT_TIMEDOUT)) as [->|Hs]; cbn [andb].
  - destruct (p_resolved p) eqn:Hr; cbn [negb].
    + rewrite !bool_decide_false by discriminate. cbn. split; [reflexivity|].
      split; try reflexivity; cbn; [|congruence]. split; [reflexivity|discriminate].
    + split; [reflexivity|]. split; try reflexivity; cbn; [congruence|]. intros _ _ Hd. right.
      exists t, a, p. split_and!; auto.
  - case_if; (split; [reflexivity|]); [|apply moves_refl].
    split; try reflexivity; cbn; [split; [reflexivity|discriminate]|discriminate].
Qed.

(** [waiters] as the thread leaves. *)
Lemma leave_count w t a p :
  table_inv w -> w_waiting w !! t = Some a -> w_heap w !! a = Some p ->
  u64 (waiters (p_snapshot p) + -1) = waiting_on (delete t (w_waiting w)) a.
Proof.
  intros Hinv Ht Hp. destruct (inv_waiters w Hinv a p Hp) as [Hw H1].
  pose proof (waiting_on_size (w_waiting w) a). pose proof (inv_size w Hinv).
  rewrite (waiting_on_delete _ _ a) by exact Ht. rewrite decide_True by reflexivity.
  unfold u64. rewrite Z.mod_small by lia. lia.
Qed.

Lemma size_delete_le (w : gmap Z Z) t : (size (delete t w) <= size w)%nat.
Proof. rewrite map_size_delete. destruct (w !! t); [apply Nat.le_pred_l|reflexivity]. Qed.

(** The last thread to leave frees the prompt. *)
Lemma leave_last w t a p m answers :
  table_inv w -> w_waiting w !! t = Some a -> w_heap w !! a = Some p ->
  waiting_on (delete t (w_waiting w)) a = 0 ->
  pending m = filter (fun b => b <> a) (pending (w_manager w)) ->
  table_inv (mk_world m (delete a (w_heap w)) (delete t (w_waiting w)) answers).
Proof.
  intros [Hnd Hlive Hwait Hthr Hkeys Hsize] Ht Hp H0 Hm. split; cbn.
  - rewrite Hm. apply list.NoDup_filter, Hnd.
  - intros b. rewrite Hm, list_elem_of_filter, Hlive, lookup_delete_is_Some. intuition congruence.
  - intros b q Hb. apply lookup_delete_Some in Hb as [Hne Hb]. rewrite (waiting_on_delete _ _ a) by exact Ht.
    rewrite decide_False by exact Hne. rewrite Z.sub_0_r. auto.
  - intros t' b Hb. rewrite lookup_delete_is_Some. split.
    + intros <-. exact (waiting_on_zero _ _ H0 t' Hb).
    + apply lookup_delete_Some in Hb as [_ Hb]. eauto.
  - intros b c q r Hb Hc. apply lookup_delete_Some in Hb as [_ Hb], Hc as [_ Hc]. eauto.
  - pose proof (size_delete_le (w_waiting w) t). lia.
Qed.

Lemma leave_other w t a p r m answers :
  table_inv w -> w_waiting w !! t = Some a -> w_heap w !! a = Some p ->
  p_resolved r = true -> waiters (p_snapshot r) = waiting_on (delete t (w_waiting w)) a ->
  waiters (p_snapshot r) <> 0 -> pending m = pending (w_manager w) ->
  table_inv (mk_world m (<[a := r]> (w_heap w)) (delete t (w_waiting w)) answers).
Proof.
  intros [Hnd Hlive Hwait Hthr Hkeys Hsize] Ht Hp Hr Hw H0 Hm. split; cbn.
  - rewrite Hm. exact Hnd.
  - intros b. rewrite Hm, Hlive, lookup_insert_is_Some'. split; [tauto|]. intros [<-|H]; eauto.
  - intros b q Hb. destruct (decide (a = b)) as [<-|Hne].
    + rewrite lookup_insert_eq in Hb. injection Hb as <-. split; [exact Hw|].
      unfold waiting_on in Hw. lia.
    + rewrite lookup_insert_ne in Hb by exact Hne. rewrite (waiting_on_delete _ _ a) by exact Ht.
      rewrite decide_False by exact Hne. rewrite Z.sub_0_r. auto.
  - intros t' b Hb. apply lookup_delete_Some in Hb as [_ Hb]. rewrite lookup_insert_is_Some'. eauto.
  - intros b c q s Hb Hc Eq Es Ek.
    assert (Hne : forall d x, <[a := r]> (w_heap w) !! d = Some x -> p_resolved x = false ->
              w_heap w !! d = Some x).
    { intros d x Hd Hx. destruct (decide (a = d)) as [<-|Hn].
      - rewrite lookup_insert_eq in Hd. congruence.
      - rewrite lookup_insert_ne in Hd; assumption. }
    eauto.
  - pose proof (size_delete_le (w_waiting w) t). lia.
Qed.

Lemma wake_steps w t status : table_inv w -> steps_to w (Wake t status).
Proof.
  intros Hinv. destruct (w_waiting w !! t) as [a|] eqn:Ht.
  2: { apply (stutter w (Wake t status) Hinv). cbn [run_op]. unfold run_wake. rewrite Ht. reflexivity. }
  unfold steps_to. cbn [run_op]. unfold run_wake. rewrite Ht.
  destruct (inv_threads w Hinv t a Ht) as [p Hp]. unfold await_wake.
  rewrite (deref_Some _ _ _ Hp). cbn [mbind outcome_bind].
  destruct (body_moves w t a p status Ht Hp) as [Hs Hmv].
  set (q := await_body _ status p) in *. destruct (p_resolved q) eqn:Hq; cbn [negb].
  2: { eexists. split; [reflexivity|]. apply updated_step; auto. eapply insert_updated; eauto. }
  pose proof (leave_count w t a p Hinv Ht Hp) as Hc.
  change (waiters (p_snapshot (add_waiters q (-1)))) with (u64 (waiters (p_snapshot q) + -1)).
  rewrite Hs, Hc. destruct (Z.eqb_spec (waiting_on (delete t (w_waiting w)) a) 0) as [H0|H0].
  - rewrite pending_link_spec
      by (apply all_live_insert, pending_all_live, Hinv || apply (inv_nodup w Hinv)).
    cbn [mbind outcome_bind]. eexists. split; [reflexivity|].
    rewrite delete_insert_eq. split; [eapply leave_last; eauto|]. split; cbn.
    + left. reflexivity.
    + intros b r Hb. apply lookup_delete_Some in Hb as [_ Hb]. right. exists r. split; [exact Hb|apply moves_refl].
    + intros b c Hb _ Hx _. rewrite lookup_delete_is_Some, Hb in Hx. destruct Hx as [_ [? ?]]. discriminate.
    + right. exists t, a, p, q. split_and!; auto. intros r Hr. rewrite lookup_delete_eq in Hr. discriminate.
  - eexists. split; [reflexivity|]. split.
    { eapply leave_other; eauto; cbn; rewrite Hs, Hc; auto. }
    split; cbn.
    + left. reflexivity.
    + intros b r Hb. right. destruct (decide (a = b)) as [<-|Hne].
      * rewrite lookup_insert_eq in Hb. injection Hb as <-. exists p. split; [exact Hp|].
        apply moves_waiters, Hmv.
      * rewrite lookup_insert_ne in Hb by exact Hne. exists r. split; [exact Hb|apply moves_refl].
    + intros b c Hb _ Hx _. rewrite lookup_insert_is_Some', Hb in Hx.
      destruct Hx as [<-|[? ?]]; congruence.
    + right. exists t, a, p, q. split_and!; auto. intros r Hr. rewrite lookup_insert_eq in Hr.
      injection Hr as <-. auto.
Qed.

(** A thread joins the prompt at [a]. *)
Lemma join_table w t a p m answers :
  table_inv w -> w_waiting w !! t = None -> Z.of_nat (size (w_waiting w)) < 2 ^ 32 ->
  w_heap w !! a = Some p -> pending m = pending (w_manager w) ->
  table_inv (mk_world m (<[a := add_waiters p 1]> (w_heap w)) (<[t := a]> (w_waiting w)) answers).
Proof.
  intros [Hnd Hlive Hwait Hthr Hkeys Hsize] Ht Hlt Hp Hm. split; cbn.
  - rewrite Hm. exact Hnd.
  - intros b. rewrite Hm, Hlive, lookup_insert_is_Some'. split; [tauto|]. intros [<-|H]; eauto.
  - intros b q Hb. rewrite waiting_on_insert by exact Ht. destruct (decide (a = b)) as [<-|Hne].
    + rewrite lookup_insert_eq in Hb. injection Hb as <-. cbn. destruct (Hwait a p Hp) as [Hw H1].
      pose proof (waiting_on_size (w_waiting w) a). unfold u64. rewrite Z.mod_small; lia.
    + rewrite lookup_insert_ne in Hb by exact Hne. rewrite Z.add_0_r. auto.
  - intros t' b Hb. rewrite lookup_insert_is_Some'. destruct (decide (t = t')) as [<-|Hne].
    + rewrite lookup_insert_eq in Hb. injection Hb as <-. auto.
    + rewrite lookup_insert_ne in Hb by exact Hne. eauto.
  - assert (Hback : forall d x, <[a := add_waiters p 1]> (w_heap w) !! d = Some x ->
              exists y, w_heap w !! d = Some y /\ p_resolved x = p_resolved y /\ p_key x = p_key y).
    { intros d x Hd. destruct (decide (a = d)) as [<-|Hne].
      - rewrite lookup_insert_eq in Hd. injection Hd as <-. exists p. auto.
      - rewrite lookup_insert_ne in Hd by exact Hne. eauto. }
    intros b c q r Hb Hc Eq Er Ek. destruct (Hback _ _ Hb) as (q' & Hq' & Eq1 & Eq2).
    destruct (Hback _ _ Hc) as (r' & Hr' & Er1 & Er2). apply (Hkeys b c q' r'); congruence.
  - rewrite map_size_insert_None by exact Ht. lia.
Qed.

(** A prompt that is being opened: it has no waiter yet. *)
Lemma open_table w a s key t m answers :
  table_inv w -> w_waiting w !! t = None -> Z.of_nat (size (w_waiting w)) < 2 ^ 32 ->
  w_heap w !! a = None -> waiters s = 0 ->
  (forall b p, w_heap w !! b = Some p -> p_resolved p = false -> p_key p <> key) ->
  pending m = a :: pending (w_manager w) ->
  table_inv (mk_world m
    (<[a := add_waiters (mk_pending s key false false) 1]> (w_heap w)) (<[t := a]> (w_waiting w)) answers).
Proof.
  intros [Hnd Hlive Hwait Hthr Hkeys Hsize] Ht Hlt Ha Hs Hfresh Hm. split; cbn.
  - rewrite Hm. apply list.NoDup_cons. split; [|exact Hnd]. rewrite Hlive, Ha. intros [? ?]. discriminate.
  - intros b. rewrite Hm, elem_of_cons, Hlive, lookup_insert_is_Some'. intuition congruence.
  - intros b q Hb. rewrite waiting_on_insert by exact Ht. destruct (decide (a = b)) as [<-|Hne].
    + rewrite lookup_insert_eq in Hb. injection Hb as <-. cbn. rewrite Hs.
      assert (waiting_on (w_waiting w) a = 0) as ->; [|split; reflexivity || lia].
      unfold waiting_on. rewrite (proj2 (map_empty_filter _ _)); [reflexivity|].
      intros t' b Hb Eb. cbn in Eb. subst b. destruct (Hthr _ _ Hb). congruence.
    + rewrite lookup_insert_ne in Hb by exact Hne. rewrite Z.add_0_r. auto.
  - intros t' b Hb. rewrite lookup_insert_is_Some'. destruct (decide (t = t')) as [<-|Hne].
    + rewrite lookup_insert_eq in Hb. injection Hb as <-. auto.
    + rewrite lookup_insert_ne in Hb by exact Hne. eauto.
  - intros b c q r Hb Hc Eq Er Ek.
    apply lookup_insert_Some in Hb as [[<- <-]|[Hb1 Hb]], Hc as [[<- <-]|[Hc1 Hc]]; auto.
    + cbn in Ek. exfalso. apply (Hfresh c r); auto.
    + cbn in Ek. exfalso. apply (Hfresh b q); auto.
    + eauto.
  - rewrite map_size_insert_None by exact Ht. lia.
Qed.

(** A step of [await] that does not wait changes at most the sequence number
    and the silent log. *)
Lemma quiet_step w o m :
  table_inv w -> pending m = pending (w_manager w) ->
  sequence m = sequence (w_manager w) \/ sequence m = u64 (sequence (w_manager w) + 1) ->
  let w' := mk_world m (w_heap w) (w_waiting w) (w_answers w) in
  table_inv w' /\ step_rel w o w'.
Proof.
  intros [Hnd Hlive Hwait Hthr Hkeys Hsize] Hp Hs w'. split.
  - split; cbn; rewrite ?Hp; assumption.
  - split; cbn; [exact Hs| | |left; reflexivity].
    + intros a q Hq. right. exists q. split; [exact Hq|apply moves_refl].
    + intros a b Ha _ [? ?]. congruence.
Qed.

Lemma record_silent_table m request allow env :
  let m' := prompt_record_silent_locked m request allow env in
  pending m' = pending m /\ (sequence m' = sequence m \/ sequence m' = u64 (sequence m + 1)).
Proof.
  unfold prompt_record_silent_locked, prompt_snapshot_from_request.
  destruct (aw_silent env); [|auto]. cbn [negb]. destruct (aw_copy env); [|auto].
  cbn zeta. case_if; auto.
Qed.

Lemma join_steps w t request env a p :
  table_inv w -> legal w (Await t request env) -> w_heap w !! a = Some p ->
  exists w', ('(m, h, s) ← start_wait (w_manager w) (w_heap w) a;
     Done (mk_world m h (match s with Blocks a => <[t := a]> (w_waiting w) | _ => w_waiting w end)
             (w_answers w)) : result world) = Done w' /\
    table_inv w' /\ step_rel w (Await t request env) w'.
Proof.
  intros Hinv (Ht & Hlt & _) Hp. unfold start_wait. rewrite (deref_Some _ _ _ Hp).
  cbn [mbind outcome_bind]. eexists. split; [reflexivity|]. split; [apply join_table; auto|].
  split; cbn; [left; reflexivity| | |left; reflexivity].
  - intros b q Hb. right.
    apply lookup_insert_Some in Hb as [[<- <-]|[Hne Hb]]; eexists; (split; [eassumption|]);
      [apply moves_waiters|]; apply moves_refl.
  - intros b c Hb _ Hx _. rewrite lookup_insert_is_Some', Hb in Hx. destruct Hx as [<-|[? ?]]; congruence.
Qed.

Lemma open_steps w t request env :
  table_inv w -> legal w (Await t request env) ->
  (forall b p, w_heap w !! b = Some p -> p_resolved p = false -> p_key p <> prompt_key request) ->
  exists w', ('(m, h, s) ← open_prompt (w_manager w) (w_heap w) request (prompt_key request) env;
     Done (mk_world m h (match s with Blocks a => <[t := a]> (w_waiting w) | _ => w_waiting w end)
             (w_answers w)) : result world) = Done w' /\
    table_inv w' /\ step_rel w (Await t request env) w'.
Proof.
  intros Hinv (Ht & Hlt & Ha) Hfresh. unfold open_prompt.
  assert (Hq : forall e, exists w',
    ('(m, h, s) ← Done (with_sequence (w_manager w) (u64 (sequence (w_manager w) + 1)), w_heap w, Fails e);
     Done (mk_world m h (match s with Blocks a => <[t := a]> (w_waiting w) | _ => w_waiting w end)
             (w_answers w)) : result world) = Done w' /\
    table_inv w' /\ step_rel w (Await t request env) w').
  { intros e. eexists. split; [reflexivity|]. apply quiet_step; auto. }
  destruct (aw_address env) as [a|]; [|apply Hq]. destruct (aw_condition env); [|apply Hq].
  unfold prompt_snapshot_from_request. destruct (aw_copy env); [|apply Hq]. cbn [negb].
  unfold start_wait. rewrite (deref_Some _ _ _ (lookup_insert_eq _ _ _)). cbn [mbind outcome_bind].
  rewrite insert_insert_eq. eexists. split; [reflexivity|]. split; [apply open_table; auto|].
  split; cbn; [right; reflexivity| | |left; reflexivity].
  - intros b q Hb. apply lookup_insert_Some in Hb as [[<- <-]|[Hne Hb]]; [left|right].
    + split_and!; auto.
    + exists q. split; [exact Hb|apply moves_refl].
  - intros b c Hb Hc. rewrite !lookup_insert_is_Some', Hb, Hc. intros [<-|[? ?]] [<-|[? ?]]; congruence.
Qed.

Lemma await_steps w t request env :
  table_inv w -> legal w (Await t request env) -> steps_to w (Await t request env).
Proof.
  intros Hinv Hl. unfold steps_to. cbn [run_op]. unfold run_await, await_enter.
  destruct (enabled (w_manager w)); cbn [negb].
  2: { eexists. split; [reflexivity|]. apply quiet_step; auto. }
  destruct (beq (silent_mode (w_manager w)) []) eqn:Hmode; cbn [negb].
  2: { eexists. split; [reflexivity|].
       destruct (record_silent_table (w_manager w) request (beq (silent_mode (w_manager w)) (str "allow")) env).
       apply quiet_step; auto. }
  destruct (aw_key env); cbn [negb].
  2: { eexists. split; [reflexivity|]. apply quiet_step; auto. }
  rewrite pending_key_search.
  destruct (search_spec (w_heap w) (fun p => negb (p_resolved p) && beq (p_key p) (prompt_key request)) _
              (pending_all_live w Hinv)) as [(a & p & -> & _ & Hp & _)|[-> Hn]]; cbn [mbind outcome_bind].
  - exact (join_steps w t request env a p Hinv Hl Hp).
  - apply open_steps; auto. intros b p Hp Hr Ek.
    assert (b ∈ pending (w_manager w)) as Hb by (apply (inv_live w Hinv); eauto).
    specialize (Hn b p Hb Hp). rewrite Hr, Ek, beq_refl in Hn. discriminate.
Qed.

Lemma every_step w o : table_inv w -> legal w o -> steps_to w o.
Proof.
  intros Hinv Hl. destruct o as [t request env|t status|wanted allow mem| |table mem|].
  - apply await_steps; assumption.
  - apply wake_steps; assumption.
  - apply resolve_steps; assumption.
  - apply (close_all_steps w CancelAll (w_manager w)); auto.
  - apply configure_steps; assumption.
  - eapply (close_all_steps w DestroyBegin (mk_manager false _ _ _ _ _ _ _)); auto.
    cbn [run_op]. unfold destroy_begin. destruct (prompt_resolve_all_locked _ _ _); reflexivity.
Qed.

Lemma initial_inv : table_inv w_initial.
Proof.
  split; cbn.
  - constructor.
  - intros a. rewrite lookup_empty. split; [intros H; apply not_elem_of_nil in H; tauto|intros [? ?]; discriminate].
  - intros a p H. rewrite lookup_empty in H. discriminate.
  - intros t a H. rewrite lookup_empty in H. discriminate.
  - intros a b p q H. rewrite lookup_empty in H. discriminate.
  - rewrite map_size_empty. lia.
Qed.

Lemma trace_inv ops w : trace ops w -> table_inv w.
Proof.
  induction 1 as [|ops w o w' _ IH Hl E]; [apply initial_inv|].
  destruct (every_step w o IH Hl) as (w1 & E1 & Hinv & _). congruence.
Qed.

(** ** Executable traces *)

Definition returns {A} (r : option (result A)) : bool :=
  match r with Some Fault => false | _ => true end.

Definition legalb (w : world) (o : op) : bool :=
  match o with
  | Await thread _ env =>
      bool_decide (w_waiting w !! thread = None) && (Z.of_nat (size (w_waiting w)) <? 2 ^ 32)
      && match aw_address env with
         | Some a => match w_heap w !! a with None => true | Some _ => false end
         | None => true
         end
  | Configure (Some t) _ =>
      returns (t_enabled t) && returns (t_default_allow t) && returns (t_timeout_seconds t)
      && returns (t_silent_mode t)
  | _ => true
  end.

Fixpoint run_ops (w : world) (ops : list op) : result world :=
  match ops with [] => Done w | o :: ops' => w ← run_op w o; run_ops w ops' end.

Fixpoint legal_ops (w : world) (ops : list op) : bool :=
  match ops with
  | [] => true
  | o :: ops' => legalb w o && match run_op w o with Done w => legal_ops w ops' | _ => true end
  end.

Lemma legalb_legal w o : legalb w o = true -> legal w o.
Proof.
  destruct o as [t request env|t status|wanted allow mem| |table mem|]; cbn; auto.
  - rewrite !andb_true_iff, bool_decide_eq_true, Z.ltb_lt. intros [[Ht Hs] Ha]. split_and!; auto.
    destruct (aw_address env) as [a|]; [|exact I]. destruct (w_heap w !! a); [discriminate|reflexivity].
  - assert (Hr : forall A (r : option (result A)), returns r = true -> r <> Some Fault)
      by (intros A r Hr ->; discriminate).
    destruct table as [t|]; [|auto]. rewrite !andb_true_iff. intros [[[? ?] ?] ?]. split_and!; auto.
Qed.

Lemma trace_run before w ops w' :
  trace before w -> legal_ops w ops = true -> run_ops w ops = Done w' -> trace (before ++ ops) w'.
Proof.
  revert before w. induction ops as [|o ops IH]; intros before w Ht Hl E.
  { injection E as <-. rewrite app_nil_r. exact Ht. }
  cbn in Hl, E. apply andb_true_iff in Hl as [Hl Hls].
  destruct (run_op w o) as [w1|e|] eqn:E1; cbn in E; try discriminate.
  rewrite (cons_middle o before ops), app_assoc. apply (IH _ w1); [|exact Hls|exact E].
  eapply trace_step; eauto. apply legalb_legal, Hl.
Qed.

(** ** Claims *)

(** C7: From every state that the interleaving of threads can reach, every
    operation of the prompt manager runs without using a freed prompt, and
    leaves a table in which the list holds exactly the allocated prompts, each
    counts exactly the threads blocked on it (at least one), no thread is
    blocked on a freed prompt, and no two open prompts have the same key. *)
Theorem prompt_table_safe ops w o :
  trace ops w -> legal w o -> exists w', run_op w o = Done w' /\ table_inv w'.
Proof.
  intros Ht Hl. destruct (every_step w o (trace_inv ops w Ht) Hl) as (w' & E & Hinv & _). eauto.
Qed.

(** Some operation of the trace allowed the prompt [i]. *)
Definition authorised (ops : list op) (i : bytes) : Prop :=
  exists before o after w, ops = before ++ o :: after /\ trace before w /\ authorises w o i.

Lemma authorised_later ops o i : authorised ops i -> authorised (ops ++ [o]) i.
Proof.
  intros (before & x & after & w & -> & H). exists before, x, (after ++ [o]), w.
  split; [|exact H]. rewrite <- app_assoc. reflexivity.
Qed.

Lemma moves_authorised ops w o p q :
  trace ops w -> moves w o p q -> p_resolved q = true -> p_allow q = true ->
  (p_resolved p = true -> p_allow p = true -> authorised ops (id (p_snapshot p))) ->
  authorised (ops ++ [o]) (id (p_snapshot p)).
Proof.
  intros Ht [_ _ Ha Hb] Hq Hq' Hp. destruct (p_resolved p) eqn:Hr.
  - destruct (Ha eq_refl) as [_ H]. apply authorised_later. auto.
  - exists ops, o, [], w. auto.
Qed.

Lemma trace_authorised ops w :
  trace ops w ->
  (forall a p, w_heap w !! a = Some p -> p_resolved p = true -> p_allow p = true ->
     authorised ops (id (p_snapshot p))) /\
  (forall t i, mk_answer t i true ∈ w_answers w -> authorised ops i).
Proof.
  induction 1 as [|ops w o w' Ht [IHh IHa] Hl E].
  { split; [intros a p H; cbn in H; rewrite lookup_empty in H; discriminate|].
    intros t i H. apply not_elem_of_nil in H. tauto. }
  destruct (every_step w o (trace_inv ops w Ht) Hl) as (w1 & E1 & _ & [_ Hh _ Ha]).
  assert (w1 = w') as -> by congruence. split.
  - intros a q Hq Hr Hal. destruct (Hh a q Hq) as [(_ & Hf & _)|(p & Hp & Hm)]; [congruence|].
    rewrite (moves_id _ _ _ _ Hm). apply (moves_authorised ops w o p q); auto. intros. eapply IHh; eauto.
  - intros t i Hin. destruct Ha as [Hans|(t' & a & p & q & _ & Hp & Hm & Hr & Hans & _)].
    { rewrite Hans in Hin. apply authorised_later. eauto. }
    rewrite Hans in Hin. apply elem_of_cons in Hin as [Heq|Hin]; [|apply authorised_later; eauto].
    injection Heq as -> -> Hal. symmetry in Hal. apply (moves_authorised ops w o p q); auto. intros. eapply IHh; eauto.
Qed.

(** C6: A thread that waited on a prompt is told to let the connection through
    only if, earlier in the trace, the user allowed that prompt or one of its
    waiters timed out on the still unanswered prompt while the configuration
    allowed by default; cancelling, reconfiguring, destroying, errors and
    interrupted waits never allow. *)
Theorem prompt_allow_authorised ops w t i :
  trace ops w -> mk_answer t i true ∈ w_answers w -> authorised ops i.
Proof. intros Ht. apply (trace_authorised ops w Ht). Qed.

(** ** Leaving *)

(** A thread whose wait returns on an answered prompt leaves with the answer. *)
Lemma wake_returns w t a p status :
  table_inv w -> w_waiting w !! t = Some a -> w_heap w !! a = Some p ->
  let q := await_body (w_manager w) status p in
  p_resolved q = true ->
  exists w', run_op w (Wake t status) = Done w' /\ w_waiting w' = delete t (w_waiting w) /\
    enabled (w_manager w') = enabled (w_manager w) /\
    w_answers w' = mk_answer t (id (p_snapshot p)) (p_allow q) :: w_answers w /\
    (forall b r, w_heap w' !! b = Some r -> b = a /\ p_resolved r = true \/ w_heap w !! b = Some r).
Proof.
  intros Hinv Ht Hp q Hq. cbn [run_op]. unfold run_wake. rewrite Ht. unfold await_wake.
  rewrite (deref_Some _ _ _ Hp). cbn [mbind outcome_bind]. fold q. rewrite Hq. cbn [negb].
  case_if.
  - rewrite pending_link_spec
      by (apply all_live_insert, pending_all_live, Hinv || apply (inv_nodup w Hinv)).
    cbn [mbind outcome_bind]. eexists. split_and!; try reflexivity. cbn. rewrite delete_insert_eq.
    intros b r Hb. apply lookup_delete_Some in Hb as [_ Hb]. auto.
  - eexists. split_and!; try reflexivity. cbn. intros b r Hb.
    apply lookup_insert_Some in Hb as [[<- <-]|[_ Hb]]; auto.
Qed.

(** The manager after [destroy] began: nothing waits for an answer any more. *)
Record closed (w : world) : Prop := {
  closed_inv : table_inv w;
  closed_disabled : enabled (w_manager w) = false;
  closed_answered a p : w_heap w !! a = Some p -> p_resolved p = true
}.

Lemma body_answered m status p : p_resolved p = true -> p_resolved (await_body m status p) = true.
Proof. unfold await_body. intros H. repeat case_if; auto. Qed.

Definition reconfigures (o : op) : bool := match o with Configure _ _ => true | _ => false end.

Definition waiting_after (w : gmap Z Z) (o : op) : gmap Z Z :=
  match o with Wake t _ => delete t w | _ => w end.

Lemma closed_wake w t status :
  closed w ->
  exists w', run_op w (Wake t status) = Done w' /\ closed w' /\ w_waiting w' = delete t (w_waiting w).
Proof.
  intros [Hinv Hdis Hans]. destruct (w_waiting w !! t) as [a|] eqn:Ht.
  - destruct (inv_threads w Hinv t a Ht) as [p Hp].
    destruct (wake_returns w t a p status Hinv Ht Hp (body_answered _ _ _ (Hans a p Hp)))
      as (w' & E & Hw & Hen & _ & Hheap).
    destruct (wake_steps w t status Hinv) as (w1 & E1 & Hinv' & _). assert (w1 = w') as -> by congruence.
    exists w'. split; [exact E|]. split; [|exact Hw]. split; [exact Hinv'|congruence|].
    intros b r Hb. destruct (Hheap b r Hb) as [[_ H]|H]; eauto.
  - exists w. cbn [run_op]. unfold run_wake. rewrite Ht. split; [reflexivity|]. split; [split; assumption|].
    rewrite delete_id by exact Ht. reflexivity.
Qed.

Lemma closed_updated w o m h :
  closed w -> updated w o h -> pending m = pending (w_manager w) ->
  sequence m = sequence (w_manager w) -> enabled m = false ->
  closed (mk_world m h (w_waiting w) (w_answers w)).
Proof.
  intros [Hinv Hdis Hans] Hu Hp Hs He. split; [|exact He|].
  - apply (updated_step w o m h); assumption.
  - cbn. intros a q Hq. destruct (updated_back _ _ _ _ _ Hu Hq) as (p & E & _ & Hm).
    apply (moves_answered _ _ _ _ Hm). eauto.
Qed.

Lemma closed_step w o :
  closed w -> reconfigures o = false ->
  exists w', run_op w o = Done w' /\ closed w' /\ w_waiting w' = waiting_after (w_waiting w) o.
Proof.
  intros Hc Ho. pose proof Hc as [Hinv Hdis Hans].
  assert (Hall : forall m, pending m = pending (w_manager w) -> sequence m = sequence (w_manager w) ->
            enabled m = false ->
            exists w', (h ← prompt_resolve_all_locked (w_heap w) (pending (w_manager w)) false;
              Done (mk_world m h (w_waiting w) (w_answers w)) : result world) = Done w' /\
              closed w' /\ w_waiting w' = w_waiting w).
  { intros m Hp Hs He. destruct (resolve_all_updated w o Hinv) as (h & -> & Hu & _).
    eexists. split; [reflexivity|]. split; [eapply closed_updated; eauto|reflexivity]. }
  destruct o as [t request env|t status|wanted allow mem| |table mem|]; [| | | |discriminate|].
  - cbn [run_op]. unfold run_await, await_enter. rewrite Hdis. eexists. split; [reflexivity|].
    split; [|reflexivity]. eapply closed_updated; eauto. apply (updated_self w CancelAll).
  - apply closed_wake, Hc.
  - cbn [run_op]. unfold ch_prompt_manager_resolve.
    assert (Hsame : closed (mk_world (w_manager w) (w_heap w) (w_waiting w) (w_answers w)))
      by (eapply closed_updated; eauto; apply (updated_self w CancelAll)).
    destruct (absent wanted); [eexists; split; [reflexivity|]; auto|]. rewrite find_prompt_search.
    match goal with |- context [search ?h ?ok ?l] =>
      destruct (search_spec h ok l (pending_all_live w Hinv)) as [(a & p & -> & _ & Hp & Hok)|[-> _]] end.
    + rewrite (Hans a p Hp) in Hok. discriminate.
    + eexists. split; [reflexivity|]. auto.
  - apply Hall; auto.
  - cbn [run_op]. unfold destroy_begin.
    destruct (Hall (mk_manager false (default_allow (w_manager w)) (timeout_seconds (w_manager w))
      (silent_mode (w_manager w)) (sequence (w_manager w)) (pending (w_manager w)) (silent (w_manager w))
      (silent_count (w_manager w))) eq_refl eq_refl eq_refl) as (w' & E & H).
    exists w'. split; [|exact H]. destruct (prompt_resolve_all_locked _ _ _); exact E.
Qed.

Lemma closed_run ops : forall w,
  closed w -> Forall (fun o => reconfigures o = false) ops ->
  exists w', run_ops w ops = Done w' /\ closed w' /\
    w_waiting w' = foldl waiting_after (w_waiting w) ops.
Proof.
  induction ops as [|o ops IH]; intros w Hc Hf; [exists w; auto|].
  inversion_clear Hf as [|?? Ho Hos]. destruct (closed_step w o Hc Ho) as (w1 & E1 & Hc1 & Hw1).
  destruct (IH w1 Hc1 Hos) as (w' & E & Hc' & Hw'). exists w'. cbn. rewrite E1, <- Hw1. auto.
Qed.

Lemma waiting_after_spec ops : forall w t a,
  foldl waiting_after w ops !! t = Some a ->
  w !! t = Some a /\ forall status, Wake t status ∉ ops.
Proof.
  induction ops as [|o ops IH]; intros w t a H.
  { split; [exact H|]. intros s Hs. apply not_elem_of_nil in Hs. exact Hs. }
  cbn in H. apply IH in H as [H Hn]. destruct o; cbn in H;
    try (split; [exact H|]; intros s Hs; apply elem_of_cons in Hs as [Hs|Hs]; [discriminate|exact (Hn s Hs)]).
  apply lookup_delete_Some in H as [Hne H]. split; [exact H|]. intros s Hs.
  apply elem_of_cons in Hs as [Hs|Hs]; [congruence|exact (Hn s Hs)].
Qed.

Lemma closed_empty w :
  closed w -> w_waiting w = ∅ -> pending (w_manager w) = [] /\ w_heap w = ∅.
Proof.
  intros [Hinv _ _] Hw.
  assert (Hnone : forall a, w_heap w !! a = None).
  { intros a. destruct (w_heap w !! a) as [p|] eqn:Hp; [|reflexivity]. exfalso.
    destruct (inv_waiters w Hinv a p Hp) as [E H1]. rewrite Hw in E. unfold waiting_on in E.
    rewrite map_filter_empty, map_size_empty in E. lia. }
  split; [|apply map_eq; intros a; rewrite Hnone, lookup_empty; reflexivity].
  destruct (pending (w_manager w)) as [|a l] eqn:El; [reflexivity|].
  destruct (proj1 (inv_live w Hinv a)) as [p Hp]; [rewrite El; left|]. congruence.
Qed.

(** [destroy] terminates: once it has answered every prompt, in whatever
    order the blocked threads wake, for whatever reason, and whatever calls other than a
    reconfiguration come in between, each thread leaves the first time its wait
    returns, and when all have left the list is empty, every prompt is freed
    and the loop of [destroy] finds nothing to wait for. *)
Theorem prompt_destroy_drains ops w :
  trace ops w ->
  exists w1, run_op w DestroyBegin = Done w1 /\
    forall later, Forall (fun o => reconfigures o = false) later ->
      exists w2, run_ops w1 later = Done w2 /\
        (forall t a, w_waiting w2 !! t = Some a -> forall status, Wake t status ∉ later) /\
        ((forall t a, w_waiting w !! t = Some a -> exists status, Wake t status ∈ later) ->
         w_waiting w2 = ∅ /\ w_heap w2 = ∅ /\ pending (w_manager w2) = [] /\
         destroy_waiting (w_heap w2) (pending (w_manager w2)) = Done false).
Proof.
  intros Ht. pose proof (trace_inv ops w Ht) as Hinv.
  destruct (resolve_all_updated w DestroyBegin Hinv) as (h & Eh & Hu & Hh).
  cbn [run_op]. unfold destroy_begin. rewrite Eh. cbn [mbind outcome_bind].
  eexists. split; [reflexivity|]. intros later Hl.
  match goal with |- context [run_ops ?x later] => assert (Hc : closed x) end.
  { split; [|reflexivity|].
    - eapply updated_step; eauto.
    - cbn. intros a q Hq. rewrite Hh, lookup_fmap in Hq. destruct (w_heap w !! a) as [p|]; [|discriminate].
      injection Hq as <-. unfold close. destruct (p_resolved p) eqn:E; [exact E|reflexivity]. }
  destruct (closed_run later _ Hc Hl) as (w2 & E2 & Hc2 & Hw2). exists w2. split; [exact E2|].
  cbn in Hw2. split.
  - intros t a H. rewrite Hw2 in H. apply waiting_after_spec in H. apply H.
  - intros Hcover. assert (Hempty : w_waiting w2 = ∅).
    { apply map_eq. intros t. rewrite lookup_empty, Hw2.
      destruct (foldl _ _ _ !! t) as [a|] eqn:E; [|reflexivity]. apply waiting_after_spec in E as [E Hn].
      destruct (Hcover t a E) as [s Hs]. destruct (Hn s Hs). }
    destruct (closed_empty w2 Hc2 Hempty) as [Hp Hheap]. split_and!; auto. rewrite Hp. reflexivity.
Qed.

(** ** Denials are final *)

Lemma prompt_id_inj m n : 0 <= m -> 0 <= n -> prompt_id m = prompt_id n -> m = n.
Proof. unfold prompt_id. intros Hm Hn E. apply app_inv_head in E. apply dec_inj; assumption. Qed.

Definition numbered (w : world) (i : bytes) : Prop :=
  exists n, 1 <= n <= sequence (w_manager w) /\ i = prompt_id n.

Definition denied (w : world) (i : bytes) : Prop :=
  forall a p, w_heap w !! a = Some p -> id (p_snapshot p) = i ->
    p_resolved p = true /\ p_allow p = false.

(** The newest answer comes first. *)
Fixpoint denials_final (answers : list answer) : Prop :=
  match answers with
  | [] => True
  | x :: earlier =>
      (a_allow x = true -> Forall (fun y => a_prompt y = a_prompt x -> a_allow y = true) earlier) /\
      denials_final earlier
  end.

Record id_inv (n : Z) (w : world) : Prop := {
  id_sequence : 0 <= sequence (w_manager w) <= n;
  id_heap a p : w_heap w !! a = Some p -> numbered w (id (p_snapshot p));
  id_distinct a b p q : w_heap w !! a = Some p -> w_heap w !! b = Some q ->
    id (p_snapshot p) = id (p_snapshot q) -> a = b;
  id_answers x : x ∈ w_answers w -> numbered w (a_prompt x) /\ (a_allow x = false -> denied w (a_prompt x));
  id_final : denials_final (w_answers w)
}.

Lemma numbered_grows w w' i :
  sequence (w_manager w) <= sequence (w_manager w') -> numbered w i -> numbered w' i.
Proof. intros H (n & Hn & ->). exists n. split; [lia|reflexivity]. Qed.

Lemma step_sequence n w o w' :
  id_inv n w -> step_rel w o w' -> n + 1 < 2 ^ 64 ->
  (sequence (w_manager w') = sequence (w_manager w) \/
   sequence (w_manager w') = sequence (w_manager w) + 1) /\
  forall a q, w_heap w' !! a = Some q ->
    (w_heap w !! a = None /\ p_resolved q = false /\
     sequence (w_manager w') = sequence (w_manager w) + 1 /\
     id (p_snapshot q) = prompt_id (sequence (w_manager w) + 1)) \/
    (exists p, w_heap w !! a = Some p /\ moves w o p q).
Proof.
  intros [Hseq _ _ _ _] [Hs Hh _ _] Hn.
  assert (E : u64 (sequence (w_manager w) + 1) = sequence (w_manager w) + 1)
    by (unfold u64; apply Z.mod_small; lia).
  rewrite E in Hs. split; [exact Hs|]. intros a q Hq.
  destruct (Hh a q Hq) as [(H1 & H2 & H3 & H4)|H]; [left|right; exact H].
  rewrite E in H3. rewrite H3 in H4. auto.
Qed.

(** A number given now is not one of the past. *)
Lemma numbered_new w i : numbered w i -> 0 <= sequence (w_manager w) ->
  i <> prompt_id (sequence (w_manager w) + 1).
Proof. intros (n & Hn & ->) H E. apply prompt_id_inj in E; lia. Qed.

Lemma denied_step n w o w' i :
  id_inv n w -> step_rel w o w' -> n + 1 < 2 ^ 64 -> numbered w i -> denied w i -> denied w' i.
Proof.
  intros Hid Hrel Hn Hi Hd a q Hq Eq. destruct (step_sequence n w o w' Hid Hrel Hn) as [_ Hh].
  destruct (Hh a q Hq) as [(_ & _ & _ & E)|(p & Hp & [Eid _ Ha _])].
  - exfalso. apply (numbered_new w i Hi); [apply (id_sequence n w Hid)|congruence].
  - destruct (Hd a p Hp ltac:(congruence)) as [Hr Hal]. destruct (Ha Hr) as [Hr' Hal'].
    split; [exact Hr'|]. destruct (p_allow q); [|reflexivity]. specialize (Hal' eq_refl). congruence.
Qed.

Lemma step_heap_ids n w o w' :
  id_inv n w -> step_rel w o w' -> n + 1 < 2 ^ 64 ->
  (forall a p, w_heap w' !! a = Some p -> numbered w' (id (p_snapshot p))) /\
  (forall a b p q, w_heap w' !! a = Some p -> w_heap w' !! b = Some q ->
     id (p_snapshot p) = id (p_snapshot q) -> a = b).
Proof.
  intros Hid Hrel Hn. destruct (step_sequence n w o w' Hid Hrel Hn) as [Hs Hh].
  pose proof (id_sequence n w Hid) as H0. split.
  - intros a q Hq. destruct (Hh a q Hq) as [(_ & _ & E & ->)|(p & Hp & Hm)].
    + exists (sequence (w_manager w) + 1). split; [lia|reflexivity].
    + rewrite (moves_id _ _ _ _ Hm). apply (numbered_grows w); [lia|]. eapply id_heap; eauto.
  - intros a b p q Hp Hq E.
    assert (Hold : forall d x y, w_heap w !! d = Some x -> id (p_snapshot x) = y ->
              y <> prompt_id (sequence (w_manager w) + 1)).
    { intros d x y Hx <-. apply numbered_new; [eapply id_heap; eauto|lia]. }
    destruct (Hh a p Hp) as [(Ha & _ & Sa & Ia)|(p' & Hp' & Mp)],
      (Hh b q Hq) as [(Hb & _ & Sb & Ib)|(q' & Hq' & Mq)].
    + apply (sr_fresh w o w' Hrel); eauto.
    + exfalso. apply (Hold b q' _ Hq' eq_refl). rewrite <- (moves_id _ _ _ _ Mq). congruence.
    + exfalso. apply (Hold a p' _ Hp' eq_refl). rewrite <- (moves_id _ _ _ _ Mp). congruence.
    + apply (id_distinct n w Hid a b p' q'); auto.
      rewrite <- (moves_id _ _ _ _ Mp), <- (moves_id _ _ _ _ Mq). exact E.
Qed.

Lemma new_answer_denied n w o w' t a p q :
  id_inv n w -> step_rel w o w' -> n + 1 < 2 ^ 64 ->
  w_waiting w !! t = Some a -> w_heap w !! a = Some p -> p_allow q = false ->
  (forall r, w_heap w' !! a = Some r -> p_resolved r = true /\ p_allow r = p_allow q) ->
  denied w' (id (p_snapshot p)).
Proof.
  intros Hid Hrel Hn Ht Hp Hq Hr b r Hb E. destruct (step_sequence n w o w' Hid Hrel Hn) as [_ Hh].
  destruct (Hh b r Hb) as [(_ & _ & _ & Eid)|(p' & Hp' & Hm)].
  - exfalso. apply (numbered_new w (id (p_snapshot p))); [eapply id_heap; eauto| |congruence].
    apply (id_sequence n w Hid).
  - assert (b = a) as ->.
    { apply (id_distinct n w Hid b a p' p); auto. rewrite <- (moves_id _ _ _ _ Hm). exact E. }
    rewrite <- Hq. auto.
Qed.

Lemma id_step n w o w' :
  id_inv n w -> step_rel w o w' -> n + 1 < 2 ^ 64 -> id_inv (n + 1) w'.
Proof.
  intros Hid Hrel Hn. destruct (step_sequence n w o w' Hid Hrel Hn) as [Hs Hh].
  destruct (step_heap_ids n w o w' Hid Hrel Hn) as [Hnum Hdis].
  pose proof Hid as [Hseq Hheap Hdist Hans Hfin].
  assert (Hold : forall x, x ∈ w_answers w ->
            numbered w' (a_prompt x) /\ (a_allow x = false -> denied w' (a_prompt x))).
  { intros x Hx. destruct (Hans x Hx) as [H1 H2]. split; [apply (numbered_grows w); [lia|exact H1]|].
    intros Hf. apply (denied_step n w o w'); auto. }
  split; [lia|exact Hnum|exact Hdis| |];
    destruct (sr_answers w o w' Hrel) as [->|(t & a & p & q & Ht & Hp & Hm & Hr & -> & Hlast)]; auto.
  - intros x Hx. apply elem_of_cons in Hx as [->|Hx]; [|auto]. cbn. split.
    + apply (numbered_grows w); [lia|]. eauto.
    + intros Hq. eapply new_answer_denied; eauto.
  - cbn. split; [|exact Hfin]. intros Hq. apply Forall_forall. intros y Hy E.
    apply list_elem_of_In in Hy. destruct (a_allow y) eqn:Hf; [reflexivity|]. exfalso.
    destruct (Hans y Hy) as [_ Hd]. destruct (Hd Hf a p Hp (eq_sym E)) as [Hpr Hpa].
    destruct (moves_answered _ _ _ _ Hm Hpr) as [_ H]. rewrite (H Hq) in Hpa. discriminate.
Qed.

Lemma trace_ids ops w : trace ops w -> lenZ ops < 2 ^ 64 -> id_inv (lenZ ops) w.
Proof.
  induction 1 as [|ops w o w' Ht IH Hl E]; intros Hn.
  { split; cbn; try (intros *; rewrite lookup_empty; discriminate);
      [change (lenZ (@nil op)) with 0; lia| |exact I].
    intros x Hx. apply not_elem_of_nil in Hx. tauto. }
  assert (El : lenZ (ops ++ [o]) = lenZ ops + 1) by (rewrite lenZ_app; reflexivity).
  rewrite El in *. destruct (every_step w o (trace_inv ops w Ht) Hl) as (w1 & E1 & _ & Hrel).
  assert (w1 = w') as -> by congruence. apply (id_step _ w o); [apply IH; lia|exact Hrel|lia].
Qed.

Lemma denials_final_spec later : forall x earlier,
  denials_final (later ++ x :: earlier) -> a_allow x = false ->
  Forall (fun y => a_prompt y = a_prompt x -> a_allow y = false) later.
Proof.
  induction later as [|y later IH]; intros x earlier Hf Hx; constructor; destruct Hf as [Hy Hf].
  - intros E. destruct (a_allow y) eqn:Ey; [|reflexivity]. specialize (Hy eq_refl).
    rewrite Forall_forall in Hy. rewrite (Hy x) in Hx; [discriminate| |congruence].
    apply in_or_app. right. left. reflexivity.
  - eapply IH; eauto.
Qed.

(** A denial is final: once a thread has been told that a prompt is denied,
    no thread that leaves the same prompt later is told that it is allowed.
    (Identifiers are numbered with 64 bits; the trace is shorter than that.) *)
Theorem prompt_denial_final ops w later x earlier :
  trace ops w -> lenZ ops < 2 ^ 64 ->
  w_answers w = later ++ x :: earlier -> a_allow x = false ->
  Forall (fun y => a_prompt y = a_prompt x -> a_allow y = false) later.
Proof.
  intros Ht Hn E Hx. apply (denials_final_spec later x earlier); [|exact Hx].
  rewrite <- E. apply (id_final (lenZ ops) w), trace_ids; assumption.
Qed.

(** The waiters of one prompt need not agree: a thread whose wait ends with
    a timeout after the prompt was allowed, by the user or by the timeout of another
    waiter, overwrites the answer with a denial, since the test for errors of
    the wait also catches a timeout on an answered prompt. *)
Theorem prompt_timeout_overrides_allow ops w t a p :
  trace ops w -> w_waiting w !! t = Some a -> w_heap w !! a = Some p ->
  p_resolved p = true -> p_allow p = true ->
  exists w', run_op w (Wake t WAIT_TIMEDOUT) = Done w' /\
    w_answers w' = mk_answer t (id (p_snapshot p)) false :: w_answers w.
Proof.
  intros Htr Ht Hp Hr _. pose proof (trace_inv ops w Htr) as Hinv.
  assert (E : await_body (w_manager w) WAIT_TIMEDOUT p = set_answer p false)
    by (unfold await_body; rewrite Hr; reflexivity).
  destruct (wake_returns w t a p WAIT_TIMEDOUT Hinv Ht Hp) as (w' & Ew & _ & _ & Ha & _).
  { apply body_answered, Hr. }
  exists w'. split; [exact Ew|]. rewrite Ha, E. reflexivity.
Qed.

(** ** Keys *)

Definition barless (s : option bytes) : Prop := bar ∉ prompt_copy s.

Lemma bar_last a b c d :
  a ++ bar :: c = b ++ bar :: d -> bar ∉ c -> bar ∉ d -> a = b /\ c = d.
Proof.
  intros H Hc Hd. apply (f_equal (split_last bar)) in H. rewrite !split_last_app in H by assumption.
  injection H. auto.
Qed.

Lemma bar_regroup x n h q : x ++ bar :: n ++ bar :: h ++ bar :: q = ((x ++ bar :: n) ++ bar :: h) ++ bar :: q.
Proof. rewrite <- !app_assoc. reflexivity. Qed.

(** Requests share a prompt only when they ask for the same thing: equal
    keys mean equal profile, process, network, host and port, provided the
    character that joins the parts is not in the profile, network, host or
    port (it may be in the process). *)
Theorem prompt_key_injective r s :
  barless (rq_profile r) -> barless (rq_network r) -> barless (rq_target_host r) ->
  barless (rq_target_port r) ->
  barless (rq_profile s) -> barless (rq_network s) -> barless (rq_target_host s) ->
  barless (rq_target_port s) ->
  prompt_key r = prompt_key s ->
  prompt_copy (rq_profile r) = prompt_copy (rq_profile s) /\ key_process r = key_process s /\
  prompt_copy (rq_network r) = prompt_copy (rq_network s) /\
  prompt_copy (rq_target_host r) = prompt_copy (rq_target_host s) /\
  prompt_copy (rq_target_port r) = prompt_copy (rq_target_port s).
Proof.
  unfold barless, prompt_key. intros Pr Nr Hr Qr Ps Ns Hs Qs E. cbn [app] in E.
  apply (f_equal (split_first bar)) in E. rewrite !split_first_app in E by assumption.
  injection E as -> E. rewrite !bar_regroup in E.
  apply bar_last in E as [E ->]; [|assumption..]. apply bar_last in E as [E ->]; [|assumption..].
  apply bar_last in E as [-> ->]; [|assumption..]. auto.
Qed.

(** ** The silent log *)

Definition silent_ok (m : ch_prompt_manager) : Prop :=
  silent_count m = lenZ (silent m) /\ silent_count m <= CH_PROMPT_SILENT_LIMIT.

Lemma cut_last_take l : (2 <= length l)%nat -> cut_last l = take (length l - 1) l.
Proof.
  induction l as [|a l IH]; cbn [length]; intros H; [lia|]. destruct l as [|b l]; [cbn in H; lia|].
  destruct l as [|c l]; [reflexivity|]. change (cut_last (a :: b :: c :: l)) with (a :: cut_last (b :: c :: l)).
  rewrite IH by (cbn; lia). cbn [length]. rewrite !Nat.sub_1_r. reflexivity.
Qed.

(** What one silent decision records. *)
Definition silent_entry (m : ch_prompt_manager) (request : ch_prompt_request) (allow : bool)
    (now : Z) : prompt_silent :=
  mk_silent
    (mk_snapshot (str "silent-" ++ dec (u64 (sequence m + 1))) (prompt_copy (rq_conn_id request))
       (prompt_copy (rq_profile request)) (prompt_copy (rq_network request))
       (prompt_copy (rq_target request)) (prompt_copy (rq_target_host request))
       (prompt_copy (rq_target_port request)) (rq_process_pid request)
       (prompt_copy (rq_process_name request)) (prompt_copy (rq_process_path request))
       (prompt_copy (rq_code_sign_id request)) (prompt_copy (rq_code_sign_status request))
       (prompt_copy (rq_would_use_chain request)) (prompt_copy (rq_would_use_group request))
       now 0 0) allow.

Lemma record_silent_spec m request allow env :
  silent_ok m ->
  let m' := prompt_record_silent_locked m request allow env in
  silent_ok m' /\
  silent m' = if aw_silent env && aw_copy env
              then take 256 (silent_entry m request allow (aw_now env) :: silent m) else silent m.
Proof.
  intros [Hc Hl]. unfold silent_ok, prompt_record_silent_locked, prompt_snapshot_from_request.
  unfold CH_PROMPT_SILENT_LIMIT in *. destruct (aw_silent env); cbn [negb andb]; [|auto].
  destruct (aw_copy env); [|auto]. cbn [sequence with_sequence silent silent_count].
  set (e := silent_entry m request allow (aw_now env)).
  assert (Hlen : lenZ (silent m) <= 256) by lia. unfold lenZ in *. case_if; cbn [silent silent_count].
  - split; [cbn [length]; lia|]. rewrite take_ge by (cbn [length]; lia). reflexivity.
  - assert (Hn : length (silent m) = 256%nat) by lia.
    rewrite cut_last_take by (cbn [length]; lia). cbn [length]. rewrite Hn. split; [|reflexivity].
    rewrite length_take. cbn [length]. lia.
Qed.

Lemma silent_step w o w' :
  silent_ok (w_manager w) -> run_op w o = Done w' -> silent_ok (w_manager w').
Proof.
  assert (Hsame : forall m m', silent m' = silent m -> silent_count m' = silent_count m ->
            silent_ok m -> silent_ok m') by (unfold silent_ok; intros m m' -> ->; auto).
  intros H E. destruct o as [t request env|t status|wanted allow mem| |table mem|]; cbn [run_op] in E.
  - unfold run_await in E. apply bind_Done_inv in E as ([[m h] s] & E & E').
    injection E' as <-. cbn. unfold await_enter in E.
    destruct (enabled (w_manager w)); cbn [negb] in E; [|congruence].
    destruct (beq _ []); cbn [negb] in E.
    2: { injection E as <- _ _. apply record_silent_spec, H. }
    destruct (aw_key env); cbn [negb] in E; [|congruence].
    apply bind_Done_inv in E as (found & _ & E). destruct found as [a|].
    + unfold start_wait in E. apply bind_Done_inv in E as (p & _ & E). congruence.
    + unfold open_prompt, start_wait in E. destruct (aw_address env) as [a|].
      * destruct (aw_condition env); cbn [negb] in E; [|injection E as <- _ _; exact H].
        destruct (prompt_snapshot_from_request _ _ _ _ _); [|injection E as <- _ _; exact H].
        apply bind_Done_inv in E as (p & _ & E). injection E as <- _ _. exact H.
      * injection E as <- _ _. exact H.
  - unfold run_wake in E. destruct (w_waiting w !! t); [|congruence].
    apply bind_Done_inv in E as (p & _ & E). apply bind_Done_inv in E as ([[m h] r] & E1 & E).
    assert (silent_ok m) by (unfold await_wake in E1; apply bind_Done_inv in E1 as (q & _ & E1);
      repeat case_if_in E1; try (apply bind_Done_inv in E1 as (l & _ & E1)); injection E1 as <- _ _; exact H).
    destruct r; injection E as <-; assumption.
  - destruct (ch_prompt_manager_resolve _ _ _ _ _) as [h [s|e|]]; injection E as <- || discriminate; exact H.
  - apply bind_Done_inv in E as (h & _ & E). injection E as <-. exact H.
  - unfold ch_prompt_manager_configure in E. destruct mem; cbn [negb] in E; [|injection E as <-; exact H].
    destruct (settings table) as [[[[on allow] timeout] mode]|e|]; cbn [mbind outcome_bind] in E;
      [|injection E as <-; exact H|discriminate].
    destruct (prompt_resolve_all_locked _ _ _); cbn [mbind outcome_bind] in E;
      [injection E as <-; exact H|injection E as <-; exact H|discriminate].
  - apply bind_Done_inv in E as ([m h] & E1 & E). injection E as <-. unfold destroy_begin in E1.
    apply bind_Done_inv in E1 as (h' & _ & E1). injection E1 as <- _. exact H.
Qed.

(** In every reachable state with a silent mode set, a request returns at
    once with the mode as its answer, and the log of silent decisions holds
    exactly the latest 256 of them, newest first: the new one is put in front
    and the oldest falls out when there are more. *)
Theorem silent_mode_logs_latest ops w request env :
  trace ops w -> enabled (w_manager w) = true -> silent_mode (w_manager w) <> [] ->
  aw_silent env = true -> aw_copy env = true ->
  let allow := beq (silent_mode (w_manager w)) (str "allow") in
  exists m, await_enter (w_manager w) (w_heap w) request env = Done (m, w_heap w, Returns allow true) /\
    silent m = take 256 (silent_entry (w_manager w) request allow (aw_now env) :: silent (w_manager w)) /\
    silent_count m = lenZ (silent m) /\ silent_count m <= CH_PROMPT_SILENT_LIMIT.
Proof.
  intros Ht He Hm H1 H2 allow. assert (Hok : silent_ok (w_manager w)).
  { clear -Ht. induction Ht as [|ops w o w' _ IH _ E]; [split; [reflexivity|cbn; discriminate]|].
    eapply silent_step; eauto. }
  destruct (record_silent_spec (w_manager w) request allow env Hok) as [[Hc Hl] Hs].
  rewrite H1, H2 in Hs. eexists. split; [|split; [exact Hs|split; [exact Hc|exact Hl]]].
  unfold await_enter. rewrite He. apply beq_false in Hm. rewrite Hm. reflexivity.
Qed.

(** ** Witnesses *)

Definition w_request (path : bytes) : ch_prompt_request :=
  mk_request (Some []) (Some (str "home")) (Some (str "tcp")) (Some (str "example.org:443"))
    (Some (str "example.org")) (Some (str "443")) 812 (Some (str "curl")) (Some path) None None
    (Some []) (Some []) (Some (str "127.0.0.1:50000")).

Definition w_env (a : Z) : await_env := mk_await_env 1000 true true (Some a) true true.

Definition w_table (allow : bool) (mode : bytes) : option prompt_table :=
  Some (mk_prompt_table (Some (Done true)) (Some (Done allow)) None (Some (Done mode))).

Definition w_path : bytes := str "/usr/bin/curl".

(** Three connections of two programs; the user allows the first program. *)
Definition w_asked : list op :=
  [Configure (w_table false []) true; Await 1 (w_request w_path) (w_env 64);
   Await 2 (w_request w_path) (w_env 128); Await 3 (w_request (str "/usr/bin/wget")) (w_env 128);
   Resolve (Some (prompt_id 1)) true true].

Definition w_end (ops : list op) : world :=
  match run_ops w_initial ops with Done w => w | _ => w_initial end.

Lemma w_trace ops :
  legal_ops w_initial ops = true -> run_ops w_initial ops = Done (w_end ops) -> trace ops (w_end ops).
Proof. intros Hl E. exact (trace_run [] w_initial ops (w_end ops) trace_start Hl E). Qed.

Lemma prompt_table_safe_witness :
  pending (w_manager (w_end w_asked)) = [128; 64] /\
  exists w', run_op (w_end w_asked) (Wake 1 WAIT_OK) = Done w' /\ table_inv w'.
Proof.
  split; [vm_compute; reflexivity|].
  apply (prompt_table_safe w_asked (w_end w_asked) (Wake 1 WAIT_OK)); [|exact I].
  apply w_trace; vm_compute; reflexivity.
Defined.

Definition w_told : list op := w_asked ++ [Wake 1 WAIT_OK].

Lemma prompt_allow_authorised_witness :
  mk_answer 1 (prompt_id 1) true ∈ w_answers (w_end w_told) /\ authorised w_told (prompt_id 1).
Proof.
  assert (H : mk_answer 1 (prompt_id 1) true ∈ w_answers (w_end w_told))
    by (apply list_elem_of_In; vm_compute; left; reflexivity).
  split; [exact H|]. apply (prompt_allow_authorised w_told (w_end w_told) 1 (prompt_id 1)); [|exact H].
  apply w_trace; vm_compute; reflexivity.
Defined.

(** Nobody answers: the first waiter times out, the second is woken. *)
Definition w_expired : list op :=
  [Configure (w_table false []) true; Await 1 (w_request w_path) (w_env 64);
   Await 2 (w_request w_path) (w_env 128); Wake 1 WAIT_TIMEDOUT; Wake 2 WAIT_OK].

(** Another connection of the same program. *)
Definition w_request2 : ch_prompt_request :=
  mk_request (Some (str "c7")) (Some (str "home")) (Some (str "tcp")) (Some (str "example.org:443"))
    (Some (str "example.org")) (Some (str "443")) 813 None (Some w_path) None None None None None.

Definition w_silent : list op := [Configure (w_table false (str "allow")) true].

End Prompt.
