(* ===== verification/TempRules.v ===== *)
(** * Temporary rules: [native/src/temporary_rules.c]

    Rules that last for some seconds, or until a process exits, and that are
    asked before the rule engine.  They are kept newest first in an array of
    [limit] entries.  Every operation first drops what has expired.

    The clock and the exited processes are arguments; the connection of a
    request is looked up in the traffic store, which is an argument as well. *)

From S2P Require Import Prelude CLib IpDns Inet Rules Json JsonText.

(** What the code uses of [double] besides [Json.Double]: comparison, and the
    conversion to a 64-bit integer, which is undefined out of range. *)
Class DoubleCompare `{Double} : Type := {
  double_ltb : double -> double -> bool;
  double_trunc : double -> option Z;
  double_ltb_int m n : - 2 ^ 53 <= m <= 2 ^ 53 -> - 2 ^ 53 <= n <= 2 ^ 53 ->
    double_ltb (double_of_int64 m) (double_of_int64 n) = (m <? n);
  double_ltb_asym a b : double_ltb a b = true -> double_ltb b a = false;
  double_trunc_int n : - 2 ^ 53 <= n <= 2 ^ 53 -> double_trunc (double_of_int64 n) = Some n;
  double_trunc_lower a m n : - 2 ^ 53 <= m <= 2 ^ 53 ->
    double_ltb a (double_of_int64 m) = false -> double_trunc a = Some n -> m <= n;
  double_trunc_upper a m n : - 2 ^ 53 <= m <= 2 ^ 53 ->
    double_ltb (double_of_int64 m) a = false -> double_trunc a = Some n -> n <= m
}.

Module Temporary.
Import Dns Json JsonText.

Definition CH_TEMPORARY_RULE_DEFAULT_LIMIT : Z := 128.
Definition CH_TEMPORARY_RULE_MAX_LIMIT : Z := 1024.
Definition CH_TEMPORARY_RULE_DEFAULT_TTL : Z := 900.
Definition CH_TEMPORARY_RULE_MAX_TTL : Z := 86400.

Inductive temporary_match_kind : Type :=
| TEMPORARY_MATCH_NONE | TEMPORARY_MATCH_DOMAIN | TEMPORARY_MATCH_SUFFIX | TEMPORARY_MATCH_CIDR.

Record temporary_rule : Type := mk_rule {
  t_id : bytes;
  t_profile : bytes;
  t_name : bytes;
  t_action : bytes;
  t_match_kind : temporary_match_kind;
  t_match_value : bytes;
  t_process : bytes;
  t_network : bytes;
  t_port : bytes;
  t_until_quit_pid : Z;
  t_created_ns : Z;
  t_expires_ns : Z;
  t_source_conn_id : bytes;
  t_source_target : bytes;
  t_source_target_host : bytes
}.

(** [items] are the first [count] entries of the array. *)
Record ch_temporary_rules : Type := mk_rules {
  items : list temporary_rule;
  limit : Z;
  sequence : Z
}.

Definition with_items (rules : ch_temporary_rules) (l : list temporary_rule) : ch_temporary_rules :=
  mk_rules l (limit rules) (sequence rules).

(** ** The table *)

(** [exited pid]: [kill(pid, 0)] fails with [ESRCH]. *)
Definition expired (exited : Z -> bool) (now : Z) (rule : temporary_rule) : bool :=
  (t_expires_ns rule <=? now) || ((t_until_quit_pid rule >? 0) && exited (t_until_quit_pid rule)).

Definition temporary_prune_locked (exited : Z -> bool) (now : Z) (rules : ch_temporary_rules)
    : ch_temporary_rules :=
  with_items rules (filter (fun rule => expired exited now rule = false) (items rules)).

Definition ch_temporary_rules_create (wanted : Z) (mem mutex : bool) : result ch_temporary_rules :=
  let wanted := if wanted =? 0 then CH_TEMPORARY_RULE_DEFAULT_LIMIT else wanted in
  if wanted >? CH_TEMPORARY_RULE_MAX_LIMIT then
    fail CH_ERROR_INVALID_ARGUMENT
      (str "temporary rule limit exceeds " ++ dec CH_TEMPORARY_RULE_MAX_LIMIT)
  else if negb mem then fail CH_ERROR_OUT_OF_MEMORY (str "allocate temporary rules")
  else if negb mutex then fail CH_ERROR_OUT_OF_MEMORY (str "initialize temporary rules")
  else Done (mk_rules [] wanted 0).

(** ** Matching a connection *)

Definition temporary_split_target (target : bytes) : bytes * bytes :=
  let '(host, port) :=
    match target with
    | 91 :: rest =>
        match split_first 93 rest with
        | Some (host, 58 :: port) => (host, port)
        | Some (host, _) => (host, [])
        | None => (rest, [])
        end
    | _ =>
        match split_first 58 target, split_last 58 target with
        | Some (host, port), Some (host', _) =>
            if lenZ host =? lenZ host' then (host, port) else (target, [])
        | _, _ => (target, [])
        end
    end in
  (map tolower host, port).

Section Matching.
Context `{Inet}.

Definition pton (af : address_family) : bytes -> option bytes :=
  match af with AF_INET => pton4 | AF_INET6 => pton6 end.

(** [network] and [address] have [length] bytes. *)
Definition prefix_matches (network address : bytes) (length bits : Z) : bool :=
  let whole := bits / 8 in
  let remainder := bits mod 8 in
  if (whole >? 0) && negb (beq (sub network 0 whole) (sub address 0 whole)) then false
  else if (remainder >? 0) && (whole <? length) then
    let mask := u8 (Z.shiftl 255 (8 - remainder)) in
    Z.land (byte_at network whole) mask =? Z.land (byte_at address whole) mask
  else true.

Definition temporary_cidr_matches (cidr host : bytes) : bool :=
  match split_last 47 cidr with
  | None => false
  | Some (text, slash) =>
      let s := strtol slash in
      let family := match split_first 58 text with None => AF_INET | Some _ => AF_INET6 end in
      let length := ch_ip_stack_address_length family in
      let maximum := match family with AF_INET => 32 | AF_INET6 => 128 end in
      scan_any s && beq (scan_rest s) [] && (scan_value s >=? 0) && (scan_value s <=? maximum)
      && match pton family text, pton family host with
         | Some network, Some address => prefix_matches network address length (scan_value s)
         | _, _ => false
         end
  end.

Definition temporary_matches (rule : temporary_rule) (host : bytes) : bool :=
  match t_match_kind rule with
  | TEMPORARY_MATCH_NONE => true
  | TEMPORARY_MATCH_DOMAIN => strcaseeq (t_match_value rule) host
  | TEMPORARY_MATCH_SUFFIX =>
      let suffix := t_match_value rule in
      if lenZ host =? lenZ suffix then strcaseeq host suffix
      else (lenZ host >? lenZ suffix) && (byte_at host (lenZ host - lenZ suffix - 1) =? 46)
           && strcaseeq (sub host (lenZ host - lenZ suffix) (lenZ suffix)) suffix
  | TEMPORARY_MATCH_CIDR => temporary_cidr_matches (t_match_value rule) host
  end.

(** [strncasecmp(action, prefix, strlen(prefix)) == 0] and what follows. *)
Definition strip_prefix (prefix action : bytes) : option bytes :=
  if strcaseeq (sub action 0 (lenZ prefix)) prefix && (lenZ prefix <=? lenZ action)
  then Some (drop (length prefix) action) else None.

Definition kind_text (kind : temporary_match_kind) : bytes :=
  match kind with
  | TEMPORARY_MATCH_DOMAIN => str "domain"
  | TEMPORARY_MATCH_SUFFIX => str "domain_suffix"
  | TEMPORARY_MATCH_CIDR => str "cidr"
  | TEMPORARY_MATCH_NONE => str "process"
  end.

Definition temporary_decision_copy (rule : temporary_rule) (context : Rules.ch_rule_match_context)
    (host port : bytes) (elapsed : Z) : Rules.ch_rule_decision :=
  let '(action, chain, group) :=
    match strip_prefix (str "chain:") (t_action rule) with
    | Some chain => (str "chain", chain, [])
    | None =>
        match strip_prefix (str "group:") (t_action rule) with
        | Some group => (str "group", [], group)
        | None => (take 15 (t_action rule), [], [])
        end
    end in
  let kind := kind_text (t_match_kind rule) in
  let matched_value :=
    match t_match_kind rule with TEMPORARY_MATCH_NONE => t_process rule | _ => t_match_value rule end in
  let summary :=
    take 511 (str "Temporary rule " ++ [34] ++ t_name rule ++ [34] ++ str " matched " ++ kind
              ++ [32; 34] ++ matched_value ++ [34; 46]) in
  Rules.mk_decision (t_name rule) 1 action chain group (default [] (Rules.target context)) host port
    (default [] (Rules.network context)) (default [] (Rules.source context)) false
    (if elapsed >? INT64_MAX then INT64_MAX else elapsed) kind matched_value summary.

(** The test of the loop of [decide]. *)
Definition selects (profile : bytes) (context : Rules.ch_rule_match_context) (host port : bytes)
    (rule : temporary_rule) : bool :=
  let same value pattern := match value with Some v => beq pattern v | None => false end in
  let process_matches :=
    beq (t_process rule) [] || same (Rules.process_path context) (t_process rule)
    || same (Rules.process_name context) (t_process rule) in
  let network_matches :=
    beq (t_network rule) []
    || match Rules.network context with Some n => strcaseeq (t_network rule) n | None => false end in
  let port_matches := beq (t_port rule) [] || beq (t_port rule) port in
  beq (t_profile rule) profile && process_matches && network_matches && port_matches
  && temporary_matches rule host.

(** The rules after pruning, and the decision when a rule matches; [started]
    and [finished] are readings of the monotonic clock. *)
Definition ch_temporary_rules_decide (exited : Z -> bool) (now started finished : Z)
    (rules : ch_temporary_rules) (profile : bytes) (context : Rules.ch_rule_match_context)
    (mem copied : bool) : ch_temporary_rules * result (option Rules.ch_rule_decision) :=
  match Rules.target context with
  | None =>
      (rules, fail CH_ERROR_INVALID_ARGUMENT (str "temporary rule decision inputs are required"))
  | Some target =>
      if negb mem then (rules, fail CH_ERROR_OUT_OF_MEMORY (str "parse temporary rule target"))
      else
        let '(host, port) := temporary_split_target target in
        let rules := temporary_prune_locked exited now rules in
        (rules,
         match List.find (selects profile context host port) (items rules) with
         | None => Done None
         | Some rule =>
             if copied then
               Done (Some (temporary_decision_copy rule context host port
                             (if finished >=? started then u64 (finished - started) else 0)))
             else fail CH_ERROR_OUT_OF_MEMORY (str "copy temporary rule decision")
         end)
  end.

End Matching.

Definition ch_temporary_rules_needs_process (exited : Z -> bool) (now : Z)
    (rules : ch_temporary_rules) : ch_temporary_rules * bool :=
  let rules := temporary_prune_locked exited now rules in
  (rules, existsb (fun rule => negb (beq (t_process rule) [])) (items rules)).

(** ** Reports *)

Definition match_key (kind : temporary_match_kind) : option bytes :=
  match kind with
  | TEMPORARY_MATCH_DOMAIN => Some (str "domains")
  | TEMPORARY_MATCH_SUFFIX => Some (str "domain_suffixes")
  | TEMPORARY_MATCH_CIDR => Some (str "cidrs")
  | TEMPORARY_MATCH_NONE => None
  end.

Section Reports.
Context (grow : Z -> bool).

Abbreviation append := (JsonText.append grow).
Abbreviation append_text := (JsonText.append_text grow).

Definition temporary_append_json (rule : temporary_rule) : json_op :=
  all_of
    ([append ([123] ++ quoted_key "id"); append_text (t_id rule);
      append ([44] ++ quoted_key "profile"); append_text (t_profile rule);
      append ([44] ++ quoted_key "rule" ++ [123] ++ quoted_key "name"); append_text (t_name rule);
      append ([44] ++ quoted_key "action"); append_text (t_action rule)]
     ++ (if negb (beq (t_process rule) []) then
           [append ([44] ++ quoted_key "processes" ++ [91]); append_text (t_process rule); append [93]]
         else [])
     ++ (match match_key (t_match_kind rule) with
         | Some key => [append [44; 34]; append key; append [34; 58; 91]; append_text (t_match_value rule); append [93]]
         | None => []
         end)
     ++ (if negb (beq (t_port rule) []) then
           [append ([44] ++ quoted_key "ports" ++ [91]); append (t_port rule); append [93]]
         else [])
     ++ (if negb (beq (t_network rule) []) then
           [append ([44] ++ quoted_key "networks" ++ [91]); append_text (t_network rule); append [93]]
         else [])
     ++ [append ([125; 44] ++ quoted_key "created_ts_ns" ++ dec (t_created_ns rule)
              ++ [44] ++ quoted_key "expires_ts_ns" ++ dec (t_expires_ns rule)
              ++ [44] ++ quoted_key "source_conn_id");
         append_text (t_source_conn_id rule);
         append ([44] ++ quoted_key "source_target"); append_text (t_source_target rule);
         append ([44] ++ quoted_key "source_target_host"); append_text (t_source_target_host rule);
         append ([44] ++ quoted_key "until_quit_pid" ++ dec (t_until_quit_pid rule));
         append [125]]).

(** [profile] is empty when every rule is wanted. *)
Definition reported (profile : bytes) (rule : temporary_rule) : bool :=
  beq profile [] || beq (t_profile rule) profile.

Definition temporary_append_snapshot_locked (rules : ch_temporary_rules) (profile : bytes) : json_op :=
  all_of [append [91];
          append_list grow temporary_append_json true (List.filter (reported profile) (items rules));
          append [93]].

Definition ch_temporary_rules_snapshot_json (exited : Z -> bool) (now : Z)
    (rules : ch_temporary_rules) (profile : option bytes) : ch_temporary_rules * result bytes :=
  let rules := temporary_prune_locked exited now rules in
  (rules, take_text (temporary_append_snapshot_locked rules (default [] profile))
            (str "encode temporary rules")).

Definition ch_temporary_rules_payload_json (exited : Z -> bool) (now : Z)
    (rules : ch_temporary_rules) (profile : option bytes) : ch_temporary_rules * result bytes :=
  let '(rules, snapshot) := ch_temporary_rules_snapshot_json exited now rules profile in
  (rules, snapshot ← snapshot;
          take_text (all_of [append ([123] ++ quoted_key "temporary_rules"); append snapshot; append [125]])
            (str "encode temporary rules payload")).

(** ** Inserting *)

Definition identify (rule : temporary_rule) (identifier : bytes) (now ttl_seconds pid : Z)
    : temporary_rule :=
  mk_rule identifier (t_profile rule) (t_name rule) (t_action rule) (t_match_kind rule)
    (t_match_value rule) (t_process rule) (t_network rule) (t_port rule) pid now
    (now + ttl_seconds * 1000000000) (t_source_conn_id rule) (t_source_target rule)
    (t_source_target_host rule).

Definition identifier_of (sequence now : Z) : bytes :=
  str "temporary-" ++ dec sequence ++ [45] ++ dec now.

(** [Fault] stands for moving the entries past the end of the array. *)
Definition insert_rule (rules : ch_temporary_rules) (rule : temporary_rule)
    : result ch_temporary_rules :=
  let kept := if lenZ (items rules) =? limit rules
              then take (length (items rules) - 1) (items rules) else items rules in
  if lenZ kept + 1 >? limit rules then Fault else Done (with_items rules (rule :: kept)).

Definition temporary_insert_json (exited : Z -> bool) (now : Z) (rules : ch_temporary_rules)
    (next : temporary_rule) (ttl_seconds until_quit_pid : Z) (mem : bool)
    : ch_temporary_rules * result bytes :=
  let rules := temporary_prune_locked exited now rules in
  let rules := mk_rules (items rules) (limit rules) (u64 (sequence rules + 1)) in
  if negb mem then
    (rules, fail CH_ERROR_OUT_OF_MEMORY (str "allocate temporary rule identifier"))
  else
    let rule := identify next (identifier_of (sequence rules) now) now ttl_seconds until_quit_pid in
    match insert_rule rules rule with
    | Done rules =>
        (rules,
         take_text
           (all_of [append ([123] ++ quoted_key "temporary_rule"); temporary_append_json rule;
                    append ([44] ++ quoted_key "temporary_rules");
                    temporary_append_snapshot_locked rules (t_profile rule); append [125]])
           (str "encode temporary rule response"))
    | Raise e => (rules, Raise e)
    | Fault => (rules, Fault)
    end.

End Reports.

(** ** Requests *)

Section Requests.
Context `{DoubleCompare}.

Definition double_eqb (a b : double) : bool := negb (double_ltb a b) && negb (double_ltb b a).

Definition object_get (value : ch_json_value) (key : String.string) : option ch_json_value :=
  ch_json_object_get (Some value) (Some (str key)).

Definition temporary_request_string (request : ch_json_value) (key : String.string) : bytes :=
  default [] (ch_json_string_value (object_get request key)).

Definition temporary_first_string (object : ch_json_value) (key : String.string) : bytes :=
  default [] (ch_json_string_value (ch_json_array_get (object_get object key) 0)).

(** [None] is [NULL]. *)
Definition temporary_first_port (object : ch_json_value) : option bytes :=
  match ch_json_array_get (object_get object "ports") 0 with
  | None => Some []
  | Some value =>
      let number := ch_json_number_value (Some value) (double_of_int64 (-1)) in
      if double_ltb number (double_of_int64 1) || double_ltb (double_of_int64 65535) number then None
      else
        match double_trunc number with
        | None => None
        | Some n => if double_eqb number (double_of_int64 n) then Some (dec n) else None
        end
  end.

(** The kind of match, and the first entry of its list. *)
Definition request_match (rule : ch_json_value) : temporary_match_kind * option ch_json_value :=
  let first key := ch_json_array_get (object_get rule key) 0 in
  let filled key := ch_json_array_size (object_get rule key) >? 0 in
  if filled "domains"%string then (TEMPORARY_MATCH_DOMAIN, first "domains"%string)
  else if filled "domain_suffixes"%string then (TEMPORARY_MATCH_SUFFIX, first "domain_suffixes"%string)
  else if filled "cidrs"%string then (TEMPORARY_MATCH_CIDR, first "cidrs"%string)
  else (TEMPORARY_MATCH_NONE, None).

(** [traffic conn_id]: target and host of a connection of the traffic store. *)
Definition request_source (request : ch_json_value) (traffic : option (bytes -> result (bytes * bytes)))
    : result (bytes * bytes) :=
  match traffic with
  | Some connection_copy =>
      let conn_id := temporary_request_string request "conn_id" in
      if beq conn_id [] then
        fail CH_ERROR_INVALID_ARGUMENT (str "connection identifier is required")
      else connection_copy conn_id
  | None =>
      Done (temporary_request_string request "source_target",
            temporary_request_string request "source_target_host")
  end.

(** The conversion of a value out of the range of [long long] is undefined. *)
Definition request_ttl (request : ch_json_value) : result Z :=
  let ttl := ch_json_number_value (object_get request "ttl_seconds")
               (double_of_int64 CH_TEMPORARY_RULE_DEFAULT_TTL) in
  if negb (double_ltb (double_of_int64 0) ttl) then Done CH_TEMPORARY_RULE_DEFAULT_TTL
  else match double_trunc ttl with Some n => Done n | None => Fault end.

Definition parsed_rule (mutation request : ch_json_value)
    (traffic : option (bytes -> result (bytes * bytes))) : result (temporary_rule * Z) :=
  let rule := object_get mutation "rule" in
  match ch_json_value_type rule, rule with
  | TYPE_OBJECT, Some rule =>
      let '(kind, entry) := request_match rule in
      let match_value := default [] (ch_json_string_value entry) in
      let process := temporary_first_string rule "processes" in
      let profile := temporary_request_string mutation "profile" in
      let name := temporary_request_string rule "name" in
      let action := temporary_request_string rule "action" in
      '(source_target, source_target_host) ← request_source request traffic;
      ttl ← request_ttl request;
      if ttl >? CH_TEMPORARY_RULE_MAX_TTL then
        fail CH_ERROR_INVALID_ARGUMENT (str "ttl_seconds must be at most 86400")
      else
        match temporary_first_port rule with
        | Some port =>
            if beq profile [] || beq name [] || beq action [] || (beq match_value [] && beq process [])
            then fail CH_ERROR_OUT_OF_MEMORY (str "copy temporary rule")
            else
              Done (mk_rule [] profile name action kind match_value process
                      (temporary_first_string rule "networks") port 0 0 0
                      (temporary_request_string request "conn_id") source_target source_target_host,
                    ttl)
        | None => fail CH_ERROR_OUT_OF_MEMORY (str "copy temporary rule")
        end
  | _, _ => fail CH_ERROR_PARSE (str "connection rule response has no rule")
  end.

(** [Done None]: the mutation did not parse but the request did, and parsing the
    request cleared the error, so that [CH_OK] is returned with an empty rule
    whose strings are [NULL]. *)
Definition temporary_rule_from_request (mutation_json original_request : bytes)
    (traffic : option (bytes -> result (bytes * bytes))) : result (option (temporary_rule * Z)) :=
  match ch_json_parse (Some mutation_json), ch_json_parse (Some original_request) with
  | Done mutation, Done request => r ← parsed_rule mutation request traffic; Done (Some r)
  | _, Raise e => Raise e
  | Raise _, Done _ => Done None
  | _, _ => Fault
  end.

(** The strings of an empty rule are read as soon as it is reported or matched:
    here, or at the next use of the table when the buffer cannot grow. *)
Definition insert_parsed (grow : Z -> bool) (exited : Z -> bool) (now : Z) (rules : ch_temporary_rules)
    (parsed : result (option (temporary_rule * Z))) (until_quit_pid : Z) (mem : bool)
    : ch_temporary_rules * result bytes :=
  match parsed with
  | Done (Some (next, ttl)) => temporary_insert_json grow exited now rules next ttl until_quit_pid mem
  | Done None =>
      if negb mem then
        let rules := temporary_prune_locked exited now rules in
        (mk_rules (items rules) (limit rules) (u64 (sequence rules + 1)),
         fail CH_ERROR_OUT_OF_MEMORY (str "allocate temporary rule identifier"))
      else (rules, Fault)
  | Raise e => (rules, Raise e)
  | Fault => (rules, Fault)
  end.

(** [mutation] is the answer of the traffic store to the request. *)
Definition ch_temporary_rules_create_from_connection_json (grow : Z -> bool) (exited : Z -> bool)
    (now : Z) (rules : ch_temporary_rules) (traffic : bytes -> result (bytes * bytes))
    (mutation : result bytes) (request_json : bytes) (mem : bool)
    : ch_temporary_rules * result bytes :=
  match mutation with
  | Done mutation =>
      insert_parsed grow exited now rules
        (temporary_rule_from_request mutation request_json (Some traffic)) 0 mem
  | Raise e => (rules, Raise e)
  | Fault => (rules, Fault)
  end.

Definition source_request (grow : Z -> bool) (conn_id target target_host : option bytes) (ttl : Z)
    : result bytes :=
  take_text
    (all_of [append grow ([123] ++ quoted_key "conn_id"); append_text grow (default [] conn_id);
             append grow ([44] ++ quoted_key "source_target"); append_text grow (default [] target);
             append grow ([44] ++ quoted_key "source_target_host"); append_text grow (default [] target_host);
             append grow ([44] ++ quoted_key "ttl_seconds" ++ dec ttl ++ [125])])
    (str "encode temporary rule source").

Definition ch_temporary_rules_create_from_rule_json (grow : Z -> bool) (exited : Z -> bool) (now : Z)
    (rules : ch_temporary_rules) (rule_request_json : bytes) (ttl_seconds until_quit_pid : Z)
    (source_conn_id source_target source_target_host : option bytes) (mem : bool)
    : ch_temporary_rules * result bytes :=
  let ttl_seconds :=
    if ttl_seconds <=? 0 then
      if until_quit_pid >? 0 then CH_TEMPORARY_RULE_MAX_TTL else CH_TEMPORARY_RULE_DEFAULT_TTL
    else ttl_seconds in
  if ttl_seconds >? CH_TEMPORARY_RULE_MAX_TTL then
    (rules, fail CH_ERROR_INVALID_ARGUMENT (str "ttl_seconds must be at most 86400"))
  else
    match source_request grow source_conn_id source_target source_target_host ttl_seconds with
    | Done request_json =>
        insert_parsed grow exited now rules
          (temporary_rule_from_request rule_request_json request_json None) until_quit_pid mem
    | Raise e => (rules, Raise e)
    | Fault => (rules, Fault)
    end.

(** ** Removing *)

Definition ch_temporary_rules_remove_json (grow : Z -> bool) (exited : Z -> bool) (now : Z)
    (rules : ch_temporary_rules) (request_json : bytes) (mem : bool)
    : ch_temporary_rules * result bytes :=
  match ch_json_parse (Some request_json) with
  | Raise e => (rules, Raise e)
  | Fault => (rules, Fault)
  | Done request =>
      let wanted := temporary_request_string request "id" in
      if beq wanted [] then
        (rules, fail CH_ERROR_INVALID_ARGUMENT (str "temporary rule identifier is required"))
      else
        let rules := temporary_prune_locked exited now rules in
        match list_find (fun rule => beq (t_id rule) wanted = true) (items rules) with
        | None => (rules, fail CH_ERROR_NOT_FOUND (str "temporary rule not found"))
        | Some (index, rule) =>
            if negb mem then
              (rules, fail CH_ERROR_OUT_OF_MEMORY (str "copy temporary rule profile"))
            else
              let rules := with_items rules (delete index (items rules)) in
              (rules,
               take_text
                 (all_of [append grow ([123] ++ quoted_key "temporary_rules");
                          temporary_append_snapshot_locked grow rules (t_profile rule);
                          append grow [125]])
                 (str "encode temporary rule removal"))
        end
  end.

End Requests.

(** ** What matching means *)

Definition alive (exited : Z -> bool) (now : Z) (rule : temporary_rule) : Prop :=
  now < t_expires_ns rule /\ (0 < t_until_quit_pid rule -> exited (t_until_quit_pid rule) = false).

Lemma expired_alive exited now rule : expired exited now rule = false <-> alive exited now rule.
Proof.
  unfold expired, alive. rewrite orb_false_iff, andb_false_iff, Z.leb_gt.
  destruct (Z.gtb_spec (t_until_quit_pid rule) 0); intuition (discriminate || lia || auto).
Qed.

Section MatchingFacts.
Context `{Inet}.

(** The host is an address in the block that the text names. *)
Definition cidr_applies (cidr host : bytes) : Prop :=
  exists text digits network address bits,
    let family := if decide (58 ∈ text) then AF_INET6 else AF_INET in
    cidr = text ++ 47 :: digits /\ (47 ∉ digits) /\
    scan_any (strtol digits) = true /\ scan_rest (strtol digits) = [] /\ scan_value (strtol digits) = bits /\
    0 <= bits <= Rules.family_bits family /\
    pton family text = Some network /\ pton family host = Some address /\
    Rules.in_block (Rules.mk_cidr family network bits cidr) address.

Definition host_applies (rule : temporary_rule) (host : bytes) : Prop :=
  let lower := map tolower in
  match t_match_kind rule with
  | TEMPORARY_MATCH_NONE => True
  | TEMPORARY_MATCH_DOMAIN => lower host = lower (t_match_value rule)
  | TEMPORARY_MATCH_SUFFIX =>
      lower host = lower (t_match_value rule) \/
      exists p, lower host = p ++ 46 :: lower (t_match_value rule)
  | TEMPORARY_MATCH_CIDR => cidr_applies (t_match_value rule) host
  end.

Definition applies (profile : bytes) (context : Rules.ch_rule_match_context) (host port : bytes)
    (rule : temporary_rule) : Prop :=
  t_profile rule = profile /\
  (t_process rule = [] \/ Rules.process_path context = Some (t_process rule) \/
   Rules.process_name context = Some (t_process rule)) /\
  (t_network rule = [] \/
   exists n, Rules.network context = Some n /\ map tolower (t_network rule) = map tolower n) /\
  (t_port rule = [] \/ t_port rule = port) /\
  host_applies rule host.

Lemma pton_address family s a :
  pton family s = Some a -> lenZ a = ch_ip_stack_address_length family /\ bytes_ok a.
Proof. destruct family; [apply pton4_address|apply pton6_address]. Qed.

Lemma prefix_matches_contains family network address bits text :
  lenZ network = ch_ip_stack_address_length family -> 0 <= bits <= Rules.family_bits family ->
  prefix_matches network address (ch_ip_stack_address_length family) bits
  = Rules.ch_cidr_contains (Rules.mk_cidr family network bits text) address.
Proof.
  intros Hl Hb. unfold prefix_matches, Rules.ch_cidr_contains. cbn [Rules.prefix_length Rules.cidr_address].
  unfold Rules.family_bits in Hb. case_if; [reflexivity|].
  pose proof (Z.mod_pos_bound bits 8 ltac:(lia)). pose proof (Z.div_mod bits 8 ltac:(lia)).
  destruct (Z.eqb_spec (bits mod 8) 0) as [E|E].
  - rewrite E. reflexivity.
  - replace (bits mod 8 >? 0) with true by lia.
    replace (bits / 8 <? ch_ip_stack_address_length family) with true by lia. reflexivity.
Qed.

Lemma family_of_text text :
  match split_first 58 text with None => AF_INET | Some _ => AF_INET6 end
  = if decide (58 ∈ text) then AF_INET6 else AF_INET.
Proof.
  pose proof (split_first_None 58 text) as E. case_decide as Hin; destruct (split_first 58 text); auto.
  - destruct (proj1 E eq_refl Hin).
  - discriminate (proj2 E Hin).
Qed.

Lemma cidr_matches_spec cidr host : temporary_cidr_matches cidr host = true <-> cidr_applies cidr host.
Proof.
  unfold temporary_cidr_matches, cidr_applies. split.
  - destruct (split_last 47 cidr) as [[text digits]|] eqn:E; [|discriminate].
    apply split_last_Some in E as [-> Hd]. rewrite family_of_text.
    set (family := if decide (58 ∈ text) then AF_INET6 else AF_INET).
    rewrite !andb_true_iff, beq_true. intros [[[[H1 H2] H3] H4] H5].
    destruct (pton family text) as [network|] eqn:En; [|discriminate].
    destruct (pton family host) as [address|] eqn:Ea; [|discriminate].
    assert (Hb : 0 <= scan_value (strtol digits) <= Rules.family_bits family)
      by (unfold Rules.family_bits; destruct family; cbn in *; lia).
    exists text, digits, network, address, (scan_value (strtol digits)). fold family. split_and!; auto; try lia.
    destruct (pton_address _ _ _ En) as [Ln On]. destruct (pton_address _ _ _ Ea) as [La Oa].
    rewrite (prefix_matches_contains family network address _ (text ++ 47 :: digits)) in H5 by assumption.
    apply Rules.cidr_contains_spec in H5; auto; [unfold Rules.cidr_wf; cbn; auto|cbn; congruence].
  - intros (text & digits & network & address & bits & -> & Hd & H1 & H2 & H3 & Hb & En & Ea & Hin).
    rewrite split_last_app by exact Hd. rewrite family_of_text.
    set (family := if decide (58 ∈ text) then AF_INET6 else AF_INET) in *.
    rewrite H1, H2, H3, En, Ea, beq_refl.
    destruct (pton_address _ _ _ En) as [Ln On]. destruct (pton_address _ _ _ Ea) as [La Oa].
    rewrite (prefix_matches_contains family network address _ (text ++ 47 :: digits)) by assumption.
    apply Rules.cidr_contains_spec in Hin; [|unfold Rules.cidr_wf; cbn; auto|cbn; congruence|assumption].
    rewrite Hin. unfold Rules.family_bits in Hb. destruct family; cbn in *; lia.
Qed.

Lemma lower_sub s i n : map tolower (sub s i n) = sub (map tolower s) i n.
Proof. unfold sub. rewrite <- List.firstn_map, <- List.skipn_map. reflexivity. Qed.

Lemma lower_byte_dot s i : (byte_at (map tolower s) i =? 46) = (byte_at s i =? 46).
Proof.
  unfold byte_at. rewrite list_lookup_fmap. destruct (s !! Z.to_nat i) as [c|]; [|reflexivity].
  cbn. unfold tolower. case_if; lia.
Qed.

Lemma host_matches_spec rule host : temporary_matches rule host = true <-> host_applies rule host.
Proof.
  unfold temporary_matches, host_applies. destruct (t_match_kind rule).
  - tauto.
  - rewrite strcaseeq_true. split; congruence.
  - set (suffix := t_match_value rule). rewrite <- Rules.suffix_matches_spec. unfold Rules.suffix_matches.
    assert (Hl : forall s, lenZ (map tolower s) = lenZ s) by (intros s; unfold lenZ; rewrite List.length_map; reflexivity).
    rewrite !Hl, lower_byte_dot, <- lower_sub. unfold strcaseeq.
    destruct (Z.eqb_spec (lenZ host) (lenZ suffix)) as [E|E].
    + replace (lenZ host >? lenZ suffix) with false by lia. rewrite orb_false_r. reflexivity.
    + assert (beq (map tolower host) (map tolower suffix) = false) as ->; [|reflexivity].
      apply beq_false. intros Hx. apply E. rewrite <- (Hl host), Hx. apply Hl.
  - apply cidr_matches_spec.
Qed.

Lemma selects_spec profile context host port rule :
  selects profile context host port rule = true <-> applies profile context host port rule.
Proof.
  unfold selects, applies. rewrite !andb_true_iff, !orb_true_iff, host_matches_spec, !beq_true.
  assert (Hsame : forall (v : option bytes) p,
            match v with Some x => beq p x | None => false end = true <-> v = Some p).
  { intros [x|] p; [rewrite beq_true; split; congruence|split; discriminate]. }
  rewrite !Hsame.
  assert (Hnet : match Rules.network context with
                 | Some n => strcaseeq (t_network rule) n | None => false end = true
                 <-> exists n, Rules.network context = Some n /\ map tolower (t_network rule) = map tolower n).
  { destruct (Rules.network context) as [n|]; [rewrite strcaseeq_true|].
    - split; [eauto|]. intros (m & Em & H1). congruence.
    - split; [discriminate|]. intros (m & Em & _). discriminate. }
  rewrite Hnet. tauto.
Qed.

(** The first element that satisfies a test. *)
Lemma find_first {A} (f : A -> bool) l :
  (exists before x after, l = before ++ x :: after /\ f x = true /\
     Forall (fun y => f y = false) before /\ List.find f l = Some x) \/
  (Forall (fun y => f y = false) l /\ List.find f l = None).
Proof.
  induction l as [|y l IH]; [right; auto|]. cbn. destruct (f y) eqn:Ey.
  { left. exists [], y, l. auto. }
  destruct IH as [(before & x & after & -> & Hx & Hb & E)|[Hb E]].
  - left. exists (y :: before), x, after. split_and!; auto.
  - right. auto.
Qed.

End MatchingFacts.

(** What the decision says of the rule it comes from. *)
Definition decides (rule : temporary_rule) (host port : bytes) (d : Rules.ch_rule_decision) : Prop :=
  Rules.d_rule_name d = t_name rule /\ Rules.d_host d = host /\ Rules.d_port d = port /\
  Rules.d_is_default d = false /\ 0 <= Rules.d_elapsed_ns d <= INT64_MAX /\
  (forall chain, t_action rule = str "chain:" ++ chain ->
     Rules.d_action d = str "chain" /\ Rules.d_chain_name d = chain /\ Rules.d_group_name d = []) /\
  (forall group, t_action rule = str "group:" ++ group ->
     Rules.d_action d = str "group" /\ Rules.d_chain_name d = [] /\ Rules.d_group_name d = group).

Lemma strip_prefix_same p s : strip_prefix p (p ++ s) = Some s.
Proof.
  unfold strip_prefix. assert (E : sub (p ++ s) 0 (lenZ p) = p).
  { unfold sub, lenZ. rewrite Nat2Z.id. cbn. apply take_app_length. }
  rewrite E, lenZ_app. pose proof (lenZ_nonneg s). unfold strcaseeq. rewrite beq_refl.
  replace (lenZ p <=? lenZ p + lenZ s) with true by lia. rewrite drop_app_length. reflexivity.
Qed.

Lemma strip_prefix_other p q s :
  length p = length q -> map tolower p <> map tolower q -> strip_prefix p (q ++ s) = None.
Proof.
  intros Hl Hne. unfold strip_prefix. assert (E : sub (q ++ s) 0 (lenZ p) = q).
  { unfold sub, lenZ. rewrite Nat2Z.id, Hl. cbn. apply take_app_length. }
  rewrite E. unfold strcaseeq. rewrite (proj2 (beq_false _ _)); [reflexivity|congruence].
Qed.

Lemma decision_copy_decides rule context host port elapsed :
  0 <= elapsed -> decides rule host port (temporary_decision_copy rule context host port elapsed).
Proof.
  intros He. unfold decides, temporary_decision_copy.
  destruct (match strip_prefix (str "chain:") (t_action rule) with
            | Some chain => (str "chain", chain, [])
            | None => match strip_prefix (str "group:") (t_action rule) with
                      | Some group => (str "group", [], group)
                      | None => (take 15 (t_action rule), [], [])
                      end
            end) as [[action chain] group] eqn:E.
  cbn [Rules.d_rule_name Rules.d_host Rules.d_port Rules.d_is_default Rules.d_elapsed_ns Rules.d_action
    Rules.d_chain_name Rules.d_group_name].
  split_and!; auto; try (unfold INT64_MAX in *; case_if; lia).
  - intros c Hc. rewrite Hc, strip_prefix_same in E. injection E as <- <- <-. auto.
  - intros g Hg. rewrite Hg, strip_prefix_other, strip_prefix_same in E; [|reflexivity|vm_compute; discriminate].
    injection E as <- <- <-. auto.
Qed.

(** [decide] first drops exactly the rules that have expired or whose process
    has exited, and then answers with the newest of the remaining rules that
    applies to the connection (same profile; process, network and port when the
    rule names them; host equal, below the domain, or inside the block), and
    with nothing when none applies. *)
Theorem temporary_decide_newest `{Inet} exited now started finished rules profile context target :
  Rules.target context = Some target -> 0 <= started ->
  let '(host, port) := temporary_split_target target in
  let '(rules', r) := ch_temporary_rules_decide exited now started finished rules profile context true true in
  items rules' = filter (alive exited now) (items rules) /\
  ((exists before rule after d, items rules' = before ++ rule :: after /\
      applies profile context host port rule /\
      Forall (fun x => ~ applies profile context host port x) before /\
      r = Done (Some d) /\ decides rule host port d) \/
   (Forall (fun x => ~ applies profile context host port x) (items rules') /\ r = Done None)).
Proof.
  intros Ht Hs. unfold ch_temporary_rules_decide. rewrite Ht. cbn [negb].
  destruct (temporary_split_target target) as [host port].
  set (rules' := temporary_prune_locked exited now rules).
  assert (Hnot : forall l, Forall (fun y => selects profile context host port y = false) l ->
                      Forall (fun x => ~ applies profile context host port x) l).
  { intros l. apply List.Forall_impl. intros x Hx Ha. apply selects_spec in Ha. congruence. }
  split.
  { cbn. apply list_filter_iff. apply expired_alive. }
  destruct (find_first (selects profile context host port) (items rules'))
    as [(before & rule & after & Hi & Hx & Hb & ->)|[Hb ->]].
  - left. exists before, rule, after, (temporary_decision_copy rule context host port
      (if finished >=? started then u64 (finished - started) else 0)).
    split_and!; auto; [apply selects_spec, Hx|]. apply decision_copy_decides. case_if; [|lia].
    unfold u64. apply Z.mod_pos_bound. lia.
  - right. auto.
Qed.

(** ** The table *)

(** Newest first: the identifiers carry falling sequence numbers. *)
Fixpoint falling (bound : Z) (l : list temporary_rule) : Prop :=
  match l with
  | [] => True
  | rule :: l' =>
      exists n, 1 <= n <= bound /\ t_id rule = identifier_of n (t_created_ns rule) /\ falling (n - 1) l'
  end.

Lemma falling_grows b b' l : b <= b' -> falling b l -> falling b' l.
Proof. destruct l as [|rule l]; cbn; [auto|]. intros Hb (n & Hn & H). exists n. split; [lia|exact H]. Qed.

Lemma falling_sublist l l' : l `sublist_of` l' -> forall b, falling b l' -> falling b l.
Proof.
  induction 1 as [|x l l' _ IH|x l l' _ IH]; intros b; [auto| |].
  - cbn. intros (n & Hn & E & H). exists n. auto.
  - cbn. intros (n & Hn & _ & H). apply (falling_grows (n - 1)); [lia|]. apply IH, H.
Qed.

Lemma identifier_inj m n t u :
  0 <= m -> 0 <= n -> identifier_of m t = identifier_of n u -> m = n.
Proof.
  intros Hm Hn E. unfold identifier_of in E. apply app_inv_head in E.
  apply (f_equal (split_first 45)) in E. cbn [app] in E.
  rewrite !split_first_app in E by (apply digits_avoid; [apply dec_digits_only; assumption|reflexivity]).
  injection E as E _. apply dec_inj; assumption.
Qed.

Lemma falling_id b l rule : falling b l -> rule ∈ l -> exists n, 1 <= n <= b /\ t_id rule = identifier_of n (t_created_ns rule).
Proof.
  revert b. induction l as [|x l IH]; intros b Hf Hin; [apply not_elem_of_nil in Hin; destruct Hin|].
  destruct Hf as (n & Hn & E & Hf). apply elem_of_cons in Hin as [->|Hin]; [eauto|].
  destruct (IH _ Hf Hin) as (k & Hk & E'). exists k. split; [lia|exact E'].
Qed.

Lemma falling_nodup b l : falling b l -> NoDup (map t_id l).
Proof.
  revert b. induction l as [|rule l IH]; intros b Hf; [constructor|]. destruct Hf as (n & Hn & E & Hf).
  cbn. apply list.NoDup_cons. split; [|eauto]. intros Hin. apply list_elem_of_In, List.in_map_iff in Hin as (x & Ex & Hx).
  apply list_elem_of_In in Hx. destruct (falling_id _ _ _ Hf Hx) as (k & Hk & Ek).
  rewrite Ex, E in Ek. apply identifier_inj in Ek; lia.
Qed.

Definition port_ok (port : bytes) : Prop := port = [] \/ exists n, 1 <= n <= 65535 /\ port = dec n.

(** What a request can put into a rule. *)
Definition content_ok (rule : temporary_rule) : Prop :=
  cstr_ok (t_profile rule) /\ cstr_ok (t_name rule) /\ cstr_ok (t_action rule) /\
  cstr_ok (t_match_value rule) /\ cstr_ok (t_process rule) /\ cstr_ok (t_network rule) /\
  port_ok (t_port rule) /\ cstr_ok (t_source_conn_id rule) /\ cstr_ok (t_source_target rule) /\
  cstr_ok (t_source_target_host rule).

Definition rule_ok (rule : temporary_rule) : Prop :=
  content_ok rule /\ cstr_ok (t_id rule) /\
  INT64_MIN <= t_created_ns rule <= INT64_MAX /\ INT64_MIN <= t_expires_ns rule <= INT64_MAX /\
  INT64_MIN <= t_until_quit_pid rule <= INT64_MAX.

Record table_ok (n : Z) (rules : ch_temporary_rules) : Prop := {
  table_limit : 1 <= limit rules <= CH_TEMPORARY_RULE_MAX_LIMIT;
  table_count : lenZ (items rules) <= limit rules;
  table_sequence : 0 <= sequence rules <= n;
  table_falling : falling (sequence rules) (items rules);
  table_rules : Forall rule_ok (items rules)
}.

Lemma table_sublist n rules l :
  table_ok n rules -> l `sublist_of` items rules -> table_ok (n + 1) (with_items rules l).
Proof.
  intros [H1 H2 H3 H4 H5] Hl. split; cbn; auto; [|lia| |].
  - apply sublist_length in Hl. unfold lenZ in *. lia.
  - eapply falling_sublist; eauto.
  - eapply Forall_sublist; eauto.
Qed.

Lemma prune_sublist exited now rules :
  items (temporary_prune_locked exited now rules) `sublist_of` items rules.
Proof. apply sublist_filter. Qed.

Lemma prune_ok n exited now rules :
  table_ok n rules -> table_ok (n + 1) (temporary_prune_locked exited now rules).
Proof. intros H. apply table_sublist; [exact H|apply prune_sublist]. Qed.

Lemma create_table wanted mem mutex rules :
  0 <= wanted -> ch_temporary_rules_create wanted mem mutex = Done rules -> table_ok 0 rules.
Proof.
  unfold ch_temporary_rules_create, CH_TEMPORARY_RULE_DEFAULT_LIMIT, CH_TEMPORARY_RULE_MAX_LIMIT.
  intros Hw E. repeat case_if_in E; try discriminate; injection E as <-; split; cbn; auto;
    unfold CH_TEMPORARY_RULE_MAX_LIMIT; try lia; change (lenZ (@nil temporary_rule)) with 0; lia.
Qed.

(** Times that leave room for the longest life of a rule. *)
Definition time_ok (now : Z) : Prop := 0 <= now <= 2 ^ 62.

Lemma identifier_cstr n now : 0 <= n -> 0 <= now -> cstr_ok (identifier_of n now).
Proof.
  intros Hn Ht. unfold identifier_of, cstr_ok.
  assert (Hd : forall k, 0 <= k -> Forall cchar_ok (dec k)).
  { intros k Hk. eapply List.Forall_impl; [|apply dec_digits_only, Hk]. unfold isdigit, cchar_ok. cbn. lia. }
  rewrite !List.Forall_app. split_and!; auto; repeat constructor; unfold cchar_ok; lia.
Qed.

Lemma insert_spec n grow exited now rules next ttl pid :
  table_ok n rules -> n + 1 < 2 ^ 64 -> time_ok now -> 0 <= ttl <= CH_TEMPORARY_RULE_MAX_TTL ->
  INT64_MIN <= pid <= INT64_MAX -> content_ok next ->
  let '(rules', r) := temporary_insert_json grow exited now rules next ttl pid true in
  r <> Fault /\ table_ok (n + 1) rules' /\ limit rules' = limit rules /\
  items rules' = take (Z.to_nat (limit rules))
    (identify next (identifier_of (sequence rules + 1) now) now ttl pid
     :: filter (alive exited now) (items rules)).
Proof.
  intros Hok Hn Ht Httl Hpid Hc. pose proof (prune_ok n exited now rules Hok) as [L1 L2 L3 L4 L5].
  assert (Ef : filter (alive exited now) (items rules) = items (temporary_prune_locked exited now rules))
    by (symmetry; apply list_filter_iff, expired_alive).
  rewrite Ef. cbn [limit temporary_prune_locked with_items] in L1, L2. destruct Hok as [_ _ Hs _ _].
  unfold temporary_insert_json, insert_rule. cbn [negb items limit sequence].
  set (pruned := items (temporary_prune_locked exited now rules)) in *.
  assert (Eu : u64 (sequence (temporary_prune_locked exited now rules) + 1) = sequence rules + 1)
    by (unfold u64; cbn; apply Z.mod_small; lia).
  rewrite Eu. set (rule := identify _ _ _ _ _).
  set (kept := if _ =? _ then take _ pruned else pruned).
  assert (Hkept : kept = take (Z.to_nat (limit rules) - 1) pruned).
  { unfold kept. cbn [limit temporary_prune_locked with_items]. unfold lenZ in *. case_if.
    - f_equal. lia.
    - symmetry. apply take_ge. lia. }
  assert (Hlen : lenZ kept + 1 <= limit rules)
    by (rewrite Hkept; unfold lenZ; rewrite length_take; lia).
  cbn [limit temporary_prune_locked with_items] in *.
  replace (lenZ kept + 1 >? limit rules) with false by lia.
  split_and!.
  - unfold take_text. destruct (all_of _ _) as [b ok]. destruct (if ok then _ else _); discriminate.
  - assert (Hsub : kept `sublist_of` pruned) by (rewrite Hkept; apply sublist_take).
    split; cbn [limit items sequence with_items]; auto; [rewrite lenZ_cons; lia|lia| |].
    + cbn [falling]. exists (sequence rules + 1). split; [lia|]. split; [reflexivity|].
      replace (sequence rules + 1 - 1) with (sequence rules) by lia. eapply falling_sublist; eauto.
    + constructor; [|eapply Forall_sublist; eauto]. unfold time_ok in Ht. split; [exact Hc|].
      unfold CH_TEMPORARY_RULE_MAX_TTL, INT64_MIN, INT64_MAX in *.
      cbn [rule identify t_id t_created_ns t_expires_ns t_until_quit_pid].
      split_and!; try lia. apply identifier_cstr; lia.
  - reflexivity.
  - cbn [items with_items]. rewrite Hkept.
    replace (Z.to_nat (limit rules)) with (S (Z.to_nat (limit rules) - 1)) by lia.
    cbn [take]. rewrite Nat.sub_succ, Nat.sub_0_r. reflexivity.
Qed.

Section RequestFacts.
Context `{DoubleCompare}.

Lemma object_get_strings value key v : strings_ok value -> object_get value key = Some v -> strings_ok v.
Proof. apply object_get_ok. Qed.

Lemma request_string_ok value key : strings_ok value -> cstr_ok (temporary_request_string value key).
Proof.
  intros Hv. apply string_value_ok. destruct (object_get value key) eqn:E; [|exact I].
  eapply object_get_strings; eauto.
Qed.

(** The first entry of a list of an object. *)
Lemma first_ok value key v :
  strings_ok value -> ch_json_array_get (object_get value key) 0 = Some v -> strings_ok v.
Proof.
  intros Hv E. destruct (object_get value key) as [a|] eqn:Ea; [|discriminate].
  eapply array_get_ok; [|exact E]. eapply object_get_strings; eauto.
Qed.

Lemma first_entry_ok value key :
  strings_ok value ->
  match ch_json_array_get (object_get value key) 0 with Some v => strings_ok v | None => True end.
Proof. intros Hv. destruct (ch_json_array_get _ 0) eqn:E; [eapply first_ok; eauto|exact I]. Qed.

Lemma first_string_ok value key : strings_ok value -> cstr_ok (temporary_first_string value key).
Proof.
  intros Hv. apply string_value_ok, first_entry_ok, Hv.
Qed.

Lemma first_port_ok value port : temporary_first_port value = Some port -> port_ok port.
Proof.
  unfold temporary_first_port, port_ok. destruct (ch_json_array_get _ 0) as [v|]; intros E; [|left; congruence].
  right. case_if_in E; [discriminate|]. apply orb_false_iff in Heqb as [Hlo Hhi].
  destruct (double_trunc _) as [n|] eqn:Et; [|discriminate]. case_if_in E; [|discriminate].
  injection E as <-. exists n. split; [|reflexivity]. split.
  - eapply double_trunc_lower; eauto. lia.
  - eapply double_trunc_upper; eauto. lia.
Qed.

Lemma request_match_ok rule :
  strings_ok rule -> cstr_ok (default [] (ch_json_string_value (snd (request_match rule)))).
Proof.
  intros Hr. apply string_value_ok. unfold request_match.
  do 3 (case_if; [apply first_entry_ok, Hr|]). exact I.
Qed.

Lemma request_ttl_range request ttl : request_ttl request = Done ttl -> 0 <= ttl.
Proof.
  unfold request_ttl. intros E. case_if_in E; [injection E as <-; discriminate|].
  apply negb_false_iff, double_ltb_asym in Heqb. destruct (double_trunc _) eqn:Et; [|discriminate].
  injection E as <-. eapply double_trunc_lower; eauto. lia.
Qed.

Definition traffic_ok (traffic : option (bytes -> result (bytes * bytes))) : Prop :=
  match traffic with
  | Some copy => forall c t h, copy c = Done (t, h) -> cstr_ok t /\ cstr_ok h
  | None => True
  end.

Lemma parsed_rule_ok mutation request traffic rule ttl :
  strings_ok mutation -> strings_ok request -> traffic_ok traffic ->
  parsed_rule mutation request traffic = Done (rule, ttl) ->
  content_ok rule /\ 0 <= ttl <= CH_TEMPORARY_RULE_MAX_TTL.
Proof.
  intros Hm Hq Ht E. unfold parsed_rule in E.
  destruct (object_get mutation "rule") as [r|] eqn:Er; [|destruct (ch_json_value_type None); discriminate].
  pose proof (object_get_strings _ _ _ Hm Er) as Hr.
  destruct (ch_json_value_type (Some r)); try discriminate.
  pose proof (request_match_ok r Hr) as Hmatch. destruct (request_match r) as [kind entry]. cbn [snd] in Hmatch.
  apply bind_Done_inv in E as ([target host] & Es & E). apply bind_Done_inv in E as (ttl' & Ettl & E).
  case_if_in E; [discriminate|]. destruct (temporary_first_port r) as [port|] eqn:Ep; [|discriminate].
  case_if_in E; [discriminate|]. injection E as <- <-.
  assert (Hsrc : cstr_ok target /\ cstr_ok host).
  { unfold request_source in Es. destruct traffic as [copy|].
    - case_if_in Es; [discriminate|]. eapply Ht; eauto.
    - injection Es as <- <-. split; apply request_string_ok; assumption. }
  split; [|apply request_ttl_range in Ettl; lia]. unfold content_ok. cbn.
  split_and!; try apply request_string_ok; try apply first_string_ok; auto;
    [eapply first_port_ok; eauto|apply Hsrc..].
Qed.

Definition parses_ok (json : bytes) : Prop :=
  forall v, ch_json_parse (Some json) = Done v -> strings_ok v.

Lemma bytes_parse_ok json : bytes_ok json -> parses_ok json.
Proof.
  intros Hb v E. destruct (parse_returns _ Hb) as [[e Ee]|(w & Ew & _ & Hs)]; congruence.
Qed.

Lemma from_request_ok mutation_json original traffic rule ttl :
  parses_ok mutation_json -> parses_ok original -> traffic_ok traffic ->
  temporary_rule_from_request mutation_json original traffic = Done (Some (rule, ttl)) ->
  content_ok rule /\ 0 <= ttl <= CH_TEMPORARY_RULE_MAX_TTL.
Proof.
  intros Pm Po Ht E. unfold temporary_rule_from_request in E.
  destruct (ch_json_parse (Some mutation_json)) as [m|e|] eqn:Em,
    (ch_json_parse (Some original)) as [o|e'|] eqn:Eo; try discriminate.
  apply bind_Done_inv in E as (r & Er & E). injection E as ->.
  exact (parsed_rule_ok m o traffic rule ttl (Pm m Em) (Po o Eo) Ht Er).
Qed.

(** ** Reachable tables *)

(** The public operations; a call that ends in undefined behaviour leads
    nowhere.  [now] is the clock at the call. *)
Inductive reachable : Z -> ch_temporary_rules -> Prop :=
| reach_create wanted mem mutex rules :
    0 <= wanted -> ch_temporary_rules_create wanted mem mutex = Done rules -> reachable 0 rules
| reach_prune n rules exited now :
    (** [decide], [needs_process] and the reports *)
    reachable n rules -> reachable (n + 1) (temporary_prune_locked exited now rules)
| reach_rule n rules grow exited now json ttl pid conn target host mem :
    reachable n rules -> time_ok now -> INT64_MIN <= pid <= INT64_MAX -> bytes_ok json ->
    cstr_ok (default [] conn) -> cstr_ok (default [] target) -> cstr_ok (default [] host) ->
    let out := ch_temporary_rules_create_from_rule_json grow exited now rules json ttl pid conn target host mem in
    snd out <> Fault -> reachable (n + 1) (fst out)
| reach_connection n rules grow exited now traffic mutation request mem :
    reachable n rules -> time_ok now -> traffic_ok (Some traffic) -> bytes_ok request ->
    (forall json, mutation = Done json -> bytes_ok json) ->
    let out := ch_temporary_rules_create_from_connection_json grow exited now rules traffic mutation request mem in
    snd out <> Fault -> reachable (n + 1) (fst out)
| reach_remove n rules grow exited now request mem :
    reachable n rules ->
    reachable (n + 1) (fst (ch_temporary_rules_remove_json grow exited now rules request mem)).

Lemma table_later n rules : table_ok n rules -> table_ok (n + 1) rules.
Proof. intros []. split; auto; lia. Qed.

Lemma skip_ok n exited now rules :
  table_ok n rules -> n + 1 < 2 ^ 64 ->
  let pruned := temporary_prune_locked exited now rules in
  table_ok (n + 1) (mk_rules (items pruned) (limit pruned) (u64 (sequence pruned + 1))).
Proof.
  intros Hok Hn. pose proof (table_sequence _ _ Hok) as Hs.
  destruct (prune_ok n exited now rules Hok) as [L1 L2 L3 L4 L5].
  cbn [sequence temporary_prune_locked with_items] in *.
  assert (E : u64 (sequence rules + 1) = sequence rules + 1) by (unfold u64; apply Z.mod_small; lia).
  split; cbn [items limit sequence]; auto; rewrite E; [lia|]. eapply falling_grows; [|exact L4]. lia.
Qed.

Lemma insert_parsed_ok n grow exited now rules parsed pid mem :
  table_ok n rules -> n + 1 < 2 ^ 64 -> time_ok now -> INT64_MIN <= pid <= INT64_MAX ->
  (forall rule ttl, parsed = Done (Some (rule, ttl)) ->
     content_ok rule /\ 0 <= ttl <= CH_TEMPORARY_RULE_MAX_TTL) ->
  let out := insert_parsed grow exited now rules parsed pid mem in
  snd out <> Fault -> table_ok (n + 1) (fst out).
Proof.
  intros Hok Hn Ht Hpid Hp. unfold insert_parsed. destruct parsed as [[[next ttl]|]|e|]; cbn.
  - destruct (Hp next ttl eq_refl) as [Hc Httl]. destruct mem.
    + intros _. pose proof (insert_spec n grow exited now rules next ttl pid Hok Hn Ht Httl Hpid Hc) as Hi.
      destruct (temporary_insert_json _ _ _ _ _ _ _ _) as [rules' r]. apply Hi.
    + intros _. apply (skip_ok n exited now rules Hok Hn).
  - destruct mem; cbn; [congruence|]. intros _. apply (skip_ok n exited now rules Hok Hn).
  - intros _. apply table_later, Hok.
  - congruence.
Qed.

Lemma remove_ok n grow exited now rules request mem :
  table_ok n rules ->
  table_ok (n + 1) (fst (ch_temporary_rules_remove_json grow exited now rules request mem)).
Proof.
  intros Hok. unfold ch_temporary_rules_remove_json. pose proof (prune_ok n exited now rules Hok) as Hp.
  destruct (ch_json_parse (Some request)) as [v|e|]; [|apply table_later, Hok..].
  case_if; [apply table_later, Hok|].
  destruct (list_find _ _) as [[index rule]|]; [|exact Hp]. destruct mem; [|exact Hp]. cbn [fst negb].
  apply (table_sublist n (with_items rules (items rules))); [destruct rules; exact Hok|]. cbn [items with_items].
  etransitivity; [apply sublist_delete|apply prune_sublist].
Qed.

End RequestFacts.

(** ** The texts *)

Section TextFacts.
Context `{DoubleCompare}.

Definition source_value (conn target host : bytes) (ttl : Z) : ch_json_value :=
  CH_JSON_OBJECT [(str "conn_id", text_value conn); (str "source_target", text_value target);
                  (str "source_target_host", text_value host); (str "ttl_seconds", int_value ttl)].

Lemma source_request_spec grow conn target host ttl :
  let text := print_value (source_value (default [] conn) (default [] target) (default [] host) ttl) in
  let r := source_request grow conn target host ttl in
  (r = Done text \/ exists e, r = Raise e) /\
  (lenZ text + 1 <= SIZE_MAX -> (forall n, grow n = true) -> r = Done text).
Proof.
  cbv zeta. unfold source_request. apply (take_text_spec grow).
  eapply all_of_text; [collect|]. unfold source_value, text_value, int_value.
  cbn [print_value map number_is_integer number_integer]. same_text.
Qed.

(** The value that the report of a rule encodes. *)
Definition optional (present : bool) (key : bytes) (v : ch_json_value) : list (bytes * ch_json_value) :=
  if present then [(key, CH_JSON_ARRAY [v])] else [].

Definition rule_value (rule : temporary_rule) : ch_json_value :=
  CH_JSON_OBJECT
    [(str "id", text_value (t_id rule)); (str "profile", text_value (t_profile rule));
     (str "rule", CH_JSON_OBJECT
        ([(str "name", text_value (t_name rule)); (str "action", text_value (t_action rule))]
         ++ optional (negb (beq (t_process rule) [])) (str "processes") (text_value (t_process rule))
         ++ match match_key (t_match_kind rule) with
            | Some key => optional true key (text_value (t_match_value rule))
            | None => []
            end
         ++ optional (negb (beq (t_port rule) [])) (str "ports") (int_value (scan_value (strtol (t_port rule))))
         ++ optional (negb (beq (t_network rule) [])) (str "networks") (text_value (t_network rule))));
     (str "created_ts_ns", int_value (t_created_ns rule));
     (str "expires_ts_ns", int_value (t_expires_ns rule));
     (str "source_conn_id", text_value (t_source_conn_id rule));
     (str "source_target", text_value (t_source_target rule));
     (str "source_target_host", text_value (t_source_target_host rule));
     (str "until_quit_pid", int_value (t_until_quit_pid rule))].

Lemma port_text port :
  port_ok port -> port <> [] -> exists n, 1 <= n <= 65535 /\ port = dec n /\ scan_value (strtol port) = n.
Proof.
  intros [->|(n & Hn & ->)] Hp; [contradiction|]. exists n. split; [exact Hn|]. split; [reflexivity|].
  pose proof (strtol_dec n [] ltac:(unfold INT64_MIN, INT64_MAX; lia) eq_refl) as E.
  rewrite app_nil_r in E. rewrite E. reflexivity.
Qed.

Lemma rule_writes grow rule :
  port_ok (t_port rule) -> writes grow (temporary_append_json grow rule) (print_value (rule_value rule)).
Proof.
  intros Hport. unfold temporary_append_json, rule_value, text_value, int_value.
  destruct (beq (t_port rule) []) eqn:Ep; cbn [negb optional].
  - destruct (beq (t_process rule) []), (t_match_kind rule), (beq (t_network rule) []);
      cbn [negb optional match_key app]; (eapply all_of_text; [collect|]);
      cbn [print_value map number_is_integer number_integer]; same_text.
  - apply beq_false in Ep. destruct (port_text _ Hport Ep) as (n & _ & E & ->). rewrite E.
    destruct (beq (t_process rule) []), (t_match_kind rule), (beq (t_network rule) []);
      cbn [negb optional match_key app]; (eapply all_of_text; [collect|]);
      cbn [print_value map number_is_integer number_integer]; same_text.
Qed.

Lemma snapshot_writes grow rules profile :
  Forall rule_ok (items rules) ->
  writes grow (temporary_append_snapshot_locked grow rules profile)
    (print_value (CH_JSON_ARRAY (map rule_value (List.filter (reported profile) (items rules))))).
Proof.
  intros Hok. unfold temporary_append_snapshot_locked.
  set (l := List.filter (reported profile) (items rules)).
  assert (Hl : Forall (fun rule => writes grow (temporary_append_json grow rule) (print_value (rule_value rule))) l).
  { apply Forall_forall. intros rule Hin. apply List.filter_In in Hin as [Hin _].
    rewrite Forall_forall in Hok. destruct (Hok rule Hin) as [(_ & _ & _ & _ & _ & _ & Hp & _) _].
    apply rule_writes, Hp. }
  destruct (append_list_writes grow (temporary_append_json grow) _ l Hl) as [Hw _].
  eapply all_of_text; [apply Forall2_cons; [apply append_spec|]; apply Forall2_cons; [exact Hw|];
    apply Forall2_cons; [apply append_spec|apply Forall2_nil]|].
  cbn [print_value concat]. rewrite List.map_map, app_nil_r. reflexivity.
Qed.

Lemma rule_exact rule : rule_ok rule -> exact (rule_value rule).
Proof.
  intros ((P & N & A & V & Pr & Nt & Po & C & T & Th) & I & Cr & Ex & Pi).
  assert (Hport : beq (t_port rule) [] = false ->
            INT64_MIN <= scan_value (strtol (t_port rule)) <= INT64_MAX).
  { intros E. apply beq_false in E. destruct (port_text _ Po E) as (n & Hn & _ & ->).
    unfold INT64_MIN, INT64_MAX. lia. }
  unfold rule_value, text_value, int_value.
  destruct (beq (t_process rule) []), (t_match_kind rule), (beq (t_port rule) []), (beq (t_network rule) []);
    cbn [negb optional match_key app exact foldr map fst snd number_is_integer number_integer number_value];
    repeat apply conj;
    first [assumption|apply Cr|apply Ex|apply Pi|apply Hport; reflexivity|exact Logic.I|reflexivity
          |apply literal_ok; vm_compute; reflexivity].
Qed.

Lemma rule_height rule : height (rule_value rule) <= 4.
Proof.
  unfold rule_value. destruct (beq (t_process rule) []), (t_match_kind rule), (beq (t_port rule) []), (beq (t_network rule) []);
    vm_compute; discriminate.
Qed.

Lemma source_exact conn target host ttl :
  cstr_ok conn -> cstr_ok target -> cstr_ok host -> 0 <= ttl <= CH_TEMPORARY_RULE_MAX_TTL ->
  exact (source_value conn target host ttl).
Proof.
  intros Hc Ht Hh Httl. unfold CH_TEMPORARY_RULE_MAX_TTL, source_value, text_value, int_value in *.
  cbn [exact foldr map fst snd number_is_integer number_integer number_value].
  unfold INT64_MIN, INT64_MAX. split_and!; auto; try lia; apply literal_ok; vm_compute; reflexivity.
Qed.

Lemma source_parses conn target host ttl :
  cstr_ok conn -> cstr_ok target -> cstr_ok host -> 0 <= ttl <= CH_TEMPORARY_RULE_MAX_TTL ->
  ch_json_parse (Some (print_value (source_value conn target host ttl)))
  = Done (source_value conn target host ttl).
Proof. intros. apply parse_printed; [apply source_exact; assumption|vm_compute; discriminate]. Qed.

(** The time to live that [create_from_rule_json] settles on. *)
Definition effective_ttl (ttl pid : Z) : Z :=
  if ttl <=? 0 then if pid >? 0 then CH_TEMPORARY_RULE_MAX_TTL else CH_TEMPORARY_RULE_DEFAULT_TTL
  else ttl.

Lemma effective_ttl_range ttl pid :
  effective_ttl ttl pid <= CH_TEMPORARY_RULE_MAX_TTL -> 0 <= effective_ttl ttl pid <= CH_TEMPORARY_RULE_MAX_TTL.
Proof. unfold effective_ttl, CH_TEMPORARY_RULE_MAX_TTL, CH_TEMPORARY_RULE_DEFAULT_TTL. repeat case_if; lia. Qed.

Lemma source_text_ok conn target host ttl :
  cstr_ok conn -> cstr_ok target -> cstr_ok host -> 0 <= ttl <= CH_TEMPORARY_RULE_MAX_TTL ->
  parses_ok (print_value (source_value conn target host ttl)).
Proof.
  intros Hc Ht Hh Httl v E. rewrite source_parses in E by assumption. injection E as <-.
  pose proof (source_exact conn target host ttl Hc Ht Hh Httl) as Hx. revert Hx.
  cbn [exact strings_ok source_value text_value int_value foldr map fst snd]. tauto.
Qed.

Lemma rules_reachable_ok n rules : reachable n rules -> n < 2 ^ 64 -> table_ok n rules.
Proof.
  induction 1 as [wanted mem mutex rules Hw E|n rules exited now _ IH
    |n rules grow exited now json ttl pid conn target host mem _ IH Ht Hpid Hj Hc Htg Hh out Hf
    |n rules grow exited now traffic mutation request mem _ IH Ht Htr Hrq Hmu out Hf
    |n rules grow exited now request mem _ IH]; intros Hn.
  - eapply create_table; eauto.
  - apply prune_ok, IH. lia.
  - specialize (IH ltac:(lia)). subst out. revert Hf. unfold ch_temporary_rules_create_from_rule_json.
    fold (effective_ttl ttl pid). case_if; [intros _; apply table_later, IH|].
    pose proof (effective_ttl_range ttl pid ltac:(lia)) as Hr.
    destruct (source_request_spec grow conn target host (effective_ttl ttl pid)) as [[->|[e ->]] _];
      [|intros _; apply table_later, IH].
    apply insert_parsed_ok; auto. intros rule t E. eapply from_request_ok; [|..|exact E]; [|apply source_text_ok; auto|exact I].
    apply bytes_parse_ok, Hj.
  - specialize (IH ltac:(lia)). subst out. revert Hf. unfold ch_temporary_rules_create_from_connection_json.
    destruct mutation as [json|e|]; [|intros _; apply table_later, IH|cbn; congruence].
    apply insert_parsed_ok; auto; [unfold INT64_MIN, INT64_MAX; lia|].
    intros rule t E. eapply from_request_ok; [|..|exact E]; auto using bytes_parse_ok.
  - apply remove_ok, IH. lia.
Qed.

(** In every table that the public operations reach, there are at most
    [limit] rules (itself at most 1024), the rules stand newest first with
    falling sequence numbers in their identifiers, no two have the same
    identifier, and their strings and numbers are what JSON can carry.  A new
    rule never runs past the array: it goes in front of the rules that are
    still alive, and the oldest is dropped when there is no room. *)
Theorem temporary_table_sound n rules grow exited now next ttl pid :
  reachable n rules -> n + 1 < 2 ^ 64 -> time_ok now -> 0 <= ttl <= CH_TEMPORARY_RULE_MAX_TTL ->
  INT64_MIN <= pid <= INT64_MAX -> content_ok next ->
  let '(rules', r) := temporary_insert_json grow exited now rules next ttl pid true in
  table_ok n rules /\ NoDup (map t_id (items rules)) /\ r <> Fault /\
  items rules' = take (Z.to_nat (limit rules))
    (identify next (identifier_of (sequence rules + 1) now) now ttl pid
     :: filter (alive exited now) (items rules)) /\
  NoDup (map t_id (items rules')).
Proof.
  intros Hr Hn Ht Httl Hpid Hc. pose proof (rules_reachable_ok n rules Hr ltac:(lia)) as Hok.
  pose proof (insert_spec n grow exited now rules next ttl pid Hok Hn Ht Httl Hpid Hc) as Hi.
  destruct (temporary_insert_json _ _ _ _ _ _ _ _) as [rules' r]. destruct Hi as (Hf & Hok' & _ & Hi).
  split_and!; auto;
    [exact (falling_nodup _ _ (table_falling _ _ Hok))|exact (falling_nodup _ _ (table_falling _ _ Hok'))].
Qed.

(** The report of a reachable table is JSON that parses to exactly the list
    of the live rules of the profile (of all profiles when none is given),
    newest first, each with its identifier, content, times and source. *)
Theorem temporary_snapshot_parses n rules grow exited now profile :
  reachable n rules -> n + 1 < 2 ^ 64 -> (forall k, grow k = true) ->
  let live := List.filter (reported (default [] profile)) (filter (alive exited now) (items rules)) in
  lenZ (print_value (CH_JSON_ARRAY (map rule_value live))) + 1 <= SIZE_MAX ->
  exists text,
    snd (ch_temporary_rules_snapshot_json grow exited now rules profile) = Done text /\
    ch_json_parse (Some text) = Done (CH_JSON_ARRAY (map rule_value live)).
Proof.
  intros Hr Hn Hg live Hs. pose proof (prune_ok n exited now rules (rules_reachable_ok n rules Hr ltac:(lia))) as Hok.
  assert (El : live = List.filter (reported (default [] profile)) (items (temporary_prune_locked exited now rules))).
  { unfold live. f_equal. symmetry. apply list_filter_iff, expired_alive. }
  pose proof (snapshot_writes grow _ (default [] profile) (table_rules _ _ Hok)) as Hw. rewrite <- El in Hw.
  exists (print_value (CH_JSON_ARRAY (map rule_value live))). split.
  - unfold ch_temporary_rules_snapshot_json. cbn [snd]. apply (take_text_spec grow); assumption.
  - assert (Hlive : Forall rule_ok live).
    { rewrite El. apply Forall_forall. intros rule Hin. apply List.filter_In in Hin as [Hin _].
      pose proof (table_rules _ _ Hok) as Ha. rewrite Forall_forall in Ha. auto. }
    apply parse_printed.
    + cbn [exact]. clear -Hlive. induction Hlive as [|rule l Hr _ IH]; [exact I|]. split; [apply rule_exact, Hr|exact IH].
    + cbn [height]. clear. induction live as [|rule l IH]; cbn [map foldr]; [lia|].
      pose proof (rule_height rule). lia.
Qed.

(** The error of a rule text that does not parse is lost: the request that
    [create_from_rule_json] builds is parsed next and clears it, so that the
    call goes on with an empty rule and uses strings that are null. *)
Theorem unparsable_rule_is_inserted grow exited now rules json ttl pid conn target host e :
  ch_json_parse (Some json) = Raise e -> effective_ttl ttl pid <= CH_TEMPORARY_RULE_MAX_TTL ->
  cstr_ok (default [] conn) -> cstr_ok (default [] target) -> cstr_ok (default [] host) ->
  (forall k, grow k = true) ->
  lenZ (print_value (source_value (default [] conn) (default [] target) (default [] host)
                       (effective_ttl ttl pid))) + 1 <= SIZE_MAX ->
  snd (ch_temporary_rules_create_from_rule_json grow exited now rules json ttl pid conn target host true) = Fault.
Proof.
  intros Ee Httl Hc Ht Hh Hg Hs. unfold ch_temporary_rules_create_from_rule_json.
  fold (effective_ttl ttl pid). replace (effective_ttl ttl pid >? CH_TEMPORARY_RULE_MAX_TTL) with false by lia.
  pose proof (effective_ttl_range ttl pid Httl) as Hr.
  destruct (source_request_spec grow conn target host (effective_ttl ttl pid)) as [_ ->]; [|assumption..].
  unfold temporary_rule_from_request. rewrite Ee, source_parses by assumption. reflexivity.
Qed.

End TextFacts.

(** ** Witnesses *)

(** Comparison of the integral doubles of [plain_double]. *)
#[export, refine] Instance plain_compare : DoubleCompare := {|
  double_ltb := (Z.ltb : double -> double -> bool);
  double_trunc := (Some : double -> option Z)
|}.
Proof.
  - reflexivity.
  - cbn. lia.
  - reflexivity.
  - cbn. intros a m n _ Ha [= ->]. lia.
  - cbn. intros a m n _ Ha [= ->]. lia.
Defined.

Definition w_mutation (name : String.string) : bytes :=
  print_value (CH_JSON_OBJECT
    [(str "profile", text_value (str "home"));
     (str "rule", CH_JSON_OBJECT
        [(str "name", text_value (str name)); (str "action", text_value (str "chain:tor"));
         (str "domain_suffixes", CH_JSON_ARRAY [text_value (str "example.org")]);
         (str "ports", CH_JSON_ARRAY [int_value 443])])]).

Definition w_none (pid : Z) : bool := false.

Definition w_create (name : String.string) (now : Z) (rules : ch_temporary_rules) :=
  ch_temporary_rules_create_from_rule_json (fun _ => true) w_none now rules (w_mutation name) 60 0
    (Some (str "c1")) None None true.

Definition w_empty : ch_temporary_rules := mk_rules [] 1 0.
Definition w_one : ch_temporary_rules := fst (w_create "first" 1000 w_empty).

Lemma cstr_dec s : bytes_okb s && negb (existsb (Z.eqb 0) s) = true -> cstr_ok s.
Proof.
  intros Hs. apply andb_true_iff in Hs as [Hb Hz]. apply bytes_okb_ok in Hb. apply Forall_forall.
  intros c Hin. unfold bytes_ok in Hb. rewrite Forall_forall in Hb. specialize (Hb c Hin).
  assert (c <> 0); [|unfold byte_ok, cchar_ok in *; lia].
  intros ->. apply negb_true_iff in Hz. rewrite (proj2 (existsb_exists _ _)) in Hz; [discriminate|].
  exists 0. auto.
Qed.

Lemma w_reachable : reachable 1 w_one.
Proof.
  apply (reach_rule 0 w_empty (fun _ => true) w_none 1000 (w_mutation "first") 60 0 (Some (str "c1")) None None true);
    try (apply cstr_dec; vm_compute; reflexivity); try (unfold time_ok, INT64_MIN, INT64_MAX; lia).
  - apply (reach_create 1 true true); [lia|reflexivity].
  - apply bytes_okb_ok. vm_compute. reflexivity.
  - vm_compute. discriminate.
Qed.

Definition w_context : Rules.ch_rule_match_context :=
  Rules.mk_context (Some (str "tcp")) (Some (str "WWW.example.org:443")) (Some []) None None.

Lemma w_one_items : map t_action (items w_one) = [str "chain:" ++ str "tor"].
Proof. vm_compute. reflexivity. Qed.

End Temporary.
