(* ===== verification/Config.v ===== *)
(** * The configuration: [native/src/config.c]

    A configuration file is parsed by the TOML library into a tree, and
    [validate_config] decides whether the daemon accepts it.  This file holds
    the tree with the accessors of the library, durations, the validation of
    the whole document and the loading of it.

    The tree is the library's: a table has key-value pairs, arrays and tables,
    each looked up by the first entry with the key.  A scalar is described by
    what the library's readers make of its text ([toml_rtos], [toml_rtob],
    [toml_rtoi], [toml_rtod]).  Allocation is taken to succeed. *)

From S2P Require Import Prelude CLib Inet.

(** The readings of [long double]: [strtold] gives the value, the rest of the
    text and whether it set [errno]; [ld_trunc] is the conversion to [int64_t],
    undefined out of range; [ld_finite] is [isfinite((double)x)].  The laws
    speak of integers that every [long double] represents. *)
Class LongDouble : Type := {
  ldouble : Type;
  strtold : bytes -> ldouble * bytes * bool;
  ld_of_Z : Z -> ldouble;
  ld_add : ldouble -> ldouble -> ldouble;
  ld_mul : ldouble -> ldouble -> ldouble;
  ld_neg : ldouble -> ldouble;
  ld_ltb : ldouble -> ldouble -> bool;
  ld_finite : ldouble -> bool;
  ld_trunc : ldouble -> option Z;
  strtold_rest s x rest e : strtold s = (x, rest, e) -> exists read, s = read ++ rest;
  strtold_int n c s : 0 <= n <= 2 ^ 53 -> c ∈ str "numsh" ->
    strtold (dec n ++ c :: s) = (ld_of_Z n, c :: s, false);
  ld_add_int m n : 0 <= m -> 0 <= n -> m + n <= 2 ^ 53 ->
    ld_add (ld_of_Z m) (ld_of_Z n) = ld_of_Z (m + n);
  ld_mul_int m n : 0 <= m -> 0 <= n -> m * n <= 2 ^ 53 ->
    ld_mul (ld_of_Z m) (ld_of_Z n) = ld_of_Z (m * n);
  ld_neg_int n : 0 <= n <= 2 ^ 53 -> ld_neg (ld_of_Z n) = ld_of_Z (- n);
  ld_ltb_int m n : 0 <= m <= 2 ^ 53 -> 0 <= n <= 2 ^ 53 -> ld_ltb (ld_of_Z m) (ld_of_Z n) = (m <? n);
  ld_ltb_max n : 0 <= n <= 2 ^ 53 -> ld_ltb (ld_of_Z INT64_MAX) (ld_of_Z n) = false;
  ld_finite_int n : 0 <= n <= 2 ^ 53 -> ld_finite (ld_of_Z n) = true;
  ld_trunc_int n : - 2 ^ 53 <= n <= 2 ^ 53 -> ld_trunc (ld_of_Z n) = Some n
}.

Module Config.

(** ** The tree and the accessors of the library *)

Record toml_raw (D : Type) : Type := mk_raw {
  toml_rtos : option bytes;
  toml_rtob : option bool;
  toml_rtoi : option Z;
  toml_rtod : option D
}.
Arguments mk_raw {D} _ _ _ _.
Arguments toml_rtos {D} _.
Arguments toml_rtob {D} _.
Arguments toml_rtoi {D} _.
Arguments toml_rtod {D} _.

#[warnings="-register-all"]
Inductive toml_table (D : Type) : Type :=
| mk_table (kval : list (bytes * toml_raw D)) (arr : list (bytes * toml_array D))
    (tab : list (bytes * toml_table D))
with toml_array (D : Type) : Type :=
| mk_array (item : list (toml_item D))
with toml_item (D : Type) : Type :=
| item_val (val : toml_raw D)
| item_arr (arr : toml_array D)
| item_tab (tab : toml_table D).
Arguments mk_table {D} _ _ _.
Arguments mk_array {D} _.
Arguments item_val {D} _.
Arguments item_arr {D} _.
Arguments item_tab {D} _.

(** The first entry with the key. *)
Fixpoint entry_in {A} (entries : list (bytes * A)) (key : bytes) : option A :=
  match entries with
  | [] => None
  | (k, v) :: entries' => if beq key k then Some v else entry_in entries' key
  end.

Section Validation.
Context {D : Type}.
Implicit Types (t table : toml_table D) (a array : option (toml_array D)) (i item : toml_item D).

Definition kvals t : list (bytes * toml_raw D) := match t with mk_table kval _ _ => kval end.
Definition arrs t : list (bytes * toml_array D) := match t with mk_table _ arr _ => arr end.
Definition tabs t : list (bytes * toml_table D) := match t with mk_table _ _ tab => tab end.

Definition toml_raw_in t (key : bytes) : option (toml_raw D) := entry_in (kvals t) key.
Definition toml_array_in t (key : bytes) : option (toml_array D) := entry_in (arrs t) key.
Definition toml_table_in t (key : bytes) : option (toml_table D) := entry_in (tabs t) key.
Definition toml_string_in t key : option bytes := raw ← toml_raw_in t key; toml_rtos raw.
Definition toml_bool_in t key : option bool := raw ← toml_raw_in t key; toml_rtob raw.
Definition toml_int_in t key : option Z := raw ← toml_raw_in t key; toml_rtoi raw.
Definition toml_double_in t key : option D := raw ← toml_raw_in t key; toml_rtod raw.

(** [toml_key_in] for index 0, 1, ... until it is NULL. *)
Definition toml_keys t : list bytes := map fst (kvals t) ++ map fst (arrs t) ++ map fst (tabs t).
Definition toml_key_exists t (key : bytes) : bool := existsb (beq key) (toml_keys t).

(** The elements of an array; none when the pointer is NULL. *)
Definition items a : list (toml_item D) := match a with Some (mk_array l) => l | None => [] end.

Definition item_raw i : option (toml_raw D) := match i with item_val raw => Some raw | _ => None end.
Definition table_at i : option (toml_table D) := match i with item_tab t => Some t | _ => None end.
Definition array_at i : option (toml_array D) := match i with item_arr a => Some a | _ => None end.
Definition string_at i : option bytes := raw ← item_raw i; toml_rtos raw.
Definition bool_at i : option bool := raw ← item_raw i; toml_rtob raw.
Definition int_at i : option Z := raw ← item_raw i; toml_rtoi raw.

(** ** Strings *)

Definition ends_ok (value : bytes) : bool :=
  negb (isspace (byte_at value 0)) && negb (isspace (byte_at value (lenZ value - 1))).

Definition string_is_trimmed_nonempty (value : option bytes) : bool :=
  match value with
  | Some value => negb (beq value []) && ends_ok value
  | None => false
  end.

Definition string_is_trimmed (value : option bytes) : bool :=
  match value with
  | Some value => beq value [] || ends_ok value
  | None => true
  end.

(** [value == NULL || value[0] == '\0'] *)
Definition empty (value : option bytes) : bool := beq (default [] value) [].

Definition table_string t (key : bytes) : option bytes := toml_string_in t key.
Definition table_bool_default t (key : bytes) (fallback : bool) : bool :=
  default fallback (toml_bool_in t key).
Definition table_int_default t (key : bytes) (fallback : Z) : Z := default fallback (toml_int_in t key).

(** The name of an element that should be a table. *)
Definition item_name i : option bytes := table ← table_at i; table_string table (str "name").

Definition validation_error {A} (message : bytes) : result A :=
  fail CH_ERROR_INVALID_ARGUMENT (str "validate config: " ++ message).

(** A return of [CH_ERROR_INVALID_ARGUMENT] that leaves [error] as it was,
    cleared. *)
Definition silent_error {A} : result A := Raise ch_error_clear.

(** [for (index = 0; ...)]: the body sees the elements before its own. *)
Fixpoint check_each {A} (body : list A -> A -> result unit) (prior rest : list A) : result unit :=
  match rest with
  | [] => Done tt
  | x :: rest' => body prior x;; check_each body (prior ++ [x]) rest'
  end.

Definition when (invalid : bool) (error : result unit) : result unit :=
  if invalid then error else Done tt.

Section Formats.
Context `{Inet}.

Definition port_text_ok (low : Z) (text : bytes) : bool :=
  let scan := strtol text in
  negb (beq text []) && negb (scan_range scan) && scan_any scan && beq (scan_rest scan) []
  && (low <=? scan_value scan) && (scan_value scan <=? 65535).

Definition valid_listen_address (address : option bytes) (allow_zero_port : bool) : bool :=
  match address with
  | None => false
  | Some text =>
      if negb (string_is_trimmed_nonempty address) then false
      else
        let separator :=
          if byte_at text 0 =? 91 then
            match split_first 93 text with
            | Some (before, 58 :: port) =>
                if lenZ before =? 1 then None else Some (before ++ [93], port)
            | _ => None
            end
          else
            match split_last 58 text with
            | Some (before, port) =>
                if beq before [] || bool_decide (58 ∈ before) then None else Some (before, port)
            | None => None
            end in
        match separator with
        | None => false
        | Some (host, port) =>
            negb (existsb isspace host) && port_text_ok (if allow_zero_port then 0 else 1) port
        end
  end.

Definition INET6_ADDRSTRLEN : Z := 46.

Definition valid_cidr (text : bytes) : bool :=
  if negb (string_is_trimmed_nonempty (Some text)) then false
  else
    match split_last 47 text with
    | None => false
    | Some (address, prefix) =>
        if beq address [] || beq prefix [] then false
        else if lenZ address >=? INET6_ADDRSTRLEN then false
        else
          let v6 := bool_decide (58 ∈ address) in
          let max_prefix := if v6 then 128 else 32 in
          if negb (bool_decide (is_Some (if v6 then pton6 address else pton4 address))) then false
          else
            let scan := strtol prefix in
            negb (scan_range scan) && scan_any scan && beq (scan_rest scan) []
            && (0 <=? scan_value scan) && (scan_value scan <=? max_prefix)
    end.

Definition valid_ip (text : bytes) : bool :=
  if negb (string_is_trimmed_nonempty (Some text)) then false
  else bool_decide (is_Some (pton4 text)) || bool_decide (is_Some (pton6 text)).

(** The text up to the first of the three characters that end an authority. *)
Fixpoint authority (text : bytes) : bytes :=
  match text with
  | [] => []
  | c :: text' => if bool_decide (c ∈ str "/?#") then [] else c :: authority text'
  end.

Definition valid_http_url (text : option bytes) (https_only : bool) : bool :=
  match text with
  | None => false
  | Some url =>
      if negb (string_is_trimmed_nonempty text) then false
      else
        let host :=
          if is_prefix (str "https://") url then Some (drop 8 url)
          else if https_only then None
          else if is_prefix (str "http://") url then Some (drop 7 url)
          else None in
        match host with
        | None => false
        | Some host => negb (beq (authority host) []) && negb (existsb isspace (authority host))
        end
  end.

(** ** Durations *)

Section Durations.
Context `{LongDouble}.

(** The unit at the cursor, in nanoseconds, and what follows it. *)
Definition duration_unit (cursor : bytes) : option (Z * bytes) :=
  if is_prefix (str "ns") cursor then Some (1, drop 2 cursor)
  else if is_prefix (str "us") cursor then Some (1000, drop 2 cursor)
  else if is_prefix (str "ms") cursor then Some (1000000, drop 2 cursor)
  else if is_prefix (str "s") cursor then Some (1000000000, drop 1 cursor)
  else if is_prefix (str "m") cursor then Some (60000000000, drop 1 cursor)
  else if is_prefix (str "h") cursor then Some (3600000000000, drop 1 cursor)
  else None.

(** The loop of [ch_config_parse_duration_ns]; each round reads a number and a
    unit, so that the length of the text bounds the rounds. *)
Fixpoint duration_loop (fuel : nat) (text cursor : bytes) (total : ldouble) (consumed : bool)
    : result (ldouble * bool) :=
  if beq cursor [] then Done (total, consumed)
  else
    match fuel with
    | O => Fault
    | S fuel' =>
        let '(number, number_end, errno) := strtold cursor in
        if errno || beq number_end cursor || ld_ltb number (ld_of_Z 0) || negb (ld_finite number)
        then fail CH_ERROR_PARSE (str "invalid duration " ++ text)
        else
          match duration_unit number_end with
          | None => fail CH_ERROR_PARSE (str "invalid duration unit in " ++ text)
          | Some (multiplier, cursor) =>
              let total := ld_add total (ld_mul number (ld_of_Z multiplier)) in
              if ld_ltb (ld_of_Z INT64_MAX) total
              then fail CH_ERROR_PARSE (str "duration overflows int64: " ++ text)
              else duration_loop fuel' text cursor total true
          end
    end.

Definition ch_config_parse_duration_ns (text : option bytes) : result Z :=
  match text with
  | None | Some [] => fail CH_ERROR_PARSE (str "duration is required")
  | Some ((c :: rest) as text) =>
      let negative := c =? 45 in
      let cursor := if (c =? 43) || (c =? 45) then rest else text in
      if beq cursor (str "0") then Done 0
      else
        '(total, consumed) ← duration_loop (length text) text cursor (ld_of_Z 0) false;
        if negb consumed then fail CH_ERROR_PARSE (str "invalid duration " ++ text)
        else
          match ld_trunc (if negative then ld_neg total else total) with
          | Some n => Done n
          | None => Fault
          end
  end.

(** ** Validation

    A validator returns [Done tt], or [Raise] with what is in [error] when it
    returns [CH_ERROR_INVALID_ARGUMENT]. *)

Definition validate_duration_field t (key label : bytes) (nonnegative : bool) : result unit :=
  match toml_string_in t key with
  | None => Done tt
  | Some text =>
      let invalid := fail CH_ERROR_INVALID_ARGUMENT
        (str "validate config: " ++ label ++ str " must be a valid"
         ++ (if nonnegative then str " non-negative" else []) ++ str " duration") in
      match ch_config_parse_duration_ns (Some text) with
      | Done n => if nonnegative && (n <? 0) then invalid else Done tt
      | Raise _ => invalid
      | Fault => Fault
      end
  end.

Definition array_contains_string a (needle : option bytes) : bool :=
  match needle with
  | Some needle =>
      existsb (fun i => match string_at i with Some s => beq s needle | None => false end) (items a)
  | None => false
  end.

Definition validate_string_array a (cidr ip : bool) (field : bytes) : result unit :=
  check_each
    (fun _ i =>
       let valid := match string_at i with
         | Some s =>
             string_is_trimmed_nonempty (Some s) && (negb cidr || valid_cidr s)
             && (negb ip || valid_ip s)
         | None => false
         end in
       when (negb valid) (fail CH_ERROR_INVALID_ARGUMENT
         (str "validate config: " ++ field ++ str " contains an invalid value")))
    [] (items a).

Definition upstream_ok (protocol url address resolver transport : option bytes) : option bytes :=
  if negb (string_is_trimmed_nonempty protocol) then Some (str "dns upstream protocol is required")
  else
    let protocol := default [] protocol in
    if beq protocol (str "doh") then
      if negb (valid_http_url url true) || negb (empty address)
      then Some (str "doh upstream requires a valid https url") else None
    else if beq protocol (str "dot") || beq protocol (str "doq") then
      if negb (valid_listen_address address false) || negb (empty url)
      then Some (str "dot/doq upstream requires a valid address") else None
    else if beq protocol (str "controld") then
      if negb (string_is_trimmed_nonempty resolver)
         || existsb (fun c => bool_decide (c ∈ [32; 9; 13; 10; 47])) (default [] resolver)
         || (negb (empty transport)
             && negb (bool_decide (default [] transport ∈ [str "doh"; str "dot"; str "doq"])))
         || negb (empty url) || negb (empty address)
      then Some (str "invalid controld upstream") else None
    else Some (str "dns protocol must be doh, dot, doq, or controld").

Definition validate_upstream i : result unit :=
  match table_at i with
  | None => validation_error (str "dns upstream must be a table")
  | Some upstream =>
      let string key := table_string upstream (str key) in
      match upstream_ok (string "protocol"%string) (string "url"%string) (string "address"%string)
              (string "resolver"%string) (string "transport"%string) with
      | Some message => validation_error message
      | None =>
          validate_string_array (toml_array_in upstream (str "bootstrap_ips")) false true
            (str "dns.bootstrap_ips")
      end
  end.

Definition validate_dns profile : result unit :=
  match toml_table_in profile (str "dns") with
  | None => Done tt
  | Some dns =>
      validate_duration_field dns (str "timeout") (str "dns.timeout") true;;
      if negb (table_bool_default dns (str "enabled") false) then Done tt
      else
        match items (toml_array_in dns (str "upstream")) with
        | [] => validation_error (str "dns requires at least one upstream when enabled")
        | upstreams => check_each (fun _ i => validate_upstream i) [] upstreams
        end
  end.

(** [item_name i] equals the text. *)
Definition named (name : bytes) i : bool :=
  match item_name i with Some candidate => beq candidate name | None => false end.

(** The chain is not named, or one of the profile has its name. *)
Definition chain_found (chain : option bytes) (chains : list (toml_item D)) : bool :=
  empty chain || existsb (named (default [] chain)) chains.

Definition validate_listener listen (chains : list (toml_item D))
    (address_key chain_key max_key timeout_key : bytes) : result unit :=
  let address := table_string listen address_key in
  let chain := table_string listen chain_key in
  (if empty address then Done tt
   else
     when (negb (valid_listen_address address true))
       (validation_error (str "listener address must be host:port"));;
     when (bool_decide (chains = []) || negb (chain_found chain chains))
       (validation_error (str "listener references an unknown chain")));;
  when (table_int_default listen max_key 0 <? 0)
    (validation_error (str "listener maximum connections must be non-negative"));;
  validate_duration_field listen timeout_key timeout_key true.

Definition validate_tun listen (chains : list (toml_item D)) : result unit :=
  match toml_table_in listen (str "tun") with
  | Some tun =>
      if table_bool_default tun (str "enabled") false then
        when (table_int_default tun (str "mtu") 0 <? 0)
          (validation_error (str "listen.tun.mtu must be non-negative"));;
        when (bool_decide (chains = []) || negb (chain_found (table_string tun (str "chain")) chains))
          (validation_error (str "listen.tun.chain references an unknown chain"));;
        validate_string_array (toml_array_in tun (str "addresses")) true false (str "listen.tun.addresses");;
        validate_string_array (toml_array_in tun (str "routes")) true false (str "listen.tun.routes");;
        validate_string_array (toml_array_in tun (str "exclude_cidrs")) true false
          (str "listen.tun.exclude_cidrs")
      else Done tt
  | None => Done tt
  end.

Definition validate_listen profile (chains : list (toml_item D)) : result unit :=
  match toml_table_in profile (str "listen") with
  | None => Done tt
  | Some listen =>
      validate_listener listen chains (str "socks5") (str "socks5_chain")
        (str "socks5_max_connections") (str "socks5_handshake_timeout");;
      validate_listener listen chains (str "http") (str "http_chain")
        (str "http_max_connections") (str "http_handshake_timeout");;
      validate_tun listen chains
  end.

Definition named_table_exists (tables : list (toml_item D)) (name : bytes) : bool :=
  existsb (named name) tables.

(** [label] names the kind of table in the messages. *)
Definition validate_named_table (label : bytes) (prior : list (toml_item D)) i : result unit :=
  let name := item_name i in
  when (negb (string_is_trimmed_nonempty name))
    (fail CH_ERROR_INVALID_ARGUMENT (str "validate config: " ++ label ++ str " name is required"));;
  when (existsb (named (default [] name)) prior)
    (fail CH_ERROR_INVALID_ARGUMENT (str "validate config: duplicate " ++ label ++ str " name")).

Definition string_equals_one_of (value : option bytes) (allowed : list bytes) (empty_allowed : bool)
    : bool :=
  if empty value then empty_allowed else bool_decide (default [] value ∈ allowed).

Definition policy_types : list bytes :=
  [str "select"; str "url-test"; str "fallback"; str "load-balance"; str "smart"].

(** A member of a policy group: [prior] are the members before it. *)
Definition member_valid (chains prior : list (toml_item D)) i : bool :=
  match string_at i with
  | Some s =>
      string_is_trimmed_nonempty (Some s) && named_table_exists chains s
      && negb (existsb (fun j => match string_at j with Some o => beq o s | None => false end) prior)
  | None => false
  end.

Definition validate_policy_group (chains prior : list (toml_item D)) i : result unit :=
  match table_at i with
  | None => silent_error
  | Some group =>
      validate_named_table (str "policy group") prior i;;
      when (negb (string_equals_one_of (table_string group (str "type")) policy_types false))
        (validation_error
           (str "policy group type must be select, url-test, fallback, load-balance, or smart"));;
      let members := toml_array_in group (str "chains") in
      when (bool_decide (items members = []))
        (validation_error (str "policy group requires at least one chain"));;
      check_each (fun prior j => when (negb (member_valid chains prior j))
          (validation_error (str "policy group contains an invalid or duplicate chain")))
        [] (items members);;
      let selected := table_string group (str "selected") in
      when (negb (empty selected)
            && (negb (string_is_trimmed_nonempty selected)
                || negb (array_contains_string members selected)))
        (validation_error (str "policy group selected must be one of chains"));;
      let test_url := table_string group (str "test_url") in
      when (negb (empty test_url) && negb (valid_http_url test_url false))
        (validation_error (str "policy group test_url must be a valid http or https URL"));;
      validate_duration_field group (str "interval") (str "policy_group.interval") true;;
      validate_duration_field group (str "timeout") (str "policy_group.timeout") true
  end.

Definition validate_policy_groups profile (chains : list (toml_item D)) : result unit :=
  check_each (validate_policy_group chains) [] (items (toml_array_in profile (str "policy_group"))).

Definition feed_formats : list bytes := [str "auto"; str "plain"; str "hosts"; str "adblock"].

Definition validate_rule_set (prior : list (toml_item D)) i : result unit :=
  match table_at i with
  | None => silent_error
  | Some set =>
      validate_named_table (str "rule set") prior i;;
      let domains := toml_array_in set (str "domains") in
      let suffixes := toml_array_in set (str "domain_suffixes") in
      let keywords := toml_array_in set (str "domain_keywords") in
      let cidrs := toml_array_in set (str "cidrs") in
      validate_string_array domains false false (str "domains");;
      validate_string_array suffixes false false (str "domain_suffixes");;
      validate_string_array keywords false false (str "domain_keywords");;
      validate_string_array cidrs true false (str "rule_set.cidrs");;
      let inline_count := lenZ (items domains) + lenZ (items suffixes) + lenZ (items keywords)
                          + lenZ (items cidrs) in
      let url := table_string set (str "url") in
      when (negb (empty url) && negb (valid_http_url url false))
        (validation_error (str "rule set url must be a valid http or https URL"));;
      when (negb (string_equals_one_of (table_string set (str "format")) feed_formats true))
        (validation_error (str "rule set format must be auto, plain, hosts, or adblock"));;
      when ((inline_count =? 0) && empty url)
        (validation_error (str "rule set requires an inline matcher or url"))
  end.

Definition validate_rule_sets profile : result unit :=
  check_each validate_rule_set [] (items (toml_array_in profile (str "rule_set"))).

Definition validate_network_array a (label : bytes) : result unit :=
  check_each
    (fun _ i =>
       let valid := match string_at i with
         | Some s => string_is_trimmed_nonempty (Some s)
                     && (strcaseeq s (str "tcp") || strcaseeq s (str "udp"))
         | None => false
         end in
       when (negb valid) (fail CH_ERROR_INVALID_ARGUMENT
         (str "validate config: " ++ label ++ str " must contain only tcp or udp")))
    [] (items a).

(** [strncasecmp(text, prefix, strlen(prefix)) == 0] *)
Definition case_prefix (prefix text : bytes) : bool :=
  is_prefix (map tolower prefix) (map tolower text).

Definition action_valid (chains groups : list (toml_item D)) (action : bytes) : bool :=
  strcaseeq action (str "direct") || strcaseeq action (str "block") || strcaseeq action (str "reject")
  || match split_first 58 action with
     | Some (_, target) =>
         negb (beq target [])
         && (if case_prefix (str "chain:") action then named_table_exists chains target
             else if case_prefix (str "group:") action then named_table_exists groups target
             else false)
     | None => false
     end.

Definition port_valid i : bool :=
  match int_at i with Some port => (0 <=? port) && (port <=? 65535) | None => false end.

Definition rule_string_fields : list bytes :=
  [str "domains"; str "domain_suffixes"; str "domain_keywords"; str "networks"; str "rule_sets";
   str "processes"].

Definition inline_fields : list bytes :=
  [str "domains"; str "domain_suffixes"; str "domain_keywords"; str "cidrs"].

Definition validate_rule_set_references rule (sets : list (toml_item D)) : result unit :=
  let rule_sets := items (toml_array_in rule (str "rule_sets")) in
  if bool_decide (rule_sets = []) then Done tt
  else
    when (existsb (fun field => bool_decide (is_Some (toml_array_in rule field))) inline_fields)
      (validation_error (str "rule_sets cannot be combined with inline matchers"));;
    check_each
      (fun _ i =>
         let valid := match string_at i with Some s => named_table_exists sets s | None => false end in
         when (negb valid) (validation_error (str "rule references an unknown rule set")))
      [] rule_sets.

Definition validate_rule (chains groups sets : list (toml_item D)) i : result unit :=
  match table_at i with
  | None => validation_error (str "rule must be a table")
  | Some rule =>
      when (negb (string_is_trimmed_nonempty (table_string rule (str "name"))))
        (validation_error (str "rule name is required"));;
      let action := table_string rule (str "action") in
      when (negb (string_is_trimmed_nonempty action)) (validation_error (str "rule action is required"));;
      when (negb (action_valid chains groups (default [] action)))
        (validation_error
           (str "rule action must be direct, block, reject, chain:<name>, or group:<name>"));;
      check_each (fun _ field => validate_string_array (toml_array_in rule field) false false field)
        [] rule_string_fields;;
      validate_rule_set_references rule sets;;
      validate_network_array (toml_array_in rule (str "networks")) (str "rule.networks");;
      validate_string_array (toml_array_in rule (str "cidrs")) true false (str "rule.cidrs");;
      validate_string_array (toml_array_in rule (str "source_cidrs")) true false (str "rule.source_cidrs");;
      check_each (fun _ j => when (negb (port_valid j)) (validation_error (str "rule port is out of range")))
        [] (items (toml_array_in rule (str "ports")))
  end.

Definition validate_rules profile (chains : list (toml_item D)) : result unit :=
  check_each
    (fun _ i => validate_rule chains (items (toml_array_in profile (str "policy_group")))
                  (items (toml_array_in profile (str "rule_set"))) i)
    [] (items (toml_array_in profile (str "rule"))).

Definition validate_rule_subscription (prior : list (toml_item D)) i : result unit :=
  match table_at i with
  | None => silent_error
  | Some subscription =>
      validate_named_table (str "rule subscription") prior i;;
      when (negb (valid_http_url (table_string subscription (str "url")) false))
        (validation_error (str "rule subscription url must be a valid http or https URL"));;
      when (negb (string_equals_one_of (table_string subscription (str "format")) feed_formats true))
        (validation_error (str "rule subscription has an invalid format"));;
      when (negb (string_equals_one_of (table_string subscription (str "action"))
                    [str "block"; str "reject"] true))
        (validation_error (str "rule subscription action must be block or reject"));;
      validate_network_array (toml_array_in subscription (str "networks"))
        (str "rule_subscription.networks")
  end.

Definition validate_rule_subscriptions profile : result unit :=
  check_each validate_rule_subscription [] (items (toml_array_in profile (str "rule_subscription"))).

(** One chain of [validate_profile]. *)
Definition validate_chain (prior : list (toml_item D)) i : result unit :=
  match table_at i with
  | None => validation_error (str "chain must be a table")
  | Some chain =>
      let name := table_string chain (str "name") in
      when (negb (string_is_trimmed_nonempty name)) (validation_error (str "chain name is required"));;
      when (existsb (named (default [] name)) prior) (validation_error (str "duplicate chain name"));;
      let servers := items (toml_array_in chain (str "server")) in
      when (bool_decide (servers = [])) (validation_error (str "chain requires at least one server"));;
      check_each
        (fun _ j =>
           let protocol := server ← table_at j; table_string server (str "protocol") in
           when (negb (string_is_trimmed_nonempty protocol))
             (validation_error (str "server protocol is required")))
        [] servers
  end.

Definition validate_profile profile : result unit :=
  let chains := items (toml_array_in profile (str "chain")) in
  check_each validate_chain [] chains;;
  validate_policy_groups profile chains;;
  validate_rule_sets profile;;
  validate_rules profile chains;;
  validate_rule_subscriptions profile;;
  validate_listen profile chains;;
  validate_dns profile;;
  (let listen := api ← toml_table_in profile (str "api"); table_string api (str "listen") in
   when (negb (empty listen) && negb (valid_listen_address listen true))
     (validation_error (str "api.listen must be host:port")));;
  match toml_table_in profile (str "conditioner") with
  | Some conditioner =>
      validate_duration_field conditioner (str "latency") (str "conditioner.latency") false;;
      validate_duration_field conditioner (str "jitter") (str "conditioner.jitter") false
  | None => Done tt
  end.

(** *** Developer settings *)

Definition isupper (c : Z) : bool := (65 <=? c) && (c <=? 90).
Definition islower (c : Z) : bool := (97 <=? c) && (c <=? 122).
Definition isalpha (c : Z) : bool := isupper c || islower c.

Definition string_has_case_and_trim (value : bytes) (uppercase : bool) : bool :=
  string_is_trimmed_nonempty (Some value)
  && forallb (fun c => negb (isalpha c && (if uppercase then negb (isupper c) else negb (islower c))))
       value.

Definition validate_case_array a (uppercase : bool) (label : bytes) : result unit :=
  check_each
    (fun _ i =>
       let valid := match string_at i with
         | Some s => string_has_case_and_trim s uppercase
         | None => false
         end in
       when (negb valid) (fail CH_ERROR_INVALID_ARGUMENT
         (str "validate config: " ++ label ++ str " contains an invalid value")))
    [] (items a).

Definition validate_developer_match (match_table : option (toml_table D)) : result unit :=
  match match_table with
  | None => Done tt
  | Some t =>
      check_each
        (fun _ field => when (negb (string_is_trimmed (table_string t field)))
           (validation_error (str "developer match values must not have surrounding whitespace")))
        [] [str "host"; str "path_prefix"; str "url_contains"];;
      validate_case_array (toml_array_in t (str "methods")) true (str "developer.match.methods")
  end.

Definition validate_developer_rule_common t : result unit :=
  when (negb (string_is_trimmed_nonempty (table_string t (str "id"))))
    (validation_error (str "developer rule id is required"));;
  when (negb (string_is_trimmed (table_string t (str "name"))))
    (validation_error (str "developer rule name must not have surrounding whitespace"));;
  validate_developer_match (toml_table_in t (str "match")).

(** The [kind], [local_path] and [remote_url] of a map rule. *)
Definition validate_map_target (kind local_path remote_url : option bytes) : result unit :=
  when (negb (bool_decide (kind ∈ [Some (str "local"); Some (str "remote")])))
    (validation_error (str "developer map kind must be local or remote"));;
  if beq (default [] kind) (str "local") then
    when (negb (string_is_trimmed_nonempty local_path)
          || negb (byte_at (default [] local_path) 0 =? 47) || negb (empty remote_url))
      (validation_error (str "developer local map requires an absolute local_path only"))
  else
    when (negb (valid_http_url remote_url false) || negb (empty local_path))
      (validation_error (str "developer remote map requires a valid remote_url only")).

Definition validate_map_rule i : result unit :=
  match table_at i with
  | None => silent_error
  | Some rule =>
      validate_developer_rule_common rule;;
      validate_map_target (table_string rule (str "kind")) (table_string rule (str "local_path"))
        (table_string rule (str "remote_url"));;
      (let status := table_int_default rule (str "status") 0 in
       when ((status <? 0) || (status >? 999))
         (validation_error (str "developer map status must be between 0 and 999")));;
      check_each
        (fun _ key => when (negb (string_is_trimmed_nonempty (Some key)))
           (validation_error (str "developer map headers contains an invalid name")))
        [] match toml_table_in rule (str "headers") with Some t => toml_keys t | None => [] end
  end.

Definition validate_developer_map_rules t : result unit :=
  check_each (fun _ i => validate_map_rule i) [] (items (toml_array_in t (str "map_rule"))).

Definition validate_developer_stage t : result bytes :=
  match table_string t (str "stage") with
  | Some stage =>
      if bool_decide (stage ∈ [str "request"; str "response"; str "both"]) then Done stage
      else validation_error (str "developer rule stage must be request, response, or both")
  | None => validation_error (str "developer rule stage must be request, response, or both")
  end.

Definition validate_breakpoint_rule i : result unit :=
  match table_at i with
  | None => silent_error
  | Some rule => validate_developer_rule_common rule;; _ ← validate_developer_stage rule; Done tt
  end.

Definition validate_developer_breakpoint_rules t : result unit :=
  check_each (fun _ i => validate_breakpoint_rule i) [] (items (toml_array_in t (str "breakpoint_rule"))).

Definition parse_http_status (text : option bytes) : bool :=
  match text with
  | Some text =>
      let scan := strtol text in
      negb (beq text []) && negb (scan_range scan) && scan_any scan && beq (scan_rest scan) []
      && (100 <=? scan_value scan) && (scan_value scan <=? 599)
  | None => false
  end.

Definition rewrite_op_valid (target action field value replacement : option bytes) (stage : bytes)
    : bool :=
  match target, action with
  | Some target, Some action =>
      if beq target (str "header") then
        (beq action (str "add") || beq action (str "set") || beq action (str "remove"))
        && string_is_trimmed_nonempty field
        && (negb (beq action (str "add") || beq action (str "set")) || negb (empty value))
      else if beq target (str "body") then
        if beq action (str "set") then negb (empty value)
        else if beq action (str "replace") then negb (empty value) && negb (empty replacement)
        else false
      else if beq target (str "status") then
        beq action (str "set") && negb (beq stage (str "request")) && parse_http_status value
      else false
  | _, _ => false
  end.

Definition validate_developer_rewrite_op t (stage : bytes) : result unit :=
  let string key := table_string t (str key) in
  when (negb (rewrite_op_valid (string "target"%string) (string "action"%string)
                (string "field"%string) (string "value"%string) (string "replace"%string) stage))
    (validation_error (str "developer rewrite contains an invalid op")).

Definition validate_rewrite_rule i : result unit :=
  match table_at i with
  | None => silent_error
  | Some rule =>
      validate_developer_rule_common rule;;
      stage ← validate_developer_stage rule;
      let operations := items (toml_array_in rule (str "op")) in
      when (bool_decide (operations = []))
        (validation_error (str "developer rewrite rule requires at least one op"));;
      check_each
        (fun _ j => match table_at j with
           | None => silent_error
           | Some op => validate_developer_rewrite_op op stage
           end)
        [] operations
  end.

Definition validate_developer_rewrite_rules t : result unit :=
  check_each (fun _ i => validate_rewrite_rule i) [] (items (toml_array_in t (str "rewrite_rule"))).

Definition validate_developer (developer : option (toml_table D)) : result unit :=
  match developer with
  | None => Done tt
  | Some t =>
      check_each
        (fun _ key => when (table_int_default t key 0 <? 0)
           (validation_error (str "developer limits must be non-negative")))
        [] [str "capture_limit"; str "body_limit_bytes"; str "header_value_limit_bytes"];;
      check_each
        (fun _ key => when (negb (string_is_trimmed (table_string t key)))
           (validation_error (str "developer CA paths must not have surrounding whitespace")))
        [] [str "ca_cert_path"; str "ca_key_path"];;
      validate_case_array (toml_array_in t (str "redact_headers")) false (str "developer.redact_headers");;
      validate_case_array (toml_array_in t (str "redact_query_params")) false
        (str "developer.redact_query_params");;
      validate_case_array (toml_array_in t (str "ssl_decrypt_hosts")) false
        (str "developer.ssl_decrypt_hosts");;
      validate_developer_map_rules t;;
      validate_developer_breakpoint_rules t;;
      validate_developer_rewrite_rules t
  end.

(** *** The document *)

(** One profile of [validate_config]. *)
Definition validate_profile_item (prior : list (toml_item D)) i : result unit :=
  let name := item_name i in
  when (negb (string_is_trimmed_nonempty name)) (validation_error (str "profile name is required"));;
  when (existsb (named (default [] name)) prior) (validation_error (str "duplicate profile name"));;
  match table_at i with Some profile => validate_profile profile | None => Fault end.

Definition validate_prompt t : result unit :=
  match toml_table_in t (str "prompt") with
  | None => Done tt
  | Some prompt =>
      when (table_int_default prompt (str "timeout_seconds") 0 <? 0)
        (validation_error (str "prompt timeout_seconds must not be negative"));;
      let silent := table_string prompt (str "silent_mode") in
      when (negb (empty silent) && negb (bool_decide (default [] silent ∈ [str "allow"; str "deny"])))
        (validation_error (str "prompt silent_mode must be empty, allow, or deny"))
  end.

(** [validate_config], on the root of the document. *)
Definition validate_config (root : toml_table D) : result unit :=
  let profiles := items (toml_array_in root (str "profile")) in
  when (bool_decide (profiles = [])) (validation_error (str "at least one profile is required"));;
  let active := table_string root (str "active") in
  when (negb (string_is_trimmed active))
    (validation_error (str "active profile must not have surrounding whitespace"));;
  check_each validate_profile_item [] profiles;;
  when (negb (empty active) && negb (named_table_exists profiles (default [] active)))
    (fail CH_ERROR_INVALID_ARGUMENT
       (str "validate config: active profile " ++ [34] ++ default [] active ++ [34] ++ str " not found"));;
  validate_prompt root;;
  validate_developer (toml_table_in root (str "developer"));;
  match toml_table_in root (str "traffic") with
  | Some traffic =>
      validate_duration_field traffic (str "history_max_age") (str "traffic.history_max_age") false
  | None => Done tt
  end.

(** ** Loading *)

Record ch_config : Type := mk_config {
  root : toml_table D;
  source_path : option bytes;
  document : bytes
}.

(** [ch_config_parse]: what it returns, what it stores in [out_config] and what
    it leaves in [error].  [toml_parse] is the library's parser: the tree, or
    the message of its error. *)
Definition ch_config_parse (toml_parse : bytes -> toml_table D + bytes) (toml : bytes)
    (path : option bytes) : result (ch_status * option ch_config * ch_error) :=
  match toml_parse toml with
  | inr message =>
      Done (CH_ERROR_PARSE, None, ch_error_set CH_ERROR_PARSE (str "parse config: " ++ message))
  | inl table =>
      match validate_config table with
      | Done _ => Done (CH_OK, Some (mk_config table path toml), ch_error_clear)
      | Raise error => Done (code error, None, error)
      | Fault => Fault
      end
  end.

(** ** Accessors *)

Definition ch_config_profile_count (config : ch_config) : Z :=
  lenZ (items (toml_array_in (root config) (str "profile"))).

Definition ch_config_profile_at (config : ch_config) (index : Z) : option (toml_table D) :=
  if index >? 2 ^ 31 - 1 then None
  else i ← items (toml_array_in (root config) (str "profile")) !! Z.to_nat index; table_at i.

(** The first element that is a table with the name. *)
Definition find_named (name : bytes) (l : list (toml_item D)) : option (toml_table D) :=
  i ← List.find (named name) l; table_at i.

Definition ch_config_active_profile (config : ch_config) : option (toml_table D) :=
  let profiles := items (toml_array_in (root config) (str "profile")) in
  let active := table_string (root config) (str "active") in
  let chosen := if empty active then None else find_named (default [] active) profiles in
  match chosen with
  | Some profile => Some profile
  | None => i ← head profiles; table_at i
  end.

Definition ch_config_profile_named (config : ch_config) (name : option bytes)
    : option (toml_table D) :=
  if empty name then None
  else find_named (default [] name) (items (toml_array_in (root config) (str "profile"))).

Definition missing_value {A} (key : bytes) : result A :=
  fail CH_ERROR_NOT_FOUND (str "config value " ++ key ++ str " is missing or has the wrong type").

Definition ch_config_table_get_string t (key : bytes) : result bytes :=
  match toml_string_in t key with Some s => Done s | None => missing_value key end.

Definition ch_config_table_get_bool t (key : bytes) : result bool :=
  match toml_bool_in t key with Some b => Done b | None => missing_value key end.

Definition ch_config_table_get_int t (key : bytes) : result Z :=
  match toml_int_in t key with Some n => Done n | None => missing_value key end.

Definition array_missing {A} (index : Z) : result A :=
  fail CH_ERROR_NOT_FOUND
    (str "config array value " ++ dec index ++ str " is missing or has the wrong type").

(** An element of the array; [None] out of range or beyond the [int] range. *)
Definition element_at (l : list (toml_item D)) (index : Z) : option (toml_item D) :=
  if index >? 2 ^ 31 - 1 then None else l !! Z.to_nat index.

Definition ch_config_array_get_string (l : list (toml_item D)) (index : Z) : result bytes :=
  match i ← element_at l index; string_at i with Some s => Done s | None => array_missing index end.

Definition ch_config_array_get_int (l : list (toml_item D)) (index : Z) : result Z :=
  match i ← element_at l index; int_at i with Some n => Done n | None => array_missing index end.

Definition ch_config_array_get_table (l : list (toml_item D)) (index : Z) : option (toml_table D) :=
  i ← element_at l index; table_at i.

End Durations.
End Formats.
End Validation.
End Config.

(** ** An instance of [LongDouble]: whole numbers *)

Module PlainLongDouble.

Definition plain_strtold (s : bytes) : Z * bytes * bool :=
  if starts_digit s then (fst (scan_digits 0 s), snd (scan_digits 0 s), false) else (0, s, false).

Definition plain_trunc (z : Z) : option Z :=
  if (INT64_MIN <=? z) && (z <=? INT64_MAX) then Some z else None.

Lemma scan_digits_suffix s acc : exists read, s = read ++ snd (scan_digits acc s).
Proof.
  revert acc. induction s as [|c s IH]; intros acc; cbn [scan_digits]; [exists []; reflexivity|].
  destruct (isdigit c); [|exists []; reflexivity]. destruct (IH (acc * 10 + (c - 48))) as [read E].
  exists (c :: read). cbn. rewrite <- E. reflexivity.
Qed.

#[export, refine] Instance plain_long_double : LongDouble := {|
  ldouble := Z;
  strtold := plain_strtold;
  ld_of_Z z := z;
  ld_add := Z.add;
  ld_mul := Z.mul;
  ld_neg := Z.opp;
  ld_ltb := Z.ltb;
  ld_finite _ := true;
  ld_trunc := plain_trunc
|}.
Proof.
  all: try (intros; reflexivity).
  - intros s x rest e. unfold plain_strtold. case_if.
    + intros [= _ <- _]. apply scan_digits_suffix.
    + intros [= _ <- _]. exists []. reflexivity.
  - intros n c s Hn Hc. unfold plain_strtold, dec. destruct (n <? 0) eqn:E; [lia|].
    destruct (dec_nonneg_spec n ltac:(lia)) as (Hok & Hscan & d & t & Ed & _).
    assert (Hs : starts_digit (c :: s) = false).
    { unfold str in Hc. cbn in Hc. rewrite !elem_of_cons, elem_of_nil in Hc. cbn. unfold isdigit. lia. }
    rewrite (Hscan (c :: s)), scan_digits_stop by exact Hs.
    rewrite Ed in Hok |- *. inversion_clear Hok as [|? ? Hd _]. cbn [app starts_digit]. rewrite Hd. reflexivity.
  - intros n Hn. unfold INT64_MAX. lia.
  - intros n Hn. unfold plain_trunc, INT64_MIN, INT64_MAX. case_if; [reflexivity|lia].
Defined.

End PlainLongDouble.
