(* ===== verification/ConfigValid.v ===== *)
(** * What an accepted configuration is

    The validators of [config.c] stated declaratively: [config_wf] says what a
    well-formed document is, and [validate_config] accepts exactly those. *)

From S2P Require Import Prelude CLib Inet Config.

Module Validity.
Import Config.

Section Validity.
Context {D : Type} `{Inet} `{LongDouble}.
Implicit Types (t table profile : toml_table D) (a array : option (toml_array D))
  (i item : toml_item D) (chains : list (toml_item D)).

(** ** What a well-formed document is *)

Definition proper (s : bytes) : Prop := s <> [] /\ trim s = s.

Definition names (l : list (toml_item D)) : list bytes := omap item_name l.

(** Every element is a table with a proper name, no two with the same. *)
Definition named_distinct (l : list (toml_item D)) : Prop :=
  Forall (fun i => exists name, item_name i = Some name /\ proper name) l /\ NoDup (names l).

(** The key is absent, not a string, empty, or holds a string with [P]. *)
Definition if_given t (key : bytes) (P : bytes -> Prop) : Prop :=
  forall s, table_string t key = Some s -> s <> [] -> P s.

Definition duration_field t (key : bytes) (nonnegative : bool) : Prop :=
  forall s, toml_string_in t key = Some s ->
    exists n, ch_config_parse_duration_ns (Some s) = Done n /\ (nonnegative = true -> 0 <= n).

(** Every element of the array is a proper string with [P]. *)
Definition strings_of a (P : bytes -> Prop) : Prop :=
  Forall (fun i => exists s, string_at i = Some s /\ proper s /\ P s) (items a).

Definition any (s : bytes) : Prop := True.

(** A number read as a whole by [strtol]. *)
Definition reads (text : bytes) (n : Z) : Prop :=
  text <> [] /\ strtol text = mk_scan n [] true false.

Definition listen_address (low : Z) (s : bytes) : Prop :=
  proper s /\ exists host port n,
    s = host ++ 58 :: port /\ Forall (fun c => isspace c = false) host /\
    reads port n /\ low <= n <= 65535 /\
    (((58 ∉ host) /\ host <> [] /\ head host <> Some 91) \/
     exists inner, host = 91 :: inner ++ [93] /\ inner <> [] /\ 93 ∉ inner).

Definition cidr_text (s : bytes) : Prop :=
  exists address prefix n, s = address ++ 47 :: prefix /\
    address <> [] /\ lenZ address < INET6_ADDRSTRLEN /\
    reads prefix n /\ 0 <= n /\
    ((58 ∈ address /\ is_Some (pton6 address) /\ n <= 128) \/
     ((58 ∉ address) /\ is_Some (pton4 address) /\ n <= 32)).

Definition http_url (https_only : bool) (s : bytes) : Prop :=
  proper s /\ exists host rest,
    (s = str "https://" ++ host ++ rest \/ (https_only = false /\ s = str "http://" ++ host ++ rest)) /\
    host <> [] /\ Forall (fun c => isspace c = false /\ c ∉ str "/?#") host /\
    (rest = [] \/ exists c rest', rest = c :: rest' /\ c ∈ str "/?#").

Definition chain_wf i : Prop :=
  exists chain, table_at i = Some chain /\
    let servers := items (toml_array_in chain (str "server")) in
    servers <> [] /\
    Forall (fun j => exists server protocol, table_at j = Some server /\
              table_string server (str "protocol") = Some protocol /\ proper protocol) servers.

Definition group_wf (chains : list (toml_item D)) i : Prop :=
  exists group type members, table_at i = Some group /\
    table_string group (str "type") = Some type /\ type ∈ policy_types /\
    map string_at (items (toml_array_in group (str "chains"))) = map Some members /\
    members <> [] /\ NoDup members /\ Forall (fun m => proper m /\ m ∈ names chains) members /\
    if_given group (str "selected") (fun s => s ∈ members) /\
    if_given group (str "test_url") (http_url false) /\
    duration_field group (str "interval") true /\ duration_field group (str "timeout") true.

Definition rule_set_wf i : Prop :=
  exists set, table_at i = Some set /\
    strings_of (toml_array_in set (str "domains")) any /\
    strings_of (toml_array_in set (str "domain_suffixes")) any /\
    strings_of (toml_array_in set (str "domain_keywords")) any /\
    strings_of (toml_array_in set (str "cidrs")) cidr_text /\
    if_given set (str "url") (http_url false) /\
    if_given set (str "format") (fun f => f ∈ feed_formats) /\
    ((exists field, field ∈ inline_fields /\ items (toml_array_in set field) <> []) \/
     exists u, table_string set (str "url") = Some u /\ u <> []).

Definition network_text (s : bytes) : Prop :=
  map tolower s = str "tcp" \/ map tolower s = str "udp".

(** The action of a rule names one of the fixed actions, a chain or a group. *)
Inductive action_wf (chains groups : list bytes) : bytes -> Prop :=
| action_fixed s : map tolower s ∈ [str "direct"; str "block"; str "reject"] ->
    action_wf chains groups s
| action_chain key name : map tolower key = str "chain" -> name <> [] -> name ∈ chains ->
    action_wf chains groups (key ++ 58 :: name)
| action_group key name : map tolower key = str "group" -> name <> [] -> name ∈ groups ->
    action_wf chains groups (key ++ 58 :: name).

Definition rule_wf (chains groups sets : list (toml_item D)) i : Prop :=
  exists rule name action, table_at i = Some rule /\
    table_string rule (str "name") = Some name /\ proper name /\
    table_string rule (str "action") = Some action /\ proper action /\
    action_wf (names chains) (names groups) action /\
    Forall (fun field => strings_of (toml_array_in rule field) any) rule_string_fields /\
    (items (toml_array_in rule (str "rule_sets")) <> [] ->
     Forall (fun field => toml_array_in rule field = None) inline_fields) /\
    strings_of (toml_array_in rule (str "rule_sets")) (fun s => s ∈ names sets) /\
    strings_of (toml_array_in rule (str "networks")) network_text /\
    strings_of (toml_array_in rule (str "cidrs")) cidr_text /\
    strings_of (toml_array_in rule (str "source_cidrs")) cidr_text /\
    Forall (fun j => exists port, int_at j = Some port /\ 0 <= port <= 65535)
      (items (toml_array_in rule (str "ports"))).

Definition subscription_wf i : Prop :=
  exists subscription url, table_at i = Some subscription /\
    table_string subscription (str "url") = Some url /\ http_url false url /\
    if_given subscription (str "format") (fun f => f ∈ feed_formats) /\
    if_given subscription (str "action") (fun s => s ∈ [str "block"; str "reject"]) /\
    strings_of (toml_array_in subscription (str "networks")) network_text.

(** A chain that is referred to exists, and there is one to use by default. *)
Definition chain_reference t (key : bytes) (chains : list (toml_item D)) : Prop :=
  chains <> [] /\ if_given t key (fun c => c ∈ names chains).

Definition listener_wf listen chains (address_key chain_key max_key timeout_key : bytes) : Prop :=
  if_given listen address_key
    (fun address => listen_address 0 address /\ chain_reference listen chain_key chains) /\
  0 <= table_int_default listen max_key 0 /\ duration_field listen timeout_key true.

Definition tun_wf tun chains : Prop :=
  toml_bool_in tun (str "enabled") = Some true ->
  0 <= table_int_default tun (str "mtu") 0 /\ chain_reference tun (str "chain") chains /\
  Forall (fun field => strings_of (toml_array_in tun field) cidr_text)
    [str "addresses"; str "routes"; str "exclude_cidrs"].

Definition listen_wf profile chains : Prop :=
  forall listen, toml_table_in profile (str "listen") = Some listen ->
    listener_wf listen chains (str "socks5") (str "socks5_chain") (str "socks5_max_connections")
      (str "socks5_handshake_timeout") /\
    listener_wf listen chains (str "http") (str "http_chain") (str "http_max_connections")
      (str "http_handshake_timeout") /\
    forall tun, toml_table_in listen (str "tun") = Some tun -> tun_wf tun chains.

(** What an upstream of each protocol needs. *)
Inductive upstream_wf t : Prop :=
| upstream_doh url : table_string t (str "protocol") = Some (str "doh") ->
    table_string t (str "url") = Some url -> http_url true url ->
    if_given t (str "address") (fun _ => False) -> upstream_wf t
| upstream_direct protocol address : protocol ∈ [str "dot"; str "doq"] ->
    table_string t (str "protocol") = Some protocol ->
    table_string t (str "address") = Some address -> listen_address 1 address ->
    if_given t (str "url") (fun _ => False) -> upstream_wf t
| upstream_controld resolver : table_string t (str "protocol") = Some (str "controld") ->
    table_string t (str "resolver") = Some resolver -> proper resolver ->
    Forall (fun c => c ∉ [32; 9; 13; 10; 47]) resolver ->
    if_given t (str "transport") (fun s => s ∈ [str "doh"; str "dot"; str "doq"]) ->
    if_given t (str "url") (fun _ => False) -> if_given t (str "address") (fun _ => False) ->
    upstream_wf t.

Definition ip_text (s : bytes) : Prop := is_Some (pton4 s) \/ is_Some (pton6 s).

Definition dns_wf profile : Prop :=
  forall dns, toml_table_in profile (str "dns") = Some dns ->
    duration_field dns (str "timeout") true /\
    (toml_bool_in dns (str "enabled") = Some true ->
     items (toml_array_in dns (str "upstream")) <> [] /\
     Forall (fun i => exists t, table_at i = Some t /\ upstream_wf t /\
               strings_of (toml_array_in t (str "bootstrap_ips")) ip_text)
       (items (toml_array_in dns (str "upstream")))).

Record profile_wf (profile : toml_table D) : Prop := mk_profile_wf {
  wf_chains : named_distinct (items (toml_array_in profile (str "chain")));
  wf_servers : Forall chain_wf (items (toml_array_in profile (str "chain")));
  wf_group_names : named_distinct (items (toml_array_in profile (str "policy_group")));
  wf_groups : Forall (group_wf (items (toml_array_in profile (str "chain"))))
                (items (toml_array_in profile (str "policy_group")));
  wf_set_names : named_distinct (items (toml_array_in profile (str "rule_set")));
  wf_sets : Forall rule_set_wf (items (toml_array_in profile (str "rule_set")));
  wf_rules : Forall (rule_wf (items (toml_array_in profile (str "chain")))
                       (items (toml_array_in profile (str "policy_group")))
                       (items (toml_array_in profile (str "rule_set"))))
               (items (toml_array_in profile (str "rule")));
  wf_subscription_names : named_distinct (items (toml_array_in profile (str "rule_subscription")));
  wf_subscriptions : Forall subscription_wf (items (toml_array_in profile (str "rule_subscription")));
  wf_listen : listen_wf profile (items (toml_array_in profile (str "chain")));
  wf_dns : dns_wf profile;
  wf_api : forall api, toml_table_in profile (str "api") = Some api ->
    if_given api (str "listen") (listen_address 0);
  wf_conditioner : forall c, toml_table_in profile (str "conditioner") = Some c ->
    duration_field c (str "latency") false /\ duration_field c (str "jitter") false
}.

Definition trimmed_field t (key : bytes) : Prop := if_given t key (fun s => trim s = s).

(** A proper string whose letters are of one case. *)
Definition cased (uppercase : bool) (s : bytes) : Prop :=
  Forall (fun c => (if uppercase then islower c else isupper c) = false) s.

Definition developer_common_wf t : Prop :=
  (exists id, table_string t (str "id") = Some id /\ proper id) /\ trimmed_field t (str "name") /\
  forall m, toml_table_in t (str "match") = Some m ->
    Forall (trimmed_field m) [str "host"; str "path_prefix"; str "url_contains"] /\
    strings_of (toml_array_in m (str "methods")) (cased true).

Definition map_target_wf t : Prop :=
  (table_string t (str "kind") = Some (str "local") /\
   (exists path, table_string t (str "local_path") = Some path /\ proper path /\ head path = Some 47) /\
   if_given t (str "remote_url") (fun _ => False)) \/
  (table_string t (str "kind") = Some (str "remote") /\
   (exists url, table_string t (str "remote_url") = Some url /\ http_url false url) /\
   if_given t (str "local_path") (fun _ => False)).

Definition map_rule_wf i : Prop :=
  exists rule, table_at i = Some rule /\ developer_common_wf rule /\ map_target_wf rule /\
    0 <= table_int_default rule (str "status") 0 <= 999 /\
    forall headers, toml_table_in rule (str "headers") = Some headers -> Forall proper (toml_keys headers).

Definition staged t (stage : bytes) : Prop :=
  table_string t (str "stage") = Some stage /\ stage ∈ [str "request"; str "response"; str "both"].

Definition given t (key : bytes) (P : bytes -> Prop) : Prop :=
  exists s, table_string t key = Some s /\ s <> [] /\ P s.

(** The operations of a rewrite rule. *)
Inductive rewrite_op_wf (stage : bytes) t : Prop :=
| op_header_write action : table_string t (str "target") = Some (str "header") ->
    table_string t (str "action") = Some action -> action ∈ [str "add"; str "set"] ->
    given t (str "field") proper -> given t (str "value") any -> rewrite_op_wf stage t
| op_header_remove : table_string t (str "target") = Some (str "header") ->
    table_string t (str "action") = Some (str "remove") ->
    given t (str "field") proper -> rewrite_op_wf stage t
| op_body_set : table_string t (str "target") = Some (str "body") ->
    table_string t (str "action") = Some (str "set") -> given t (str "value") any ->
    rewrite_op_wf stage t
| op_body_replace : table_string t (str "target") = Some (str "body") ->
    table_string t (str "action") = Some (str "replace") -> given t (str "value") any ->
    given t (str "replace") any -> rewrite_op_wf stage t
| op_status : table_string t (str "target") = Some (str "status") ->
    table_string t (str "action") = Some (str "set") -> stage <> str "request" ->
    given t (str "value") (fun v => exists n, reads v n /\ 100 <= n <= 599) -> rewrite_op_wf stage t.

Definition rewrite_rule_wf i : Prop :=
  exists rule stage, table_at i = Some rule /\ developer_common_wf rule /\ staged rule stage /\
    items (toml_array_in rule (str "op")) <> [] /\
    Forall (fun j => exists op, table_at j = Some op /\ rewrite_op_wf stage op)
      (items (toml_array_in rule (str "op"))).

Record developer_wf (t : toml_table D) : Prop := mk_developer_wf {
  wf_limits : Forall (fun key => 0 <= table_int_default t key 0)
    [str "capture_limit"; str "body_limit_bytes"; str "header_value_limit_bytes"];
  wf_paths : Forall (trimmed_field t) [str "ca_cert_path"; str "ca_key_path"];
  wf_redact : Forall (fun key => strings_of (toml_array_in t key) (cased false))
    [str "redact_headers"; str "redact_query_params"; str "ssl_decrypt_hosts"];
  wf_maps : Forall map_rule_wf (items (toml_array_in t (str "map_rule")));
  wf_breakpoints : Forall (fun i => exists rule stage, table_at i = Some rule /\
      developer_common_wf rule /\ staged rule stage) (items (toml_array_in t (str "breakpoint_rule")));
  wf_rewrites : Forall rewrite_rule_wf (items (toml_array_in t (str "rewrite_rule")))
}.

Record config_wf (root : toml_table D) : Prop := mk_config_wf {
  wf_some_profile : items (toml_array_in root (str "profile")) <> [];
  wf_profile_names : named_distinct (items (toml_array_in root (str "profile")));
  wf_profiles : Forall (fun i => exists profile, table_at i = Some profile /\ profile_wf profile)
    (items (toml_array_in root (str "profile")));
  wf_active : if_given root (str "active")
    (fun s => trim s = s /\ s ∈ names (items (toml_array_in root (str "profile"))));
  wf_prompt : forall p, toml_table_in root (str "prompt") = Some p ->
    0 <= table_int_default p (str "timeout_seconds") 0 /\
    if_given p (str "silent_mode") (fun s => s ∈ [str "allow"; str "deny"]);
  wf_developer : forall t, toml_table_in root (str "developer") = Some t -> developer_wf t;
  wf_traffic : forall t, toml_table_in root (str "traffic") = Some t ->
    duration_field t (str "history_max_age") false
}.

(** ** Facts: loops and guards *)

Lemma seq_ok (m k : result unit) : (m;; k) = Done tt <-> m = Done tt /\ k = Done tt.
Proof.
  destruct m as [[]|e|]; cbn; split; try tauto; try discriminate; intros []; discriminate.
Qed.

Lemma when_ok b c m : when b (fail c m) = Done tt <-> b = false.
Proof. destruct b; cbn; split; (reflexivity || discriminate). Qed.

Lemma when_valid b m : when b (validation_error m) = Done tt <-> b = false.
Proof. apply when_ok. Qed.

Lemma check_each_ok {A} (body : list A -> A -> result unit) prior rest :
  check_each body prior rest = Done tt <->
  forall k x, rest !! k = Some x -> body (prior ++ take k rest) x = Done tt.
Proof.
  revert prior. induction rest as [|y rest IH]; intros prior; cbn [check_each].
  { split; [|reflexivity]. intros _ k x Hk. rewrite lookup_nil in Hk. discriminate. }
  rewrite seq_ok, IH. split.
  - intros [Hy Hr] [|k] x Hx; cbn in *.
    + injection Hx as ->. rewrite app_nil_r. exact Hy.
    + apply Hr in Hx. rewrite <- app_assoc in Hx. exact Hx.
  - intros Ha. split.
    + specialize (Ha 0%nat y eq_refl). cbn in Ha. rewrite app_nil_r in Ha. exact Ha.
    + intros k x Hx. rewrite <- app_assoc. apply (Ha (S k) x Hx).
Qed.

Lemma check_all_ok {A} (body : A -> result unit) (P : A -> Prop) rest prior :
  (forall x, body x = Done tt <-> P x) ->
  check_each (fun _ => body) prior rest = Done tt <-> Forall P rest.
Proof.
  intros Hb. rewrite check_each_ok, list.Forall_lookup. split; intros Ha k x Hx; apply Hb; eauto.
Qed.

(** A loop whose body also compares a key with those before it. *)
Lemma check_distinct {A} (key : A -> option bytes) (P : A -> Prop) body rest :
  (forall prior x, body prior x = Done tt <->
     P x /\ exists n, key x = Some n /\ proper n /\ n ∉ omap key prior) ->
  check_each body [] rest = Done tt <->
  (Forall (fun x => exists n, key x = Some n /\ proper n) rest /\ NoDup (omap key rest)) /\ Forall P rest.
Proof.
  intros Hb. induction rest as [|x rest IH] using rev_ind; [cbn; split; [intros _; repeat constructor|reflexivity]|].
  assert (Hs : check_each body [] (rest ++ [x]) = Done tt <->
               check_each body [] rest = Done tt /\ body rest x = Done tt).
  { rewrite !check_each_ok. cbn [app]. split.
    - intros Ha. split.
      + intros k y Hy. specialize (Ha k y). rewrite lookup_app_l, take_app_le in Ha
          by (apply lookup_lt_Some in Hy; lia). exact (Ha Hy).
      + specialize (Ha (length rest) x). rewrite list_lookup_middle, take_app_length in Ha by reflexivity.
        exact (Ha eq_refl).
    - intros [Ha Hx] k y Hy. destruct (decide (k < length rest)%nat).
      + rewrite lookup_app_l in Hy by lia. rewrite take_app_le by lia. eauto.
      + pose proof (lookup_lt_Some _ _ _ Hy) as Hl. rewrite length_app in Hl. cbn in Hl.
        replace k with (length rest) in * by lia. rewrite list_lookup_middle in Hy by reflexivity.
        injection Hy as ->. rewrite take_app_length. exact Hx. }
  rewrite Hs, IH, Hb, !Forall_app, omap_app, !Forall_singleton. cbn [omap list_omap].
  split.
  - intros [[[H1 H2] H3] (HP & n & Hn & Hp & Hnew)]. rewrite Hn. split_and!; eauto.
    apply list.NoDup_app. split_and!; [assumption| |apply NoDup_singleton].
    intros y Hy Hy'. apply list_elem_of_singleton in Hy'. congruence.
  - intros ([[H1 (n & Hn & Hp)] H2] & H3 & HP). rewrite Hn in H2. apply list.NoDup_app in H2 as (H2 & H4 & _).
    split_and!; auto. exists n. split_and!; auto. intros Hin. apply (H4 n Hin). left.
Qed.

(** ** Facts: strings *)

Lemma trim_right_last s : trim_right s = s <-> s = [] \/ isspace (byte_at s (lenZ s - 1)) = false.
Proof.
  induction s as [|c s IH] using rev_ind; [tauto|].
  rewrite lenZ_app. change (lenZ [c]) with 1. replace (lenZ s + 1 - 1) with (lenZ s) by lia.
  assert (E : byte_at (s ++ [c]) (lenZ s) = c).
  { unfold byte_at, lenZ. rewrite Nat2Z.id, list_lookup_middle by reflexivity. reflexivity. }
  rewrite E. clear IH E. split.
  - intros Et. right. destruct (isspace c) eqn:Hc; [|reflexivity]. exfalso.
    assert (Hl : forall l, (length (trim_right (l ++ [c])) <= length l)%nat).
    { induction l as [|y l IHl]; cbn [app trim_right]; [rewrite Hc; cbn; lia|].
      destruct (trim_right (l ++ [c])); [destruct (isspace y)|]; cbn in *; lia. }
    specialize (Hl s). rewrite Et, length_app in Hl. cbn in Hl. lia.
  - intros [Hn|Hc]; [destruct s; discriminate|].
    induction s as [|y s IHs]; cbn [app trim_right]; [rewrite Hc; reflexivity|].
    rewrite IHs. destruct s; reflexivity.
Qed.

Lemma trim_iff s : trim s = s <-> s = [] \/ ends_ok s = true.
Proof.
  destruct s as [|c s]; [tauto|]. unfold ends_ok, trim. rewrite andb_true_iff, !negb_true_iff.
  change (byte_at (c :: s) 0) with c. cbn [skip_space]. destruct (isspace c) eqn:Hc.
  - split; [|intros [?|[? _]]; discriminate]. intros E. exfalso.
    assert (Hl : forall l, (length (trim_right l) <= length l)%nat).
    { induction l as [|y l IHl]; cbn [trim_right]; [lia|].
      destruct (trim_right l); [destruct (isspace y)|]; cbn in *; lia. }
    destruct (skip_space_spec s) as (a & Es & _). specialize (Hl (skip_space s)).
    rewrite E in Hl. rewrite Es in Hl at 1. cbn in Hl. rewrite length_app in Hl. lia.
  - rewrite trim_right_last. split; [intros [?|?]; [discriminate|tauto]|intros [?|[_ ?]]; [discriminate|tauto]].
Qed.

Lemma trimmed_nonempty_iff o :
  string_is_trimmed_nonempty o = true <-> exists s, o = Some s /\ proper s.
Proof.
  unfold proper. destruct o as [s|]; cbn; [|split; [discriminate|intros (? & ? & _); discriminate]].
  rewrite andb_true_iff, negb_true_iff, beq_false.
  split.
  - intros [Hn He]. exists s. split_and!; auto. apply trim_iff. auto.
  - intros (s' & [= <-] & Hn & Ht). apply trim_iff in Ht as [|]; [contradiction|]. auto.
Qed.

Lemma trimmed_nonempty_some s : string_is_trimmed_nonempty (Some s) = true <-> proper s.
Proof.
  rewrite trimmed_nonempty_iff. split; [intros (? & [= <-] & Hp); exact Hp|eauto].
Qed.

Lemma trimmed_iff t key :
  string_is_trimmed (table_string t key) = true <-> trimmed_field t key.
Proof.
  unfold trimmed_field, if_given, string_is_trimmed. destruct (table_string t key) as [s|].
  - rewrite orb_true_iff, beq_true, <- trim_iff. split; [intros Ht ? [= <-] _; exact Ht|].
    intros Ht. destruct (decide (s = [])) as [-> |Hn]; [reflexivity|auto].
  - split; [intros _ s Hs; discriminate|reflexivity].
Qed.

Lemma empty_iff o : empty o = true <-> forall s, o = Some s -> s = [].
Proof.
  unfold empty. rewrite beq_true. destruct o as [s|]; cbn; split; auto.
  - intros -> s' [= <-]. reflexivity.
  - intros _ s Hs. discriminate.
Qed.

(** [given] implies [valid]. *)
Lemma if_given_iff t key (valid : bool) (P : bytes -> Prop) :
  (forall s, table_string t key = Some s -> s <> [] -> valid = true <-> P s) ->
  negb (empty (table_string t key)) && negb valid = false <-> if_given t key P.
Proof.
  intros Hv. rewrite andb_false_iff, !negb_false_iff. unfold if_given. split.
  - intros [He|Hval] s Hs Hn; [exfalso; apply Hn; exact (proj1 (empty_iff _) He s Hs)|].
    apply (Hv s Hs Hn), Hval.
  - intros Ha. destruct (empty (table_string t key)) eqn:He; [left; reflexivity|right].
    unfold empty in He. destruct (table_string t key) as [s|]; [|discriminate].
    cbn in He. apply beq_false in He. apply (Hv s eq_refl He). auto.
Qed.

Lemma given_empty_iff t key :
  negb (empty (table_string t key)) = false <-> if_given t key (fun _ => False).
Proof.
  rewrite <- (if_given_iff t key false) by (intros; split; [discriminate|tauto]).
  rewrite andb_true_r. reflexivity.
Qed.

Lemma named_elem (l : list (toml_item D)) name : existsb (named name) l = true <-> name ∈ names l.
Proof.
  unfold names. rewrite existsb_exists, list_elem_of_omap. unfold named. split.
  - intros (i & Hi & E). exists i. destruct (item_name i) as [n|]; [|discriminate].
    apply beq_true in E. subst. split; [apply list_elem_of_In; assumption|reflexivity].
  - intros (i & Hi & E). exists i. rewrite E, beq_refl. split; [apply list_elem_of_In; assumption|reflexivity].
Qed.

(** ** Facts: formats *)

Lemma scan_eta (x : number_scan) n :
  scan_range x = false /\ scan_any x = true /\ scan_rest x = [] /\ scan_value x = n <->
  x = mk_scan n [] true false.
Proof. destruct x as [v r a g]; cbn. split; [intros (-> & -> & -> & ->); reflexivity|intros [= -> -> -> ->]; auto]. Qed.

(** The guards of the source around [strtol]. *)
Lemma reads_iff text low high :
  negb (beq text []) && negb (scan_range (strtol text)) && scan_any (strtol text)
    && beq (scan_rest (strtol text)) [] && (low <=? scan_value (strtol text))
    && (scan_value (strtol text) <=? high) = true
  <-> exists n, reads text n /\ low <= n <= high.
Proof.
  rewrite !andb_true_iff, !negb_true_iff, beq_true, beq_false, !Z.leb_le. unfold reads. split.
  - intros [[[[[? ?] ?] ?] ?] ?]. exists (scan_value (strtol text)). split_and!; auto.
    apply scan_eta. auto.
  - intros (n & (Hne & E) & ?). apply scan_eta in E as (? & ? & ? & <-). split_and!; auto; lia.
Qed.

Lemma port_text_iff low text :
  port_text_ok low text = true <-> exists n, reads text n /\ low <= n <= 65535.
Proof. apply reads_iff. Qed.

(** A number read as a whole has only digits, a sign and leading space. *)
Lemma reads_avoid c text n :
  isdigit c = false -> isspace c = false -> c <> 45 -> c <> 43 -> reads text n -> c ∉ text.
Proof.
  intros Hd Hs H45 H43 [_ E] Hin.
  assert (Hdig : forall s acc, c ∈ s -> snd (scan_digits acc s) <> []).
  { induction s as [|x s IH]; intros acc Hx; [apply elem_of_nil in Hx as []|]. cbn.
    destruct (isdigit x) eqn:Hc; [|discriminate]. apply IH.
    apply elem_of_cons in Hx as [<-|]; [congruence|assumption]. }
  assert (Hk : forall s, c ∈ s -> c ∈ skip_space s).
  { induction s as [|x s IH]; intros Hx; [assumption|]. cbn. destruct (isspace x) eqn:Hc; [|assumption].
    apply IH. apply elem_of_cons in Hx as [<-|]; [congruence|assumption]. }
  assert (Hg : forall s, c ∈ s -> c ∈ snd (scan_sign s)).
  { intros [|x s] Hx; [assumption|]. cbn. repeat case_if; cbn; try assumption;
      apply elem_of_cons in Hx as [<-|]; (assumption || lia). }
  apply Hk, Hg in Hin. unfold strtol in E. destruct (scan_sign (skip_space text)) as [neg t]. cbn in Hin.
  destruct t as [|x t]; [discriminate|]. destruct (isdigit x); [|discriminate].
  apply (Hdig _ 0) in Hin. destruct (scan_digits 0 (x :: t)) as [v rest]. injection E as _ E _. cbn in Hin.
  contradiction.
Qed.

Lemma no_space_iff l : negb (existsb isspace l) = true <-> Forall (fun c => isspace c = false) l.
Proof.
  rewrite negb_true_iff. induction l as [|c l IH]; cbn; [split; auto|].
  rewrite orb_false_iff, IH, list.Forall_cons. reflexivity.
Qed.

Lemma separator_plain_ok (text host port : bytes) :
  (match split_last 58 text with
   | Some (before, port) =>
       if beq before [] || bool_decide (58 ∈ before) then None else Some (before, port)
   | None => None
   end = Some (host, port) /\ 58 ∉ port) <->
  text = host ++ 58 :: port /\ (58 ∉ host) /\ host <> [] /\ 58 ∉ port.
Proof.
  split.
  - intros [E Hp]. destruct (split_last 58 text) as [[b p]|] eqn:Es; [|discriminate].
    apply split_last_Some in Es as [-> _]. case_if_in E; [discriminate|]. injection E as -> ->.
    apply orb_false_iff in Heqb0 as [Hb Hc]. apply beq_false in Hb. apply bool_decide_eq_false in Hc. auto.
  - intros (-> & Hh & Hn & Hp). rewrite split_last_app by assumption.
    rewrite (proj2 (beq_false host [])), bool_decide_eq_false_2 by assumption. auto.
Qed.

Lemma separator_bracket_ok (text host port : bytes) :
  byte_at text 0 = 91 ->
  match split_first 93 text with
  | Some (before, 58 :: port) => if lenZ before =? 1 then None else Some (before ++ [93], port)
  | _ => None
  end = Some (host, port) <->
  text = host ++ 58 :: port /\ exists inner, host = 91 :: inner ++ [93] /\ inner <> [] /\ 93 ∉ inner.
Proof.
  intros Hb. split.
  - destruct (split_first 93 text) as [[b p]|] eqn:Es; [|discriminate].
    apply split_first_Some in Es as [-> Hn].
    destruct p as [|c p]; [discriminate|].
    destruct (decide (c = 58)) as [-> |]; [|intros E; exfalso; revert E; repeat case_match; congruence].
    destruct b as [|x b]; [discriminate|]. change (x = 91) in Hb. subst x.
    case_if; [discriminate|]. intros [= <- <-]. rewrite lenZ_cons in Heqb0.
    apply not_elem_of_cons in Hn as [_ Hn]. split; [cbn [app]; rewrite <- app_assoc; reflexivity|].
    exists b. split_and!; auto. intros ->. discriminate.
  - intros (-> & inner & -> & Hn & Hin). cbn [app]. rewrite <- app_assoc. cbn [app].
    change (91 :: inner ++ 93 :: 58 :: port) with ((91 :: inner) ++ 93 :: 58 :: port).
    rewrite split_first_app by (apply not_elem_of_cons; split; [discriminate|assumption]).
    rewrite lenZ_cons. destruct inner; [contradiction|]. rewrite lenZ_cons.
    pose proof (lenZ_nonneg inner). rewrite (proj2 (Z.eqb_neq _ _)) by lia. reflexivity.
Qed.

Lemma head_byte (s : bytes) c : c <> 0 -> head s = Some c <-> byte_at s 0 = c.
Proof.
  intros Hc. destruct s as [|x s]; [|change (byte_at (x :: s) 0) with x]; cbn [head].
  - split; [discriminate|]. intros E. change (0 = c) in E. congruence.
  - split; congruence.
Qed.

Lemma listen_address_iff o zero :
  valid_listen_address o zero = true <->
  exists s, o = Some s /\ listen_address (if zero then 0 else 1) s.
Proof.
  unfold valid_listen_address, listen_address. destruct o as [s|].
  2: { split; [discriminate|intros (s & Hs & _); discriminate]. }
  pose proof (trimmed_nonempty_some s) as Ht. destruct (string_is_trimmed_nonempty (Some s)); cbn [negb].
  2: { split; [discriminate|]. intros (s' & [= <-] & Hp & _). apply Ht in Hp. discriminate. }
  set (separator := if byte_at s 0 =? 91 then _ else _).
  assert (Hsep : forall host port n, reads port n ->
    separator = Some (host, port) <-> s = host ++ 58 :: port /\
      (((58 ∉ host) /\ host <> [] /\ head host <> Some 91) \/
       exists inner, host = 91 :: inner ++ [93] /\ inner <> [] /\ 93 ∉ inner)).
  { intros host port n Hr. apply (reads_avoid 58) in Hr; [|reflexivity|reflexivity|lia|lia]. subst separator.
    destruct (byte_at s 0 =? 91) eqn:Hb.
    - apply Z.eqb_eq in Hb. rewrite (separator_bracket_ok s host port Hb). split; [intuition|].
      intros [-> [(_ & Hne & Hh)|Hi]]; [|auto]. destruct host; [contradiction|].
      apply head_byte in Hb; [contradiction|lia].
    - pose proof (separator_plain_ok s host port) as Hp. split.
      + intros Es. destruct (proj1 Hp (conj Es Hr)) as (-> & H1 & H2 & _). split; [reflexivity|left].
        split_and!; auto. rewrite head_byte by lia. destruct host; [contradiction|]. apply Z.eqb_neq, Hb.
      + intros [-> [(H1 & H2 & _)|(inner & -> & _)]]; [|discriminate Hb].
        apply Hp. auto. }
  split.
  - intros Hv. exists s. split; [reflexivity|]. split; [apply Ht; reflexivity|].
    destruct separator as [[host port]|]; [|discriminate].
    apply andb_true_iff in Hv as [Hsp Hport]. apply no_space_iff in Hsp.
    apply port_text_iff in Hport as (n & Hr & Hn). destruct (Hsep host port n Hr) as [Hs _].
    destruct (Hs eq_refl) as [E Hc]. eauto 10.
  - intros (s' & [= <-] & _ & host & port & n & E & Hsp & Hr & Hn & Hc).
    rewrite (proj2 (Hsep host port n Hr)) by auto.
    rewrite andb_true_iff, no_space_iff, port_text_iff. eauto.
Qed.

Lemma listen_field_iff t key zero :
  negb (empty (table_string t key)) && negb (valid_listen_address (table_string t key) zero) = false <->
  if_given t key (listen_address (if zero then 0 else 1)).
Proof.
  apply if_given_iff. intros s Hs _. rewrite listen_address_iff, Hs.
  split; [intros (? & [= <-] & Ha); exact Ha|eauto].
Qed.

Lemma is_Some_dec_iff {A} (o : option A) : bool_decide (is_Some o) = true <-> is_Some o.
Proof. apply bool_decide_eq_true. Qed.

Lemma cidr_iff s : valid_cidr s = true <-> proper s /\ cidr_text s.
Proof.
  unfold valid_cidr, cidr_text. pose proof (trimmed_nonempty_some s) as Ht.
  destruct (string_is_trimmed_nonempty (Some s)); cbn [negb].
  2: { split; [discriminate|]. intros [Hp _]. apply Ht in Hp. discriminate. }
  split.
  - intros Hv. split; [apply Ht; reflexivity|].
    destruct (split_last 47 s) as [[address prefix]|] eqn:Es; [|discriminate].
    apply split_last_Some in Es as [-> _].
    destruct (beq address [] || beq prefix []) eqn:He; [discriminate|].
    destruct (lenZ address >=? INET6_ADDRSTRLEN) eqn:Hl; [discriminate|].
    pose proof He as He0. apply orb_false_iff in He as [_ He]. exists address, prefix.
    pose proof (reads_iff prefix 0 (if bool_decide (58 ∈ address) then 128 else 32)) as Hr.
    rewrite He in Hr. cbn [negb andb] in Hr.
    match type of Hv with context [negb (bool_decide ?P)] => destruct (decide P) as [Heqb0|Hb] end;
      [rewrite bool_decide_eq_true_2 in Hv by assumption|rewrite (bool_decide_eq_false_2 _ Hb) in Hv; discriminate].
    apply Hr in Hv as (n & Hread & Hn). exists n. apply orb_false_iff in He0 as [He0 _]. apply beq_false in He0.
    destruct (decide (58 ∈ address)).
    + rewrite bool_decide_eq_true_2 in Heqb0, Hn by assumption. split_and!; auto; [lia|lia|left; split_and!; auto; lia].
    + rewrite bool_decide_eq_false_2 in Heqb0, Hn by assumption. split_and!; auto; [lia|lia|right; split_and!; auto; lia].
  - intros [_ (address & prefix & n & -> & Ha & Hl & Hr & Hlow & Hc)].
    rewrite split_last_app by (apply (reads_avoid 47 _ n); (assumption || reflexivity || lia)).
    rewrite (proj2 (beq_false address [])), (proj2 (beq_false prefix [])) by (assumption || apply Hr).
    cbn [orb]. replace (lenZ address >=? INET6_ADDRSTRLEN) with false by lia.
    pose proof (reads_iff prefix 0 (if bool_decide (58 ∈ address) then 128 else 32)) as Hreads.
    rewrite (proj2 (beq_false prefix [])) in Hreads by apply Hr. cbn [negb andb] in Hreads.
    destruct Hc as [(Hc & Hp & Hn)|(Hc & Hp & Hn)].
    + rewrite (bool_decide_eq_true_2 (58 ∈ address)) in * by assumption.
      rewrite bool_decide_eq_true_2 by assumption. cbn [negb]. apply Hreads. eauto.
    + rewrite (bool_decide_eq_false_2 (58 ∈ address)) in * by assumption.
      rewrite bool_decide_eq_true_2 by assumption. cbn [negb]. apply Hreads. eauto.
Qed.

Lemma ip_iff s : valid_ip s = true <-> proper s /\ ip_text s.
Proof.
  unfold valid_ip, ip_text. pose proof (trimmed_nonempty_some s) as Ht.
  destruct (string_is_trimmed_nonempty (Some s)); cbn [negb].
  - rewrite orb_true_iff, !bool_decide_eq_true. tauto.
  - split; [discriminate|]. intros [Hp _]. apply Ht in Hp. discriminate.
Qed.

(** *** URLs *)

Lemma authority_split text :
  exists rest, text = authority text ++ rest /\ Forall (fun c => c ∉ str "/?#") (authority text) /\
    (rest = [] \/ exists c rest', rest = c :: rest' /\ c ∈ str "/?#").
Proof.
  induction text as [|c text (rest & E & Hf & Hr)]; cbn [authority].
  { exists []. split_and!; auto. }
  case_bool_decide as Hc.
  - exists (c :: text). split_and!; eauto.
  - exists rest. cbn [app]. rewrite <- E. split_and!; auto.
Qed.

Lemma authority_app host rest :
  Forall (fun c => c ∉ str "/?#") host -> (rest = [] \/ exists c rest', rest = c :: rest' /\ c ∈ str "/?#") ->
  authority (host ++ rest) = host.
Proof.
  intros Hf Hr. induction Hf as [|c host Hc Hf IH]; cbn [app authority].
  - destruct Hr as [-> |(c & rest' & -> & Hc)]; [reflexivity|]. cbn [authority].
    rewrite bool_decide_eq_true_2 by assumption. reflexivity.
  - rewrite bool_decide_eq_false_2 by assumption. rewrite IH. reflexivity.
Qed.

Definition after_scheme (https_only : bool) (url : bytes) : option bytes :=
  if is_prefix (str "https://") url then Some (drop 8 url)
  else if https_only then None
  else if is_prefix (str "http://") url then Some (drop 7 url)
  else None.

Lemma after_scheme_iff https_only url r :
  after_scheme https_only url = Some r <->
  url = str "https://" ++ r \/ (https_only = false /\ url = str "http://" ++ r).
Proof.
  unfold after_scheme. destruct (is_prefix (str "https://") url) eqn:E1.
  - apply is_prefix_spec in E1 as [r1 ->]. change (drop 8 (str "https://" ++ r1)) with r1. split.
    + intros [= ->]. auto.
    + intros [E|[_ E]]; [apply app_inv_head in E; congruence|discriminate E].
  - assert (Hn : url <> str "https://" ++ r).
    { intros ->. apply not_true_iff_false in E1. apply E1, is_prefix_spec. eauto. }
    destruct https_only; [split; [discriminate|intros [?|[? _]]; [contradiction|discriminate]]|].
    destruct (is_prefix (str "http://") url) eqn:E2.
    + apply is_prefix_spec in E2 as [r2 ->]. change (drop 7 (str "http://" ++ r2)) with r2. split.
      * intros [= ->]. auto.
      * intros [E|[_ E]]; [contradiction|]. apply app_inv_head in E. congruence.
    + split; [discriminate|]. intros [?|[_ E]]; [contradiction|].
      apply not_true_iff_false in E2. destruct E2. apply is_prefix_spec. eauto.
Qed.

Lemma http_url_iff o https_only :
  valid_http_url o https_only = true <-> exists s, o = Some s /\ http_url https_only s.
Proof.
  unfold valid_http_url, http_url. destruct o as [s|].
  2: { split; [discriminate|intros (s & Hs & _); discriminate]. }
  fold (after_scheme https_only s). pose proof (trimmed_nonempty_some s) as Ht.
  destruct (string_is_trimmed_nonempty (Some s)); cbn [negb].
  2: { split; [discriminate|]. intros (s' & [= <-] & Hp & _). apply Ht in Hp. discriminate. }
  split.
  - intros Hv. exists s. split; [reflexivity|]. split; [apply Ht; reflexivity|].
    destruct (after_scheme https_only s) as [r|] eqn:Es; [|discriminate].
    apply after_scheme_iff in Es. apply andb_true_iff in Hv as [Hn Hsp].
    apply negb_true_iff, beq_false in Hn. apply no_space_iff in Hsp.
    destruct (authority_split r) as (rest & E & Hf & Hr). exists (authority r), rest.
    rewrite <- E. split_and!; auto. apply list.Forall_and. auto.
  - intros (s' & [= <-] & _ & host & rest & Es & Hn & Hf & Hr).
    apply after_scheme_iff in Es. rewrite Es. apply list.Forall_and in Hf as [Hsp Hf].
    rewrite authority_app by assumption. rewrite andb_true_iff, negb_true_iff, beq_false, no_space_iff. auto.
Qed.

Lemma url_field_iff t key https_only :
  negb (empty (table_string t key)) && negb (valid_http_url (table_string t key) https_only) = false <->
  if_given t key (http_url https_only).
Proof.
  apply if_given_iff. intros s Hs _. rewrite http_url_iff, Hs.
  split; [intros (? & [= <-] & Ha); exact Ha|eauto].
Qed.

Lemma one_of_field_iff t key allowed :
  string_equals_one_of (table_string t key) allowed true = true <-> if_given t key (fun s => s ∈ allowed).
Proof.
  unfold string_equals_one_of. rewrite <- (if_given_iff t key (bool_decide (default [] (table_string t key) ∈ allowed))).
  - destruct (empty (table_string t key)); cbn [negb andb]; [tauto|]. rewrite negb_false_iff. reflexivity.
  - intros s -> _. apply bool_decide_eq_true.
Qed.

Lemma duration_field_iff t key label nonnegative :
  validate_duration_field t key label nonnegative = Done tt <-> duration_field t key nonnegative.
Proof.
  unfold validate_duration_field, duration_field. destruct (toml_string_in t key) as [s|].
  2: { split; [intros _ s Hs; discriminate|reflexivity]. }
  destruct (ch_config_parse_duration_ns (Some s)) as [n|e|] eqn:E.
  - destruct (nonnegative && (n <? 0)) eqn:Hn.
    + split; [discriminate|]. intros Ha. destruct (Ha s eq_refl) as (n' & En & Hneg).
      rewrite E in En. injection En as <-. apply andb_true_iff in Hn as [-> Hn].
      specialize (Hneg eq_refl). lia.
    + split; [|reflexivity]. intros _ s' [= <-]. exists n. split; [assumption|]. intros ->. cbn in Hn. lia.
  - split; [discriminate|]. intros Ha. destruct (Ha s eq_refl) as (n' & En & _). congruence.
  - split; [discriminate|]. intros Ha. destruct (Ha s eq_refl) as (n' & En & _). congruence.
Qed.

(** *** Arrays of strings *)

Lemma item_string_iff i (f : bytes -> bool) (P : bytes -> Prop) c m :
  (forall s, f s = true <-> P s) ->
  when (negb match string_at i with Some s => f s | None => false end) (fail c m) = Done tt <->
  exists s, string_at i = Some s /\ P s.
Proof.
  intros Hf. rewrite when_ok, negb_false_iff. destruct (string_at i) as [s|].
  - rewrite Hf. split; [eauto|intros (? & [= <-] & HP); exact HP].
  - split; [discriminate|intros (? & ? & _); discriminate].
Qed.

Lemma string_array_iff a cidr ip field (P : bytes -> Prop) :
  (forall s, proper s -> (negb cidr || valid_cidr s) && (negb ip || valid_ip s) = true <-> P s) ->
  validate_string_array a cidr ip field = Done tt <-> strings_of a P.
Proof.
  intros HP. apply check_all_ok. intros i.
  apply (item_string_iff i (fun s => string_is_trimmed_nonempty (Some s) && (negb cidr || valid_cidr s)
                                       && (negb ip || valid_ip s)) (fun s => proper s /\ P s)).
  intros s. rewrite <- andb_assoc, andb_true_iff, trimmed_nonempty_some.
  split; intros [H1 H2]; (split; [assumption|]); apply (HP s H1); assumption.
Qed.

Lemma plain_array_iff a field :
  validate_string_array a false false field = Done tt <-> strings_of a any.
Proof. apply string_array_iff. intros s _. cbn. unfold any. tauto. Qed.

Lemma cidr_array_iff a field :
  validate_string_array a true false field = Done tt <-> strings_of a cidr_text.
Proof. apply string_array_iff. intros s Hs. cbn. rewrite andb_true_r, cidr_iff. tauto. Qed.

Lemma ip_array_iff a field :
  validate_string_array a false true field = Done tt <-> strings_of a ip_text.
Proof. apply string_array_iff. intros s Hs. cbn. rewrite ip_iff. tauto. Qed.

Lemma network_array_iff a label :
  validate_network_array a label = Done tt <-> strings_of a network_text.
Proof.
  apply check_all_ok. intros i.
  apply (item_string_iff i (fun s => string_is_trimmed_nonempty (Some s)
           && (strcaseeq s (str "tcp") || strcaseeq s (str "udp"))) (fun s => proper s /\ network_text s)).
  intros s. rewrite andb_true_iff, trimmed_nonempty_some, orb_true_iff, !strcaseeq_true. reflexivity.
Qed.

(** ** Facts: the validators of a profile *)

Lemma named_table_iff label prior i :
  validate_named_table label prior i = Done tt <->
  exists n, item_name i = Some n /\ proper n /\ n ∉ omap item_name prior.
Proof.
  unfold validate_named_table. rewrite seq_ok, !when_ok, negb_false_iff, trimmed_nonempty_iff.
  rewrite <- not_true_iff_false, named_elem. fold (names prior). split.
  - intros [(n & E & Hp) Hn]. rewrite E in Hn. eauto.
  - intros (n & E & Hp & Hn). rewrite E. eauto.
Qed.

(** A loop over named tables: the body of each table has its own condition. *)
Lemma named_loop_iff label (body : list (toml_item D) -> toml_item D -> result unit) P l :
  (forall prior i, body prior i = Done tt <-> P i /\ validate_named_table label prior i = Done tt) ->
  check_each body [] l = Done tt <-> named_distinct l /\ Forall P l.
Proof.
  intros Hb. apply check_distinct. intros prior i. rewrite Hb, named_table_iff. reflexivity.
Qed.

Lemma empty_list_iff {A} (l : list A) `{Decision (l = [])} m :
  when (bool_decide (l = [])) (validation_error m) = Done tt <-> l <> [].
Proof. rewrite when_valid, bool_decide_eq_false. reflexivity. Qed.

Lemma chains_iff l :
  check_each validate_chain [] l = Done tt <-> named_distinct l /\ Forall chain_wf l.
Proof.
  apply check_distinct. intros prior i. unfold validate_chain, chain_wf.
  assert (En : item_name i = table ← table_at i; table_string table (str "name")) by reflexivity.
  rewrite En. clear En. destruct (table_at i) as [chain|].
  2: { split; [discriminate|]. intros ((? & ? & _) & _). discriminate. }
  cbn [mbind option_bind]. rewrite !seq_ok, !when_valid, negb_false_iff, trimmed_nonempty_iff.
  rewrite bool_decide_eq_false, <- not_true_iff_false, named_elem.
  rewrite (check_all_ok _ (fun j => exists server protocol, table_at j = Some server /\
              table_string server (str "protocol") = Some protocol /\ proper protocol)).
  2: { intros j. rewrite when_valid, negb_false_iff, trimmed_nonempty_iff.
       destruct (table_at j) as [server|]; cbn [mbind option_bind].
       - split; [intros (p & ? & ?); eauto|intros (? & p & [= <-] & ? & ?); eauto].
       - split; [intros (? & ? & _); discriminate|intros (? & ? & ? & _); discriminate]. }
  split.
  - intros ((n & E & Hp) & Hn & Hs & Hf). rewrite E in Hn. split; eauto.
  - intros [(c & [= <-] & Hs & Hf) (n & E & Hp & Hn)]. rewrite E.
    change (n ∉ names prior) in Hn. cbn [default]. split_and!; eauto.
Qed.

Lemma members_iff chains l m :
  check_each (fun prior j => when (negb (member_valid chains prior j)) (validation_error m)) [] l = Done tt <->
  exists members, map string_at l = map Some members /\ NoDup members /\
    Forall (fun s => proper s /\ s ∈ names chains) members.
Proof.
  rewrite (check_distinct string_at (fun j => exists s, string_at j = Some s /\ s ∈ names chains)).
  2: { intros prior j. rewrite when_valid, negb_false_iff. unfold member_valid.
       destruct (string_at j) as [s|].
       2: { split; [discriminate|]. intros ((? & ? & _) & _). discriminate. }
       rewrite !andb_true_iff, trimmed_nonempty_some, negb_true_iff.
       unfold named_table_exists. rewrite named_elem.
       assert (Hx : existsb (fun j => match string_at j with Some o => beq o s | None => false end) prior = false
                    <-> s ∉ omap string_at prior).
       { rewrite <- not_true_iff_false, existsb_exists, list_elem_of_omap. f_equiv. f_equiv. intros x.
         rewrite list_elem_of_In. destruct (string_at x) as [o|]; rewrite ?beq_true; intuition congruence. }
       rewrite Hx. split.
       - intros [[Hp Hin] Hn]. eauto 10.
       - intros [(s' & [= <-] & Hin) (s'' & [= <-] & Hp & Hn)]. auto. }
  split.
  - intros [[Hp Hnd] Hin]. exists (omap string_at l). split_and!; auto.
    + clear Hin Hnd. induction Hp as [|j l (s & E & _) Hl IH]; cbn; [reflexivity|].
      rewrite E. cbn. rewrite IH. reflexivity.
    + apply list.Forall_forall. intros s (j & Hj & E)%list_elem_of_omap.
      rewrite list.Forall_forall in Hp, Hin. destruct (Hp j Hj) as (s1 & E1 & Hs), (Hin j Hj) as (s2 & E2 & Hs2).
      rewrite E in E1, E2. injection E1 as <-. injection E2 as <-. auto.
  - intros (members & E & Hnd & Hf).
    assert (Eo : omap string_at l = members).
    { clear Hnd Hf. revert members E. induction l as [|j l IH]; intros [|s members] E; try discriminate; [reflexivity|].
      cbn in E. injection E as Ej E. cbn. rewrite Ej. f_equal. auto. }
    assert (Hl : Forall (fun j => exists s, string_at j = Some s /\ proper s /\ s ∈ names chains) l).
    { clear Hnd Eo. revert members E Hf.
      induction l as [|j l IH]; intros [|s members] E Hf; try discriminate; [constructor|].
      cbn in E. injection E as Ej E. inversion_clear Hf as [|? ? [Hp Hn] Hf']. constructor; eauto. }
    rewrite Eo. split_and!; auto; (eapply list.Forall_impl; [exact Hl|]); cbn; intros j (s & Ej & Hp & Hn); eauto.
Qed.

Lemma contains_string_iff a s :
  array_contains_string a (Some s) = true <-> s ∈ omap string_at (items a).
Proof.
  unfold array_contains_string. rewrite existsb_exists, list_elem_of_omap. f_equiv. intros i.
  rewrite list_elem_of_In. destruct (string_at i) as [o|]; rewrite ?beq_true; intuition congruence.
Qed.

Lemma omap_map_Some {A B} (f : A -> option B) l m : map f l = map Some m -> omap f l = m.
Proof.
  revert m. induction l as [|x l IH]; intros [|y m] E; try discriminate; [reflexivity|].
  cbn in E. injection E as Ex E. cbn. rewrite Ex. f_equal. auto.
Qed.

Lemma groups_iff chains l :
  check_each (validate_policy_group chains) [] l = Done tt <-> named_distinct l /\ Forall (group_wf chains) l.
Proof.
  apply (named_loop_iff (str "policy group")). intros prior i. unfold validate_policy_group, group_wf.
  destruct (table_at i) as [group|].
  2: { split; [discriminate|]. intros [(? & ? & ? & ? & _) _]. discriminate. }
  rewrite !seq_ok, members_iff.
  rewrite !duration_field_iff, empty_list_iff, !when_valid, negb_false_iff, url_field_iff.
  assert (Ht : string_equals_one_of (table_string group (str "type")) policy_types false = true <->
               exists type, table_string group (str "type") = Some type /\ type ∈ policy_types).
  { unfold string_equals_one_of, empty. destruct (table_string group (str "type")) as [s|].
    - change (default [] (Some s)) with s. destruct (beq s []) eqn:Eb; [|rewrite bool_decide_eq_true; split; [eauto|intros (? & [= <-] & ?); assumption]].
      apply beq_true in Eb. subst s. split; [discriminate|]. intros (s & [= <-] & Hs).
      exfalso. unfold policy_types in Hs. rewrite !elem_of_cons, elem_of_nil in Hs. intuition discriminate.
    - split; [discriminate|]. intros (? & ? & _). discriminate. }
  rewrite Ht. clear Ht.
  assert (Hsel : forall members,
    map string_at (items (toml_array_in group (str "chains"))) = map Some members ->
    Forall (fun m => proper m /\ m ∈ names chains) members ->
    negb (empty (table_string group (str "selected")))
      && (negb (string_is_trimmed_nonempty (table_string group (str "selected")))
          || negb (array_contains_string (toml_array_in group (str "chains"))
                     (table_string group (str "selected")))) = false <->
    if_given group (str "selected") (fun s => s ∈ members)).
  { intros members Em Hf. rewrite <- negb_andb. apply if_given_iff. intros s Es _.
    rewrite Es, andb_true_iff, contains_string_iff, trimmed_nonempty_some, (omap_map_Some _ _ _ Em).
    split; [tauto|]. intros Hin. split; [|assumption]. rewrite list.Forall_forall in Hf. apply Hf, Hin. }
  split.
  - intros (Hn & (ty & Ety & Hty) & Hne & (members & Em & Hnd & Hf) & Hs & Hu & Hi & Hto).
    split; [|assumption]. exists group, ty, members. apply (Hsel members Em Hf) in Hs.
    assert (members <> []) by (intros ->; apply Hne; destruct (items _); [reflexivity|discriminate]).
    split_and!; auto.
  - intros [(g & ty & members & [= <-] & Ety & Hty & Em & Hmne & Hnd & Hf & Hs & Hu & Hi & Hto) Hn].
    split_and!; eauto.
    + intros E0. rewrite E0 in Em. destruct members; [contradiction|discriminate].
    + apply (Hsel members Em Hf), Hs.
Qed.

Lemma rule_sets_iff l :
  check_each validate_rule_set [] l = Done tt <-> named_distinct l /\ Forall rule_set_wf l.
Proof.
  apply (named_loop_iff (str "rule set")). intros prior i. unfold validate_rule_set, rule_set_wf.
  destruct (table_at i) as [set|].
  2: { split; [discriminate|]. intros [(? & ? & _) _]. discriminate. }
  rewrite !seq_ok, !plain_array_iff, cidr_array_iff, !when_valid, url_field_iff, negb_false_iff.
  rewrite one_of_field_iff.
  assert (Hc : (lenZ (items (toml_array_in set (str "domains"))) +
                lenZ (items (toml_array_in set (str "domain_suffixes"))) +
                lenZ (items (toml_array_in set (str "domain_keywords"))) +
                lenZ (items (toml_array_in set (str "cidrs"))) =? 0) && empty (table_string set (str "url"))
               = false <->
               (exists field, field ∈ inline_fields /\ items (toml_array_in set field) <> []) \/
               exists u, table_string set (str "url") = Some u /\ u <> []).
  { assert (Hl : forall f, items (toml_array_in set f) = [] <-> lenZ (items (toml_array_in set f)) = 0).
    { intros f. destruct (items _) as [|x l']; [tauto|]. rewrite lenZ_cons. pose proof (lenZ_nonneg l').
      split; [discriminate|lia]. }
    pose proof (fun f => lenZ_nonneg (items (toml_array_in set f))) as Hn.
    rewrite andb_false_iff, Z.eqb_neq. split.
    - intros [Hs|He].
      + left. assert (Hx : ~ Forall (fun f => items (toml_array_in set f) = []) inline_fields).
        { unfold inline_fields. rewrite !list.Forall_cons, !Hl. intuition lia. }
        apply list.not_Forall_Exists in Hx; [|intros f; apply _]. apply Exists_exists in Hx as (f & Hf & Hx).
        exists f. split; [apply list_elem_of_In; assumption|assumption].
      + right. unfold empty in He. destruct (table_string set (str "url")) as [u|]; [|discriminate].
        apply beq_false in He. eauto.
    - intros [(f & Hf & Hx)|(u & -> & Hu)].
      + left. rewrite Hl in Hx. unfold inline_fields in Hf. rewrite !elem_of_cons in Hf.
        pose proof (Hn (str "domains")). pose proof (Hn (str "domain_suffixes")).
        pose proof (Hn (str "domain_keywords")). pose proof (Hn (str "cidrs")). pose proof (Hn f).
        destruct Hf as [-> |[-> |[-> |[-> |Hf]]]]; [lia|lia|lia|lia|apply elem_of_nil in Hf as []].
      + right. apply beq_false. exact Hu. }
  rewrite Hc. split.
  - intros (Hn & H1 & H2 & H3 & H4 & H5 & H6 & H7). split; [eauto 10|assumption].
  - intros [(s & [= <-] & H1 & H2 & H3 & H4 & H5 & H6 & H7) Hn]. split_and!; assumption.
Qed.

Lemma tolower_colon s : 58 ∈ map tolower s <-> 58 ∈ s.
Proof.
  rewrite list_elem_of_fmap. split.
  - intros (c & Hc & Hin). unfold tolower in Hc. case_if_in Hc; [lia|]. subst. assumption.
  - intros Hin. exists 58. split; [reflexivity|assumption].
Qed.

(** [strncasecmp] against a key with its colon, when the first colon of the
    action ends the key. *)
Lemma case_prefix_iff word key target :
  (58 ∉ word) -> (58 ∉ key) -> map tolower word = word ->
  case_prefix (word ++ [58]) (key ++ 58 :: target) = true <-> map tolower key = word.
Proof.
  intros Hw Hk El. unfold case_prefix. rewrite is_prefix_spec, !map_app, El. cbn [map].
  change (tolower 58) with 58. split.
  - intros [r E]. rewrite <- app_assoc in E. cbn [app] in E.
    apply (f_equal (split_first 58)) in E. rewrite !split_first_app in E; [congruence| |].
    + exact Hw.
    + intros Hin. apply Hk, tolower_colon, Hin.
  - intros ->. exists (map tolower target). rewrite <- app_assoc. reflexivity.
Qed.

Lemma action_iff chains groups s :
  action_valid chains groups s = true <-> action_wf (names chains) (names groups) s.
Proof.
  unfold action_valid. rewrite !orb_true_iff, !strcaseeq_true.
  change (map tolower (str "direct")) with (str "direct").
  change (map tolower (str "block")) with (str "block").
  change (map tolower (str "reject")) with (str "reject").
  split.
  - intros [Hf|Ha].
    + apply action_fixed. rewrite !elem_of_cons. tauto.
    + destruct (split_first 58 s) as [[key target]|] eqn:Es; [|discriminate].
      apply split_first_Some in Es as [-> Hk]. apply andb_true_iff in Ha as [Hn Ha].
      apply negb_true_iff, beq_false in Hn.
      pose proof (case_prefix_iff (str "chain") key target) as Hc.
      pose proof (case_prefix_iff (str "group") key target) as Hg.
      destruct (case_prefix (str "chain:") (key ++ 58 :: target)) eqn:E1.
      * apply action_chain; [|assumption|apply named_elem, Ha].
        apply Hc; [apply split_first_None; reflexivity|assumption|reflexivity|exact E1].
      * destruct (case_prefix (str "group:") (key ++ 58 :: target)) eqn:E2; [|discriminate].
        apply action_group; [|assumption|apply named_elem, Ha].
        apply Hg; [apply split_first_None; reflexivity|assumption|reflexivity|exact E2].
  - intros Ha. destruct Ha as [s Hf|key name Ek Hne Hin|key name Ek Hne Hin].
    + left. rewrite !elem_of_cons, elem_of_nil in Hf. tauto.
    + right. assert (Hk : 58 ∉ key).
      { rewrite <- tolower_colon, Ek. apply split_first_None. reflexivity. }
      rewrite split_first_app by assumption. rewrite (proj2 (beq_false name [])) by assumption. cbn [negb andb].
      change (str "chain:") with (str "chain" ++ [58]).
      rewrite (proj2 (case_prefix_iff (str "chain") key name ltac:(apply split_first_None; reflexivity) Hk eq_refl) Ek).
      apply named_elem, Hin.
    + right. assert (Hk : 58 ∉ key).
      { rewrite <- tolower_colon, Ek. apply split_first_None. reflexivity. }
      rewrite split_first_app by assumption. rewrite (proj2 (beq_false name [])) by assumption. cbn [negb andb].
      change (str "chain:") with (str "chain" ++ [58]). change (str "group:") with (str "group" ++ [58]).
      rewrite (proj2 (case_prefix_iff (str "group") key name ltac:(apply split_first_None; reflexivity) Hk eq_refl) Ek).
      destruct (case_prefix (str "chain" ++ [58]) (key ++ 58 :: name)) eqn:E1.
      * apply (case_prefix_iff (str "chain") key name) in E1; [rewrite Ek in E1; discriminate| |exact Hk|reflexivity].
        apply split_first_None. reflexivity.
      * apply named_elem, Hin.
Qed.

(** A required field that is a proper string. *)
Lemma required_iff t key m :
  when (negb (string_is_trimmed_nonempty (table_string t key))) (validation_error m) = Done tt <->
  exists s, table_string t key = Some s /\ proper s.
Proof. rewrite when_valid, negb_false_iff. apply trimmed_nonempty_iff. Qed.

Lemma set_references_iff rule sets :
  strings_of (toml_array_in rule (str "rule_sets")) any ->
  validate_rule_set_references rule sets = Done tt <->
  (items (toml_array_in rule (str "rule_sets")) <> [] ->
   Forall (fun field => toml_array_in rule field = None) inline_fields) /\
  strings_of (toml_array_in rule (str "rule_sets")) (fun s => s ∈ names sets).
Proof.
  unfold validate_rule_set_references, strings_of. set (l := items (toml_array_in rule (str "rule_sets"))).
  intros Hproper. case_bool_decide as Hl; [rewrite Hl; split; [intros _; split; [contradiction|constructor]|reflexivity]|].
  rewrite seq_ok, when_valid.
  rewrite (check_all_ok _ (fun i => exists s, string_at i = Some s /\ s ∈ names sets)).
  2: { intros i. apply item_string_iff. intros s. apply named_elem. }
  assert (Hf : existsb (fun field => bool_decide (is_Some (toml_array_in rule field))) inline_fields = false <->
               Forall (fun field => toml_array_in rule field = None) inline_fields).
  { rewrite <- not_true_iff_false, existsb_exists, list.Forall_forall. split.
    - intros Hn f Hf. destruct (toml_array_in rule f) eqn:E; [|reflexivity]. destruct Hn. exists f.
      split; [apply list_elem_of_In, Hf|]. rewrite E. apply bool_decide_eq_true. eauto.
    - intros Hn (f & Hf & Hb). apply bool_decide_eq_true in Hb as [x Hx].
      rewrite Hn in Hx by (apply list_elem_of_In, Hf). discriminate. }
  rewrite Hf. split.
  - intros [H1 H2]. split; [auto|]. clear Hl Hf H1. rewrite list.Forall_forall in *. intros i Hi.
    destruct (Hproper i Hi) as (s & E & Hp & _), (H2 i Hi) as (s' & E' & Hin).
    rewrite E in E'. injection E' as <-. eauto.
  - intros [H1 H2]. split; [auto|]. eapply list.Forall_impl; [exact H2|]. cbn.
    intros i (s & E & Hp & Hin). eauto.
Qed.

Lemma port_iff (j : toml_item D) m :
  when (negb (port_valid j)) (validation_error m) = Done tt <->
  exists port, int_at j = Some port /\ 0 <= port <= 65535.
Proof.
  rewrite when_valid, negb_false_iff. unfold port_valid. destruct (int_at j) as [p|].
  - rewrite andb_true_iff, !Z.leb_le. split; [eauto|intros (? & [= <-] & ?); lia].
  - split; [discriminate|intros (? & ? & _); discriminate].
Qed.

Lemma rule_iff chains groups sets i :
  validate_rule chains groups sets i = Done tt <-> rule_wf chains groups sets i.
Proof.
  unfold validate_rule, rule_wf. destruct (table_at i) as [rule|].
  2: { split; [discriminate|]. intros (? & ? & ? & ? & _). discriminate. }
  rewrite !seq_ok, !required_iff, when_valid, negb_false_iff, action_iff, !cidr_array_iff, network_array_iff.
  rewrite (check_all_ok _ (fun field => strings_of (toml_array_in rule field) any)) by (intros; apply plain_array_iff).
  rewrite (check_all_ok _ (fun j => exists port, int_at j = Some port /\ 0 <= port <= 65535)) by (intros; apply port_iff).
  assert (Hany : Forall (fun field => strings_of (toml_array_in rule field) any) rule_string_fields ->
                 strings_of (toml_array_in rule (str "rule_sets")) any).
  { rewrite list.Forall_forall. intros Ha. apply Ha. unfold rule_string_fields. rewrite !elem_of_cons. tauto. }
  split.
  - intros ((n & En & Hn) & (s & Es & Hs) & Hact & Hf & Hr & Hnet & Hc & Hsc & Hp).
    rewrite Es in Hact. apply set_references_iff in Hr as [Hr1 Hr2]; [|auto].
    exists rule, n, s. split_and!; auto.
  - intros (r & n & s & [= <-] & En & Hn & Es & Hs & Hact & Hf & Hr1 & Hr2 & Hnet & Hc & Hsc & Hp).
    rewrite Es. split_and!; eauto. apply set_references_iff; auto.
Qed.

Lemma subscriptions_iff l :
  check_each validate_rule_subscription [] l = Done tt <-> named_distinct l /\ Forall subscription_wf l.
Proof.
  apply (named_loop_iff (str "rule subscription")). intros prior i.
  unfold validate_rule_subscription, subscription_wf. destruct (table_at i) as [t|].
  2: { split; [discriminate|]. intros [(? & ? & ? & _) _]. discriminate. }
  rewrite !seq_ok, !when_valid, !negb_false_iff, http_url_iff, !one_of_field_iff, network_array_iff.
  split.
  - intros (Hn & (u & Eu & Hu) & H2 & H3 & H4). eauto 10.
  - intros [(t' & u & [= <-] & Eu & Hu & H2 & H3 & H4) Hn]. split_and!; eauto.
Qed.

(** A condition on an optional table. *)
Lemma when_table_iff (o : option (toml_table D)) (body : toml_table D -> result unit) (P : toml_table D -> Prop) :
  (forall t, body t = Done tt <-> P t) ->
  match o with Some t => body t | None => Done tt end = Done tt <-> forall t, o = Some t -> P t.
Proof.
  intros Hb. destruct o as [t|]; [rewrite Hb|]; split; auto.
  - intros HP t' [= <-]. exact HP.
  - intros _ t Ht. discriminate.
Qed.

Lemma chain_reference_iff t key chains m :
  when (bool_decide (chains = []) || negb (chain_found (table_string t key) chains)) (validation_error m)
  = Done tt <-> chain_reference t key chains.
Proof.
  rewrite when_valid, orb_false_iff, bool_decide_eq_false. unfold chain_reference, chain_found.
  f_equiv. rewrite negb_orb, <- (if_given_iff t key (existsb (named (default [] (table_string t key))) chains)).
  - reflexivity.
  - intros s -> _. apply named_elem.
Qed.

Lemma listener_iff t chains address_key chain_key max_key timeout_key :
  validate_listener t chains address_key chain_key max_key timeout_key = Done tt <->
  listener_wf t chains address_key chain_key max_key timeout_key.
Proof.
  unfold validate_listener, listener_wf. rewrite !seq_ok, duration_field_iff, when_valid, Z.ltb_ge.
  f_equiv. unfold if_given, empty. destruct (table_string t address_key) as [s|].
  2: { split; [intros _ s Hs; discriminate|reflexivity]. }
  change (default [] (Some s)) with s. destruct (beq s []) eqn:Eb.
  - apply beq_true in Eb. split; [intros _ s' [= <-]; contradiction|reflexivity].
  - apply beq_false in Eb. rewrite seq_ok, when_valid, negb_false_iff, listen_address_iff, chain_reference_iff.
    split; [intros [(? & [= <-] & Ha) Hc] s' [= <-] _; auto|].
    intros Ha. destruct (Ha s eq_refl Eb). eauto.
Qed.

Lemma enabled_iff t key : table_bool_default t key false = true <-> toml_bool_in t key = Some true.
Proof.
  unfold table_bool_default. destruct (toml_bool_in t key) as [[]|]; cbn; split; congruence.
Qed.

Lemma tun_iff t chains :
  validate_tun t chains = Done tt <-> forall tun, toml_table_in t (str "tun") = Some tun -> tun_wf tun chains.
Proof.
  apply when_table_iff. intros tun. unfold tun_wf. rewrite <- enabled_iff.
  destruct (table_bool_default tun (str "enabled") false); [|split; [discriminate|reflexivity]].
  rewrite !seq_ok, chain_reference_iff, !cidr_array_iff, when_valid, Z.ltb_ge, !list.Forall_cons. 
  split; [intros ? _; split_and!; try apply list.Forall_nil; tauto|intros Ha; destruct (Ha eq_refl); tauto].
Qed.

Lemma listen_iff t chains : validate_listen t chains = Done tt <-> listen_wf t chains.
Proof.
  apply when_table_iff. intros listen. rewrite !seq_ok, !listener_iff, tun_iff. reflexivity.
Qed.

Lemma upstream_iff t :
  upstream_ok (table_string t (str "protocol")) (table_string t (str "url")) (table_string t (str "address"))
    (table_string t (str "resolver")) (table_string t (str "transport")) = None <-> upstream_wf t.
Proof.
  unfold upstream_ok.
  assert (Hp : forall p, table_string t (str "protocol") = Some p ->
               p ∈ [str "doh"; str "dot"; str "doq"; str "controld"] ->
               string_is_trimmed_nonempty (table_string t (str "protocol")) = true).
  { intros p -> Hin. rewrite !elem_of_cons, elem_of_nil in Hin.
    destruct Hin as [-> |[-> |[-> |[-> |[]]]]]; reflexivity. }
  split.
  - destruct (string_is_trimmed_nonempty (table_string t (str "protocol"))) eqn:Et; cbn [negb]; [|discriminate].
    apply trimmed_nonempty_iff in Et as (p & Ep & _). rewrite Ep.
    change (default [] (Some p)) with p. destruct (beq p (str "doh")) eqn:E1.
    { apply beq_true in E1. subst p. case_if; [discriminate|]. intros _.
      apply orb_false_iff in Heqb as [Hu Ha]. apply negb_false_iff, http_url_iff in Hu as (u & Eu & Hu).
      apply given_empty_iff in Ha. eapply upstream_doh; eauto. }
    destruct (beq p (str "dot") || beq p (str "doq")) eqn:E2.
    { case_if; [discriminate|]. intros _. apply orb_false_iff in Heqb as [Ha Hu].
      apply negb_false_iff, listen_address_iff in Ha as (adr & Ea & Ha). apply given_empty_iff in Hu.
      eapply upstream_direct; eauto. rewrite orb_true_iff, !beq_true in E2. rewrite !elem_of_cons. tauto. }
    destruct (beq p (str "controld")) eqn:E3; [|discriminate]. apply beq_true in E3. subst p.
    case_if; [discriminate|]. intros _. rewrite !orb_false_iff in Heqb.
    destruct Heqb as [[[[Hr Hc] Ht] Hu] Ha]. apply negb_false_iff, trimmed_nonempty_iff in Hr as (r & Er & Hr).
    rewrite Er in Hc. change (default [] (Some r)) with r in Hc.
    apply given_empty_iff in Hu, Ha. eapply upstream_controld; eauto.
    + apply list.Forall_forall. intros c Hin Hbad. apply not_true_iff_false in Hc. apply Hc, existsb_exists.
      exists c. split; [apply list_elem_of_In, Hin|apply bool_decide_eq_true, Hbad].
    + revert Ht. apply if_given_iff. intros s -> _. apply bool_decide_eq_true.
  - intros [url Ep Eu Hu Ha|p address Hin Ep Ea Ha Hu|r Ep Er Hr Hc Ht Hu Ha].
    + rewrite (Hp _ Ep) by (rewrite !elem_of_cons; tauto). rewrite Ep. cbn [negb].
      change (beq (default [] (Some (str "doh"))) (str "doh")) with true. cbv iota.
      rewrite (proj2 (http_url_iff _ true)) by eauto. rewrite (proj2 (given_empty_iff t _) Ha). reflexivity.
    + rewrite (Hp _ Ep) by (rewrite !elem_of_cons in *; tauto). rewrite Ep. cbn [negb].
      change (default [] (Some p)) with p.
      rewrite (proj2 (listen_address_iff _ false)) by eauto. rewrite (proj2 (given_empty_iff t _) Hu).
      rewrite !elem_of_cons, elem_of_nil in Hin. destruct Hin as [-> |[-> |[]]]; reflexivity.
    + rewrite (Hp _ Ep) by (rewrite !elem_of_cons; tauto). rewrite Ep. cbn [negb].
      change (beq (default [] (Some (str "controld"))) (str "doh")) with false.
      change (beq (default [] (Some (str "controld"))) (str "dot") || beq (default [] (Some (str "controld"))) (str "doq")) with false.
      change (beq (default [] (Some (str "controld"))) (str "controld")) with true. cbv iota.
      rewrite (proj2 (trimmed_nonempty_iff _)) by eauto.
      rewrite (proj2 (given_empty_iff t _) Hu), (proj2 (given_empty_iff t _) Ha), Er. cbn [negb orb].
      change (default [] (Some r)) with r.
      assert (Ex : existsb (fun c => bool_decide (c ∈ [32; 9; 13; 10; 47])) r = false).
      { apply not_true_iff_false. rewrite existsb_exists. intros (c & Hc1 & Hc2).
        apply bool_decide_eq_true in Hc2. rewrite list.Forall_forall in Hc.
        apply (Hc c); [apply list_elem_of_In|]; assumption. }
      rewrite Ex. cbn [orb]. apply (if_given_iff t (str "transport")
        (bool_decide (default [] (table_string t (str "transport")) ∈ [str "doh"; str "dot"; str "doq"]))) in Ht.
      * rewrite Ht. reflexivity.
      * intros s -> _. apply bool_decide_eq_true.
Qed.

Lemma dns_iff t : validate_dns t = Done tt <-> dns_wf t.
Proof.
  apply when_table_iff. intros dns. rewrite seq_ok, duration_field_iff. f_equiv. rewrite <- enabled_iff.
  destruct (table_bool_default dns (str "enabled") false); cbn [negb]; [|split; [discriminate|reflexivity]].
  assert (Hu : forall i, validate_upstream i = Done tt <-> exists t, table_at i = Some t /\ upstream_wf t /\
               strings_of (toml_array_in t (str "bootstrap_ips")) ip_text).
  { intros i. unfold validate_upstream. destruct (table_at i) as [u|].
    2: { split; [discriminate|intros (? & ? & _); discriminate]. }
    pose proof (upstream_iff u) as Hiff. destruct (upstream_ok _ _ _ _ _).
    - split; [discriminate|]. intros (? & [= <-] & Hw & _). apply Hiff in Hw. discriminate.
    - rewrite ip_array_iff. split; [|intros (? & [= <-] & _ & ?); assumption].
      intros Hs. exists u. split_and!; auto. apply Hiff. reflexivity. }
  destruct (items (toml_array_in dns (str "upstream"))) as [|u l]; [split; [discriminate|intros Ha; destruct (Ha eq_refl); contradiction]|].
  rewrite (check_all_ok _ _ _ _ Hu). split; [intros Hf _; split; [discriminate|exact Hf]|].
  intros Ha. apply Ha. reflexivity.
Qed.

Lemma profile_iff t : validate_profile t = Done tt <-> profile_wf t.
Proof.
  unfold validate_profile, validate_policy_groups, validate_rule_sets, validate_rules,
    validate_rule_subscriptions. cbv zeta.
  rewrite !seq_ok, chains_iff, groups_iff, rule_sets_iff, subscriptions_iff, listen_iff, dns_iff.
  rewrite (check_all_ok _ _ _ _ (rule_iff _ _ _)).
  rewrite (when_table_iff _ _ (fun c => duration_field c (str "latency") false /\ duration_field c (str "jitter") false))
    by (intros c; rewrite seq_ok, !duration_field_iff; reflexivity).
  assert (Hapi : when (negb (empty (api ← toml_table_in t (str "api"); table_string api (str "listen")))
                       && negb (valid_listen_address (api ← toml_table_in t (str "api"); table_string api (str "listen")) true))
                   (validation_error (str "api.listen must be host:port")) = Done tt <->
                 forall api, toml_table_in t (str "api") = Some api -> if_given api (str "listen") (listen_address 0)).
  { rewrite when_valid. destruct (toml_table_in t (str "api")) as [api|]; cbn [mbind option_bind].
    - rewrite listen_field_iff. split; [intros Ha ? [= <-]; exact Ha|auto].
    - split; [intros _ api Hapi; discriminate|reflexivity]. }
  rewrite Hapi. split.
  - intros ([? ?] & [? ?] & [? ?] & ? & [? ?] & ? & ? & ? & ?). constructor; assumption.
  - intros []. split_and!; assumption.
Qed.

(** ** Facts: developer settings and the document *)

Lemma case_array_iff a upper label :
  validate_case_array a upper label = Done tt <-> strings_of a (cased upper).
Proof.
  apply check_all_ok. intros i.
  apply (item_string_iff i (fun s => string_has_case_and_trim s upper) (fun s => proper s /\ cased upper s)).
  intros s. unfold string_has_case_and_trim, cased. rewrite andb_true_iff, trimmed_nonempty_some. f_equiv.
  rewrite forallb_forall, List.Forall_forall.
  assert (Hc : forall c, negb (isalpha c && (if upper then negb (isupper c) else negb (islower c))) = true <->
                         (if upper then islower c else isupper c) = false).
  { intros c. unfold isalpha. destruct upper; unfold isupper, islower; lia. }
  split; intros Ha c Hin; apply Hc, Ha, Hin.
Qed.

Lemma trimmed_fields_iff t m keys :
  check_each (fun _ key => when (negb (string_is_trimmed (table_string t key))) (validation_error m)) [] keys
  = Done tt <-> Forall (trimmed_field t) keys.
Proof. apply check_all_ok. intros key. rewrite when_valid, negb_false_iff. apply trimmed_iff. Qed.

Lemma developer_common_iff t : validate_developer_rule_common t = Done tt <-> developer_common_wf t.
Proof.
  unfold validate_developer_rule_common, developer_common_wf, validate_developer_match.
  rewrite !seq_ok, required_iff, when_valid, negb_false_iff, trimmed_iff.
  rewrite (when_table_iff _ _ (fun m => Forall (trimmed_field m) [str "host"; str "path_prefix"; str "url_contains"] /\
             strings_of (toml_array_in m (str "methods")) (cased true))); [reflexivity|].
  intros m. rewrite seq_ok, trimmed_fields_iff, case_array_iff. reflexivity.
Qed.

Lemma map_target_iff t :
  validate_map_target (table_string t (str "kind")) (table_string t (str "local_path"))
    (table_string t (str "remote_url")) = Done tt <-> map_target_wf t.
Proof.
  unfold validate_map_target, map_target_wf. rewrite seq_ok, when_valid, negb_false_iff, bool_decide_eq_true.
  rewrite !elem_of_cons, elem_of_nil. split.
  - intros [[Ek|[Ek|[]]] Hv]; rewrite Ek in *; revert Hv.
    + change (beq (default [] (Some (str "local"))) (str "local")) with true. cbv iota.
      rewrite when_valid, !orb_false_iff, given_empty_iff, !negb_false_iff, trimmed_nonempty_iff.
      intros [[(p & Ep & Hp) Hh] Hr]. left. split_and!; auto. exists p. split_and!; auto.
      rewrite Ep in Hh. apply head_byte; [lia|]. apply Z.eqb_eq. exact Hh.
    + change (beq (default [] (Some (str "remote"))) (str "local")) with false. cbv iota.
      rewrite when_valid, orb_false_iff, given_empty_iff, negb_false_iff, http_url_iff. intros [Hu Hl]. right. auto.
  - intros [(Ek & (p & Ep & Hp & Hh) & Hr)|(Ek & Hu & Hl)]; rewrite Ek; (split; [auto|]).
    + change (beq (default [] (Some (str "local"))) (str "local")) with true. cbv iota.
      rewrite when_valid, !orb_false_iff, given_empty_iff, !negb_false_iff, trimmed_nonempty_iff, Ep.
      split_and!; eauto. apply Z.eqb_eq. apply head_byte in Hh; [exact Hh|lia].
    + change (beq (default [] (Some (str "remote"))) (str "local")) with false. cbv iota.
      rewrite when_valid, orb_false_iff, given_empty_iff, negb_false_iff, http_url_iff. auto.
Qed.

Lemma map_rule_iff i : validate_map_rule i = Done tt <-> map_rule_wf i.
Proof.
  unfold validate_map_rule, map_rule_wf. destruct (table_at i) as [rule|].
  2: { split; [discriminate|]. intros (? & ? & _). discriminate. }
  rewrite !seq_ok, developer_common_iff, map_target_iff, when_valid, orb_false_iff.
  rewrite (check_all_ok _ proper)
    by (intros k; rewrite when_valid, negb_false_iff, trimmed_nonempty_some; reflexivity).
  assert (Hh : Forall proper match toml_table_in rule (str "headers") with Some t => toml_keys t | None => [] end <->
               forall headers, toml_table_in rule (str "headers") = Some headers -> Forall proper (toml_keys headers)).
  { destruct (toml_table_in rule (str "headers")) as [h|].
    - split; [intros Hf ? [= <-]; exact Hf|auto].
    - split; [intros _ ? ?; discriminate|constructor]. }
  rewrite Hh. split.
  - intros (H1 & H2 & H3 & H4). exists rule. split_and!; auto; lia.
  - intros (r & [= <-] & H1 & H2 & H3 & H4). split_and!; auto; lia.
Qed.

Lemma stage_iff t stage : validate_developer_stage t = Done stage <-> staged t stage.
Proof.
  unfold validate_developer_stage, staged. destruct (table_string t (str "stage")) as [s|].
  - case_bool_decide as Hs.
    + split; [intros [= <-]; auto|intros [[= <-] _]; reflexivity].
    + split; [discriminate|]. intros [[= <-] Hin]. contradiction.
  - split; [discriminate|]. intros [? _]. discriminate.
Qed.

Lemma breakpoint_iff i :
  validate_breakpoint_rule i = Done tt <->
  exists rule stage, table_at i = Some rule /\ developer_common_wf rule /\ staged rule stage.
Proof.
  unfold validate_breakpoint_rule. destruct (table_at i) as [rule|].
  2: { split; [discriminate|]. intros (? & ? & ? & _). discriminate. }
  rewrite seq_ok, developer_common_iff. split.
  - intros [Hc Hs]. destruct (validate_developer_stage rule) as [stage| |] eqn:E; try discriminate.
    apply stage_iff in E. eauto.
  - intros (r & stage & [= <-] & Hc & Hs). apply stage_iff in Hs. rewrite Hs. auto.
Qed.

Lemma given_iff o : negb (empty o) = true <-> exists s : bytes, o = Some s /\ s <> [].
Proof.
  unfold empty. rewrite negb_true_iff, beq_false. destruct o as [s|]; cbn.
  - split; [eauto|intros (? & [= <-] & Hs); exact Hs].
  - split; [contradiction|intros (? & ? & _); discriminate].
Qed.

Lemma given_any t key : negb (empty (table_string t key)) = true <-> given t key any.
Proof.
  rewrite given_iff. unfold given, any. split; intros (s & ? & ?); [eauto|]. exists s. tauto.
Qed.

Lemma given_proper t key : string_is_trimmed_nonempty (table_string t key) = true <-> given t key proper.
Proof.
  rewrite trimmed_nonempty_iff. unfold given. split; [intros (s & ? & Hp)|intros (s & ? & _ & Hp)]; eauto.
  exists s. split_and!; auto. apply Hp.
Qed.

Lemma given_status t :
  parse_http_status (table_string t (str "value")) = true <->
  given t (str "value") (fun v => exists n, reads v n /\ 100 <= n <= 599).
Proof.
  unfold parse_http_status, given. destruct (table_string t (str "value")) as [s|].
  - rewrite reads_iff. split.
    + intros (n & Hr & Hn). exists s. split_and!; eauto. apply Hr.
    + intros (? & [= <-] & _ & Hn). exact Hn.
  - split; [discriminate|]. intros (? & ? & _). discriminate.
Qed.

Lemma rewrite_op_iff t stage :
  validate_developer_rewrite_op t stage = Done tt <-> rewrite_op_wf stage t.
Proof.
  unfold validate_developer_rewrite_op. cbv zeta. rewrite when_valid, negb_false_iff. unfold rewrite_op_valid. split.
  - destruct (table_string t (str "target")) as [target|] eqn:Et; [|discriminate].
    destruct (table_string t (str "action")) as [action|] eqn:Ea; [|discriminate].
    destruct (beq target (str "header")) eqn:E1.
    { apply beq_true in E1. subst target. rewrite !andb_true_iff, !orb_true_iff, !beq_true, negb_true_iff.
      rewrite given_proper, given_any. intros [[Hact Hf] Hv].
      destruct Hact as [[-> | ->]| ->]; [| |apply op_header_remove; assumption].
      - eapply op_header_write; eauto; [rewrite !elem_of_cons; tauto|]. destruct Hv as [Hv|Hv]; [discriminate Hv|exact Hv].
      - eapply op_header_write; eauto; [rewrite !elem_of_cons; tauto|]. destruct Hv as [Hv|Hv]; [discriminate Hv|exact Hv]. }
    destruct (beq target (str "body")) eqn:E2.
    { apply beq_true in E2. subst target. destruct (beq action (str "set")) eqn:A1.
      - apply beq_true in A1. subst action. rewrite given_any. apply op_body_set; assumption.
      - destruct (beq action (str "replace")) eqn:A2; [|discriminate]. apply beq_true in A2. subst action.
        rewrite andb_true_iff, !given_any. intros []. apply op_body_replace; assumption. }
    destruct (beq target (str "status")) eqn:E3; [|discriminate]. apply beq_true in E3. subst target.
    rewrite !andb_true_iff, beq_true, negb_true_iff, beq_false, given_status.
    intros [[-> Hs] Hv]. apply op_status; assumption.
  - intros [action -> -> Hin Hf Hv| -> -> Hf| -> -> Hv| -> -> Hv Hr| -> -> Hs Hv].
    + rewrite (proj2 (given_proper t _) Hf), (proj2 (given_any t _) Hv).
      rewrite !elem_of_cons, elem_of_nil in Hin. destruct Hin as [-> |[-> |[]]]; reflexivity.
    + rewrite (proj2 (given_proper t _) Hf). reflexivity.
    + rewrite (proj2 (given_any t _) Hv). reflexivity.
    + rewrite (proj2 (given_any t _) Hv), (proj2 (given_any t _) Hr). reflexivity.
    + change (beq (str "set") (str "set") && negb (beq stage (str "request")) &&
              parse_http_status (table_string t (str "value")) = true).
      rewrite (proj2 (beq_false stage _) Hs), (proj2 (given_status t) Hv). reflexivity.
Qed.

Lemma rewrite_rule_iff i : validate_rewrite_rule i = Done tt <-> rewrite_rule_wf i.
Proof.
  unfold validate_rewrite_rule, rewrite_rule_wf. destruct (table_at i) as [rule|].
  2: { split; [discriminate|]. intros (? & ? & ? & _). discriminate. }
  rewrite seq_ok, developer_common_iff.
  assert (Hop : forall stage, check_each (fun _ j => match table_at j with
             | None => silent_error | Some op => validate_developer_rewrite_op op stage end) []
             (items (toml_array_in rule (str "op"))) = Done tt <->
           Forall (fun j => exists op, table_at j = Some op /\ rewrite_op_wf stage op)
             (items (toml_array_in rule (str "op")))).
  { intros stage. apply check_all_ok. intros j. destruct (table_at j) as [op|].
    - rewrite rewrite_op_iff. split; [eauto|intros (? & [= <-] & ?); assumption].
    - split; [discriminate|intros (? & ? & _); discriminate]. }
  split.
  - intros [Hc Hs]. destruct (validate_developer_stage rule) as [stage| |] eqn:E; try discriminate.
    cbn [mbind outcome_bind] in Hs. rewrite seq_ok, empty_list_iff, Hop in Hs.
    apply stage_iff in E. exists rule, stage. tauto.
  - intros (r & stage & [= <-] & Hc & Hs & Hne & Hf). apply stage_iff in Hs. rewrite Hs.
    cbn [mbind outcome_bind]. rewrite seq_ok, empty_list_iff, Hop. auto.
Qed.

Lemma developer_iff (o : option (toml_table D)) :
  validate_developer o = Done tt <-> forall t, o = Some t -> developer_wf t.
Proof.
  apply when_table_iff. intros t.
  unfold validate_developer_map_rules, validate_developer_breakpoint_rules, validate_developer_rewrite_rules.
  rewrite !seq_ok, trimmed_fields_iff, !case_array_iff.
  rewrite (check_all_ok _ (fun key => 0 <= table_int_default t key 0)) by (intros k; rewrite when_valid, Z.ltb_ge; reflexivity).
  rewrite (check_all_ok _ _ _ _ map_rule_iff), (check_all_ok _ _ _ _ breakpoint_iff), (check_all_ok _ _ _ _ rewrite_rule_iff).
  split.
  - intros (? & ? & ? & ? & ? & ? & ? & ?). constructor; try assumption.
    rewrite !list.Forall_cons. split_and!; auto.
  - intros [? ? Hr ? ? ?]. rewrite !list.Forall_cons in Hr. tauto.
Qed.

Lemma prompt_iff t :
  validate_prompt t = Done tt <->
  forall p, toml_table_in t (str "prompt") = Some p ->
    0 <= table_int_default p (str "timeout_seconds") 0 /\
    if_given p (str "silent_mode") (fun s => s ∈ [str "allow"; str "deny"]).
Proof.
  apply when_table_iff. intros p. rewrite seq_ok, !when_valid, Z.ltb_ge. f_equiv.
  apply if_given_iff. intros s -> _. apply bool_decide_eq_true.
Qed.

Lemma profiles_iff l :
  check_each validate_profile_item [] l = Done tt <->
  named_distinct l /\ Forall (fun i => exists profile, table_at i = Some profile /\ profile_wf profile) l.
Proof.
  apply check_distinct. intros prior i. unfold validate_profile_item.
  rewrite !seq_ok, !when_valid, negb_false_iff, trimmed_nonempty_iff, <- not_true_iff_false, named_elem.
  split.
  - intros ((n & En & Hp) & Hn & Hv). rewrite En in Hn. destruct (table_at i) as [t|]; [|discriminate].
    apply profile_iff in Hv. split; eauto.
  - intros [(t & Et & Hw) (n & En & Hp & Hn)]. rewrite En, Et. change (n ∉ names prior) in Hn.
    split_and!; eauto. apply profile_iff, Hw.
Qed.

Lemma config_iff (root : toml_table D) : validate_config root = Done tt <-> config_wf root.
Proof.
  unfold validate_config. cbv zeta.
  rewrite !seq_ok, empty_list_iff, profiles_iff, prompt_iff, developer_iff, when_valid, negb_false_iff, trimmed_iff.
  rewrite (when_table_iff _ _ (fun t => duration_field t (str "history_max_age") false))
    by (intros t; apply duration_field_iff).
  rewrite when_ok, (if_given_iff root (str "active") _ (fun s => s ∈ names (items (toml_array_in root (str "profile")))))
    by (intros s -> _; apply named_elem).
  split.
  - intros (H1 & H2 & [H3 H4] & H5 & H6 & H7 & H8). constructor; try assumption.
    intros s Es Hs. split; [exact (H2 s Es Hs)|exact (H5 s Es Hs)].
  - intros [H1 H2 H3 H4 H5 H6 H7]. split_and!; try assumption; intros s Es Hs; apply (H4 s Es Hs).
Qed.

(** *** Properties *)

(** C8: Validation is exact.  A document is accepted if and only if it is
    well-formed in the declarative sense of [config_wf]: it has profiles with
    distinct proper names, and in each profile every chain, policy group, rule
    set, rule, subscription, listener, DNS upstream and developer rule has what
    it needs, every reference (of a rule to a chain, a group or a rule set, of a
    group or a listener to a chain, of [active] to a profile) names something
    that exists, and every address, block, URL, port and duration has its
    format. *)
Theorem validate_config_iff (root : toml_table D) : validate_config root = Done tt <-> config_wf root.
Proof. apply config_iff. Qed.

(** (code bug) loading can report success without a configuration.  When the
    [policy_group] of a profile is an array whose first element is not a table
    (for instance [policy_group = [1]]), validation fails without setting the
    error; [ch_config_parse] then returns the code of the cleared error, which
    is [CH_OK], and stores no configuration. *)
Theorem parse_ok_without_config (toml_parse : bytes -> toml_table D + bytes) toml path (root profile : toml_table D)
    rest group groups name :
  toml_parse toml = inl root ->
  trimmed_field root (str "active") ->
  items (toml_array_in root (str "profile")) = item_tab profile :: rest ->
  table_string profile (str "name") = Some name -> proper name ->
  named_distinct (items (toml_array_in profile (str "chain"))) ->
  Forall chain_wf (items (toml_array_in profile (str "chain"))) ->
  items (toml_array_in profile (str "policy_group")) = group :: groups ->
  table_at group = None ->
  ch_config_parse toml_parse toml path = Done (CH_OK, None, ch_error_clear).
Proof.
  intros Hparse Hact Hprof Hname Hproper Hch Hchw Hgroups Hgroup.
  assert (Hv : validate_config root = silent_error).
  { unfold validate_config. cbv zeta. rewrite Hprof. cbn [bool_decide decide list_eq_nil_dec when mbind outcome_bind].
    rewrite (proj2 (trimmed_iff root (str "active")) Hact). cbn [negb when mbind outcome_bind check_each].
    unfold validate_profile_item. change (item_name (item_tab profile)) with (table_string profile (str "name")).
    rewrite Hname, (proj2 (trimmed_nonempty_some name) Hproper).
    cbn [negb when existsb table_at mbind outcome_bind]. unfold validate_profile. cbv zeta.
    rewrite (proj2 (chains_iff _) (conj Hch Hchw)). cbn [mbind outcome_bind].
    unfold validate_policy_groups. rewrite Hgroups. cbn [check_each]. unfold validate_policy_group.
    rewrite Hgroup. reflexivity. }
  unfold ch_config_parse. rewrite Hparse, Hv. reflexivity.
Qed.

End Validity.

(** ** A document *)

Import PlainInet PlainLongDouble.

Definition w_str (s : bytes) : toml_raw unit := mk_raw (Some s) None None None.
Definition w_int (n : Z) : toml_raw unit := mk_raw None None (Some n) (Some tt).
Definition w_bool (b : bool) : toml_raw unit := mk_raw None (Some b) None None.
Definition w_strings (l : list bytes) : toml_array unit := mk_array (map (fun s => item_val (w_str s)) l).
Definition w_tables (l : list (toml_table unit)) : toml_array unit := mk_array (map item_tab l).

Definition w_chain (name : bytes) : toml_table unit :=
  mk_table [(str "name", w_str name)]
    [(str "server", w_tables [mk_table [(str "protocol", w_str (str "socks5"))] [] []])] [].

Definition w_group : toml_table unit :=
  mk_table [(str "name", w_str (str "auto")); (str "type", w_str (str "smart"));
            (str "interval", w_str (str "1m30s"))]
    [(str "chains", w_strings [str "main"; str "exit"])] [].

Definition w_rule (name act : bytes) (arrays : list (bytes * toml_array unit)) : toml_table unit :=
  mk_table [(str "name", w_str name); (str "action", w_str act)] arrays [].

Definition w_listen : toml_table unit :=
  mk_table [(str "socks5", w_str (str "127.0.0.1:1080")); (str "socks5_chain", w_str (str "main"))] [] [].

Definition w_subscription (act : bytes) : toml_table unit :=
  mk_table [(str "name", w_str (str "ads")); (str "url", w_str (str "https://lists.example/ads.txt"));
            (str "action", w_str act)] [] [].

Definition w_profile_of (groups : toml_array unit) (subscriptions : list (toml_table unit)) : toml_table unit :=
  mk_table [(str "name", w_str (str "home"))]
    [(str "chain", w_tables [w_chain (str "main"); w_chain (str "exit")]);
     (str "policy_group", groups);
     (str "rule_set", w_tables [mk_table [(str "name", w_str (str "lan"))]
                                  [(str "cidrs", w_strings [str "10.0.0.0/8"])] []]);
     (str "rule", w_tables [w_rule (str "local") (str "Direct") [(str "rule_sets", w_strings [str "lan"])];
                            w_rule (str "ads") (str "group:auto")
                              [(str "domain_suffixes", w_strings [str ".example"]);
                               (str "ports", mk_array [item_val (w_int 443)])]]);
     (str "rule_subscription", w_tables subscriptions)]
    [(str "listen", w_listen)].

Definition w_profile : toml_table unit := w_profile_of (w_tables [w_group]) [w_subscription (str "reject")].

Definition w_root_of (profile : toml_table unit) : toml_table unit :=
  mk_table [(str "active", w_str (str "home"))] [(str "profile", w_tables [profile])] [].

Definition w_root : toml_table unit := w_root_of w_profile.

Example w_root_valid : validate_config w_root = Done tt.
Proof. vm_compute. reflexivity. Qed.

Example w_root_invalid :
  validate_config (w_root_of (w_profile_of (w_tables [w_chain (str "auto")]) []))
  = validation_error (str "policy group type must be select, url-test, fallback, load-balance, or smart").
Proof. vm_compute. reflexivity. Qed.

Definition w_bad_profile : toml_table unit := w_profile_of (mk_array [item_val (w_int 1)]) [].

End Validity.
