(* ===== verification/ConfigText.v ===== *)
(** * Texts of the configuration: [native/src/config.c]

    Durations read back as what they say, the line of the document that names
    the active profile, paths relative to the document, and the JSON form of a
    table. *)

From S2P Require Import Prelude CLib Inet Json JsonText Config ConfigValid.

Module ConfigText.
Import Config Json JsonText.

(** ** Durations *)

Inductive time_unit : Type := unit_ns | unit_us | unit_ms | unit_s | unit_m | unit_h.

Definition unit_text (u : time_unit) : bytes :=
  match u with
  | unit_ns => str "ns" | unit_us => str "us" | unit_ms => str "ms"
  | unit_s => str "s" | unit_m => str "m" | unit_h => str "h"
  end.

Definition unit_ns_of (u : time_unit) : Z :=
  match u with
  | unit_ns => 1 | unit_us => 1000 | unit_ms => 1000000
  | unit_s => 1000000000 | unit_m => 60 * 1000000000 | unit_h => 3600 * 1000000000
  end.

(** A duration as people write it: [1h30m], [250ms]. *)
Definition duration_text (segments : list (Z * time_unit)) : bytes :=
  concat (map (fun '(n, u) => dec n ++ unit_text u) segments).

Definition duration_value (segments : list (Z * time_unit)) : Z :=
  foldr Z.add 0 (map (fun '(n, u) => n * unit_ns_of u) segments).

Lemma duration_value_nonneg segments :
  Forall (fun '(n, _) => 0 <= n) segments -> 0 <= duration_value segments.
Proof.
  induction 1 as [|[n u] l Hn Hl IH]; [reflexivity|].
  change (0 <= n * unit_ns_of u + duration_value l). destruct u; cbn; lia.
Qed.

Section DurationFacts.
Context `{LongDouble}.

Lemma dec_first n : 0 <= n -> exists c d, dec n = c :: d /\ isdigit c = true.
Proof.
  intros Hn. destruct (dec_nonneg_spec n Hn) as (Hok & _ & c & d & E & _). unfold dec.
  rewrite (proj2 (Z.ltb_ge n 0)) by lia. exists c, d. split; [assumption|]. rewrite E in Hok. inversion Hok; assumption.
Qed.

Lemma duration_text_first n u l :
  0 <= n -> exists c r, duration_text ((n, u) :: l) = c :: r /\ isdigit c = true /\ (1 <= length r)%nat.
Proof.
  intros Hn. change (duration_text ((n, u) :: l)) with ((dec n ++ unit_text u) ++ duration_text l).
  destruct (dec_first n Hn) as (c & d & -> & Hc). cbn [app]. do 2 eexists. split_and!; [reflexivity|assumption|].
  rewrite !length_app. destruct u; cbn; lia.
Qed.

(** The unit is not confused with a longer one: a number follows, or nothing. *)
Lemma duration_unit_read u segments :
  Forall (fun '(n, _) => 0 <= n) segments ->
  duration_unit (unit_text u ++ duration_text segments) = Some (unit_ns_of u, duration_text segments).
Proof.
  intros Hs. assert (Hd : duration_text segments = [] \/
    exists c r, duration_text segments = c :: r /\ isdigit c = true).
  { destruct Hs as [|[n u'] l Hn Hl]; [left; reflexivity|right].
    destruct (duration_text_first n u' l Hn) as (c & r & E & Hc & _). eauto. }
  unfold duration_unit. destruct Hd as [-> |(c & r & -> & Hc)]; [destruct u; reflexivity|].
  assert (Hm : (115 =? c) = false) by (unfold isdigit in Hc; lia).
  destruct u; unfold unit_text; literals; cbn [app is_prefix drop];
    rewrite ?Hm; reflexivity.
Qed.

Lemma duration_loop_sum segments text acc fuel consumed :
  Forall (fun '(n, _) => 0 <= n) segments -> 0 <= acc -> acc + duration_value segments <= 2 ^ 53 ->
  (length segments <= fuel)%nat ->
  duration_loop fuel text (duration_text segments) (ld_of_Z acc) consumed
  = Done (ld_of_Z (acc + duration_value segments),
          match segments with [] => consumed | _ => true end).
Proof.
  intros Hs. revert acc fuel consumed. induction Hs as [|[n u] l Hn Hl IH]; intros acc fuel consumed Ha Hle Hf.
  { destruct fuel; cbn; rewrite Z.add_0_r; reflexivity. }
  pose proof (duration_value_nonneg l Hl) as Hpos.
  change (duration_value ((n, u) :: l)) with (n * unit_ns_of u + duration_value l) in *.
  change (duration_text ((n, u) :: l)) with ((dec n ++ unit_text u) ++ duration_text l) in *.
  destruct fuel as [|fuel]; [cbn in Hf; lia|]. cbn [duration_loop].
  assert (Hu : 1 <= unit_ns_of u) by (destruct u; cbn; lia).
  assert (Hchar : exists c t, unit_text u = c :: t /\ c ∈ str "numsh").
  { destruct u; do 2 eexists; (split; [reflexivity|]); unfold str; cbn; rewrite !elem_of_cons; tauto. }
  destruct Hchar as (c & t & Eu & Hc).
  assert (Hne : beq ((dec n ++ unit_text u) ++ duration_text l) [] = false).
  { apply beq_false. rewrite Eu. destruct (dec n); discriminate. }
  rewrite Hne, <- app_assoc. clear Hne.
  assert (Er : strtold (dec n ++ unit_text u ++ duration_text l)
               = (ld_of_Z n, unit_text u ++ duration_text l, false)).
  { rewrite Eu. cbn [app]. apply strtold_int; [nia|assumption]. }
  rewrite Er. assert (Hend : beq (unit_text u ++ duration_text l) (dec n ++ unit_text u ++ duration_text l) = false).
  { apply beq_false. intros E. apply (f_equal length) in E. rewrite !length_app in E.
    destruct (dec_first n Hn) as (x & y & Ed & _). rewrite Ed in E. cbn in E. lia. }
  rewrite Hend, ld_ltb_int, ld_finite_int by nia. rewrite (proj2 (Z.ltb_ge n 0)) by lia. cbn [orb negb].
  rewrite duration_unit_read by assumption.
  rewrite ld_mul_int by nia. rewrite ld_add_int by nia. rewrite ld_ltb_max by nia.
  rewrite IH by (try lia; cbn in Hf; lia). rewrite Z.add_assoc. destruct l; reflexivity.
Qed.

Lemma duration_text_length segments :
  (length segments <= length (duration_text segments))%nat.
Proof.
  induction segments as [|[n u] l IH]; [cbn; lia|].
  change (duration_text ((n, u) :: l)) with ((dec n ++ unit_text u) ++ duration_text l).
  rewrite !length_app. destruct u; cbn; lia.
Qed.

(** The loop returns on every text: each round consumes something. *)
Lemma duration_loop_returns fuel text cursor total consumed :
  (length cursor <= fuel)%nat -> duration_loop fuel text cursor total consumed <> Fault.
Proof.
  revert cursor total consumed. induction fuel as [|fuel IH]; intros cursor total consumed Hf; cbn [duration_loop].
  { destruct cursor; [discriminate|cbn in Hf; lia]. }
  case_if; [discriminate|]. destruct (strtold cursor) as [[number rest] e] eqn:E.
  destruct (strtold_rest _ _ _ _ E) as [read Er]. case_if; [discriminate|].
  destruct (duration_unit rest) as [[m cursor']|] eqn:Eu; [|discriminate].
  case_if; [discriminate|]. apply IH. unfold duration_unit in Eu.
  assert (Hl : (length rest <= length cursor)%nat) by (rewrite Er, length_app; lia).
  assert (Hd : forall k, (1 <= k)%nat -> rest <> [] -> (length (drop k rest) <= fuel)%nat).
  { intros k Hk Hn. rewrite length_drop. destruct rest; [contradiction|]. cbn in *. lia. }
  repeat case_if_in Eu; try discriminate; injection Eu as _ <-; apply Hd; try lia; intros ->; discriminate.
Qed.

Lemma parse_segments (sign : option bool) segments :
  segments <> [] -> Forall (fun '(n, _) => 0 <= n) segments -> duration_value segments <= 2 ^ 53 ->
  ch_config_parse_duration_ns
    (Some (match sign with Some true => [45] | Some false => [43] | None => [] end ++ duration_text segments))
  = Done (match sign with Some true => - duration_value segments | _ => duration_value segments end).
Proof.
  intros Hne Hs Hle. pose proof (duration_value_nonneg segments Hs) as Hpos.
  assert (Hfirst : exists c r, duration_text segments = c :: r /\ isdigit c = true /\ (1 <= length r)%nat).
  { destruct Hs as [|[n u] l Hn Hl]; [contradiction|]. apply duration_text_first, Hn. }
  destruct Hfirst as (c & r & Et & Hc & Hr).
  assert (Hz : beq (duration_text segments) (str "0") = false).
  { apply beq_false. intros E. rewrite Et in E. apply (f_equal length) in E. cbn in E. lia. }
  pose proof (duration_text_length segments) as Hlen.
  assert (Hloop : forall fuel text, (length segments <= fuel)%nat ->
    duration_loop fuel text (duration_text segments) (ld_of_Z 0) false
    = Done (ld_of_Z (duration_value segments), true)).
  { intros fuel text Hf. rewrite duration_loop_sum by (auto; lia). rewrite Z.add_0_l. destruct segments; [contradiction|reflexivity]. }
  unfold isdigit in Hc. unfold ch_config_parse_duration_ns.
  destruct sign as [[]|]; cbn [app].
  - cbn [Z.eqb Pos.eqb orb]. rewrite Hz, Hloop by (cbn; lia). cbn [mbind outcome_bind negb].
    rewrite ld_neg_int, ld_trunc_int by lia. reflexivity.
  - cbn [Z.eqb Pos.eqb orb]. rewrite Hz, Hloop by (cbn; lia). cbn [mbind outcome_bind negb].
    rewrite ld_trunc_int by lia. reflexivity.
  - rewrite Et. cbv iota beta zeta. replace (c =? 45) with false by lia. replace (c =? 43) with false by lia.
    cbn [orb]. rewrite <- Et, Hz, Hloop by lia. cbn [mbind outcome_bind negb]. rewrite ld_trunc_int by lia. reflexivity.
Qed.

(** A duration means what it says.  Any sequence of whole numbers with units
    ([1h30m], [+90s], [-250ms]) is read as the sum of its parts in nanoseconds,
    negated after a minus sign, as long as the sum is at most 2^53. *)
Theorem duration_of_segments (sign : option bool) segments :
  segments <> [] -> Forall (fun '(n, _) => 0 <= n) segments -> duration_value segments <= 2 ^ 53 ->
  ch_config_parse_duration_ns
    (Some (match sign with Some true => [45] | Some false => [43] | None => [] end ++ duration_text segments))
  = Done (match sign with Some true => - duration_value segments | _ => duration_value segments end).
Proof. apply parse_segments. Qed.

End DurationFacts.

(** ** The active profile of a document *)

(** One character of [config_append_toml_string]. *)
Definition toml_escape (c : Z) : bytes :=
  if c =? 8 then [92; 98]
  else if c =? 9 then [92; 116]
  else if c =? 10 then [92; 110]
  else if c =? 12 then [92; 102]
  else if c =? 13 then [92; 114]
  else if c =? 34 then [92; 34]
  else if c =? 92 then [92; 92]
  else if (c <? 32) || (c =? 127) then
    [92; 117; 48; 48; hex_digit (Z.shiftr c 4); hex_digit (Z.land c 15)]
  else [c].

Definition config_append_toml_string (grow : Z -> bool) (value : bytes) : json_op :=
  all_of ([append grow [34]] ++ map (fun c => append grow (toml_escape c)) value ++ [append grow [34]]).

(** The lines of a text, each with its newline. *)
Fixpoint lines (s : bytes) : list bytes :=
  match s with
  | [] => []
  | c :: s' =>
      if c =? 10 then [c] :: lines s'
      else match lines s' with [] => [[c]] | l :: ls => (c :: l) :: ls end
  end.

Fixpoint skip_blank (s : bytes) : bytes :=
  match s with c :: s' => if (c =? 32) || (c =? 9) then skip_blank s' else s | [] => [] end.

(** The content of a line: without its newline and the blanks before. *)
Definition line_content (line : bytes) : bytes :=
  skip_blank (match split_first 10 line with Some (l, _) => l | None => line end).

Definition opens_table (line : bytes) : bool := bool_decide (head (line_content line) = Some 91).

Definition sets_active (line : bytes) : bool :=
  let content := line_content line in
  is_prefix (str "active") content && bool_decide (head (skip_blank (drop 6 content)) = Some 61).

(** The loop of [ch_config_document_set_active]: the text before and after the
    line that sets the active profile, if one comes before the first table. *)
Fixpoint find_active (before : bytes) (ls : list bytes) : option (bytes * bytes) :=
  match ls with
  | [] => None
  | line :: ls' =>
      if opens_table line then None
      else if sets_active line then Some (before, concat ls')
      else find_active (before ++ line) ls'
  end.

(** The rendered document. *)
Definition render_active (grow : Z -> bool) (document name : bytes) : json_op :=
  let '(before, after) := default ([], document) (find_active [] (lines document)) in
  all_of [append grow before; append grow (str "active = "); config_append_toml_string grow name;
          append grow [10]; append grow after].

Definition ch_config_document_set_active {D : Type} `{Inet} `{LongDouble} (grow : Z -> bool)
    (toml_parse : bytes -> toml_table D + bytes) (config : ch_config (D := D)) (profile_name : option bytes)
    : result bytes :=
  if empty profile_name then
    fail CH_ERROR_INVALID_ARGUMENT (str "config, profile name, and TOML output are required")
  else
    match ch_config_profile_named config profile_name with
    | None => fail CH_ERROR_NOT_FOUND (str "profile " ++ default [] profile_name ++ str " not found")
    | Some _ =>
        candidate ← take_text (render_active grow (document config) (default [] profile_name))
                      (str "render active profile document");
        '(status, _, error) ← ch_config_parse toml_parse candidate (source_path config);
        if bool_decide (status = CH_OK) then Done candidate else Raise error
    end.

(** *** Facts *)

Definition toml_string (value : bytes) : bytes := [34] ++ concat (map toml_escape value) ++ [34].

Lemma toml_string_writes grow value :
  writes grow (config_append_toml_string grow value) (toml_string value).
Proof.
  eapply (all_of_text grow _ ([[34]] ++ map toml_escape value ++ [[34]])).
  - apply Forall2_app; [collect|]. apply Forall2_app; [|collect].
    induction value; cbn [map]; [collect|]. apply Forall2_cons; [apply append_spec|assumption].
  - rewrite !concat_app. unfold toml_string. cbn. rewrite ?app_nil_r. reflexivity.
Qed.

(** The text that [render_active] writes. *)
Definition active_text (document name : bytes) : bytes :=
  let '(before, after) := default ([], document) (find_active [] (lines document)) in
  before ++ (str "active = " ++ toml_string name ++ [10]) ++ after.

Lemma render_active_writes grow document name :
  writes grow (render_active grow document name) (active_text document name).
Proof.
  unfold render_active, active_text. destruct (default _ _) as [before after].
  eapply all_of_text.
  - apply Forall2_cons; [apply append_spec|]. apply Forall2_cons; [apply append_spec|].
    apply Forall2_cons; [apply toml_string_writes|]. collect.
  - cbn [concat]. rewrite app_nil_r, <- !app_assoc. reflexivity.
Qed.

Lemma lines_concat s : concat (lines s) = s.
Proof.
  induction s as [|c s IH]; cbn [lines]; [reflexivity|]. destruct (c =? 10).
  - cbn. rewrite IH. reflexivity.
  - destruct (lines s); cbn in *; rewrite <- IH; reflexivity.
Qed.

Lemma lines_app a b : 10 ∉ a -> lines (a ++ 10 :: b) = (a ++ [10]) :: lines b.
Proof.
  induction a as [|c a IH]; intros Hn; cbn [app lines]; [reflexivity|].
  apply not_elem_of_cons in Hn as [Hc Hn]. rewrite (proj2 (Z.eqb_neq c 10)) by congruence.
  rewrite IH by assumption. reflexivity.
Qed.

(** Every line but the last ends with a newline, and has no other. *)
Lemma lines_shape s l rest :
  lines s = l :: rest -> (exists body, l = body ++ [10] /\ 10 ∉ body) \/ (rest = [] /\ 10 ∉ l).
Proof.
  revert l rest. induction s as [|c s IH]; intros l rest; cbn [lines]; [discriminate|].
  destruct (c =? 10) eqn:Hc.
  - intros [= <- <-]. left. exists []. split; [cbn; f_equal; lia|apply not_elem_of_nil].
  - assert (Hc' : 10 <> c) by lia. destruct (lines s) as [|l' ls] eqn:E.
    + intros [= <- <-]. right. split; [reflexivity|]. apply not_elem_of_cons. split; [assumption|apply not_elem_of_nil].
    + intros [= <- <-]. destruct (IH l' ls eq_refl) as [(body & -> & Hn)|[-> Hn]].
      * left. exists (c :: body). split; [reflexivity|]. apply not_elem_of_cons. auto.
      * right. split; [reflexivity|]. apply not_elem_of_cons. auto.
Qed.

Lemma lines_tail s l rest : lines s = l :: rest -> lines (concat rest) = rest.
Proof.
  revert l rest. induction s as [|c s IH]; intros l rest; cbn [lines]; [discriminate|].
  destruct (c =? 10).
  - intros [= _ <-]. rewrite lines_concat. reflexivity.
  - destruct (lines s) as [|l' ls] eqn:E; intros [= _ <-]; [reflexivity|]. apply (IH l' ls eq_refl).
Qed.

Lemma toml_escape_no_newline c : byte_ok c -> 10 ∉ toml_escape c.
Proof.
  intros Hc. pose proof (PlainInet.all_bytes (fun c => match split_first 10 (toml_escape c) with None => true | Some _ => false end)
    ltac:(vm_compute; reflexivity) c Hc) as Hn. cbv beta in Hn.
  apply split_first_None. destruct (split_first 10 (toml_escape c)); [discriminate|reflexivity].
Qed.

(** The line that [render_active] writes. *)
Definition active_line (name : bytes) : bytes := str "active = " ++ toml_string name ++ [10].

Lemma active_line_shape name :
  bytes_ok name -> exists body, active_line name = (str "active = " ++ body) ++ [10] /\ 10 ∉ str "active = " ++ body.
Proof.
  intros Hn. exists (toml_string name). unfold active_line. rewrite <- app_assoc. split; [reflexivity|].
  apply not_elem_of_app. split; [apply split_first_None; reflexivity|]. unfold toml_string.
  rewrite !not_elem_of_app. split_and!; [apply split_first_None; reflexivity| |apply split_first_None; reflexivity].
  induction Hn as [|c name Hc Hn IH]; cbn [map concat]; [apply not_elem_of_nil|].
  apply not_elem_of_app. split; [apply toml_escape_no_newline, Hc|exact IH].
Qed.

Lemma active_line_sets body :
  10 ∉ str "active = " ++ body ->
  sets_active ((str "active = " ++ body) ++ [10]) = true /\ opens_table ((str "active = " ++ body) ++ [10]) = false.
Proof.
  intros Hn. unfold sets_active, opens_table, line_content. rewrite (split_first_app 10 _ [] Hn).
  split; reflexivity.
Qed.

Lemma find_active_replace s acc before after :
  find_active acc (lines s) = Some (before, after) ->
  exists pre, before = acc ++ pre /\
    forall body, sets_active (body ++ [10]) = true -> opens_table (body ++ [10]) = false -> (10 ∉ body) ->
      find_active acc (lines (pre ++ (body ++ [10]) ++ after)) = Some (before, after).
Proof.
  remember (lines s) as ls eqn:Els. revert s Els acc. induction ls as [|l rest IH]; intros s Els acc; cbn [find_active].
  { discriminate. }
  destruct (opens_table l) eqn:Eo; [discriminate|]. destruct (sets_active l) eqn:Es.
  - intros [= <- <-]. exists []. split; [rewrite app_nil_r; reflexivity|]. intros body H1 H2 Hn.
    cbn [app]. rewrite <- app_assoc. cbn [app]. rewrite lines_app by assumption. cbn [find_active].
    rewrite H2, H1. rewrite lines_concat. reflexivity.
  - intros Hf. destruct (lines_shape s l rest) as [(body & -> & Hb)|[-> _]]; [congruence| |discriminate].
    destruct (IH (concat rest)) with (acc := acc ++ body ++ [10]) as (pre & -> & Hpre);
      [symmetry; eapply lines_tail; eauto|exact Hf|].
    exists ((body ++ [10]) ++ pre). split; [rewrite !app_assoc; reflexivity|]. intros b H1 H2 Hn.
    rewrite <- !app_assoc. cbn [app]. rewrite lines_app by assumption. cbn [find_active]. rewrite Eo, Es.
    specialize (Hpre b H1 H2 Hn). rewrite <- !app_assoc in Hpre. cbn [app] in Hpre. exact Hpre.
Qed.

Lemma active_text_last document name other :
  bytes_ok other ->
  active_text (active_text document other) name = active_text document name.
Proof.
  intros Ho. destruct (active_line_shape other Ho) as (body & El & Hn).
  destruct (active_line_sets body Hn) as [Hs Hop].
  unfold active_text at 2 3. fold (active_line other). fold (active_line name).
  destruct (find_active [] (lines document)) as [[before after]|] eqn:Ef; cbn [default from_option id].
  - destruct (find_active_replace document [] before after Ef) as (pre & -> & Hpre).
    unfold active_text. rewrite El. cbn [app].
    rewrite (Hpre _ Hs Hop Hn). reflexivity.
  - unfold active_text. rewrite El. cbn [app].
    rewrite <- app_assoc. cbn [app]. rewrite lines_app by assumption. cbn [find_active].
    rewrite Hop, Hs, lines_concat. reflexivity.
Qed.

Lemma find_active_split ls acc before after :
  find_active acc ls = Some (before, after) ->
  exists line, acc ++ concat ls = before ++ line ++ after /\ sets_active line = true.
Proof.
  revert acc. induction ls as [|l ls IH]; intros acc; cbn [find_active]; [discriminate|].
  destruct (opens_table l); [discriminate|]. destruct (sets_active l) eqn:Es.
  - intros [= <- <-]. exists l. auto.
  - intros Hf. apply IH in Hf as (line & E & Hl). exists line. split; [|assumption].
    rewrite <- E. cbn [concat]. rewrite app_assoc. reflexivity.
Qed.

Lemma active_text_split document name :
  exists before line after, document = before ++ line ++ after /\
    active_text document name = before ++ active_line name ++ after /\
    (sets_active line = true \/ (before = [] /\ line = [] /\ find_active [] (lines document) = None)).
Proof.
  unfold active_text. fold (active_line name). destruct (find_active [] (lines document)) as [[before after]|] eqn:E.
  - pose proof (find_active_split _ _ _ _ E) as (line & Ed & Hl). rewrite lines_concat in Ed.
    exists before, line, after. split_and!; [exact Ed|reflexivity|auto].
  - exists [], [], document. split_and!; auto.
Qed.

Section SetActive.
Context {D : Type} `{Inet} `{LongDouble}.
Implicit Types (config : ch_config (D := D)) (toml_parse : bytes -> toml_table D + bytes).

Lemma set_active_text grow toml_parse config name text :
  ch_config_document_set_active grow toml_parse config (Some name) = Done text ->
  text = active_text (document config) name.
Proof.
  unfold ch_config_document_set_active. case_if; [discriminate|].
  destruct (ch_config_profile_named _ _); [|discriminate].
  destruct (take_text_spec grow _ _ (str "render active profile document")
    (render_active_writes grow (document config) name)) as [Hw _].
  change (default [] (Some name)) with name.
  destruct Hw as [-> |[e ->]]; [|discriminate]. cbn [mbind outcome_bind].
  destruct (ch_config_parse _ _ _) as [[[status c] e]|e|]; [|discriminate|discriminate]. cbn.
  case_bool_decide; [|discriminate]. congruence.
Qed.

(** Choosing the active profile is an assignment to one line.  The new
    document differs from the old one in the line that sets [active] before the
    first table, or has that line in front when there was none; everything else
    is kept byte for byte.  Naming one profile and then another, in the document
    that results, gives the same text as naming the second at once. *)
Theorem set_active_last_wins grow toml_parse config config' other name text text' text'' path error :
  bytes_ok other ->
  ch_config_document_set_active grow toml_parse config (Some other) = Done text ->
  ch_config_parse toml_parse text path = Done (CH_OK, Some config', error) ->
  ch_config_document_set_active grow toml_parse config' (Some name) = Done text' ->
  ch_config_document_set_active grow toml_parse config (Some name) = Done text'' ->
  text' = text'' /\
  exists before line after, document config = before ++ line ++ after /\
    text = before ++ (str "active = " ++ toml_string other ++ [10]) ++ after /\
    (sets_active line = true \/
     (before = [] /\ line = [] /\ find_active [] (lines (document config)) = None)).
Proof.
  intros Ho H1 Hp H2 H3. apply set_active_text in H1, H2, H3.
  assert (Ed : document config' = text).
  { unfold ch_config_parse in Hp. destruct (toml_parse text); [|discriminate].
    destruct (validate_config t) as [|e|] eqn:Ev; [injection Hp as <- _; reflexivity| |discriminate].
    injection Hp. discriminate. }
  split.
  - rewrite H2, Ed, H1, H3. apply active_text_last, Ho.
  - destruct (active_text_split (document config) other) as (before & line & after & E1 & E2 & E3).
    exists before, line, after. rewrite H1. auto.
Qed.

End SetActive.

(** ** Paths *)

Definition slash : Z := 47.
Definition dot : bytes := str ".".
Definition dotdot : bytes := str "..".

(** The non-empty pieces between slashes. *)
Fixpoint segments_from (current : bytes) (path : bytes) : list bytes :=
  match path with
  | [] => if beq current [] then [] else [current]
  | c :: path' =>
      if c =? slash then (if beq current [] then [] else [current]) ++ segments_from [] path'
      else segments_from (current ++ [c]) path'
  end.

Definition path_segments (path : bytes) : list bytes := segments_from [] path.

Definition is_absolute (path : bytes) : bool := bool_decide (head path = Some slash).

(** One segment of [normalize_unix_path]; [segments] holds the kept ones, the
    last one first. *)
Definition push_segment (absolute : bool) (segments : list bytes) (segment : bytes) : list bytes :=
  if beq segment dot then segments
  else if beq segment dotdot then
    match segments with
    | top :: segments' =>
        if negb (beq top dotdot) then segments' else if absolute then segments else segment :: segments
    | [] => if absolute then segments else segment :: segments
    end
  else segment :: segments.

Fixpoint join_segments (segments : list bytes) : bytes :=
  match segments with
  | [] => []
  | [s] => s
  | s :: segments' => s ++ [slash] ++ join_segments segments'
  end.

Definition normalize_unix_path (path : bytes) : bytes :=
  let absolute := is_absolute path in
  let segments := rev (fold_left (push_segment absolute) (path_segments path) []) in
  if negb absolute && bool_decide (segments = []) then dot
  else (if absolute then [slash] else []) ++ join_segments segments.

(** [cwd] is the result of [getcwd], [None] when it fails with the message. *)
Definition ch_config_resolve_path {D : Type} (config : ch_config (D := D)) (cwd : bytes + bytes)
    (configured_path : bytes) : result bytes :=
  if beq configured_path [] then Done []
  else if is_absolute configured_path then Done (normalize_unix_path configured_path)
  else
    match split_last slash (default [] (source_path config)) with
    | None =>
        match cwd with
        | inl directory => Done (normalize_unix_path (directory ++ [slash] ++ configured_path))
        | inr message => fail CH_ERROR_IO (str "resolve current directory: " ++ message)
        end
    | Some (base, _) =>
        let base := if beq base [] then [slash] else base in
        Done (normalize_unix_path (base ++ [slash] ++ configured_path))
    end.

(** *** Where a path leads

    A directory is the list of the names from the root to it; a path moves from
    one to another. *)
Definition step (directory : list bytes) (segment : bytes) : list bytes :=
  if beq segment dot then directory
  else if beq segment dotdot then removelast directory
  else directory ++ [segment].

Definition walk (directory : list bytes) (segments : list bytes) : list bytes :=
  fold_left step segments directory.

Definition locate (cwd : list bytes) (path : bytes) : list bytes :=
  walk (if is_absolute path then [] else cwd) (path_segments path).

Definition ordinary (s : bytes) : Prop := s <> [] /\ s <> dot /\ s <> dotdot /\ slash ∉ s.

(** The kept segments: names above a block of [..], which only a relative path has. *)
Definition kept (absolute : bool) (segments : list bytes) : Prop :=
  exists names ups, segments = names ++ replicate ups dotdot /\ Forall ordinary names /\
    (absolute = true -> ups = 0%nat).

Lemma segments_from_ok path current :
  slash ∉ current -> Forall (fun s => s <> [] /\ slash ∉ s) (segments_from current path).
Proof.
  revert current. induction path as [|c path IH]; intros current Hc; cbn [segments_from].
  - destruct (beq current []) eqn:E; [constructor|]. apply beq_false in E. auto.
  - destruct (c =? slash) eqn:Es.
    + apply Forall_app. split; [|apply IH, not_elem_of_nil].
      destruct (beq current []) eqn:E; [constructor|]. apply beq_false in E. auto.
    + apply IH. apply not_elem_of_app. split; [assumption|]. apply not_elem_of_cons.
      split; [unfold slash in *; lia|apply not_elem_of_nil].
Qed.

Lemma segments_from_app current s path :
  slash ∉ s -> segments_from current (s ++ path) = segments_from (current ++ s) path.
Proof.
  revert current. induction s as [|c s IH]; intros current Hs; cbn [app segments_from]; [rewrite app_nil_r; reflexivity|].
  apply not_elem_of_cons in Hs as [Hc Hs]. rewrite (proj2 (Z.eqb_neq c slash)) by congruence.
  rewrite IH, <- app_assoc by assumption. reflexivity.
Qed.

(** Joining and splitting. *)
Lemma path_segments_join l :
  Forall (fun s => s <> [] /\ slash ∉ s) l -> path_segments (join_segments l) = l.
Proof.
  intros Hl. unfold path_segments. induction Hl as [|s l [Hn Hs] Hl IH]; [reflexivity|].
  apply beq_false in Hn. destruct l as [|s' l].
  - cbn [join_segments]. rewrite <- (app_nil_r s) at 1. rewrite segments_from_app by assumption. cbn. rewrite Hn. reflexivity.
  - change (join_segments (s :: s' :: l)) with (s ++ [slash] ++ join_segments (s' :: l)).
    rewrite segments_from_app by assumption. cbn [app segments_from]. rewrite Z.eqb_refl, Hn. cbn [app].
    rewrite IH. reflexivity.
Qed.

Lemma push_kept absolute segments s :
  kept absolute segments -> s <> [] -> slash ∉ s -> kept absolute (push_segment absolute segments s).
Proof.
  intros (names & ups & -> & Hf & Ha) Hn Hs. unfold push_segment.
  destruct (beq s dot) eqn:E1; [exists names, ups; auto|].
  destruct (beq s dotdot) eqn:E2.
  - apply beq_true in E2. subst s. destruct names as [|n names]; cbn [app].
    + destruct ups as [|ups]; cbn [replicate].
      * destruct absolute; [exists [], 0%nat; auto|]. exists [], 1%nat. split_and!; auto. discriminate.
      * rewrite beq_refl. cbn [negb]. destruct absolute; [discriminate (Ha eq_refl)|].
        exists [], (S (S ups)). split_and!; auto. discriminate.
    + inversion_clear Hf as [|? ? (_ & _ & Hnd & _) Hf']. rewrite (proj2 (beq_false n dotdot)) by assumption.
      exists names, ups. auto.
  - apply beq_false in E1, E2. exists (s :: names), ups. split_and!; auto. constructor; [|assumption].
    unfold ordinary. auto.
Qed.

Lemma fold_kept absolute l segments :
  kept absolute segments -> Forall (fun s => s <> [] /\ slash ∉ s) l ->
  kept absolute (fold_left (push_segment absolute) l segments).
Proof.
  intros Hk Hl. revert segments Hk. induction Hl as [|s l [Hn Hs] Hl IH]; intros segments Hk; cbn; [assumption|].
  apply IH, push_kept; assumption.
Qed.

(** A stack that is kept is not changed by pushing it again. *)
Lemma push_again absolute segments :
  kept absolute segments -> fold_left (push_segment absolute) (rev segments) [] = segments.
Proof.
  intros (names & ups & -> & Hf & Ha). rewrite rev_app_distr, fold_left_app.
  assert (Hr : rev (replicate ups dotdot) = replicate ups dotdot).
  { rewrite rev_alt. apply reverse_replicate. }
  assert (Hu : forall k, fold_left (push_segment absolute) (replicate ups dotdot) (replicate k dotdot)
               = replicate (ups + k) dotdot).
  { clear Hr. induction ups as [|ups IH]; intros k; [reflexivity|]. cbn [replicate fold_left].
    destruct absolute; [discriminate (Ha eq_refl)|].
    assert (E : push_segment false (replicate k dotdot) dotdot = replicate (S k) dotdot) by (destruct k; reflexivity).
    rewrite E, IH by discriminate. f_equal. lia. }
  specialize (Hu 0%nat). rewrite Nat.add_0_r in Hu. cbn [replicate] in Hu. rewrite Hr, Hu. clear Hr Hu. set (base := replicate ups dotdot). clearbody base. clear Ha.
  induction Hf as [|n names (H1 & H2 & H3 & _) Hf IH]; [reflexivity|].
  cbn [rev app]. rewrite fold_left_app, IH. cbn [fold_left]. unfold push_segment.
  rewrite (proj2 (beq_false n dot)), (proj2 (beq_false n dotdot)) by assumption. reflexivity.
Qed.

Lemma normalize_segments path :
  let absolute := is_absolute path in
  let stack := fold_left (push_segment absolute) (path_segments path) [] in
  kept absolute stack /\ is_absolute (normalize_unix_path path) = absolute /\
  path_segments (normalize_unix_path path)
  = if negb absolute && bool_decide (rev stack = []) then [dot] else rev stack.
Proof.
  cbv zeta. set (absolute := is_absolute path). set (stack := fold_left _ _ _).
  assert (Hk : kept absolute stack).
  { apply fold_kept; [exists [], 0%nat; auto|]. apply segments_from_ok, not_elem_of_nil. }
  split; [exact Hk|]. unfold normalize_unix_path. fold absolute. fold stack.
  assert (Hs : Forall (fun s => s <> [] /\ slash ∉ s) (rev stack)).
  { destruct Hk as (names & ups & -> & Hf & _). apply Forall_rev, Forall_app. split.
    - eapply list.Forall_impl; [exact Hf|]. intros s (H1 & _ & _ & H4). auto.
    - apply Forall_forall. intros s Hin. apply repeat_spec in Hin || (apply list_elem_of_In, elem_of_replicate in Hin as [-> _]).
      split; [discriminate|apply split_first_None; reflexivity]. }
  destruct absolute eqn:Ea; cbn [negb andb].
  - split; [reflexivity|]. unfold path_segments. cbn [app segments_from]. rewrite Z.eqb_refl. cbn [app beq].
    change (beq [] []) with true. cbn [app]. apply (path_segments_join _ Hs).
  - case_bool_decide as En; [split; reflexivity|]. cbn [app]. split; [|apply path_segments_join, Hs].
    unfold is_absolute. apply bool_decide_eq_false. destruct (rev stack) as [|s l]; [contradiction|].
    inversion_clear Hs as [|? ? [Hn Hsl] _]. destruct s as [|c s]; [contradiction|].
    intros Hh. apply Hsl. destruct l; cbn in Hh; injection Hh as ->; left.
Qed.

Lemma walk_push absolute cwd stack s :
  kept absolute stack -> (absolute = true -> cwd = []) ->
  walk cwd (rev (push_segment absolute stack s)) = step (walk cwd (rev stack)) s.
Proof.
  intros (names & ups & -> & Hf & Ha) Hc. unfold push_segment, walk.
  destruct (beq s dot) eqn:E1; [unfold step; rewrite E1; reflexivity|].
  assert (Hpush : fold_left step (rev (s :: names ++ replicate ups dotdot)) cwd
                  = step (fold_left step (rev (names ++ replicate ups dotdot)) cwd) s).
  { cbn [rev]. rewrite fold_left_app. reflexivity. }
  destruct (beq s dotdot) eqn:E2; [|exact Hpush].
  destruct names as [|n names]; cbn [app] in *.
  - destruct ups as [|ups]; cbn [replicate] in *.
    + destruct absolute; [|exact Hpush]. rewrite Hc by reflexivity. unfold step. rewrite E1, E2. reflexivity.
    + rewrite beq_refl. cbn [negb]. destruct absolute; [discriminate (Ha eq_refl)|exact Hpush].
  - inversion_clear Hf as [|? ? (_ & Hd & Hdd & _) _]. rewrite (proj2 (beq_false n dotdot)) by assumption.
    cbn [negb rev]. rewrite fold_left_app. cbn [fold_left]. unfold step at 3.
    rewrite (proj2 (beq_false n dot)), (proj2 (beq_false n dotdot)) by assumption.
    unfold step at 2. rewrite E1, E2, removelast_last. reflexivity.
Qed.

Lemma walk_normalized absolute cwd l stack :
  kept absolute stack -> (absolute = true -> cwd = []) -> Forall (fun s => s <> [] /\ slash ∉ s) l ->
  walk cwd (rev (fold_left (push_segment absolute) l stack)) = walk (walk cwd (rev stack)) l.
Proof.
  intros Hk Hc Hl. revert stack Hk. induction Hl as [|s l [Hn Hs] Hl IH]; intros stack Hk; [reflexivity|].
  cbn [fold_left]. rewrite IH by (apply push_kept; assumption). rewrite walk_push by assumption. reflexivity.
Qed.

(** Path normalisation is sound and canonical.  From every directory the
    normalised path leads where the path leads (with [..] at the root staying
    at the root), normalising again changes nothing, and an absolute path
    becomes one without [.], [..] and empty pieces, so that it cannot climb. *)
Theorem normalize_path_canonical path cwd :
  locate cwd (normalize_unix_path path) = locate cwd path /\
  normalize_unix_path (normalize_unix_path path) = normalize_unix_path path /\
  (is_absolute path = true -> Forall ordinary (path_segments (normalize_unix_path path))).
Proof.
  destruct (normalize_segments path) as (Hk & Ea & Es). set (absolute := is_absolute path) in *.
  set (stack := fold_left (push_segment absolute) (path_segments path) []) in *.
  assert (Hl : Forall (fun s => s <> [] /\ slash ∉ s) (path_segments path)) by apply segments_from_ok, not_elem_of_nil.
  split_and!.
  - unfold locate. rewrite Ea, Es. fold absolute.
    assert (Hw : walk (if absolute then [] else cwd) (rev stack)
                 = walk (if absolute then [] else cwd) (path_segments path)).
    { apply walk_normalized; [exists [], 0%nat; auto|intros ->; reflexivity|assumption]. }
    rewrite <- Hw. destruct absolute; cbn [negb andb]; [reflexivity|]. case_bool_decide as En; [|reflexivity].
    rewrite En. reflexivity.
  - unfold normalize_unix_path at 1. rewrite Ea, Es. fold absolute.
    assert (Ep : fold_left (push_segment absolute)
                   (if negb absolute && bool_decide (rev stack = []) then [dot] else rev stack) [] = stack).
    { destruct (negb absolute && bool_decide (rev stack = [])) eqn:En; [|apply push_again, Hk].
      apply andb_true_iff in En as [_ En]. apply bool_decide_eq_true in En.
      destruct stack as [|s l]; [reflexivity|]. cbn in En. destruct (rev l); discriminate. }
    rewrite Ep. reflexivity.
  - intros Habs. rewrite Es, Habs. cbn [negb andb]. destruct Hk as (names & ups & Est & Hf & Hu).
    rewrite Est, (Hu Habs), app_nil_r. apply Forall_rev, Hf.
Qed.

(** ** A table as JSON

    The source counts the depth from 0 and gives up beyond 64; here [levels] is
    what is left of the 65 levels. *)

Section Export.
Context `{Double} (grow : Z -> bool).

(** A reader applied to a [toml_raw_t] that may be NULL. *)
Definition read_raw {A} (reader : toml_raw double -> option A) (raw : option (toml_raw double)) : option A :=
  match raw with Some r => reader r | None => None end.

(** What the readers make of a scalar, in the order of the source. *)
Definition raw_json (raw : option (toml_raw double)) : json_op :=
  match read_raw toml_rtos raw with
  | Some s => append_text grow s
  | None =>
      match read_raw toml_rtob raw with
      | Some b => append grow (if b then str "true" else str "false")
      | None =>
          match read_raw toml_rtoi raw with
          | Some n => append grow (dec n)
          | None =>
              match read_raw toml_rtod raw with
              | Some d => append grow (if isfinite d then format_17g d else str "null")
              | None => append grow (str "null")
              end
          end
      end
  end.

(** The value of a key, and an element of an array; [table] and [array] write the
    tables and the arrays of the next level. *)
Definition config_json_table_value (table : toml_table double -> json_op) (array : toml_array double -> json_op)
    (t : toml_table double) (key : bytes) : json_op :=
  match toml_table_in t key with
  | Some child => table child
  | None =>
      match toml_array_in t key with
      | Some child => array child
      | None => raw_json (toml_raw_in t key)
      end
  end.

Definition config_json_array_value (table : toml_table double -> json_op) (array : toml_array double -> json_op)
    (i : toml_item double) : json_op :=
  match table_at i with
  | Some child => table child
  | None =>
      match array_at i with
      | Some child => array child
      | None => raw_json (item_raw i)
      end
  end.

(** A table, and an array below it; 65 levels are left at depth 0. *)
Fixpoint config_json_table (levels : nat) (t : toml_table double) : json_op :=
  match levels with
  | O => fun buffer => (buffer, false)
  | S levels' =>
      all_of
        [append grow [123];
         append_list grow
           (fun key =>
              all_of [append_text grow key; append grow [58];
                      config_json_table_value (config_json_table levels') (config_json_array levels') t key])
           true (toml_keys t);
         append grow [125]]
  end
with config_json_array (levels : nat) (a : toml_array double) : json_op :=
  match levels with
  | O => fun buffer => (buffer, false)
  | S levels' =>
      all_of
        [append grow [91];
         append_list grow (config_json_array_value (config_json_table levels') (config_json_array levels')) true (items (Some a));
         append grow [93]]
  end.

Definition ch_config_table_json (t : toml_table double) : result bytes :=
  take_text (config_json_table 65 t) (str "encode config table JSON").

Definition ch_config_array_json (a : toml_array double) : result bytes :=
  take_text (config_json_array 65 a) (str "encode config array JSON").

(** *** The value that a table denotes *)

Definition raw_value (raw : option (toml_raw double)) : ch_json_value :=
  match read_raw toml_rtos raw with
  | Some s => CH_JSON_STRING s
  | None =>
      match read_raw toml_rtob raw with
      | Some b => CH_JSON_BOOL b
      | None =>
          match read_raw toml_rtoi raw with
          | Some n => int_value n
          | None =>
              match read_raw toml_rtod raw with
              | Some d => if isfinite d then CH_JSON_NUMBER (mk_number d 0 false) else CH_JSON_NULL
              | None => CH_JSON_NULL
              end
          end
      end
  end.

Fixpoint table_value (levels : nat) (t : toml_table double) : option ch_json_value :=
  match levels with
  | O => None
  | S levels' =>
      members ← mapM (fun key =>
          v ← match toml_table_in t key with
              | Some child => table_value levels' child
              | None =>
                  match toml_array_in t key with
                  | Some child => array_value levels' child
                  | None => Some (raw_value (toml_raw_in t key))
                  end
              end;
          Some (key, v)) (toml_keys t);
      Some (CH_JSON_OBJECT members)
  end
with array_value (levels : nat) (a : toml_array double) : option ch_json_value :=
  match levels with
  | O => None
  | S levels' =>
      values ← mapM (fun i =>
          match table_at i with
          | Some child => table_value levels' child
          | None =>
              match array_at i with
              | Some child => array_value levels' child
              | None => Some (raw_value (item_raw i))
              end
          end) (items (Some a));
      Some (CH_JSON_ARRAY values)
  end.

Lemma raw_json_writes raw : writes grow (raw_json raw) (print_value (raw_value raw)).
Proof.
  unfold raw_json, raw_value. destruct (read_raw toml_rtos raw) as [s|]; [apply append_text_spec|].
  destruct (read_raw toml_rtob raw) as [[]|]; [apply append_spec..|].
  destruct (read_raw toml_rtoi raw) as [n|]; [apply append_spec|].
  destruct (read_raw toml_rtod raw) as [d|]; [|apply append_spec].
  destruct (isfinite d); apply append_spec.
Qed.

(** An operation that writes the text of the value if there is one, and fails
    otherwise. *)
Definition writes_value (op : json_op) (v : option ch_json_value) : Prop :=
  match v with
  | Some v => writes grow op (print_value v)
  | None => forall b, snd (op b) = false
  end.

Lemma export_writes levels :
  (forall t, writes_value (config_json_table levels t) (table_value levels t)) /\
  (forall a, writes_value (config_json_array levels a) (array_value levels a)).
Proof.
  induction levels as [|levels [IHt IHa]]; [split; intros; cbn; reflexivity|]. split.
  - intros t. cbn [config_json_table table_value]. unfold config_json_table_value.
    match goal with |- context [append_list grow ?item true ?l] =>
      pose proof (list_writes grow item (fun key =>
          v ← match toml_table_in t key with
              | Some child => table_value levels child
              | None => match toml_array_in t key with
                        | Some child => array_value levels child
                        | None => Some (raw_value (toml_raw_in t key))
                        end
              end; Some (key, v)) print_member l) as Hl
    end.
    match type of Hl with ?P -> _ => assert (Hp : P) end.
    { intros key.
      set (op := match toml_table_in t key with Some child => config_json_table levels child | None => _ end).
      set (v := match toml_table_in t key with Some child => table_value levels child | None => _ end).
      assert (Hv : writes_value op v).
      { subst op v. destruct (toml_table_in t key); [apply IHt|]. destruct (toml_array_in t key); [apply IHa|].
        apply raw_json_writes. }
      clearbody op v. destruct v as [v|]; cbn [mbind option_bind].
      - eapply all_of_text; [apply Forall2_cons; [apply append_text_spec|]; apply Forall2_cons; [apply append_spec|];
          apply Forall2_cons; [exact Hv|apply Forall2_nil]|].
        unfold print_member. cbn [concat fst snd]. rewrite app_nil_r. reflexivity.
      - apply all_of_fails. do 2 right. left. exact Hv. }
    specialize (Hl Hp). clear Hp. destruct (mapM _ _) as [members|]; cbn [mbind option_bind].
    + eapply all_of_text; [apply Forall2_cons; [apply append_spec|]; apply Forall2_cons; [exact Hl|]; collect|].
      cbn [concat print_value]. rewrite app_nil_r.
      rewrite (List.map_ext _ (fun '(k, v) => print_string k ++ [58] ++ print_value v)) by (intros []; reflexivity).
      reflexivity.
    + intros b. apply all_of_fails. right. left. exact Hl.
  - intros a. cbn [config_json_array array_value]. unfold config_json_array_value.
    match goal with |- context [append_list grow ?item true ?l] =>
      pose proof (list_writes grow item (fun i => match table_at i with
              | Some child => table_value levels child
              | None => match array_at i with
                        | Some child => array_value levels child
                        | None => Some (raw_value (item_raw i))
                        end
              end) print_value l) as Hl
    end.
    match type of Hl with ?P -> _ => assert (Hp : P) end.
    { intros i. destruct (table_at i) as [t|]; [exact (IHt t)|]. destruct (array_at i) as [c|]; [exact (IHa c)|].
      apply raw_json_writes. }
    specialize (Hl Hp). clear Hp. destruct (mapM _ _) as [values|]; cbn [mbind option_bind].
    + eapply all_of_text; [apply Forall2_cons; [apply append_spec|]; apply Forall2_cons; [exact Hl|]; collect|].
      cbn [concat print_value]. rewrite app_nil_r. reflexivity.
    + intros b. apply all_of_fails. right. left. exact Hl.
Qed.

Lemma table_json_levels levels t m :
  (forall text, take_text (config_json_table levels t) m = Done text ->
     exists v, table_value levels t = Some v /\ text = print_value v /\
       (exact v -> height v <= 64 -> ch_json_parse (Some text) = Done v)) /\
  (forall v, table_value levels t = Some v -> lenZ (print_value v) + 1 <= SIZE_MAX ->
     (forall n, grow n = true) -> take_text (config_json_table levels t) m = Done (print_value v)).
Proof.
  pose proof (proj1 (export_writes levels) t) as Hw.
  destruct (table_value levels t) as [v|]; cbn [writes_value] in Hw.
  - destruct (take_text_spec grow _ _ m Hw) as [Hr Hs]. split.
    + intros text E. rewrite E in Hr. exists v. split; [reflexivity|].
      destruct Hr as [[= ->]|[e He]]; [|discriminate]. split; [reflexivity|]. apply parse_printed.
    + intros v' [= <-]. exact Hs.
  - split; [|discriminate]. intros text E. unfold take_text in E. specialize (Hw ch_json_init).
    destruct (config_json_table levels t ch_json_init) as [b ok]. cbn in Hw. subst ok. discriminate.
Qed.

(** The JSON of a table is the table.  Whatever memory does, the text is that
    of the value the table denotes, member by member in the order of the
    library's keys (a time or a number that is not finite is [null]); it is
    produced when memory lasts, exactly for tables of at most 65 levels; and
    when the value is exact and at most 64 levels deep, parsing the text gives
    that value back. *)
Theorem config_table_json_value t :
  (forall text, ch_config_table_json t = Done text ->
     exists v, table_value 65 t = Some v /\ text = print_value v /\
       (exact v -> height v <= 64 -> ch_json_parse (Some text) = Done v)) /\
  (forall v, table_value 65 t = Some v -> lenZ (print_value v) + 1 <= SIZE_MAX ->
     (forall n, grow n = true) -> ch_config_table_json t = Done (print_value v)).
Proof. exact (table_json_levels 65 t (str "encode config table JSON")). Qed.

End Export.

(** ** Witnesses *)

Import PlainInet PlainLongDouble Validity.

Definition w_two_profiles : toml_table unit :=
  mk_table [] [(str "profile", w_tables [w_profile; mk_table [(str "name", w_str (str "work"))] [] []])] [].

Definition w_document : bytes :=
  str "# profiles" ++ [10] ++ str " active = 'x'" ++ [10] ++ str "[prompt]" ++ [10] ++ str "active = 1".

Definition w_config (text : bytes) : ch_config := mk_config w_two_profiles None text.

Definition w_active (name : String.string) : bytes :=
  str "# profiles" ++ [10] ++ str "active = " ++ [34] ++ str name ++ [34; 10] ++ str "[prompt]" ++ [10]
  ++ str "active = 1".

End ConfigText.
