(* ===== verification/RulesConfig.v ===== *)
(** * The rule engine of a configuration: [native/src/rules_config.c]

    The rules, rule sets and subscriptions of a profile are turned into an
    engine of [Rules], and a route is explained as JSON.  A document that
    [ConfigValid] accepts is shown to give an engine.

    The cache of downloaded rule lists is an argument: what loading the cache
    of a rule set or a subscription returns.  Allocation is taken to succeed. *)

From S2P Require Import Prelude CLib Inet Rules Json JsonText Config ConfigValid.

Module RulesConfig.
Import Config Rules Json JsonText Validity.

(** A downloaded list: the domain suffixes and the blocks of [cache.feed]. *)
Record rule_feed : Type := mk_feed { feed_suffixes : list bytes; feed_cidrs : list bytes }.

Inductive feed_kind : Type := CH_RULE_FEED_RULE_SET | CH_RULE_FEED_SUBSCRIPTION.

Section Load.
Context {D : Type} `{Inet}.
Implicit Types (t table profile : toml_table D) (config : ch_config (D := D)).

(** The loop of [config_load_strings] from [index] on. *)
Fixpoint load_strings_from (l : list (toml_item D)) (index : Z) : result (list bytes) :=
  match l with
  | [] => Done []
  | i :: l' =>
      match string_at i with
      | Some s => rest ← load_strings_from l' (index + 1); Done (s :: rest)
      | None => array_missing index
      end
  end.

Definition config_load_strings t (key : bytes) : result (list bytes) :=
  load_strings_from (items (toml_array_in t key)) 0.

Definition config_optional_bool t (key : bytes) (fallback : bool) : bool :=
  default fallback (toml_bool_in t key).

Definition config_string_or t (key fallback : bytes) : bytes := default fallback (toml_string_in t key).

Fixpoint load_ports_from (l : list (toml_item D)) (index : Z) : result (list Z) :=
  match l with
  | [] => Done []
  | i :: l' =>
      match int_at i with
      | Some port =>
          if (port <? 0) || (port >? 65535)
          then fail CH_ERROR_INVALID_ARGUMENT (str "configuration rule port is out of range")
          else rest ← load_ports_from l' (index + 1); Done (port :: rest)
      | None => array_missing index
      end
  end.

Definition config_load_ports t : result (list Z) :=
  load_ports_from (items (toml_array_in t (str "ports"))) 0.

(** [config_strings_view] *)
Definition view (l : list bytes) : string_list := map Some l.

Definition config_load_rule t : result ch_rule_spec :=
  name ← ch_config_table_get_string t (str "name");
  action ← ch_config_table_get_string t (str "action");
  rule_sets ← config_load_strings t (str "rule_sets");
  domains ← config_load_strings t (str "domains");
  domain_suffixes ← config_load_strings t (str "domain_suffixes");
  domain_keywords ← config_load_strings t (str "domain_keywords");
  cidrs ← config_load_strings t (str "cidrs");
  source_cidrs ← config_load_strings t (str "source_cidrs");
  ports ← config_load_ports t;
  networks ← config_load_strings t (str "networks");
  processes ← config_load_strings t (str "processes");
  Done (mk_rule_spec (Some name) (Some action) (view rule_sets) (view domains) (view domain_suffixes)
          (view domain_keywords) (view cidrs) (view source_cidrs) ports (view networks) (view processes)).

Definition config_load_rule_set t : result ch_rule_set_spec :=
  name ← ch_config_table_get_string t (str "name");
  domains ← config_load_strings t (str "domains");
  domain_suffixes ← config_load_strings t (str "domain_suffixes");
  domain_keywords ← config_load_strings t (str "domain_keywords");
  cidrs ← config_load_strings t (str "cidrs");
  Done (mk_rule_set_spec (Some name) (view domains) (view domain_suffixes) (view domain_keywords)
          (view cidrs)).

Section Cache.

(** [ch_rule_feed_cache_load] of a kind, for a profile, a name and an URL. *)
Context (cache_load : feed_kind -> bytes -> bytes -> bytes -> result rule_feed).

Definition config_extend_rule_set_from_cache config (profile_name : bytes) t (spec : ch_rule_set_spec)
    : result ch_rule_set_spec :=
  if empty (source_path config) || config_optional_bool t (str "disabled") false then Done spec
  else
    let url := config_string_or t (str "url") [] in
    if beq url [] then Done spec
    else
      match cache_load CH_RULE_FEED_RULE_SET profile_name (default [] (set_spec_name spec)) url with
      | Done feed =>
          Done (mk_rule_set_spec (set_spec_name spec) (set_spec_domains spec)
                  (set_spec_domain_suffixes spec ++ view (feed_suffixes feed))
                  (set_spec_domain_keywords spec) (set_spec_cidrs spec ++ view (feed_cidrs feed)))
      | Raise e =>
          if bool_decide (code e ∈ [CH_ERROR_NOT_FOUND; CH_ERROR_PARSE; CH_ERROR_IO]) then Done spec
          else Raise e
      | Fault => Fault
      end.

(** The generated rule of a subscription; [domains] says which list it takes. *)
Definition config_load_subscription_rule t (subscription_name : bytes) (domains : bool) (cached : list bytes)
    : result ch_rule_spec :=
  let kind := if domains then str "domains" else str "cidrs" in
  let name := str "subscription:" ++ subscription_name ++ [58] ++ kind in
  let action := config_string_or t (str "action") (str "block") in
  networks ← config_load_strings t (str "networks");
  Done (mk_rule_spec (Some name) (Some action) [] [] (view (if domains then cached else [])) []
          (view (if domains then [] else cached)) [] [] (view networks) []).

Definition config_select_profile config (profile_name : option bytes) : result (toml_table D) :=
  if negb (empty profile_name) then
    match ch_config_profile_named config profile_name with
    | Some profile => Done profile
    | None => fail CH_ERROR_NOT_FOUND (str "profile " ++ default [] profile_name ++ str " not found")
    end
  else
    match ch_config_active_profile config with
    | Some profile => Done profile
    | None => fail CH_ERROR_NOT_FOUND (str "active profile not found")
    end.

(** The names of the tables of an array.  An element that is not a table ends
    the loop with the code of the cleared error, [CH_OK], and no names. *)
Fixpoint load_names_from (l : list (toml_item D)) (names : list bytes) : result (list bytes) :=
  match l with
  | [] => Done names
  | i :: l' =>
      match table_at i with
      | None => Done []
      | Some t => name ← ch_config_table_get_string t (str "name"); load_names_from l' (names ++ [name])
      end
  end.

Definition config_load_names (l : list (toml_item D)) : result (list bytes) := load_names_from l [].

(** The three loops of [ch_rule_engine_compile_config]. *)
Fixpoint load_rule_sets config (profile_name : bytes) (l : list (toml_item D))
    : result (list ch_rule_set_spec) :=
  match l with
  | [] => Done []
  | i :: l' =>
      match table_at i with
      | None => fail CH_ERROR_PARSE (str "rule set configuration is not a table")
      | Some t =>
          spec ← config_load_rule_set t;
          spec ← config_extend_rule_set_from_cache config profile_name t spec;
          rest ← load_rule_sets config profile_name l';
          Done (spec :: rest)
      end
  end.

Fixpoint load_rules (l : list (toml_item D)) : result (list ch_rule_spec) :=
  match l with
  | [] => Done []
  | i :: l' =>
      match table_at i with
      | None => fail CH_ERROR_PARSE (str "rule configuration is not a table")
      | Some t => spec ← config_load_rule t; rest ← load_rules l'; Done (spec :: rest)
      end
  end.

(** The rules that one subscription generates. *)
Definition load_subscription (profile_name : bytes) (i : toml_item D) : result (list ch_rule_spec) :=
  match table_at i with
  | None => Done []
  | Some t =>
      if config_optional_bool t (str "disabled") false then Done []
      else
        let name := config_string_or t (str "name") [] in
        let url := config_string_or t (str "url") [] in
        match cache_load CH_RULE_FEED_SUBSCRIPTION profile_name name url with
        | Done feed =>
            domains ← (if nonempty (feed_suffixes feed) then
                         spec ← config_load_subscription_rule t name true (feed_suffixes feed); Done [spec]
                       else Done []);
            cidrs ← (if nonempty (feed_cidrs feed) then
                       spec ← config_load_subscription_rule t name false (feed_cidrs feed); Done [spec]
                     else Done []);
            Done (domains ++ cidrs)
        | Raise _ => Done []
        | Fault => Fault
        end
  end.

Fixpoint load_subscriptions (profile_name : bytes) (l : list (toml_item D)) : result (list ch_rule_spec) :=
  match l with
  | [] => Done []
  | i :: l' =>
      specs ← load_subscription profile_name i;
      rest ← load_subscriptions profile_name l';
      Done (specs ++ rest)
  end.

Definition ch_rule_engine_compile_config config (profile_name : option bytes) : result ch_rule_engine :=
  profile ← config_select_profile config profile_name;
  let array key := items (toml_array_in profile (str key)) in
  chain_names ← config_load_names (array "chain"%string);
  selected_profile_name ← ch_config_table_get_string profile (str "name");
  match chain_names with
  | [] => fail CH_ERROR_INVALID_ARGUMENT (str "profile has no chains")
  | default_chain :: _ =>
      group_names ← config_load_names (array "policy_group"%string);
      set_specs ← load_rule_sets config selected_profile_name (array "rule_set"%string);
      rule_specs ← load_rules (array "rule"%string);
      generated ← load_subscriptions selected_profile_name (array "rule_subscription"%string);
      ch_rule_engine_compile (rule_specs ++ generated) (Some default_chain) (view chain_names)
        (view group_names) set_specs
  end.

(** ** Explaining a route *)

Definition config_find_named_table (l : list (toml_item D)) (name : bytes) : option (toml_table D) :=
  find_named name l.

Definition config_optional_string (o : option (toml_table D)) (key : bytes) : bytes :=
  default [] (t ← o; toml_string_in t key).

Definition config_select_group_chain profile (group_name : bytes) : result bytes :=
  match config_find_named_table (items (toml_array_in profile (str "policy_group"))) group_name with
  | None => fail CH_ERROR_NOT_FOUND (str "policy group " ++ group_name ++ str " not found")
  | Some group =>
      let selected :=
        if strcaseeq (config_optional_string (Some group) (str "type")) (str "select")
        then config_optional_string (Some group) (str "selected") else [] in
      let members := items (toml_array_in group (str "chains")) in
      selected ← (if beq selected [] then
                    match members with [] => Done [] | _ => ch_config_array_get_string members 0 end
                  else Done selected);
      if beq selected [] then
        fail CH_ERROR_INVALID_ARGUMENT (str "policy group " ++ group_name ++ str " has no member chains")
      else
        match config_find_named_table (items (toml_array_in profile (str "chain"))) selected with
        | None => fail CH_ERROR_NOT_FOUND
                    (str "policy group " ++ group_name ++ str " selected missing chain " ++ selected)
        | Some _ => Done selected
        end
  end.

Section Explain.
Context (grow : Z -> bool).

Abbreviation append := (JsonText.append grow).
Abbreviation append_text := (JsonText.append_text grow).

Definition config_append_decision (decision : ch_rule_decision) (final_chain : bytes) : json_op :=
  all_of
    [append ([123] ++ quoted_key "rule_name"); append_text (d_rule_name decision);
     append ([44] ++ quoted_key "rule_number" ++ dec (d_rule_number decision) ++ [44] ++ quoted_key "action");
     append_text (d_action decision);
     append ([44] ++ quoted_key "chain_name"); append_text final_chain;
     append ([44] ++ quoted_key "group_name"); append_text (d_group_name decision);
     append ([44] ++ quoted_key "target"); append_text (d_target decision);
     append ([44] ++ quoted_key "target_host"); append_text (d_host decision);
     append ([44] ++ quoted_key "target_port"); append_text (d_port decision);
     append ([44] ++ quoted_key "network"); append_text (d_network decision);
     append ([44] ++ quoted_key "source"); append_text (d_source decision);
     append ([44] ++ quoted_key "default" ++ (if d_is_default decision then str "true" else str "false")
             ++ [44] ++ quoted_key "elapsed_ns" ++ dec (d_elapsed_ns decision)
             ++ [44] ++ quoted_key "explanation" ++ [123] ++ quoted_key "source" ++ [34] ++ str "config" ++ [34]
             ++ [44] ++ quoted_key "rule_name");
     append_text (d_rule_name decision);
     append ([44] ++ quoted_key "rule_number" ++ dec (d_rule_number decision)
             ++ [44] ++ quoted_key "matcher_kind");
     append_text (d_matcher_kind decision);
     append ([44] ++ quoted_key "matcher_value"); append_text (d_matcher_value decision);
     append ([44] ++ quoted_key "policy_group"); append_text (d_group_name decision);
     append ([44] ++ quoted_key "selected_chain"); append_text final_chain;
     append ([44] ++ quoted_key "final_chain"); append_text final_chain;
     append ([44] ++ quoted_key "summary"); append_text (d_summary decision);
     append [125; 125]].

Definition append_hop (i : toml_item D) : json_op :=
  let server := table_at i in
  all_of
    [append ([123] ++ quoted_key "name"); append_text (config_optional_string server (str "name"));
     append ([44] ++ quoted_key "address"); append_text (config_optional_string server (str "address"));
     append ([44] ++ quoted_key "protocol"); append_text (config_optional_string server (str "protocol"));
     append [125]].

Definition config_append_chain (chain : toml_table D) : json_op :=
  let servers := items (toml_array_in chain (str "server")) in
  all_of
    [append ([44] ++ quoted_key "chain" ++ [123] ++ quoted_key "name");
     append_text (config_optional_string (Some chain) (str "name"));
     append ([44] ++ quoted_key "hop_count" ++ dec (lenZ servers) ++ [125; 44] ++ quoted_key "hops" ++ [91]);
     append_list grow append_hop true servers;
     append [93]].

(** The target must name a host and a port. *)
Definition explainable (decision : ch_rule_decision) : bool :=
  let scan := strtol (d_port decision) in
  negb (beq (d_host decision) []) && negb (beq (d_port decision) []) && negb (scan_range scan)
  && scan_any scan && beq (scan_rest scan) [] && (1 <=? scan_value scan) && (scan_value scan <=? 65535).

Definition append_explanation (profile_name : bytes) (decision : ch_rule_decision) (final_chain : bytes)
    (chain : option (toml_table D)) : json_op :=
  all_of
    [append ([123] ++ quoted_key "profile"); append_text profile_name;
     append ([44] ++ quoted_key "decision"); config_append_decision decision final_chain;
     match chain with
     | Some chain => config_append_chain chain
     | None => append ([44] ++ quoted_key "hops" ++ [91; 93])
     end;
     append [125]].

(** [started] and [finished] are the clock readings of the decision. *)
Definition ch_rule_explain_config_json config (profile_name : option bytes)
    (context : ch_rule_match_context) (started finished : Z) : result bytes :=
  match target context, network context with
  | None, _ => fail CH_ERROR_INVALID_ARGUMENT (str "match context, target, and output are required")
  | Some _, None => fail CH_ERROR_INVALID_ARGUMENT (str "network must be tcp or udp")
  | Some _, Some net =>
      if negb (strcaseeq net (str "tcp") || strcaseeq net (str "udp")) then
        fail CH_ERROR_INVALID_ARGUMENT (str "network must be tcp or udp")
      else
        profile ← config_select_profile config profile_name;
        let selected_profile := config_optional_string (Some profile) (str "name") in
        engine ← ch_rule_engine_compile_config config (Some selected_profile);
        decision ← ch_rule_engine_decide (Some engine) (Some context) started finished;
        if negb (explainable decision) then
          fail CH_ERROR_INVALID_ARGUMENT
            (str "target must be host:port with a port between 1 and 65535")
        else
          final_chain ← (if beq (d_action decision) CH_RULE_ACTION_GROUP
                         then config_select_group_chain profile (d_group_name decision)
                         else Done (d_chain_name decision));
          let chain := if beq final_chain [] then None
                       else config_find_named_table (items (toml_array_in profile (str "chain"))) final_chain in
          take_text (append_explanation selected_profile decision final_chain chain)
            (str "encode route explanation")
  end.

End Explain.
End Cache.
End Load.

(** ** What is further relied on of [inet_pton]

    Dotted addresses have no colon, and the case of hexadecimal digits does not
    matter. *)
Class InetText `{Inet} : Prop := {
  pton4_no_colon s a : pton4 s = Some a -> 58 ∉ s;
  pton4_lower s a : pton4 s = Some a -> pton4 (map tolower s) = Some a;
  pton6_lower s a : pton6 s = Some a -> pton6 (map tolower s) = Some a
}.

Section Facts.
Context {D : Type} `{InetText} `{LongDouble}.
Implicit Types (t table profile : toml_table D) (config : ch_config (D := D)).

(** ** Facts: loading validated tables *)

Lemma load_strings_ok (l : list (toml_item D)) index P :
  Forall (fun i => exists s, string_at i = Some s /\ proper s /\ P s) l ->
  exists ss, load_strings_from l index = Done ss /\ Forall (fun s => proper s /\ P s) ss /\
    (l <> [] -> ss <> []) /\ (l = [] -> ss = []).
Proof.
  intros Hl. revert index. induction Hl as [|i l (s & Es & Hp & HP) Hl IH]; intros index; cbn [load_strings_from].
  { exists []. split_and!; auto. }
  rewrite Es. destruct (IH (index + 1)) as (ss & -> & Hf & _). cbn. exists (s :: ss). split_and!; auto; discriminate.
Qed.

Lemma config_load_strings_ok t key P :
  strings_of (toml_array_in t key) P ->
  exists ss, config_load_strings t key = Done ss /\ Forall (fun s => proper s /\ P s) ss /\
    (items (toml_array_in t key) <> [] -> ss <> []) /\ (items (toml_array_in t key) = [] -> ss = []).
Proof. apply load_strings_ok. Qed.

Lemma load_ports_ok (l : list (toml_item D)) index :
  Forall (fun j => exists port, int_at j = Some port /\ 0 <= port <= 65535) l ->
  exists ports, load_ports_from l index = Done ports.
Proof.
  intros Hl. revert index. induction Hl as [|i l (p & Ep & Hp) Hl IH]; intros index; cbn [load_ports_from]; [eauto|].
  rewrite Ep. destruct (IH (index + 1)) as [ports ->]. replace ((p <? 0) || (p >? 65535)) with false by lia.
  cbn. eauto.
Qed.

Lemma load_names_ok (l : list (toml_item D)) acc :
  Forall (fun i => exists name, item_name i = Some name /\ proper name) l ->
  load_names_from l acc = Done (acc ++ names l).
Proof.
  intros Hl. revert acc. induction Hl as [|i l (n & En & Hn) Hl IH]; intros acc; cbn [load_names_from].
  { cbn. rewrite app_nil_r. reflexivity. }
  unfold names. cbn [omap list_omap]. unfold item_name in En. destruct (table_at i) as [t|] eqn:Et; [|discriminate].
  cbn [mbind option_bind] in En. unfold ch_config_table_get_string. unfold table_string in En. rewrite En.
  cbn [mbind outcome_bind]. rewrite IH. unfold item_name. rewrite Et. cbn [mbind option_bind]. unfold table_string.
  rewrite En, <- app_assoc. reflexivity.
Qed.

(** ** Facts: compiling what is well-formed *)

Lemma reads_tolower text n : reads text n -> map tolower text = text.
Proof.
  intros Hr. assert (Hall : Forall (fun c => tolower c = c) text).
  { apply Forall_forall. intros c Hin. apply list_elem_of_In in Hin. unfold tolower.
    destruct ((65 <=? c) && (c <=? 90)) eqn:E; [|reflexivity]. exfalso.
    apply (reads_avoid c text n); auto; unfold isdigit, isspace; lia. }
  clear Hr. induction Hall as [|c l Hc Hl IH]; [reflexivity|]. cbn. rewrite Hc, IH. reflexivity.
Qed.

Lemma trimmed_lower_proper s strip : proper s ->
  ch_trimmed_lower (Some s) strip = map tolower (match s with c :: s' => if strip && (c =? 46) then s' else s | [] => s end).
Proof. intros [_ Ht]. unfold ch_trimmed_lower. change (default [] (Some s)) with s. rewrite Ht. reflexivity. Qed.

Lemma tolower_elem c s : (c < 65 \/ 90 < c < 97 \/ 122 < c) -> c ∈ map tolower s <-> c ∈ s.
Proof.
  intros Hc. rewrite list_elem_of_fmap. split.
  - intros (x & Ex & Hx). unfold tolower in Ex. case_if_in Ex; [lia|]. subst. assumption.
  - intros Hx. exists c. split; [|assumption]. unfold tolower. case_if; [lia|reflexivity].
Qed.

Lemma cidr_compile_text s : proper s -> cidr_text s -> exists c, cidr_compile (Some s) = Done c.
Proof.
  intros Hp (address & prefix & n & Es & Hne & Hl & Hr & Hn & Hc). unfold cidr_compile.
  change (default [] (Some s)) with s. rewrite trimmed_lower_proper by assumption.
  replace (match s with c :: s' => if false && (c =? 46) then s' else s | [] => s end) with s by (destruct s; reflexivity).
  pose proof (reads_avoid 47 prefix n eq_refl eq_refl ltac:(lia) ltac:(lia) Hr) as Hs.
  rewrite Es, map_app. cbn [map]. change (tolower 47) with 47. rewrite (reads_tolower _ _ Hr), split_last_app by assumption.
  destruct Hr as [Hrn Hr]. rewrite (proj2 (beq_false prefix [])) by assumption.
  rewrite (proj2 (beq_false (map tolower address) [])) by (destruct address; [contradiction|discriminate]).
  cbn [orb]. rewrite Hr. cbn [scan_value scan_range scan_any scan_rest negb orb]. change (beq [] []) with true. cbn [negb orb].
  destruct Hc as [(H58 & [a Ha] & H128)|(H58 & [a Ha] & H32)].
  - assert (E4 : pton4 (map tolower address) = None).
    { destruct (pton4 (map tolower address)) as [x|] eqn:E; [|reflexivity]. exfalso.
      apply (pton4_no_colon _ _ E), tolower_elem; [lia|assumption]. }
    unfold parse_ip. rewrite E4, (pton6_lower _ _ Ha).
    replace ((n <? 0) || (n >? 128)) with false by lia. cbn [orb]. eauto.
  - unfold parse_ip. rewrite (pton4_lower _ _ Ha).
    replace ((n <? 0) || (n >? 32)) with false by lia. cbn [orb]. eauto.
Qed.

(** What compiles: every block of the list. *)
Definition cidrs_compile (l : list bytes) : Prop := Forall (fun s => exists c, cidr_compile (Some s) = Done c) l.

Lemma cidr_list_ok l : cidrs_compile l -> exists cs, ch_cidr_list_compile (view l) = Done cs.
Proof.
  induction 1 as [|s l [c Hc] Hl [cs IH]]; cbn [view map ch_cidr_list_compile]; [eauto|].
  rewrite Hc. cbn [mbind outcome_bind]. unfold view in IH. rewrite IH. cbn. eauto.
Qed.

Lemma text_cidrs_compile l : Forall (fun s => proper s /\ cidr_text s) l -> cidrs_compile l.
Proof. intros Hl. eapply list.Forall_impl; [exact Hl|]. cbn. intros s [Hp Hc]. apply cidr_compile_text; assumption. Qed.

Lemma name_known_view l name : ch_name_known (view l) name = true <-> name ∈ l.
Proof.
  unfold ch_name_known, view. rewrite existsb_exists. split.
  - intros (o & Ho & E). apply in_map_iff in Ho as (s & <- & Hs). apply beq_true in E. subst.
    apply list_elem_of_In, Hs.
  - intros Hin. exists (Some name). split; [apply in_map, list_elem_of_In, Hin|apply beq_refl].
Qed.

Lemma parse_action_ok s chains groups :
  proper s -> action_wf chains groups s -> Forall proper chains -> Forall proper groups ->
  exists r, ch_parse_action (Some s) (view chains) (view groups) = Done r.
Proof.
  intros Hp Ha Hch Hgr. unfold ch_parse_action, ch_trimmed_copy. rewrite trimmed_lower_proper by assumption.
  replace (match s with c :: s' => if false && (c =? 46) then s' else s | [] => s end) with s by (destruct s; reflexivity).
  change (default [] (Some s)) with s. rewrite (proj2 Hp). clear Hp.
  destruct Ha as [s Hf|key name Ek Hne Hin|key name Ek Hne Hin].
  - assert (Hn : 58 ∉ s).
    { rewrite <- (tolower_elem 58 s) by lia. rewrite !elem_of_cons, elem_of_nil in Hf.
      destruct Hf as [-> |[-> |[-> |[]]]]; apply split_first_None; reflexivity. }
    rewrite (proj2 (split_first_None 58 s) Hn).
    rewrite !elem_of_cons, elem_of_nil in Hf. destruct Hf as [-> |[-> |[-> |[]]]]; eexists; reflexivity.
  - assert (Hk : 58 ∉ key).
    { rewrite <- (tolower_elem 58 key) by lia. rewrite Ek. apply split_first_None. reflexivity. }
    rewrite split_first_app, map_app by assumption. cbn [map]. change (tolower 58) with 58.
    rewrite Ek, split_first_app by (apply split_first_None; reflexivity).
    rewrite list.Forall_forall in Hch. destruct (Hch _ Hin) as [_ ->].
    change (beq (str "chain") CH_RULE_ACTION_DIRECT || beq (str "chain") CH_RULE_ACTION_BLOCK
            || beq (str "chain") CH_RULE_ACTION_REJECT) with false. cbv iota.
    rewrite (proj2 (beq_false name [])) by assumption. change (beq (str "chain") CH_RULE_ACTION_CHAIN) with true. cbv iota.
    rewrite (proj2 (name_known_view chains name) Hin). eauto.
  - assert (Hk : 58 ∉ key).
    { rewrite <- (tolower_elem 58 key) by lia. rewrite Ek. apply split_first_None. reflexivity. }
    rewrite split_first_app, map_app by assumption. cbn [map]. change (tolower 58) with 58.
    rewrite Ek, split_first_app by (apply split_first_None; reflexivity).
    rewrite list.Forall_forall in Hgr. destruct (Hgr _ Hin) as [_ ->].
    change (beq (str "group") CH_RULE_ACTION_DIRECT || beq (str "group") CH_RULE_ACTION_BLOCK
            || beq (str "group") CH_RULE_ACTION_REJECT) with false. cbv iota.
    rewrite (proj2 (beq_false name [])) by assumption. change (beq (str "group") CH_RULE_ACTION_CHAIN) with false.
    change (beq (str "group") CH_RULE_ACTION_GROUP) with true. cbv iota.
    rewrite (proj2 (name_known_view groups name) Hin). eauto.
Qed.

(** A rule set whose blocks compile. *)
Definition set_ready (spec : ch_rule_set_spec) : Prop :=
  exists name cidrs, set_spec_name spec = Some name /\ set_spec_cidrs spec = view cidrs /\ cidrs_compile cidrs.

Lemma compile_rule_set_ok spec : set_ready spec -> exists c, ch_compile_rule_set spec = Done c.
Proof.
  intros (name & cidrs & _ & Ec & Hc). unfold ch_compile_rule_set. rewrite Ec.
  destruct (cidr_list_ok cidrs Hc) as [cs ->]. cbn. eauto.
Qed.

Lemma rule_sets_loop_ok input known output :
  Forall set_ready known ->
  Forall (fun s => proper s /\ Some s ∈ map set_spec_name known) input ->
  exists out, rule_sets_loop (view input) known output = Done out.
Proof.
  intros Hk Hi. revert output. induction Hi as [|s input [[Hs Ht] Hin] Hi IH]; intros output;
    cbn [view map rule_sets_loop]; [eauto|].
  unfold ch_trimmed_copy. change (default [] (Some s)) with s. rewrite Ht.
  destruct (beq s [] || existsb (fun c => beq (set_name c) s) output); [apply IH|].
  destruct (ch_find_rule_set known s) as [spec|] eqn:Ef.
  - assert (Hr : set_ready spec).
    { rewrite list.Forall_forall in Hk. apply Hk. unfold ch_find_rule_set in Ef.
      apply List.find_some in Ef as [Hf _]. apply list_elem_of_In, Hf. }
    destruct (compile_rule_set_ok spec Hr) as [c ->]. cbn [mbind outcome_bind]. apply IH.
  - exfalso. apply list_elem_of_fmap in Hin as (spec & En & Hin). apply list_elem_of_In in Hin.
    pose proof (List.find_none _ _ Ef spec Hin) as Hno. cbv beta in Hno. rewrite <- En, beq_refl in Hno. discriminate.
Qed.

Lemma view_nonempty l : nonempty (view l) = nonempty l.
Proof. destruct l; reflexivity. Qed.

(** A rule that compiles, with the name it keeps. *)
Definition rule_ready (chains groups : list bytes) (sets : list ch_rule_set_spec) (spec : ch_rule_spec) : Prop :=
  exists r, ch_compile_rule spec (view chains) (view groups) sets = Done r /\
    (forall n, spec_name spec = Some n -> proper n -> rule_name r = n).

Lemma config_rule_compiles chains groups sets name act rule_sets domains suffixes keywords cidrs sources ports nets procs :
  (exists r, ch_parse_action (Some act) (view chains) (view groups) = Done r) ->
  (rule_sets <> [] -> domains = [] /\ suffixes = [] /\ keywords = [] /\ cidrs = []) ->
  cidrs_compile cidrs -> cidrs_compile sources -> Forall set_ready sets ->
  Forall (fun s => proper s /\ Some s ∈ map set_spec_name sets) rule_sets ->
  rule_ready chains groups sets
    (mk_rule_spec (Some name) (Some act) (view rule_sets) (view domains) (view suffixes) (view keywords)
       (view cidrs) (view sources) ports (view nets) (view procs)).
Proof.
  intros [[[a ch] gr] Hact] Hex Hc Hs Hsets Hrs. unfold rule_ready, ch_compile_rule.
  cbn [spec_name spec_action spec_rule_sets spec_domains spec_domain_suffixes spec_domain_keywords
       spec_cidrs spec_source_cidrs spec_ports spec_networks spec_processes].
  rewrite Hact. cbn [mbind outcome_bind]. rewrite !view_nonempty.
  assert (En : nonempty rule_sets && (nonempty domains || nonempty suffixes || nonempty keywords || nonempty cidrs) = false).
  { destruct rule_sets; [reflexivity|]. destruct Hex as (-> & -> & -> & ->); [discriminate|reflexivity]. }
  rewrite En. destruct (cidr_list_ok cidrs Hc) as [cs ->], (cidr_list_ok sources Hs) as [ss ->].
  cbn [mbind outcome_bind]. destruct (rule_sets_loop_ok rule_sets sets [] Hsets Hrs) as [out ->].
  cbn [mbind outcome_bind]. eexists. split; [reflexivity|]. intros n [= <-] [Hn Ht]. cbn [rule_name].
  unfold ch_trimmed_copy. change (default [] (Some name)) with name. rewrite Ht.
  rewrite (proj2 (beq_false name [])) by assumption. reflexivity.
Qed.

Lemma get_string_ok t key s : table_string t key = Some s -> ch_config_table_get_string t key = Done s.
Proof. intros E. unfold ch_config_table_get_string. unfold table_string in E. rewrite E. reflexivity. Qed.

Lemma array_none_strings t key ss :
  toml_array_in t key = None -> config_load_strings t key = Done ss -> ss = [].
Proof. intros E. unfold config_load_strings. rewrite E. cbn. congruence. Qed.

Lemma load_rule_ok (chains groups sets : list (toml_item D)) (specs : list ch_rule_set_spec) i :
  rule_wf chains groups sets i -> Forall proper (names chains) -> Forall proper (names groups) ->
  Forall set_ready specs -> map set_spec_name specs = map Some (names sets) ->
  exists t spec n, table_at i = Some t /\ config_load_rule t = Done spec /\ item_name i = Some n /\
    proper n /\ spec_name spec = Some n /\ rule_ready (names chains) (names groups) specs spec.
Proof.
  intros (t & n & act & Et & En & Hn & Ea & Hpa & Hact & Hf & Hex & Hrs & Hnet & Hci & Hsc & Hports) Hch Hgr Hsets Hnames.
  assert (Hfield : forall key, key ∈ rule_string_fields -> exists ss, config_load_strings t key = Done ss).
  { intros key Hkey. rewrite list.Forall_forall in Hf. destruct (config_load_strings_ok t key any (Hf key Hkey)) as (ss & E & _). eauto. }
  destruct (config_load_strings_ok _ _ _ Hrs) as (rs & Ers & Hrs' & Hrs1 & Hrs2).
  destruct (config_load_strings_ok _ _ _ Hci) as (ci & Eci & Hci' & _).
  destruct (config_load_strings_ok _ _ _ Hsc) as (sc & Esc & Hsc' & _).
  destruct (load_ports_ok _ 0 Hports) as [ports Eports].
  destruct (Hfield (str "domains")) as [dom Edom]; [unfold rule_string_fields; rewrite !elem_of_cons; tauto|].
  destruct (Hfield (str "domain_suffixes")) as [suf Esuf]; [unfold rule_string_fields; rewrite !elem_of_cons; tauto|].
  destruct (Hfield (str "domain_keywords")) as [kw Ekw]; [unfold rule_string_fields; rewrite !elem_of_cons; tauto|].
  destruct (Hfield (str "networks")) as [net Enet]; [unfold rule_string_fields; rewrite !elem_of_cons; tauto|].
  destruct (Hfield (str "processes")) as [pr Epr]; [unfold rule_string_fields; rewrite !elem_of_cons; tauto|].
  exists t. eexists. exists n. split; [exact Et|]. split.
  { unfold config_load_rule. rewrite (get_string_ok _ _ _ En), (get_string_ok _ _ _ Ea). cbn [mbind outcome_bind].
    rewrite Ers, Edom, Esuf, Ekw, Eci, Esc. cbn [mbind outcome_bind]. unfold config_load_ports. rewrite Eports.
    cbn [mbind outcome_bind]. rewrite Enet, Epr. reflexivity. }
  split; [unfold item_name; rewrite Et; exact En|]. split; [exact Hn|]. split; [reflexivity|].
  apply config_rule_compiles; auto using text_cidrs_compile, parse_action_ok.
  - intros Hne. assert (Hitems : items (toml_array_in t (str "rule_sets")) <> []) by (intros E; apply Hne, Hrs2, E).
    specialize (Hex Hitems). unfold inline_fields in Hex. rewrite !list.Forall_cons in Hex.
    destruct Hex as (E1 & E2 & E3 & E4 & _). split_and!; [exact (array_none_strings _ _ _ E1 Edom)|exact (array_none_strings _ _ _ E2 Esuf)
      |exact (array_none_strings _ _ _ E3 Ekw)|exact (array_none_strings _ _ _ E4 Eci)].
  - rewrite Hnames. eapply list.Forall_impl; [exact Hrs'|]. cbn. intros s [Hp Hin]. split; [exact Hp|].
    apply list_elem_of_fmap. eauto.
Qed.

Lemma load_rules_ok (chains groups sets : list (toml_item D)) specs l :
  Forall (rule_wf chains groups sets) l -> Forall proper (names chains) -> Forall proper (names groups) ->
  Forall set_ready specs -> map set_spec_name specs = map Some (names sets) ->
  exists rules, load_rules l = Done rules /\ Forall (rule_ready (names chains) (names groups) specs) rules /\
    map spec_name rules = map Some (names l) /\ Forall proper (names l).
Proof.
  intros Hl Hch Hgr Hsets Hnames. induction Hl as [|i l Hi Hl (rules & E & Hr & Hn & Hp)]; cbn [load_rules].
  { exists []. split_and!; auto. }
  destruct (load_rule_ok _ _ _ _ _ Hi Hch Hgr Hsets Hnames) as (t & spec & n & Et & Es & En & Hpn & Hsn & Hrd).
  rewrite Et, Es. cbn [mbind outcome_bind]. rewrite E. cbn [mbind outcome_bind]. exists (spec :: rules).
  unfold names in *. cbn [omap list_omap]. rewrite En. cbn [map]. split_and!; auto. rewrite Hsn, Hn. reflexivity.
Qed.

(** ** Facts: the cache of downloaded lists *)

(** The cached lists hold blocks that parse; a cache may fail with any error. *)
Definition cache_ok (cache_load : feed_kind -> bytes -> bytes -> bytes -> result rule_feed) : Prop :=
  forall kind owner name url,
    match cache_load kind owner name url with
    | Done feed => cidrs_compile (feed_cidrs feed)
    | Raise e => True
    | Fault => False
    end.

Section Cached.
Context (cache_load : feed_kind -> bytes -> bytes -> bytes -> result rule_feed) (Hcache : cache_ok cache_load).

(** The cached list of a rule set that the code cannot go on without: one that
    is neither missing, malformed nor unreadable. *)
Definition set_cache_fails (pname : bytes) (e : ch_error) : Prop :=
  exists name url, cache_load CH_RULE_FEED_RULE_SET pname name url = Raise e /\
    (code e ∉ [CH_ERROR_NOT_FOUND; CH_ERROR_PARSE; CH_ERROR_IO]).

Lemma extend_ok config pname t spec :
  set_ready spec ->
  (exists spec', config_extend_rule_set_from_cache cache_load config pname t spec = Done spec' /\
    set_ready spec' /\ set_spec_name spec' = set_spec_name spec) \/
  exists e, config_extend_rule_set_from_cache cache_load config pname t spec = Raise e /\ set_cache_fails pname e.
Proof.
  intros Hr. unfold config_extend_rule_set_from_cache. case_if; [left; eauto|]. case_if; [left; eauto|].
  pose proof (Hcache CH_RULE_FEED_RULE_SET pname (default [] (set_spec_name spec)) (config_string_or t (str "url") [])) as Hc'.
  destruct (cache_load _ _ _ _) as [feed|e|] eqn:El; [| |contradiction].
  - left. eexists. split; [reflexivity|]. split; [|reflexivity]. destruct Hr as (name & cidrs & En & Ec & Hc).
    exists name, (cidrs ++ feed_cidrs feed). split_and!; [exact En| |apply Forall_app; auto].
    cbn. rewrite Ec. unfold view. rewrite map_app. reflexivity.
  - case_bool_decide as Hcode; [left; eauto|right]. exists e. split; [reflexivity|]. do 2 eexists. eauto.
Qed.

Lemma load_rule_sets_ok config pname (l : list (toml_item D)) :
  named_distinct l -> Forall rule_set_wf l ->
  (exists specs, load_rule_sets cache_load config pname l = Done specs /\ Forall set_ready specs /\
    map set_spec_name specs = map Some (names l)) \/
  exists e, load_rule_sets cache_load config pname l = Raise e /\ set_cache_fails pname e.
Proof.
  intros [Hn _] Hl. revert Hn. induction Hl as [|i l Hi Hl IH]; intros Hn; cbn [load_rule_sets].
  { left. exists []. split_and!; auto. }
  inversion_clear Hn as [|? ? (n & En & Hp) Hn']. specialize (IH Hn').
  destruct Hi as (t & Et & Hd & Hsf & Hk & Hc & _). unfold names in *. cbn [omap list_omap]. rewrite En, Et.
  unfold item_name in En. rewrite Et in En. cbn [mbind option_bind] in En.
  destruct (config_load_strings_ok _ _ _ Hd) as (d & Ed & _). destruct (config_load_strings_ok _ _ _ Hsf) as (sf & Esf & _).
  destruct (config_load_strings_ok _ _ _ Hk) as (k & Ek & _). destruct (config_load_strings_ok _ _ _ Hc) as (c & Ec & Hc' & _).
  unfold config_load_rule_set. rewrite (get_string_ok _ _ _ En). cbn [mbind outcome_bind].
  rewrite Ed, Esf, Ek, Ec. cbn [mbind outcome_bind].
  destruct (extend_ok config pname t (mk_rule_set_spec (Some n) (view d) (view sf) (view k) (view c))) as [(spec' & -> & Hr & Hsn)|(e & -> & He)].
  { exists n, c. split_and!; auto using text_cidrs_compile. }
  - cbn [mbind outcome_bind]. destruct IH as [(specs & -> & Hs & Hm)|(e & -> & He)]; cbn [mbind outcome_bind]; [left|right; eauto].
    exists (spec' :: specs). cbn [map]. split_and!; auto. rewrite Hsn, Hm. reflexivity.
  - right. cbn. eauto.
Qed.

Lemma subscription_rule_ok chains groups specs t name (domains : bool) cached :
  strings_of (toml_array_in t (str "networks")) network_text ->
  if_given t (str "action") (fun s => s ∈ [str "block"; str "reject"]) ->
  table_string t (str "action") <> Some [] ->
  Forall set_ready specs -> cidrs_compile (if domains then [] else cached) ->
  exists spec, config_load_subscription_rule t name domains cached = Done spec /\ rule_ready chains groups specs spec.
Proof.
  intros Hnet Hact Hne Hs Hc. unfold config_load_subscription_rule.
  destruct (config_load_strings_ok _ _ _ Hnet) as (net & -> & _). cbn [mbind outcome_bind]. eexists. split; [reflexivity|].
  apply (config_rule_compiles _ _ _ _ _ [] [] _ [] _ [] [] _ []); [| |exact Hc|constructor|exact Hs|constructor].
  - unfold config_string_or. unfold if_given, table_string in *.
    destruct (toml_string_in t (str "action")) as [a|]; [|eexists; reflexivity].
    specialize (Hact a eq_refl ltac:(congruence)). rewrite !elem_of_cons, elem_of_nil in Hact.
    destruct Hact as [-> |[-> |[]]]; eexists; reflexivity.
  - contradiction.
Qed.

Lemma load_subscriptions_ok chains groups specs pname (l : list (toml_item D)) :
  Forall subscription_wf l -> Forall set_ready specs ->
  Forall (fun i => forall t, table_at i = Some t -> table_string t (str "action") <> Some []) l ->
  exists rules, load_subscriptions cache_load pname l = Done rules /\ Forall (rule_ready chains groups specs) rules.
Proof.
  intros Hl Hs Ha. induction Hl as [|i l Hi Hl IH]; cbn [load_subscriptions]; [eauto|].
  inversion_clear Ha as [|? ? Hai Ha']. destruct (IH Ha') as (rules & -> & Hr). clear IH.
  enough (exists rs, load_subscription cache_load pname i = Done rs /\ Forall (rule_ready chains groups specs) rs)
    as (rs & -> & Hrs) by (cbn; eexists; split; [reflexivity|apply Forall_app; auto]).
  destruct Hi as (t & u & Et & _ & _ & _ & Hact & Hnet). unfold load_subscription. rewrite Et. specialize (Hai t Et).
  case_if; [eauto|]. set (name := config_string_or t (str "name") []). set (url := config_string_or t (str "url") []).
  specialize (Hcache CH_RULE_FEED_SUBSCRIPTION pname name url). destruct (cache_load _ _ _ _) as [feed|e|]; [|eauto|contradiction].
  destruct (subscription_rule_ok chains groups specs t name true (feed_suffixes feed) Hnet Hact Hai Hs ltac:(constructor)) as (s1 & -> & R1).
  destruct (subscription_rule_ok chains groups specs t name false (feed_cidrs feed) Hnet Hact Hai Hs Hcache) as (s2 & -> & R2).
  destruct (nonempty (feed_suffixes feed)), (nonempty (feed_cidrs feed)); cbn; eauto 10.
Qed.

Lemma config_rules_compile chains groups sets specs :
  Forall (rule_ready chains groups sets) specs ->
  exists rules, compile_rules specs (view chains) (view groups) sets = Done rules /\
    Forall2 (fun spec r => forall n, spec_name spec = Some n -> proper n -> rule_name r = n) specs rules.
Proof.
  induction 1 as [|spec specs (r & Hr & Hn) Hl (rules & E & Hf)]; cbn [compile_rules]; [eauto|].
  rewrite Hr. cbn [mbind outcome_bind]. rewrite E. cbn. eauto.
Qed.

(** ** Facts: the selected profile *)

Lemma find_named_in name (l : list (toml_item D)) t :
  find_named name l = Some t -> exists i, i ∈ l /\ table_at i = Some t /\ item_name i = Some name.
Proof.
  unfold find_named. destruct (List.find (Config.named name) l) as [i|] eqn:E; cbn; [|discriminate]. intros Et.
  apply List.find_some in E as [Hin Hn]. exists i. split; [apply list_elem_of_In, Hin|]. split; [exact Et|].
  unfold Config.named in Hn. destruct (item_name i) as [n|]; [|discriminate]. apply beq_true in Hn. congruence.
Qed.

Lemma select_profile_item config pname profile :
  config_select_profile config pname = Done profile ->
  exists i, i ∈ items (toml_array_in (root config) (str "profile")) /\ table_at i = Some profile.
Proof.
  unfold config_select_profile, ch_config_profile_named, ch_config_active_profile.
  set (l := items (toml_array_in (root config) (str "profile"))).
  assert (Hfind : forall n, find_named n l = Some profile -> exists i, i ∈ l /\ table_at i = Some profile).
  { intros n Hn. apply find_named_in in Hn as (i & Hi & Et & _). eauto. }
  destruct (empty pname); cbn [negb].
  - assert (Hhead : (i ← head l; table_at i) = Some profile -> exists i, i ∈ l /\ table_at i = Some profile).
    { destruct l as [|i l']; [discriminate|]. cbn. intros Et. exists i. split; [left|exact Et]. }
    destruct (empty _); [destruct (i ← head l; table_at i); [intros [= <-]; auto|discriminate]|].
    destruct (find_named _ l) eqn:Ef; [intros [= <-]; eauto|].
    destruct (i ← head l; table_at i); [intros [= <-]; auto|discriminate].
  - destruct (find_named _ l) eqn:Ef; [intros [= <-]; eauto|discriminate].
Qed.

Lemma select_profile_wf config pname profile :
  config_wf (root config) -> config_select_profile config pname = Done profile ->
  profile_wf profile /\ exists name, table_string profile (str "name") = Some name /\ proper name.
Proof.
  intros Hwf Hs. destruct (select_profile_item _ _ _ Hs) as (i & Hi & Et).
  pose proof (wf_profiles _ Hwf) as Hp. pose proof (wf_profile_names _ Hwf) as [Hn _].
  rewrite list.Forall_forall in Hp, Hn. destruct (Hp i Hi) as (p & Ep & Hpw).
  destruct (Hn i Hi) as (n & En & Hpn). rewrite Et in Ep. injection Ep as <-. split; [exact Hpw|].
  exists n. split; [|exact Hpn]. unfold item_name in En. rewrite Et in En. exact En.
Qed.

Lemma named_proper (l : list (toml_item D)) : named_distinct l -> Forall proper (names l).
Proof.
  intros [Hl _]. apply list.Forall_forall. intros n Hn. apply list_elem_of_omap in Hn as (i & Hi & En).
  rewrite list.Forall_forall in Hl. destruct (Hl i Hi) as (n' & En' & Hp). congruence.
Qed.

Lemma names_nonempty (l : list (toml_item D)) : named_distinct l -> l <> [] -> exists c cs, names l = c :: cs.
Proof.
  intros [Hl _] Hne. destruct Hl as [|i l (n & En & _) _]; [contradiction|]. unfold names. cbn. rewrite En. eauto.
Qed.

(** The names of the rules, in the order of the document. *)
Lemma compiled_names specs rules ns gen :
  Forall2 (fun spec r => forall n, spec_name spec = Some n -> proper n -> rule_name r = n) (specs ++ gen) rules ->
  map spec_name specs = map Some ns -> Forall proper ns ->
  take (length ns) (map rule_name rules) = ns.
Proof.
  intros Hf Hn Hp. revert rules ns Hn Hp Hf.
  induction specs as [|spec specs IH]; intros rules [|n ns] Hn Hp Hf; try discriminate; [reflexivity|].
  cbn in Hn. injection Hn as Es Hn. inversion_clear Hp as [|? ? Hpn Hp']. cbn [app] in Hf.
  inversion_clear Hf as [|? r ? rules' Hr Hf']. cbn [map length take firstn]. rewrite (Hr n Es Hpn). f_equal.
  apply IH; assumption.
Qed.

(** A rule of the engine that is compiled from a table of the document. *)
Definition rule_of_table (chains groups : list bytes) (sets : list ch_rule_set_spec) (i : toml_item D) (r : ch_compiled_rule) : Prop :=
  exists t spec, table_at i = Some t /\ config_load_rule t = Done spec /\ ch_compile_rule spec (view chains) (view groups) sets = Done r.

Lemma rules_of_tables chains groups sets (l : list (toml_item D)) specs gen rules :
  load_rules l = Done specs -> compile_rules (specs ++ gen) (view chains) (view groups) sets = Done rules ->
  Forall2 (rule_of_table chains groups sets) l (take (length l) rules).
Proof.
  revert specs rules. induction l as [|i l IH]; intros specs rules El Ec; cbn [load_rules] in El; [constructor|].
  destruct (table_at i) as [t|] eqn:Et; [|discriminate]. apply bind_Done_inv in El as (spec & Es & El).
  apply bind_Done_inv in El as (rest & Er & El). injection El as <-. cbn [app compile_rules] in Ec.
  apply bind_Done_inv in Ec as (r & Hr & Ec). apply bind_Done_inv in Ec as (rules' & Hrules & Ec). injection Ec as <-.
  cbn [length]. constructor; [exists t, spec; auto|exact (IH _ _ Er Hrules)].
Qed.

(** The engine of a profile: its default chain and its first rules. *)
Definition engine_of (config : ch_config) (pname : bytes) (profile : toml_table D) (engine : ch_rule_engine) : Prop :=
  let tables key := items (toml_array_in profile (str key)) in
  head (names (tables "chain"%string)) = Some (default_chain engine) /\
  take (length (names (tables "rule"%string))) (map rule_name (rules engine)) = names (tables "rule"%string) /\
  exists sets, load_rule_sets cache_load config pname (tables "rule_set"%string) = Done sets /\
    Forall2 (rule_of_table (names (tables "chain"%string)) (names (tables "policy_group"%string)) sets)
      (tables "rule"%string) (take (length (tables "rule"%string)) (rules engine)).

Lemma config_compiles config pname profile :
  config_wf (root config) ->
  config_select_profile config pname = Done profile ->
  items (toml_array_in profile (str "chain")) <> [] ->
  Forall (fun i => forall t, table_at i = Some t -> table_string t (str "action") <> Some [])
    (items (toml_array_in profile (str "rule_subscription"))) ->
  exists name, table_string profile (str "name") = Some name /\
    ((exists engine, ch_rule_engine_compile_config cache_load config pname = Done engine /\ engine_of config name profile engine) \/
     (exists e, ch_rule_engine_compile_config cache_load config pname = Raise e /\ set_cache_fails name e)).
Proof.
  intros Hwf Hsel Hne Hsub. destruct (select_profile_wf _ _ _ Hwf Hsel) as [Hp (n & En & _)].
  unfold ch_rule_engine_compile_config. rewrite Hsel. cbn [mbind outcome_bind]. unfold config_load_names.
  pose proof (named_proper _ (wf_chains _ Hp)) as Hpc. pose proof (named_proper _ (wf_group_names _ Hp)) as Hpg.
  rewrite (load_names_ok (items (toml_array_in profile (str "chain"))) []) by exact (proj1 (wf_chains _ Hp)). cbn [mbind outcome_bind app].
  rewrite (get_string_ok _ _ _ En). cbn [mbind outcome_bind].
  destruct (names_nonempty _ (wf_chains _ Hp) Hne) as (c & cs & Ec). rewrite Ec in *.
  rewrite (load_names_ok (items (toml_array_in profile (str "policy_group"))) []) by exact (proj1 (wf_group_names _ Hp)). cbn [mbind outcome_bind app].
  exists n. split; [exact En|].
  destruct (load_rule_sets_ok config n _ (wf_set_names _ Hp) (wf_sets _ Hp)) as [(specs & Els & Hs & Hsn)|(e & -> & He)]; [left|right; cbn; eauto].
  rewrite Els. cbn [mbind outcome_bind]. rewrite <- Ec in Hpc.
  destruct (load_rules_ok _ _ _ specs _ (wf_rules _ Hp) Hpc Hpg Hs Hsn) as (rules & Elr & Hr & Hrn & Hrp).
  rewrite Elr. cbn [mbind outcome_bind]. rewrite Ec in *.
  destruct (load_subscriptions_ok (c :: cs) (names (items (toml_array_in profile (str "policy_group")))) specs n _
              (wf_subscriptions _ Hp) Hs Hsub) as (gen & -> & Hg).
  cbn [mbind outcome_bind]. unfold ch_rule_engine_compile, ch_trimmed_copy.
  inversion_clear Hpc as [|? ? [Hcn Hct] _]. change (default [] (Some c)) with c. rewrite Hct.
  rewrite (proj2 (beq_false c [])) by assumption.
  rewrite (proj2 (name_known_view (c :: cs) c)) by left. cbn [negb].
  destruct (config_rules_compile (c :: cs) (names (items (toml_array_in profile (str "policy_group")))) specs (rules ++ gen))
    as (compiled & Ecomp & Hf2); [apply Forall_app; auto|]. rewrite Ecomp. cbn [mbind outcome_bind].
  eexists. split; [reflexivity|]. unfold engine_of. cbn [default_chain Rules.rules]. rewrite Ec. cbn [head].
  split_and!; [reflexivity|eapply compiled_names; eauto|]. exists specs. split; [exact Els|]. eapply rules_of_tables; eauto.
Qed.

(** C9: An accepted configuration can be routed with.  When the document is
    well-formed, the profile has a chain, no subscription has an empty action and
    the blocks of the cached rule lists parse, the rule engine of the profile
    compiles, but for one reason: the cached list of a rule set fails with an
    error other than a missing, malformed or unreadable cache (a file that is too
    large, for one), and that error is reported.  The default chain of the
    engine is the first of the profile; its first rules are the rules compiled
    from the tables of the document, one for each and in order, under their
    names.  So validation refuses everything in the document that the compiler
    of rules would refuse. *)
Theorem validated_config_compiles config pname profile :
  config_wf (root config) ->
  config_select_profile config pname = Done profile ->
  items (toml_array_in profile (str "chain")) <> [] ->
  Forall (fun i => forall t, table_at i = Some t -> table_string t (str "action") <> Some [])
    (items (toml_array_in profile (str "rule_subscription"))) ->
  exists name, table_string profile (str "name") = Some name /\
    ((exists engine, ch_rule_engine_compile_config cache_load config pname = Done engine /\ engine_of config name profile engine) \/
     (exists e, ch_rule_engine_compile_config cache_load config pname = Raise e /\ set_cache_fails name e)).
Proof. apply config_compiles. Qed.

Lemma subscription_rule_action t name domains cached spec :
  config_load_subscription_rule t name domains cached = Done spec ->
  spec_action spec = Some (config_string_or t (str "action") (str "block")).
Proof.
  unfold config_load_subscription_rule. destruct (config_load_strings t (str "networks")); cbn; [|discriminate..].
  intros [= <-]. reflexivity.
Qed.

(** (code bug) an empty action of a subscription is accepted by validation
    and then breaks the whole engine.  [validate_rule_subscriptions] allows the
    empty string, [config_string_or] keeps it instead of the default [block],
    and the rule compiler refuses it, so that as soon as the subscription has
    cached domains no engine of the profile can be built. *)
Theorem empty_action_breaks_engine config pname profile i t feed pn :
  config_wf (root config) ->
  config_select_profile config pname = Done profile ->
  table_string profile (str "name") = Some pn ->
  i ∈ items (toml_array_in profile (str "rule_subscription")) -> table_at i = Some t ->
  table_string t (str "action") = Some [] -> toml_bool_in t (str "disabled") = None ->
  cache_load CH_RULE_FEED_SUBSCRIPTION pn (config_string_or t (str "name") []) (config_string_or t (str "url") [])
  = Done feed -> feed_suffixes feed <> [] ->
  forall engine, ch_rule_engine_compile_config cache_load config pname <> Done engine.
Proof.
  intros Hwf Hsel Hpn Hin Et Ha Hd Hfeed Hne engine Hc. revert Hc.
  unfold ch_rule_engine_compile_config. rewrite Hsel. cbn [mbind outcome_bind].
  destruct (config_load_names (items (toml_array_in profile (str "chain")))) as [chains| |]; [|discriminate..]. cbn [mbind outcome_bind].
  rewrite (get_string_ok _ _ _ Hpn). cbn [mbind outcome_bind]. destruct chains as [|c cs]; [discriminate|].
  destruct (config_load_names (items (toml_array_in profile (str "policy_group")))) as [groups| |]; [|discriminate..]. cbn [mbind outcome_bind].
  destruct (load_rule_sets _ _ _ _) as [specs| |]; [|discriminate..]. cbn [mbind outcome_bind].
  destruct (load_rules _) as [rules| |]; [|discriminate..]. cbn [mbind outcome_bind].
  destruct (load_subscriptions _ _ _) as [gen| |] eqn:Eg; [|discriminate..]. cbn [mbind outcome_bind].
  assert (Hbad : exists spec, spec ∈ gen /\ spec_action spec = Some []).
  { revert gen Eg. induction Hin as [x l|x j l Hin IH]; intros gen; cbn [load_subscriptions].
    - unfold load_subscription at 1. rewrite Et. unfold config_optional_bool. rewrite Hd. cbn [default from_option].
      rewrite Hfeed. destruct (feed_suffixes feed) as [|s ss]; [contradiction|]. cbn [nonempty].
      destruct (config_load_subscription_rule t _ true (s :: ss)) as [spec| |] eqn:Es; [|intros E; discriminate E..].
      apply subscription_rule_action in Es. cbn [mbind outcome_bind]. intros E.
      destruct (if nonempty (feed_cidrs feed) then _ else _) as [ci| |]; [|discriminate..]. cbn [mbind outcome_bind] in E.
      destruct (load_subscriptions _ _ l) as [rest| |]; [|discriminate..]. cbn in E. injection E as <-.
      exists spec. split; [left|]. rewrite Es. unfold config_string_or. unfold table_string in Ha. rewrite Ha. reflexivity.
    - destruct (load_subscription _ _ j) as [s0| |]; [|intros E; discriminate E..]. cbn [mbind outcome_bind].
      destruct (load_subscriptions _ _ l) as [rest| |] eqn:El; [|intros E; discriminate E..]. cbn [mbind outcome_bind].
      intros [= <-]. destruct (IH Et rest eq_refl) as (spec & Hs & Es). exists spec. split; [|exact Es].
      apply elem_of_app. auto. }
  destruct Hbad as (spec & Hspec & Eact). unfold ch_rule_engine_compile.
  case_if; [discriminate|]. case_if; [discriminate|].
  assert (Hno : forall inputs rs, spec ∈ inputs ->
            compile_rules inputs (view (c :: cs)) (view groups) specs <> Done rs).
  { intros inputs. induction inputs as [|x inputs IH]; intros rs Hx; [apply elem_of_nil in Hx as []|].
    cbn [compile_rules]. apply elem_of_cons in Hx as [<-|Hx].
    - unfold ch_compile_rule. rewrite Eact. cbn. discriminate.
    - destruct (ch_compile_rule x _ _ _) as [r| |]; cbn [mbind outcome_bind]; [|discriminate..].
      destruct (compile_rules inputs _ _ _) as [rest| |] eqn:E; cbn [mbind outcome_bind]; [|discriminate..].
      intros _. exact (IH rest Hx eq_refl). }
  destruct (compile_rules _ _ _ _) as [compiled| |] eqn:E; [|discriminate..].
  exfalso. eapply Hno; [|exact E]. apply elem_of_app. auto.
Qed.

(** ** Facts: explaining a route *)

Lemma find_named_names name (l : list (toml_item D)) :
  name ∈ names l -> exists i t, i ∈ l /\ find_named name l = Some t /\ table_at i = Some t /\ item_name i = Some name.
Proof.
  intros Hn. apply named_elem in Hn. unfold find_named.
  destruct (List.find (Config.named name) l) as [i|] eqn:E.
  - apply List.find_some in E as [Hin Hi]. unfold Config.named in Hi. destruct (item_name i) as [n|] eqn:En; [|discriminate].
    apply beq_true in Hi. subst n. pose proof En as En'. unfold item_name in En.
    destruct (table_at i) as [t|] eqn:Et; [|discriminate]. exists i, t. cbn.
    split_and!; auto. apply list_elem_of_In, Hin.
  - apply existsb_exists in Hn as (i & Hi & Hx). rewrite (List.find_none _ _ E i Hi) in Hx. discriminate.
Qed.

(** The chain that stands for a group: a member of the group that exists. *)
Lemma select_group_chain_ok profile g :
  profile_wf profile -> g ∈ names (items (toml_array_in profile (str "policy_group"))) ->
  exists t chain, find_named g (items (toml_array_in profile (str "policy_group"))) = Some t /\
    config_select_group_chain profile g = Done chain /\
    chain ∈ omap string_at (items (toml_array_in t (str "chains"))) /\
    chain ∈ names (items (toml_array_in profile (str "chain"))).
Proof.
  intros Hp Hg. destruct (find_named_names _ _ Hg) as (i & t & Hi & Ef & Et & _).
  pose proof (wf_groups _ Hp) as Hgr. rewrite list.Forall_forall in Hgr.
  destruct (Hgr i Hi) as (t' & ty & members & Et' & _ & _ & Em & Hne & _ & Hm & Hsel & _).
  rewrite Et in Et'. injection Et' as <-. pose proof (omap_map_Some _ _ _ Em) as Eo.
  assert (Hdone : forall s, s ∈ members ->
    (if beq s [] then fail CH_ERROR_INVALID_ARGUMENT (str "policy group " ++ g ++ str " has no member chains")
     else match config_find_named_table (items (toml_array_in profile (str "chain"))) s with
          | None => fail CH_ERROR_NOT_FOUND (str "policy group " ++ g ++ str " selected missing chain " ++ s)
          | Some _ => Done s
          end) = Done s).
  { intros s Hs. rewrite list.Forall_forall in Hm. destruct (Hm s Hs) as [[Hn _] Hin].
    rewrite (proj2 (beq_false s [])) by assumption. unfold config_find_named_table.
    destruct (find_named_names _ _ Hin) as (? & c & _ & -> & _). reflexivity. }
  assert (Hc : exists chain, chain ∈ members /\ config_select_group_chain profile g = Done chain).
  { unfold config_select_group_chain, config_find_named_table at 1. rewrite Ef.
    set (sel := if strcaseeq _ _ then config_optional_string (Some t) (str "selected") else []).
    destruct (beq sel []) eqn:Es.
    - destruct members as [|m ms]; [contradiction|].
      destruct (items (toml_array_in t (str "chains"))) as [|j l]; [discriminate|]. cbn [map] in Em. injection Em as Ej _.
      assert (E0 : ch_config_array_get_string (j :: l) 0 = Done m).
      { change (match string_at j with Some s => Done s | None => array_missing 0 end = Done m). rewrite Ej. reflexivity. }
      rewrite E0. cbn [mbind outcome_bind].
      exists m. split; [left|]. apply Hdone. left.
    - cbn [mbind outcome_bind]. apply beq_false in Es.
      assert (Hin : sel ∈ members).
      { subst sel. destruct (strcaseeq _ _); [|contradiction]. unfold config_optional_string in *.
        cbn [mbind option_bind] in *. unfold if_given, table_string in Hsel.
        destruct (toml_string_in t (str "selected")) as [s|]; [|contradiction]. apply (Hsel s eq_refl), Es. }
      exists sel. split; [exact Hin|]. apply Hdone, Hin. }
  destruct Hc as (chain & Hin & Hc). exists t, chain. split_and!; auto.
  - rewrite Eo. exact Hin.
  - rewrite list.Forall_forall in Hm. apply (Hm chain Hin).
Qed.

Lemma find_named_unique (l : list (toml_item D)) i t n :
  NoDup (names l) -> i ∈ l -> table_at i = Some t -> item_name i = Some n -> find_named n l = Some t.
Proof.
  intros Hnd Hi Et En. induction Hi as [i l|i j l Hi IH].
  - unfold find_named. cbn [List.find]. unfold Config.named at 1. rewrite En, beq_refl. cbn. exact Et.
  - unfold find_named in *. cbn [List.find]. unfold names in Hnd. cbn [omap list_omap] in Hnd.
    unfold Config.named at 1. destruct (item_name j) as [m|] eqn:Ej; [|auto].
    apply list.NoDup_cons in Hnd as [Hn Hnd]. destruct (beq m n) eqn:E; [|auto].
    apply beq_true in E. subst m. destruct Hn. apply list_elem_of_omap. eauto.
Qed.

Lemma selected_by_name config pname profile pn :
  config_wf (root config) -> config_select_profile config pname = Done profile ->
  table_string profile (str "name") = Some pn -> config_select_profile config (Some pn) = Done profile.
Proof.
  intros Hwf Hs Hn. destruct (select_profile_item _ _ _ Hs) as (i & Hi & Et).
  destruct (select_profile_wf _ _ _ Hwf Hs) as [_ (n & En & Hpn & _)]. rewrite Hn in En. injection En as <-.
  unfold config_select_profile, ch_config_profile_named.
  assert (He : empty (Some pn) = false) by (apply beq_false; exact Hpn). rewrite He. cbn [negb].
  change (default [] (Some pn)) with pn.
  rewrite (find_named_unique _ i profile pn); [reflexivity|apply (wf_profile_names _ Hwf)|exact Hi|exact Et|].
  unfold item_name. rewrite Et. exact Hn.
Qed.

Lemma compile_config_known config pname profile engine :
  profile_wf profile -> config_select_profile config pname = Done profile ->
  ch_rule_engine_compile_config cache_load config pname = Done engine ->
  exists inputs dc sets,
    ch_rule_engine_compile inputs dc (view (names (items (toml_array_in profile (str "chain")))))
      (view (names (items (toml_array_in profile (str "policy_group"))))) sets = Done engine.
Proof.
  intros Hp Hsel. unfold ch_rule_engine_compile_config. rewrite Hsel. cbn [mbind outcome_bind].
  unfold config_load_names.
  rewrite (load_names_ok (items (toml_array_in profile (str "chain"))) []) by exact (proj1 (wf_chains _ Hp)).
  rewrite (load_names_ok (items (toml_array_in profile (str "policy_group"))) []) by exact (proj1 (wf_group_names _ Hp)).
  cbn [mbind outcome_bind app]. destruct (ch_config_table_get_string _ _); [|discriminate..]. cbn [mbind outcome_bind].
  destruct (names (items (toml_array_in profile (str "chain")))) as [|c cs]; [discriminate|].
  destruct (load_rule_sets _ _ _ _); [|discriminate..]. cbn [mbind outcome_bind].
  destruct (load_rules _); [|discriminate..]. cbn [mbind outcome_bind].
  destruct (load_subscriptions _ _ _); [|discriminate..]. cbn [mbind outcome_bind]. eauto.
Qed.

Lemma view_elem name l : Some name ∈ view l <-> name ∈ l.
Proof.
  unfold view. rewrite list_elem_of_fmap. split; [intros (x & [= <-] & Hx); exact Hx|eauto].
Qed.

Section Values.
Context `{Double}.

Definition decision_value (d : ch_rule_decision) (final_chain : bytes) : ch_json_value :=
  CH_JSON_OBJECT
    [(str "rule_name", text_value (d_rule_name d)); (str "rule_number", int_value (d_rule_number d));
     (str "action", text_value (d_action d)); (str "chain_name", text_value final_chain);
     (str "group_name", text_value (d_group_name d)); (str "target", text_value (d_target d));
     (str "target_host", text_value (d_host d)); (str "target_port", text_value (d_port d));
     (str "network", text_value (d_network d)); (str "source", text_value (d_source d));
     (str "default", CH_JSON_BOOL (d_is_default d)); (str "elapsed_ns", int_value (d_elapsed_ns d));
     (str "explanation", CH_JSON_OBJECT
        [(str "source", text_value (str "config")); (str "rule_name", text_value (d_rule_name d));
         (str "rule_number", int_value (d_rule_number d));
         (str "matcher_kind", text_value (d_matcher_kind d));
         (str "matcher_value", text_value (d_matcher_value d));
         (str "policy_group", text_value (d_group_name d));
         (str "selected_chain", text_value final_chain); (str "final_chain", text_value final_chain);
         (str "summary", text_value (d_summary d))])].

Definition hop_value (i : toml_item D) : ch_json_value :=
  let field key := text_value (config_optional_string (table_at i) (str key)) in
  CH_JSON_OBJECT [(str "name", field "name"%string); (str "address", field "address"%string);
                  (str "protocol", field "protocol"%string)].

Definition explanation_value (pname : bytes) (d : ch_rule_decision) (final_chain : bytes)
    (chain : option (toml_table D)) : ch_json_value :=
  CH_JSON_OBJECT
    ([(str "profile", text_value pname); (str "decision", decision_value d final_chain)]
     ++ match chain with
        | Some chain =>
            let servers := items (toml_array_in chain (str "server")) in
            [(str "chain", CH_JSON_OBJECT
                [(str "name", text_value (config_optional_string (Some chain) (str "name")));
                 (str "hop_count", int_value (lenZ servers))]);
             (str "hops", CH_JSON_ARRAY (map hop_value servers))]
        | None => [(str "hops", CH_JSON_ARRAY [])]
        end).

Lemma decision_writes grow d final :
  writes grow (config_append_decision grow d final) (print_value (decision_value d final)).
Proof.
  unfold config_append_decision, decision_value, text_value, int_value. eapply all_of_text; [collect|].
  cbn [print_value map number_is_integer number_integer]. destruct (d_is_default d); same_text.
Qed.

Lemma hop_writes grow i : writes grow (append_hop grow i) (print_value (hop_value i)).
Proof.
  unfold append_hop, hop_value, text_value. eapply all_of_text; [collect|].
  cbn [print_value map]. same_text.
Qed.

Lemma explanation_writes grow pname d final chain :
  writes grow (append_explanation grow pname d final chain) (print_value (explanation_value pname d final chain)).
Proof.
  pose proof (decision_writes grow d final) as Hd. unfold append_explanation, explanation_value.
  destruct chain as [chain|].
  - set (servers := items (toml_array_in chain (str "server"))).
    destruct (append_list_writes grow (append_hop grow) (fun i => print_value (hop_value i)) servers) as [Hl _].
    { apply Forall_forall. intros i _. apply hop_writes. }
    assert (Hc : writes grow (config_append_chain grow chain)
      (concat [[44] ++ quoted_key "chain" ++ [123] ++ quoted_key "name";
               print_string (config_optional_string (Some chain) (str "name"));
               [44] ++ quoted_key "hop_count" ++ dec (lenZ servers) ++ [125; 44] ++ quoted_key "hops" ++ [91];
               join (map (fun i => print_value (hop_value i)) servers); [93]])).
    { unfold config_append_chain. fold servers. apply all_of_writes.
      apply Forall2_cons; [apply append_spec|]. apply Forall2_cons; [apply append_text_spec|].
      apply Forall2_cons; [apply append_spec|]. apply Forall2_cons; [exact Hl|]. collect. }
    eapply all_of_text; [collect|]. unfold text_value, int_value.
    cbn [print_value map app number_is_integer number_integer]. rewrite List.map_map. same_text.
  - eapply all_of_text; [collect|]. unfold text_value. cbn [print_value map app]. same_text.
Qed.

(** A route is explained as it is taken.  For a well-formed document, an
    explanation is the JSON of the decision that the engine of the selected
    profile makes.  Its final chain is empty exactly for the actions without a
    chain; otherwise it is a chain of the profile, and for a group it is one of
    the members of that group, whose hops are listed. *)
Theorem explain_config_route grow config pname context started finished text profile pn :
  config_wf (root config) -> config_select_profile config pname = Done profile ->
  table_string profile (str "name") = Some pn ->
  ch_rule_explain_config_json cache_load grow config pname context started finished = Done text ->
  exists engine d final,
    ch_rule_engine_compile_config cache_load config (Some pn) = Done engine /\
    ch_rule_engine_decide (Some engine) (Some context) started finished = Done d /\
    let chains := items (toml_array_in profile (str "chain")) in
    let groups := items (toml_array_in profile (str "policy_group")) in
    text = print_value (explanation_value pn d final (find_named final chains)) /\
    ((d_action d = CH_RULE_ACTION_CHAIN /\ final = d_chain_name d /\ final ∈ names chains) \/
     (d_action d = CH_RULE_ACTION_GROUP /\ final ∈ names chains /\
      exists group, find_named (d_group_name d) groups = Some group /\
        final ∈ omap string_at (items (toml_array_in group (str "chains")))) \/
     (d_action d ∈ [CH_RULE_ACTION_DIRECT; CH_RULE_ACTION_BLOCK; CH_RULE_ACTION_REJECT] /\ final = [])).
Proof.
  intros Hwf Hsel Hpn. destruct (select_profile_wf _ _ _ Hwf Hsel) as [Hp _].
  unfold ch_rule_explain_config_json. destruct (target context); [|discriminate].
  destruct (network context); [|discriminate]. case_if; [discriminate|]. rewrite Hsel. cbn [mbind outcome_bind].
  assert (Epn : config_optional_string (Some profile) (str "name") = pn).
  { unfold config_optional_string. cbn [mbind option_bind]. unfold table_string in Hpn. rewrite Hpn. reflexivity. }
  rewrite Epn. destruct (ch_rule_engine_compile_config cache_load config (Some pn)) as [engine| |] eqn:Ec; [|discriminate..].
  cbn [mbind outcome_bind]. destruct (ch_rule_engine_decide _ _ _ _) as [d| |] eqn:Ed; [|discriminate..].
  cbn [mbind outcome_bind]. case_if; [discriminate|]. intros Ht.
  destruct (compile_config_known _ _ _ _ Hp (selected_by_name _ _ _ _ Hwf Hsel Hpn) Ec) as (inputs & dc & sets & He).
  pose proof (decide_known_target _ _ _ _ _ _ _ _ _ _ He Ed) as Hk. rewrite !view_elem in Hk.
  exists engine, d. unfold config_find_named_table in Ht.
  assert (Hfinal : forall final, (if beq final [] then None else find_named final (items (toml_array_in profile (str "chain"))))
                                 = find_named final (items (toml_array_in profile (str "chain")))).
  { intros final. destruct (beq final []) eqn:E; [|reflexivity]. apply beq_true in E. subst final.
    destruct (find_named [] _) as [t|] eqn:Ef; [|reflexivity]. exfalso.
    apply find_named_in in Ef as (i & Hi & _ & En).
    pose proof (wf_chains _ Hp) as [Hc _]. rewrite list.Forall_forall in Hc. destruct (Hc i Hi) as (n & En' & Hn & _). congruence. }
  assert (Htext : forall final, take_text (append_explanation grow pn d final
      (if beq final [] then None else find_named final (items (toml_array_in profile (str "chain")))))
      (str "encode route explanation") = Done text ->
    text = print_value (explanation_value pn d final (find_named final (items (toml_array_in profile (str "chain")))))).
  { intros final Hx. rewrite Hfinal in Hx.
    destruct (take_text_spec grow _ _ (str "encode route explanation")
      (explanation_writes grow pn d final (find_named final (items (toml_array_in profile (str "chain")))))) as [[E|[e E]] _]; congruence. }
  destruct Hk as [[Ha Hin]|[[Ha Hin]|Ha]].
  - rewrite Ha in Ht. change (beq CH_RULE_ACTION_CHAIN CH_RULE_ACTION_GROUP) with false in Ht. cbn [mbind outcome_bind] in Ht.
    exists (d_chain_name d). split_and!; eauto.
  - rewrite Ha in Ht. change (beq CH_RULE_ACTION_GROUP CH_RULE_ACTION_GROUP) with true in Ht. cbv iota in Ht.
    destruct (select_group_chain_ok profile _ Hp Hin) as (t & chain & Ef & Es & Hm & Hch).
    rewrite Es in Ht. cbn [mbind outcome_bind] in Ht. exists chain. split_and!; eauto 10.
  - assert (Hng : beq (d_action d) CH_RULE_ACTION_GROUP = false).
    { apply beq_false. intros E. rewrite E, !elem_of_cons, elem_of_nil in Ha. intuition discriminate. }
    rewrite Hng in Ht. cbn [mbind outcome_bind] in Ht. exists (d_chain_name d). split_and!; eauto.
    right. right. split; [exact Ha|]. eapply decide_plain_action; eauto.
Qed.

End Values.

End Cached.
End Facts.

(** ** Witnesses *)

Import PlainInet PlainLongDouble.

Definition plain_char (c : Z) : bool := isdigit c || (c =? 46) || (c =? 58) || ((97 <=? c) && (c <=? 102)).

Lemma plain_lower s : forallb plain_char s = true -> map tolower s = s.
Proof.
  induction s as [|c s IH]; cbn; [reflexivity|]. rewrite andb_true_iff. intros [Hc Hs]. rewrite IH by exact Hs.
  f_equal. unfold plain_char, isdigit in Hc. unfold tolower. case_if; lia.
Qed.

Lemma octet_digits s b : parse_octet s = Some b -> forallb isdigit s = true.
Proof. unfold parse_octet. destruct (forallb isdigit s); [reflexivity|discriminate]. Qed.

Lemma digits_no_colon s : forallb (fun c => isdigit c || (c =? 46)) s = true -> 58 ∉ s.
Proof.
  intros Hs Hin. rewrite forallb_forall in Hs. specialize (Hs 58 (proj1 (list_elem_of_In _ _) Hin)). discriminate.
Qed.

Lemma dotted_chars n s a : parse_dotted n s = Some a -> forallb (fun c => isdigit c || (c =? 46)) s = true.
Proof.
  assert (Hd : forall x b, parse_octet x = Some b -> forallb (fun c => isdigit c || (c =? 46)) x = true).
  { intros x b Hx. apply octet_digits in Hx. rewrite forallb_forall in *. intros c Hc. rewrite Hx; auto. }
  revert s a. induction n as [|n IH]; intros s a; cbn [parse_dotted].
  - destruct (parse_octet s) as [b|] eqn:E; [|discriminate]. intros _. eauto.
  - destruct (split_first 46 s) as [[x rest]|] eqn:Es; [|discriminate]. cbn [mbind option_bind].
    destruct (parse_octet x) as [b|] eqn:Eb; [|discriminate]. cbn [mbind option_bind].
    destruct (parse_dotted n rest) as [r|] eqn:Er; [|discriminate]. intros _.
    apply split_first_Some in Es as [-> _]. rewrite forallb_app, (Hd _ _ Eb). exact (IH _ _ Er).
Qed.

Lemma hex_plain h l b : hex_byte h l = Some b -> plain_char h = true /\ plain_char l = true.
Proof.
  assert (Hv : forall c v, hex_value c = Some v -> plain_char c = true).
  { intros c v. unfold hex_value, plain_char. destruct (isdigit c); [reflexivity|].
    destruct ((97 <=? c) && (c <=? 102)); [|discriminate]. intros _. rewrite !orb_true_r. reflexivity. }
  unfold hex_byte. destruct (hex_value h) eqn:Eh; [|discriminate]. cbn [mbind option_bind].
  destruct (hex_value l) eqn:El; [|discriminate]. eauto.
Qed.

Lemma groups_plain n s a : hex_groups n s = Some a -> forallb plain_char s = true.
Proof.
  revert s a. induction n as [|n IH]; intros [|x [|y [|z [|w s]]]] a; cbn [hex_groups]; try discriminate;
    destruct (hex_byte x y) eqn:E1; try discriminate; cbn [mbind option_bind];
    destruct (hex_byte z w) eqn:E2; try discriminate; cbn [mbind option_bind];
    apply hex_plain in E1 as [H1 H2], E2 as [H3 H4]; cbn [forallb]; rewrite H1, H2, H3, H4; cbn [andb].
  - destruct s; [reflexivity|discriminate].
  - destruct s as [|sep s]; [discriminate|]. destruct (sep =? 58) eqn:E; [|discriminate].
    destruct (hex_groups n s) as [r|] eqn:Er; [|discriminate]. intros _. cbn [forallb].
    rewrite (IH _ _ Er). unfold plain_char. rewrite E, !orb_true_r. reflexivity.
Qed.

#[export] Instance plain_inet_text : InetText.
Proof.
  split.
  - intros s a Hs. apply digits_no_colon. exact (dotted_chars 3 s a Hs).
  - intros s a Hs. rewrite plain_lower; [exact Hs|]. pose proof (dotted_chars 3 s a Hs) as Hc.
    rewrite forallb_forall in *. intros c Hin. unfold plain_char. rewrite (Hc c Hin). reflexivity.
  - intros s a Hs. rewrite plain_lower; [exact Hs|]. exact (groups_plain 7 s a Hs).
Qed.

(** The subscription is cached, the rule sets are not. *)
Definition w_cache (kind : feed_kind) (owner name url : bytes) : result rule_feed :=
  match kind with
  | CH_RULE_FEED_SUBSCRIPTION => Done (mk_feed [str "ads.example"] [str "203.0.113.0/24"])
  | CH_RULE_FEED_RULE_SET => fail CH_ERROR_NOT_FOUND (str "rule feed cache not found")
  end.

Definition w_config (profile : toml_table unit) : ch_config (D := unit) :=
  mk_config (w_root_of profile) None [].

Lemma w_cache_ok : cache_ok w_cache.
Proof.
  intros [] owner name url; cbn.
  - exact I.
  - repeat constructor. eexists. vm_compute. reflexivity.
Qed.

Lemma w_config_wf : config_wf (root (w_config w_profile)).
Proof. apply config_iff. vm_compute. reflexivity. Qed.

Lemma validated_config_compiles_witness :
  exists engine, ch_rule_engine_compile_config w_cache (w_config w_profile) None = Done engine /\
    Some (default_chain engine) = Some (str "main") /\
    take 2 (map rule_name (rules engine)) = [str "local"; str "ads"].
Proof.
  destruct (validated_config_compiles w_cache w_cache_ok (w_config w_profile) None w_profile w_config_wf eq_refl)
    as (name & _ & [(engine & Hc & Hd & Hn & _)|(e & _ & n & u & Hl & Hcode)]); [discriminate| | |].
  - repeat constructor. intros t [= <-] E. discriminate E.
  - exists engine. split_and!; [exact Hc|symmetry; exact Hd|exact Hn].
  - exfalso. apply Hcode. cbn in Hl. injection Hl as <-. left.
Defined.

Definition w_context : ch_rule_match_context :=
  mk_context (Some (str "tcp")) (Some (str "www.example:443")) None None None.

Definition w_explanation : bytes :=
  match ch_rule_explain_config_json w_cache (fun _ => true) (w_config w_profile) None w_context 5 7 with
  | Done text => text
  | _ => []
  end.

End RulesConfig.
