(* ===== verification/Policy.v ===== *)
(** * Policy groups: [native/src/policy.c]

    A policy group stands for one of its member chains: the one that the user
    selected, the first healthy one, the one with the lowest latency, a stable
    choice among the healthy ones, or the current one until another is clearly
    better.  The manager is created from the groups of a profile; connections
    select chains, and probes refresh the results, each in a critical section.

    The probes themselves are I/O: what they report is an argument, as are the
    readings of the clocks.  Allocation is taken to succeed. *)

From stdpp Require Import relations.
From S2P Require Import Prelude CLib Inet Rules Json JsonText Config ConfigValid ConfigText RulesConfig.

Module Policy.
Import Config Json JsonText.

Definition CH_POLICY_DEFAULT_INTERVAL_NS : Z := 30000000000.
Definition CH_POLICY_DEFAULT_TIMEOUT_NS : Z := 5000000000.
Definition CH_POLICY_SMART_MIN_DELTA_NS : Z := 50000000.

(** Sums and differences of [int64_t]: an overflow is undefined. *)
Definition i64 (z : Z) : result Z := if (INT64_MIN <=? z) && (z <=? INT64_MAX) then Done z else Fault.

Record ch_policy_probe_result : Type := mk_result {
  healthy : bool;
  latency_ns : Z;
  status_code : Z;
  last_test_ts_ns : Z;
  probe_error : bytes
}.

(** [result] is [None] until [has_result] is set. *)
Record ch_policy_chain_state (D : Type) : Type := mk_chain {
  c_name : bytes;
  c_config : toml_table D;
  udp_capable : bool;
  udp_error : option bytes;
  c_result : option ch_policy_probe_result
}.
Arguments mk_chain {D} _ _ _ _ _.
Arguments c_name {D} _.
Arguments c_config {D} _.
Arguments udp_capable {D} _.
Arguments udp_error {D} _.
Arguments c_result {D} _.

Record ch_policy_group_state (D : Type) : Type := mk_group {
  g_name : bytes;
  g_type : bytes;
  g_chains : list (ch_policy_chain_state D);
  selected_chain : bytes;
  test_url : bytes;
  interval_label : bytes;
  timeout_label : bytes;
  interval_ns : Z;
  timeout_ns : Z;
  next_probe_ns : Z;
  updated_ts_ns : Z;
  hidden : bool;
  selection_reason : bytes
}.
Arguments mk_group {D} _ _ _ _ _ _ _ _ _ _ _ _ _.
Arguments g_name {D} _.
Arguments g_type {D} _.
Arguments g_chains {D} _.
Arguments selected_chain {D} _.
Arguments test_url {D} _.
Arguments interval_label {D} _.
Arguments timeout_label {D} _.
Arguments interval_ns {D} _.
Arguments timeout_ns {D} _.
Arguments next_probe_ns {D} _.
Arguments updated_ts_ns {D} _.
Arguments hidden {D} _.
Arguments selection_reason {D} _.

Record ch_policy_manager (D : Type) : Type := mk_manager {
  thread_started : bool;
  stop_requested : bool;
  groups : list (ch_policy_group_state D)
}.
Arguments mk_manager {D} _ _ _.
Arguments thread_started {D} _.
Arguments stop_requested {D} _.
Arguments groups {D} _.

Section Fields.
Context {D : Type}.
Implicit Types (g : ch_policy_group_state D) (c : ch_policy_chain_state D) (m : ch_policy_manager D).

Definition with_selection g (chain reason : bytes) (now : Z) :=
  mk_group (g_name g) (g_type g) (g_chains g) chain (test_url g) (interval_label g) (timeout_label g)
    (interval_ns g) (timeout_ns g) (next_probe_ns g) now (hidden g) reason.
Definition with_updated g (now : Z) :=
  mk_group (g_name g) (g_type g) (g_chains g) (selected_chain g) (test_url g) (interval_label g)
    (timeout_label g) (interval_ns g) (timeout_ns g) (next_probe_ns g) now (hidden g) (selection_reason g).
Definition with_next_probe g (next : Z) :=
  mk_group (g_name g) (g_type g) (g_chains g) (selected_chain g) (test_url g) (interval_label g)
    (timeout_label g) (interval_ns g) (timeout_ns g) next (updated_ts_ns g) (hidden g) (selection_reason g).
Definition with_chains g (chains : list (ch_policy_chain_state D)) :=
  mk_group (g_name g) (g_type g) chains (selected_chain g) (test_url g) (interval_label g)
    (timeout_label g) (interval_ns g) (timeout_ns g) (next_probe_ns g) (updated_ts_ns g) (hidden g)
    (selection_reason g).
Definition with_result c (r : ch_policy_probe_result) :=
  mk_chain (c_name c) (c_config c) (udp_capable c) (udp_error c) (Some r).
Definition with_groups m (l : list (ch_policy_group_state D)) :=
  mk_manager (thread_started m) (stop_requested m) l.

End Fields.

(** ** Types of groups *)

Definition ch_policy_type_uses_health (type : bytes) : bool := negb (strcaseeq type (str "select")).

Definition ch_policy_selection_mode (type : bytes) : bytes :=
  if strcaseeq type (str "select") then str "manual"
  else if strcaseeq type (str "fallback") then str "fallback"
  else if strcaseeq type (str "load-balance") then str "load-balance"
  else if strcaseeq type (str "smart") then str "smart"
  else str "latency".

Definition ch_policy_initial_reason (type : bytes) : bytes :=
  if strcaseeq type (str "select") then str "manual"
  else if strcaseeq type (str "fallback") then str "first_healthy"
  else if strcaseeq type (str "load-balance") then str "stable_hash"
  else if strcaseeq type (str "smart") then str "sticky_healthy"
  else str "lowest_latency".

(** [snprintf] into [selection_reason[32]]. *)
Definition reason_text (reason : bytes) : bytes := take 31 reason.

Section Groups.
Context {D : Type} `{LongDouble}.
Implicit Types (t profile : toml_table D) (g : ch_policy_group_state D) (c : ch_policy_chain_state D)
  (m : ch_policy_manager D).

(** ** Creation from a profile *)

Definition ch_policy_optional_string (o : option (toml_table D)) (key : bytes) : bytes :=
  match o with
  | Some t => match ch_config_table_get_string t key with Done s => s | _ => [] end
  | None => []
  end.

Definition ch_policy_optional_bool (o : option (toml_table D)) (key : bytes) : bool :=
  match o with
  | Some t => match ch_config_table_get_bool t key with Done b => b | _ => false end
  | None => false
  end.

Fixpoint ch_policy_named_table (l : list (toml_item D)) (name : bytes) : option (toml_table D) :=
  match l with
  | [] => None
  | i :: l' =>
      if beq (ch_policy_optional_string (table_at i) (str "name")) name then table_at i
      else ch_policy_named_table l' name
  end.

(** [ch_protocol_chain_supports_packet]: whether the last hop of a chain can
    carry datagrams. *)
Definition ch_protocol_chain_supports_packet t : result unit :=
  let servers := items (toml_array_in t (str "server")) in
  match list.last servers with
  | None => fail CH_ERROR_INVALID_ARGUMENT (str "native packet chain requires one server")
  | Some server =>
      match s ← table_at server; toml_string_in s (str "protocol") with
      | None => fail CH_ERROR_INVALID_ARGUMENT (str "packet chain protocol is required")
      | Some protocol =>
          let of_kind name := strcaseeq protocol (str name) in
          let over_stream := of_kind "trojan"%string || of_kind "clambback"%string || of_kind "vmess"%string in
          let supported := of_kind "direct"%string || of_kind "shadowsocks"%string || over_stream
                           || of_kind "wireguard"%string || of_kind "openvpn"%string in
          if negb supported then
            fail CH_ERROR_UNSUPPORTED (str "native packet protocol " ++ protocol ++ str " is not ported yet")
          else if negb ((lenZ servers =? 1) || over_stream) then
            fail CH_ERROR_UNSUPPORTED (str "native datagram packet chains currently require one server")
          else Done tt
      end
  end.

Definition copy_chain (profile_chains : list (toml_item D)) (name : bytes) : result (ch_policy_chain_state D) :=
  match ch_policy_named_table profile_chains name with
  | None => fail CH_ERROR_NOT_FOUND (str "policy chain " ++ name ++ str " not found")
  | Some config =>
      match ch_protocol_chain_supports_packet config with
      | Done _ => Done (mk_chain name config true None None)
      | Raise packet_error => Done (mk_chain name config false (Some (message packet_error)) None)
      | Fault => Fault
      end
  end.

(** The loop over the members, from [index] on. *)
Fixpoint copy_members (profile_chains members : list (toml_item D)) (index : Z)
    : result (list (ch_policy_chain_state D)) :=
  match members with
  | [] => Done []
  | i :: members' =>
      match string_at i with
      | None => array_missing index
      | Some name =>
          c ← copy_chain profile_chains name;
          rest ← copy_members profile_chains members' (index + 1);
          Done (c :: rest)
      end
  end.

Definition or_else (value fallback : bytes) : bytes := if beq value [] then fallback else value.

Definition ch_policy_copy_group (group : option (toml_table D)) (profile_chains : list (toml_item D))
    : result (ch_policy_group_state D) :=
  let field key := ch_policy_optional_string group (str key) in
  let url := or_else (field "test_url"%string) (str "https://www.gstatic.com/generate_204") in
  let interval := or_else (field "interval"%string) (str "30s") in
  let timeout := or_else (field "timeout"%string) (str "5s") in
  interval_value ← ch_config_parse_duration_ns (Some interval);
  timeout_value ← ch_config_parse_duration_ns (Some timeout);
  let members := match group with Some t => items (toml_array_in t (str "chains")) | None => [] end in
  match members with
  | [] => fail CH_ERROR_INVALID_ARGUMENT (str "policy group requires member chains")
  | _ =>
      chains ← copy_members profile_chains members 0;
      let first := match chains with c :: _ => c_name c | [] => [] end in
      let type := field "type"%string in
      Done (mk_group (field "name"%string) type chains (or_else (field "selected"%string) first) url
              interval timeout interval_value timeout_value 0 0 (ch_policy_optional_bool group (str "hidden"))
              (reason_text (ch_policy_initial_reason type)))
  end.

Fixpoint copy_groups (l profile_chains : list (toml_item D)) : result (list (ch_policy_group_state D)) :=
  match l with
  | [] => Done []
  | i :: l' =>
      g ← ch_policy_copy_group (table_at i) profile_chains;
      rest ← copy_groups l' profile_chains;
      Done (g :: rest)
  end.

Definition ch_policy_manager_create (config : ch_config (D := D)) (profile_name : option bytes)
    : result (ch_policy_manager D) :=
  match (if empty profile_name then ch_config_active_profile config
         else ch_config_profile_named config profile_name) with
  | None => fail CH_ERROR_NOT_FOUND (str "policy profile not found")
  | Some profile =>
      l ← copy_groups (items (toml_array_in profile (str "policy_group")))
            (items (toml_array_in profile (str "chain")));
      Done (mk_manager false false l)
  end.

End Groups.
(** ** The choice of a member *)

Section Choice.
Context {D : Type}.
Implicit Types (g : ch_policy_group_state D) (c : ch_policy_chain_state D) (m : ch_policy_manager D).

Definition ch_policy_chain_eligible c (udp_only : bool) : bool := negb udp_only || udp_capable c.

(** [has_result && result.healthy] *)
Definition is_healthy c : bool := match c_result c with Some r => healthy r | None => false end.

Definition usable (udp_only : bool) c : bool := ch_policy_chain_eligible c udp_only && is_healthy c.

(** The first index from [index] on with [p]; [None] is [SIZE_MAX]. *)
Fixpoint find_from (p : ch_policy_chain_state D -> bool) (index : nat) (l : list (ch_policy_chain_state D))
    : option nat :=
  match l with
  | [] => None
  | c :: l' => if p c then Some index else find_from p (S index) l'
  end.

Definition ch_policy_first_eligible g (udp_only : bool) : option nat :=
  find_from (fun c => ch_policy_chain_eligible c udp_only) 0 (g_chains g).

Definition ch_policy_chain_index g (name : bytes) : option nat :=
  find_from (fun c => beq (c_name c) name) 0 (g_chains g).

Definition latency c : Z := match c_result c with Some r => latency_ns r | None => 0 end.

Fixpoint lowest_from (udp_only : bool) (best : option nat) (low : Z) (index : nat)
    (l : list (ch_policy_chain_state D)) : option nat :=
  match l with
  | [] => best
  | c :: l' =>
      if negb (usable udp_only c) then lowest_from udp_only best low (S index) l'
      else if bool_decide (best = None) || (latency c <? low)
      then lowest_from udp_only (Some index) (latency c) (S index) l'
      else lowest_from udp_only best low (S index) l'
  end.

Definition ch_policy_lowest_latency g (udp_only : bool) : option nat :=
  lowest_from udp_only None 0 0 (g_chains g).

Definition fnv_byte (hash byte : Z) : Z := u32 (Z.lxor hash byte * 16777619).

(** [network] is folded to lower case. *)
Definition ch_policy_fnv1a (source network target : bytes) : Z :=
  let hash := fold_left fnv_byte source 2166136261 in
  let hash := fold_left fnv_byte (str "|") hash in
  let hash := fold_left fnv_byte (map tolower network) hash in
  let hash := fold_left fnv_byte (str "|") hash in
  fold_left fnv_byte target hash.

(** The member with [wanted] usable ones before it. *)
Fixpoint nth_usable (udp_only : bool) (wanted : Z) (index : nat) (l : list (ch_policy_chain_state D))
    : option nat :=
  match l with
  | [] => None
  | c :: l' =>
      if usable udp_only c then
        if wanted =? 0 then Some index else nth_usable udp_only (wanted - 1) (S index) l'
      else nth_usable udp_only wanted (S index) l'
  end.

(** The last part: the lowest latency, with the hysteresis of [smart]. *)
Definition choose_by_latency g (udp_only : bool) : result (option nat * bytes) :=
  match ch_policy_lowest_latency g udp_only with
  | None => Done (ch_policy_first_eligible g udp_only, str "no_healthy_fallback")
  | Some best =>
      if negb (strcaseeq (g_type g) (str "smart")) then Done (Some best, str "lowest_latency")
      else
        match current ← ch_policy_chain_index g (selected_chain g); c ← g_chains g !! current; Some (current, c) with
        | None => Done (Some best, str "lowest_latency")
        | Some (current, c) =>
            if negb (usable udp_only c) then Done (Some best, str "lowest_latency")
            else if (current =? best)%nat then Done (Some current, str "sticky_healthy")
            else
              let best_latency := match g_chains g !! best with Some b => latency b | None => 0 end in
              delta ← i64 (latency c - best_latency);
              let threshold := Z.max (latency c ÷ 5) CH_POLICY_SMART_MIN_DELTA_NS in
              if threshold <=? delta then Done (Some best, str "better_latency")
              else Done (Some current, str "sticky_healthy")
        end
  end.

Definition ch_policy_choose_locked g (network target source : bytes) : result (option nat * bytes) :=
  let udp_only := strcaseeq network (str "udp") in
  let is_type name := strcaseeq (g_type g) (str name) in
  if is_type "select"%string then Done (ch_policy_chain_index g (selected_chain g), str "manual")
  else if is_type "fallback"%string then
    match find_from (usable udp_only) 0 (g_chains g) with
    | Some index => Done (Some index, str "first_healthy")
    | None => Done (ch_policy_first_eligible g udp_only, str "no_healthy_fallback")
    end
  else if is_type "load-balance"%string then
    let healthy_count := lenZ (filter (fun c => usable udp_only c = true) (g_chains g)) in
    if healthy_count =? 0 then Done (ch_policy_first_eligible g udp_only, str "no_healthy_fallback")
    else
      match nth_usable udp_only (ch_policy_fnv1a source network target mod u32 healthy_count) 0 (g_chains g) with
      | Some index => Done (Some index, str "stable_hash")
      | None => choose_by_latency g udp_only
      end
  else choose_by_latency g udp_only.

(** [now] is the reading of the real-time clock. *)
Definition ch_policy_set_selection_locked g (selected : option nat) (reason : bytes) (now : Z)
    : ch_policy_group_state D :=
  let chain := match c ← selected; g_chains g !! c with Some c => c_name c | None => selected_chain g end in
  with_selection g chain (reason_text reason) now.

(** The first group with the name. *)
Fixpoint find_group (name : bytes) (index : nat) (l : list (ch_policy_group_state D))
    : option (nat * ch_policy_group_state D) :=
  match l with
  | [] => None
  | g :: l' => if beq (g_name g) name then Some (index, g) else find_group name (S index) l'
  end.

(** The chosen chain and the manager after it. *)
Definition ch_policy_manager_select m (group_name network target source : option bytes) (now : Z)
    : result (bytes * ch_policy_manager D) :=
  match group_name, network, target, source with
  | Some group_name, Some network, Some target, Some source =>
      match find_group group_name 0 (groups m) with
      | None => fail CH_ERROR_NOT_FOUND (str "policy group " ++ group_name ++ str " not found")
      | Some (at_group, g) =>
          let udp_only := strcaseeq network (str "udp") in
          '(selected, reason) ← ch_policy_choose_locked g network target source;
          match i ← selected; g_chains g !! i with
          | None =>
              fail CH_ERROR_UNSUPPORTED
                (str "policy group " ++ group_name ++ str " has no "
                 ++ (if udp_only then str "UDP" else str "route") ++ str "-capable member chains")
          | Some c =>
              if udp_only && negb (udp_capable c) then
                let detail := default [] (udp_error c) in
                fail CH_ERROR_UNSUPPORTED
                  (str "policy group " ++ group_name ++ str " selected chain " ++ c_name c
                   ++ str " is not UDP-capable" ++ (if beq detail [] then [] else str ": ") ++ detail)
              else
                Done (c_name c,
                      with_groups m (<[at_group := ch_policy_set_selection_locked g selected reason now]> (groups m)))
          end
      end
  | _, _, _, _ =>
      fail CH_ERROR_INVALID_ARGUMENT (str "policy manager, route context, and output are required")
  end.

(** ** Probing *)

(** What a probe callback reports: its status, the result it filled in, the
    message of its error, and the real-time clock when it returned. *)
Record probe_report : Type := mk_report {
  report_status : ch_status;
  report_result : ch_policy_probe_result;
  report_message : bytes;
  report_now : Z
}.

Definition probe_timeout_ms g : Z :=
  let ms :=
    if timeout_ns g <=? 0 then 1
    else if timeout_ns g ÷ 1000000 >? 2 ^ 31 - 1 then 2 ^ 31 - 1 else timeout_ns g ÷ 1000000 in
  if ms =? 0 then 1 else ms.

(** What [ch_policy_run_probe] leaves in the result. *)
Definition ch_policy_run_probe (report : probe_report) : ch_policy_probe_result :=
  let r := report_result report in
  let stamp := if last_test_ts_ns r =? 0 then report_now report else last_test_ts_ns r in
  let text :=
    if negb (bool_decide (report_status report = CH_OK)) && beq (probe_error r) []
    then take 255 (report_message report) else probe_error r in
  mk_result (healthy r) (latency_ns r) (status_code r) stamp text.

(** The second half of [ch_policy_refresh_index], under the lock: the results of
    the members are stored and the group chooses again. *)
Definition commit_results m (at_group : nat) (results : list ch_policy_probe_result) (now_real now_mono : Z)
    : result (ch_policy_manager D) :=
  match groups m !! at_group with
  | None => Fault
  | Some g =>
      let g := with_chains g (zip_with with_result (g_chains g) results) in
      '(selected, reason) ← ch_policy_choose_locked g (str "tcp") [] [];
      let g := ch_policy_set_selection_locked g selected reason now_real in
      next ← i64 (now_mono + interval_ns g);
      Done (with_groups m (<[at_group := with_next_probe g next]> (groups m)))
  end.

(** [probe] is the callback: the configuration of the chain, the URL and the
    timeout in milliseconds. *)
Definition ch_policy_refresh_index m (at_group : nat)
    (probe : toml_table D -> bytes -> Z -> probe_report) (now_real now_mono : Z)
    : result (ch_policy_manager D) :=
  match groups m !! at_group with
  | None => Fault
  | Some g =>
      if negb (ch_policy_type_uses_health (g_type g)) then
        Done (with_groups m (<[at_group := with_updated g now_real]> (groups m)))
      else
        let run c := ch_policy_run_probe (probe (c_config c) (test_url g) (probe_timeout_ms g)) in
        commit_results m at_group (map run (g_chains g)) now_real now_mono
  end.

(** The loop over all groups, from [at_group] on; [left] groups are left. *)
Fixpoint refresh_from m (at_group left : nat) (probe : toml_table D -> bytes -> Z -> probe_report)
    (now_real now_mono : nat -> Z) : result (ch_policy_manager D) :=
  match left with
  | O => Done m
  | S left' =>
      m ← ch_policy_refresh_index m at_group probe (now_real at_group) (now_mono at_group);
      refresh_from m (S at_group) left' probe now_real now_mono
  end.

Definition ch_policy_manager_refresh m (group_name : option bytes)
    (probe : toml_table D -> bytes -> Z -> probe_report) (now_real now_mono : nat -> Z)
    : result (ch_policy_manager D) :=
  if negb (empty group_name) then
    match find_group (default [] group_name) 0 (groups m) with
    | Some (at_group, _) =>
        ch_policy_refresh_index m at_group probe (now_real at_group) (now_mono at_group)
    | None => fail CH_ERROR_NOT_FOUND (str "policy group " ++ default [] group_name ++ str " not found")
    end
  else refresh_from m 0 (length (groups m)) probe now_real now_mono.

(** *** The probe thread *)

(** One pass of the loop of [ch_policy_thread_main]: what it does next. *)
Inductive thread_action : Type :=
| probe_group (at_group : nat)
| wait_until (next : Z)
| wait_forever
| leave.

(** The scan for a group that is due; [next] is the earliest one seen. *)
Fixpoint scan_due (now next : Z) (index : nat) (l : list (ch_policy_group_state D))
    : result (list (ch_policy_group_state D) * option nat * Z) :=
  match l with
  | [] => Done ([], None, next)
  | g :: l' =>
      if negb (ch_policy_type_uses_health (g_type g)) then
        '(rest, due, next) ← scan_due now next (S index) l'; Done (g :: rest, due, next)
      else if next_probe_ns g <=? now then
        n ← i64 (now + interval_ns g); Done (with_next_probe g n :: l', Some index, next)
      else
        '(rest, due, next) ← scan_due now (Z.min (next_probe_ns g) next) (S index) l';
        Done (g :: rest, due, next)
  end.

Definition thread_pass m (now : Z) : result (ch_policy_manager D * thread_action) :=
  if stop_requested m then Done (m, leave)
  else
    '(l, due, next) ← scan_due now INT64_MAX 0 (groups m);
    Done (with_groups m l,
          match due with
          | Some index => probe_group index
          | None => if next =? INT64_MAX then wait_forever else wait_until next
          end).

(** [created] is what [pthread_create] returns: the text of its error, if any. *)
Definition ch_policy_manager_start m (created : option bytes) : ch_policy_manager D * option ch_error :=
  if thread_started m then (m, None)
  else
    let l := map (fun g => with_next_probe g 0) (groups m) in
    match created with
    | Some text =>
        (mk_manager false false l,
         Some (ch_error_set CH_ERROR_INTERNAL (str "start policy probe thread: " ++ text)))
    | None => (mk_manager true false l, None)
    end.

Definition ch_policy_manager_stop m : ch_policy_manager D := mk_manager false true (groups m).

End Choice.

(** ** The URL of a probe *)

Record ch_policy_url : Type := mk_url {
  url_host : bytes;
  url_target : bytes;
  url_host_header : bytes;
  url_path : bytes;
  url_tls : bool
}.

(** The text before the first [/], [?] or [#], and the rest. *)
Fixpoint span_authority (s : bytes) : bytes * bytes :=
  match s with
  | [] => ([], [])
  | c :: s' =>
      if (c =? 47) || (c =? 63) || (c =? 35) then ([], s)
      else let '(a, tail) := span_authority s' in (c :: a, tail)
  end.

(** The host and the port of an authority. *)
Definition split_authority (authority : bytes) : result (bytes * option bytes) :=
  let invalid text := fail CH_ERROR_INVALID_ARGUMENT (str text) in
  match authority with
  | 91 :: inner =>
      match split_first 93 inner with
      | Some (host, []) => Done (host, None)
      | Some (host, 58 :: port) => Done (host, Some port)
      | _ => invalid "policy test URL IPv6 authority is invalid"%string
      end
  | _ =>
      match split_first 58 authority with
      | None => Done (authority, None)
      | Some (host, port) =>
          if existsb (Z.eqb 58) port then invalid "policy test URL IPv6 host must be bracketed"%string
          else Done (host, Some port)
      end
  end.

Definition request_path (tail : bytes) : bytes :=
  let path := match split_first 35 tail with Some (path, _) => path | None => tail end in
  match path with
  | [] => [47]
  | c :: _ => if c =? 63 then 47 :: path else path
  end.

Definition ch_policy_parse_url (raw : bytes) : result ch_policy_url :=
  let parse (tls : bool) rest default_port :=
    let '(authority, tail) := span_authority rest in
    if beq authority [] || existsb (Z.eqb 64) authority then
      fail CH_ERROR_INVALID_ARGUMENT (str "policy test URL authority is invalid")
    else
      '(host, port) ← split_authority authority;
      if beq host [] || bool_decide (port = Some []) then
        fail CH_ERROR_INVALID_ARGUMENT (str "policy test URL host or port is empty")
      else
        let port := default default_port port in
        let target := (if existsb (Z.eqb 58) host then [91] ++ host ++ [93] else host) ++ [58] ++ port in
        Done (mk_url host target authority (request_path tail) tls) in
  if is_prefix (str "https://") raw then parse true (drop 8 raw) (str "443")
  else if is_prefix (str "http://") raw then parse false (drop 7 raw) (str "80")
  else fail CH_ERROR_INVALID_ARGUMENT (str "policy test URL must use http or https").

(** ** The report of the groups *)

Section Report.
Context {D : Type} (grow : Z -> bool).
Implicit Types (g : ch_policy_group_state D) (c : ch_policy_chain_state D) (m : ch_policy_manager D).

Abbreviation append := (JsonText.append grow).
Abbreviation append_text := (JsonText.append_text grow).

(** Called for a chain that has a result. *)
Definition ch_policy_append_result c (r : ch_policy_probe_result) : json_op :=
  all_of
    [append ([123] ++ quoted_key "chain_name"); append_text (c_name c);
     append ([44] ++ quoted_key "healthy" ++ bool_text (healthy r));
     when_op (negb (latency_ns r =? 0)) (append ([44] ++ quoted_key "latency_ns" ++ dec (latency_ns r)));
     when_op (negb (status_code r =? 0)) (append ([44] ++ quoted_key "status_code" ++ dec (status_code r)));
     when_op (negb (beq (probe_error r) []))
       (all_of [append ([44] ++ quoted_key "error"); append_text (probe_error r)]);
     when_op (negb (last_test_ts_ns r =? 0))
       (append ([44] ++ quoted_key "last_test_ts_ns" ++ dec (last_test_ts_ns r)));
     append ([44] ++ quoted_key "udp_capable" ++ bool_text (udp_capable c));
     when_op (negb (beq (default [] (udp_error c)) []))
       (all_of [append ([44] ++ quoted_key "udp_error"); append_text (default [] (udp_error c))]);
     append [125]].

Definition tested g : list (ch_policy_chain_state D * ch_policy_probe_result) :=
  omap (fun c => r ← c_result c; Some (c, r)) (g_chains g).

Definition append_group g : json_op :=
  all_of
    [append ([123] ++ quoted_key "name"); append_text (g_name g);
     append ([44] ++ quoted_key "type"); append_text (g_type g);
     append ([44] ++ quoted_key "chains" ++ [91]);
     append_list grow (fun c => append_text (c_name c)) true (g_chains g);
     append ([93; 44] ++ quoted_key "selected"); append_text (selected_chain g);
     when_op (hidden g) (append ([44] ++ quoted_key "hidden" ++ str "true"));
     append ([44] ++ quoted_key "test_url"); append_text (test_url g);
     append ([44] ++ quoted_key "interval"); append_text (interval_label g);
     append ([44] ++ quoted_key "timeout"); append_text (timeout_label g);
     append ([44] ++ quoted_key "selected_chain"); append_text (selected_chain g);
     append ([44] ++ quoted_key "selection_mode"); append_text (ch_policy_selection_mode (g_type g));
     append ([44] ++ quoted_key "selection_reason"); append_text (selection_reason g);
     when_op (negb (updated_ts_ns g =? 0)) (append ([44] ++ quoted_key "updated_ts_ns" ++ dec (updated_ts_ns g)));
     append ([44] ++ quoted_key "results" ++ [91]);
     append_list grow (fun '(c, r) => ch_policy_append_result c r) true (tested g);
     append [93; 125]].

Definition ch_policy_manager_snapshot_json m (profile_name : option bytes) : result bytes :=
  match profile_name with
  | None => fail CH_ERROR_INVALID_ARGUMENT (str "policy manager and profile are required")
  | Some profile_name =>
      take_text
        (all_of
           [append ([123] ++ quoted_key "profile"); append_text profile_name;
            append ([44] ++ quoted_key "groups" ++ [91]);
            append_list grow append_group true (groups m);
            append [93; 125]])
        (str "encode policy snapshot")
  end.

End Report.

(** ** Facts: searching the members *)

Section Facts.
Context {D : Type}.
Implicit Types (g : ch_policy_group_state D) (c : ch_policy_chain_state D) (m : ch_policy_manager D)
  (l : list (ch_policy_chain_state D)).

(** [i] is the first position of [l] with [p]. *)
Definition first_with (p : ch_policy_chain_state D -> bool) l (i : nat) : Prop :=
  exists c, l !! i = Some c /\ p c = true /\ forall j c', (j < i)%nat -> l !! j = Some c' -> p c' = false.

Lemma find_from_spec p k l :
  match find_from p k l with
  | Some n => exists i, n = (k + i)%nat /\ first_with p l i
  | None => Forall (fun c => p c = false) l
  end.
Proof.
  revert k. induction l as [|c l IH]; intros k; cbn [find_from]; [constructor|].
  destruct (p c) eqn:E.
  - exists 0%nat. split; [lia|]. exists c. split_and!; [reflexivity|exact E|]. intros j c' Hj. lia.
  - specialize (IH (S k)). destruct (find_from p (S k) l) as [n|]; [|constructor; assumption].
    destruct IH as (i & -> & c' & Hi & Hp & Hf). exists (S i). split; [lia|]. exists c'. split_and!; auto.
    intros [|j] c'' Hj Hc; cbn in Hc; [congruence|]. apply (Hf j); [lia|exact Hc].
Qed.

Lemma find_from_first p l i : find_from p 0 l = Some i -> first_with p l i.
Proof. intros E. pose proof (find_from_spec p 0 l) as Hs. rewrite E in Hs. destruct Hs as (j & -> & Hj). exact Hj. Qed.

Lemma find_from_none p l : find_from p 0 l = None -> Forall (fun c => p c = false) l.
Proof. intros E. pose proof (find_from_spec p 0 l) as Hs. rewrite E in Hs. exact Hs. Qed.

Lemma find_from_some p l c : c ∈ l -> p c = true -> exists i, find_from p 0 l = Some i.
Proof.
  intros Hc Hp. destruct (find_from p 0 l) as [i|] eqn:E; [eauto|]. apply find_from_none in E.
  rewrite list.Forall_forall in E. rewrite (E c Hc) in Hp. discriminate.
Qed.

(** [i] is the first of the usable members with the lowest latency. *)
Definition fastest (udp_only : bool) l (i : nat) : Prop :=
  exists c, l !! i = Some c /\ usable udp_only c = true /\
    forall j c', l !! j = Some c' -> usable udp_only c' = true ->
      latency c <= latency c' /\ ((j < i)%nat -> latency c < latency c').

Definition none_usable (udp_only : bool) l : Prop := Forall (fun c => usable udp_only c = false) l.

(** The loop over [l] after the members [before]. *)
Lemma lowest_from_spec udp before l best low :
  match best with
  | Some i => fastest udp before i /\ (forall c, before !! i = Some c -> latency c = low)
  | None => none_usable udp before
  end ->
  match lowest_from udp best low (length before) l with
  | Some i => fastest udp (before ++ l) i
  | None => none_usable udp (before ++ l)
  end.
Proof.
  revert before best low. induction l as [|c l IH]; intros before best low Hb; cbn [lowest_from].
  { rewrite app_nil_r. destruct best; [apply Hb|exact Hb]. }
  assert (Hlen : S (length before) = length (before ++ [c])) by (rewrite length_app; cbn; lia).
  replace (before ++ c :: l) with ((before ++ [c]) ++ l) by (rewrite <- app_assoc; reflexivity).
  assert (Hat : (before ++ [c]) !! length before = Some c) by (apply list_lookup_middle; reflexivity).
  destruct (usable udp c) eqn:Eu; cbn [negb].
  - destruct (bool_decide (best = None) || (latency c <? low)) eqn:Ec; rewrite Hlen; apply IH.
    + split; [|intros c' Hc'; rewrite Hat in Hc'; congruence].
      exists c. split_and!; auto. intros j c' Hj Hu.
      assert (Hc : j = length before /\ c' = c \/ before !! j = Some c').
      { apply lookup_app_Some in Hj as [Hj|[Hj Hs]]; [auto|]. left.
        apply list_lookup_singleton_Some in Hs as [Hz ->]. split; [lia|reflexivity]. }
      destruct Hc as [[-> ->]|Hc]; [split; lia|].
      destruct best as [b|].
      * rewrite bool_decide_false in Ec by discriminate. cbn [orb] in Ec.
        destruct Hb as [(cb & Hcb & _ & Hmin) Hlow]. destruct (Hmin j c' Hc Hu). rewrite (Hlow cb Hcb) in *. split; lia.
      * unfold none_usable in Hb. rewrite list.Forall_forall in Hb. apply list_elem_of_lookup_2 in Hc. rewrite (Hb c' Hc) in Hu. discriminate.
    + destruct best as [b|]; [|rewrite bool_decide_true in Ec by reflexivity; discriminate].
      rewrite bool_decide_false in Ec by discriminate. cbn [orb] in Ec. destruct Hb as [(cb & Hcb & Hub & Hmin) Hlow].
      pose proof (Hlow cb Hcb) as Hl. pose proof (lookup_lt_Some _ _ _ Hcb) as Hlt.
      split; [|intros c' Hc'; rewrite lookup_app_l in Hc' by exact Hlt; auto].
      exists cb. split_and!; [rewrite lookup_app_l by exact Hlt; exact Hcb|exact Hub|].
      intros j c' Hj Hu. apply lookup_app_Some in Hj as [Hj|[Hj Hs]]; [eauto|].
      apply list_lookup_singleton_Some in Hs as [Hz ->]. split; lia.
  - rewrite Hlen. apply IH. destruct best as [b|].
    + destruct Hb as [(cb & Hcb & Hub & Hmin) Hlow]. pose proof (lookup_lt_Some _ _ _ Hcb) as Hlt.
      split; [|intros c' Hc'; rewrite lookup_app_l in Hc' by exact Hlt; auto].
      exists cb. split_and!; [rewrite lookup_app_l by exact Hlt; exact Hcb|exact Hub|].
      intros j c' Hj Hu. apply lookup_app_Some in Hj as [Hj|[Hj Hs]]; [eauto|].
      apply list_lookup_singleton_Some in Hs as [Hz ->]. congruence.
    + apply Forall_app. split; [exact Hb|]. constructor; [exact Eu|constructor].
Qed.

Lemma lowest_latency_spec g udp :
  match ch_policy_lowest_latency g udp with
  | Some i => fastest udp (g_chains g) i
  | None => none_usable udp (g_chains g)
  end.
Proof. apply (lowest_from_spec udp [] (g_chains g) None 0). constructor. Qed.

Definition usable_count (udp_only : bool) l : Z := lenZ (filter (fun c => usable udp_only c = true) l).

(** [i] is the usable member with [w] usable ones before it. *)
Definition nth_of_usable (udp_only : bool) l (w : Z) (i : nat) : Prop :=
  exists c, l !! i = Some c /\ usable udp_only c = true /\ usable_count udp_only (take i l) = w.

Lemma nth_usable_spec udp l w k :
  0 <= w < usable_count udp l ->
  exists i, nth_usable udp w k l = Some (k + i)%nat /\ nth_of_usable udp l w i.
Proof.
  unfold usable_count. revert w k. induction l as [|c l IH]; intros w k Hw; [unfold lenZ in Hw; cbn in Hw; lia|].
  cbn [nth_usable]. rewrite filter_cons in Hw. destruct (usable udp c) eqn:Eu.
  - rewrite decide_True in Hw by reflexivity. rewrite lenZ_cons in Hw. destruct (w =? 0) eqn:E0.
    + exists 0%nat. split; [f_equal; lia|]. exists c. split_and!; auto. apply Z.eqb_eq in E0. rewrite E0. reflexivity.
    + destruct (IH (w - 1) (S k) ltac:(lia)) as (i & -> & c' & Hi & Hu & Hc). exists (S i). split; [f_equal; lia|].
      exists c'. split_and!; auto. unfold usable_count in *. cbn [take firstn].
      rewrite filter_cons, decide_True, lenZ_cons by exact Eu. lia.
  - rewrite decide_False in Hw by discriminate.
    destruct (IH w (S k) Hw) as (i & -> & c' & Hi & Hu & Hc). exists (S i). split; [f_equal; lia|].
    exists c'. split_and!; auto. unfold usable_count in *. cbn [take firstn].
    rewrite filter_cons, decide_False by (rewrite Eu; discriminate). exact Hc.
Qed.

(** ** What a choice means *)

Section Chosen.
Context (g : ch_policy_group_state D) (network target source : bytes).

Definition for_udp : bool := strcaseeq network (str "udp").

(** The member that is selected now. *)
Definition current (i : nat) c : Prop :=
  first_with (fun c => beq (c_name c) (selected_chain g)) (g_chains g) i /\ g_chains g !! i = Some c.

(** The first member that can carry the connection, whatever its health. *)
Definition any_eligible (s : option nat) : Prop :=
  match s with
  | Some i => first_with (fun c => ch_policy_chain_eligible c for_udp) (g_chains g) i
  | None => Forall (fun c => ch_policy_chain_eligible c for_udp = false) (g_chains g)
  end.

(** The gain is at least a fifth of the latency, and at least 50 ms. *)
Definition clearly_better (now best : Z) : Prop :=
  now ÷ 5 <= now - best /\ CH_POLICY_SMART_MIN_DELTA_NS <= now - best.

Inductive chosen : option nat -> bytes -> Prop :=
| chosen_manual i :
    g_type g = str "select" ->
    first_with (fun c => beq (c_name c) (selected_chain g)) (g_chains g) i ->
    chosen (Some i) (str "manual")
| chosen_unhealthy s :
    g_type g <> str "select" -> none_usable for_udp (g_chains g) -> any_eligible s ->
    chosen s (str "no_healthy_fallback")
| chosen_first i :
    g_type g = str "fallback" -> first_with (usable for_udp) (g_chains g) i ->
    chosen (Some i) (str "first_healthy")
| chosen_hash i :
    g_type g = str "load-balance" ->
    nth_of_usable for_udp (g_chains g)
      (ch_policy_fnv1a source network target mod u32 (usable_count for_udp (g_chains g))) i ->
    chosen (Some i) (str "stable_hash")
| chosen_lowest i :
    g_type g = str "url-test" \/
    (g_type g = str "smart" /\ forall j c, current j c -> usable for_udp c = false) ->
    fastest for_udp (g_chains g) i -> chosen (Some i) (str "lowest_latency")
| chosen_current i c b cb :
    g_type g = str "smart" -> current i c -> usable for_udp c = true ->
    fastest for_udp (g_chains g) b -> g_chains g !! b = Some cb ->
    ~ clearly_better (latency c) (latency cb) -> chosen (Some i) (str "sticky_healthy")
| chosen_better i c b cb :
    g_type g = str "smart" -> current i c -> usable for_udp c = true ->
    fastest for_udp (g_chains g) b -> g_chains g !! b = Some cb -> i <> b ->
    clearly_better (latency c) (latency cb) -> chosen (Some b) (str "better_latency").

(** The invariant of a group. *)
Record group_ok : Prop := mk_group_ok {
  ok_type : g_type g ∈ policy_types;
  ok_distinct : NoDup (map c_name (g_chains g));
  ok_selected : selected_chain g ∈ map c_name (g_chains g);
  ok_latency : Forall (fun c => 0 <= latency c <= INT64_MAX) (g_chains g)
}.

Lemma fnv_range : 0 <= ch_policy_fnv1a source network target < 2 ^ 32.
Proof.
  assert (Hf : forall bs h, 0 <= h < 2 ^ 32 -> 0 <= fold_left fnv_byte bs h < 2 ^ 32).
  { induction bs as [|b bs IH]; intros h Hh; cbn [fold_left]; [exact Hh|]. apply IH.
    unfold fnv_byte, u32. apply Z.mod_pos_bound. lia. }
  unfold ch_policy_fnv1a. repeat apply Hf. lia.
Qed.

Lemma current_exists : group_ok -> exists i c, current i c /\ ch_policy_chain_index g (selected_chain g) = Some i.
Proof.
  intros Hg. pose proof (ok_selected Hg) as Hs. apply list_elem_of_fmap in Hs as (c & E & Hc).
  destruct (find_from_some (fun c => beq (c_name c) (selected_chain g)) _ c Hc) as [i Hi].
  { apply beq_true. auto. }
  pose proof (find_from_first _ _ _ Hi) as Hf. pose proof Hf as (c' & Hi' & _).
  exists i, c'. split; [|exact Hi]. split; [exact Hf|exact Hi'].
Qed.

Lemma first_eligible_any : any_eligible (ch_policy_first_eligible g for_udp).
Proof.
  unfold any_eligible, ch_policy_first_eligible. destruct (find_from _ 0 _) as [i|] eqn:E.
  - apply find_from_first, E.
  - apply find_from_none, E.
Qed.

Lemma choose_latency_chosen :
  group_ok -> g_type g ∈ [str "url-test"; str "smart"] ->
  exists s r, choose_by_latency g for_udp = Done (s, r) /\ chosen s r.
Proof.
  intros Hg Ht. assert (Hns : g_type g <> str "select").
  { intros E. rewrite E, !elem_of_cons, elem_of_nil in Ht. intuition discriminate. }
  unfold choose_by_latency. pose proof (lowest_latency_spec g for_udp) as Hb.
  destruct (ch_policy_lowest_latency g for_udp) as [b|].
  2:{ eexists _, _. split; [reflexivity|]. apply chosen_unhealthy; auto using first_eligible_any. }
  apply elem_of_cons in Ht as [Ht|Ht]; [|apply elem_of_cons in Ht as [Ht|Ht]; [|apply elem_of_nil in Ht as []]];
    rewrite Ht.
  { eexists _, _. split; [reflexivity|]. apply chosen_lowest; auto. }
  change (strcaseeq (str "smart") (str "smart")) with true. cbn [negb].
  destruct (current_exists Hg) as (i & c & Hc & ->). cbn [mbind option_bind]. pose proof Hc as [Hfirst Hi].
  rewrite Hi. cbn [mbind option_bind]. destruct (usable for_udp c) eqn:Eu; cbn [negb].
  2:{ eexists _, _. split; [reflexivity|]. apply chosen_lowest; [|exact Hb]. right. split; [exact Ht|].
      intros j c' [(cj & Hj & Hn & Hbefore) Hj']. rewrite Hj' in Hj. injection Hj as <-.
      destruct Hfirst as (ci & Hi' & Hni & Hbi). rewrite Hi' in Hi. injection Hi as ->.
      destruct (Nat.lt_trichotomy i j) as [Hlt|[-> | Hlt]].
      - rewrite (Hbefore i c Hlt Hi') in Hni. discriminate.
      - congruence.
      - rewrite (Hbi j c' Hlt Hj') in Hn. discriminate. }
  pose proof Hb as (cb & Hcb & Hub & Hmin). pose proof (ok_latency Hg) as Hl. rewrite list.Forall_forall in Hl.
  pose proof (Hl c (list_elem_of_lookup_2 _ _ _ Hi)). pose proof (Hl cb (list_elem_of_lookup_2 _ _ _ Hcb)).
  destruct (i =? b)%nat eqn:Eb.
  { apply Nat.eqb_eq in Eb. subst i. eexists _, _. split; [reflexivity|]. eapply chosen_current; eauto.
    rewrite Hcb in Hi. injection Hi as ->. intros [_ Hd]. unfold CH_POLICY_SMART_MIN_DELTA_NS in Hd. lia. }
  apply Nat.eqb_neq in Eb. rewrite Hcb. unfold i64.
  rewrite (proj2 (andb_true_iff _ _)) by (unfold INT64_MIN, INT64_MAX in *; lia). cbn [mbind outcome_bind].
  destruct (Z.max _ _ <=? _) eqn:Ed; eexists _, _; (split; [reflexivity|]).
  - eapply chosen_better; eauto. unfold clearly_better. lia.
  - eapply chosen_current; eauto. unfold clearly_better. lia.
Qed.

(** The wanted position exists, also if the count were cut to 32 bits. *)
Lemma wanted_range :
  (usable_count for_udp (g_chains g) =? 0) = false ->
  0 <= ch_policy_fnv1a source network target mod u32 (usable_count for_udp (g_chains g))
    < usable_count for_udp (g_chains g).
Proof.
  intros E0. pose proof fnv_range.
  pose proof (lenZ_nonneg (filter (fun c => usable for_udp c = true) (g_chains g))) as Hn.
  fold (usable_count for_udp (g_chains g)) in Hn. unfold u32.
  pose proof (Z.mod_pos_bound (usable_count for_udp (g_chains g)) (2 ^ 32) ltac:(lia)).
  pose proof (Z.mod_le (usable_count for_udp (g_chains g)) (2 ^ 32) ltac:(lia) ltac:(lia)).
  destruct (Z.eq_dec (usable_count for_udp (g_chains g) mod 2 ^ 32) 0) as [Ez|Ez].
  - rewrite Ez, Z.mod_0_r. apply Z.mod_divide in Ez as [q Eq]; [|lia]. nia.
  - pose proof (Z.mod_pos_bound (ch_policy_fnv1a source network target)
                  (usable_count for_udp (g_chains g) mod 2 ^ 32)). lia.
Qed.

(** The code takes exactly the choice that the type of the group prescribes. *)
Lemma choose_chosen :
  group_ok -> exists s r, ch_policy_choose_locked g network target source = Done (s, r) /\ chosen s r.
Proof.
  intros Hg. unfold ch_policy_choose_locked. fold for_udp. pose proof (ok_type Hg) as Ht.
  destruct (decide (g_type g ∈ [str "url-test"; str "smart"])) as [Hlat|Hlat].
  { destruct (choose_latency_chosen Hg Hlat) as (s & r & E & Hs). exists s, r. split; [|exact Hs].
    apply elem_of_cons in Hlat as [Hy|Hy]; [|apply elem_of_cons in Hy as [Hy|Hy]; [|apply elem_of_nil in Hy as []]];
      rewrite Hy; exact E. }
  unfold policy_types in Ht. rewrite !elem_of_cons, elem_of_nil in Ht. rewrite !elem_of_cons, elem_of_nil in Hlat.
  assert (Hty : g_type g = str "select" \/ g_type g = str "fallback" \/ g_type g = str "load-balance") by tauto.
  destruct Hty as [Hy|[Hy|Hy]]; rewrite Hy.
  - change (strcaseeq (str "select") (str "select")) with true. cbv iota.
    destruct (current_exists Hg) as (i & c & [Hf _] & ->). eexists _, _. split; [reflexivity|].
    apply chosen_manual; assumption.
  - change (strcaseeq (str "fallback") (str "select")) with false.
    change (strcaseeq (str "fallback") (str "fallback")) with true. cbv iota.
    destruct (find_from (usable for_udp) 0 (g_chains g)) as [i|] eqn:E; eexists _, _; (split; [reflexivity|]).
    + apply chosen_first; [exact Hy|]. apply find_from_first, E.
    + apply chosen_unhealthy; [rewrite Hy; discriminate|apply find_from_none, E|apply first_eligible_any].
  - change (strcaseeq (str "load-balance") (str "select")) with false.
    change (strcaseeq (str "load-balance") (str "fallback")) with false.
    change (strcaseeq (str "load-balance") (str "load-balance")) with true. cbv iota zeta.
    fold (usable_count for_udp (g_chains g)). destruct (usable_count for_udp (g_chains g) =? 0) eqn:E0.
    + eexists _, _. split; [reflexivity|]. apply chosen_unhealthy; [rewrite Hy; discriminate| |apply first_eligible_any].
      apply list.Forall_forall. intros c Hc. apply not_true_iff_false. intros Hu.
      assert (Hin : c ∈ filter (fun c => usable for_udp c = true) (g_chains g)) by (apply list_elem_of_filter; auto).
      unfold usable_count in E0. destruct (filter _ _) as [|x xs]; [apply elem_of_nil in Hin as []|].
      rewrite lenZ_cons in E0. pose proof (lenZ_nonneg xs). lia.
    + set (w := ch_policy_fnv1a source network target mod _).
      destruct (nth_usable_spec for_udp (g_chains g) w 0 (wanted_range E0)) as (i & E & Hi). rewrite E. cbn [Nat.add].
      eexists _, _. split; [reflexivity|]. apply chosen_hash; assumption.
Qed.

End Chosen.
(** ** The manager over time *)

(** What never changes of a group. *)
Definition shape g : bytes * bytes * list (bytes * toml_table D * bool) :=
  (g_name g, g_type g, map (fun c => (c_name c, c_config c, udp_capable c)) (g_chains g)).

Definition manager_ok m : Prop := Forall group_ok (groups m).

Definition latency_ok (r : ch_policy_probe_result) : Prop := 0 <= latency_ns r <= INT64_MAX.

(** The critical sections: a connection selects, probes are committed (or, for
    a group without probes, only the time is noted), the thread looks for work,
    and the thread is started and stopped. *)
Inductive step : ch_policy_manager D -> ch_policy_manager D -> Prop :=
| step_select m group network target source now chain m' :
    ch_policy_manager_select m group network target source now = Done (chain, m') -> step m m'
| step_commit m i g results now_real now_mono m' :
    groups m !! i = Some g -> length results = length (g_chains g) -> Forall latency_ok results ->
    commit_results m i results now_real now_mono = Done m' -> step m m'
| step_touch m i g now :
    groups m !! i = Some g -> step m (with_groups m (<[i := with_updated g now]> (groups m)))
| step_pass m now m' action : thread_pass m now = Done (m', action) -> step m m'
| step_start m created : step m (fst (ch_policy_manager_start m created))
| step_stop m : step m (ch_policy_manager_stop m).

Definition steps : ch_policy_manager D -> ch_policy_manager D -> Prop := rtc step.

Lemma find_group_spec name k gs i g :
  find_group name k gs = Some (i, g) -> exists j, i = (k + j)%nat /\ gs !! j = Some g /\ g_name g = name.
Proof.
  revert k. induction gs as [|g' gs IH]; intros k; cbn [find_group]; [discriminate|].
  destruct (beq (g_name g') name) eqn:E.
  - intros [= <- <-]. exists 0%nat. apply beq_true in E. split_and!; auto.
  - intros Hf. destruct (IH _ Hf) as (j & -> & Hj & Hn). exists (S j). split_and!; auto.
Qed.

Lemma find_group_some name k gs : name ∈ map g_name gs -> exists i g, find_group name k gs = Some (i, g).
Proof.
  revert k. induction gs as [|g gs IH]; intros k Hn; cbn [find_group]; [apply elem_of_nil in Hn as []|].
  destruct (beq (g_name g) name) eqn:E; [eauto|]. apply IH. cbn [map] in Hn. apply beq_false in E.
  apply elem_of_cons in Hn as [Hn|Hn]; [congruence|exact Hn].
Qed.

Lemma replace_group m i g g' :
  manager_ok m -> groups m !! i = Some g -> group_ok g' -> shape g' = shape g ->
  let m' := with_groups m (<[i := g']> (groups m)) in
  manager_ok m' /\ map shape (groups m') = map shape (groups m).
Proof.
  intros Hm Hi Hg Hs. cbn. split.
  - apply Forall_insert; assumption.
  - change (shape <$> <[i:=g']> (groups m) = shape <$> groups m). rewrite list_fmap_insert, Hs. apply list_insert_id.
    rewrite list_lookup_fmap, Hi. reflexivity.
Qed.

Lemma set_selection_ok g s r now :
  group_ok g -> group_ok (ch_policy_set_selection_locked g s r now) /\
  shape (ch_policy_set_selection_locked g s r now) = shape g.
Proof.
  intros [H1 H2 H3 H4]. split; [|reflexivity]. constructor; try assumption. cbn.
  destruct s as [i|]; [|exact H3]. cbn [mbind option_bind]. destruct (g_chains g !! i) as [c|] eqn:Ei; [|exact H3].
  apply list_elem_of_In, List.in_map, list_elem_of_In, list_elem_of_lookup_2 with i. exact Ei.
Qed.

Lemma results_ok g results :
  group_ok g -> length results = length (g_chains g) -> Forall latency_ok results ->
  let g' := with_chains g (zip_with with_result (g_chains g) results) in group_ok g' /\ shape g' = shape g.
Proof.
  intros [H1 H2 H3 H4] Hlen Hr.
  assert (Hn : forall A (f : ch_policy_chain_state D -> A), (forall c r, f (with_result c r) = f c) ->
            map f (zip_with with_result (g_chains g) results) = map f (g_chains g)).
  { intros A f Hf. clear - Hlen Hf. revert results Hlen. induction (g_chains g) as [|c cs IH]; intros [|r rs] Hlen; try discriminate; [reflexivity|].
    cbn [zip_with map]. rewrite Hf, IH by (cbn in Hlen; lia). reflexivity. }
  cbn. split; [constructor|]; cbn; rewrite ?Hn; auto.
  - clear - Hr. generalize (g_chains g). intros cs. revert cs. induction Hr as [|r rs Hr0 Hr IH]; intros [|c cs]; cbn; constructor; [exact Hr0|apply IH].
  - unfold shape. cbn. rewrite Hn by reflexivity. reflexivity.
Qed.

Lemma scan_due_spec now next k gs gs' due n :
  scan_due now next k gs = Done (gs', due, n) ->
  map (fun g => with_next_probe g 0) gs' = map (fun g => with_next_probe g 0) gs.
Proof.
  revert next k gs' due n. induction gs as [|g gs IH]; intros next k gs' due n; cbn [scan_due]; [intros [= <- <- <-]; reflexivity|].
  destruct (ch_policy_type_uses_health (g_type g)); cbn [negb].
  - destruct (next_probe_ns g <=? now).
    + unfold i64. destruct (_ && _); [|discriminate]. cbn. intros [= <- <- <-]. reflexivity.
    + destruct (scan_due now (Z.min _ _) (S k) gs) as [[[rest due'] n']| |] eqn:E; [|discriminate..].
      cbn. intros [= <- <- <-]. cbn [map]. rewrite (IH _ _ _ _ _ E). reflexivity.
  - destruct (scan_due now next (S k) gs) as [[[rest due'] n']| |] eqn:E; [|discriminate..].
    cbn. intros [= <- <- <-]. cbn [map]. rewrite (IH _ _ _ _ _ E). reflexivity.
Qed.

(** Only the times of the next probes differ. *)
Lemma same_but_probes gs gs' :
  map (fun g => with_next_probe g 0) gs' = map (fun g => with_next_probe g 0) gs ->
  Forall group_ok gs -> Forall group_ok gs' /\ map shape gs' = map shape gs.
Proof.
  revert gs. induction gs' as [|g' gs' IH]; intros [|g gs] E; try discriminate; [auto|].
  cbn [map] in E. injection E as En Et Ec Es Eu Eil Etl Ei Eto Eup Eh Er E. intros Hf. inversion_clear Hf as [|? ? Hg Hl].
  destruct (IH gs E Hl) as [H1 H2]. split.
  - constructor; [|exact H1]. destruct Hg as [G1 G2 G3 G4]. constructor; rewrite ?Et, ?Ec, ?Es; assumption.
  - cbn [map]. rewrite H2. unfold shape. rewrite En, Et, Ec. reflexivity.
Qed.

Lemma step_ok m m' : step m m' -> manager_ok m -> manager_ok m' /\ map shape (groups m') = map shape (groups m).
Proof.
  intros Hs Hm. destruct Hs as [m gn nw tg src now chain m' Hsel|m i g results nr nm m' Hi Hlen Hr Hc|m i g now Hi
                               |m now m' action Hp|m created|m].
  - unfold ch_policy_manager_select in Hsel. destruct gn as [gn|], nw as [nw|], tg as [tg|], src as [src|]; try discriminate.
    destruct (find_group gn 0 (groups m)) as [[i g]|] eqn:Eg; [|discriminate].
    apply find_group_spec in Eg as (j & -> & Hj & _). cbn [Nat.add] in *.
    destruct (ch_policy_choose_locked g nw tg src) as [[s r]| |]; [|discriminate..]. cbn [mbind outcome_bind] in Hsel.
    destruct (i ← s; g_chains g !! i) as [c|]; [|discriminate]. destruct (_ && _); [discriminate|]. injection Hsel as <- <-.
    unfold manager_ok in Hm. rewrite list.Forall_forall in Hm.
    destruct (set_selection_ok g s r now) as [H1 H2]; [apply Hm, list_elem_of_lookup_2 with j, Hj|].
    apply (replace_group m j g); auto. apply list.Forall_forall, Hm.
  - unfold commit_results in Hc. rewrite Hi in Hc.
    assert (Hg : group_ok g) by (unfold manager_ok in Hm; rewrite list.Forall_forall in Hm; apply Hm, list_elem_of_lookup_2 with i, Hi).
    destruct (results_ok g results Hg Hlen Hr) as [H1 H2]. set (g1 := with_chains g _) in *.
    destruct (ch_policy_choose_locked g1 _ _ _) as [[s r]| |]; [|discriminate..]. cbn [mbind outcome_bind] in Hc.
    destruct (set_selection_ok g1 s r nr H1) as [[G1 G2 G3 G4] H4].
    unfold i64 in Hc. destruct (_ && _); [|discriminate]. cbn [mbind outcome_bind] in Hc. injection Hc as <-.
    apply (replace_group m i g); [exact Hm|exact Hi|constructor; assumption|]. rewrite <- H2, <- H4. reflexivity.
  - apply (replace_group m i g); auto. unfold manager_ok in Hm. rewrite list.Forall_forall in Hm.
    destruct (Hm g (list_elem_of_lookup_2 _ _ _ Hi)) as [G1 G2 G3 G4]. constructor; assumption.
  - unfold thread_pass in Hp. destruct (stop_requested m); [injection Hp as <- _; auto|].
    destruct (scan_due now INT64_MAX 0 (groups m)) as [[[l due] n]| |] eqn:E; [|discriminate..].
    cbn in Hp. injection Hp as <- _. apply same_but_probes; [|exact Hm]. eapply scan_due_spec, E.
  - unfold ch_policy_manager_start. destruct (thread_started m); [auto|].
    assert (He : map (fun g => with_next_probe g 0) (map (fun g => with_next_probe g 0) (groups m))
                 = map (fun g => with_next_probe g 0) (groups m)) by (rewrite List.map_map; reflexivity).
    destruct created; cbn; apply same_but_probes; auto.
  - cbn. auto.
Qed.

Lemma steps_ok m m' : steps m m' -> manager_ok m -> manager_ok m' /\ map shape (groups m') = map shape (groups m).
Proof.
  induction 1 as [m|m m1 m2 H1 _ IH]; intros Hm; [auto|].
  destruct (step_ok _ _ H1 Hm) as [Hm1 E1]. destruct (IH Hm1) as [Hm2 E2]. split; [exact Hm2|congruence].
Qed.

(** A refresh is a commit, or a note of the time. *)
Lemma refresh_step m i probe now_real now_mono m' :
  (forall config url ms, latency_ok (report_result (probe config url ms))) ->
  ch_policy_refresh_index m i probe now_real now_mono = Done m' -> step m m'.
Proof.
  intros Hp. unfold ch_policy_refresh_index. destruct (groups m !! i) as [g|] eqn:Ei; [|discriminate].
  destruct (ch_policy_type_uses_health (g_type g)); cbn [negb].
  - intros Hc. eapply step_commit; [exact Ei| | |exact Hc]; [apply length_map|].
    apply List.Forall_map, list.Forall_forall. intros c _. apply Hp.
  - intros [= <-]. apply step_touch, Ei.
Qed.

(** ** Facts: creation *)

Section Created.
Import Validity ConfigText RulesConfig.
Context `{InetText} `{LongDouble}.
Implicit Types (t profile : toml_table D).

Lemma optional_string_of t key : ch_policy_optional_string (Some t) key = default [] (table_string t key).
Proof.
  unfold ch_policy_optional_string, ch_config_table_get_string, table_string.
  destruct (toml_string_in t key); reflexivity.
Qed.

Lemma named_table_find (chains : list (toml_item D)) name :
  name <> [] -> ch_policy_named_table chains name = find_named name chains.
Proof.
  intros Hn. unfold find_named. induction chains as [|i chains IH]; [reflexivity|]. cbn [ch_policy_named_table List.find].
  assert (E : beq (ch_policy_optional_string (table_at i) (str "name")) name = Config.named name i).
  { unfold Config.named, item_name. destruct (table_at i) as [t|].
    - rewrite optional_string_of. unfold table_string. cbn [mbind option_bind].
      destruct (toml_string_in t (str "name")); [reflexivity|]. apply beq_false. auto.
    - cbn. apply beq_false. auto. }
  rewrite E. destruct (Config.named name i); [reflexivity|exact IH].
Qed.

(** A member as the document describes it. *)
Definition member_of (chains : list (toml_item D)) c : Prop :=
  find_named (c_name c) chains = Some (c_config c) /\
  (udp_capable c = true <-> ch_protocol_chain_supports_packet (c_config c) = Done tt).

(** A group as the document describes it. *)
Definition describes (chains : list (toml_item D)) (i : toml_item D) g : Prop :=
  exists t, table_at i = Some t /\ item_name i = Some (g_name g) /\
    table_string t (str "type") = Some (g_type g) /\
    map string_at (items (toml_array_in t (str "chains"))) = map Some (map c_name (g_chains g)) /\
    Forall (member_of chains) (g_chains g).

Lemma copy_chain_ok chains name :
  name <> [] -> name ∈ names chains ->
  exists c, copy_chain chains name = Done c /\ c_name c = name /\ c_result c = None /\ member_of chains c.
Proof.
  intros Hn Hin. unfold copy_chain, member_of. rewrite named_table_find by exact Hn.
  destruct (find_named_names name chains Hin) as (i & t & _ & Ef & _). rewrite Ef.
  destruct (ch_protocol_chain_supports_packet t) as [[]|e|] eqn:E.
  - eexists. split_and!; [reflexivity|reflexivity|reflexivity|exact Ef|]. cbn. split; auto.
  - eexists. split_and!; [reflexivity|reflexivity|reflexivity|exact Ef|]. cbn. split; [discriminate|congruence].
  - exfalso. revert E. unfold ch_protocol_chain_supports_packet. destruct (list.last _); [|discriminate].
    destruct (s ← table_at _; _); [|discriminate]. destruct (negb _); [discriminate|]. destruct (negb _); discriminate.
Qed.

Lemma copy_members_ok chains ms members k :
  map string_at ms = map Some members -> Forall (fun n => proper n /\ n ∈ names chains) members ->
  exists cs, copy_members chains ms k = Done cs /\ map c_name cs = members /\
    Forall (fun c => c_result c = None) cs /\ Forall (member_of chains) cs.
Proof.
  intros Em Hm. revert ms k Em. induction Hm as [|n members [[Hn _] Hin] Hm IH]; intros [|i ms] k Em; try discriminate.
  { exists []. split_and!; auto. }
  cbn in Em. injection Em as Ei Em. cbn [copy_members]. rewrite Ei.
  destruct (copy_chain_ok chains n Hn Hin) as (c & -> & Ec & Er & Hc). cbn [mbind outcome_bind].
  destruct (IH ms (k + 1) Em) as (cs & -> & En & Hr & Hcs). cbn. exists (c :: cs). cbn. split_and!; auto. congruence.
Qed.

Lemma duration_or_ok t key label n :
  duration_field t key true -> ch_config_parse_duration_ns (Some label) = Done n -> 0 <= n ->
  exists n', ch_config_parse_duration_ns (Some (or_else (ch_policy_optional_string (Some t) key) label)) = Done n' /\ 0 <= n'.
Proof.
  intros Hd Hl Hn. unfold or_else. rewrite optional_string_of. unfold table_string.
  destruct (toml_string_in t key) as [s|] eqn:E; [|cbn; eauto].
  change (default [] (Some s)) with s. destruct (beq s []); [eauto|].
  destruct (Hd s E) as (n' & E' & Hn'). eauto.
Qed.

Lemma copy_group_ok chains i :
  group_wf chains i -> (exists name, item_name i = Some name) ->
  exists g, ch_policy_copy_group (table_at i) chains = Done g /\ group_ok g /\ describes chains i g /\
    0 <= interval_ns g /\ 0 <= timeout_ns g.
Proof.
  intros (t & ty & members & Et & Ety & Hty & Em & Hne & Hnd & Hm & Hsel & _ & Hint & Htime) [name En].
  unfold ch_policy_copy_group. rewrite Et. cbv zeta.
  destruct (duration_or_ok t (str "interval") (str "30s") 30000000000 Hint) as (n1 & -> & Hn1); [|lia|].
  { exact (parse_segments None [(30, unit_s)] ltac:(discriminate) ltac:(repeat constructor; lia) ltac:(vm_compute; discriminate)). }
  destruct (duration_or_ok t (str "timeout") (str "5s") 5000000000 Htime) as (n2 & -> & Hn2); [|lia|].
  { exact (parse_segments None [(5, unit_s)] ltac:(discriminate) ltac:(repeat constructor; lia) ltac:(vm_compute; discriminate)). }
  cbn [mbind outcome_bind]. destruct (copy_members_ok chains _ members 0 Em Hm) as (cs & Ec & Ecn & Hr & Hcs).
  destruct (items (toml_array_in t (str "chains"))) as [|j js] eqn:Ej; [destruct members; [contradiction|discriminate]|].
  rewrite Ec. cbn [mbind outcome_bind]. eexists. split; [reflexivity|].
  assert (Hname : ch_policy_optional_string (Some t) (str "name") = name).
  { rewrite optional_string_of. unfold item_name in En. rewrite Et in En.
    cbn [mbind option_bind] in En. rewrite En. reflexivity. }
  assert (Htype : ch_policy_optional_string (Some t) (str "type") = ty) by (rewrite optional_string_of, Ety; reflexivity).
  split_and!; [|exists t|exact Hn1|exact Hn2].
  - constructor; cbn [g_type g_chains selected_chain]; rewrite ?Htype, ?Ecn; auto.
    + unfold or_else. rewrite optional_string_of. unfold if_given in Hsel.
      destruct (table_string t (str "selected")) as [s|].
      * change (default [] (Some s)) with s. destruct (beq s []) eqn:Es; [|apply (Hsel s eq_refl), beq_false, Es].
        destruct cs; [destruct members; [contradiction|discriminate]|]. rewrite <- Ecn. left.
      * cbn. destruct cs; [destruct members; [contradiction|discriminate]|]. rewrite <- Ecn. left.
    + eapply list.Forall_impl; [exact Hr|]. intros c Hc. unfold latency. rewrite Hc. unfold INT64_MAX. lia.
  - cbn [g_name g_type g_chains]. rewrite Hname, Htype, Ej, Ecn. split_and!; auto.
Qed.

Lemma copy_groups_ok chains its :
  Forall (group_wf chains) its -> Forall (fun i => exists name, item_name i = Some name) its ->
  exists gs, copy_groups its chains = Done gs /\ Forall group_ok gs /\ Forall2 (describes chains) its gs.
Proof.
  intros Hl. induction Hl as [|i its Hi Hl IH]; intros Hn; cbn [copy_groups].
  { exists []. split_and!; auto. }
  inversion_clear Hn as [|? ? Hni Hnl]. destruct (copy_group_ok chains i Hi Hni) as (g & -> & Hg & Hd & _).
  cbn [mbind outcome_bind]. destruct (IH Hnl) as (gs & -> & Hgs & Hds). cbn. exists (g :: gs). split_and!; auto.
Qed.

Lemma policy_create_ok (config : ch_config (D := D)) pname profile :
  config_wf (root config) -> config_select_profile config pname = Done profile ->
  exists m, ch_policy_manager_create config pname = Done m /\ manager_ok m /\
    Forall2 (describes (items (toml_array_in profile (str "chain"))))
      (items (toml_array_in profile (str "policy_group"))) (groups m).
Proof.
  intros Hwf Hsel. destruct (select_profile_wf _ _ _ Hwf Hsel) as [Hp _].
  destruct (copy_groups_ok _ _ (wf_groups _ Hp)) as (gs & E & Hg & Hd).
  { eapply list.Forall_impl; [exact (proj1 (wf_group_names _ Hp))|]. intros i (n & En & _). eauto. }
  exists (mk_manager false false gs). split_and!; auto.
  unfold ch_policy_manager_create. unfold config_select_profile in Hsel. destruct (empty pname); cbn [negb] in Hsel.
  - destruct (ch_config_active_profile config); [|discriminate]. injection Hsel as ->. rewrite E. reflexivity.
  - destruct (ch_config_profile_named config pname); [|discriminate]. injection Hsel as ->. rewrite E. reflexivity.
Qed.

(** The description only depends on what never changes. *)
Lemma describes_shape chains i g g' : shape g = shape g' -> describes chains i g -> describes chains i g'.
Proof.
  unfold shape. intros [= En Et Ec] (t & D1 & D2 & D3 & D4 & D5). exists t. rewrite <- En, <- Et.
  assert (Hn : map c_name (g_chains g') = map c_name (g_chains g)).
  { apply (f_equal (map (fun x => fst (fst x)))) in Ec. rewrite !List.map_map in Ec. symmetry. exact Ec. }
  rewrite Hn. split_and!; auto. clear - Ec D5. revert D5 Ec. generalize (g_chains g'), (g_chains g).
  intros cs' cs. revert cs'. induction cs as [|c cs IH]; intros [|c' cs'] D5 E; try discriminate; [constructor|].
  cbn in E. injection E as E1 E2 E3 E. inversion_clear D5 as [|? ? Hc Hcs]. constructor; [|apply IH; assumption].
  unfold member_of in *. rewrite <- E1, <- E2, <- E3. exact Hc.
Qed.

Lemma describes_steps chains its m m' :
  manager_ok m -> steps m m' -> Forall2 (describes chains) its (groups m) -> Forall2 (describes chains) its (groups m').
Proof.
  intros Hm Hs Hd. destruct (steps_ok _ _ Hs Hm) as [_ E]. clear - Hd E. revert Hd E.
  generalize (groups m'), (groups m). intros gs' gs Hd. revert gs'.
  induction Hd as [|i g its gs Hi Hd IH]; intros [|g' gs'] E; try discriminate; [constructor|].
  cbn in E. injection E as En Et Ec E. constructor; [|auto].
  eapply describes_shape; [|exact Hi]. unfold shape. congruence.
Qed.

(** ** Facts: selecting *)

Lemma chosen_member g network target source s r :
  chosen g network target source s r ->
  match s with
  | Some i => exists c, g_chains g !! i = Some c /\
      (g_type g = str "select" \/ ch_policy_chain_eligible c (for_udp network) = true)
  | None => Forall (fun c => ch_policy_chain_eligible c (for_udp network) = false) (g_chains g)
  end.
Proof.
  assert (Hu : forall c, usable (for_udp network) c = true -> ch_policy_chain_eligible c (for_udp network) = true).
  { intros c Hc. unfold usable in Hc. apply andb_true_iff in Hc as [Hc _]. exact Hc. }
  intros [i Ht (c & Hi & _)|s' _ _ Hs|i _ (c & Hi & Hc & _)|i _ (c & Hi & Hc & _)|i _ (c & Hi & Hc & _)
         |i c b cb _ [_ Hi] Hc _ _ _|i c b cb _ _ _ (cb' & Hb & Hc & _) _ _ _]; eauto.
  destruct s' as [i|]; [|exact Hs]. destruct Hs as (c & Hi & Hc & _). eauto.
Qed.

Lemma select_ok m group network target source now i g :
  manager_ok m -> find_group group 0 (groups m) = Some (i, g) ->
  let udp := for_udp network in
  let selected := ch_policy_manager_select m (Some group) (Some network) (Some target) (Some source) now in
  (exists c s r, c ∈ g_chains g /\ ch_policy_choose_locked g network target source = Done (s, r) /\
     selected = Done (c_name c, with_groups m (<[i := ch_policy_set_selection_locked g s r now]> (groups m))) /\
     selected_chain (ch_policy_set_selection_locked g s r now) = c_name c /\
     (udp = true -> udp_capable c = true)) \/
  (udp = true /\ exists e, selected = Raise e /\ code e = CH_ERROR_UNSUPPORTED /\
     (g_type g = str "select" \/ Forall (fun c => udp_capable c = false) (g_chains g))).
Proof.
  intros Hm Hf. cbv zeta. unfold ch_policy_manager_select. rewrite Hf.
  apply find_group_spec in Hf as (j & -> & Hj & _). cbn [Nat.add] in *.
  assert (Hg : group_ok g) by (unfold manager_ok in Hm; rewrite list.Forall_forall in Hm; apply Hm, list_elem_of_lookup_2 with j, Hj).
  destruct (choose_chosen g network target source Hg) as (s & r & -> & Hs). cbn [mbind outcome_bind].
  fold (for_udp network). pose proof (chosen_member _ _ _ _ _ _ Hs) as Hc. destruct s as [k|]; cbn [mbind option_bind].
  - destruct Hc as (c & Hk & Hc). rewrite Hk. destruct (for_udp network && negb (udp_capable c)) eqn:Eu.
    + right. apply andb_true_iff in Eu as [Eu1 Eu2]. split; [exact Eu1|]. eexists. split_and!; [reflexivity..|].
      destruct Hc as [Hc|Hc]; [auto|]. unfold ch_policy_chain_eligible in Hc. rewrite Eu1 in Hc. cbn in Hc.
      rewrite Hc in Eu2. discriminate.
    + left. exists c, (Some k), r. split_and!; auto.
      * apply list_elem_of_lookup_2 with k, Hk.
      * cbn. rewrite Hk. reflexivity.
      * intros E. rewrite E in Eu. destruct (udp_capable c); [reflexivity|discriminate].
  - right. pose proof (ok_selected _ Hg) as Hin. apply list_elem_of_fmap in Hin as (c & _ & Hin).
    pose proof Hc as Hc'. rewrite list.Forall_forall in Hc'. pose proof (Hc' c Hin) as Hn. unfold ch_policy_chain_eligible in Hn.
    destruct (for_udp network) eqn:Eu; [|discriminate]. split; [reflexivity|]. eexists. split_and!; [reflexivity..|].
    right. eapply list.Forall_impl; [exact Hc|]. intros x Hx. exact Hx.
Qed.

Lemma find_group_insert name k gs i g g' :
  find_group name k gs = Some ((k + i)%nat, g) -> g_name g' = g_name g ->
  find_group name k (<[i := g']> gs) = Some ((k + i)%nat, g').
Proof.
  intros Hf Hn. revert k i Hf. induction gs as [|x gs IH]; intros k i; cbn [find_group]; [discriminate|].
  destruct (beq (g_name x) name) eqn:E.
  - intros [= Hi Hx]. assert (i = 0%nat) as -> by lia. cbn. rewrite Hn, <- Hx, E. do 2 f_equal. lia.
  - intros Hf. pose proof (find_group_spec _ _ _ _ _ Hf) as (j & Hj & _). destruct i as [|i]; [lia|].
    cbn. rewrite E. replace (k + S i)%nat with (S k + i)%nat in * by lia. apply IH, Hf.
Qed.

(** The document's group that a name denotes. *)
Lemma described_group chains its m group :
  Forall2 (describes chains) its (groups m) -> group ∈ names its ->
  exists i g item, find_group group 0 (groups m) = Some (i, g) /\ item ∈ its /\ describes chains item g /\
    find_named group its = table_at item.
Proof.
  intros Hd Hn. unfold find_named.
  assert (Hgen : forall k, exists i g item, find_group group k (groups m) = Some (i, g) /\ item ∈ its /\
            describes chains item g /\ (i ← List.find (Config.named group) its; table_at i) = table_at item); [|apply (Hgen 0%nat)].
  induction Hd as [|item g its gs Hi Hd IH]; [apply elem_of_nil in Hn as []|]. intros k.
  cbn [find_group List.find]. pose proof Hi as (t & Et & En & _). unfold Config.named at 1. rewrite En.
  destruct (beq (g_name g) group) eqn:E.
  - exists k, g, item. split_and!; auto. left.
  - unfold names in Hn. cbn [omap list_omap] in Hn. rewrite En in Hn. apply elem_of_cons in Hn as [Hn|Hn].
    { apply beq_false in E. congruence. }
    destruct (IH Hn (S k)) as (i & g' & item' & H2 & H3 & H4 & H5). exists i, g', item'. split_and!; auto. right. exact H3.
Qed.

(** The managers of a profile. *)
Definition reachable (config : ch_config (D := D)) (pname : option bytes) m : Prop :=
  exists m0, ch_policy_manager_create config pname = Done m0 /\ steps m0 m.

Lemma reachable_described config pname profile m :
  config_wf (root config) -> config_select_profile config pname = Done profile -> reachable config pname m ->
  manager_ok m /\ Forall2 (describes (items (toml_array_in profile (str "chain"))))
                    (items (toml_array_in profile (str "policy_group"))) (groups m).
Proof.
  intros Hwf Hsel (m0 & Hc & Hs). destruct (policy_create_ok config pname profile Hwf Hsel) as (m1 & Hc' & Hm & Hd).
  rewrite Hc in Hc'. injection Hc' as <-. split; [apply (steps_ok _ _ Hs Hm)|]. eapply describes_steps; eauto.
Qed.

(** *** Properties *)

(** C10: Every group chooses as its type prescribes.  In every manager that is
    reached from the creation for a well-formed profile (by selections, probe
    results, passes of the probe thread, starts and stops, in any order), the
    choice of a group returns and is the one of the specification [chosen]:
    the selected member for [select], the first healthy one for [fallback], the
    healthy one at the position of the hash for [load-balance], the first with
    the lowest latency for [url-test], and for [smart] the current one unless
    the best is faster by a fifth and by 50 ms; when none is healthy, the first
    member that can carry the connection. *)
Theorem policy_choice_refines config pname profile m g network target source :
  config_wf (root config) -> config_select_profile config pname = Done profile -> reachable config pname m ->
  g ∈ groups m ->
  exists s r, ch_policy_choose_locked g network target source = Done (s, r) /\
    chosen g network target source s r.
Proof.
  intros Hwf Hsel Hr Hg. destruct (reachable_described _ _ _ _ Hwf Hsel Hr) as [Hm _].
  unfold manager_ok in Hm. rewrite list.Forall_forall in Hm. apply choose_chosen, Hm, Hg.
Qed.

(** A group of the profile always yields one of its chains.  For a name of a
    policy group of a well-formed profile and any reachable manager, selecting
    gives a member of that group, which is a chain of the profile and becomes
    the selection of the group; for UDP it is a chain whose last hop carries
    datagrams.  It is refused, as unsupported, only for UDP, and then the group
    is a manual one or no member carries datagrams. *)
Theorem policy_select_member config pname profile m group network target source now :
  config_wf (root config) -> config_select_profile config pname = Done profile -> reachable config pname m ->
  let chains := items (toml_array_in profile (str "chain")) in
  let its := items (toml_array_in profile (str "policy_group")) in
  group ∈ names its ->
  exists t, find_named group its = Some t /\
  let members := omap string_at (items (toml_array_in t (str "chains"))) in
  (exists chain m' config', ch_policy_manager_select m (Some group) (Some network) (Some target) (Some source) now
        = Done (chain, m') /\
     chain ∈ members /\ find_named chain chains = Some config' /\ reachable config pname m' /\
     (exists i g, find_group group 0 (groups m') = Some (i, g) /\ selected_chain g = chain) /\
     (for_udp network = true -> ch_protocol_chain_supports_packet config' = Done tt)) \/
  (for_udp network = true /\
   (exists e, ch_policy_manager_select m (Some group) (Some network) (Some target) (Some source) now = Raise e /\
      code e = CH_ERROR_UNSUPPORTED) /\
   (table_string t (str "type") = Some (str "select") \/
    forall chain config', chain ∈ members -> find_named chain chains = Some config' ->
      ch_protocol_chain_supports_packet config' <> Done tt)).
Proof.
  intros Hwf Hsel Hr chains its Hn. destruct (reachable_described _ _ _ _ Hwf Hsel Hr) as [Hm Hd]. fold chains its in Hd.
  destruct (described_group chains its m group Hd Hn) as (i & g & item & Hf & Hi & Hdg & Ef).
  destruct Hdg as (t & Et & En & Ety & Emem & Hmem). exists t. rewrite Ef, Et. split; [reflexivity|]. cbv zeta.
  rewrite (omap_map_Some _ _ _ Emem). rewrite list.Forall_forall in Hmem.
  destruct (select_ok m group network target source now i g Hm Hf)
    as [(c & s & r & Hc & _ & E & Hs & Hu)|(Hudp & e & E & Ee & Hwhy)].
  - left. destruct (Hmem c Hc) as [Hfind Hcap]. eexists (c_name c), _, (c_config c). split; [exact E|].
    split_and!; [apply list_elem_of_In, List.in_map, list_elem_of_In, Hc|exact Hfind| | |intros Hx; apply Hcap, Hu, Hx].
    + destruct Hr as (m0 & Hc0 & Hs0). exists m0. split; [exact Hc0|]. eapply rtc_r; [exact Hs0|]. eapply step_select, E.
    + exists i. eexists. split; [|exact Hs]. eapply (find_group_insert group 0); [exact Hf|reflexivity].
  - right. split; [exact Hudp|]. split; [eauto|]. destruct Hwhy as [Hw|Hw]; [left; congruence|right].
    intros chain cfg Hin Hfind Hsup. apply list_elem_of_fmap in Hin as (c & -> & Hc).
    rewrite list.Forall_forall in Hw. destruct (Hmem c Hc) as [Hfind' Hcap]. rewrite Hfind' in Hfind. injection Hfind as <-.
    specialize (Hw c Hc). rewrite (proj2 Hcap Hsup) in Hw. discriminate.
Qed.

(** C11: What the rules decide, the groups resolve.  In a well-formed profile, when
    the rule engine of the profile decides for a group, every reachable policy
    manager of the same profile resolves that group, for a connection that is
    not UDP, to a member of it that is a chain of the profile. *)
Theorem group_decision_routes cache_load config pname profile engine context started finished d m network
    target source now :
  config_wf (root config) -> config_select_profile config pname = Done profile ->
  ch_rule_engine_compile_config cache_load config pname = Done engine ->
  Rules.ch_rule_engine_decide (Some engine) (Some context) started finished = Done d ->
  Rules.d_action d = Rules.CH_RULE_ACTION_GROUP -> reachable config pname m -> for_udp network = false ->
  exists chain m' config' t,
    ch_policy_manager_select m (Some (Rules.d_group_name d)) (Some network) (Some target) (Some source) now
      = Done (chain, m') /\
    find_named (Rules.d_group_name d) (items (toml_array_in profile (str "policy_group"))) = Some t /\
    chain ∈ omap string_at (items (toml_array_in t (str "chains"))) /\
    find_named chain (items (toml_array_in profile (str "chain"))) = Some config'.
Proof.
  intros Hwf Hsel Hc Hd Ha Hr Hu. destruct (select_profile_wf _ _ _ Hwf Hsel) as [Hp _].
  destruct (compile_config_known cache_load config pname profile engine Hp Hsel Hc) as (inputs & dc & sets & He).
  pose proof (Rules.decide_known_target _ _ _ _ _ _ _ _ _ _ He Hd) as Hk. rewrite Ha, !view_elem in Hk.
  assert (Hg : Rules.d_group_name d ∈ names (items (toml_array_in profile (str "policy_group")))).
  { destruct Hk as [[E _]|[[_ Hg]|Hg]]; [discriminate|exact Hg|].
    rewrite !elem_of_cons, elem_of_nil in Hg. intuition discriminate. }
  destruct (reachable_described _ _ _ _ Hwf Hsel Hr) as [Hm Hdesc].
  destruct (described_group _ _ m _ Hdesc Hg) as (i & g & item & Hf & _ & (t & Et & _ & _ & Emem & Hmem) & Ef).
  destruct (select_ok m _ network target source now i g Hm Hf) as [(c & s & r & Hin & _ & E & _)|[Hx _]]; [|congruence].
  rewrite list.Forall_forall in Hmem. destruct (Hmem c Hin) as [Hfind _].
  eexists (c_name c), _, (c_config c), t. split_and!; [exact E|congruence| |exact Hfind].
  rewrite (omap_map_Some _ _ _ Emem). apply list_elem_of_In, List.in_map, list_elem_of_In, Hin.
Qed.

(** ** Facts: selections between refreshes *)

(** What selections leave alone. *)
Definition settled g : bytes * bytes * list (ch_policy_chain_state D) := (g_name g, g_type g, g_chains g).

Inductive selection : ch_policy_manager D -> ch_policy_manager D -> Prop :=
| selection_step m group network target source now chain m' :
    ch_policy_manager_select m group network target source now = Done (chain, m') -> selection m m'.

Lemma select_inv m group network target source now chain m' :
  ch_policy_manager_select m (Some group) (Some network) (Some target) (Some source) now = Done (chain, m') ->
  exists i g s r c, find_group group 0 (groups m) = Some (i, g) /\ groups m !! i = Some g /\
    ch_policy_choose_locked g network target source = Done (s, r) /\
    (k ← s; g_chains g !! k) = Some c /\ chain = c_name c /\
    m' = with_groups m (<[i := ch_policy_set_selection_locked g s r now]> (groups m)).
Proof.
  unfold ch_policy_manager_select. destruct (find_group group 0 (groups m)) as [[i g]|] eqn:Ef; [|discriminate].
  pose proof (find_group_spec _ _ _ _ _ Ef) as (j & -> & Hj & _).
  destruct (ch_policy_choose_locked g network target source) as [[s r]| |] eqn:Es; [|discriminate..]. cbn [mbind outcome_bind].
  destruct (k ← s; g_chains g !! k) as [c|] eqn:Ec; [|discriminate]. destruct (_ && _); [discriminate|].
  intros [= <- <-]. exists j, g, s, r, c. split_and!; auto.
Qed.

Lemma selection_settled m m' : selection m m' -> map settled (groups m') = map settled (groups m).
Proof.
  intros [m0 [gn|] [nw|] [tg|] [src|] now chain m1 Hs]; try discriminate.
  apply select_inv in Hs as (i & g & s & r & c & _ & Hi & _ & _ & _ & ->). cbn.
  change (settled <$> <[i := ch_policy_set_selection_locked g s r now]> (groups m0) = settled <$> groups m0).
  rewrite list_fmap_insert. apply list_insert_id. rewrite list_lookup_fmap, Hi. reflexivity.
Qed.

Lemma selections_settled m m' : rtc selection m m' -> map settled (groups m') = map settled (groups m).
Proof. induction 1 as [m|m m1 m2 Hs _ IH]; [reflexivity|]. rewrite IH. apply selection_settled, Hs. Qed.

Lemma find_group_settled name k gs gs' i g :
  map settled gs' = map settled gs -> find_group name k gs = Some (i, g) ->
  exists g', find_group name k gs' = Some (i, g') /\ settled g' = settled g.
Proof.
  revert k gs'. induction gs as [|x gs IH]; intros k [|x' gs'] E; try discriminate.
  cbn [map] in E. injection E as En Et Ec E. cbn [find_group]. rewrite En.
  destruct (beq (g_name x) name); [|apply IH, E]. intros [= <- <-]. exists x'. split; [reflexivity|].
  unfold settled. congruence.
Qed.

Lemma balance_settled g g' network network' target source :
  g_type g = str "load-balance" -> settled g' = settled g -> map tolower network' = map tolower network ->
  ch_policy_choose_locked g' network' target source = ch_policy_choose_locked g network target source.
Proof.
  unfold settled. intros Ht [= _ Et Ec] Hn. rewrite Ht in Et. unfold ch_policy_choose_locked, choose_by_latency.
  unfold ch_policy_first_eligible, ch_policy_lowest_latency. rewrite Ht, Et, Ec.
  assert (Hu : strcaseeq network' (str "udp") = strcaseeq network (str "udp")) by (unfold strcaseeq; rewrite Hn; reflexivity).
  assert (Hh : ch_policy_fnv1a source network' target = ch_policy_fnv1a source network target) by (unfold ch_policy_fnv1a; rewrite Hn; reflexivity).
  rewrite Hu, Hh. reflexivity.
Qed.

(** Load balancing is stable.  Between two refreshes a load-balancing group
    sends the connections of a source to a target always over the same chain,
    whatever other connections select in between, and however the network is
    capitalised. *)
Theorem load_balance_stable m m' group network network' target source now now' chain chain' m1 m2 i g :
  find_group group 0 (groups m) = Some (i, g) -> g_type g = str "load-balance" ->
  map tolower network' = map tolower network ->
  ch_policy_manager_select m (Some group) (Some network) (Some target) (Some source) now = Done (chain, m1) ->
  rtc selection m1 m' ->
  ch_policy_manager_select m' (Some group) (Some network') (Some target) (Some source) now' = Done (chain', m2) ->
  chain' = chain.
Proof.
  intros Hf Ht Hn H2 Hs H3. pose proof (selection_step _ _ _ _ _ _ _ _ H2) as Hstep.
  pose proof (selections_settled m m' (rtc_l _ _ _ _ Hstep Hs)) as E.
  destruct (find_group_settled _ _ _ _ _ _ E Hf) as (g' & Hf' & Hg').
  apply select_inv in H2 as (i2 & g2 & s2 & r2 & c2 & Hf2 & _ & Hc2 & Hs2 & -> & _).
  apply select_inv in H3 as (i3 & g3 & s3 & r3 & c3 & Hf3 & _ & Hc3 & Hs3 & -> & _).
  rewrite Hf in Hf2. injection Hf2 as <- <-. rewrite Hf' in Hf3. injection Hf3 as <- <-.
  rewrite (balance_settled g g' network network' target source Ht Hg' Hn), Hc2 in Hc3. injection Hc3 as <- <-.
  unfold settled in Hg'. injection Hg' as _ _ Ec. rewrite Ec, Hs2 in Hs3. injection Hs3 as <-. reflexivity.
Qed.

(** ** Facts: the probe thread *)

(** A run of the thread from a time on: the groups that it probes, with
    selections in between.  The clock does not go back. *)
Inductive thread_run : ch_policy_manager D -> Z -> list nat -> ch_policy_manager D -> Z -> Prop :=
| run_nothing m now : thread_run m now [] m now
| run_selection m now m1 log m2 time :
    selection m m1 -> thread_run m1 now log m2 time -> thread_run m now log m2 time
| run_probe m now start stop i results now_real m1 m2 log m3 time :
    now <= start <= stop -> thread_pass m start = Done (m1, probe_group i) ->
    commit_results m1 i results now_real stop = Done m2 ->
    thread_run m2 stop log m3 time -> thread_run m now (i :: log) m3 time.

(** The first group is always due. *)
Definition busy_head m (now : Z) : Prop :=
  stop_requested m = false /\ exists g gs, groups m = g :: gs /\
    ch_policy_type_uses_health (g_type g) = true /\ interval_ns g = 0 /\ next_probe_ns g <= now.

Lemma busy_selection m m1 now : selection m m1 -> busy_head m now -> busy_head m1 now.
Proof.
  intros [m0 [gn|] [nw|] [tg|] [src|] t chain m2 Hs] (Hstop & g & gs & E & Hh & Hi & Hn); try discriminate.
  apply select_inv in Hs as (i & g' & s & r & c & _ & Hg & _ & _ & _ & ->). split; [exact Hstop|]. cbn. rewrite E in *.
  destruct i as [|i]; cbn in *.
  - injection Hg as <-. eexists _, _. split_and!; [reflexivity|assumption..].
  - eexists _, _. split_and!; [reflexivity|assumption..].
Qed.

Lemma busy_pass m now m1 action :
  busy_head m now -> thread_pass m now = Done (m1, action) -> action = probe_group 0 /\ busy_head m1 now.
Proof.
  intros (Hstop & g & gs & E & Hh & Hi & Hn). unfold thread_pass. rewrite Hstop, E. cbn [scan_due]. rewrite Hh. cbn [negb].
  replace (next_probe_ns g <=? now) with true by lia. unfold i64. destruct (_ && _) eqn:Er; [|discriminate].
  cbn. intros [= <- <-]. split; [reflexivity|]. split; [exact Hstop|].
  eexists _, _. split_and!; [reflexivity|exact Hh|exact Hi|]. cbn. lia.
Qed.

Lemma busy_commit m results now_real now stop m1 :
  busy_head m now -> commit_results m 0 results now_real stop = Done m1 -> busy_head m1 stop.
Proof.
  intros (Hstop & g & gs & E & Hh & Hi & Hn). unfold commit_results. rewrite E. cbn [list_lookup lookup].
  destruct (ch_policy_choose_locked _ _ _ _) as [[s r]| |]; [|discriminate..]. cbn [mbind outcome_bind].
  unfold i64. destruct (_ && _); [|discriminate]. cbn. intros [= <-]. split; [exact Hstop|].
  eexists _, _. split_and!; [reflexivity|exact Hh|exact Hi|]. cbn. lia.
Qed.

(** C40: (code bug) a group with interval 0 starves the others.  Validation accepts
    the interval [0s]; when the first group has it and is due, every pass of
    the probe thread takes it again, however long it runs and whatever is
    selected meanwhile: no other group is ever probed, and the thread never
    waits. *)
Theorem zero_interval_starves m now log m' time later :
  busy_head m now -> thread_run m now log m' time -> Z.max 0 time <= later <= INT64_MAX ->
  Forall (fun i => i = 0%nat) log /\ exists m'', thread_pass m' later = Done (m'', probe_group 0).
Proof.
  intros Hb Hr Hl.
  assert (Hfin : Forall (fun i => i = 0%nat) log /\ busy_head m' time).
  { revert Hb. clear Hl later. induction Hr as [m now|m now m1 log m2 time Hs _ IH|m now start stop i results nr m1 m2 log m3 time Ht Hp Hc _ IH];
      intros Hb.
    - auto.
    - apply IH. eapply busy_selection; eauto.
    - assert (Hb' : busy_head m start).
      { destruct Hb as (Hs & g & gs & E & Hh & Hi & Hn). split; [exact Hs|]. exists g, gs. split_and!; auto. lia. }
      destruct (busy_pass _ _ _ _ Hb' Hp) as [[= ->] Hb1]. destruct (IH (busy_commit _ _ _ _ _ _ Hb1 Hc)) as [Hl' Hb2].
      split; [constructor; auto|exact Hb2]. }
  destruct Hfin as [Hlog (Hstop & g & gs & E & Hh & Hi & Hn)]. split; [exact Hlog|].
  unfold thread_pass. rewrite Hstop, E. cbn [scan_due]. rewrite Hh. cbn [negb].
  replace (next_probe_ns g <=? later) with true by lia. unfold i64. rewrite Hi, Z.add_0_r.
  destruct ((INT64_MIN <=? later) && (later <=? INT64_MAX)) eqn:Er; [cbn; eauto|]. exfalso.
  revert Er. unfold INT64_MIN, INT64_MAX in *. lia.
Qed.

End Created.
(** ** Facts: the report *)

Section Reported.
Context `{Double}.

Definition result_value c (r : ch_policy_probe_result) : ch_json_value :=
  CH_JSON_OBJECT
    ((str "chain_name", text_value (c_name c))
     :: [(str "healthy", CH_JSON_BOOL (healthy r))]
     ++ (if negb (latency_ns r =? 0) then [(str "latency_ns", int_value (latency_ns r))] else [])
     ++ (if negb (status_code r =? 0) then [(str "status_code", int_value (status_code r))] else [])
     ++ (if negb (beq (probe_error r) []) then [(str "error", text_value (probe_error r))] else [])
     ++ (if negb (last_test_ts_ns r =? 0) then [(str "last_test_ts_ns", int_value (last_test_ts_ns r))] else [])
     ++ [(str "udp_capable", CH_JSON_BOOL (udp_capable c))]
     ++ (if negb (beq (default [] (udp_error c)) [])
         then [(str "udp_error", text_value (default [] (udp_error c)))] else [])).

Definition group_value g : ch_json_value :=
  CH_JSON_OBJECT
    ((str "name", text_value (g_name g))
     :: [(str "type", text_value (g_type g));
         (str "chains", CH_JSON_ARRAY (map (fun c => text_value (c_name c)) (g_chains g)));
         (str "selected", text_value (selected_chain g))]
     ++ (if hidden g then [(str "hidden", CH_JSON_BOOL true)] else [])
     ++ [(str "test_url", text_value (test_url g)); (str "interval", text_value (interval_label g));
         (str "timeout", text_value (timeout_label g)); (str "selected_chain", text_value (selected_chain g));
         (str "selection_mode", text_value (ch_policy_selection_mode (g_type g)));
         (str "selection_reason", text_value (selection_reason g))]
     ++ (if negb (updated_ts_ns g =? 0) then [(str "updated_ts_ns", int_value (updated_ts_ns g))] else [])
     ++ [(str "results", CH_JSON_ARRAY (map (fun '(c, r) => result_value c r) (tested g)))]).

Definition snapshot_value m (profile_name : bytes) : ch_json_value :=
  CH_JSON_OBJECT [(str "profile", text_value profile_name);
                  (str "groups", CH_JSON_ARRAY (map group_value (groups m)))].

(** The members of an object, one after the other. *)
Ltac object_text :=
  repeat first [rewrite object_members | rewrite rest_text_app | rewrite rest_text_if | rewrite rest_text_cons];
  unfold member_text, text_value, int_value, bool_text; cbn [fst snd print_value number_is_integer number_integer];
  same_text.

Lemma pair_writes grow k s : writes grow (all_of [append grow k; append_text grow s]) (k ++ print_string s).
Proof. eapply all_of_text; [collect|]. cbn. rewrite app_nil_r. reflexivity. Qed.

Lemma result_writes grow c r : writes grow (ch_policy_append_result grow c r) (print_value (result_value c r)).
Proof.
  unfold ch_policy_append_result, result_value.
  eapply all_of_text.
  - repeat first [apply Forall2_nil | apply Forall2_cons;
      [first [apply append_spec | apply append_text_spec | apply when_writes; first [apply append_spec | apply pair_writes]]|]].
  - object_text.
Qed.

Lemma group_writes grow g : writes grow (append_group grow g) (print_value (group_value g)).
Proof.
  destruct (append_list_writes grow (fun c => append_text grow (c_name c)) (fun c => print_string (c_name c)) (g_chains g))
    as [Hc _]; [apply Forall_forall; intros c _; apply append_text_spec|].
  destruct (append_list_writes grow (fun '(c, r) => ch_policy_append_result grow c r)
              (fun '(c, r) => print_value (result_value c r)) (tested g)) as [Hr _].
  { apply Forall_forall. intros [c r] _. apply result_writes. }
  unfold append_group, group_value. eapply all_of_text.
  - repeat first [apply Forall2_nil | apply Forall2_cons;
      [first [apply append_spec | apply append_text_spec | apply when_writes; apply append_spec | eassumption]|]].
  - assert (Er : map print_value (map (fun '(c, r) => result_value c r) (tested g))
                 = map (fun '(c, r) => print_value (result_value c r)) (tested g)).
    { rewrite List.map_map. apply List.map_ext. intros [c r]. reflexivity. }
    assert (Ec : map print_value (map (fun c => text_value (c_name c)) (g_chains g))
                 = map (fun c => print_string (c_name c)) (g_chains g)) by apply List.map_map.
    repeat first [rewrite object_members | rewrite rest_text_app | rewrite rest_text_if | rewrite rest_text_cons].
    unfold member_text. cbn [fst snd].
    change (print_value (CH_JSON_ARRAY ?l)) with ([91] ++ join (map print_value l) ++ [93]).
    rewrite Er, Ec. unfold text_value, int_value, bool_text. cbn [print_value number_is_integer number_integer]. same_text.
Qed.

Lemma snapshot_writes_value grow m profile_name :
  writes grow
    (all_of [append grow ([123] ++ quoted_key "profile"); append_text grow profile_name;
             append grow ([44] ++ quoted_key "groups" ++ [91]); append_list grow (append_group grow) true (groups m);
             append grow [93; 125]])
    (print_value (snapshot_value m profile_name)).
Proof.
  destruct (append_list_writes grow (append_group grow) (fun g => print_value (group_value g)) (groups m)) as [Hg _].
  { apply Forall_forall. intros g _. apply group_writes. }
  unfold snapshot_value. eapply all_of_text; [collect|]. unfold text_value. cbn [print_value map].
  rewrite List.map_map. same_text.
Qed.

(** A report has at most six levels. *)
Lemma snapshot_height m profile_name : height (snapshot_value m profile_name) <= 6.
Proof.
  assert (Hr : forall c r, height (result_value c r) <= 2).
  { intros c r. unfold result_value. repeat case_if; cbn; lia. }
  assert (Hg : forall g, height (group_value g) <= 4).
  { intros g. unfold group_value.
    assert (H1 : height (CH_JSON_ARRAY (map (fun c => text_value (c_name c)) (g_chains g))) <= 2).
    { cbn [height]. induction (g_chains g); cbn [map foldr]; [lia|]. cbn [height text_value] in *. lia. }
    assert (H2 : height (CH_JSON_ARRAY (map (fun '(c, r) => result_value c r) (tested g))) <= 3).
    { cbn [height]. induction (tested g) as [|[c r] l IH]; cbn [map foldr]; [lia|]. pose proof (Hr c r). lia. }
    repeat case_if; cbn [height map foldr app fst snd text_value int_value] in *; lia. }
  unfold snapshot_value. cbn [height map foldr fst snd text_value].
  assert (H1 : foldr Z.max 0 (map height (map group_value (groups m))) <= 4).
  { induction (groups m) as [|g gs IH]; cbn [map foldr]; [lia|]. pose proof (Hg g). lia. }
  lia.
Qed.

(** The report of the groups says what the manager holds.  With memory, the
    snapshot is a JSON text that parses back to the groups in order, each with
    its members, its selection and how it was made, and the result of every
    member that was probed (for texts that are C strings and 64-bit numbers). *)
Theorem policy_snapshot_parses grow m profile_name :
  (forall n, grow n = true) -> lenZ (print_value (snapshot_value m profile_name)) + 1 <= SIZE_MAX ->
  exact (snapshot_value m profile_name) ->
  exists text, ch_policy_manager_snapshot_json grow m (Some profile_name) = Done text /\
    ch_json_parse (Some text) = Done (snapshot_value m profile_name).
Proof.
  intros Hg Hs Hx. exists (print_value (snapshot_value m profile_name)). split.
  - apply (take_text_spec grow); [apply snapshot_writes_value|exact Hs|exact Hg].
  - apply parse_printed; [exact Hx|]. pose proof (snapshot_height m profile_name). lia.
Qed.

End Reported.

End Facts.

(** ** Witnesses *)

Import PlainInet PlainLongDouble Validity RulesConfig.

Definition w_group_of (name type interval : bytes) : toml_table unit :=
  mk_table [(str "name", w_str name); (str "type", w_str type); (str "interval", w_str interval)]
    [(str "chains", w_strings [str "main"; str "exit"])] [].

(** A smart group and a load-balancing one. *)
Definition w_policy_profile : toml_table unit :=
  w_profile_of (w_tables [w_group_of (str "auto") (str "smart") (str "0s");
                          w_group_of (str "spread") (str "load-balance") (str "30s")]) [].

Definition w_policy_config : ch_config (D := unit) := w_config w_policy_profile.

Definition w_manager : ch_policy_manager unit :=
  match ch_policy_manager_create w_policy_config None with
  | Done m => m
  | _ => mk_manager false false []
  end.

Definition w_results : list ch_policy_probe_result :=
  [mk_result true 90000000 204 7 []; mk_result true 20000000 204 7 []].

(** Both groups after their first probes. *)
Definition w_commit (m : ch_policy_manager unit) (i : nat) (now : Z) : ch_policy_manager unit :=
  match commit_results m i w_results 100 now with Done m' => m' | _ => m end.

Definition w_probed : ch_policy_manager unit := w_commit (w_commit w_manager 0 200) 1 300.

Lemma w_policy_wf : config_wf (root w_policy_config).
Proof. apply config_iff. vm_compute. reflexivity. Qed.

Lemma w_commit_step m i now g :
  groups m !! i = Some g -> length (g_chains g) = 2%nat ->
  commit_results m i w_results 100 now = Done (w_commit m i now) -> step m (w_commit m i now).
Proof.
  intros Hi Hl Hc. apply (step_commit m i g w_results 100 now _ Hi); [rewrite Hl; reflexivity| |exact Hc].
  repeat constructor; cbn; unfold INT64_MAX; lia.
Qed.

Lemma w_reachable_probed : reachable w_policy_config None w_probed.
Proof.
  exists w_manager. split; [vm_compute; reflexivity|].
  eapply rtc_l; [eapply (w_commit_step w_manager 0 200); vm_compute; reflexivity|].
  eapply rtc_l; [eapply (w_commit_step _ 1 300); vm_compute; reflexivity|]. apply rtc_refl.
Qed.

Definition w_smart : ch_policy_group_state unit :=
  match groups w_probed with g :: _ => g | [] => mk_group [] [] [] [] [] [] [] 0 0 0 0 false [] end.

Lemma policy_choice_refines_witness :
  exists s r, ch_policy_choose_locked w_smart (str "tcp") [] [] = Done (s, r) /\
    chosen w_smart (str "tcp") [] [] s r.
Proof.
  apply (policy_choice_refines w_policy_config None w_policy_profile w_probed w_smart);
    [exact w_policy_wf|reflexivity|exact w_reachable_probed|vm_compute; left].
Defined.

(** The exit is 70 ms faster: the smart group has moved to it. *)
Example w_smart_selected : selected_chain w_smart = str "exit" /\ selection_reason w_smart = str "better_latency".
Proof. vm_compute. auto. Qed.

Definition w_policy_engine : Rules.ch_rule_engine :=
  match ch_rule_engine_compile_config w_cache w_policy_config None with
  | Done e => e
  | _ => Rules.mk_engine [] [] false
  end.

Definition w_group_decision : Rules.ch_rule_decision :=
  match Rules.ch_rule_engine_decide (Some w_policy_engine) (Some w_context) 5 7 with
  | Done d => d
  | _ => Rules.mk_decision [] 0 [] [] [] [] [] [] [] [] false 0 [] [] []
  end.

Lemma group_decision_routes_witness :
  exists chain m', ch_policy_manager_select w_probed (Some (str "auto")) (Some (str "tcp"))
                     (Some (str "www.example:443")) (Some []) 400 = Done (chain, m').
Proof.
  destruct (group_decision_routes w_cache w_policy_config None w_policy_profile w_policy_engine w_context 5 7
              w_group_decision w_probed (str "tcp") (str "www.example:443") [] 400 w_policy_wf eq_refl)
    as (chain & m' & c & t & E & _).
  - vm_compute. reflexivity.
  - vm_compute. reflexivity.
  - vm_compute. reflexivity.
  - exact w_reachable_probed.
  - reflexivity.
  - exists chain, m'. exact E.
Defined.

(** Other connections select in between. *)
Definition w_pick (m : ch_policy_manager unit) (network source : bytes) : bytes * ch_policy_manager unit :=
  match ch_policy_manager_select m (Some (str "spread")) (Some network) (Some (str "www.example:443"))
          (Some source) 500 with
  | Done r => r
  | _ => ([], m)
  end.

Definition w_between : ch_policy_manager unit :=
  snd (w_pick (snd (w_pick w_probed (str "tcp") (str "a"))) (str "tcp") (str "b")).

Definition w_started : ch_policy_manager unit := fst (ch_policy_manager_start w_manager None).

Lemma zero_interval_starves_witness :
  exists log m, thread_run w_started 10 log m 30 /\ length log = 2%nat /\ Forall (fun i => i = 0%nat) log.
Proof.
  set (round := fun m start stop =>
    match thread_pass m start with Done (m1, _) => w_commit m1 0 stop | _ => m end).
  assert (Hrun : thread_run w_started 10 [0%nat; 0%nat] (round (round w_started 10 20) 20 30) 30).
  { apply (run_probe _ 10 10 20 0 w_results 100 (fst (match thread_pass w_started 10 with Done r => r | _ => (w_started, leave) end))
             (round w_started 10 20)); [lia|vm_compute; reflexivity|vm_compute; reflexivity|].
    apply (run_probe _ 20 20 30 0 w_results 100 (fst (match thread_pass (round w_started 10 20) 20 with Done r => r | _ => (w_started, leave) end))
             (round (round w_started 10 20) 20 30)); [lia|vm_compute; reflexivity|vm_compute; reflexivity|].
    apply run_nothing. }
  exists [0%nat; 0%nat], (round (round w_started 10 20) 20 30). split; [exact Hrun|]. split; [reflexivity|].
  refine (proj1 (zero_interval_starves w_started 10 _ _ 30 40 _ Hrun _)); [|unfold INT64_MAX; lia].
  split; [reflexivity|]. exists (match groups w_started with g :: _ => g | [] => w_smart end), (tl (groups w_started)).
  split_and!; [vm_compute; reflexivity..|vm_compute; discriminate].
Defined.

Lemma policy_snapshot_parses_witness :
  exists text, ch_policy_manager_snapshot_json (fun _ => true) w_probed (Some (str "home")) = Done text /\
    ch_json_parse (Some text) = Done (snapshot_value w_probed (str "home")).
Proof.
  apply (policy_snapshot_parses (fun _ => true) w_probed (str "home")); [reflexivity|vm_compute; discriminate|].
  vm_compute. repeat first [exact I | reflexivity | discriminate | constructor].
Defined.

End Policy.
