(* ===== verification/Sha256.v ===== *)
(** * SHA-256 as the runtime computes it: [native/src/rule_feed.c]

    The names of cache files carry a hash of what they hold.  The context is
    fed in pieces; the digest is shown to be that of the whole message under
    the padding of the standard, however it was cut.  The compression of a
    block is the code's own and is compared with the standard on its published
    examples. *)

From S2P Require Import Prelude CLib.

Module Sha256.

(** ** The compression function *)

Definition feed_rotr32 (value count : Z) : Z :=
  u32 (Z.lor (Z.shiftr value count) (Z.shiftl value (32 - count))).

Definition feed_load_be32 (b : bytes) : Z :=
  Z.lor (Z.lor (Z.lor (Z.shiftl (byte_at b 0) 24) (Z.shiftl (byte_at b 1) 16))
           (Z.shiftl (byte_at b 2) 8)) (byte_at b 3).

Definition feed_store_be32 (value : Z) : bytes :=
  [u8 (Z.shiftr value 24); u8 (Z.shiftr value 16); u8 (Z.shiftr value 8); u8 value].

(** Four to a line, as in the source. *)
Definition constants : list Z :=
  [0x428a2f98; 0x71374491; 0xb5c0fbcf; 0xe9b5dba5] ++
  [0x3956c25b; 0x59f111f1; 0x923f82a4; 0xab1c5ed5] ++
  [0xd807aa98; 0x12835b01; 0x243185be; 0x550c7dc3] ++
  [0x72be5d74; 0x80deb1fe; 0x9bdc06a7; 0xc19bf174] ++
  [0xe49b69c1; 0xefbe4786; 0x0fc19dc6; 0x240ca1cc] ++
  [0x2de92c6f; 0x4a7484aa; 0x5cb0a9dc; 0x76f988da] ++
  [0x983e5152; 0xa831c66d; 0xb00327c8; 0xbf597fc7] ++
  [0xc6e00bf3; 0xd5a79147; 0x06ca6351; 0x14292967] ++
  [0x27b70a85; 0x2e1b2138; 0x4d2c6dfc; 0x53380d13] ++
  [0x650a7354; 0x766a0abb; 0x81c2c92e; 0x92722c85] ++
  [0xa2bfe8a1; 0xa81a664b; 0xc24b8b70; 0xc76c51a3] ++
  [0xd192e819; 0xd6990624; 0xf40e3585; 0x106aa070] ++
  [0x19a4c116; 0x1e376c08; 0x2748774c; 0x34b0bcb5] ++
  [0x391c0cb3; 0x4ed8aa4a; 0x5b9cca4f; 0x682e6ff3] ++
  [0x748f82ee; 0x78a5636f; 0x84c87814; 0x8cc70208] ++
  [0x90befffa; 0xa4506ceb; 0xbef9a3f7; 0xc67178f2].

(** The words of a block, [n] of them from [index] on. *)
Fixpoint load_words (n : nat) (block : bytes) : list Z :=
  match n with
  | O => []
  | S n' => feed_load_be32 block :: load_words n' (drop 4 block)
  end.

Definition word_at (words : list Z) (index : nat) : Z := default 0 (words !! index).

(** [n] rounds of the message schedule. *)
Fixpoint extend_words (n : nat) (words : list Z) : list Z :=
  match n with
  | O => words
  | S n' =>
      let index := length words in
      let first := word_at words (index - 15) in
      let second := word_at words (index - 2) in
      let sigma0 := Z.lxor (Z.lxor (feed_rotr32 first 7) (feed_rotr32 first 18)) (Z.shiftr first 3) in
      let sigma1 := Z.lxor (Z.lxor (feed_rotr32 second 17) (feed_rotr32 second 19)) (Z.shiftr second 10) in
      let next := u32 (word_at words (index - 16) + sigma0 + word_at words (index - 7) + sigma1) in
      extend_words n' (words ++ [next])
  end.

Record working : Type := mk_working { wa : Z; wb : Z; wc : Z; wd : Z; we : Z; wf : Z; wg : Z; wh : Z }.

Definition sha_round (v : working) (constant word : Z) : working :=
  let '(mk_working a b c d e f g h) := v in
  let big1 := Z.lxor (Z.lxor (feed_rotr32 e 6) (feed_rotr32 e 11)) (feed_rotr32 e 25) in
  let choose := Z.lxor (Z.land e f) (Z.land (u32 (Z.lnot e)) g) in
  let first := u32 (h + big1 + choose + constant + word) in
  let big0 := Z.lxor (Z.lxor (feed_rotr32 a 2) (feed_rotr32 a 13)) (feed_rotr32 a 22) in
  let majority := Z.lxor (Z.lxor (Z.land a b) (Z.land a c)) (Z.land b c) in
  let second := u32 (big0 + majority) in
  mk_working (u32 (first + second)) a b c (u32 (d + first)) e f g.

Fixpoint sha_rounds (v : working) (cs words : list Z) : working :=
  match cs, words with
  | k :: cs', w :: words' => sha_rounds (sha_round v k w) cs' words'
  | _, _ => v
  end.

(** The state after one block of 64 bytes. *)
Definition feed_sha256_transform (state : list Z) (block : bytes) : list Z :=
  let words := extend_words 48 (load_words 16 block) in
  let s index := word_at state index in
  let v := sha_rounds (mk_working (s 0%nat) (s 1%nat) (s 2%nat) (s 3%nat) (s 4%nat) (s 5%nat) (s 6%nat) (s 7%nat))
             constants words in
  [u32 (s 0%nat + wa v); u32 (s 1%nat + wb v); u32 (s 2%nat + wc v); u32 (s 3%nat + wd v);
   u32 (s 4%nat + we v); u32 (s 5%nat + wf v); u32 (s 6%nat + wg v); u32 (s 7%nat + wh v)].

(** ** The context *)

Record feed_sha256 : Type := mk_sha256 {
  sha_state : list Z;
  sha_bits : Z;
  sha_block : bytes;
  sha_used : Z
}.

Definition initial_state : list Z :=
  [0x6a09e667; 0xbb67ae85; 0x3c6ef372; 0xa54ff53a; 0x510e527f; 0x9b05688c; 0x1f83d9ab; 0x5be0cd19].

Definition feed_sha256_init : feed_sha256 := mk_sha256 initial_state 0 (replicate 64 0) 0.

(** The loop of [feed_sha256_update]; each round takes at least one byte. *)
Fixpoint update_loop (fuel : nat) (hash : feed_sha256) (data : bytes) : feed_sha256 :=
  match fuel with
  | O => hash
  | S fuel' =>
      if lenZ data =? 0 then hash
      else
        let available := 64 - sha_used hash in
        let take_length := if lenZ data <? available then lenZ data else available in
        let block := put (sha_block hash) (sha_used hash) (take (Z.to_nat take_length) data) in
        let used := sha_used hash + take_length in
        let data := drop (Z.to_nat take_length) data in
        if used =? 64
        then update_loop fuel' (mk_sha256 (feed_sha256_transform (sha_state hash) block) (sha_bits hash) block 0) data
        else update_loop fuel' (mk_sha256 (sha_state hash) (sha_bits hash) block used) data
  end.

Definition feed_sha256_update (hash : feed_sha256) (data : bytes) : feed_sha256 :=
  update_loop (length data)
    (mk_sha256 (sha_state hash) (u64 (sha_bits hash + lenZ data * 8)) (sha_block hash) (sha_used hash)) data.

(** The eight bytes of a length in bits, the highest first. *)
Definition be64 (bits : Z) : bytes :=
  map (fun index => u8 (Z.shiftr bits (8 * index))) [7; 6; 5; 4; 3; 2; 1; 0].

Definition zeros (n : Z) : bytes := replicate (Z.to_nat n) 0.

Definition feed_sha256_final (hash : feed_sha256) : bytes :=
  let bits := sha_bits hash in
  let block := put (sha_block hash) (sha_used hash) [128] in
  let used := sha_used hash + 1 in
  let '(state, block, used) :=
    if used >? 56 then
      let block := put block used (zeros (64 - used)) in
      (feed_sha256_transform (sha_state hash) block, block, 0)
    else (sha_state hash, block, used) in
  let block := put block used (zeros (56 - used)) in
  let block := put block 56 (be64 bits) in
  concat (map feed_store_be32 (feed_sha256_transform state block)).

(** ** The digest of a whole message

    The padding is that of the standard, stated on its own; the blocks are
    compressed by the code's transform. *)

(** The padded message: a one bit, zeros up to 8 bytes before the end of a
    block, and the length in bits. *)
Definition padded (message : bytes) : bytes :=
  message ++ [128] ++ zeros ((55 - lenZ message) mod 64) ++ be64 (lenZ message * 8).

(** The state after [n] blocks of a text. *)
Fixpoint compress (n : nat) (state : list Z) (text : bytes) : list Z :=
  match n with
  | O => state
  | S n' => compress n' (feed_sha256_transform state (take 64 text)) (drop 64 text)
  end.

Definition sha256 (message : bytes) : bytes :=
  let text := padded message in
  concat (map feed_store_be32 (compress (length text / 64) initial_state text)).

(** *** The published examples *)

Definition hex_text (digest : bytes) : bytes :=
  concat (map (fun b => [hex_digit (b / 16); hex_digit (b mod 16)]) digest).

Example sha256_abc :
  hex_text (feed_sha256_final (feed_sha256_update feed_sha256_init (str "abc")))
  = str "ba7816bf8f01cfea414140de5dae2223b00361a396177a9cb410ff61f20015ad".
Proof. vm_compute. reflexivity. Qed.

Example sha256_two_blocks :
  hex_text (feed_sha256_final (feed_sha256_update feed_sha256_init
    (str "abcdbcdecdefdefgefghfghighijhijkijkljklmklmnlmnomnopnopq")))
  = str "248d6a61d20638b8e5c026930c3e6039a33ce45964ff2167f6ecedd419db06c1".
Proof. vm_compute. reflexivity. Qed.

Example sha256_empty :
  hex_text (sha256 []) = str "e3b0c44298fc1c149afbf4c8996fb92427ae41e4649b934ca495991b7852b855".
Proof. vm_compute. reflexivity. Qed.

(** ** Facts *)

Lemma compress_app n k state a b :
  length a = (64 * n)%nat -> compress (n + k) state (a ++ b) = compress k (compress n state a) b.
Proof.
  revert state a. induction n as [|n IH]; intros state a Ha; cbn [compress Nat.add].
  - destruct a; [reflexivity|discriminate].
  - rewrite take_app_le, drop_app_le by lia. apply IH. rewrite length_drop. lia.
Qed.

Lemma compress_one state block : length block = 64%nat -> compress 1 state block = feed_sha256_transform state block.
Proof. intros Hb. cbn [compress]. rewrite firstn_all2 by lia. reflexivity. Qed.

(** Writing into a block. *)
Lemma put_take (l v : bytes) i n :
  0 <= i -> (Z.to_nat i <= length l)%nat -> n = (Z.to_nat i + length v)%nat ->
  take n (put l i v) = take (Z.to_nat i) l ++ v.
Proof.
  intros Hi Hl ->. unfold put. rewrite app_assoc. apply take_app_length'. rewrite length_app, length_take. lia.
Qed.

Lemma put_length (l v : bytes) i :
  0 <= i -> (Z.to_nat i + length v <= length l)%nat -> length (put l i v) = length l.
Proof. intros Hi Hl. unfold put. rewrite !length_app, length_take, length_drop. lia. Qed.

(** The context after the message [m], apart from the count of bits. *)
Definition holds (h : feed_sha256) (m : bytes) : Prop :=
  exists full rest n, m = full ++ rest /\ length full = (64 * n)%nat /\
    sha_state h = compress n initial_state full /\ sha_used h = lenZ rest /\ lenZ rest < 64 /\
    take (length rest) (sha_block h) = rest /\ length (sha_block h) = 64%nat.

Lemma holds_init : holds feed_sha256_init [].
Proof. exists [], [], 0%nat. split_and!; reflexivity. Qed.

(** A block that is full. *)
Lemma holds_block full rest n state v block :
  length full = (64 * n)%nat -> state = compress n initial_state full ->
  length (rest ++ v) = 64%nat -> block = rest ++ v ->
  feed_sha256_transform state block = compress (n + 1) initial_state (full ++ rest ++ v).
Proof. intros Hf -> Hl ->. rewrite compress_app by exact Hf. rewrite compress_one by exact Hl. reflexivity. Qed.

Lemma update_loop_holds fuel h m data :
  holds h m -> (length data <= fuel)%nat ->
  holds (update_loop fuel h data) (m ++ data) /\ sha_bits (update_loop fuel h data) = sha_bits h.
Proof.
  revert h m data. induction fuel as [|fuel IH]; intros h m data Hh Hf; cbn [update_loop].
  { destruct data; [rewrite app_nil_r; auto|cbn in Hf; lia]. }
  destruct (lenZ data =? 0) eqn:E0.
  { destruct data; [rewrite app_nil_r; auto|rewrite lenZ_cons in E0; pose proof (lenZ_nonneg data); lia]. }
  destruct Hh as (full & rest & n & -> & Hfull & Hst & Hu & Hlt & Hb & Hbl). pose proof (lenZ_nonneg data).
  pose proof (lenZ_nonneg rest). cbv zeta.
  set (t := if lenZ data <? 64 - sha_used h then lenZ data else 64 - sha_used h).
  assert (Ht : 1 <= t <= lenZ data /\ sha_used h + t <= 64 /\ (sha_used h + t <> 64 -> t = lenZ data)).
  { subst t. destruct (lenZ data <? 64 - sha_used h) eqn:E; lia. }
  set (piece := take (Z.to_nat t) data).
  assert (Hpl : length piece = Z.to_nat t) by (unfold piece; rewrite length_take; unfold lenZ in *; lia).
  assert (Hblock : take (length (rest ++ piece)) (put (sha_block h) (sha_used h) piece) = rest ++ piece).
  { rewrite put_take with (n := length (rest ++ piece)); [|lia|unfold lenZ in *; lia|rewrite length_app; unfold lenZ in *; lia].
    f_equal. replace (Z.to_nat (sha_used h)) with (length rest) by (unfold lenZ in *; lia). exact Hb. }
  assert (Hlen : length (put (sha_block h) (sha_used h) piece) = 64%nat).
  { rewrite put_length; [exact Hbl|lia|unfold lenZ in *; lia]. }
  assert (Hdata : data = piece ++ drop (Z.to_nat t) data) by (symmetry; apply take_drop).
  assert (Hrl : length (rest ++ piece) = Z.to_nat (sha_used h + t)) by (rewrite length_app; unfold lenZ in *; lia).
  assert (Hm : (full ++ rest) ++ data = (full ++ rest ++ piece) ++ drop (Z.to_nat t) data).
  { rewrite Hdata at 1. rewrite <- !app_assoc. reflexivity. }
  rewrite Hm.
  destruct (sha_used h + t =? 64) eqn:E64.
  - apply (IH (mk_sha256 _ _ _ _) (full ++ rest ++ piece) (drop (Z.to_nat t) data)); [|rewrite length_drop; unfold lenZ in *; lia].
    exists (full ++ rest ++ piece), [], (n + 1)%nat. cbn.
    assert (Hfull64 : rest ++ piece = put (sha_block h) (sha_used h) piece).
    { rewrite <- Hblock. rewrite firstn_all2; [reflexivity|]. rewrite Hlen, Hrl. lia. }
    split_and!; [rewrite app_nil_r; reflexivity| | | | | |exact Hlen]; try reflexivity; try lia.
    + rewrite length_app, Hfull, Hrl. lia.
    + eapply holds_block; [exact Hfull|exact Hst|rewrite Hrl; lia|congruence].
  - apply (IH (mk_sha256 _ _ _ _) (full ++ rest ++ piece) (drop (Z.to_nat t) data)); [|rewrite length_drop; unfold lenZ in *; lia].
    exists full, (rest ++ piece), n. cbn. rewrite lenZ_app. unfold lenZ in *. split_and!; auto; try lia.
Qed.

Lemma u64_bits a b : u64 (u64 a + b) = u64 (a + b).
Proof. unfold u64. rewrite Z.add_mod_idemp_l by lia. reflexivity. Qed.

(** The context after the message [m]. *)
Definition absorbed (h : feed_sha256) (m : bytes) : Prop := holds h m /\ sha_bits h = u64 (lenZ m * 8).

Lemma absorbed_init : absorbed feed_sha256_init [].
Proof. split; [apply holds_init|reflexivity]. Qed.

Lemma update_absorbed h m data : absorbed h m -> absorbed (feed_sha256_update h data) (m ++ data).
Proof.
  intros [Hh Hb]. unfold feed_sha256_update.
  destruct (update_loop_holds (length data)
    (mk_sha256 (sha_state h) (u64 (sha_bits h + lenZ data * 8)) (sha_block h) (sha_used h)) m data) as [H1 H2]; [exact Hh|lia|].
  split; [exact H1|]. rewrite H2. cbn [sha_bits]. rewrite Hb, u64_bits, lenZ_app. f_equal. lia.
Qed.

(** The length only matters modulo 2^64. *)
Lemma be64_u64 n : be64 (u64 n) = be64 n.
Proof.
  assert (Hb : forall i, 0 <= i -> i <= 7 -> u8 (Z.shiftr (u64 n) (8 * i)) = u8 (Z.shiftr n (8 * i))).
  { intros i H1 H2. unfold u8, u64. rewrite <- !Z.land_ones by lia. apply Z.bits_inj'. intros k Hk.
    rewrite !Z.land_spec, !Z.shiftr_spec, Z.land_spec by lia. rewrite !Z.testbit_ones_nonneg by lia.
    destruct (k <? 8) eqn:E; [|rewrite !andb_false_r; reflexivity]. replace (k + 8 * i <? 64) with true by lia.
    rewrite andb_true_r. reflexivity. }
  unfold be64. cbn [map]. rewrite !Hb by lia. reflexivity.
Qed.

Lemma be64_length n : length (be64 n) = 8%nat.
Proof. reflexivity. Qed.

Lemma put_end (l v : bytes) i :
  0 <= i -> (Z.to_nat i + length v = length l)%nat -> put l i v = take (Z.to_nat i) l ++ v.
Proof. intros Hi Hl. unfold put. rewrite drop_ge, app_nil_r by lia. reflexivity. Qed.

Lemma zeros_length n : length (zeros n) = Z.to_nat n.
Proof. apply length_replicate. Qed.

(** The bytes that the padding of a message with [r] bytes in its last block
    adds to that block, in one block or in two. *)
Lemma padded_tail full rest n :
  length full = (64 * n)%nat -> lenZ rest < 64 ->
  padded (full ++ rest) =
  if lenZ rest <=? 55
  then full ++ rest ++ [128] ++ zeros (55 - lenZ rest) ++ be64 (lenZ (full ++ rest) * 8)
  else full ++ (rest ++ [128] ++ zeros (63 - lenZ rest)) ++ zeros 56 ++ be64 (lenZ (full ++ rest) * 8).
Proof.
  intros Hf Hr. unfold padded. rewrite lenZ_app. pose proof (lenZ_nonneg rest).
  assert (Hm : (55 - (lenZ full + lenZ rest)) mod 64 = if lenZ rest <=? 55 then 55 - lenZ rest else 119 - lenZ rest).
  { assert (Hfz : lenZ full = 64 * Z.of_nat n) by (unfold lenZ; lia). destruct (lenZ rest <=? 55) eqn:E.
    - symmetry. apply (Z.mod_unique_pos _ _ (- Z.of_nat n)); lia.
    - symmetry. apply (Z.mod_unique_pos _ _ (- Z.of_nat n - 1)); lia. }
  rewrite Hm. destruct (lenZ rest <=? 55) eqn:E; [rewrite <- app_assoc; reflexivity|].
  assert (Hz : zeros (119 - lenZ rest) = zeros (63 - lenZ rest) ++ zeros 56).
  { unfold zeros. rewrite <- replicate_add. f_equal. lia. }
  rewrite Hz, <- !app_assoc. reflexivity.
Qed.

Lemma compress_blocks n k state a b :
  length a = (64 * n)%nat -> length b = (64 * k)%nat ->
  compress (length (a ++ b) / 64) state (a ++ b) = compress k (compress n state a) b.
Proof.
  intros Ha Hb. rewrite length_app, Ha, Hb, <- Nat.mul_add_distr_l, Nat.mul_comm, Nat.div_mul by lia.
  apply compress_app, Ha.
Qed.

Lemma final_absorbed h m : absorbed h m -> feed_sha256_final h = sha256 m.
Proof.
  intros [(full & rest & n & -> & Hf & Hst & Hu & Hlt & Hb & Hbl) Hbits]. pose proof (lenZ_nonneg rest) as Hr0.
  unfold sha256, feed_sha256_final. cbv zeta. rewrite (padded_tail full rest n Hf Hlt), Hbits, be64_u64.
  set (len8 := be64 (lenZ (full ++ rest) * 8)). pose proof (be64_length (lenZ (full ++ rest) * 8)) as Hl8. fold len8 in Hl8.
  assert (H1 : take (length rest + 1) (put (sha_block h) (sha_used h) [128]) = rest ++ [128]).
  { rewrite put_take with (n := (length rest + 1)%nat); [|lia|unfold lenZ in *; lia|unfold lenZ in *; cbn; lia].
    f_equal. replace (Z.to_nat (sha_used h)) with (length rest) by (unfold lenZ in *; lia). exact Hb. }
  assert (Hb1 : length (put (sha_block h) (sha_used h) [128]) = 64%nat).
  { rewrite put_length; [exact Hbl|lia|unfold lenZ in *; cbn; lia]. }
  set (block := put (sha_block h) (sha_used h) [128]) in *.
  destruct (lenZ rest <=? 55) eqn:E.
  - replace (sha_used h + 1 >? 56) with false by lia.
    assert (H2 : take 56 (put block (sha_used h + 1) (zeros (56 - (sha_used h + 1)))) = (rest ++ [128]) ++ zeros (55 - lenZ rest)).
    { rewrite put_take with (n := 56%nat); [|lia|unfold lenZ in *; lia|rewrite zeros_length; unfold lenZ in *; lia].
      replace (Z.to_nat (sha_used h + 1)) with (length rest + 1)%nat by (unfold lenZ in *; lia).
      rewrite H1, Hu. do 2 f_equal. lia. }
    rewrite put_end; [|lia|rewrite put_length, Hl8; [lia|lia|rewrite zeros_length; unfold lenZ in *; lia]].
    change (Z.to_nat 56) with 56%nat. rewrite H2, <- !app_assoc.
    rewrite (compress_blocks n 1); [|exact Hf|rewrite !length_app, zeros_length, Hl8; unfold lenZ in *; cbn; lia].
    rewrite compress_one by (rewrite !length_app, zeros_length, Hl8; unfold lenZ in *; cbn; lia). rewrite Hst. reflexivity.
  - replace (sha_used h + 1 >? 56) with true by lia.
    assert (H2 : put block (sha_used h + 1) (zeros (64 - (sha_used h + 1))) = rest ++ [128] ++ zeros (63 - lenZ rest)).
    { rewrite put_end; [|lia|rewrite zeros_length; unfold lenZ in *; lia].
      replace (Z.to_nat (sha_used h + 1)) with (length rest + 1)%nat by (unfold lenZ in *; lia).
      rewrite H1, Hu, <- app_assoc. do 3 f_equal. lia. }
    rewrite H2. set (one := rest ++ [128] ++ zeros (63 - lenZ rest)) in *.
    assert (Hone : length one = 64%nat).
    { unfold one. rewrite !length_app, zeros_length. unfold lenZ in *. cbn. lia. }
    assert (H3 : put (put one 0 (zeros (56 - 0))) 56 len8 = zeros 56 ++ len8).
    { rewrite put_end; [|lia|rewrite put_length, Hl8; [lia|lia|rewrite zeros_length; lia]].
      rewrite put_take with (n := Z.to_nat 56); [reflexivity|lia|lia|rewrite zeros_length; reflexivity]. }
    rewrite H3, app_assoc.
    rewrite (compress_blocks (n + 1) 1); [|rewrite length_app; lia|rewrite length_app, zeros_length, Hl8; reflexivity].
    rewrite compress_one by (rewrite length_app, zeros_length, Hl8; reflexivity).
    rewrite compress_app by exact Hf. rewrite compress_one by exact Hone. rewrite Hst. reflexivity.
Qed.

Lemma updates_absorbed pieces h m :
  absorbed h m -> absorbed (fold_left feed_sha256_update pieces h) (m ++ concat pieces).
Proof.
  revert h m. induction pieces as [|p pieces IH]; intros h m Hh; cbn [fold_left concat]; [rewrite app_nil_r; exact Hh|].
  rewrite app_assoc. apply IH, update_absorbed, Hh.
Qed.

(** *** Properties *)

(** C37: The digest does not depend on how the message is cut.  However many
    updates a message is fed in, and however they fall on the blocks, the
    digest is that of the whole message, padded as the standard says and
    compressed block by block (also when the length passes 2^64 bits). *)
Theorem sha256_streaming pieces :
  feed_sha256_final (fold_left feed_sha256_update pieces feed_sha256_init) = sha256 (concat pieces).
Proof. apply final_absorbed, (updates_absorbed pieces _ []), absorbed_init. Qed.

End Sha256.
