(* ===== verification/RuleFeed.v ===== *)
(** * Parsing of rule lists: [native/src/rule_feed.c], first half

    Lists of domains and address blocks are downloaded as text in one of three
    formats (plain, hosts, adblock).  Every entry is normalised and kept once;
    the two lists are sorted at the end.  Allocation is taken to succeed. *)

From stdpp Require Import sorting.
From S2P Require Import Prelude CLib Inet IpDns Rules HttpSafety.

(** [strtok_r]: the first token of a text and the text after it. *)
Fixpoint skip_delimiters (delimiter : Z -> bool) (s : bytes) : bytes :=
  match s with
  | c :: s' => if delimiter c then skip_delimiters delimiter s' else s
  | [] => []
  end.

Fixpoint token_of (delimiter : Z -> bool) (s : bytes) : bytes * bytes :=
  match s with
  | [] => ([], [])
  | c :: s' =>
      if delimiter c then ([], s') else let '(token, rest) := token_of delimiter s' in (c :: token, rest)
  end.

Definition strtok (delimiter : Z -> bool) (s : bytes) : option (bytes * bytes) :=
  match skip_delimiters delimiter s with
  | [] => None
  | t => Some (token_of delimiter t)
  end.

(** The text before the first byte of a set ([strcspn]). *)
Fixpoint span_not (stop : Z -> bool) (s : bytes) : bytes :=
  match s with
  | c :: s' => if stop c then [] else c :: span_not stop s'
  | [] => []
  end.

(** [strcmp], as an order on texts. *)
Fixpoint strcmp_le (a b : bytes) : bool :=
  match a, b with
  | [], _ => true
  | _ :: _, [] => false
  | x :: a', y :: b' => (x <? y) || ((x =? y) && strcmp_le a' b')
  end.

Definition text_le (a b : bytes) : Prop := strcmp_le a b = true.

#[export] Instance text_le_dec : RelDecision text_le.
Proof. intros a b. unfold text_le. apply _. Defined.

#[export] Instance text_le_total : Total text_le.
Proof.
  intros a. unfold text_le. induction a as [|x a IH]; intros [|y b]; cbn [strcmp_le]; auto.
  destruct (Z.compare_spec x y) as [->|H|H].
  - rewrite Z.eqb_refl, Z.ltb_irrefl. cbn. apply IH.
  - left. replace (x <? y) with true by lia. reflexivity.
  - right. replace (y <? x) with true by lia. reflexivity.
Qed.

#[export] Instance text_le_antisymm : AntiSymm (=) text_le.
Proof.
  intros a. unfold text_le. induction a as [|x a IH]; intros [|y b]; cbn [strcmp_le]; try discriminate; auto.
  rewrite !orb_true_iff, !andb_true_iff. intros [H1|[H1 H1']] [H2|[H2 H2']]; try lia.
  assert (x = y) as -> by lia. f_equal. apply IH; assumption.
Qed.

#[export] Instance text_le_trans : Transitive text_le.
Proof.
  intros a. unfold text_le. induction a as [|x a IH]; intros [|y b] [|z c]; cbn [strcmp_le]; try discriminate; auto.
  rewrite !orb_true_iff, !andb_true_iff. intros [H1|[H1 H1']] [H2|[H2 H2']]; [left; lia|left; lia|left; lia|].
  right. split; [lia|exact (IH _ _ H1' H2')].
Qed.

(** [strncmp(s, p, strlen(p)) == 0] without regard to case. *)
Definition case_prefix (p s : bytes) : bool := is_prefix (map tolower p) (map tolower s).

Module RuleFeed.
Import Dns.

Definition CH_RULE_FEED_MAX_BYTES : Z := 5 * 1024 * 1024.
Definition CH_RULE_FEED_MAX_ENTRIES : Z := 200000.

Record ch_rule_feed : Type := mk_rule_feed {
  format : bytes;
  domain_suffixes : list bytes;
  cidrs : list bytes;
  skipped : Z
}.

(** ** Lists of entries *)

Definition feed_strings_add_unique (strings : list bytes) (value : bytes) : result (list bytes) :=
  if existsb (fun item => beq item value) strings then Done strings
  else if lenZ strings >=? CH_RULE_FEED_MAX_ENTRIES then
    fail CH_ERROR_INVALID_ARGUMENT (str "rule feed has more than 200000 entries")
  else Done (strings ++ [value]).

(** [qsort] with [feed_string_compare]. *)
Definition feed_sort (strings : list bytes) : list bytes := merge_sort text_le strings.

(** ** Entries *)

Section Entries.
Context `{Inet}.

Definition feed_is_ip_address (text : bytes) : bool :=
  bool_decide (is_Some (pton4 text)) || bool_decide (is_Some (pton6 text)).

Definition strip_final_dot (value : bytes) : bytes :=
  if (lenZ value >? 0) && (byte_at value (lenZ value - 1) =? 46) then sub value 0 (lenZ value - 1) else value.

Definition label_char (byte : Z) : bool :=
  ((97 <=? byte) && (byte <=? 122)) || ((48 <=? byte) && (byte <=? 57)) || (byte =? 45) || (byte =? 95).

(** A label that the loop accepts. *)
Definition label_valid (label : bytes) : bool :=
  negb (lenZ label =? 0) && negb (byte_at label 0 =? 45) && negb (byte_at label (lenZ label - 1) =? 45)
  && forallb label_char label.

(** The loop over the labels from [cursor] on; [None] is [valid == 0].  Each
    round takes at least one byte. *)
Fixpoint labels_loop (fuel : nat) (cursor : bytes) (labels : Z) : option Z :=
  match fuel with
  | O => None
  | S fuel' =>
      match cursor with
      | [] => Some labels
      | _ =>
          let '(label, rest) := match split_first 46 cursor with
                                | Some (label, rest) => (label, rest)
                                | None => (cursor, [])
                                end in
          if label_valid label then labels_loop fuel' rest (labels + 1) else None
      end
  end.

Definition feed_normalize_domain (raw : option bytes) : option bytes :=
  raw ← raw;
  let value := trim raw in
  let value := if (lenZ value >=? 2) && (byte_at value 0 =? 91) && (byte_at value (lenZ value - 1) =? 93)
               then sub value 1 (lenZ value - 2) else value in
  let value := if is_prefix (str "*.") value then drop 2 value else value in
  let value := strip_final_dot value in
  let value := map tolower value in
  if (lenZ value >? 0) && negb (byte_at value 0 =? 46) && negb (contains value (str ".."))
     && negb (feed_is_ip_address value)
  then
    labels ← labels_loop (S (length value)) value 0;
    if labels <? 2 then None else Some value
  else None.

(** The loop that clears the bits of a host. *)
Fixpoint mask_address (address : bytes) (remaining : Z) : bytes :=
  match address with
  | [] => []
  | byte :: address' =>
      let taken := if remaining >=? 8 then 8 else remaining in
      let mask := if taken =? 0 then 0 else u32 (Z.shiftl 255 (8 - taken)) in
      u8 (Z.land byte mask) :: mask_address address' (remaining - taken)
  end.

(** The text before the last slash and the prefix after it, -1 without one. *)
Definition split_prefix (value : bytes) : option (bytes * Z) :=
  match split_last 47 value with
  | None => Some (value, -1)
  | Some (address, digits) =>
      let parsed := strtol digits in
      if scan_range parsed || negb (scan_any parsed) || negb (beq (scan_rest parsed) [])
         || (scan_value parsed <? 0) || (scan_value parsed >? 128)
      then None else Some (address, scan_value parsed)
  end.

Definition feed_normalize_cidr (raw : bytes) : option bytes :=
  '(value, prefix) ← split_prefix (trim raw);
  '(family, address) ← Rules.parse_ip value;
  let bits := match family with AF_INET => 32 | AF_INET6 => 128 end in
  let prefix := if prefix <? 0 then bits else prefix in
  if prefix >? bits then None
  else
    let address := mask_address address prefix in
    let encoded := match family with AF_INET => ntop4 address | AF_INET6 => ntop6 address end in
    Some (encoded ++ [47] ++ dec prefix).

Definition authority_end (c : Z) : bool := (c =? 47) || (c =? 63) || (c =? 35).

Definition feed_url_hostname (url : bytes) : option bytes :=
  start ← HttpSafety.after (str "://") url;
  let authority := span_not authority_end start in
  let authority := match split_first 64 authority with Some (_, rest) => rest | None => authority end in
  match authority with
  | [] => None
  | c :: rest =>
      if c =? 91 then '(host, _) ← split_first 93 rest; Some host
      else match split_first 58 authority with Some (host, _) => Some host | None => Some authority end
  end.

Definition quote (c : Z) : bool := (c =? 39) || (c =? 34).

Definition drop_final (c : Z) (token : bytes) : bytes :=
  if (lenZ token >? 0) && (byte_at token (lenZ token - 1) =? c) then sub token 0 (lenZ token - 1) else token.

(** The token without quotes, anchors, a wildcard and final marks. *)
Definition strip_token (raw : bytes) : bytes :=
  let token := skip_delimiters quote (trim raw) in
  let token := reverse (skip_delimiters quote (reverse token)) in
  let token := if is_prefix (str "||") token then drop 2 token
               else if byte_at token 0 =? 124 then drop 1 token else token in
  let token := if is_prefix (str "*.") token then drop 2 token else token in
  drop_final 46 (drop_final 94 token).

(** The two lists that the parser fills. *)
Record entries : Type := mk_entries { domains : list bytes; blocks : list bytes }.

Definition no_entries : entries := mk_entries [] [].
Definition entry_count (lists : entries) : Z := lenZ (domains lists) + lenZ (blocks lists).

Definition add_domain (lists : entries) (domain : bytes) : result entries :=
  items ← feed_strings_add_unique (domains lists) domain; Done (mk_entries items (blocks lists)).
Definition add_block (lists : entries) (block : bytes) : result entries :=
  items ← feed_strings_add_unique (blocks lists) block; Done (mk_entries (domains lists) items).

(** [CH_ERROR_NOT_FOUND] is returned without an error text. *)
Definition not_found : ch_error := mk_error CH_ERROR_NOT_FOUND [].

Definition feed_add_token (lists : entries) (raw : bytes) : result entries :=
  let token := strip_token raw in
  match feed_normalize_cidr token with
  | Some block => add_block lists block
  | None =>
      let host := if case_prefix (str "http://") token || case_prefix (str "https://") token
                  then feed_url_hostname token else Some token in
      match feed_normalize_domain host with
      | Some domain => add_domain lists domain
      | None => Raise not_found
      end
  end.

(** ** Formats *)

Definition blank (c : Z) : bool := (c =? 32) || (c =? 9) || (c =? 13).

Definition feed_detect_hosts (line : bytes) : bool :=
  match strtok blank line with
  | Some (first, rest) =>
      match strtok blank rest with Some _ => feed_is_ip_address first | None => false end
  | None => false
  end.

Definition newline (c : Z) : bool := c =? 10.

(** A line that decides the format, if it does. *)
Definition line_format (line : bytes) : option bytes :=
  let line := trim line in
  if beq line [] || (byte_at line 0 =? 33) || (byte_at line 0 =? 35) then None
  else if is_prefix (str "||") line || contains line (str "##") || is_prefix (str "@@") line
  then Some (str "adblock")
  else if feed_detect_hosts line then Some (str "hosts") else None.

(** The loops over the lines of a document; each round takes a byte. *)
Fixpoint detect_loop (fuel : nat) (body : bytes) : bytes :=
  match fuel with
  | O => str "plain"
  | S fuel' =>
      match strtok newline body with
      | None => str "plain"
      | Some (line, rest) =>
          match line_format line with Some result => result | None => detect_loop fuel' rest end
      end
  end.

Definition feed_detect_format (body : bytes) : bytes := detect_loop (S (length body)) body.

(** The loop over the tokens of a line; [accepted] counts the entries. *)
Fixpoint tokens_loop (fuel : nat) (hosts : bool) (line : bytes) (index accepted : Z) (lists : entries)
    : result (entries * Z) :=
  match fuel with
  | O => Done (lists, accepted)
  | S fuel' =>
      match strtok blank line with
      | None => Done (lists, accepted)
      | Some (token, save) =>
          if hosts && (index =? 0) && feed_is_ip_address token && negb (beq (skip_space save) [])
          then tokens_loop fuel' hosts save (index + 1) accepted lists
          else
            match feed_add_token lists token with
            | Done lists => tokens_loop fuel' hosts save (index + 1) (accepted + 1) lists
            | Raise e =>
                if bool_decide (code e = CH_ERROR_NOT_FOUND)
                then tokens_loop fuel' hosts save (index + 1) accepted lists
                else Raise e
            | Fault => Fault
            end
      end
  end.

(** The lists after a line, and whether the line was usable. *)
Definition feed_parse_plain (line : bytes) (hosts : bool) (lists : entries) : result (entries * bool) :=
  if (byte_at line 0 =? 35) || (byte_at line 0 =? 33) then Done (lists, true)
  else
    let line := match split_first 35 line with Some (text, _) => text | None => line end in
    let line := trim line in
    if beq line [] then Done (lists, true)
    else
      '(lists, accepted) ← tokens_loop (S (length line)) hosts line 0 0 lists;
      Done (lists, accepted >? 0).

Definition anchor_end (c : Z) : bool :=
  (c =? 94) || (c =? 47) || (c =? 58) || (c =? 63) || (c =? 38) || (c =? 124).

(** A domain that a filter names, or a line that cannot be used. *)
Definition add_filter (lists : entries) (host : option bytes) : result (entries * bool) :=
  match feed_normalize_domain host with
  | None => Done (lists, false)
  | Some domain => lists ← add_domain lists domain; Done (lists, true)
  end.

Definition feed_parse_adblock (line : bytes) (lists : entries) : result (entries * bool) :=
  let line := trim line in
  if beq line [] || (byte_at line 0 =? 33) || (byte_at line 0 =? 91) || is_prefix (str "@@") line
     || contains line (str "##") || contains line (str "#@#") || contains line (str "#$#")
  then Done (lists, true)
  else if (lenZ line >=? 2) && (byte_at line 0 =? 47) && (byte_at line (lenZ line - 1) =? 47)
  then Done (lists, false)
  else
    let line := match split_first 36 line with Some (text, _) => text | None => line end in
    if is_prefix (str "||") line then add_filter lists (Some (span_not anchor_end (drop 2 line)))
    else if is_prefix (str "|http://") line || is_prefix (str "|https://") line
    then add_filter lists (feed_url_hostname (drop 1 line))
    else feed_parse_plain line false lists.

(** ** A document *)

(** The requested format: trimmed, in lower case, and cut to 7 bytes. *)
Definition normalized_format (format : option bytes) : bytes :=
  match format with
  | None => str "auto"
  | Some format =>
      match map tolower (take 7 (trim format)) with [] => str "auto" | text => text end
  end.

Definition bom : bytes := [239; 187; 191].

Definition too_many : result (entries * Z) :=
  fail CH_ERROR_INVALID_ARGUMENT (str "rule feed has more than 200000 entries").

(** The loop over the lines of a document. *)
Fixpoint lines_loop (fuel : nat) (format : bytes) (document : bytes) (lists : entries) (skipped : Z)
    : result (entries * Z) :=
  match fuel with
  | O => Done (lists, skipped)
  | S fuel' =>
      match strtok newline document with
      | None => Done (lists, skipped)
      | Some (line, rest) =>
          let line := trim line in
          let line := if is_prefix bom line then drop 3 line else line in
          if beq line [] then lines_loop fuel' format rest lists skipped
          else
            '(lists, usable) ← (if beq format (str "adblock") then feed_parse_adblock line lists
                                else feed_parse_plain line (beq format (str "hosts")) lists);
            let skipped := if (usable : bool) then skipped else skipped + 1 in
            if entry_count lists >? CH_RULE_FEED_MAX_ENTRIES then too_many
            else lines_loop fuel' format rest lists skipped
      end
  end.

(** [body] holds [length] bytes; the copy of it is read as a C string. *)
Definition ch_rule_feed_parse (body : bytes) (format : option bytes) : result ch_rule_feed :=
  if lenZ body >? CH_RULE_FEED_MAX_BYTES then
    fail CH_ERROR_INVALID_ARGUMENT (str "rule feed exceeds 5242880 bytes")
  else
    let document := until_nul body in
    let format := normalized_format format in
    let format := if beq format (str "auto") then feed_detect_format document else format in
    if negb (beq format (str "plain")) && negb (beq format (str "hosts")) && negb (beq format (str "adblock"))
    then fail CH_ERROR_INVALID_ARGUMENT (str "rule feed format must be auto, plain, hosts, or adblock")
    else
      '(lists, skipped) ← lines_loop (S (length document)) format document no_entries 0;
      if entry_count lists =? 0 then fail CH_ERROR_PARSE (str "rule feed produced no usable entries")
      else Done (mk_rule_feed format (feed_sort (domains lists)) (feed_sort (blocks lists)) skipped).

(** ** Names of domains *)

(** Labels with a dot between them. *)
Fixpoint dots (labels : list bytes) : bytes :=
  match labels with
  | [] => []
  | [label] => label
  | label :: labels' => label ++ [46] ++ dots labels'
  end.

(** A name of at least two labels, each of letters in lower case, digits,
    hyphens and underscores, without a hyphen at an end. *)
Definition name_of (labels : list bytes) (name : bytes) : Prop :=
  Forall (fun label => label_valid label = true) labels /\ (2 <= length labels)%nat /\ name = dots labels.

(** The canonical form of a domain: such a name that is not an address. *)
Definition canonical_domain (name : bytes) : Prop :=
  (exists labels, name_of labels name) /\ feed_is_ip_address name = false.

Lemma label_valid_facts label :
  label_valid label = true ->
  label <> [] /\ Forall (fun c => label_char c = true) label /\ byte_at label 0 <> 45.
Proof.
  unfold label_valid. rewrite !andb_true_iff, !negb_true_iff. intros [[[H1 H2] _] H3]. split_and!.
  - intros ->. discriminate.
  - apply Forall_forall. apply forallb_forall, H3.
  - lia.
Qed.

Lemma label_no_dot label : label_valid label = true -> 46 ∉ label.
Proof.
  intros Hl Hin. apply label_valid_facts in Hl as (_ & Hc & _). rewrite Forall_forall in Hc.
  apply list_elem_of_In, Hc in Hin. discriminate.
Qed.

(** Enough fuel for the rest of the labels. *)
Lemma labels_loop_sound fuel cursor n m :
  labels_loop fuel cursor n = Some m ->
  exists labels, Forall (fun label => label_valid label = true) labels /\ m = n + lenZ labels /\
    (cursor = dots labels \/ (labels <> [] /\ cursor = dots labels ++ [46])).
Proof.
  revert cursor n. induction fuel as [|fuel IH]; intros cursor n; cbn [labels_loop]; [discriminate|].
  destruct cursor as [|c cursor]; [intros [= <-]; exists []; split_and!; auto; rewrite lenZ_nil; lia|].
  destruct (split_first 46 (c :: cursor)) as [[label rest]|] eqn:E.
  - apply split_first_Some in E as [E Hd]. destruct (label_valid label) eqn:Hv; [|discriminate]. intros Hl.
    destruct (IH _ _ Hl) as (labels & Hf & -> & Hc). exists (label :: labels). rewrite lenZ_cons, E.
    split_and!; [constructor; assumption|lia|]. destruct labels as [|l2 labels].
    + destruct Hc as [->|[H0 _]]; [|contradiction]. right. split; [discriminate|reflexivity].
    + change (dots (label :: l2 :: labels)) with (label ++ [46] ++ dots (l2 :: labels)).
      destruct Hc as [->|[_ ->]]; [left; reflexivity|right]. split; [discriminate|]. rewrite <- !app_assoc. reflexivity.
  - destruct (label_valid (c :: cursor)) eqn:Hv; [|discriminate]. intros Hl.
    destruct (IH _ _ Hl) as (labels & Hf & -> & Hc). exists [c :: cursor]. split_and!; [constructor; auto| |left; reflexivity].
    destruct labels as [|l labels]; [rewrite lenZ_cons, !lenZ_nil; lia|]. inversion_clear Hf as [|? ? Hl1 _].
    apply label_valid_facts in Hl1 as (Hne & _). exfalso. destruct Hc as [Hc|[_ Hc]].
    + destruct labels; cbn [dots] in Hc; [congruence|]. destruct l; [congruence|discriminate].
    + apply (f_equal length) in Hc. rewrite length_app in Hc. cbn in Hc. lia.
Qed.

Lemma labels_loop_complete labels fuel n :
  Forall (fun label => label_valid label = true) labels -> (length (dots labels) < fuel)%nat ->
  labels_loop fuel (dots labels) n = Some (n + lenZ labels).
Proof.
  revert fuel n. induction labels as [|l labels IH]; intros fuel n Hf Hl; (destruct fuel as [|fuel]; [lia|]).
  { cbn. f_equal. rewrite lenZ_nil. lia. }
  inversion_clear Hf as [|? ? Hv Hf']. pose proof (label_no_dot _ Hv) as Hd.
  pose proof (proj1 (label_valid_facts _ Hv)) as Hne. rewrite lenZ_cons. destruct labels as [|l2 labels].
  - cbn [dots labels_loop]. destruct l as [|c l]; [congruence|].
    assert (E : split_first 46 (c :: l) = None) by (apply split_first_None; exact Hd). rewrite E, Hv.
    destruct fuel; [cbn in Hl; lia|]. reflexivity.
  - change (dots (l :: l2 :: labels)) with (l ++ 46 :: dots (l2 :: labels)) in *. cbn [labels_loop].
    destruct (l ++ 46 :: dots (l2 :: labels)) as [|c r] eqn:E; [destruct l; discriminate|]. rewrite <- E.
    rewrite split_first_app by exact Hd. rewrite Hv, IH; [f_equal; lia|exact Hf'|].
    rewrite <- E, length_app in Hl. cbn [length] in Hl. lia.
Qed.

(** The last byte, and the text before it. *)
Lemma last_byte s c : byte_at (s ++ [c]) (lenZ (s ++ [c]) - 1) = c.
Proof. rewrite lenZ_app, byte_at_app_r by (rewrite lenZ_cons, lenZ_nil; lia). rewrite lenZ_cons, lenZ_nil.
  replace (lenZ s + (1 + 0) - 1 - lenZ s) with 0 by lia. reflexivity. Qed.

Lemma before_last (s : bytes) c : sub (s ++ [c]) 0 (lenZ (s ++ [c]) - 1) = s.
Proof.
  replace (lenZ (s ++ [c]) - 1) with (lenZ s) by (unfold lenZ; rewrite length_app; cbn [length]; lia).
  pose proof (lenZ_nonneg s). rewrite sub_app_l, sub_full by lia. reflexivity.
Qed.

Lemma drop_final_last c s : drop_final c (s ++ [c]) = s.
Proof.
  unfold drop_final. rewrite last_byte, before_last, Z.eqb_refl.
  replace (lenZ (s ++ [c]) >? 0) with true; [reflexivity|]. unfold lenZ. rewrite length_app. cbn [length]. symmetry. apply Z.gtb_lt. lia.
Qed.

Lemma drop_final_other c s d : d <> c -> drop_final c (s ++ [d]) = s ++ [d].
Proof. intros Hd. unfold drop_final. rewrite last_byte. replace (d =? c) with false by lia. rewrite andb_false_r. reflexivity. Qed.

Lemma trim_no_space s : Forall (fun c => isspace c = false) s -> trim s = s.
Proof.
  unfold trim. destruct s as [|c s]; [reflexivity|]. intros Hs. inversion_clear Hs as [|? ? Hc Hs'].
  rewrite skip_space_head by exact Hc. revert c Hc. induction Hs' as [|d s Hd Hs IH]; intros c Hc.
  - cbn [trim_right]. rewrite Hc. reflexivity.
  - change (trim_right (c :: d :: s)) with (match trim_right (d :: s) with [] => if isspace c then [] else [c] | r => c :: r end).
    rewrite (IH d Hd). reflexivity.
Qed.

(** The bytes of a name. *)
Definition name_char (c : Z) : bool := label_char c || (c =? 46).

Lemma dots_chars labels :
  Forall (fun label => label_valid label = true) labels -> Forall (fun c => name_char c = true) (dots labels).
Proof.
  assert (Hl : forall label, label_valid label = true -> Forall (fun c => name_char c = true) label).
  { intros label Hv. apply label_valid_facts in Hv as (_ & Hc & _). eapply List.Forall_impl; [|exact Hc].
    intros c Hc'. unfold name_char. rewrite Hc'. reflexivity. }
  induction 1 as [|l labels Hv Hf IH]; [constructor|]. destruct labels as [|l2 labels]; [apply Hl, Hv|].
  change (dots (l :: l2 :: labels)) with (l ++ [46] ++ dots (l2 :: labels)).
  apply Forall_app. split; [apply Hl, Hv|]. constructor; [reflexivity|exact IH].
Qed.

(** A name begins and ends with a byte of a label. *)
Lemma dots_edges labels :
  Forall (fun label => label_valid label = true) labels -> labels <> [] ->
  (exists c s, dots labels = c :: s /\ label_char c = true) /\ (exists s c, dots labels = s ++ [c] /\ label_char c = true).
Proof.
  induction 1 as [|l labels Hv Hf IH]; [congruence|]. intros _.
  pose proof (label_valid_facts _ Hv) as (Hne & Hc & _).
  assert (Hfirst : exists c s, l = c :: s /\ label_char c = true).
  { destruct Hc as [|c s Hc Hs]; [congruence|eauto]. }
  destruct labels as [|l2 labels].
  - split; [exact Hfirst|]. cbn [dots]. destruct l as [|c s] using rev_ind; [congruence|].
    apply Forall_app in Hc as [_ Hc]. inversion_clear Hc. eauto.
  - change (dots (l :: l2 :: labels)) with (l ++ [46] ++ dots (l2 :: labels)).
    destruct IH as [_ (s & c & E & Hlc)]; [discriminate|]. split.
    + destruct Hfirst as (c0 & s0 & -> & H0). exists c0, (s0 ++ [46] ++ dots (l2 :: labels)). auto.
    + exists (l ++ [46] ++ s), c. rewrite E, <- !app_assoc. auto.
Qed.

Lemma contains_no_dots label rest :
  46 ∉ label -> contains (label ++ rest) (str "..") = contains rest (str "..").
Proof.
  induction label as [|c label IH]; intros Hd; [reflexivity|]. apply not_elem_of_cons in Hd as [Hc Hd].
  cbn [app contains]. rewrite IH by exact Hd.
  assert (E : is_prefix (str "..") (c :: label ++ rest) = false).
  { change (str "..") with [46; 46]. cbn [is_prefix]. replace (46 =? c) with false by lia. reflexivity. }
  rewrite E. reflexivity.
Qed.

Lemma dots_no_double labels :
  Forall (fun label => label_valid label = true) labels -> contains (dots labels) (str "..") = false.
Proof.
  induction 1 as [|l labels Hv Hf IH]; [reflexivity|]. pose proof (label_no_dot _ Hv) as Hd.
  destruct labels as [|l2 labels].
  - cbn [dots]. rewrite <- (app_nil_r l), contains_no_dots by exact Hd. reflexivity.
  - change (dots (l :: l2 :: labels)) with (l ++ [46] ++ dots (l2 :: labels)). rewrite contains_no_dots by exact Hd.
    change ([46] ++ dots (l2 :: labels)) with (46 :: dots (l2 :: labels)). cbn [contains]. rewrite IH, orb_false_r.
    destruct (dots_edges _ Hf ltac:(discriminate)) as [(c & s & E & Hc) _]. rewrite E. change (str "..") with [46; 46].
    cbn [is_prefix]. replace (46 =? c) with false; [reflexivity|]. unfold label_char in Hc. lia.
Qed.

(** The ways to write a domain that the lists use: in any case, with a leading
    wildcard label, with the final dot of a full name, among spaces. *)
Definition spelling (name raw : bytes) : Prop :=
  exists star text dot, trim raw = star ++ text ++ dot /\ map tolower text = name /\
    (star = [] \/ star = str "*.") /\ (dot = [] \/ dot = [46]).

(** The case of a byte does not matter for the marks around a name. *)
Lemma label_lower x : label_char (tolower x) = true -> x <> 91 /\ x <> 42 /\ x <> 46.
Proof. unfold tolower, label_char. case_if; lia. Qed.

(** The body of the normalisation, from a value without brackets. *)
Lemma normalize_spelling name raw :
  canonical_domain name -> spelling name raw -> feed_normalize_domain (Some raw) = Some name.
Proof.
  intros [(labels & Hf & Hn & ->) Hip] (star & text & dot & Et & El & Hstar & Hdot).
  destruct (dots_edges labels Hf ltac:(destruct labels; [cbn in Hn; lia|discriminate]))
    as [(c & s & Ec & Hc) (s' & c' & Ec' & Hc')].
  unfold feed_normalize_domain. cbn [mbind option_bind]. rewrite Et.
  assert (Hfirst : exists x t, text = x :: t /\ label_char (tolower x) = true).
  { destruct text as [|x t]; [rewrite Ec in El; discriminate|]. exists x, t. split; [reflexivity|].
    rewrite Ec in El. injection El as -> _. exact Hc. }
  assert (Hlast : exists t x, text = t ++ [x] /\ label_char (tolower x) = true).
  { destruct text as [|x t _] using rev_ind; [rewrite Ec in El; discriminate|]. exists t, x. split; [reflexivity|].
    rewrite Ec', map_app in El. cbn [map] in El. apply app_inj_tail in El as [_ ->]. exact Hc'. }
  destruct Hfirst as (x & t & Ex & Hx), Hlast as (t' & x' & Ex' & Hx').
  destruct (label_lower x Hx) as (N1 & N2 & _), (label_lower x' Hx') as (_ & _ & N3).
  assert (Hb : (byte_at (star ++ text ++ dot) 0 =? 91) = false).
  { rewrite Ex. destruct Hstar as [-> | ->]; [|reflexivity]. apply Z.eqb_neq. exact N1. }
  rewrite Hb, andb_false_r. cbn [andb].
  assert (Hs : (if is_prefix (str "*.") (star ++ text ++ dot) then drop 2 (star ++ text ++ dot) else star ++ text ++ dot)
               = text ++ dot).
  { destruct Hstar as [-> | ->]; [|reflexivity]. rewrite Ex. change (str "*.") with [42; 46]. cbn [app is_prefix].
    replace (42 =? x) with false by lia. reflexivity. }
  rewrite Hs.
  assert (Hd : strip_final_dot (text ++ dot) = text).
  { change strip_final_dot with (drop_final 46). destruct Hdot as [-> | ->]; [|apply drop_final_last].
    rewrite app_nil_r, Ex'. apply drop_final_other, N3. }
  rewrite Hd, El, Hip, (dots_no_double _ Hf), Ec.
  replace (lenZ (c :: s) >? 0) with true by (rewrite lenZ_cons; pose proof (lenZ_nonneg s); lia).
  cbn [negb andb byte_at Z.to_nat lookup list_lookup default]. change (byte_at (c :: s) 0) with c.
  replace (c =? 46) with false by (unfold label_char in Hc; lia). cbn [negb andb]. rewrite <- Ec.
  rewrite labels_loop_complete by (auto; lia). cbn [mbind option_bind].
  replace (0 + lenZ labels <? 2) with false by (unfold lenZ; lia). reflexivity.
Qed.

Lemma name_char_plain c : name_char c = true -> isspace c = false /\ tolower c = c.
Proof. unfold name_char, label_char, isspace, tolower. intros Hc. split; [lia|]. case_if; lia. Qed.

Lemma canonical_chars name : canonical_domain name -> Forall (fun c => name_char c = true) name.
Proof. intros [(labels & Hf & _ & ->) _]. apply dots_chars, Hf. Qed.

Lemma canonical_spelling name : canonical_domain name -> spelling name name.
Proof.
  intros Hn. apply canonical_chars in Hn. exists [], name, []. rewrite app_nil_r. split_and!; auto.
  - apply trim_no_space. eapply List.Forall_impl; [|exact Hn]. intros c Hc. apply name_char_plain, Hc.
  - induction Hn as [|c s Hc _ IH]; [reflexivity|]. cbn [map]. rewrite IH. f_equal. apply name_char_plain, Hc.
Qed.

Lemma normalize_canonical name : canonical_domain name -> feed_normalize_domain (Some name) = Some name.
Proof. intros Hn. apply normalize_spelling; [exact Hn|apply canonical_spelling, Hn]. Qed.

(** What the normalisation gives: a name, or a name with a final dot. *)
Lemma normalize_sound raw name :
  feed_normalize_domain raw = Some name ->
  feed_is_ip_address name = false /\
  exists labels, name_of labels name \/ exists bare, name = bare ++ [46] /\ name_of labels bare.
Proof.
  unfold feed_normalize_domain. destruct raw as [raw|]; [|discriminate]. cbn [mbind option_bind].
  match goal with |- context [map tolower ?v] => set (value := map tolower v) end.
  case_if; [|discriminate]. destruct (labels_loop _ _ _) as [m|] eqn:El; [|discriminate]. cbn [mbind option_bind].
  case_if; [discriminate|]. intros [= <-]. rewrite !andb_true_iff, !negb_true_iff in *.
  split; [tauto|]. apply labels_loop_sound in El as (labels & Hf & -> & Hc). exists labels. unfold lenZ in *.
  destruct Hc as [-> | [_ ->]]; [left|right; exists (dots labels)]; split_and!; auto; try lia.
  split_and!; auto; lia.
Qed.

Lemma normalize_no_dot raw name :
  feed_normalize_domain raw = Some name -> (forall bare, name <> bare ++ [46]) -> canonical_domain name.
Proof.
  intros Hn Hd. apply normalize_sound in Hn as (Hip & labels & [Hl|(bare & -> & _)]); [|destruct (Hd bare eq_refl)].
  split; eauto.
Qed.

(** ** Blocks *)

Lemma mask_byte b k :
  byte_ok b -> 0 <= k < 8 ->
  u8 (Z.land b (if k =? 0 then 0 else u32 (Z.shiftl 255 (8 - k)))) = b / 2 ^ (8 - k) * 2 ^ (8 - k).
Proof.
  intros Hb Hk. apply Z.eqb_eq.
  pose proof (PlainInet.all_bytes (fun b => forallb (fun n => let k := Z.of_nat n in
    u8 (Z.land b (if k =? 0 then 0 else u32 (Z.shiftl 255 (8 - k)))) =? b / 2 ^ (8 - k) * 2 ^ (8 - k)) (seq 0 8))
    ltac:(vm_compute; reflexivity) b Hb) as Hall.
  rewrite forallb_forall in Hall. specialize (Hall (Z.to_nat k) ltac:(apply in_seq; lia)). cbv zeta in Hall.
  rewrite Z2Nat.id in Hall by lia. exact Hall.
Qed.

Lemma div_mul_small m n : 0 <= m < n -> m / n * n = 0.
Proof. intros Hm. rewrite Z.div_small by lia. reflexivity. Qed.

(** The mask keeps the first bits of the address and clears the others. *)
Lemma mask_address_spec a p :
  bytes_ok a -> 0 <= p <= 8 * lenZ a ->
  lenZ (mask_address a p) = lenZ a /\ bytes_ok (mask_address a p) /\
  Rules.address_value (mask_address a p) = Rules.address_value a / 2 ^ (8 * lenZ a - p) * 2 ^ (8 * lenZ a - p).
Proof.
  intros Ha. revert p. induction Ha as [|b a Hb Ha IH]; intros p Hp; cbn [mask_address].
  { split_and!; [reflexivity|constructor|]. reflexivity. }
  rewrite lenZ_cons in Hp. pose proof (lenZ_nonneg a) as Hl. set (n := lenZ a) in *.
  pose proof (Rules.address_value_range a Ha) as Hr. fold n in Hr.
  assert (Hpow : forall k, 0 <= k -> 0 < 2 ^ k) by (intros; apply Z.pow_pos_nonneg; lia).
  destruct (p >=? 8) eqn:Ep.
  - destruct (IH (p - 8) ltac:(lia)) as (L & B & V). change (8 =? 0) with false. cbv iota.
    assert (Eb : u8 (Z.land b (u32 (Z.shiftl 255 (8 - 8)))) = b).
    { change (u32 (Z.shiftl 255 (8 - 8))) with (Z.ones 8). unfold u8. rewrite Z.land_ones, Z.mod_mod by lia.
      apply Z.mod_small. exact Hb. }
    rewrite Eb. split_and!; [rewrite !lenZ_cons, L; reflexivity|constructor; assumption|].
    cbn [Rules.address_value]. rewrite V, L, lenZ_cons. fold n.
    replace (8 * (1 + n) - p) with (8 * n - (p - 8)) by lia.
    assert (Hlow : 0 < 2 ^ (8 * n - (p - 8)) /\ 0 <= 8 * n - (p - 8) <= 8 * n) by (split; [apply Hpow|]; lia).
    set (low := 8 * n - (p - 8)) in *.
    assert (E : 2 ^ (8 * n) = 2 ^ (8 * n - low) * 2 ^ low) by (rewrite <- Z.pow_add_r by lia; f_equal; lia).
    rewrite E, Z.mul_assoc, Z.div_add_l by lia. lia.
  - destruct (IH 0 ltac:(lia)) as (L & B & V). rewrite Z.sub_diag, mask_byte by (auto; lia).
    split_and!; [rewrite !lenZ_cons, L; reflexivity| |].
    + constructor; [|exact B]. pose proof (Hpow (8 - p) ltac:(lia)). unfold byte_ok in *.
      pose proof (Z.mul_div_le b (2 ^ (8 - p)) ltac:(lia)). pose proof (Z.div_pos b (2 ^ (8 - p)) ltac:(lia) ltac:(lia)). nia.
    + cbn [Rules.address_value]. rewrite V, L, lenZ_cons. fold n. rewrite Z.sub_0_r, (div_mul_small (Rules.address_value a)) by lia.
      replace (8 * (1 + n) - p) with (8 * n + (8 - p)) by lia. rewrite Z.pow_add_r by lia.
      rewrite <- Z.div_div by (pose proof (Hpow (8 * n)); pose proof (Hpow (8 - p)); lia).
      rewrite Z.div_add_l by (pose proof (Hpow (8 * n)); lia). rewrite (Z.div_small (Rules.address_value a)) by lia. rewrite !Z.add_0_r. ring.
Qed.

Definition encode_address (family : address_family) (address : bytes) : bytes :=
  match family with AF_INET => ntop4 address | AF_INET6 => ntop6 address end.

Definition block_text (family : address_family) (address : bytes) (prefix : Z) : bytes :=
  encode_address family address ++ 47 :: dec prefix.

(** The canonical form of a block: the text of its lowest address, and the
    number of fixed bits. *)
Definition canonical_block (text : bytes) : Prop :=
  exists family address prefix,
    Rules.cidr_wf (Rules.mk_cidr family address prefix text) /\ mask_address address prefix = address /\
    text = block_text family address prefix.

Lemma encode_address_facts family address :
  lenZ address = ch_ip_stack_address_length family -> bytes_ok address ->
  Forall ip_text_char (encode_address family address) /\ encode_address family address <> [] /\
  Rules.parse_ip (encode_address family address) = Some (family, address).
Proof.
  intros Hl Hok. unfold Rules.parse_ip. destruct family; cbn in *.
  - destruct (ntop4_text address Hl Hok) as (Hlen & Hc & _). rewrite pton4_ntop4 by assumption.
    split_and!; auto. intros E. rewrite E in Hlen. rewrite lenZ_nil in Hlen. lia.
  - destruct (ntop6_text address Hl Hok) as (Hlen & Hc). rewrite pton4_ntop6, pton6_ntop6 by assumption.
    split_and!; auto. intros E. rewrite E in Hlen. rewrite lenZ_nil in Hlen. lia.
Qed.

Definition block_char (c : Z) : bool := isdigit c || ((97 <=? c) && (c <=? 102)) || (c =? 46) || (c =? 58) || (c =? 47).

Lemma block_text_chars family address prefix :
  lenZ address = ch_ip_stack_address_length family -> bytes_ok address -> 0 <= prefix ->
  Forall (fun c => block_char c = true) (block_text family address prefix).
Proof.
  intros Hl Hok Hp. destruct (encode_address_facts family address Hl Hok) as (Hc & _ & _).
  apply Forall_app. split; [|constructor; [reflexivity|]].
  - eapply List.Forall_impl; [|exact Hc]. intros c. unfold ip_text_char, block_char, isdigit. lia.
  - eapply List.Forall_impl; [|apply dec_digits_only, Hp]. intros c Hd. unfold block_char. rewrite Hd. reflexivity.
Qed.

Lemma block_char_plain c : block_char c = true -> isspace c = false /\ tolower c = c.
Proof. unfold block_char, isdigit, isspace, tolower. intros Hc. split; [lia|]. case_if; lia. Qed.

Lemma plain_text (ok : Z -> bool) s :
  (forall c, ok c = true -> isspace c = false /\ tolower c = c) -> Forall (fun c => ok c = true) s ->
  trim s = s /\ map tolower s = s.
Proof.
  intros Hok Hs. split; [apply trim_no_space; eapply List.Forall_impl; [|exact Hs]; intros c Hc; apply Hok, Hc|].
  induction Hs as [|c s Hc _ IH]; [reflexivity|]. cbn [map]. rewrite IH. f_equal. apply Hok, Hc.
Qed.

Lemma trimmed_lower_id s : trim s = s -> map tolower s = s -> Rules.ch_trimmed_lower (Some s) false = s.
Proof.
  intros Ht Hl. unfold Rules.ch_trimmed_lower. change (default [] (Some s)) with s. rewrite Ht.
  destruct s; exact Hl.
Qed.

Lemma dec_no_slash n : 0 <= n -> 47 ∉ dec n.
Proof. intros Hn. apply digits_avoid; [apply dec_digits_only, Hn|reflexivity]. Qed.

Lemma prefix_scan n : 0 <= n <= 128 -> strtol (dec n) = mk_scan n [] true false.
Proof.
  intros Hn. rewrite <- (app_nil_r (dec n)). apply strtol_dec; [unfold INT64_MIN, INT64_MAX; lia|reflexivity].
Qed.

(** Both parsers read the text of a block as that block. *)
Lemma block_text_normalize family address prefix :
  Rules.cidr_wf (Rules.mk_cidr family address prefix []) ->
  feed_normalize_cidr (block_text family address prefix) = Some (block_text family (mask_address address prefix) prefix).
Proof.
  intros (Hl & Hok & Hp). cbn [Rules.cidr_family Rules.cidr_address Rules.prefix_length] in *.
  destruct (encode_address_facts family address Hl Hok) as (_ & _ & Hparse).
  assert (H128 : 0 <= prefix <= 128) by (destruct family; unfold Rules.family_bits in Hp; cbn in Hp; lia).
  unfold feed_normalize_cidr.
  rewrite (proj1 (plain_text _ _ block_char_plain (block_text_chars family address prefix Hl Hok ltac:(lia)))).
  unfold split_prefix, block_text at 1. rewrite (split_last_app 47) by (apply dec_no_slash; lia).
  rewrite prefix_scan by exact H128. cbn [scan_range scan_any scan_rest scan_value]. rewrite beq_refl.
  replace (prefix <? 0) with false by lia. replace (prefix >? 128) with false by lia.
  cbn [negb orb mbind option_bind]. rewrite Hparse. cbn [mbind option_bind]. replace (prefix <? 0) with false by lia.
  destruct family; unfold Rules.family_bits in Hp; cbn in Hp; (case_if; [lia|reflexivity]).
Qed.

Lemma block_text_compiles family address prefix :
  Rules.cidr_wf (Rules.mk_cidr family address prefix []) ->
  Rules.cidr_compile (Some (block_text family address prefix))
  = Done (Rules.mk_cidr family address prefix (block_text family address prefix)).
Proof.
  intros (Hl & Hok & Hp). cbn [Rules.cidr_family Rules.cidr_address Rules.prefix_length] in *.
  destruct (encode_address_facts family address Hl Hok) as (_ & Hne & Hparse).
  assert (H128 : 0 <= prefix <= 128) by (destruct family; unfold Rules.family_bits in Hp; cbn in Hp; lia).
  destruct (plain_text _ _ block_char_plain (block_text_chars family address prefix Hl Hok ltac:(lia))) as [Ht Hlow].
  unfold Rules.cidr_compile. cbv zeta.
  change (default [] (Some (block_text family address prefix))) with (block_text family address prefix).
  rewrite (trimmed_lower_id _ Ht Hlow). unfold block_text at 1. rewrite (split_last_app 47) by (apply dec_no_slash; lia).
  assert (Hd : dec prefix <> []).
  { pose proof (prefix_scan prefix H128) as E. intros E0. rewrite E0 in E. discriminate. }
  apply beq_false in Hne, Hd. rewrite Hne, Hd, Hparse, prefix_scan by exact H128.
  cbn [scan_range scan_any scan_rest scan_value]. rewrite beq_refl.
  replace (prefix <? 0) with false by lia. destruct family; unfold Rules.family_bits in Hp; cbn in Hp.
  - replace (prefix >? 32) with false by lia. reflexivity.
  - replace (prefix >? 128) with false by lia. reflexivity.
Qed.

Lemma mask_value_kept family address prefix text :
  Rules.cidr_wf (Rules.mk_cidr family address prefix text) ->
  Rules.cidr_wf (Rules.mk_cidr family (mask_address address prefix) prefix text) /\
  mask_address (mask_address address prefix) prefix = mask_address address prefix /\
  forall a, Rules.in_block (Rules.mk_cidr family (mask_address address prefix) prefix text) a
            <-> Rules.in_block (Rules.mk_cidr family address prefix text) a.
Proof.
  intros (Hl & Hok & Hp). cbn [Rules.cidr_family Rules.cidr_address Rules.prefix_length] in *.
  unfold Rules.cidr_wf, Rules.in_block. cbn [Rules.cidr_family Rules.cidr_address Rules.prefix_length].
  assert (Hb : Rules.family_bits family = 8 * lenZ address) by (unfold Rules.family_bits; rewrite Hl; reflexivity).
  rewrite Hb in *. destruct (mask_address_spec address prefix Hok Hp) as (L & B & V).
  assert (Hpow : 0 < 2 ^ (8 * lenZ address - prefix)) by (apply Z.pow_pos_nonneg; lia).
  split_and!; [congruence|exact B|lia|lia| |].
  - destruct (mask_address_spec (mask_address address prefix) prefix B ltac:(lia)) as (L2 & B2 & V2).
    apply Rules.address_value_inj; [assumption..|]. rewrite V2, L, V, Z.div_mul by lia. reflexivity.
  - intros a. rewrite V, Z.div_mul by lia. reflexivity.
Qed.

(** The block that a text denotes: an address, and the number of bits after the
    slash (all of them without one). *)
Definition denotes_block (raw : bytes) (family : address_family) (address : bytes) (prefix : Z) : Prop :=
  exists value bits, split_prefix (trim raw) = Some (value, bits) /\ Rules.parse_ip value = Some (family, address) /\
    prefix = (if bits <? 0 then Rules.family_bits family else bits) /\ prefix <= Rules.family_bits family.

Lemma denotes_wf raw family address prefix text :
  denotes_block raw family address prefix -> Rules.cidr_wf (Rules.mk_cidr family address prefix text).
Proof.
  intros (value & bits & _ & Hparse & -> & Hle). apply Rules.parse_ip_wf in Hparse as [Hl Hok].
  split_and!; cbn [Rules.cidr_family Rules.cidr_address Rules.prefix_length]; auto.
  destruct (bits <? 0) eqn:E; [unfold Rules.family_bits; destruct family; cbn; lia|lia].
Qed.

Lemma normalize_cidr_iff raw text :
  feed_normalize_cidr raw = Some text <->
  exists family address prefix, denotes_block raw family address prefix /\
    text = block_text family (mask_address address prefix) prefix.
Proof.
  unfold feed_normalize_cidr, denotes_block. split.
  - destruct (split_prefix (trim raw)) as [[value bits]|]; [|discriminate]. cbn [mbind option_bind].
    destruct (Rules.parse_ip value) as [[family address]|] eqn:E; [|discriminate]. cbn [mbind option_bind].
    assert (Hbits : match family with AF_INET => 32 | AF_INET6 => 128 end = Rules.family_bits family) by (destruct family; reflexivity).
    rewrite Hbits. case_if; [discriminate|]. intros [= <-].
    exists family, address, (if bits <? 0 then Rules.family_bits family else bits).
    split; [exists value, bits; split_and!; auto; lia|]. destruct family; reflexivity.
  - intros (family & address & prefix & (value & bits & -> & E & -> & Hle) & ->). cbn [mbind option_bind]. rewrite E.
    cbn [mbind option_bind].
    assert (Hbits : match family with AF_INET => 32 | AF_INET6 => 128 end = Rules.family_bits family) by (destruct family; reflexivity).
    rewrite Hbits. case_if; [lia|]. destruct family; reflexivity.
Qed.

Lemma canonical_block_facts text :
  canonical_block text ->
  feed_normalize_cidr text = Some text /\ (exists c, Rules.cidr_compile (Some text) = Done c) /\
  Forall (fun c => block_char c = true) text.
Proof.
  intros (family & address & prefix & Hwf & Hm & ->). destruct Hwf as (Hl & Hok & Hp). cbn in Hl, Hok, Hp.
  assert (Hwf : Rules.cidr_wf (Rules.mk_cidr family address prefix [])) by (split_and!; auto; apply Hp).
  rewrite block_text_normalize, Hm by exact Hwf. split_and!; auto.
  - eexists. apply block_text_compiles, Hwf.
  - apply block_text_chars; auto. lia.
Qed.

Lemma normalize_cidr_canonical raw text : feed_normalize_cidr raw = Some text -> canonical_block text.
Proof.
  intros Hn. apply normalize_cidr_iff in Hn as (family & address & prefix & Hd & ->).
  destruct (mask_value_kept family address prefix [] (denotes_wf _ _ _ _ _ Hd)) as (Hwf & Hm & _).
  exists family, (mask_address address prefix), prefix. split_and!; auto; apply Hwf.
Qed.

(** ** The entries of a list *)

(** A domain as the parser keeps it. *)
Definition listed_domain (name : bytes) : Prop :=
  feed_is_ip_address name = false /\
  exists labels, name_of labels name \/ exists bare, name = bare ++ [46] /\ name_of labels bare.

Record entries_ok (lists : entries) : Prop := {
  ok_domains : Forall listed_domain (domains lists);
  ok_blocks : Forall canonical_block (blocks lists);
  ok_domains_once : NoDup (domains lists);
  ok_blocks_once : NoDup (blocks lists)
}.

Lemma add_unique_spec strings value items :
  feed_strings_add_unique strings value = Done items ->
  (value ∈ strings /\ items = strings) \/ ((value ∉ strings) /\ items = strings ++ [value]).
Proof.
  unfold feed_strings_add_unique. destruct (existsb _ _) eqn:E.
  - intros [= <-]. left. split; [|reflexivity]. apply existsb_exists in E as (x & Hx & Hb). apply beq_true in Hb as <-.
    apply list_elem_of_In, Hx.
  - case_if; [discriminate|]. intros [= <-]. right. split; [|reflexivity]. intros Hin.
    apply list_elem_of_In in Hin.
    assert (existsb (fun item => beq item value) strings = true) by (apply existsb_exists; exists value; split; [exact Hin|apply beq_refl]).
    congruence.
Qed.

Lemma add_unique_keeps (P : bytes -> Prop) strings value items :
  feed_strings_add_unique strings value = Done items -> P value ->
  Forall P strings -> NoDup strings -> Forall P items /\ NoDup items.
Proof.
  intros Ha Hp Hf Hd. apply add_unique_spec in Ha as [[_ ->]|[Hv ->]]; [auto|]. split.
  - apply Forall_app. split; [exact Hf|constructor; [exact Hp|constructor]].
  - apply list.NoDup_app. split_and!; [exact Hd| |apply NoDup_singleton]. intros x Hx Hin.
    apply list_elem_of_singleton in Hin as ->. contradiction.
Qed.

Lemma add_domain_ok lists domain raw lists' :
  entries_ok lists -> feed_normalize_domain raw = Some domain -> add_domain lists domain = Done lists' -> entries_ok lists'.
Proof.
  intros [H1 H2 H3 H4] Hn Ha. unfold add_domain in Ha. apply bind_Done_inv in Ha as (items & Ha & [= <-]).
  destruct (add_unique_keeps listed_domain _ _ _ Ha (normalize_sound _ _ Hn) H1 H3). constructor; assumption.
Qed.

Lemma add_token_ok lists raw lists' : entries_ok lists -> feed_add_token lists raw = Done lists' -> entries_ok lists'.
Proof.
  intros Hok. unfold feed_add_token. destruct (feed_normalize_cidr _) as [block|] eqn:E.
  - unfold add_block. intros Ha. apply bind_Done_inv in Ha as (items & Ha & [= <-]). destruct Hok as [H1 H2 H3 H4].
    destruct (add_unique_keeps canonical_block _ _ _ Ha (normalize_cidr_canonical _ _ E) H2 H4). constructor; assumption.
  - destruct (feed_normalize_domain _) as [domain|] eqn:Ed; [|discriminate]. intros Ha. eapply add_domain_ok; eauto.
Qed.

Lemma tokens_loop_ok fuel hosts line index accepted lists r :
  entries_ok lists -> tokens_loop fuel hosts line index accepted lists = Done r -> entries_ok (fst r).
Proof.
  revert line index accepted lists. induction fuel as [|fuel IH]; intros line index accepted lists Hok; cbn [tokens_loop].
  { intros [= <-]. exact Hok. }
  destruct (strtok blank line) as [[token save]|]; [|intros [= <-]; exact Hok].
  case_if; [apply IH, Hok|]. destruct (feed_add_token lists token) as [lists'|e|] eqn:Ea; [|case_if; [apply IH, Hok|discriminate]|discriminate].
  apply IH. eapply add_token_ok; eauto.
Qed.

Lemma parse_plain_ok line hosts lists r :
  entries_ok lists -> feed_parse_plain line hosts lists = Done r -> entries_ok (fst r).
Proof.
  intros Hok. unfold feed_parse_plain. case_if; [intros [= <-]; exact Hok|]. case_if; [intros [= <-]; exact Hok|].
  intros E. apply bind_Done_inv in E as ([lists' accepted] & E & [= <-]).
  apply (tokens_loop_ok _ _ _ _ _ _ _ Hok) in E. exact E.
Qed.

Lemma add_filter_ok lists host r : entries_ok lists -> add_filter lists host = Done r -> entries_ok (fst r).
Proof.
  intros Hok. unfold add_filter. destruct (feed_normalize_domain host) as [domain|] eqn:E; [|intros [= <-]; exact Hok].
  intros Ha. apply bind_Done_inv in Ha as (lists' & Ha & [= <-]). eapply add_domain_ok; eauto.
Qed.

Lemma parse_adblock_ok line lists r : entries_ok lists -> feed_parse_adblock line lists = Done r -> entries_ok (fst r).
Proof.
  intros Hok. unfold feed_parse_adblock. case_if; [intros [= <-]; exact Hok|]. case_if; [intros [= <-]; exact Hok|].
  case_if; [apply add_filter_ok, Hok|]. case_if; [apply add_filter_ok, Hok|apply parse_plain_ok, Hok].
Qed.

(** ** A document *)

Lemma skip_delimiters_suffix delimiter s : exists p, s = p ++ skip_delimiters delimiter s.
Proof.
  induction s as [|c s (p & E)]; [exists []; reflexivity|]. cbn [skip_delimiters].
  destruct (delimiter c); [exists (c :: p); cbn; congruence|exists []; reflexivity].
Qed.

Lemma token_of_shorter delimiter s : (length (snd (token_of delimiter s)) <= length s - 1)%nat.
Proof.
  induction s as [|c s IH]; [cbn; lia|]. cbn [token_of]. destruct (delimiter c); [cbn; lia|].
  destruct (token_of delimiter s) as [token rest]. cbn [snd length] in *. lia.
Qed.

(** Every token takes a byte at least, so that the fuel of the loops suffices. *)
Lemma strtok_shorter delimiter s token rest : strtok delimiter s = Some (token, rest) -> (length rest < length s)%nat.
Proof.
  unfold strtok. destruct (skip_delimiters_suffix delimiter s) as (p & E). rewrite E at 2. rewrite length_app.
  destruct (skip_delimiters delimiter s) as [|c t]; [discriminate|]. intros Es.
  assert (Ht : token_of delimiter (c :: t) = (token, rest)) by congruence.
  pose proof (token_of_shorter delimiter (c :: t)) as Hs. rewrite Ht in Hs. cbn [snd length] in *. lia.
Qed.

Lemma tokens_loop_fuel fuel fuel' hosts line index accepted lists :
  (length line < fuel)%nat -> (length line < fuel')%nat ->
  tokens_loop fuel hosts line index accepted lists = tokens_loop fuel' hosts line index accepted lists.
Proof.
  revert fuel' line index accepted lists. induction fuel as [|fuel IH]; intros [|fuel'] line index accepted lists H1 H2; try lia.
  cbn [tokens_loop]. destruct (strtok blank line) as [[token save]|] eqn:E; [|reflexivity]. apply strtok_shorter in E.
  case_if; [apply IH; lia|]. destruct (feed_add_token lists token); [apply IH; lia| |reflexivity].
  case_if; [apply IH; lia|reflexivity].
Qed.

Lemma lines_loop_fuel fuel fuel' fmt document lists n :
  (length document < fuel)%nat -> (length document < fuel')%nat ->
  lines_loop fuel fmt document lists n = lines_loop fuel' fmt document lists n.
Proof.
  revert fuel' document lists n. induction fuel as [|fuel IH]; intros [|fuel'] document lists n H1 H2; try lia.
  cbn [lines_loop]. destruct (strtok newline document) as [[line rest]|] eqn:E; [|reflexivity]. apply strtok_shorter in E.
  cbv zeta. case_if; [apply IH; lia|]. match goal with |- mbind _ ?m = _ => destruct m as [[lists' usable]|e|] end;
    cbn [mbind outcome_bind]; [|reflexivity..]. case_if; [reflexivity|apply IH; lia].
Qed.

Lemma lines_loop_ok fuel fmt document lists n lists' n' :
  entries_ok lists -> entry_count lists <= CH_RULE_FEED_MAX_ENTRIES -> (length document < fuel)%nat ->
  lines_loop fuel fmt document lists n = Done (lists', n') ->
  entries_ok lists' /\ entry_count lists' <= CH_RULE_FEED_MAX_ENTRIES /\ n <= n' <= n + lenZ document.
Proof.
  revert document lists n. induction fuel as [|fuel IH]; intros document lists n Hok Hc Hf; cbn [lines_loop]; [lia|].
  pose proof (lenZ_nonneg document) as Hd.
  destruct (strtok newline document) as [[line rest]|] eqn:E; [|intros [= <- <-]; split_and!; auto; lia].
  apply strtok_shorter in E. assert (lenZ rest + 1 <= lenZ document) by (unfold lenZ; lia). cbv zeta.
  case_if; [intros Hl; apply IH in Hl as (H1 & H2 & H3); auto; [split_and!; auto; lia|lia]|].
  intros Hb. apply bind_Done_inv in Hb as ([lists1 usable] & Hp & Hb).
  assert (Hok1 : entries_ok lists1).
  { destruct (beq fmt (str "adblock"));
      [apply (parse_adblock_ok _ _ _ Hok) in Hp|apply (parse_plain_ok _ _ _ _ Hok) in Hp]; exact Hp. }
  case_if_in Hb; [discriminate|]. apply IH in Hb as (H1 & H2 & H3); [|exact Hok1|lia|lia].
  split_and!; auto; destruct usable; lia.
Qed.

Lemma feed_sort_spec l : StronglySorted text_le (feed_sort l) /\ Permutation (feed_sort l) l.
Proof. split; [apply (StronglySorted_merge_sort text_le)|apply (merge_sort_Permutation text_le)]. Qed.

Lemma feed_sort_sorted l : StronglySorted text_le l -> feed_sort l = l.
Proof.
  intros Hs. destruct (feed_sort_spec l) as [H1 H2]. apply (StronglySorted_unique text_le); assumption.
Qed.

(** A list that can be used for rules. *)
Record feed_ok (feed : ch_rule_feed) : Prop := {
  ok_format : format feed ∈ [str "plain"; str "hosts"; str "adblock"];
  ok_suffixes : Forall listed_domain (domain_suffixes feed);
  ok_cidrs : Forall canonical_block (cidrs feed);
  ok_suffixes_sorted : StronglySorted text_le (domain_suffixes feed) /\ NoDup (domain_suffixes feed);
  ok_cidrs_sorted : StronglySorted text_le (cidrs feed) /\ NoDup (cidrs feed);
  ok_count : 1 <= lenZ (domain_suffixes feed) + lenZ (cidrs feed) <= CH_RULE_FEED_MAX_ENTRIES;
  ok_skipped : 0 <= skipped feed <= CH_RULE_FEED_MAX_BYTES
}.

Lemma lenZ_perm {A} (l k : list A) : Permutation l k -> lenZ l = lenZ k.
Proof. intros Hp. unfold lenZ. rewrite (Permutation_length Hp). reflexivity. Qed.

Lemma until_nul_shorter s : lenZ (until_nul s) <= lenZ s.
Proof.
  induction s as [|c s IH]; cbn [until_nul]; [lia|]. case_if; rewrite ?lenZ_cons, ?lenZ_nil; [|lia].
  pose proof (lenZ_nonneg s). lia.
Qed.

Lemma parse_ok body requested feed : ch_rule_feed_parse body requested = Done feed -> feed_ok feed.
Proof.
  unfold ch_rule_feed_parse. case_if; [discriminate|]. cbv zeta. set (document := until_nul body).
  pose proof (until_nul_shorter body) as Hb. fold document in Hb.
  set (fmt := if beq (normalized_format requested) (str "auto") then _ else _).
  destruct (negb (beq fmt (str "plain")) && negb (beq fmt (str "hosts")) && negb (beq fmt (str "adblock"))) eqn:Hfmt; [discriminate|].
  intros E. apply bind_Done_inv in E as ([lists n] & E & Hd). case_if_in Hd; [discriminate|]. injection Hd as <-.
  apply lines_loop_ok in E as ([H1 H2 H3 H4] & Hc & Hn); [|constructor; constructor|vm_compute; discriminate|lia].
  destruct (feed_sort_spec (domains lists)) as [S1 P1], (feed_sort_spec (blocks lists)) as [S2 P2].
  pose proof (lenZ_nonneg (domains lists)). pose proof (lenZ_nonneg (blocks lists)). unfold entry_count in *.
  constructor; cbn [format domain_suffixes cidrs skipped].
  - rewrite !elem_of_cons, elem_of_nil. rewrite !andb_false_iff, !negb_false_iff, !beq_true in Hfmt. tauto.
  - rewrite P1. exact H1.
  - rewrite P2. exact H2.
  - split; [exact S1|]. rewrite P1. exact H3.
  - split; [exact S2|]. rewrite P2. exact H4.
  - rewrite (lenZ_perm _ _ P1), (lenZ_perm _ _ P2). lia.
  - lia.
Qed.

(** ** Lists as they are written *)

(** The bytes of the texts in a list: none of them is a blank, a quote or a mark. *)
Definition plain_char (c : Z) : bool := name_char c || block_char c.

Lemma plain_char_name c : name_char c = true -> plain_char c = true.
Proof. unfold plain_char. intros ->. reflexivity. Qed.
Lemma plain_char_block c : block_char c = true -> plain_char c = true.
Proof. unfold plain_char. intros ->. apply orb_true_r. Qed.

Lemma plain_char_facts c :
  plain_char c = true ->
  isspace c = false /\ tolower c = c /\ blank c = false /\ newline c = false /\ quote c = false /\ 0 < c < 256 /\
  c <> 33 /\ c <> 35 /\ c <> 36 /\ c <> 42 /\ c <> 64 /\ c <> 91 /\ c <> 94 /\ c <> 124.
Proof.
  unfold plain_char, name_char, label_char, block_char, isdigit, isspace, tolower, blank, newline, quote.
  intros Hc. split_and!; try lia. case_if; lia.
Qed.

Definition plain_word (s : bytes) : Prop := Forall (fun c => plain_char c = true) s /\ s <> [].

Lemma plain_avoids s c : Forall (fun c => plain_char c = true) s -> plain_char c = false -> c ∉ s.
Proof. intros Hs Hc Hin. rewrite Forall_forall in Hs. apply list_elem_of_In, Hs in Hin. congruence. Qed.

Lemma plain_trim s : Forall (fun c => plain_char c = true) s -> trim s = s.
Proof. intros Hs. apply trim_no_space. eapply List.Forall_impl; [|exact Hs]. intros c Hc. apply plain_char_facts, Hc. Qed.

Lemma skip_delimiters_none delimiter c s : delimiter c = false -> skip_delimiters delimiter (c :: s) = c :: s.
Proof. intros Hc. cbn [skip_delimiters]. rewrite Hc. reflexivity. Qed.

Lemma token_of_word delimiter w d rest :
  Forall (fun c => delimiter c = false) w -> delimiter d = true -> token_of delimiter (w ++ d :: rest) = (w, rest).
Proof.
  intros Hw Hd. induction Hw as [|c w Hc _ IH]; cbn [app token_of]; [rewrite Hd; reflexivity|].
  rewrite Hc, IH. reflexivity.
Qed.

Lemma token_of_end delimiter w : Forall (fun c => delimiter c = false) w -> token_of delimiter w = (w, []).
Proof. induction 1 as [|c w Hc _ IH]; cbn [token_of]; [reflexivity|]. rewrite Hc, IH. reflexivity. Qed.

Lemma strtok_word delimiter w d rest :
  Forall (fun c => delimiter c = false) w -> w <> [] -> delimiter d = true ->
  strtok delimiter (w ++ d :: rest) = Some (w, rest).
Proof.
  intros Hw Hne Hd. unfold strtok. destruct w as [|c w]; [congruence|]. inversion_clear Hw as [|? ? Hc Hw'].
  cbn [app]. rewrite skip_delimiters_none by exact Hc. change (c :: w ++ d :: rest) with ((c :: w) ++ d :: rest).
  rewrite token_of_word; [reflexivity|constructor; assumption|exact Hd].
Qed.

Lemma strtok_last delimiter w :
  Forall (fun c => delimiter c = false) w -> w <> [] -> strtok delimiter w = Some (w, []).
Proof.
  intros Hw Hne. unfold strtok. destruct w as [|c w]; [congruence|]. inversion_clear Hw as [|? ? Hc Hw'].
  rewrite skip_delimiters_none by exact Hc. rewrite token_of_end; [reflexivity|constructor; assumption].
Qed.

Lemma plain_blank s : Forall (fun c => plain_char c = true) s -> Forall (fun c => blank c = false) s.
Proof. apply List.Forall_impl. intros c Hc. apply plain_char_facts, Hc. Qed.

Lemma is_prefix_first p c s : hd 0 p <> c -> p <> [] -> is_prefix p (c :: s) = false.
Proof. intros Hc Hp. destruct p as [|x p]; [congruence|]. cbn in *. replace (x =? c) with false by lia. reflexivity. Qed.

(** A word that does not end with a dot is a token as it stands. *)
Lemma strip_token_word w : plain_word w -> (forall s, w <> s ++ [46]) -> strip_token w = w.
Proof.
  intros [Hw Hne] Hdot. unfold strip_token. rewrite plain_trim by exact Hw. destruct w as [|c w]; [congruence|].
  inversion_clear Hw as [|? ? Hc Hw']. apply plain_char_facts in Hc as (_ & _ & _ & _ & Hq & _ & _ & _ & _ & H42 & _ & _ & H94 & H124).
  rewrite skip_delimiters_none by exact Hq.
  assert (Hrev : reverse (skip_delimiters quote (reverse (c :: w))) = c :: w).
  { destruct w as [|d t _] using rev_ind; [cbn; rewrite Hq; reflexivity|].
    apply Forall_app in Hw' as [_ Hd]. inversion_clear Hd as [|? ? Hd' _]. apply plain_char_facts in Hd' as (_ & _ & _ & _ & Hqd & _).
    change (c :: t ++ [d]) with ((c :: t) ++ [d]). rewrite reverse_snoc, skip_delimiters_none by exact Hqd.
    rewrite <- reverse_snoc, reverse_involutive. reflexivity. }
  rewrite Hrev, is_prefix_first; [|cbn; lia|discriminate]. change (byte_at (c :: w) 0) with c.
  replace (c =? 124) with false by lia. rewrite is_prefix_first; [|cbn; lia|discriminate].
  destruct w as [|d t _] using rev_ind.
  - change [c] with ([] ++ [c]). rewrite drop_final_other by exact H94. apply drop_final_other. intros ->. apply (Hdot []). reflexivity.
  - apply Forall_app in Hw' as [_ Hd]. inversion_clear Hd as [|? ? Hd' _].
    apply plain_char_facts in Hd' as (_ & _ & _ & _ & _ & _ & _ & _ & _ & _ & _ & _ & Hd94 & _).
    change (c :: t ++ [d]) with ((c :: t) ++ [d]) in *. rewrite drop_final_other by exact Hd94. apply drop_final_other.
    intros ->. apply (Hdot (c :: t)). reflexivity.
Qed.

(** An entry of a list and what the parser adds for it. *)
Inductive entry : Type := Domain (name : bytes) | Block (text : bytes).

Definition entry_text (e : entry) : bytes := match e with Domain name => name | Block text => text end.

Definition entry_ok (e : entry) : Prop :=
  match e with Domain name => canonical_domain name | Block text => canonical_block text end.

Definition add_entry (lists : entries) (e : entry) : entries :=
  match e with
  | Domain name => mk_entries (domains lists ++ [name]) (blocks lists)
  | Block text => mk_entries (domains lists) (blocks lists ++ [text])
  end.

Definition fresh (lists : entries) (e : entry) : Prop :=
  entry_count lists < CH_RULE_FEED_MAX_ENTRIES /\
  match e with Domain name => name ∉ domains lists | Block text => text ∉ blocks lists end.

Lemma add_unique_fresh strings value :
  value ∉ strings -> lenZ strings < CH_RULE_FEED_MAX_ENTRIES ->
  feed_strings_add_unique strings value = Done (strings ++ [value]).
Proof.
  intros Hv Hl. unfold feed_strings_add_unique. destruct (existsb _ _) eqn:E.
  - apply existsb_exists in E as (x & Hx & Hb). apply beq_true in Hb as ->. destruct Hv. apply list_elem_of_In, Hx.
  - replace (lenZ strings >=? CH_RULE_FEED_MAX_ENTRIES) with false by lia. reflexivity.
Qed.

Lemma entry_word e : entry_ok e -> plain_word (entry_text e) /\ forall s, entry_text e <> s ++ [46].
Proof.
  destruct e as [name|text]; cbn [entry_ok entry_text].
  - intros Hc. split; [split|].
    + eapply List.Forall_impl; [|exact (canonical_chars _ Hc)]. intros c. apply plain_char_name.
    + destruct Hc as [(labels & Hf & Hn & ->) _]. destruct (dots_edges labels Hf ltac:(destruct labels; [cbn in Hn; lia|discriminate])) as [(c & s & -> & _) _]. discriminate.
    + intros s E. destruct Hc as [(labels & Hf & Hn & ->) _].
      destruct (dots_edges labels Hf ltac:(destruct labels; [cbn in Hn; lia|discriminate])) as [_ (s' & c & Ec & Hc)].
      rewrite Ec in E. apply app_inj_tail in E as [_ ->]. discriminate.
  - intros Hb. destruct (canonical_block_facts _ Hb) as (_ & _ & Hch). split; [split|].
    + eapply List.Forall_impl; [|exact Hch]. intros c. apply plain_char_block.
    + destruct Hb as (f & a & p & _ & _ & ->). unfold block_text. destruct (encode_address f a); discriminate.
    + intros s E. destruct Hb as (f & a & p & (_ & _ & Hp) & _ & ->). cbn in Hp.
      pose proof (dec_digits_only p ltac:(lia)) as Hd. unfold digits_ok in Hd.
      destruct (dec p) as [|c t _] eqn:Ed using rev_ind.
      * destruct (dec_nonneg_spec p ltac:(lia)) as (_ & _ & c & d & E0 & _). unfold dec in Ed.
        replace (p <? 0) with false in Ed by lia. congruence.
      * unfold block_text in E. rewrite Ed in E. change (47 :: t ++ [c]) with ((47 :: t) ++ [c]) in E. rewrite app_assoc in E.
        apply app_inj_tail in E as [_ ->]. apply Forall_app in Hd as [_ Hd]. inversion_clear Hd. discriminate.
Qed.

Lemma not_address_parse name : feed_is_ip_address name = false -> Rules.parse_ip name = None.
Proof.
  unfold feed_is_ip_address, Rules.parse_ip. rewrite orb_false_iff, !bool_decide_eq_false. intros [H4 H6].
  destruct (pton4 name); [destruct H4; eauto|]. destruct (pton6 name); [destruct H6; eauto|reflexivity].
Qed.

Lemma add_token_entry lists e :
  entry_ok e -> fresh lists e -> feed_add_token lists (entry_text e) = Done (add_entry lists e).
Proof.
  intros He [Hcount Hfresh]. destruct (entry_word e He) as [Hw Hdot]. unfold feed_add_token.
  rewrite strip_token_word by assumption. pose proof (lenZ_nonneg (domains lists)). pose proof (lenZ_nonneg (blocks lists)).
  unfold entry_count in Hcount. destruct e as [name|text]; cbn [entry_ok entry_text] in *.
  - assert (Hcidr : feed_normalize_cidr name = None).
    { unfold feed_normalize_cidr. rewrite plain_trim by apply Hw. unfold split_prefix.
      assert (Hs : split_last 47 name = None).
      { apply split_last_None. intros Hin. pose proof (canonical_chars _ He) as Hc. rewrite Forall_forall in Hc.
        apply list_elem_of_In, Hc in Hin. discriminate. }
      rewrite Hs. cbn [mbind option_bind]. rewrite not_address_parse by apply He. reflexivity. }
    rewrite Hcidr.
    assert (Hurl : forall p, 58 ∈ p -> case_prefix p name = false).
    { intros p Hp. apply not_true_iff_false. unfold case_prefix. rewrite is_prefix_spec. intros (r & E).
      assert (Hin : 58 ∈ map tolower name).
      { rewrite E. apply elem_of_app. left. apply list_elem_of_fmap. exists 58. split; [reflexivity|exact Hp]. }
      pose proof (canonical_chars _ He) as Hc.
      apply list_elem_of_fmap in Hin as (c & E58 & Hin). rewrite Forall_forall in Hc. apply list_elem_of_In, Hc in Hin.
      destruct (name_char_plain c Hin) as [_ Hl]. rewrite Hl in E58. subst c. discriminate. }
    rewrite !Hurl by (vm_compute; repeat (first [left|right])). cbn [orb].
    rewrite normalize_canonical by exact He. unfold add_domain. rewrite add_unique_fresh by (auto; lia). reflexivity.
  - destruct (canonical_block_facts _ He) as (-> & _ & _). unfold add_block.
    rewrite add_unique_fresh by (auto; lia). reflexivity.
Qed.

(** The formats of lists, and a list written in one of them: one entry a line,
    the domains of a hosts file after the address [sink]. *)
Inductive list_format : Type := PLAIN | HOSTS | ADBLOCK.

Definition format_name (f : list_format) : bytes :=
  match f with PLAIN => str "plain" | HOSTS => str "hosts" | ADBLOCK => str "adblock" end.

Definition render (f : list_format) (sink : bytes) (e : entry) : bytes :=
  match e, f with
  | Domain name, HOSTS => sink ++ 32 :: name
  | Domain name, ADBLOCK => str "||" ++ name ++ str "^"
  | _, _ => entry_text e
  end.

Definition document (f : list_format) (sink : bytes) (l : list entry) : bytes :=
  concat (map (fun e => render f sink e ++ [10]) l).

(** The address of a hosts file. *)
Definition sink_ok (sink : bytes) : Prop := plain_word sink /\ feed_is_ip_address sink = true.

Definition parse_line (f : list_format) (line : bytes) (lists : entries) : result (entries * bool) :=
  match f with ADBLOCK => feed_parse_adblock line lists | HOSTS => feed_parse_plain line true lists | PLAIN => feed_parse_plain line false lists end.

Lemma parse_word hosts lists e :
  entry_ok e -> fresh lists e -> feed_parse_plain (entry_text e) hosts lists = Done (add_entry lists e, true).
Proof.
  intros He Hf. destruct (entry_word e He) as [[Hw Hne] Hdot]. unfold feed_parse_plain.
  destruct (entry_text e) as [|c t] eqn:Et; [congruence|]. rewrite <- Et in *.
  assert (Hc : plain_char c = true) by (rewrite Et in Hw; inversion Hw; assumption).
  apply plain_char_facts in Hc as (_ & _ & _ & _ & _ & _ & H33 & H35 & _).
  replace (byte_at (entry_text e) 0) with c by (rewrite Et; reflexivity).
  replace (c =? 35) with false by lia. replace (c =? 33) with false by lia. cbn [orb].
  assert (Hs : split_first 35 (entry_text e) = None) by (apply split_first_None, plain_avoids; auto).
  rewrite Hs, plain_trim by exact Hw. assert (Hb : beq (entry_text e) [] = false) by (apply beq_false; exact Hne).
  rewrite Hb. cbn [tokens_loop]. rewrite strtok_last by (auto using plain_blank). cbn [skip_space].
  rewrite beq_refl. cbn [negb]. rewrite andb_false_r, add_token_entry by assumption.
  destruct (length (entry_text e)); reflexivity.
Qed.

Lemma trim_right_app a w : trim_right w = w -> w <> [] -> trim_right (a ++ w) = a ++ w.
Proof.
  intros Hw Hne. induction a as [|c a IH]; [exact Hw|]. cbn [app trim_right]. rewrite IH.
  destruct a; [destruct w; [congruence|]|]; reflexivity.
Qed.

(** The end of a text decides whether it is trimmed. *)
Lemma trim_ends c a w : isspace c = false -> trim w = w -> w <> [] -> trim (c :: a ++ w) = c :: a ++ w.
Proof.
  intros Hc Hw Hne. unfold trim. rewrite skip_space_head by exact Hc.
  change (c :: a ++ w) with ((c :: a) ++ w). apply trim_right_app; [|exact Hne].
  rewrite <- Hw at 1. unfold trim. rewrite trim_right_idem. exact Hw.
Qed.

Lemma contains_avoids s p c : c ∈ p -> c ∉ s -> contains s p = false.
Proof.
  intros Hp Hs. apply not_true_iff_false. rewrite Rules.contains_spec. intros (a & b & ->). apply Hs.
  rewrite !elem_of_app. auto.
Qed.

Lemma parse_sink_line sink lists name :
  sink_ok sink -> canonical_domain name -> fresh lists (Domain name) ->
  feed_parse_plain (sink ++ 32 :: name) true lists = Done (add_entry lists (Domain name), true).
Proof.
  intros [[Hsink Hne] Hip] Hn Hf. destruct (entry_word (Domain name) Hn) as [[Hw Hnn] Hdot]. cbn [entry_text] in *.
  unfold feed_parse_plain. pose proof Hip as Hip'. destruct sink as [|c sink]; [congruence|].
  assert (Hc : plain_char c = true) by (inversion Hsink; assumption).
  apply plain_char_facts in Hc as (Hsp & _ & _ & _ & _ & _ & H33 & H35 & _).
  change (byte_at ((c :: sink) ++ 32 :: name) 0) with c.
  replace (c =? 35) with false by lia. replace (c =? 33) with false by lia. cbn [orb].
  assert (Hs : split_first 35 ((c :: sink) ++ 32 :: name) = None).
  { apply split_first_None. rewrite elem_of_app. intros [Hin|Hin]; [|apply elem_of_cons in Hin as [?|Hin]; [discriminate|]];
      (revert Hin; apply plain_avoids; auto). }
  rewrite Hs.
  assert (Ht : trim ((c :: sink) ++ 32 :: name) = (c :: sink) ++ 32 :: name).
  { change ((c :: sink) ++ 32 :: name) with (c :: sink ++ [32] ++ name). rewrite app_assoc.
    apply trim_ends; [exact Hsp|apply plain_trim, Hw|exact Hnn]. }
  rewrite Ht. assert (Hb : beq ((c :: sink) ++ 32 :: name) [] = false) by (apply beq_false; discriminate). rewrite Hb.
  cbn [tokens_loop]. rewrite strtok_word by (auto using plain_blank). rewrite Hip'.
  assert (Hsk : skip_space name = name).
  { destruct name as [|d name]; [congruence|]. apply skip_space_head. inversion Hw. apply plain_char_facts. assumption. }
  rewrite Hsk. assert (Hb' : beq name [] = false) by (apply beq_false; exact Hnn). rewrite Hb'. cbn [andb negb Z.eqb].
  rewrite (tokens_loop_fuel _ (S (length name))) by (rewrite ?length_app; cbn [length]; lia). cbn [tokens_loop].
  rewrite strtok_last by (auto using plain_blank). cbn [andb Z.eqb].
  pose proof (add_token_entry lists (Domain name) Hn Hf) as Ea. cbn [entry_text] in Ea. rewrite Ea.
  destruct (length name); reflexivity.
Qed.

Lemma parse_filter_line lists name :
  canonical_domain name -> fresh lists (Domain name) ->
  feed_parse_adblock (str "||" ++ name ++ str "^") lists = Done (add_entry lists (Domain name), true).
Proof.
  intros Hn [Hc Hf]. destruct (entry_word (Domain name) Hn) as [[Hw Hnn] Hdot]. cbn [entry_text] in *.
  unfold feed_parse_adblock. change (str "||" ++ name ++ str "^") with (124 :: ([124] ++ name) ++ [94]).
  rewrite trim_ends by (reflexivity || discriminate).
  assert (Hav : forall d, d <> 124 -> d <> 94 -> plain_char d = false -> d ∉ 124 :: ([124] ++ name) ++ [94]).
  { intros d H1 H2 Hp Hin. rewrite elem_of_cons, !elem_of_app in Hin.
    destruct Hin as [?|[[Hin|Hin]|Hin]]; [congruence| |destruct (plain_avoids _ _ Hw Hp Hin)|];
      (apply list_elem_of_singleton in Hin; congruence). }
  assert (H35 : 35 ∉ 124 :: ([124] ++ name) ++ [94]) by (apply Hav; [discriminate..|reflexivity]).
  rewrite !(contains_avoids _ _ 35) by (exact H35 || (vm_compute; left)).
  set (line := 124 :: ([124] ++ name) ++ [94]) in *.
  assert (E1 : beq line [] = false) by (apply beq_false; discriminate).
  rewrite E1. change (byte_at line 0) with 124. change (is_prefix (str "@@") line) with false.
  cbn [Z.eqb Pos.eqb orb]. rewrite andb_false_r. cbn [andb].
  assert (H36 : split_first 36 line = None) by (apply split_first_None, Hav; [discriminate..|reflexivity]).
  rewrite H36. change (is_prefix (str "||") line) with true. cbv iota.
  change (drop 2 line) with (name ++ [94]).
  assert (Hsp : span_not anchor_end (name ++ [94]) = name).
  { pose proof (canonical_chars _ Hn) as Hch. clear -Hch. induction Hch as [|c s Hc _ IH]; [reflexivity|].
    cbn [app span_not]. rewrite IH. replace (anchor_end c) with false; [reflexivity|].
    unfold name_char, label_char, anchor_end in *. lia. }
  rewrite Hsp. unfold add_filter. rewrite normalize_canonical by exact Hn. unfold add_domain.
  pose proof (lenZ_nonneg (blocks lists)). unfold entry_count in Hc. rewrite add_unique_fresh by (auto; lia). reflexivity.
Qed.

Lemma word_first w : plain_word w -> exists c t, w = c :: t /\ plain_char c = true.
Proof. intros [Hw Hne]. destruct Hw as [|c t Hc _]; [congruence|eauto]. Qed.

Lemma parse_block_line lists text :
  canonical_block text -> fresh lists (Block text) ->
  feed_parse_adblock text lists = Done (add_entry lists (Block text), true).
Proof.
  intros Hb Hf. destruct (entry_word (Block text) Hb) as [[Hw Hne] _]. cbn [entry_text] in *.
  unfold feed_parse_adblock. rewrite plain_trim by exact Hw.
  assert (Hsl : exists c t, text = c :: t /\ ip_text_char c).
  { destruct Hb as (f & a & p & (Hl & Hok & _) & _ & ->). cbn in Hl, Hok. unfold block_text.
    destruct (encode_address_facts f a Hl Hok) as (Hc & He & _). destruct Hc as [|c t Hc _]; [congruence|]. exists c. eauto. }
  destruct Hsl as (c & t & -> & Hip).
  assert (Hc : plain_char c = true) by (inversion Hw; assumption).
  apply plain_char_facts in Hc as (_ & _ & _ & _ & _ & _ & H33 & H35 & H36 & _ & H64 & H91 & _ & H124).
  assert (Hno : forall d, plain_char d = false -> d ∉ c :: t) by (intros d Hd; apply plain_avoids; assumption).
  rewrite !(contains_avoids _ _ 35) by (first [apply Hno; reflexivity|vm_compute; left]).
  change (byte_at (c :: t) 0) with c. replace (c =? 33) with false by lia. replace (c =? 91) with false by lia.
  rewrite is_prefix_first by (discriminate || (cbn; lia)).
  assert (E1 : beq (c :: t) [] = false) by (apply beq_false; discriminate). rewrite E1. cbn [orb].
  replace (c =? 47) with false by (unfold ip_text_char in Hip; lia). rewrite andb_false_r. cbn [andb].
  assert (E36 : split_first 36 (c :: t) = None) by (apply split_first_None, Hno; reflexivity). rewrite E36.
  rewrite !is_prefix_first by (discriminate || (cbn; lia)). cbn [orb].
  exact (parse_word false lists (Block (c :: t)) Hb Hf).
Qed.

(** A line of a list is read as its entry. *)
Lemma parse_line_entry f sink lists e :
  (f = HOSTS -> sink_ok sink) -> entry_ok e -> fresh lists e ->
  parse_line f (render f sink e) lists = Done (add_entry lists e, true).
Proof.
  intros Hs He Hf. destruct e as [name|text], f; cbn [parse_line render].
  - exact (parse_word false lists (Domain name) He Hf).
  - apply parse_sink_line; auto.
  - apply parse_filter_line; auto.
  - exact (parse_word false lists (Block text) He Hf).
  - exact (parse_word true lists (Block text) He Hf).
  - apply parse_block_line; auto.
Qed.

(** What a line looks like to the loop over the lines. *)
Definition line_ok (line : bytes) : Prop :=
  Forall (fun c => newline c = false /\ 0 < c) line /\ line <> [] /\ trim line = line /\ is_prefix bom line = false.

Lemma plain_line s : Forall (fun c => plain_char c = true) s -> Forall (fun c => newline c = false /\ 0 < c) s.
Proof. apply List.Forall_impl. intros c Hc. apply plain_char_facts in Hc as (_ & _ & _ & Hn & _ & Hc & _). split; [exact Hn|lia]. Qed.

Lemma not_bom c s : plain_char c = true \/ c = 124 -> is_prefix bom (c :: s) = false.
Proof.
  intros Hc. apply is_prefix_first; [|discriminate]. cbn. destruct Hc as [Hc| ->]; [|discriminate].
  unfold plain_char, name_char, label_char, block_char, isdigit in Hc. lia.
Qed.

Lemma render_line f sink e : (f = HOSTS -> sink_ok sink) -> entry_ok e -> line_ok (render f sink e).
Proof.
  intros Hs He. destruct (entry_word e He) as [Hw _]. pose proof Hw as [Hch Hne]. destruct (word_first _ Hw) as (c & t & Ec & Hc).
  assert (Hplain : line_ok (entry_text e)).
  { split_and!; [apply plain_line, Hch|exact Hne|apply plain_trim, Hch|]. rewrite Ec. apply not_bom. auto. }
  destruct e as [name|text], f; try exact Hplain; cbn [render entry_text] in *.
  - destruct (Hs eq_refl) as [[Hsink Hsne] _]. destruct (word_first sink (conj Hsink Hsne)) as (d & u & -> & Hd). split_and!.
    + apply Forall_app. split; [apply plain_line, Hsink|]. constructor; [split; [reflexivity|lia]|apply plain_line, Hch].
    + discriminate.
    + change ((d :: u) ++ 32 :: name) with (d :: u ++ [32] ++ name). rewrite app_assoc.
      apply trim_ends; [apply plain_char_facts, Hd|apply plain_trim, Hch|exact Hne].
    + apply not_bom. auto.
  - change (str "||" ++ name ++ str "^") with (124 :: ([124] ++ name) ++ [94]). split_and!.
    + constructor; [split; [reflexivity|lia]|]. apply Forall_app. split; [|constructor; [split; [reflexivity|lia]|constructor]].
      constructor; [split; [reflexivity|lia]|apply plain_line, Hch].
    + discriminate.
    + apply trim_ends; reflexivity || discriminate.
    + apply not_bom. auto.
Qed.

Fixpoint fresh_all (lists : entries) (l : list entry) : Prop :=
  match l with
  | [] => True
  | e :: l' => fresh lists e /\ fresh_all (add_entry lists e) l'
  end.

Lemma beq_format f : beq (format_name f) (str "adblock") = match f with ADBLOCK => true | _ => false end /\
  beq (format_name f) (str "hosts") = match f with HOSTS => true | _ => false end.
Proof. destruct f; split; reflexivity. Qed.

Lemma strtok_line line rest : line_ok line -> strtok newline (line ++ 10 :: rest) = Some (line, rest).
Proof.
  intros (Hl & Hne & _). apply strtok_word; [|exact Hne|reflexivity]. eapply List.Forall_impl; [|exact Hl]. intros c Hc. apply Hc.
Qed.

Lemma lines_loop_document f sink l lists n fuel :
  (f = HOSTS -> sink_ok sink) -> Forall entry_ok l -> fresh_all lists l -> (length (document f sink l) < fuel)%nat ->
  lines_loop fuel (format_name f) (document f sink l) lists n = Done (fold_left add_entry l lists, n).
Proof.
  intros Hs Hl. revert lists fuel. induction Hl as [|e l He Hl IH]; intros lists fuel Hf Hfuel; (destruct fuel as [|fuel]; [lia|]); [reflexivity|].
  destruct Hf as [Hf Hfs].
  assert (Ed : document f sink (e :: l) = render f sink e ++ 10 :: document f sink l).
  { unfold document. cbn [map concat]. rewrite <- app_assoc. reflexivity. }
  pose proof (render_line f sink e Hs He) as Hr. rewrite Ed in *. cbn [lines_loop].
  rewrite strtok_line by exact Hr. destruct Hr as (_ & Hne & Ht & Hbom). cbv zeta. rewrite Ht, Hbom.
  assert (Hb : beq (render f sink e) [] = false) by (apply beq_false; exact Hne). rewrite Hb.
  destruct (beq_format f) as [-> ->].
  assert (Hp : (if match f with ADBLOCK => true | _ => false end then feed_parse_adblock (render f sink e) lists
                else feed_parse_plain (render f sink e) match f with HOSTS => true | _ => false end lists)
               = Done (add_entry lists e, true)).
  { rewrite <- (parse_line_entry f sink lists e Hs He Hf). destruct f; reflexivity. }
  rewrite Hp. cbn [mbind outcome_bind].
  assert (Hcnt : entry_count (add_entry lists e) = entry_count lists + 1).
  { destruct e; unfold entry_count; cbn [add_entry domains blocks]; rewrite lenZ_app; change (lenZ [_]) with 1; lia. }
  destruct Hf as [Hcount _]. replace (entry_count (add_entry lists e) >? CH_RULE_FEED_MAX_ENTRIES) with false by lia.
  cbn [fold_left]. apply IH; [exact Hfs|]. rewrite length_app in Hfuel. cbn [length] in Hfuel. lia.
Qed.

Definition entries_of (ds bs : list bytes) : list entry := map Domain ds ++ map Block bs.

Lemma fold_entries ds bs lists :
  fold_left add_entry (entries_of ds bs) lists = mk_entries (domains lists ++ ds) (blocks lists ++ bs).
Proof.
  unfold entries_of. rewrite fold_left_app.
  assert (Hd : fold_left add_entry (map Domain ds) lists = mk_entries (domains lists ++ ds) (blocks lists)).
  { revert lists. induction ds as [|d ds IH]; intros lists; cbn [map fold_left]; [rewrite app_nil_r; destruct lists; reflexivity|].
    rewrite IH. cbn. rewrite <- app_assoc. reflexivity. }
  rewrite Hd. clear Hd. generalize (domains lists ++ ds) as a. generalize (blocks lists) as b.
  induction bs as [|t bs IH]; intros b a; cbn [map fold_left]; [rewrite app_nil_r; reflexivity|].
  cbn [add_entry domains blocks]. rewrite IH, <- app_assoc. reflexivity.
Qed.

Lemma fresh_blocks bs a b :
  NoDup (b ++ bs) -> lenZ a + lenZ b + lenZ bs <= CH_RULE_FEED_MAX_ENTRIES ->
  fresh_all (mk_entries a b) (map Block bs).
Proof.
  revert b. induction bs as [|t bs IH]; intros b Hn Hc; cbn [map fresh_all]; [exact I|]. rewrite lenZ_cons in Hc.
  pose proof (lenZ_nonneg bs). split.
  - split; [unfold entry_count; cbn; lia|]. cbn. apply list.NoDup_app in Hn as (_ & Hd & _). intros Hin. apply (Hd t Hin). left.
  - cbn [add_entry domains blocks]. apply IH; [rewrite <- app_assoc; exact Hn|]. rewrite lenZ_app. change (lenZ [t]) with 1. lia.
Qed.

Lemma fresh_entries ds bs a b :
  NoDup (a ++ ds) -> NoDup (b ++ bs) -> lenZ a + lenZ ds + lenZ b + lenZ bs <= CH_RULE_FEED_MAX_ENTRIES ->
  fresh_all (mk_entries a b) (entries_of ds bs).
Proof.
  unfold entries_of. revert a. induction ds as [|d ds IH]; intros a Hn Hb Hc; cbn [map app fresh_all].
  { apply fresh_blocks; [exact Hb|]. rewrite lenZ_nil in Hc. lia. }
  rewrite lenZ_cons in Hc. pose proof (lenZ_nonneg bs). pose proof (lenZ_nonneg ds). split.
  - split; [unfold entry_count; cbn; lia|]. cbn. apply list.NoDup_app in Hn as (_ & Hd & _). intros Hin. apply (Hd d Hin). left.
  - cbn [add_entry domains blocks]. apply IH; [rewrite <- app_assoc; exact Hn|exact Hb|]. rewrite lenZ_app. change (lenZ [d]) with 1. lia.
Qed.

(** The format of a list is that of its first telling line. *)
Lemma line_format_plain e : entry_ok e -> line_format (entry_text e) = None.
Proof.
  intros He. destruct (entry_word e He) as [Hw _]. pose proof Hw as [Hch Hne]. destruct (word_first _ Hw) as (c & t & Ec & Hc).
  unfold line_format. rewrite plain_trim by exact Hch.
  assert (Hb : beq (entry_text e) [] = false) by (apply beq_false; exact Hne). rewrite Hb.
  rewrite (contains_avoids _ _ 35) by (first [apply plain_avoids; [exact Hch|reflexivity]|vm_compute; left]).
  unfold feed_detect_hosts. rewrite strtok_last by (auto using plain_blank). change (strtok blank []) with (@None (bytes * bytes)).
  apply plain_char_facts in Hc as (_ & _ & _ & _ & _ & _ & H33 & H35 & _ & _ & H64 & _ & _ & H124).
  rewrite Ec. change (byte_at (c :: t) 0) with c. replace (c =? 33) with false by lia. replace (c =? 35) with false by lia.
  rewrite !is_prefix_first by (discriminate || (cbn; lia)). reflexivity.
Qed.

Lemma detect_plain l fuel sink : Forall entry_ok l -> detect_loop fuel (document PLAIN sink l) = str "plain".
Proof.
  intros Hl. revert fuel. induction Hl as [|e l He Hl IH]; intros fuel; (destruct fuel as [|fuel]; [reflexivity|]); [reflexivity|].
  assert (Ed : document PLAIN sink (e :: l) = entry_text e ++ 10 :: document PLAIN sink l).
  { unfold document. cbn [map concat]. rewrite <- app_assoc. destruct e; reflexivity. }
  assert (Hr : line_ok (entry_text e)) by (destruct e; exact (render_line PLAIN sink _ ltac:(discriminate) He)).
  rewrite Ed. cbn [detect_loop]. rewrite strtok_line by exact Hr. rewrite line_format_plain by exact He. apply IH.
Qed.

Lemma line_format_domain f sink name :
  f <> PLAIN -> (f = HOSTS -> sink_ok sink) -> canonical_domain name -> line_format (render f sink (Domain name)) = Some (format_name f).
Proof.
  intros Hf Hs Hn. pose proof (render_line f sink (Domain name) Hs Hn) as (_ & _ & Ht & _). unfold line_format. rewrite Ht.
  destruct (entry_word (Domain name) Hn) as [[Hch Hne] _]. cbn [entry_text] in *. destruct f; [congruence| |]; cbn [render].
  - destruct (Hs eq_refl) as [[Hsink Hsne] Hip]. pose proof (strtok_word blank sink 32 name (plain_blank _ Hsink) Hsne eq_refl) as Etok.
    unfold feed_detect_hosts. rewrite Etok, strtok_last by (auto using plain_blank). rewrite Hip.
    destruct (word_first sink (conj Hsink Hsne)) as (c & t & -> & Hc).
    assert (H35n : 35 ∉ (c :: t) ++ 32 :: name).
    { rewrite elem_of_app. intros [Hin|Hin]; [|apply elem_of_cons in Hin as [?|Hin]; [discriminate|]]; (revert Hin; apply plain_avoids; auto). }
    rewrite (contains_avoids _ _ 35) by (first [exact H35n|vm_compute; left]).
    apply plain_char_facts in Hc as (_ & _ & _ & _ & _ & _ & H33 & H35 & _ & _ & H64 & _ & _ & H124).
    change (byte_at ((c :: t) ++ 32 :: name) 0) with c. replace (c =? 33) with false by lia. replace (c =? 35) with false by lia.
    cbn [app]. rewrite !is_prefix_first by (discriminate || (cbn; lia)).
    assert (Hb : beq (c :: t ++ 32 :: name) [] = false) by (apply beq_false; discriminate). rewrite Hb. reflexivity.
  - assert (Hb : beq (str "||" ++ name ++ str "^") [] = false) by (apply beq_false; discriminate). rewrite Hb. reflexivity.
Qed.

Lemma detect_document f sink ds bs :
  (f = HOSTS -> sink_ok sink) -> Forall entry_ok (entries_of ds bs) -> f = PLAIN \/ ds <> [] ->
  feed_detect_format (document f sink (entries_of ds bs)) = format_name f.
Proof.
  intros Hs Hl Hd. unfold feed_detect_format. assert (Hf : f = PLAIN \/ f <> PLAIN) by (destruct f; auto; right; discriminate).
  destruct Hf as [-> | Hf]; [apply detect_plain, Hl|]. destruct Hd as [?|Hd]; [congruence|].
  destruct ds as [|d ds]; [congruence|]. unfold entries_of in *. cbn [map app] in *. inversion_clear Hl as [|? ? He _].
  assert (Ed : document f sink (Domain d :: map Domain ds ++ map Block bs)
               = render f sink (Domain d) ++ 10 :: document f sink (map Domain ds ++ map Block bs)).
  { unfold document. cbn [map concat]. rewrite <- app_assoc. reflexivity. }
  rewrite Ed. cbn [detect_loop]. rewrite strtok_line by (apply render_line; assumption).
  rewrite line_format_domain by assumption. reflexivity.
Qed.

Lemma until_nul_all s : Forall (fun c => 0 < c) s -> until_nul s = s.
Proof. induction 1 as [|c s Hc _ IH]; [reflexivity|]. cbn [until_nul]. replace (c =? 0) with false by lia. rewrite IH. reflexivity. Qed.

Lemma document_bytes f sink l : (f = HOSTS -> sink_ok sink) -> Forall entry_ok l -> Forall (fun c => 0 < c) (document f sink l).
Proof.
  intros Hs. induction 1 as [|e l He _ IH]; [constructor|]. unfold document. cbn [map concat]. apply Forall_app. split; [|exact IH].
  apply Forall_app. split; [|constructor; [lia|constructor]].
  destruct (render_line f sink e Hs He) as (Hc & _). eapply List.Forall_impl; [|exact Hc]. intros c Hc'. apply Hc'.
Qed.

Lemma parse_document f sink ds bs requested :
  (f = HOSTS -> sink_ok sink) -> Forall canonical_domain ds -> Forall canonical_block bs -> NoDup ds -> NoDup bs ->
  1 <= lenZ ds + lenZ bs <= CH_RULE_FEED_MAX_ENTRIES ->
  lenZ (document f sink (entries_of ds bs)) <= CH_RULE_FEED_MAX_BYTES ->
  requested = Some (format_name f) \/ (requested = None /\ (f = PLAIN \/ ds <> [])) ->
  ch_rule_feed_parse (document f sink (entries_of ds bs)) requested
  = Done (mk_rule_feed (format_name f) (feed_sort ds) (feed_sort bs) 0).
Proof.
  intros Hs Hd Hb Nd Nb Hc Hlen Hreq.
  assert (Hl : Forall entry_ok (entries_of ds bs)).
  { unfold entries_of. apply Forall_app. split; apply List.Forall_map; assumption. }
  unfold ch_rule_feed_parse. case_if; [lia|]. rewrite until_nul_all by (apply document_bytes; assumption). cbv zeta.
  set (fmt := if beq (normalized_format requested) (str "auto") then _ else _).
  assert (Hfmt : fmt = format_name f).
  { unfold fmt. destruct Hreq as [-> | [-> Hauto]]; [destruct f; reflexivity|].
    change (beq (normalized_format None) (str "auto")) with true. cbv iota. apply detect_document; assumption. }
  rewrite Hfmt. clearbody fmt.
  replace (_ && _ && _) with false by (destruct f; reflexivity).
  rewrite lines_loop_document; [|assumption..| |lia].
  - rewrite fold_entries. cbn [mbind outcome_bind domains blocks no_entries app].
    unfold entry_count. cbn [domains blocks]. case_if; [lia|]. reflexivity.
  - apply fresh_entries; [assumption..|]. rewrite lenZ_nil. lia.
Qed.

(** *** Properties *)

(** C36: What the parser accepts can be used for rules.  Whatever the bytes of a
    download are, when parsing succeeds there are between one and 200,000
    entries, each list is sorted and without repetition, every domain is a name
    of two or more valid labels that is not an address (but for a final dot
    that may remain), and every block is in canonical form and compiles in the
    rule engine. *)
Theorem feed_parse_sound body requested feed :
  ch_rule_feed_parse body requested = Done feed ->
  feed_ok feed /\ Forall (fun text => exists c, Rules.cidr_compile (Some text) = Done c) (cidrs feed).
Proof.
  intros Hp. apply parse_ok in Hp. split; [exact Hp|]. eapply List.Forall_impl; [|exact (ok_cidrs _ Hp)].
  intros text Ht. apply canonical_block_facts, Ht.
Qed.

(** A list reads back from each of its formats.  Domains and blocks in
    canonical form, written one a line as plain names, as a hosts file behind
    any address or as filters, parse to exactly these entries in sorted order,
    none skipped, when the format is named and also when it is detected. *)
Theorem feed_list_round_trip f sink ds bs requested :
  (f = HOSTS -> sink_ok sink) -> Forall canonical_domain ds -> Forall canonical_block bs -> NoDup ds -> NoDup bs ->
  1 <= lenZ ds + lenZ bs <= CH_RULE_FEED_MAX_ENTRIES ->
  lenZ (document f sink (entries_of ds bs)) <= CH_RULE_FEED_MAX_BYTES ->
  requested = Some (format_name f) \/ (requested = None /\ (f = PLAIN \/ ds <> [])) ->
  ch_rule_feed_parse (document f sink (entries_of ds bs)) requested
  = Done (mk_rule_feed (format_name f) (feed_sort ds) (feed_sort bs) 0).
Proof. apply parse_document. Qed.

(** The canonical text of a block stands for the same addresses.  A text is
    normalised exactly when it denotes a block; the result is canonical, is its
    own normal form, compiles in the rule engine to the block of the lowest
    address, and an address is in that block exactly when it is in the block of
    the text as it was written. *)
Theorem normalize_cidr_block raw text :
  feed_normalize_cidr raw = Some text ->
  feed_normalize_cidr text = Some text /\
  exists family address prefix c, denotes_block raw family address prefix /\ Rules.cidr_compile (Some text) = Done c /\
    Rules.cidr_family c = family /\
    forall a, Rules.in_block c a <-> Rules.in_block (Rules.mk_cidr family address prefix raw) a.
Proof.
  intros Hn. split; [apply canonical_block_facts, (normalize_cidr_canonical raw), Hn|].
  apply normalize_cidr_iff in Hn as (family & address & prefix & Hd & ->).
  destruct (mask_value_kept family address prefix [] (denotes_wf _ _ _ _ _ Hd)) as (Hwf & _ & Hin).
  exists family, address, prefix. eexists. split_and!; [exact Hd|apply block_text_compiles, Hwf|reflexivity|].
  intros a. exact (Hin a).
Qed.

End Entries.

(** ** Witnesses *)

Section Witnesses.
Import PlainInet.

Definition w_domains : list bytes := [str "ads.example.com"; str "beacon.example.net"].
Definition w_blocks : list bytes := [str "10.0.0.0/8"].

Lemma w_domain a b c :
  label_valid a && label_valid b && label_valid c && negb (feed_is_ip_address (dots [a; b; c])) = true ->
  canonical_domain (dots [a; b; c]).
Proof.
  rewrite !andb_true_iff, negb_true_iff. intros [[[Ha Hb] Hc] Hip]. split; [|exact Hip]. exists [a; b; c].
  split_and!; [repeat constructor; assumption|cbn; lia|reflexivity].
Qed.

Lemma w_domains_ok : Forall canonical_domain w_domains.
Proof.
  apply List.Forall_cons; [exact (w_domain (str "ads") (str "example") (str "com") eq_refl)|].
  apply List.Forall_cons; [exact (w_domain (str "beacon") (str "example") (str "net") eq_refl)|constructor].
Qed.

Lemma w_blocks_ok : Forall canonical_block w_blocks.
Proof. apply List.Forall_cons; [apply (normalize_cidr_canonical (str "10.1.2.3/8")); vm_compute; reflexivity|constructor]. Qed.

Lemma w_sink_ok : sink_ok (str "0.0.0.0").
Proof. split; [split; [repeat constructor|discriminate]|reflexivity]. Qed.

Definition w_body : bytes :=
  str "! title" ++ [10] ++ str "||Ads.Example.com^$third-party" ++ [10] ++ str "|https://b.example.net/x" ++ [10]
  ++ str "/banner/" ++ [10] ++ str "192.0.2.77/24".

Definition w_feed : ch_rule_feed :=
  mk_rule_feed (str "adblock") [str "ads.example.com"; str "b.example.net"] [str "192.0.2.0/24"] 1.

Lemma feed_parse_sound_witness :
  feed_ok w_feed /\ Forall (fun text => exists c, Rules.cidr_compile (Some text) = Done c) (cidrs w_feed).
Proof. apply (feed_parse_sound w_body (Some (str "auto"))). vm_compute. reflexivity. Defined.

(** A name with two final dots keeps one of them, and is not its own normal form. *)
Example final_dot_remains :
  feed_normalize_domain (Some (str "a.example..")) = Some (str "a.example.") /\
  feed_normalize_domain (Some (str "a.example.")) = Some (str "a.example").
Proof. split; vm_compute; reflexivity. Qed.

End Witnesses.
End RuleFeed.
