(* ===== verification/Disk.v ===== *)
(** * The disk

    What the components that keep files share: the files of a disk and the
    loops that write one.  What a system call reports is an argument.  A
    function that writes returns all the disks that exist while it runs, so
    that a theorem about them covers a crash at any moment. *)

From stdpp Require Import gmap.
From S2P Require Import Prelude CLib.

Module Disk.

Record disk : Type := mk_disk {
  files : gmap bytes bytes;
  directories : gset bytes
}.

Definition with_file (d : disk) (path content : bytes) : disk := mk_disk (<[path := content]> (files d)) (directories d).
Definition without_file (d : disk) (path : bytes) : disk := mk_disk (delete path (files d)) (directories d).

(** What one call of [write] reports. *)
Inductive write_call : Type := Interrupted | Refused (message : bytes) | Accepted (count : Z).

(** The write loop: the numbers of bytes written after each call, and the
    error that stops it.  After the last call of the list the rest is taken. *)
Fixpoint write_loop (calls : list write_call) (length written : Z) : list Z * option bytes :=
  if written <? length then
    match calls with
    | [] => ([length], None)
    | Interrupted :: calls' => write_loop calls' length written
    | Refused message :: _ => ([], Some message)
    | Accepted count :: calls' =>
        if count <=? 0 then ([], Some [])
        else
          let written := written + Z.min count (length - written) in
          let '(states, error) := write_loop calls' length written in
          (written :: states, error)
    end
  else ([], None).

(** What opening and reading a file reports. *)
Inductive read_report : Type := Readable | Seek_failed | Read_failed.

(** ** Facts *)

Lemma write_loop_succeeds calls length written :
  Forall (fun call => match call with Interrupted => True | Refused _ => False | Accepted count => 0 < count end) calls ->
  snd (write_loop calls length written) = None.
Proof.
  intros Hc. revert written. induction Hc as [|call calls Hcall _ IH]; intros written; cbn [write_loop]; case_if; try reflexivity.
  destruct call as [|m|count]; [apply IH|contradiction|]. replace (count <=? 0) with false by lia.
  specialize (IH (written + Z.min count (length - written))). cbv zeta.
  destruct (write_loop calls length (written + Z.min count (length - written))). exact IH.
Qed.

End Disk.
