(* ===== verification/FeedCache.v ===== *)
(** * The cache of rule lists: [native/src/rule_feed.c], second half

    A parsed list is kept as a JSON file beside the configuration.  Files are
    found by a prefix of their name and checked against the identity of the
    list (profile, name and URL).  A refresh downloads a list over HTTP and
    replaces the file.

    The disk is a map from paths to contents; what the system calls report is
    an argument, and so are the replies of the HTTP server.  Allocation is
    taken to succeed but for the JSON buffer.  The strings of a cache are not
    null: its callers copy them. *)

From stdpp Require Import gmap sorting.
From S2P Require Import Prelude CLib Inet IpDns Rules Json JsonText HttpSafety TempRules Config ConfigValid.
From S2P Require Import RulesConfig Sha256 RuleFeed Disk.

(** The conversion from [double] to [size_t], undefined out of range. *)
Class DoubleSize `{Double} : Type := {
  double_to_size : double -> option Z;
  double_to_size_int n : 0 <= n <= 2 ^ 53 -> double_to_size (double_of_int64 n) = Some n
}.

Module FeedCache.
Import Json JsonText RuleFeed Disk.

Record ch_rule_feed_cache : Type := mk_cache {
  feed : ch_rule_feed;
  profile : bytes;
  name : bytes;
  url : bytes;
  action : bytes;
  networks : list bytes;
  etag : bytes;
  last_modified : bytes;
  fetched_ts_ns : Z
}.

(** ** Names of files *)

Definition hyphen (c : Z) : bool := c =? 45.

Definition safe_char (byte : Z) : Z :=
  let value := tolower byte in
  if ((97 <=? value) && (value <=? 122)) || ((48 <=? value) && (value <=? 57)) || (value =? 45) || (value =? 95)
  then value else 45.

Definition feed_safe_name (raw : bytes) : bytes :=
  let result := skip_delimiters hyphen (map safe_char raw) in
  match reverse (skip_delimiters hyphen (reverse result)) with
  | [] => str "unnamed"
  | trimmed => trimmed
  end.

Definition feed_cache_directory (config_path : bytes) (kind : RulesConfig.feed_kind) : bytes :=
  let parent := match split_last 47 config_path with
                | None => str "."
                | Some ([], _) => str "/"
                | Some (parent, _) => parent
                end in
  parent ++ match kind with
            | RulesConfig.CH_RULE_FEED_RULE_SET => str "/.clambhook-rule-sets"
            | RulesConfig.CH_RULE_FEED_SUBSCRIPTION => str "/.clambhook-subscriptions"
            end.

Definition hex_pair (byte : Z) : bytes := [hex_digit (Z.shiftr byte 4); hex_digit (Z.land byte 15)].

Definition identity_digest (profile name url : bytes) : bytes :=
  let hash := Sha256.feed_sha256_init in
  let hash := Sha256.feed_sha256_update hash profile in
  let hash := Sha256.feed_sha256_update hash [0] in
  let hash := Sha256.feed_sha256_update hash name in
  let hash := Sha256.feed_sha256_update hash [0] in
  let hash := Sha256.feed_sha256_update hash url in
  Sha256.feed_sha256_final hash.

Definition short_hash (digest : bytes) : bytes := concat (map hex_pair (take 6 digest)).

(** The name of a file in the directory. *)
Definition cache_name (profile name url : bytes) : bytes :=
  feed_safe_name profile ++ [45] ++ feed_safe_name name ++ [45] ++ short_hash (identity_digest profile name url)
  ++ str ".json".

Definition in_directory (directory file : bytes) : bytes := directory ++ [47] ++ file.

Definition feed_cache_path (config_path : bytes) (kind : RulesConfig.feed_kind) (profile name url : bytes) : bytes :=
  in_directory (feed_cache_directory config_path kind) (cache_name profile name url).

Definition is_subscription (kind : RulesConfig.feed_kind) : bool :=
  match kind with RulesConfig.CH_RULE_FEED_SUBSCRIPTION => true | RulesConfig.CH_RULE_FEED_RULE_SET => false end.

(** ** The JSON text *)

Section Encode.
Context (grow : Z -> bool).

Definition feed_append_json_strings (l : list bytes) : json_op :=
  all_of [append grow (str "["); append_list grow (append_text grow) true l; append grow (str "]")].

Definition cache_text (kind : RulesConfig.feed_kind) (cache : ch_rule_feed_cache) : json_op :=
  let subscription := is_subscription kind in
  all_of [
    append grow ([123] ++ quoted_key "version" ++ str "1," ++ quoted_key "profile");
    append_text grow (profile cache);
    append grow ([44] ++ quoted_key "name");
    append_text grow (name cache);
    append grow ([44] ++ quoted_key "url");
    append_text grow (url cache);
    append grow ([44] ++ quoted_key "format");
    append_text grow (format (feed cache));
    when_op subscription (all_of [
      append grow ([44] ++ quoted_key "action");
      append_text grow (if beq (action cache) [] then str "block" else action cache);
      when_op (lenZ (networks cache) >? 0) (all_of [
        append grow ([44] ++ quoted_key "networks");
        feed_append_json_strings (networks cache)])]);
    when_op (negb (beq (etag cache) [])) (all_of [
      append grow ([44] ++ quoted_key "etag");
      append_text grow (etag cache)]);
    when_op (negb (beq (last_modified cache) [])) (all_of [
      append grow ([44] ++ quoted_key "last_modified");
      append_text grow (last_modified cache)]);
    append grow ([44] ++ quoted_key "fetched_ts_ns" ++ dec (fetched_ts_ns cache));
    when_op (negb (lenZ (domain_suffixes (feed cache)) =? 0)) (all_of [
      append grow ([44] ++ quoted_key "domain_suffixes");
      feed_append_json_strings (domain_suffixes (feed cache))]);
    when_op (negb (lenZ (cidrs (feed cache)) =? 0)) (all_of [
      append grow ([44] ++ quoted_key "cidrs");
      feed_append_json_strings (cidrs (feed cache))]);
    append grow ([44] ++ quoted_key "skipped" ++ dec (skipped (feed cache)) ++ str "}")].

End Encode.

(** ** The disk *)

(** What the system calls of one write of the cache report; [None] is success.
    [io_temporary] are the letters that [mkstemp] chooses. *)
Record write_io : Type := mk_io {
  io_mkdir : option bytes;
  io_create : option bytes;
  io_chmod : option bytes;
  io_temporary : bytes;
  io_writes : list write_call;
  io_close : option bytes;
  io_rename : option bytes
}.

(** The disks that a write of [text] passes through, and its result. *)
Definition replace_file (io : write_io) (d : disk) (directory path text : bytes) : list disk * result unit :=
  let temporary := in_directory directory (str ".rule-feed-" ++ io_temporary io) in
  let io_error (m : bytes) : result unit := fail CH_ERROR_IO m in
  match io_create io with
  | Some message => ([d], io_error (str "create rule feed cache: " ++ message))
  | None =>
      let created := with_file d temporary [] in
      match io_chmod io with
      | Some message => ([created; without_file created temporary], io_error (str "create rule feed cache: " ++ message))
      | None =>
          let '(states, error) := write_loop (io_writes io) (lenZ text) 0 in
          let trace := created :: map (fun n => with_file d temporary (take (Z.to_nat n) text)) states in
          let removed := without_file created temporary in
          match error, io_close io, io_rename io with
          | Some message, _, _ => (trace ++ [removed], io_error (str "write rule feed cache: " ++ message))
          | None, Some message, _ => (trace ++ [removed], io_error (str "close rule feed cache: " ++ message))
          | None, None, Some message => (trace ++ [removed], io_error (str "replace rule feed cache: " ++ message))
          | None, None, None =>
              (trace ++ [with_file (without_file created temporary) path text], Done tt)
          end
      end
  end.

Section Write.
Context (grow : Z -> bool).

Definition ch_rule_feed_cache_write (io : write_io) (d : disk) (config_path : option bytes) (kind : RulesConfig.feed_kind)
    (cache : ch_rule_feed_cache) : list disk * result unit :=
  match config_path with
  | None | Some [] => ([d], fail CH_ERROR_INVALID_ARGUMENT (str "complete rule feed cache metadata is required"))
  | Some config_path =>
      let directory := feed_cache_directory config_path kind in
      let path := feed_cache_path config_path kind (profile cache) (name cache) (url cache) in
      match io_mkdir io with
      | Some message => ([d], fail CH_ERROR_IO (str "create rule feed cache directory: " ++ message))
      | None =>
          let d := mk_disk (files d) ({[directory]} ∪ directories d) in
          match take_text (cache_text grow kind cache) (str "encode rule feed cache") with
          | Done text => replace_file io d directory path text
          | Raise e => ([d], Raise e)
          | Fault => ([d], Fault)
          end
      end
  end.

End Write.

(** ** Reading *)

Definition feed_read_file (report : bytes -> read_report) (d : disk) (path : bytes) : result bytes :=
  let io_error : result bytes := fail CH_ERROR_IO (str "read rule feed cache " ++ path) in
  match files d !! path with
  | None => Raise not_found
  | Some content =>
      match report path with
      | Seek_failed => io_error
      | _ =>
          if lenZ content >? CH_RULE_FEED_MAX_BYTES + 65536 then
            fail CH_ERROR_INVALID_ARGUMENT (str "rule feed cache is too large")
          else match report path with Read_failed => io_error | _ => Done content end
      end
  end.

Section Decode.
Context `{Inet, DoubleCompare, !DoubleSize}.

Definition get (root : ch_json_value) (key : bytes) : option ch_json_value := ch_json_object_get (Some root) (Some key).

Definition feed_copy_json_string (root : ch_json_value) (key : bytes) (required : bool) : result bytes :=
  let value := get root key in
  match ch_json_string_value value with
  | Some text => Done text
  | None =>
      if negb required && bool_decide (value = None) then Done []
      else fail CH_ERROR_PARSE (str "rule feed cache " ++ key ++ str " must be a string")
  end.

(** The loop over the entries of an array. *)
Fixpoint load_json_loop (key : bytes) (normalize : bytes -> option bytes) (l : list ch_json_value) (out : list bytes)
    : result (list bytes) :=
  match l with
  | [] => Done out
  | item :: l' =>
      match ch_json_string_value (Some item) with
      | None => fail CH_ERROR_PARSE (str "rule feed cache " ++ key ++ str " entries must be strings")
      | Some raw =>
          match normalize raw with
          | None => load_json_loop key normalize l' out
          | Some normalized =>
              out ← feed_strings_add_unique out normalized;
              load_json_loop key normalize l' out
          end
      end
  end.

Definition feed_load_json_strings (root : ch_json_value) (key : bytes) (domains : bool) : result (list bytes) :=
  match get root key with
  | None => Done []
  | Some (CH_JSON_ARRAY l) =>
      load_json_loop key (if domains then fun raw => feed_normalize_domain (Some raw) else feed_normalize_cidr) l []
  | Some _ => fail CH_ERROR_PARSE (str "rule feed cache " ++ key ++ str " must be an array")
  end.

Fixpoint load_networks_loop (l : list ch_json_value) (out : list bytes) : result (list bytes) :=
  match l with
  | [] => Done out
  | item :: l' =>
      match ch_json_string_value (Some item) with
      | None => fail CH_ERROR_PARSE (str "rule feed cache networks must be strings")
      | Some network =>
          out ← feed_strings_add_unique out (map tolower (take 15 network));
          load_networks_loop l' out
      end
  end.

Definition load_networks (root : ch_json_value) : result (list bytes) :=
  match get root (str "networks") with
  | None => Done []
  | Some (CH_JSON_ARRAY l) => load_networks_loop l []
  | Some _ => fail CH_ERROR_PARSE (str "rule feed cache networks must be an array")
  end.

(** The time is looked for in the text, since a [double] would round it. *)
Definition timestamp_tag : bytes := [34] ++ str "fetched_ts_ns" ++ [34].

Definition decode_timestamp (json : bytes) : Z :=
  match HttpSafety.after timestamp_tag (until_nul json) with
  | None => 0
  | Some rest =>
      match split_first 58 rest with
      | None => 0
      | Some (_, text) =>
          let parsed := strtol (skip_space text) in
          if negb (scan_range parsed) && scan_any parsed then scan_value parsed else 0
      end
  end.

Definition zero : double := double_of_int64 0.
Definition one : double := double_of_int64 1.

Definition is_object (root : ch_json_value) : bool := match root with CH_JSON_OBJECT _ => true | _ => false end.

Definition feed_decode_cache (json profile name url : bytes) : result ch_rule_feed_cache :=
  root ← ch_json_parse (Some json);
  let version := ch_json_number_value (get root (str "version")) zero in
  if negb (is_object root) || negb (Temporary.double_eqb version one)
  then fail CH_ERROR_PARSE (str "rule feed cache version is unsupported")
  else
    out_profile ← feed_copy_json_string root (str "profile") true;
    out_name ← feed_copy_json_string root (str "name") true;
    out_url ← feed_copy_json_string root (str "url") true;
    if negb (beq out_profile profile) || negb (beq out_name name) || negb (beq out_url url) then Raise not_found
    else
      out_format ← feed_copy_json_string root (str "format") true;
      out_action ← feed_copy_json_string root (str "action") false;
      out_etag ← feed_copy_json_string root (str "etag") false;
      out_last_modified ← feed_copy_json_string root (str "last_modified") false;
      domains ← feed_load_json_strings root (str "domain_suffixes") true;
      blocks ← feed_load_json_strings root (str "cidrs") false;
      networks ← load_networks root;
      match double_to_size (ch_json_number_value (get root (str "skipped")) zero) with
      | None => Fault
      | Some skipped =>
          Done (mk_cache (mk_rule_feed out_format (feed_sort domains) (feed_sort blocks) skipped)
                  out_profile out_name out_url out_action (feed_sort networks) out_etag out_last_modified
                  (decode_timestamp json))
      end.

(** ** Loading *)

Definition cache_missing {A} : result A := fail CH_ERROR_NOT_FOUND (str "rule feed cache not found").

(** The names that may hold the cache of a list. *)
Definition file_matches (prefix entry : bytes) : bool :=
  negb (lenZ entry <=? lenZ prefix + 5) && is_prefix prefix entry
  && beq (sub entry (lenZ entry - 5) 5) (str ".json").

Definition cache_prefix (profile name : bytes) : bytes := feed_safe_name profile ++ [45] ++ feed_safe_name name ++ [45].

Section Load.
(** How reading a file goes, and the order in which [readdir] gives names. *)
Context (report : bytes -> read_report) (readdir : disk -> bytes -> list bytes).

Fixpoint load_loop (d : disk) (directory prefix profile name url : bytes) (entries : list bytes)
    : result ch_rule_feed_cache :=
  match entries with
  | [] => cache_missing
  | entry :: entries' =>
      if negb (file_matches prefix entry) then load_loop d directory prefix profile name url entries'
      else
        match json ← feed_read_file report d (in_directory directory entry); feed_decode_cache json profile name url with
        | Done cache => Done cache
        | Raise e =>
            if bool_decide (code e = CH_ERROR_NOT_FOUND) then load_loop d directory prefix profile name url entries'
            else Raise e
        | Fault => Fault
        end
  end.

Definition ch_rule_feed_cache_load (d : disk) (config_path : option bytes) (kind : RulesConfig.feed_kind)
    (profile name url : bytes) : result ch_rule_feed_cache :=
  match config_path with
  | None | Some [] => cache_missing
  | Some config_path =>
      let directory := feed_cache_directory config_path kind in
      if bool_decide (directory ∈ directories d)
      then load_loop d directory (cache_prefix profile name) profile name url (readdir d directory)
      else cache_missing
  end.

(** ** Operations on a stored cache *)

Definition ch_rule_feed_cache_metadata_json (grow : Z -> bool) (d : disk) (config_path : option bytes)
    (kind : RulesConfig.feed_kind) (profile name url : bytes) : result bytes :=
  match ch_rule_feed_cache_load d config_path kind profile name url with
  | Raise e => if bool_decide (code e = CH_ERROR_NOT_FOUND) then Done ([123] ++ quoted_key "cached" ++ str "false}") else Raise e
  | Fault => Fault
  | Done cache =>
      take_text (all_of [
        append grow ([123] ++ quoted_key "cached" ++ str "true," ++ quoted_key "etag");
        append_text grow (etag cache);
        append grow ([44] ++ quoted_key "last_modified");
        append_text grow (last_modified cache);
        append grow ([44] ++ quoted_key "fetched_ts_ns" ++ dec (fetched_ts_ns cache) ++ str "}")])
        (str "encode rule feed cache metadata")
  end.

Definition ch_rule_feed_cache_touch (grow : Z -> bool) (io : write_io) (d : disk) (config_path : option bytes)
    (kind : RulesConfig.feed_kind) (profile name url : bytes) (now : Z) : list disk * result unit :=
  match ch_rule_feed_cache_load d config_path kind profile name url with
  | Raise e => ([d], Raise e)
  | Fault => ([d], Fault)
  | Done cache =>
      ch_rule_feed_cache_write grow io d config_path kind
        (mk_cache (feed cache) (FeedCache.profile cache) (FeedCache.name cache) (FeedCache.url cache) (action cache)
           (networks cache) (etag cache) (last_modified cache) now)
  end.

End Load.

Record ch_rule_feed_refresh_options : Type := mk_options {
  opt_config_path : bytes;
  opt_kind : RulesConfig.feed_kind;
  opt_profile : bytes;
  opt_name : bytes;
  opt_url : bytes;
  opt_format : bytes;
  opt_action : option bytes;
  opt_networks : list bytes
}.

(** The cache that a response is stored as. *)
Definition response_cache (options : ch_rule_feed_refresh_options) (feed : ch_rule_feed)
    (etag last_modified : option bytes) (now : Z) : ch_rule_feed_cache :=
  mk_cache feed (opt_profile options) (opt_name options) (opt_url options)
    (match opt_action options with None | Some [] => str "block" | Some action => action end)
    (feed_sort (opt_networks options)) (default [] etag) (default [] last_modified) now.

(** A response with [body] is parsed and written. *)
Definition store_body (grow : Z -> bool) (io : write_io) (d : disk) (options : ch_rule_feed_refresh_options)
    (body : bytes) (etag last_modified : option bytes) (now : Z) : list disk * result unit :=
  match ch_rule_feed_parse body (Some (opt_format options)) with
  | Done feed =>
      ch_rule_feed_cache_write grow io d (Some (opt_config_path options)) (opt_kind options)
        (response_cache options feed etag last_modified now)
  | Raise e => ([d], Raise e)
  | Fault => ([d], Fault)
  end.

Definition ch_rule_feed_cache_store_response (grow : Z -> bool) (io : write_io) (d : disk)
    (options : ch_rule_feed_refresh_options) (body : bytes) (etag last_modified : option bytes) (now : Z)
    : list disk * result unit :=
  if lenZ body >? CH_RULE_FEED_MAX_BYTES then
    ([d], fail CH_ERROR_INVALID_ARGUMENT (str "complete rule feed response metadata is required"))
  else store_body grow io d options body etag last_modified now.

(** ** Downloading *)

(** What arrives of a response: the lines of its header, the pieces of its body
    and its status, or the error of libcurl after them. *)
Record http_reply : Type := mk_reply {
  reply_headers : list bytes;
  reply_body : list bytes;
  reply_result : bytes + Z
}.

Record feed_http_headers : Type := mk_headers {
  head_etag : option bytes;
  head_last_modified : option bytes;
  head_location : option bytes
}.

Definition no_headers : feed_http_headers := mk_headers None None None.

(** [feed_http_write]: the body with a piece more, or a refusal. *)
Definition feed_http_write (body data : bytes) : option bytes :=
  if lenZ data >? CH_RULE_FEED_MAX_BYTES - lenZ body then None else Some (body ++ data).

Fixpoint write_pieces (body : bytes) (pieces : list bytes) : option bytes :=
  match pieces with
  | [] => Some body
  | data :: pieces' => body ← feed_http_write body data; write_pieces body pieces'
  end.

(** [feed_http_set_header]: the value without the space around it, read as a C
    string later. *)
Definition set_header (value : bytes) : bytes := until_nul (trim value).

Definition feed_http_header (headers : feed_http_headers) (data : bytes) : feed_http_headers :=
  match split_first 58 data with
  | None => headers
  | Some (field, value) =>
      if strcaseeq field (str "etag") then mk_headers (Some (set_header value)) (head_last_modified headers) (head_location headers)
      else if strcaseeq field (str "last-modified") then mk_headers (head_etag headers) (Some (set_header value)) (head_location headers)
      else if strcaseeq field (str "location") then mk_headers (head_etag headers) (head_last_modified headers) (Some (set_header value))
      else headers
  end.

(** One request: the body, the headers and the status, or the error. *)
Definition perform (reply : http_reply) : result (bytes * feed_http_headers * Z) :=
  let headers := fold_left feed_http_header (reply_headers reply) no_headers in
  match write_pieces [] (reply_body reply) with
  | None => fail CH_ERROR_INVALID_ARGUMENT (str "rule feed body exceeds 5242880 bytes")
  | Some body =>
      match reply_result reply with
      | inl message => fail CH_ERROR_IO (str "fetch rule feed: " ++ message)
      | inr status => Done (body, headers, status)
      end
  end.

Definition is_redirect (status : Z) : bool :=
  (status =? 301) || (status =? 302) || (status =? 303) || (status =? 307) || (status =? 308).

(** A request: the endpoint, and the headers that make it conditional. *)
Record http_request : Type := mk_request { req_endpoint : HttpSafety.ch_http_endpoint; req_headers : list bytes }.

Definition conditional_headers (old : option ch_rule_feed_cache) : list bytes :=
  match old with
  | None => []
  | Some old =>
      (if beq (etag old) [] then [] else [str "If-None-Match: " ++ etag old])
      ++ (if beq (last_modified old) [] then [] else [str "If-Modified-Since: " ++ last_modified old])
  end.

Section Refresh.
(** The network as the [n]-th preparation of an endpoint sees it, the server,
    and the resolution of redirects by libcurl. *)
Context (network : nat -> HttpSafety.Network) (server : http_request -> nat -> http_reply)
  (resolve_redirect : bytes -> bytes -> option bytes).

Definition prepare (n : nat) (url : bytes) : result HttpSafety.ch_http_endpoint :=
  @HttpSafety.ch_http_endpoint_prepare (network n) (Some url) (Some (str "rule feed")).

Definition MAX_REDIRECTS : nat := 9.

(** The requests from the [redirect]-th on, and the last response. *)
Fixpoint request_loop (left redirect : nat) (old : option ch_rule_feed_cache)
    (initial endpoint : HttpSafety.ch_http_endpoint) : list http_request * result (bytes * feed_http_headers * Z) :=
  let request := mk_request endpoint (conditional_headers old) in
  let io_error (m : bytes) : result (bytes * feed_http_headers * Z) := fail CH_ERROR_IO m in
  match perform (server request redirect) with
  | Done (body, headers, status) =>
      if negb (is_redirect status) then ([request], Done (body, headers, status))
      else
        match left with
        | O => ([request], io_error (str "rule feed stopped after 10 redirects"))
        | S left' =>
            match head_location headers with
            | None | Some [] => ([request], io_error (str "rule feed redirect has no location"))
            | Some location =>
                match resolve_redirect (HttpSafety.ep_url endpoint) location with
                | None => ([request], Raise (mk_error CH_ERROR_INVALID_ARGUMENT []))
                | Some next_url =>
                    match prepare (redirect + 2) next_url with
                    | Done next =>
                        if HttpSafety.ch_http_endpoint_same_origin (Some initial) (Some next) then
                          let '(requests, r) := request_loop left' (S redirect) old initial next in
                          (request :: requests, r)
                        else ([request], fail CH_ERROR_INVALID_ARGUMENT
                                (str "rule feed redirect to a different origin is not allowed"))
                    | Raise e => ([request], Raise e)
                    | Fault => ([request], Fault)
                    end
                end
            end
        end
  | Raise e => ([request], Raise e)
  | Fault => ([request], Fault)
  end.

(** The requests that were sent, the disks passed through, and the result;
    [now] is the time after the response. *)
Definition ch_rule_feed_refresh (report : bytes -> read_report) (readdir : disk -> bytes -> list bytes) (grow : Z -> bool)
    (io : write_io) (now : Z) (d : disk) (options : ch_rule_feed_refresh_options)
    : list http_request * list disk * result unit :=
  let config_path := Some (opt_config_path options) in
  let old := ch_rule_feed_cache_load report readdir d config_path (opt_kind options) (opt_profile options)
               (opt_name options) (opt_url options) in
  let old := match old with Done cache => Some cache | _ => None end in
  match initial ← prepare 0 (opt_url options); endpoint ← prepare 1 (opt_url options); Done (initial, endpoint) with
  | Raise e => ([], [d], Raise e)
  | Fault => ([], [d], Fault)
  | Done (initial, endpoint) =>
      let '(requests, r) := request_loop MAX_REDIRECTS 0 old initial endpoint in
      match r with
      | Raise e => (requests, [d], Raise e)
      | Fault => (requests, [d], Fault)
      | Done (body, headers, status) =>
          let '(disks, r) :=
            if status =? 304 then
              match old with
              | None => ([d], fail CH_ERROR_INVALID_STATE (str "rule feed was not modified without an existing cache"))
              | Some old =>
                  ch_rule_feed_cache_write grow io d config_path (opt_kind options)
                    (mk_cache (feed old) (profile old) (name old) (url old) (action old) (networks old) (etag old)
                       (last_modified old) now)
              end
            else if (status <? 200) || (status >=? 300) then
              ([d], fail CH_ERROR_IO (str "fetch rule feed: HTTP status " ++ dec status))
            else store_body grow io d options body (head_etag headers) (head_last_modified headers) now in
          (requests, disks, r)
      end
  end.

End Refresh.
End Decode.
(** ** Facts: the JSON text *)

Section Texts.
Context `{Inet, DoubleCompare, !DoubleSize}.

Definition texts_value (l : list bytes) : ch_json_value := CH_JSON_ARRAY (map text_value l).

Definition nonempty_member (key : bytes) (l : list bytes) : list (bytes * ch_json_value) :=
  if negb (lenZ l =? 0) then [(key, texts_value l)] else [].

Definition text_member (key text : bytes) : list (bytes * ch_json_value) :=
  if negb (beq text []) then [(key, text_value text)] else [].

(** The action of a subscription as it is stored. *)
Definition stored_action (cache : ch_rule_feed_cache) : bytes := if beq (action cache) [] then str "block" else action cache.

Definition identity_members (cache : ch_rule_feed_cache) : list (bytes * ch_json_value) :=
  [(str "profile", text_value (profile cache)); (str "name", text_value (name cache));
   (str "url", text_value (url cache)); (str "format", text_value (format (feed cache)))].

Definition kind_members (kind : RulesConfig.feed_kind) (cache : ch_rule_feed_cache) : list (bytes * ch_json_value) :=
  if is_subscription kind
  then (str "action", text_value (stored_action cache)) :: nonempty_member (str "networks") (networks cache)
  else [].

Definition list_members (cache : ch_rule_feed_cache) : list (bytes * ch_json_value) :=
  nonempty_member (str "domain_suffixes") (domain_suffixes (feed cache))
  ++ nonempty_member (str "cidrs") (cidrs (feed cache)) ++ [(str "skipped", int_value (skipped (feed cache)))].

(** The members before the time. *)
Definition early_members (kind : RulesConfig.feed_kind) (cache : ch_rule_feed_cache) : list (bytes * ch_json_value) :=
  identity_members cache ++ kind_members kind cache
  ++ text_member (str "etag") (etag cache) ++ text_member (str "last_modified") (last_modified cache).

Definition cache_value (kind : RulesConfig.feed_kind) (cache : ch_rule_feed_cache) : ch_json_value :=
  CH_JSON_OBJECT ((str "version", int_value 1) :: early_members kind cache
    ++ (str "fetched_ts_ns", int_value (fetched_ts_ns cache)) :: list_members cache).

Lemma strings_writes grow l : writes grow (feed_append_json_strings grow l) (print_value (texts_value l)).
Proof.
  unfold feed_append_json_strings, texts_value.
  assert (Hl : Forall (fun s => writes grow (append_text grow s) (print_value (text_value s))) l).
  { apply Forall_forall. intros s _. apply append_text_spec. }
  destruct (append_list_writes grow (append_text grow) _ l Hl) as [Hw _].
  eapply all_of_text; [apply Forall2_cons; [apply append_spec|]; apply Forall2_cons; [exact Hw|];
    apply Forall2_cons; [apply append_spec|apply Forall2_nil]|].
  cbn [print_value concat]. rewrite List.map_map, app_nil_r. reflexivity.
Qed.

(** A key and a value after a comma. *)
Lemma member_writes grow key op v :
  quoted_key key = print_string (str key) ++ [58] -> writes grow op (print_value v) ->
  writes grow (all_of [append grow ([44] ++ quoted_key key); op]) (rest_text [(str key, v)]).
Proof.
  intros Hk Hw. eapply all_of_text; [apply Forall2_cons; [apply append_spec|]; apply Forall2_cons; [exact Hw|apply Forall2_nil]|].
  rewrite rest_text_cons. unfold member_text. rewrite Hk. cbn [fst snd concat]. rewrite <- !app_assoc. reflexivity.
Qed.

Lemma strings_member_writes grow key l (b : bool) :
  quoted_key key = print_string (str key) ++ [58] -> b = negb (lenZ l =? 0) ->
  writes grow (when_op b (all_of [append grow ([44] ++ quoted_key key); feed_append_json_strings grow l]))
    (rest_text (nonempty_member (str key) l)).
Proof.
  intros Hk ->. unfold nonempty_member. destruct (negb (lenZ l =? 0)); [|apply writes_nothing].
  apply member_writes; [exact Hk|apply strings_writes].
Qed.

Lemma text_member_writes grow key text :
  quoted_key key = print_string (str key) ++ [58] ->
  writes grow (when_op (negb (beq text [])) (all_of [append grow ([44] ++ quoted_key key); append_text grow text]))
    (rest_text (text_member (str key) text)).
Proof.
  intros Hk. unfold text_member. destruct (negb (beq text [])); [|apply writes_nothing].
  apply member_writes; [exact Hk|apply append_text_spec].
Qed.

Lemma kind_writes grow kind cache :
  writes grow (when_op (is_subscription kind) (all_of [
      append grow ([44] ++ quoted_key "action");
      append_text grow (if beq (action cache) [] then str "block" else action cache);
      when_op (lenZ (networks cache) >? 0) (all_of [
        append grow ([44] ++ quoted_key "networks");
        feed_append_json_strings grow (networks cache)])]))
    (rest_text (kind_members kind cache)).
Proof.
  unfold kind_members. destruct (is_subscription kind); [|apply writes_nothing].
  assert (Hb : (lenZ (networks cache) >? 0) = negb (lenZ (networks cache) =? 0)) by (pose proof (lenZ_nonneg (networks cache)); lia).
  pose proof (strings_member_writes grow "networks" (networks cache) _ eq_refl Hb) as Hn.
  eapply all_of_text; [apply Forall2_cons; [apply append_spec|]; apply Forall2_cons; [apply append_text_spec|];
    apply Forall2_cons; [exact Hn|apply Forall2_nil]|].
  rewrite rest_text_cons. unfold member_text. cbn [fst snd print_value text_value concat]. rewrite app_nil_r.
  fold (stored_action cache). change (quoted_key "action") with (print_string (str "action") ++ [58]).
  rewrite <- !app_assoc. reflexivity.
Qed.

Lemma cache_writes grow kind cache : writes grow (cache_text grow kind cache) (print_value (cache_value kind cache)).
Proof.
  pose proof (kind_writes grow kind cache) as Hk.
  pose proof (text_member_writes grow "etag" (etag cache) eq_refl) as He.
  pose proof (text_member_writes grow "last_modified" (last_modified cache) eq_refl) as Hm.
  pose proof (strings_member_writes grow "domain_suffixes" (domain_suffixes (feed cache)) _ eq_refl eq_refl) as Hd.
  pose proof (strings_member_writes grow "cidrs" (cidrs (feed cache)) _ eq_refl eq_refl) as Hc.
  unfold cache_text. cbv zeta. eapply all_of_text; [collect|].
  unfold cache_value, early_members, list_members, identity_members.
  rewrite object_members, <- !app_assoc. cbn [app].
  repeat first [rewrite rest_text_cons | rewrite rest_text_app]. cbn [rest_text map concat].
  unfold member_text. cbn [fst snd print_value text_value int_value number_is_integer number_integer].
  change (rest_text []) with (@nil Z). change (dec 1) with (str "1").
  same_text.
Qed.

Lemma cache_text_take grow kind cache m :
  (take_text (cache_text grow kind cache) m = Done (print_value (cache_value kind cache))
   \/ exists e, take_text (cache_text grow kind cache) m = Raise e) /\
  (lenZ (print_value (cache_value kind cache)) + 1 <= SIZE_MAX -> (forall n, grow n = true) ->
   take_text (cache_text grow kind cache) m = Done (print_value (cache_value kind cache))).
Proof. apply take_text_spec, cache_writes. Qed.

End Texts.
(** ** Facts: the time in the text *)

Definition tag_word : bytes := str "fetched_ts_ns".

(** A string whose JSON text does not hold the key of the time. *)
Definition quiet (s : bytes) : Prop := forall p, s <> p ++ tag_word.

(** The search passes over a piece of the text, when what follows it does not
    begin like the key. *)
Definition passes (t : bytes) : Prop :=
  forall rest, hd 0 rest <> 102 -> HttpSafety.after timestamp_tag (t ++ rest) = HttpSafety.after timestamp_tag rest.

Lemma after_step p c s : is_prefix p (c :: s) = false -> HttpSafety.after p (c :: s) = HttpSafety.after p s.
Proof. intros Hp. cbn [HttpSafety.after]. rewrite Hp. reflexivity. Qed.

Lemma tag_head c s : c <> 34 -> is_prefix timestamp_tag (c :: s) = false.
Proof. intros Hc. apply is_prefix_first; [cbn; lia|discriminate]. Qed.

Lemma after_no_quote a s :
  Forall (fun c => c <> 34) a -> HttpSafety.after timestamp_tag (a ++ s) = HttpSafety.after timestamp_tag s.
Proof. induction 1 as [|c a Hc _ IH]; [reflexivity|]. cbn [app]. rewrite after_step by (apply tag_head, Hc). exact IH. Qed.

Lemma escape_cases c :
  cchar_ok c ->
  c = 34 \/ (Forall (fun x => x <> 34) (escape_char c) /\ (escape_char c = [c] \/ exists t, escape_char c = 92 :: t)).
Proof.
  intros Hc. pose proof (PlainInet.all_bytes (fun c => (c =? 34) || (forallb (fun x => negb (x =? 34)) (escape_char c)
    && (beq (escape_char c) [c] || (hd 0 (escape_char c) =? 92)))) ltac:(vm_compute; reflexivity) c) as Hb.
  specialize (Hb ltac:(unfold byte_ok, cchar_ok in *; lia)). cbv beta in Hb.
  apply orb_true_iff in Hb as [Hb|Hb]; [left; lia|right]. apply andb_true_iff in Hb as [H1 H2]. split.
  - apply Forall_forall. intros x Hx. rewrite forallb_forall in H1. specialize (H1 x Hx). lia.
  - apply orb_true_iff in H2 as [H2|H2]; [left; apply beq_true, H2|right].
    destruct (escape_char c) as [|x t]; [discriminate|]. cbn in H2. exists t. f_equal. lia.
Qed.

Definition escaped (s : bytes) : bytes := concat (map escape_char s).

(** The text of a string begins with an unescaped word and a quote only when it
    is that word. *)
Lemma escaped_word t s rest :
  cstr_ok s -> Forall (fun c => c <> 34 /\ c <> 92) t ->
  is_prefix (t ++ [34]) (escaped s ++ 34 :: rest) = true -> s = t.
Proof.
  intros Hs Ht. revert s Hs. induction Ht as [|a t [Ha1 Ha2] _ IH]; intros s Hs Hp.
  - destruct Hs as [|c s Hc Hs]; [reflexivity|]. exfalso. unfold escaped in Hp. cbn [map concat app] in Hp.
    destruct (escape_cases c Hc) as [-> |[H1 [E|(u & E)]]]; [discriminate| |].
    + rewrite E in *. inversion_clear H1 as [|? ? Hc34 _]. cbn [app is_prefix escaped map concat] in Hp. replace (34 =? c) with false in Hp by lia. discriminate Hp.
    + rewrite E in Hp. discriminate.
  - destruct Hs as [|c s Hc Hs].
    + cbn [app is_prefix escaped map concat] in Hp. replace (a =? 34) with false in Hp by lia. discriminate.
    + unfold escaped in Hp. cbn [map concat app] in Hp. rewrite <- app_assoc in Hp.
      destruct (escape_cases c Hc) as [-> |[_ [E|(u & E)]]].
      * change (escape_char 34) with [92; 34] in Hp. cbn [app is_prefix] in Hp. replace (a =? 92) with false in Hp by lia. discriminate.
      * rewrite E in Hp. cbn [app is_prefix] in Hp. apply andb_true_iff in Hp as [Hac Hp]. f_equal; [lia|]. apply IH; assumption.
      * rewrite E in Hp. cbn [app is_prefix escaped map concat] in Hp. replace (a =? 92) with false in Hp by lia. discriminate.
Qed.

Lemma tag_word_plain : Forall (fun c => c <> 34 /\ c <> 92) tag_word.
Proof. apply list.Forall_forall. intros c Hc. unfold tag_word in Hc. vm_compute in Hc. apply list_elem_of_In in Hc. cbn in Hc. lia. Qed.

Lemma quiet_tail c s : quiet (c :: s) -> quiet s.
Proof. intros Hq p ->. apply (Hq (c :: p)). reflexivity. Qed.

Lemma quiet_not_word s rest : cstr_ok s -> quiet s -> is_prefix timestamp_tag (34 :: escaped s ++ 34 :: rest) = false.
Proof.
  intros Hs Hq. apply not_true_iff_false. change timestamp_tag with (34 :: tag_word ++ [34]). cbn [is_prefix Z.eqb Pos.eqb andb].
  intros Hp. apply escaped_word in Hp; [|exact Hs|exact tag_word_plain]. apply (Hq []). exact Hp.
Qed.

Lemma escaped_passes s rest :
  cstr_ok s -> quiet s -> hd 0 rest <> 102 ->
  HttpSafety.after timestamp_tag (escaped s ++ 34 :: rest) = HttpSafety.after timestamp_tag rest.
Proof.
  intros Hs. induction Hs as [|c s Hc Hs IH]; intros Hq Hr.
  - cbn [escaped map concat app]. apply after_step. change timestamp_tag with (34 :: 102 :: tail tag_word ++ [34]).
    destruct rest as [|d rest]; [reflexivity|]. cbn in Hr. cbn [is_prefix].
    replace (102 =? d) with false by lia. reflexivity.
  - unfold escaped. cbn [map concat]. rewrite <- app_assoc. pose proof (quiet_tail _ _ Hq) as Hq'.
    destruct (escape_cases c Hc) as [-> |[H1 _]].
    + change (escape_char 34 ++ concat (map escape_char s) ++ 34 :: rest) with (92 :: 34 :: escaped s ++ 34 :: rest).
      rewrite (after_step _ 92) by (apply tag_head; discriminate). rewrite after_step by (apply quiet_not_word; assumption).
      apply IH; assumption.
    + rewrite after_no_quote by exact H1. apply IH; assumption.
Qed.

Lemma passes_string s : cstr_ok s -> quiet s -> passes (print_string s).
Proof.
  intros Hs Hq rest Hr. unfold print_string. change ([34] ++ concat (map escape_char s) ++ [34]) with (34 :: escaped s ++ [34]).
  cbn [app]. rewrite <- app_assoc. cbn [app]. rewrite after_step by (apply quiet_not_word; assumption).
  apply escaped_passes; assumption.
Qed.

Lemma passes_app a b : passes a -> passes b -> hd 102 b <> 102 \/ b = [] -> passes (a ++ b).
Proof.
  intros Ha Hb Hh rest Hr. rewrite <- app_assoc, Ha; [apply Hb, Hr|]. destruct Hh as [Hh|Hn]; [|rewrite Hn; exact Hr].
  destruct b; [cbn in Hh; congruence|exact Hh].
Qed.

Lemma passes_plain a : Forall (fun c => c <> 34) a -> passes a.
Proof. intros Ha rest _. apply after_no_quote, Ha. Qed.

Section Times.
Context `{Inet, DoubleCompare, !DoubleSize}.

(** Members with a quiet key and quiet strings. *)
Definition quiet_value (v : ch_json_value) : Prop :=
  match v with
  | CH_JSON_STRING s => cstr_ok s /\ quiet s
  | CH_JSON_ARRAY l => Forall (fun i => exists s, i = CH_JSON_STRING s /\ cstr_ok s /\ quiet s) l
  | _ => False
  end.

Definition quiet_member (m : bytes * ch_json_value) : Prop := cstr_ok (fst m) /\ quiet (fst m) /\ quiet_value (snd m).

Lemma passes_value v : quiet_value v -> passes (print_value v).
Proof.
  destruct v as [| | |s|l|]; cbn [quiet_value]; try contradiction.
  - intros [Hs Hq]. apply passes_string; assumption.
  - intros Hl. cbn [print_value].
    assert (Hj : passes (join (map print_value l) ++ [93])).
    { destruct l as [|x l]; [apply passes_plain; repeat constructor; lia|]. inversion_clear Hl as [|? ? (s & -> & Hs & Hq) Hl'].
      cbn [map]. rewrite join_concat, <- app_assoc. apply passes_app; [apply passes_string; assumption| |].
      - induction Hl' as [|y l (s' & -> & Hs' & Hq') _ IH]; [apply passes_plain; repeat constructor; lia|].
        cbn [map concat]. rewrite <- !app_assoc. apply passes_app; [apply passes_plain; repeat constructor; lia| |left; discriminate].
        apply passes_app; [apply passes_string; assumption|exact IH|]. left. destruct l; discriminate.
      - left. destruct l; discriminate. }
    apply (passes_app [91] _ (passes_plain [91] ltac:(repeat constructor; lia)) Hj). left.
    destruct l as [|x l]; [discriminate|]. inversion_clear Hl as [|? ? (s & -> & _ & _) _]. cbn [map]. rewrite join_concat. discriminate.
Qed.

Lemma value_head v : quiet_value v -> exists c t, print_value v = c :: t /\ c <> 102.
Proof.
  destruct v as [| | |s|l|]; cbn [quiet_value]; try contradiction; intros _; [exists 34|exists 91]; eexists; (split; [reflexivity|lia]).
Qed.

Lemma passes_members ms : Forall quiet_member ms -> passes (rest_text ms).
Proof.
  induction 1 as [|m ms (Hk & Hq & Hv) _ IH]; [intros rest _; reflexivity|]. rewrite rest_text_cons. unfold member_text.
  apply passes_app; [apply passes_plain; repeat constructor; lia| |left; discriminate].
  destruct (value_head _ Hv) as (c & t & Ec & Hc).
  apply passes_app; [| exact IH|destruct ms; [right; reflexivity|left; rewrite rest_text_cons; discriminate]].
  apply passes_app; [apply passes_string; assumption| |left; discriminate].
  apply passes_app; [apply passes_plain; repeat constructor; lia|apply passes_value, Hv|]. left. rewrite Ec. exact Hc.
Qed.

End Times.

(** ** Facts: reading a stored cache back *)

Section RoundTrip.
Context `{Inet, DoubleCompare, !DoubleSize}.

Definition cache_strings (cache : ch_rule_feed_cache) : list bytes :=
  [profile cache; name cache; url cache; format (feed cache); action cache; etag cache; last_modified cache].

(** What is kept of a list that is in order: sorted, without repetition. *)
Definition kept (P : bytes -> Prop) (l : list bytes) : Prop :=
  Forall P l /\ StronglySorted text_le l /\ NoDup l /\ lenZ l <= CH_RULE_FEED_MAX_ENTRIES.

(** A network as a cache holds it: in lower case, of at most 15 bytes. *)
Definition network_ok (s : bytes) : Prop := cstr_ok s /\ quiet s /\ map tolower (take 15 s) = s.

Record cache_ok (cache : ch_rule_feed_cache) : Prop := {
  cache_texts : Forall (fun s => cstr_ok s /\ quiet s) (cache_strings cache);
  cache_networks : kept network_ok (networks cache);
  cache_domains : kept canonical_domain (domain_suffixes (feed cache));
  cache_blocks : kept canonical_block (cidrs (feed cache));
  cache_skipped : 0 <= skipped (feed cache) <= 2 ^ 53;
  cache_time : INT64_MIN <= fetched_ts_ns cache <= INT64_MAX
}.

(** The cache as it is read back: a rule set keeps neither an action nor
    networks, and a subscription without an action blocks. *)
Definition stored (kind : RulesConfig.feed_kind) (cache : ch_rule_feed_cache) : ch_rule_feed_cache :=
  mk_cache (feed cache) (profile cache) (name cache) (url cache)
    (if is_subscription kind then stored_action cache else [])
    (if is_subscription kind then networks cache else []) (etag cache) (last_modified cache) (fetched_ts_ns cache).

Lemma member_get_app a b key :
  member_get (a ++ b) key = match member_get a key with Some v => Some v | None => member_get b key end.
Proof. induction a as [|[k v] a IH]; cbn [app member_get]; [reflexivity|]. destruct (beq k key); [reflexivity|exact IH]. Qed.

Lemma get_nonempty key' l key :
  member_get (nonempty_member key' l) key = if beq key' key && negb (lenZ l =? 0) then Some (texts_value l) else None.
Proof. unfold nonempty_member. destruct (negb (lenZ l =? 0)); cbn [member_get]; destruct (beq key' key); reflexivity. Qed.

Lemma get_text key' s key :
  member_get (text_member key' s) key = if beq key' key && negb (beq s []) then Some (text_value s) else None.
Proof. unfold text_member. destruct (negb (beq s [])); cbn [member_get]; destruct (beq key' key); reflexivity. Qed.

(** The members of a stored cache, by their keys. *)
Lemma get_cache kind cache key :
  get (cache_value kind cache) key =
  match member_get ((str "version", int_value 1) :: identity_members cache) key with
  | Some v => Some v
  | None =>
      match member_get (kind_members kind cache) key with
      | Some v => Some v
      | None =>
          if beq (str "etag") key && negb (beq (etag cache) []) then Some (text_value (etag cache))
          else if beq (str "last_modified") key && negb (beq (last_modified cache) []) then Some (text_value (last_modified cache))
          else if beq (str "fetched_ts_ns") key then Some (int_value (fetched_ts_ns cache))
          else if beq (str "domain_suffixes") key && negb (lenZ (domain_suffixes (feed cache)) =? 0)
          then Some (texts_value (domain_suffixes (feed cache)))
          else if beq (str "cidrs") key && negb (lenZ (cidrs (feed cache)) =? 0) then Some (texts_value (cidrs (feed cache)))
          else if beq (str "skipped") key then Some (int_value (skipped (feed cache))) else None
      end
  end.
Proof.
  unfold get, cache_value, ch_json_object_get. change (?a :: early_members kind cache ++ ?r) with ((a :: early_members kind cache) ++ r).
  unfold early_members. rewrite app_comm_cons, !member_get_app, get_text, get_text.
  destruct (member_get (_ :: identity_members cache) key); [reflexivity|].
  destruct (member_get (kind_members kind cache) key); [reflexivity|].
  destruct (beq (str "etag") key && _); [reflexivity|]. destruct (beq (str "last_modified") key && _); [reflexivity|].
  cbn [member_get]. destruct (beq (str "fetched_ts_ns") key); [reflexivity|]. unfold list_members.
  rewrite !member_get_app, !get_nonempty. destruct (beq (str "domain_suffixes") key && _); [reflexivity|].
  destruct (beq (str "cidrs") key && _); [reflexivity|]. cbn [member_get]. destruct (beq (str "skipped") key); reflexivity.
Qed.

Lemma add_unique_new strings value l :
  NoDup (strings ++ value :: l) -> lenZ strings + lenZ (value :: l) <= CH_RULE_FEED_MAX_ENTRIES ->
  feed_strings_add_unique strings value = Done (strings ++ [value]).
Proof.
  intros Hn Hc. rewrite lenZ_cons in Hc. pose proof (lenZ_nonneg l). apply add_unique_fresh; [|lia].
  apply list.NoDup_app in Hn as (_ & Hd & _). intros Hin. apply (Hd value Hin). left.
Qed.

Lemma load_json_kept key normalize l out :
  Forall (fun s => normalize s = Some s) l -> NoDup (out ++ l) -> lenZ out + lenZ l <= CH_RULE_FEED_MAX_ENTRIES ->
  load_json_loop key normalize (map text_value l) out = Done (out ++ l).
Proof.
  intros Hl. revert out. induction Hl as [|s l Hs _ IH]; intros out Hn Hc; cbn [map load_json_loop text_value ch_json_string_value].
  { rewrite app_nil_r. reflexivity. }
  rewrite Hs, (add_unique_new out s l) by assumption. cbn [mbind outcome_bind]. rewrite lenZ_cons in Hc.
  rewrite IH, <- app_assoc; [reflexivity|rewrite <- app_assoc; exact Hn|]. rewrite lenZ_app. change (lenZ [s]) with 1. lia.
Qed.

Lemma load_networks_kept l out :
  Forall (fun s => map tolower (take 15 s) = s) l -> NoDup (out ++ l) -> lenZ out + lenZ l <= CH_RULE_FEED_MAX_ENTRIES ->
  load_networks_loop (map text_value l) out = Done (out ++ l).
Proof.
  intros Hl. revert out. induction Hl as [|s l Hs _ IH]; intros out Hn Hc; cbn [map load_networks_loop text_value ch_json_string_value].
  { rewrite app_nil_r. reflexivity. }
  rewrite Hs, (add_unique_new out s l) by assumption. cbn [mbind outcome_bind]. rewrite lenZ_cons in Hc.
  rewrite IH, <- app_assoc; [reflexivity|rewrite <- app_assoc; exact Hn|]. rewrite lenZ_app. change (lenZ [s]) with 1. lia.
Qed.

Lemma empty_length {A} (l : list A) : negb (lenZ l =? 0) = false -> l = [].
Proof. destruct l; [reflexivity|]. rewrite lenZ_cons. pose proof (lenZ_nonneg l). lia. Qed.

(** A list of entries is read back as it is. *)
Lemma load_kept kind cache (d : bool) key l (P : bytes -> Prop) :
  get (cache_value kind cache) key = (if negb (lenZ l =? 0) then Some (texts_value l) else None) ->
  kept P l -> (forall s, P s -> (if d then feed_normalize_domain (Some s) else feed_normalize_cidr s) = Some s) ->
  feed_load_json_strings (cache_value kind cache) key d = Done l.
Proof.
  intros Hg (Hl & _ & Hn & Hc) Hp. unfold feed_load_json_strings. rewrite Hg.
  destruct (negb (lenZ l =? 0)) eqn:E; [|apply empty_length in E as ->; reflexivity].
  unfold texts_value. change l with ([] ++ l) at 2. apply load_json_kept; [|exact Hn|rewrite lenZ_nil; lia].
  eapply List.Forall_impl; [|exact Hl]. intros s Hs. specialize (Hp s Hs). destruct d; exact Hp.
Qed.

Lemma copy_string kind cache key (required : bool) s :
  get (cache_value kind cache) key = Some (text_value s) \/ (required = false /\ s = [] /\ get (cache_value kind cache) key = None) ->
  feed_copy_json_string (cache_value kind cache) key required = Done s.
Proof. unfold feed_copy_json_string. intros [->|(-> & -> & ->)]; reflexivity. Qed.

Lemma kept_sort P l : kept P l -> feed_sort l = l.
Proof. intros (_ & Hs & _). apply feed_sort_sorted, Hs. Qed.

Definition positive (s : bytes) : Prop := Forall (fun c => 0 < c) s.

Lemma positive_app a b : positive (a ++ b) <-> positive a /\ positive b.
Proof. apply Forall_app. Qed.

Lemma print_string_positive s : cstr_ok s -> positive (print_string s).
Proof.
  intros Hs. unfold print_string. apply positive_app. split; [repeat constructor; lia|]. apply positive_app.
  split; [|repeat constructor; lia]. induction Hs as [|c s Hc _ IH]; [constructor|]. cbn [map concat]. apply positive_app. split; [|exact IH].
  pose proof (PlainInet.all_bytes (fun c => (c =? 0) || forallb (fun x => 0 <? x) (escape_char c)) ltac:(vm_compute; reflexivity) c) as Hb.
  unfold cchar_ok, byte_ok in *. specialize (Hb ltac:(lia)). cbv beta in Hb. apply orb_true_iff in Hb as [Hb|Hb]; [lia|].
  apply Forall_forall. intros x Hx. rewrite forallb_forall in Hb. specialize (Hb x Hx). lia.
Qed.

Lemma join_positive l : Forall positive l -> positive (join l).
Proof.
  induction 1 as [|x l Hx Hl IH]; [constructor|]. destruct l as [|y l]; [exact Hx|].
  rewrite join_cons by discriminate. apply positive_app. split; [exact Hx|]. constructor; [lia|exact IH].
Qed.

(** The text of a value has no NUL. *)
Lemma print_positive v : exact v -> positive (print_value v).
Proof.
  induction v as [|b|n|s|items IH|members IH] using json_ind; cbn [exact print_value]; intros Hx.
  - repeat constructor; lia.
  - destruct b; repeat constructor; lia.
  - destruct Hx as (-> & _ & _). apply dec_positive.
  - apply print_string_positive, Hx.
  - apply foldr_and_Forall in Hx. constructor; [lia|]. apply positive_app. split; [|repeat constructor; lia].
    apply join_positive, List.Forall_map. clear -IH Hx. induction IH as [|v items Hv _ IHl]; [constructor|].
    inversion_clear Hx. constructor; auto.
  - apply foldr_and_Forall in Hx. constructor; [lia|]. apply positive_app. split; [|repeat constructor; lia].
    apply join_positive, List.Forall_map. clear -IH Hx. induction IH as [|[k v] members Hv _ IHl]; [constructor|].
    inversion_clear Hx as [|? ? [Hk Hxv] ?]. constructor; [|auto]. apply positive_app. split; [apply print_string_positive, Hk|].
    constructor; [lia|apply Hv, Hxv].
Qed.

Lemma exact_members ms : exact (CH_JSON_OBJECT ms) <-> Forall (fun m => cstr_ok (fst m) /\ exact (snd m)) ms.
Proof. cbn [exact]. apply foldr_and_Forall. Qed.

Lemma key_ok s : forallb (fun c => (0 <? c) && (c <? 256)) (str s) = true -> cstr_ok (str s).
Proof. apply literal_ok. Qed.

Lemma texts_exact l : Forall cstr_ok l -> exact (texts_value l).
Proof. intros Hl. unfold texts_value. cbn [exact]. rewrite List.map_map. apply foldr_and_Forall. exact Hl. Qed.

Lemma nonempty_exact key l (Q : bytes * ch_json_value -> Prop) :
  Q (key, texts_value l) -> Forall Q (nonempty_member key l).
Proof. intros Hq. unfold nonempty_member. destruct (negb _); repeat constructor. exact Hq. Qed.

Lemma text_exact key s (Q : bytes * ch_json_value -> Prop) : Q (key, text_value s) -> Forall Q (text_member key s).
Proof. intros Hq. unfold text_member. destruct (negb _); repeat constructor. exact Hq. Qed.

Lemma name_cstr s (ok : Z -> bool) : (forall c, ok c = true -> plain_char c = true) -> Forall (fun c => ok c = true) s -> cstr_ok s.
Proof.
  intros Hok. apply List.Forall_impl. intros c Hc. apply Hok, plain_char_facts in Hc as (_ & _ & _ & _ & _ & Hc & _). exact Hc.
Qed.

Lemma kept_cstr_domains l : kept canonical_domain l -> Forall cstr_ok l.
Proof.
  intros (Hl & _). eapply List.Forall_impl; [|exact Hl]. intros s Hs. apply (name_cstr s name_char); [exact plain_char_name|].
  apply canonical_chars, Hs.
Qed.

Lemma kept_cstr_blocks l : kept canonical_block l -> Forall cstr_ok l.
Proof.
  intros (Hl & _). eapply List.Forall_impl; [|exact Hl]. intros s Hs. apply (name_cstr s block_char); [exact plain_char_block|].
  apply canonical_block_facts, Hs.
Qed.

Lemma stored_action_ok cache : cstr_ok (action cache) /\ quiet (action cache) -> cstr_ok (stored_action cache) /\ quiet (stored_action cache).
Proof.
  intros Ha. unfold stored_action. destruct (beq (action cache) []); [|exact Ha]. split; [apply key_ok; reflexivity|].
  intros p E. apply (f_equal length) in E. rewrite length_app in E. cbn in E. lia.
Qed.

(** The members before the time are C strings and quiet. *)
Lemma early_ok kind cache :
  cache_ok cache -> Forall (fun m => quiet_member m /\ cstr_ok (fst m) /\ exact (snd m)) (early_members kind cache).
Proof.
  intros [Hs (Hn & _) _ _ _ _]. unfold cache_strings in Hs.
  repeat match goal with Hx : Forall _ (_ :: _) |- _ => inversion_clear Hx end.
  assert (Hk : forall k, cstr_ok (str k) -> quiet (str k) -> forall s, cstr_ok s /\ quiet s ->
            quiet_member (str k, text_value s) /\ cstr_ok (fst (str k, text_value s)) /\ exact (snd (str k, text_value s))).
  { intros k Hk Hq s [Hc Hs]. split_and!; cbn; auto. split_and!; cbn; auto. }
  assert (Hquiet : forall k p, (length k < 13)%nat -> k <> p ++ tag_word).
  { intros k p Hl ->. rewrite length_app in Hl. cbn in Hl. lia. }
  assert (Hlm : quiet (str "last_modified")).
  { intros p E. assert (Hd : reverse (str "last_modified") = reverse (p ++ tag_word)) by (rewrite E; reflexivity).
    rewrite reverse_app in Hd. vm_compute in Hd. discriminate. }
  unfold early_members, identity_members, kind_members. rewrite !Forall_app. split_and!.
  - repeat (apply List.Forall_cons; [apply Hk; [apply key_ok; reflexivity|intros p; apply Hquiet; cbn; lia|assumption]|]).
    apply List.Forall_nil.
  - destruct (is_subscription kind); [|constructor]. apply List.Forall_cons.
    + apply Hk; [apply key_ok; reflexivity|intros p; apply Hquiet; cbn; lia|apply stored_action_ok; assumption].
    + apply nonempty_exact.
      assert (Hnet : Forall (fun s => cstr_ok s /\ quiet s) (networks cache)) by (eapply List.Forall_impl; [|exact Hn]; intros s Hs'; split; apply Hs').
      split_and!; cbn [fst snd].
      * split_and!; cbn [fst snd]; [apply key_ok; reflexivity|intros p; apply Hquiet; cbn; lia|].
        cbn [quiet_value texts_value]. apply List.Forall_map. eapply List.Forall_impl; [|exact Hnet]. intros s [Hc Hq]. eauto.
      * apply key_ok. reflexivity.
      * apply texts_exact. eapply List.Forall_impl; [|exact Hnet]. intros s [Hc _]. exact Hc.
  - apply text_exact, Hk; [apply key_ok; reflexivity|intros p; apply Hquiet; cbn; lia|assumption].
  - apply text_exact, Hk; [apply key_ok; reflexivity|exact Hlm|assumption].
Qed.

Lemma int_exact n : INT64_MIN <= n <= INT64_MAX -> exact (int_value n).
Proof. intros Hn. cbn. auto. Qed.

Lemma cache_exact kind cache : cache_ok cache -> exact (cache_value kind cache).
Proof.
  intros Hok. pose proof (early_ok kind cache Hok) as He. destruct Hok as [_ _ Hd Hb Hsk Ht].
  apply exact_members. apply List.Forall_cons; [split; [apply key_ok; reflexivity|apply int_exact; unfold INT64_MIN, INT64_MAX; lia]|].
  apply Forall_app. split; [eapply List.Forall_impl; [|exact He]; intros m Hm; apply Hm|].
  apply List.Forall_cons; [split; [apply key_ok; reflexivity|apply int_exact, Ht]|].
  unfold list_members. rewrite !Forall_app. split_and!.
  - apply nonempty_exact. split; [apply key_ok; reflexivity|apply texts_exact, kept_cstr_domains, Hd].
  - apply nonempty_exact. split; [apply key_ok; reflexivity|apply texts_exact, kept_cstr_blocks, Hb].
  - apply List.Forall_cons; [|constructor]. split; [apply key_ok; reflexivity|apply int_exact; unfold INT64_MIN, INT64_MAX; cbn; lia].
Qed.

Lemma flat_height (ms : list (bytes * ch_json_value)) :
  Forall (fun m => height (snd m) <= 2) ms -> height (CH_JSON_OBJECT ms) <= 3.
Proof.
  intros Hm. cbn [height].
  assert (Hf : foldr Z.max 0 (map (fun m => height (snd m)) ms) <= 2).
  { induction Hm as [|m ms Hm _ IH]; cbn [map foldr]; lia. }
  lia.
Qed.

Lemma texts_height l : height (texts_value l) <= 2.
Proof.
  cbn [height texts_value]. enough (foldr Z.max 0 (map height (map text_value l)) <= 1) by lia.
  induction l as [|s l IH]; cbn [map foldr height text_value]; lia.
Qed.

Lemma cache_height kind cache : height (cache_value kind cache) <= 64.
Proof.
  enough (height (cache_value kind cache) <= 3) by lia.
  assert (Ht : forall (key s : bytes), height (snd (key, text_value s)) <= 2) by (intros; cbn; lia).
  assert (Hn : forall (key : bytes) n, height (snd (key, int_value n)) <= 2) by (intros; cbn; lia).
  apply flat_height. apply List.Forall_cons; [apply Hn|]. unfold early_members, list_members, identity_members, kind_members.
  rewrite !Forall_app. split_and!.
  - repeat (apply List.Forall_cons; [apply Ht|]). constructor.
  - destruct (is_subscription kind); [|constructor]. apply List.Forall_cons; [apply Ht|apply nonempty_exact, texts_height].
  - apply text_exact, Ht.
  - apply text_exact, Ht.
  - apply List.Forall_cons; [apply Hn|]. rewrite !Forall_app. split_and!; [apply nonempty_exact, texts_height..|].
    apply List.Forall_cons; [apply Hn|constructor].
Qed.

Lemma cache_parses kind cache :
  cache_ok cache -> ch_json_parse (Some (print_value (cache_value kind cache))) = Done (cache_value kind cache).
Proof. intros Hok. apply parse_printed; [apply cache_exact, Hok|apply cache_height]. Qed.

(** The search for the time finds the member that was written for it. *)
Lemma cache_timestamp kind cache :
  cache_ok cache -> decode_timestamp (print_value (cache_value kind cache)) = fetched_ts_ns cache.
Proof.
  intros Hok. unfold decode_timestamp. rewrite until_nul_all by (apply print_positive, cache_exact, Hok).
  unfold cache_value. rewrite object_members, rest_text_app, rest_text_cons, <- !app_assoc.
  set (rest := rest_text (list_members cache) ++ [125]).
  assert (Hearly : passes (rest_text (early_members kind cache))).
  { apply passes_members. eapply List.Forall_impl; [|exact (early_ok kind cache Hok)]. intros m Hm. apply Hm. }
  change ([123] ++ member_text (str "version", int_value 1) ++ ?r) with (([123] ++ member_text (str "version", int_value 1)) ++ r).
  assert (Hver : forall r, hd 0 r <> 102 -> HttpSafety.after timestamp_tag (([123] ++ member_text (str "version", int_value 1)) ++ r)
                 = HttpSafety.after timestamp_tag r).
  { intros r Hr. change ([123] ++ member_text (str "version", int_value 1)) with (([123] ++ print_string (str "version")) ++ str ":1").
    rewrite <- !app_assoc, (after_no_quote [123]) by (repeat constructor; lia).
    rewrite (passes_string (str "version")); [apply (after_no_quote (str ":1")); vm_compute; repeat constructor; lia|apply key_ok; reflexivity| |discriminate].
    intros p E. apply (f_equal length) in E. rewrite length_app in E. cbn in E. lia. }
  rewrite Hver; [|destruct (early_members kind cache); [discriminate|rewrite rest_text_cons; discriminate]].
  rewrite Hearly by discriminate. unfold member_text. cbn [fst snd]. rewrite <- !app_assoc.
  rewrite (after_no_quote [44]) by (repeat constructor; lia).
  change (print_string (str "fetched_ts_ns")) with timestamp_tag.
  assert (Ha : forall r, HttpSafety.after timestamp_tag (timestamp_tag ++ r) = Some r).
  { intros r. assert (Hp : is_prefix timestamp_tag (timestamp_tag ++ r) = true) by (apply is_prefix_spec; eauto).
    destruct (timestamp_tag ++ r) as [|c t] eqn:E; [discriminate|]. cbn [HttpSafety.after]. rewrite Hp, <- E. reflexivity. }
  rewrite Ha. change ([58] ++ ?r) with (58 :: r). cbn [split_first Z.eqb Pos.eqb].
  cbn [print_value int_value number_is_integer number_integer].
  destruct (dec_head (fetched_ts_ns cache)) as (c & t & Ed & Hc). destruct Hok as [_ _ _ _ _ Ht].
  assert (Hsk : skip_space (dec (fetched_ts_ns cache) ++ rest) = dec (fetched_ts_ns cache) ++ rest).
  { rewrite Ed. apply skip_space_head. unfold isspace. lia. }
  rewrite Hsk, strtol_dec; [reflexivity|exact Ht|]. unfold rest.
  destruct (list_members cache) as [|m ms] eqn:E; [reflexivity|]. rewrite rest_text_cons. reflexivity.
Qed.

Lemma double_one : Temporary.double_eqb (double_of_int64 1) one = true.
Proof.
  unfold Temporary.double_eqb, one. rewrite double_ltb_int by lia. reflexivity.
Qed.

(** The keys of the identity, and the keys after them. *)
Lemma get_identity kind cache key v :
  member_get ((str "version", int_value 1) :: identity_members cache) key = Some v -> get (cache_value kind cache) key = Some v.
Proof. intros Hk. rewrite get_cache, Hk. reflexivity. Qed.

Lemma get_optional_text kind cache key s :
  get (cache_value kind cache) key = (if negb (beq s []) then Some (text_value s) else None) ->
  feed_copy_json_string (cache_value kind cache) key false = Done s.
Proof.
  intros Hg. apply copy_string. rewrite Hg. destruct (beq s []) eqn:E; [|left; reflexivity].
  right. apply beq_true in E. auto.
Qed.

(** Decoding a stored cache, for any identity. *)
Lemma decode_stored kind cache p n u :
  cache_ok cache ->
  feed_decode_cache (print_value (cache_value kind cache)) p n u =
  if bool_decide (p = profile cache /\ n = name cache /\ u = url cache) then Done (stored kind cache) else Raise not_found.
Proof.
  intros Hok. unfold feed_decode_cache. rewrite cache_parses by exact Hok. cbn [mbind outcome_bind].
  rewrite (get_identity kind cache (str "version") (int_value 1)) by reflexivity.
  cbn [ch_json_number_value int_value number_value]. rewrite double_one. cbn [is_object cache_value negb orb].
  rewrite (copy_string kind cache (str "profile") true (profile cache)) by (left; apply get_identity; reflexivity).
  rewrite (copy_string kind cache (str "name") true (name cache)) by (left; apply get_identity; reflexivity).
  rewrite (copy_string kind cache (str "url") true (url cache)) by (left; apply get_identity; reflexivity).
  cbn [mbind outcome_bind].
  destruct (negb (beq (profile cache) p) || negb (beq (name cache) n) || negb (beq (url cache) u)) eqn:E.
  { rewrite bool_decide_eq_false_2; [reflexivity|]. intros (-> & -> & ->). rewrite !beq_refl in E. discriminate. }
  rewrite !orb_false_iff, !negb_false_iff, !beq_true in E. rewrite bool_decide_eq_true_2 by (destruct E as [[-> ->] ->]; auto).
  rewrite (copy_string kind cache (str "format") true (format (feed cache))) by (left; apply get_identity; reflexivity).
  rewrite (copy_string kind cache (str "action") false (if is_subscription kind then stored_action cache else [])).
  2: { rewrite get_cache. destruct kind; [right; split_and!; reflexivity|left; reflexivity]. }
  assert (Hkind : forall key, key <> str "action" -> key <> str "networks" -> member_get (kind_members kind cache) key = None).
  { intros key H3 H4. unfold kind_members. destruct (is_subscription kind); [|reflexivity]. cbn [member_get].
    replace (beq (str "action") key) with false by (symmetry; apply beq_false; congruence).
    rewrite get_nonempty. replace (beq (str "networks") key) with false by (symmetry; apply beq_false; congruence). reflexivity. }
  rewrite (get_optional_text kind cache (str "etag") (etag cache)).
  2: { rewrite get_cache, Hkind by discriminate. cbn [member_get identity_members].
       change (beq (str "etag") (str "etag")) with true. destruct (negb (beq (etag cache) [])); reflexivity. }
  rewrite (get_optional_text kind cache (str "last_modified") (last_modified cache)).
  2: { rewrite get_cache, Hkind by discriminate. cbn [member_get identity_members].
       change (beq (str "last_modified") (str "last_modified")) with true.
       change (beq (str "etag") (str "last_modified")) with false. cbn [andb].
       destruct (negb (beq (last_modified cache) [])); reflexivity. }
  cbn [mbind outcome_bind]. pose proof Hok as [_ Hnet Hd Hb Hsk _].
  rewrite (load_kept kind cache true (str "domain_suffixes") (domain_suffixes (feed cache)) canonical_domain);
    [|rewrite get_cache, Hkind by discriminate; reflexivity|exact Hd|exact normalize_canonical].
  rewrite (load_kept kind cache false (str "cidrs") (cidrs (feed cache)) canonical_block);
    [|rewrite get_cache, Hkind by discriminate; reflexivity|exact Hb|intros s Hs; apply canonical_block_facts, Hs].
  assert (Hnets : load_networks (cache_value kind cache) = Done (if is_subscription kind then networks cache else [])).
  { unfold load_networks. rewrite get_cache. cbn [member_get identity_members].
    destruct kind; cbn [is_subscription kind_members]; [reflexivity|]. unfold kind_members. cbn [is_subscription member_get].
    rewrite get_nonempty. change (beq (str "networks") (str "networks")) with true. cbn [andb].
    destruct (negb (lenZ (networks cache) =? 0)) eqn:En; [|apply empty_length in En as ->; reflexivity].
    destruct Hnet as (Hf & _ & Hnd & Hcount). unfold texts_value.
    change (Done (networks cache)) with (Done ([] ++ networks cache) : result (list bytes)).
    apply load_networks_kept; [|exact Hnd|rewrite lenZ_nil; lia]. eapply List.Forall_impl; [|exact Hf]. intros s Hs. apply Hs. }
  rewrite Hnets. cbn [mbind outcome_bind].
  assert (Hskip : get (cache_value kind cache) (str "skipped") = Some (int_value (skipped (feed cache)))).
  { rewrite get_cache, Hkind by discriminate. reflexivity. }
  rewrite Hskip. cbn [ch_json_number_value int_value number_value]. rewrite double_to_size_int by exact Hsk.
  rewrite cache_timestamp by exact Hok. rewrite (kept_sort _ _ Hd), (kept_sort _ _ Hb).
  unfold stored. destruct (feed cache) as [f ds bs sk]. destruct kind; cbn [is_subscription]; [reflexivity|].
  rewrite (kept_sort _ _ Hnet). reflexivity.
Qed.

End RoundTrip.

(** ** Facts: the files of the cache *)

Section Disk.
Context `{Inet, DoubleCompare, !DoubleSize}.
Context (report : bytes -> read_report) (readdir : disk -> bytes -> list bytes).

(** Files can be read, and a directory lists the files in it, in some order. *)
Hypothesis readable : forall path, report path = Readable.
Hypothesis listing : forall d directory file,
  file ∈ readdir d directory <-> (47 ∉ file) /\ is_Some (files d !! in_directory directory file).

Context (config_path : bytes) (Hpath : config_path <> []) (kind : RulesConfig.feed_kind).

Abbreviation directory := (feed_cache_directory config_path kind).
Abbreviation cache_bytes cache := (print_value (cache_value kind cache)).

Definition json_name (file : bytes) : bool := beq (sub file (lenZ file - 5) 5) (str ".json").

Definition CACHE_LIMIT : Z := CH_RULE_FEED_MAX_BYTES + 65536.

(** A directory in which every JSON file is a cache of this runtime, of a size
    that it reads. *)
Record tidy (d : disk) : Prop := {
  tidy_files : forall file content,
    files d !! in_directory directory file = Some content -> 47 ∉ file -> json_name file = true ->
    exists cache, cache_ok cache /\ content = cache_bytes cache /\ lenZ content <= CACHE_LIMIT /\
      file = cache_name (profile cache) (name cache) (url cache);
  tidy_directory : forall file content,
    files d !! in_directory directory file = Some content -> directory ∈ directories d
}.

(** What a tidy directory holds for an identity. *)
Definition cached (d : disk) (p n u : bytes) : result ch_rule_feed_cache :=
  match files d !! feed_cache_path config_path kind p n u with
  | None => cache_missing
  | Some content => match feed_decode_cache content p n u with Done cache => Done cache | _ => cache_missing end
  end.

Lemma transform_words state block : length (Sha256.feed_sha256_transform state block) = 8%nat.
Proof. reflexivity. Qed.

Lemma short_hash_size p n u : lenZ (short_hash (identity_digest p n u)) = 12.
Proof.
  unfold identity_digest, Sha256.feed_sha256_final. cbv zeta. destruct (_ >? 56); cbv iota beta.
  all: match goal with |- context [Sha256.feed_sha256_transform ?s ?b] =>
         generalize (transform_words s b); generalize (Sha256.feed_sha256_transform s b) end;
       intros l Hl; destruct l as [|w0 [|w1 l]]; [discriminate..|]; reflexivity.
Qed.

Lemma in_directory_inj dir a b : in_directory dir a = in_directory dir b -> a = b.
Proof. unfold in_directory. intros E. apply app_inv_head in E. injection E as ->. reflexivity. Qed.

Lemma json_name_suffix s : json_name (s ++ str ".json") = true.
Proof.
  unfold json_name. rewrite lenZ_app. change (lenZ (str ".json")) with 5. replace (lenZ s + 5 - 5) with (lenZ s) by lia.
  apply beq_true. unfold sub, lenZ. rewrite Nat2Z.id, drop_app_length. reflexivity.
Qed.

Lemma cache_name_parts p n u :
  cache_name p n u = cache_prefix p n ++ short_hash (identity_digest p n u) ++ str ".json".
Proof. unfold cache_name, cache_prefix. rewrite <- !app_assoc. reflexivity. Qed.

Lemma cache_name_json p n u : json_name (cache_name p n u) = true.
Proof. rewrite cache_name_parts, app_assoc. apply json_name_suffix. Qed.

Lemma cache_name_matches p n u : file_matches (cache_prefix p n) (cache_name p n u) = true.
Proof.
  unfold file_matches. pose proof (cache_name_json p n u) as Hj. unfold json_name in Hj. rewrite Hj, andb_true_r.
  rewrite cache_name_parts, !lenZ_app, short_hash_size. change (lenZ (str ".json")) with 5.
  assert (Hp : is_prefix (cache_prefix p n) (cache_prefix p n ++ short_hash (identity_digest p n u) ++ str ".json") = true) by (apply is_prefix_spec; eauto).
  rewrite Hp, andb_true_r. lia.
Qed.

Lemma safe_name_char s : Forall (fun c => c <> 47) (feed_safe_name s).
Proof.
  unfold feed_safe_name. cbv zeta.
  assert (Hm : Forall (fun c => c <> 47) (map safe_char s)).
  { apply List.Forall_map, Forall_forall. intros c _. unfold safe_char. case_if; lia. }
  assert (Hs : forall t, Forall (fun c => c <> 47) t -> Forall (fun c => c <> 47) (skip_delimiters hyphen t)).
  { induction 1 as [|c t Hc Ht IH]; cbn [skip_delimiters]; [constructor|]. destruct (hyphen c); [exact IH|constructor; assumption]. }
  destruct (reverse _) eqn:E; [vm_compute; repeat constructor; lia|]. rewrite <- E.
  rewrite Forall_reverse. apply Hs. rewrite Forall_reverse. apply Hs, Hm.
Qed.

Lemma digest_bytes p n u : Forall (fun b => exists x, b = u8 x) (identity_digest p n u).
Proof.
  unfold identity_digest, Sha256.feed_sha256_final. cbv zeta. destruct (_ >? 56); cbv iota beta.
  all: match goal with |- context [Sha256.feed_sha256_transform ?s ?b] => generalize (Sha256.feed_sha256_transform s b) end;
    intros l; induction l as [|w l IH]; cbn [map concat]; [constructor|]; apply Forall_app; split; [|exact IH];
    unfold Sha256.feed_store_be32; repeat constructor; eauto.
Qed.

Lemma hex_pair_slash b : (exists x, b = u8 x) -> 47 ∉ hex_pair b.
Proof.
  intros (x & ->). pose proof (Z.mod_pos_bound x (2 ^ 8) ltac:(lia)) as Hb. intros Hin. apply list_elem_of_In in Hin.
  pose proof (PlainInet.all_bytes (fun b => forallb (fun c => negb (c =? 47)) (hex_pair b)) ltac:(vm_compute; reflexivity) (u8 x) Hb) as Hall.
  cbv beta in Hall. rewrite forallb_forall in Hall. specialize (Hall 47 Hin). discriminate.
Qed.

Lemma cache_name_slash p n u : 47 ∉ cache_name p n u.
Proof.
  unfold cache_name. assert (Hsafe : forall s, 47 ∉ feed_safe_name s).
  { intros s Hin. pose proof (safe_name_char s) as Hs. rewrite Forall_forall in Hs. apply list_elem_of_In, Hs in Hin. congruence. }
  rewrite !elem_of_app. intros [Hin|[Hin|[Hin|[Hin|[Hin|Hin]]]]];
    [destruct (Hsafe _ Hin)|apply list_elem_of_singleton in Hin; discriminate|destruct (Hsafe _ Hin)
    |apply list_elem_of_singleton in Hin; discriminate| |].
  - unfold short_hash in Hin. apply list_elem_of_In, List.in_concat in Hin as (l & Hl & Hin). apply List.in_map_iff in Hl as (b & <- & Hb).
    apply list_elem_of_In in Hin. revert Hin. apply hex_pair_slash. pose proof (digest_bytes p n u) as Hd. rewrite Forall_forall in Hd.
    apply Hd. apply list_elem_of_In in Hb. apply list_elem_of_In. apply elem_of_take in Hb as (i & Hi & _). eapply list_elem_of_lookup_2, Hi.
  - vm_compute in Hin. apply list_elem_of_In in Hin. cbn in Hin. lia.
Qed.

(** A file is looked at by its own prefix only when it is a JSON file. *)
Lemma file_matches_json prefix file : file_matches prefix file = true -> json_name file = true.
Proof. unfold file_matches, json_name. rewrite !andb_true_iff. tauto. Qed.

Lemma missing_code e : cache_missing (A := ch_rule_feed_cache) = Raise e -> code e = CH_ERROR_NOT_FOUND.
Proof. intros [= <-]. reflexivity. Qed.

(** Reading and decoding one file of a tidy directory. *)
Lemma read_entry d file content p n u :
  tidy d -> files d !! in_directory directory file = Some content -> 47 ∉ file -> json_name file = true ->
  (json ← feed_read_file report d (in_directory directory file); feed_decode_cache json p n u)
  = feed_decode_cache content p n u /\
  exists cache, cache_ok cache /\ content = cache_bytes cache /\ file = cache_name (profile cache) (name cache) (url cache).
Proof.
  intros Ht Hf Hs Hj. destruct (tidy_files d Ht file content Hf Hs Hj) as (cache & Hok & Hc & Hl & Hn).
  unfold feed_read_file. rewrite Hf, readable. unfold CACHE_LIMIT in Hl. case_if; [lia|]. split; [reflexivity|eauto].
Qed.

Lemma load_loop_cached d p n u entries :
  tidy d -> Forall (fun file => (47 ∉ file) /\ is_Some (files d !! in_directory directory file)) entries ->
  load_loop report d directory (cache_prefix p n) p n u entries =
  if bool_decide (cache_name p n u ∈ entries) then cached d p n u else cache_missing.
Proof.
  intros Ht. induction 1 as [|file entries [Hs [content Hf]] Hall IH]; cbn [load_loop]; [reflexivity|].
  destruct (file_matches (cache_prefix p n) file) eqn:Hm; cbn [negb].
  - destruct (read_entry d file content p n u Ht Hf Hs (file_matches_json _ _ Hm)) as (-> & cache & Hok & -> & Hfile).
    rewrite decode_stored by exact Hok. destruct (decide (p = profile cache /\ n = name cache /\ u = url cache)) as [Hid|Hid];
      [rewrite (bool_decide_eq_true_2 (p = profile cache /\ _)) by exact Hid|rewrite (bool_decide_eq_false_2 (p = profile cache /\ _)) by exact Hid].
    + destruct Hid as (-> & -> & ->). rewrite bool_decide_eq_true_2 by (rewrite Hfile; left).
      unfold cached, feed_cache_path. rewrite <- Hfile, Hf, decode_stored, bool_decide_eq_true_2 by auto. reflexivity.
    + rewrite bool_decide_eq_true_2 by reflexivity. rewrite IH. destruct (decide (file = cache_name p n u)) as [E|E].
      * rewrite (bool_decide_eq_true_2 (cache_name p n u ∈ file :: entries)) by (rewrite E; left).
        unfold cached, feed_cache_path. rewrite <- E, Hf, decode_stored by exact Hok.
        rewrite (bool_decide_eq_false_2 (p = profile cache /\ _)) by exact Hid. destruct (bool_decide (file ∈ entries)); reflexivity.
      * rewrite (bool_decide_ext (cache_name p n u ∈ file :: entries) (cache_name p n u ∈ entries)); [reflexivity|].
        rewrite elem_of_cons. split; [intros [?|?]; [congruence|assumption]|auto].
  - rewrite IH. apply (f_equal (fun b : bool => if b then cached d p n u else cache_missing)). apply bool_decide_ext.
    rewrite elem_of_cons. split; [auto|]. intros [E|?]; [|assumption]. subst file. rewrite cache_name_matches in Hm. discriminate.
Qed.

Lemma nonempty_match {A} (a b : A) (s : bytes) : s <> [] -> match s with [] => a | _ :: _ => b end = b.
Proof. destruct s; [congruence|reflexivity]. Qed.

(** Loading from a tidy directory. *)
Lemma load_cached d p n u :
  tidy d -> ch_rule_feed_cache_load report readdir d (Some config_path) kind p n u = cached d p n u.
Proof.
  intros Ht. unfold ch_rule_feed_cache_load. rewrite nonempty_match by exact Hpath.
  case_bool_decide as Hd.
  - rewrite load_loop_cached; [|exact Ht|].
    + case_bool_decide as Hin; [reflexivity|]. unfold cached. destruct (files d !! _) eqn:E; [|reflexivity].
      destruct Hin. apply listing. split; [apply cache_name_slash|]. unfold feed_cache_path in E. rewrite E. eauto.
    + apply list.Forall_forall. intros file Hin. apply listing, Hin.
  - unfold cached. destruct (files d !! _) eqn:E; [|reflexivity]. destruct Hd. unfold feed_cache_path in E. eapply tidy_directory; eauto.
Qed.

(** Two disks with the same JSON files in the directory. *)
Definition same_json (d d' : disk) : Prop :=
  directory ∈ directories d' /\
  forall file, json_name file = true -> files d' !! in_directory directory file = files d !! in_directory directory file.

Lemma same_tidy d d' : tidy d -> same_json d d' -> tidy d'.
Proof.
  intros Ht [Hd Hs]. constructor; [|intros; exact Hd]. intros file content Hf Hsl Hj. rewrite Hs in Hf by exact Hj.
  apply (tidy_files d Ht); assumption.
Qed.

Lemma same_cached d d' p n u : same_json d d' -> cached d' p n u = cached d p n u.
Proof. intros [_ Hs]. unfold cached, feed_cache_path. rewrite Hs by apply cache_name_json. reflexivity. Qed.

(** The letters that [mkstemp] puts in place of the last six. *)
Definition temporary_ok (letters : bytes) : Prop := lenZ letters = 6 /\ 46 ∉ letters.

Lemma temporary_json letters : temporary_ok letters -> json_name (str ".rule-feed-" ++ letters) = false.
Proof.
  intros [Hl Hd]. destruct letters as [|a letters]; [discriminate|].
  unfold json_name. rewrite lenZ_app, Hl. change (lenZ (str ".rule-feed-")) with 11. change (11 + 6 - 5) with 12.
  apply beq_false. change (str ".rule-feed-") with (str ".rule-feed-"). unfold sub. change (Z.to_nat 12) with (11 + 1)%nat.
  change (str ".rule-feed-" ++ a :: letters) with ((str ".rule-feed-" ++ [a]) ++ letters). rewrite drop_app_length' by reflexivity.
  intros E. apply Hd. right. eapply (list_elem_of_lookup_2 _ 0). rewrite <- (lookup_take_lt letters (Z.to_nat 5)) by (cbn; lia).
  rewrite E. reflexivity.
Qed.

Lemma other_file d path content file :
  path <> in_directory directory file ->
  files (with_file d path content) !! in_directory directory file = files d !! in_directory directory file /\
  files (without_file d path) !! in_directory directory file = files d !! in_directory directory file.
Proof. intros Hp. unfold with_file, without_file. cbn. rewrite lookup_insert_ne, lookup_delete_ne by exact Hp. auto. Qed.

Section Writing.
Context (grow : Z -> bool) (io : write_io) (Hletters : temporary_ok (io_temporary io)).
Context (d : disk) (Hd : tidy d) (cache : ch_rule_feed_cache) (Hcache : cache_ok cache)
  (Hsize : lenZ (cache_bytes cache) <= CACHE_LIMIT).

Abbreviation path := (feed_cache_path config_path kind (profile cache) (name cache) (url cache)).
Abbreviation temporary := (in_directory directory (str ".rule-feed-" ++ io_temporary io)).

Lemma temporary_other file : json_name file = true -> temporary <> in_directory directory file.
Proof.
  intros Hj E. apply in_directory_inj in E as <-. rewrite temporary_json in Hj by exact Hletters. discriminate.
Qed.

(** What holds of every disk of a write, and of its last one. *)
Definition write_outcome (trace : list disk) (r : result unit) : Prop :=
  r <> Fault /\ exists before final, trace = before ++ [final] /\ Forall (same_json d) before /\
    ((r = Done tt /\ directory ∈ directories final /\ files final !! path = Some (cache_bytes cache) /\
      forall file, json_name file = true -> in_directory directory file <> path ->
        files final !! in_directory directory file = files d !! in_directory directory file) \/
     (exists e, r = Raise e /\ (same_json d final \/ final = d))).

Lemma replace_outcome d1 :
  same_json d d1 ->
  let '(trace, r) := replace_file io d1 directory path (cache_bytes cache) in write_outcome trace r.
Proof.
  intros [Hdir Hs]. unfold replace_file. cbv zeta.
  assert (Htemp : forall content, same_json d (with_file d1 temporary content)).
  { intros content. split; [exact Hdir|]. intros file Hj. destruct (other_file d1 temporary content file (temporary_other file Hj)) as [-> _].
    apply Hs, Hj. }
  assert (Hgone : same_json d (without_file (with_file d1 temporary []) temporary)).
  { split; [exact Hdir|]. intros file Hj. destruct (Htemp []) as [_ Ht].
    destruct (other_file (with_file d1 temporary []) temporary [] file (temporary_other file Hj)) as [_ ->]. apply Ht, Hj. }
  destruct (io_create io) as [m|]; [split; [discriminate|]; exists [], d1; split_and!; [reflexivity|constructor|]; right; eexists; split; [reflexivity|left; split; assumption]|].
  destruct (io_chmod io) as [m|].
  { split; [discriminate|]. exists [with_file d1 temporary []], (without_file (with_file d1 temporary []) temporary).
    split_and!; [reflexivity|repeat constructor; apply Htemp|]. right. eexists. split; [reflexivity|left; exact Hgone]. }
  destruct (write_loop (io_writes io) (lenZ (cache_bytes cache)) 0) as [states error].
  set (before := with_file d1 temporary [] :: map _ states).
  assert (Hbefore : Forall (same_json d) before).
  { constructor; [apply Htemp|]. apply List.Forall_map, Forall_forall. intros n _. apply Htemp. }
  assert (Hfail : forall m, write_outcome (before ++ [without_file (with_file d1 temporary []) temporary]) (fail CH_ERROR_IO m)).
  { intros m. split; [discriminate|]. do 2 eexists. split_and!; [reflexivity|exact Hbefore|]. right. eexists. split; [reflexivity|left; exact Hgone]. }
  destruct error; [apply Hfail|]. destruct (io_close io); [apply Hfail|]. destruct (io_rename io); [apply Hfail|].
  split; [discriminate|]. do 2 eexists. split_and!; [reflexivity|exact Hbefore|]. left. split_and!; [reflexivity|exact Hdir| |].
  - cbn. rewrite lookup_insert_eq. reflexivity.
  - intros file Hj Hne. destruct Hgone as [_ Hg]. rewrite <- Hg by exact Hj. cbn. rewrite lookup_insert_ne by congruence. reflexivity.
Qed.

Lemma directory_made : same_json d (mk_disk (files d) ({[directory]} ∪ directories d)).
Proof. split; [apply elem_of_union_l, elem_of_singleton_2; reflexivity|]. reflexivity. Qed.

Lemma write_cache_outcome :
  let '(trace, r) := ch_rule_feed_cache_write grow io d (Some config_path) kind cache in write_outcome trace r.
Proof.
  unfold ch_rule_feed_cache_write. rewrite nonempty_match by exact Hpath.
  destruct (io_mkdir io) as [m|].
  { split; [discriminate|]. exists [], d. split_and!; [reflexivity|constructor|]. right. eexists. split; [reflexivity|right; reflexivity]. }
  pose proof directory_made as Hmade.
  destruct (cache_text_take grow kind cache (str "encode rule feed cache")) as [[->|(e & ->)] _].
  - apply replace_outcome, Hmade.
  - split; [discriminate|]. exists [], (mk_disk (files d) ({[directory]} ∪ directories d)). split_and!; [reflexivity|constructor|]. right.
    eexists. split; [reflexivity|left; exact Hmade].
Qed.

End Writing.

(** No system call of a write fails. *)
Definition io_succeeds (io : write_io) : Prop :=
  io_mkdir io = None /\ io_create io = None /\ io_chmod io = None /\ io_close io = None /\ io_rename io = None /\
  Forall (fun call => match call with Interrupted => True | Refused _ => False | Accepted count => 0 < count end) (io_writes io).

Lemma write_succeeds grow io d cache :
  io_succeeds io -> (forall n, grow n = true) -> lenZ (cache_bytes cache) + 1 <= SIZE_MAX ->
  snd (ch_rule_feed_cache_write grow io d (Some config_path) kind cache) = Done tt.
Proof.
  intros (I1 & I2 & I3 & I4 & I5 & I6) Hg Hs. unfold ch_rule_feed_cache_write. rewrite nonempty_match, I1 by exact Hpath.
  destruct (cache_text_take grow kind cache (str "encode rule feed cache")) as [_ ->];
    [|exact Hs|exact Hg].
  unfold replace_file. rewrite I2, I3. cbv zeta. pose proof (write_loop_succeeds (io_writes io) (lenZ (cache_bytes cache)) 0 I6) as Hl.
  destruct (write_loop _ _ _) as [states error]. cbn [snd] in Hl. rewrite Hl, I4, I5. reflexivity.
Qed.

Lemma final_tidy d final cache :
  tidy d -> cache_ok cache -> lenZ (cache_bytes cache) <= CACHE_LIMIT ->
  directory ∈ directories final ->
  files final !! feed_cache_path config_path kind (profile cache) (name cache) (url cache) = Some (cache_bytes cache) ->
  (forall file, json_name file = true -> in_directory directory file <> feed_cache_path config_path kind (profile cache) (name cache) (url cache) ->
     files final !! in_directory directory file = files d !! in_directory directory file) ->
  tidy final.
Proof.
  intros Ht Hc Hs Hdir Hp Ho. constructor; [|intros; exact Hdir]. intros file content Hf Hsl Hj.
  destruct (decide (in_directory directory file = feed_cache_path config_path kind (profile cache) (name cache) (url cache))) as [E|E].
  - rewrite E, Hp in Hf. injection Hf as <-. exists cache. split_and!; auto. exact (in_directory_inj _ _ _ E).
  - rewrite Ho in Hf by assumption. apply (tidy_files d Ht); assumption.
Qed.

Lemma write_atomic grow io d cache :
  temporary_ok (io_temporary io) -> tidy d -> cache_ok cache -> lenZ (cache_bytes cache) <= CACHE_LIMIT ->
  let load d := ch_rule_feed_cache_load report readdir d (Some config_path) kind in
  let path := feed_cache_path config_path kind in
  let '(trace, r) := ch_rule_feed_cache_write grow io d (Some config_path) kind cache in
  (io_succeeds io -> (forall n, grow n = true) -> r = Done tt) /\
  Forall tidy trace /\
  exists before final, trace = before ++ [final] /\
    (forall d' p n u, d' ∈ before -> load d' p n u = load d p n u) /\
    match r with
    | Done _ =>
        load final (profile cache) (name cache) (url cache) = Done (stored kind cache) /\
        forall p n u, path p n u <> path (profile cache) (name cache) (url cache) -> load final p n u = load d p n u
    | Raise _ => forall p n u, load final p n u = load d p n u
    | Fault => False
    end.
Proof.
  intros Hl Ht Hc Hs. cbv zeta. pose proof (write_cache_outcome grow io Hl d cache) as Ho.
  pose proof (write_succeeds grow io d cache) as Hsucc.
  destruct (ch_rule_feed_cache_write grow io d (Some config_path) kind cache) as [trace r]. cbn [snd] in Hsucc.
  split; [intros Hio Hg; apply Hsucc; auto; unfold CACHE_LIMIT, CH_RULE_FEED_MAX_BYTES, SIZE_MAX in *; lia|]. destruct Ho as (Hf & before & final & -> & Hb & Hr).
  assert (Hbt : forall d', d' ∈ before -> tidy d' /\ same_json d d').
  { intros d' Hin. rewrite list.Forall_forall in Hb. split; [apply (same_tidy d)|]; auto. }
  destruct Hr as [(-> & Hdir & Hp & Ho)|(e & -> & Hfin)].
  - pose proof (final_tidy d final cache Ht Hc Hs Hdir Hp Ho) as Hft. split.
    { apply Forall_app. split; [|constructor; [exact Hft|constructor]]. apply list.Forall_forall. intros d' Hin. apply Hbt, Hin. }
    exists before, final. split_and!; [reflexivity| | |].
    + intros d' p n u Hin. destruct (Hbt d' Hin). rewrite !load_cached, (same_cached d d') by assumption. reflexivity.
    + rewrite load_cached by exact Hft. unfold cached. rewrite Hp, decode_stored, bool_decide_eq_true_2 by auto. reflexivity.
    + intros p n u Hne. rewrite !load_cached by assumption. unfold cached, feed_cache_path. rewrite Ho; [reflexivity|apply cache_name_json|exact Hne].
  - assert (Hfin' : tidy final /\ forall p n u, cached final p n u = cached d p n u).
    { destruct Hfin as [Hsame| ->]; [|auto]. split; [apply (same_tidy d); assumption|]. intros p n u. apply same_cached, Hsame. }
    destruct Hfin' as [Hft Hcached]. split.
    { apply Forall_app. split; [|constructor; [exact Hft|constructor]]. apply list.Forall_forall. intros d' Hin. apply Hbt, Hin. }
    exists before, final. split_and!; [reflexivity| |].
    + intros d' p n u Hin. destruct (Hbt d' Hin). rewrite !load_cached, (same_cached d d') by assumption. reflexivity.
    + intros p n u. rewrite !load_cached by assumption. apply Hcached.
Qed.


End Disk.

Section Responses.
Context `{Inet, DoubleCompare, !DoubleSize}.

(** ** Facts: responses *)

(** Options that the configuration gives: C strings, networks in lower case and
    without repetition. *)
Record options_ok (options : ch_rule_feed_refresh_options) : Prop := {
  opt_texts : Forall (fun s => cstr_ok s /\ quiet s)
    [opt_profile options; opt_name options; opt_url options; default [] (opt_action options)];
  opt_nets : Forall network_ok (opt_networks options) /\ NoDup (opt_networks options) /\
    lenZ (opt_networks options) <= CH_RULE_FEED_MAX_ENTRIES
}.

(** No entry is left with a final dot. *)
Definition no_final_dot (feed : ch_rule_feed) : Prop :=
  Forall (fun name => forall bare, name <> bare ++ [46]) (domain_suffixes feed).

Lemma kept_listed feed : feed_ok feed -> no_final_dot feed -> kept canonical_domain (domain_suffixes feed).
Proof.
  intros [_ Hd _ [Hs Hn] _ Hc _] Hdot. pose proof (lenZ_nonneg (cidrs feed)). split_and!; [|exact Hs|exact Hn|lia].
  unfold no_final_dot in Hdot. rewrite list.Forall_forall in *. intros name Hin. destruct (Hd name Hin) as (Hip & labels & [Hl|(bare & E & _)]).
  - split; eauto.
  - destruct (Hdot name Hin bare E).
Qed.

Lemma short_quiet s : (length s < 13)%nat -> quiet s.
Proof. intros Hl p ->. rewrite length_app in Hl. cbn in Hl. lia. Qed.

Lemma response_ok options feed tag modified now :
  options_ok options -> feed_ok feed -> no_final_dot feed ->
  cstr_ok (default [] tag) /\ quiet (default [] tag) -> cstr_ok (default [] modified) /\ quiet (default [] modified) ->
  INT64_MIN <= now <= INT64_MAX ->
  cache_ok (response_cache options feed tag modified now).
Proof.
  intros [Ho (Hnet & Hnd & Hnc)] Hf Hdot Ht Hm Hnow. pose proof (kept_listed feed Hf Hdot) as Hd.
  destruct Hf as [Hfmt _ Hb _ [Hbs Hbn] Hc Hsk].
  repeat match goal with Hx : Forall _ (_ :: _) |- _ => inversion_clear Hx end.
  assert (Hformat : cstr_ok (format feed) /\ quiet (format feed)).
  { rewrite !elem_of_cons, elem_of_nil in Hfmt.
    destruct Hfmt as [-> |[-> |[-> |[]]]]; (split; [apply key_ok; reflexivity|apply short_quiet; cbn; lia]). }
  constructor; cbn [response_cache FeedCache.feed FeedCache.networks fetched_ts_ns]; auto.
  - unfold cache_strings. cbn [response_cache profile name url FeedCache.feed action etag last_modified].
    repeat (apply List.Forall_cons; [assumption|]). apply List.Forall_cons.
    { destruct (opt_action options) as [[|c t]|]; cbn [default] in *; [|assumption|];
        (split; [apply key_ok; reflexivity|apply short_quiet; cbn; lia]). }
    repeat (apply List.Forall_cons; [assumption|]). constructor.
  - destruct (feed_sort_spec (opt_networks options)) as [Hs Hp]. split_and!; [rewrite Hp; exact Hnet|exact Hs|rewrite Hp; exact Hnd|].
    rewrite (lenZ_perm _ _ Hp). exact Hnc.
  - pose proof (lenZ_nonneg (domain_suffixes feed)). split_and!; auto. lia.
  - unfold CH_RULE_FEED_MAX_BYTES in Hsk. lia.
Qed.

(** ** Facts: requests *)

(** What an endpoint is prepared from. *)
Definition same_parser (network : nat -> HttpSafety.Network) : Prop :=
  forall n, @HttpSafety.curl_url_set (network n) = @HttpSafety.curl_url_set (network 0%nat).

Lemma prepare_origin (net : HttpSafety.Network) target purpose ep :
  @HttpSafety.ch_http_endpoint_prepare net (Some target) purpose = Done ep ->
  exists parsed ep0, @HttpSafety.url_parts net target = Some (parsed, ep0) /\
    HttpSafety.ep_scheme ep = HttpSafety.ep_scheme ep0 /\
    HttpSafety.ep_host ep = HttpSafety.canonical_host (HttpSafety.ep_host ep0) /\ HttpSafety.ep_port ep = HttpSafety.ep_port ep0.
Proof.
  unfold HttpSafety.ch_http_endpoint_prepare. case_if; [discriminate|]. cbn [mbind option_bind].
  destruct (@HttpSafety.url_parts net target) as [[parsed ep0]|]; [|discriminate]. case_if; [discriminate|]. case_if; [discriminate|].
  destruct (HttpSafety.getaddrinfo _ _) as [resolved addresses]. case_if; [discriminate|]. intros E.
  apply bind_Done_inv in E as (numeric & _ & E). injection E as <-. exists parsed, ep0. auto.
Qed.

Lemma same_origin_refl a b :
  HttpSafety.ep_scheme a = HttpSafety.ep_scheme b -> HttpSafety.ep_host a = HttpSafety.ep_host b ->
  HttpSafety.ep_port a = HttpSafety.ep_port b -> HttpSafety.ch_http_endpoint_same_origin (Some a) (Some b) = true.
Proof.
  intros Hs Hh Hp. unfold HttpSafety.ch_http_endpoint_same_origin. rewrite Hs, Hh, Hp, !beq_refl.
  assert (Hr : forall s, strcaseeq s s = true) by (intros s; apply strcaseeq_true; reflexivity). rewrite !Hr. reflexivity.
Qed.

Section Requests.
Context (network : nat -> HttpSafety.Network) (Hparser : same_parser network)
  (server : http_request -> nat -> http_reply) (resolve_redirect : bytes -> bytes -> option bytes).

(** An endpoint that was prepared from some URL against the network of that
    time, and lies on the origin of the first one. *)
Definition allowed (initial : HttpSafety.ch_http_endpoint) (request : http_request) : Prop :=
  (exists n target, prepare network n target = Done (req_endpoint request)) /\
  HttpSafety.ch_http_endpoint_same_origin (Some initial) (Some (req_endpoint request)) = true.

Lemma request_loop_allowed left redirect old initial endpoint :
  allowed initial (mk_request endpoint []) ->
  let '(requests, r) := request_loop network server resolve_redirect left redirect old initial endpoint in
  (length requests <= S left)%nat /\ Forall (allowed initial) requests.
Proof.
  revert redirect endpoint. induction left as [|left IH]; intros redirect endpoint Ha; cbn [request_loop]; cbv zeta;
    (assert (Hone : Forall (allowed initial) [mk_request endpoint (conditional_headers old)]) by (constructor; [exact Ha|constructor]));
    destruct (perform _) as [[[body headers] status]|e|]; cbn [length]; try (split; [lia|exact Hone]);
    (case_if; cbn [length]; [split; [lia|exact Hone]|]); [split; [lia|exact Hone]|].
  destruct (head_location headers) as [[|c location]|]; cbn [length]; try (split; [lia|exact Hone]).
  destruct (resolve_redirect _ _) as [next_url|]; cbn [length]; [|split; [lia|exact Hone]].
  destruct (prepare network (redirect + 2) next_url) as [next|e|] eqn:Ep; cbn [length]; try (split; [lia|exact Hone]).
  case_if; cbn [length]; [|split; [lia|exact Hone]].
  specialize (IH (S redirect) next). assert (Hn : allowed initial (mk_request next [])) by (split; [eauto|assumption]).
  specialize (IH Hn). destruct (request_loop _ _ _ _ _ _ _ _) as [requests r]. destruct IH as [Hl Hf]. cbn [length].
  split; [lia|]. constructor; [exact Ha|exact Hf].
Qed.

End Requests.

(** C35: Every request of a refresh goes to a public endpoint of the origin of
    the configured URL.  There are at most ten requests; each endpoint, also
    behind a redirect, was prepared and found public against the answers of
    the resolver at that time and is pinned to an address among them, and it
    has the scheme, host and port of the URL in the options. *)
Theorem refresh_requests_public network server resolve_redirect report readdir grow io now d options :
  same_parser network ->
  let '(requests, _, _) := ch_rule_feed_refresh network server resolve_redirect report readdir grow io now d options in
  lenZ requests <= 10 /\
  forall request, request ∈ requests ->
    (exists n target addresses, @HttpSafety.endpoint_public (network n) target (req_endpoint request) addresses) /\
    exists initial, prepare network 0 (opt_url options) = Done initial /\
      HttpSafety.ch_http_endpoint_same_origin (Some initial) (Some (req_endpoint request)) = true.
Proof.
  intros Hparser. unfold ch_rule_feed_refresh. cbv zeta.
  assert (Hnone : forall (P : http_request -> Prop) , lenZ (@nil http_request) <= 10 /\ forall request, request ∈ [] -> P request).
  { intros P. split; [vm_compute; discriminate|]. intros request Hin. apply elem_of_nil in Hin. contradiction. }
  destruct (prepare network 0 (opt_url options)) as [initial|e|] eqn:E0; cbn [mbind outcome_bind]; [|apply Hnone..].
  destruct (prepare network 1 (opt_url options)) as [endpoint|e|] eqn:E1; cbn [mbind outcome_bind]; [|apply Hnone..].
  match goal with |- context [request_loop _ _ _ MAX_REDIRECTS 0 ?o _ _] => set (old := o) end.
  assert (Hfirst : allowed network initial (mk_request endpoint [])).
  { split; [eauto|]. apply prepare_origin in E0 as (p0 & ep0 & U0 & S0 & H0' & P0), E1 as (p1 & ep1 & U1 & S1 & H1' & P1).
    unfold HttpSafety.url_parts in U0, U1. rewrite Hparser in U1. rewrite U1 in U0. injection U0 as -> ->.
    apply same_origin_refl; cbn; congruence. }
  pose proof (request_loop_allowed network server resolve_redirect MAX_REDIRECTS 0 old initial endpoint Hfirst) as Hloop.
  destruct (request_loop _ _ _ _ _ _ _ _) as [requests r]. destruct Hloop as [Hlen Hall].
  assert (Hgoal : lenZ requests <= 10 /\ forall request, request ∈ requests ->
            (exists n target addresses, @HttpSafety.endpoint_public (network n) target (req_endpoint request) addresses) /\
            exists initial', (Done initial : result HttpSafety.ch_http_endpoint) = Done initial' /\
              HttpSafety.ch_http_endpoint_same_origin (Some initial') (Some (req_endpoint request)) = true).
  { split; [unfold lenZ, MAX_REDIRECTS in *; lia|]. intros request Hin. rewrite list.Forall_forall in Hall.
    destruct (Hall request Hin) as [(n & target & Hp) Ho]. split; [|eauto]. exists n, target.
    unfold prepare in Hp. apply HttpSafety.prepare_public in Hp. exact Hp. }
  destruct r as [[[body headers] status]|e|]; [|exact Hgoal..].
  match goal with |- context [if status =? 304 then ?a else ?b] => destruct (if status =? 304 then a else b) as [disks r'] end. exact Hgoal.
Qed.

Section Stored.
Context (report : bytes -> read_report) (readdir : disk -> bytes -> list bytes).
Hypothesis readable : forall path, report path = Readable.
Hypothesis listing : forall d directory file,
  file ∈ readdir d directory <-> (47 ∉ file) /\ is_Some (files d !! in_directory directory file).
Context (options : ch_rule_feed_refresh_options) (Hpath : opt_config_path options <> []).

Abbreviation opt_load d := (ch_rule_feed_cache_load report readdir d (Some (opt_config_path options)) (opt_kind options)).
Abbreviation opt_tidy d := (tidy (opt_config_path options) (opt_kind options) d).

(** The disks of an operation that stores at most one cache: before the last
    one nothing is changed, and on an error in the last one neither. *)
Definition keeps_on_failure (d : disk) (disks : list disk) (r : result unit) : Prop :=
  exists before final, disks = before ++ [final] /\
    (forall d' p n u, d' ∈ before -> opt_load d' p n u = opt_load d p n u) /\
    (r <> Done tt -> forall p n u, opt_load final p n u = opt_load d p n u).

Lemma keeps_nothing d r : keeps_on_failure d [d] r.
Proof.
  exists [], d. split_and!; [reflexivity| |reflexivity]. intros d' p n u Hin. apply elem_of_nil in Hin. contradiction.
Qed.

Lemma write_keeps grow io d cache :
  temporary_ok (io_temporary io) -> opt_tidy d ->
  let '(disks, r) := ch_rule_feed_cache_write grow io d (Some (opt_config_path options)) (opt_kind options) cache in
  keeps_on_failure d disks r.
Proof.
  intros Hl Ht. pose proof (write_cache_outcome (opt_config_path options) Hpath (opt_kind options) grow io Hl d cache) as Ho.
  destruct (ch_rule_feed_cache_write _ _ _ _ _ _) as [disks r]. destruct Ho as (Hf & before & final & -> & Hb & Hr).
  assert (Hsame : forall d', same_json (opt_config_path options) (opt_kind options) d d' -> forall p n u, opt_load d' p n u = opt_load d p n u).
  { intros d' Hs p n u. rewrite !(load_cached report readdir readable listing) by (try assumption; eapply same_tidy; eassumption).
    apply same_cached, Hs. }
  exists before, final. split_and!; [reflexivity| |].
  - intros d' p n u Hin. rewrite list.Forall_forall in Hb. apply Hsame, Hb, Hin.
  - intros Hne p n u. destruct Hr as [(-> & _)|(e & _ & [Hs| ->])]; [congruence|apply Hsame, Hs|reflexivity].
Qed.

(** A refresh that fails leaves every list as it was: whether the URL is
    refused, the server cannot be reached, redirects too often or to another
    origin, answers with an error or with a list that does not parse, or a
    system call of the write fails, every cached list loads as before.  At no
    moment before the end has anything changed. *)
Theorem refresh_failure_keeps network server resolve_redirect grow io now d :
  temporary_ok (io_temporary io) -> opt_tidy d ->
  let '(_, disks, r) := ch_rule_feed_refresh network server resolve_redirect report readdir grow io now d options in
  keeps_on_failure d disks r.
Proof.
  intros Hl Ht. unfold ch_rule_feed_refresh. cbv zeta.
  match goal with |- context [match ?m with Done _ => _ | Raise _ => _ | Fault => _ end] =>
    destruct m as [[initial endpoint]|e|]; [|apply keeps_nothing..] end.
  match goal with |- context [request_loop _ _ _ MAX_REDIRECTS 0 ?o _ _] => set (old := o) end.
  destruct (request_loop _ _ _ _ _ _ _ _) as [requests [[[body headers] status]|e|]]; [|apply keeps_nothing..].
  assert (Hstore : forall tag modified, let '(disks, r) := store_body grow io d options body tag modified now in keeps_on_failure d disks r).
  { intros tag modified. unfold store_body. destruct (ch_rule_feed_parse body _) as [f|e|]; [|apply keeps_nothing..].
    apply write_keeps; assumption. }
  destruct (status =? 304).
  - destruct old as [old'|]; [|apply keeps_nothing].
    pose proof (write_keeps grow io d (mk_cache (feed old') (profile old') (name old') (url old') (action old') (networks old')
      (etag old') (last_modified old') now) Hl Ht) as Hw. destruct (ch_rule_feed_cache_write _ _ _ _ _ _). exact Hw.
  - case_if; [apply keeps_nothing|]. specialize (Hstore (head_etag headers) (head_last_modified headers)).
    destruct (store_body _ _ _ _ _ _ _ _). exact Hstore.
Qed.

Abbreviation opt_bytes cache := (print_value (cache_value (opt_kind options) cache)).

(** A stored response is what the rules are built from.  When a body parses,
    the system calls succeed and the file stays within the limit, the list
    loads under the identity of the options as the sorted entries of the body,
    with the action (block without one) and the networks of the options for a
    subscription, the validators of the response and the time of the fetch. *)
Theorem store_response_loads grow io d body tag modified now feed :
  io_succeeds io -> (forall n, grow n = true) -> temporary_ok (io_temporary io) -> opt_tidy d ->
  options_ok options -> ch_rule_feed_parse body (Some (opt_format options)) = Done feed -> no_final_dot feed ->
  cstr_ok (default [] tag) /\ quiet (default [] tag) -> cstr_ok (default [] modified) /\ quiet (default [] modified) ->
  INT64_MIN <= now <= INT64_MAX ->
  let cache := response_cache options feed tag modified now in
  lenZ (opt_bytes cache) <= CACHE_LIMIT ->
  let '(disks, r) := ch_rule_feed_cache_store_response grow io d options body tag modified now in
  r = Done tt /\ exists final, list.last disks = Some final /\ opt_tidy final /\
    opt_load final (opt_profile options) (opt_name options) (opt_url options) = Done (stored (opt_kind options) cache).
Proof.
  intros Hio Hg Hl Ht Ho Hp Hdot Htag Hmod Hnow cache Hsize.
  assert (Hok : cache_ok cache) by (apply response_ok; auto; eapply parse_ok, Hp).
  assert (Hbody : (lenZ body >? CH_RULE_FEED_MAX_BYTES) = false).
  { unfold ch_rule_feed_parse in Hp. destruct (lenZ body >? CH_RULE_FEED_MAX_BYTES); [discriminate|reflexivity]. }
  unfold ch_rule_feed_cache_store_response, store_body. rewrite Hbody, Hp. fold cache.
  pose proof (write_atomic report readdir readable listing (opt_config_path options) Hpath (opt_kind options) grow io d cache Hl Ht Hok Hsize) as Hw.
  cbv zeta in Hw. destruct (ch_rule_feed_cache_write _ _ _ _ _ _) as [disks r]. destruct Hw as (Hs & Htidy & before & final & -> & _ & Hr).
  specialize (Hs Hio Hg). subst r. split; [reflexivity|]. exists final. split_and!; [apply last_snoc| |apply Hr].
  apply Forall_app in Htidy as [_ Hf]. inversion_clear Hf. assumption.
Qed.

Definition with_time (cache : ch_rule_feed_cache) (now : Z) : ch_rule_feed_cache :=
  mk_cache (feed cache) (profile cache) (name cache) (url cache) (action cache) (networks cache) (etag cache)
    (last_modified cache) now.

Lemma stored_action_block cache : stored_action cache <> [].
Proof. unfold stored_action. destruct (beq (action cache) []) eqn:E; [discriminate|]. apply beq_false, E. Qed.

(** What was loaded is stored as it is. *)
Lemma stored_again kind cache now :
  cache_ok cache -> INT64_MIN <= now <= INT64_MAX ->
  cache_ok (with_time (stored kind cache) now) /\
  stored kind (with_time (stored kind cache) now) = with_time (stored kind cache) now.
Proof.
  intros [Hs Hn Hd Hb Hsk Ht] Hnow. unfold cache_strings in Hs.
  repeat match goal with Hx : Forall _ (_ :: _) |- _ => inversion_clear Hx end. split.
  - constructor; cbn [with_time stored feed networks fetched_ts_ns]; auto.
    + unfold cache_strings. cbn [with_time stored profile name url feed action etag last_modified].
      repeat (apply List.Forall_cons; [assumption|]). apply List.Forall_cons.
      { destruct (is_subscription kind); [apply stored_action_ok; assumption|]. split; [constructor|apply short_quiet; cbn; lia]. }
      repeat (apply List.Forall_cons; [assumption|]). constructor.
    + destruct (is_subscription kind); [exact Hn|]. split_and!; [constructor..|]. vm_compute. discriminate.
  - unfold stored, with_time, stored_action. cbn [feed profile name url action networks etag last_modified fetched_ts_ns].
    destruct (is_subscription kind); [|reflexivity]. f_equal. pose proof (stored_action_block cache) as Hne. unfold stored_action in Hne.
    destruct (beq (action cache) []) eqn:E; [reflexivity|]. rewrite E. reflexivity.
Qed.

Lemma load_stored d p n u cache :
  opt_tidy d -> opt_load d p n u = Done cache ->
  exists c, cache_ok c /\ cache = stored (opt_kind options) c /\ p = profile c /\ n = name c /\ u = url c.
Proof.
  intros Ht Hload. rewrite (load_cached report readdir readable listing) in Hload by assumption. unfold cached in Hload.
  destruct (files d !! _) as [content|] eqn:E; [|discriminate]. unfold feed_cache_path in E.
  destruct (tidy_files _ _ d Ht _ _ E (cache_name_slash p n u) (cache_name_json p n u)) as (c & Hok & -> & _ & _).
  rewrite decode_stored in Hload by exact Hok. case_bool_decide as Hid; [|discriminate]. injection Hload as <-. exists c. tauto.
Qed.

(** After a response without a body only the time of a list is new. *)
Theorem touch_advances_time grow io d cache now :
  io_succeeds io -> (forall n, grow n = true) -> temporary_ok (io_temporary io) -> opt_tidy d ->
  INT64_MIN <= now <= INT64_MAX -> lenZ (opt_bytes (with_time cache now)) <= CACHE_LIMIT ->
  let load d := opt_load d (opt_profile options) (opt_name options) (opt_url options) in
  load d = Done cache ->
  let '(disks, r) := ch_rule_feed_cache_touch report readdir grow io d (Some (opt_config_path options)) (opt_kind options)
                       (opt_profile options) (opt_name options) (opt_url options) now in
  r = Done tt /\ exists final, list.last disks = Some final /\ load final = Done (with_time cache now).
Proof.
  intros Hio Hg Hl Ht Hnow Hsize load Hload. unfold ch_rule_feed_cache_touch. fold (load d). rewrite Hload.
  fold (with_time cache now). destruct (load_stored d _ _ _ _ Ht Hload) as (c & Hok & -> & Ep & En & Eu).
  destruct (stored_again (opt_kind options) c now Hok Hnow) as [Hok' Hst].
  pose proof (write_atomic report readdir readable listing (opt_config_path options) Hpath (opt_kind options) grow io d _ Hl Ht Hok' Hsize) as Hw.
  cbv zeta in Hw. destruct (ch_rule_feed_cache_write _ _ _ _ _ _) as [disks r]. destruct Hw as (Hs & _ & before & final & -> & _ & Hr).
  specialize (Hs Hio Hg). subst r. split; [reflexivity|]. exists final. split; [apply last_snoc|].
  destruct Hr as [Hr _]. rewrite Hst in Hr. unfold load. rewrite Ep, En, Eu. exact Hr.
Qed.

End Stored.

(** ** The interface to the configuration

    The rules of a profile are built from what loading gives; a tidy cache is
    what they rely on. *)

Definition load_feed (report : bytes -> read_report) (readdir : disk -> bytes -> list bytes) (d : disk) (config_path : option bytes)
    (kind : RulesConfig.feed_kind) (owner name url : bytes) : result RulesConfig.rule_feed :=
  cache ← ch_rule_feed_cache_load report readdir d config_path kind owner name url;
  Done (RulesConfig.mk_feed (domain_suffixes (feed cache)) (cidrs (feed cache))).

Lemma tidy_cache_ok report readdir d config_path :
  (forall path, report path = Readable) ->
  (forall d directory file, file ∈ readdir d directory <-> (47 ∉ file) /\ is_Some (files d !! in_directory directory file)) ->
  config_path <> [] -> (forall kind, tidy config_path kind d) ->
  RulesConfig.cache_ok (load_feed report readdir d (Some config_path)).
Proof.
  intros Hr Hl Hp Ht kind owner n u. unfold load_feed. rewrite (load_cached report readdir Hr Hl) by auto. unfold cached.
  destruct (files d !! _) as [content|] eqn:E; [|exact I]. unfold feed_cache_path in E.
  destruct (tidy_files _ _ d (Ht kind) _ _ E (cache_name_slash owner n u) (cache_name_json owner n u)) as (c & Hok & -> & _ & _).
  rewrite decode_stored by exact Hok. case_bool_decide; [|exact I]. cbn [mbind outcome_bind RulesConfig.feed_cidrs stored feed].
  destruct Hok as [_ _ _ (Hb & _) _ _]. unfold RulesConfig.cidrs_compile. eapply List.Forall_impl; [|exact Hb].
  intros s Hs. apply canonical_block_facts, Hs.
Qed.

End Responses.

(** ** A list too large for its own cache *)

Section Oversized.
Context `{Inet, DoubleCompare, !DoubleSize}.

(** Four letters that number a name, and names of 25 bytes. *)
Definition letters (i : Z) : bytes := [97 + i / 17576; 97 + i / 676 mod 26; 97 + i / 26 mod 26; 97 + i mod 26].
Definition numbered_name (i : Z) : bytes := letters i ++ str ".list.tracker.example".
Definition numbered_names : list bytes := map (fun n => numbered_name (Z.of_nat n)) (seq 0 (Z.to_nat 200000)).

Lemma letters_bounds i : 0 <= i < 200000 -> Forall (fun c => 97 <= c <= 122) (letters i).
Proof.
  intros Hi. pose proof (Z.mod_pos_bound (i / 676) 26 ltac:(lia)). pose proof (Z.mod_pos_bound (i / 26) 26 ltac:(lia)).
  pose proof (Z.mod_pos_bound i 26 ltac:(lia)). pose proof (Z.div_pos i 17576 ltac:(lia) ltac:(lia)).
  pose proof (Z.div_lt_upper_bound i 17576 26 ltac:(lia) ltac:(lia)). repeat constructor; lia.
Qed.

Lemma letters_inj i j : letters i = letters j -> i = j.
Proof.
  unfold letters. intros [= E1 E2 E3 E4]. change 17576 with (676 * 26) in E1. change 676 with (26 * 26) in *.
  rewrite <- !Z.div_div in E1 by lia. rewrite <- !Z.div_div in E2 by lia.
  assert (Hq : i / 26 / 26 = j / 26 / 26).
  { rewrite (Z.div_mod (i / 26 / 26) 26), (Z.div_mod (j / 26 / 26) 26) by lia. lia. }
  assert (Hr : i / 26 = j / 26).
  { rewrite (Z.div_mod (i / 26) 26), (Z.div_mod (j / 26) 26) by lia. lia. }
  rewrite (Z.div_mod i 26), (Z.div_mod j 26) by lia. lia.
Qed.

Lemma numbered_labels i :
  0 <= i < 200000 -> name_of [letters i; str "list"; str "tracker"; str "example"] (numbered_name i).
Proof.
  intros Hi. split_and!; [|cbn; lia|reflexivity]. apply List.Forall_cons; [|repeat constructor].
  pose proof (letters_bounds i Hi) as Hb. unfold letters in *.
  repeat match goal with Hx : Forall _ (_ :: _) |- _ => inversion_clear Hx end.
  unfold label_valid. cbn [forallb]. change (lenZ [_; _; _; _]) with 4. unfold label_char.
  change (byte_at (?a :: _) 0) with a. change (byte_at [_; _; _; ?d] (4 - 1)) with d. lia.
Qed.

Lemma numbered_In name : name ∈ numbered_names <-> exists i, 0 <= i < 200000 /\ name = numbered_name i.
Proof.
  unfold numbered_names. rewrite list_elem_of_In, List.in_map_iff. split.
  - intros (n & <- & Hn). apply in_seq in Hn. exists (Z.of_nat n). split; [lia|reflexivity].
  - intros (i & Hi & ->). exists (Z.to_nat i). split; [rewrite Z2Nat.id by lia; reflexivity|apply in_seq; lia].
Qed.

Lemma numbered_nodup : NoDup numbered_names.
Proof.
  unfold numbered_names. apply NoDup_fmap_2_strong; [|apply NoDup_ListNoDup, seq_NoDup].
  intros a b _ _ E. unfold numbered_name in E. apply app_inv_tail, letters_inj in E. lia.
Qed.

Lemma numbered_count : lenZ numbered_names = 200000.
Proof. unfold numbered_names, lenZ. rewrite List.length_map, length_seq. lia. Qed.

#[local] Opaque numbered_names.

(** Texts of the same length. *)
Lemma same_length_document l sink :
  Forall (fun s => lenZ s = 25) l -> lenZ (document PLAIN sink (entries_of l [])) = 26 * lenZ l.
Proof.
  unfold entries_of, document. cbn [map]. rewrite app_nil_r.
  induction 1 as [|s l Hs _ IH]; [reflexivity|]. cbn [map concat render entry_text]. rewrite !lenZ_app, IH, Hs.
  rewrite (lenZ_cons s l). change (lenZ [10]) with 1. lia.
Qed.

Lemma escaped_plain s : Forall (fun c => name_char c = true) s -> escaped s = s.
Proof.
  unfold escaped. induction 1 as [|c s Hc _ IH]; [reflexivity|]. cbn [map concat]. rewrite IH.
  assert (E : escape_char c = [c]); [|rewrite E; reflexivity].
  assert (Hc' : 45 <= c <= 122 /\ c <> 92) by (unfold name_char, label_char in Hc; lia).
  unfold escape_char. repeat (case_if; [lia|]). reflexivity.
Qed.

Lemma same_length_texts l :
  Forall (fun s => lenZ s = 25 /\ Forall (fun c => name_char c = true) s) l ->
  28 * lenZ l <= lenZ (print_value (texts_value l)) <= 28 * lenZ l + 2.
Proof.
  intros Hl. unfold texts_value. cbn [print_value].
  assert (Hs : forall s, lenZ s = 25 /\ Forall (fun c => name_char c = true) s -> lenZ (print_value (text_value s)) = 27).
  { intros s [Hs Hc]. cbn [print_value text_value]. unfold print_string. fold (escaped s). rewrite escaped_plain by exact Hc.
    rewrite !lenZ_app, Hs. reflexivity. }
  assert (Hj : 28 * lenZ l <= lenZ (join (map print_value (map text_value l))) + 1 <= 28 * lenZ l + 1).
  { induction Hl as [|s l Hsl Hl IH]; [vm_compute; split; discriminate|]. cbn [map]. rewrite lenZ_cons.
    destruct l as [|s2 l]; [cbn [map join]; rewrite Hs, lenZ_nil by exact Hsl; lia|].
    cbn [map] in *. rewrite join_cons by discriminate. rewrite !lenZ_app, Hs by exact Hsl. change (lenZ [44]) with 1. lia. }
  rewrite !lenZ_app. change (lenZ [91]) with 1. change (lenZ [93]) with 1. lia.
Qed.

(** The text of a cache holds that of its domains. *)
Lemma cache_bytes_domains kind cache :
  domain_suffixes (feed cache) <> [] ->
  lenZ (print_value (texts_value (domain_suffixes (feed cache)))) <= lenZ (print_value (cache_value kind cache)).
Proof.
  intros Hne. unfold cache_value. rewrite object_members, rest_text_app, rest_text_cons. unfold list_members. rewrite !rest_text_app.
  unfold nonempty_member. destruct (negb (lenZ (domain_suffixes (feed cache)) =? 0)) eqn:E; [|apply empty_length in E; congruence].
  rewrite rest_text_cons. unfold member_text at 3. cbn [fst snd]. rewrite !lenZ_app.
  repeat match goal with |- context [lenZ ?x] => lazymatch goal with Hx : 0 <= lenZ x |- _ => fail | _ => pose proof (lenZ_nonneg x) end end.
  lia.
Qed.

(** The size of a cache changes with its domains as their text does. *)
Lemma cache_bytes_other kind c l l' :
  l <> [] -> l' <> [] ->
  let with_domains l := mk_cache (mk_rule_feed (format (feed c)) l (cidrs (feed c)) (skipped (feed c)))
    (profile c) (name c) (url c) (action c) (networks c) (etag c) (last_modified c) (fetched_ts_ns c) in
  lenZ (print_value (cache_value kind (with_domains l))) + lenZ (print_value (texts_value l'))
  = lenZ (print_value (cache_value kind (with_domains l'))) + lenZ (print_value (texts_value l)).
Proof.
  intros Hl Hl' with_domains.
  assert (Hsize : forall k, k <> [] -> exists n, n = lenZ (print_value (cache_value kind (with_domains k))) - lenZ (print_value (texts_value k)) /\
            n = lenZ ([123] ++ member_text (str "version", int_value 1) ++ rest_text (early_members kind c) ++ [44]
                  ++ member_text (str "fetched_ts_ns", int_value (fetched_ts_ns c)) ++ [44] ++ print_string (str "domain_suffixes") ++ [58]
                  ++ rest_text (nonempty_member (str "cidrs") (cidrs (feed c)) ++ [(str "skipped", int_value (skipped (feed c)))]) ++ [125])).
  { intros k Hk. eexists. split; [reflexivity|]. unfold cache_value. rewrite object_members, rest_text_app, rest_text_cons.
    unfold list_members. rewrite rest_text_app. cbn [with_domains feed domain_suffixes cidrs skipped fetched_ts_ns].
    unfold nonempty_member at 1. destruct (negb (lenZ k =? 0)) eqn:E; [|apply empty_length in E; congruence].
    rewrite rest_text_cons. unfold member_text at 3. cbn [fst snd]. change (early_members kind (with_domains k)) with (early_members kind c).
    rewrite !lenZ_app. change (lenZ (rest_text [])) with 0. lia. }
  destruct (Hsize l Hl) as (n & E1 & En), (Hsize l' Hl') as (n' & E2 & En'). lia.
Qed.

Section Unreadable.
Context (report : bytes -> read_report) (readdir : disk -> bytes -> list bytes).
Hypothesis readable : forall path, report path = Readable.
Hypothesis listing : forall d directory file,
  file ∈ readdir d directory <-> (47 ∉ file) /\ is_Some (files d !! in_directory directory file).
Context (options : ch_rule_feed_refresh_options) (Hpath : opt_config_path options <> []).

Abbreviation opt_directory := (feed_cache_directory (opt_config_path options) (opt_kind options)).
Abbreviation opt_file := (cache_name (opt_profile options) (opt_name options) (opt_url options)).

(** Loading when the one JSON file of the directory is too large. *)
Lemma load_loop_large d content entries :
  files d !! in_directory opt_directory opt_file = Some content -> lenZ content > CACHE_LIMIT ->
  (forall file, file ∈ entries -> json_name file = true -> file = opt_file) -> opt_file ∈ entries ->
  load_loop report d opt_directory (cache_prefix (opt_profile options) (opt_name options)) (opt_profile options) (opt_name options)
    (opt_url options) entries = fail CH_ERROR_INVALID_ARGUMENT (str "rule feed cache is too large").
Proof.
  intros Hf Hl Hone Hin. induction entries as [|file entries IH]; [apply elem_of_nil in Hin; contradiction|]. cbn [load_loop].
  destruct (file_matches _ file) eqn:Hm; cbn [negb].
  - rewrite (Hone file) by (left || exact (file_matches_json _ _ Hm)). unfold feed_read_file. rewrite Hf, readable.
    unfold CACHE_LIMIT in Hl. case_if; [|lia]. reflexivity.
  - apply IH; [intros f Hf' Hj; apply Hone; [right; exact Hf'|exact Hj]|]. apply elem_of_cons in Hin as [E|Hin]; [|exact Hin].
    subst file. rewrite cache_name_matches in Hm. discriminate.
Qed.

(** The list, one name a line, and what the parser makes of it. *)
Definition numbered_list : bytes := document PLAIN [] (entries_of numbered_names []).
Definition numbered_entries : ch_rule_feed := mk_rule_feed (str "plain") (feed_sort numbered_names) [] 0.

Lemma numbered_texts : 28 * 200000 <= lenZ (print_value (texts_value (feed_sort numbered_names))) <= 28 * 200000 + 2.
Proof.
  destruct (feed_sort_spec numbered_names) as [_ Hp]. pose proof (same_length_texts (feed_sort numbered_names)) as Hs.
  rewrite (lenZ_perm _ _ Hp), numbered_count in Hs. apply Hs. rewrite Hp. apply list.Forall_forall. intros s Hin.
  apply numbered_In in Hin as (i & Hi & ->). split; [reflexivity|]. destruct (numbered_labels i Hi) as (Hv & _ & ->). apply dots_chars, Hv.
Qed.

Lemma numbered_feed :
  (forall name, name ∈ numbered_names -> feed_is_ip_address name = false) ->
  lenZ numbered_list <= CH_RULE_FEED_MAX_BYTES /\
  ch_rule_feed_parse numbered_list (Some (str "plain")) = Done numbered_entries.
Proof.
  intros Hip. unfold numbered_list, numbered_entries.
  assert (Hc : Forall canonical_domain numbered_names).
  { apply list.Forall_forall. intros s Hs. split; [|apply Hip, Hs]. apply numbered_In in Hs as (i & Hi & ->). eexists. apply numbered_labels, Hi. }
  assert (Hlen : lenZ (document PLAIN [] (entries_of numbered_names [])) <= CH_RULE_FEED_MAX_BYTES).
  { rewrite same_length_document, numbered_count; [vm_compute; discriminate|]. apply list.Forall_forall. intros s Hs.
    apply numbered_In in Hs as (i & _ & ->). reflexivity. }
  split; [exact Hlen|]. apply (parse_document PLAIN [] numbered_names [] (Some (str "plain"))).
  - discriminate.
  - exact Hc.
  - constructor.
  - exact numbered_nodup.
  - constructor.
  - rewrite numbered_count, lenZ_nil. vm_compute. split; discriminate.
  - exact Hlen.
  - left. reflexivity.
Qed.

(** A list that keeps to all limits of the parser can be stored but not
    loaded again.  A plain list of 200,000 names of 25 bytes is within the five
    megabytes of a download; its cache file is larger than what is read back,
    so that after a successful store loading fails with an invalid argument,
    which the configuration does not take for a missing list. *)
Theorem oversized_cache_unreadable grow io d tag modified now :
  io_succeeds io -> (forall n, grow n = true) -> temporary_ok (io_temporary io) ->
  (forall file, files d !! in_directory opt_directory file = None) ->
  (forall name, name ∈ numbered_names -> feed_is_ip_address name = false) -> opt_format options = str "plain" ->
  lenZ (print_value (cache_value (opt_kind options) (response_cache options numbered_entries tag modified now))) + 1 <= SIZE_MAX ->
  lenZ numbered_list <= CH_RULE_FEED_MAX_BYTES /\
  exists disks, ch_rule_feed_cache_store_response grow io d options numbered_list tag modified now = (disks, Done tt) /\
  exists final e, list.last disks = Some final /\ code e = CH_ERROR_INVALID_ARGUMENT /\
    ch_rule_feed_cache_load report readdir final (Some (opt_config_path options)) (opt_kind options)
      (opt_profile options) (opt_name options) (opt_url options) = Raise e.
Proof.
  set (cache := response_cache options numbered_entries tag modified now).
  intros Hio Hg Hl Hempty Hip Hfmt Hsize. destruct (numbered_feed Hip) as [Hlen Hparse]. split; [exact Hlen|]. unfold ch_rule_feed_cache_store_response, store_body. case_if; [lia|]. rewrite Hfmt, Hparse. fold cache.
  pose proof (write_cache_outcome (opt_config_path options) Hpath (opt_kind options) grow io Hl d cache) as Ho.
  pose proof (write_succeeds (opt_config_path options) Hpath (opt_kind options) grow io d cache Hio Hg Hsize) as Hs.
  destruct (ch_rule_feed_cache_write _ _ _ _ _ _) as [disks r]. cbn [snd] in Hs. subst r.
  destruct Ho as (_ & before & final & -> & _ & [(_ & Hdir & Hf & Hothers)|(e & E & _)]); [|discriminate].
  assert (Hbig : lenZ (print_value (cache_value (opt_kind options) cache)) > CACHE_LIMIT).
  { pose proof numbered_texts as [Hd _].
    pose proof (cache_bytes_domains (opt_kind options) cache) as Hc. cbn [cache response_cache FeedCache.feed domain_suffixes numbered_entries] in Hc.
    assert (Hne : feed_sort numbered_names <> []).
    { intros E. rewrite E in Hd. vm_compute in Hd. destruct Hd. reflexivity. }
    specialize (Hc Hne). unfold CACHE_LIMIT, CH_RULE_FEED_MAX_BYTES. lia. }
  eexists. split; [reflexivity|]. exists final. eexists. split_and!; [apply last_snoc| |].
  2: { unfold ch_rule_feed_cache_load. rewrite nonempty_match by exact Hpath. rewrite bool_decide_eq_true_2 by exact Hdir.
       eapply load_loop_large; [exact Hf|exact Hbig| |].
       - intros file Hin Hj. apply listing in Hin as [_ [content Hc]].
         destruct (decide (file = opt_file)) as [E|E]; [exact E|]. exfalso.
         rewrite Hothers, Hempty in Hc; [discriminate|exact Hj|]. unfold feed_cache_path. intros E'. apply E, (in_directory_inj _ _ _ E').
       - apply listing. split; [apply cache_name_slash|]. eexists. exact Hf. }
  reflexivity.
Qed.

End Unreadable.

End Oversized.

(** ** Witnesses *)

(** Integral doubles. *)
#[export, refine] Instance plain_size : @DoubleSize plain_double := {|
  double_to_size := (fun n : Z => if (0 <=? n) && (n <? 2 ^ 64) then Some n else None) : @double plain_double -> option Z
|}.
Proof. intros n Hn. change (double_of_int64 n) with n. case_if; [reflexivity|lia]. Defined.

Section Witnesses.
Import PlainInet.
#[local] Existing Instance Temporary.plain_compare.

(** A directory lists the files whose path is that of the directory, a slash and
    a name. *)
Definition file_in (directory path : bytes) : option bytes :=
  if is_prefix (directory ++ [47]) path then
    let file := drop (length directory + 1) path in
    if bool_decide (47 ∈ file) then None else Some file
  else None.

Definition w_readdir (d : disk) (directory : bytes) : list bytes :=
  omap (fun entry => file_in directory (fst entry)) (map_to_list (files d)).

Lemma file_in_spec directory path file : file_in directory path = Some file <-> (47 ∉ file) /\ path = in_directory directory file.
Proof.
  unfold file_in, in_directory. split.
  - destruct (is_prefix _ path) eqn:E; [|discriminate]. apply is_prefix_spec in E as (r & ->). rewrite <- app_assoc.
    assert (Hd : drop (length directory + 1) (directory ++ [47] ++ r) = r).
    { rewrite app_assoc. apply drop_app_length'. rewrite length_app. reflexivity. }
    rewrite Hd. case_bool_decide; [discriminate|]. intros [= <-]. auto.
  - intros [Hs ->]. assert (Hp : is_prefix (directory ++ [47]) (directory ++ [47] ++ file) = true) by (apply is_prefix_spec; exists file; apply app_assoc).
    rewrite Hp. assert (Hd : drop (length directory + 1) (directory ++ [47] ++ file) = file).
    { rewrite app_assoc. apply drop_app_length'. rewrite length_app. reflexivity. }
    rewrite Hd, bool_decide_eq_false_2 by exact Hs. reflexivity.
Qed.

Lemma w_listing d directory file :
  file ∈ w_readdir d directory <-> (47 ∉ file) /\ is_Some (files d !! in_directory directory file).
Proof.
  unfold w_readdir. rewrite list_elem_of_omap. split.
  - intros ([path content] & Hin & Hf). apply elem_of_map_to_list in Hin. cbn [fst] in Hf.
    apply file_in_spec in Hf as [Hs ->]. split; [exact Hs|eauto].
  - intros [Hs [content Hf]]. exists (in_directory directory file, content). split; [apply elem_of_map_to_list, Hf|].
    apply file_in_spec. auto.
Qed.

Definition w_report (path : bytes) : read_report := Readable.
Definition w_disk : disk := mk_disk ∅ ∅.
Definition w_config_path : bytes := str "/etc/clambhook/config.toml".

Lemma w_tidy config_path kind : tidy config_path kind w_disk.
Proof. constructor; intros file content Hf; cbn in Hf; rewrite lookup_empty in Hf; discriminate. Qed.

Definition w_io : write_io := mk_io None None None (str "a1B2c3") [Accepted 10; Interrupted] None None.

Lemma w_letters : temporary_ok (io_temporary w_io).
Proof. split; [reflexivity|]. apply (bool_decide_unpack _). vm_compute. exact I. Qed.

Lemma w_io_succeeds : io_succeeds w_io.
Proof. repeat split; repeat constructor. Qed.

Definition w_grow (n : Z) : bool := true.

Definition w_options : ch_rule_feed_refresh_options :=
  mk_options w_config_path RulesConfig.CH_RULE_FEED_SUBSCRIPTION (str "home") (str "ads") (str "https://lists.example/ads")
    (str "auto") None [str "tcp"].

Definition w_response : ch_rule_feed_cache := response_cache w_options RuleFeed.w_feed (Some (str "v1")) None 7.

(** Strings that are shorter than the key of the time, and strings by a check. *)
Definition quietb (s : bytes) : bool := negb (beq (drop (length s - 13) s) tag_word).

Lemma quietb_ok s : quietb s = true -> quiet s.
Proof.
  unfold quietb. rewrite negb_true_iff, beq_false. intros Hq p ->. apply Hq. rewrite length_app.
  change (length tag_word) with 13%nat. replace (length p + 13 - 13)%nat with (length p) by lia. apply drop_app_length.
Qed.

Definition text_okb (s : bytes) : bool := forallb (fun c => (0 <? c) && (c <? 256)) s && quietb s.

Lemma text_okb_ok s : text_okb s = true -> cstr_ok s /\ quiet s.
Proof. unfold text_okb. rewrite andb_true_iff. intros [Hc Hq]. split; [apply literal_ok, Hc|apply quietb_ok, Hq]. Qed.

Lemma texts_okb_ok l : forallb text_okb l = true -> Forall (fun s => cstr_ok s /\ quiet s) l.
Proof. intros Hl. apply Forall_forall. intros s Hs. rewrite forallb_forall in Hl. apply text_okb_ok, Hl, Hs. Qed.

Lemma w_options_ok : options_ok w_options.
Proof.
  constructor; [apply texts_okb_ok; vm_compute; reflexivity|]. split_and!.
  - apply List.Forall_cons; [|constructor]. destruct (text_okb_ok (str "tcp") eq_refl). split_and!; auto.
  - apply NoDup_singleton.
  - vm_compute. discriminate.
Qed.

Lemma w_no_final_dot : no_final_dot RuleFeed.w_feed.
Proof.
  apply List.Forall_cons; [|apply List.Forall_cons; [|constructor]]; intros bare E; apply (f_equal reverse) in E;
    rewrite reverse_snoc in E; vm_compute in E; discriminate.
Qed.

Lemma w_response_ok : cache_ok w_response.
Proof.
  apply response_ok; [exact w_options_ok| |exact w_no_final_dot|apply text_okb_ok; reflexivity..|vm_compute; split; discriminate].
  apply (parse_ok RuleFeed.w_body (Some (str "auto"))). vm_compute. reflexivity.
Qed.


(** A server that answers at once with a list. *)
Definition w_server (request : http_request) (n : nat) : http_reply :=
  mk_reply [str "HTTP/1.1 200 OK" ++ [13; 10]; str "ETag: v1" ++ [13; 10]] [take 9 RuleFeed.w_body; drop 9 RuleFeed.w_body] (inr 200).

Definition w_url : bytes := str "https://Example.org./feed".
Definition w_refresh_options : ch_rule_feed_refresh_options :=
  mk_options w_config_path RulesConfig.CH_RULE_FEED_SUBSCRIPTION (str "home") (str "ads") w_url (str "auto") None [].

Definition w_refresh := ch_rule_feed_refresh (fun _ => HttpSafety.w_network) w_server (fun _ _ => None) w_report w_readdir w_grow w_io 7
  w_disk w_refresh_options.

Lemma refresh_requests_public_witness :
  (exists request, request ∈ fst (fst w_refresh)) /\
  forall request, request ∈ fst (fst w_refresh) ->
    exists target addresses, @HttpSafety.endpoint_public HttpSafety.w_network target (req_endpoint request) addresses.
Proof.
  assert (Hone : exists request, fst (fst w_refresh) = [request]) by (eexists; vm_compute; reflexivity).
  pose proof (refresh_requests_public (fun _ => HttpSafety.w_network) w_server (fun _ _ => None) w_report w_readdir w_grow w_io 7
    w_disk w_refresh_options (fun _ => eq_refl)) as Hr.
  fold w_refresh in Hr. destruct w_refresh as [[requests disks] r]. cbn [fst] in *. destruct Hr as [_ Hr], Hone as (request & ->).
  split; [exists request; left|]. intros request' Hin. destruct (Hr request' Hin) as [(n & target & addresses & Hp) _]. eauto.
Defined.

(** A refresh that stores a list, and one whose write fails. *)
Example refresh_ex : snd w_refresh = Done tt /\ lenZ (fst (fst w_refresh)) = 1.
Proof. vm_compute. split; reflexivity. Qed.

Definition w_failing_io : write_io := mk_io None None None (str "a1B2c3") [Accepted 10; Refused (str "no space")] None None.

Definition w_failed := ch_rule_feed_refresh (fun _ => HttpSafety.w_network) w_server (fun _ _ => None) w_report w_readdir w_grow w_failing_io 7
  w_disk w_refresh_options.

(** The numbered names are not addresses. *)
Lemma w_numbered_name name : name ∈ numbered_names -> feed_is_ip_address name = false.
Proof.
  intros Hin. apply numbered_In in Hin as (i & Hi & ->). pose proof (letters_bounds i Hi) as Hb. unfold numbered_name, letters in *.
  set (a := 97 + i / 17576) in *. set (b := 97 + i / 676 mod 26) in *. set (c := 97 + i / 26 mod 26) in *. set (d := 97 + i mod 26) in *.
  repeat match goal with Hx : Forall _ (_ :: _) |- _ => inversion_clear Hx end.
  unfold feed_is_ip_address. rewrite !bool_decide_eq_false_2; [reflexivity| |]; intros [x Hx].
  - cbn [plain_inet pton6] in Hx. unfold plain_pton6 in Hx.
    change ([a; b; c; d] ++ str ".list.tracker.example") with (a :: b :: c :: d :: 46 :: str "list.tracker.example") in Hx. cbn [hex_groups] in Hx.
    destruct (hex_byte a b), (hex_byte c d); discriminate.
  - cbn [plain_inet pton4] in Hx. unfold plain_pton4 in Hx. cbn [parse_dotted] in Hx.
    change ([a; b; c; d] ++ str ".list.tracker.example") with ([a; b; c; d] ++ 46 :: str "list.tracker.example") in Hx.
    rewrite split_first_app in Hx by (rewrite !elem_of_cons, elem_of_nil; lia). cbn [mbind option_bind] in Hx.
    assert (Ho : parse_octet [a; b; c; d] = None); [|rewrite Ho in Hx; discriminate].
    unfold parse_octet. assert (Hd : isdigit a = false) by (unfold isdigit; lia). cbn [forallb]. rewrite Hd. reflexivity.
Qed.

Definition w_plain_options : ch_rule_feed_refresh_options :=
  mk_options w_config_path RulesConfig.CH_RULE_FEED_RULE_SET (str "home") (str "ads") w_url (str "plain") None [].

Lemma w_oversized_fits :
  lenZ (print_value (cache_value RulesConfig.CH_RULE_FEED_RULE_SET (response_cache w_plain_options numbered_entries None None 7))) + 1 <= SIZE_MAX.
Proof.
  pose proof (cache_bytes_other RulesConfig.CH_RULE_FEED_RULE_SET (response_cache w_plain_options (mk_rule_feed (str "plain") [] [] 0) None None 7)
    (feed_sort numbered_names) [str "a.b"]) as Ho.
  pose proof numbered_texts as [Hlo Hhi].
  assert (Hne : feed_sort numbered_names <> []).
  { intros E. rewrite E in Hlo. vm_compute in Hlo. destruct Hlo. reflexivity. }
  specialize (Ho Hne ltac:(discriminate)). cbv zeta in Ho.
  match type of Ho with ?x + ?y = ?z + ?w => assert (Hz : z <= 1000) by (vm_compute; discriminate); assert (Hy : 0 <= y) by apply lenZ_nonneg end.
  unfold numbered_entries. cbn [response_cache FeedCache.feed format cidrs skipped profile name url action networks etag last_modified fetched_ts_ns] in *.
  unfold SIZE_MAX. unfold response_cache. lia.
Qed.

End Witnesses.

End FeedCache.
