(* ===== verification/Traffic.v ===== *)
(** * Traffic accounting: [native/src/traffic.c], the store

    The store keeps metadata of connections, newest first: the active ones and
    a bounded history of closed ones.  Opening, counting and closing write
    events, and each opened connection queues a lookup of its country for a
    worker thread.

    Every function here is one critical section of the mutex of the store.
    [clock] gives the results of the successive readings of the clock in a
    call; what [ch_strdup] gives in [ch_traffic_open] and in closing is an
    argument, elsewhere it is taken to succeed.  The calls of the event writer
    are recorded in [log]. *)

From S2P Require Import Prelude CLib Json JsonText.

(** What the code uses of [double] for rates and coordinates; [format_3f] is
    [printf("%.3f")].  A finite number is printed as a number of JSON, and the
    17 digits of [format_17g] determine it; printed texts have no NUL. *)
Class DoubleRate `{Double} : Type := {
  double_of_uint64 : Z -> double;
  double_add : double -> double -> double;
  double_div : double -> double -> double;
  format_3f : double -> bytes;
  format_3f_finite d : isfinite d = true ->
    (exists integer, Json.number_token (format_3f d) integer) /\ exists v, strtod (format_3f d) = Some v;
  format_17g_finite d : isfinite d = true ->
    (exists integer, Json.number_token (format_17g d) integer) /\ strtod (format_17g d) = Some d;
  format_texts d : Forall (fun c => 0 < c) (format_3f d) /\ Forall (fun c => 0 < c) (format_17g d)
}.

Module Traffic.
Import Json JsonText.

Definition CH_TRAFFIC_DEFAULT_LIMIT : Z := 512.
Definition CH_TRAFFIC_MAX_LIMIT : Z := 4096.
Definition CH_TRAFFIC_ACTIVE_RESERVE : Z := 1024.
Definition CH_TRAFFIC_DEFAULT_MAX_AGE_NS : Z := 604800000000000.
Definition CH_TRAFFIC_GEO_QUEUE_CAPACITY : Z := 256.

(** A null text is the empty text: [traffic_copy] copies it so. *)
Record ch_traffic_open_info : Type := mk_info {
  i_profile : bytes;
  i_listener_protocol : bytes;
  i_listener_address : bytes;
  i_client_address : bytes;
  i_chain_name : bytes;
  i_group_name : bytes;
  i_rule_name : bytes;
  i_rule_action : bytes;
  i_is_default : bool;
  i_decision_ns : Z;
  i_target : bytes;
  i_target_host : bytes;
  i_target_port : bytes;
  i_network : bytes;
  i_source : bytes
}.

Record ch_traffic_geo_job : Type := mk_job {
  job_flow_id : Z;
  job_generation : Z;
  job_target : bytes
}.

(** The arguments of a call of the event writer. *)
Record traffic_event : Type := mk_event {
  shard_id : Z;
  lamport : Z;
  event_type : bytes;
  data_json : bytes
}.

Section Store.
Context `{DoubleRate}.

Record traffic_geo : Type := mk_geo {
  geo_country : bytes;
  geo_country_code : bytes;
  geo_city : bytes;
  geo_error : bytes;
  geo_latitude : double;
  geo_longitude : double;
  geo_generation : Z
}.

(** The texts copied from the information at the opening are one field, and so
    are the fields of the country. *)
Record ch_traffic_entry : Type := mk_entry {
  flow_id : Z;
  conn_id : bytes;
  info : ch_traffic_open_info;
  close_reason : bytes;
  geo : traffic_geo;
  active : bool;
  start_ns : Z;
  updated_ns : Z;
  end_ns : Z;
  rate_sample_ns : Z;
  rx_total : Z;
  tx_total : Z;
  event_lamport : Z;
  rx_bps : double;
  tx_bps : double
}.

(** The queue of lookups: a ring of slots. *)
Record geo_queue : Type := mk_queue {
  geo_reader : bool;
  geo_jobs : list (option ch_traffic_geo_job);
  geo_job_head : Z;
  geo_job_count : Z;
  queue_generation : Z
}.

Record history_settings : Type := mk_settings {
  limit : Z;
  enabled : bool;
  history_loaded : bool;
  history_max_age_ns : Z;
  history_path : bytes
}.

Record ch_traffic_store : Type := mk_store {
  entries : list ch_traffic_entry;
  capacity : Z;
  sequence : Z;
  settings : history_settings;
  persist_error : bytes;
  queue : geo_queue;
  event_writer : bool;
  log : list traffic_event
}.

Definition with_entries (s : ch_traffic_store) (l : list ch_traffic_entry) (events : list traffic_event) : ch_traffic_store :=
  mk_store l (capacity s) (sequence s) (settings s) (persist_error s) (queue s) (event_writer s) (log s ++ events).

Definition with_queue (s : ch_traffic_store) (q : geo_queue) : ch_traffic_store :=
  mk_store (entries s) (capacity s) (sequence s) (settings s) (persist_error s) q (event_writer s) (log s).

Definition with_sequence (s : ch_traffic_store) (n : Z) : ch_traffic_store :=
  mk_store (entries s) (capacity s) n (settings s) (persist_error s) (queue s) (event_writer s) (log s).

Definition with_settings (s : ch_traffic_store) (settings : history_settings) : ch_traffic_store :=
  mk_store (entries s) (capacity s) (sequence s) settings (persist_error s) (queue s) (event_writer s) (log s).

Definition traffic_set_persist_error_locked (s : ch_traffic_store) (message : bytes) : ch_traffic_store :=
  mk_store (entries s) (capacity s) (sequence s) (settings s) message (queue s) (event_writer s) (log s).

(** ** Pruning *)

Definition cutoff (s : history_settings) (now : Z) : Z :=
  if (history_max_age_ns s >? 0) && (now >? history_max_age_ns s) then now - history_max_age_ns s else 0.

Definition fresh (cut : Z) (e : ch_traffic_entry) : bool := (cut =? 0) || (end_ns e =? 0) || (end_ns e >=? cut).

Fixpoint prune_loop (limit cut closed : Z) (l : list ch_traffic_entry) : list ch_traffic_entry :=
  match l with
  | [] => []
  | e :: l' =>
      if active e then e :: prune_loop limit cut closed l'
      else if (closed <? limit) && fresh cut e then e :: prune_loop limit cut (closed + 1) l'
      else prune_loop limit cut closed l'
  end.

Definition traffic_prune_locked (s : ch_traffic_store) (now : Z) : ch_traffic_store :=
  with_entries s (prune_loop (limit (settings s)) (cutoff (settings s) now) 0 (entries s)) [].

(** ** Life cycle *)

Definition no_geo : traffic_geo := mk_geo [] [] [] [] (double_of_int64 0) (double_of_int64 0) 0.

Definition traffic_entry_initialize (id : Z) (i : ch_traffic_open_info) (now : Z) : ch_traffic_entry :=
  mk_entry id (str "native-" ++ dec id) i [] no_geo true now now 0 now 0 0 0 (double_of_int64 0) (double_of_int64 0).

Definition empty_queue : geo_queue :=
  mk_queue false (replicate (Z.to_nat CH_TRAFFIC_GEO_QUEUE_CAPACITY) None) 0 0 0.

(** The steps of the creation that can fail, in order. *)
Definition setup_failures : list (ch_status * bytes) :=
  [(CH_ERROR_OUT_OF_MEMORY, str "allocate traffic store");
   (CH_ERROR_OUT_OF_MEMORY, str "initialize traffic store");
   (CH_ERROR_OUT_OF_MEMORY, str "initialize traffic persistence lock");
   (CH_ERROR_OUT_OF_MEMORY, str "initialize traffic geo condition");
   (CH_ERROR_OUT_OF_MEMORY, str "initialize traffic persistence");
   (CH_ERROR_INTERNAL, str "start traffic geo worker")].

(** [failing] is the first step that fails, if one does. *)
Definition ch_traffic_store_create (failing : option nat) (history_limit : Z) : result ch_traffic_store :=
  let n := if history_limit =? 0 then CH_TRAFFIC_DEFAULT_LIMIT else history_limit in
  if n >? CH_TRAFFIC_MAX_LIMIT then fail CH_ERROR_INVALID_ARGUMENT (str "traffic history limit exceeds 4096")
  else
    match failing ≫= fun step => setup_failures !! step with
    | Some (code, message) => fail code message
    | None =>
        Done (mk_store [] (CH_TRAFFIC_MAX_LIMIT + CH_TRAFFIC_ACTIVE_RESERVE) 0
                (mk_settings n true false CH_TRAFFIC_DEFAULT_MAX_AGE_NS []) [] empty_queue false [])
    end.

Definition ch_traffic_store_set_event_writer (s : ch_traffic_store) (writer : bool) : ch_traffic_store :=
  mk_store (entries s) (capacity s) (sequence s) (settings s) (persist_error s) (queue s) writer (log s).

(** ** Events *)

Section Events.
Context (grow : Z -> bool).

Definition with_lamport (e : ch_traffic_entry) (n : Z) : ch_traffic_entry :=
  mk_entry (flow_id e) (conn_id e) (info e) (close_reason e) (geo e) (active e) (start_ns e) (updated_ns e) (end_ns e)
    (rate_sample_ns e) (rx_total e) (tx_total e) n (rx_bps e) (tx_bps e).

(** An event is only written when its text could be built. *)
Definition traffic_emit_locked (writer : bool) (e : ch_traffic_entry) (type : bytes) (data : json_op)
    : ch_traffic_entry * list traffic_event :=
  if negb writer then (e, [])
  else
    match take_text data [] with
    | Done text =>
        let n := u64 (event_lamport e + 1) in (with_lamport e n, [mk_event (flow_id e) n type text])
    | _ => (e, [])
    end.

Definition opened_data (e : ch_traffic_entry) : json_op :=
  let i := info e in
  all_of [
    append grow ([123] ++ quoted_key "conn_id"); append_text grow (conn_id e);
    append grow ([44] ++ quoted_key "profile"); append_text grow (i_profile i);
    append grow ([44] ++ quoted_key "listener" ++ [123] ++ quoted_key "protocol"); append_text grow (i_listener_protocol i);
    append grow ([44] ++ quoted_key "addr"); append_text grow (i_listener_address i);
    append grow ([125; 44] ++ quoted_key "client_addr"); append_text grow (i_client_address i);
    append grow ([44] ++ quoted_key "chain_name"); append_text grow (i_chain_name i);
    append grow [125]].

Definition rule_data (e : ch_traffic_entry) : json_op :=
  let i := info e in
  all_of [
    append grow ([123] ++ quoted_key "conn_id"); append_text grow (conn_id e);
    append grow ([44] ++ quoted_key "profile"); append_text grow (i_profile i);
    append grow ([44] ++ quoted_key "rule_name"); append_text grow (i_rule_name i);
    append grow ([44] ++ quoted_key "action"); append_text grow (i_rule_action i);
    append grow ([44] ++ quoted_key "chain_name"); append_text grow (i_chain_name i);
    append grow ([44] ++ quoted_key "group_name"); append_text grow (i_group_name i);
    append grow ([44] ++ quoted_key "target"); append_text grow (i_target i);
    append grow ([44] ++ quoted_key "target_host"); append_text grow (i_target_host i);
    append grow ([44] ++ quoted_key "target_port"); append_text grow (i_target_port i);
    append grow ([44] ++ quoted_key "network"); append_text grow (i_network i);
    append grow ([44] ++ quoted_key "source"); append_text grow (i_source i);
    append grow ([44] ++ quoted_key "default" ++ bool_text (i_is_default i) ++ [44] ++ quoted_key "elapsed_ns"
                 ++ dec (i_decision_ns i) ++ [125])].

Definition rule_event_type (action : bytes) : bytes :=
  if strcaseeq action (str "block") || strcaseeq action (str "reject") then str "rule.blocked"
  else if strcaseeq action (str "direct") then str "rule.direct"
  else str "rule.matched".

Definition traffic_emit_open_locked (writer : bool) (e : ch_traffic_entry) : ch_traffic_entry * list traffic_event :=
  let '(e, first) := traffic_emit_locked writer e (str "connection.opened") (opened_data e) in
  let '(e, second) := traffic_emit_locked writer e (rule_event_type (i_rule_action (info e))) (rule_data e) in
  (e, first ++ second).

Definition bytes_data (e : ch_traffic_entry) (rx_delta tx_delta interval : Z) : json_op :=
  all_of [
    append grow ([123] ++ quoted_key "conn_id"); append_text grow (conn_id e);
    append grow ([44] ++ quoted_key "rx_delta" ++ dec rx_delta ++ [44] ++ quoted_key "tx_delta" ++ dec tx_delta
                 ++ [44] ++ quoted_key "rx_total" ++ dec (rx_total e) ++ [44] ++ quoted_key "tx_total" ++ dec (tx_total e)
                 ++ [44] ++ quoted_key "interval_ns" ++ dec (if interval <? 0 then 0 else interval) ++ [125])].

Definition traffic_emit_bytes_locked (writer : bool) (e : ch_traffic_entry) (rx_delta tx_delta interval : Z)
    : ch_traffic_entry * list traffic_event :=
  traffic_emit_locked writer e (str "connection.bytes") (bytes_data e rx_delta tx_delta interval).

Definition closed_data (e : ch_traffic_entry) : json_op :=
  all_of [
    append grow ([123] ++ quoted_key "conn_id"); append_text grow (conn_id e);
    append grow ([44] ++ quoted_key "reason"); append_text grow (close_reason e);
    append grow ([44] ++ quoted_key "rx_total" ++ dec (rx_total e) ++ [44] ++ quoted_key "tx_total" ++ dec (tx_total e)
                 ++ [125])].

Definition traffic_emit_close_locked (writer : bool) (e : ch_traffic_entry) : ch_traffic_entry * list traffic_event :=
  traffic_emit_locked writer e (str "connection.closed") (closed_data e).

(** ** The queue of lookups *)

Definition with_geo (e : ch_traffic_entry) (g : traffic_geo) : ch_traffic_entry :=
  mk_entry (flow_id e) (conn_id e) (info e) (close_reason e) g (active e) (start_ns e) (updated_ns e) (end_ns e)
    (rate_sample_ns e) (rx_total e) (tx_total e) (event_lamport e) (rx_bps e) (tx_bps e).

Definition with_geo_error (g : traffic_geo) (message : bytes) : traffic_geo :=
  mk_geo (geo_country g) (geo_country_code g) (geo_city g) message (geo_latitude g) (geo_longitude g) (geo_generation g).

Definition with_generation (g : traffic_geo) (n : Z) : traffic_geo :=
  mk_geo (geo_country g) (geo_country_code g) (geo_city g) (geo_error g) (geo_latitude g) (geo_longitude g) n.

Definition next_nonzero (n : Z) : Z := if u64 (n + 1) =? 0 then 1 else u64 (n + 1).

Definition traffic_enqueue_geo_locked (q : geo_queue) (e : ch_traffic_entry) : geo_queue * ch_traffic_entry :=
  if negb (geo_reader q) then (q, e)
  else if geo_job_count q =? CH_TRAFFIC_GEO_QUEUE_CAPACITY then
    (q, with_geo e (with_geo_error (geo e) (str "geo lookup backpressure")))
  else
    let generation := next_nonzero (queue_generation q) in
    let slot := (geo_job_head q + geo_job_count q) mod CH_TRAFFIC_GEO_QUEUE_CAPACITY in
    let job := mk_job (flow_id e) generation (i_target (info e)) in
    (mk_queue true (<[Z.to_nat slot := Some job]> (geo_jobs q)) (geo_job_head q) (geo_job_count q + 1) generation,
     with_geo e (with_generation (geo e) generation)).

(** The worker takes the job at the head; [None] when there is none.  A slot
    without a job is a zeroed one. *)
Definition geo_worker_take (q : geo_queue) : option (ch_traffic_geo_job * geo_queue) :=
  if geo_job_count q =? 0 then None
  else
    let slot := Z.to_nat (geo_job_head q) in
    let job := default (mk_job 0 0 []) (default None (geo_jobs q !! slot)) in
    Some (job, mk_queue (geo_reader q) (<[slot := None]> (geo_jobs q))
                 ((geo_job_head q + 1) mod CH_TRAFFIC_GEO_QUEUE_CAPACITY) (geo_job_count q - 1) (queue_generation q)).

(** What [ch_geo_lookup] gives: a location or an error message. *)
Record ch_geo_location : Type := mk_location {
  country : bytes;
  country_code : bytes;
  city : bytes;
  latitude : double;
  longitude : double
}.

Definition located (g : traffic_geo) (lookup : ch_geo_location + bytes) : traffic_geo :=
  match lookup with
  | inl l => mk_geo (country l) (country_code l) (city l) [] (latitude l) (longitude l) (geo_generation g)
  | inr message => mk_geo [] [] [] message (double_of_int64 0) (double_of_int64 0) (geo_generation g)
  end.

(** ** Flows *)

Definition traffic_find_flow (s : ch_traffic_store) (id : Z) : option ch_traffic_entry :=
  List.find (fun e => flow_id e =? id) (entries s).

(** Change the entry that [traffic_find_flow] finds, and write its events. *)
Fixpoint at_flow (id : Z) (f : ch_traffic_entry -> ch_traffic_entry * list traffic_event) (l : list ch_traffic_entry)
    : list ch_traffic_entry * list traffic_event :=
  match l with
  | [] => ([], [])
  | e :: l' =>
      if flow_id e =? id then let '(e', events) := f e in (e' :: l', events)
      else let '(l'', events) := at_flow id f l' in (e :: l'', events)
  end.

Definition update_flow (s : ch_traffic_store) (id : Z) (f : ch_traffic_entry -> ch_traffic_entry * list traffic_event)
    : ch_traffic_store :=
  let '(l, events) := at_flow id f (entries s) in with_entries s l events.

(** The second half of the worker's round. *)
Definition geo_worker_commit (s : ch_traffic_store) (job : ch_traffic_geo_job) (lookup : ch_geo_location + bytes)
    : ch_traffic_store :=
  update_flow s (job_flow_id job) (fun e =>
    (if geo_generation (geo e) =? job_generation job then with_geo e (located (geo e) lookup) else e, [])).

(** The identifier 0 without an error is the answer of a disabled store. *)
Definition ch_traffic_open (clock : nat -> Z) (copied : bool) (s : ch_traffic_store) (i : ch_traffic_open_info)
    : ch_traffic_store * result Z :=
  if negb (enabled (settings s)) then (s, Done 0)
  else
    let s := traffic_prune_locked s (clock 0%nat) in
    if lenZ (entries s) =? capacity s then
      (s, fail CH_ERROR_INVALID_STATE (str "traffic active connection capacity reached"))
    else
      let id := next_nonzero (sequence s) in
      let s := with_sequence s id in
      if negb copied then (s, fail CH_ERROR_OUT_OF_MEMORY (str "copy traffic connection"))
      else
        let next := traffic_entry_initialize id i (clock 1%nat) in
        let '(q, next) := traffic_enqueue_geo_locked (queue s) next in
        let '(next, events) := traffic_emit_open_locked (event_writer s) next in
        (with_entries (with_queue s q) (next :: entries s) events, Done id).

Definition count_bytes (e : ch_traffic_entry) (rx_delta tx_delta now : Z) : ch_traffic_entry :=
  let interval := now - rate_sample_ns e in
  let seconds := double_div (double_of_int64 interval) (double_of_int64 1000000000) in
  let rate delta old := if interval >? 0 then double_div (double_of_uint64 delta) seconds else old in
  mk_entry (flow_id e) (conn_id e) (info e) (close_reason e) (geo e) (active e) (start_ns e) now (end_ns e) now
    (u64 (rx_total e + rx_delta)) (u64 (tx_total e + tx_delta)) (event_lamport e)
    (rate rx_delta (rx_bps e)) (rate tx_delta (tx_bps e)).

Definition ch_traffic_bytes (s : ch_traffic_store) (id rx_delta tx_delta now : Z) : ch_traffic_store :=
  if (id =? 0) || ((rx_delta =? 0) && (tx_delta =? 0)) then s
  else
    update_flow s id (fun e =>
      traffic_emit_bytes_locked (event_writer s) (count_bytes e rx_delta tx_delta now) rx_delta tx_delta
        (now - rate_sample_ns e)).

(** [copied] is the copy of the reason. *)
Definition traffic_close_entry (e : ch_traffic_entry) (copied : bool) (reason : option bytes) (now : Z) : ch_traffic_entry :=
  if negb (active e) then e
  else
    mk_entry (flow_id e) (conn_id e) (info e) (if copied then default (str "closed") reason else close_reason e) (geo e)
      false (start_ns e) now now (rate_sample_ns e) (rx_total e) (tx_total e) (event_lamport e)
      (double_of_int64 0) (double_of_int64 0).

Definition close_and_emit (writer copied : bool) (reason : option bytes) (now : Z) (e : ch_traffic_entry)
    : ch_traffic_entry * list traffic_event :=
  let closed := traffic_close_entry e copied reason now in
  if active e then traffic_emit_close_locked writer closed else (closed, []).

(** [ch_traffic_close] before it flushes the history. *)
Definition close_locked (clock : nat -> Z) (copied : bool) (s : ch_traffic_store) (id : Z) (reason : option bytes)
    : ch_traffic_store :=
  if id =? 0 then s
  else
    traffic_prune_locked (update_flow s id (close_and_emit (event_writer s) copied reason (clock 0%nat))) (clock 1%nat).

Fixpoint close_loop (writer : bool) (copied : nat -> bool) (reason : option bytes) (now : Z) (l : list ch_traffic_entry)
    : list ch_traffic_entry * list traffic_event :=
  match l with
  | [] => ([], [])
  | e :: l' =>
      let '(e', events) := close_and_emit writer (copied 0%nat) reason now e in
      let '(l'', events') := close_loop writer (fun n => copied (S n)) reason now l' in
      (e' :: l'', events ++ events')
  end.

(** [ch_traffic_close_all] before it flushes the history. *)
Definition close_all_locked (now : Z) (copied : nat -> bool) (s : ch_traffic_store) (reason : option bytes)
    : ch_traffic_store :=
  let '(l, events) := close_loop (event_writer s) copied reason now (entries s) in
  traffic_prune_locked (with_entries s l events) now.

(** ** Configuration: the two critical sections of [ch_traffic_store_configure]

    [reader] is the outcome of opening the country database: [None] when it
    failed, which keeps the reader. *)
Definition configure_locked (s : ch_traffic_store) (reader : option bool) (path : bytes) (on : bool) (n max_age now : Z)
    : ch_traffic_store * bool :=
  let q := queue s in
  let q := mk_queue (default (geo_reader q) reader) (geo_jobs q) (geo_job_head q) (geo_job_count q) (queue_generation q) in
  let changed := negb (beq (history_path (settings s)) path) in
  let l := if changed || negb on then [] else entries s in
  let loaded := history_loaded (settings s) && negb changed in
  let next := mk_settings n on loaded max_age path in
  (traffic_prune_locked (with_settings (with_queue (with_entries s l []) q) next) now,
   on && negb (beq path []) && negb loaded).

(** [loaded] is what the history file gave. *)
Definition history_loaded_locked (s : ch_traffic_store) (loaded : result (list ch_traffic_entry * Z)) (now : Z)
    : ch_traffic_store :=
  let old := settings s in
  let s := with_settings s (mk_settings (limit old) (enabled old) true (history_max_age_ns old) (history_path old)) in
  match loaded with
  | Done (l, last) =>
      let available := capacity s - lenZ (entries s) in
      let s := with_entries s (entries s ++ take (Z.to_nat available) l) [] in
      let s := if last >? sequence s then with_sequence s last else s in
      traffic_set_persist_error_locked (traffic_prune_locked s now) []
  | Raise (mk_error _ text) => traffic_set_persist_error_locked s text
  | Fault => s
  end.


(** ** Interleavings

    The critical sections that change the store, and their effect.  [Prune] is
    that of a snapshot, of the decision list and of a flush; [Persisted] is the
    second one of a flush. *)
Inductive traffic_op : Type :=
| Open (clock : nat -> Z) (copied : bool) (i : ch_traffic_open_info)
| Count (id rx_delta tx_delta now : Z)
| Close (clock : nat -> Z) (copied : bool) (id : Z) (reason : option bytes)
| Close_all (now : Z) (copied : nat -> bool) (reason : option bytes)
| Prune (now : Z)
| Persisted (message : bytes)
| Take_job
| Commit (job : ch_traffic_geo_job) (lookup : ch_geo_location + bytes)
| Set_writer (writer : bool)
| Configure (reader : option bool) (path : bytes) (on : bool) (n max_age now : Z)
| Loaded (loaded : result (list ch_traffic_entry * Z)) (now : Z).

Definition traffic_step (s : ch_traffic_store) (op : traffic_op) : ch_traffic_store :=
  match op with
  | Open clock copied i => fst (ch_traffic_open clock copied s i)
  | Count id rx_delta tx_delta now => ch_traffic_bytes s id rx_delta tx_delta now
  | Close clock copied id reason => close_locked clock copied s id reason
  | Close_all now copied reason => close_all_locked now copied s reason
  | Prune now => traffic_prune_locked s now
  | Persisted message => traffic_set_persist_error_locked s message
  | Take_job => match geo_worker_take (queue s) with Some (_, q) => with_queue s q | None => s end
  | Commit job lookup => geo_worker_commit s job lookup
  | Set_writer writer => ch_traffic_store_set_event_writer s writer
  | Configure reader path on n max_age now => fst (configure_locked s reader path on n max_age now)
  | Loaded loaded now => history_loaded_locked s loaded now
  end.

(** What [ch_traffic_store_configure] and [traffic_history_load] ensure of
    their arguments, and that fewer than 2^64 connections are opened. *)
Definition allowed (s : ch_traffic_store) (op : traffic_op) : Prop :=
  match op with
  | Open _ _ _ => sequence s < UINT64_MAX
  | Count _ rx_delta tx_delta _ => 0 <= rx_delta <= UINT64_MAX /\ 0 <= tx_delta <= UINT64_MAX
  | Configure _ _ _ n _ _ => 0 < n <= CH_TRAFFIC_MAX_LIMIT
  | Loaded (Done (l, last)) _ =>
      0 <= last <= UINT64_MAX /\ Forall (fun e => active e = false /\ 0 <= flow_id e <= last) l
  | _ => True
  end.

Inductive reachable : ch_traffic_store -> Prop :=
| reachable_created n s : 0 <= n -> ch_traffic_store_create None n = Done s -> reachable s
| reachable_step s op : reachable s -> allowed s op -> reachable (traffic_step s op).

(** Runs from a state on. *)
Fixpoint run (s : ch_traffic_store) (ops : list traffic_op) : ch_traffic_store :=
  match ops with [] => s | op :: ops' => run (traffic_step s op) ops' end.

Fixpoint allowed_all (s : ch_traffic_store) (ops : list traffic_op) : Prop :=
  match ops with [] => True | op :: ops' => allowed s op /\ allowed_all (traffic_step s op) ops' end.

(** ** Facts: pruning *)

Lemma prune_active n cut closed l : List.filter active (prune_loop n cut closed l) = List.filter active l.
Proof.
  revert closed. induction l as [|e l IH]; intros closed; [reflexivity|]. cbn [prune_loop List.filter].
  destruct (active e) eqn:Ea; [cbn [List.filter]; rewrite Ea, IH; reflexivity|].
  case_if; [cbn [List.filter]; rewrite Ea|]; apply IH.
Qed.

Definition inactive (e : ch_traffic_entry) : bool := negb (active e).

(** The closed entries that remain are the first fresh ones, up to the limit. *)
Lemma prune_closed n cut closed l :
  List.filter inactive (prune_loop n cut closed l)
  = take (Z.to_nat (n - closed)) (List.filter (fresh cut) (List.filter inactive l)).
Proof.
  revert closed. induction l as [|e l IH]; intros closed; [cbn; rewrite take_nil; reflexivity|].
  cbn [prune_loop List.filter]. unfold inactive in *. destruct (active e) eqn:Ea.
  - cbn [List.filter]. rewrite Ea. cbn [negb]. apply IH.
  - cbn [negb List.filter]. destruct (fresh cut e) eqn:Ef; [|rewrite andb_false_r; apply IH]. rewrite andb_true_r.
    destruct (closed <? n) eqn:En.
    + cbn [List.filter]. rewrite Ea. cbn [negb]. rewrite IH.
      replace (Z.to_nat (n - closed)) with (S (Z.to_nat (n - (closed + 1)))) by lia. reflexivity.
    + rewrite IH. replace (Z.to_nat (n - closed)) with 0%nat by lia. reflexivity.
Qed.

Lemma prune_in n cut closed l e : e ∈ prune_loop n cut closed l -> e ∈ l.
Proof.
  revert closed. induction l as [|x l IH]; intros closed; cbn [prune_loop]; [auto|].
  rewrite (elem_of_cons l e x).
  case_if; [|case_if]; [rewrite elem_of_cons; intros [He|He]; eauto..|]. intros He. eauto.
Qed.

Lemma prune_Forall (P : ch_traffic_entry -> Prop) n cut closed l : Forall P l -> Forall P (prune_loop n cut closed l).
Proof. rewrite !list.Forall_forall. intros Hl e He. apply Hl. eapply prune_in, He. Qed.

Lemma active_split (l : list ch_traffic_entry) :
  lenZ l = lenZ (List.filter active l) + lenZ (List.filter inactive l).
Proof.
  induction l as [|e l IH]; [reflexivity|]. cbn [List.filter]. unfold inactive at 1.
  destruct (active e); cbn [negb]; rewrite ?lenZ_cons in *; lia.
Qed.

Lemma prune_length n cut closed l : lenZ (prune_loop n cut closed l) <= lenZ l.
Proof.
  revert closed. induction l as [|x l IH]; intros closed; cbn [prune_loop]; [lia|]. rewrite lenZ_cons.
  case_if; [|case_if]; rewrite ?lenZ_cons; specialize (IH closed) as H1; specialize (IH (closed + 1)); lia.
Qed.

Lemma prune_count n cut l : 0 <= n -> lenZ (prune_loop n cut 0 l) <= lenZ (List.filter active l) + n.
Proof.
  intros Hn. rewrite active_split, prune_active, prune_closed. unfold lenZ. rewrite length_take. lia.
Qed.

Lemma prune_ids n cut closed l : NoDup (map flow_id l) -> NoDup (map flow_id (prune_loop n cut closed l)).
Proof.
  revert closed. induction l as [|e l IH]; intros closed; cbn [prune_loop map]; [auto|].
  rewrite list.NoDup_cons. intros [He Hl].
  assert (Hcons : forall c, NoDup (map flow_id (e :: prune_loop n cut c l))).
  { intros c. cbn [map]. apply list.NoDup_cons. split; [|auto]. intros Hin. apply He.
    apply list_elem_of_fmap in Hin as (x & -> & Hx). apply list_elem_of_fmap. exists x. eauto using prune_in. }
  case_if; [auto|]. case_if; auto.
Qed.

(** ** Facts: flows *)

Definition has_id (id : Z) (e : ch_traffic_entry) : bool := flow_id e =? id.

Lemma find_prune n cut closed l id e :
  List.find (has_id id) l = Some e -> active e = true -> List.find (has_id id) (prune_loop n cut closed l) = Some e.
Proof.
  revert closed. induction l as [|x l IH]; intros closed; [discriminate|]. cbn [List.find prune_loop]. intros Hf Ha.
  destruct (has_id id x) eqn:Ex.
  - simplify_eq. rewrite Ha. cbn [List.find]. rewrite Ex. reflexivity.
  - case_if; [|case_if]; cbn [List.find]; rewrite ?Ex; auto.
Qed.

Definition keeps_id (f : ch_traffic_entry -> ch_traffic_entry * list traffic_event) : Prop :=
  forall e, flow_id (fst (f e)) = flow_id e.

Lemma find_at_flow id id' f l :
  keeps_id f ->
  List.find (has_id id) (fst (at_flow id' f l))
  = if id =? id' then (fun e => fst (f e)) <$> List.find (has_id id) l else List.find (has_id id) l.
Proof.
  intros Hf. induction l as [|e l IH]; [cbn; case_if; reflexivity|]. cbn [at_flow List.find].
  destruct (flow_id e =? id') eqn:E.
  - pose proof (Hf e) as He. destruct (f e) as [e' events] eqn:Ef. cbn [fst List.find] in *.
    unfold has_id in *. rewrite He. destruct (flow_id e =? id) eqn:E2.
    + replace (id =? id') with true by lia. cbn. rewrite Ef. reflexivity.
    + replace (id =? id') with false by lia. reflexivity.
  - destruct (at_flow id' f l) as [l'' events]. cbn [fst List.find] in *. unfold has_id in *.
    destruct (flow_id e =? id) eqn:E2; [replace (id =? id') with false by lia; reflexivity|exact IH].
Qed.

Lemma at_flow_ids id f l : keeps_id f -> map flow_id (fst (at_flow id f l)) = map flow_id l.
Proof.
  intros Hf. induction l as [|e l IH]; [reflexivity|]. cbn [at_flow]. case_if.
  - pose proof (Hf e) as He. destruct (f e). cbn [fst map] in *. congruence.
  - destruct (at_flow id f l). cbn [fst map] in *. congruence.
Qed.

Lemma emit_lamport writer e type data : exists n, fst (traffic_emit_locked writer e type data) = with_lamport e n.
Proof.
  exists (event_lamport (fst (traffic_emit_locked writer e type data))).
  unfold traffic_emit_locked. case_if; [destruct e; reflexivity|].
  destruct (take_text data []); destruct e; reflexivity.
Qed.

Ltac emitted :=
  match goal with
  | |- context [traffic_emit_locked ?w ?e ?t ?d] => destruct (emit_lamport w e t d) as [? ->]
  end.

Lemma bytes_keeps_id writer rx tx now :
  keeps_id (fun e => traffic_emit_bytes_locked writer (count_bytes e rx tx now) rx tx (now - rate_sample_ns e)).
Proof. intros e. unfold traffic_emit_bytes_locked. emitted. reflexivity. Qed.

Lemma close_keeps_id writer copied reason now : keeps_id (close_and_emit writer copied reason now).
Proof.
  intros e. unfold close_and_emit, traffic_emit_close_locked, traffic_close_entry.
  destruct (active e); [|reflexivity]. emitted. reflexivity.
Qed.

Lemma commit_keeps_id job lookup :
  keeps_id (fun e => (if geo_generation (geo e) =? job_generation job then with_geo e (located (geo e) lookup) else e, [])).
Proof. intros e. cbn. case_if; reflexivity. Qed.

Lemma close_loop_ids writer copied reason now l : map flow_id (fst (close_loop writer copied reason now l)) = map flow_id l.
Proof.
  revert copied. induction l as [|e l IH]; intros copied; [reflexivity|]. cbn [close_loop].
  pose proof (close_keeps_id writer (copied 0%nat) reason now e) as He. specialize (IH (fun n => copied (S n))).
  destruct (close_and_emit _ _ _ _ _), (close_loop _ _ _ _ l). cbn [fst map] in *. congruence.
Qed.

(** *** The new entry *)

Lemma enqueue_fields q e :
  exists g, snd (traffic_enqueue_geo_locked q e) = with_geo e g.
Proof.
  exists (geo (snd (traffic_enqueue_geo_locked q e))). unfold traffic_enqueue_geo_locked.
  case_if; [destruct e; reflexivity|]. case_if; destruct e; reflexivity.
Qed.

Lemma emit_open_fields writer e : exists n, fst (traffic_emit_open_locked writer e) = with_lamport e n.
Proof.
  unfold traffic_emit_open_locked. destruct (emit_lamport writer e (str "connection.opened") (opened_data e)) as [n Hn].
  destruct (traffic_emit_locked _ e _ _) as [e1 v1]. cbn [fst] in Hn. subst e1.
  match goal with |- context [traffic_emit_locked ?w ?e ?t ?d] => destruct (emit_lamport w e t d) as [m Hm]; destruct (traffic_emit_locked w e t d) end.
  cbn [fst] in *. exists m. rewrite Hm. destruct e. reflexivity.
Qed.

Lemma next_nonzero_small n : 0 <= n < UINT64_MAX -> next_nonzero n = n + 1.
Proof. intros Hn. unfold next_nonzero, u64, UINT64_MAX in *. rewrite Z.mod_small by lia. case_if; lia. Qed.

(** What opening does when it gives an identifier. *)
Lemma open_inv clock copied s i s' id :
  ch_traffic_open clock copied s i = (s', Done id) -> id <> 0 ->
  let pruned := traffic_prune_locked s (clock 0%nat) in
  id = next_nonzero (sequence s) /\ lenZ (entries pruned) <> capacity s /\
  exists g n q events,
    s' = with_entries (with_queue (with_sequence pruned id) q)
           (with_lamport (with_geo (traffic_entry_initialize id i (clock 1%nat)) g) n :: entries pruned) events.
Proof.
  unfold ch_traffic_open. intros Ho Hid. destruct (negb (enabled _)); [injection Ho; congruence|]. cbv zeta in Ho |- *.
  destruct (lenZ (entries (traffic_prune_locked s (clock 0%nat))) =? capacity (traffic_prune_locked s (clock 0%nat))) eqn:E; [discriminate|].
  destruct (negb copied); [discriminate|].
  set (id0 := next_nonzero _) in *. set (e := traffic_entry_initialize _ _ _) in *.
  destruct (enqueue_fields (queue (with_sequence (traffic_prune_locked s (clock 0%nat)) id0)) e) as [g Hg].
  destruct (traffic_enqueue_geo_locked _ e) as [q e1]. cbn [snd] in Hg. subst e1.
  destruct (emit_open_fields (event_writer (with_sequence (traffic_prune_locked s (clock 0%nat)) id0)) (with_geo e g)) as [n Hn].
  destruct (traffic_emit_open_locked _ _) as [e2 events]. cbn [fst] in Hn. subst e2.
  injection Ho as <- <-. split; [reflexivity|]. split; [change (capacity s) with (capacity (traffic_prune_locked s (clock 0%nat))); lia|].
  eauto.
Qed.

(** The state after a failed opening. *)
Lemma open_failed clock copied s i :
  match snd (ch_traffic_open clock copied s i) with Done id => id = 0 \/ id = next_nonzero (sequence s) | Raise _ => True | Fault => False end /\
  ((exists id, snd (ch_traffic_open clock copied s i) = Done id /\ id <> 0) \/
   fst (ch_traffic_open clock copied s i) = s \/
   fst (ch_traffic_open clock copied s i) = traffic_prune_locked s (clock 0%nat) \/
   fst (ch_traffic_open clock copied s i) = with_sequence (traffic_prune_locked s (clock 0%nat)) (next_nonzero (sequence s))).
Proof.
  unfold ch_traffic_open. destruct (negb (enabled _)); [cbn; split; auto|]. cbv zeta.
  destruct (lenZ _ =? _); [cbn; split; auto|]. destruct (negb copied); [cbn; split; auto|].
  destruct (traffic_enqueue_geo_locked _ _) as [q e1]. destruct (traffic_emit_open_locked _ _) as [e2 events].
  cbn [fst snd]. split; [right; reflexivity|]. left. eexists. split; [reflexivity|].
  unfold next_nonzero. case_if; [discriminate|lia].
Qed.

(** ** The invariant of the store *)

Record store_ok (s : ch_traffic_store) : Prop := {
  ok_capacity : capacity s = CH_TRAFFIC_MAX_LIMIT + CH_TRAFFIC_ACTIVE_RESERVE;
  ok_limit : 0 < limit (settings s) <= CH_TRAFFIC_MAX_LIMIT;
  ok_count : lenZ (map flow_id (entries s)) <= capacity s;
  ok_sequence : 0 <= sequence s <= UINT64_MAX;
  ok_ids : Forall (fun id => 0 <= id <= sequence s) (map flow_id (entries s))
}.

Lemma map_lenZ {A B} (f : A -> B) l : lenZ (map f l) = lenZ l.
Proof. unfold lenZ. rewrite length_map. reflexivity. Qed.

(** A step that keeps the identifiers keeps the invariant. *)
Lemma same_ids_ok s s' :
  store_ok s -> map flow_id (entries s') = map flow_id (entries s) -> capacity s' = capacity s ->
  sequence s' = sequence s -> limit (settings s') = limit (settings s) -> store_ok s'.
Proof. intros [] Hi Hc Hq Hs. constructor; rewrite ?Hi, ?Hc, ?Hq, ?Hs; assumption. Qed.

Lemma update_flow_ok s id f : store_ok s -> keeps_id f -> store_ok (update_flow s id f).
Proof.
  intros Hs Hf. pose proof (at_flow_ids id f (entries s) Hf) as Hi. unfold update_flow.
  destruct (at_flow id f (entries s)) as [l events]. apply (same_ids_ok s); try reflexivity; assumption.
Qed.

Lemma prune_keeps_ok s now : store_ok s -> store_ok (traffic_prune_locked s now).
Proof.
  intros []. unfold traffic_prune_locked. set (cut := cutoff _ _). constructor; cbn; try assumption.
  - rewrite map_lenZ in *. pose proof (prune_length (limit (settings s)) cut 0 (entries s)). lia.
  - apply List.Forall_map. rewrite List.Forall_map in ok_ids0. apply prune_Forall, ok_ids0.
Qed.

(** Changing the settings, the queue, the errors or the writer. *)
Lemma sequence_ok s n : store_ok s -> sequence s <= n <= UINT64_MAX -> store_ok (with_sequence s n).
Proof.
  intros [] Hn. constructor; cbn; try assumption; [lia|]. eapply List.Forall_impl; [|exact ok_ids0]. cbn. intros; lia.
Qed.

Lemma open_ok clock copied s i : store_ok s -> sequence s < UINT64_MAX -> store_ok (fst (ch_traffic_open clock copied s i)).
Proof.
  intros Hs Hq. pose proof Hs as [Hc Hl Hn Hsq Hi]. pose proof (prune_keeps_ok s (clock 0%nat) Hs) as Hp.
  destruct (open_failed clock copied s i) as [_ [(id & Hid & Hne)|[E|[E|E]]]]; try (rewrite E; assumption).
  - destruct (ch_traffic_open clock copied s i) as [s' r] eqn:Eo. cbn [fst snd] in *. subst r.
    apply open_inv in Eo as (Ei & Hlen & g & n & q & events & ->); [|assumption].
    rewrite next_nonzero_small in Ei by lia. destruct Hp as [Pc Pl Pn Pq Pi]. constructor; cbn in *; try assumption; try lia.
    + rewrite lenZ_cons. rewrite map_lenZ in *. lia.
    + constructor; [lia|]. eapply List.Forall_impl; [|exact Pi]. cbn. lia.
  - rewrite E. apply sequence_ok; [assumption|]. rewrite next_nonzero_small by lia. cbn. lia.
Qed.

Lemma loaded_ok s loaded now : store_ok s -> allowed s (Loaded loaded now) -> store_ok (history_loaded_locked s loaded now).
Proof.
  intros [Hc Hl Hn Hq Hi] Ha. unfold history_loaded_locked. cbv zeta.
  destruct loaded as [[l last]|[c t]|]; [|constructor; assumption..].
  destruct Ha as [Hlast Hf]. apply (same_ids_ok (traffic_prune_locked
    (if last >? sequence s then with_sequence (with_entries s (entries s ++ take (Z.to_nat (capacity s - lenZ (entries s))) l) []) last
     else with_entries s (entries s ++ take (Z.to_nat (capacity s - lenZ (entries s))) l) []) now)).
  2-5: cbn; case_if; reflexivity.
  apply prune_keeps_ok. rewrite map_lenZ in Hn.
  assert (Ht : Forall (fun e => 0 <= flow_id e <= last) (take (Z.to_nat (capacity s - lenZ (entries s))) l)).
  { apply Forall_take. eapply List.Forall_impl; [|exact Hf]. intros e [_ ?]; assumption. }
  assert (Hlen : lenZ (entries s ++ take (Z.to_nat (capacity s - lenZ (entries s))) l) <= capacity s).
  { rewrite lenZ_app. unfold lenZ at 2. rewrite length_take. lia. }
  assert (Hids : forall m, sequence s <= m -> last <= m -> Forall (fun id => 0 <= id <= m)
     (map flow_id (entries s ++ take (Z.to_nat (capacity s - lenZ (entries s))) l))).
  { intros m H1 H2. rewrite List.map_app, Forall_app. split; [|apply List.Forall_map];
      (eapply List.Forall_impl; [|eassumption]); cbn; intros; lia. }
  case_if; constructor; cbn; rewrite ?map_lenZ; try assumption; try lia; apply Hids; lia.
Qed.

Lemma configure_ok s reader path on n max_age now :
  store_ok s -> 0 < n <= CH_TRAFFIC_MAX_LIMIT -> store_ok (fst (configure_locked s reader path on n max_age now)).
Proof.
  intros [Hc Hl Hm Hq Hi] Hn. apply prune_keeps_ok. case_if; constructor; cbn; try assumption; [rewrite Hc; vm_compute; discriminate|constructor].
Qed.

Lemma traffic_step_ok s op : store_ok s -> allowed s op -> store_ok (traffic_step s op).
Proof.
  intros Hs Ha. destruct op; cbn [traffic_step allowed] in *.
  - apply open_ok; assumption.
  - unfold ch_traffic_bytes. case_if; [assumption|]. apply update_flow_ok, bytes_keeps_id. assumption.
  - unfold close_locked. case_if; [assumption|]. apply prune_keeps_ok, update_flow_ok, close_keeps_id. assumption.
  - unfold close_all_locked. pose proof (close_loop_ids (event_writer s) copied reason now (entries s)) as Hi.
    destruct (close_loop _ _ _ _ _) as [l events]. apply prune_keeps_ok, (same_ids_ok s); try reflexivity; assumption.
  - apply prune_keeps_ok. assumption.
  - apply (same_ids_ok s); try reflexivity; assumption.
  - destruct (geo_worker_take (queue s)) as [[job q]|]; [apply (same_ids_ok s); try reflexivity; assumption|assumption].
  - apply update_flow_ok, commit_keeps_id. assumption.
  - apply (same_ids_ok s); try reflexivity; assumption.
  - apply configure_ok; assumption.
  - apply loaded_ok; assumption.
Qed.

Lemma reachable_store_ok s : reachable s -> store_ok s.
Proof.
  induction 1 as [n s Hn Hs|s op _ IH Ha]; [|apply traffic_step_ok; assumption].
  unfold ch_traffic_store_create in Hs. cbv zeta in Hs. set (m := if n =? 0 then _ else n) in Hs.
  destruct (m >? CH_TRAFFIC_MAX_LIMIT) eqn:E; [discriminate|]. cbn in Hs. injection Hs as <-.
  assert (Hm : 0 < m). { unfold m. case_if; unfold CH_TRAFFIC_DEFAULT_LIMIT; lia. }
  constructor; cbn; [reflexivity|lia|vm_compute; discriminate|unfold UINT64_MAX; lia|constructor].
Qed.

(** ** Facts: the totals of a flow *)

(** What is counted for a flow in a sequence of steps. *)
Definition delta (id : Z) (op : traffic_op) : Z * Z :=
  match op with Count id' rx tx _ => if id' =? id then (rx, tx) else (0, 0) | _ => (0, 0) end.

Definition counted (id : Z) (ops : list traffic_op) : Z * Z :=
  (foldr Z.add 0 (map (fun op => fst (delta id op)) ops), foldr Z.add 0 (map (fun op => snd (delta id op)) ops)).

(** Steps that neither close the flow nor configure the store. *)
Definition leaves_open (id : Z) (op : traffic_op) : Prop :=
  match op with
  | Close _ _ id' _ => id' <> id
  | Close_all _ _ _ | Configure _ _ _ _ _ _ | Loaded _ _ => False
  | _ => True
  end.

(** The flow is active with the given information and totals. *)
Definition flow_is (id : Z) (i : ch_traffic_open_info) (start rx tx : Z) (e : ch_traffic_entry) : Prop :=
  active e = true /\ flow_id e = id /\ conn_id e = str "native-" ++ dec id /\ info e = i /\ start_ns e = start /\
  rx_total e = u64 rx /\ tx_total e = u64 tx.

Definition carries (s : ch_traffic_store) (id : Z) (i : ch_traffic_open_info) (start rx tx : Z) : Prop :=
  exists e, traffic_find_flow s id = Some e /\ flow_is id i start rx tx e.

Lemma find_update s id id' f :
  keeps_id f ->
  traffic_find_flow (update_flow s id' f) id
  = if id =? id' then (fun e => fst (f e)) <$> traffic_find_flow s id else traffic_find_flow s id.
Proof.
  intros Hf. pose proof (find_at_flow id id' f (entries s) Hf) as Hx. unfold traffic_find_flow, update_flow.
  destruct (at_flow id' f (entries s)) as [l events]. exact Hx.
Qed.

Lemma carries_prune s id i start rx tx now :
  carries s id i start rx tx -> carries (traffic_prune_locked s now) id i start rx tx.
Proof.
  intros (e & He & Hf). exists e. split; [|exact Hf]. apply find_prune; [exact He|apply Hf].
Qed.

(** A change of the entry under which the flow goes on. *)
Lemma carries_update s id id' i start rx tx rx' tx' f :
  keeps_id f -> carries s id i start rx tx ->
  (id' <> id -> rx' = rx /\ tx' = tx) ->
  (id' = id -> forall e, flow_is id i start rx tx e -> flow_is id i start rx' tx' (fst (f e))) ->
  carries (update_flow s id' f) id i start rx' tx'.
Proof.
  intros Hf (e & He & Hc) Hne Heq. unfold carries. rewrite find_update by exact Hf. rewrite He.
  destruct (id =? id') eqn:E.
  - exists (fst (f e)). split; [reflexivity|]. apply Heq; [lia|exact Hc].
  - destruct (Hne ltac:(lia)) as [-> ->]. exists e. split; [reflexivity|exact Hc].
Qed.

Lemma carries_open s id i start rx tx clock copied i' :
  store_ok s -> sequence s < UINT64_MAX -> id <= sequence s -> carries s id i start rx tx ->
  carries (fst (ch_traffic_open clock copied s i')) id i start rx tx.
Proof.
  intros Hs Hq Hid Hc. pose proof (carries_prune s id i start rx tx (clock 0%nat) Hc) as Hp.
  destruct (open_failed clock copied s i') as [_ [(id' & Hid' & Hne)|[E|[E|E]]]]; try (rewrite E; assumption).
  destruct (ch_traffic_open clock copied s i') as [s' r] eqn:Eo. cbn [fst snd] in *. subst r.
  apply open_inv in Eo as (Ei & _ & g & n & q & events & ->); [|assumption].
  rewrite next_nonzero_small in Ei by (destruct Hs; lia). destruct Hp as (e & He & Hf). exists e. split; [|exact Hf].
  unfold traffic_find_flow in *. cbn [entries with_entries List.find flow_id with_lamport with_geo traffic_entry_initialize].
  replace (id' =? id) with false by lia. exact He.
Qed.

Lemma count_flow writer rx_delta tx_delta now id i start rx tx e :
  flow_is id i start rx tx e ->
  flow_is id i start (rx + rx_delta) (tx + tx_delta)
    (fst (traffic_emit_bytes_locked writer (count_bytes e rx_delta tx_delta now) rx_delta tx_delta (now - rate_sample_ns e))).
Proof.
  intros (H1 & H2 & H3 & H4 & H5 & H6 & H7). unfold traffic_emit_bytes_locked. emitted.
  split_and!; cbn; try assumption; rewrite ?H6, ?H7; unfold u64; rewrite Zplus_mod_idemp_l; reflexivity.
Qed.

Lemma carries_step s id i start rx tx op :
  store_ok s -> allowed s op -> leaves_open id op -> 0 < id <= sequence s ->
  carries s id i start rx tx ->
  carries (traffic_step s op) id i start (rx + fst (delta id op)) (tx + snd (delta id op)).
Proof.
  intros Hs Ha Hl Hid Hc.
  destruct op; cbn [traffic_step delta leaves_open allowed fst snd] in *; try contradiction;
    rewrite ?Z.add_0_r.
  - apply carries_open; [assumption..|lia|assumption].
  - unfold ch_traffic_bytes. destruct ((id0 =? 0) || _) eqn:E.
    + replace (rx + fst (if id0 =? id then (rx_delta, tx_delta) else (0, 0))) with rx;
        [replace (tx + snd (if id0 =? id then (rx_delta, tx_delta) else (0, 0))) with tx; [exact Hc|]|].
      all: destruct (id0 =? id) eqn:E2; cbn [fst snd]; lia.
    + apply (carries_update s id id0 i start rx tx); [apply bytes_keeps_id|exact Hc| |].
      * intros Hne. replace (id0 =? id) with false by lia. cbn. lia.
      * intros -> e He. rewrite Z.eqb_refl. cbn [fst snd]. apply count_flow, He.
  - unfold close_locked. case_if; [exact Hc|]. apply carries_prune.
    apply (carries_update s id id0 i start rx tx); [apply close_keeps_id|exact Hc|auto|contradiction].
  - apply carries_prune, Hc.
  - exact Hc.
  - destruct (geo_worker_take (queue s)) as [[job q]|]; exact Hc.
  - apply (carries_update s id (job_flow_id job) i start rx tx); [apply commit_keeps_id|exact Hc|auto|].
    intros _ e He. cbn [fst]. case_if; exact He.
  - exact Hc.
Qed.

Lemma traffic_step_sequence s op : store_ok s -> allowed s op -> sequence s <= sequence (traffic_step s op).
Proof.
  intros Hs Ha. destruct op; cbn [traffic_step allowed] in *; try (cbn; lia).
  - pose proof Hs as [_ _ _ Hq _]. destruct (open_failed clock copied s i) as [_ [(id' & Hid' & Hne)|[E|[E|E]]]];
      try (rewrite E; cbn; rewrite ?next_nonzero_small; lia).
    destruct (ch_traffic_open clock copied s i) as [s' r] eqn:Eo. cbn [fst snd] in *. subst r.
    apply open_inv in Eo as (Ei & _ & g & n & q & events & ->); [|assumption].
    rewrite next_nonzero_small in Ei by lia. cbn. lia.
  - unfold ch_traffic_bytes, update_flow. case_if; [lia|]. destruct (at_flow _ _ _). cbn. lia.
  - unfold close_locked, update_flow. case_if; [lia|]. destruct (at_flow _ _ _). cbn. lia.
  - unfold close_all_locked. destruct (close_loop _ _ _ _ _). cbn. lia.
  - destruct (geo_worker_take _) as [[]|]; cbn; lia.
  - unfold geo_worker_commit, update_flow. destruct (at_flow _ _ _). cbn. lia.
  - unfold history_loaded_locked. cbv zeta. destruct loaded as [[l last]|[]|]; cbn; [|lia..].
    destruct (last >? sequence s) eqn:E; cbn; lia.
Qed.

Lemma carries_run s ops id i start rx tx :
  store_ok s -> allowed_all s ops -> Forall (leaves_open id) ops -> 0 < id <= sequence s ->
  carries s id i start rx tx ->
  carries (run s ops) id i start (rx + fst (counted id ops)) (tx + snd (counted id ops)).
Proof.
  revert s rx tx. induction ops as [|op ops IH]; intros s rx tx Hs Ha Hl Hid Hc.
  { cbn. rewrite !Z.add_0_r. exact Hc. }
  destruct Ha as [Ha Has]. inversion_clear Hl as [|? ? Ho Hos]. cbn [run].
  specialize (IH (traffic_step s op) (rx + fst (delta id op)) (tx + snd (delta id op))). unfold counted in *.
  cbn [map foldr fst snd] in *. rewrite !Z.add_assoc. apply IH; try assumption.
  - apply traffic_step_ok; assumption.
  - pose proof (traffic_step_sequence s op Hs Ha). lia.
  - apply carries_step; assumption.
Qed.

(** An opened flow is found, active and with nothing counted. *)
Lemma open_carries clock copied s i s' id :
  ch_traffic_open clock copied s i = (s', Done id) -> id <> 0 -> carries s' id i (clock 1%nat) 0 0.
Proof.
  intros Ho Hid. apply open_inv in Ho as (_ & _ & g & n & q & events & ->); [|assumption].
  eexists. unfold traffic_find_flow. cbn [entries with_entries List.find flow_id with_lamport with_geo traffic_entry_initialize].
  rewrite Z.eqb_refl. split; [reflexivity|]. split_and!; reflexivity.
Qed.


(** ** Facts: the events of a flow *)

Definition of_shard (id : Z) (v : traffic_event) : bool := shard_id v =? id.
Definition events_of (id : Z) (l : list traffic_event) : list traffic_event := List.filter (of_shard id) l.
Definition is_close (v : traffic_event) : bool := beq (event_type v) (str "connection.closed").
Definition closings (id : Z) (l : list traffic_event) : list traffic_event := List.filter is_close (events_of id l).

Lemma events_app id l l' : events_of id (l ++ l') = events_of id l ++ events_of id l'.
Proof. unfold events_of. apply List.filter_app. Qed.

Lemma closings_app id l l' : closings id (l ++ l') = closings id l ++ closings id l'.
Proof. unfold closings. rewrite events_app. apply List.filter_app. Qed.

Lemma events_one id v : events_of id [v] = if shard_id v =? id then [v] else [].
Proof. reflexivity. Qed.

Lemma closings_one id v : closings id [v] = if (shard_id v =? id) && is_close v then [v] else [].
Proof. unfold closings. rewrite events_one. destruct (shard_id v =? id); [cbn|]; reflexivity. Qed.

(** How an entry changes in a step, and the events that it writes. *)
Inductive moved : ch_traffic_entry -> ch_traffic_entry -> list traffic_event -> Prop :=
| moved_still e e' :
    flow_id e' = flow_id e -> event_lamport e' = event_lamport e -> (active e' = true -> active e = true) -> moved e e' []
| moved_emit e type text :
    beq type (str "connection.closed") = false ->
    moved e (with_lamport e (u64 (event_lamport e + 1))) [mk_event (flow_id e) (u64 (event_lamport e + 1)) type text]
| moved_close e e' text :
    flow_id e' = flow_id e -> event_lamport e' = event_lamport e -> active e = true -> active e' = false ->
    moved e (with_lamport e' (u64 (event_lamport e + 1)))
      [mk_event (flow_id e) (u64 (event_lamport e + 1)) (str "connection.closed") text]
| moved_then e e1 e2 events1 events2 : moved e e1 events1 -> moved e1 e2 events2 -> moved e e2 (events1 ++ events2).

(** The events of a flow are numbered [1], [2], ... and the flow is closed once
    at most. *)
Definition told (id : Z) (l : list traffic_event) : Prop :=
  map lamport (events_of id l) = map Z.of_nat (seq 1 (length (events_of id l))) /\ lenZ (closings id l) <= 1.

(** The entry of a flow has the last number, and no closing while it is
    active. *)
Definition abreast (l : list traffic_event) (e : ch_traffic_entry) : Prop :=
  event_lamport e = lenZ (events_of (flow_id e) l) /\ (active e = true -> closings (flow_id e) l = []).

Lemma numbers_snoc (l : list traffic_event) v :
  map lamport l = map Z.of_nat (seq 1 (length l)) -> lamport v = lenZ l + 1 ->
  map lamport (l ++ [v]) = map Z.of_nat (seq 1 (length (l ++ [v]))).
Proof.
  intros Hl Hv. rewrite length_app, seq_app, !List.map_app, Hl. f_equal. cbn [map seq length]. rewrite Hv. f_equal. unfold lenZ. lia.
Qed.

Lemma events_short id l : lenZ (events_of id l) <= lenZ l.
Proof. unfold lenZ, events_of. pose proof (List.filter_length_le (of_shard id) l). lia. Qed.

(** One more event, with the next number of its flow. *)
Lemma told_snoc id l v :
  told id l -> lenZ l < UINT64_MAX ->
  (shard_id v = id -> lamport v = u64 (lenZ (events_of id l) + 1) /\ (is_close v = true -> closings id l = [])) ->
  told id (l ++ [v]).
Proof.
  intros [Hn Hc] Hlen Hv. unfold told. rewrite events_app, closings_app, events_one, closings_one. destruct (shard_id v =? id) eqn:E.
  - destruct (Hv ltac:(lia)) as [Hl Ho]. split.
    + apply numbers_snoc; [exact Hn|]. pose proof (events_short id l). rewrite Hl. unfold u64, UINT64_MAX in *.
      pose proof (lenZ_nonneg (events_of id l)). apply Z.mod_small. lia.
    + cbn [andb]. destruct (is_close v); [rewrite Ho by reflexivity; vm_compute; discriminate|rewrite app_nil_r; exact Hc].
  - cbn [andb]. rewrite !app_nil_r. split; assumption.
Qed.

Lemma abreast_lamport l e : abreast l e -> event_lamport e = lenZ (events_of (flow_id e) l).
Proof. intros [? _]. assumption. Qed.

(** A step of one entry keeps the log in order. *)
Lemma moved_told e e' events l :
  moved e e' events -> lenZ (l ++ events) <= UINT64_MAX -> (forall id, told id l) -> abreast l e ->
  flow_id e' = flow_id e /\ (forall id, told id (l ++ events)) /\ abreast (l ++ events) e' /\
  (forall id, id <> flow_id e -> events_of id events = []).
Proof.
  intros Hm. revert l. induction Hm as [e e' H1 H2 H3|e type text Ht|e e' text H1 H2 H3 H4|e e1 e2 v1 v2 Hm1 IH1 Hm2 IH2];
    intros l Hlen Hl He.
  - rewrite app_nil_r. split_and!; auto. destruct He as [Hn Ho]. split; rewrite H1, ?H2; auto.
  - rewrite lenZ_app in Hlen. change (lenZ [_]) with 1 in Hlen. split; [reflexivity|]. destruct He as [Hn Ho].
    pose proof (events_short (flow_id e) l). pose proof (lenZ_nonneg (events_of (flow_id e) l)). split_and!.
    + intros id. apply told_snoc; [apply Hl|lia|]. cbn. intros <-. rewrite Hn. split; [reflexivity|]. unfold is_close. cbn [event_type].
      rewrite Ht. discriminate.
    + split; cbn [flow_id with_lamport event_lamport active].
      * rewrite events_app, lenZ_app, events_one. cbn [shard_id]. rewrite Z.eqb_refl. change (lenZ [_]) with 1. rewrite Hn. unfold u64, UINT64_MAX in *. apply Z.mod_small. lia.
      * intros Ha. rewrite closings_app, Ho, closings_one by exact Ha. unfold is_close. cbn [event_type]. rewrite Ht, andb_false_r. reflexivity.
    + intros id Hid. rewrite events_one. cbn [shard_id]. replace (flow_id e =? id) with false by lia. reflexivity.
  - rewrite lenZ_app in Hlen. change (lenZ [_]) with 1 in Hlen. split; [exact H1|]. destruct He as [Hn Ho].
    pose proof (events_short (flow_id e) l). pose proof (lenZ_nonneg (events_of (flow_id e) l)). split_and!.
    + intros id. apply told_snoc; [apply Hl|lia|]. cbn. intros <-. rewrite Hn. split; [reflexivity|]. intros _. apply Ho, H3.
    + split; cbn [flow_id with_lamport event_lamport active]; [|rewrite H4; discriminate].
      rewrite H1, events_app, lenZ_app, events_one. cbn [shard_id]. rewrite Z.eqb_refl. change (lenZ [_]) with 1. rewrite Hn. unfold u64, UINT64_MAX in *. apply Z.mod_small. lia.
    + intros id Hid. rewrite events_one. cbn [shard_id]. replace (flow_id e =? id) with false by lia. reflexivity.
  - rewrite app_assoc in Hlen |- *. pose proof (lenZ_nonneg v2). destruct (IH1 l) as (F1 & T1 & A1 & O1); [rewrite lenZ_app in Hlen; lia|assumption..|].
    destruct (IH2 (l ++ v1)) as (F2 & T2 & A2 & O2); [assumption..|]. split_and!; [congruence|exact T2|exact A2|].
    intros id Hid. rewrite events_app, O1, O2 by congruence. reflexivity.
Qed.

(** *** All entries of the store *)

Inductive moved_all : list ch_traffic_entry -> list ch_traffic_entry -> list traffic_event -> Prop :=
| moved_nil : moved_all [] [] []
| moved_cons e e' l l' events events' :
    moved e e' events -> moved_all l l' events' -> moved_all (e :: l) (e' :: l') (events ++ events').

Lemma moved_refl e : moved e e [].
Proof. apply moved_still; auto. Qed.

Lemma moved_all_refl l : moved_all l l [].
Proof. induction l; [constructor|]. apply (moved_cons a a l l [] []); [apply moved_refl|assumption]. Qed.

Lemma abreast_other l events e : abreast l e -> events_of (flow_id e) events = [] -> abreast (l ++ events) e.
Proof. intros [Hn Ho] Hv. split; unfold closings in *; rewrite events_app, Hv, app_nil_r; assumption. Qed.

Lemma moved_all_told es es' events l :
  moved_all es es' events -> lenZ (l ++ events) <= UINT64_MAX -> NoDup (map flow_id es) ->
  (forall id, told id l) -> Forall (abreast l) es ->
  map flow_id es' = map flow_id es /\ (forall id, told id (l ++ events)) /\ Forall (abreast (l ++ events)) es' /\
  (forall id, id ∉ map flow_id es -> events_of id events = []).
Proof.
  intros Hm. revert l. induction Hm as [|e e' es es' v vs Hm Hms IH]; intros l Hlen Hnd Hl Hes.
  { rewrite app_nil_r. split_and!; auto. }
  rewrite app_assoc in Hlen |- *. pose proof (lenZ_nonneg vs). inversion_clear Hes as [|? ? He Hrest].
  cbn [map] in Hnd. apply list.NoDup_cons in Hnd as [Hnot Hnd].
  destruct (moved_told e e' v l Hm ltac:(rewrite lenZ_app in Hlen; lia) Hl He) as (F & T & A & O).
  assert (Hrest' : Forall (abreast (l ++ v)) es).
  { rewrite list.Forall_forall in Hrest |- *. intros x Hx. apply abreast_other; [auto|]. apply O. intros E. apply Hnot.
    rewrite <- E. apply list_elem_of_fmap. eauto. }
  destruct (IH (l ++ v) Hlen Hnd T Hrest') as (F' & T' & A' & O'). split_and!.
  - cbn [map]. congruence.
  - exact T'.
  - constructor; [|exact A']. apply abreast_other; [exact A|]. apply O'. congruence.
  - intros id Hid. cbn [map] in Hid. apply not_elem_of_cons in Hid as [Hx Hy]. rewrite events_app, O, O' by assumption. reflexivity.
Qed.

Lemma at_flow_moved id f l :
  (forall e, moved e (fst (f e)) (snd (f e))) -> moved_all l (fst (at_flow id f l)) (snd (at_flow id f l)).
Proof.
  intros Hf. induction l as [|e l IH]; [constructor|]. cbn [at_flow]. case_if.
  - specialize (Hf e). destruct (f e) as [e' v]. cbn [fst snd] in *. rewrite <- (app_nil_r v).
    constructor; [exact Hf|apply moved_all_refl].
  - destruct (at_flow id f l) as [l' v]. cbn [fst snd] in *. apply (moved_cons e e l l' [] v); [apply moved_refl|exact IH].
Qed.

(** *** Each kind of step *)

Lemma emit_moved writer e type data :
  beq type (str "connection.closed") = false ->
  moved e (fst (traffic_emit_locked writer e type data)) (snd (traffic_emit_locked writer e type data)).
Proof.
  intros Ht. unfold traffic_emit_locked. case_if; [apply moved_refl|].
  destruct (take_text data []); [|apply moved_refl..]. apply moved_emit, Ht.
Qed.

Lemma count_moved writer e rx tx now interval :
  moved e (fst (traffic_emit_bytes_locked writer (count_bytes e rx tx now) rx tx interval))
    (snd (traffic_emit_bytes_locked writer (count_bytes e rx tx now) rx tx interval)).
Proof.
  apply (moved_then e (count_bytes e rx tx now) _ []); [apply moved_still; auto|]. apply emit_moved. reflexivity.
Qed.

Lemma close_moved writer copied reason now e :
  moved e (fst (close_and_emit writer copied reason now e)) (snd (close_and_emit writer copied reason now e)).
Proof.
  unfold close_and_emit, traffic_close_entry. destruct (active e) eqn:Ea; [|apply moved_still; auto; congruence].
  cbn [negb]. unfold traffic_emit_close_locked, traffic_emit_locked. case_if; [apply moved_still; auto|].
  destruct (take_text _ []); [|apply moved_still; auto..]. cbv zeta. cbn [fst snd].
  match goal with |- moved e (with_lamport ?x _) _ => apply (moved_close e x); auto end.
Qed.

Lemma close_loop_moved writer copied reason now l :
  moved_all l (fst (close_loop writer copied reason now l)) (snd (close_loop writer copied reason now l)).
Proof.
  revert copied. induction l as [|e l IH]; intros copied; [constructor|]. cbn [close_loop].
  pose proof (close_moved writer (copied 0%nat) reason now e) as He. specialize (IH (fun n => copied (S n))).
  destruct (close_and_emit _ _ _ _ _), (close_loop _ _ _ _ l). constructor; assumption.
Qed.

Lemma rule_event_type_open action : beq (rule_event_type action) (str "connection.closed") = false.
Proof. unfold rule_event_type. case_if; [|case_if]; reflexivity. Qed.

Lemma emit_open_moved writer e : moved e (fst (traffic_emit_open_locked writer e)) (snd (traffic_emit_open_locked writer e)).
Proof.
  unfold traffic_emit_open_locked.
  pose proof (emit_moved writer e (str "connection.opened") (opened_data e) eq_refl) as H1.
  destruct (traffic_emit_locked writer e _ _) as [e1 v1]. cbn [fst snd] in H1.
  pose proof (emit_moved writer e1 (rule_event_type (i_rule_action (info e1))) (rule_data e1) (rule_event_type_open _)) as H2.
  destruct (traffic_emit_locked writer e1 _ _) as [e2 v2]. eapply moved_then; eassumption.
Qed.

(** ** The log of a store *)

Record log_ok (s : ch_traffic_store) : Prop := {
  log_ids : NoDup (map flow_id (entries s));
  log_told : forall id, told id (log s);
  log_abreast : Forall (abreast (log s)) (entries s);
  log_new : forall id, sequence s < id -> events_of id (log s) = []
}.

Lemma log_prune s now : log_ok s -> log_ok (traffic_prune_locked s now).
Proof.
  intros []. constructor; cbn; rewrite ?app_nil_r; try assumption; [apply prune_ids; assumption|apply prune_Forall; assumption].
Qed.

(** A step in which entries move. *)
Lemma log_moved s es' events :
  store_ok s -> log_ok s -> moved_all (entries s) es' events -> lenZ (log s ++ events) <= UINT64_MAX ->
  log_ok (with_entries s es' events).
Proof.
  intros Hs [Hi Ht Ha Hn] Hm Hlen. destruct (moved_all_told _ _ _ (log s) Hm Hlen Hi Ht Ha) as (F & T & A & O).
  constructor; cbn [entries log sequence with_entries]; [congruence|assumption..|]. intros id Hid. rewrite events_app, Hn, O by (try exact Hid; intros Hin;
    destruct Hs as [_ _ _ _ Hids]; rewrite list.Forall_forall in Hids; specialize (Hids _ Hin); lia). reflexivity.
Qed.

Lemma log_update s id f :
  store_ok s -> log_ok s -> (forall e, moved e (fst (f e)) (snd (f e))) ->
  lenZ (log (update_flow s id f)) <= UINT64_MAX -> log_ok (update_flow s id f).
Proof.
  intros Hs Hl Hf. pose proof (at_flow_moved id f (entries s) Hf) as Hm. unfold update_flow.
  destruct (at_flow id f (entries s)) as [l events]. cbn [log with_entries]. apply log_moved; assumption.
Qed.

(** Changes of the other fields. *)
Lemma log_same s s' :
  log_ok s -> entries s' = entries s -> log s' = log s -> sequence s <= sequence s' -> log_ok s'.
Proof.
  intros [Hi Ht Ha Hn] He Hlg Hq. constructor; rewrite ?He, ?Hlg; try assumption. intros id Hid. apply Hn. lia.
Qed.

Lemma log_open clock copied s i :
  store_ok s -> log_ok s -> sequence s < UINT64_MAX ->
  lenZ (log (fst (ch_traffic_open clock copied s i))) <= UINT64_MAX ->
  log_ok (fst (ch_traffic_open clock copied s i)).
Proof.
  intros Hs Hl Hq Hlen. pose proof (prune_keeps_ok s (clock 0%nat) Hs) as Hps. pose proof (log_prune s (clock 0%nat) Hl) as Hp.
  pose proof Hs as [_ _ _ Hsq _]. pose proof (next_nonzero_small (sequence s) ltac:(lia)) as Hnn.
  unfold ch_traffic_open in *. destruct (negb (enabled _)); [exact Hl|]. cbv zeta in *.
  destruct (lenZ _ =? _); [exact Hp|]. destruct (negb copied).
  { eapply log_same; [exact Hp|reflexivity..|]. cbn. lia. }
  set (p := traffic_prune_locked s (clock 0%nat)) in *. change (sequence p) with (sequence s) in *. rewrite Hnn in *.
  set (e := traffic_entry_initialize _ _ _) in *.
  destruct (enqueue_fields (queue (with_sequence p (sequence s + 1))) e) as [g Hg].
  destruct (traffic_enqueue_geo_locked _ e) as [q e1]. cbn [snd] in Hg.
  pose proof (emit_open_moved (event_writer (with_sequence p (sequence s + 1))) e1) as Hm.
  destruct (traffic_emit_open_locked _ e1) as [e2 events]. cbn [fst snd log with_entries with_queue with_sequence] in *.
  assert (Hm' : moved_all (e1 :: entries p) (e2 :: entries p) events).
  { rewrite <- (app_nil_r events). constructor; [exact Hm|apply moved_all_refl]. }
  destruct Hp as [Pi Pt Pa Pn]. destruct Hps as [_ _ _ _ Pids].
  assert (Hid : flow_id e1 = sequence s + 1) by (subst e1; reflexivity).
  destruct (moved_all_told _ _ _ (log p) Hm' Hlen) as (F & T & A & O).
  - cbn [map]. rewrite Hid. apply list.NoDup_cons. split; [|exact Pi]. intros Hin. rewrite list.Forall_forall in Pids.
    specialize (Pids _ Hin). cbn in Pids. lia.
  - exact Pt.
  - constructor; [|exact Pa]. split; unfold closings; rewrite Hid, Pn by (cbn; lia); subst e1; reflexivity.
  - constructor; cbn [entries log sequence with_entries with_queue with_sequence]; [rewrite F; cbn [map]; rewrite Hid; apply list.NoDup_cons; split; [|exact Pi]|exact T|exact A|].
    + intros Hin. rewrite list.Forall_forall in Pids. specialize (Pids _ Hin). cbn in Pids. lia.
    + intros id Hi. rewrite events_app, Pn, O; [reflexivity| |cbn; lia]. cbn [map]. rewrite elem_of_cons, Hid.
      intros [?|Hin]; [lia|]. rewrite list.Forall_forall in Pids. specialize (Pids _ Hin). cbn in Pids. lia.
Qed.

(** Steps that bring no entries of a history file. *)
Definition nothing_loaded (op : traffic_op) : Prop :=
  match op with Loaded (Done (l, _)) _ => l = [] | _ => True end.

Lemma log_step s op :
  store_ok s -> log_ok s -> allowed s op -> nothing_loaded op ->
  lenZ (log (traffic_step s op)) <= UINT64_MAX -> log_ok (traffic_step s op).
Proof.
  intros Hs Hl Ha Hn Hlen. destruct op; cbn [traffic_step allowed nothing_loaded] in *.
  - apply log_open; assumption.
  - unfold ch_traffic_bytes in *. case_if; [assumption|]. apply log_update; [assumption..| |assumption].
    intros e. apply count_moved.
  - unfold close_locked in *. case_if; [assumption|]. apply log_prune, log_update; [assumption..| |].
    + intros e. apply close_moved.
    + cbn [log traffic_prune_locked with_entries] in Hlen. rewrite app_nil_r in Hlen. exact Hlen.
  - unfold close_all_locked in *. pose proof (close_loop_moved (event_writer s) copied reason now (entries s)) as Hm.
    destruct (close_loop _ _ _ _ _) as [l events]. apply log_prune, log_moved; [assumption..|].
    cbn [log traffic_prune_locked with_entries] in Hlen. rewrite app_nil_r in Hlen. exact Hlen.
  - apply log_prune, Hl.
  - eapply log_same; [exact Hl|reflexivity..|]. cbn. lia.
  - destruct (geo_worker_take (queue s)) as [[job q]|]; [|exact Hl]. eapply log_same; [exact Hl|reflexivity..|]. cbn. lia.
  - apply log_update; [assumption..| |assumption]. intros e. cbn [fst snd]. case_if; [apply moved_still; auto|apply moved_refl].
  - eapply log_same; [exact Hl|reflexivity..|]. cbn. lia.
  - apply log_prune. destruct Hl as [Hi Ht Hab Hnew].
    constructor; cbn [entries log sequence with_entries with_queue with_settings]; rewrite ?app_nil_r; try assumption;
      (case_if; [constructor|assumption]).
  - unfold history_loaded_locked in *. cbv zeta in *. destruct loaded as [[l last]|[c t]|].
    + subst l. cbn [settings with_settings]. eapply log_same; [eapply log_prune|reflexivity..|cbn; lia].
      rewrite take_nil. destruct Hl as [Hi Ht Hab Hnew].
      case_if; constructor; cbn [entries log sequence with_entries with_queue with_sequence with_settings] in *; rewrite ?app_nil_r; try assumption.
      intros id Hid. apply Hnew. lia.
    + eapply log_same; [exact Hl|reflexivity..|]. cbn. lia.
    + eapply log_same; [exact Hl|reflexivity..|]. cbn. lia.
Qed.

(** The log only grows. *)
Lemma log_grows s op : lenZ (log s) <= lenZ (log (traffic_step s op)).
Proof.
  assert (Hu : forall id f, lenZ (log s) <= lenZ (log (update_flow s id f))).
  { intros id f. unfold update_flow. destruct (at_flow id f (entries s)) as [l v]. cbn. rewrite lenZ_app. pose proof (lenZ_nonneg v). lia. }
  assert (Hnil : lenZ (log s ++ []) = lenZ (log s)) by (rewrite app_nil_r; reflexivity).
  destruct op; cbn [traffic_step]; try (cbn; rewrite ?app_nil_r; lia).
  - destruct (ch_traffic_open clock copied s i) as [s' r] eqn:Eo. pose proof (open_failed clock copied s i) as Hf. rewrite Eo in Hf.
    cbn [fst snd] in *. destruct Hf as [_ [(id & -> & Hid)|[->|[->| ->]]]]; [|cbn; rewrite ?app_nil_r; lia..].
    apply open_inv in Eo as (_ & _ & g & n & q & events & ->); [|assumption]. cbn. rewrite !lenZ_app. pose proof (lenZ_nonneg events).
    change (lenZ (@nil traffic_event)) with 0. lia.
  - unfold ch_traffic_bytes. case_if; [lia|]. apply Hu.
  - unfold close_locked. case_if; [lia|]. cbn [log traffic_prune_locked with_entries]. rewrite app_nil_r. apply Hu.
  - unfold close_all_locked. destruct (close_loop _ _ _ _ _) as [l v]. cbn. rewrite !lenZ_app. pose proof (lenZ_nonneg v).
    change (lenZ (@nil traffic_event)) with 0. lia.
  - destruct (geo_worker_take _) as [[]|]; cbn; lia.
  - apply Hu.
  - unfold history_loaded_locked. cbv zeta. destruct loaded as [[l last]|[c t]|]; cbn; [case_if; cbn; rewrite ?app_nil_r; lia|lia..].
Qed.

Lemma log_grows_run s ops : lenZ (log s) <= lenZ (log (run s ops)).
Proof.
  revert s. induction ops as [|op ops IH]; intros s; [cbn; lia|]. cbn [run]. pose proof (log_grows s op). specialize (IH (traffic_step s op)). lia.
Qed.

Lemma log_run s ops :
  store_ok s -> log_ok s -> allowed_all s ops -> Forall nothing_loaded ops ->
  lenZ (log (run s ops)) <= UINT64_MAX -> log_ok (run s ops).
Proof.
  revert s. induction ops as [|op ops IH]; intros s Hs Hl Ha Hn Hlen; [exact Hl|]. destruct Ha as [Ha Has].
  inversion_clear Hn as [|? ? Hop Hops]. cbn [run] in *. pose proof (log_grows_run (traffic_step s op) ops).
  apply IH; try assumption; [apply traffic_step_ok; assumption|apply log_step; try assumption; lia].
Qed.

Lemma created_log n s : ch_traffic_store_create None n = Done s -> log_ok s.
Proof.
  unfold ch_traffic_store_create. cbv zeta. destruct (_ >? _); [discriminate|]. intros E. cbn in E. injection E as <-.
  constructor; cbn; [constructor|intros id; split; [reflexivity|vm_compute; discriminate]|constructor|reflexivity].
Qed.

(** ** Facts: the ring of lookups is a queue *)

Definition slot_at (q : geo_queue) (k : nat) : option ch_traffic_geo_job :=
  default None (geo_jobs q !! Z.to_nat ((geo_job_head q + Z.of_nat k) mod CH_TRAFFIC_GEO_QUEUE_CAPACITY)).

Definition waiting (q : geo_queue) : list (option ch_traffic_geo_job) := map (slot_at q) (seq 0 (Z.to_nat (geo_job_count q))).

Record queue_ok (q : geo_queue) : Prop := {
  queue_slots : lenZ (geo_jobs q) = CH_TRAFFIC_GEO_QUEUE_CAPACITY;
  queue_head : 0 <= geo_job_head q < CH_TRAFFIC_GEO_QUEUE_CAPACITY;
  queue_count : 0 <= geo_job_count q <= CH_TRAFFIC_GEO_QUEUE_CAPACITY;
  queue_filled : Forall is_Some (waiting q)
}.

Lemma slot_other (jobs : list (option ch_traffic_geo_job)) i j v :
  i <> j -> default None (<[i := v]> jobs !! j) = default None (jobs !! j).
Proof. intros Hij. rewrite list_lookup_insert_ne by exact Hij. reflexivity. Qed.

Lemma ring_distinct h a b :
  0 <= a < CH_TRAFFIC_GEO_QUEUE_CAPACITY -> 0 <= b < CH_TRAFFIC_GEO_QUEUE_CAPACITY -> a <> b ->
  Z.to_nat ((h + a) mod CH_TRAFFIC_GEO_QUEUE_CAPACITY) <> Z.to_nat ((h + b) mod CH_TRAFFIC_GEO_QUEUE_CAPACITY).
Proof.
  unfold CH_TRAFFIC_GEO_QUEUE_CAPACITY. intros Ha Hb Hab E.
  pose proof (Z.mod_pos_bound (h + a) 256 ltac:(lia)). pose proof (Z.mod_pos_bound (h + b) 256 ltac:(lia)).
  pose proof (Z.div_mod (h + a) 256 ltac:(lia)). pose proof (Z.div_mod (h + b) 256 ltac:(lia)). lia.
Qed.

(** A queued lookup waits behind all others. *)
Lemma enqueue_waits q e :
  queue_ok q -> geo_reader q = true -> geo_job_count q < CH_TRAFFIC_GEO_QUEUE_CAPACITY ->
  let q' := fst (traffic_enqueue_geo_locked q e) in
  queue_ok q' /\ waiting q' = waiting q ++ [Some (mk_job (flow_id e) (queue_generation q') (i_target (info e)))].
Proof.
  intros [Hs Hh Hc Hf] Hr Hn. unfold traffic_enqueue_geo_locked. rewrite Hr. cbn [negb].
  replace (geo_job_count q =? CH_TRAFFIC_GEO_QUEUE_CAPACITY) with false by lia. cbv zeta. cbn [fst].
  set (job := mk_job _ _ _). set (slot := (geo_job_head q + geo_job_count q) mod CH_TRAFFIC_GEO_QUEUE_CAPACITY).
  set (q' := mk_queue _ _ _ _ _).
  assert (Hw : waiting q' = waiting q ++ [Some job]).
  { unfold waiting, q'. cbn [geo_job_count]. replace (Z.to_nat (geo_job_count q + 1)) with (Z.to_nat (geo_job_count q) + 1)%nat by lia.
    rewrite seq_app, List.map_app. f_equal.
    - apply List.map_ext_in. intros k Hk. apply List.in_seq in Hk. unfold slot_at. cbn [geo_jobs geo_job_head].
      apply slot_other. apply ring_distinct; lia.
    - cbn [map seq]. unfold slot_at. cbn [geo_jobs geo_job_head]. f_equal. cbn [Nat.add]. rewrite Z2Nat.id by lia.
      fold slot. rewrite list_lookup_insert_eq; [reflexivity|].
      pose proof (Z.mod_pos_bound (geo_job_head q + geo_job_count q) CH_TRAFFIC_GEO_QUEUE_CAPACITY ltac:(unfold CH_TRAFFIC_GEO_QUEUE_CAPACITY; lia)).
      unfold slot, lenZ in *. lia. }
  split; [|exact Hw]. constructor; cbn; [|assumption|lia|rewrite Hw, Forall_app; split; [exact Hf|constructor; [eauto|constructor]]].
  unfold lenZ in *. rewrite length_insert. exact Hs.
Qed.

(** The worker takes the lookup that has waited longest. *)
Lemma take_waits q :
  queue_ok q ->
  match geo_worker_take q with
  | Some (job, q') => queue_ok q' /\ waiting q = Some job :: waiting q'
  | None => waiting q = []
  end.
Proof.
  intros [Hs Hh Hc Hf]. unfold geo_worker_take. destruct (geo_job_count q =? 0) eqn:E.
  { unfold waiting. replace (geo_job_count q) with 0 by lia. reflexivity. }
  cbv zeta. set (slot := Z.to_nat (geo_job_head q)). set (q' := mk_queue _ _ _ _ _).
  assert (Hw : waiting q = default None (geo_jobs q !! slot) :: waiting q').
  { unfold waiting, q'. cbn [geo_job_count]. replace (Z.to_nat (geo_job_count q)) with (S (Z.to_nat (geo_job_count q - 1))) by lia.
    cbn [seq map]. f_equal.
    - unfold slot_at, slot. rewrite Z.add_0_r, Z.mod_small by assumption. reflexivity.
    - rewrite <- seq_shift, List.map_map. apply List.map_ext_in. intros k Hk. apply List.in_seq in Hk.
      unfold slot_at. cbn [geo_jobs geo_job_head].
      assert (Em : ((geo_job_head q + 1) mod CH_TRAFFIC_GEO_QUEUE_CAPACITY + Z.of_nat k) mod CH_TRAFFIC_GEO_QUEUE_CAPACITY
                   = (geo_job_head q + Z.of_nat (S k)) mod CH_TRAFFIC_GEO_QUEUE_CAPACITY).
      { rewrite Zplus_mod_idemp_l. f_equal. lia. }
      rewrite Em. symmetry. apply slot_other. unfold slot.
      pose proof (ring_distinct (geo_job_head q) 0 (Z.of_nat (S k)) ltac:(unfold CH_TRAFFIC_GEO_QUEUE_CAPACITY; lia) ltac:(lia) ltac:(lia)) as Hd.
      rewrite Z.add_0_r, (Z.mod_small (geo_job_head q)) in Hd by assumption. exact Hd. }
  rewrite Hw in Hf. inversion_clear Hf as [|? ? [job Hj] Hf']. rewrite Hw, Hj. cbn [default]. split; [|reflexivity].
  constructor; cbn; [unfold lenZ in *; rewrite length_insert; exact Hs|apply Z.mod_pos_bound; unfold CH_TRAFFIC_GEO_QUEUE_CAPACITY; lia|lia|exact Hf'].
Qed.
(** *** Properties *)

(** C30: What is counted for a connection is exact.  Once a connection is opened,
    whatever other connections do, whatever is looked up, reported and pruned
    meanwhile, and however full the history is, the store holds it as active
    under its identifier, with the information given at the opening and with
    totals that are the sums of the bytes reported for it (modulo 2^64), until
    it is closed or the store is configured anew. *)
Theorem traffic_totals_exact s clock copied i s' id ops :
  reachable s -> sequence s < UINT64_MAX ->
  ch_traffic_open clock copied s i = (s', Done id) -> id <> 0 ->
  allowed_all s' ops -> Forall (leaves_open id) ops ->
  exists e, traffic_find_flow (run s' ops) id = Some e /\
    flow_is id i (clock 1%nat) (fst (counted id ops)) (snd (counted id ops)) e.
Proof.
  intros Hr Hq Ho Hid Ha Hl. apply reachable_store_ok in Hr as Hs.
  pose proof (open_ok clock copied s i Hs Hq) as Hs'. rewrite Ho in Hs'. cbn [fst] in Hs'.
  apply (carries_run s' ops id i (clock 1%nat) 0 0); try assumption.
  - apply open_inv in Ho as (-> & _ & g & n & q & events & ->); [|assumption].
    rewrite next_nonzero_small by (destruct Hs; lia). cbn. destruct Hs. lia.
  - eapply open_carries; eassumption.
Qed.

(** C33: The reserve keeps room for active connections.  In every state of an
    enabled store that is reached before the identifiers run out, with fewer
    than 1024 active connections, whatever the history holds, a connection is
    opened when its texts can be copied: every active connection stays, at most
    as many closed ones as the configured limit, and the new one has an
    identifier that no entry has, as long as the last identifier, which a
    history file can set, is not [UINT64_MAX]; then it is 1 again, whether or
    not an entry has it. *)
Theorem traffic_open_reserved s clock i :
  reachable s -> enabled (settings s) = true ->
  lenZ (List.filter active (entries s)) < CH_TRAFFIC_ACTIVE_RESERVE ->
  exists s' id e, ch_traffic_open clock true s i = (s', Done id) /\
    (sequence s < UINT64_MAX -> 0 < id /\ id ∉ map flow_id (entries s)) /\ (sequence s = UINT64_MAX -> id = 1) /\
    hd_error (entries s') = Some e /\ flow_is id i (clock 1%nat) 0 0 e /\
    List.filter active (entries s') = e :: List.filter active (entries s) /\
    lenZ (List.filter inactive (entries s')) <= limit (settings s').
Proof.
  intros Hr He Hn. apply reachable_store_ok in Hr as [Hc Hl _ Hsq Hi].
  pose proof (prune_count (limit (settings s)) (cutoff (settings s) (clock 0%nat)) (entries s) ltac:(lia)) as Hp.
  destruct (ch_traffic_open clock true s i) as [s' r] eqn:Eo. pose proof Eo as Eo'. unfold ch_traffic_open in Eo'.
  rewrite He in Eo'. cbn [negb] in Eo'. cbv zeta in Eo'.
  destruct (lenZ (entries (traffic_prune_locked s (clock 0%nat))) =? _) eqn:E;
    [cbn in E; unfold CH_TRAFFIC_ACTIVE_RESERVE, CH_TRAFFIC_MAX_LIMIT in *; lia|].
  destruct (traffic_enqueue_geo_locked _ _) as [q' e1], (traffic_emit_open_locked _ _) as [e2 ev].
  injection Eo' as <- <-. assert (Hnz : next_nonzero (sequence s) <> 0) by (unfold next_nonzero; case_if; lia).
  apply open_inv in Eo as (_ & _ & g & n & q & events & ->); [|exact Hnz].
  eexists _, (next_nonzero (sequence s)), _. split_and!; [reflexivity| | |reflexivity|split_and!; reflexivity| |].
  - intros Hq. rewrite next_nonzero_small by lia. split; [lia|]. intros Hin. rewrite list.Forall_forall in Hi. specialize (Hi _ Hin). lia.
  - intros ->. reflexivity.
  - cbn [entries with_entries List.filter active with_lamport with_geo traffic_entry_initialize]. f_equal. apply prune_active.
  - cbn [entries with_entries List.filter active with_lamport with_geo traffic_entry_initialize inactive negb].
    cbn [settings with_entries with_queue with_sequence traffic_prune_locked entries].
    rewrite prune_closed. unfold lenZ. rewrite length_take. lia.
Qed.

(** The events of a connection are a sequence without gaps.  From the
    creation of a store on, whatever is opened, counted and closed in any
    order, and whichever event texts could not be built, the events written
    for a connection carry the logical times 1, 2, 3, ... in the order in which
    they are written, and the connection is reported as closed at most once
    and not while it is active (as long as no history file is read). *)
Theorem traffic_events_ordered n s ops id :
  0 <= n -> ch_traffic_store_create None n = Done s -> allowed_all s ops -> Forall nothing_loaded ops ->
  lenZ (log (run s ops)) <= UINT64_MAX ->
  told id (log (run s ops)) /\
  forall e, traffic_find_flow (run s ops) id = Some e -> active e = true -> closings id (log (run s ops)) = [].
Proof.
  intros Hn Hs Ha Hl Hlen. pose proof (log_run s ops (reachable_store_ok s (reachable_created n s Hn Hs)) (created_log n s Hs) Ha Hl Hlen) as [Hi Ht Hab _].
  split; [apply Ht|]. intros e He Hact. unfold traffic_find_flow in He. apply List.find_some in He as [Hin Hid].
  rewrite List.Forall_forall in Hab. destruct (Hab e Hin) as [_ Ho]. replace id with (flow_id e) by lia. apply Ho, Hact.
Qed.
End Events.
End Store.

(** ** Witnesses *)

(** Rates as integers. *)
#[export, refine] Instance plain_rate : @DoubleRate plain_double := {|
  double_of_uint64 := fun n => n;
  double_add := Z.add;
  double_div := Z.div;
  format_3f := fun n => dec n ++ str ".000"
|}.
Proof.
  - intros d Hd. cbn in Hd. split.
    + exists false. intros rest Hr. rewrite <- app_assoc. apply scan_number_digits; [reflexivity|].
      destruct rest as [|c rest]; [reflexivity|]. destruct Hr as [-> | [-> | ->]]; reflexivity.
    + exists d. cbn [strtod plain_double]. rewrite (strtol_dec d (str ".000")) by (lia || reflexivity). reflexivity.
  - intros d Hd. cbn in Hd. split; [exists true; intros rest Hr; apply scan_number_dec, Hr|].
    apply (@strtod_int64 plain_double). lia.
  - intros d. split; [apply Forall_app; split; [apply dec_positive|repeat constructor; lia]|apply dec_positive].
Defined.

Section Witnesses.
#[local] Existing Instance plain_double.

Definition w_info (host : String.string) : ch_traffic_open_info :=
  mk_info (str "home") (str "socks5") (str "127.0.0.1:1080") (str "127.0.0.1:50000") (str "main") [] (str "web")
    (str "chain:main") false 1200 (str host ++ str ":443") (str host) (str "443") (str "tcp") (str "listener").

Definition w_grow (n : Z) : bool := true.
Definition w_clock (n : nat) : Z := 1000000000 + Z.of_nat n.

Definition w_created : ch_traffic_store :=
  match ch_traffic_store_create None 2 with Done s => s | _ => mk_store [] 0 0 (mk_settings 0 false false 0 []) [] empty_queue false [] end.

Lemma w_created_eq : ch_traffic_store_create None 2 = Done w_created.
Proof. reflexivity. Qed.

(** A store with a writer, one closed and one active connection. *)
Definition w_before : list traffic_op :=
  [Set_writer true; Open w_clock true (w_info "old.example"); Open w_clock true (w_info "cdn.example");
   Count 2 100 7 1500000000; Close w_clock true 1 (Some (str "client closed"))].

Definition w_store : ch_traffic_store := run w_grow w_created w_before.

Lemma w_store_reachable : reachable w_grow w_store.
Proof.
  unfold w_store, w_before, run. repeat (apply reachable_step; [|vm_compute; repeat split; congruence]).
  apply (reachable_created w_grow 2); [lia|reflexivity].
Defined.

(** What happens around the third connection. *)
Definition w_ops : list traffic_op :=
  [Count 3 1000 20 1600000000; Open w_clock true (w_info "other.example"); Count 4 5 5 1600000000;
   Close w_clock true 2 None; Count 3 24 0 1700000000; Prune 1800000000; Take_job].

Abbreviation w_opened := (ch_traffic_open w_grow w_clock true w_store (w_info "api.example")).

Lemma pair_with {A B} (p : A * B) b : snd p = b -> p = (fst p, b).
Proof. destruct p. cbn. intros ->. reflexivity. Defined.

Lemma traffic_totals_exact_witness :
  counted 3 w_ops = (1024, 20) /\
  exists e, traffic_find_flow (run w_grow (fst w_opened) w_ops) 3 = Some e /\
    flow_is 3 (w_info "api.example") (w_clock 1) (fst (counted 3 w_ops)) (snd (counted 3 w_ops)) e.
Proof.
  split; [reflexivity|].
  refine (traffic_totals_exact w_grow w_store w_clock true (w_info "api.example") (fst w_opened) 3 w_ops
            w_store_reachable _ _ _ _ _).
  - vm_compute. reflexivity.
  - apply pair_with. vm_compute. reflexivity.
  - discriminate.
  - vm_compute. repeat split; congruence.
  - repeat constructor; discriminate.
Defined.

Lemma traffic_open_reserved_witness :
  exists s' id e, ch_traffic_open w_grow w_clock true w_store (w_info "api.example") = (s', Done id) /\
    (sequence w_store < UINT64_MAX -> 0 < id /\ id ∉ map flow_id (entries w_store)) /\ (sequence w_store = UINT64_MAX -> id = 1) /\
    hd_error (entries s') = Some e /\ flow_is id (w_info "api.example") (w_clock 1) 0 0 e /\
    List.filter active (entries s') = e :: List.filter active (entries w_store) /\
    lenZ (List.filter inactive (entries s')) <= limit (settings s').
Proof.
  apply (traffic_open_reserved w_grow w_store w_clock (w_info "api.example"));
    [apply w_store_reachable|vm_compute; reflexivity|vm_compute; reflexivity].
Defined.

(** The log of that store: two connections, with their logical times. *)
Example w_log :
  map (fun v => (shard_id v, lamport v, event_type v)) (log w_store)
  = [(1, 1, str "connection.opened"); (1, 2, str "rule.matched"); (2, 1, str "connection.opened"); (2, 2, str "rule.matched");
     (2, 3, str "connection.bytes"); (1, 3, str "connection.closed")].
Proof. vm_compute. reflexivity. Qed.

End Witnesses.
End Traffic.
