(* ===== verification/TrafficHistory.v ===== *)
(** * The traffic history: [native/src/traffic.c], persistence

    A connection as JSON, the history file that a flush writes and a
    configuration reads back, and the configuration of the store.

    The disk and the outcomes of its system calls are those of [Disk]; the
    environment variables, the current directory and the outcome of opening
    the country database are arguments.  Allocation is taken to succeed but
    for the JSON buffer. *)

From stdpp Require Import gmap.
From S2P Require Import Prelude CLib Inet IpDns Json JsonText TempRules Config ConfigValid ConfigText RuleFeed Disk FeedCache.

From S2P Require Import Traffic.

Module TrafficHistory.
Import Json JsonText Disk Traffic.

Definition CH_TRAFFIC_HISTORY_VERSION : Z := 1.
Definition CH_TRAFFIC_MAX_FILE_BYTES : Z := 32 * 1024 * 1024.
Definition CH_CONFIG_DEFAULT_TRAFFIC_HISTORY_LIMIT : Z := 500.

(** ** A connection as JSON *)

Section Connection.
Context `{DoubleCompare, !DoubleRate} (grow : Z -> bool).

(** [d != 0.0], which also holds of a NaN. *)
Definition nonzero (d : double) : bool :=
  negb (isfinite d) || double_ltb d (double_of_int64 0) || double_ltb (double_of_int64 0) d.

(** The fields of the country that are present, each with its key. *)
Definition geo_texts (g : traffic_geo) : list json_op :=
  let field key value :=
    if beq value [] then []
    else [all_of [append_text grow (str key); append grow (str ":"); append_text grow value]] in
  field "country"%string (geo_country g) ++ field "country_code"%string (geo_country_code g) ++ field "city"%string (geo_city g).

Definition geo_numbers (g : traffic_geo) : list json_op :=
  let field key value := if nonzero value then [append grow (quoted_key key ++ format_17g value)] else [] in
  field "latitude"%string (geo_latitude g) ++ field "longitude"%string (geo_longitude g).

Definition traffic_append_geo (g : traffic_geo) : json_op :=
  all_of [append grow (str "{"); append_list grow (fun op : json_op => op) true (geo_texts g ++ geo_numbers g);
          append grow (str "}")].

Definition state_name (e : ch_traffic_entry) : bytes := if active e then str "active" else str "closed".

Definition duration (e : ch_traffic_entry) (now : Z) : Z :=
  let d := (if active e then now else end_ns e) - start_ns e in if d <? 0 then 0 else d.

Definition traffic_append_connection (e : ch_traffic_entry) (now : Z) : json_op :=
  let i := info e in
  all_of [
    append grow ([123] ++ quoted_key "conn_id"); append_text grow (conn_id e);
    append grow ([44] ++ quoted_key "profile"); append_text grow (i_profile i);
    append grow ([44] ++ quoted_key "state"); append_text grow (state_name e);
    append grow ([44] ++ quoted_key "start_ts_ns" ++ dec (start_ns e) ++ [44] ++ quoted_key "updated_ts_ns"
                 ++ dec (updated_ns e) ++ [44] ++ quoted_key "end_ts_ns" ++ dec (end_ns e));
    append grow ([44] ++ quoted_key "listener" ++ [123] ++ quoted_key "protocol"); append_text grow (i_listener_protocol i);
    append grow ([44] ++ quoted_key "addr"); append_text grow (i_listener_address i);
    append grow ([125; 44] ++ quoted_key "client_addr"); append_text grow (i_client_address i);
    append grow ([44] ++ quoted_key "chain_name"); append_text grow (i_chain_name i);
    append grow ([44] ++ quoted_key "group_name"); append_text grow (i_group_name i);
    append grow ([44] ++ quoted_key "rule_name"); append_text grow (i_rule_name i);
    append grow ([44] ++ quoted_key "rule_action"); append_text grow (i_rule_action i);
    append grow ([44] ++ quoted_key "default" ++ bool_text (i_is_default i) ++ [44] ++ quoted_key "decision_ns"
                 ++ dec (i_decision_ns i));
    append grow ([44] ++ quoted_key "target"); append_text grow (i_target i);
    append grow ([44] ++ quoted_key "target_host"); append_text grow (i_target_host i);
    append grow ([44] ++ quoted_key "target_port"); append_text grow (i_target_port i);
    append grow ([44] ++ quoted_key "network"); append_text grow (i_network i);
    append grow ([44] ++ quoted_key "source"); append_text grow (i_source i);
    append grow ([44] ++ quoted_key "application" ++ [34; 34; 44] ++ quoted_key "hops" ++ str "[],");
    append grow (quoted_key "timeline" ++ str "[{" ++ quoted_key "ts_ns");
    append grow (dec (start_ns e));
    append grow ([44] ++ quoted_key "type" ++ print_string (str "connection_opened") ++ [44] ++ quoted_key "title"
                 ++ print_string (str "Opened") ++ [44] ++ quoted_key "detail" ++ [34; 34] ++ str "}]," ++ quoted_key "geo");
    traffic_append_geo (geo e);
    when_op (negb (beq (geo_error (geo e)) []))
      (all_of [append grow ([44] ++ quoted_key "geo_error"); append_text grow (geo_error (geo e))]);
    append grow (str ",");
    append grow (quoted_key "total_dial_ns" ++ str "0," ++ quoted_key "rx_bps" ++ format_3f (rx_bps e) ++ [44]
                 ++ quoted_key "tx_bps" ++ format_3f (tx_bps e) ++ [44] ++ quoted_key "rx_total" ++ dec (rx_total e) ++ [44]
                 ++ quoted_key "tx_total" ++ dec (tx_total e) ++ [44] ++ quoted_key "duration_ns" ++ dec (duration e now)
                 ++ [44] ++ quoted_key "close_reason");
    append_text grow (close_reason e);
    append grow (str "}")].

(** ** The history file *)

Definition history_text (l : list ch_traffic_entry) (saved now : Z) : json_op :=
  all_of [
    append grow ([123] ++ quoted_key "version" ++ dec CH_TRAFFIC_HISTORY_VERSION ++ [44] ++ quoted_key "saved_ts_ns"
                 ++ dec saved ++ [44] ++ quoted_key "closed" ++ [91]);
    append_list grow (fun e => traffic_append_connection e now) true (List.filter inactive l);
    append grow ([93; 125; 10])].

(** *** Reading *)

Definition get (object : option ch_json_value) (key : bytes) : option ch_json_value := ch_json_object_get object (Some key).

Definition traffic_history_entry_string (object : option ch_json_value) (key : String.string) : bytes :=
  default [] (ch_json_string_value (get object (str key))).

(** The conversion from [double] is undefined out of range. *)
Definition traffic_history_int64 (object : option ch_json_value) (key : String.string) : result Z :=
  let value := get object (str key) in
  match ch_json_int64_value value with
  | Some n => Done n
  | None =>
      let number := ch_json_number_value value (double_of_int64 0) in
      if double_ltb number (double_of_int64 INT64_MIN) || double_ltb (double_of_int64 INT64_MAX) number then Done 0
      else match double_trunc number with Some n => Done n | None => Fault end
  end.

Context `{!DoubleSize}.

Definition traffic_history_uint64 (object : option ch_json_value) (key : String.string) : result Z :=
  let value := get object (str key) in
  match ch_json_int64_value value with
  | Some n => Done (if n <? 0 then 0 else n)
  | None =>
      let number := ch_json_number_value value (double_of_int64 0) in
      if double_ltb number (double_of_int64 0) || double_ltb (double_of_uint64 UINT64_MAX) number then Done 0
      else match double_to_size number with Some n => Done n | None => Fault end
  end.

Definition identifier_of (conn : bytes) : Z :=
  if is_prefix (str "native-") conn then
    let scan := strtoul (drop 7 conn) in
    if negb (scan_range scan) && scan_any scan && beq (scan_rest scan) [] then scan_value scan else 0
  else 0.

(** [None] for an element that is no object. *)
Definition traffic_history_entry_load (object : ch_json_value) : result (option ch_traffic_entry) :=
  match object with
  | CH_JSON_OBJECT _ =>
      let o := Some object in
      let listener := get o (str "listener") in
      let geo := get o (str "geo") in
      let text := traffic_history_entry_string o in
      decision ← traffic_history_int64 o "decision_ns";
      start ← traffic_history_int64 o "start_ts_ns";
      updated ← traffic_history_int64 o "updated_ts_ns";
      ended ← traffic_history_int64 o "end_ts_ns";
      rx ← traffic_history_uint64 o "rx_total";
      tx ← traffic_history_uint64 o "tx_total";
      let zero := double_of_int64 0 in
      let i := mk_info (text "profile") (traffic_history_entry_string listener "protocol")
                 (traffic_history_entry_string listener "addr") (text "client_addr") (text "chain_name") (text "group_name")
                 (text "rule_name") (text "rule_action") (ch_json_bool_value (get o (str "default")) false) decision
                 (text "target") (text "target_host") (text "target_port") (text "network") (text "source") in
      let g := mk_geo (traffic_history_entry_string geo "country") (traffic_history_entry_string geo "country_code")
                 (traffic_history_entry_string geo "city") (text "geo_error")
                 (ch_json_number_value (get geo (str "latitude")) zero)
                 (ch_json_number_value (get geo (str "longitude")) zero) 0 in
      Done (Some (mk_entry (identifier_of (text "conn_id")) (text "conn_id") i (text "close_reason") g false start updated ended
              updated rx tx 0 zero zero))
  | _ => Done None
  end%string.

(** What opening, seeking and reading report: the message of a failure. *)
Record read_io : Type := mk_read_io { io_open : option bytes; io_seek : option bytes; io_read : option bytes }.

(** [Done None] when there is no file. *)
Definition traffic_read_file (io : read_io) (d : disk) (path : bytes) : result (option bytes) :=
  let io_error (m : bytes) : result (option bytes) := fail CH_ERROR_IO (str "read traffic history: " ++ m) in
  match files d !! path with
  | None => match io_open io with Some m => io_error m | None => Done None end
  | Some content =>
      match io_open io, io_seek io with
      | Some m, _ | None, Some m => io_error m
      | None, None =>
          if lenZ content >? CH_TRAFFIC_MAX_FILE_BYTES then
            fail CH_ERROR_INVALID_ARGUMENT (str "traffic history exceeds 33554432 bytes")
          else match io_read io with Some m => io_error m | None => Done (Some content) end
      end
  end.

(** The loop over the elements, with the largest identifier so far. *)
Fixpoint load_entries (l : list ch_json_value) (last : Z) : result (list ch_traffic_entry * Z) :=
  match l with
  | [] => Done ([], last)
  | v :: l' =>
      loaded ← traffic_history_entry_load v;
      match loaded with
      | None => fail CH_ERROR_OUT_OF_MEMORY (str "decode traffic history entry")
      | Some e =>
          '(rest, last) ← load_entries l' (if flow_id e >? last then flow_id e else last);
          Done (e :: rest, last)
      end
  end.

Definition parse_history (document : bytes) (n : Z) : result (list ch_traffic_entry * Z) :=
  match ch_json_parse (Some (until_nul document)) with
  | Raise e => Raise e
  | Fault => Fault
  | Done root =>
      match ch_json_value_type (Some root) with
      | TYPE_OBJECT =>
          match ch_json_int64_value (get (Some root) (str "version")) with
          | Some 1 =>
              match get (Some root) (str "closed") with
              | None => Done ([], 0)
              | Some (CH_JSON_ARRAY items) => load_entries (take (Z.to_nat n) items) 0
              | Some _ => fail CH_ERROR_PARSE (str "traffic history closed field must be an array")
              end
          | _ => fail CH_ERROR_INVALID_ARGUMENT (str "traffic history version is not supported")
          end
      | _ => fail CH_ERROR_PARSE (str "traffic history must be a JSON object")
      end
  end.

Definition traffic_history_load (io : read_io) (d : disk) (path : bytes) (n : Z) : result (list ch_traffic_entry * Z) :=
  document ← traffic_read_file io d path;
  match document with None => Done ([], 0) | Some document => parse_history document n end.


(** *** Writing *)

(** The directories on the way to a path, outermost first: the loop of
    [traffic_mkdir_all] cuts the text at each slash after its first character
    and at its end. *)
Fixpoint cuts (before rest : bytes) : list bytes :=
  match rest with
  | [] => [before]
  | c :: rest' => (if c =? 47 then [before] else []) ++ cuts (before ++ [c]) rest'
  end.

Definition parents (directory : bytes) : list bytes :=
  match directory with [] => [] | c :: rest => cuts [c] rest end.

(** [mkdir] is what making a directory reports; an existing one is no failure. *)
Fixpoint make_directories (mkdir : bytes -> option bytes) (d : disk) (l : list bytes) : list disk * disk * result unit :=
  match l with
  | [] => ([], d, Done tt)
  | path :: l' =>
      match mkdir path with
      | Some m => ([], d, fail CH_ERROR_IO (str "create traffic history directory: " ++ m))
      | None =>
          let d' := mk_disk (files d) ({[path]} ∪ directories d) in
          let '(trace, final, r) := make_directories mkdir d' l' in (d' :: trace, final, r)
      end
  end.

Definition traffic_mkdir_all (mkdir : bytes -> option bytes) (d : disk) (directory : bytes) : list disk * disk * result unit :=
  if beq directory [] || beq directory (str ".") || beq directory (str "/") then ([], d, Done tt)
  else make_directories mkdir d (parents directory).

(** What the system calls of one write report; [None] is success. *)
Record history_io : Type := mk_history_io {
  hio_mkdir : bytes -> option bytes;
  hio_create : option bytes;
  hio_chmod : option bytes;
  hio_temporary : bytes;
  hio_writes : list write_call;
  hio_sync : option bytes;
  hio_close : option bytes;
  hio_rename : option bytes
}.

Definition directory_of (path : bytes) : bytes :=
  match split_last 47 path with
  | None => str "."
  | Some ([], _) => str "/"
  | Some (directory, _) => directory
  end.

(** The disks that a write passes through, and its result. *)
Definition traffic_write_atomic (io : history_io) (d : disk) (path document : bytes) : list disk * result unit :=
  let '(made, d, r) := traffic_mkdir_all (hio_mkdir io) d (directory_of path) in
  let io_error (m : bytes) : result unit := fail CH_ERROR_IO m in
  match r with
  | Done _ =>
      let temporary := path ++ str ".traffic-" ++ hio_temporary io in
      match hio_create io with
      | Some m =>
          (made ++ [without_file d (path ++ str ".traffic-XXXXXX")],
           io_error (str "create traffic history temporary file: " ++ m))
      | None =>
          let created := with_file d temporary [] in
          let removed := without_file created temporary in
          match hio_chmod io with
          | Some m => (made ++ [created; removed], io_error (str "create traffic history temporary file: " ++ m))
          | None =>
              let '(states, error) := write_loop (hio_writes io) (lenZ document) 0 in
              let trace := made ++ created :: map (fun n => with_file d temporary (take (Z.to_nat n) document)) states in
              match error, hio_sync io, hio_close io, hio_rename io with
              | Some m, _, _, _ => (trace ++ [removed], io_error (str "write traffic history: " ++ m))
              | None, Some m, _, _ => (trace ++ [removed], io_error (str "sync traffic history: " ++ m))
              | None, None, Some m, _ => (trace ++ [removed], io_error (str "close traffic history: " ++ m))
              | None, None, None, Some m => (trace ++ [removed], io_error (str "replace traffic history: " ++ m))
              | None, None, None, None => (trace ++ [with_file removed path document], Done tt)
              end
          end
      end
  | Raise e => (made, Raise e)
  | Fault => (made, Fault)
  end.

(** The last disk of a trace. *)
Definition after_all (d : disk) (trace : list disk) : disk := default d (list.last trace).

(** The text of the history, under the lock of the store; [None] when there is
    no history to write. *)
Definition flush_locked (clock : nat -> Z) (s : ch_traffic_store) : ch_traffic_store * option (result bytes) :=
  let s := traffic_prune_locked s (clock 0%nat) in
  if negb (enabled (settings s)) || beq (history_path (settings s)) [] then (s, None)
  else (s, Some (take_text (history_text (entries s) (clock 1%nat) (clock 2%nat)) (str "encode traffic history"))).

(** Between its two critical sections the flush holds a lock that only
    excludes other flushes; the path is the one it has read. *)
Definition ch_traffic_store_flush (clock : nat -> Z) (io : history_io) (d : disk) (s : ch_traffic_store)
    : list disk * ch_traffic_store * result unit :=
  let path := history_path (settings s) in
  match flush_locked clock s with
  | (s, None) => ([], s, Done tt)
  | (s, Some (Done text)) =>
      let '(trace, r) := traffic_write_atomic io d path text in
      let report := match r with Done _ => [] | Raise (mk_error _ m) => m | Fault => [] end in
      (trace, traffic_set_persist_error_locked s report, r)
  | (s, Some (Raise e)) => ([], s, Raise e)
  | (s, Some Fault) => ([], s, Fault)
  end.

(** Closing flushes the history; the status is ignored. *)
Definition ch_traffic_close (clock : nat -> Z) (copied : bool) (io : history_io) (d : disk) (s : ch_traffic_store) (id : Z)
    (reason : option bytes) : list disk * ch_traffic_store :=
  if id =? 0 then ([], s)
  else fst (ch_traffic_store_flush (fun n => clock (S (S n))) io d (close_locked grow clock copied s id reason)).

Definition ch_traffic_close_all (clock : nat -> Z) (copied : nat -> bool) (io : history_io) (d : disk) (s : ch_traffic_store)
    (reason : option bytes) : list disk * ch_traffic_store :=
  fst (ch_traffic_store_flush (fun n => clock (S n)) io d (close_all_locked grow (clock 0%nat) copied s reason)).

(** What remains of a store that is destroyed: the disk. *)
Definition ch_traffic_store_destroy (clock : nat -> Z) (io : history_io) (d : disk) (s : ch_traffic_store) : list disk :=
  fst (fst (ch_traffic_store_flush clock io d s)).

(** ** Configuration *)

Section Configure.
Context {D : Type} `{LongDouble}.

Definition traffic_join_path (directory suffix : bytes) : bytes :=
  directory ++ (if negb (beq directory []) && negb (bool_decide (list.last directory = Some 47)) then [47] else []) ++ suffix.

(** The builds other than Android's; a variable of the environment is [None]
    when it is not set. *)
Definition traffic_default_history_path (cache home : option bytes) (has_traffic_table : bool) : bytes :=
  if negb has_traffic_table then []
  else
    match cache, home with
    | Some (c :: cs), _ => traffic_join_path (c :: cs) (str "clambhook/traffic-history.json")
    | _, Some (h :: hs) => traffic_join_path (h :: hs) (str ".cache/clambhook/traffic-history.json")
    | _, _ => str "/tmp/clambhook/traffic-history.json"
    end.

(** What the settings of the configuration say: enabled, limit, age and path. *)
Definition traffic_settings (config : option (Config.ch_config (D := D))) (cache home : option bytes) (cwd : bytes + bytes)
    : result (bool * Z * Z * bytes) :=
  match config with
  | None => Done (true, CH_CONFIG_DEFAULT_TRAFFIC_HISTORY_LIMIT, CH_TRAFFIC_DEFAULT_MAX_AGE_NS, [])
  | Some config =>
      match Config.toml_table_in (Config.root config) (str "traffic") with
      | None => Done (true, CH_CONFIG_DEFAULT_TRAFFIC_HISTORY_LIMIT, CH_TRAFFIC_DEFAULT_MAX_AGE_NS, [])
      | Some traffic =>
          let has key := Config.toml_key_exists traffic (str key) in
          on ← if has "enabled"%string then Config.ch_config_table_get_bool traffic (str "enabled") else Done true;
          n ← if has "history_limit"%string then
                (configured ← Config.ch_config_table_get_int traffic (str "history_limit");
                 Done (if configured >? 0 then configured else CH_CONFIG_DEFAULT_TRAFFIC_HISTORY_LIMIT))
              else Done CH_CONFIG_DEFAULT_TRAFFIC_HISTORY_LIMIT;
          if n >? CH_TRAFFIC_MAX_LIMIT then fail CH_ERROR_INVALID_ARGUMENT (str "traffic history limit exceeds 4096")
          else
            age ← if has "history_max_age"%string then
                    (text ← Config.ch_config_table_get_string traffic (str "history_max_age");
                     Config.ch_config_parse_duration_ns (Some text))
                  else Done CH_TRAFFIC_DEFAULT_MAX_AGE_NS;
            path ← if has "history_path"%string then
                     (text ← Config.ch_config_table_get_string traffic (str "history_path");
                      ConfigText.ch_config_resolve_path config cwd text)
                   else Done (traffic_default_history_path cache home true);
            Done (on, n, age, path)
      end
  end.

(** Loading, when the first critical section asks for it. *)
Definition load_when (wanted : bool) (rio : read_io) (d : disk) (path : bytes) (n now : Z) (s : ch_traffic_store) : ch_traffic_store :=
  if wanted then history_loaded_locked s (traffic_history_load rio d path n) now else s.

Definition ch_traffic_store_configure (clock : nat -> Z) (io : history_io) (rio : read_io) (reader : option bool)
    (cache home : option bytes) (cwd : bytes + bytes) (d : disk) (s : ch_traffic_store)
    (config : option (Config.ch_config (D := D))) : list disk * ch_traffic_store * result unit :=
  match traffic_settings config cache home cwd with
  | Done (on, n, age, path) =>
      let '(trace, s, _) := ch_traffic_store_flush clock io d s in
      let d := after_all d trace in
      let '(s, should_load) := configure_locked s reader path on n age (clock 3%nat) in
      (trace, load_when should_load rio d path n (clock 4%nat) s, Done tt)
  | Raise e => ([], s, Raise e)
  | Fault => ([], s, Fault)
  end.

End Configure.

(** ** Facts: the text of a connection *)

Definition number_field (key : String.string) (t : bytes) : field := mk_field (str key) t (CH_JSON_NUMBER (number_text t)).

Definition geo_fields (g : traffic_geo) : list field :=
  let text key value := if beq value [] then [] else [text_field key value] in
  let number key value := if nonzero value then [number_field key (format_17g value)] else [] in
  text "country"%string (geo_country g) ++ text "country_code"%string (geo_country_code g) ++ text "city"%string (geo_city g)
  ++ number "latitude"%string (geo_latitude g) ++ number "longitude"%string (geo_longitude g).

Definition object_field (key : String.string) (fs : list field) : field := mk_field (str key) (object_text fs) (object_value fs).

Definition timeline_field (e : ch_traffic_entry) : field :=
  let event := [int_field "ts_ns" (start_ns e); text_field "type" (str "connection_opened"); text_field "title" (str "Opened");
                text_field "detail" []] in
  mk_field (str "timeline") ([91] ++ object_text event ++ [93]) (CH_JSON_ARRAY [object_value event]).

(** The members of a connection. *)
Definition connection_fields (e : ch_traffic_entry) (now : Z) : list field :=
  let i := info e in
  [text_field "conn_id" (conn_id e); text_field "profile" (i_profile i); text_field "state" (state_name e);
   int_field "start_ts_ns" (start_ns e); int_field "updated_ts_ns" (updated_ns e); int_field "end_ts_ns" (end_ns e);
   object_field "listener" [text_field "protocol" (i_listener_protocol i); text_field "addr" (i_listener_address i)];
   text_field "client_addr" (i_client_address i); text_field "chain_name" (i_chain_name i); text_field "group_name" (i_group_name i);
   text_field "rule_name" (i_rule_name i); text_field "rule_action" (i_rule_action i); bool_field "default" (i_is_default i);
   int_field "decision_ns" (i_decision_ns i); text_field "target" (i_target i); text_field "target_host" (i_target_host i);
   text_field "target_port" (i_target_port i); text_field "network" (i_network i); text_field "source" (i_source i);
   text_field "application" []; mk_field (str "hops") (str "[]") (CH_JSON_ARRAY []); timeline_field e;
   object_field "geo" (geo_fields (geo e))]
  ++ (if beq (geo_error (geo e)) [] then [] else [text_field "geo_error" (geo_error (geo e))])
  ++ [int_field "total_dial_ns" 0; number_field "rx_bps" (format_3f (rx_bps e)); number_field "tx_bps" (format_3f (tx_bps e));
      int_field "rx_total" (rx_total e); int_field "tx_total" (tx_total e); int_field "duration_ns" (duration e now);
      text_field "close_reason" (close_reason e)].

Lemma geo_texts_write g :
  Forall2 (writes grow) (geo_texts g ++ geo_numbers g) (map (fun f => key_text (field_key f, field_text f)) (geo_fields g)).
Proof.
  unfold geo_texts, geo_numbers, geo_fields. cbv zeta. rewrite <- !app_assoc, !List.map_app.
  repeat apply Forall2_app; case_if; constructor; try constructor.
  1-3: eapply all_of_text; [collect|]; cbn [concat]; unfold key_text; cbn [field_key field_text text_field fst snd];
    rewrite app_nil_r; reflexivity.
  1-2: eapply writes_ext; [intros b; reflexivity|]; apply append_spec.
Qed.

Lemma append_geo_writes g : writes grow (traffic_append_geo g) (object_text (geo_fields g)).
Proof.
  eapply all_of_text; [apply Forall2_cons; [apply append_spec|]; apply Forall2_cons;
    [apply append_each_writes, geo_texts_write|]; collect|]. cbn [concat]. rewrite app_nil_r. reflexivity.
Qed.

(** The members from the second on follow a comma. *)
Lemma object_text_cons f fs :
  object_text (f :: fs)
  = [123] ++ key_text (field_key f, field_text f) ++ concat (map (fun f => [44] ++ key_text (field_key f, field_text f)) fs) ++ [125].
Proof.
  unfold object_text. cbn [map]. rewrite join_concat, List.map_map, <- app_assoc. reflexivity.
Qed.

Lemma append_connection_writes e now :
  writes grow (traffic_append_connection e now) (object_text (connection_fields e now)).
Proof.
  pose proof (append_geo_writes (geo e)) as Hg. unfold traffic_append_connection. cbv zeta.
  eapply all_of_text.
  { do 42 (apply Forall2_cons; [first [apply append_spec | apply append_text_spec | exact Hg |
      apply when_writes, all_of_writes; collect]|]); apply Forall2_nil. }
  set (g := object_text (geo_fields (geo e))). unfold connection_fields. cbv zeta.
  destruct (beq (geo_error (geo e)) []); cbn [negb app]; rewrite !object_text_cons;
    unfold timeline_field, object_field; fold g; unfold object_text, key_text, number_field, text_field, int_field, bool_field, text_value;
    cbn [field_key field_text map join concat fst snd]; rewrite ?app_nil_r.
  all: literals; change (dec CH_TRAFFIC_HISTORY_VERSION) with [49]; change (dec 0) with [48]; change (print_string []) with [34; 34].
  all: repeat (rewrite <- app_assoc; cbn [app]); reflexivity.
Qed.

(** *** What a connection must be to be read back *)

Definition info_texts (i : ch_traffic_open_info) : list bytes :=
  [i_profile i; i_listener_protocol i; i_listener_address i; i_client_address i; i_chain_name i; i_group_name i; i_rule_name i;
   i_rule_action i; i_target i; i_target_host i; i_target_port i; i_network i; i_source i].

Definition geo_words (g : traffic_geo) : list bytes := [geo_country g; geo_country_code g; geo_city g; geo_error g].

Definition entry_texts (e : ch_traffic_entry) : list bytes :=
  [conn_id e; close_reason e] ++ info_texts (info e) ++ geo_words (geo e).

Definition entry_numbers (e : ch_traffic_entry) : list Z := [start_ns e; updated_ns e; end_ns e; rx_total e; tx_total e].

Definition entry_doubles (e : ch_traffic_entry) : list double :=
  [rx_bps e; tx_bps e; geo_latitude (geo e); geo_longitude (geo e)].

(** The texts are C strings, times and totals fit [int64_t], rates and
    coordinates are finite. *)
Record entry_ok (e : ch_traffic_entry) : Prop := {
  ok_texts : Forall cstr_ok (entry_texts e);
  ok_numbers : Forall (fun n => 0 <= n <= INT64_MAX) (entry_numbers e);
  ok_decision : INT64_MIN <= i_decision_ns (info e) <= INT64_MAX;
  ok_doubles : Forall (fun d => isfinite d = true) (entry_doubles e)
}.

Lemma number_field_ok key t integer d :
  cstr_ok (str key) -> number_token t integer -> strtod t = Some d -> field_ok (number_field key t).
Proof. intros Hk Ht Hd. split; [exact Hk|]. apply (reads_number_text t integer d Ht Hd). Qed.

Lemma object_field_ok key fs : cstr_ok (str key) -> Forall field_ok fs -> field_ok (object_field key fs).
Proof. intros Hk Hfs. split; [exact Hk|apply reads_fields, Hfs]. Qed.

Lemma rate_field_ok key d : cstr_ok (str key) -> isfinite d = true -> field_ok (number_field key (format_3f d)).
Proof.
  intros Hk Hd. destruct (format_3f_finite d Hd) as [[integer Ht] [v Hv]]. exact (number_field_ok key _ integer v Hk Ht Hv).
Qed.

Lemma coordinate_field_ok key d : cstr_ok (str key) -> isfinite d = true -> field_ok (number_field key (format_17g d)).
Proof.
  intros Hk Hd. destruct (format_17g_finite d Hd) as [[integer Ht] Hv]. exact (number_field_ok key _ integer d Hk Ht Hv).
Qed.

Lemma geo_fields_ok g :
  Forall cstr_ok (geo_words g) -> isfinite (geo_latitude g) = true -> isfinite (geo_longitude g) = true ->
  Forall field_ok (geo_fields g).
Proof.
  intros Ht Hlat Hlon. unfold geo_words in Ht.
  repeat match goal with Hx : Forall _ (_ :: _) |- _ => inversion_clear Hx end.
  unfold geo_fields. cbv beta zeta. rewrite !Forall_app. split_and!; case_if; each.
  1-3: apply text_field_ok; [key_ok|assumption].
  all: apply coordinate_field_ok; [key_ok|assumption].
Qed.

Lemma duration_range e now :
  Forall (fun n => 0 <= n <= INT64_MAX) (entry_numbers e) -> 0 <= now <= INT64_MAX -> INT64_MIN <= duration e now <= INT64_MAX.
Proof.
  intros Hn Hnow. unfold entry_numbers in Hn. repeat match goal with Hx : Forall _ (_ :: _) |- _ => inversion_clear Hx end.
  unfold duration, INT64_MIN. cbv zeta. destruct (active e); case_if; lia.
Qed.

Lemma timeline_ok e : INT64_MIN <= start_ns e <= INT64_MAX -> field_ok (timeline_field e).
Proof.
  intros Hs. split; [key_ok|]. cbn [field_text field_value timeline_field]. cbv zeta.
  set (event := [_; _; _; _]). assert (He : Forall field_ok event).
  { each; [apply int_field_ok; [key_ok|exact Hs]|apply text_field_ok; key_ok..]. }
  apply (read_array [object_text event] [object_value event]). constructor; [apply reads_fields, He|constructor].
Qed.

Lemma connection_fields_ok e now : entry_ok e -> 0 <= now <= INT64_MAX -> Forall field_ok (connection_fields e now).
Proof.
  intros [Ht Hn Hd Hf] Hnow. pose proof (duration_range e now Hn Hnow) as Hdur. unfold entry_texts in Ht.
  rewrite !Forall_app in Ht. destruct Ht as (Ht1 & Ht2 & Ht3).
  unfold entry_numbers in Hn. unfold entry_doubles in Hf. unfold info_texts in Ht2.
  assert (Hg : Forall field_ok (geo_fields (geo e))).
  { apply geo_fields_ok; [exact Ht3| |]; repeat match goal with Hx : Forall _ (_ :: _) |- _ => inversion_clear Hx end; assumption. }
  assert (Herr : cstr_ok (geo_error (geo e))).
  { unfold geo_words in Ht3. repeat match goal with Hx : Forall _ (_ :: _) |- _ => inversion_clear Hx end. assumption. }
  assert (Htl : field_ok (timeline_field e)).
  { apply timeline_ok. inversion_clear Hn. unfold INT64_MIN. lia. }
  repeat match goal with Hx : Forall _ (_ :: _) |- _ => inversion_clear Hx end. unfold INT64_MIN in *.
  unfold connection_fields. cbv zeta. rewrite !Forall_app. split_and!.
  - each; try (apply text_field_ok; [key_ok|assumption]); try (apply int_field_ok; [key_ok|unfold INT64_MIN; lia]);
      try (apply bool_field_ok; key_ok); try assumption.
    + apply text_field_ok; [key_ok|]. unfold state_name. case_if; key_ok.
    + apply object_field_ok; [key_ok|]. each; (apply text_field_ok; [key_ok|assumption]).
    + apply text_field_ok; [key_ok|constructor].
    + split; [key_ok|]. apply (read_array [] []). constructor.
    + apply object_field_ok; [key_ok|exact Hg].
  - case_if; [constructor|]. constructor; [|constructor]. apply text_field_ok; [key_ok|assumption].
  - each; try (apply text_field_ok; [key_ok|assumption]); try (apply int_field_ok; [key_ok|unfold INT64_MIN, INT64_MAX in *; lia]);
      (apply rate_field_ok; [key_ok|assumption]).
Qed.

Lemma geo_height g : Forall (fun f => height (field_value f) <= 1) (geo_fields g).
Proof. unfold geo_fields. cbv beta zeta. rewrite !Forall_app. split_and!; case_if; repeat constructor; cbn; lia. Qed.

Lemma connection_height e now : height (object_value (connection_fields e now)) <= 4.
Proof.
  apply (fields_height _ 3); [lia|]. unfold connection_fields. cbv zeta. rewrite !Forall_app. split_and!.
  - each; try (cbn; lia).
    cbn [field_value object_field]. pose proof (fields_height (geo_fields (geo e)) 1 ltac:(lia) (geo_height (geo e))). lia.
  - case_if; repeat constructor; cbn; lia.
  - repeat constructor; cbn; lia.
Qed.

(** ** Facts: reading a connection back *)

(** What remains of a connection in the file: rates, logical time and the
    number of the lookup are not kept, and its identifier is read from its
    name. *)
Definition stored (e : ch_traffic_entry) : ch_traffic_entry :=
  let g := geo e in
  let zero := double_of_int64 0 in
  mk_entry (identifier_of (conn_id e)) (conn_id e) (info e) (close_reason e)
    (mk_geo (geo_country g) (geo_country_code g) (geo_city g) (geo_error g)
       (if nonzero (geo_latitude g) then geo_latitude g else zero)
       (if nonzero (geo_longitude g) then geo_longitude g else zero) 0)
    false (start_ns e) (updated_ns e) (end_ns e) (updated_ns e) (rx_total e) (tx_total e) 0 zero zero.

Lemma load_int64 object key n : get object (str key) = Some (int_value n) -> traffic_history_int64 object key = Done n.
Proof. intros Hg. unfold traffic_history_int64. rewrite Hg. reflexivity. Qed.

Lemma load_uint64 object key n :
  get object (str key) = Some (int_value n) -> 0 <= n -> traffic_history_uint64 object key = Done n.
Proof. intros Hg Hn. unfold traffic_history_uint64. rewrite Hg. cbn. replace (n <? 0) with false by lia. reflexivity. Qed.

Lemma load_string object key s : get object (str key) = Some (text_value s) -> traffic_history_entry_string object key = s.
Proof. intros Hg. unfold traffic_history_entry_string. rewrite Hg. reflexivity. Qed.

(** A member of the country, when it is written. *)
Lemma load_geo_text g key s :
  get (Some (object_value (geo_fields g))) (str key) = (if beq s [] then None else Some (text_value s)) ->
  traffic_history_entry_string (Some (object_value (geo_fields g))) key = s.
Proof.
  intros Hg. unfold traffic_history_entry_string. rewrite Hg. destruct (beq s []) eqn:E; [|reflexivity].
  apply beq_true in E. subst. reflexivity.
Qed.

Lemma geo_member g key :
  get (Some (object_value (geo_fields g))) key
  = field_value <$> List.find (fun f => beq (field_key f) key) (geo_fields g).
Proof. apply field_get. Qed.

Lemma load_geo g :
  isfinite (geo_latitude g) = true -> isfinite (geo_longitude g) = true ->
  let o := Some (object_value (geo_fields g)) in
  traffic_history_entry_string o "country" = geo_country g /\
  traffic_history_entry_string o "country_code" = geo_country_code g /\
  traffic_history_entry_string o "city" = geo_city g /\
  ch_json_number_value (get o (str "latitude")) (double_of_int64 0)
  = (if nonzero (geo_latitude g) then geo_latitude g else double_of_int64 0) /\
  ch_json_number_value (get o (str "longitude")) (double_of_int64 0)
  = (if nonzero (geo_longitude g) then geo_longitude g else double_of_int64 0).
Proof.
  intros Hlat Hlon. cbv zeta.
  assert (Hn : forall d, isfinite d = true -> number_value (number_text (format_17g d)) = d).
  { intros d Hd. destruct (format_17g_finite d Hd) as [[integer Ht] Hv]. apply (reads_number_text _ integer d Ht Hv). }
  split_and!; [apply load_geo_text|apply load_geo_text|apply load_geo_text| |]; rewrite geo_member;
    unfold geo_fields; cbv beta zeta.
  all: destruct (beq (geo_country g) []), (beq (geo_country_code g) []), (beq (geo_city g) []),
    (nonzero (geo_latitude g)), (nonzero (geo_longitude g)).
  all: try reflexivity; cbn -[number_text]; apply Hn; assumption.
Qed.

Lemma connection_member e now key :
  get (Some (object_value (connection_fields e now))) key
  = field_value <$> List.find (fun f => beq (field_key f) key) (connection_fields e now).
Proof. apply field_get. Qed.

Lemma connection_loads e now : entry_ok e -> traffic_history_entry_load (object_value (connection_fields e now)) = Done (Some (stored e)).
Proof.
  intros [Ht Hn Hd Hf]. unfold entry_numbers in Hn. unfold entry_doubles in Hf.
  repeat match goal with Hx : Forall _ (_ :: _) |- _ => inversion_clear Hx end.
  destruct (load_geo (geo e)) as (Hg1 & Hg2 & Hg3 & Hg4 & Hg5); [assumption..|].
  unfold traffic_history_entry_load. change (object_value (connection_fields e now)) with (CH_JSON_OBJECT (map (fun f => (field_key f, field_value f)) (connection_fields e now))) at 1.
  cbv beta iota zeta. set (o := Some (object_value (connection_fields e now))).
  assert (Hget : forall key, get o key = field_value <$> List.find (fun f => beq (field_key f) key) (connection_fields e now))
    by (intros key; apply connection_member).
  assert (Hfields : exists fs, connection_fields e now = fs /\ fs = connection_fields e now) by eauto.
  destruct Hfields as (fs & Hfs & Hfields). rewrite Hfs in Hget. unfold connection_fields in Hfields. cbv zeta in Hfields.
  assert (Hi : forall key n, field_value <$> List.find (fun f => beq (field_key f) (str key)) fs = Some (int_value n) ->
    traffic_history_int64 o key = Done n) by (intros; apply load_int64; rewrite Hget; assumption).
  assert (Hs : forall key s, field_value <$> List.find (fun f => beq (field_key f) (str key)) fs = Some (text_value s) ->
    traffic_history_entry_string o key = s) by (intros; apply load_string; rewrite Hget; assumption).
  assert (Hgeo : get o (str "geo") = Some (object_value (geo_fields (geo e)))).
  { rewrite Hget, Hfields. reflexivity. }
  assert (Herr : traffic_history_entry_string o "geo_error" = geo_error (geo e)).
  { unfold traffic_history_entry_string. rewrite Hget, Hfields. destruct (beq (geo_error (geo e)) []) eqn:E; [|reflexivity].
    apply beq_true in E. rewrite E. reflexivity. }
  rewrite Hgeo, Herr, Hg1, Hg2, Hg3, Hg4, Hg5.
  assert (Hbool : ch_json_bool_value (get o (str "default")) false = i_is_default (info e)).
  { rewrite Hget, Hfields. reflexivity. }
  assert (Hlisten : get o (str "listener") = Some (object_value [text_field "protocol" (i_listener_protocol (info e));
    text_field "addr" (i_listener_address (info e))])).
  { rewrite Hget, Hfields. reflexivity. }
  assert (Hu : forall key n, field_value <$> List.find (fun f => beq (field_key f) (str key)) fs = Some (int_value n) -> 0 <= n ->
    traffic_history_uint64 o key = Done n) by (intros; apply load_uint64; [rewrite Hget; assumption|assumption]).
  rewrite Hbool, Hlisten.
  rewrite (Hi "decision_ns"%string (i_decision_ns (info e))), (Hi "start_ts_ns"%string (start_ns e)),
    (Hi "updated_ts_ns"%string (updated_ns e)), (Hi "end_ts_ns"%string (end_ns e)) by (rewrite Hfields; reflexivity).
  rewrite (Hu "rx_total"%string (rx_total e)), (Hu "tx_total"%string (tx_total e))
    by (lia || (rewrite Hfields; destruct (beq (geo_error (geo e)) []); reflexivity)).
  cbn [mbind outcome_bind].
  rewrite (Hs "conn_id"%string (conn_id e)), (Hs "profile"%string (i_profile (info e))),
    (Hs "client_addr"%string (i_client_address (info e))), (Hs "chain_name"%string (i_chain_name (info e))),
    (Hs "group_name"%string (i_group_name (info e))), (Hs "rule_name"%string (i_rule_name (info e))),
    (Hs "rule_action"%string (i_rule_action (info e))), (Hs "target"%string (i_target (info e))),
    (Hs "target_host"%string (i_target_host (info e))), (Hs "target_port"%string (i_target_port (info e))),
    (Hs "network"%string (i_network (info e))), (Hs "source"%string (i_source (info e))) by (rewrite Hfields; reflexivity).
  rewrite (Hs "close_reason"%string (close_reason e)) by (rewrite Hfields; destruct (beq (geo_error (geo e)) []); reflexivity).
  unfold stored. destruct (info e). reflexivity.
Qed.

(** ** Facts: the history file *)

Abbreviation positive := FeedCache.positive.

Definition field_positive (f : field) : Prop := cstr_ok (field_key f) /\ positive (field_text f).

Lemma object_positive fs : Forall field_positive fs -> positive (object_text fs).
Proof.
  intros Hall. unfold object_text. apply Forall_app. split; [repeat constructor; lia|]. apply Forall_app.
  split; [|repeat constructor; lia]. apply FeedCache.join_positive, List.Forall_map. eapply List.Forall_impl; [|exact Hall].
  intros f [Hk Ht]. unfold key_text. cbn [fst snd]. apply Forall_app. split; [apply FeedCache.print_string_positive, Hk|].
  constructor; [lia|exact Ht].
Qed.

Lemma text_positive key s : cstr_ok (str key) -> cstr_ok s -> field_positive (text_field key s).
Proof. intros Hk Hs. split; [exact Hk|apply FeedCache.print_string_positive, Hs]. Qed.

Lemma int_positive key n : cstr_ok (str key) -> field_positive (int_field key n).
Proof. intros Hk. split; [exact Hk|apply dec_positive]. Qed.

Lemma geo_positive g : Forall cstr_ok (geo_words g) -> Forall field_positive (geo_fields g).
Proof.
  intros Ht. unfold geo_words in Ht. repeat match goal with Hx : Forall _ (_ :: _) |- _ => inversion_clear Hx end.
  unfold geo_fields. cbv beta zeta. rewrite !Forall_app. split_and!; case_if; each.
  1-3: apply text_positive; [key_ok|assumption].
  all: split; [key_ok|apply format_texts].
Qed.

Lemma connection_positive e now : entry_ok e -> positive (object_text (connection_fields e now)).
Proof.
  intros [Ht _ _ _]. unfold entry_texts in Ht. rewrite !Forall_app in Ht. destruct Ht as (Ht1 & Ht2 & Ht3).
  pose proof (geo_positive (geo e) Ht3) as Hg. unfold geo_words in Ht3. unfold info_texts in Ht2.
  repeat match goal with Hx : Forall _ (_ :: _) |- _ => inversion_clear Hx end.
  apply object_positive. unfold connection_fields. cbv zeta. rewrite !Forall_app. split_and!.
  - each; try (apply text_positive; [key_ok|assumption || (unfold state_name; case_if; key_ok) || constructor]);
      try (apply int_positive; key_ok).
    + split; [key_ok|]. apply object_positive. each; (apply text_positive; [key_ok|assumption]).
    + split; [key_ok|]. cbn [field_text bool_field]. unfold bool_text. case_if; repeat constructor; lia.
    + split; [key_ok|]. repeat constructor; lia.
    + split; [key_ok|]. cbn [field_text timeline_field]. apply Forall_app. split; [repeat constructor; lia|].
      apply Forall_app. split; [|repeat constructor; lia]. apply object_positive.
      each; [apply int_positive; key_ok|apply text_positive; key_ok..].
    + split; [key_ok|]. apply object_positive, Hg.
  - case_if; each. apply text_positive; [key_ok|assumption].
  - each; try (apply text_positive; [key_ok|assumption]); try (apply int_positive; key_ok); (split; [key_ok|apply format_texts]).
Qed.

Definition closed_of (l : list ch_traffic_entry) : list ch_traffic_entry := List.filter inactive l.

Definition history_fields (l : list ch_traffic_entry) (saved now : Z) : list field :=
  [int_field "version" CH_TRAFFIC_HISTORY_VERSION; int_field "saved_ts_ns" saved;
   mk_field (str "closed") ([91] ++ join (map (fun e => object_text (connection_fields e now)) (closed_of l)) ++ [93])
     (CH_JSON_ARRAY (map (fun e => object_value (connection_fields e now)) (closed_of l)))].

Definition history_document (l : list ch_traffic_entry) (saved now : Z) : bytes := object_text (history_fields l saved now) ++ [10].

Lemma history_writes l saved now : writes grow (history_text l saved now) (history_document l saved now).
Proof.
  destruct (append_list_writes grow (fun e => traffic_append_connection e now) (fun e => object_text (connection_fields e now)) (closed_of l)) as [Hw _].
  { apply list.Forall_forall. intros e _. apply append_connection_writes. }
  eapply all_of_text; [apply Forall2_cons; [apply append_spec|]; apply Forall2_cons; [exact Hw|]; collect|].
  unfold history_document, object_text, history_fields. set (items := join (map (fun e => object_text _) _)).
  unfold int_field, key_text. cbn [field_key field_text map join concat fst snd]. literals. change (dec CH_TRAFFIC_HISTORY_VERSION) with [49].
  rewrite app_nil_r. repeat (rewrite <- app_assoc; cbn [app]). reflexivity.
Qed.

Lemma history_ok l saved now :
  Forall entry_ok (closed_of l) -> INT64_MIN <= saved <= INT64_MAX -> 0 <= now <= INT64_MAX ->
  Forall field_ok (history_fields l saved now) /\ positive (history_document l saved now).
Proof.
  intros Hl Hs Hnow. split.
  - each; [apply int_field_ok; [key_ok|vm_compute; split; discriminate]|apply int_field_ok; [key_ok|exact Hs]|].
    split; [key_ok|]. apply read_array. induction Hl as [|e es He _ IH]; cbn [map]; constructor; [|exact IH].
    apply reads_fields, connection_fields_ok; assumption.
  - apply Forall_app. split; [|repeat constructor; lia]. apply object_positive.
    each; [apply int_positive; key_ok..|]. split; [key_ok|]. cbn [field_text]. apply Forall_app. split; [repeat constructor; lia|].
    apply Forall_app. split; [|repeat constructor; lia]. apply FeedCache.join_positive, List.Forall_map.
    eapply List.Forall_impl; [|exact Hl]. intros e He. apply connection_positive, He.
Qed.

Lemma history_height l saved now : height (object_value (history_fields l saved now)) <= 64.
Proof.
  assert (Hh : height (object_value (history_fields l saved now)) <= 5 + 1); [|lia].
  apply fields_height; [lia|]. each; [cbn; lia..|]. cbn [field_value height]. rewrite List.map_map.
  assert (Hm : foldr Z.max 0 (map (fun e => height (object_value (connection_fields e now))) (closed_of l)) <= 4); [|lia].
  induction (closed_of l) as [|e es IH]; cbn [map foldr]; [lia|]. pose proof (connection_height e now). lia.
Qed.

Definition greatest (last : Z) (l : list ch_traffic_entry) : Z :=
  fold_left (fun m e => if flow_id e >? m then flow_id e else m) l last.

Lemma entries_load l now last :
  Forall entry_ok l ->
  load_entries (map (fun e => object_value (connection_fields e now)) l) last = Done (map stored l, greatest last (map stored l)).
Proof.
  intros Hl. revert last. induction Hl as [|e es He _ IH]; intros last; [reflexivity|]. cbn [map load_entries].
  rewrite connection_loads by exact He. cbn [mbind outcome_bind]. rewrite IH. reflexivity.
Qed.

(** The history that was written is read back, up to the limit. *)
Lemma history_parses l saved now n :
  Forall entry_ok (closed_of l) -> INT64_MIN <= saved <= INT64_MAX -> 0 <= now <= INT64_MAX ->
  let kept := take (Z.to_nat n) (closed_of l) in
  parse_history (history_document l saved now) n = Done (map stored kept, greatest 0 (map stored kept)).
Proof.
  intros Hl Hs Hnow kept. destruct (history_ok l saved now Hl Hs Hnow) as [Hf Hp]. unfold parse_history.
  rewrite RuleFeed.until_nul_all by exact Hp. unfold history_document at 1. rewrite parse_fields_line by (apply history_height || exact Hf).
  set (root := object_value (history_fields l saved now)).
  assert (Hv : get (Some root) (str "version") = Some (int_value CH_TRAFFIC_HISTORY_VERSION)) by (unfold get, root; rewrite field_get; reflexivity).
  assert (Hc : get (Some root) (str "closed") = Some (CH_JSON_ARRAY (map (fun e => object_value (connection_fields e now)) (closed_of l))))
    by (unfold get, root; rewrite field_get; reflexivity).
  rewrite Hv, Hc. cbn [root object_value ch_json_value_type ch_json_int64_value int_value CH_TRAFFIC_HISTORY_VERSION number_is_integer number_integer].
  rewrite firstn_map. apply entries_load. apply Forall_take, Hl.
Qed.

(** ** Facts: writing the file *)

Lemma make_directories_files mkdir d l :
  let '(trace, final, _) := make_directories mkdir d l in
  Forall (fun d' => files d' = files d) trace /\ files final = files d.
Proof.
  revert d. induction l as [|path l IH]; intros d; cbn [make_directories]; [split; [constructor|reflexivity]|].
  destruct (mkdir path); [split; [constructor|reflexivity]|]. cbv zeta.
  specialize (IH (mk_disk (files d) ({[path]} ∪ directories d))). cbn [files] in IH.
  destruct (make_directories mkdir _ l) as [[trace final] r]. destruct IH as [Ht Hf]. split; [constructor; [reflexivity|exact Ht]|exact Hf].
Qed.

Lemma mkdir_all_files mkdir d directory :
  let '(trace, final, _) := traffic_mkdir_all mkdir d directory in
  Forall (fun d' => files d' = files d) trace /\ files final = files d.
Proof. unfold traffic_mkdir_all. case_if; [split; [constructor|reflexivity]|apply make_directories_files]. Qed.

(** All files but the temporary ones of this path are as they were. *)
Definition same_files (path : bytes) (d d' : disk) : Prop :=
  forall q, is_prefix (path ++ str ".traffic-") q = false -> files d' !! q = files d !! q.

Lemma own_path_differs path : is_prefix (path ++ str ".traffic-") path = false.
Proof.
  destruct (is_prefix (path ++ str ".traffic-") path) eqn:E; [|reflexivity]. apply is_prefix_spec in E as [rest E].
  apply (f_equal (@length Z)) in E. rewrite !length_app in E. cbn in E. lia.
Qed.

Lemma temporary_prefix path letters : is_prefix (path ++ str ".traffic-") (path ++ str ".traffic-" ++ letters) = true.
Proof. apply is_prefix_spec. exists letters. rewrite <- app_assoc. reflexivity. Qed.

Lemma same_with path d d' letters content :
  same_files path d d' -> same_files path d (with_file d' (path ++ str ".traffic-" ++ letters) content).
Proof.
  intros Hs q Hq. cbn [files with_file]. rewrite lookup_insert_ne; [apply Hs, Hq|]. intros <-.
  rewrite temporary_prefix in Hq. discriminate.
Qed.

Lemma same_without path d d' letters :
  same_files path d d' -> same_files path d (without_file d' (path ++ str ".traffic-" ++ letters)).
Proof.
  intros Hs q Hq. cbn [files without_file]. rewrite lookup_delete_ne; [apply Hs, Hq|]. intros <-.
  rewrite temporary_prefix in Hq. discriminate.
Qed.

(** The outcome of a write: before its last disk nothing has changed, and the
    last disk has the document when the write succeeds. *)
Definition written (path document : bytes) (d : disk) (trace : list disk) (r : result unit) : Prop :=
  r <> Fault /\
  match r with
  | Done _ => exists before final, trace = before ++ [final] /\ Forall (same_files path d) before /\
      files final !! path = Some document /\
      forall q, q <> path -> is_prefix (path ++ str ".traffic-") q = false -> files final !! q = files d !! q
  | _ => Forall (same_files path d) trace
  end.

Lemma write_atomic_written io d path document :
  let '(trace, r) := traffic_write_atomic io d path document in written path document d trace r.
Proof.
  unfold traffic_write_atomic. pose proof (mkdir_all_files (hio_mkdir io) d (directory_of path)) as Hm.
  assert (Hnf : snd (traffic_mkdir_all (hio_mkdir io) d (directory_of path)) <> Fault).
  { unfold traffic_mkdir_all. case_if; [discriminate|]. generalize (parents (directory_of path)) d.
    intros l. induction l as [|x l IH]; intros d0; cbn [make_directories]; [discriminate|].
    destruct (hio_mkdir io x); [discriminate|]. cbv zeta. specialize (IH (mk_disk (files d0) ({[x]} ∪ directories d0))).
    destruct (make_directories _ _ l) as [[? ?] ?]. exact IH. }
  destruct (traffic_mkdir_all _ d _) as [[made d1] r]. destruct Hm as [Hmade Hd1]. cbn [snd] in Hnf.
  assert (Hmade' : Forall (same_files path d) made).
  { eapply List.Forall_impl; [|exact Hmade]. intros d' E q _. rewrite E. reflexivity. }
  assert (Hsame1 : same_files path d d1) by (intros q _; rewrite Hd1; reflexivity).
  destruct r as [[]|e|]; [|split; [discriminate|exact Hmade']|congruence]. cbv zeta.
  destruct (hio_create io) as [m|].
  { split; [discriminate|]. apply Forall_app. split; [exact Hmade'|]. constructor; [|constructor]. apply same_without, Hsame1. }
  set (temporary := path ++ str ".traffic-" ++ hio_temporary io). set (created := with_file d1 temporary []).
  assert (Hc : same_files path d created) by (apply same_with, Hsame1).
  assert (Hr : same_files path d (without_file created temporary)) by (apply same_without, Hc).
  destruct (hio_chmod io) as [m|].
  { split; [discriminate|]. apply Forall_app. split; [exact Hmade'|]. constructor; [exact Hc|]. constructor; [exact Hr|constructor]. }
  destruct (write_loop (hio_writes io) (lenZ document) 0) as [states error].
  set (trace := made ++ created :: map _ states).
  assert (Ht : Forall (same_files path d) trace).
  { apply Forall_app. split; [exact Hmade'|]. constructor; [exact Hc|]. apply List.Forall_map, list.Forall_forall.
    intros n _. apply same_with, Hsame1. }
  assert (Hfail : forall m, written path document d (trace ++ [without_file created temporary]) (fail CH_ERROR_IO m)).
  { intros m. split; [discriminate|]. apply Forall_app. split; [exact Ht|]. constructor; [exact Hr|constructor]. }
  destruct error; [apply Hfail|]. destruct (hio_sync io); [apply Hfail|]. destruct (hio_close io); [apply Hfail|].
  destruct (hio_rename io); [apply Hfail|]. split; [discriminate|]. exists trace, (with_file (without_file created temporary) path document).
  split_and!; [reflexivity|exact Ht|cbn; apply lookup_insert_eq|]. intros q Hq Hp. cbn [files with_file].
  rewrite lookup_insert_ne by congruence. apply Hr, Hp.
Qed.

(** *** Flushing and configuring *)

Lemma prune_closed_list n cut l :
  Forall (fun e => active e = false) l -> lenZ l <= n -> prune_loop n cut 0 l = List.filter (fresh cut) l.
Proof.
  intros Hl. assert (Hgen : forall closed, closed + lenZ l <= n -> prune_loop n cut closed l = List.filter (fresh cut) l).
  { induction Hl as [|e es He _ IH]; intros closed Hn; [reflexivity|]. rewrite lenZ_cons in Hn. cbn [prune_loop List.filter]. rewrite He.
    pose proof (lenZ_nonneg es). replace (closed <? n) with true by lia. cbn [andb]. case_if; [f_equal|]; apply IH; lia. }
  intros Hn. apply Hgen. lia.
Qed.

Lemma traffic_settings_limit {D : Type} `{LongDouble} (config : option (Config.ch_config (D := D))) cache home cwd on n age path :
  traffic_settings config cache home cwd = Done (on, n, age, path) -> 0 < n <= CH_TRAFFIC_MAX_LIMIT.
Proof.
  unfold traffic_settings, CH_TRAFFIC_MAX_LIMIT. destruct config as [config|]; [|intros E; simplify_eq; vm_compute; split; congruence].
  destruct (Config.toml_table_in _ _) as [traffic|]; [|intros E; simplify_eq; vm_compute; split; congruence].
  cbv zeta. intros E. apply bind_Done_inv in E as (on' & _ & E). apply bind_Done_inv in E as (n' & Hn & E).
  destruct (n' >? 4096) eqn:Hlim; [discriminate|]. apply bind_Done_inv in E as (age' & _ & E).
  apply bind_Done_inv in E as (path' & _ & E). simplify_eq.
  enough (0 < n) by lia. destruct (Config.toml_key_exists traffic (str "history_limit")); [|simplify_eq; reflexivity].
  apply bind_Done_inv in Hn as (c & _ & Hc). simplify_eq. case_if; unfold CH_CONFIG_DEFAULT_TRAFFIC_HISTORY_LIMIT; lia.
Qed.

Lemma stored_closed l : Forall (fun e => active e = false) (map stored l).
Proof. apply List.Forall_map, list.Forall_forall. intros e _. reflexivity. Qed.

Lemma greatest_bound l last : last <= greatest last l /\ Forall (fun e => flow_id e <= greatest last l) l.
Proof.
  revert last. induction l as [|e l IH]; intros last; [split; [cbn; lia|constructor]|]. unfold greatest in *. cbn [fold_left].
  destruct (IH (if flow_id e >? last then flow_id e else last)) as [Hm1 Hm2]. split; [revert Hm1; case_if; lia|]. constructor; [|exact Hm2]. revert Hm1; case_if; lia.
Qed.

Lemma flush_text clock s text :
  take_text (history_text (entries s) (clock 1%nat) (clock 2%nat)) (str "encode traffic history") = Done text ->
  text = history_document (entries s) (clock 1%nat) (clock 2%nat).
Proof.
  intros Ht. destruct (take_text_spec grow _ _ (str "encode traffic history") (history_writes (entries s) (clock 1%nat) (clock 2%nat))) as [[E|[e E]] _];
    congruence.
Qed.

Lemma after_all_snoc d before final : after_all d (before ++ [final]) = final.
Proof. unfold after_all. rewrite last_snoc. reflexivity. Qed.

(** What a flush of an enabled store with a path does. *)
Lemma flush_outcome clock io d s trace s1 r :
  enabled (settings s) = true -> history_path (settings s) <> [] ->
  ch_traffic_store_flush clock io d s = (trace, s1, r) ->
  entries s1 = entries (traffic_prune_locked s (clock 0%nat)) /\
  ((trace = [] /\ exists e, r = Raise e) \/
   (written (history_path (settings s)) (history_document (entries s1) (clock 1%nat) (clock 2%nat)) d trace r /\
    persist_error s1 = match r with Raise (mk_error _ m) => m | _ => [] end)).
Proof.
  intros He Hp. unfold ch_traffic_store_flush, flush_locked. cbn [settings traffic_prune_locked with_entries]. rewrite He.
  destruct (beq (history_path (settings s)) []) eqn:Eb; [apply beq_true in Eb; contradiction|]. cbn [negb orb]. cbv zeta.
  pose proof (flush_text clock (traffic_prune_locked s (clock 0%nat))) as Ht.
  destruct (take_text_spec grow _ _ (str "encode traffic history")
    (history_writes (entries (traffic_prune_locked s (clock 0%nat))) (clock 1%nat) (clock 2%nat))) as [Hd _].
  destruct (take_text _ _) as [text|e|].
  - specialize (Ht text eq_refl). pose proof (write_atomic_written io d (history_path (settings s)) text) as Hw.
    destruct (traffic_write_atomic io d (history_path (settings s)) text) as [trace' r']. intros E. injection E as <- <- <-.
    cbn [entries traffic_set_persist_error_locked]. split; [reflexivity|]. right. rewrite <- Ht. split; [exact Hw|].
    destruct r' as [|[? ?]|]; reflexivity.
  - intros E. injection E as <- <- <-. split; [reflexivity|]. left. eauto.
  - destruct Hd as [Hd|[e Hd]]; discriminate.
Qed.

(** *** Properties *)

(** The history file is replaced atomically.  When a flush of an enabled
    store with a path ends, whatever the system calls report and at whichever
    moment it is interrupted, the file holds what it held before, or (only at
    the end of a flush that succeeds) the text of all closed connections that
    the store keeps; no other file changes but the temporary one, and a failure
    of the write is what the store reports next. *)
Theorem history_flush_atomic clock io d s trace s1 r :
  enabled (settings s) = true -> history_path (settings s) <> [] ->
  ch_traffic_store_flush clock io d s = (trace, s1, r) ->
  let path := history_path (settings s) in
  entries s1 = entries (traffic_prune_locked s (clock 0%nat)) /\
  (r = Done tt -> exists before final, trace = before ++ [final] /\ Forall (same_files path d) before /\
     files final !! path = Some (history_document (entries s1) (clock 1%nat) (clock 2%nat)) /\ persist_error s1 = []) /\
  (r <> Done tt -> Forall (same_files path d) trace /\ files (after_all d trace) !! path = files d !! path) /\
  (forall e, r = Raise e -> trace <> [] -> persist_error s1 = message e).
Proof.
  intros He Hp Hf. destruct (flush_outcome clock io d s trace s1 r He Hp Hf) as [Hent Hcase]. cbv zeta. split; [exact Hent|].
  assert (Hlast : forall tr, Forall (same_files (history_path (settings s)) d) tr ->
    files (after_all d tr) !! history_path (settings s) = files d !! history_path (settings s)).
  { intros tr Htr. destruct tr as [|x tr] using rev_ind; [reflexivity|]. rewrite after_all_snoc. apply Forall_app in Htr as [_ Hx].
    inversion_clear Hx as [|? ? Hs _]. apply Hs, own_path_differs. }
  destruct Hcase as [(-> & e & ->)|[[Hnf Hw] Hpe]].
  - split_and!; [discriminate| |congruence]. intros _. split; [constructor|reflexivity].
  - destruct r as [[]|e|]; [| |congruence]; split_and!; try discriminate.
    + intros _. destruct Hw as (before & final & -> & Hb & Hfile & _). eauto 10.
    + congruence.
    + intros _. split; [exact Hw|apply Hlast, Hw].
    + intros e' E _. injection E as <-. destruct e. exact Hpe.
Qed.

(** Closing a connection leaves, at every moment, the old history or the one
    with the closed connections of the store. *)
Theorem close_persists clock copied io d s id reason trace s1 :
  enabled (settings s) = true -> history_path (settings s) <> [] -> id <> 0 ->
  ch_traffic_close clock copied io d s id reason = (trace, s1) ->
  let path := history_path (settings s) in
  entries s1 = entries (traffic_prune_locked (close_locked grow clock copied s id reason) (clock 2%nat)) /\
  Forall (fun d' => files d' !! path = files d !! path \/
                    files d' !! path = Some (history_document (entries s1) (clock 3%nat) (clock 4%nat))) trace.
Proof.
  intros He Hp Hid. unfold ch_traffic_close. replace (id =? 0) with false by lia.
  destruct (ch_traffic_store_flush _ io d _) as [[trace' s'] r] eqn:E. intros [= <- <-]. cbv zeta.
  assert (Hset : settings (close_locked grow clock copied s id reason) = settings s).
  { unfold close_locked, update_flow. destruct (id =? 0); [reflexivity|]. destruct (at_flow _ _ _). reflexivity. }
  apply flush_outcome in E; rewrite ?Hset; [|assumption..]. rewrite Hset in E. destruct E as [Hent [(-> & _)|[[_ Hw] _]]]; (split; [exact Hent|]); [constructor|].
  assert (Hsame : forall l, Forall (same_files (history_path (settings s)) d) l -> Forall (fun d' => files d' !! history_path (settings s) = files d !! history_path (settings s) \/
    files d' !! history_path (settings s) = Some (history_document (entries s') (clock 3%nat) (clock 4%nat))) l).
  { intros l. apply List.Forall_impl. intros d' Hd'. left. apply Hd', own_path_differs. }
  destruct r as [[]|e|]; [|apply Hsame, Hw..]. destruct Hw as (before & final & -> & Hb & Hfile & _).
  apply Forall_app. split; [apply Hsame, Hb|]. constructor; [right; exact Hfile|constructor].
Qed.

(** Whether a connection is within an age: it ended less than [age] before
    [now]; there is no limit without an age, or before [age] itself. *)
Definition young (age now : Z) (e : ch_traffic_entry) : bool :=
  (age <=? 0) || (now <=? age) || (end_ns e =? 0) || (now - age <=? end_ns e).

Lemma fresh_young settings now e : fresh (cutoff settings now) e = young (history_max_age_ns settings) now e.
Proof.
  unfold fresh, cutoff, young. destruct ((history_max_age_ns settings >? 0) && (now >? history_max_age_ns settings)) eqn:E; lia.
Qed.

(** C32: The history survives a restart.  After a flush that succeeds, a new
    store that is configured with the same path, the limit [n] and the age [age]
    reads the first [n] closed connections of the file back and keeps those of
    them that ended within the age, in order, with their texts, times, totals
    and coordinates (rates are not kept); and the identifiers of new
    connections start above those of the history.  The closed connections have
    C strings, times and totals that fit [int64_t] and finite coordinates, the
    file is at most 32 MiB long, which is the most that is read, and it is read
    without an error of the system. *)
Theorem traffic_history_survives {D : Type} `{LongDouble} clock io d s trace s1 m s0 clock' io' reader cache home cwd
    (config : option (Config.ch_config (D := D))) n age :
  enabled (settings s) = true -> history_path (settings s) <> [] ->
  ch_traffic_store_flush clock io d s = (trace, s1, Done tt) ->
  Forall entry_ok (closed_of (entries s1)) ->
  INT64_MIN <= clock 1%nat <= INT64_MAX -> 0 <= clock 2%nat <= INT64_MAX ->
  lenZ (history_document (entries s1) (clock 1%nat) (clock 2%nat)) <= CH_TRAFFIC_MAX_FILE_BYTES ->
  ch_traffic_store_create None m = Done s0 ->
  traffic_settings config cache home cwd = Done (true, n, age, history_path (settings s)) ->
  exists s2,
    ch_traffic_store_configure clock' io' (mk_read_io None None None) reader cache home cwd (after_all d trace) s0 config
    = ([], s2, Done tt) /\
    entries s2 = List.filter (young age (clock' 4%nat)) (map stored (take (Z.to_nat n) (closed_of (entries s1)))) /\
    Forall (fun e => flow_id e <= sequence s2) (entries s2) /\ persist_error s2 = [].
Proof.
  intros He Hp Hf Hok Hc1 Hc2 Hlen Hs0 Hset. pose proof (traffic_settings_limit _ _ _ _ _ _ _ _ Hset) as Hn.
  destruct (flush_outcome clock io d s trace s1 _ He Hp Hf) as [_ [(_ & e & E)|[[_ Hw] _]]]; [discriminate|].
  destruct Hw as (before & final & -> & _ & Hfile & _). rewrite after_all_snoc.
  set (path := history_path (settings s)) in *. set (doc := history_document _ _ _) in *. set (kept := take (Z.to_nat n) (closed_of (entries s1))).
  unfold ch_traffic_store_create in Hs0. cbv zeta in Hs0. destruct (_ >? CH_TRAFFIC_MAX_LIMIT); [discriminate|]. cbn in Hs0. injection Hs0 as <-.
  unfold ch_traffic_store_configure. rewrite Hset. unfold ch_traffic_store_flush, flush_locked. cbn [settings traffic_prune_locked with_entries enabled history_path negb orb]. rewrite beq_refl.
  unfold configure_locked. cbn [settings queue traffic_prune_locked with_entries history_path history_loaded].
  assert (Hne : beq [] path = false) by (apply beq_false; congruence). assert (Hne' : beq path [] = false) by (apply beq_false; congruence).
  rewrite Hne, Hne'. cbn [negb orb andb]. unfold load_when.
  assert (Hload : traffic_history_load (mk_read_io None None None) final path n = Done (map stored kept, greatest 0 (map stored kept))).
  { unfold traffic_history_load, traffic_read_file. rewrite Hfile. cbn [io_open io_seek io_read]. replace (lenZ doc >? CH_TRAFFIC_MAX_FILE_BYTES) with false by lia.
    cbn [mbind outcome_bind]. apply history_parses; assumption. }
  cbn [after_all list.last default]. rewrite Hload. eexists. split; [reflexivity|].
  unfold history_loaded_locked. cbn [settings with_settings with_queue with_entries capacity entries sequence traffic_prune_locked prune_loop].
  change (lenZ (@nil ch_traffic_entry)) with 0.
  destruct (greatest_bound (map stored kept) 0) as [Hg0 Hg].
  assert (Hkept : lenZ (map stored kept) <= n). { rewrite map_lenZ. unfold lenZ, kept. rewrite length_take. lia. }
  assert (Htake : take (Z.to_nat (CH_TRAFFIC_MAX_LIMIT + CH_TRAFFIC_ACTIVE_RESERVE - 0)) (map stored kept) = map stored kept).
  { apply take_ge. unfold lenZ, CH_TRAFFIC_MAX_LIMIT, CH_TRAFFIC_ACTIVE_RESERVE in *. lia. }
  rewrite Htake. cbn [app].
  assert (Hprune : forall cut, prune_loop n cut 0 (map stored kept) = List.filter (fresh cut) (map stored kept)).
  { intros cut. apply prune_closed_list; [apply stored_closed|exact Hkept]. }
  destruct (greatest 0 (map stored kept) >? 0) eqn:Eg;
    unfold traffic_prune_locked;
    cbn [entries settings sequence persist_error traffic_set_persist_error_locked with_sequence with_entries with_settings with_queue limit];
    rewrite Hprune;
    (split_and!; [apply List.filter_ext; intros x; apply fresh_young| |reflexivity]).
  all: apply list.Forall_forall; intros x Hx; apply list_elem_of_In, List.filter_In in Hx as [Hx _]; rewrite List.Forall_forall in Hg; specialize (Hg x Hx); lia.
Qed.
End Connection.

(** ** Witnesses *)

Section Witnesses.
Import PlainLongDouble.
#[local] Existing Instance Temporary.plain_compare.
#[local] Existing Instance plain_rate.
#[local] Existing Instance FeedCache.plain_size.

Definition w_path : bytes := str "/var/lib/clambhook/history.json".

(** A store with that path, one closed and one active connection. *)
Definition w_saved : ch_traffic_store :=
  run w_grow w_created
    [Configure (Some false) w_path true 10 0 0; Open w_clock true (w_info "old.example"); Open w_clock true (w_info "cdn.example");
     Count 1 100 7 1500000000; Close w_clock true 1 (Some (str "client closed"))].

Definition w_hio : history_io :=
  mk_history_io (fun _ => None) None None (str "a1B2c3") [Accepted 10; Interrupted] None None None.

Abbreviation w_flush := (ch_traffic_store_flush w_grow w_clock w_hio (mk_disk ∅ ∅) w_saved).
Abbreviation w_flushed := (snd (fst w_flush)).

Lemma triple {A B C} (p : A * B * C) c : snd p = c -> p = (fst (fst p), snd (fst p), c).
Proof. destruct p as [[? ?] ?]. cbn. intros ->. reflexivity. Defined.

Lemma w_enabled : enabled (settings w_saved) = true.
Proof. vm_compute. reflexivity. Qed.

Lemma w_has_path : history_path (settings w_saved) <> [].
Proof. vm_compute. discriminate. Qed.

Lemma w_flush_done : w_flush = (fst (fst w_flush), w_flushed, Done tt).
Proof. apply triple. vm_compute. reflexivity. Qed.

(** The conditions of [entry_ok], computed. *)
Definition entry_okb (e : ch_traffic_entry) : bool :=
  forallb (forallb (fun c => (0 <? c) && (c <? 256))) (entry_texts e) && forallb (fun n => (0 <=? n) && (n <=? INT64_MAX)) (entry_numbers e) &&
  ((INT64_MIN <=? i_decision_ns (info e)) && (i_decision_ns (info e) <=? INT64_MAX)) && forallb isfinite (entry_doubles e).

Lemma entry_okb_ok e : entry_okb e = true -> entry_ok e.
Proof.
  unfold entry_okb. rewrite !andb_true_iff. intros [[[Ht Hn] Hd] Hf]. constructor; [| |lia|].
  - apply list.Forall_forall. intros s Hs. rewrite forallb_forall in Ht. apply list_elem_of_In in Hs. apply literal_ok, (Ht s Hs).
  - apply list.Forall_forall. intros n Hin. rewrite forallb_forall in Hn. apply list_elem_of_In in Hin. specialize (Hn n Hin). lia.
  - apply list.Forall_forall. intros x Hx. rewrite forallb_forall in Hf. apply list_elem_of_In in Hx. apply (Hf x Hx).
Qed.

Lemma w_closed_ok : Forall entry_ok (closed_of (entries w_flushed)).
Proof.
  assert (Hb : forallb entry_okb (closed_of (entries w_flushed)) = true) by (vm_compute; reflexivity).
  apply List.Forall_forall. intros e He. rewrite forallb_forall in Hb. apply entry_okb_ok, (Hb e He).
Qed.

Definition w_table : Config.toml_table unit :=
  Config.mk_table [] [] [(str "traffic", Config.mk_table
    [(str "history_limit", Validity.w_int 3); (str "history_path", Validity.w_str (str "/var/lib/./clambhook/history.json"))] [] [])].

Definition w_config : Config.ch_config (D := unit) := Config.mk_config w_table None [].

Lemma traffic_history_survives_witness :
  exists s2,
    ch_traffic_store_configure w_grow w_clock w_hio (mk_read_io None None None) (Some false) None None (inr [])
      (after_all (mk_disk ∅ ∅) (fst (fst w_flush))) w_created (Some w_config) = ([], s2, Done tt) /\
    entries s2 = List.filter (young CH_TRAFFIC_DEFAULT_MAX_AGE_NS (w_clock 4)) (map stored (take (Z.to_nat 3) (closed_of (entries w_flushed)))) /\
    Forall (fun e => flow_id e <= sequence s2) (entries s2) /\ persist_error s2 = [].
Proof.
  refine (traffic_history_survives w_grow w_clock w_hio (mk_disk ∅ ∅) w_saved (fst (fst w_flush)) w_flushed 2 w_created w_clock w_hio
            (Some false) None None (inr []) (Some w_config) 3 CH_TRAFFIC_DEFAULT_MAX_AGE_NS
            w_enabled w_has_path w_flush_done w_closed_ok _ _ _ w_created_eq _).
  - vm_compute. split; discriminate.
  - vm_compute. split; discriminate.
  - vm_compute. discriminate.
  - vm_compute. reflexivity.
Defined.

(** The file of that store, and what a new store makes of it. *)
Example w_reloaded :
  map (fun e => (conn_id e, rx_total e, tx_total e, active e, flow_id e))
    (entries (snd (fst (ch_traffic_store_configure w_grow w_clock w_hio (mk_read_io None None None) (Some false) None None (inr [])
      (after_all (mk_disk ∅ ∅) (fst (fst w_flush))) w_created (Some w_config)))))
  = [(str "native-1", 100, 7, false, 1)].
Proof. vm_compute. reflexivity. Qed.

End Witnesses.
End TrafficHistory.
