(* ===== verification/TrafficReport.v ===== *)
(** * Traffic reports: [native/src/traffic.c], the monitor

    The filter of a request, the snapshot for the traffic monitor (summary,
    a page of connections, profiles, quick filters, rule hits, blocks and
    suggestions for the rules) and the list of decisions.

    Allocation is taken to succeed but for the JSON buffer. *)

From S2P Require Import Prelude CLib Inet Json JsonText TempRules Config ConfigValid FeedCache Traffic TrafficHistory.

Module TrafficReport.
Import Json JsonText Traffic TrafficHistory.

Definition CH_TRAFFIC_QUERY_LIMIT : Z := 1000.

(** ** The filter *)

Record ch_traffic_filter : Type := mk_filter {
  f_state : bytes;
  f_action : bytes;
  f_profile : bytes;
  f_rule : bytes;
  f_port : bytes;
  f_network : bytes;
  f_domain : bytes;
  f_query : bytes;
  f_limit : Z;
  f_offset : Z
}.

Fixpoint contains_loop (text needle : bytes) : bool :=
  match text with
  | [] => false
  | _ :: rest => is_prefix (map tolower needle) (map tolower text) || contains_loop rest needle
  end.

Definition traffic_contains_fold (text needle : bytes) : bool := beq needle [] || contains_loop text needle.

Definition traffic_action_family (action : bytes) : bytes :=
  if strcaseeq action (str "block") || strcaseeq action (str "reject") then str "block"
  else if strcaseeq action (str "direct") then str "direct"
  else str "proxy".

Section Report.
Context `{DoubleCompare, !DoubleRate, !DoubleSize} (grow : Z -> bool).

Definition traffic_filter_string (root : ch_json_value) (key : String.string) : bytes :=
  default [] (ch_json_string_value (get (Some root) (str key))).

Definition double_eqb (a b : double) : bool := negb (double_ltb a b) && negb (double_ltb b a).

(** Whether a present number is no size; the conversion to [size_t] is
    undefined out of range. *)
Definition not_a_size (present : bool) (d : double) : result bool :=
  if negb present then Done false
  else if double_ltb d (double_of_int64 0) || double_ltb (double_of_uint64 SIZE_MAX) d then Done true
  else match double_to_size d with Some n => Done (negb (double_eqb d (double_of_uint64 n))) | None => Fault end.

Definition to_size (d : double) : result Z := match double_to_size d with Some n => Done n | None => Fault end.

Definition traffic_filter_parse (json : option bytes) : result ch_traffic_filter :=
  let json := match json with None | Some [] => str "{}" | Some json => json end in
  root ← ch_json_parse (Some json);
  match root with
  | CH_JSON_OBJECT _ =>
      let limit_value := get (Some root) (str "limit") in
      let offset_value := get (Some root) (str "offset") in
      let limit := ch_json_number_value limit_value (double_of_int64 200) in
      let offset := ch_json_number_value offset_value (double_of_int64 0) in
      bad ← (bad_limit ← not_a_size (bool_decide (is_Some limit_value)) limit;
             if (bad_limit : bool) then Done true else not_a_size (bool_decide (is_Some offset_value)) offset);
      if (bad : bool) then fail CH_ERROR_INVALID_ARGUMENT (str "traffic limit and offset must be non-negative integers")
      else
        n ← (if bool_decide (is_Some limit_value) then
               if double_ltb (double_of_int64 CH_TRAFFIC_QUERY_LIMIT) limit then Done CH_TRAFFIC_QUERY_LIMIT else to_size limit
             else Done 200);
        skip ← (if bool_decide (is_Some offset_value) then to_size offset else Done 0);
        let text := traffic_filter_string root in
        Done (mk_filter (text "state") (text "action") (text "profile") (text "rule") (text "port") (text "network")
                (text "domain") (text "query") n skip)
  | _ => fail CH_ERROR_INVALID_ARGUMENT (str "traffic filter must be a JSON object")
  end%string.

Definition traffic_entry_matches (f : ch_traffic_filter) (e : ch_traffic_entry) : bool :=
  let i := info e in
  (beq (f_state f) [] || strcaseeq (f_state f) (str "all") || strcaseeq (f_state f) (state_name e)) &&
  (beq (f_action f) [] || strcaseeq (f_action f) (traffic_action_family (i_rule_action i))
   || strcaseeq (f_action f) (i_rule_action i)) &&
  (beq (f_profile f) [] || beq (f_profile f) (i_profile i)) &&
  (beq (f_rule f) [] || beq (f_rule f) (i_rule_name i)) &&
  (beq (f_port f) [] || beq (f_port f) (i_target_port i)) &&
  (beq (f_network f) [] || strcaseeq (f_network f) (i_network i)) &&
  (beq (f_domain f) [] || traffic_contains_fold (i_target_host i) (f_domain f)) &&
  (beq (f_query f) [] || traffic_contains_fold (i_target i) (f_query f) || traffic_contains_fold (i_target_host i) (f_query f)
   || traffic_contains_fold (i_rule_name i) (f_query f) || traffic_contains_fold (i_chain_name i) (f_query f)).

(** ** The parts of the snapshot *)

(** The first loop: active connections, rates, totals and matches. *)
Record summary : Type := mk_summary {
  sum_active : Z;
  sum_rx_bps : double;
  sum_tx_bps : double;
  sum_rx : Z;
  sum_tx : Z;
  sum_matched : Z
}.

Definition summarize (f : ch_traffic_filter) (l : list ch_traffic_entry) : summary :=
  fold_left (fun t e =>
    mk_summary (if active e then sum_active t + 1 else sum_active t)
      (if active e then double_add (sum_rx_bps t) (rx_bps e) else sum_rx_bps t)
      (if active e then double_add (sum_tx_bps t) (tx_bps e) else sum_tx_bps t)
      (u64 (sum_rx t + rx_total e)) (u64 (sum_tx t + tx_total e))
      (if traffic_entry_matches f e then sum_matched t + 1 else sum_matched t))
    l (mk_summary 0 (double_of_int64 0) (double_of_int64 0) 0 0 0).

(** The second loop: the entries that are written, from [skipped] matches
    passed over and [emitted] written on. *)
Fixpoint page_loop (f : ch_traffic_filter) (skipped emitted : Z) (l : list ch_traffic_entry) : list ch_traffic_entry :=
  match l with
  | [] => []
  | e :: l' =>
      if negb (traffic_entry_matches f e) then page_loop f skipped emitted l'
      else if skipped <? f_offset f then page_loop f (skipped + 1) emitted l'
      else if emitted >=? f_limit f then []
      else e :: page_loop f skipped (emitted + 1) l'
  end.

Section Config.
Context {D : Type}.

Definition failing : json_op := fun buffer => (buffer, false).

Definition profile_name (i : Config.toml_item D) : option bytes := table ← Config.table_at i; Config.toml_string_in table (str "name").

(** A profile without a name makes the report fail. *)
Definition traffic_append_profiles (config : option (Config.ch_config (D := D))) (active_profile : bytes) : json_op :=
  all_of [
    append grow (quoted_key "profile_context" ++ [123] ++ quoted_key "active"); append_text grow active_profile;
    append grow ([44] ++ quoted_key "profiles" ++ [91]);
    match config with
    | None => append_text grow active_profile
    | Some config =>
        append_list grow (fun i => match profile_name i with Some name => append_text grow name | None => failing end) true
          (Config.items (Config.toml_array_in (Config.root config) (str "profile")))
    end;
    append grow [93; 125]].

Definition count_if (p : ch_traffic_entry -> bool) (l : list ch_traffic_entry) : Z := lenZ (List.filter p l).

Definition in_family (family : bytes) (e : ch_traffic_entry) : bool := beq (traffic_action_family (i_rule_action (info e))) family.

Definition quick_filter (key label : String.string) (n : Z) : bytes :=
  [123] ++ quoted_key "key" ++ print_string (str key) ++ [44] ++ quoted_key "label" ++ print_string (str label) ++ [44]
  ++ quoted_key "count" ++ dec n ++ [125].

Definition traffic_append_quick_filters (l : list ch_traffic_entry) : json_op :=
  let blocked := count_if (in_family (str "block")) l in
  let direct := count_if (in_family (str "direct")) l in
  append grow (quoted_key "quick_filters" ++ [91] ++ quick_filter "all" "All" (lenZ l) ++ [44]
    ++ quick_filter "active" "Active" (count_if active l) ++ [44]
    ++ quick_filter "proxy" "Proxy" (lenZ l - blocked - direct) ++ [44]
    ++ quick_filter "direct" "Direct" direct ++ [44] ++ quick_filter "block" "Block" blocked ++ [93]).

(** *** Rule hits *)

Definition same_rule (a b : ch_traffic_entry) : bool :=
  beq (i_profile (info a)) (i_profile (info b)) && beq (i_rule_name (info a)) (i_rule_name (info b)) &&
  beq (traffic_action_family (i_rule_action (info a))) (traffic_action_family (i_rule_action (info b))).

Record rule_hit : Type := mk_hit {
  hit_entry : ch_traffic_entry;
  hit_count : Z;
  hit_rx : Z;
  hit_tx : Z;
  hit_last : Z;
  hit_target : bytes
}.

(** The nested loop over the entries from the one that is reported on. *)
Definition rule_total (e : ch_traffic_entry) (l : list ch_traffic_entry) : rule_hit :=
  fold_left (fun h c =>
    if same_rule c e then
      let later := updated_ns c >=? hit_last h in
      mk_hit e (hit_count h + 1) (u64 (hit_rx h + rx_total c)) (u64 (hit_tx h + tx_total c))
        (if later then updated_ns c else hit_last h) (if later then i_target (info c) else hit_target h)
    else h) l (mk_hit e 0 0 0 0 []).

Fixpoint rule_hits (prior l : list ch_traffic_entry) : list rule_hit :=
  match l with
  | [] => []
  | e :: l' =>
      (if existsb (fun c => same_rule c e) prior then [] else [rule_total e l]) ++ rule_hits (prior ++ [e]) l'
  end.

Definition hit_name (e : ch_traffic_entry) : bytes :=
  if beq (i_rule_name (info e)) [] && i_is_default (info e) then str "default" else i_rule_name (info e).

Definition append_hit (h : rule_hit) : json_op :=
  let i := info (hit_entry h) in
  all_of [
    append grow ([123] ++ quoted_key "profile"); append_text grow (i_profile i);
    append grow ([44] ++ quoted_key "rule_name"); append_text grow (hit_name (hit_entry h));
    append grow ([44] ++ quoted_key "action"); append_text grow (traffic_action_family (i_rule_action i));
    append grow ([44] ++ quoted_key "count" ++ dec (hit_count h) ++ [44] ++ quoted_key "last_hit_ts_ns" ++ dec (hit_last h)
                 ++ [44] ++ quoted_key "rx_total" ++ dec (hit_rx h) ++ [44] ++ quoted_key "tx_total" ++ dec (hit_tx h) ++ [44]
                 ++ quoted_key "last_target");
    append_text grow (hit_target h);
    append grow ([44] ++ quoted_key "default" ++ bool_text (i_is_default i) ++ [125])].

Definition traffic_append_rule_hits (l : list ch_traffic_entry) : json_op :=
  all_of [append grow (quoted_key "rule_hits" ++ [91]); append_list grow append_hit true (rule_hits [] l); append grow [93]].

(** *** Blocked connections *)

Definition append_block (e : ch_traffic_entry) : json_op :=
  let i := info e in
  all_of [
    append grow ([123] ++ quoted_key "conn_id"); append_text grow (conn_id e);
    append grow ([44] ++ quoted_key "profile"); append_text grow (i_profile i);
    append grow ([44] ++ quoted_key "rule_name"); append_text grow (i_rule_name i);
    append grow ([44] ++ quoted_key "action"); append_text grow (i_rule_action i);
    append grow ([44] ++ quoted_key "target"); append_text grow (i_target i);
    append grow ([44] ++ quoted_key "target_host"); append_text grow (i_target_host i);
    append grow ([44] ++ quoted_key "target_port"); append_text grow (i_target_port i);
    append grow ([44] ++ quoted_key "network"); append_text grow (i_network i);
    append grow ([44] ++ quoted_key "ts_ns" ++ dec (updated_ns e));
    append grow ([44] ++ quoted_key "close_reason"); append_text grow (close_reason e);
    append grow [125]].

Definition traffic_append_blocks (l : list ch_traffic_entry) : json_op :=
  all_of [append grow (quoted_key "block_decisions" ++ [91]);
          append_list grow append_block true (take 12 (List.filter (in_family (str "block")) l)); append grow [93]].

(** *** Suggestions for the rules *)

Definition traffic_config_string (t : option (Config.toml_table D)) (key : String.string) : bytes :=
  default [] (t ≫= fun t => Config.toml_string_in t (str key)).

Definition matcher_keys : list bytes :=
  [str "rule_sets"; str "domains"; str "domain_suffixes"; str "domain_keywords"; str "cidrs"; str "source_cidrs"; str "ports";
   str "networks"; str "processes"].

Definition traffic_rule_has_matchers (rule : option (Config.toml_table D)) : bool :=
  match rule with
  | None => false
  | Some rule => existsb (fun key => lenZ (Config.items (Config.toml_array_in rule key)) >? 0) matcher_keys
  end.

Definition traffic_rule_was_hit (l : list ch_traffic_entry) (profile name : bytes) : bool :=
  existsb (fun e => (beq profile [] || beq (i_profile (info e)) [] || beq (i_profile (info e)) profile)
                    && beq (i_rule_name (info e)) name) l.

Record suggestion : Type := mk_suggestion {
  sg_kind : bytes;
  sg_operation : bytes;
  sg_message : bytes
}.

Definition suggest (l : list ch_traffic_entry) (profile : bytes) (first : bool) (rule : option (Config.toml_table D)) : option suggestion :=
  if first && negb (traffic_rule_has_matchers rule) then
    Some (mk_suggestion (str "broad_match") (str "move_rule_to_end")
            (str "First rule has no matchers and may shadow every later rule."))
  else if negb (traffic_rule_was_hit l profile (traffic_config_string rule "name")) then
    Some (mk_suggestion (str "unused_in_history") (str "delete_rule")
            (str "No recent traffic-history entries matched this rule."))
  else None.

(** The rules with a suggestion, from the first on. *)
Fixpoint suggestions (l : list ch_traffic_entry) (profile : bytes) (first : bool) (rules : list (Config.toml_item D))
    : list (suggestion * option (Config.toml_table D)) :=
  match rules with
  | [] => []
  | i :: rules' =>
      let rule := Config.table_at i in
      match suggest l profile first rule with Some sg => [(sg, rule)] | None => [] end ++ suggestions l profile false rules'
  end.

Definition append_suggestion (profile : bytes) (p : suggestion * option (Config.toml_table D)) : json_op :=
  let '(sg, rule) := p in
  let name := traffic_config_string rule "name" in
  all_of [
    append grow ([123] ++ quoted_key "kind"); append_text grow (sg_kind sg);
    append grow ([44] ++ quoted_key "profile"); append_text grow profile;
    append grow ([44] ++ quoted_key "rule_name"); append_text grow name;
    append grow ([44] ++ quoted_key "target_rule_name"); append_text grow name;
    append grow ([44] ++ quoted_key "operation"); append_text grow (sg_operation sg);
    append grow ([44] ++ quoted_key "action"); append_text grow (traffic_config_string rule "action");
    append grow ([44] ++ quoted_key "message"); append_text grow (sg_message sg);
    append grow ([44] ++ quoted_key "count" ++ str "0," ++ quoted_key "last_hit_ts_ns" ++ str "0}")].

Definition rules_of (config : option (Config.ch_config (D := D))) (profile : bytes) : list (Config.toml_item D) :=
  match config ≫= fun config => Config.ch_config_profile_named config (Some profile) with
  | Some table => Config.items (Config.toml_array_in table (str "rule"))
  | None => []
  end.

Definition traffic_append_cleanup_suggestions (l : list ch_traffic_entry) (config : option (Config.ch_config (D := D))) (profile : bytes)
    : json_op :=
  all_of [append grow (quoted_key "cleanup_suggestions" ++ [91]);
          append_list grow (append_suggestion profile) true (suggestions l profile true (rules_of config profile));
          append grow [93]].

(** ** The snapshot *)

Definition snapshot_text (s : ch_traffic_store) (config : option (Config.ch_config (D := D))) (active_profile : bytes)
    (f : ch_traffic_filter) (temporary_rules : bytes) (now : Z) : json_op :=
  let l := entries s in
  let t := summarize f l in
  let persisted := enabled (settings s) && negb (beq (history_path (settings s)) []) in
  all_of [
    append grow ([123] ++ quoted_key "updated_ts_ns" ++ dec now ++ [44] ++ quoted_key "summary" ++ [123]
      ++ quoted_key "active_connections" ++ dec (sum_active t) ++ [44] ++ quoted_key "rx_bps" ++ format_3f (sum_rx_bps t) ++ [44]
      ++ quoted_key "tx_bps" ++ format_3f (sum_tx_bps t) ++ [44] ++ quoted_key "rx_total" ++ dec (sum_rx t) ++ [44]
      ++ quoted_key "tx_total" ++ dec (sum_tx t) ++ [44] ++ quoted_key "history_limit" ++ dec (limit (settings s)) ++ [44]
      ++ quoted_key "history_path");
    append_text grow (history_path (settings s));
    append grow ([44] ++ quoted_key "history_persisted" ++ bool_text persisted ++ [44] ++ quoted_key "persist_error");
    append_text grow (persist_error s);
    append grow ([125; 44] ++ quoted_key "connections" ++ [91]);
    append_list grow (fun e => traffic_append_connection grow e now) true (page_loop f 0 0 l);
    append grow ([93; 44] ++ quoted_key "total" ++ dec (sum_matched t) ++ [44] ++ quoted_key "temporary_rules");
    append grow temporary_rules;
    append grow [44];
    traffic_append_profiles config active_profile;
    append grow [44];
    traffic_append_quick_filters l;
    append grow [44];
    traffic_append_rule_hits l;
    append grow [44];
    traffic_append_blocks l;
    append grow [44];
    traffic_append_cleanup_suggestions l config active_profile;
    append grow ([44] ++ quoted_key "rule_suggestions" ++ str "[]," ++ quoted_key "breakdowns" ++ [123] ++ quoted_key "profiles"
      ++ str "[]," ++ quoted_key "chains" ++ str "[]," ++ quoted_key "rules" ++ str "[]," ++ quoted_key "actions" ++ str "[],"
      ++ quoted_key "networks" ++ str "[]}}")].

Definition ch_traffic_snapshot_json (s : ch_traffic_store) (config : option (Config.ch_config (D := D)))
    (active_profile filter_json temporary_rules : option bytes) (now : Z) : ch_traffic_store * result bytes :=
  match traffic_filter_parse filter_json with
  | Done f =>
      let temporary := match temporary_rules with None | Some [] => str "[]" | Some text => text end in
      match ch_json_parse (Some temporary) with
      | Done (CH_JSON_ARRAY _) =>
          let s := traffic_prune_locked s now in
          (s, take_text (snapshot_text s config (default [] active_profile) f temporary now) (str "encode traffic snapshot"))
      | Done _ => (s, fail CH_ERROR_INVALID_ARGUMENT (str "temporary rules must be a JSON array"))
      | Raise e => (s, Raise e)
      | Fault => (s, Fault)
      end
  | Raise e => (s, Raise e)
  | Fault => (s, Fault)
  end.

End Config.

(** ** Decisions *)

Definition decided (e : ch_traffic_entry) : bool := negb (beq (i_rule_action (info e)) []).

Definition decisions_text (l : list ch_traffic_entry) (n now : Z) : json_op :=
  all_of [append grow ([123] ++ quoted_key "updated_ts_ns" ++ dec now ++ [44] ++ quoted_key "decisions" ++ [91]);
          append_list grow (fun e => traffic_append_connection grow e now) true (take (Z.to_nat n) (List.filter decided l));
          append grow [93; 125]].

Definition ch_traffic_decisions_json (s : ch_traffic_store) (request_json : option bytes) (now : Z) : ch_traffic_store * result bytes :=
  match traffic_filter_parse request_json with
  | Done f =>
      let s := traffic_prune_locked s now in
      (s, take_text (decisions_text (entries s) (f_limit f) now) (str "encode traffic decisions"))
  | Raise e => (s, Raise e)
  | Fault => (s, Fault)
  end.

(** ** Facts: the page and the totals *)

Definition matching (f : ch_traffic_filter) (l : list ch_traffic_entry) : list ch_traffic_entry := List.filter (traffic_entry_matches f) l.

Definition sum_of (w : ch_traffic_entry -> Z) (l : list ch_traffic_entry) : Z := foldr (fun e n => w e + n) 0 l.

Lemma page_loop_spec f skipped emitted l :
  page_loop f skipped emitted l = take (Z.to_nat (f_limit f - emitted)) (drop (Z.to_nat (f_offset f - skipped)) (matching f l)).
Proof.
  revert skipped emitted. induction l as [|e l IH]; intros skipped emitted; cbn [page_loop matching List.filter].
  - rewrite drop_nil, take_nil. reflexivity.
  - destruct (traffic_entry_matches f e); cbn [negb]; [|apply IH]. destruct (skipped <? f_offset f) eqn:Es.
    + rewrite IH. replace (Z.to_nat (f_offset f - skipped)) with (S (Z.to_nat (f_offset f - (skipped + 1)))) by lia. reflexivity.
    + replace (Z.to_nat (f_offset f - skipped)) with 0%nat by lia. rewrite drop_0. destruct (emitted >=? f_limit f) eqn:Ee.
      * replace (Z.to_nat (f_limit f - emitted)) with 0%nat by lia. reflexivity.
      * replace (Z.to_nat (f_limit f - emitted)) with (S (Z.to_nat (f_limit f - (emitted + 1)))) by lia. cbn [take]. f_equal.
        rewrite IH. replace (Z.to_nat (f_offset f - skipped)) with 0%nat by lia. reflexivity.
Qed.

Lemma count_if_cons p e l : count_if p (e :: l) = (if p e then 1 else 0) + count_if p l.
Proof. unfold count_if. cbn [List.filter]. destruct (p e); [rewrite lenZ_cons|]; lia. Qed.

Lemma u64_add_l a b : u64 (u64 a + b) = u64 (a + b).
Proof. unfold u64. apply Zplus_mod_idemp_l. Qed.

(** The counters of the first loop. *)
Lemma summarize_spec f l :
  sum_active (summarize f l) = count_if active l /\ sum_matched (summarize f l) = lenZ (matching f l) /\
  sum_rx (summarize f l) = u64 (sum_of rx_total l) /\ sum_tx (summarize f l) = u64 (sum_of tx_total l).
Proof.
  unfold summarize. set (step := fun t e => mk_summary _ _ _ _ _ _).
  assert (Hgen : forall t a b, sum_rx t = u64 a -> sum_tx t = u64 b ->
    let t' := fold_left step l t in
    sum_active t' = sum_active t + count_if active l /\ sum_matched t' = sum_matched t + lenZ (matching f l) /\
    sum_rx t' = u64 (a + sum_of rx_total l) /\ sum_tx t' = u64 (b + sum_of tx_total l)).
  { induction l as [|e l IH]; intros t a b Ha Hb; cbv zeta.
    - cbn [fold_left sum_of foldr]. change (count_if active []) with 0. change (lenZ (matching f [])) with 0.
      rewrite !Z.add_0_r. auto.
    - cbn [fold_left]. destruct (IH (step t e) (a + rx_total e) (b + tx_total e)) as (H1' & H2' & H3' & H4').
      + cbn [step sum_rx]. rewrite Ha. apply u64_add_l.
      + cbn [step sum_tx]. rewrite Hb. apply u64_add_l.
      + rewrite H1', H2', H3', H4', count_if_cons. unfold matching. cbn [List.filter sum_of foldr step sum_active sum_matched].
        split_and!; [destruct (active e); lia| |f_equal; unfold sum_of; lia..].
        destruct (traffic_entry_matches f e); [rewrite lenZ_cons|]; lia. }
  apply (Hgen (mk_summary 0 (double_of_int64 0) (double_of_int64 0) 0 0 0) 0 0); reflexivity.
Qed.

(** ** Facts: rule hits *)

Lemma same_rule_refl e : same_rule e e = true.
Proof. unfold same_rule. rewrite !beq_refl. reflexivity. Qed.

Lemma same_rule_eq a b : same_rule a b = true <->
  i_profile (info a) = i_profile (info b) /\ i_rule_name (info a) = i_rule_name (info b) /\
  traffic_action_family (i_rule_action (info a)) = traffic_action_family (i_rule_action (info b)).
Proof. unfold same_rule. rewrite !andb_true_iff, !beq_true. tauto. Qed.

(** Entries of one rule stand for the same rule. *)
Lemma same_rule_class a b c : same_rule a b = true -> same_rule c a = same_rule c b.
Proof.
  intros E. apply same_rule_eq in E as (E1 & E2 & E3). unfold same_rule. rewrite E1, E2, E3. reflexivity.
Qed.

(** What the nested loop leaves for the rule of an entry. *)
Definition of_rule (e : ch_traffic_entry) (l : list ch_traffic_entry) : list ch_traffic_entry := List.filter (fun c => same_rule c e) l.


Lemma sum_of_app w l l' : sum_of w (l ++ l') = sum_of w l + sum_of w l'.
Proof. unfold sum_of. induction l as [|e l IH]; [reflexivity|]. cbn [app foldr]. lia. Qed.

Lemma rule_total_snoc e l c :
  rule_total e (l ++ [c]) =
  let h := rule_total e l in
  if same_rule c e then
    let later := updated_ns c >=? hit_last h in
    mk_hit e (hit_count h + 1) (u64 (hit_rx h + rx_total c)) (u64 (hit_tx h + tx_total c))
      (if later then updated_ns c else hit_last h) (if later then i_target (info c) else hit_target h)
  else h.
Proof. unfold rule_total. rewrite fold_left_app. reflexivity. Qed.

Lemma rule_total_spec e l : Forall (fun c => 0 <= updated_ns c) l ->
  let h := rule_total e l in
  hit_entry h = e /\ hit_count h = lenZ (of_rule e l) /\
  hit_rx h = u64 (sum_of rx_total (of_rule e l)) /\ hit_tx h = u64 (sum_of tx_total (of_rule e l)) /\
  Forall (fun c => updated_ns c <= hit_last h) (of_rule e l) /\
  (of_rule e l <> [] -> exists c, In c (of_rule e l) /\ updated_ns c = hit_last h /\ i_target (info c) = hit_target h).
Proof.
  cbv zeta. induction l as [|c l IH] using rev_ind; intros Hpos; [cbn; split_and!; try reflexivity; [constructor|congruence]|].
  apply Forall_app in Hpos as [Hl Hc]. apply Forall_inv in Hc. destruct (IH Hl) as (He & Hn & Hr & Ht & Hmax & Hsome).
  rewrite rule_total_snoc. cbv zeta. unfold of_rule in *. rewrite List.filter_app. cbn [List.filter].
  destruct (same_rule c e); [|rewrite app_nil_r; auto 10].
  cbn [hit_entry hit_count hit_rx hit_tx hit_last hit_target].
  rewrite lenZ_app, !sum_of_app, Hn, Hr, Ht, !u64_add_l. cbn [sum_of foldr]. rewrite !Z.add_0_r.
  split_and!; try reflexivity.
  - apply Forall_app. split; [|constructor; [|constructor]; cbn; destruct (updated_ns c >=? _) eqn:E; lia].
    eapply List.Forall_impl; [|exact Hmax]. cbn. intros x Hx. destruct (updated_ns c >=? _) eqn:E; lia.
  - intros _. destruct (updated_ns c >=? _) eqn:E.
    + exists c. split; [apply in_app_iff; right; left; reflexivity|auto].
    + destruct (List.filter _ l) as [|x xs] eqn:Ef.
      * exfalso. assert (Hz : hit_last (rule_total e l) = 0); [|lia]. clear - Ef.
        induction l as [|y l IH'] using rev_ind; [reflexivity|]. rewrite List.filter_app in Ef.
        apply app_eq_nil in Ef as [E1 E2]. rewrite rule_total_snoc. cbn [List.filter] in E2. destruct (same_rule y e); [discriminate|].
        apply IH', E1.
      * destruct (Hsome ltac:(discriminate)) as (y & Hy & E1 & E2). exists y. split; [apply in_app_iff; left; exact Hy|auto].
Qed.

Definition known (prior : list ch_traffic_entry) (e : ch_traffic_entry) : bool := existsb (fun c => same_rule c e) prior.

Lemma known_class prior a b : same_rule a b = true -> known prior a = known prior b.
Proof.
  intros E. unfold known. induction prior as [|c prior IH]; [reflexivity|]. cbn [existsb].
  rewrite IH, (same_rule_class _ _ c E). reflexivity.
Qed.

Lemma known_snoc prior e c : known (prior ++ [e]) c = known prior c || same_rule e c.
Proof. unfold known. rewrite existsb_app. cbn [existsb]. rewrite orb_false_r. reflexivity. Qed.

Lemma same_rule_sym a b : same_rule a b = same_rule b a.
Proof. apply Bool.eq_iff_eq_true. rewrite !same_rule_eq. intuition congruence. Qed.

Lemma hits_origin prior l h : In h (rule_hits prior l) ->
  exists before e after, l = before ++ e :: after /\ known (prior ++ before) e = false /\ h = rule_total e (e :: after).
Proof.
  revert prior. induction l as [|e l IH]; intros prior; [intros []|]. cbn [rule_hits]. fold (known prior e).
  intros Hin. apply in_app_iff in Hin as [Hin|Hin].
  - destruct (known prior e) eqn:Ek; [destruct Hin|]. destruct Hin as [<-|[]]. exists [], e, l. rewrite app_nil_r. auto.
  - apply IH in Hin as (before & e' & after & -> & Hk & ->). exists (e :: before), e', after. rewrite <- app_assoc in Hk. auto.
Qed.

Lemma rule_total_entry e l : hit_entry (rule_total e l) = e.
Proof.
  induction l as [|c l IH] using rev_ind; [reflexivity|]. rewrite rule_total_snoc. cbv zeta. destruct (same_rule c e); [reflexivity|exact IH].
Qed.

Lemma known_cons prior c e : known (prior ++ [c]) e = false -> known prior e = false /\ same_rule c e = false.
Proof. rewrite known_snoc. apply orb_false_iff. Qed.

Lemma hits_distinct prior l : ForallOrdPairs (fun h h' => same_rule (hit_entry h) (hit_entry h') = false) (rule_hits prior l).
Proof.
  revert prior. induction l as [|e l IH]; intros prior; cbn [rule_hits]; [constructor|]. destruct (existsb _ prior); cbn [app]; [apply IH|].
  constructor; [|apply IH]. apply List.Forall_forall. intros h Hh. apply hits_origin in Hh as (before & e' & after & -> & Hk & ->).
  rewrite !rule_total_entry. unfold known in Hk. rewrite existsb_app in Hk. apply orb_false_iff in Hk as [Hk _].
  apply known_cons in Hk. apply Hk.
Qed.

(** No entry before the first one of a rule is of that rule. *)
Lemma of_rule_suffix before e after : known before e = false -> of_rule e (before ++ after) = of_rule e after.
Proof.
  intros Hk. unfold of_rule. rewrite List.filter_app. replace (List.filter _ before) with (@nil ch_traffic_entry); [reflexivity|].
  unfold known in Hk. induction before as [|c before IH]; [reflexivity|]. cbn [existsb List.filter] in *.
  apply orb_false_iff in Hk as [-> Hk]. exact (IH Hk).
Qed.

Lemma sum_of_bound w l p : Forall (fun e => 0 <= w e) l -> 0 <= sum_of w (List.filter p l) <= sum_of w l.
Proof.
  unfold sum_of. induction 1 as [|e l He _ IH]; cbn [List.filter foldr]; [lia|]. destruct (p e); cbn [foldr]; lia.
Qed.

(** What a hit reports of its rule. *)
Lemma hits_each l h :
  Forall (fun e => 0 <= updated_ns e /\ 0 <= rx_total e /\ 0 <= tx_total e) l ->
  sum_of rx_total l < 2 ^ 64 -> sum_of tx_total l < 2 ^ 64 -> In h (rule_hits [] l) ->
  let own := of_rule (hit_entry h) l in
  In (hit_entry h) l /\ hit_count h = lenZ own /\ hit_rx h = sum_of rx_total own /\ hit_tx h = sum_of tx_total own /\
  Forall (fun e => updated_ns e <= hit_last h) own /\
  exists e, In e own /\ updated_ns e = hit_last h /\ i_target (info e) = hit_target h.
Proof.
  intros Hl Hrx Htx Hin own. subst own. apply hits_origin in Hin as (before & e & after & -> & Hk & ->).
  rewrite rule_total_entry. cbn [app] in Hk. rewrite (of_rule_suffix before e (e :: after) Hk).
  rewrite !sum_of_app in *. apply Forall_app in Hl as [Hb Hl].
  pose proof (sum_of_bound rx_total before (fun _ => false) (List.Forall_impl _ (fun e H => proj1 (proj2 H)) Hb)).
  pose proof (sum_of_bound tx_total before (fun _ => false) (List.Forall_impl _ (fun e H => proj2 (proj2 H)) Hb)).
  pose proof (sum_of_bound rx_total (e :: after) (fun c => same_rule c e) (List.Forall_impl _ (fun e H => proj1 (proj2 H)) Hl)).
  pose proof (sum_of_bound tx_total (e :: after) (fun c => same_rule c e) (List.Forall_impl _ (fun e H => proj2 (proj2 H)) Hl)).
  destruct (rule_total_spec e (e :: after) (List.Forall_impl _ (fun e H => proj1 H) Hl)) as (_ & E1 & E2 & E3 & E4 & E5). rewrite E1, E2, E3.
  split_and!; [apply in_app_iff; right; left; reflexivity|reflexivity|unfold of_rule, u64; apply Z.mod_small; lia..|exact E4|].
  apply E5. unfold of_rule. cbn [List.filter]. rewrite same_rule_refl. discriminate.
Qed.

(** The hits divide the connections by profile, rule and action: no two hits
    are of the same rule, every connection is of the rule of a hit, and a hit
    counts the connections of its rule, adds up their bytes and reports the time
    and the target of a latest one. *)
Record hits_of (l : list ch_traffic_entry) (hits : list rule_hit) : Prop := mk_hits_of {
  hits_apart : ForallOrdPairs (fun h h' => same_rule (hit_entry h) (hit_entry h') = false) hits;
  hits_all e : In e l -> exists h, In h hits /\ same_rule e (hit_entry h) = true;
  hits_exact : Forall (fun h => let own := of_rule (hit_entry h) l in
    In (hit_entry h) l /\ hit_count h = lenZ own /\ hit_rx h = sum_of rx_total own /\ hit_tx h = sum_of tx_total own /\
    Forall (fun e => updated_ns e <= hit_last h) own /\
    exists e, In e own /\ updated_ns e = hit_last h /\ i_target (info e) = hit_target h) hits
}.

Lemma hits_cover l : forall prior e, In e l -> known prior e = false -> exists h, In h (rule_hits prior l) /\ same_rule e (hit_entry h) = true.
Proof.
  induction l as [|x l IH]; intros prior e Hin Hk; [destruct Hin|]. cbn [rule_hits]. fold (known prior x).
  destruct (same_rule x e) eqn:Es.
  - rewrite (known_class prior x e Es), Hk. eexists. split; [left; reflexivity|]. rewrite rule_total_entry, same_rule_sym. exact Es.
  - destruct Hin as [->|Hin]; [rewrite same_rule_refl in Es; discriminate|].
    destruct (IH (prior ++ [x]) e Hin) as (h & Hh & Hs); [rewrite known_snoc, Hk, Es; reflexivity|].
    exists h. split; [apply in_app_iff; right; exact Hh|exact Hs].
Qed.

Lemma rule_hits_partition l :
  Forall (fun e => 0 <= updated_ns e /\ 0 <= rx_total e /\ 0 <= tx_total e) l ->
  sum_of rx_total l < 2 ^ 64 -> sum_of tx_total l < 2 ^ 64 -> hits_of l (rule_hits [] l).
Proof.
  intros Hl Hrx Htx. constructor.
  - apply hits_distinct.
  - intros e Hin. apply hits_cover; [exact Hin|reflexivity].
  - apply List.Forall_forall. intros h Hin. apply (hits_each l h Hl Hrx Htx Hin).
Qed.

(** ** Facts: the text of a snapshot *)

Definition member (f : field) : bytes := key_text (field_key f, field_text f).

Definition objects_field (key : String.string) (l : list (list field)) : field :=
  mk_field (str key) ([91] ++ join (map object_text l) ++ [93]) (CH_JSON_ARRAY (map object_value l)).

Definition texts_field (key : String.string) (l : list bytes) : field :=
  mk_field (str key) ([91] ++ join (map print_string l) ++ [93]) (CH_JSON_ARRAY (map text_value l)).

Definition empty_field (key : String.string) : field := texts_field key [].

Definition filter_fields (p : String.string * String.string * Z) : list field :=
  let '(key, label, n) := p in [text_field "key" (str key); text_field "label" (str label); int_field "count" n].

Definition quick_filters (l : list ch_traffic_entry) : list (String.string * String.string * Z) :=
  let blocked := count_if (in_family (str "block")) l in
  let direct := count_if (in_family (str "direct")) l in
  [("all", "All", lenZ l); ("active", "Active", count_if active l); ("proxy", "Proxy", lenZ l - blocked - direct);
   ("direct", "Direct", direct); ("block", "Block", blocked)]%string.

Definition hit_fields (h : rule_hit) : list field :=
  let i := info (hit_entry h) in
  [text_field "profile" (i_profile i); text_field "rule_name" (hit_name (hit_entry h));
   text_field "action" (traffic_action_family (i_rule_action i)); int_field "count" (hit_count h);
   int_field "last_hit_ts_ns" (hit_last h); int_field "rx_total" (hit_rx h); int_field "tx_total" (hit_tx h);
   text_field "last_target" (hit_target h); bool_field "default" (i_is_default i)].

Definition block_fields (e : ch_traffic_entry) : list field :=
  let i := info e in
  [text_field "conn_id" (conn_id e); text_field "profile" (i_profile i); text_field "rule_name" (i_rule_name i);
   text_field "action" (i_rule_action i); text_field "target" (i_target i); text_field "target_host" (i_target_host i);
   text_field "target_port" (i_target_port i); text_field "network" (i_network i); int_field "ts_ns" (updated_ns e);
   text_field "close_reason" (close_reason e)].

Lemma objects_write {A} (op : A -> json_op) (fields : A -> list field) l :
  (forall x, writes grow (op x) (object_text (fields x))) ->
  writes grow (append_list grow op true l) (join (map object_text (map fields l))).
Proof.
  intros Hop. rewrite List.map_map. apply (append_list_writes grow op (fun x => object_text (fields x))).
  apply List.Forall_forall. intros x _. apply Hop.
Qed.

(** Two texts of fields, piece by piece. *)
Ltac same_fields :=
  unfold member, objects_field, texts_field, object_field, key_text, number_field, text_field, int_field, bool_field, text_value;
  cbn [field_key field_text fst snd]; rewrite ?object_text_cons;
  unfold key_text; cbn [field_key field_text map concat fst snd]; literals; rewrite ?app_nil_r;
  repeat (rewrite <- app_assoc; cbn [app]); reflexivity.

Lemma quick_filters_write l :
  writes grow (traffic_append_quick_filters l) (member (objects_field "quick_filters" (map filter_fields (quick_filters l)))).
Proof.
  eapply eq_rect; [apply append_spec|]. unfold quick_filters. cbv zeta. cbn [map filter_fields]. unfold quick_filter.
  unfold member, objects_field. cbn [map join]. unfold filter_fields. same_fields.
Qed.

Lemma hit_writes h : writes grow (append_hit h) (object_text (hit_fields h)).
Proof. eapply all_of_text; [collect|]. cbn [concat]. unfold hit_fields. cbv zeta. same_fields. Qed.

Lemma rule_hits_write l :
  writes grow (traffic_append_rule_hits l) (member (objects_field "rule_hits" (map hit_fields (rule_hits [] l)))).
Proof.
  pose proof (objects_write append_hit hit_fields (rule_hits [] l) hit_writes) as Hw.
  eapply all_of_text; [collect|]. cbn [concat]. same_fields.
Qed.

Lemma block_writes e : writes grow (append_block e) (object_text (block_fields e)).
Proof. eapply all_of_text; [collect|]. cbn [concat]. unfold block_fields. cbv zeta. same_fields. Qed.

Definition blocks (l : list ch_traffic_entry) : list ch_traffic_entry := take 12 (List.filter (in_family (str "block")) l).

Lemma blocks_write l : writes grow (traffic_append_blocks l) (member (objects_field "block_decisions" (map block_fields (blocks l)))).
Proof.
  pose proof (objects_write append_block block_fields (blocks l) block_writes) as Hw.
  eapply all_of_text; [apply Forall2_cons; [apply append_spec|]; apply Forall2_cons; [exact Hw|]; collect|]. cbn [concat]. same_fields.
Qed.

Section Snapshot.
Context {D : Type}.

Definition suggestion_fields (profile : bytes) (p : suggestion * option (Config.toml_table D)) : list field :=
  let '(sg, rule) := p in
  let name := traffic_config_string rule "name" in
  [text_field "kind" (sg_kind sg); text_field "profile" profile; text_field "rule_name" name; text_field "target_rule_name" name;
   text_field "operation" (sg_operation sg); text_field "action" (traffic_config_string rule "action");
   text_field "message" (sg_message sg); int_field "count" 0; int_field "last_hit_ts_ns" 0].

Lemma suggestion_writes profile p : writes grow (append_suggestion profile p) (object_text (suggestion_fields profile p)).
Proof.
  destruct p as [sg rule]. eapply all_of_text; [collect|]. cbn [concat]. unfold suggestion_fields. cbv zeta.
  change (dec 0) with [48]. same_fields.
Qed.

Lemma suggestions_write l config profile :
  writes grow (traffic_append_cleanup_suggestions (D := D) l config profile)
    (member (objects_field "cleanup_suggestions" (map (suggestion_fields profile) (suggestions l profile true (rules_of config profile))))).
Proof.
  pose proof (objects_write (append_suggestion profile) (suggestion_fields profile) (suggestions l profile true (rules_of config profile))
    (suggestion_writes profile)) as Hw.
  eapply all_of_text; [collect|]. cbn [concat]. same_fields.
Qed.

(** The names of the profiles, unless one has none. *)
Definition profile_names (config : option (Config.ch_config (D := D))) (active_profile : bytes) : option (list bytes) :=
  match config with
  | None => Some [active_profile]
  | Some config => mapM profile_name (Config.items (Config.toml_array_in (Config.root config) (str "profile")))
  end.

Definition profile_field (active_profile : bytes) (names : list bytes) : field :=
  object_field "profile_context" [text_field "active" active_profile; texts_field "profiles" names].

Lemma profiles_write config active_profile :
  match profile_names config active_profile with
  | Some names => writes grow (traffic_append_profiles config active_profile) (member (profile_field active_profile names))
  | None => forall b, snd (traffic_append_profiles config active_profile b) = false
  end.
Proof.
  unfold traffic_append_profiles, profile_names. destruct config as [config|].
  - match goal with |- context [append_list grow ?item true ?l] => pose proof (list_writes grow item profile_name print_string l) as Hl end.
    match type of Hl with ?P -> _ => assert (Hp : P) end.
    { intros i. destruct (profile_name i); [apply append_text_spec|reflexivity]. }
    specialize (Hl Hp). clear Hp. destruct (mapM profile_name _) as [names|].
    + eapply all_of_text; [collect|]. cbn [concat]. unfold profile_field. same_fields.
    + intros b. apply all_of_fails. do 3 right. left. exact Hl.
  - eapply all_of_text; [collect|]. cbn [concat]. unfold profile_field. cbn [map join]. same_fields.
Qed.

Definition summary_fields (s : ch_traffic_store) (t : summary) : list field :=
  [int_field "active_connections" (sum_active t); number_field "rx_bps" (format_3f (sum_rx_bps t));
   number_field "tx_bps" (format_3f (sum_tx_bps t)); int_field "rx_total" (sum_rx t); int_field "tx_total" (sum_tx t);
   int_field "history_limit" (limit (settings s)); text_field "history_path" (history_path (settings s));
   bool_field "history_persisted" (enabled (settings s) && negb (beq (history_path (settings s)) []));
   text_field "persist_error" (persist_error s)].

Definition snapshot_fields (s : ch_traffic_store) (config : option (Config.ch_config (D := D))) (active_profile : bytes)
    (names : list bytes) (f : ch_traffic_filter) (temporary : bytes) (rules : ch_json_value) (now : Z) : list field :=
  let l := entries s in
  [int_field "updated_ts_ns" now; object_field "summary" (summary_fields s (summarize f l));
   objects_field "connections" (map (fun e => connection_fields e now) (page_loop f 0 0 l));
   int_field "total" (sum_matched (summarize f l)); mk_field (str "temporary_rules") temporary rules;
   profile_field active_profile names; objects_field "quick_filters" (map filter_fields (quick_filters l));
   objects_field "rule_hits" (map hit_fields (rule_hits [] l)); objects_field "block_decisions" (map block_fields (blocks l));
   objects_field "cleanup_suggestions" (map (suggestion_fields active_profile) (suggestions l active_profile true (rules_of config active_profile)));
   empty_field "rule_suggestions";
   object_field "breakdowns" [empty_field "profiles"; empty_field "chains"; empty_field "rules"; empty_field "actions"; empty_field "networks"]].

Lemma snapshot_text_writes s config active_profile f temporary rules now :
  match profile_names config active_profile with
  | Some names =>
      writes grow (snapshot_text s config active_profile f temporary now)
        (object_text (snapshot_fields s config active_profile names f temporary rules now))
  | None => forall b, snd (snapshot_text s config active_profile f temporary now b) = false
  end.
Proof.
  pose proof (profiles_write config active_profile) as Hp. unfold snapshot_text. cbv zeta.
  destruct (profile_names config active_profile) as [names|].
  - pose proof (objects_write (fun e => traffic_append_connection grow e now) (fun e => connection_fields e now) (page_loop f 0 0 (entries s))
      (fun e => append_connection_writes grow e now)) as Hc.
    pose proof (quick_filters_write (entries s)) as Hq. pose proof (rule_hits_write (entries s)) as Hh.
    pose proof (blocks_write (entries s)) as Hb. pose proof (suggestions_write (entries s) config active_profile) as Hs.
    eapply all_of_text; [do 19 (apply Forall2_cons; [first [eassumption|apply append_text_spec|apply append_spec]|]); apply Forall2_nil|].
    cbn [concat]. unfold snapshot_fields. cbv zeta. set (t := summarize f (entries s)).
    rewrite object_text_cons. cbn [map concat].
    unfold object_field at 1. unfold summary_fields. rewrite object_text_cons.
    fold (member (profile_field active_profile names)).
    repeat match goal with |- context [key_text (field_key (objects_field ?k ?l), field_text (objects_field ?k ?l))] =>
      fold (member (objects_field k l)) end.
    set (m1 := member (profile_field _ _)). set (m2 := member (objects_field "quick_filters" _)).
    set (m3 := member (objects_field "rule_hits" _)). set (m4 := member (objects_field "block_decisions" _)).
    set (m5 := member (objects_field "cleanup_suggestions" _)). clearbody m1 m2 m3 m4 m5.
    unfold empty_field. cbn [map]. same_fields.
  - intros b. apply all_of_fails. do 9 right. left. exact Hp.
Qed.

Lemma objects_field_ok key l : cstr_ok (str key) -> Forall (Forall field_ok) l -> field_ok (objects_field key l).
Proof.
  intros Hk Hl. split; [exact Hk|]. apply read_array. induction Hl as [|fs l Hf _ IH]; cbn [map]; constructor; [apply reads_fields, Hf|exact IH].
Qed.

Lemma texts_field_ok key l : cstr_ok (str key) -> Forall cstr_ok l -> field_ok (texts_field key l).
Proof.
  intros Hk Hl. split; [exact Hk|]. apply read_array. induction Hl as [|s l Hs _ IH]; cbn [map]; constructor; [apply read_string, Hs|exact IH].
Qed.

(** What must hold for the numbers and texts of a snapshot to be read back:
    totals that fit [int64_t], finite rates, C strings. *)
Record report_ok (s : ch_traffic_store) (config : option (Config.ch_config (D := D))) (active_profile : bytes) : Prop := {
  ok_entries : Forall entry_ok (entries s);
  ok_rx : sum_of rx_total (entries s) <= INT64_MAX;
  ok_tx : sum_of tx_total (entries s) <= INT64_MAX;
  ok_count : lenZ (entries s) <= INT64_MAX;
  ok_rates f : isfinite (sum_rx_bps (summarize f (entries s))) = true /\ isfinite (sum_tx_bps (summarize f (entries s))) = true;
  ok_limit : 0 <= limit (settings s) <= INT64_MAX;
  ok_store_texts : Forall cstr_ok [history_path (settings s); persist_error s; active_profile];
  ok_names names : profile_names config active_profile = Some names -> Forall cstr_ok names;
  ok_rule_texts : Forall (fun i => Forall (fun key => cstr_ok (traffic_config_string (Config.table_at i) key)) ["name"; "action"]%string)
                    (rules_of config active_profile)
}.

Lemma entry_ok_parts e : entry_ok e ->
  0 <= updated_ns e <= INT64_MAX /\ 0 <= rx_total e /\ 0 <= tx_total e /\ cstr_ok (conn_id e) /\ cstr_ok (close_reason e) /\
  Forall cstr_ok (info_texts (info e)).
Proof.
  intros [Ht Hn _ _]. unfold entry_numbers in Hn. unfold entry_texts in Ht. rewrite !Forall_app in Ht. destruct Ht as (Ht1 & Ht2 & _).
  repeat match goal with Hx : Forall _ (_ :: _) |- _ => inversion_clear Hx end. split_and!; try assumption; lia.
Qed.

Lemma count_range p l : 0 <= count_if p l <= lenZ l.
Proof.
  induction l as [|e l IH]; [split; discriminate|]. rewrite count_if_cons, lenZ_cons. destruct (p e); lia.
Qed.

Lemma families_apart l : count_if (in_family (str "block")) l + count_if (in_family (str "direct")) l <= lenZ l.
Proof.
  induction l as [|e l IH]; [discriminate|]. rewrite !count_if_cons, lenZ_cons.
  assert (He : in_family (str "block") e && in_family (str "direct") e = false).
  { unfold in_family, traffic_action_family. destruct (strcaseeq _ _ || _); [reflexivity|]. destruct (strcaseeq _ _); reflexivity. }
  destruct (in_family (str "block") e), (in_family (str "direct") e); try discriminate; lia.
Qed.

Lemma filter_fields_ok l : lenZ l <= INT64_MAX -> Forall (Forall field_ok) (map filter_fields (quick_filters l)).
Proof.
  intros Hl. unfold quick_filters. cbv zeta. cbn [map filter_fields].
  pose proof (count_range (in_family (str "block")) l). pose proof (count_range (in_family (str "direct")) l).
  pose proof (count_range active l). pose proof (families_apart l). pose proof (lenZ_nonneg l).
  each; each; solve [apply text_field_ok; key_ok | apply int_field_ok; [key_ok|unfold INT64_MIN; lia]].
Qed.

Lemma family_text action : cstr_ok (traffic_action_family action).
Proof. unfold traffic_action_family. destruct (strcaseeq _ _ || _); [key_ok|]. destruct (strcaseeq _ _); key_ok. Qed.

Lemma hit_fields_ok l h :
  Forall entry_ok l -> sum_of rx_total l <= INT64_MAX -> sum_of tx_total l <= INT64_MAX -> lenZ l <= INT64_MAX ->
  In h (rule_hits [] l) -> Forall field_ok (hit_fields h).
Proof.
  intros Hl Hrx Htx Hlen Hin.
  assert (Hall : forall e, In e l -> 0 <= updated_ns e <= INT64_MAX /\ 0 <= rx_total e /\ 0 <= tx_total e /\ Forall cstr_ok (info_texts (info e))).
  { intros e He. rewrite List.Forall_forall in Hl. destruct (entry_ok_parts e (Hl e He)) as (? & ? & ? & _ & _ & ?). auto. }
  destruct (hits_each l h) as (Hmem & En & Er & Et & _ & e & He & E1 & E2); [|unfold INT64_MAX in *; lia..|exact Hin|].
  { apply List.Forall_forall. intros e He. destruct (Hall e He) as (? & ? & ? & _). lia. }
  apply List.filter_In in He as [He _]. destruct (Hall e He) as (Hup & _ & _ & Htexts).
  destruct (Hall _ Hmem) as (_ & _ & _ & Hown).
  pose proof (sum_of_bound rx_total l (fun c => same_rule c (hit_entry h))) as Br.
  pose proof (sum_of_bound tx_total l (fun c => same_rule c (hit_entry h))) as Bt.
  specialize (Br ltac:(apply List.Forall_forall; intros x Hx; apply (Hall x Hx))).
  specialize (Bt ltac:(apply List.Forall_forall; intros x Hx; apply (Hall x Hx))). fold (of_rule (hit_entry h) l) in Br, Bt.
  pose proof (count_range (fun c => same_rule c (hit_entry h)) l) as Bc. unfold count_if in Bc. fold (of_rule (hit_entry h) l) in Bc.
  unfold info_texts in Htexts, Hown. repeat match goal with Hx : Forall cstr_ok (_ :: _) |- _ => inversion_clear Hx end.
  unfold hit_fields. cbv zeta. rewrite <- E2, <- E1, En, Er, Et.
  each; try solve [apply text_field_ok; [key_ok|assumption] | apply int_field_ok; [key_ok|unfold INT64_MIN; lia] | apply bool_field_ok; key_ok
    | apply text_field_ok; [key_ok|apply family_text]].
  apply text_field_ok; [key_ok|]. unfold hit_name. case_if; [key_ok|assumption].
Qed.

Lemma block_fields_ok e : entry_ok e -> Forall field_ok (block_fields e).
Proof.
  intros He. destruct (entry_ok_parts e He) as (? & _ & _ & ? & ? & Ht). unfold info_texts in Ht.
  repeat match goal with Hx : Forall cstr_ok (_ :: _) |- _ => inversion_clear Hx end. unfold block_fields. cbv zeta.
  each; solve [apply text_field_ok; [key_ok|assumption] | apply int_field_ok; [key_ok|unfold INT64_MIN; lia]].
Qed.

Lemma suggestion_texts l profile first rules sg rule :
  In (sg, rule) (suggestions l profile first rules) ->
  Forall cstr_ok [sg_kind sg; sg_operation sg; sg_message sg] /\ exists i, In i rules /\ rule = Config.table_at (D := D) i.
Proof.
  revert first. induction rules as [|i rules IH]; intros first; [intros []|]. cbn [suggestions]. intros Hin. apply in_app_iff in Hin as [Hin|Hin].
  - split; [|exists i; split; [left; reflexivity|]].
    + unfold suggest in Hin. destruct (first && _); [|destruct (negb _)]; [destruct Hin as [Hin|[]]; injection Hin as <- _..|destruct Hin];
        (apply List.Forall_cons; [key_ok|]; apply List.Forall_cons; [key_ok|]; apply List.Forall_cons; [key_ok|]; apply List.Forall_nil).
    + destruct (suggest _ _ _ _); [|destruct Hin]. destruct Hin as [Hin|[]]. congruence.
  - destruct (IH _ Hin) as [Hs (j & Hj & ->)]. split; [exact Hs|]. exists j. split; [right; exact Hj|reflexivity].
Qed.

Lemma suggestion_fields_ok l profile rules :
  cstr_ok profile ->
  Forall (fun i => Forall (fun key => cstr_ok (traffic_config_string (Config.table_at i) key)) ["name"; "action"]%string) rules ->
  Forall (Forall field_ok) (map (suggestion_fields profile) (suggestions l profile true rules)).
Proof.
  intros Hp Hr. apply List.Forall_map, List.Forall_forall. intros [sg rule] Hin.
  destruct (suggestion_texts _ _ _ _ _ _ Hin) as [Hs (i & Hi & ->)]. rewrite List.Forall_forall in Hr. specialize (Hr i Hi).
  repeat match goal with Hx : Forall _ (_ :: _) |- _ => inversion_clear Hx end. unfold suggestion_fields. cbv zeta.
  each; solve [apply text_field_ok; [key_ok|assumption] | apply int_field_ok; [key_ok|unfold INT64_MIN, INT64_MAX; lia]].
Qed.

Lemma summary_fields_ok s config active_profile f :
  report_ok s config active_profile -> Forall field_ok (summary_fields s (summarize f (entries s))).
Proof.
  intros [He Hrx Htx Hn Hr Hlim Ht _ _]. destruct (Hr f) as [Hr1 Hr2].
  destruct (summarize_spec f (entries s)) as (Ea & _ & Erx & Etx).
  pose proof (sum_of_bound rx_total (entries s) (fun _ => true)) as Brx. pose proof (sum_of_bound tx_total (entries s) (fun _ => true)) as Btx.
  specialize (Brx (List.Forall_impl _ (fun e Hx => proj1 (proj2 (entry_ok_parts e Hx))) He)).
  specialize (Btx (List.Forall_impl _ (fun e Hx => proj1 (proj2 (proj2 (entry_ok_parts e Hx)))) He)).
  pose proof (count_range active (entries s)) as Bc. repeat match goal with Hx : Forall cstr_ok (_ :: _) |- _ => inversion_clear Hx end.
  unfold summary_fields. rewrite Ea, Erx, Etx. unfold u64. rewrite !Z.mod_small by (unfold INT64_MAX in *; lia).
  each; solve [apply text_field_ok; [key_ok|assumption] | apply int_field_ok; [key_ok|unfold INT64_MIN; lia] | apply bool_field_ok; key_ok
    | apply rate_field_ok; [key_ok|assumption]].
Qed.

Lemma snapshot_fields_ok s config active_profile names f temporary rules now :
  report_ok s config active_profile -> profile_names config active_profile = Some names -> reads_as temporary rules ->
  0 <= now <= INT64_MAX -> Forall field_ok (snapshot_fields s config active_profile names f temporary rules now).
Proof.
  intros Hok Hnames Hread Hnow. pose proof (summary_fields_ok s config active_profile f Hok) as Hsum.
  destruct Hok as [He Hrx Htx Hn Hr Hlim Ht Hcn Hrt]. specialize (Hcn names Hnames).
  assert (Hp : cstr_ok active_profile) by (repeat match goal with Hx : Forall cstr_ok (_ :: _) |- _ => inversion_clear Hx end; assumption).
  destruct (summarize_spec f (entries s)) as (_ & Em & _). pose proof (count_range (traffic_entry_matches f) (entries s)) as Bm.
  unfold count_if in Bm. fold (matching f (entries s)) in Bm. unfold snapshot_fields. cbv zeta. rewrite Em, page_loop_spec.
  assert (Hempty : forall key, cstr_ok (str key) -> field_ok (empty_field key)) by (intros key Hk; apply texts_field_ok; [exact Hk|constructor]).
  each; try solve [apply int_field_ok; [key_ok|unfold INT64_MIN; lia] | apply Hempty; key_ok].
  - apply object_field_ok; [key_ok|exact Hsum].
  - apply objects_field_ok; [key_ok|]. apply List.Forall_map. apply Forall_take, Forall_drop. apply List.Forall_forall.
    intros e Hin. apply List.filter_In in Hin as [Hin _]. rewrite List.Forall_forall in He. apply connection_fields_ok; [apply He, Hin|exact Hnow].
  - split; [key_ok|exact Hread].
  - apply object_field_ok; [key_ok|]. each; [apply text_field_ok; [key_ok|exact Hp]|apply texts_field_ok; [key_ok|exact Hcn]].
  - apply objects_field_ok; [key_ok|]. apply filter_fields_ok, Hn.
  - apply objects_field_ok; [key_ok|]. apply List.Forall_map, List.Forall_forall. intros h Hin. apply (hit_fields_ok (entries s)); assumption.
  - apply objects_field_ok; [key_ok|]. apply List.Forall_map. apply Forall_take. apply List.Forall_forall.
    intros e Hin. apply List.filter_In in Hin as [Hin _]. rewrite List.Forall_forall in He. apply block_fields_ok, He, Hin.
  - apply objects_field_ok; [key_ok|]. apply suggestion_fields_ok; assumption.
  - apply object_field_ok; [key_ok|]. each; apply Hempty; key_ok.
Qed.

Lemma objects_value {A} key (fields : A -> list field) l :
  field_value (objects_field key (map fields l)) = CH_JSON_ARRAY (map (fun x => object_value (fields x)) l).
Proof. unfold objects_field. cbn [field_value]. rewrite List.map_map. reflexivity. Qed.

Lemma objects_height key l n : 0 <= n -> Forall (fun fs => height (object_value fs) <= n) l -> height (field_value (objects_field key l)) <= n + 1.
Proof.
  intros Hn Hl. unfold objects_field. cbn [field_value height]. rewrite List.map_map.
  induction Hl as [|fs l Hf _ IH]; cbn [map foldr]; lia.
Qed.

Lemma texts_field_height key l : height (field_value (texts_field key l)) <= 2.
Proof.
  unfold texts_field. cbn [field_value height]. rewrite List.map_map.
  induction l as [|s l IH]; cbn [map foldr]; [lia|]. set (x := foldr _ _ _) in *. cbn [height text_value]. lia.
Qed.

Lemma row_height (fields : list field) : Forall (fun f => height (field_value f) <= 1) fields -> height (object_value fields) <= 4.
Proof. intros Hf. pose proof (fields_height fields 1 ltac:(lia) Hf). lia. Qed.

Lemma snapshot_fields_height s config active_profile names f temporary rules now :
  height rules <= 63 -> height (object_value (snapshot_fields s config active_profile names f temporary rules now)) <= 64.
Proof.
  intros Hr. apply (fields_height _ 63); [lia|]. unfold snapshot_fields. cbv zeta.
  assert (Hobj : forall key l, Forall (fun fs => height (object_value fs) <= 4) l -> height (field_value (objects_field key l)) <= 63).
  { intros key l Hl. pose proof (objects_height key l 4 ltac:(lia) Hl). lia. }
  each; try solve [cbn; lia | exact Hr].
  - apply Hobj. apply List.Forall_map, List.Forall_forall. intros e _. apply connection_height.
  - unfold profile_field, object_field. cbn [field_value]. pose proof (texts_field_height "profiles" names) as Hn.
    assert (Hh : height (object_value [text_field "active" active_profile; texts_field "profiles" names]) <= 2 + 1); [|lia].
    apply fields_height; [lia|]. each; [cbn; lia|exact Hn].
  - apply Hobj. apply List.Forall_map, List.Forall_forall. intros h _. apply row_height. each; cbn; lia.
  - apply Hobj. apply List.Forall_map, List.Forall_forall. intros e _. apply row_height. each; cbn; lia.
  - apply Hobj. apply List.Forall_map, List.Forall_forall. intros [sg rule] _. apply row_height. each; cbn; lia.
Qed.

End Snapshot.

End Report.

(** ** Witnesses *)

Section Witnesses.
Import PlainLongDouble.
#[local] Existing Instance Temporary.plain_compare.
#[local] Existing Instance plain_rate.
#[local] Existing Instance FeedCache.plain_size.

(** The second connection that matches, of the store with two connections. *)
Definition w_filter : bytes :=
  object_text [text_field "domain" (str "EXAMPLE"); int_field "limit" 1; int_field "offset" 1].

Definition w_report_config : Config.ch_config (D := unit) := Config.mk_config Validity.w_root None [].

Abbreviation w_snapshot :=
  (ch_traffic_snapshot_json w_grow w_saved (Some w_report_config) (Some (str "home")) (Some w_filter) (Some (str "[]")) 2000000000).

Definition text_of (r : result bytes) : bytes := match r with Done text => text | _ => [] end.

Example w_snapshot_text :
  match ch_json_parse (Some (text_of (snd w_snapshot))) with
  | Done root =>
      map (fun key => match get (Some root) (str key) with
                      | Some (CH_JSON_ARRAY items) => map (fun i => ch_json_string_value (get (Some i) (str "target_host"))) items
                      | _ => []
                      end) ["connections"; "block_decisions"]%string
  | _ => []
  end = [[Some (str "old.example")]; []].
Proof. vm_compute. reflexivity. Qed.

Lemma w_snapshot_done : w_snapshot = (fst w_snapshot, Done (text_of (snd w_snapshot))).
Proof. apply pair_with. vm_compute. reflexivity. Qed.

Lemma w_entries_ok : Forall entry_ok (entries (fst w_snapshot)).
Proof.
  assert (Hb : forallb entry_okb (entries (fst w_snapshot)) = true) by (vm_compute; reflexivity).
  apply List.Forall_forall. intros e He. rewrite forallb_forall in Hb. apply entry_okb_ok, (Hb e He).
Qed.

Lemma w_report_ok : report_ok (fst w_snapshot) (Some w_report_config) (str "home").
Proof.
  constructor.
  - exact w_entries_ok.
  - vm_compute. discriminate.
  - vm_compute. discriminate.
  - vm_compute. discriminate.
  - intros f. split; vm_compute; reflexivity.
  - vm_compute. split; discriminate.
  - repeat (apply List.Forall_cons; [apply literal_ok; vm_compute; reflexivity|]). apply List.Forall_nil.
  - intros names E. assert (En : names = [str "home"]) by (vm_compute in E; injection E as <-; reflexivity). subst names.
    constructor; [key_ok|constructor].
  - apply List.Forall_forall. intros i Hi. apply List.Forall_forall. intros key Hk. apply literal_ok.
    assert (Hb : forallb (fun i => forallb (fun key => forallb (fun c => (0 <? c) && (c <? 256)) (traffic_config_string (Config.table_at i) key))
      ["name"; "action"]%string) (rules_of (Some w_report_config) (str "home")) = true) by (vm_compute; reflexivity).
    rewrite forallb_forall in Hb. specialize (Hb i Hi). rewrite forallb_forall in Hb. exact (Hb key Hk).
Qed.

Lemma w_no_rules : reads_as (str "[]") (CH_JSON_ARRAY []).
Proof. apply (read_array [] []). constructor. Qed.


End Witnesses.
End TrafficReport.
