(* ===== verification/TrafficRules.v ===== *)
(** * Rules from traffic: [native/src/traffic.c], the requests for the rules

    From a connection of the traffic store, the request that adds a rule for
    its host to a profile; and from a suggestion of the snapshot, the request
    that deletes a rule or moves it to the end.

    Allocation is taken to succeed but for the JSON buffer. *)

From S2P Require Import Prelude CLib Inet Json JsonText TempRules Config ConfigText FeedCache Traffic.
From S2P Require Import Rules RuleFeed TrafficHistory TrafficReport ConfigValid.

Module TrafficRules.
Import Json JsonText Traffic TrafficHistory TrafficReport.

Record ch_traffic_connection : Type := mk_connection {
  c_conn_id : bytes;
  c_profile : bytes;
  c_chain_name : bytes;
  c_group_name : bytes;
  c_rule_name : bytes;
  c_rule_action : bytes;
  c_target : bytes;
  c_target_host : bytes;
  c_target_port : bytes;
  c_network : bytes;
  c_source : bytes;
  c_is_default : bool
}.

Definition UINT_MAX : Z := 4294967295.

(** ** Texts *)

(** [None] is [NULL]. *)
Definition traffic_trimmed_copy (value : option bytes) : bytes := trim (default [] value).

(** [while (length > 0 && text[length - 1] == c) --length] *)
Fixpoint drop_leading (c : Z) (reversed : bytes) : bytes :=
  match reversed with
  | [] => []
  | d :: rest => if d =? c then drop_leading c rest else reversed
  end.

Definition without_trailing (c : Z) (text : bytes) : bytes := rev (drop_leading c (rev text)).

Definition without_brackets (host : bytes) : bytes :=
  if (lenZ host >=? 2) && (byte_at host 0 =? 91) && (byte_at host (lenZ host - 1) =? 93)
  then sub host 1 (lenZ host - 2) else host.

Definition traffic_rule_host (value : bytes) : bytes :=
  map tolower (without_trailing 46 (without_brackets (traffic_trimmed_copy (Some value)))).

(** The last character of a text and what stands before it up to a dot: the
    text before the label, and the label. *)
Fixpoint to_dot (reversed label : bytes) : bytes * bytes :=
  match reversed with
  | [] => ([], label)
  | c :: rest => if c =? 46 then (rev reversed, label) else to_dot rest (c :: label)
  end.

Definition last_label (text : bytes) : bytes * bytes :=
  match rev text with [] => ([], []) | c :: rest => to_dot rest [c] end.

Definition broad : list bytes :=
  [str "co.uk"; str "com.au"; str "co.jp"; str "com.br"; str "com.cn"; str "com.sg"; str "co.nz"].

Definition traffic_domain_suffix (host : bytes) : bytes :=
  match split_last 46 host with
  | None | Some ([], _) => host
  | Some (before, last) =>
      let '(rest, label) := last_label before in
      let candidate := label ++ 46 :: last in
      if existsb (beq candidate) broad && negb (beq rest []) then snd (last_label rest) ++ candidate else candidate
  end.


(** The letters and digits of the host, other runs as one dash. *)
Fixpoint name_loop (name : bytes) (dash : bool) (host : bytes) : bytes :=
  match host with
  | [] => name
  | c :: rest =>
      if isalnum c then name_loop (name ++ [tolower c]) false rest
      else if negb dash && (lenZ name >? 0) then name_loop (name ++ [45]) true rest
      else name_loop name dash rest
  end.

Definition traffic_rule_name (family host : bytes) : bytes :=
  without_trailing 45 (name_loop (map tolower family ++ [45]) false host).

(** ** The connection *)

Section Requests.
Context `{DoubleCompare, !DoubleRate, !DoubleSize} `{!Inet} (grow : Z -> bool).

Definition traffic_connection_copy_entry (e : ch_traffic_entry) : ch_traffic_connection :=
  let i := info e in
  mk_connection (conn_id e) (i_profile i) (i_chain_name i) (i_group_name i) (i_rule_name i) (i_rule_action i) (i_target i)
    (i_target_host i) (i_target_port i) (i_network i) (i_source i) (i_is_default i).

Definition ch_traffic_connection_copy (s : ch_traffic_store) (conn : bytes) : result ch_traffic_connection :=
  if beq conn [] then fail CH_ERROR_INVALID_ARGUMENT (str "traffic connection identifier is required")
  else match List.find (fun e => beq (conn_id e) conn) (entries s) with
       | Some e => Done (traffic_connection_copy_entry e)
       | None => fail CH_ERROR_NOT_FOUND (str "connection not found")
       end.

Definition traffic_request_string (request : ch_json_value) (key : String.string) : bytes :=
  traffic_trimmed_copy (ch_json_string_value (get (Some request) (str key))).

(** The address in its usual form, and its bits. *)
Definition traffic_host_ip (host : bytes) : option (bytes * Z) :=
  match pton4 host with
  | Some a => Some (ntop4 a, 32)
  | None => match pton6 host with Some a => Some (ntop6 a, 128) | None => None end
  end.

(** ** The profile *)

Definition profile_rules (profile : Config.toml_table double) : list (Config.toml_item double) :=
  Config.items (Config.toml_array_in profile (str "rule")).

Definition traffic_config_name_used (profile : Config.toml_table double) (name : bytes) : bool :=
  existsb (fun i => match Config.table_at i ≫= (fun rule => Config.toml_string_in rule (str "name")) with
                    | Some candidate => beq candidate name
                    | None => false
                    end) (profile_rules profile).

(** The loop over the suffixes, of at most [fuel] rounds. *)
Fixpoint suffix_loop (profile : Config.toml_table double) (base : bytes) (fuel : nat) (suffix : Z) : option bytes :=
  match fuel with
  | O => None
  | S fuel' =>
      if suffix <? UINT_MAX then
        let candidate := base ++ [45] ++ dec suffix in
        if negb (traffic_config_name_used profile candidate) then Some candidate
        else suffix_loop profile base fuel' (suffix + 1)
      else None
  end.

(** One round more than there are rules: they cannot all be taken. *)
Definition traffic_unique_rule_name (profile : Config.toml_table double) (base : bytes) : option bytes :=
  if negb (traffic_config_name_used profile base) then Some base
  else suffix_loop profile base (S (length (profile_rules profile))) 2.

Definition traffic_default_chain (profile : Config.toml_table double) : option bytes :=
  let tun := Config.toml_table_in profile (str "listen") ≫= fun listen => Config.toml_table_in listen (str "tun") in
  match tun ≫= fun tun => Config.toml_string_in tun (str "chain") with
  | Some (c :: chain) => Some (c :: chain)
  | _ => first ← head (Config.items (Config.toml_array_in profile (str "chain"))); table ← Config.table_at first;
         Config.toml_string_in table (str "name")
  end.

(** The action of the rule and the word that its name starts with. *)
Definition traffic_rule_action (connection : ch_traffic_connection) (profile : Config.toml_table double) (requested : bytes)
    : result (bytes * bytes) :=
  let lower := map tolower (traffic_trimmed_copy (Some requested)) in
  if beq lower [] || beq lower (str "allow") then
    if strcaseeq (c_rule_action connection) (str "direct") then Done (str "direct", str "allow")
    else if negb (beq (c_group_name connection) []) then Done (str "group:" ++ c_group_name connection, str "allow")
    else
      match if beq (c_chain_name connection) [] then traffic_default_chain profile else Some (c_chain_name connection) with
      | None | Some [] => fail CH_ERROR_INVALID_ARGUMENT (str "profile has no chain for allow rule")
      | Some chain => Done (str "chain:" ++ chain, str "allow")
      end
  else if beq lower (str "direct") then Done (lower, str "direct")
  else if beq lower (str "block") || beq lower (str "reject") then Done (lower, str "block")
  else if is_prefix (str "chain:") lower && (lenZ lower >? 6) then Done (lower, str "proxy")
  else if is_prefix (str "group:") lower && (lenZ lower >? 6) then Done (lower, str "proxy")
  else fail CH_ERROR_INVALID_ARGUMENT
         (str "action must be allow, direct, block, reject, chain:<name>, or group:<name>").

(** ** A rule for a connection *)

(** The key of the rule and its value. *)
Definition rule_match (scope host : bytes) : result (bytes * bytes) :=
  let ip := traffic_host_ip host in
  let scope :=
    if beq scope [] || strcaseeq scope (str "auto") then match ip with Some _ => str "cidr" | None => str "exact_host" end else scope in
  match ip with
  | None =>
      if strcaseeq scope (str "exact_host") then Done (str "domains", host)
      else if strcaseeq scope (str "domain_suffix") then Done (str "domain_suffixes", traffic_domain_suffix host)
      else fail CH_ERROR_INVALID_ARGUMENT (str "scope is incompatible with the connection host")
  | Some (normalized, bits) =>
      if strcaseeq scope (str "cidr") then Done (str "cidrs", normalized ++ [47] ++ dec bits)
      else fail CH_ERROR_INVALID_ARGUMENT (str "scope is incompatible with the connection host")
  end.

Definition rule_text (profile name action key value : bytes) : json_op :=
  all_of [
    append grow ([123] ++ quoted_key "profile"); append_text grow profile;
    append grow ([44] ++ quoted_key "position" ++ print_string (str "append") ++ [44] ++ quoted_key "rule" ++ [123] ++ quoted_key "name");
    append_text grow name;
    append grow ([44] ++ quoted_key "action"); append_text grow action;
    append grow [44; 34]; append grow key; append grow [34; 58; 91]; append_text grow value; append grow (str "]}}")].

(** The profile that the request names, that of the connection or the active one. *)
Definition rule_profile (named : bytes) (connection : ch_traffic_connection) (active_profile : option bytes) : option bytes :=
  if beq named [] then if beq (c_profile connection) [] then active_profile else Some (c_profile connection) else Some named.

Definition rule_for (connection : ch_traffic_connection) (config : Config.ch_config (D := double)) (active_profile : option bytes)
    (request : ch_json_value) : result bytes :=
  let text := traffic_request_string request in
  match rule_profile (text "profile"%string) connection active_profile with
  | None => fail CH_ERROR_OUT_OF_MEMORY (str "copy rule profile")
  | Some profile_name =>
      match Config.ch_config_profile_named config (Some profile_name) with
      | None => fail CH_ERROR_NOT_FOUND (str "profile " ++ profile_name ++ str " not found")
      | Some profile =>
          let host := traffic_rule_host (c_target_host connection) in
          if beq host [] then fail CH_ERROR_INVALID_ARGUMENT (str "connection has no ruleable host")
          else
            '(action, family) ← traffic_rule_action connection profile (text "action"%string);
            '(key, value) ← rule_match (text "scope"%string) host;
            let base := if beq (text "name"%string) [] then traffic_rule_name family host else text "name"%string in
            match traffic_unique_rule_name profile base with
            | None => fail CH_ERROR_OUT_OF_MEMORY (str "build connection rule")
            | Some name => take_text (rule_text profile_name name action key value) (str "encode connection rule request")
            end
      end
  end.

Definition ch_traffic_rule_request_json (s : ch_traffic_store) (config : Config.ch_config (D := double)) (active_profile : option bytes)
    (request_json : bytes) : result bytes :=
  request ← ch_json_parse (Some request_json);
  match request with
  | CH_JSON_OBJECT _ =>
      connection ← ch_traffic_connection_copy s (traffic_request_string request "conn_id");
      rule_for connection config active_profile request
  | _ => fail CH_ERROR_INVALID_ARGUMENT (str "rule request must be a JSON object")
  end.

(** ** Cleaning up the rules *)

(** The rules and the index of the first one with the name. *)
Fixpoint rule_index (target : bytes) (rules : list (Config.toml_item double)) : option nat :=
  match rules with
  | [] => None
  | i :: rules' =>
      if beq (traffic_config_string (Config.table_at i) "name") target then Some 0%nat else S <$> rule_index target rules'
  end.

Definition rule_json (i : Config.toml_item double) : result bytes :=
  match Config.table_at i with
  | Some table => ConfigText.ch_config_table_json grow table
  | None => fail CH_ERROR_INVALID_ARGUMENT (str "config table and output are required")
  end.

(** The rules that are written, with commas after the first.  An error of the
    encoder is kept; [None] stands for a buffer that cannot grow. *)
Fixpoint append_rules (l : list (Config.toml_item double)) (first : bool) (buffer : ch_json_buffer)
    : ch_json_buffer * result bool :=
  match l with
  | [] => (buffer, Done true)
  | i :: l' =>
      match rule_json i with
      | Done text =>
          let '(buffer, okay) := if first then (buffer, true) else ch_json_append grow buffer [44] in
          let '(buffer, okay) := if (okay : bool) then ch_json_append grow buffer text else (buffer, false) in
          if (okay : bool) then append_rules l' false buffer else (buffer, Done false)
      | Raise e => (buffer, Raise e)
      | Fault => (buffer, Fault)
      end
  end.

Definition cleanup_text (profile_name : bytes) (rules : list (Config.toml_item double)) : result bytes :=
  let failed := fail CH_ERROR_OUT_OF_MEMORY (str "encode cleanup mutation") in
  let '(buffer, okay) :=
    all_of [append grow ([123] ++ quoted_key "profile"); append_text grow profile_name; append grow ([44] ++ quoted_key "rules" ++ [91])]
      ch_json_init in
  if negb (okay : bool) then failed
  else
    let '(buffer, okay) := append_rules rules true buffer in
    okay ← okay;
    if negb (okay : bool) then failed
    else
      let '(buffer, okay) := append grow (str "]}") buffer in
      match if (okay : bool) then fst (ch_json_take buffer) else None with Some text => Done text | None => failed end.

Definition still_suggested (s : ch_traffic_store) (kind operation profile_name target_name : bytes) (index : nat)
    (target : option (Config.toml_table double)) : bool :=
  if beq kind (str "broad_match") && beq operation (str "move_rule_to_end") then (index =? 0)%nat && negb (traffic_rule_has_matchers target)
  else if beq kind (str "unused_in_history") && beq operation (str "delete_rule") then
    negb ((index =? 0)%nat && negb (traffic_rule_has_matchers target)) && negb (traffic_rule_was_hit (entries s) profile_name target_name)
  else false.

Definition ch_traffic_cleanup_request_json (s : ch_traffic_store) (config : Config.ch_config (D := double)) (active_profile : option bytes)
    (request_json : bytes) : result bytes :=
  request ← ch_json_parse (Some request_json);
  match request with
  | CH_JSON_OBJECT _ =>
      let text := traffic_request_string request in
      let profile_name := if beq (text "profile") [] then default [] active_profile else text "profile" in
      if beq (text "kind") [] || beq (text "rule_name") [] || beq (text "target_rule_name") [] ||
         negb (beq (text "operation") (str "delete_rule") || beq (text "operation") (str "move_rule_to_end"))
      then fail CH_ERROR_INVALID_ARGUMENT (str "invalid cleanup request")
      else
        let rules := rules_of (Some config) profile_name in
        match Config.ch_config_profile_named config (Some profile_name), rule_index (text "target_rule_name") rules with
        | Some _, Some index =>
            if negb (beq (text "rule_name") (text "target_rule_name"))
            then fail CH_ERROR_NOT_FOUND (str "cleanup target rule not found")
            else
              let target := (rules !! index) ≫= Config.table_at in
              if negb (still_suggested s (text "kind") (text "operation") profile_name (text "target_rule_name") index target)
              then fail CH_ERROR_INVALID_STATE (str "cleanup suggestion is stale")
              else
                cleanup_text profile_name
                  (take index rules ++ drop (S index) rules
                   ++ if beq (text "operation") (str "move_rule_to_end") then take 1 (drop index rules) else [])
        | _, _ => fail CH_ERROR_NOT_FOUND (str "cleanup target rule not found")
        end
  | _ => fail CH_ERROR_INVALID_ARGUMENT (str "cleanup request must be a JSON object")
  end%string.

End Requests.
(** ** Facts: the texts *)

(** The suffix is the host, or stands after a dot in it. *)
Definition below (suffix host : bytes) : Prop := host = suffix \/ exists front, host = front ++ 46 :: suffix.

Lemma to_dot_spec reversed label rest l :
  to_dot reversed label = (rest, l) -> rev reversed ++ label = rest ++ l /\ (rest = [] \/ exists front, rest = front ++ [46]).
Proof.
  revert label. induction reversed as [|c r IH]; intros label; cbn [to_dot]; [intros [= <- <-]; auto|].
  destruct (c =? 46) eqn:Ec; [|intros E; apply IH in E as [E Hr]; split; [cbn [rev]; rewrite <- app_assoc; exact E|exact Hr]].
  apply Z.eqb_eq in Ec. subst c. intros [= <- <-]. split; [reflexivity|]. right. exists (rev r). reflexivity.
Qed.

Lemma last_label_spec text rest label :
  last_label text = (rest, label) -> text = rest ++ label /\ (rest = [] \/ exists front, rest = front ++ [46]).
Proof.
  unfold last_label. destruct (rev text) as [|c r] eqn:E.
  - intros [= <- <-]. apply (f_equal (@rev Z)) in E. rewrite rev_involutive in E. auto.
  - intros Hd. apply to_dot_spec in Hd as [Hd Hr]. split; [|exact Hr]. rewrite <- Hd, <- (rev_involutive text), E. reflexivity.
Qed.

Lemma label_below rest label tail : (rest = [] \/ exists front, rest = front ++ [46]) -> below (label ++ tail) (rest ++ label ++ tail).
Proof. intros [->|[front ->]]; [left; reflexivity|right; exists front; rewrite <- app_assoc; reflexivity]. Qed.

Lemma domain_suffix_below host : below (traffic_domain_suffix host) host.
Proof.
  unfold traffic_domain_suffix. destruct (split_last 46 host) as [[before last]|] eqn:E; [|left; reflexivity].
  apply split_last_Some in E as [E _]. destruct before as [|b before]; [left; reflexivity|]. set (front := b :: before) in *.
  destruct (last_label front) as [rest label] eqn:El. apply last_label_spec in El as [Ef Hr].
  assert (Eh : host = rest ++ label ++ 46 :: last) by (rewrite E, Ef, <- app_assoc; reflexivity).
  destruct (existsb _ broad && negb (beq rest [])); [|rewrite Eh; apply label_below, Hr].
  destruct (last_label rest) as [rest' label'] eqn:El'. apply last_label_spec in El' as [Er Hr']. cbn [snd].
  rewrite Eh, Er, <- app_assoc. apply label_below, Hr'.
Qed.

Lemma domain_suffix_nonempty host : host <> [] -> traffic_domain_suffix host <> [].
Proof.
  intros Hh E. destruct (domain_suffix_below host) as [E'|[front E']]; [congruence|]. rewrite E in E'. clear Hh.
  unfold traffic_domain_suffix in E. destruct (split_last 46 host) as [[[|b before] last]|]; [subst; destruct front; discriminate| |subst; destruct front; discriminate].
  destruct (last_label (b :: before)) as [rest label]. revert E. destruct (_ && _); intros E; apply (f_equal (@length Z)) in E;
    autorewrite with bytes in E; rewrite ?length_app in E; cbn [length] in E; lia.
Qed.

(** Characters that the texts keep. *)
Lemma trim_ok s : cstr_ok s -> cstr_ok (trim s).
Proof.
  intros Hs. unfold trim. assert (Hk : cstr_ok (skip_space s)).
  { unfold cstr_ok in *. induction Hs as [|c s Hc Hs IH]; cbn [skip_space]; [constructor|]. destruct (isspace c); [exact IH|constructor; assumption]. }
  revert Hk. generalize (skip_space s). clear. intros s Hs. unfold cstr_ok in *.
  induction Hs as [|c s Hc Hs IH]; cbn [trim_right]; [constructor|]. destruct (trim_right s) as [|d t]; [case_if; repeat constructor; apply Hc|].
  constructor; [exact Hc|exact IH].
Qed.

Lemma lower_ok s : cstr_ok s -> cstr_ok (map tolower s).
Proof. intros Hs. apply List.Forall_map. eapply List.Forall_impl; [|exact Hs]. unfold cchar_ok, tolower. intros c Hc. case_if; lia. Qed.

Lemma rev_ok s : cstr_ok s -> cstr_ok (rev s).
Proof. apply List.Forall_rev. Qed.

Lemma trailing_ok c s : cstr_ok s -> cstr_ok (without_trailing c s).
Proof.
  intros Hs. apply rev_ok in Hs. apply rev_ok. revert Hs. generalize (rev s). clear. intros s Hs. unfold cstr_ok in *.
  induction Hs as [|d s Hd Hs IH]; cbn [drop_leading]; [constructor|]. destruct (d =? c); [exact IH|constructor; assumption].
Qed.

Lemma brackets_ok s : cstr_ok s -> cstr_ok (without_brackets s).
Proof. intros Hs. unfold without_brackets. case_if; [|exact Hs]. unfold sub. apply Forall_take, Forall_drop, Hs. Qed.

Lemma rule_host_ok s : cstr_ok s -> cstr_ok (traffic_rule_host s).
Proof. intros Hs. apply lower_ok, trailing_ok, brackets_ok, trim_ok, Hs. Qed.

Lemma rule_name_ok family host : cstr_ok family -> cstr_ok host -> cstr_ok (traffic_rule_name family host).
Proof.
  intros Hf Hh. apply trailing_ok.
  assert (Hn : cstr_ok (map tolower family ++ [45])) by (apply Forall_app; split; [apply lower_ok, Hf|constructor; [unfold cchar_ok; lia|constructor]]).
  revert Hn. generalize (map tolower family ++ [45]) false. unfold cstr_ok in *.
  induction Hh as [|c host Hc Hh IH]; intros name dash Hn; cbn [name_loop]; [exact Hn|].
  assert (Hsnoc : forall d, cchar_ok d -> Forall cchar_ok (name ++ [d])) by (intros d Hd; apply Forall_app; auto).
  destruct (isalnum c); [apply IH, Hsnoc; unfold cchar_ok, tolower in *; case_if; lia|].
  destruct (negb dash && _); apply IH; [apply Hsnoc; unfold cchar_ok; lia|exact Hn].
Qed.

Lemma below_ok suffix host : below suffix host -> cstr_ok host -> cstr_ok suffix.
Proof.
  intros [->|[front ->]]; [auto|]. intros Hh. apply Forall_app in Hh as [_ Hh]. inversion_clear Hh. assumption.
Qed.

(** ** Facts: the name of a new rule *)

Section Facts.
Context `{DoubleCompare, !DoubleRate, !DoubleSize} `{!Inet} (grow : Z -> bool).

Definition rule_names (profile : Config.toml_table double) : list bytes :=
  omap (fun i => Config.table_at i ≫= fun rule => Config.toml_string_in rule (str "name")) (profile_rules profile).

Lemma name_used_iff profile name : traffic_config_name_used profile name = true <-> In name (rule_names profile).
Proof.
  unfold traffic_config_name_used, rule_names. rewrite existsb_exists, <- list_elem_of_In, list_elem_of_omap. split.
  - intros (i & Hi & Hm). exists i. split; [apply list_elem_of_In, Hi|]. destruct (Config.table_at i ≫= _); [|discriminate].
    apply beq_true in Hm. congruence.
  - intros (i & Hi & Hm). exists i. split; [apply list_elem_of_In, Hi|]. rewrite Hm. apply beq_refl.
Qed.

Lemma omap_length {A B} (f : A -> option B) (l : list A) : (length (omap f l) <= length l)%nat.
Proof. induction l as [|x l IH]; [apply Nat.le_refl|]. cbn. destruct (f x); cbn; [apply le_n_S, IH|apply Nat.le_le_succ_r, IH]. Qed.

Lemma rule_names_length profile : (length (rule_names profile) <= length (profile_rules profile))%nat.
Proof. apply omap_length. Qed.

Definition suffixed (base : bytes) (n : Z) : bytes := base ++ [45] ++ dec n.

(** The loop ends at the first suffix that is free, and the suffixes that it
    has passed are taken. *)
Lemma suffix_loop_spec profile base fuel k :
  2 <= k -> k + Z.of_nat fuel <= UINT_MAX ->
  match suffix_loop profile base fuel k with
  | Some name => exists n, k <= n < k + Z.of_nat fuel /\ name = suffixed base n /\ ~ In name (rule_names profile) /\
      (forall m, k <= m < n -> In (suffixed base m) (rule_names profile))
  | None => forall m, k <= m < k + Z.of_nat fuel -> In (suffixed base m) (rule_names profile)
  end.
Proof.
  revert k. induction fuel as [|fuel IH]; intros k Hk Hf; cbn [suffix_loop]; [intros m Hm; lia|].
  replace (k <? UINT_MAX) with true by lia. fold (suffixed base k).
  destruct (traffic_config_name_used profile (suffixed base k)) eqn:Eu; cbn [negb].
  - apply name_used_iff in Eu. specialize (IH (k + 1) ltac:(lia) ltac:(lia)). destruct (suffix_loop profile base fuel (k + 1)) as [name|].
    + destruct IH as (n & Hn & -> & Hfree & Hused). exists n. split_and!; [lia..|reflexivity|exact Hfree|].
      intros m Hm. destruct (Z.eq_dec m k) as [->|]; [exact Eu|]. apply Hused. lia.
    + intros m Hm. destruct (Z.eq_dec m k) as [->|]; [exact Eu|]. apply IH. lia.
  - exists k. split_and!; [lia..|reflexivity| |intros m Hm; lia]. intros Hin. apply name_used_iff in Hin. congruence.
Qed.

(** There are not enough rules to take all the suffixes. *)
Lemma suffixes_fit profile base (n : nat) :
  (forall m, 2 <= m < 2 + Z.of_nat n -> In (suffixed base m) (rule_names profile)) -> (n <= length (rule_names profile))%nat.
Proof.
  intros Hall. assert (El : length (map (fun k => suffixed base (Z.of_nat k)) (seq 2 n)) = n) by (rewrite length_map, length_seq; reflexivity).
  rewrite <- El. apply NoDup_incl_length.
  - apply Finite.Injective_map_NoDup; [|apply seq_NoDup]. intros a b E. unfold suffixed in E. apply app_inv_head in E. cbn [app] in E.
    injection E as E. apply dec_inj in E; lia.
  - intros name Hin. apply in_map_iff in Hin as (k & <- & Hk). apply in_seq in Hk. apply Hall. lia.
Qed.

Lemma unique_name_spec profile base :
  Z.of_nat (length (profile_rules profile)) < UINT_MAX - 3 ->
  exists name, traffic_unique_rule_name profile base = Some name /\ ~ In name (rule_names profile) /\
    (name = base \/ In base (rule_names profile) /\ exists n, 2 <= n < UINT_MAX /\ name = suffixed base n /\
       forall m, 2 <= m < n -> In (suffixed base m) (rule_names profile)).
Proof.
  intros Hlen. unfold traffic_unique_rule_name. destruct (traffic_config_name_used profile base) eqn:Eu; cbn [negb].
  - pose proof (suffix_loop_spec profile base (S (length (profile_rules profile))) 2 ltac:(lia) ltac:(lia)) as Hl.
    apply name_used_iff in Eu. destruct (suffix_loop _ _ _ 2) as [name|].
    + destruct Hl as (n & Hn & -> & Hfree & Hused). eexists. split; [reflexivity|]. split; [exact Hfree|]. right. split; [exact Eu|].
      exists n. split_and!; [lia..|reflexivity|exact Hused].
    + exfalso. pose proof (suffixes_fit profile base _ Hl). pose proof (rule_names_length profile). lia.
  - exists base. split; [reflexivity|]. split; [|left; reflexivity]. intros Hin. apply name_used_iff in Hin. congruence.
Qed.

(** A new rule always gets a name of its own.  The search for a name ends
    after at most as many suffixes as the profile has rules and one; the
    name is the one asked for when no rule of the profile has it, and
    otherwise that name with the smallest suffix from 2 on that is free. *)
Theorem unique_rule_name_found profile base fuel :
  Z.of_nat (length (profile_rules profile)) < UINT_MAX - 3 ->
  (length (profile_rules profile) < fuel)%nat -> 2 + Z.of_nat fuel <= UINT_MAX ->
  exists name,
    traffic_unique_rule_name profile base = Some name /\ traffic_config_name_used profile name = false /\
    (name <> base -> traffic_config_name_used profile base = true /\ suffix_loop profile base fuel 2 = Some name /\
       exists n, 2 <= n < UINT_MAX /\ name = base ++ [45] ++ dec n /\
         forall m, 2 <= m < n -> traffic_config_name_used profile (base ++ [45] ++ dec m) = true).
Proof.
  intros Hlen Hfuel Hmax. destruct (unique_name_spec profile base Hlen) as (name & E & Hfree & Hcase). exists name. split; [exact E|].
  split; [destruct (traffic_config_name_used profile name) eqn:Eu; [apply name_used_iff in Eu; contradiction|reflexivity]|].
  intros Hne. destruct Hcase as [|(Hbase & n & Hn & -> & Hused)]; [contradiction|].
  split; [apply name_used_iff, Hbase|]. split; [|exists n; split; [exact Hn|]; split; [reflexivity|intros m Hm; apply name_used_iff, Hused, Hm]].
  pose proof (suffix_loop_spec profile base fuel 2 ltac:(lia) Hmax) as Hl. destruct (suffix_loop profile base fuel 2) as [name|].
  - destruct Hl as (k & Hk & -> & Hf & Hu). f_equal. f_equal. destruct (Z.lt_total k n) as [Hlt|[->|Hlt]]; [|reflexivity|].
    + destruct Hf. apply Hused. lia.
    + destruct Hfree. apply Hu. lia.
  - exfalso. pose proof (suffixes_fit profile base _ Hl). pose proof (rule_names_length profile). lia.
Qed.
(** ** Facts: the request for a rule *)

Definition rule_fields (profile name action key value : bytes) : list field :=
  [text_field "profile" profile; text_field "position" (str "append");
   object_field "rule" [text_field "name" name; text_field "action" action;
                        mk_field key ([91] ++ join [print_string value] ++ [93]) (CH_JSON_ARRAY [text_value value])]].

Definition match_keys : list bytes := [str "domains"; str "domain_suffixes"; str "cidrs"].

Lemma match_key_quoted key : In key match_keys -> print_string key = [34] ++ key ++ [34] /\ cstr_ok key.
Proof. intros [<-|[<-|[<-|[]]]]; (split; [reflexivity|key_ok]). Qed.

Lemma rule_text_writes profile name action key value :
  In key match_keys -> writes grow (rule_text grow profile name action key value) (object_text (rule_fields profile name action key value)).
Proof.
  intros Hk. destruct (match_key_quoted key Hk) as [Eq _]. eapply all_of_text; [collect|]. cbn [concat]. unfold rule_fields, object_field.
  rewrite !object_text_cons. unfold key_text. cbn [field_key field_text map concat fst snd text_field join]. rewrite Eq. literals.
  rewrite ?app_nil_r. repeat (rewrite <- app_assoc; cbn [app]). reflexivity.
Qed.

Lemma rule_fields_ok profile name action key value :
  In key match_keys -> cstr_ok profile -> cstr_ok name -> cstr_ok action -> cstr_ok value ->
  Forall field_ok (rule_fields profile name action key value).
Proof.
  intros Hk Hp Hn Ha Hv. destruct (match_key_quoted key Hk) as [_ Hck].
  each; [apply text_field_ok; [key_ok|assumption]|apply text_field_ok; key_ok|]. apply object_field_ok; [key_ok|].
  each; [apply text_field_ok; [key_ok|assumption]..|]. split; [exact Hck|]. apply (read_array [print_string value] [text_value value]).
  constructor; [apply read_string, Hv|constructor].
Qed.

Lemma rule_match_key scope host key value : rule_match scope host = Done (key, value) -> In key match_keys.
Proof.
  unfold rule_match, match_keys. cbv zeta. destruct (traffic_host_ip host) as [[normalized bits]|].
  - destruct (strcaseeq _ (str "cidr")); [|discriminate]. intros [= <- _]. cbn [In]. auto.
  - destruct (strcaseeq _ (str "exact_host")); [intros [= <- _]; cbn [In]; auto|].
    destruct (strcaseeq _ (str "domain_suffix")); [intros [= <- _]; cbn [In]; auto|discriminate].
Qed.

(** What a request that succeeds has gone through. *)
Lemma rule_for_inv connection config active_profile request text :
  rule_for grow connection config active_profile request = Done text ->
  let ask := traffic_request_string request in
  let host := traffic_rule_host (c_target_host connection) in
  exists profile_name profile action family key value name,
    rule_profile (ask "profile"%string) connection active_profile = Some profile_name /\
    Config.ch_config_profile_named config (Some profile_name) = Some profile /\ host <> [] /\
    traffic_rule_action connection profile (ask "action"%string) = Done (action, family) /\
    rule_match (ask "scope"%string) host = Done (key, value) /\
    traffic_unique_rule_name profile (if beq (ask "name"%string) [] then traffic_rule_name family host else ask "name"%string) = Some name /\
    text = object_text (rule_fields profile_name name action key value).
Proof.
  unfold rule_for. cbv zeta. destruct (rule_profile _ _ _) as [profile_name|]; [|discriminate].
  destruct (Config.ch_config_profile_named _ _) as [profile|] eqn:Ep; [|discriminate].
  destruct (beq (traffic_rule_host _) []) eqn:Eh; [discriminate|]. apply beq_false in Eh.
  destruct (traffic_rule_action _ _ _) as [[action family]| |] eqn:Ea; cbn [mbind outcome_bind]; [|discriminate..].
  destruct (rule_match _ _) as [[key value]| |] eqn:Em; cbn [mbind outcome_bind]; [|discriminate..].
  destruct (traffic_unique_rule_name _ _) as [name|] eqn:En; [|discriminate]. intros E.
  pose proof (rule_text_writes profile_name name action key value (rule_match_key _ _ _ _ Em)) as Hw.
  destruct (take_text_spec grow _ _ (str "encode connection rule request") Hw) as [[Ht|[e Ht]] _]; rewrite Ht in E; [|discriminate].
  injection E as <-. exists profile_name, profile, action, family, key, value, name.
  split_and!; first [assumption|reflexivity].
Qed.

(** *** The rule covers the host *)

Lemma below_matches rule suffix host :
  Temporary.t_match_kind rule = Temporary.TEMPORARY_MATCH_SUFFIX -> Temporary.t_match_value rule = suffix -> below suffix host ->
  Temporary.temporary_matches rule host = true.
Proof.
  intros Ek Ev Hb. unfold Temporary.temporary_matches. rewrite Ek, Ev. destruct Hb as [->|[front ->]].
  - rewrite Z.eqb_refl. apply strcaseeq_true. reflexivity.
  - rewrite lenZ_app, lenZ_cons. replace (_ =? _) with false by (pose proof (lenZ_nonneg front); lia).
    replace (_ >? _) with true by (pose proof (lenZ_nonneg front); lia). cbn [andb].
    replace (lenZ front + (1 + lenZ suffix) - lenZ suffix - 1) with (lenZ front) by lia.
    replace (lenZ front + (1 + lenZ suffix) - lenZ suffix) with (lenZ (front ++ [46])) by (rewrite lenZ_app; change (lenZ [46]) with 1; lia).
    rewrite byte_at_app_r, Z.sub_diag by lia. replace (front ++ 46 :: suffix) with ((front ++ [46]) ++ suffix) by (rewrite <- app_assoc; reflexivity).
    rewrite sub_app_r. apply andb_true_iff. split; [reflexivity|apply strcaseeq_true; reflexivity].
Qed.

Lemma prefix_matches_self a length bits : Temporary.prefix_matches a a length bits = true.
Proof.
  unfold Temporary.prefix_matches. cbv zeta. rewrite beq_refl, andb_false_r. destruct (_ && _); [apply Z.eqb_refl|reflexivity].
Qed.

Lemma cidr_matches host normalized bits :
  traffic_host_ip host = Some (normalized, bits) -> Temporary.temporary_cidr_matches (normalized ++ [47] ++ dec bits) host = true /\ cstr_ok normalized.
Proof.
  intros Hip. assert (Hb : 0 <= bits <= 128 /\ 47 ∉ dec bits).
  { unfold traffic_host_ip in Hip. split; [destruct (pton4 host); [injection Hip as _ <-; lia|destruct (pton6 host); [injection Hip as _ <-; lia|discriminate]]|].
    apply digits_avoid; [apply dec_digits_only|reflexivity]. destruct (pton4 host); [|destruct (pton6 host)]; congruence || (injection Hip as _ <-; lia). }
  destruct Hb as [Hb Hd]. unfold Temporary.temporary_cidr_matches. cbn [app]. rewrite split_last_app by exact Hd. cbv zeta.
  rewrite RuleFeed.RuleFeed.prefix_scan by exact Hb. cbn [scan_any scan_rest scan_value]. change (beq [] []) with true. cbn [andb].
  replace (bits >=? 0) with true by lia. unfold traffic_host_ip in Hip. destruct (pton4 host) as [a|] eqn:E4.
  - injection Hip as <- <-. destruct (pton4_address _ _ E4) as [Hl Hok]. destruct (ntop4_text a Hl Hok) as (_ & Ht & Hc).
    split; [|apply ip_text_cstr, Ht]. rewrite (proj2 (split_first_None 58 (ntop4 a)) Hc). cbn [Temporary.pton andb Z.leb Z.compare Pos.compare Pos.compare_cont].
    rewrite pton4_ntop4, E4 by assumption. apply prefix_matches_self.
  - destruct (pton6 host) as [a|] eqn:E6; [|discriminate]. injection Hip as <- <-. destruct (pton6_address _ _ E6) as [Hl Hok].
    destruct (ntop6_text a Hl Hok) as (_ & Ht). pose proof (ntop6_colon a Hl Hok) as Hc. split; [|apply ip_text_cstr, Ht].
    destruct (split_first 58 (ntop6 a)) as [p|] eqn:Es; [|apply split_first_None in Es; contradiction].
    cbn [Temporary.pton andb Z.leb Z.compare Pos.compare Pos.compare_cont]. rewrite pton6_ntop6, E6 by assumption. apply prefix_matches_self.
Qed.

Definition kind_of_key (key : bytes) : Temporary.temporary_match_kind :=
  if beq key (str "domains") then Temporary.TEMPORARY_MATCH_DOMAIN
  else if beq key (str "domain_suffixes") then Temporary.TEMPORARY_MATCH_SUFFIX else Temporary.TEMPORARY_MATCH_CIDR.

Lemma rule_match_covers scope host key value :
  rule_match scope host = Done (key, value) -> host <> [] -> cstr_ok host ->
  value <> [] /\ cstr_ok value /\
  forall rule, Temporary.t_match_kind rule = kind_of_key key -> Temporary.t_match_value rule = value -> Temporary.temporary_matches rule host = true.
Proof.
  intros Hm Hne Hok. unfold rule_match in Hm. cbv zeta in Hm. destruct (traffic_host_ip host) as [[normalized bits]|] eqn:Hip.
  - destruct (strcaseeq _ (str "cidr")); [|discriminate]. injection Hm as <- <-. destruct (cidr_matches _ _ _ Hip) as [Hc Hn].
    split_and!; [destruct normalized; discriminate| |].
    + apply Forall_app. split; [exact Hn|]. constructor; [unfold cchar_ok; lia|]. eapply List.Forall_impl; [|apply dec_digits_only].
      { cbn. unfold isdigit, cchar_ok. intros c Hdig. lia. }
      unfold traffic_host_ip in Hip. destruct (pton4 host); [|destruct (pton6 host)]; congruence || (injection Hip as _ <-; lia).
    + intros rule Ek Ev. unfold Temporary.temporary_matches. rewrite Ek, Ev. exact Hc.
  - destruct (strcaseeq _ (str "exact_host")); [injection Hm as <- <-|destruct (strcaseeq _ (str "domain_suffix")); [injection Hm as <- <-|discriminate]].
    + split_and!; [exact Hne|exact Hok|]. intros rule Ek Ev. unfold Temporary.temporary_matches. rewrite Ek, Ev. apply strcaseeq_true. reflexivity.
    + split_and!; [apply domain_suffix_nonempty, Hne|eapply below_ok; [apply domain_suffix_below|exact Hok]|].
      intros rule Ek Ev. eapply below_matches; eauto. apply domain_suffix_below.
Qed.

(** ** Facts: a temporary rule from a connection *)

(** The texts of the connections and of the configuration are C strings. *)
Record sources_ok (s : ch_traffic_store) (config : Config.ch_config (D := double)) (active_profile : option bytes) : Prop := {
  ok_connections : Forall (fun e => Forall cstr_ok (info_texts (info e))) (entries s);
  ok_active : cstr_ok (default [] active_profile);
  ok_chains name profile chain :
    Config.ch_config_profile_named config (Some name) = Some profile -> traffic_default_chain profile = Some chain -> cstr_ok chain
}.

(** What the temporary rules ask of the traffic store. *)
Definition connection_target (s : ch_traffic_store) (conn : bytes) : result (bytes * bytes) :=
  connection ← ch_traffic_connection_copy s conn; Done (c_target connection, c_target_host connection).

Lemma traffic_request_string_ok request key : strings_ok request -> cstr_ok (traffic_request_string request key).
Proof.
  intros Hr. apply trim_ok, string_value_ok. unfold get. destruct (ch_json_object_get _ _) as [v|] eqn:E; [|exact I].
  eapply object_get_ok; eauto.
Qed.

Lemma rule_action_ok connection profile requested action family :
  traffic_rule_action connection profile requested = Done (action, family) -> cstr_ok (c_group_name connection) ->
  cstr_ok (c_chain_name connection) -> cstr_ok requested ->
  (forall chain, traffic_default_chain profile = Some chain -> cstr_ok chain) -> cstr_ok action /\ cstr_ok family.
Proof.
  intros Ha Hg Hc Hr Hd. unfold traffic_rule_action in Ha. cbv zeta in Ha.
  assert (Hl : cstr_ok (map tolower (traffic_trimmed_copy (Some requested)))) by apply lower_ok, trim_ok, Hr.
  set (lower := map tolower _) in *. clearbody lower.
  assert (Hpre : forall p t, cstr_ok p -> cstr_ok t -> cstr_ok (p ++ t)) by (intros p t Hp Ht; apply Forall_app; auto).
  destruct (beq lower [] || beq lower (str "allow")).
  - destruct (strcaseeq _ _); [apply done_pair in Ha as [<- <-]; split; key_ok|].
    destruct (negb _); [apply done_pair in Ha as [<- <-]; split; [apply Hpre; [key_ok|exact Hg]|key_ok]|].
    destruct (beq (c_chain_name connection) []).
    + destruct (traffic_default_chain profile) as [[|x chain]|] eqn:Ed; try discriminate. apply done_pair in Ha as [<- <-].
      split; [apply Hpre; [key_ok|apply Hd; reflexivity]|key_ok].
    + destruct (c_chain_name connection) as [|x chain]; [discriminate|]. apply done_pair in Ha as [<- <-]. split; [apply Hpre; [key_ok|exact Hc]|key_ok].
  - repeat match type of Ha with (if ?b then _ else _) = _ => destruct b end; try discriminate; apply done_pair in Ha as [<- <-]; (split; [exact Hl|key_ok]).
Qed.

(** The name that is found is free, and a C string when the one asked for is. *)
Lemma suffix_loop_free profile base fuel k name :
  suffix_loop profile base fuel k = Some name -> 2 <= k -> cstr_ok base -> ~ In name (rule_names profile) /\ cstr_ok name.
Proof.
  revert k. induction fuel as [|fuel IH]; intros k; cbn [suffix_loop]; [discriminate|]. destruct (k <? UINT_MAX); [|discriminate].
  destruct (traffic_config_name_used profile _) eqn:Eu; cbn [negb]; intros E Hk Hb; [eapply IH; eauto; lia|]. injection E as <-. split.
  - intros Hin. apply name_used_iff in Hin. unfold suffixed in *. cbn [app] in *. congruence.
  - apply Forall_app. split; [exact Hb|]. constructor; [unfold cchar_ok; lia|].
    eapply List.Forall_impl; [|apply dec_digits_only; lia]. cbn. unfold isdigit, cchar_ok. intros c Hc. lia.
Qed.

Lemma unique_name_ok profile base name :
  traffic_unique_rule_name profile base = Some name -> cstr_ok base -> ~ In name (rule_names profile) /\ cstr_ok name.
Proof.
  unfold traffic_unique_rule_name. destruct (traffic_config_name_used profile base) eqn:Eu; cbn [negb].
  - intros E Hb. eapply suffix_loop_free; eauto. lia.
  - intros [= <-] Hb. split; [|exact Hb]. intros Hin. apply name_used_iff in Hin. congruence.
Qed.

(** The profile of the rule: the one that the request names, else that of the
    connection, else the active one. *)
Definition profile_asked (request : ch_json_value) (e : ch_traffic_entry) (active_profile : option bytes) (name : bytes) : Prop :=
  let named := traffic_request_string request "profile" in
  (named <> [] /\ name = named) \/ (named = [] /\ i_profile (info e) <> [] /\ name = i_profile (info e)) \/
  (named = [] /\ i_profile (info e) = [] /\ active_profile = Some name).

(** The text of a rule request is read back. *)
Lemma rule_request_parses s config active_profile request_json text :
  ch_traffic_rule_request_json grow s config active_profile request_json = Done text ->
  bytes_ok request_json -> sources_ok s config active_profile ->
  exists e request profile_name profile name action key value,
    In e (entries s) /\ ch_json_parse (Some request_json) = Done request /\
    conn_id e = traffic_request_string request "conn_id" /\ profile_asked request e active_profile profile_name /\
    Config.ch_config_profile_named config (Some profile_name) = Some profile /\
    In key match_keys /\ ~ In name (rule_names profile) /\ value <> [] /\
    (forall rule, Temporary.t_match_kind rule = kind_of_key key -> Temporary.t_match_value rule = value ->
       Temporary.temporary_matches rule (traffic_rule_host (i_target_host (info e))) = true) /\
    ch_json_parse (Some text) = Done (object_value (rule_fields profile_name name action key value)).
Proof.
  intros Hreq Hb [Hent Hact Hch]. unfold ch_traffic_rule_request_json in Hreq.
  destruct (parse_returns request_json Hb) as [[e He]|(request & Hp & _ & Hs)]; [rewrite He in Hreq; discriminate|].
  rewrite Hp in Hreq. cbn [mbind outcome_bind] in Hreq. destruct request as [| | | | |members] eqn:Er; try discriminate. rewrite <- Er in *. clear members Er.
  destruct (ch_traffic_connection_copy s _) as [connection| |] eqn:Ec; cbn [mbind outcome_bind] in Hreq; [|discriminate..].
  unfold ch_traffic_connection_copy in Ec. destruct (beq _ []); [discriminate|].
  destruct (List.find _ (entries s)) as [e|] eqn:Ef; [|discriminate]. injection Ec as <-.
  apply List.find_some in Ef as [Hin Hid]. apply beq_true in Hid.
  destruct (rule_for_inv _ _ _ _ _ Hreq) as (profile_name & profile & action & family & key & value & name & Epn & Ep & Hh & Ea & Em & En & ->).
  rewrite List.Forall_forall in Hent. specialize (Hent e Hin). unfold info_texts in Hent.
  repeat match goal with Hx : Forall cstr_ok (_ :: _) |- _ => inversion_clear Hx end.
  cbn [traffic_connection_copy_entry c_target_host c_profile c_group_name c_chain_name] in *.
  assert (Hhost : cstr_ok (traffic_rule_host (i_target_host (info e)))) by (apply rule_host_ok; assumption).
  destruct (rule_match_covers _ _ _ _ Em Hh Hhost) as (Hv & Hvok & Hcov). pose proof (rule_match_key _ _ _ _ Em) as Hkey.
  assert (Hask : forall k, cstr_ok (traffic_request_string request k)) by (intros k; apply traffic_request_string_ok, Hs).
  destruct (rule_action_ok _ _ _ _ _ Ea) as [Haok Hfok]; [assumption..|apply Hask|intros chain Hd; eapply Hch; eauto|].
  destruct (unique_name_ok _ _ _ En) as [Hfree Hnok].
  { destruct (beq _ []); [apply rule_name_ok; assumption|apply Hask]. }
  exists e, request, profile_name, profile, name, action, key, value. split_and!; try assumption.
  { unfold rule_profile in Epn. unfold profile_asked. cbn [c_profile traffic_connection_copy_entry] in Epn. cbv zeta.
    destruct (beq (traffic_request_string request "profile") []) eqn:E1; [apply beq_true in E1|apply beq_false in E1; left; split; congruence].
    right. destruct (beq (i_profile (info e)) []) eqn:E2; [apply beq_true in E2; auto|apply beq_false in E2; left; split_and!; congruence]. }
  apply parse_text; [|cbn; lia]. apply reads_fields, rule_fields_ok; try assumption.
  unfold rule_profile in Epn. destruct (beq (traffic_request_string request "profile") []); [|injection Epn as <-; apply Hask].
  cbn [c_profile traffic_connection_copy_entry] in Epn. destruct (beq (i_profile (info e)) []); [rewrite Epn in Hact; exact Hact|injection Epn as <-; assumption].
Qed.

(** What the temporary rules read out of the request for a rule. *)
Lemma parsed_rule_inv s profile_name name action key value request rule ttl :
  In key match_keys ->
  Temporary.parsed_rule (object_value (rule_fields profile_name name action key value)) request (Some (connection_target s)) = Done (rule, ttl) ->
  Temporary.t_profile rule = profile_name /\ Temporary.t_name rule = name /\ Temporary.t_action rule = action /\
  Temporary.t_match_kind rule = kind_of_key key /\ Temporary.t_match_value rule = value /\
  Temporary.t_process rule = [] /\ Temporary.t_network rule = [] /\ Temporary.t_port rule = [].
Proof.
  intros Hkey. unfold Temporary.parsed_rule. cbv zeta.
  set (inner := [text_field "name" name; text_field "action" action;
                 mk_field key ([91] ++ join [print_string value] ++ [93]) (CH_JSON_ARRAY [text_value value])]).
  assert (Eget : Temporary.object_get (object_value (rule_fields profile_name name action key value)) "rule" = Some (object_value inner))
    by (unfold Temporary.object_get; rewrite field_get; reflexivity).
  rewrite Eget. cbn [ch_json_value_type object_value]. fold (object_value inner).
  assert (Em : Temporary.request_match (object_value inner) = (kind_of_key key, Some (text_value value))
    /\ Temporary.temporary_first_string (object_value inner) "processes" = [] /\ Temporary.temporary_first_string (object_value inner) "networks" = []
    /\ Temporary.temporary_first_port (object_value inner) = Some []).
  { destruct Hkey as [<-|[<-|[<-|[]]]]; split_and!; reflexivity. }
  destruct Em as (-> & -> & -> & ->).
  assert (En : Temporary.temporary_request_string (object_value inner) "name" = name) by reflexivity.
  assert (Eac : Temporary.temporary_request_string (object_value inner) "action" = action) by reflexivity.
  assert (Epr : Temporary.temporary_request_string (object_value (rule_fields profile_name name action key value)) "profile" = profile_name) by reflexivity.
  rewrite En, Eac, Epr. clearbody inner. destruct (Temporary.request_source _ _) as [[target host]| |]; cbn [mbind outcome_bind]; [|discriminate..].
  destruct (Temporary.request_ttl request) as [n| |]; cbn [mbind outcome_bind]; [|discriminate..].
  destruct (n >? _); [discriminate|]. destruct (_ || _); [discriminate|]. intros E. injection E as <- <-. cbn. split_and!; reflexivity.
Qed.

Lemma insert_head exited now rules next ttl pid rules' response :
  Temporary.temporary_insert_json grow exited now rules next ttl pid true = (rules', Done response) ->
  exists identifier rest, Temporary.items rules' = Temporary.identify next identifier now ttl pid :: rest.
Proof.
  unfold Temporary.temporary_insert_json, Temporary.insert_rule. cbn [negb Temporary.sequence].
  destruct (_ >? _); [discriminate|]. intros E. injection E as <- _. cbn [Temporary.items Temporary.with_items]. eauto.
Qed.

(** A rule at the head of the table that has not expired and selects the connection decides. *)
Lemma head_decides exited now started finished rules rule rest profile context target host port :
  Temporary.items rules = rule :: rest -> Rules.target context = Some target -> Temporary.temporary_split_target target = (host, port) ->
  Temporary.expired exited now rule = false -> Temporary.selects profile context host port rule = true ->
  exists d, snd (Temporary.ch_temporary_rules_decide exited now started finished rules profile context true true) = Done (Some d) /\
    Rules.d_rule_name d = Temporary.t_name rule /\ Rules.d_matcher_value d = match Temporary.t_match_kind rule with
      Temporary.TEMPORARY_MATCH_NONE => Temporary.t_process rule | _ => Temporary.t_match_value rule end.
Proof.
  intros Hi Ht Hs He Hsel. unfold Temporary.ch_temporary_rules_decide. rewrite Ht, Hs. cbn [negb snd].
  unfold Temporary.temporary_prune_locked. rewrite Hi. cbn [Temporary.items Temporary.with_items]. rewrite filter_cons_True by exact He.
  cbn [List.find]. rewrite Hsel. eexists. split; [reflexivity|]. unfold Temporary.temporary_decision_copy.
  destruct (match Temporary.strip_prefix _ _ with Some _ => _ | None => _ end) as [[? ?] ?]. split; reflexivity.
Qed.

(** C29: A temporary rule that is made from a connection decides the later ones
    to its host.  When the request succeeds, the connection is the one with the
    requested identifier, and the table has a new first rule for the profile
    that the request names (else that of the connection, else the active one),
    which the configuration has, under a name that no rule of the profile has;
    and until the rule expires, a connection of that profile is decided by this
    rule when the host of its target, in lower case, is the host of the first
    connection as the rule keeps it: trimmed, in lower case, without brackets
    and without final dots.  (A target that is written with a final dot keeps
    it and is not covered.)  The texts of the store and of the configuration
    are C strings. *)
Theorem temporary_rule_takes_effect s config active_profile request_json exited now rules rules' response :
  Temporary.ch_temporary_rules_create_from_connection_json grow exited now rules (connection_target s)
    (ch_traffic_rule_request_json grow s config active_profile request_json) request_json true = (rules', Done response) ->
  bytes_ok request_json -> sources_ok s config active_profile ->
  exists request e profile rule rest,
    ch_json_parse (Some request_json) = Done request /\
    In e (entries s) /\ conn_id e = traffic_request_string request "conn_id" /\
    Temporary.items rules' = rule :: rest /\ profile_asked request e active_profile (Temporary.t_profile rule) /\
    Config.ch_config_profile_named config (Some (Temporary.t_profile rule)) = Some profile /\
    ~ In (Temporary.t_name rule) (rule_names profile) /\
    forall now' started finished context target port,
      Rules.target context = Some target ->
      Temporary.temporary_split_target target = (traffic_rule_host (i_target_host (info e)), port) ->
      now' < Temporary.t_expires_ns rule ->
      exists d, snd (Temporary.ch_temporary_rules_decide exited now' started finished rules' (Temporary.t_profile rule) context true true)
                = Done (Some d) /\ Rules.d_rule_name d = Temporary.t_name rule.
Proof.
  intros Hc Hb Hok. unfold Temporary.ch_temporary_rules_create_from_connection_json in Hc.
  destruct (ch_traffic_rule_request_json _ _ _ _ _) as [text| |] eqn:Er; [|discriminate..].
  destruct (rule_request_parses _ _ _ _ _ Er Hb Hok) as (e & request & profile_name & profile & name & action & key & value & Hin & Hp & Hid & Hasked &
    Hprofile & Hkey & Hfree & _ & Hcov & Htext).
  unfold Temporary.temporary_rule_from_request in Hc. rewrite Htext, Hp in Hc.
  destruct (Temporary.parsed_rule _ _ _) as [[next ttl]| |] eqn:Epr; cbn [mbind outcome_bind Temporary.insert_parsed] in Hc; [|discriminate..].
  destruct (parsed_rule_inv _ _ _ _ _ _ _ _ _ Hkey Epr) as (E1 & E2 & E3 & E4 & E5 & E6 & E7 & E8).
  destruct (insert_head _ _ _ _ _ _ _ _ Hc) as (identifier & rest & Hi). set (rule := Temporary.identify _ _ _ _ _) in Hi.
  exists request, e, profile, rule, rest. subst rule. cbn [Temporary.identify Temporary.t_profile Temporary.t_name Temporary.t_expires_ns].
  split_and!; [exact Hp|exact Hin|exact Hid|exact Hi|rewrite E1; exact Hasked|rewrite E1; exact Hprofile|rewrite E2; exact Hfree|].
  - intros now' started finished context target port Ht Hs Hexp.
    assert (Hsel : Temporary.selects (Temporary.t_profile next) context (traffic_rule_host (i_target_host (info e))) port
      (Temporary.identify next identifier now ttl 0) = true).
    { unfold Temporary.selects. cbv zeta. cbn [Temporary.identify Temporary.t_profile Temporary.t_process Temporary.t_network Temporary.t_port].
      rewrite E6, E7, E8, !beq_refl. cbn [orb andb]. apply Hcov; assumption. }
    assert (Hlive : Temporary.expired exited now' (Temporary.identify next identifier now ttl 0) = false) by (unfold Temporary.expired; cbn; lia).
    destruct (head_decides exited now' started finished rules' _ rest _ context target _ port Hi Ht Hs Hlive Hsel) as (d & Hd & Hn & _).
    exists d. split; [exact Hd|exact Hn].
Qed.

(** ** Facts: cleaning up *)

Lemma append_rules_texts l first b b' :
  append_rules grow l first b = (b', Done true) ->
  exists texts, Forall2 (fun i t => rule_json grow i = Done t) l texts /\ append_list grow (append grow) first texts b = (b', true).
Proof.
  revert first b. induction l as [|i l IH]; intros first b; cbn [append_rules].
  - intros E. injection E as <-. exists []. split; [constructor|reflexivity].
  - destruct (rule_json grow i) as [text|e|] eqn:Ej; [|discriminate..]. intros E.
    set (start := if first then (b, true) else ch_json_append grow b [44]) in E. destruct start as [b1 ok1] eqn:E1. subst start.
    destruct ok1; [|discriminate]. destruct (ch_json_append grow b1 text) as [b2 ok2] eqn:E2. destruct ok2; [|discriminate].
    apply IH in E as (texts & Hl & Ha). exists (text :: texts). split; [constructor; assumption|].
    cbn [append_list]. unfold append at 1. destruct first.
    + injection E1 as ->. rewrite E2. exact Ha.
    + rewrite E1. cbn. rewrite E2. exact Ha.
Qed.

(** The rules as JSON values. *)
Definition rule_values (rules : list (Config.toml_item double)) : option (list ch_json_value) :=
  mapM (fun i => Config.table_at i ≫= ConfigText.table_value 65) rules.

Definition cleanup_value (profile_name : bytes) (values : list ch_json_value) : ch_json_value :=
  CH_JSON_OBJECT [(str "profile", text_value profile_name); (str "rules", CH_JSON_ARRAY values)].

Lemma rule_json_value i text : rule_json grow i = Done text ->
  exists v, Config.table_at i ≫= ConfigText.table_value 65 = Some v /\ text = print_value v.
Proof.
  unfold rule_json. destruct (Config.table_at i) as [t|]; [|discriminate]. unfold ConfigText.ch_config_table_json. intros E. cbn [mbind option_bind].
  destruct (proj1 (ConfigText.table_json_levels grow 65 t (str "encode config table JSON")) text E) as (v & Hv & -> & _). eauto.
Qed.

Lemma rule_texts_values rules texts :
  Forall2 (fun i t => rule_json grow i = Done t) rules texts -> exists vs, rule_values rules = Some vs /\ texts = map print_value vs.
Proof.
  induction 1 as [|i t rules texts Hi _ (vs & Hvs & ->)]; [exists []; split; reflexivity|].
  apply rule_json_value in Hi as (v & Hv & ->). exists (v :: vs). split; [|reflexivity]. unfold rule_values in *. cbn [mapM].
  rewrite Hv. cbn [mbind option_bind]. rewrite Hvs. reflexivity.
Qed.

Lemma cleanup_text_value profile_name rules text :
  cleanup_text grow profile_name rules = Done text ->
  exists vs, rule_values rules = Some vs /\ text = print_value (cleanup_value profile_name vs).
Proof.
  unfold cleanup_text. cbv zeta. set (front := [append grow _; append_text grow profile_name; append grow _]).
  destruct (all_of front ch_json_init) as [b ok] eqn:E1. destruct ok; cbn [negb]; [|discriminate].
  destruct (append_rules grow rules true b) as [b2 r] eqn:E2. destruct r as [[]| |]; cbn [mbind outcome_bind negb]; try discriminate.
  destruct (append_rules_texts _ _ _ _ E2) as (texts & Ht & Ha). destruct (rule_texts_values _ _ Ht) as (vs & Hvs & ->).
  intros E. exists vs. split; [exact Hvs|].
  destruct (append_list_writes grow (append grow) (fun t => t) (map print_value vs)) as [Hw _].
  { apply List.Forall_forall. intros t _. apply append_spec. }
  rewrite List.map_id in Hw.
  assert (Hall : writes grow (all_of [all_of front; append_list grow (append grow) true (map print_value vs); append grow (str "]}")])
                   (print_value (cleanup_value profile_name vs))).
  { eapply all_of_text; [apply Forall2_cons; [apply all_of_writes; unfold front; collect|]; apply Forall2_cons; [exact Hw|]; collect|].
    cbn [concat]. unfold cleanup_value. rewrite object_members. unfold member_text, rest_text, text_value. cbn [map concat fst snd print_value member_text].
    unfold member_text. cbn [fst snd print_value]. literals. rewrite !app_nil_r. repeat (rewrite <- app_assoc; cbn [app]). reflexivity. }
  destruct (take_text_spec grow _ _ (str "encode cleanup mutation") Hall) as [[Hd|[e Hd]] _];
    unfold take_text in Hd; cbn [all_of] in Hd; fold (all_of front) in Hd; rewrite E1, Ha in Hd; destruct (append grow (str "]}") b2) as [b3 []];
    destruct (fst (ch_json_take b3)); try discriminate; congruence.
Qed.

(** The request is accepted for the suggestions that a snapshot would make. *)
Lemma still_suggested_iff s kind operation profile_name target_name index target :
  target_name = traffic_config_string target "name" ->
  still_suggested s kind operation profile_name target_name index target = true <->
  exists sg, suggest (entries s) profile_name (index =? 0)%nat target = Some sg /\ sg_kind sg = kind /\ sg_operation sg = operation.
Proof.
  intros ->. unfold still_suggested, suggest. destruct ((index =? 0)%nat && negb (traffic_rule_has_matchers target)).
  - split.
    + destruct (beq kind (str "broad_match") && beq operation (str "move_rule_to_end")) eqn:E.
      * apply andb_true_iff in E as [Ek Eo]. apply beq_true in Ek, Eo. intros _. eexists. split; [reflexivity|]. auto.
      * case_if; discriminate.
    + intros (sg & Hs & <- & <-). injection Hs as <-. reflexivity.
  - cbn [negb andb]. split.
    + destruct (_ && _); [discriminate|]. destruct (beq kind _ && beq operation _) eqn:E; [|discriminate]. intros ->.
      apply andb_true_iff in E as [Ek Eo]. apply beq_true in Ek, Eo. eexists. split; [reflexivity|]. auto.
    + intros (sg & Hs & Hk & Ho). destruct (negb (traffic_rule_was_hit _ _ _)); [|discriminate]. injection Hs as <-. rewrite <- Hk, <- Ho. reflexivity.
Qed.

Lemma rule_index_spec target rules index : rule_index target rules = Some index ->
  exists i, rules !! index = Some i /\ traffic_config_string (Config.table_at i) "name" = target /\
    Forall (fun j => traffic_config_string (Config.table_at j) "name" <> target) (take index rules).
Proof.
  revert index. induction rules as [|i rules IH]; intros index; cbn [rule_index]; [discriminate|].
  destruct (beq _ target) eqn:Eb.
  - intros [= <-]. apply beq_true in Eb. exists i. split; [reflexivity|]. split; [exact Eb|constructor].
  - destruct (rule_index target rules) as [k|]; [|discriminate]. intros [= <-]. destruct (IH k eq_refl) as (j & Hj & Hn & Ht).
    exists j. split; [exact Hj|]. split; [exact Hn|]. apply beq_false in Eb. constructor; assumption.
Qed.

(** A cleanup request changes one rule and keeps the others.  It succeeds
    only for a rule of the profile (the first one of its name) for which a
    snapshot would make that suggestion now.  The request that it returns
    lists all other rules of the profile, unchanged and in their order, and
    after them the rule itself when it is moved to the end; and it is read
    back as that list. *)
Theorem cleanup_keeps_other_rules s config active_profile request_json text :
  ch_traffic_cleanup_request_json grow s config active_profile request_json = Done text ->
  exists request profile_name rules before rule after values sg,
    ch_json_parse (Some request_json) = Done request /\
    rules = rules_of (Some config) profile_name /\ rules = before ++ rule :: after /\
    let target := traffic_request_string request "target_rule_name" in
    traffic_config_string (Config.table_at rule) "name" = target /\
    Forall (fun j => traffic_config_string (Config.table_at j) "name" <> target) before /\
    suggest (entries s) profile_name (length before =? 0)%nat (Config.table_at rule) = Some sg /\
    sg_operation sg = traffic_request_string request "operation" /\
    rule_values (before ++ after ++ if beq (sg_operation sg) (str "move_rule_to_end") then [rule] else []) = Some values /\
    text = print_value (cleanup_value profile_name values) /\
    (exact (cleanup_value profile_name values) -> height (cleanup_value profile_name values) <= 64 ->
     ch_json_parse (Some text) = Done (cleanup_value profile_name values)).
Proof.
  unfold ch_traffic_cleanup_request_json. destruct (ch_json_parse (Some request_json)) as [request| |]; cbn [mbind outcome_bind]; [|discriminate..].
  destruct request as [| | | | |members] eqn:Er; try discriminate. rewrite <- Er. clear members Er. cbv zeta.
  set (profile_name := if beq (traffic_request_string request "profile") [] then _ else _).
  set (target := traffic_request_string request "target_rule_name"). set (operation := traffic_request_string request "operation").
  destruct (beq _ [] || _ || _ || _); [discriminate|]. destruct (Config.ch_config_profile_named _ _); [|discriminate].
  destruct (rule_index target _) as [index|] eqn:Ei; [|discriminate]. destruct (negb (beq _ _)); [discriminate|].
  apply rule_index_spec in Ei as (rule & Hrule & Hname & Hbefore). set (rules := rules_of (Some config) profile_name) in *. rewrite Hrule. cbn [mbind option_bind].
  destruct (still_suggested _ _ _ _ _ _ _) eqn:Es; cbn [negb]; [|discriminate].
  apply (still_suggested_iff s _ _ _ _ _ _ (eq_sym Hname)) in Es as (sg & Hsg & _ & Hop). intros Ht.
  destruct (cleanup_text_value _ _ _ Ht) as (values & Hv & ->).
  assert (Hlen : length (take index rules) = index) by (apply length_take_le; apply lookup_lt_Some in Hrule; lia).
  assert (Hdrop : drop index rules = rule :: drop (S index) rules) by (apply drop_S, Hrule).
  exists request, profile_name, rules, (take index rules), rule, (drop (S index) rules), values, sg.
  rewrite Hlen, Hop. rewrite Hdrop in Hv. cbn [take] in Hv. split_and!; try assumption; try reflexivity.
  - rewrite <- Hdrop. symmetry. apply take_drop.
  - apply parse_printed.
Qed.
End Facts.

(** ** Witnesses *)

Section Witnesses.
Import PlainLongDouble PlainInet.
#[local] Existing Instance Temporary.plain_compare.
#[local] Existing Instance plain_rate.
#[local] Existing Instance FeedCache.plain_size.

Definition w_raw (s : bytes) : Config.toml_raw double := Config.mk_raw (Some s) None None None.

Definition w_rule_table (name : String.string) (keys : list (bytes * Config.toml_array double)) : Config.toml_table double :=
  Config.mk_table [(str "name", w_raw (str name)); (str "action", w_raw (str "direct"))] keys [].

(** A profile with a rule for everything first, and two for a name. *)
Definition w_rules : list (Config.toml_item double) :=
  map Config.item_tab [w_rule_table "all" []; w_rule_table "web" [(str "ports", Config.mk_array [Config.item_val (w_raw (str "443"))])];
                       w_rule_table "web-2" [(str "domains", Config.mk_array [Config.item_val (w_raw (str "old.example"))])]].

Definition w_home : Config.toml_table double :=
  Config.mk_table [(str "name", w_raw (str "home"))]
    [(str "chain", Config.mk_array [Config.item_tab (Config.mk_table [(str "name", w_raw (str "main"))] [] [])]);
     (str "rule", Config.mk_array w_rules)] [].

Definition w_rules_config : Config.ch_config (D := double) :=
  Config.mk_config (Config.mk_table [] [(str "profile", Config.mk_array [Config.item_tab w_home])] []) None [].

Example w_new_name : traffic_unique_rule_name w_home (str "web") = Some (str "web-3") /\
  traffic_rule_name (str "Allow") (str "CDN..Example-1.org") = str "allow-cdn-example-1-org" /\
  map traffic_domain_suffix [str "a.b.example.org"; str "www.shop.co.uk"; str "co.uk"; str "localhost"]
  = [str "example.org"; str "shop.co.uk"; str "co.uk"; str "localhost"].
Proof. vm_compute. auto. Qed.

Definition w_request_id : bytes := object_text [text_field "conn_id" (str "native-2"); text_field "name" (str "web"); text_field "scope" (str "domain_suffix")].

Abbreviation w_from_connection :=
  (Temporary.ch_temporary_rules_create_from_connection_json w_grow (fun _ => false) 1000 (Temporary.mk_rules [] 4 0) (connection_target w_saved)
     (ch_traffic_rule_request_json w_grow w_saved w_rules_config (Some (str "home")) w_request_id) w_request_id true).

Lemma w_sources_ok : sources_ok w_saved w_rules_config (Some (str "home")).
Proof.
  constructor.
  - assert (Hb : forallb (fun e => forallb (forallb (fun c => (0 <? c) && (c <? 256))) (info_texts (info e))) (entries w_saved) = true)
      by (vm_compute; reflexivity).
    apply List.Forall_forall. intros e He. rewrite forallb_forall in Hb. specialize (Hb e He). rewrite forallb_forall in Hb.
    apply List.Forall_forall. intros t Ht. apply literal_ok, (Hb t Ht).
  - key_ok.
  - intros name profile chain Hp Hc. assert (Ep : profile = w_home).
    { unfold Config.ch_config_profile_named in Hp. destruct (Config.empty (Some name)); [discriminate|].
      change (Config.items _) with [Config.item_tab w_home] in Hp. unfold Config.find_named in Hp. cbn [List.find] in Hp.
      destruct (Config.named _ (Config.item_tab w_home)); [|discriminate Hp]. change (Some w_home = Some profile) in Hp. congruence. }
    subst profile. vm_compute in Hc. injection Hc as <-. key_ok.
Qed.

Lemma w_from_connection_done : w_from_connection = (fst w_from_connection, Done (text_of (snd w_from_connection))).
Proof. apply pair_with. vm_compute. reflexivity. Qed.

Lemma temporary_rule_takes_effect_witness :
  exists request e profile rule rest,
    ch_json_parse (Some w_request_id) = Done request /\ In e (entries w_saved) /\ conn_id e = traffic_request_string request "conn_id" /\
    Temporary.items (fst w_from_connection) = rule :: rest /\ profile_asked request e (Some (str "home")) (Temporary.t_profile rule) /\
    Config.ch_config_profile_named w_rules_config (Some (Temporary.t_profile rule)) = Some profile /\
    ~ In (Temporary.t_name rule) (rule_names profile).
Proof.
  destruct (temporary_rule_takes_effect w_grow w_saved w_rules_config (Some (str "home")) w_request_id (fun _ => false) 1000
    (Temporary.mk_rules [] 4 0) (fst w_from_connection) (text_of (snd w_from_connection)) w_from_connection_done
    ltac:(apply bytes_okb_ok; vm_compute; reflexivity) w_sources_ok) as (request & e & profile & rule & rest & Hr & He & Hid & Hi & Ha & Hp & Hn & _).
  exists request, e, profile, rule, rest. split_and!; assumption.
Defined.

(** The rule for everything moves to the end. *)
Definition w_cleanup : bytes :=
  object_text [text_field "kind" (str "broad_match"); text_field "operation" (str "move_rule_to_end"); text_field "rule_name" (str "all");
               text_field "target_rule_name" (str "all")].

Abbreviation w_cleaned := (ch_traffic_cleanup_request_json w_grow w_saved w_rules_config (Some (str "home")) w_cleanup).

Lemma w_cleaned_done : w_cleaned = Done (text_of w_cleaned).
Proof. vm_compute. reflexivity. Qed.

Example w_cleaned_order :
  match ch_json_parse (Some (text_of w_cleaned)) with
  | Done root => match get (Some root) (str "rules") with
                 | Some (CH_JSON_ARRAY l) => map (fun v => ch_json_string_value (get (Some v) (str "name"))) l
                 | _ => []
                 end
  | _ => []
  end = map Some [str "web"; str "web-2"; str "all"].
Proof. vm_compute. reflexivity. Qed.

(** A rule for a host with the dot of the root does not cover it: the target
    keeps the dot, the rule does not have it. *)
Example w_root_dot :
  let host := str "example.org." in
  rule_match (str "auto") (traffic_rule_host host) = Done (str "domains", str "example.org") /\
  fst (Temporary.temporary_split_target (host ++ str ":443")) = host /\
  strcaseeq (str "example.org") host = false.
Proof. vm_compute. auto. Qed.

(** The name of a chain is asked for in lower case, whatever the request says. *)
Example w_chain_lowered :
  match traffic_rule_action (mk_connection [] [] [] [] [] [] [] [] [] [] [] false) w_home (str "chain:Main") with
  | Done (action, _) => beq action (str "chain:main")
  | _ => false
  end = true.
Proof. vm_compute. reflexivity. Qed.
End Witnesses.
End TrafficRules.
