(* ===== verification/ConfigMutation.v ===== *)
(** * Editing a configuration: [native/src/config_mutation.c], the operations

    An edit takes the JSON of the whole document ([ch_config_table_json]),
    changes it as the request says, writes it as TOML and validates the
    result.  Here are the operations on the JSON.  The code changes the tree in
    place through pointers into it; a value of the tree has one owner, so that
    an operation is a function from the old value to the new one, and the
    caller puts it back where it stood.

    Allocation is taken to succeed. *)

From S2P Require Import Prelude CLib Json JsonText TempRules Config.

(** What the code uses of [floor] and [modf]: whether a number is a whole one;
    [format_0f] is [printf("%.0f")]. *)
Class DoubleWhole `{Double} : Type := {
  double_whole : double -> bool;
  format_0f : double -> bytes;
  double_whole_int n : INT64_MIN <= n <= INT64_MAX -> double_whole (double_of_int64 n) = true;
  format_0f_int n : - 2 ^ 53 <= n <= 2 ^ 53 -> format_0f (double_of_int64 n) = dec n
}.

Module Mutation.
Import Json JsonText.

Section Operations.
Context `{DoubleCompare, !DoubleWhole, !LongDouble}.

(** ** Members *)

Definition mutation_trimmed_copy (value : option bytes) : option bytes := trim <$> value.

Definition ask (object : option ch_json_value) (key : String.string) : option ch_json_value :=
  ch_json_object_get object (Some (str key)).

(** Neither missing nor [null]. *)
Definition given (v : option ch_json_value) : bool := match ch_json_value_type v with TYPE_NULL => false | _ => true end.

Definition mutation_set_owned (object : ch_json_value) (key : String.string) (v : ch_json_value) : result ch_json_value :=
  ch_json_object_set (Some object) (Some (str key)) (Some v).

Definition mutation_set_clone (object : ch_json_value) (key : String.string) (v : ch_json_value) : result ch_json_value :=
  mutation_set_owned object key (ch_json_value_clone v).

Definition without (object : ch_json_value) (key : String.string) : ch_json_value :=
  default object (fst (ch_json_object_remove (Some object) (Some (str key)))).

Definition mutation_type_error {A} (field type : bytes) : result A := fail CH_ERROR_INVALID_ARGUMENT (field ++ str " must be " ++ type).

(** The object under the key, a new one when there is none. *)
Definition mutation_ensure_object (parent : ch_json_value) (key : String.string) : result ch_json_value :=
  match ask (Some parent) key with
  | Some v =>
      match v with
      | CH_JSON_OBJECT _ => Done v
      | _ => mutation_type_error (str key) (str "an object")
      end
  | None => Done ch_json_value_new_object
  end.

(** A loop over fields that changes an object. *)
Fixpoint each_field (step : ch_json_value -> String.string -> result ch_json_value) (keys : list String.string) (object : ch_json_value)
    : result ch_json_value :=
  match keys with
  | [] => Done object
  | key :: keys' => object ← step object key; each_field step keys' object
  end.

(** Copy a field of the request when it is given and has the type. *)
Definition copy_when (valid : ch_json_value -> bool) (type : bytes) (name : String.string -> bytes) (request : ch_json_value)
    (object : ch_json_value) (key : String.string) : result ch_json_value :=
  match ask (Some request) key with
  | Some v =>
      if negb (given (Some v)) then Done object
      else if valid v then mutation_set_clone object key v
      else mutation_type_error (name key) type
  | None => Done object
  end.

Definition is_bool (v : ch_json_value) : bool := match v with CH_JSON_BOOL _ => true | _ => false end.
Definition is_array (v : ch_json_value) : bool := match v with CH_JSON_ARRAY _ => true | _ => false end.
Definition is_object (v : ch_json_value) : bool := match v with CH_JSON_OBJECT _ => true | _ => false end.

Definition negative (d : double) : bool := double_ltb d (double_of_int64 0).

(** A number that is not negative and whole. *)
Definition is_count (v : ch_json_value) : bool :=
  match v with CH_JSON_NUMBER n => negb (negative (number_value n)) && double_whole (number_value n) | _ => false end.

Definition copy_bool (request object : ch_json_value) (key : String.string) : result ch_json_value :=
  copy_when is_bool (str "a boolean") str request object key.

Definition mutation_set_trimmed_string (object request : ch_json_value) (key : String.string) : result ch_json_value :=
  match ask (Some request) key with
  | Some v =>
      if negb (given (Some v)) then Done object
      else match ch_json_string_value (Some v) with
           | None => mutation_type_error (str key) (str "a string")
           | Some text => mutation_set_owned object key (ch_json_value_new_string (mutation_trimmed_copy (Some text)))
           end
  | None => Done object
  end.

(** The flag [enabled] of a new object. *)
Definition enabled_flag (object request : ch_json_value) (name : bytes) : result ch_json_value :=
  match ask (Some request) "enabled" with
  | Some v =>
      if given (Some v) && negb (is_bool v) then mutation_type_error name (str "a boolean")
      else mutation_set_owned object "enabled" (ch_json_value_new_bool (ch_json_bool_value (Some v) false))
  | None => mutation_set_owned object "enabled" (ch_json_value_new_bool false)
  end.

(** ** DNS *)

Definition mutation_build_dns (request : option ch_json_value) : result ch_json_value :=
  match request with
  | Some (CH_JSON_OBJECT members) =>
      let request := CH_JSON_OBJECT members in
      dns ← enabled_flag ch_json_value_new_object request (str "enabled");
      dns ← match ask (Some request) "timeout" with
            | Some v =>
                if negb (given (Some v)) then Done dns
                else match ch_json_string_value (Some v) with
                     | None => mutation_type_error (str "timeout") (str "a string")
                     | Some text =>
                         if beq (trim text) [] then Done dns
                         else mutation_set_owned dns "timeout" (ch_json_value_new_string (Some (trim text)))
                     end
            | None => Done dns
            end;
      match ask (Some request) "upstreams" with
      | Some (CH_JSON_ARRAY l) => mutation_set_owned dns "upstream" (ch_json_value_clone (CH_JSON_ARRAY l))
      | v => if given v then mutation_type_error (str "upstreams") (str "an array")
             else mutation_set_owned dns "upstream" ch_json_value_new_array
      end
  | _ => mutation_type_error (str "dns") (str "an object")
  end.

(** ** The conditioner *)

Definition conditioner_number (request object : ch_json_value) (key : String.string) : result ch_json_value :=
  let percent := beq (str key) (str "loss_percent") in
  match ask (Some request) key with
  | Some v =>
      if negb (given (Some v)) then Done object
      else match v with
           | CH_JSON_NUMBER n =>
               let d := number_value n in
               if negative d || (percent && double_ltb (double_of_int64 100) d) || (negb percent && negb (double_whole d)) then
                 fail CH_ERROR_INVALID_ARGUMENT
                   (if percent then str "loss_percent must be between 0 and 100" else str key ++ str " must be a non-negative integer")
               else mutation_set_clone object key v
           | _ => mutation_type_error (str key) (str "a number")
           end
  | None => Done object
  end.

Definition conditioner_duration (request object : ch_json_value) (key : String.string) : result ch_json_value :=
  match ask (Some request) key with
  | Some v =>
      if negb (given (Some v)) then Done object
      else match ch_json_string_value (Some v) with
           | None => mutation_type_error (str key) (str "a string")
           | Some text =>
               if beq (trim text) [] then Done (without object key)
               else
                 duration ← Config.ch_config_parse_duration_ns (Some (trim text));
                 if duration <? 0 then fail CH_ERROR_INVALID_ARGUMENT (str key ++ str " must not be negative")
                 else mutation_set_owned object key (ch_json_value_new_string (Some (trim text)))
           end
  | None => Done object
  end.

Definition mutation_apply_conditioner (profile request : ch_json_value) : result ch_json_value :=
  conditioner ← mutation_ensure_object profile "conditioner";
  conditioner ← copy_bool request conditioner "enabled";
  conditioner ← each_field (conditioner_number request) ["download_kbps"; "upload_kbps"; "loss_percent"]%string conditioner;
  conditioner ← each_field (conditioner_duration request) ["latency"; "jitter"]%string conditioner;
  mutation_set_owned profile "conditioner" conditioner.

(** ** Listeners and the settings of a profile *)

Definition mutation_apply_tun (listen request : ch_json_value) : result ch_json_value :=
  if negb (is_object request) then mutation_type_error (str "tun") (str "an object")
  else
    tun ← enabled_flag ch_json_value_new_object request (str "tun.enabled");
    tun ← each_field (fun object key => mutation_set_trimmed_string object request key) ["name"; "chain"]%string tun;
    tun ← copy_when is_count (str "a non-negative integer") (fun key => str "tun." ++ str key) request tun "mtu";
    tun ← each_field (copy_when is_array (str "an array") str request) ["addresses"; "routes"; "exclude_cidrs"]%string tun;
    mutation_set_owned listen "tun" tun.

Definition apply_listen (profile request : ch_json_value) : result ch_json_value :=
  if negb (is_object request) then mutation_type_error (str "listen") (str "an object")
  else
    listen ← mutation_ensure_object profile "listen";
    listen ← each_field (fun object key => mutation_set_trimmed_string object request key)
               ["socks5"; "socks5_chain"; "http"; "http_chain"]%string listen;
    listen ← match ask (Some request) "tun" with
             | Some tun => if given (Some tun) then mutation_apply_tun listen tun else Done listen
             | None => Done listen
             end;
    mutation_set_owned profile "listen" listen.

Definition apply_prompt (root request : ch_json_value) : result ch_json_value :=
  if negb (is_object request) then mutation_type_error (str "prompt") (str "an object")
  else
    prompt ← mutation_ensure_object root "prompt";
    prompt ← each_field (copy_bool request) ["enabled"; "default_allow"]%string prompt;
    prompt ← copy_when is_count (str "a non-negative integer") str request prompt "timeout_seconds";
    prompt ← mutation_set_trimmed_string prompt request "silent_mode";
    mutation_set_owned root "prompt" prompt.

(** A part of the settings that is given. *)
Definition when_given (request : ch_json_value) (key : String.string) (object : ch_json_value) (apply : ch_json_value -> result ch_json_value)
    : result ch_json_value :=
  match ask (Some request) key with
  | Some v => if given (Some v) then apply v else Done object
  | None => Done object
  end.

(** What the settings change in the profile, and then in the root. *)
Definition settings_of_profile (profile request : ch_json_value) : result ch_json_value :=
  profile ← when_given request "listen" profile (apply_listen profile);
  profile ← when_given request "dns" profile (fun v => dns ← mutation_build_dns (Some v); mutation_set_owned profile "dns" dns);
  when_given request "network_triggers" profile (fun v =>
    if is_array v then mutation_set_clone profile "network_trigger" v
    else mutation_type_error (str "network_triggers") (str "an array")).

Definition settings_of_root (root request : ch_json_value) : result ch_json_value :=
  when_given request "prompt" root (apply_prompt root).

(** ** Collections *)

Definition mutation_replace_collection (profile request : ch_json_value) (request_key config_key : String.string) : result ch_json_value :=
  match ask (Some request) request_key with
  | Some (CH_JSON_ARRAY []) => Done (without profile config_key)
  | Some (CH_JSON_ARRAY l) =>
      if forallb is_object l then mutation_set_clone profile config_key (CH_JSON_ARRAY l)
      else mutation_type_error (str request_key) (str "an array of objects")
  | v => if given v then mutation_type_error (str request_key) (str "an array") else Done (without profile config_key)
  end.

(** Whether a rule goes in front. *)
Definition rule_position (request : ch_json_value) : result bool :=
  match ask (Some request) "position" with
  | Some v =>
      if negb (given (Some v)) then Done false
      else match ch_json_string_value (Some v) with
           | None => mutation_type_error (str "position") (str "a string")
           | Some text =>
               let text := trim text in
               if beq text [] || beq text (str "append") || beq text (str "prepend") then Done (beq text (str "prepend"))
               else fail CH_ERROR_INVALID_ARGUMENT (str "position must be append or prepend")
           end
  | None => Done false
  end.

Definition mutation_create_rule (profile request : ch_json_value) : result ch_json_value :=
  prepend ← rule_position request;
  match ask (Some request) "rule" with
  | Some (CH_JSON_OBJECT rule) =>
      let copy := ch_json_value_clone (CH_JSON_OBJECT rule) in
      match ask (Some profile) "rule" with
      | Some (CH_JSON_ARRAY rules) =>
          if (prepend : bool) && (lenZ rules >? 0) then
            mutation_set_owned profile "rule" (CH_JSON_ARRAY (copy :: map ch_json_value_clone rules))
          else
            rules ← ch_json_array_append (Some (CH_JSON_ARRAY rules)) (Some copy);
            mutation_set_owned profile "rule" rules
      | Some _ => mutation_type_error (str "rule") (str "an array")
      | None => rules ← ch_json_array_append (Some ch_json_value_new_array) (Some copy); mutation_set_owned profile "rule" rules
      end
  | _ => mutation_type_error (str "rule") (str "an object")
  end.

(** ** Policy groups *)

Definition items_of (v : option ch_json_value) : list ch_json_value := match v with Some (CH_JSON_ARRAY l) => l | _ => [] end.

Definition text_is (v : option ch_json_value) (text : bytes) : bool :=
  match ch_json_string_value v with Some s => beq s text | None => false end.

(** The first element with the name: its index and the element. *)
Fixpoint find_name (name : bytes) (l : list ch_json_value) : option (nat * ch_json_value) :=
  match l with
  | [] => None
  | v :: l' =>
      if text_is (ask (Some v) "name") name then Some (0%nat, v) else '(i, w) ← find_name name l'; Some (S i, w)
  end.

(** Put back the changed element of an array member. *)
Definition with_item (object : ch_json_value) (key : String.string) (index : nat) (v : ch_json_value) : result ch_json_value :=
  mutation_set_owned object key (CH_JSON_ARRAY (<[index := v]> (items_of (ask (Some object) key)))).

Definition mutation_select_policy_group (profile request : ch_json_value) : result ch_json_value :=
  match ch_json_string_value (ask (Some request) "group"), ch_json_string_value (ask (Some request) "chain") with
  | Some group_text, Some chain_text =>
      let group_name := trim group_text in
      let chain_name := trim chain_text in
      if beq group_name [] || beq chain_name [] then fail CH_ERROR_INVALID_ARGUMENT (str "group and chain are required")
      else
        match find_name group_name (items_of (ask (Some profile) "policy_group")) with
        | None => fail CH_ERROR_NOT_FOUND (str "policy group " ++ group_name ++ str " not found")
        | Some (index, group) =>
            let type := ch_json_string_value (ask (Some group) "type") in
            if negb (match type with Some t => strcaseeq t (str "select") | None => false end) then
              fail CH_ERROR_INVALID_ARGUMENT (str "policy group " ++ group_name ++ str " is " ++ default [] type ++ str ", not select")
            else if existsb (fun v => text_is (Some v) chain_name) (items_of (ask (Some group) "chains")) then
              group ← mutation_set_owned group "selected" (ch_json_value_new_string (Some chain_name));
              with_item profile "policy_group" index group
            else
              fail CH_ERROR_INVALID_ARGUMENT (str "policy group " ++ group_name ++ str " has no member chain " ++ chain_name)
        end
  | _, _ => fail CH_ERROR_INVALID_ARGUMENT (str "group and chain are required")
  end.

(** ** Developer tools *)

(** The names in lower case; an empty list stands for the default ones. *)
Fixpoint normalize_names (key : String.string) (l : list (option bytes)) (index : Z) : result (list ch_json_value) :=
  match l with
  | [] => Done []
  | None :: _ => mutation_type_error (str key) (str "an array of strings")
  | Some source :: l' =>
      let name := map tolower (trim source) in
      if beq name [] then fail CH_ERROR_INVALID_ARGUMENT (str key ++ [91] ++ dec index ++ str "] must not be empty")
      else rest ← normalize_names key l' (index + 1); Done (ch_json_value_new_string (Some name) :: rest)
  end.

Definition mutation_normalize_name_array (request : ch_json_value) (key : String.string) (fallback : list bytes)
    : result (option ch_json_value) :=
  match ask (Some request) key with
  | Some (CH_JSON_ARRAY l) =>
      names ← normalize_names key (match l with [] => map Some fallback | _ => map (fun v => ch_json_string_value (Some v)) l end) 0;
      Done (Some (CH_JSON_ARRAY names))
  | v => if given v then mutation_type_error (str key) (str "an array") else Done None
  end.

Definition redact_headers : list bytes :=
  [str "authorization"; str "proxy-authorization"; str "cookie"; str "set-cookie"; str "x-api-key"; str "api-key"; str "x-auth-token";
   str "x-csrf-token"; str "x-xsrf-token"; str "csrf-token"; str "xsrf-token"].

Definition redact_query : list bytes :=
  [str "token"; str "access_token"; str "refresh_token"; str "id_token"; str "api_key"; str "apikey"; str "key"; str "secret";
   str "password"; str "passwd"; str "code"; str "session"; str "auth"].

Definition name_array_of (request developer : ch_json_value) (key : String.string) : result ch_json_value :=
  let fallback :=
    if beq (str key) (str "redact_headers") then redact_headers
    else if beq (str key) (str "redact_query_params") then redact_query else [] in
  array ← mutation_normalize_name_array request key fallback;
  match array with Some array => mutation_set_owned developer key array | None => Done developer end.

Definition flag (object : ch_json_value) (key : String.string) : bool := ch_json_bool_value (ask (Some object) key) false.

(** Switching the capture on or off switches the capture of HTTPS off, unless
    the request asks for it. *)
Definition developer_enabled (developer request : ch_json_value) : result ch_json_value :=
  match ask (Some request) "enabled" with
  | Some v =>
      if negb (given (Some v)) then Done developer
      else if negb (is_bool v) then mutation_type_error (str "enabled") (str "a boolean")
      else
        developer ← mutation_set_clone developer "enabled" v;
        if negb (ch_json_bool_value (Some v) false) || negb (given (ask (Some request) "mitm_enabled"))
        then mutation_set_owned developer "mitm_enabled" (ch_json_value_new_bool false) else Done developer
  | None => Done developer
  end.

Definition developer_mitm (developer request : ch_json_value) (was_capturing : bool) : result ch_json_value :=
  match ask (Some request) "mitm_enabled" with
  | Some v =>
      if negb (given (Some v)) then Done developer
      else if negb (is_bool v) then mutation_type_error (str "mitm_enabled") (str "a boolean")
      else
        let next := ch_json_bool_value (Some v) false in
        if next && negb (flag developer "enabled") then
          fail CH_ERROR_INVALID_ARGUMENT (str "developer capture must be enabled before HTTPS capture")
        else if next && negb was_capturing && negb (flag request "https_capture_ack") then
          fail CH_ERROR_INVALID_ARGUMENT (str "https_capture_ack is required when enabling HTTPS capture")
        else mutation_set_clone developer "mitm_enabled" v
  | None => Done developer
  end.

Definition mutation_apply_developer_settings (root request : ch_json_value) : result ch_json_value :=
  developer ← mutation_ensure_object root "developer";
  let was_capturing := flag developer "enabled" && flag developer "mitm_enabled" in
  if given (ask (Some request) "https_capture_ack") && negb (match ask (Some request) "https_capture_ack" with Some v => is_bool v | None => false end)
  then mutation_type_error (str "https_capture_ack") (str "a boolean")
  else
    developer ← developer_enabled developer request;
    developer ← developer_mitm developer request was_capturing;
    developer ← copy_bool request developer "no_cache_enabled";
    developer ← each_field (copy_when is_count (str "a non-negative integer") str request)
                  ["capture_limit"; "body_limit_bytes"; "header_value_limit_bytes"]%string developer;
    developer ← each_field (name_array_of request) ["redact_headers"; "redact_query_params"; "ssl_decrypt_hosts"]%string developer;
    mutation_set_owned root "developer" developer.

Definition set_missing (rule : ch_json_value) (key : String.string) (v : ch_json_value) : result ch_json_value :=
  match ask (Some rule) key with Some _ => Done rule | None => mutation_set_owned rule key v end.

(** A rule of the request, with the members that the configuration needs. *)
Definition developer_rule (rewrite : bool) (source : ch_json_value) : result ch_json_value :=
  if negb (is_object source) then mutation_type_error (str "rules") (str "an array of objects")
  else
    rule ← set_missing (ch_json_value_clone source) "enabled" (ch_json_value_new_bool false);
    rule ← set_missing rule "match" ch_json_value_new_object;
    if rewrite then
      let ops := ask (Some rule) "ops" in
      let rule := without rule "op" in
      rule ← match ops with
             | Some (CH_JSON_ARRAY l) => mutation_set_clone rule "op" (CH_JSON_ARRAY l)
             | v => if given v then mutation_type_error (str "ops") (str "an array") else Done rule
             end;
      Done (without rule "ops")
    else Done rule.

Fixpoint developer_rules (rewrite : bool) (l : list ch_json_value) : result (list ch_json_value) :=
  match l with
  | [] => Done []
  | source :: l' => rule ← developer_rule rewrite source; rest ← developer_rules rewrite l'; Done (rule :: rest)
  end.

Definition mutation_replace_developer_rules (root request : ch_json_value) (config_key : String.string) (rewrite : bool) : result ch_json_value :=
  developer ← mutation_ensure_object root "developer";
  developer ← match ask (Some request) "rules" with
              | Some (CH_JSON_ARRAY []) => Done (without developer config_key)
              | Some (CH_JSON_ARRAY l) => next ← developer_rules rewrite l; mutation_set_owned developer config_key (CH_JSON_ARRAY next)
              | v => if given v then mutation_type_error (str "rules") (str "an array") else Done (without developer config_key)
              end;
  mutation_set_owned root "developer" developer.

Definition mutation_delete_developer_rule (root request : ch_json_value) (config_key : String.string) : result ch_json_value :=
  let id := trim (default [] (ch_json_string_value (ask (Some request) "id"))) in
  if beq id [] then fail CH_ERROR_INVALID_ARGUMENT (str "developer rule id is required")
  else
    developer ← mutation_ensure_object root "developer";
    let kept := List.filter (fun rule => negb (text_is (ask (Some rule) "id") id)) (items_of (ask (Some developer) config_key)) in
    developer ← match kept with
                | [] => Done (without developer config_key)
                | _ => mutation_set_owned developer config_key (CH_JSON_ARRAY (map ch_json_value_clone kept))
                end;
    mutation_set_owned root "developer" developer.


(** ** Profiles *)

(** The index of the profile in the document, and the profile. *)
Definition mutation_select_profile (root request : ch_json_value) (fallback_profile : option bytes) : result (nat * ch_json_value) :=
  requested ← match ask (Some request) "profile" with
              | Some v =>
                  if negb (given (Some v)) then Done fallback_profile
                  else match ch_json_string_value (Some v) with
                       | None => mutation_type_error (str "profile") (str "a string")
                       | Some text => Done (Some text)
                       end
              | None => Done fallback_profile
              end;
  let name := trim (default [] requested) in
  if beq name [] then fail CH_ERROR_INVALID_ARGUMENT (str "profile name is required")
  else match find_name name (items_of (ask (Some root) "profile")) with
       | Some found => Done found
       | None => fail CH_ERROR_NOT_FOUND (str "profile " ++ name ++ str " not found")
       end.

(** ** Outline *)

Definition first_of (v : option ch_json_value) : option ch_json_value := ch_json_array_get v 0.

(** A document with nothing but the profile of the template. *)
Definition mutation_outline_placeholder (profiles : option ch_json_value) : bool :=
  if negb (ch_json_array_size profiles =? 1) then false
  else
    let chains := ask (first_of profiles) "chain" in
    if negb (text_is (ask (first_of profiles) "name") (str "default")) || negb (ch_json_array_size chains =? 1) then false
    else
      let servers := ask (first_of chains) "server" in
      if negb (ch_json_array_size servers =? 1) then false
      else
        text_is (ask (first_of servers) "name") (str "replace-me") ||
        match ch_json_string_value (ask (first_of servers) "address") with
        | Some address => contains address (str "proxy.example.com")
        | None => false
        end.

Definition mutation_outline_set_string (object : ch_json_value) (source : option ch_json_value) (source_key target_key : String.string)
    : result ch_json_value :=
  match ch_json_string_value (ask source source_key) with
  | None => mutation_type_error (str source_key) (str "a string")
  | Some text => mutation_set_owned object target_key (ch_json_value_new_string (Some text))
  end.

Definition outline_settings (tcp udp : option ch_json_value) (request : ch_json_value) : result ch_json_value :=
  settings ← mutation_outline_set_string ch_json_value_new_object tcp "method" "method";
  settings ← mutation_outline_set_string settings tcp "password" "password";
  settings ← mutation_outline_set_string settings tcp "prefix_base64" "prefix_base64";
  settings ← mutation_outline_set_string settings udp "address" "udp_address";
  settings ← mutation_outline_set_string settings udp "method" "udp_method";
  settings ← mutation_outline_set_string settings udp "password" "udp_password";
  settings ← mutation_outline_set_string settings udp "prefix_base64" "udp_prefix_base64";
  match ch_json_string_value (ask (Some request) "dynamic_key") with
  | Some (c :: key) =>
      settings ← mutation_set_owned settings "outline_dynamic_key" (ch_json_value_new_string (Some (c :: key)));
      match ch_json_int64_value (ask (Some request) "refreshed_at_ns") with
      | Some n => mutation_set_owned settings "outline_refreshed_at_ns" (ch_json_value_new_int64 n)
      | None => Done settings
      end
  | _ => Done settings
  end.

Definition mutation_outline_apply_server (server request : ch_json_value) : result ch_json_value :=
  match ask (Some request) "tcp", ask (Some request) "udp" with
  | Some (CH_JSON_OBJECT tcp), Some (CH_JSON_OBJECT udp) =>
      let tcp := Some (CH_JSON_OBJECT tcp) in
      let udp := Some (CH_JSON_OBJECT udp) in
      server ← mutation_outline_set_string server tcp "address" "address";
      server ← mutation_set_owned server "protocol" (ch_json_value_new_string (Some (str "shadowsocks")));
      settings ← outline_settings tcp udp request;
      mutation_set_owned server "settings" settings
  | _, _ => mutation_type_error (str "tcp and udp") (str "objects")
  end.

(** The profile for a key: the first one, with another name and one chain. *)
Definition outline_profile (profiles : option ch_json_value) (name : bytes) (request : ch_json_value) : result ch_json_value :=
  let base := match first_of profiles with Some first => ch_json_value_clone first | None => ch_json_value_new_object end in
  base ← mutation_set_owned (without (without base "chain") "policy_group") "name" (ch_json_value_new_string (Some name));
  chain ← mutation_set_owned ch_json_value_new_object "name" (ch_json_value_new_string (Some (str "outline")));
  server ← mutation_set_owned ch_json_value_new_object "name" (ch_json_value_new_string (Some (str "Outline")));
  server ← mutation_outline_apply_server server request;
  servers ← ch_json_array_append (Some ch_json_value_new_array) (Some server);
  chain ← mutation_set_owned chain "server" servers;
  chains ← ch_json_array_append (Some ch_json_value_new_array) (Some chain);
  mutation_set_owned base "chain" chains.

Definition mutation_import_outline (root request : ch_json_value) : result ch_json_value :=
  let name := trim (default [] (ch_json_string_value (ask (Some request) "profile_name"))) in
  if beq name [] then fail CH_ERROR_INVALID_ARGUMENT (str "Outline profile name is required")
  else
    let profiles := ask (Some root) "profile" in
    let placeholder := mutation_outline_placeholder profiles in
    if negb placeholder && existsb (fun v => text_is (ask (Some v) "name") name) (items_of profiles)
    then fail CH_ERROR_INVALID_ARGUMENT (str "profile " ++ name ++ str " already exists")
    else
      base ← outline_profile profiles name request;
      let kept := if placeholder then [] else map ch_json_value_clone (items_of profiles) in
      next ← ch_json_array_append (Some (CH_JSON_ARRAY kept)) (Some base);
      root ← mutation_set_owned root "profile" next;
      if flag request "activate" then mutation_set_owned root "active" (ch_json_value_new_string (Some name)) else Done root.

Definition dynamic_server (server : ch_json_value) : bool :=
  match ch_json_string_value (ask (ask (Some server) "settings") "outline_dynamic_key") with Some (_ :: _) => true | _ => false end.

(** The first server of a chain with a dynamic key, refreshed. *)
Fixpoint refresh_servers (request : ch_json_value) (l : list ch_json_value) : option (result (list ch_json_value)) :=
  match l with
  | [] => None
  | server :: l' =>
      if dynamic_server server then Some (server ← mutation_outline_apply_server server request; Done (server :: l'))
      else r ← refresh_servers request l'; Some (l' ← r; Done (server :: l'))
  end.

Fixpoint refresh_chains (request : ch_json_value) (l : list ch_json_value) : option (result (list ch_json_value)) :=
  match l with
  | [] => None
  | chain :: l' =>
      match refresh_servers request (items_of (ask (Some chain) "server")) with
      | Some r => Some (servers ← r; chain ← mutation_set_owned chain "server" (CH_JSON_ARRAY servers); Done (chain :: l'))
      | None => r ← refresh_chains request l'; Some (l' ← r; Done (chain :: l'))
      end
  end.

Definition mutation_refresh_outline (profile request : ch_json_value) : result ch_json_value :=
  match refresh_chains request (items_of (ask (Some profile) "chain")) with
  | Some r => chains ← r; mutation_set_owned profile "chain" (CH_JSON_ARRAY chains)
  | None => fail CH_ERROR_INVALID_ARGUMENT (str "profile is not backed by a dynamic Outline key")
  end.

(** ** The operations *)

Definition collection_keys (operation : bytes) : option (String.string * String.string) :=
  if beq operation (str "replace_rules") then Some ("rules", "rule")
  else if beq operation (str "replace_policy_groups") then Some ("policy_groups", "policy_group")
  else if beq operation (str "replace_rule_sets") then Some ("rule_sets", "rule_set")
  else if beq operation (str "replace_rule_subscriptions") then Some ("subscriptions", "rule_subscription")
  else None%string.

(** An operation that changes the selected profile. *)
Definition profile_operation (operation : bytes) (profile request : ch_json_value) : option (result ch_json_value) :=
  match collection_keys operation with
  | Some (request_key, config_key) => Some (mutation_replace_collection profile request request_key config_key)
  | None =>
      if beq operation (str "refresh_outline") then Some (mutation_refresh_outline profile request)
      else if beq operation (str "update_dns") then Some (dns ← mutation_build_dns (Some request); mutation_set_owned profile "dns" dns)
      else if beq operation (str "update_conditioner") then Some (mutation_apply_conditioner profile request)
      else if beq operation (str "update_config_settings") then Some (settings_of_profile profile request)
      else if beq operation (str "create_rule") then Some (mutation_create_rule profile request)
      else if beq operation (str "select_policy_group") then Some (mutation_select_policy_group profile request)
      else None
  end.

Definition developer_rule_keys : list (bytes * (String.string * bool)) :=
  [(str "map", ("map_rule"%string, false)); (str "breakpoint", ("breakpoint_rule"%string, false));
   (str "rewrite", ("rewrite_rule"%string, true))].

(** An operation that changes the root. *)
Definition root_operation (operation : bytes) (root request : ch_json_value) : option (result ch_json_value) :=
  if beq operation (str "update_developer_settings") then Some (mutation_apply_developer_settings root request)
  else if beq operation (str "update_config_settings") then Some (settings_of_root root request)
  else
    match List.find (fun p => beq operation (str "replace_developer_" ++ fst p ++ str "_rules")) developer_rule_keys with
    | Some (_, (key, rewrite)) => Some (mutation_replace_developer_rules root request key rewrite)
    | None =>
        match List.find (fun p => beq operation (str "delete_developer_" ++ fst p ++ str "_rule")) developer_rule_keys with
        | Some (_, (key, _)) => Some (mutation_delete_developer_rule root request key)
        | None => None
        end
    end.

(** The document after the operation. *)
Definition mutated (root request : ch_json_value) (fallback_profile : option bytes) (operation : bytes) : result ch_json_value :=
  if beq operation (str "import_outline") then mutation_import_outline root request
  else
    '(index, profile) ← mutation_select_profile root request fallback_profile;
    let active := trim (default [] fallback_profile) in
    root ← if beq active [] then Done root else mutation_set_owned root "active" (ch_json_value_new_string (Some active));
    match profile_operation operation profile request, root_operation operation root request with
    | None, None => fail CH_ERROR_UNSUPPORTED (str "unknown configuration mutation operation")
    | p, _ =>
        root ← match p with Some r => profile ← r; with_item root "profile" index profile | None => Done root end;
        match root_operation operation root request with Some r => r | None => Done root end
    end.

End Operations.

(** ** Facts: what an operation leaves alone *)

Section Facts.
Context `{DoubleCompare, !DoubleWhole, !LongDouble}.
Implicit Types (v old new o : ch_json_value) (key : String.string).

(** Every other key reads what it read. *)
Definition keeps (keys : list String.string) old new : Prop :=
  forall k, k ∉ map str keys -> ch_json_object_get (Some new) (Some k) = ch_json_object_get (Some old) (Some k).

Lemma keeps_refl keys o : keeps keys o o.
Proof. intros k _. reflexivity. Qed.

Lemma keeps_trans keys a b c : keeps keys a b -> keeps keys b c -> keeps keys a c.
Proof. intros Hab Hbc k Hk. rewrite (Hbc k Hk). apply Hab, Hk. Qed.

Lemma keeps_more keys keys' a b : keys ⊆ keys' -> keeps keys a b -> keeps keys' a b.
Proof.
  intros Hs Hk k Hn. apply Hk. intros Hin. apply Hn. apply list_elem_of_fmap in Hin as (x & -> & Hx).
  apply list_elem_of_fmap_2, Hs, Hx.
Qed.

Lemma keeps_one key keys a b : key ∈ keys -> keeps [key] a b -> keeps keys a b.
Proof. intros Hk. apply keeps_more. intros x Hx. apply list_elem_of_singleton in Hx as ->. exact Hk. Qed.

Lemma keeps_ask keys a b key : keeps keys a b -> forallb (fun k => negb (beq (str k) (str key))) keys = true -> ask (Some b) key = ask (Some a) key.
Proof.
  intros Hk Hf. apply Hk. intros Hin. apply list_elem_of_fmap in Hin as (x & E & Hx). rewrite forallb_forall in Hf.
  apply list_elem_of_In in Hx. specialize (Hf x Hx). rewrite E, beq_refl in Hf. discriminate.
Qed.

Lemma clone_same v : ch_json_value_clone v = v.
Proof.
  induction v as [| | | |l IH|ms IH] using json_ind; try reflexivity; cbn [ch_json_value_clone]; f_equal.
  - induction IH as [|x l Hx Hl IH]; [reflexivity|]. rewrite Hx, IH. reflexivity.
  - induction IH as [|[k x] l Hx Hl IH]; [reflexivity|]. cbn [snd] in Hx. rewrite Hx, IH. reflexivity.
Qed.

Lemma set_done o key v o' : mutation_set_owned o key v = Done o' ->
  ask (Some o') key = Some v /\ keeps [key] o o' /\ is_object o' = true.
Proof.
  unfold mutation_set_owned. destruct o as [| | | | |ms]; try discriminate. intros E. cbn [ch_json_object_set] in E.
  destruct (beq (str key) []) eqn:Ek; [discriminate|]. apply beq_false in Ek. destruct (object_set_get ms (str key) v Ek) as (ms' & E' & Hg & _).
  cbn [ch_json_object_set] in E'. rewrite (proj2 (beq_false (str key) [])) in E' by exact Ek. rewrite E' in E. injection E as <-.
  split; [|split; [|reflexivity]].
  - unfold ask. rewrite Hg, beq_refl. reflexivity.
  - intros k Hk. rewrite Hg. destruct (beq (str key) k) eqn:E; [|reflexivity]. apply beq_true in E. exfalso. apply Hk. subst. left.
Qed.

Lemma set_keeps o key v o' : mutation_set_owned o key v = Done o' -> keeps [key] o o'.
Proof. intros E. apply (set_done _ _ _ _ E). Qed.

Lemma set_clone_done o key v o' : mutation_set_clone o key v = Done o' -> ask (Some o') key = Some v /\ keeps [key] o o' /\ is_object o' = true.
Proof. unfold mutation_set_clone. rewrite clone_same. apply set_done. Qed.

Lemma without_keeps o key : keeps [key] o (without o key).
Proof.
  intros k Hk. unfold without. destruct o as [| | | | |ms]; try reflexivity. cbn [ch_json_object_remove].
  pose proof (member_remove_get ms (str key)) as Hr. destruct (member_remove ms (str key)) as [ms' found]. destruct Hr as (Hr & _).
  cbn [fst default]. apply Hr. intros ->. apply Hk. left.
Qed.

Lemma each_field_keeps step keys all o o' :
  (forall key a b, key ∈ keys -> step a key = Done b -> keeps all a b) -> each_field step keys o = Done o' -> keeps all o o'.
Proof.
  revert o. induction keys as [|key keys IH]; intros o Hs E; cbn [each_field] in E; [injection E as <-; apply keeps_refl|].
  apply bind_Done_inv in E as (a & Ha & E). eapply keeps_trans; [exact (Hs key o a ltac:(left) Ha)|].
  apply IH; [|exact E]. intros k x y Hk. apply Hs. right. exact Hk.
Qed.

Lemma copy_when_keeps valid type name request o o' key : copy_when valid type name request o key = Done o' -> keeps [key] o o'.
Proof.
  unfold copy_when. destruct (ask (Some request) key) as [v|]; [|intros E; injection E as <-; apply keeps_refl].
  destruct (negb (given (Some v))); [intros E; injection E as <-; apply keeps_refl|].
  destruct (valid v); [|discriminate]. intros E. apply (set_clone_done _ _ _ _ E).
Qed.


(** Follow the successful branch of an operation. *)
Ltac succeeds E :=
  repeat first
    [ discriminate E
    | apply bind_Done_inv in E as (? & ? & E)
    | match type of E with
      | (if ?b then _ else _) = _ => destruct b
      | match ?x with _ => _ end = _ => destruct x
      end ].

Lemma collection_keeps profile request rk key profile' :
  mutation_replace_collection profile request rk key = Done profile' -> keeps [key] profile profile'.
Proof.
  unfold mutation_replace_collection. intros E.
  destruct (ask (Some request) rk) as [[| | | |[|x l]|]|]; cbn [given ch_json_value_type] in E; try discriminate E;
    try (injection E as <-; apply without_keeps).
  destruct (forallb is_object (x :: l)); [|discriminate]. apply (set_clone_done _ _ _ _ E).
Qed.

(** Where a rule goes. *)
Lemma create_rule_done profile request profile' :
  mutation_create_rule profile request = Done profile' ->
  exists prepend rule,
    rule_position request = Done prepend /\ ask (Some request) "rule" = Some (CH_JSON_OBJECT rule) /\
    keeps ["rule"%string] profile profile' /\
    ask (Some profile') "rule" =
      Some (CH_JSON_ARRAY (if prepend : bool then CH_JSON_OBJECT rule :: items_of (ask (Some profile) "rule")
                           else items_of (ask (Some profile) "rule") ++ [CH_JSON_OBJECT rule])).
Proof.
  intros E. apply bind_Done_inv in E as (prepend & Hp & E). exists prepend.
  destruct (ask (Some request) "rule") as [[| | | | |rule]|] eqn:Er; try discriminate E. exists rule.
  split; [exact Hp|]. split; [reflexivity|]. rewrite clone_same in E.
  destruct (ask (Some profile) "rule") as [[| | | |rules|]|] eqn:Eo; try discriminate E; cbn [items_of].
  - destruct (prepend && (lenZ rules >? 0)) eqn:Eb.
    + apply andb_prop in Eb as [-> _]. apply set_done in E as (Ha & Hk & _). split; [exact Hk|]. rewrite Ha.
      rewrite (List.map_ext _ (fun v => v)) by apply clone_same. rewrite List.map_id. reflexivity.
    + apply bind_Done_inv in E as (a & Ha & E). injection Ha as <-. apply set_done in E as (Ha & Hk & _). split; [exact Hk|]. rewrite Ha.
      destruct prepend; [|reflexivity]. destruct rules as [|r rules]; [reflexivity|]. exfalso. rewrite lenZ_cons in Eb. pose proof (lenZ_nonneg rules). destruct (1 + lenZ rules >? 0) eqn:Eg; [discriminate|lia].
  - apply bind_Done_inv in E as (a & Ha & E). injection Ha as <-. apply set_done in E as (Ha & Hk & _). split; [exact Hk|]. rewrite Ha.
    destruct prepend; reflexivity.
Qed.

Lemma with_item_done o key index v o' : with_item o key index v = Done o' ->
  items_of (ask (Some o') key) = <[index := v]> (items_of (ask (Some o) key)) /\ keeps [key] o o'.
Proof. intros E. apply set_done in E as (Ha & Hk & _). rewrite Ha. auto. Qed.

Lemma find_name_spec name l index v :
  find_name name l = Some (index, v) ->
  l !! index = Some v /\ ask (Some v) "name" = Some (CH_JSON_STRING name) /\
  forall j w, (j < index)%nat -> l !! j = Some w -> ask (Some w) "name" <> Some (CH_JSON_STRING name).
Proof.
  revert index. induction l as [|x l IH]; intros index; cbn [find_name]; [discriminate|].
  destruct (text_is (ask (Some x) "name") name) eqn:Et.
  - intros E. injection E as <- <-. split; [reflexivity|]. split; [|intros j w Hj; lia]. unfold text_is in Et.
    destruct (ask (Some x) "name") as [[]|]; try discriminate Et. cbn in Et. apply beq_true in Et. congruence.
  - destruct (find_name name l) as [[i w]|]; [|discriminate]. cbn [mbind option_bind]. intros E. injection E as <- <-.
    destruct (IH i eq_refl) as (Hl & Hn & Hf). split; [exact Hl|]. split; [exact Hn|]. intros [|j] u Hj Hu; [|apply (Hf j); [lia|exact Hu]].
    injection Hu as <-. intros E. rewrite E in Et. unfold text_is in Et. cbn in Et. rewrite beq_refl in Et. discriminate.
Qed.

Lemma set_name_kept o key v o' : mutation_set_owned o key v = Done o' -> beq (str key) (str "name") = false -> ask (Some o') "name" = ask (Some o) "name".
Proof. intros E Hk. apply (keeps_ask [key]); [apply (set_keeps _ _ _ _ E)|]. cbn [forallb]. rewrite Hk. reflexivity. Qed.

Lemma select_group_done profile request profile' :
  mutation_select_policy_group profile request = Done profile' ->
  exists group_text chain_text index group group',
    ask (Some request) "group" = Some (CH_JSON_STRING group_text) /\ ask (Some request) "chain" = Some (CH_JSON_STRING chain_text) /\
    find_name (trim group_text) (items_of (ask (Some profile) "policy_group")) = Some (index, group) /\
    CH_JSON_STRING (trim chain_text) ∈ items_of (ask (Some group) "chains") /\
    items_of (ask (Some profile') "policy_group") = <[index := group']> (items_of (ask (Some profile) "policy_group")) /\
    ask (Some group') "selected" = Some (CH_JSON_STRING (trim chain_text)) /\
    keeps ["selected"%string] group group' /\ keeps ["policy_group"%string] profile profile'.
Proof.
  unfold mutation_select_policy_group. intros E.
  destruct (ask (Some request) "group") as [[| | |g| |]|]; try discriminate E.
  destruct (ask (Some request) "chain") as [[| | |c| |]|]; try discriminate E. cbn [ch_json_string_value] in E.
  destruct (beq (trim g) [] || beq (trim c) []); [discriminate|].
  destruct (find_name (trim g) _) as [[index group]|] eqn:Ef; [|discriminate].
  destruct (negb _); [discriminate|]. destruct (existsb _ _) eqn:Ex; [|discriminate].
  apply bind_Done_inv in E as (group' & Hg & E). apply set_done in Hg as (Hs & Hk & _). apply with_item_done in E as [Hi Hp].
  exists g, c, index, group, group'. split_and!; auto.
  apply existsb_exists in Ex as (x & Hx & Ht). unfold text_is in Ht. destruct x; try discriminate Ht. cbn in Ht. apply beq_true in Ht. subst.
  apply list_elem_of_In, Hx.
Qed.

(** The keys of the profile, and of the root, that an operation may change. *)
Definition touched (operation : bytes) : list String.string :=
  match collection_keys operation with
  | Some (_, key) => [key]
  | None =>
      if beq operation (str "refresh_outline") then ["chain"]
      else if beq operation (str "update_dns") then ["dns"]
      else if beq operation (str "update_conditioner") then ["conditioner"]
      else if beq operation (str "update_config_settings") then ["listen"; "dns"; "network_trigger"]
      else if beq operation (str "create_rule") then ["rule"]
      else if beq operation (str "select_policy_group") then ["policy_group"] else []
  end%string.

Definition touched_of_root (operation : bytes) : list String.string :=
  if beq operation (str "update_config_settings") then ["prompt"%string] else ["developer"%string].

Lemma when_given_keeps keys request key o o' apply :
  (forall v o', apply v = Done o' -> keeps keys o o') -> when_given request key o apply = Done o' -> keeps keys o o'.
Proof.
  intros Ha. unfold when_given. destruct (ask (Some request) key) as [v|]; [|intros E; injection E as <-; apply keeps_refl].
  destruct (given (Some v)); [apply Ha|intros E; injection E as <-; apply keeps_refl].
Qed.

Lemma set_keeps_of keys o key v o' : key ∈ keys -> mutation_set_owned o key v = Done o' -> keeps keys o o'.
Proof. intros Hk E. exact (keeps_one _ _ _ _ Hk (set_keeps _ _ _ _ E)). Qed.

Lemma settings_keeps profile request profile' : settings_of_profile profile request = Done profile' ->
  keeps ["listen"; "dns"; "network_trigger"]%string profile profile'.
Proof.
  intros E. apply bind_Done_inv in E as (p1 & E1 & E). apply bind_Done_inv in E as (p2 & E2 & E3).
  eapply keeps_trans; [|eapply keeps_trans].
  - eapply when_given_keeps; [|exact E1]. clear. intros v o E. unfold apply_listen in E. succeeds E. eapply set_keeps_of; [|exact E]. left.
  - eapply when_given_keeps; [|exact E2]. clear. intros v o E. apply bind_Done_inv in E as (d & _ & E). eapply set_keeps_of; [|exact E]. right. left.
  - eapply when_given_keeps; [|exact E3]. clear. intros v o E. cbv beta in E. destruct (is_array v); [|discriminate E]. eapply set_keeps_of; [|exact E]. do 2 right. left.
Qed.

Lemma profile_operation_keeps operation profile request profile' :
  profile_operation operation profile request = Some (Done profile') -> keeps (touched operation) profile profile'.
Proof.
  unfold profile_operation, touched. destruct (collection_keys operation) as [[rk key]|].
  { intros E. injection E as E. exact (collection_keeps _ _ _ _ _ E). }
  repeat match goal with |- context [beq operation ?s] => destruct (beq operation s) end; try discriminate; intros E; injection E as E.
  - unfold mutation_refresh_outline in E. succeeds E. exact (set_keeps _ _ _ _ E).
  - succeeds E. exact (set_keeps _ _ _ _ E).
  - unfold mutation_apply_conditioner in E. repeat (apply bind_Done_inv in E as (? & ? & E)). exact (set_keeps _ _ _ _ E).
  - exact (settings_keeps _ _ _ E).
  - apply create_rule_done in E as (_ & _ & _ & _ & Hk & _). exact Hk.
  - apply select_group_done in E as (? & ? & ? & ? & ? & _ & _ & _ & _ & _ & _ & _ & Hk). exact Hk.
Qed.

Lemma developer_settings_keeps root request root' : mutation_apply_developer_settings root request = Done root' -> keeps ["developer"%string] root root'.
Proof.
  intros E. apply bind_Done_inv in E as (d & Hd & E). cbv beta zeta in E. match type of E with (if ?b then _ else _) = _ => destruct b; [discriminate E|] end.
  repeat (apply bind_Done_inv in E as (? & ? & E)). exact (set_keeps _ _ _ _ E).
Qed.

Lemma root_operation_keeps operation root request root' :
  root_operation operation root request = Some (Done root') -> keeps (touched_of_root operation) root root'.
Proof.
  unfold root_operation, touched_of_root. destruct (beq operation (str "update_developer_settings")) eqn:Es.
  { apply beq_true in Es. subst operation. intros E. injection E as E. exact (developer_settings_keeps _ _ _ E). }
  destruct (beq operation (str "update_config_settings")).
  { intros E. injection E as E. eapply when_given_keeps; [|exact E]. clear. intros v o E. unfold apply_prompt in E. destruct (negb _); [discriminate E|].
    repeat (apply bind_Done_inv in E as (? & ? & E)). exact (set_keeps _ _ _ _ E). }
  destruct (List.find _ _) as [[? [key rewrite]]|].
  { intros E. injection E as E. unfold mutation_replace_developer_rules in E. repeat (apply bind_Done_inv in E as (? & ? & E)). exact (set_keeps _ _ _ _ E). }
  destruct (List.find _ _) as [[? [key rewrite]]|]; [|discriminate]. intros E. injection E as E.
  unfold mutation_delete_developer_rule in E. cbv zeta in E. match type of E with (if ?b then _ else _) = _ => destruct b; [discriminate E|] end.
  repeat (apply bind_Done_inv in E as (? & ? & E)). exact (set_keeps _ _ _ _ E).
Qed.

(** The steps of an edit of a profile or of the root. *)
Lemma mutated_steps root request fallback operation root' :
  mutated root request fallback operation = Done root' -> operation <> str "import_outline" ->
  exists index profile root1 profile' root2,
    mutation_select_profile root request fallback = Done (index, profile) /\
    (if beq (trim (default [] fallback)) [] then Done root
     else mutation_set_owned root "active" (CH_JSON_STRING (trim (default [] fallback)))) = Done root1 /\
    (profile_operation operation profile request = Some (Done profile') /\ with_item root1 "profile" index profile' = Done root2 \/
     profile_operation operation profile request = None /\ profile' = profile /\ root2 = root1) /\
    (root_operation operation root2 request = Some (Done root') \/ root_operation operation root2 request = None /\ root' = root2).
Proof.
  intros E Hne. unfold mutated in E. rewrite (proj2 (beq_false _ _)) in E by exact Hne.
  apply bind_Done_inv in E as ([index profile] & Hs & E). apply bind_Done_inv in E as (root1 & H1' & E).
  exists index, profile, root1. destruct (profile_operation operation profile request) as [r|] eqn:Ep.
  - apply bind_Done_inv in E as (root2 & H2' & E). apply bind_Done_inv in H2' as (profile' & -> & H2').
    exists profile', root2. split_and!; auto. destruct (root_operation operation root2 request) as [r|]; [left; congruence|right].
    injection E as ->. auto.
  - exists profile, root1. destruct (root_operation operation root1 request) as [r|] eqn:Er; [|discriminate].
    apply bind_Done_inv in E as (root2 & H2' & E). injection H2' as <-. rewrite Er in E. subst r. split_and!; auto.
Qed.


Lemma select_profile_done root request fallback index profile :
  mutation_select_profile root request fallback = Done (index, profile) ->
  exists name, name <> [] /\ find_name name (items_of (ask (Some root) "profile")) = Some (index, profile).
Proof.
  intros E. apply bind_Done_inv in E as (requested & _ & E). cbv zeta in E.
  destruct (beq (trim (default [] requested)) []) eqn:Eb; [discriminate E|]. apply beq_false in Eb.
  destruct (find_name _ _) as [[i p]|] eqn:Ef; [|discriminate E]. apply done_pair in E as [<- <-]. eauto.
Qed.

Lemma select_profile_named root request fallback text index profile :
  ask (Some request) "profile" = Some (CH_JSON_STRING text) -> mutation_select_profile root request fallback = Done (index, profile) ->
  find_name (trim text) (items_of (ask (Some root) "profile")) = Some (index, profile).
Proof.
  intros Ht E. unfold mutation_select_profile in E. rewrite Ht in E. cbn [given ch_json_value_type negb ch_json_string_value] in E.
  rewrite bind_Done in E. change (trim text) with (trim (default [] (Some text))). cbv zeta in E. destruct (beq _ []); [discriminate E|].
  destruct (find_name _ _) as [[i p]|]; [|discriminate E]. apply done_pair in E as [<- <-]. reflexivity.
Qed.

Lemma steps_frame root request fallback operation root1 index profile profile' root2 root' :
  mutation_select_profile root request fallback = Done (index, profile) ->
  (if beq (trim (default [] fallback)) [] then Done root
   else mutation_set_owned root "active" (CH_JSON_STRING (trim (default [] fallback)))) = Done root1 ->
  (profile_operation operation profile request = Some (Done profile') /\ with_item root1 "profile" index profile' = Done root2 \/
   profile_operation operation profile request = None /\ profile' = profile /\ root2 = root1) ->
  (root_operation operation root2 request = Some (Done root') \/ root_operation operation root2 request = None /\ root' = root2) ->
  keeps (touched operation) profile profile' /\
  keeps ["active"%string] root root1 /\ keeps ["profile"%string] root1 root2 /\ keeps (touched_of_root operation) root2 root' /\
  items_of (ask (Some root2) "profile") = <[index := profile']> (items_of (ask (Some root) "profile")).
Proof.
  intros Hs Ha Hp Hr. apply select_profile_done in Hs as (name & _ & Hf). apply find_name_spec in Hf as (Hl & _ & _).
  assert (Ka : keeps ["active"%string] root root1).
  { destruct (beq _ _); [injection Ha as <-; apply keeps_refl|exact (set_keeps _ _ _ _ Ha)]. }
  assert (Ep : ask (Some root1) "profile" = ask (Some root) "profile") by (apply (keeps_ask _ _ _ _ Ka); reflexivity).
  assert (Kr : keeps (touched_of_root operation) root2 root').
  { destruct Hr as [Hr|[_ ->]]; [exact (root_operation_keeps _ _ _ _ Hr)|apply keeps_refl]. }
  destruct Hp as [[Hp Hw]|(_ & -> & ->)].
  - apply with_item_done in Hw as [Hi Hk]. rewrite Ep in Hi. split_and!; auto. exact (profile_operation_keeps _ _ _ _ Hp).
  - split_and!; auto using keeps_refl. rewrite Ep. symmetry. apply list_insert_id, Hl.
Qed.

(** The name of the profile that a request is about: the one that it gives,
    else the fallback. *)
Definition asked_profile (request : ch_json_value) (fallback : option bytes) (name : bytes) : Prop :=
  match ask (Some request) "profile" with
  | Some (CH_JSON_STRING text) => name = trim text
  | Some CH_JSON_NULL | None => name = trim (default [] fallback)
  | Some _ => False
  end.

(** The first profile of that name. *)
Definition profile_at (root : ch_json_value) (name : bytes) (index : nat) (profile : ch_json_value) : Prop :=
  let profiles := items_of (ask (Some root) "profile") in
  profiles !! index = Some profile /\ ask (Some profile) "name" = Some (CH_JSON_STRING name) /\
  forall j w, (j < index)%nat -> profiles !! j = Some w -> ask (Some w) "name" <> Some (CH_JSON_STRING name).

Lemma select_profile_asked root request fallback index profile :
  mutation_select_profile root request fallback = Done (index, profile) ->
  exists name, name <> [] /\ asked_profile request fallback name /\ profile_at root name index profile.
Proof.
  intros E. apply bind_Done_inv in E as (requested & Hr & E). cbv zeta in E.
  destruct (beq (trim (default [] requested)) []) eqn:Eb; [discriminate E|]. apply beq_false in Eb.
  destruct (find_name _ _) as [[i p]|] eqn:Ef; [|discriminate E]. apply done_pair in E as [<- <-].
  exists (trim (default [] requested)). split_and!; [exact Eb| |apply find_name_spec, Ef]. unfold asked_profile.
  destruct (ask (Some request) "profile") as [[]|]; cbn in Hr; try discriminate Hr; injection Hr as <-; reflexivity.
Qed.

Lemma returned {A} {a b : A} : Done a = Done b :> result A -> a = b.
Proof. congruence. Qed.

Definition named_in (root : ch_json_value) (name : bytes) : Prop :=
  exists v, v ∈ items_of (ask (Some root) "profile") /\ ask (Some v) "name" = Some (CH_JSON_STRING name).

Lemma existsb_named root name :
  existsb (fun v => text_is (ask (Some v) "name") name) (items_of (ask (Some root) "profile")) = true <-> named_in root name.
Proof.
  unfold named_in. rewrite existsb_exists. split; intros (v & Hv & Hn); exists v; (split; [apply list_elem_of_In, Hv|]); revert Hn; unfold text_is.
  - destruct (ask (Some v) "name") as [[]|]; try discriminate. cbn. intros E. apply beq_true in E. congruence.
  - intros ->. apply beq_refl.
Qed.

Lemma outline_profile_name profiles name request profile :
  outline_profile profiles name request = Done profile -> ask (Some profile) "name" = Some (CH_JSON_STRING name).
Proof.
  intros E. apply bind_Done_inv in E as (base & Hb & E). apply set_done in Hb as (Hb & _ & _). do 6 (apply bind_Done_inv in E as (? & ? & E)).
  rewrite (set_name_kept _ _ _ _ E); [exact Hb|reflexivity].
Qed.

(** Where an imported profile goes. *)
Lemma import_done root request root' :
  mutation_import_outline root request = Done root' ->
  let name := trim (default [] (ch_json_string_value (ask (Some request) "profile_name"))) in
  let placeholder := mutation_outline_placeholder (ask (Some root) "profile") in
  name <> [] /\ (placeholder = true \/ ~ named_in root name) /\
  (exists profile, ask (Some profile) "name" = Some (CH_JSON_STRING name) /\
     items_of (ask (Some root') "profile") = (if placeholder then [] else items_of (ask (Some root) "profile")) ++ [profile]) /\
  ask (Some root') "active" = (if flag request "activate" then Some (CH_JSON_STRING name) else ask (Some root) "active") /\
  keeps ["profile"; "active"]%string root root'.
Proof.
  unfold mutation_import_outline. cbv zeta. set (name := trim _). set (placeholder := mutation_outline_placeholder _). intros E.
  destruct (beq name []) eqn:Eb; [discriminate E|]. apply beq_false in Eb.
  destruct (negb placeholder && _) eqn:Ec; [discriminate E|].
  apply bind_Done_inv in E as (profile & Hp & E). apply outline_profile_name in Hp. apply bind_Done_inv in E as (next & Hn & E). cbn [ch_json_array_append] in Hn.
  apply bind_Done_inv in E as (root1 & H1' & E). apply set_done in H1' as (Hi & K1 & _). rewrite <- (returned Hn) in Hi.
  assert (Hmap : map ch_json_value_clone (items_of (ask (Some root) "profile")) = items_of (ask (Some root) "profile")).
  { rewrite (List.map_ext _ (fun v => v)) by apply clone_same. apply List.map_id. }
  rewrite Hmap in Hi. split; [exact Eb|]. split.
  { destruct placeholder; [auto|right]. rewrite <- existsb_named. cbn [negb andb] in Ec. rewrite Ec. discriminate. }
  assert (Hitems : forall k, keeps ["active"%string] root1 root' -> k = "profile"%string -> items_of (ask (Some root') k) =
    (if placeholder then [] else items_of (ask (Some root) "profile")) ++ [profile]).
  { intros k Ka ->. rewrite (keeps_ask _ _ _ "profile" Ka) by reflexivity. rewrite Hi. reflexivity. }
  destruct (flag request "activate").
  - apply set_done in E as (Ha & Ka & _). split_and!; [eauto|exact Ha|].
    apply (keeps_trans _ _ root1); [apply (keeps_one "profile"); [left|exact K1]|apply (keeps_one "active"); [right; left|exact Ka]].
  - injection E as <-. split_and!; [eauto using keeps_refl| |apply (keeps_one "profile"); [left|exact K1]].
    apply (keeps_ask _ _ _ "active" K1). reflexivity.
Qed.


(** ** Facts: HTTPS capture *)

(** Whether a document captures HTTPS. *)
Definition capturing (root : ch_json_value) : bool :=
  match ask (Some root) "developer" with Some d => flag d "enabled" && flag d "mitm_enabled" | None => false end.

Lemma keeps_flag keys a b key : keeps keys a b -> forallb (fun k => negb (beq (str k) (str key))) keys = true -> flag b key = flag a key.
Proof. intros Hk Hf. unfold flag. rewrite (keeps_ask _ _ _ _ Hk Hf). reflexivity. Qed.

Lemma ensured_capture root d : mutation_ensure_object root "developer" = Done d -> flag d "enabled" && flag d "mitm_enabled" = capturing root.
Proof.
  unfold mutation_ensure_object, capturing. destruct (ask (Some root) "developer") as [v|]; [|intros E; injection E as <-; reflexivity].
  destruct v; try discriminate. intros E. injection E as <-. reflexivity.
Qed.

Lemma mitm_step d0 d1 d2 request :
  developer_enabled d0 request = Done d1 -> developer_mitm d1 request (flag d0 "enabled" && flag d0 "mitm_enabled") = Done d2 ->
  flag d2 "enabled" && flag d2 "mitm_enabled" = true ->
  flag d0 "enabled" && flag d0 "mitm_enabled" = true \/ flag request "https_capture_ack" = true /\ flag request "mitm_enabled" = true.
Proof.
  intros E1 E2 Hc. unfold developer_mitm in E2. destruct (given (ask (Some request) "mitm_enabled")) eqn:Eg.
  - destruct (ask (Some request) "mitm_enabled") as [v|] eqn:Em; [|discriminate Eg]. rewrite Eg in E2. cbn [negb] in E2.
    destruct (negb (is_bool v)); [discriminate E2|]. cbv zeta in E2.
    destruct (_ && negb (flag d1 "enabled")); [discriminate E2|].
    destruct (_ && _ && _) eqn:Eb in E2; [discriminate E2|]. apply set_clone_done in E2 as (Ha & _ & _).
    assert (Hv : ch_json_bool_value (Some v) false = true).
    { apply andb_prop in Hc as [_ Hc]. unfold flag in Hc at 1. rewrite Ha in Hc. exact Hc. }
    rewrite Hv in Eb. cbn [andb] in Eb. destruct (flag d0 "enabled" && flag d0 "mitm_enabled"); [auto|]. right.
    destruct (flag request "https_capture_ack"); [|discriminate Eb]. split; [reflexivity|]. unfold flag. rewrite Em. exact Hv.
  - assert (d2 = d1) as -> by (destruct (ask (Some request) "mitm_enabled"); [rewrite Eg in E2|]; injection E2 as <-; reflexivity).
    left. unfold developer_enabled in E1. destruct (ask (Some request) "enabled") as [v|]; [|injection E1 as <-; exact Hc].
    destruct (negb (given (Some v))); [injection E1 as <-; exact Hc|]. destruct (negb (is_bool v)); [discriminate E1|].
    apply bind_Done_inv in E1 as (d & _ & E1). rewrite Eg, orb_true_r in E1. apply set_done in E1 as (Ha & _ & _).
    apply andb_prop in Hc as [_ Hc]. unfold flag in Hc. rewrite Ha in Hc. discriminate Hc.
Qed.

Lemma name_array_keeps request d d' key : name_array_of request d key = Done d' -> keeps [key] d d'.
Proof.
  intros E. apply bind_Done_inv in E as ([v|] & _ & E); [exact (set_keeps _ _ _ _ E)|]. injection E as <-. apply keeps_refl.
Qed.

(** The keys of a step over fields are the fields. *)
Lemma fields_keep step keys o o' : (forall key a b, step a key = Done b -> keeps [key] a b) -> each_field step keys o = Done o' -> keeps keys o o'.
Proof.
  intros Hs. apply each_field_keeps. intros key a b Hk E. exact (keeps_one _ _ _ _ Hk (Hs _ _ _ E)).
Qed.

Lemma developer_settings_consent root request root' : mutation_apply_developer_settings root request = Done root' -> capturing root' = true ->
  capturing root = true \/ flag request "https_capture_ack" = true /\ flag request "mitm_enabled" = true.
Proof.
  intros E Hc. apply bind_Done_inv in E as (d0 & H0' & E). cbv zeta in E.
  match type of E with (if ?b then _ else _) = _ => destruct b; [discriminate E|] end.
  apply bind_Done_inv in E as (d1 & E1 & E). apply bind_Done_inv in E as (d2 & E2 & E). apply bind_Done_inv in E as (d3 & E3 & E).
  apply bind_Done_inv in E as (d4 & E4 & E). apply bind_Done_inv in E as (d5 & E5 & E). apply set_done in E as (Ha & _ & _).
  rewrite <- (ensured_capture _ _ H0'). apply (mitm_step d0 d1 d2 request E1 E2).
  assert (K3 : keeps ["no_cache_enabled"%string] d2 d3) by exact (copy_when_keeps _ _ _ _ _ _ _ E3).
  assert (K4 : keeps ["capture_limit"; "body_limit_bytes"; "header_value_limit_bytes"]%string d3 d4)
    by (eapply fields_keep; [|exact E4]; intros; eapply copy_when_keeps; eassumption).
  assert (K5 : keeps ["redact_headers"; "redact_query_params"; "ssl_decrypt_hosts"]%string d4 d5)
    by (eapply fields_keep; [|exact E5]; intros; eapply name_array_keeps; eassumption).
  unfold capturing in Hc. rewrite Ha in Hc.
  rewrite !(keeps_flag _ _ _ _ K5), !(keeps_flag _ _ _ _ K4), !(keeps_flag _ _ _ _ K3) in Hc by reflexivity. exact Hc.
Qed.


(** A change inside [developer] that leaves the two flags alone. *)
Lemma developer_child root d d' key root' :
  mutation_ensure_object root "developer" = Done d -> keeps [key] d d' -> mutation_set_owned root "developer" d' = Done root' ->
  beq (str key) (str "enabled") = false -> beq (str key) (str "mitm_enabled") = false -> capturing root' = capturing root.
Proof.
  intros Hd Hk E H1' H2'. rewrite <- (ensured_capture _ _ Hd). apply set_done in E as (Ha & _ & _). unfold capturing. rewrite Ha.
  rewrite !(keeps_flag _ _ _ _ Hk); [reflexivity|cbn [forallb]; rewrite ?H1', ?H2'; reflexivity..].
Qed.

Lemma keeps_capture keys a b : keeps keys a b -> forallb (fun k => negb (beq (str k) (str "developer"))) keys = true -> capturing b = capturing a.
Proof. intros Hk Hf. unfold capturing. rewrite (keeps_ask _ _ _ _ Hk Hf). reflexivity. Qed.

Lemma rule_key_not_flag p : In p developer_rule_keys ->
  beq (str (fst (snd p))) (str "enabled") = false /\ beq (str (fst (snd p))) (str "mitm_enabled") = false.
Proof. intros [<-|[<-|[<-|[]]]]; split; reflexivity. Qed.

Lemma replace_rules_capture root request key rewrite root' :
  mutation_replace_developer_rules root request key rewrite = Done root' ->
  beq (str key) (str "enabled") = false -> beq (str key) (str "mitm_enabled") = false -> capturing root' = capturing root.
Proof.
  intros E H1' H2'. apply bind_Done_inv in E as (d & Hd & E). apply bind_Done_inv in E as (d' & Hd' & E).
  refine (developer_child _ _ _ key _ Hd _ E H1' H2').
  destruct (ask (Some request) "rules") as [[| | | |[|x l]|]|]; cbn [given ch_json_value_type] in Hd'; try discriminate Hd';
    try (injection Hd' as <-; apply without_keeps).
  apply bind_Done_inv in Hd' as (next & _ & Hd'). exact (set_keeps _ _ _ _ Hd').
Qed.

Lemma delete_rule_capture root request key root' :
  mutation_delete_developer_rule root request key = Done root' ->
  beq (str key) (str "enabled") = false -> beq (str key) (str "mitm_enabled") = false -> capturing root' = capturing root.
Proof.
  unfold mutation_delete_developer_rule. cbv zeta. intros E H1' H2'.
  match type of E with (if ?b then _ else _) = _ => destruct b; [discriminate E|] end.
  apply bind_Done_inv in E as (d & Hd & E). apply bind_Done_inv in E as (d' & Hd' & E).
  refine (developer_child _ _ _ key _ Hd _ E H1' H2').
  destruct (List.filter _ _) as [|x l]; [injection Hd' as <-; apply without_keeps|exact (set_keeps _ _ _ _ Hd')].
Qed.

Lemma import_keeps root request root' : mutation_import_outline root request = Done root' -> keeps ["profile"; "active"]%string root root'.
Proof.
  unfold mutation_import_outline. cbv zeta. intros E.
  match type of E with (if ?b then _ else _) = _ => destruct b; [discriminate E|] end.
  match type of E with (if ?b then _ else _) = _ => destruct b; [discriminate E|] end.
  apply bind_Done_inv in E as (base & _ & E). apply bind_Done_inv in E as (next & _ & E). apply bind_Done_inv in E as (root1 & E1 & E).
  apply (keeps_trans _ _ root1); [exact (set_keeps_of _ _ _ _ _ ltac:(left) E1)|].
  destruct (flag request "activate"); [exact (set_keeps_of _ _ _ _ _ ltac:(right; left) E)|]. injection E as <-. apply keeps_refl.
Qed.

Lemma root_operation_consent operation root request root' :
  root_operation operation root request = Some (Done root') -> capturing root' = true ->
  capturing root = true \/
  operation = str "update_developer_settings" /\ flag request "https_capture_ack" = true /\ flag request "mitm_enabled" = true.
Proof.
  intros E Hc. destruct (decide (operation = str "update_developer_settings")) as [->|Hne].
  { injection E as E. destruct (developer_settings_consent _ _ _ E Hc); auto. }
  unfold root_operation in E. rewrite (proj2 (beq_false _ _)) in E by exact Hne. left.
  destruct (beq operation (str "update_config_settings")) eqn:Es.
  { apply beq_true in Es. subst operation. rewrite <- Hc. symmetry. apply (keeps_capture ["prompt"%string]); [|reflexivity].
    apply (root_operation_keeps (str "update_config_settings") _ request). exact E. }
  destruct (List.find _ developer_rule_keys) as [[? [key rewrite]]|] eqn:Ef.
  { apply find_some in Ef as [Hin _]. destruct (rule_key_not_flag _ Hin) as [H1' H2']. injection E as E. cbn in H1', H2'.
    rewrite <- (replace_rules_capture _ _ _ _ _ E H1' H2'). exact Hc. }
  clear Ef. destruct (List.find _ developer_rule_keys) as [[? [key rewrite]]|] eqn:Ef; [|discriminate E].
  apply find_some in Ef as [Hin _]. destruct (rule_key_not_flag _ Hin) as [H1' H2']. injection E as E. cbn in H1', H2'.
  rewrite <- (delete_rule_capture _ _ _ _ E H1' H2'). exact Hc.
Qed.

(** C27: HTTPS is captured only with consent.  No edit, whatever its operation
    and its request, turns a document that does not capture HTTPS into one that
    does (capture and interception both enabled), except an update of the
    developer settings whose request asks for the interception and
    acknowledges the capture of HTTPS; in particular, switching the capture on
    again never brings the interception back by itself. *)
Theorem capture_needs_consent root request fallback operation root' :
  mutated root request fallback operation = Done root' -> capturing root' = true ->
  capturing root = true \/
  operation = str "update_developer_settings" /\ flag request "https_capture_ack" = true /\ flag request "mitm_enabled" = true.
Proof.
  intros E Hc. destruct (decide (operation = str "import_outline")) as [->|Hne].
  { left. rewrite <- Hc. symmetry. apply (keeps_capture ["profile"; "active"]%string); [|reflexivity]. exact (import_keeps _ _ _ E). }
  destruct (mutated_steps _ _ _ _ _ E Hne) as (index & profile & root1 & profile' & root2 & Hs & Ha & Hp & Hr).
  destruct (steps_frame _ _ _ _ _ _ _ _ _ _ Hs Ha Hp Hr) as (_ & Ka & Ki & _ & _).
  rewrite <- (keeps_capture _ _ _ Ka eq_refl), <- (keeps_capture _ _ _ Ki eq_refl).
  destruct Hr as [Hr|[_ ->]]; [exact (root_operation_consent _ _ _ _ Hr Hc)|auto].
Qed.

End Facts.

(** ** Witnesses *)

#[export, refine] Instance plain_whole : @DoubleWhole plain_double := {|
  double_whole := fun _ => true;
  format_0f := dec
|}.
Proof.
  - reflexivity.
  - reflexivity.
Defined.

Section Witnesses.
Import PlainLongDouble.
#[local] Existing Instance Temporary.plain_compare.

Definition w_text (s : String.string) : ch_json_value := CH_JSON_STRING (str s).

Definition w_rule_value : ch_json_value := CH_JSON_OBJECT [(str "name", w_text "web"); (str "action", w_text "direct")].

Definition w_root_value : ch_json_value :=
  CH_JSON_OBJECT
    [(str "active", w_text "home");
     (str "profile", CH_JSON_ARRAY [CH_JSON_OBJECT [(str "name", w_text "work"); (str "dns", CH_JSON_OBJECT [])];
                                    CH_JSON_OBJECT [(str "name", w_text "home"); (str "rule", CH_JSON_ARRAY [w_rule_value])]]);
     (str "developer", CH_JSON_OBJECT [(str "enabled", CH_JSON_BOOL true); (str "mitm_enabled", CH_JSON_BOOL false)])].

Definition w_create : ch_json_value :=
  CH_JSON_OBJECT [(str "profile", w_text "home"); (str "position", w_text "prepend"); (str "rule", w_rule_value)].

Definition value_of (r : result ch_json_value) : ch_json_value := match r with Done v => v | _ => CH_JSON_NULL end.

Definition is_done (r : result ch_json_value) : bool := match r with Done _ => true | _ => false end.

Lemma done_value r : is_done r = true -> r = Done (value_of r).
Proof. destruct r; [reflexivity|discriminate..]. Qed.

Abbreviation w_created := (mutated w_root_value w_create (Some (str "work")) (str "create_rule")).


Definition w_consent : ch_json_value :=
  CH_JSON_OBJECT [(str "https_capture_ack", CH_JSON_BOOL true); (str "mitm_enabled", CH_JSON_BOOL true)].

Abbreviation w_captured := (mutated w_root_value w_consent (Some (str "home")) (str "update_developer_settings")).

Lemma capture_needs_consent_witness :
  capturing w_root_value = false /\ capturing (value_of w_captured) = true /\ flag w_consent "https_capture_ack" = true.
Proof.
  split; [vm_compute; reflexivity|]. split; [vm_compute; reflexivity|].
  destruct (capture_needs_consent w_root_value w_consent (Some (str "home")) (str "update_developer_settings") (value_of w_captured)
    (done_value w_captured ltac:(vm_compute; reflexivity)) ltac:(vm_compute; reflexivity)) as [Hc|(_ & Hack & _)]; [discriminate Hc|exact Hack].
Defined.

(** Without the acknowledgement the request is refused, and switching the
    capture off and on again leaves the interception off. *)
Example w_capture_refused :
  match mutated w_root_value (CH_JSON_OBJECT [(str "mitm_enabled", CH_JSON_BOOL true)]) (Some (str "home")) (str "update_developer_settings") with
  | Raise e => beq (message e) (str "https_capture_ack is required when enabling HTTPS capture")
  | _ => false
  end = true.
Proof. vm_compute. reflexivity. Qed.

Example w_capture_switched :
  let switch b root := value_of (mutated root (CH_JSON_OBJECT [(str "enabled", CH_JSON_BOOL b)]) (Some (str "home")) (str "update_developer_settings")) in
  capturing (switch true (switch false (value_of w_captured))) = false.
Proof. vm_compute. reflexivity. Qed.

End Witnesses.
End Mutation.
