(* ===== verification/ConfigRender.v ===== *)
(** * Writing an edited configuration: [native/src/config_mutation.c], rendering

    The edited JSON document as TOML text, and the whole edit: the JSON of the
    configuration, the operation of the request, the text, and its validation.
    A table is written as its values, then its tables, then its arrays of
    tables, each below a header with the path from the root.  [toml_document]
    reads such a text after the TOML specification, and the theorems relate it
    to the document it was made from.

    Allocation is taken to succeed, as in [ConfigMutation]. *)

From S2P Require Import Prelude CLib Inet Json JsonText TempRules Config ConfigText FeedCache Traffic TrafficHistory TrafficRules ConfigMutation.

Module Render.
Import Json JsonText Mutation.

Section Render.
Context `{DoubleCompare, !DoubleWhole}.
Implicit Types (v : ch_json_value) (ms : list (bytes * ch_json_value)).

(** ** Values *)

(** The characters are escaped as in [config_append_toml_string] of
    [config.c]. *)
Definition mutation_append_toml_string (value : bytes) : bytes := [34] ++ concat (map ConfigText.toml_escape value) ++ [34].

Definition bare_char (c : Z) : bool := isalnum c || (c =? 95) || (c =? 45).

(** A failure that leaves no error of its own gets this one at the end. *)
Definition render_failed {A} : result A := fail CH_ERROR_OUT_OF_MEMORY (str "render TOML configuration").

Definition mutation_append_toml_key (key : bytes) : result bytes :=
  if beq key [] then render_failed
  else Done (if forallb bare_char key then key else mutation_append_toml_string key).

(** [9.0e15], beyond which a whole number is not written as an integer. *)
Definition whole_limit : Z := 9000000000000000.

Definition toml_number (d : double) : bytes :=
  if double_whole d && negb (double_ltb (double_of_int64 whole_limit) d) && negb (double_ltb d (double_of_int64 (- whole_limit)))
  then format_0f d else format_17g d.

(** The items of an array from the second one on, each behind a comma. *)
Definition scalars_only {A} : result A := fail CH_ERROR_INVALID_ARGUMENT (str "TOML value arrays must contain scalars").

Fixpoint mutation_append_toml_value v : result bytes :=
  match v with
  | CH_JSON_BOOL b => Done (bool_text b)
  | CH_JSON_NUMBER n => Done (toml_number (number_value n))
  | CH_JSON_STRING s => Done (mutation_append_toml_string s)
  | CH_JSON_ARRAY l =>
      text ← (fix append_items (first : bool) l :=
        match l with
        | [] => Done []
        | item :: l' =>
            text ← match item with
                   | CH_JSON_OBJECT _ | CH_JSON_NULL => scalars_only
                   | _ => match mutation_append_toml_value item with Done text => Done text | _ => scalars_only end
                   end;
            rest ← append_items false l';
            Done ((if first then [] else [44; 32]) ++ text ++ rest)
        end) true l;
      Done ([91] ++ text ++ [93])
  | CH_JSON_NULL | CH_JSON_OBJECT _ =>
      fail CH_ERROR_INVALID_ARGUMENT (str "configuration contains an unsupported TOML value")
  end.

(** ** Tables *)

Definition mutation_is_object_array v : result bool :=
  match v with
  | CH_JSON_ARRAY (first :: rest) =>
      if forallb (fun item => Bool.eqb (is_object first) (is_object item)) rest then Done (is_object first)
      else fail CH_ERROR_INVALID_ARGUMENT (str "configuration arrays must not mix tables and values")
  | _ => Done false
  end.

Fixpoint path_rest (path : list bytes) : result bytes :=
  match path with
  | [] => Done []
  | key :: path' => text ← mutation_append_toml_key key; rest ← path_rest path'; Done ([46] ++ text ++ rest)
  end.

Definition mutation_append_path (path : list bytes) : result bytes :=
  match path with
  | [] => Done []
  | key :: path' => text ← mutation_append_toml_key key; rest ← path_rest path'; Done (text ++ rest)
  end.

(** A loop that writes the text of each element. *)
Definition render_each {A} (render : A -> result bytes) : list A -> result bytes :=
  fix loop l := match l with [] => Done [] | x :: l' => text ← render x; rest ← loop l'; Done (text ++ rest) end.

(** The first loop over the members. *)
Definition render_value (m : bytes * ch_json_value) : result bytes :=
  match snd m with
  | CH_JSON_NULL | CH_JSON_OBJECT _ => Done []
  | v =>
      tables ← mutation_is_object_array v;
      if (tables : bool) then Done []
      else
        key ← mutation_append_toml_key (fst m);
        text ← mutation_append_toml_value v;
        Done (key ++ str " = " ++ text ++ [10])
  end.

(** A header and what is below it. *)
Definition render_header (before after : bytes) (path : list bytes) (body : result bytes) : result bytes :=
  header ← mutation_append_path path;
  text ← body;
  Done ([10] ++ before ++ header ++ after ++ [10] ++ text).

Fixpoint mutation_render_table v (path : list bytes) : result bytes :=
  match v with
  | CH_JSON_OBJECT members =>
      if 64 <? lenZ path then fail CH_ERROR_INVALID_ARGUMENT (str "configuration table is invalid or too deeply nested")
      else
        values ← render_each render_value members;
        tables ← render_each (fun '(key, v) =>
          match v with
          | CH_JSON_OBJECT _ => render_header [91] [93] (path ++ [key]) (mutation_render_table v (path ++ [key]))
          | _ => Done []
          end) members;
        arrays ← render_each (fun '(key, v) =>
          objects ← mutation_is_object_array v;
          match v with
          | CH_JSON_ARRAY l =>
              if (objects : bool) then
                render_each (fun item => render_header [91; 91] [93; 93] (path ++ [key]) (mutation_render_table item (path ++ [key]))) l
              else Done []
          | _ => Done []
          end) members;
        Done (values ++ tables ++ arrays)
  | _ => fail CH_ERROR_INVALID_ARGUMENT (str "configuration table is invalid or too deeply nested")
  end.

Definition ch_config_render_document_json (root : ch_json_value) : result bytes := mutation_render_table root [].

(** ** The edit *)

Context `{!LongDouble, Inet} (grow : Z -> bool).

Definition ch_config_mutate_document_json (toml_parse : bytes -> Config.toml_table double + bytes) (config : Config.ch_config (D := double))
    (fallback_profile operation request_json : option bytes) : result bytes :=
  match operation, request_json with
  | Some operation, Some request_json =>
      root_json ← ConfigText.ch_config_table_json grow (Config.root config);
      root ← ch_json_parse (Some root_json);
      request ← ch_json_parse (Some request_json);
      if negb (is_object request) then mutation_type_error (str "request") (str "an object")
      else
        root ← mutated root request fallback_profile operation;
        text ← ch_config_render_document_json root;
        '(status, _, error) ← Config.ch_config_parse toml_parse text (Config.source_path config);
        if bool_decide (status = CH_OK) then Done text else Raise error
  | _, _ => fail CH_ERROR_INVALID_ARGUMENT (str "config mutation inputs are required")
  end.

End Render.

(** ** What the text means

    The lines of a document, and what they define, after the specification of
    TOML: a pair belongs to the table of the last header, a header [[path.key]]
    defines a table, a header [[[path.key]]] appends a table to an array, and a
    path that meets an array of tables goes on in its last table. *)

Abbreviation table := (list (bytes * ch_json_value)).

Section Meaning.
Context `{DoubleCompare, !DoubleWhole}.

Inductive line : Type :=
| Pair (key : bytes) (v : ch_json_value)
| Table (path : list bytes) (key : bytes)
| TableArray (path : list bytes) (key : bytes).

Fixpoint edit (path : list bytes) (f : table -> option table) (t : table) : option table :=
  match path with
  | [] => f t
  | key :: path' =>
      match member_get t key with
      | Some (CH_JSON_OBJECT child) => child ← edit path' f child; member_replace t key (CH_JSON_OBJECT child)
      | Some (CH_JSON_ARRAY l) =>
          match list.last l with
          | Some (CH_JSON_OBJECT child) =>
              child ← edit path' f child; member_replace t key (CH_JSON_ARRAY (removelast l ++ [CH_JSON_OBJECT child]))
          | _ => None
          end
      | _ => None
      end
  end.

Definition define (key : bytes) (v : ch_json_value) (t : table) : option table :=
  match member_get t key with None => Some (t ++ [(key, v)]) | Some _ => None end.

Definition extend (key : bytes) (t : table) : option table :=
  match member_get t key with
  | None => Some (t ++ [(key, CH_JSON_ARRAY [CH_JSON_OBJECT []])])
  | Some (CH_JSON_ARRAY (CH_JSON_OBJECT first :: l)) =>
      member_replace t key (CH_JSON_ARRAY (CH_JSON_OBJECT first :: l ++ [CH_JSON_OBJECT []]))
  | Some _ => None
  end.

(** The document and the current table after the lines. *)
Fixpoint read_lines (current : list bytes) (t : table) (ls : list line) : option (list bytes * table) :=
  match ls with
  | [] => Some (current, t)
  | Pair key v :: ls' => t ← edit current (define key v) t; read_lines current t ls'
  | Table path key :: ls' => t ← edit path (define key (CH_JSON_OBJECT [])) t; read_lines (path ++ [key]) t ls'
  | TableArray path key :: ls' => t ← edit path (extend key) t; read_lines (path ++ [key]) t ls'
  end.

(** *** The lines of a value *)

Inductive kind : Type := Dropped | Value | Subtable | Tables.

#[export] Instance kind_eq_dec : EqDecision kind.
Proof. solve_decision. Defined.

Definition kind_of (v : ch_json_value) : kind :=
  match v with
  | CH_JSON_NULL => Dropped
  | CH_JSON_OBJECT _ => Subtable
  | CH_JSON_ARRAY (first :: _) => if is_object first then Tables else Value
  | _ => Value
  end.

Definition part {A} (k : kind) (f : bytes -> ch_json_value -> list A) (ms : table) : list A :=
  concat (map (fun '(key, v) => if bool_decide (kind_of v = k) then f key v else []) ms).

Fixpoint lines (v : ch_json_value) (path : list bytes) : list line :=
  match v with
  | CH_JSON_OBJECT members =>
      part Value (fun key v => [Pair key v]) members ++
      part Subtable (fun key v => Table path key :: lines v (path ++ [key])) members ++
      part Tables (fun key v =>
        match v with
        | CH_JSON_ARRAY l => concat (map (fun item => TableArray path key :: lines item (path ++ [key])) l)
        | _ => []
        end) members
  | _ => []
  end.

(** The document that the text defines: without nulls, and with the values of
    a table in front of its tables. *)
Fixpoint normal (v : ch_json_value) : ch_json_value :=
  match v with
  | CH_JSON_OBJECT members =>
      CH_JSON_OBJECT
        (part Value (fun key v => [(key, v)]) members ++
         part Subtable (fun key v => [(key, normal v)]) members ++
         part Tables (fun key v => [(key, normal v)]) members)
  | CH_JSON_ARRAY l => CH_JSON_ARRAY (if bool_decide (kind_of (CH_JSON_ARRAY l) = Tables) then map normal l else l)
  | _ => v
  end.

(** No object has a key twice. *)
Fixpoint unique_keys (v : ch_json_value) : Prop :=
  match v with
  | CH_JSON_OBJECT members => NoDup (map fst members) /\ foldr and True (map (fun m => unique_keys (snd m)) members)
  | CH_JSON_ARRAY l => foldr and True (map unique_keys l)
  | _ => True
  end.

(** *** The text of the lines *)

Definition key_text (key : bytes) : bytes := if forallb bare_char key then key else mutation_append_toml_string key.

Definition path_text (path : list bytes) (key : bytes) : bytes := concat (map (fun k => key_text k ++ [46]) path) ++ key_text key.

Definition value_text (v : ch_json_value) : bytes := match mutation_append_toml_value v with Done text => text | _ => [] end.

Definition line_text (l : line) : bytes :=
  match l with
  | Pair key v => key_text key ++ str " = " ++ value_text v ++ [10]
  | Table path key => [10; 91] ++ path_text path key ++ [93; 10]
  | TableArray path key => [10; 91; 91] ++ path_text path key ++ [93; 93; 10]
  end.

End Meaning.

(** *** Facts: editing along a path *)

Section Facts.
Context `{DoubleCompare, !DoubleWhole}.
Implicit Types (v : ch_json_value) (t c : table) (path : list bytes).

Lemma replace_replace t t1 key v w : member_replace t key v = Some t1 -> member_replace t1 key w = member_replace t key w.
Proof.
  revert t1. induction t as [|[k x] t IH]; intros t1; cbn [member_replace]; [discriminate|].
  destruct (beq k key) eqn:E; [intros [= <-]; cbn [member_replace]; rewrite E; reflexivity|].
  destruct (member_replace t key v) as [r|]; [|discriminate]. intros [= <-]. cbn [member_replace].
  rewrite E, (IH r eq_refl). reflexivity.
Qed.

Lemma replace_get t t1 key v : member_replace t key v = Some t1 -> member_get t1 key = Some v.
Proof. intros E. pose proof (member_replace_get t key v) as Hr. rewrite E in Hr. apply Hr. Qed.

Lemma get_keys t key : member_get t key = None <-> key ∉ map fst t.
Proof.
  split; [|apply member_get_None]. induction t as [|[k v] t IH]; cbn [member_get map fst]; intros E; [apply not_elem_of_nil|].
  destruct (beq k key) eqn:Ek; [discriminate|]. apply beq_false in Ek. rewrite not_elem_of_cons. auto.
Qed.

Lemma replace_some t key v w : member_get t key = Some w -> is_Some (member_replace t key v).
Proof.
  intros E. pose proof (member_replace_get t key v) as Hr. destruct (member_replace t key v); [eauto|].
  apply get_keys in Hr. congruence.
Qed.

Lemma replace_new t key v w : member_get t key = None -> member_replace (t ++ [(key, v)]) key w = Some (t ++ [(key, w)]).
Proof.
  induction t as [|[k x] t IH]; cbn [member_get app member_replace]; [rewrite beq_refl; reflexivity|].
  destruct (beq k key); [discriminate|]. intros E. rewrite (IH E). reflexivity.
Qed.

Lemma get_new t key v : member_get t key = None -> member_get (t ++ [(key, v)]) key = Some v.
Proof. intros E. rewrite member_get_snoc, beq_refl; [reflexivity|]. apply get_keys, E. Qed.

Lemma edit_app p q f t : edit (p ++ q) f t = edit p (edit q f) t.
Proof.
  revert t. induction p as [|key p IH]; intros t; [reflexivity|]. cbn [app edit].
  destruct (member_get t key) as [[| | | |l|child]|]; try reflexivity; [|rewrite IH; reflexivity].
  destruct (list.last l) as [[| | | | |child]|]; try reflexivity. rewrite IH. reflexivity.
Qed.

(** Two edits at one place are one. *)
Lemma edit_edit path f g t t1 : edit path f t = Some t1 -> edit path g t1 = edit path (fun x => f x ≫= g) t.
Proof.
  revert t t1. induction path as [|key path IH]; intros t t1; cbn [edit]; [intros ->; reflexivity|].
  destruct (member_get t key) as [[| | | |l|child]|]; try discriminate.
  - destruct (list.last l) as [[| | | | |child]|]; try discriminate.
    destruct (edit path f child) as [child1|] eqn:E; [|discriminate]. cbn [mbind option_bind]. intros Hr.
    rewrite (replace_get _ _ _ _ Hr), last_snoc, (IH _ _ E). destruct (edit path (fun x => f x ≫= g) child) as [r|]; [|reflexivity].
    cbn [mbind option_bind]. rewrite (replace_replace _ _ _ _ _ Hr), removelast_last. reflexivity.
  - destruct (edit path f child) as [child1|] eqn:E; [|discriminate]. cbn [mbind option_bind]. intros Hr.
    rewrite (replace_get _ _ _ _ Hr), (IH _ _ E). destruct (edit path (fun x => f x ≫= g) child) as [r|]; [|reflexivity].
    cbn [mbind option_bind]. apply (replace_replace _ _ _ _ _ Hr).
Qed.

(** The document [t0] with the table [c] at the path. *)
Definition put path c (t0 : table) : option table := edit path (fun _ => Some c) t0.

Lemma put_edit path c t0 t g : put path c t0 = Some t -> edit path g t = edit path (fun _ => g c) t0.
Proof. intros E. rewrite (edit_edit _ _ _ _ _ E). reflexivity. Qed.

Lemma put_some path t0 c c' : is_Some (put path c t0) -> is_Some (put path c' t0).
Proof.
  unfold put. revert t0. induction path as [|key path IH]; intros t0; cbn [edit]; [eauto|].
  destruct (member_get t0 key) as [[| | | |l|child]|] eqn:Eg; try (intros [? ?]; discriminate).
  - destruct (list.last l) as [[| | | | |child]|]; try (intros [? ?]; discriminate). intros [x Hx].
    apply bind_Some in Hx as (child1 & Hc & Hx). destruct (IH child (mk_is_Some _ _ Hc)) as [child2 E]. rewrite E. cbn [mbind option_bind].
    apply (replace_some _ _ _ _ Eg).
  - intros [x Hx]. apply bind_Some in Hx as (child1 & Hc & Hx). destruct (IH child (mk_is_Some _ _ Hc)) as [child2 E]. rewrite E.
    cbn [mbind option_bind]. apply (replace_some _ _ _ _ Eg).
Qed.

(** An edit that changes the table at the path from [c] to [c']. *)
Lemma put_step path c c' t0 t g :
  put path c t0 = Some t -> g c = Some c' -> exists t', edit path g t = Some t' /\ put path c' t0 = Some t'.
Proof.
  intros Hp Hg. rewrite (put_edit _ _ _ _ _ Hp). rewrite Hg.
  destruct (put_some path t0 c c' (mk_is_Some _ _ Hp)) as [t' E]. exists t'. split; exact E.
Qed.

(** What stands at a member of the table. *)
Lemma put_child path c c' key n t0 t t' :
  put path c t0 = Some t -> edit [key] (fun _ => Some n) c = Some c' -> put (path ++ [key]) n t = Some t' -> put path c' t0 = Some t'.
Proof.
  intros Hp Hc Ht. unfold put in Ht. rewrite edit_app, (put_edit _ _ _ _ _ Hp), Hc in Ht. exact Ht.
Qed.

Lemma put_child_at path c key n t0 t :
  put path c t0 = Some t -> edit [key] (fun _ => Some n) c = Some c -> put (path ++ [key]) n t = Some t.
Proof. intros Hp Hc. unfold put. rewrite edit_app, (put_edit _ _ _ _ _ Hp), Hc. exact Hp. Qed.

Lemma read_app current t l1 l2 :
  read_lines current t (l1 ++ l2) = '(current, t) ← read_lines current t l1; read_lines current t l2.
Proof.
  revert current t. induction l1 as [|[key v|path key|path key] l1 IH]; intros current t; [reflexivity|..]; cbn [app read_lines];
    (destruct (edit _ _ t); [|reflexivity]); cbn [mbind option_bind]; apply IH.
Qed.


(** *** Facts: the lines of a value define it *)

(** The arrays of tables hold nothing but tables. *)
Fixpoint writable v : Prop :=
  match v with
  | CH_JSON_OBJECT members =>
      foldr and True (map (fun m =>
        match kind_of (snd m), snd m with
        | Subtable, v => writable v
        | Tables, CH_JSON_ARRAY l => foldr and True (map writable l)
        | _, _ => True
        end) members)
  | _ => False
  end.

Definition members_of v : table := match v with CH_JSON_OBJECT ms => ms | _ => [] end.

Lemma part_cons {A} k (f : bytes -> ch_json_value -> list A) key v ms :
  part k f ((key, v) :: ms) = (if bool_decide (kind_of v = k) then f key v else []) ++ part k f ms.
Proof. reflexivity. Qed.

(** The lines of the members of a kind, one member after the other. *)
Lemma part_reads k (f : bytes -> ch_json_value -> list line) (g : ch_json_value -> ch_json_value) (Q : list bytes -> Prop) path t0 ms :
  (forall key v, (key, v) ∈ ms -> kind_of v = k -> forall current c t, Q current -> put path c t0 = Some t -> member_get c key = None ->
     exists current' t', read_lines current t (f key v) = Some (current', t') /\ Q current' /\ put path (c ++ [(key, g v)]) t0 = Some t') ->
  forall current c t, Q current -> put path c t0 = Some t -> NoDup (map fst (c ++ part k (fun key v => [(key, g v)]) ms)) ->
  exists current' t', read_lines current t (part k f ms) = Some (current', t') /\ Q current' /\
    put path (c ++ part k (fun key v => [(key, g v)]) ms) t0 = Some t'.
Proof.
  intros Hone. induction ms as [|[key v] ms IH]; intros current c t HQ Hp Hnd.
  - exists current, t. cbn. rewrite app_nil_r. auto.
  - rewrite !part_cons. rewrite part_cons in Hnd.
    assert (Hrest : forall key v, (key, v) ∈ ms -> kind_of v = k -> forall current c t, Q current -> put path c t0 = Some t ->
        member_get c key = None -> exists current' t', read_lines current t (f key v) = Some (current', t') /\ Q current' /\
        put path (c ++ [(key, g v)]) t0 = Some t') by (intros; apply Hone; [right; assumption|auto..]).
    specialize (IH Hrest). case_bool_decide as Hk; [|apply IH; assumption].
    rewrite app_assoc in Hnd |- *. destruct (Hone key v ltac:(left) Hk current c t HQ Hp) as (cur1 & t1 & R1 & HQ1 & P1).
    { apply get_keys. intros Hin. rewrite !map_app in Hnd. cbn in Hnd. apply list.NoDup_app in Hnd as (Hnd & _ & _).
      apply list.NoDup_app in Hnd as (_ & Hd & _). apply (Hd key Hin). left. }
    destruct (IH cur1 _ t1 HQ1 P1 Hnd) as (cur2 & t2 & R2 & HQ2 & P2). exists cur2, t2. rewrite read_app, R1. auto.
Qed.

Lemma edit_one c key n : member_get c key = None ->
  edit [key] (fun _ => Some n) (c ++ [(key, CH_JSON_OBJECT [])]) = Some (c ++ [(key, CH_JSON_OBJECT n)]).
Proof. intros Hc. cbn [edit]. rewrite (get_new _ _ _ Hc). cbn. apply replace_new, Hc. Qed.

Definition table_reads v : Prop :=
  forall path t0 t, put path [] t0 = Some t ->
  exists current t', read_lines path t (lines v path) = Some (current, t') /\ put path (members_of (normal v)) t0 = Some t'.

Lemma subtable_reads path t0 key v current c t :
  table_reads v -> put path c t0 = Some t -> member_get c key = None ->
  exists current' t', read_lines current t (Table path key :: lines v (path ++ [key])) = Some (current', t') /\
    put path (c ++ [(key, CH_JSON_OBJECT (members_of (normal v)))]) t0 = Some t'.
Proof.
  intros Hv Hp Hc. cbn [read_lines].
  destruct (put_step path c (c ++ [(key, CH_JSON_OBJECT [])]) t0 t (define key (CH_JSON_OBJECT [])) Hp) as (t1 & E1 & P1).
  { unfold define. rewrite Hc. reflexivity. }
  rewrite E1. cbn [mbind option_bind].
  destruct (Hv (path ++ [key]) t1 t1 (put_child_at _ _ _ _ _ _ P1 (edit_one c key [] Hc))) as (cur & t2 & R & P2).
  exists cur, t2. split; [exact R|]. exact (put_child _ _ _ _ _ _ _ _ P1 (edit_one c key _ Hc) P2).
Qed.

(** The table with the elements of an array that are there so far. *)
Definition with_tables c (key : bytes) (ds : list table) : table :=
  match ds with [] => c | _ => c ++ [(key, CH_JSON_ARRAY (map CH_JSON_OBJECT ds))] end.

Lemma with_tables_snoc c key ds d : with_tables c key (ds ++ [d]) = c ++ [(key, CH_JSON_ARRAY (map CH_JSON_OBJECT ds ++ [CH_JSON_OBJECT d]))].
Proof. unfold with_tables. destruct ds as [|d' ds]; [reflexivity|]. cbn [app map]. rewrite map_app. reflexivity. Qed.

Lemma extend_tables c key ds : member_get c key = None -> extend key (with_tables c key ds) = Some (with_tables c key (ds ++ [[]])).
Proof.
  intros Hc. rewrite with_tables_snoc. unfold extend. destruct ds as [|d ds]; cbn [with_tables].
  - rewrite Hc. reflexivity.
  - rewrite (get_new _ _ _ Hc). cbn [map app]. apply replace_new, Hc.
Qed.

Lemma edit_last c key ds d n : member_get c key = None ->
  edit [key] (fun _ => Some n) (with_tables c key (ds ++ [d])) = Some (with_tables c key (ds ++ [n])).
Proof.
  intros Hc. rewrite !with_tables_snoc. cbn [edit]. rewrite (get_new _ _ _ Hc), last_snoc. cbn [mbind option_bind].
  rewrite removelast_last. apply replace_new, Hc.
Qed.

Lemma tables_read path t0 key c l : Forall table_reads l -> member_get c key = None ->
  forall current ds t, put path (with_tables c key ds) t0 = Some t ->
  exists current' t', read_lines current t (concat (map (fun item => TableArray path key :: lines item (path ++ [key])) l)) = Some (current', t') /\
    put path (with_tables c key (ds ++ map (fun v => members_of (normal v)) l)) t0 = Some t'.
Proof.
  intros Hl Hc. induction Hl as [|v l Hv Hl IH]; intros current ds t Hp; cbn [map concat].
  - exists current, t. rewrite app_nil_r. split; [reflexivity|exact Hp].
  - destruct (put_step path _ _ t0 t (extend key) Hp (extend_tables c key ds Hc)) as (t1 & E1 & P1).
    rewrite <- app_comm_cons. cbn [read_lines]. rewrite E1. cbn [mbind option_bind].
    destruct (Hv (path ++ [key]) t1 t1 (put_child_at _ _ _ _ _ _ P1 (edit_last c key ds [] [] Hc))) as (cur & t2 & R & P2).
    rewrite read_app, R. cbn [mbind option_bind].
    apply (put_child _ _ _ _ _ _ _ _ P1 (edit_last c key ds [] _ Hc)) in P2.
    destruct (IH cur _ t2 P2) as (cur' & t3 & R3 & P3). exists cur', t3. split; [exact R3|].
    rewrite <- app_assoc in P3. exact P3.
Qed.


Definition keys_of k (ms : table) : list bytes := part k (fun key _ => [key]) ms.

Lemma part_keys k (g : ch_json_value -> ch_json_value) ms : map fst (part k (fun key v => [(key, g v)]) ms) = keys_of k ms.
Proof.
  unfold keys_of. induction ms as [|[key v] ms IH]; [reflexivity|]. rewrite !part_cons, map_app, IH. case_bool_decide; reflexivity.
Qed.

Lemma keys_of_kind k ms key : key ∈ keys_of k ms -> exists v, (key, v) ∈ ms /\ kind_of v = k.
Proof.
  unfold keys_of. induction ms as [|[x v] ms IH]; [intros Hx; apply elem_of_nil in Hx as []|]. rewrite part_cons, elem_of_app.
  intros [Hx|Hx].
  - case_bool_decide as E; [|apply elem_of_nil in Hx as []]. apply list_elem_of_singleton in Hx as ->. exists v. split; [left|exact E].
  - destruct (IH Hx) as (w & Hw & E). exists w. split; [right; exact Hw|exact E].
Qed.

Lemma keys_of_unique k ms : NoDup (map fst ms) -> NoDup (keys_of k ms).
Proof.
  unfold keys_of. induction ms as [|[x v] ms IH]; [constructor|]. rewrite part_cons. cbn [map fst]. intros Hnd.
  apply list.NoDup_cons in Hnd as [Hx Hnd]. case_bool_decide; [|apply IH, Hnd]. apply list.NoDup_cons. split; [|apply IH, Hnd].
  intros Hin. apply keys_of_kind in Hin as (w & Hw & _). apply Hx. apply list_elem_of_fmap. exists (x, w). auto.
Qed.

Lemma unique_member (ms : table) key v w : NoDup (map fst ms) -> (key, v) ∈ ms -> (key, w) ∈ ms -> v = w.
Proof.
  induction ms as [|[x u] ms IH]; [intros _ Hv; apply elem_of_nil in Hv as []|]. cbn [map fst]. intros Hnd.
  apply list.NoDup_cons in Hnd as [Hx Hnd].
  assert (Hf : forall y, (x, y) ∉ ms) by (intros y Hy; apply Hx, list_elem_of_fmap; exists (x, y); auto).
  intros Hv Hw. apply elem_of_cons in Hv as [[= -> ->]|Hv], Hw as [[= ->]|Hw]; try (subst; congruence); try (exfalso; eapply Hf; eassumption).
  exact (IH Hnd Hv Hw).
Qed.

Lemma keys_of_disjoint j k ms key : NoDup (map fst ms) -> j <> k -> key ∈ keys_of j ms -> key ∉ keys_of k ms.
Proof.
  intros Hnd Hjk Hj Hk. apply keys_of_kind in Hj as (v & Hv & <-), Hk as (w & Hw & <-). apply Hjk.
  rewrite (unique_member ms key v w); auto.
Qed.

(** The order of the parts keeps the keys apart. *)
Lemma parts_unique (f g h : ch_json_value -> ch_json_value) ms : NoDup (map fst ms) ->
  NoDup (map fst (part Value (fun key v => [(key, f v)]) ms ++ part Subtable (fun key v => [(key, g v)]) ms ++
                  part Tables (fun key v => [(key, h v)]) ms)).
Proof.
  intros Hnd. rewrite !map_app, !part_keys. apply list.NoDup_app. split_and!; [apply keys_of_unique, Hnd| |].
  - intros key Hk Hin. apply elem_of_app in Hin as [Hin|Hin]; revert Hin; eapply keys_of_disjoint; eauto; discriminate.
  - apply list.NoDup_app. split_and!; [apply keys_of_unique, Hnd| |apply keys_of_unique, Hnd].
    intros key Hk. eapply keys_of_disjoint; eauto; discriminate.
Qed.

Lemma normal_object v : is_object v = true -> CH_JSON_OBJECT (members_of (normal v)) = normal v.
Proof. destruct v; try discriminate. reflexivity. Qed.

Lemma writable_object v : writable v -> is_object v = true.
Proof. destruct v; cbn; intros Hw; try contradiction. reflexivity. Qed.

Lemma kind_tables v : kind_of v = Tables -> exists x l, v = CH_JSON_ARRAY (x :: l) /\ is_object x = true.
Proof. destruct v as [| | | |[|x l]|]; cbn; try discriminate. destruct (is_object x) eqn:E; [eauto|discriminate]. Qed.

Lemma normal_tables l : kind_of (CH_JSON_ARRAY l) = Tables -> Forall writable l ->
  normal (CH_JSON_ARRAY l) = CH_JSON_ARRAY (map CH_JSON_OBJECT (map (fun v => members_of (normal v)) l)).
Proof.
  intros Hk Hl. cbn [normal]. rewrite bool_decide_eq_true_2 by exact Hk. f_equal. rewrite map_map. apply List.map_ext_in.
  intros v Hv. symmetry. apply normal_object, writable_object. rewrite Forall_forall in Hl. apply Hl, Hv.
Qed.

Definition reads_when_unique v : Prop := writable v -> unique_keys v -> table_reads v.

Lemma value_reads v : reads_when_unique v /\ match v with CH_JSON_ARRAY l => Forall reads_when_unique l | _ => True end.
Proof.
  induction v as [| | | |l IH|ms IH] using json_ind; try (split; [intros []|exact I]).
  { split; [intros []|]. eapply Forall_impl; [|exact IH]. intros x [Hx _]. exact Hx. }
  split; [|exact I]. intros Hw [Hnd Hu] path t0 t Hp. cbn [lines normal members_of writable] in *.
  rewrite foldr_and_Forall in Hw, Hu. rewrite list.Forall_forall in IH, Hw, Hu.
  pose proof (parts_unique (fun v => v) normal normal ms Hnd) as Hk.
  set (c1 := part Value (fun key v => [(key, v)]) ms) in *.
  set (c2 := part Subtable (fun key v => [(key, normal v)]) ms) in *.
  set (c3 := part Tables (fun key v => [(key, normal v)]) ms) in *.
  rewrite app_assoc in Hk. pose proof Hk as Hk12. rewrite map_app in Hk12. apply list.NoDup_app in Hk12 as (Hk12 & _ & _).
  pose proof Hk12 as Hk1. rewrite map_app in Hk1. apply list.NoDup_app in Hk1 as (Hk1 & _ & _).
  destruct (part_reads Value (fun key v => [Pair key v]) (fun v => v) (eq path) path t0 ms) with (current := path) (c := @nil (bytes * ch_json_value)) (t := t)
    as (cur1 & t1 & R1 & <- & P1); [|reflexivity|exact Hp|exact Hk1|].
  { intros key v _ _ current c t' <- Hp' Hc. cbn [read_lines].
    destruct (put_step path c (c ++ [(key, v)]) t0 t' (define key v) Hp') as (t1 & E1 & P1); [unfold define; rewrite Hc; reflexivity|].
    rewrite E1. exists path, t1. auto. }
  destruct (part_reads Subtable (fun key v => Table path key :: lines v (path ++ [key])) normal (fun _ => True) path t0 ms)
    with (current := path) (c := c1) (t := t1) as (cur2 & t2 & R2 & _ & P2); [|exact I|exact P1|exact Hk12|].
  { intros key v Hin Hkv current c t' _ Hp' Hc. assert (Ho : is_object v = true) by (destruct v as [| | | |[|x l]|]; try discriminate Hkv; [|reflexivity];
      cbn in Hkv; destruct (is_object x); discriminate).
    destruct (subtable_reads path t0 key v current c t') as (cur' & t'' & R & P'); auto.
    - apply (IH (key, v)); [exact Hin|specialize (Hw _ Hin); cbn [snd] in Hw; rewrite Hkv in Hw; exact Hw|apply (Hu _ Hin)].
    - exists cur', t''. rewrite <- (normal_object v Ho). auto. }
  destruct (part_reads Tables (fun key v => match v with CH_JSON_ARRAY l => concat (map (fun item => TableArray path key :: lines item (path ++ [key])) l)
      | _ => [] end) normal (fun _ => True) path t0 ms)
    with (current := cur2) (c := c1 ++ c2) (t := t2) as (cur3 & t3 & R3 & _ & P3); [|exact I|exact P2|exact Hk|].
  { intros key v Hin Hkv current c t' _ Hp' Hc. destruct (kind_tables v Hkv) as (x & l & -> & _).
    specialize (Hw _ Hin). specialize (Hu _ Hin). cbn [snd] in Hw, Hu. rewrite Hkv in Hw. cbn [unique_keys] in Hu.
    rewrite foldr_and_Forall in Hw, Hu. destruct (IH _ Hin) as [_ Hl]. cbn [snd] in Hl.
    destruct (tables_read path t0 key c (x :: l)) with (current := current) (ds := @nil (table)) (t := t') as (cur' & t'' & R & P'); auto.
    - rewrite list.Forall_forall in Hw, Hu, Hl |- *. intros y Hy. apply Hl; auto.
    - exists cur', t''. split; [exact R|]. split; [exact I|]. rewrite (normal_tables _ Hkv Hw). exact P'. }
  exists cur3, t3. rewrite read_app, R1. cbn [mbind option_bind]. rewrite read_app, R2. cbn [mbind option_bind]. rewrite R3. cbn [mbind option_bind].
  split; [reflexivity|]. rewrite <- app_assoc in P3. exact P3.
Qed.

Lemma lines_define v : writable v -> unique_keys v -> exists current, read_lines [] [] (lines v []) = Some (current, members_of (normal v)).
Proof.
  intros Hw Hu. destruct (proj1 (value_reads v) Hw Hu [] [] [] eq_refl) as (cur & t' & R & [= <-]). exists cur. exact R.
Qed.


(** *** Facts: the text of the lines *)

Definition lines_text (ls : list line) : bytes := concat (map line_text ls).

Lemma lines_text_app l1 l2 : lines_text (l1 ++ l2) = lines_text l1 ++ lines_text l2.
Proof. unfold lines_text. rewrite map_app. apply concat_app. Qed.

Lemma render_each_text {A} (render : A -> result bytes) (text : A -> bytes) l out :
  (forall x s, x ∈ l -> render x = Done s -> s = text x) -> render_each render l = Done out -> out = concat (map text l).
Proof.
  revert out. induction l as [|x l IH]; intros out Hone E; [injection E as <-; reflexivity|]. cbn [render_each] in E.
  apply bind_Done_inv in E as (s & Ht & E). apply bind_Done_inv in E as (rest & Hr & E). injection E as <-. cbn [map concat].
  rewrite (Hone x s ltac:(left) Ht), (IH rest); [reflexivity| |exact Hr]. intros y u Hy. apply Hone. right. exact Hy.
Qed.

Lemma render_each_all {A} (render : A -> result bytes) l out : render_each render l = Done out -> forall x, x ∈ l -> exists s, render x = Done s.
Proof.
  revert out. induction l as [|x l IH]; intros out E y Hy; [apply elem_of_nil in Hy as []|]. cbn [render_each] in E.
  apply bind_Done_inv in E as (s & Ht & E). apply bind_Done_inv in E as (rest & Hr & E).
  apply elem_of_cons in Hy as [->|Hy]; [eauto|exact (IH _ Hr y Hy)].
Qed.

Lemma part_text k (f : bytes -> ch_json_value -> list line) ms :
  lines_text (part k f ms) = concat (map (fun '(key, v) => if bool_decide (kind_of v = k) then lines_text (f key v) else []) ms).
Proof.
  induction ms as [|[key v] ms IH]; [reflexivity|]. rewrite part_cons, lines_text_app, IH. cbn [map concat].
  case_bool_decide; reflexivity.
Qed.

Lemma key_done key s : mutation_append_toml_key key = Done s -> s = key_text key /\ key <> [].
Proof.
  unfold mutation_append_toml_key. destruct (beq key []) eqn:E; [discriminate|]. apply beq_false in E.
  intros Ht. injection Ht as <-. split; [reflexivity|exact E].
Qed.

Lemma path_rest_done path s : path_rest path = Done s -> s = concat (map (fun k => [46] ++ key_text k) path).
Proof.
  revert s. induction path as [|k path IH]; intros s E; cbn [path_rest] in E; [injection E as <-; reflexivity|].
  apply bind_Done_inv in E as (a & Ha & E). apply bind_Done_inv in E as (b & Hb & E). injection E as <-.
  apply key_done in Ha as [-> _]. rewrite (IH b Hb). reflexivity.
Qed.

Lemma path_done path key s : mutation_append_path (path ++ [key]) = Done s -> s = path_text path key.
Proof.
  assert (Hp : forall p, concat (map (fun k => [46] ++ key_text k) (p ++ [key])) = [46] ++ path_text p key).
  { induction p as [|k p IH]; [cbn; rewrite app_nil_r; reflexivity|]. unfold path_text in IH |- *. rewrite <- app_comm_cons. cbn [map concat].
    rewrite IH. cbn [app]. rewrite <- !app_assoc. reflexivity. }
  destruct path as [|k path]; cbn [app mutation_append_path]; intros E; apply bind_Done_inv in E as (a & Ha & E);
    apply bind_Done_inv in E as (b & Hb & E); injection E as <-; apply key_done in Ha as [-> _]; apply path_rest_done in Hb as ->.
  - cbn. apply app_nil_r.
  - rewrite Hp. unfold path_text. cbn [map concat]. rewrite <- !app_assoc. reflexivity.
Qed.

Lemma header_done before after path key body (ls : list line) s (header : line) :
  line_text header = [10] ++ before ++ path_text path key ++ after ++ [10] ->
  (forall text, body = Done text -> text = lines_text ls) ->
  render_header before after (path ++ [key]) body = Done s -> s = lines_text (header :: ls).
Proof.
  intros Hh Hb E. apply bind_Done_inv in E as (h & Eh & E). apply bind_Done_inv in E as (text & Et & E). injection E as <-.
  apply path_done in Eh as ->. apply Hb in Et as ->. change (lines_text (header :: ls)) with (line_text header ++ lines_text ls).
  rewrite Hh, <- !app_assoc. reflexivity.
Qed.

Lemma object_array_done v b : mutation_is_object_array v = Done b -> b = bool_decide (kind_of v = Tables) /\
  (b = true -> match v with CH_JSON_ARRAY l => Forall (fun x => is_object x = true) l | _ => True end).
Proof.
  destruct v as [| | | |[|x l]|]; cbn [mutation_is_object_array]; try (intros E; injection E as <-; split; [reflexivity|discriminate]).
  destruct (forallb _ l) eqn:Ef; [|discriminate]. intros E. injection E as <-. cbn [kind_of].
  rewrite forallb_forall in Ef. split; [destruct (is_object x); reflexivity|]. intros Hx. constructor; [exact Hx|].
  apply Forall_forall. intros y Hy. specialize (Ef y Hy). rewrite Hx in Ef. destruct (is_object y); [reflexivity|discriminate].
Qed.

Lemma render_value_done key v s : render_value (key, v) = Done s ->
  s = (if bool_decide (kind_of v = Value) then lines_text [Pair key v] else []).
Proof.
  assert (Hv : forall b, match kind_of v with Dropped | Subtable => false | _ => true end = true ->
      mutation_is_object_array v = Done b -> (if b then Done [] else key ← mutation_append_toml_key key; text ← mutation_append_toml_value v;
        Done (key ++ str " = " ++ text ++ [10])) = Done s -> s = (if bool_decide (kind_of v = Value) then lines_text [Pair key v] else [])).
  { intros b Hk Hb E. apply object_array_done in Hb as [-> _]. destruct (kind_of v) eqn:Ek; try discriminate Hk; cbn in E.
    - apply bind_Done_inv in E as (a & Ha & E). apply bind_Done_inv in E as (text & Et & E). injection E as <-.
      apply key_done in Ha as [-> _]. unfold lines_text. cbn [map concat line_text bool_decide]. unfold value_text. rewrite Et, app_nil_r. reflexivity.
    - injection E as <-. reflexivity. }
  unfold render_value. cbn [snd fst]. intros E.
  destruct v as [| | | |l|]; cbn [kind_of]; try (injection E as <-; reflexivity); try (exact (Hv false eq_refl eq_refl E)).
  apply bind_Done_inv in E as (b & Hb & E). refine (Hv b _ Hb E). destruct l as [|x l]; [reflexivity|]. cbn. destruct (is_object x); reflexivity.
Qed.


Lemma lines_text_concat {A} (f : A -> list line) l : lines_text (concat (map f l)) = concat (map (fun x => lines_text (f x)) l).
Proof. induction l as [|x l IH]; [reflexivity|]. cbn [map concat]. rewrite lines_text_app, IH. reflexivity. Qed.

Definition renders v : Prop := forall path s, mutation_render_table v path = Done s -> writable v /\ s = lines_text (lines v path).

Lemma tables_rendered key v path s :
  (objects ← mutation_is_object_array v;
   match v with
   | CH_JSON_ARRAY l =>
       if (objects : bool) then
         render_each (fun item => render_header [91; 91] [93; 93] (path ++ [key]) (mutation_render_table item (path ++ [key]))) l
       else Done []
   | _ => Done []
   end) = Done s ->
  match v with CH_JSON_ARRAY l => Forall renders l | _ => True end ->
  (kind_of v = Tables -> match v with CH_JSON_ARRAY l => Forall writable l | _ => True end) /\
  s = (if bool_decide (kind_of v = Tables) then lines_text (match v with
        | CH_JSON_ARRAY l => concat (map (fun item => TableArray path key :: lines item (path ++ [key])) l) | _ => [] end) else []).
Proof.
  intros E Hr. apply bind_Done_inv in E as (b & Hb & E). apply object_array_done in Hb as [-> Ho].
  case_bool_decide as Hk; [|split; [contradiction|destruct v; injection E as <-; reflexivity]].
  destruct (kind_tables v Hk) as (x & l & -> & _). rewrite list.Forall_forall in Hr. split.
  - intros _. apply list.Forall_forall. intros y Hy. destruct (render_each_all _ _ _ E y Hy) as [h Hh].
    apply bind_Done_inv in Hh as (a & _ & Hh). apply bind_Done_inv in Hh as (text & Et & _). exact (proj1 (Hr y Hy _ _ Et)).
  - rewrite (render_each_text _ (fun item => lines_text (TableArray path key :: lines item (path ++ [key]))) (x :: l) s) with (2 := E).
    + symmetry. apply lines_text_concat.
    + intros y h Hy. apply header_done; [reflexivity|]. intros text Et. apply (Hr y Hy _ _ Et).
Qed.

Lemma table_rendered key v path s :
  match v with
  | CH_JSON_OBJECT _ => render_header [91] [93] (path ++ [key]) (mutation_render_table v (path ++ [key]))
  | _ => Done []
  end = Done s ->
  renders v ->
  (kind_of v = Subtable -> writable v) /\
  s = (if bool_decide (kind_of v = Subtable) then lines_text (Table path key :: lines v (path ++ [key])) else []).
Proof.
  intros E Hr. destruct v as [| | | |l|ms]; try (injection E as <-; split; [discriminate|reflexivity]).
  - injection E as <-. destruct l as [|x l]; [split; [discriminate|reflexivity]|]. cbn. destruct (is_object x); (split; [discriminate|reflexivity]).
  - split.
    + intros _. apply bind_Done_inv in E as (a & _ & E). apply bind_Done_inv in E as (text & Et & _). exact (proj1 (Hr _ _ Et)).
    + cbn [kind_of]. rewrite bool_decide_eq_true_2 by reflexivity. revert E.
      apply header_done; [reflexivity|]. intros text Et. apply (Hr _ _ Et).
Qed.

Lemma table_renders v : renders v /\ match v with CH_JSON_ARRAY l => Forall renders l | _ => True end.
Proof.
  induction v as [| | | |l IH|ms IH] using json_ind; try (split; [intros ? ? E; discriminate E|exact I]).
  { split; [intros path s E; discriminate E|]. eapply Forall_impl; [|exact IH]. intros x [Hx _]. exact Hx. }
  split; [|exact I]. intros path s E. cbn [mutation_render_table] in E. destruct (64 <? lenZ path); [discriminate|].
  apply bind_Done_inv in E as (s1 & E1 & E). apply bind_Done_inv in E as (s2 & E2 & E). apply bind_Done_inv in E as (s3 & E3 & E).
  injection E as <-. rewrite list.Forall_forall in IH. split.
  - cbn [writable]. rewrite foldr_and_Forall. apply list.Forall_forall. intros [key v] Hin. destruct (IH _ Hin) as [Hr Hl]. cbn [snd] in *.
    destruct (render_each_all _ _ _ E2 _ Hin) as [a Ha], (render_each_all _ _ _ E3 _ Hin) as [b Hb].
    apply table_rendered in Ha as [Ha _]; [|exact Hr]. apply tables_rendered in Hb as [Hb _]; [|exact Hl].
    destruct (kind_of v) eqn:Ek; try exact I; [exact (Ha eq_refl)|]. destruct v; try exact I. rewrite foldr_and_Forall. exact (Hb eq_refl).
  - cbn [lines]. rewrite !lines_text_app, !part_text. f_equal; [|f_equal].
    + revert E1. apply render_each_text. intros [key v] h _. apply render_value_done.
    + revert E2. apply render_each_text. intros [key v] h Hin Hh. apply (table_rendered key v path h Hh). apply (IH _ Hin).
    + revert E3. apply render_each_text. intros [key v] h Hin Hh. apply (tables_rendered key v path h Hh). apply (IH _ Hin).
Qed.

(** What a key reads after the text was read: what it read before. *)
Lemma get_member ms key v : NoDup (map fst ms) -> (key, v) ∈ ms <-> member_get ms key = Some v.
Proof.
  intros Hnd. induction ms as [|[k w] ms IH]; cbn [member_get map fst] in *; [split; [intros Hv; apply elem_of_nil in Hv as []|discriminate]|].
  pose proof Hnd as Hc. apply list.NoDup_cons in Hnd as [Hk Hnd]. destruct (beq k key) eqn:E.
  - apply beq_true in E. subst k. split; [|intros E; injection E as <-; left].
    intros Hv. rewrite (unique_member ((key, w) :: ms) key v w); [reflexivity|exact Hc|exact Hv|left].
  - apply beq_false in E. rewrite <- (IH Hnd), elem_of_cons. split; [intros [Hv|Hv]; [congruence|exact Hv]|auto].
Qed.

Lemma part_member k (g : ch_json_value -> ch_json_value) ms key w :
  (key, w) ∈ part k (fun key v => [(key, g v)]) ms <-> exists v, (key, v) ∈ ms /\ kind_of v = k /\ w = g v.
Proof.
  induction ms as [|[x u] ms IH]; [split; [intros Hw; apply elem_of_nil in Hw as []|intros (v & Hv & _); apply elem_of_nil in Hv as []]|].
  rewrite part_cons, elem_of_app, IH. split.
  - intros [Hw|(v & Hv & E)]; [|exists v; split; [right; exact Hv|exact E]].
    case_bool_decide as Hk; [|apply elem_of_nil in Hw as []]. apply list_elem_of_singleton in Hw as [= -> ->]. exists u. split; [left|auto].
  - intros (v & Hv & Hk & ->). apply elem_of_cons in Hv as [[= -> ->]|Hv]; [left|right; eauto].
    rewrite bool_decide_eq_true_2 by exact Hk. left.
Qed.

Lemma value_normal v : kind_of v = Value -> normal v = v.
Proof. destruct v as [| | | |l|]; try reflexivity; [|discriminate]. intros Hk. cbn [normal]. rewrite Hk. reflexivity. Qed.

Lemma normal_get ms key : NoDup (map fst ms) ->
  member_get (members_of (normal (CH_JSON_OBJECT ms))) key =
  match member_get ms key with
  | Some v => if bool_decide (kind_of v = Dropped) then None else Some (normal v)
  | None => None
  end.
Proof.
  intros Hnd. pose proof (parts_unique (fun v => v) normal normal ms Hnd) as Hu. cbn [normal members_of].
  set (ns := part Value _ ms ++ _) in *.
  assert (Hm : forall w, (key, w) ∈ ns <-> exists v, (key, v) ∈ ms /\ kind_of v <> Dropped /\ w = normal v).
  { intros w. subst ns. rewrite !elem_of_app, (part_member Value (fun v => v)), !part_member. split.
    - intros [(v & Hv & Hk & ->)|[(v & Hv & Hk & ->)|(v & Hv & Hk & ->)]]; exists v; (split; [exact Hv|split; [congruence|]]);
        [symmetry; apply value_normal, Hk|reflexivity|reflexivity].
    - intros (v & Hv & Hk & ->). destruct (kind_of v) eqn:E; [congruence|left|right; left|right; right]; exists v; auto.
      rewrite (value_normal v E). auto. }
  destruct (member_get ns key) as [w|] eqn:En.
  - apply (get_member _ _ _ Hu), Hm in En as (v & Hv & Hk & ->). apply (get_member _ _ _ Hnd) in Hv. rewrite Hv.
    rewrite bool_decide_eq_false_2 by exact Hk. reflexivity.
  - destruct (member_get ms key) as [v|] eqn:Em; [|reflexivity]. case_bool_decide as Hk; [reflexivity|]. exfalso.
    apply (get_member _ _ _ Hnd) in Em. assert (Hw : (key, normal v) ∈ ns) by (apply Hm; eauto).
    apply (get_member _ _ _ Hu) in Hw. congruence.
Qed.

End Facts.

(** ** Keys, strings and whole numbers read back

    A basic string and a key as the TOML specification reads them: the string
    behind the opening quote, up to the closing one, and a bare key up to the
    first other character. *)

Section Texts.
Context `{DoubleCompare, !DoubleWhole}.

Definition basic_escape (e : Z) : option Z := if e =? 47 then None else simple_escape e.

Fixpoint basic_string (s : bytes) : option (bytes * bytes) :=
  match s with
  | [] => None
  | c :: s' =>
      if c =? 34 then Some ([], s')
      else if c =? 92 then
        match s' with
        | [] => None
        | e :: s'' =>
            if e =? 117 then
              match s'' with
              | a :: b :: x :: y :: rest =>
                  code ← ch_json_code_unit a b x y;
                  '(text, rest) ← basic_string rest; Some (ch_json_append_codepoint code ++ text, rest)
              | _ => None
              end
            else
              c ← basic_escape e; '(text, rest) ← basic_string s''; Some (c :: text, rest)
        end
      else if ((c <? 32) && negb (c =? 9)) || (c =? 127) then None
      else '(text, rest) ← basic_string s'; Some (c :: text, rest)
  end.

Fixpoint bare_key (s : bytes) : bytes * bytes :=
  match s with
  | c :: s' => if bare_char c then let '(key, rest) := bare_key s' in (c :: key, rest) else ([], s)
  | [] => ([], [])
  end.

Definition toml_key (s : bytes) : option (bytes * bytes) :=
  match s with
  | c :: s' => if c =? 34 then basic_string s' else let '(key, rest) := bare_key s in if beq key [] then None else Some (key, rest)
  | [] => None
  end.

Lemma escape_reads c s : cchar_ok c ->
  basic_string (ConfigText.toml_escape c ++ s) = '(text, rest) ← basic_string s; Some (c :: text, rest).
Proof.
  intros Hc. destruct (decide (c ∈ [34; 92; 127] ++ seqZ 1 31)) as [Hin|Hout].
  - revert Hin. cbn. intros Hin. repeat (apply elem_of_cons in Hin as [->|Hin]; [reflexivity|]). apply elem_of_nil in Hin as [].
  - assert (Hr : 32 <= c /\ c <> 34 /\ c <> 92 /\ c <> 127).
    { rewrite elem_of_app, !elem_of_cons, elem_of_seqZ in Hout. unfold cchar_ok in Hc. destruct (Z_lt_dec c 32); [exfalso; apply Hout; right; lia|].
      split_and!; [lia|intros ->; apply Hout; auto..]. }
    unfold ConfigText.toml_escape. rewrite !(proj2 (Z.eqb_neq _ _)) by lia. rewrite (proj2 (Z.ltb_ge _ _)) by lia. cbn [orb app basic_string].
    rewrite !(proj2 (Z.eqb_neq _ _)) by lia. rewrite (proj2 (Z.ltb_ge _ _)) by lia. reflexivity.
Qed.

Lemma string_reads s rest : cstr_ok s -> basic_string (concat (map ConfigText.toml_escape s) ++ [34] ++ rest) = Some (s, rest).
Proof.
  intros Hs. induction Hs as [|c s Hc Hs IH]; [reflexivity|]. cbn [map concat]. rewrite <- app_assoc, escape_reads by exact Hc.
  rewrite IH. reflexivity.
Qed.

Lemma bare_key_reads key rest : forallb bare_char key = true -> match rest with c :: _ => bare_char c = false | [] => True end ->
  bare_key (key ++ rest) = (key, rest).
Proof.
  intros Hk Hr. induction key as [|c key IH]; cbn [app bare_key].
  - destruct rest as [|c rest]; [reflexivity|]. cbn [bare_key]. rewrite Hr. reflexivity.
  - cbn in Hk. apply andb_prop in Hk as [Hc Hk]. rewrite Hc, (IH Hk). reflexivity.
Qed.

Lemma number_reads n : - whole_limit <= n <= whole_limit -> toml_number (double_of_int64 n) = dec n.
Proof.
  unfold whole_limit. intros Hn. unfold toml_number, whole_limit. rewrite double_whole_int, !double_ltb_int by (unfold INT64_MIN, INT64_MAX in *; lia).
  rewrite !(proj2 (Z.ltb_ge _ _)) by lia. apply format_0f_int. lia.
Qed.

(** A key that is written reads as itself when the next character cannot
    belong to it. *)
Lemma key_reads key rest : key <> [] -> cstr_ok key -> match rest with c :: _ => bare_char c = false | [] => True end ->
  toml_key (key_text key ++ rest) = Some (key, rest).
Proof.
  intros Hne Hk Hr. unfold key_text. destruct (forallb bare_char key) eqn:E.
  - destruct key as [|c key]; [contradiction|]. rewrite <- app_comm_cons. cbn [toml_key]. destruct (c =? 34) eqn:Ec.
    { apply Z.eqb_eq in Ec. subst c. discriminate E. }
    rewrite app_comm_cons, (bare_key_reads _ _ E Hr). reflexivity.
  - unfold mutation_append_toml_string. rewrite <- !app_assoc. apply string_reads, Hk.
Qed.

(** ** Reading the text

    A reader of the documents that are written, after the TOML specification:
    blank lines, headers of tables and of arrays of tables with their paths, and
    a key and its value on a line.  The fuel is the length of the text. *)

Fixpoint literal (word s : bytes) : option bytes :=
  match word, s with
  | [], _ => Some s
  | c :: word', d :: s' => if c =? d then literal word' s' else None
  | _, [] => None
  end.

Definition toml_integer (s : bytes) : option (Z * bytes) :=
  match s with
  | c :: s' =>
      if c =? 45 then if starts_digit s' then let '(n, rest) := scan_digits 0 s' in Some (- n, rest) else None
      else if isdigit c then Some (scan_digits 0 s) else None
  | [] => None
  end.

(** The elements of an array and its closing bracket. *)
Definition toml_items (value : bytes -> option (ch_json_value * bytes)) : nat -> bool -> bytes -> option (list ch_json_value * bytes) :=
  fix items fuel first s :=
    match literal [93] s, fuel with
    | Some rest, _ => Some ([], rest)
    | None, O => None
    | None, S fuel =>
        s ← (if first : bool then Some s else literal [44; 32] s);
        '(v, s) ← value s;
        '(l, s) ← items fuel false s;
        Some (v :: l, s)
    end.

Fixpoint toml_value (fuel : nat) (s : bytes) : option (ch_json_value * bytes) :=
  match fuel, s with
  | S fuel, c :: s' =>
      if c =? 34 then '(text, rest) ← basic_string s'; Some (CH_JSON_STRING text, rest)
      else if c =? 91 then '(l, rest) ← toml_items (toml_value fuel) fuel true s'; Some (CH_JSON_ARRAY l, rest)
      else
        match literal (str "true") s, literal (str "false") s with
        | Some rest, _ => Some (CH_JSON_BOOL true, rest)
        | _, Some rest => Some (CH_JSON_BOOL false, rest)
        | _, _ => '(n, rest) ← toml_integer s; Some (ch_json_value_new_int64 n, rest)
        end
  | _, _ => None
  end.

(** The keys of a header but the last, and the last. *)
Fixpoint toml_path (fuel : nat) (s : bytes) : option (list bytes * bytes * bytes) :=
  match fuel with
  | O => None
  | S fuel =>
      '(key, s) ← toml_key s;
      match literal [46] s with
      | Some s => '(path, last, s) ← toml_path fuel s; Some (key :: path, last, s)
      | None => Some ([], key, s)
      end
  end.

Definition toml_header (s : bytes) : option (line * bytes) :=
  match literal [91] s with
  | Some s => '(path, key, s) ← toml_path (length s) s; s ← literal [93; 93; 10] s; Some (TableArray path key, s)
  | None => '(path, key, s) ← toml_path (length s) s; s ← literal [93; 10] s; Some (Table path key, s)
  end.

Definition toml_pair (s : bytes) : option (line * bytes) :=
  '(key, s) ← toml_key s;
  s ← literal (str " = ") s;
  '(v, s) ← toml_value (length s) s;
  s ← literal [10] s;
  Some (Pair key v, s).

Fixpoint toml_lines (fuel : nat) (s : bytes) : option (list line) :=
  match fuel, s with
  | _, [] => Some []
  | O, _ => None
  | S fuel, _ =>
      match literal [10] s with
      | Some s => toml_lines fuel s
      | None =>
          '(l, s) ← match literal [91] s with Some s => toml_header s | None => toml_pair s end;
          ls ← toml_lines fuel s;
          Some (l :: ls)
      end
  end.

(** The document that a text defines. *)
Definition toml_document (text : bytes) : option table :=
  ls ← toml_lines (length text) text;
  '(_, t) ← read_lines [] [] ls;
  Some t.

(** The documents whose text is read back: no text holds a NUL, and the
    numbers are the whole numbers of at most [9.0e15]. *)
Fixpoint plain (v : ch_json_value) : Prop :=
  match v with
  | CH_JSON_NUMBER n => exists k, - whole_limit <= k <= whole_limit /\ CH_JSON_NUMBER n = ch_json_value_new_int64 k
  | CH_JSON_STRING s => cstr_ok s
  | CH_JSON_ARRAY l => foldr and True (map plain l)
  | CH_JSON_OBJECT ms => foldr and True (map (fun m => cstr_ok (fst m) /\ plain (snd m)) ms)
  | _ => True
  end.

Lemma literal_app word s : literal word (word ++ s) = Some s.
Proof. induction word as [|c word IH]; [reflexivity|]. cbn [app literal]. rewrite Z.eqb_refl. exact IH. Qed.

Lemma literal_other c word d s : d <> c -> literal (c :: word) (d :: s) = None.
Proof. intros E. cbn [literal]. rewrite (proj2 (Z.eqb_neq _ _)) by congruence. reflexivity. Qed.

Lemma integer_reads n s : starts_digit s = false -> toml_integer (dec n ++ s) = Some (n, s).
Proof.
  intros Hs. unfold dec. destruct (n <? 0) eqn:Hn.
  - destruct (dec_nonneg_spec (- n) ltac:(lia)) as (Hok & Hscan & c & d & E & _). specialize (Hscan s). rewrite (scan_digits_stop _ s Hs) in Hscan.
    cbn [app toml_integer Z.eqb Pos.eqb]. rewrite E in *. inversion_clear Hok as [|? ? Hc _]. cbn [app starts_digit] in *. rewrite Hc, Hscan. do 2 f_equal. lia.
  - destruct (dec_nonneg_spec n ltac:(lia)) as (Hok & Hscan & c & d & E & _). specialize (Hscan s). rewrite (scan_digits_stop _ s Hs) in Hscan.
    rewrite E in *. inversion_clear Hok as [|? ? Hc _]. cbn [app toml_integer] in *. rewrite Hc, Hscan. unfold isdigit in Hc.
    rewrite (proj2 (Z.eqb_neq _ _)) by lia. reflexivity.
Qed.

(** A number starts with its sign or a digit. *)
Lemma dec_starts n : exists c d, dec n = c :: d /\ (c = 45 \/ isdigit c = true).
Proof.
  unfold dec. destruct (n <? 0) eqn:Hn; [eexists _, _; split; [reflexivity|left; reflexivity]|].
  destruct (dec_nonneg_spec n ltac:(lia)) as (Hok & _ & c & d & E & _). rewrite E in Hok. inversion_clear Hok. exists c, d. auto.
Qed.

(** The texts of the elements of an array, from the first or from a later one. *)
Fixpoint items_text (first : bool) (l : list ch_json_value) : bytes :=
  match l with [] => [] | v :: l' => (if first then [] else [44; 32]) ++ value_text v ++ items_text false l' end.

Definition has_text (v : ch_json_value) : Prop := mutation_append_toml_value v = Done (value_text v).

Lemma array_text l text : mutation_append_toml_value (CH_JSON_ARRAY l) = Done text ->
  text = [91] ++ items_text true l ++ [93] /\ Forall has_text l.
Proof.
  cbn [mutation_append_toml_value]. generalize true. intros first E. apply bind_Done_inv in E as (inner & E & Et). injection Et as <-.
  assert (Hi : inner = items_text first l /\ Forall has_text l); [|destruct Hi as [-> ?]; auto].
  revert first inner E. induction l as [|v l IH]; intros first inner E; [injection E as <-; auto|].
  apply bind_Done_inv in E as (t & Et & E). apply bind_Done_inv in E as (rest & Er & E). injection E as <-. apply IH in Er as [-> Hl].
  assert (Hv : mutation_append_toml_value v = Done t).
  { destruct v; try discriminate Et; destruct (mutation_append_toml_value _); try discriminate Et; exact Et. }
  assert (Ht : value_text v = t) by (unfold value_text; rewrite Hv; reflexivity).
  cbn [items_text]. unfold has_text. rewrite Ht. split; [reflexivity|]. constructor; [rewrite Ht; exact Hv|exact Hl].
Qed.

(** What the text of a value starts with: neither a closing bracket nor a
    comma. *)
Lemma value_starts v : plain v -> has_text v -> exists c t, value_text v = c :: t /\ c <> 93.
Proof.
  unfold has_text. intros Hp Ht. destruct v as [|b|n|s|l|ms]; try discriminate Ht.
  - destruct b; (eexists _, _; split; [reflexivity|discriminate]).
  - destruct Hp as (k & Hk & E). injection E as ->. unfold value_text. cbn [mutation_append_toml_value number_value].
    rewrite (number_reads k Hk). destruct (dec_starts k) as (c & d & -> & Hc). exists c, d. split; [reflexivity|].
    unfold isdigit in Hc. lia.
  - eexists _, _. split; [reflexivity|discriminate].
  - apply array_text in Ht as [-> _]. eexists _, _. split; [reflexivity|discriminate].
Qed.

Lemma items_read (value : bytes -> option (ch_json_value * bytes)) l rest :
  Forall (fun v => (exists c t, value_text v = c :: t /\ c <> 93) /\
                   forall s, starts_digit s = false -> value (value_text v ++ s) = Some (v, s)) l ->
  forall fuel first, (length l <= fuel)%nat ->
  toml_items value fuel first (items_text first l ++ [93] ++ rest) = Some (l, rest).
Proof.
  intros Hl. induction Hl as [|v l [(c & t & Ec & Hc) Hv] Hl IH]; intros fuel first Hf.
  { destruct fuel; reflexivity. }
  destruct fuel as [|fuel]; [cbn in Hf; lia|]. cbn [items_text]. rewrite <- !app_assoc.
  assert (Hopen : literal [93] ((if first then [] else [44; 32]) ++ value_text v ++ items_text false l ++ [93] ++ rest) = None).
  { destruct first; [|reflexivity]. rewrite Ec. apply literal_other. congruence. }
  assert (Hsep : (if first then Some ((if first then [] else [44; 32]) ++ value_text v ++ items_text false l ++ [93] ++ rest)
                  else literal [44; 32] ((if first then [] else [44; 32]) ++ value_text v ++ items_text false l ++ [93] ++ rest)) =
                 Some (value_text v ++ items_text false l ++ [93] ++ rest)).
  { destruct first; [reflexivity|]. apply literal_app. }
  cbn [toml_items]. rewrite Hopen, Hsep. cbn [mbind option_bind]. rewrite Hv by (destruct l; reflexivity). cbn [mbind option_bind].
  fold (toml_items value). rewrite IH by (cbn in Hf; lia). reflexivity.
Qed.

Lemma items_length first l v : v ∈ l -> (length (value_text v) <= length (items_text first l))%nat.
Proof.
  revert first. induction l as [|w l IH]; intros first Hv; [apply elem_of_nil in Hv as []|]. cbn [items_text]. rewrite !length_app.
  apply elem_of_cons in Hv as [->|Hv]; [lia|]. specialize (IH false Hv). lia.
Qed.

Lemma items_count first l : Forall (fun v => exists c t, value_text v = c :: t /\ c <> 93) l -> (length l <= length (items_text first l))%nat.
Proof.
  intros Hl. revert first. induction Hl as [|v l (c & t & E & _) Hl IH]; intros first; [cbn; lia|]. cbn [items_text]. rewrite !length_app, E.
  specialize (IH false). cbn [length]. lia.
Qed.

(** A value that is written reads as itself. *)
Lemma value_text_reads v : plain v -> has_text v -> forall fuel rest,
  (length (value_text v) <= fuel)%nat -> starts_digit rest = false -> toml_value fuel (value_text v ++ rest) = Some (v, rest).
Proof.
  induction v as [|b|n|s|l IH|ms IH] using json_ind; intros Hp Ht fuel rest Hf Hr; try discriminate Ht.
  - destruct fuel; [destruct b; cbn in Hf; lia|]. destruct b; reflexivity.
  - destruct Hp as (k & Hk & E). injection E as ->. change (CH_JSON_NUMBER (mk_number (double_of_int64 k) k true)) with (ch_json_value_new_int64 k) in *.
    assert (Ev : value_text (ch_json_value_new_int64 k) = dec k) by (unfold value_text; cbn; rewrite (number_reads k Hk); reflexivity).
    rewrite Ev in *. pose proof (integer_reads k rest Hr) as Hi. destruct (dec_starts k) as (c & d & Ec & Hc). rewrite Ec in *.
    destruct fuel as [|fuel]; [cbn in Hf; lia|]. cbn [app toml_value] in *. assert (c = 45 \/ 48 <= c <= 57) by (unfold isdigit in Hc; lia).
    assert (H1' : literal (str "true") (c :: d ++ rest) = None) by (apply (literal_other 116 (str "rue")); lia).
    assert (H2' : literal (str "false") (c :: d ++ rest) = None) by (apply (literal_other 102 (str "alse")); lia).
    rewrite !(proj2 (Z.eqb_neq _ _)) by lia. rewrite H1', H2', Hi. reflexivity.
  - unfold value_text in *. cbn [mutation_append_toml_value] in *. unfold mutation_append_toml_string in *.
    destruct fuel as [|fuel]; [cbn in Hf; lia|]. rewrite <- !app_assoc. cbn [app toml_value Z.eqb Pos.eqb].
    pose proof (string_reads s rest Hp) as Hs. cbn [app] in Hs. rewrite Hs. reflexivity.
  - apply array_text in Ht as [Et Hl]. cbn [plain] in Hp. rewrite foldr_and_Forall in Hp. rewrite Et in *.
    destruct fuel as [|fuel]; [cbn in Hf; lia|]. cbn [length app] in Hf. rewrite !length_app in Hf. cbn [length] in Hf.
    rewrite <- !app_assoc. cbn [app toml_value Z.eqb Pos.eqb]. rewrite list.Forall_forall in IH, Hp, Hl.
    assert (Hs : Forall (fun v => exists c t, value_text v = c :: t /\ c <> 93) l).
    { apply list.Forall_forall. intros v Hv. apply value_starts; auto. }
    pose proof (items_read (toml_value fuel) l rest) as Hi. cbn [app] in Hi. rewrite Hi; [reflexivity| |pose proof (items_count true l Hs); lia].
    rewrite list.Forall_forall in Hs |- *. intros v Hv. split; [apply Hs, Hv|]. intros s Hd. apply IH; auto.
    pose proof (items_length true l v Hv). lia.
Qed.

(** *** The lines read back *)

Definition written (l : line) : Prop :=
  match l with
  | Pair key v => key <> [] /\ has_text v
  | Table path key | TableArray path key => Forall (fun k => k <> []) (path ++ [key])
  end.

Definition line_plain (l : line) : Prop :=
  match l with
  | Pair key v => cstr_ok key /\ plain v
  | Table path key | TableArray path key => Forall cstr_ok (path ++ [key])
  end.

Lemma key_starts key : key <> [] -> exists c t, key_text key = c :: t /\ c <> 10 /\ c <> 91.
Proof.
  intros Hk. unfold key_text. destruct (forallb bare_char key) eqn:E; [|eexists _, _; split; [reflexivity|split; discriminate]].
  destruct key as [|c key]; [contradiction|]. exists c, key. cbn in E. apply andb_prop in E as [E _]. split; [reflexivity|].
  split; intros ->; discriminate.
Qed.

Lemma path_text_cons k path key : path_text (k :: path) key = key_text k ++ [46] ++ path_text path key.
Proof. unfold path_text. cbn [map concat]. rewrite <- !app_assoc. reflexivity. Qed.

Lemma path_reads path key rest :
  Forall (fun k => k <> []) (path ++ [key]) -> Forall cstr_ok (path ++ [key]) -> forall fuel, (length path < fuel)%nat ->
  toml_path fuel (path_text path key ++ 93 :: rest) = Some (path, key, 93 :: rest).
Proof.
  induction path as [|k path IH]; intros Hn Hc fuel Hf; (destruct fuel as [|fuel]; [lia|]); cbn [toml_path].
  - inversion_clear Hn. inversion_clear Hc. change (path_text [] key) with (key_text key). rewrite key_reads by (assumption || reflexivity). reflexivity.
  - rewrite <- app_comm_cons in Hn, Hc. inversion_clear Hn. inversion_clear Hc.
    rewrite path_text_cons, <- !app_assoc. rewrite key_reads by (assumption || reflexivity). cbn [mbind option_bind].
    rewrite (literal_app [46]). rewrite IH; [reflexivity|assumption|assumption|cbn in Hf; lia].
Qed.

Lemma path_length path key : (length path <= length (path_text path key))%nat.
Proof. induction path as [|k path IH]; [cbn; lia|]. rewrite path_text_cons, !length_app. cbn [length]. lia. Qed.

Lemma path_starts path key : Forall (fun k => k <> []) (path ++ [key]) -> exists c t, path_text path key = c :: t /\ c <> 91.
Proof.
  intros Hn. destruct path as [|k path]; rewrite ?app_nil_l, <- ?app_comm_cons in Hn; inversion_clear Hn as [|? ? Hk _];
    destruct (key_starts _ Hk) as (c & t & E & _ & Hc).
  - exists c, t. auto.
  - rewrite path_text_cons, E. exists c, (t ++ [46] ++ path_text path key). auto.
Qed.

Lemma header_reads path key rest :
  Forall (fun k => k <> []) (path ++ [key]) -> Forall cstr_ok (path ++ [key]) ->
  toml_header (path_text path key ++ [93; 10] ++ rest) = Some (Table path key, rest) /\
  toml_header (91 :: path_text path key ++ [93; 93; 10] ++ rest) = Some (TableArray path key, rest).
Proof.
  intros Hn Hc. pose proof (path_length path key) as Hl. unfold toml_header. split.
  - assert (Ho : literal [91] (path_text path key ++ [93; 10] ++ rest) = None).
    { destruct (path_starts path key Hn) as (c & t & -> & Hc'). apply literal_other, Hc'. }
    rewrite Ho. cbn [app]. rewrite path_reads; [|assumption|assumption|rewrite length_app; cbn [length]; lia].
    cbn [mbind option_bind]. reflexivity.
  - change (literal [91] (91 :: path_text path key ++ [93; 93; 10] ++ rest)) with (Some (path_text path key ++ [93; 93; 10] ++ rest)).
    cbn [app]. rewrite path_reads; [|assumption|assumption|rewrite length_app; cbn [length]; lia].
    cbn [mbind option_bind]. reflexivity.
Qed.

Lemma pair_reads key v rest :
  key <> [] -> has_text v -> cstr_ok key -> plain v ->
  toml_pair (key_text key ++ str " = " ++ value_text v ++ [10] ++ rest) = Some (Pair key v, rest).
Proof.
  intros Hk Ht Hc Hp. unfold toml_pair. rewrite key_reads by (assumption || reflexivity). cbn [mbind option_bind]. rewrite literal_app.
  cbn [mbind option_bind]. rewrite value_text_reads; [|assumption|assumption|rewrite length_app; lia|reflexivity]. reflexivity.
Qed.

Lemma line_reads l rest : written l -> line_plain l -> forall fuel, (length (line_text l ++ rest) <= fuel)%nat ->
  exists fuel', (length rest <= fuel')%nat /\ toml_lines fuel (line_text l ++ rest) = (ls ← toml_lines fuel' rest; Some (l :: ls)).
Proof.
  intros Hw Hp fuel Hf. destruct l as [key v|path key|path key]; cbn [line_text written line_plain] in *; rewrite <- !app_assoc in *.
  - destruct Hw as [Hk Ht], Hp as [Hc Hp]. pose proof (pair_reads key v rest Hk Ht Hc Hp) as Hr.
    destruct (key_starts key Hk) as (c & t & E & H10 & H91). rewrite E in *. destruct fuel as [|fuel]; [cbn in Hf; lia|]. exists fuel.
    split; [cbn [length app] in Hf; rewrite !length_app in Hf; cbn [length] in Hf; lia|]. cbn [app toml_lines] in *.
    rewrite (literal_other 10), (literal_other 91), Hr by congruence. reflexivity.
  - pose proof (proj1 (header_reads path key rest Hw Hp)) as Hr. cbn [app] in *.
    destruct fuel as [|[|fuel]]; [cbn [length] in Hf; lia..|]. exists fuel. split; [cbn [length] in Hf; rewrite length_app in Hf; cbn [length] in Hf; lia|].
    cbn [toml_lines literal Z.eqb Pos.eqb]. rewrite Hr. reflexivity.
  - pose proof (proj2 (header_reads path key rest Hw Hp)) as Hr. cbn [app] in *.
    destruct fuel as [|[|fuel]]; [cbn [length] in Hf; lia..|]. exists fuel. split; [cbn [length] in Hf; rewrite length_app in Hf; cbn [length] in Hf; lia|].
    cbn [toml_lines literal Z.eqb Pos.eqb]. rewrite Hr. reflexivity.
Qed.

Lemma lines_read ls : Forall written ls -> Forall line_plain ls -> forall fuel, (length (lines_text ls) <= fuel)%nat ->
  toml_lines fuel (lines_text ls) = Some ls.
Proof.
  intros Hw. induction Hw as [|l ls Hl Hw IH]; intros Hp fuel Hf; [destruct fuel; reflexivity|]. inversion_clear Hp as [|? ? Hlp Hps].
  change (lines_text (l :: ls)) with (line_text l ++ lines_text ls) in *.
  destruct (line_reads l (lines_text ls) Hl Hlp fuel Hf) as (fuel' & Hf' & ->). rewrite (IH Hps fuel' Hf'). reflexivity.
Qed.

Lemma part_Forall {A} (P : A -> Prop) k (f : bytes -> ch_json_value -> list A) ms :
  (forall key v, (key, v) ∈ ms -> kind_of v = k -> Forall P (f key v)) -> Forall P (part k f ms).
Proof.
  intros Hone. induction ms as [|[key v] ms IH]; [constructor|]. rewrite part_cons. apply Forall_app. split.
  - case_bool_decide; [apply Hone; [left|assumption]|constructor].
  - apply IH. intros. apply Hone; [right|]; assumption.
Qed.

Lemma concat_Forall {A B} (P : A -> Prop) (f : B -> list A) l : (forall x, x ∈ l -> Forall P (f x)) -> Forall P (concat (map f l)).
Proof.
  induction l as [|x l IH]; intros Hf; [constructor|]. cbn [map concat]. apply Forall_app. split; [apply Hf; left|].
  apply IH. intros. apply Hf. right. assumption.
Qed.

Lemma lines_plain v :
  (plain v -> forall path, Forall cstr_ok path -> Forall line_plain (lines v path)) /\
  match v with CH_JSON_ARRAY l => Forall (fun x => plain x -> forall path, Forall cstr_ok path -> Forall line_plain (lines x path)) l | _ => True end.
Proof.
  induction v as [| | | |l IH|ms IH] using json_ind; try (split; [intros; constructor|exact I]).
  { split; [intros; constructor|]. eapply Forall_impl; [|exact IH]. intros x [Hx _]. exact Hx. }
  split; [|exact I]. intros Hp path Hpath. cbn [plain] in Hp. rewrite foldr_and_Forall in Hp. rewrite list.Forall_forall in IH, Hp.
  assert (Hk : forall key v, (key, v) ∈ ms -> Forall cstr_ok (path ++ [key])).
  { intros key v Hin. apply Forall_app. split; [exact Hpath|]. constructor; [apply (Hp _ Hin)|constructor]. }
  cbn [lines]. apply Forall_app. split; [|apply Forall_app; split]; apply part_Forall; intros key v Hin Hkind.
  - constructor; [apply (Hp _ Hin)|constructor].
  - constructor; [apply (Hk _ _ Hin)|]. apply (IH _ Hin); [apply (Hp _ Hin)|apply (Hk _ _ Hin)].
  - destruct v as [| | | |l|]; try constructor. destruct (IH _ Hin) as [_ Hl], (Hp _ Hin) as [_ Hpl]. cbn [snd plain] in Hl, Hpl.
    rewrite foldr_and_Forall in Hpl. rewrite list.Forall_forall in Hl, Hpl. apply concat_Forall. intros x Hx.
    constructor; [apply (Hk _ _ Hin)|]. apply Hl; [exact Hx|apply Hpl, Hx|apply (Hk _ _ Hin)].
Qed.

Lemma render_value_written key v s : kind_of v = Value -> render_value (key, v) = Done s -> written (Pair key v).
Proof.
  intros Hk. assert (Hv : forall b, mutation_is_object_array v = Done b ->
    (if b then Done [] else key ← mutation_append_toml_key key; text ← mutation_append_toml_value v;
        Done (key ++ str " = " ++ text ++ [10])) = Done s -> written (Pair key v)).
  { intros b Hb E. apply object_array_done in Hb as [-> _]. rewrite bool_decide_eq_false_2 in E by congruence.
    apply bind_Done_inv in E as (a & Ha & E). apply bind_Done_inv in E as (text & Et & E). apply key_done in Ha as [_ Hne].
    split; [exact Hne|]. unfold has_text, value_text. rewrite Et. reflexivity. }
  unfold render_value. cbn [snd fst]. intros E. destruct v; try discriminate Hk; try (exact (Hv false eq_refl E)).
  apply bind_Done_inv in E as (b & Hb & E). exact (Hv b Hb E).
Qed.

Lemma path_written path s : mutation_append_path path = Done s -> Forall (fun k => k <> []) path.
Proof.
  assert (Hr : forall path s, path_rest path = Done s -> Forall (fun k => k <> []) path).
  { clear. induction path as [|k path IH]; intros s E; constructor; cbn [path_rest] in E; apply bind_Done_inv in E as (a & Ha & E).
    - apply key_done in Ha as [_ Hk]. exact Hk.
    - apply bind_Done_inv in E as (b & Hb & _). exact (IH b Hb). }
  destruct path as [|k path]; intros E; constructor; cbn [mutation_append_path] in E; apply bind_Done_inv in E as (a & Ha & E).
  - apply key_done in Ha as [_ Hk]. exact Hk.
  - apply bind_Done_inv in E as (b & Hb & _). exact (Hr path b Hb).
Qed.

Definition lines_are_written v : Prop := forall path s, mutation_render_table v path = Done s -> Forall written (lines v path).

Lemma header_written before after path key v s :
  lines_are_written v -> render_header before after (path ++ [key]) (mutation_render_table v (path ++ [key])) = Done s ->
  Forall (fun k => k <> []) (path ++ [key]) /\ Forall written (lines v (path ++ [key])).
Proof.
  intros Hv E. apply bind_Done_inv in E as (h & Eh & E). apply bind_Done_inv in E as (text & Et & _).
  split; [exact (path_written _ _ Eh)|exact (Hv _ _ Et)].
Qed.

Lemma lines_written v : lines_are_written v /\ match v with CH_JSON_ARRAY l => Forall lines_are_written l | _ => True end.
Proof.
  induction v as [| | | |l IH|ms IH] using json_ind; try (split; [intros ? ? E; discriminate E|exact I]).
  { split; [intros path s E; discriminate E|]. eapply Forall_impl; [|exact IH]. intros x [Hx _]. exact Hx. }
  split; [|exact I]. intros path s E. cbn [mutation_render_table] in E. destruct (64 <? lenZ path); [discriminate|].
  apply bind_Done_inv in E as (s1 & E1 & E). apply bind_Done_inv in E as (s2 & E2 & E). apply bind_Done_inv in E as (s3 & E3 & _).
  rewrite list.Forall_forall in IH. cbn [lines]. apply Forall_app. split; [|apply Forall_app; split]; apply part_Forall; intros key v Hin Hk.
  - destruct (render_each_all _ _ _ E1 _ Hin) as [a Ha]. constructor; [exact (render_value_written key v a Hk Ha)|constructor].
  - destruct (render_each_all _ _ _ E2 _ Hin) as [a Ha]. destruct v as [| | | |[|x l]|]; try discriminate Hk;
      [cbn in Hk; destruct (is_object x); discriminate|]. destruct (header_written _ _ _ _ _ _ (proj1 (IH _ Hin)) Ha). constructor; assumption.
  - destruct (render_each_all _ _ _ E3 _ Hin) as [a Ha]. destruct v as [| | | |l|]; try constructor.
    cbv beta iota in Ha. apply bind_Done_inv in Ha as (b & Hb & Ha). apply object_array_done in Hb as [-> _]. rewrite bool_decide_eq_true_2 in Ha by exact Hk.
    destruct (IH _ Hin) as [_ Hl]. cbn [snd] in Hl. rewrite list.Forall_forall in Hl. apply concat_Forall. intros x Hx.
    destruct (render_each_all _ _ _ Ha _ Hx) as [h Hh]. destruct (header_written _ _ _ _ _ _ (Hl x Hx) Hh). constructor; assumption.
Qed.

(** C26: The text of a document defines that document.  When the code renders a
    document and the text is read character by character as the TOML
    specification says (a key and its value on a line, strings with their
    escapes, integers, booleans and arrays; each header opening a new table or a
    new element of an array of tables along its path, no key defined twice), the
    result is the document, in which every key of the root reads what it read
    before, except that [null]s are gone and a table has its values in front of
    its tables.  The document has no key twice in an object, no NUL in a text,
    and its numbers are whole and of at most [9.0e15]: the code writes the
    others with [%.17g]. *)
Theorem rendered_document_defines_itself root text :
  ch_config_render_document_json root = Done text -> unique_keys root -> plain root ->
  toml_document text = Some (members_of (normal root)) /\
  (forall key, member_get (members_of (normal root)) key =
     match member_get (members_of root) key with
     | Some v => if bool_decide (kind_of v = Dropped) then None else Some (normal v)
     | None => None
     end).
Proof.
  intros E Hu Hp. destruct (proj1 (table_renders root) _ _ E) as [Hw Ht]. destruct (lines_define root Hw Hu) as [current Hd]. split.
  - unfold toml_document. rewrite Ht, lines_read; [|exact (proj1 (lines_written root) _ _ E)|apply (lines_plain root); [exact Hp|constructor]|lia].
    cbn [mbind option_bind]. rewrite Hd. reflexivity.
  - destruct root; cbn in Hw; try contradiction. intros key. apply normal_get, Hu.
Qed.

End Texts.

(** ** A rule for a connection, in the document *)

Section Compose.
Context `{DoubleCompare, !DoubleWhole, !DoubleRate, !DoubleSize, !LongDouble, !Inet} (grow : Z -> bool).

Lemma mutate_done toml_parse config fallback operation request_json text :
  ch_config_mutate_document_json grow toml_parse config fallback (Some operation) (Some request_json) = Done text ->
  exists root_json root request root' parsed error,
    ConfigText.ch_config_table_json grow (Config.root config) = Done root_json /\ ch_json_parse (Some root_json) = Done root /\
    ch_json_parse (Some request_json) = Done request /\ mutated root request fallback operation = Done root' /\
    ch_config_render_document_json root' = Done text /\
    Config.ch_config_parse toml_parse text (Config.source_path config) = Done (CH_OK, parsed, error).
Proof.
  unfold ch_config_mutate_document_json. intros E. apply bind_Done_inv in E as (root_json & E1 & E). apply bind_Done_inv in E as (root & E2 & E).
  apply bind_Done_inv in E as (request & E3 & E). destruct (negb (is_object request)); [discriminate E|].
  apply bind_Done_inv in E as (root' & E4 & E). apply bind_Done_inv in E as (out & E5 & E). apply bind_Done_inv in E as ([[status parsed] error] & E6 & E).
  case_bool_decide as Hs; [|discriminate E]. injection E as <-. subst status. exists root_json, root, request, root', parsed, error. split_and!; auto.
Qed.

(** The rule that a connection asks for. *)
Definition connection_rule (name action key value : bytes) : ch_json_value :=
  object_value [text_field "name" name; text_field "action" action;
                mk_field key ([91] ++ join [print_string value] ++ [93]) (CH_JSON_ARRAY [text_value value])].

(** A rule made from a connection is stored.  The request that the traffic
    store writes for a connection is an edit of the configuration: when the
    edit succeeds, the new text is accepted by the loader and is that of the
    document with one more rule, the last one of the profile that the request
    names; the rule has a name that no rule of the profile had, and its match
    covers the host of the connection. *)
Theorem connection_rule_is_stored toml_parse s config active_profile fallback request_json request text :
  TrafficRules.ch_traffic_rule_request_json grow s config active_profile request_json = Done request ->
  bytes_ok request_json -> TrafficRules.sources_ok s config active_profile ->
  ch_config_mutate_document_json grow toml_parse config fallback (Some (str "create_rule")) (Some request) = Done text ->
  exists e root root' index profile profile' profile_name name action key value parsed error,
    In e (Traffic.entries s) /\
    items_of (ask (Some root) "profile") !! index = Some profile /\ text_is (ask (Some profile) "name") (trim profile_name) = true /\
    items_of (ask (Some root') "profile") = <[index := profile']> (items_of (ask (Some root) "profile")) /\
    items_of (ask (Some profile') "rule") = items_of (ask (Some profile) "rule") ++ [connection_rule name action key value] /\
    (exists t, Config.ch_config_profile_named config (Some profile_name) = Some t /\ ~ In name (TrafficRules.rule_names t)) /\
    (forall rule, Temporary.t_match_kind rule = TrafficRules.kind_of_key key -> Temporary.t_match_value rule = value ->
       Temporary.temporary_matches rule (TrafficRules.traffic_rule_host (Traffic.i_target_host (Traffic.info e))) = true) /\
    text = lines_text (lines root' []) /\
    Config.ch_config_parse toml_parse text (Config.source_path config) = Done (CH_OK, parsed, error).
Proof.
  intros Er Hb Hok E. destruct (mutate_done _ _ _ _ _ _ E) as (root_json & root & req & root' & parsed & error & _ & _ & Hreq & Hm & Ht & Hp).
  destruct (TrafficRules.rule_request_parses _ _ _ _ _ _ Er Hb Hok) as
    (e & asked & pname & table & name & action & key & value & Hin & _ & _ & _ & Htab & Hkey & Hfree & _ & Hcov & Hparse).
  rewrite Hparse in Hreq. injection Hreq as <-. destruct (proj1 (table_renders root') [] text Ht) as [_ Ht'].
  destruct (mutated_steps _ _ _ _ _ Hm) as (index & profile & root1 & profile' & root2 & Hs & Ha & Hop & Hr); [discriminate|].
  destruct (steps_frame _ _ _ _ _ _ _ _ _ _ Hs Ha Hop Hr) as (_ & _ & _ & Kr & Hi).
  destruct Hr as [Hr|[_ ->]]; [discriminate Hr|].
  destruct Hop as [[Hop _]|[Hop _]]; [|discriminate Hop]. injection Hop as Hop.
  apply create_rule_done in Hop as (prepend & rule & Hpos & Hrule & _ & Hrules).
  assert (Eq : forall key, ask (Some (object_value (TrafficRules.rule_fields pname name action key value))) "position" = Some (text_value (str "append")))
    by reflexivity.
  unfold rule_position in Hpos. rewrite Eq in Hpos. change (Done false = Done prepend :> result bool) in Hpos. injection Hpos as <-.
  assert (Er' : CH_JSON_OBJECT rule = connection_rule name action key value) by (change (Some (connection_rule name action key value) = Some (CH_JSON_OBJECT rule)) in Hrule; congruence).
  apply (select_profile_named _ _ _ pname) in Hs; [|reflexivity]. apply find_name_spec in Hs as (Hl & Hn & _).
  exists e, root, root2, index, profile, profile', pname, name, action, key, value, parsed, error. rewrite Hrules, Er'. split_and!; eauto.
  rewrite Hn. unfold text_is. apply beq_refl.
Qed.

End Compose.

(** ** Witnesses *)

Section Witnesses.
Import PlainLongDouble PlainInet.
#[local] Existing Instance Temporary.plain_compare.
#[local] Existing Instance Traffic.plain_rate.
#[local] Existing Instance FeedCache.plain_size.

Definition text_of (r : result bytes) : bytes := match r with Done t => t | _ => [] end.

Definition is_text (r : result bytes) : bool := match r with Done _ => true | _ => false end.

Lemma done_text r : is_text r = true -> r = Done (text_of r).
Proof. destruct r; [reflexivity|discriminate..]. Qed.

Abbreviation w_rendered := (ch_config_render_document_json w_root_value).

Lemma w_root_unique : unique_keys w_root_value.
Proof.
  assert (Hd : forall l, bool_decide (NoDup l) = true -> NoDup (l : list bytes)) by (intros l; apply bool_decide_eq_true_1).
  unfold w_root_value, w_rule_value, w_text. cbn [unique_keys map foldr fst snd].
  repeat match goal with |- _ /\ _ => split | |- True => exact I end; apply Hd; vm_compute; reflexivity.
Qed.

Lemma w_root_plain : plain w_root_value.
Proof.
  assert (Hc : forall l, forallb (fun c => (0 <? c) && (c <? 256)) l = true -> cstr_ok l).
  { intros l Hl. unfold cstr_ok. rewrite forallb_forall in Hl. apply Forall_forall. intros c Hin. specialize (Hl c Hin). unfold cchar_ok. lia. }
  unfold w_root_value, w_rule_value, w_text. cbn [plain map foldr fst snd].
  repeat match goal with |- _ /\ _ => split | |- True => exact I end; apply Hc; vm_compute; reflexivity.
Qed.

Lemma rendered_document_defines_itself_witness :
  toml_document (text_of w_rendered) = Some (members_of (normal w_root_value)) /\
  member_get (members_of (normal w_root_value)) (str "active") = Some (CH_JSON_STRING (str "home")).
Proof.
  destruct (rendered_document_defines_itself w_root_value (text_of w_rendered) (done_text w_rendered ltac:(vm_compute; reflexivity)) w_root_unique w_root_plain)
    as [Hr Hk].
  split; [exact Hr|]. rewrite Hk. reflexivity.
Defined.

Example w_rendered_text :
  text_of w_rendered =
    str "active = " ++ [34] ++ str "home" ++ [34; 10] ++
    [10] ++ str "[developer]" ++ [10] ++ str "enabled = true" ++ [10] ++ str "mitm_enabled = false" ++ [10] ++
    [10] ++ str "[[profile]]" ++ [10] ++ str "name = " ++ [34] ++ str "work" ++ [34; 10] ++ [10] ++ str "[profile.dns]" ++ [10] ++
    [10] ++ str "[[profile]]" ++ [10] ++ str "name = " ++ [34] ++ str "home" ++ [34; 10] ++
    [10] ++ str "[[profile.rule]]" ++ [10] ++ str "name = " ++ [34] ++ str "web" ++ [34; 10] ++ str "action = " ++ [34] ++ str "direct" ++ [34; 10].
Proof. vm_compute. reflexivity. Qed.

(** A time in nanoseconds is beyond the whole numbers that are written as
    integers. *)
Example w_time_not_whole : whole_limit < 1700000000000000000.
Proof. reflexivity. Qed.

Definition w_valid : Config.toml_table double :=
  Config.mk_table []
    [(str "profile", Config.mk_array [Config.item_tab
       (Config.mk_table [(str "name", TrafficRules.w_raw (str "home"))]
          [(str "chain", Config.mk_array [Config.item_tab
              (Config.mk_table [(str "name", TrafficRules.w_raw (str "main"))]
                 [(str "server", Config.mk_array [Config.item_tab (Config.mk_table [(str "protocol", TrafficRules.w_raw (str "socks5"))] [] [])])] [])])] [])])] [].

Abbreviation w_asked := (TrafficRules.ch_traffic_rule_request_json Traffic.w_grow TrafficHistory.w_saved TrafficRules.w_rules_config (Some (str "home")) TrafficRules.w_request_id).
Abbreviation w_stored := (ch_config_mutate_document_json Traffic.w_grow (fun _ => inl w_valid) TrafficRules.w_rules_config (Some (str "home"))
  (Some (str "create_rule")) (Some (text_of w_asked))).

Lemma w_asked_done : w_asked = Done (text_of w_asked).
Proof. apply done_text. vm_compute. reflexivity. Qed.

Lemma w_stored_done : w_stored = Done (text_of w_stored).
Proof. apply done_text. vm_compute. reflexivity. Qed.

End Witnesses.
End Render.
