(* ===== verification/DnsClient.v ===== *)
(** * The DNS client: [native/src/dns.c] and [native/src/dns_quic.c]

    Queries that the listeners intercept are sent to the upstreams of the
    profile over HTTPS, TLS or QUIC, one after the other until one of them
    answers.  Here are the messages (where the questions of a message end,
    whether a response answers a query, the failure response), the upstreams of
    a profile, and the exchange.

    OpenSSL, curl and the dialer are arguments: what a call of them returned
    is part of a [session].  Allocation is taken to succeed. *)

From S2P Require Import Prelude CLib Inet Config.

Module DnsClient.

(** ** Messages *)

Definition CH_DNS_MIN_MESSAGE : Z := 12.
Definition CH_DNS_MAX_MESSAGE : Z := 65535.

(** The labels of a name from the offset on: the offset behind them, or [None]
    for a malformed name.  Each round reads a byte, so that the length of the
    message bounds the rounds. *)
Fixpoint skip_labels (fuel : nat) (message : bytes) (offset : Z) : result (option Z) :=
  match fuel with
  | O => Fault
  | S fuel' =>
      if offset >=? lenZ message then Done None
      else
        label ← rd message offset;
        let offset := offset + 1 in
        if label =? 0 then Done (Some offset)
        else if negb (Z.land label 192 =? 0) || (label >? 63) || (label >? lenZ message - offset) then Done None
        else skip_labels fuel' message (offset + label)
  end.

Fixpoint skip_questions (count : nat) (message : bytes) (offset : Z) : result Z :=
  match count with
  | O => Done offset
  | S count' =>
      next ← skip_labels (S (length message)) message offset;
      match next with
      | None => Done 0
      | Some offset => if lenZ message - offset <? 4 then Done 0 else skip_questions count' message (offset + 4)
      end
  end.

(** The offset behind the questions, 0 when they are malformed. *)
Definition ch_dns_question_end (message : option bytes) : result Z :=
  match message with
  | None => Done 0
  | Some message =>
      if lenZ message <? CH_DNS_MIN_MESSAGE then Done 0
      else
        hi ← rd message 4;
        lo ← rd message 5;
        let question_count := hi * 256 + lo in
        if question_count =? 0 then Done 0
        else skip_questions (Z.to_nat question_count) message CH_DNS_MIN_MESSAGE
  end.

Definition ch_dns_validate_response (query : bytes) (response : option bytes) : result unit :=
  query_end ← ch_dns_question_end (Some query);
  if query_end =? 0 then fail CH_ERROR_INVALID_ARGUMENT (str "dns: malformed query")
  else
    match response with
    | None => fail CH_ERROR_PARSE (str "dns: upstream response too short")
    | Some response =>
        if lenZ response <? CH_DNS_MIN_MESSAGE then fail CH_ERROR_PARSE (str "dns: upstream response too short")
        else
          q0 ← rd query 0; r0 ← rd response 0; q1 ← rd query 1; r1 ← rd response 1;
          if negb (q0 =? r0) || negb (q1 =? r1) then fail CH_ERROR_PARSE (str "dns: upstream response transaction ID mismatch")
          else
            response_end ← ch_dns_question_end (Some response);
            if response_end =? 0 then fail CH_ERROR_PARSE (str "dns: upstream response has malformed question")
            else
              let query_question_length := query_end - CH_DNS_MIN_MESSAGE in
              let response_question_length := response_end - CH_DNS_MIN_MESSAGE in
              if negb (query_question_length =? response_question_length) then
                fail CH_ERROR_PARSE (str "dns: upstream response question mismatch")
              else
                a ← rds query CH_DNS_MIN_MESSAGE query_question_length;
                b ← rds response CH_DNS_MIN_MESSAGE query_question_length;
                if beq a b then Done tt else fail CH_ERROR_PARSE (str "dns: upstream response question mismatch")
    end.

(** The query with its questions only, as a failure response. *)
Definition ch_dns_servfail (query : bytes) : result bytes :=
  if lenZ query <? CH_DNS_MIN_MESSAGE then fail CH_ERROR_INVALID_ARGUMENT (str "dns query and response outputs are required")
  else
    last ← ch_dns_question_end (Some query);
    let last := if last =? 0 then CH_DNS_MIN_MESSAGE else last in
    response ← rds query 0 last;
    flags ← rd response 2;
    response ← wr response 2 [Z.lor flags 128];
    rcode ← rd response 3;
    response ← wr response 3 [u8 (Z.lor (Z.land rcode 240) 2)];
    wr response 6 [0; 0; 0; 0; 0; 0].


(** ** Upstreams *)

Inductive ch_dns_upstream_kind : Type := CH_DNS_UPSTREAM_DOH | CH_DNS_UPSTREAM_DOT | CH_DNS_UPSTREAM_DOQ.

#[export] Instance upstream_kind_eq_dec : EqDecision ch_dns_upstream_kind.
Proof. solve_decision. Defined.

Record ch_dns_upstream : Type := mk_upstream {
  u_kind : ch_dns_upstream_kind;
  u_name : bytes;
  u_url : bytes;
  u_effective_url : bytes;
  u_http_host : option bytes;
  u_resolve_host : bytes;
  u_target : bytes;
  u_host : bytes;
  u_port : bytes;
  u_server_name : bytes;
  u_bootstrap_ips : list bytes
}.

Inductive ch_dns_route_action : Type := CH_DNS_ROUTE_CONNECT | CH_DNS_ROUTE_DIRECT | CH_DNS_ROUTE_BLOCK | CH_DNS_ROUTE_REJECT.

(** A URL as curl parses it: its scheme, its host, its port (with the default
    of the scheme), its text, and its text with another host. *)
Record curl_url : Type := mk_url {
  url_scheme : option bytes;
  url_host : option bytes;
  url_port : option bytes;
  url_text : option bytes;
  url_with_host : bytes -> option (option bytes)
}.

(** What the proxy is created with. *)
Record ch_dns_proxy_options : Type := mk_options {
  route : bytes -> bytes -> result ch_dns_route_action;
  packet_dial : bool;
  insecure_skip_verify : bool
}.

Record ch_dns_proxy : Type := mk_proxy {
  p_options : ch_dns_proxy_options;
  p_timeout_milliseconds : Z;
  p_upstreams : list ch_dns_upstream
}.

Definition CH_DNS_DEFAULT_TIMEOUT_MS : Z := 5000.

Section Load.
Context {D : Type} `{Inet} `{LongDouble} (parse_url : bytes -> option curl_url) (quic_available : bool).

Definition ch_dns_optional_string (table : option (Config.toml_table D)) (key : String.string) : bytes :=
  match table with
  | None => []
  | Some t => match Config.ch_config_table_get_string t (str key) with Done s => s | _ => [] end
  end.

Definition ch_dns_optional_bool (table : option (Config.toml_table D)) (key : String.string) (fallback : bool) : bool :=
  match table with
  | None => fallback
  | Some t => match Config.ch_config_table_get_bool t (str key) with Done b => b | _ => fallback end
  end.

Definition ch_dns_is_ip (host : bytes) : bool :=
  match pton4 host with Some _ => true | None => match pton6 host with Some _ => true | None => false end end.

Definition ch_dns_join_host_port (host port : bytes) : bytes :=
  if bool_decide (58 ∈ host) then [91] ++ host ++ [93; 58] ++ port else host ++ [58] ++ port.

Definition ch_dns_split_host_port (target : bytes) : option (bytes * bytes) :=
  match target with
  | [] => None
  | c :: _ =>
      if c =? 91 then
        match split_first 93 target with
        | Some (before, after) =>
            match after with
            | x :: port => if negb (x =? 58) || beq port [] then None else Some (drop 1 before, port)
            | [] => None
            end
        | None => None
        end
      else
        match split_last 58 target with
        | Some (host, port) => if beq host [] || beq port [] || bool_decide (58 ∈ host) then None else Some (host, port)
        | None => None
        end
  end.

Definition ch_dns_name_or_default (name prefix host : bytes) : bytes := if beq name [] then prefix ++ host else name.

(** The loop over the addresses. *)
Fixpoint load_bootstrap (l : list (Config.toml_item D)) (index : Z) : result (list bytes) :=
  match l with
  | [] => Done []
  | i :: l' =>
      match Config.string_at i with
      | None => Config.array_missing index
      | Some address =>
          if negb (ch_dns_is_ip address) then
            fail CH_ERROR_INVALID_ARGUMENT (str "dns bootstrap address " ++ address ++ str " is not an IP address")
          else rest ← load_bootstrap l' (index + 1); Done (address :: rest)
      end
  end.

Definition ch_dns_load_bootstrap (table : option (Config.toml_table D)) : result (list bytes) :=
  load_bootstrap (Config.items (t ← table; Config.toml_array_in t (str "bootstrap_ips"))) 0.

Definition ch_dns_set_default_bootstrap (free_resolver : bool) : list bytes :=
  if free_resolver then [str "76.76.2.11"; str "76.76.10.11"; str "2606:1a40::11"; str "2606:1a40:1::11"]
  else [str "76.76.2.22"; str "76.76.10.22"; str "2606:1a40::22"; str "2606:1a40:1::22"].

Definition ch_dns_validate_direct_bootstrap (options : ch_dns_proxy_options) (upstream : ch_dns_upstream) (network : bytes)
    : result ch_dns_upstream :=
  if ch_dns_is_ip (u_host upstream) || negb (bool_decide (u_bootstrap_ips upstream = [])) then Done upstream
  else
    action ← route options network (u_target upstream);
    match action with
    | CH_DNS_ROUTE_DIRECT =>
        fail CH_ERROR_INVALID_ARGUMENT
          (str "direct DNS upstream " ++ u_target upstream ++ str " needs bootstrap_ips to avoid local DNS resolution")
    | _ => Done upstream
    end.

(** The host in the request when TLS names another one. *)
Definition authority (host port : bytes) : bytes :=
  let ipv6 := bool_decide (58 ∈ host) in
  let host := if ipv6 then [91] ++ host ++ [93] else host in
  if beq port (str "443") then host else host ++ [58] ++ port.

Definition ch_dns_prepare_doh (options : ch_dns_proxy_options) (url server_name : bytes) (bootstrap : list bytes) : result ch_dns_upstream :=
  match parse_url url with
  | Some parsed =>
      match url_scheme parsed, url_host parsed with
      | Some scheme, Some host =>
          if negb (beq scheme (str "https")) then fail CH_ERROR_INVALID_ARGUMENT (str "dns DoH requires a valid https URL")
          else
            match url_port parsed with
            | None => fail CH_ERROR_INVALID_ARGUMENT (str "dns DoH URL has no port")
            | Some port =>
                let server_name := if beq server_name [] && negb (ch_dns_is_ip host) then host else server_name in
                let tls_host := if beq server_name [] then host else server_name in
                let other := negb (beq tls_host host) in
                effective ← (if other then
                               match url_with_host parsed tls_host with
                               | None => fail CH_ERROR_INVALID_ARGUMENT (str "dns DoH server_name is invalid")
                               | Some text => Done text
                               end
                             else Done (url_text parsed));
                match effective with
                | None => fail CH_ERROR_INVALID_ARGUMENT (str "dns DoH URL cannot be normalized")
                | Some effective =>
                    ch_dns_validate_direct_bootstrap options
                      (mk_upstream CH_DNS_UPSTREAM_DOH [] url effective (if other then Some (authority host port) else None) tls_host
                         (ch_dns_join_host_port host port) host port server_name bootstrap)
                      (str "tcp")
                end
            end
      | _, _ => fail CH_ERROR_INVALID_ARGUMENT (str "dns DoH requires a valid https URL")
      end
  | None => fail CH_ERROR_INVALID_ARGUMENT (str "dns DoH requires a valid https URL")
  end.

(** An endpoint given by its address, for TLS and for QUIC. *)
Definition prepare_address (options : ch_dns_proxy_options) (kind : ch_dns_upstream_kind) (message network url target server_name : bytes)
    (bootstrap : list bytes) : result ch_dns_upstream :=
  match ch_dns_split_host_port target with
  | None => fail CH_ERROR_INVALID_ARGUMENT message
  | Some (host, port) =>
      let server_name := if beq server_name [] && negb (ch_dns_is_ip host) then host else server_name in
      ch_dns_validate_direct_bootstrap options (mk_upstream kind [] url [] None [] target host port server_name bootstrap) network
  end.

Definition ch_dns_prepare_dot (options : ch_dns_proxy_options) (url target server_name : bytes) (bootstrap : list bytes) : result ch_dns_upstream :=
  prepare_address options CH_DNS_UPSTREAM_DOT (str "dns DoT address must be host:port") (str "tcp") url target server_name bootstrap.

Definition ch_dns_prepare_doq (options : ch_dns_proxy_options) (url target server_name : bytes) (bootstrap : list bytes) : result ch_dns_upstream :=
  if negb quic_available then
    fail CH_ERROR_UNSUPPORTED (str "native DNS-over-QUIC requires OpenSSL 3.2 or later with QUIC enabled")
  else if negb (packet_dial options) then fail CH_ERROR_UNSUPPORTED (str "native DNS-over-QUIC requires a routed packet dialer")
  else prepare_address options CH_DNS_UPSTREAM_DOQ (str "dns DoQ address must be host:port") (str "udp") url target server_name bootstrap.

(** The fields of an upstream before its protocol is prepared. *)
Record upstream_fields : Type := mk_fields {
  f_protocol : bytes;
  f_name : bytes;
  f_url : bytes;
  f_target : bytes;
  f_server_name : bytes
}.

Definition lowered (s : bytes) : bytes := map tolower s.

Definition ch_dns_expand_controld (table : option (Config.toml_table D)) (fields : upstream_fields) : result (upstream_fields * bool) :=
  let resolver := trim (ch_dns_optional_string table "resolver") in
  let transport := lowered (trim (ch_dns_optional_string table "transport")) in
  let free_resolver := ch_dns_optional_bool table "free" false in
  if beq resolver [] || existsb (fun c => bool_decide (c ∈ [32; 9; 13; 10; 47])) resolver then
    fail CH_ERROR_INVALID_ARGUMENT (str "controld resolver is required and must not contain whitespace or '/'")
  else
    let transport := if beq transport [] then str "doh" else transport in
    if negb (bool_decide (transport ∈ [str "doh"; str "dot"; str "doq"])) then
      fail CH_ERROR_INVALID_ARGUMENT (str "controld transport must be doh, dot, or doq")
    else
      let host := if free_resolver then str "freedns.controld.com" else str "dns.controld.com" in
      let name := if beq (f_name fields) [] then str "controld:" ++ resolver else f_name fields in
      let named default := if beq (f_server_name fields) [] then default else f_server_name fields in
      if beq transport (str "doh") then
        Done (mk_fields transport name (str "https://" ++ host ++ [47] ++ resolver) (f_target fields) (named host), free_resolver)
      else
        let fqdn := resolver ++ [46] ++ host in
        Done (mk_fields transport name (f_url fields) (ch_dns_join_host_port fqdn (str "853")) (named fqdn), free_resolver).

Definition upstream_named (name prefix : bytes) (upstream : ch_dns_upstream) : ch_dns_upstream :=
  mk_upstream (u_kind upstream) (ch_dns_name_or_default name prefix (u_host upstream)) (u_url upstream) (u_effective_url upstream)
    (u_http_host upstream) (u_resolve_host upstream) (u_target upstream) (u_host upstream) (u_port upstream) (u_server_name upstream)
    (u_bootstrap_ips upstream).

Definition ch_dns_upstream_load (options : ch_dns_proxy_options) (table : option (Config.toml_table D)) : result ch_dns_upstream :=
  let text key := trim (ch_dns_optional_string table key) in
  let fields :=
    mk_fields (lowered (text "protocol"%string)) (text "name"%string) (text "url"%string) (text "address"%string) (text "server_name"%string) in
  let control_d := beq (f_protocol fields) (str "controld") in
  '(fields, free_resolver) ← (if control_d then ch_dns_expand_controld table fields else Done (fields, false));
  bootstrap ← ch_dns_load_bootstrap table;
  let bootstrap := if control_d && bool_decide (bootstrap = []) then ch_dns_set_default_bootstrap free_resolver else bootstrap in
  let '(mk_fields protocol name url target server_name) := fields in
  if beq protocol (str "doh") then
    upstream ← ch_dns_prepare_doh options url server_name bootstrap; Done (upstream_named name (str "doh:") upstream)
  else if beq protocol (str "dot") then
    upstream ← ch_dns_prepare_dot options url target server_name bootstrap; Done (upstream_named name (str "dot:") upstream)
  else if beq protocol (str "doq") then
    upstream ← ch_dns_prepare_doq options url target server_name bootstrap; Done (upstream_named name (str "doq:") upstream)
  else fail CH_ERROR_INVALID_ARGUMENT (str "unknown dns protocol " ++ protocol).

Fixpoint load_upstreams (options : ch_dns_proxy_options) (l : list (Config.toml_item D)) : result (list ch_dns_upstream) :=
  match l with
  | [] => Done []
  | i :: l' =>
      upstream ← ch_dns_upstream_load options (Config.table_at i);
      rest ← load_upstreams options l';
      Done (upstream :: rest)
  end.

(** [None] is [NULL] without an error: the profile has no DNS proxy. *)
Definition ch_dns_proxy_create (config : Config.ch_config (D := D)) (profile_name : option bytes) (options : ch_dns_proxy_options)
    : result (option ch_dns_proxy) :=
  let profile :=
    if Config.empty profile_name then Config.ch_config_active_profile config else Config.ch_config_profile_named config profile_name in
  match profile with
  | None => fail CH_ERROR_NOT_FOUND (str "dns profile not found")
  | Some profile =>
      let dns := Config.toml_table_in profile (str "dns") in
      if negb (ch_dns_optional_bool dns "enabled" false) then Done None
      else
        let timeout := ch_dns_optional_string dns "timeout" in
        nanoseconds ← (if beq timeout [] then Done 0 else Config.ch_config_parse_duration_ns (Some timeout));
        if nanoseconds <? 0 then Done None
        else
          let milliseconds := (nanoseconds + 999999) / 1000000 in
          let timeout_milliseconds :=
            if nanoseconds >? 0 then (if milliseconds >? 2 ^ 32 - 1 then 2 ^ 32 - 1 else milliseconds) else CH_DNS_DEFAULT_TIMEOUT_MS in
          match Config.items (t ← dns; Config.toml_array_in t (str "upstream")) with
          | [] => fail CH_ERROR_INVALID_ARGUMENT (str "dns requires at least one upstream")
          | l => upstreams ← load_upstreams options l; Done (Some (mk_proxy options timeout_milliseconds upstreams))
          end
  end.

End Load.

(** ** Sessions

    What the libraries did during an exchange with an upstream. *)

(** A TLS session: the dialer, the context, the trust store, the handshake, the
    results of [SSL_write], the bytes that each [SSL_read] could return, and the
    text of the error queue. *)
Record dot_session : Type := mk_dot {
  dot_dial : result unit;
  dot_context : bool;
  dot_trust : bool;
  dot_handshake : bool;
  dot_writes : list Z;
  dot_reads : list bytes;
  dot_detail : bytes
}.

(** A transfer of curl: its setup, the socket that the dialer opened for it,
    the body in the pieces given to the write callback, an error of the
    transfer, and the status. *)
Record doh_session : Type := mk_doh {
  doh_setup : result unit;
  doh_socket : result unit;
  doh_chunks : list bytes;
  doh_failure : option bytes;
  doh_status : Z
}.

(** A QUIC stream: its connection, whether the request was written, what can
    be read, whether the stream ends there, and the error of a failed read. *)
Record doq_session : Type := mk_doq {
  doq_connect : result unit;
  doq_write : result unit;
  doq_reads : list bytes;
  doq_finished : bool;
  doq_error : ch_error
}.

Record session : Type := mk_session { on_tls : dot_session; on_https : doh_session; on_quic : doq_session }.

(** The results of [SSL_write] that are left when everything was sent, and
    [None] when a write failed. *)
Fixpoint ch_dns_ssl_write_all (writes : list Z) (data : bytes) : option (list Z) :=
  if beq data [] then Some writes
  else
    match writes with
    | [] => None
    | written :: writes' => if written <=? 0 then None else ch_dns_ssl_write_all writes' (drop (Z.to_nat written) data)
    end.

(** The first [n] bytes of what can be read, and what is left; a read that
    returns nothing has failed. *)
Fixpoint ch_dns_ssl_read_exact (reads : list bytes) (n : nat) : option (bytes * list bytes) :=
  match n, reads with
  | O, _ => Some ([], reads)
  | _, [] => None
  | _, [] :: _ => None
  | _, chunk :: reads' =>
      if (n <? length chunk)%nat then Some (take n chunk, drop n chunk :: reads')
      else '(rest, unread) ← ch_dns_ssl_read_exact reads' (n - length chunk); Some (chunk ++ rest, unread)
  end.

Definition ch_dns_ssl_error {A} (session : dot_session) (operation : bytes) : result A :=
  fail CH_ERROR_IO (str "dns " ++ operation ++ str ": " ++ dot_detail session).

(** The two bytes in front of a message on a stream. *)
Definition length_bytes (n : Z) : bytes := [u8 (Z.shiftr n 8); u8 n].

(** ** The transports *)

Definition ch_dns_exchange_dot (options : ch_dns_proxy_options) (upstream : ch_dns_upstream) (query : bytes) (session : dot_session) : result bytes :=
  dot_dial session;;
  if negb (dot_context session) then ch_dns_ssl_error session (str "create DoT context")
  else if negb (insecure_skip_verify options) && negb (dot_trust session) then ch_dns_ssl_error session (str "load trust store")
  else if negb (insecure_skip_verify options) && beq (u_server_name upstream) [] then
    fail CH_ERROR_INVALID_ARGUMENT (str "dns DoT IP endpoint requires server_name for TLS verification")
  else if negb (dot_handshake session) then ch_dns_ssl_error session (str "DoT handshake")
  else
    let exchanged :=
      writes ← ch_dns_ssl_write_all (dot_writes session) (length_bytes (lenZ query));
      _ ← ch_dns_ssl_write_all writes query;
      ch_dns_ssl_read_exact (dot_reads session) 2 in
    match exchanged with
    | None => ch_dns_ssl_error session (str "DoT exchange")
    | Some (header, reads) =>
        hi ← rd header 0; lo ← rd header 1;
        let response_length := hi * 256 + lo in
        if response_length <? CH_DNS_MIN_MESSAGE then fail CH_ERROR_PARSE (str "dns: upstream response too short")
        else
          match ch_dns_ssl_read_exact reads (Z.to_nat response_length) with
          | None => ch_dns_ssl_error session (str "read DoT response")
          | Some (response, _) => ch_dns_validate_response query (Some response);; Done response
          end
    end.

(** [ch_dns_curl_write] over the pieces of the body: the bytes that are kept,
    and whether the response was too large. *)
Fixpoint ch_dns_curl_write (chunks : list bytes) (kept : bytes) : bytes * bool :=
  match chunks with
  | [] => (kept, false)
  | chunk :: chunks' =>
      if lenZ chunk >? CH_DNS_MAX_MESSAGE - lenZ kept then (kept, true) else ch_dns_curl_write chunks' (kept ++ chunk)
  end.

Definition ch_dns_exchange_doh (query : bytes) (session : doh_session) : result bytes :=
  doh_setup session;;
  doh_socket session;;
  let '(response, overflow) := ch_dns_curl_write (doh_chunks session) [] in
  if overflow then fail CH_ERROR_PARSE (str "DoH response too large")
  else
    match doh_failure session with
    | Some detail => fail CH_ERROR_IO (str "DoH request: " ++ detail)
    | None =>
        if (doh_status session <? 200) || (doh_status session >=? 300) then
          fail CH_ERROR_IO (str "DoH HTTP status " ++ dec (doh_status session))
        else
          ch_dns_validate_response query (if beq response [] then None else Some response);; Done response
    end.

(** The query with the transaction ID 0. *)
Definition anonymous (query : bytes) : result bytes := wr query 0 [0; 0].

Definition ch_dns_quic_read_exact (session : doq_session) (reads : list bytes) (n : nat) : result (bytes * list bytes) :=
  match ch_dns_ssl_read_exact reads n with Some r => Done r | None => Raise (doq_error session) end.

Definition ch_dns_quic_expect_eof (session : doq_session) (reads : list bytes) : result unit :=
  match reads with
  | [] => if doq_finished session then Done tt else Raise (doq_error session)
  | [] :: _ => Raise (doq_error session)
  | _ => fail CH_ERROR_PARSE (str "dns DoQ response has trailing bytes")
  end.

Definition ch_dns_quic_exchange (quic_available : bool) (options : ch_dns_proxy_options) (query : bytes) (session : doq_session) : result bytes :=
  if negb quic_available then
    fail CH_ERROR_UNSUPPORTED (str "native DNS-over-QUIC requires OpenSSL 3.2 or later with QUIC enabled")
  else if negb (packet_dial options) || (lenZ query <? 12) || (lenZ query >? 65535) then
    fail CH_ERROR_INVALID_ARGUMENT (str "invalid DNS-over-QUIC exchange")
  else
    request ← anonymous query;
    doq_connect session;;
    doq_write session;;
    '(header, reads) ← ch_dns_quic_read_exact session (doq_reads session) 2;
    hi ← rd header 0; lo ← rd header 1;
    let response_length := hi * 256 + lo in
    if response_length <? 12 then fail CH_ERROR_PARSE (str "dns DoQ response is too short")
    else
      '(response, reads) ← ch_dns_quic_read_exact session reads (Z.to_nat response_length);
      ch_dns_quic_expect_eof session reads;;
      ch_dns_validate_response request (Some response);;
      q0 ← rd query 0; q1 ← rd query 1;
      wr response 0 [q0; q1].

(** ** The exchange *)

Definition exchange_with (quic_available : bool) (options : ch_dns_proxy_options) (upstream : ch_dns_upstream) (query : bytes) (session : session)
    : result bytes :=
  match u_kind upstream with
  | CH_DNS_UPSTREAM_DOH => ch_dns_exchange_doh query (on_https session)
  | CH_DNS_UPSTREAM_DOQ => ch_dns_quic_exchange quic_available options query (on_quic session)
  | CH_DNS_UPSTREAM_DOT => ch_dns_exchange_dot options upstream query (on_tls session)
  end.

(** The answer of the first upstream that has one, or the last error. *)
Fixpoint exchange_loop (quic_available : bool) (options : ch_dns_proxy_options) (sessions : nat -> session) (l : list ch_dns_upstream)
    (index : nat) (query : bytes) (last_error : ch_error) : result (bytes + ch_error) :=
  match l with
  | [] => Done (inr last_error)
  | upstream :: l' =>
      match exchange_with quic_available options upstream query (sessions index) with
      | Done response => Done (inl response)
      | Raise e => exchange_loop quic_available options sessions l' (S index) query e
      | Fault => Fault
      end
  end.

(** The status, the response and the error of the call; an error has a
    response too, the failure one, unless the query is malformed. *)
Definition ch_dns_proxy_exchange (quic_available : bool) (proxy : ch_dns_proxy) (sessions : nat -> session) (query : bytes)
    : result (bytes * option ch_error) :=
  query_end ← ch_dns_question_end (Some query);
  if (lenZ query >? CH_DNS_MAX_MESSAGE) || (query_end =? 0) then fail CH_ERROR_INVALID_ARGUMENT (str "dns: malformed query")
  else
    answer ← exchange_loop quic_available (p_options proxy) sessions (p_upstreams proxy) 0 query (mk_error CH_ERROR_IO []);
    match answer with
    | inl response => Done (response, None)
    | inr e =>
        response ← ch_dns_servfail query;
        match list.last (p_upstreams proxy) with
        | Some upstream => Done (response, Some (ch_error_set (code e) (u_name upstream ++ str ": " ++ message e)))
        | None => Fault
        end
    end.

(** ** What a message says *)

(** A question: the labels of its name, and its type and class. *)
Record question : Type := mk_question { q_labels : list bytes; q_type_class : bytes }.

Definition label_ok (l : bytes) : Prop := 1 <= lenZ l <= 63.
Definition question_ok (q : question) : Prop := Forall label_ok (q_labels q) /\ lenZ (q_type_class q) = 4.

Definition name_text (labels : list bytes) : bytes := concat (map (fun l => lenZ l :: l) labels) ++ [0].
Definition question_text (q : question) : bytes := name_text (q_labels q) ++ q_type_class q.
Definition questions_text (qs : list question) : bytes := concat (map question_text qs).

Definition question_count (header : bytes) : Z := byte_at header 4 * 256 + byte_at header 5.

(** A header of 12 bytes and as many questions as it says. *)
Record asks (message : bytes) (header : bytes) (qs : list question) (rest : bytes) : Prop := {
  asks_text : message = header ++ questions_text qs ++ rest;
  asks_header : lenZ header = 12;
  asks_count : question_count header = Z.of_nat (length qs);
  asks_some : qs <> [];
  asks_ok : Forall question_ok qs
}.

(** *** Facts: the labels *)

Lemma name_text_cons l labels : name_text (l :: labels) = (lenZ l :: l) ++ name_text labels.
Proof. unfold name_text. cbn [map concat]. rewrite <- app_assoc. reflexivity. Qed.

Lemma label_mask n : 0 <= n <= 63 -> Z.land n 192 = 0.
Proof.
  intros Hn. pose proof (PlainInet.all_bytes (fun n => (64 <=? n) || (Z.land n 192 =? 0)) ltac:(vm_compute; reflexivity) n) as Ha.
  assert (Hb : byte_ok n) by (unfold byte_ok; lia). specialize (Ha Hb). cbn beta in Ha. lia.
Qed.

Lemma skip_labels_total fuel pre s : bytes_ok s -> (length s < fuel)%nat ->
  exists r, skip_labels fuel (pre ++ s) (lenZ pre) = Done r /\
    forall e, r = Some e -> exists labels rest, s = name_text labels ++ rest /\ Forall label_ok labels /\ e = lenZ pre + lenZ (name_text labels).
Proof.
  revert pre s. induction fuel as [|fuel IH]; intros pre s Hs Hf; [lia|]. cbn [skip_labels]. rewrite lenZ_app. pose proof (lenZ_nonneg s).
  destruct (lenZ pre >=? lenZ pre + lenZ s) eqn:E; [exists None; split; [reflexivity|discriminate]|].
  destruct s as [|l s]; [rewrite lenZ_nil in E; lia|]. rewrite rd_mid by reflexivity. cbn [mbind outcome_bind].
  apply Forall_cons_1 in Hs as [Hl Hs]. destruct (l =? 0) eqn:E0.
  { apply Z.eqb_eq in E0. subst l. eexists. split; [reflexivity|]. intros e [= <-]. exists [], s. split_and!; [reflexivity|constructor|reflexivity]. }
  destruct (_ || _ || _) eqn:Eb; [exists None; split; [reflexivity|discriminate]|].
  rewrite !orb_false_iff in Eb. destruct Eb as [[_ E63] El]. rewrite lenZ_cons in El. unfold byte_ok in Hl.
  set (label := take (Z.to_nat l) s). set (s' := drop (Z.to_nat l) s).
  assert (Hlabel : lenZ label = l) by (unfold label, lenZ in *; rewrite length_take; lia).
  assert (Es : s = label ++ s') by (symmetry; apply take_drop).
  replace (pre ++ l :: s) with ((pre ++ l :: label) ++ s') by (rewrite <- app_assoc; cbn; congruence).
  replace (lenZ pre + 1 + l) with (lenZ (pre ++ l :: label)) by (rewrite lenZ_app, lenZ_cons; lia).
  destruct (IH (pre ++ l :: label) s') as (r & Er & Hr).
  { rewrite Es in Hs. apply Forall_app in Hs as [_ Hs]. exact Hs. }
  { unfold s'. rewrite length_drop. cbn [length] in Hf. lia. }
  exists r. split; [exact Er|]. intros e Ee. destruct (Hr e Ee) as (labels & rest & Et & Hok & He).
  exists (label :: labels), rest. rewrite name_text_cons, Hlabel. split_and!.
  - rewrite Es, Et. cbn [app]. rewrite <- app_assoc. reflexivity.
  - constructor; [unfold label_ok; lia|exact Hok].
  - rewrite He, !lenZ_app, !lenZ_cons. lia.
Qed.

Lemma skip_labels_name fuel pre labels rest : Forall label_ok labels -> (length labels < fuel)%nat ->
  skip_labels fuel (pre ++ name_text labels ++ rest) (lenZ pre) = Done (Some (lenZ pre + lenZ (name_text labels))).
Proof.
  revert pre fuel. induction labels as [|l labels IH]; intros pre [|fuel] Hok Hf; try (cbn in Hf; lia); cbn [skip_labels].
  - change (name_text [] ++ rest) with (0 :: rest). rewrite lenZ_app, lenZ_cons. pose proof (lenZ_nonneg rest).
    destruct (_ >=? _) eqn:E; [lia|]. rewrite rd_mid by reflexivity. reflexivity.
  - apply Forall_cons_1 in Hok as [Hl Hok]. unfold label_ok in Hl. rewrite name_text_cons, <- !app_assoc. cbn [app].
    pose proof (lenZ_nonneg (name_text labels)). pose proof (lenZ_nonneg rest). rewrite lenZ_app, lenZ_cons, !lenZ_app.
    destruct (_ >=? _) eqn:E; [lia|]. rewrite rd_mid by reflexivity. cbn [mbind outcome_bind].
    rewrite (proj2 (Z.eqb_neq (lenZ l) 0)) by lia. rewrite label_mask by lia. destruct (_ || _ || _) eqn:Eb; [rewrite !orb_true_iff in Eb; cbn in Eb; lia|].
    replace (pre ++ lenZ l :: l ++ name_text labels ++ rest) with ((pre ++ lenZ l :: l) ++ name_text labels ++ rest) by (rewrite <- app_assoc; reflexivity).
    replace (lenZ pre + 1 + lenZ l) with (lenZ (pre ++ lenZ l :: l)) by (rewrite lenZ_app, lenZ_cons; lia).
    rewrite IH by (auto; cbn [length] in Hf; lia). do 2 f_equal. rewrite !lenZ_cons, !lenZ_app, lenZ_cons. lia.
Qed.

(** *** Facts: the questions *)

Lemma questions_text_cons q qs : questions_text (q :: qs) = question_text q ++ questions_text qs.
Proof. reflexivity. Qed.

Lemma name_length labels : (length labels < length (name_text labels))%nat.
Proof.
  induction labels as [|l labels IH]; [cbn; lia|]. rewrite name_text_cons. cbn [app length]. rewrite length_app. lia.
Qed.

Lemma question_length q : question_ok q -> 5 <= lenZ (question_text q).
Proof.
  intros [_ Ht]. unfold question_text. rewrite lenZ_app, Ht. unfold name_text. rewrite lenZ_app. pose proof (lenZ_nonneg (concat (map (fun l => lenZ l :: l) (q_labels q)))).
  change (lenZ [0]) with 1. lia.
Qed.

Lemma skip_questions_total n pre s : bytes_ok (pre ++ s) -> pre <> [] ->
  exists e, skip_questions n (pre ++ s) (lenZ pre) = Done e /\
    (e <> 0 -> exists qs rest, s = questions_text qs ++ rest /\ Forall question_ok qs /\ length qs = n /\ e = lenZ pre + lenZ (questions_text qs)).
Proof.
  revert pre s. induction n as [|n IH]; intros pre s Hb Hne; cbn [skip_questions].
  { eexists. split; [reflexivity|]. intros _. exists [], s. split_and!; [reflexivity|constructor|reflexivity|]. change (questions_text []) with (@nil Z). rewrite lenZ_nil. lia. }
  pose proof (proj2 (proj1 (Forall_app _ _ _) Hb)) as Hs.
  destruct (skip_labels_total (S (length (pre ++ s))) pre s Hs) as (r & -> & Hr); [rewrite length_app; lia|]. cbn [mbind outcome_bind].
  destruct r as [e|]; [|exists 0; split; [reflexivity|congruence]]. destruct (Hr e eq_refl) as (labels & rest & -> & Hl & ->).
  rewrite !lenZ_app. destruct (_ <? 4) eqn:E4; [exists 0; split; [reflexivity|congruence]|].
  set (tail4 := take 4 rest). assert (Et : rest = tail4 ++ drop 4 rest) by (symmetry; apply take_drop).
  assert (Hlen : lenZ tail4 = 4) by (unfold tail4, lenZ in *; rewrite length_take; lia).
  set (q := mk_question labels tail4). assert (Hq : question_ok q) by (split; [exact Hl|exact Hlen]).
  replace (pre ++ name_text labels ++ rest) with ((pre ++ question_text q) ++ drop 4 rest) in *
    by (unfold question_text, q; cbn [q_labels q_type_class]; rewrite Et at 2; rewrite <- !app_assoc; reflexivity).
  replace (lenZ pre + lenZ (name_text labels) + 4) with (lenZ (pre ++ question_text q)) by (unfold question_text, q; cbn [q_labels q_type_class]; rewrite !lenZ_app; lia).
  destruct (IH (pre ++ question_text q) (drop 4 rest) Hb) as (e & -> & He); [intros Heq; apply app_eq_nil in Heq as [? _]; contradiction|].
  exists e. split; [reflexivity|]. intros Hne0. destruct (He Hne0) as (qs & rest' & Er & Hqs & Hn & ->).
  exists (q :: qs), rest'. rewrite questions_text_cons. split_and!; [|constructor; assumption|cbn; lia|rewrite !lenZ_app; lia].
  rewrite Et at 1. rewrite Er. unfold question_text, q. cbn [q_labels q_type_class]. rewrite <- !app_assoc. reflexivity.
Qed.

Lemma skip_questions_text qs pre rest : Forall question_ok qs ->
  skip_questions (length qs) (pre ++ questions_text qs ++ rest) (lenZ pre) = Done (lenZ pre + lenZ (questions_text qs)).
Proof.
  intros Hqs. revert pre. induction Hqs as [|q qs Hq Hqs IH]; intros pre; cbn [length skip_questions].
  { change (questions_text []) with (@nil Z). rewrite lenZ_nil. f_equal. lia. }
  rewrite questions_text_cons. unfold question_text. destruct Hq as [Hl Ht]. rewrite <- !app_assoc.
  rewrite skip_labels_name; [|exact Hl|]. 2:{ rewrite !length_app. pose proof (name_length (q_labels q)). lia. }
  cbn [mbind outcome_bind]. rewrite !lenZ_app. pose proof (lenZ_nonneg (questions_text qs)). pose proof (lenZ_nonneg rest).
  destruct (_ <? 4) eqn:E; [lia|].
  replace (pre ++ name_text (q_labels q) ++ q_type_class q ++ questions_text qs ++ rest)
    with ((pre ++ name_text (q_labels q) ++ q_type_class q) ++ questions_text qs ++ rest) by (rewrite <- !app_assoc; reflexivity).
  replace (lenZ pre + lenZ (name_text (q_labels q)) + 4) with (lenZ (pre ++ name_text (q_labels q) ++ q_type_class q)) by (rewrite !lenZ_app; lia).
  rewrite IH. f_equal. rewrite !lenZ_app. lia.
Qed.

(** The end of the questions is where they end. *)
Lemma question_end_total message : bytes_ok message ->
  exists e, ch_dns_question_end (Some message) = Done e /\
    (e <> 0 -> exists header qs rest, asks message header qs rest /\ e = 12 + lenZ (questions_text qs)).
Proof.
  intros Hb. unfold ch_dns_question_end, CH_DNS_MIN_MESSAGE. destruct (lenZ message <? 12) eqn:El; [exists 0; split; [reflexivity|congruence]|].
  rewrite !rd_Done by lia. cbn [mbind outcome_bind]. destruct (_ =? 0) eqn:Ec; [exists 0; split; [reflexivity|congruence]|].
  set (header := take 12 message). set (s := drop 12 message). assert (Em : message = header ++ s) by (symmetry; apply take_drop).
  assert (Hh : lenZ header = 12) by (unfold header, lenZ in *; rewrite length_take; lia).
  assert (Hcount : question_count header = byte_at message 4 * 256 + byte_at message 5).
  { unfold question_count. rewrite Em, !byte_at_app_l by lia. reflexivity. }
  pose proof (byte_at_ok message 4 Hb). pose proof (byte_at_ok message 5 Hb). unfold byte_ok in *.
  pose proof (skip_questions_total (Z.to_nat (byte_at message 4 * 256 + byte_at message 5)) header s) as Hskip.
  rewrite <- Em, Hh in Hskip. destruct (Hskip Hb) as (e & -> & He); [intros Hn; rewrite Hn in Hh; discriminate|].
  exists e. split; [reflexivity|]. intros Hne. destruct (He Hne) as (qs & rest & Es & Hqs & Hn & ->). exists header, qs, rest.
  split; [|lia]. constructor; [rewrite <- Es; exact Em|exact Hh|lia| |exact Hqs]. intros ->. cbn in Hn. lia.
Qed.

Lemma question_end_asks message header qs rest : asks message header qs rest -> ch_dns_question_end (Some message) = Done (12 + lenZ (questions_text qs)).
Proof.
  intros [-> Hh Hc Hs Hok]. unfold ch_dns_question_end, CH_DNS_MIN_MESSAGE. rewrite !lenZ_app, Hh.
  pose proof (lenZ_nonneg (questions_text qs)). pose proof (lenZ_nonneg rest). destruct (_ <? 12) eqn:E; [lia|].
  rewrite !rd_Done by (rewrite !lenZ_app; lia). cbn [mbind outcome_bind]. rewrite !byte_at_app_l by lia. fold (question_count header). rewrite Hc.
  destruct qs as [|q qs]; [contradiction|]. rewrite (proj2 (Z.eqb_neq _ 0)) by (cbn [length]; lia). rewrite Nat2Z.id, <- Hh.
  apply skip_questions_text, Hok.
Qed.

(** The text of the questions determines them. *)
Lemma name_text_inj l1 l2 r1 r2 : Forall label_ok l1 -> Forall label_ok l2 -> name_text l1 ++ r1 = name_text l2 ++ r2 -> l1 = l2 /\ r1 = r2.
Proof.
  intros Hl. revert l2. induction Hl as [|a l1 Ha Hl IH]; intros l2 H2; destruct H2 as [|b l2 Hb H2].
  - cbn. intros [= ->]. auto.
  - rewrite name_text_cons. cbn. intros [= E _]. unfold label_ok in Hb. lia.
  - rewrite name_text_cons. cbn. intros [= E _]. unfold label_ok in Ha. lia.
  - rewrite !name_text_cons, <- !app_assoc. cbn [app]. intros [= El E].
    assert (a = b) as ->.
    { apply (f_equal (take (length a))) in E. rewrite take_app_length in E. unfold lenZ in El. replace (length a) with (length b) in E by lia.
      rewrite take_app_length in E. exact E. }
    apply app_inv_head in E. destruct (IH l2 H2 E) as [-> ->]. auto.
Qed.

Lemma question_text_inj q1 q2 r1 r2 : question_ok q1 -> question_ok q2 -> question_text q1 ++ r1 = question_text q2 ++ r2 -> q1 = q2 /\ r1 = r2.
Proof.
  intros [Hl1 Ht1] [Hl2 Ht2]. destruct q1 as [l1 t1], q2 as [l2 t2]. unfold question_text. cbn [q_labels q_type_class] in *. rewrite <- !app_assoc. intros E.
  apply name_text_inj in E as [-> E]; [|assumption..]. assert (t1 = t2) as ->; [|apply app_inv_head in E; auto].
  apply (f_equal (take 4)) in E. unfold lenZ in *. rewrite !take_app_le, !take_ge in E by lia. exact E.
Qed.

Lemma questions_text_inj qs1 qs2 : Forall question_ok qs1 -> Forall question_ok qs2 -> questions_text qs1 = questions_text qs2 -> qs1 = qs2.
Proof.
  intros H1. revert qs2. induction H1 as [|q1 qs1 Hq1 H1 IH]; intros qs2 H2; destruct H2 as [|q2 qs2 Hq2 H2]; [reflexivity|..].
  - rewrite questions_text_cons. change (questions_text []) with (@nil Z). intros E. symmetry in E. apply app_eq_nil in E as [E _].
    pose proof (question_length q2 Hq2) as Hn. rewrite E, lenZ_nil in Hn. lia.
  - rewrite questions_text_cons. change (questions_text []) with (@nil Z). intros E. apply app_eq_nil in E as [E _].
    pose proof (question_length q1 Hq1) as Hn. rewrite E, lenZ_nil in Hn. lia.
  - rewrite !questions_text_cons. intros E. apply question_text_inj in E as [-> E]; [|assumption..]. f_equal. apply IH; assumption.
Qed.

(** ** Responses *)

(** The response has the transaction ID and the questions of the query. *)
Definition answers (query response : bytes) : Prop :=
  exists hq qs rq hr rr, asks query hq qs rq /\ asks response hr qs rr /\ take 2 hq = take 2 hr.

Lemma header_shape (h : bytes) : lenZ h = 12 -> exists a b c d e f rest, h = a :: b :: c :: d :: e :: f :: rest /\ lenZ rest = 6.
Proof.
  intros Hh. do 6 (destruct h as [|? h]; [exfalso; rewrite ?lenZ_cons, lenZ_nil in Hh; lia|]). exists z, z0, z1, z2, z3, z4, h. split; [reflexivity|].
  rewrite !lenZ_cons in Hh. lia.
Qed.

Lemma validate_total query response : bytes_ok query -> bytes_ok response ->
  (exists e, ch_dns_validate_response query (Some response) = Raise e) \/
  ch_dns_validate_response query (Some response) = Done tt /\ answers query response.
Proof.
  intros Hq Hr. unfold ch_dns_validate_response. destruct (question_end_total query Hq) as (e & -> & He). cbn [mbind outcome_bind].
  destruct (e =? 0) eqn:E0; [left; eexists; reflexivity|]. destruct (He ltac:(lia)) as (hq & qs & rq & Hasks & ->).
  unfold CH_DNS_MIN_MESSAGE. destruct (lenZ response <? 12) eqn:El; [left; eexists; reflexivity|].
  assert (Hlq : 12 <= lenZ query) by (rewrite (asks_text _ _ _ _ Hasks), lenZ_app, (asks_header _ _ _ _ Hasks); pose proof (lenZ_nonneg (questions_text qs ++ rq)); lia).
  rewrite !rd_Done by lia. cbn [mbind outcome_bind]. destruct (_ || _) eqn:Eid; [left; eexists; reflexivity|].
  destruct (question_end_total response Hr) as (e & -> & He'). cbn [mbind outcome_bind].
  destruct (e =? 0) eqn:E0'; [left; eexists; reflexivity|]. destruct (He' ltac:(lia)) as (hr & qs' & rr & Hasks' & ->).
  destruct (negb (12 + _ - 12 =? _)) eqn:Elen; [left; eexists; reflexivity|]. apply negb_false_iff, Z.eqb_eq in Elen.
  pose proof (asks_text _ _ _ _ Hasks) as Tq. pose proof (asks_text _ _ _ _ Hasks') as Tr.
  rewrite (f_equal (fun m => rds m 12 (12 + lenZ (questions_text qs) - 12)) Tq), (f_equal (fun m => rds m 12 (12 + lenZ (questions_text qs) - 12)) Tr).
  rewrite (rds_mid hq (questions_text qs) rq), (rds_mid hr (questions_text qs') rr)
    by (rewrite ?(asks_header _ _ _ _ Hasks), ?(asks_header _ _ _ _ Hasks'); lia). cbn [mbind outcome_bind].
  destruct (beq _ _) eqn:Eb; [|left; eexists; reflexivity]. right. split; [reflexivity|]. apply beq_true in Eb.
  apply questions_text_inj in Eb; [|apply (asks_ok _ _ _ _ Hasks)|apply (asks_ok _ _ _ _ Hasks')]. subst qs'.
  exists hq, qs, rq, hr, rr. split; [exact Hasks|]. split; [exact Hasks'|].
  apply orb_false_iff in Eid as [E1 E2]. apply negb_false_iff, Z.eqb_eq in E1, E2.
  destruct (header_shape hq (asks_header _ _ _ _ Hasks)) as (a & b & ? & ? & ? & ? & ? & -> & _).
  destruct (header_shape hr (asks_header _ _ _ _ Hasks')) as (a' & b' & ? & ? & ? & ? & ? & -> & _).
  rewrite Tq, Tr in E1, E2. change (a = a') in E1. change (b = b') in E2. subst a b. reflexivity.
Qed.

Lemma validate_answers query response : answers query response -> ch_dns_validate_response query (Some response) = Done tt.
Proof.
  intros (hq & qs & rq & hr & rr & Hq & Hr & Hid). unfold ch_dns_validate_response, CH_DNS_MIN_MESSAGE.
  rewrite (question_end_asks _ _ _ _ Hq). cbn [mbind outcome_bind]. pose proof (lenZ_nonneg (questions_text qs)).
  rewrite (proj2 (Z.eqb_neq _ 0)) by lia. rewrite (question_end_asks _ _ _ _ Hr). cbn [mbind outcome_bind].
  pose proof (asks_text _ _ _ _ Hq) as Tq. pose proof (asks_text _ _ _ _ Hr) as Tr. pose proof (asks_header _ _ _ _ Hq) as Lq. pose proof (asks_header _ _ _ _ Hr) as Lr.
  pose proof (lenZ_nonneg (questions_text qs ++ rq)). pose proof (lenZ_nonneg (questions_text qs ++ rr)).
  rewrite (proj2 (Z.ltb_ge (lenZ response) 12)) by (rewrite Tr, lenZ_app; lia).
  rewrite !rd_Done by (rewrite ?Tq, ?Tr, lenZ_app; lia). cbn [mbind outcome_bind].
  replace (byte_at query 0 =? byte_at response 0) with true. 2:{ symmetry. apply Z.eqb_eq. rewrite Tq, Tr, !byte_at_app_l by lia.
    apply (f_equal (fun l => byte_at l 0)) in Hid. destruct (header_shape hq Lq) as (? & ? & ? & ? & ? & ? & ? & -> & _).
    destruct (header_shape hr Lr) as (? & ? & ? & ? & ? & ? & ? & -> & _). exact Hid. }
  replace (byte_at query 1 =? byte_at response 1) with true. 2:{ symmetry. apply Z.eqb_eq. rewrite Tq, Tr, !byte_at_app_l by lia.
    apply (f_equal (fun l => byte_at l 1)) in Hid. destruct (header_shape hq Lq) as (? & ? & ? & ? & ? & ? & ? & -> & _).
    destruct (header_shape hr Lr) as (? & ? & ? & ? & ? & ? & ? & -> & _). exact Hid. }
  cbn [negb orb]. rewrite (proj2 (Z.eqb_neq _ 0)) by lia. rewrite Z.eqb_refl. cbn [negb].
  rewrite (f_equal (fun m => rds m 12 (12 + lenZ (questions_text qs) - 12)) Tq), (f_equal (fun m => rds m 12 (12 + lenZ (questions_text qs) - 12)) Tr).
  rewrite (rds_mid hq (questions_text qs) rq), (rds_mid hr (questions_text qs) rr) by lia. cbn [mbind outcome_bind]. rewrite beq_refl. reflexivity.
Qed.

(** The header of a failure response: the ID and the questions of the query,
    a response, the code 2, and no record. *)
Definition servfail_header (h : bytes) : bytes :=
  [byte_at h 0; byte_at h 1; Z.lor (byte_at h 2) 128; u8 (Z.lor (Z.land (byte_at h 3) 240) 2); byte_at h 4; byte_at h 5; 0; 0; 0; 0; 0; 0].

Lemma servfail_text query header qs rest : asks query header qs rest ->
  ch_dns_servfail query = Done (servfail_header header ++ questions_text qs).
Proof.
  intros Ha. pose proof (asks_text _ _ _ _ Ha) as Tq. pose proof (asks_header _ _ _ _ Ha) as Lh. unfold ch_dns_servfail, CH_DNS_MIN_MESSAGE.
  pose proof (lenZ_nonneg (questions_text qs)). rewrite (question_end_asks _ _ _ _ Ha). cbn [mbind outcome_bind].
  rewrite (proj2 (Z.ltb_ge (lenZ query) 12)) by (rewrite Tq, lenZ_app; pose proof (lenZ_nonneg (questions_text qs ++ rest)); lia).
  rewrite (proj2 (Z.eqb_neq _ 0)) by lia. rewrite Tq, app_assoc.
  rewrite (rds_mid [] (header ++ questions_text qs) rest) by (rewrite ?lenZ_app; lia || reflexivity). cbn [mbind outcome_bind].
  destruct (header_shape header Lh) as (a & b & c & d & e & f & r & -> & Hr).
  do 6 (destruct r as [|? r]; [exfalso; rewrite ?lenZ_cons, lenZ_nil in Hr; lia|]). destruct r as [|? r]; [|rewrite !lenZ_cons in Hr; pose proof (lenZ_nonneg r); lia].
  set (t := questions_text qs). pose proof (lenZ_nonneg t) as Ht. cbn [app].
  match goal with |- context [@rd ?E ?l 2] => change (@rd E l 2) with (@Done E Z c) end. cbn [mbind outcome_bind].
  rewrite wr_Done by (rewrite ?lenZ_cons, ?lenZ_nil; lia). cbn [mbind outcome_bind].
  match goal with |- context [put ?l 2 ?v] => change (put l 2 v) with (a :: b :: Z.lor c 128 :: d :: e :: f :: z :: z0 :: z1 :: z2 :: z3 :: z4 :: t) end.
  match goal with |- context [@rd ?E ?l 3] => change (@rd E l 3) with (@Done E Z d) end. cbn [mbind outcome_bind].
  rewrite wr_Done by (rewrite ?lenZ_cons, ?lenZ_nil; lia). cbn [mbind outcome_bind].
  match goal with |- context [put ?l 3 ?v] =>
    change (put l 3 v) with (a :: b :: Z.lor c 128 :: u8 (Z.lor (Z.land d 240) 2) :: e :: f :: z :: z0 :: z1 :: z2 :: z3 :: z4 :: t) end.
  rewrite wr_Done by (rewrite ?lenZ_cons, ?lenZ_nil; lia). reflexivity.
Qed.

(** ** Facts: the transports *)

Lemma some_pair {A B} (a c : A) (b d : B) : Some (a, b) = Some (c, d) -> a = c /\ b = d.
Proof. intros E. injection E. auto. Qed.

Lemma read_exact_spec reads n t unread : ch_dns_ssl_read_exact reads n = Some (t, unread) ->
  length t = n /\ concat reads = t ++ concat unread /\ (Forall bytes_ok reads -> bytes_ok t /\ Forall bytes_ok unread).
Proof.
  revert n t. induction reads as [|chunk reads IH]; intros n t; cbn [ch_dns_ssl_read_exact].
  { destruct n; [|discriminate]. intros [= <- <-]. split_and!; auto. intros Hr. split; [constructor|exact Hr]. }
  destruct n as [|n]; [intros [= <- <-]; split_and!; auto; intros Hr; split; [constructor|exact Hr]|].
  destruct chunk as [|c chunk]; [discriminate|]. destruct (S n <? length (c :: chunk))%nat eqn:E.
  - intros Heq. apply some_pair in Heq as [<- <-]. apply Nat.ltb_lt in E. split_and!.
    + rewrite length_take. lia.
    + cbn [concat]. rewrite app_assoc, take_drop. reflexivity.
    + intros Hr. apply Forall_cons_1 in Hr as [Hc Hr]. split; [apply Forall_take, Hc|]. constructor; [apply Forall_drop, Hc|exact Hr].
  - apply Nat.ltb_ge in E. destruct (ch_dns_ssl_read_exact reads (S n - length (c :: chunk))) as [[rest u]|] eqn:Er; [|discriminate].
    cbn [mbind option_bind]. intros Heq. apply some_pair in Heq as [<- <-]. destruct (IH _ _ Er) as (Hl & Hc & Hb). split_and!.
    + rewrite length_app, Hl. lia.
    + cbn [concat]. rewrite Hc, app_assoc. reflexivity.
    + intros Hr. apply Forall_cons_1 in Hr as [Hx Hr]. destruct (Hb Hr) as [Ht Hu]. split; [apply Forall_app; auto|exact Hu].
Qed.

(** How the bytes arrive does not matter. *)
Lemma read_exact_enough reads n : Forall (fun chunk => chunk <> []) reads -> (n <= length (concat reads))%nat ->
  exists unread, ch_dns_ssl_read_exact reads n = Some (take n (concat reads), unread).
Proof.
  revert n. induction reads as [|chunk reads IH]; intros n Hne Hn; cbn [ch_dns_ssl_read_exact concat] in *.
  { destruct n; [|cbn in Hn; lia]. eauto. }
  apply Forall_cons_1 in Hne as [Hc Hne]. destruct n as [|n]; [eauto|]. destruct chunk as [|c chunk]; [contradiction|].
  destruct (S n <? length (c :: chunk))%nat eqn:E.
  - apply Nat.ltb_lt in E. rewrite take_app_le by lia. eauto.
  - apply Nat.ltb_ge in E. rewrite length_app in Hn. destruct (IH (S n - length (c :: chunk))%nat Hne) as [u ->]; [lia|].
    cbn [mbind option_bind]. exists u. rewrite take_app_ge by lia. reflexivity.
Qed.

Lemma curl_write_spec chunks kept r overflow : ch_dns_curl_write chunks kept = (r, overflow) -> lenZ kept <= CH_DNS_MAX_MESSAGE ->
  bytes_ok kept -> Forall bytes_ok chunks -> lenZ r <= CH_DNS_MAX_MESSAGE /\ bytes_ok r.
Proof.
  revert kept. induction chunks as [|chunk chunks IH]; intros kept; cbn [ch_dns_curl_write]; [intros [= <- _]; auto|].
  destruct (lenZ chunk >? _) eqn:E; [intros [= <- _]; auto|]. intros Er Hk Hb Hc. apply Forall_cons_1 in Hc as [Hx Hc].
  apply (IH _ Er); [rewrite lenZ_app; lia|apply Forall_app; auto|exact Hc].
Qed.

(** What the libraries did is a result, on bytes. *)
Record session_ok (s : session) : Prop := {
  ok_dot_dial : dot_dial (on_tls s) <> Fault;
  ok_dot_reads : Forall bytes_ok (dot_reads (on_tls s));
  ok_doh_setup : doh_setup (on_https s) <> Fault;
  ok_doh_socket : doh_socket (on_https s) <> Fault;
  ok_doh_chunks : Forall bytes_ok (doh_chunks (on_https s));
  ok_doq_connect : doq_connect (on_quic s) <> Fault;
  ok_doq_write : doq_write (on_quic s) <> Fault;
  ok_doq_reads : Forall bytes_ok (doq_reads (on_quic s))
}.

(** An error, or an answer that fits the length field of a stream. *)
Definition fails_or_answers (query : bytes) (r : result bytes) : Prop :=
  (exists e, r = Raise e) \/ exists response, r = Done response /\ answers query response /\ lenZ response <= CH_DNS_MAX_MESSAGE.

Lemma fails_fail query c m : fails_or_answers query (fail c m).
Proof. left. eexists. reflexivity. Qed.

Lemma fails_bind {A} query (m : result A) (k : A -> result bytes) :
  m <> Fault -> (forall a, m = Done a -> fails_or_answers query (k a)) -> fails_or_answers query (m ≫= k).
Proof. intros Hm Hk. destruct m as [a|e|]; [exact (Hk a eq_refl)|left; exists e; reflexivity|contradiction]. Qed.

Lemma validated_answers query response : bytes_ok query -> bytes_ok response -> lenZ response <= CH_DNS_MAX_MESSAGE ->
  fails_or_answers query (ch_dns_validate_response query (Some response);; Done response).
Proof.
  intros Hq Hr Hl. destruct (validate_total query response Hq Hr) as [[e ->]|[-> Ha]]; [left; exists e; reflexivity|].
  right. exists response. auto.
Qed.

(** The two bytes of the length, which are what a message is read with. *)
Lemma length_field header : length header = 2%nat -> bytes_ok header ->
  exists hi lo, @rd ch_error header 0 = Done hi /\ @rd ch_error header 1 = Done lo /\ 0 <= hi * 256 + lo <= CH_DNS_MAX_MESSAGE.
Proof.
  intros Hl Hb. destruct header as [|hi [|lo [|]]]; try discriminate. exists hi, lo. split; [reflexivity|]. split; [reflexivity|].
  apply Forall_cons_1 in Hb as [H1 Hb]. apply Forall_cons_1 in Hb as [H2 _]. unfold byte_ok in *. unfold CH_DNS_MAX_MESSAGE. lia.
Qed.

Lemma dot_answers options upstream query s : bytes_ok query -> session_ok s ->
  fails_or_answers query (ch_dns_exchange_dot options upstream query (on_tls s)).
Proof.
  intros Hq [Hd Hr _ _ _ _ _ _]. unfold ch_dns_exchange_dot. apply fails_bind; [exact Hd|]. intros _ _.
  repeat match goal with |- fails_or_answers _ (if ?b then _ else _) => destruct b; [apply fails_fail|] end.
  match goal with |- context [match ?m with Some _ => _ | None => _ end] => destruct m as [[header reads]|] eqn:Ex; [|apply fails_fail] end.
  destruct (ch_dns_ssl_write_all _ _) as [writes|]; [|discriminate]. cbn [mbind option_bind] in Ex.
  destruct (ch_dns_ssl_write_all _ _); [|discriminate]. cbn [mbind option_bind] in Ex.
  destruct (read_exact_spec _ _ _ _ Ex) as (Hl & _ & Hb). destruct (Hb Hr) as [Hh Hr'].
  destruct (length_field header Hl Hh) as (hi & lo & -> & -> & Hn). cbn [mbind outcome_bind].
  destruct (_ <? CH_DNS_MIN_MESSAGE); [apply fails_fail|].
  destruct (ch_dns_ssl_read_exact reads _) as [[response unread]|] eqn:Er; [|apply fails_fail].
  destruct (read_exact_spec _ _ _ _ Er) as (Hl' & _ & Hb'). destruct (Hb' Hr') as [Hresp _].
  apply validated_answers; [exact Hq|exact Hresp|]. unfold lenZ. lia.
Qed.

Lemma doh_answers query s : bytes_ok query -> session_ok s -> fails_or_answers query (ch_dns_exchange_doh query (on_https s)).
Proof.
  intros Hq [_ _ Hsetup Hsock Hc _ _ _]. unfold ch_dns_exchange_doh. apply fails_bind; [exact Hsetup|]. intros _ _.
  apply fails_bind; [exact Hsock|]. intros _ _. destruct (ch_dns_curl_write _ _) as [response overflow] eqn:Ew.
  destruct (curl_write_spec _ _ _ _ Ew) as [Hl Hb]; [rewrite lenZ_nil; discriminate|constructor|exact Hc|].
  destruct overflow; [apply fails_fail|]. destruct (doh_failure _); [apply fails_fail|]. destruct (_ || _); [apply fails_fail|].
  destruct (beq response []).
  - unfold ch_dns_validate_response. destruct (question_end_total query Hq) as (e & -> & _). cbn [mbind outcome_bind].
    destruct (e =? 0); (left; eexists; reflexivity).
  - apply validated_answers; assumption.
Qed.

(** Another ID in front of the same message. *)
Lemma asks_id x y x' y' m header qs rest : asks (x :: y :: m) header qs rest -> asks (x' :: y' :: m) (x' :: y' :: drop 2 header) qs rest.
Proof.
  intros [Ht Hh Hc Hs Hok]. destruct (header_shape header Hh) as (a & b & c & d & e & f & r & -> & Hr). injection Ht as _ _ Ht.
  change (drop 2 (a :: b :: c :: d :: e :: f :: r)) with (c :: d :: e :: f :: r).
  constructor; [rewrite Ht; reflexivity|rewrite !lenZ_cons, Hr; reflexivity|exact Hc|exact Hs|exact Hok].
Qed.

Lemma answers_id x y x' y' z w m response : answers (x :: y :: m) (z :: w :: response) -> answers (x' :: y' :: m) (x' :: y' :: response).
Proof.
  intros (hq & qs & rq & hr & rr & Hq & Hr & _). exists (x' :: y' :: drop 2 hq), qs, rq, (x' :: y' :: drop 2 hr), rr.
  split; [exact (asks_id _ _ _ _ _ _ _ _ Hq)|]. split; [exact (asks_id _ _ _ _ _ _ _ _ Hr)|]. reflexivity.
Qed.

Lemma answers_length query response : answers query response -> 12 <= lenZ query /\ 12 <= lenZ response.
Proof.
  intros (hq & qs & rq & hr & rr & [-> Lq _ _ _] & [-> Lr _ _ _] & _). rewrite !lenZ_app.
  pose proof (lenZ_nonneg (questions_text qs)). pose proof (lenZ_nonneg rq). pose proof (lenZ_nonneg rr). lia.
Qed.

Lemma two_bytes (m : bytes) : 12 <= lenZ m -> exists a b rest, m = a :: b :: rest.
Proof. unfold lenZ. intros Hm. destruct m as [|a [|b rest]]; cbn [length] in Hm; [lia..|]. eauto. Qed.

Lemma doq_answers quic options query s : bytes_ok query -> session_ok s ->
  fails_or_answers query (ch_dns_quic_exchange quic options query (on_quic s)).
Proof.
  intros Hq [_ _ _ _ _ Hconnect Hwrite Hr]. unfold ch_dns_quic_exchange. destruct (negb quic); [apply fails_fail|].
  destruct (_ || _) eqn:Eb; [apply fails_fail|]. apply orb_false_iff in Eb as [Eb Emax]. apply orb_false_iff in Eb as [_ Emin].
  destruct (two_bytes query ltac:(lia)) as (q0 & q1 & m & ->). pose proof (lenZ_nonneg m).
  unfold anonymous. rewrite wr_Done by (unfold lenZ; cbn [length]; lia). cbn [mbind outcome_bind].
  change (put (q0 :: q1 :: m) 0 [0; 0]) with (0 :: 0 :: m).
  apply fails_bind; [exact Hconnect|]. intros _ _. apply fails_bind; [exact Hwrite|]. intros _ _. unfold ch_dns_quic_read_exact.
  destruct (ch_dns_ssl_read_exact _ 2) as [[header reads]|] eqn:Ex; [|left; eexists; reflexivity]. cbn [mbind outcome_bind].
  destruct (read_exact_spec _ _ _ _ Ex) as (Hl & _ & Hb). destruct (Hb Hr) as [Hh Hr'].
  destruct (length_field header Hl Hh) as (hi & lo & -> & -> & Hn). cbn [mbind outcome_bind].
  destruct (hi * 256 + lo <? 12); [apply fails_fail|]. destruct (ch_dns_ssl_read_exact reads _) as [[response unread]|] eqn:Er; [|left; eexists; reflexivity].
  cbn [mbind outcome_bind]. destruct (read_exact_spec _ _ _ _ Er) as (Hl' & _ & Hb'). destruct (Hb' Hr') as [Hresp _].
  apply fails_bind; [unfold ch_dns_quic_expect_eof; destruct unread as [|[|]]; [destruct (doq_finished _)|..]; discriminate|]. intros _ _.
  assert (Hq0 : bytes_ok (0 :: 0 :: m)) by (apply Forall_cons_1 in Hq as [_ Hq]; apply Forall_cons_1 in Hq as [_ Hq]; repeat constructor; try exact Hq; unfold byte_ok; lia).
  destruct (validate_total _ response Hq0 Hresp) as [[e ->]|[-> Ha]]; [left; exists e; reflexivity|]. cbn [mbind outcome_bind].
  change (@rd ch_error (q0 :: q1 :: m) 0) with (@Done ch_error Z q0). change (@rd ch_error (q0 :: q1 :: m) 1) with (@Done ch_error Z q1). cbn [mbind outcome_bind].
  destruct (answers_length _ _ Ha) as [_ Hlen]. destruct (two_bytes response Hlen) as (r0 & r1 & m' & ->).
  rewrite wr_Done by (unfold lenZ; cbn [length]; lia). right. eexists. split; [reflexivity|].
  change (put (r0 :: r1 :: m') 0 [q0; q1]) with (q0 :: q1 :: m'). split; [exact (answers_id _ _ _ _ _ _ _ _ Ha)|].
  unfold lenZ in *. cbn [length] in *. lia.
Qed.

Lemma exchange_with_answers quic options upstream query s : bytes_ok query -> session_ok s ->
  fails_or_answers query (exchange_with quic options upstream query s).
Proof. intros Hq Hs. unfold exchange_with. destruct (u_kind upstream); [apply doh_answers|apply dot_answers|apply doq_answers]; assumption. Qed.

(** The first upstream that answers, or none. *)
Lemma exchange_loop_first quic options sessions l index query e : bytes_ok query -> (forall i, session_ok (sessions i)) ->
  (exists i upstream response, exchange_loop quic options sessions l index query e = Done (inl response) /\ l !! i = Some upstream /\
     exchange_with quic options upstream query (sessions (index + i)%nat) = Done response /\
     answers query response /\ lenZ response <= CH_DNS_MAX_MESSAGE /\
     forall j u, (j < i)%nat -> l !! j = Some u -> exists e, exchange_with quic options u query (sessions (index + j)%nat) = Raise e) \/
  (exists e', exchange_loop quic options sessions l index query e = Done (inr e') /\
     forall j u, l !! j = Some u -> exists e, exchange_with quic options u query (sessions (index + j)%nat) = Raise e).
Proof.
  intros Hq Hs. revert index e. induction l as [|u l IH]; intros index e; cbn [exchange_loop].
  { right. exists e. split; [reflexivity|]. intros j u Hj. discriminate. }
  destruct (exchange_with_answers quic options u query (sessions index) Hq (Hs index)) as [[e1 E1]|(response & E1 & Ha & Hl)]; rewrite E1.
  - destruct (IH (S index) e1) as [(i & up & response & El & Hi & Ew & Ha & Hl & Hj)|(e' & El & Hj)].
    + left. exists (S i), up, response. split_and!; auto; [rewrite <- plus_n_Sm; exact Ew|].
      intros [|j] v Hlt Hv; [injection Hv as <-; rewrite Nat.add_0_r; eauto|]. rewrite <- plus_n_Sm. apply (Hj j v); [lia|exact Hv].
    + right. exists e'. split; [exact El|]. intros [|j] v Hv; [injection Hv as <-; rewrite Nat.add_0_r; eauto|]. rewrite <- plus_n_Sm. apply (Hj j v Hv).
  - left. exists 0%nat, u, response. rewrite Nat.add_0_r. split_and!; auto. intros j v Hlt. lia.
Qed.

(** C13: What the DNS proxy returns answers the query.  Whatever the upstreams
    and the libraries do, a well-formed query is either answered by the first
    upstream whose exchange succeeds, all before it having failed, with a
    response of at most 65535 bytes that has the transaction ID and exactly the
    questions of the query (over QUIC too, where the ID is sent as zero); or
    every upstream failed, and the response is the query's own questions with a
    failure code and no record.  A malformed query is refused.  The code never
    reads outside a message. *)
Theorem exchange_answers_query quic proxy sessions query :
  bytes_ok query -> (forall i, session_ok (sessions i)) -> p_upstreams proxy <> [] ->
  (exists e, ch_dns_proxy_exchange quic proxy sessions query = Raise e /\
     (CH_DNS_MAX_MESSAGE < lenZ query \/ forall header qs rest, ~ asks query header qs rest)) \/
  (exists i upstream response, ch_dns_proxy_exchange quic proxy sessions query = Done (response, None) /\
     p_upstreams proxy !! i = Some upstream /\ exchange_with quic (p_options proxy) upstream query (sessions i) = Done response /\
     answers query response /\ lenZ response <= CH_DNS_MAX_MESSAGE /\
     forall j u, (j < i)%nat -> p_upstreams proxy !! j = Some u -> exists e, exchange_with quic (p_options proxy) u query (sessions j) = Raise e) \/
  (exists header qs rest error, asks query header qs rest /\
     ch_dns_proxy_exchange quic proxy sessions query = Done (servfail_header header ++ questions_text qs, Some error) /\
     forall j u, p_upstreams proxy !! j = Some u -> exists e, exchange_with quic (p_options proxy) u query (sessions j) = Raise e).
Proof.
  intros Hq Hs Hne. unfold ch_dns_proxy_exchange. destruct (question_end_total query Hq) as (e & Ee & He). rewrite Ee. cbn [mbind outcome_bind].
  destruct (_ || _) eqn:Eb.
  { left. eexists. split; [reflexivity|]. apply orb_true_iff in Eb as [Eb|Eb]; [left; lia|right]. intros header qs rest Ha.
    rewrite (question_end_asks _ _ _ _ Ha) in Ee. injection Ee as <-. pose proof (lenZ_nonneg (questions_text qs)). lia. }
  apply orb_false_iff in Eb as [_ E0]. destruct (He ltac:(lia)) as (header & qs & rest & Hasks & _). right.
  destruct (exchange_loop_first quic (p_options proxy) sessions (p_upstreams proxy) 0 query (mk_error CH_ERROR_IO []) Hq Hs)
    as [(i & up & response & El & Hi & Ew & Ha & Hl & Hj)|(e' & El & Hj)]; rewrite El; cbn [mbind outcome_bind].
  - left. exists i, up, response. split_and!; auto.
  - right. rewrite (servfail_text _ _ _ _ Hasks). cbn [mbind outcome_bind].
    destruct (list.last (p_upstreams proxy)) as [u|] eqn:El'; [|apply last_None in El'; contradiction].
    exists header, qs, rest. eexists. split_and!; [exact Hasks|reflexivity|exact Hj].
Qed.

(** ** Facts: the upstreams of a profile *)

Section LoadFacts.
Context {D : Type} `{Inet} `{LongDouble} (parse_url : bytes -> option curl_url) (quic_available : bool).

Definition network_of (kind : ch_dns_upstream_kind) : bytes := match kind with CH_DNS_UPSTREAM_DOQ => str "udp" | _ => str "tcp" end.

(** The endpoint is an address, or comes with addresses, or is reached through
    a chain, which resolves its name. *)
Definition resolved_elsewhere (options : ch_dns_proxy_options) (u : ch_dns_upstream) : Prop :=
  ch_dns_is_ip (u_host u) = true \/ u_bootstrap_ips u <> [] \/
  exists action, route options (network_of (u_kind u)) (u_target u) = Done action /\ action <> CH_DNS_ROUTE_DIRECT.

Lemma direct_bootstrap_done options upstream network u :
  ch_dns_validate_direct_bootstrap options upstream network = Done u -> network = network_of (u_kind upstream) -> u = upstream /\ resolved_elsewhere options u.
Proof.
  unfold ch_dns_validate_direct_bootstrap, resolved_elsewhere. intros E ->. destruct (ch_dns_is_ip _) eqn:Ei; cbn [orb] in E; [injection E as <-; auto|].
  case_bool_decide as Hb; cbn [negb] in E; [|injection E as <-; auto]. apply bind_Done_inv in E as (action & Ha & E).
  destruct action; try discriminate E; injection E as <-; (split; [reflexivity|]); right; right; eexists; (split; [exact Ha|discriminate]).
Qed.

Lemma prepare_address_done options kind message network url target server_name bootstrap u :
  prepare_address options kind message network url target server_name bootstrap = Done u -> network = network_of kind -> resolved_elsewhere options u.
Proof.
  unfold prepare_address. destruct (ch_dns_split_host_port target) as [[host port]|]; [|discriminate].
  intros E Hn. exact (proj2 (direct_bootstrap_done _ _ _ _ E Hn)).
Qed.

Lemma prepare_doh_done options url server_name bootstrap u :
  ch_dns_prepare_doh parse_url options url server_name bootstrap = Done u -> resolved_elsewhere options u.
Proof.
  unfold ch_dns_prepare_doh. destruct (parse_url url) as [parsed|]; [|discriminate]. destruct (url_scheme parsed) as [scheme|]; [|discriminate].
  destruct (url_host parsed) as [host|]; [|discriminate]. destruct (negb _); [discriminate|]. destruct (url_port parsed) as [port|]; [|discriminate].
  cbv zeta. intros E. apply bind_Done_inv in E as ([effective|] & _ & E); [|discriminate].
  exact (proj2 (direct_bootstrap_done _ _ _ _ E eq_refl)).
Qed.

Lemma upstream_load_done options table u :
  ch_dns_upstream_load (D := D) parse_url quic_available options table = Done u -> resolved_elsewhere options u.
Proof.
  unfold ch_dns_upstream_load. cbv zeta. intros E. apply bind_Done_inv in E as ([[protocol name url target server_name] free] & _ & E).
  apply bind_Done_inv in E as (bootstrap & _ & E).
  assert (Hn : forall n p v, resolved_elsewhere options v -> resolved_elsewhere options (upstream_named n p v)) by (intros n p v Hv; exact Hv).
  destruct (beq protocol (str "doh")); [|destruct (beq protocol (str "dot")); [|destruct (beq protocol (str "doq")); [|discriminate E]]];
    apply bind_Done_inv in E as (v & Ev & E); injection E as <-; apply Hn.
  - exact (prepare_doh_done _ _ _ _ _ Ev).
  - exact (prepare_address_done _ _ _ _ _ _ _ _ _ Ev eq_refl).
  - unfold ch_dns_prepare_doq in Ev. destruct (negb quic_available); [discriminate Ev|]. destruct (negb _); [discriminate Ev|].
    exact (prepare_address_done _ _ _ _ _ _ _ _ _ Ev eq_refl).
Qed.

Lemma load_upstreams_done options l us :
  load_upstreams (D := D) parse_url quic_available options l = Done us -> length us = length l /\ Forall (resolved_elsewhere options) us.
Proof.
  revert us. induction l as [|i l IH]; intros us; cbn [load_upstreams]; [intros E; injection E as <-; auto|].
  intros E. apply bind_Done_inv in E as (u & Eu & E). apply bind_Done_inv in E as (rest & Er & E). injection E as <-.
  destruct (IH rest Er) as [Hl Hf]. split; [cbn; congruence|]. constructor; [exact (upstream_load_done _ _ _ Eu)|exact Hf].
Qed.

(** The DNS proxy never needs the resolver of the system.  When a proxy is
    created for a profile, it has an upstream for each one of the profile and at
    least one, its timeout is positive and fits the type of the code, and every
    upstream is given by an IP address, or has bootstrap addresses, or is not
    dialled directly according to the route planner: a direct upstream that is
    only a name is refused, so that no query for it goes to the local
    resolver. *)
Theorem proxy_needs_no_local_resolver config profile_name options proxy :
  ch_dns_proxy_create (D := D) parse_url quic_available config profile_name options = Done (Some proxy) ->
  p_options proxy = options /\ p_upstreams proxy <> [] /\ 0 < p_timeout_milliseconds proxy <= 2 ^ 32 - 1 /\
  Forall (resolved_elsewhere options) (p_upstreams proxy).
Proof.
  unfold ch_dns_proxy_create. cbv zeta. intros E. destruct (if Config.empty profile_name then _ else _) as [profile|]; [|discriminate E].
  match type of E with (if ?b then _ else _) = _ => destruct b; [discriminate E|] end.
  apply bind_Done_inv in E as (ns & _ & E). destruct (ns <? 0) eqn:En; [discriminate E|].
  destruct (Config.items _) as [|i l]; [discriminate E|]. apply bind_Done_inv in E as (us & Eu & E). injection E as <-. cbn [p_options p_upstreams p_timeout_milliseconds].
  destruct (load_upstreams_done _ _ _ Eu) as [Hl Hf]. split_and!; auto.
  - intros ->. discriminate Hl.
  - destruct (ns >? 0) eqn:Ep; [|reflexivity]. destruct (_ >? 2 ^ 32 - 1) eqn:Em; [reflexivity|]. apply Z.div_str_pos. lia.
  - destruct (ns >? 0) eqn:Ep; [|discriminate]. destruct (_ >? 2 ^ 32 - 1) eqn:Em; lia.
Qed.

End LoadFacts.

(** ** Witnesses *)

Section Witnesses.
Import PlainInet PlainLongDouble.

(** A question for [a.example], a query and an answer. *)
Definition w_question : question := mk_question [str "a"; str "example"] [0; 1; 0; 1].
Definition w_query : bytes := [18; 52; 1; 0; 0; 1; 0; 0; 0; 0; 0; 0] ++ questions_text [w_question].
Definition w_answer (id : bytes) : bytes :=
  id ++ [129; 128; 0; 1; 0; 1; 0; 0; 0; 0] ++ questions_text [w_question] ++ [192; 12; 0; 1; 0; 1; 0; 0; 0; 60; 0; 4; 192; 0; 2; 1].

Definition framed (message : bytes) : list bytes := [take 1 (length_bytes (lenZ message)); drop 1 (length_bytes (lenZ message)) ++ message].

(** The first upstream answers another query, the second one this one. *)
Definition w_session (i : nat) : session :=
  mk_session (mk_dot (Done tt) true true true [2; 40] (framed (w_answer [7; 7])) [])
    (mk_doh (Done tt) (Done tt) [] None 404)
    (mk_doq (Done tt) (Done tt) (framed (w_answer [0; 0])) true ch_error_clear).

Definition w_options : ch_dns_proxy_options := mk_options (fun _ _ => Done CH_DNS_ROUTE_DIRECT) true false.

Definition w_upstream_table (protocol address : String.string) : Config.toml_table unit :=
  Config.mk_table [(str "protocol", Config.mk_raw (Some (str protocol)) None None None); (str "address", Config.mk_raw (Some (str address)) None None None);
                   (str "server_name", Config.mk_raw (Some (str "dns.example")) None None None)] [] [].

Definition w_dns_config : Config.ch_config (D := unit) :=
  Config.mk_config
    (Config.mk_table []
       [(str "profile", Config.mk_array [Config.item_tab
           (Config.mk_table [(str "name", Config.mk_raw (Some (str "home")) None None None)] []
              [(str "dns", Config.mk_table [(str "enabled", Config.mk_raw None (Some true) None None)]
                  [(str "upstream", Config.mk_array (map Config.item_tab
                      [w_upstream_table "dot" "192.0.2.1:853"; w_upstream_table "DoQ" "192.0.2.2:853"]))] [])])])] []) None [].

Abbreviation w_created := (ch_dns_proxy_create (D := unit) (fun _ => None) true w_dns_config None w_options).

Definition proxy_of (r : result (option ch_dns_proxy)) : ch_dns_proxy := match r with Done (Some p) => p | _ => mk_proxy w_options 0 [] end.

Lemma w_created_done : w_created = Done (Some (proxy_of w_created)).
Proof. vm_compute. reflexivity. Qed.

Lemma w_session_ok i : session_ok (w_session i).
Proof.
  assert (Hf : forall l, forallb bytes_okb l = true -> Forall bytes_ok l).
  { intros l Hl. apply List.Forall_forall. intros x Hx. rewrite forallb_forall in Hl. apply bytes_okb_ok, Hl, Hx. }
  constructor; try discriminate; apply Hf; vm_compute; reflexivity.
Qed.

Lemma exchange_answers_query_witness :
  answers w_query (w_answer [18; 52]) /\
  ch_dns_proxy_exchange true (proxy_of w_created) w_session w_query = Done (w_answer [18; 52], None).
Proof.
  assert (E : ch_dns_proxy_exchange true (proxy_of w_created) w_session w_query = Done (w_answer [18; 52], None)) by (vm_compute; reflexivity).
  destruct (exchange_answers_query true (proxy_of w_created) w_session w_query ltac:(apply bytes_okb_ok; vm_compute; reflexivity) w_session_ok
    ltac:(vm_compute; discriminate)) as [(e & Ee & _)|[(i & u & r & Er & _ & _ & Ha & _)|(h & qs & rest & e & _ & Ef & _)]].
  - rewrite E in Ee. discriminate Ee.
  - rewrite E in Er. injection Er as Er. split; [|exact E]. rewrite <- Er in Ha. exact Ha.
  - rewrite E in Ef. discriminate Ef.
Defined.

(** A query that nobody answers gets the failure code. *)
Example w_servfail :
  ch_dns_proxy_exchange false (proxy_of w_created) w_session w_query =
  Done ([18; 52; 129; 2; 0; 1; 0; 0; 0; 0; 0; 0] ++ questions_text [w_question],
        Some (ch_error_set CH_ERROR_UNSUPPORTED (str "doq:192.0.2.2: native DNS-over-QUIC requires OpenSSL 3.2 or later with QUIC enabled"))).
Proof. vm_compute. reflexivity. Qed.

(** curl returns the host of a URL with an IPv6 address in brackets: the target
    then has them twice. *)
Example w_double_brackets : ch_dns_join_host_port (str "[2606:1a40::11]") (str "443") = str "[[2606:1a40::11]]:443".
Proof. vm_compute. reflexivity. Qed.

End Witnesses.
End DnsClient.
