(* ===== verification/Crypto.v ===== *)
(** * The cryptography helper: [clib/src/crypto.c]

    Authenticated encryption over OpenSSL's contexts, and SHA-224.  The ciphers
    themselves belong to OpenSSL and are the class [Evp]; the digest is written
    in the repository, and is shown to be that of the standard. *)

From S2P Require Import Prelude CLib Sha256.

Module Crypto.
Import Sha256.

(** ** Authenticated encryption *)

Definition CNET_ERR_AUTH : Z := -1.
Definition CNET_ERR_INIT : Z := -3.

Definition INT_MAX : Z := 2 ^ 31 - 1.
Definition TAG_SIZE : nat := 16.
Definition NONCE_SIZE : nat := 12.

Inductive EVP_CIPHER : Type := aes_128_gcm | aes_256_gcm | chacha20_poly1305.

#[export] Instance EVP_CIPHER_eq_dec : EqDecision EVP_CIPHER.
Proof. solve_decision. Defined.

(** What the code relies on of OpenSSL: whether the provider offers a cipher
    and a context can be set up for it; the ciphertext and tag it produces for
    a key, a nonce, associated data and a text; and, reading, the text with the
    tag that it expects.  Each is as long as the text, a tag has 16 bytes, and
    reading inverts writing. *)
Class Evp : Type := {
  evp_cipher : EVP_CIPHER -> bool;
  evp_init : EVP_CIPHER -> bool;
  evp_seal : EVP_CIPHER -> bytes -> bytes -> bytes -> bytes -> bytes * bytes;
  evp_open : EVP_CIPHER -> bytes -> bytes -> bytes -> bytes -> bytes * bytes;
  seal_length c key nonce aad text : length (evp_seal c key nonce aad text).1 = length text;
  seal_tag c key nonce aad text : length (evp_seal c key nonce aad text).2 = TAG_SIZE;
  open_length c key nonce aad text : length (evp_open c key nonce aad text).1 = length text;
  open_seal c key nonce aad text :
    evp_open c key nonce aad (evp_seal c key nonce aad text).1 = (text, (evp_seal c key nonce aad text).2)
}.

Section Aead.
Context `{Evp}.

Definition cnet_aes256gcm_available : bool := evp_cipher aes_256_gcm.
Definition cnet_aes128gcm_available : bool := evp_cipher aes_128_gcm.

(** The ciphertext and the tag, or the code that is returned instead. *)
Definition cnet_aead_encrypt (cipher : EVP_CIPHER) (key nonce plaintext aad : bytes) : outcome Z (bytes * bytes) :=
  if negb (evp_cipher cipher) || (lenZ plaintext >? INT_MAX) || (lenZ aad >? INT_MAX) then Raise CNET_ERR_INIT
  else if evp_init cipher then Done (evp_seal cipher key nonce aad plaintext)
  else Raise CNET_ERR_INIT.

Definition cnet_aead_decrypt (cipher : EVP_CIPHER) (key nonce ciphertext aad tag : bytes) : outcome Z bytes :=
  if negb (evp_cipher cipher) || (lenZ ciphertext >? INT_MAX) || (lenZ aad >? INT_MAX) then Raise CNET_ERR_INIT
  else if evp_init cipher then
    let '(plaintext, expected) := evp_open cipher key nonce aad ciphertext in
    if beq tag expected then Done plaintext else Raise CNET_ERR_AUTH
  else Raise CNET_ERR_AUTH.

Definition cnet_aes128gcm_encrypt : bytes -> bytes -> bytes -> bytes -> outcome Z (bytes * bytes) :=
  cnet_aead_encrypt aes_128_gcm.
Definition cnet_aes128gcm_decrypt : bytes -> bytes -> bytes -> bytes -> bytes -> outcome Z bytes :=
  cnet_aead_decrypt aes_128_gcm.
Definition cnet_aes256gcm_encrypt : bytes -> bytes -> bytes -> bytes -> outcome Z (bytes * bytes) :=
  cnet_aead_encrypt aes_256_gcm.
Definition cnet_aes256gcm_decrypt : bytes -> bytes -> bytes -> bytes -> bytes -> outcome Z bytes :=
  cnet_aead_decrypt aes_256_gcm.
Definition cnet_chacha20poly1305_encrypt : bytes -> bytes -> bytes -> bytes -> outcome Z (bytes * bytes) :=
  cnet_aead_encrypt chacha20_poly1305.
Definition cnet_chacha20poly1305_decrypt : bytes -> bytes -> bytes -> bytes -> bytes -> outcome Z bytes :=
  cnet_aead_decrypt chacha20_poly1305.

(** *** Facts *)

Lemma encrypt_lengths c key nonce text aad ciphertext tag :
  cnet_aead_encrypt c key nonce text aad = Done (ciphertext, tag) -> length ciphertext = length text /\ length tag = TAG_SIZE.
Proof.
  unfold cnet_aead_encrypt. intros E. repeat case_if_in E; try discriminate.
  injection E as E. pose proof (seal_length c key nonce aad text) as H1. pose proof (seal_tag c key nonce aad text) as H2.
  rewrite E in H1, H2. auto.
Qed.

Lemma decrypt_length c key nonce text aad tag plaintext :
  cnet_aead_decrypt c key nonce text aad tag = Done plaintext -> length plaintext = length text.
Proof.
  unfold cnet_aead_decrypt. intros E. repeat case_if_in E; try discriminate.
  pose proof (open_length c key nonce aad text) as H1. destruct (evp_open c key nonce aad text) as [p t].
  destruct (beq tag t); [|discriminate]. injection E as <-. exact H1.
Qed.

(** What was encrypted decrypts. *)
Lemma decrypt_encrypt c key nonce text aad ciphertext tag :
  cnet_aead_encrypt c key nonce text aad = Done (ciphertext, tag) ->
  cnet_aead_decrypt c key nonce ciphertext aad tag = Done text.
Proof.
  intros E. pose proof (encrypt_lengths _ _ _ _ _ _ _ E) as [Hl _]. unfold cnet_aead_encrypt, cnet_aead_decrypt in *.
  unfold lenZ in *. rewrite Hl. case_if_in E; [discriminate|]. case_if_in E; [|discriminate].
  injection E as E. pose proof (open_seal c key nonce aad text) as Ho. rewrite E in Ho. cbn [fst snd] in Ho.
  rewrite Ho, beq_refl. reflexivity.
Qed.

(** No other tag is accepted. *)
Lemma decrypt_other_tag c key nonce text aad ciphertext tag tag' :
  cnet_aead_encrypt c key nonce text aad = Done (ciphertext, tag) -> tag' <> tag ->
  cnet_aead_decrypt c key nonce ciphertext aad tag' = Raise CNET_ERR_AUTH.
Proof.
  intros E Ht. pose proof (encrypt_lengths _ _ _ _ _ _ _ E) as [Hl _]. unfold cnet_aead_encrypt, cnet_aead_decrypt in *.
  unfold lenZ in *. rewrite Hl. case_if_in E; [discriminate|]. case_if_in E; [|discriminate].
  injection E as E. pose proof (open_seal c key nonce aad text) as Ho. rewrite E in Ho. cbn [fst snd] in Ho.
  rewrite Ho. rewrite (proj2 (beq_false tag' tag)) by assumption. reflexivity.
Qed.

End Aead.

(** ** SHA-224 *)

(** Four to a line, as in the source. *)
Definition K256 : list Z :=
  [0x428a2f98; 0x71374491; 0xb5c0fbcf; 0xe9b5dba5] ++
  [0x3956c25b; 0x59f111f1; 0x923f82a4; 0xab1c5ed5] ++
  [0xd807aa98; 0x12835b01; 0x243185be; 0x550c7dc3] ++
  [0x72be5d74; 0x80deb1fe; 0x9bdc06a7; 0xc19bf174] ++
  [0xe49b69c1; 0xefbe4786; 0x0fc19dc6; 0x240ca1cc] ++
  [0x2de92c6f; 0x4a7484aa; 0x5cb0a9dc; 0x76f988da] ++
  [0x983e5152; 0xa831c66d; 0xb00327c8; 0xbf597fc7] ++
  [0xc6e00bf3; 0xd5a79147; 0x06ca6351; 0x14292967] ++
  [0x27b70a85; 0x2e1b2138; 0x4d2c6dfc; 0x53380d13] ++
  [0x650a7354; 0x766a0abb; 0x81c2c92e; 0x92722c85] ++
  [0xa2bfe8a1; 0xa81a664b; 0xc24b8b70; 0xc76c51a3] ++
  [0xd192e819; 0xd6990624; 0xf40e3585; 0x106aa070] ++
  [0x19a4c116; 0x1e376c08; 0x2748774c; 0x34b0bcb5] ++
  [0x391c0cb3; 0x4ed8aa4a; 0x5b9cca4f; 0x682e6ff3] ++
  [0x748f82ee; 0x78a5636f; 0x84c87814; 0x8cc70208] ++
  [0x90befffa; 0xa4506ceb; 0xbef9a3f7; 0xc67178f2].

Definition H224 : list Z :=
  [0xc1059ed8; 0x367cd507; 0x3070dd17; 0xf70e5939; 0xffc00b31; 0x68581511; 0x64f98fa7; 0xbefa4fa4].

Definition ROTR (x n : Z) : Z := u32 (Z.lor (Z.shiftr x n) (Z.shiftl x (32 - n))).
Definition CH (x y z : Z) : Z := Z.lxor (Z.land x y) (Z.land (u32 (Z.lnot x)) z).
Definition MAJ (x y z : Z) : Z := Z.lxor (Z.lxor (Z.land x y) (Z.land x z)) (Z.land y z).
Definition EP0 (x : Z) : Z := Z.lxor (Z.lxor (ROTR x 2) (ROTR x 13)) (ROTR x 22).
Definition EP1 (x : Z) : Z := Z.lxor (Z.lxor (ROTR x 6) (ROTR x 11)) (ROTR x 25).
Definition SIG0 (x : Z) : Z := Z.lxor (Z.lxor (ROTR x 7) (ROTR x 18)) (Z.shiftr x 3).
Definition SIG1 (x : Z) : Z := Z.lxor (Z.lxor (ROTR x 17) (ROTR x 19)) (Z.shiftr x 10).

(** The first loop: the word [i] of the block. *)
Definition load_word (block : bytes) (i : Z) : Z :=
  Z.lor (Z.lor (Z.lor (Z.shiftl (byte_at block (i * 4)) 24) (Z.shiftl (byte_at block (i * 4 + 1)) 16))
           (Z.shiftl (byte_at block (i * 4 + 2)) 8)) (byte_at block (i * 4 + 3)).

(** The second loop, from the words before [i] on. *)
Fixpoint schedule (rounds : nat) (w : list Z) : list Z :=
  match rounds with
  | O => w
  | S rounds' =>
      let i := length w in
      schedule rounds' (w ++ [u32 (SIG1 (word_at w (i - 2)) + word_at w (i - 7) + SIG0 (word_at w (i - 15)) + word_at w (i - 16))])
  end.

Definition compress_round (v : working) (k w : Z) : working :=
  let '(mk_working a b c d e f g h) := v in
  let t1 := u32 (h + EP1 e + CH e f g + k + w) in
  let t2 := u32 (EP0 a + MAJ a b c) in
  mk_working (u32 (t1 + t2)) a b c (u32 (d + t1)) e f g.

Fixpoint compress_rounds (v : working) (k w : list Z) : working :=
  match k, w with
  | ki :: k', wi :: w' => compress_rounds (compress_round v ki wi) k' w'
  | _, _ => v
  end.

Definition sha256_compress (state : list Z) (block : bytes) : list Z :=
  let w := schedule 48 (map (load_word block) [0; 1; 2; 3; 4; 5; 6; 7; 8; 9; 10; 11; 12; 13; 14; 15]) in
  let s index := word_at state index in
  let v := compress_rounds (mk_working (s 0%nat) (s 1%nat) (s 2%nat) (s 3%nat) (s 4%nat) (s 5%nat) (s 6%nat) (s 7%nat)) K256 w in
  [u32 (s 0%nat + wa v); u32 (s 1%nat + wb v); u32 (s 2%nat + wc v); u32 (s 3%nat + wd v);
   u32 (s 4%nat + we v); u32 (s 5%nat + wf v); u32 (s 6%nat + wg v); u32 (s 7%nat + wh v)].

(** The loop over the whole blocks of the data. *)
Fixpoint compress_data (blocks : nat) (state : list Z) (data : bytes) : list Z :=
  match blocks with
  | O => state
  | S blocks' => compress_data blocks' (sha256_compress state (take 64 data)) (drop 64 data)
  end.

Definition cnet_sha224 (data : bytes) : bytes :=
  let bitlen := u64 (lenZ data * 8) in
  let blocks := lenZ data / 64 in
  let state := compress_data (Z.to_nat blocks) H224 data in
  let remaining := lenZ data mod 64 in
  let block := put (zeros 64) 0 (sub data (blocks * 64) remaining) in
  let block := put block remaining [128] in
  let '(state, block) := if remaining >=? 56 then (sha256_compress state block, zeros 64) else (state, block) in
  let block := put block 56
    [u8 (Z.shiftr bitlen 56); u8 (Z.shiftr bitlen 48); u8 (Z.shiftr bitlen 40); u8 (Z.shiftr bitlen 32);
     u8 (Z.shiftr bitlen 24); u8 (Z.shiftr bitlen 16); u8 (Z.shiftr bitlen 8); u8 bitlen] in
  let state := sha256_compress state block in
  concat (map (fun i => let s := word_at state i in
    [u8 (Z.shiftr s 24); u8 (Z.shiftr s 16); u8 (Z.shiftr s 8); u8 s]) [0; 1; 2; 3; 4; 5; 6]%nat).

(** SHA-224 of the standard: SHA-256 from another initial state, of which the
    last word is dropped. *)
Definition sha224 (message : bytes) : bytes :=
  let text := padded message in
  concat (map feed_store_be32 (take 7 (compress (length text / 64) H224 text))).

Example sha224_abc :
  hex_text (cnet_sha224 (str "abc")) = str "23097d223405d8228642a477bda255b32aadbce4bda0b3f7e36c9da7".
Proof. vm_compute. reflexivity. Qed.

Example sha224_two_blocks :
  hex_text (cnet_sha224 (str "abcdbcdecdefdefgefghfghighijhijkijkljklmklmnlmnomnopnopq"))
  = str "75388b16512776cc5dba5da1fd890150b0c6455cb4f58b1952522525".
Proof. vm_compute. reflexivity. Qed.

(** ** Facts *)

Lemma schedule_extends rounds w : schedule rounds w = extend_words rounds w.
Proof.
  revert w. induction rounds as [|n IH]; intros w; [reflexivity|]. cbn [schedule extend_words]. cbv zeta.
  rewrite IH. do 4 f_equal. unfold SIG0, SIG1, ROTR, feed_rotr32. lia.
Qed.

Lemma compress_rounds_are v k w : compress_rounds v k w = sha_rounds v k w.
Proof. reflexivity. Qed.

Lemma byte_at_drop (l : bytes) n i : 0 <= i -> byte_at (drop n l) i = byte_at l (Z.of_nat n + i).
Proof. intros Hi. unfold byte_at. rewrite lookup_drop. do 2 f_equal. lia. Qed.

Lemma load_words_are block :
  map (load_word block) [0; 1; 2; 3; 4; 5; 6; 7; 8; 9; 10; 11; 12; 13; 14; 15] = load_words 16 block.
Proof.
  cbn [load_words map]. unfold load_word, feed_load_be32. rewrite !drop_drop, !byte_at_drop by lia. reflexivity.
Qed.

(** The two copies of the compression function in the repository agree. *)
Lemma compress_transform state block : sha256_compress state block = feed_sha256_transform state block.
Proof.
  unfold sha256_compress, feed_sha256_transform. cbv zeta.
  rewrite load_words_are, schedule_extends, compress_rounds_are. reflexivity.
Qed.

Lemma compress_data_are n state data : compress_data n state data = compress n state data.
Proof.
  revert state data. induction n as [|n IH]; intros state data; [reflexivity|].
  cbn [compress_data compress]. rewrite IH, compress_transform. reflexivity.
Qed.

Lemma compress_prefix n state a b : length a = (64 * n)%nat -> compress n state (a ++ b) = compress n state a.
Proof. intros Ha. rewrite <- (Nat.add_0_r n) at 1. rewrite compress_app by exact Ha. reflexivity. Qed.

Lemma compress_words n state text : length state = 8%nat -> length (compress n state text) = 8%nat.
Proof. revert state text. induction n as [|n IH]; intros state text Hs; [exact Hs|]. cbn [compress]. apply IH. reflexivity. Qed.

(** The last block, or the last two, when the whole blocks are [full]. *)
Lemma sha224_tail full rest n :
  length full = (64 * n)%nat -> lenZ rest < 64 ->
  compress (length (padded (full ++ rest)) / 64) H224 (padded (full ++ rest)) =
  let state := compress n H224 full in
  let len8 := be64 (lenZ (full ++ rest) * 8) in
  if lenZ rest <=? 55 then feed_sha256_transform state (rest ++ [128] ++ zeros (55 - lenZ rest) ++ len8)
  else feed_sha256_transform (feed_sha256_transform state (rest ++ [128] ++ zeros (63 - lenZ rest))) (zeros 56 ++ len8).
Proof.
  intros Hf Hr. rewrite (padded_tail full rest n Hf Hr). cbv zeta. pose proof (lenZ_nonneg rest).
  set (len8 := be64 (lenZ (full ++ rest) * 8)). assert (Hl8 : length len8 = 8%nat) by reflexivity.
  destruct (lenZ rest <=? 55) eqn:E.
  - rewrite (compress_blocks n 1); [|exact Hf|rewrite !length_app, zeros_length, Hl8; unfold lenZ in *; cbn; lia].
    apply compress_one. rewrite !length_app, zeros_length, Hl8; unfold lenZ in *; cbn; lia.
  - assert (Hone : length (rest ++ [128] ++ zeros (63 - lenZ rest)) = 64%nat)
      by (rewrite !length_app, zeros_length; unfold lenZ in *; cbn; lia).
    rewrite app_assoc. rewrite (compress_blocks (n + 1) 1); [|rewrite length_app; lia|reflexivity].
    rewrite (compress_one _ (zeros 56 ++ len8)) by reflexivity.
    rewrite compress_app by exact Hf. rewrite compress_one by exact Hone. reflexivity.
Qed.

Lemma zeros_split a b : 0 <= a -> 0 <= b -> zeros (a + b) = zeros a ++ zeros b.
Proof. intros Ha Hb. unfold zeros. rewrite <- replicate_add. f_equal. lia. Qed.

(** Writing at a known offset. *)
Lemma put_at (a old v b : bytes) i : i = lenZ a -> length old = length v -> put (a ++ old ++ b) i v = a ++ v ++ b.
Proof.
  intros -> Ho. unfold put, lenZ. rewrite Nat2Z.id, take_app_length. f_equal. f_equal.
  rewrite app_assoc. apply drop_app_length'. rewrite length_app. lia.
Qed.

(** The block that carries the rest of the data. *)
Lemma rest_block rest :
  lenZ rest < 64 -> put (put (zeros 64) 0 rest) (lenZ rest) [128] = rest ++ [128] ++ zeros (63 - lenZ rest).
Proof.
  intros Hr. pose proof (lenZ_nonneg rest).
  assert (Hz : zeros 64 = [] ++ zeros (lenZ rest) ++ zeros 1 ++ zeros (63 - lenZ rest)).
  { rewrite app_nil_l, <- !zeros_split by lia. f_equal. lia. }
  rewrite Hz, (put_at [] (zeros (lenZ rest)) rest) by (rewrite ?zeros_length; unfold lenZ; cbn; lia).
  cbn [app]. apply (put_at rest (zeros 1) [128]); reflexivity.
Qed.

(** The last block, with the length. *)
Lemma last_block rest len8 :
  lenZ rest <= 55 -> length len8 = 8%nat ->
  put (rest ++ [128] ++ zeros (63 - lenZ rest)) 56 len8 = rest ++ [128] ++ zeros (55 - lenZ rest) ++ len8.
Proof.
  intros Hr H8. replace (63 - lenZ rest) with ((55 - lenZ rest) + 8) by lia. rewrite zeros_split by lia.
  rewrite !app_assoc. rewrite <- (app_nil_r (_ ++ zeros 8)), <- (app_assoc _ (zeros 8)).
  rewrite put_at; [rewrite app_nil_r; reflexivity| |rewrite H8; reflexivity].
  rewrite !lenZ_app. change (lenZ [128]) with 1. unfold lenZ in *. rewrite zeros_length. lia.
Qed.

(** What is written of a state. *)
Lemma words_stored state block :
  let state := feed_sha256_transform state block in
  concat (map (fun i => let s := word_at state i in
    [u8 (Z.shiftr s 24); u8 (Z.shiftr s 16); u8 (Z.shiftr s 8); u8 s]) [0; 1; 2; 3; 4; 5; 6]%nat)
  = concat (map feed_store_be32 (take 7 state)).
Proof. reflexivity. Qed.

Lemma sha224_length data : lenZ (cnet_sha224 data) = 28.
Proof. unfold cnet_sha224. cbv zeta. destruct (lenZ data mod 64 >=? 56); reflexivity. Qed.

(** *** Properties *)

(** The digest of [cnet_sha224] is SHA-224 of the standard: SHA-256's
    compression from the initial state of SHA-224 over the padded message, of
    which the first seven words are kept; for a message of any length (beyond
    2^64 bits the length in the padding wraps, on both sides). *)
Theorem cnet_sha224_standard data : cnet_sha224 data = sha224 data.
Proof.
  unfold cnet_sha224, sha224. cbv zeta. pose proof (lenZ_nonneg data).
  pose proof (Z.mod_pos_bound (lenZ data) 64 ltac:(lia)) as Hr. pose proof (Z.div_mod (lenZ data) 64 ltac:(lia)) as Hd.
  pose proof (Z.div_pos (lenZ data) 64 ltac:(lia) ltac:(lia)) as Hn.
  set (blocks := lenZ data / 64) in *. set (remaining := lenZ data mod 64) in *.
  set (full := take (Z.to_nat (blocks * 64)) data). set (rest := sub data (blocks * 64) remaining).
  assert (Hfull : length full = (64 * Z.to_nat blocks)%nat) by (unfold full; rewrite length_take; unfold lenZ in *; lia).
  assert (Hrest : lenZ rest = remaining) by (apply lenZ_sub; lia).
  assert (Hdata : data = full ++ rest).
  { unfold full, rest, sub. rewrite firstn_all2 with (n := Z.to_nat remaining) by (rewrite length_drop; unfold lenZ in *; lia).
    symmetry. apply take_drop. }
  assert (Hl : lenZ data = lenZ (full ++ rest)) by (rewrite <- Hdata; reflexivity).
  set (bitlen := u64 (lenZ data * 8)).
  assert (H8 : [u8 (Z.shiftr bitlen 56); u8 (Z.shiftr bitlen 48); u8 (Z.shiftr bitlen 40); u8 (Z.shiftr bitlen 32);
                u8 (Z.shiftr bitlen 24); u8 (Z.shiftr bitlen 16); u8 (Z.shiftr bitlen 8); u8 bitlen]
               = be64 (lenZ (full ++ rest) * 8)).
  { rewrite <- be64_u64, <- Hl. reflexivity. }
  rewrite H8, <- Hrest, rest_block by lia. clear H8.
  replace (compress_data (Z.to_nat blocks) H224 data) with (compress (Z.to_nat blocks) H224 full)
    by (rewrite compress_data_are; rewrite Hdata at 1; symmetry; apply compress_prefix; exact Hfull).
  rewrite Hdata at 1 2. rewrite (sha224_tail full rest (Z.to_nat blocks) Hfull) by lia. cbv zeta.
  destruct (lenZ rest <=? 55) eqn:E.
  - replace (lenZ rest >=? 56) with false by lia. rewrite compress_transform, last_block by (reflexivity || lia). apply words_stored.
  - replace (lenZ rest >=? 56) with true by lia. rewrite !compress_transform.
    change (zeros 64) with (zeros 56 ++ zeros 8 ++ []).
    rewrite (put_at (zeros 56) (zeros 8)) by reflexivity. rewrite app_nil_r. apply words_stored.
Qed.
End Crypto.
