(* ===== verification/Shadowsocks.v ===== *)
(** * Shadowsocks: [native/src/protocol_shadowsocks.c]

    The client side of Shadowsocks with the AEAD ciphers: the keys, the
    datagrams, the chunks of a stream, and the two threads that move a stream
    between the caller's descriptor and the network.  MD5, HMAC and the decoder
    of Base64 are OpenSSL's, in the class [Digest].  Random bytes and what a
    system call reports are arguments; allocation is taken to succeed. *)

From S2P Require Import Prelude CLib Inet Socks Sha256 Crypto Disk Config.

Module Shadowsocks.
Import Crypto Disk.

Definition CH_SS_MAX_CHUNK : Z := 16383.
Definition CH_SS_TAG_SIZE : Z := 16.
Definition CH_SS_NONCE_SIZE : nat := 12.
Definition CH_SS_LENGTH_FRAME_SIZE : Z := 2 + CH_SS_TAG_SIZE.

(** What the code uses of OpenSSL besides the ciphers: MD5 and HMAC with SHA-1
    (which a provider may refuse, and whose lengths the code checks), and the
    decoder of Base64, which writes at most three bytes for four characters. *)
Class Digest : Type := {
  md5 : bytes -> option bytes;
  hmac_sha1 : bytes -> bytes -> option bytes;
  EVP_DecodeBlock : bytes -> option bytes;
  decode_block_bound text decoded : EVP_DecodeBlock text = Some decoded -> 4 * lenZ decoded <= 3 * lenZ text
}.

(** ** Ciphers *)

Inductive ch_ss_method : Type := CH_SS_AES_128_GCM | CH_SS_AES_256_GCM | CH_SS_CHACHA20_IETF_POLY1305.

#[export] Instance ch_ss_method_eq_dec : EqDecision ch_ss_method.
Proof. solve_decision. Defined.

Record ch_ss_cipher : Type := mk_cipher { method : ch_ss_method; key_size : Z; salt_size : Z }.

Definition legacy : list bytes :=
  map str ["rc4-md5"; "aes-128-cfb"; "aes-192-cfb"; "aes-256-cfb";
           "aes-128-ctr"; "aes-192-ctr"; "aes-256-ctr"; "chacha20";
           "chacha20-ietf"; "salsa20"; "camellia-128-cfb";
           "camellia-192-cfb"; "camellia-256-cfb"; "bf-cfb"]%string.

Section Protocol.
Context `{Evp} `{Digest}.

Definition ch_ss_cipher_from_name (name : bytes) : result ch_ss_cipher :=
  if beq name (str "aes-128-gcm") then Done (mk_cipher CH_SS_AES_128_GCM 16 16)
  else if beq name (str "aes-256-gcm") then
    if negb cnet_aes256gcm_available then
      fail CH_ERROR_UNSUPPORTED (str "shadowsocks: aes-256-gcm requires hardware AES; use chacha20-ietf-poly1305 instead")
    else Done (mk_cipher CH_SS_AES_256_GCM 32 32)
  else if beq name (str "chacha20-ietf-poly1305") then Done (mk_cipher CH_SS_CHACHA20_IETF_POLY1305 32 32)
  else if existsb (beq name) legacy then
    fail CH_ERROR_UNSUPPORTED (str "shadowsocks: legacy stream cipher " ++ name ++ str " is insecure and not supported")
  else fail CH_ERROR_UNSUPPORTED (str "shadowsocks: unknown method " ++ name).

(** ** Keys *)

Definition shorter (remaining available : Z) : Z := if remaining <? available then remaining else available.

(** The loop of the key derivation; each round produces at least one byte. *)
Fixpoint bytes_to_key_loop (fuel : nat) (password : bytes) (key_length : Z) (previous out_key : bytes) : result bytes :=
  match fuel with
  | O => Done out_key
  | S fuel' =>
      if lenZ out_key <? key_length then
        match md5 (previous ++ password) with
        | Some digest =>
            if lenZ digest =? 16 then
              let copy := shorter (key_length - lenZ out_key) 16 in
              bytes_to_key_loop fuel' password key_length digest (out_key ++ take (Z.to_nat copy) digest)
            else fail CH_ERROR_INTERNAL (str "shadowsocks MD5 key derivation failed")
        | None => fail CH_ERROR_INTERNAL (str "shadowsocks MD5 key derivation failed")
        end
      else Done out_key
  end.

Definition ch_ss_evp_bytes_to_key (password : bytes) (key_length : Z) : result bytes :=
  if (key_length =? 0) || (key_length >? 32) then
    fail CH_ERROR_INVALID_ARGUMENT (str "invalid Shadowsocks key derivation input")
  else bytes_to_key_loop (Z.to_nat key_length) password key_length [] [].

Definition ch_ss_hmac_sha1 (key data : bytes) : result bytes :=
  if lenZ key >? INT_MAX then fail CH_ERROR_INVALID_ARGUMENT (str "Shadowsocks HMAC key is too long")
  else
    match hmac_sha1 key data with
    | Some output => if lenZ output =? 20 then Done output else fail CH_ERROR_INTERNAL (str "Shadowsocks HKDF-SHA1 failed")
    | None => fail CH_ERROR_INTERNAL (str "Shadowsocks HKDF-SHA1 failed")
    end.

Fixpoint hkdf_loop (fuel : nat) (prk info : bytes) (key_length counter : Z) (previous out_key : bytes) : result bytes :=
  match fuel with
  | O => Done out_key
  | S fuel' =>
      if lenZ out_key <? key_length then
        previous ← ch_ss_hmac_sha1 prk (previous ++ info ++ [counter]);
        let copy := shorter (key_length - lenZ out_key) 20 in
        hkdf_loop fuel' prk info key_length (u8 (counter + 1)) previous (out_key ++ take (Z.to_nat copy) previous)
      else Done out_key
  end.

Definition ch_ss_hkdf_sha1 (secret salt info : bytes) (key_length : Z) : result bytes :=
  if (key_length =? 0) || (key_length >? 255 * 20) || (lenZ info >? 128) then
    fail CH_ERROR_INVALID_ARGUMENT (str "invalid Shadowsocks HKDF input")
  else
    prk ← ch_ss_hmac_sha1 salt secret;
    hkdf_loop (Z.to_nat key_length) prk info key_length 1 [] [].

(** Add one to the nonce, the lowest byte first. *)
Fixpoint ch_ss_nonce_increment (nonce : bytes) : bytes :=
  match nonce with
  | [] => []
  | b :: nonce' => let b := u8 (b + 1) in if negb (b =? 0) then b :: nonce' else b :: ch_ss_nonce_increment nonce'
  end.

Definition ch_ss_encrypt (cipher : ch_ss_cipher) (key nonce plaintext : bytes) : outcome Z (bytes * bytes) :=
  match method cipher with
  | CH_SS_AES_128_GCM => cnet_aes128gcm_encrypt key nonce plaintext []
  | CH_SS_AES_256_GCM => cnet_aes256gcm_encrypt key nonce plaintext []
  | CH_SS_CHACHA20_IETF_POLY1305 => cnet_chacha20poly1305_encrypt key nonce plaintext []
  end.

Definition ch_ss_decrypt (cipher : ch_ss_cipher) (key nonce ciphertext tag : bytes) : outcome Z bytes :=
  match method cipher with
  | CH_SS_AES_128_GCM => cnet_aes128gcm_decrypt key nonce ciphertext [] tag
  | CH_SS_AES_256_GCM => cnet_aes256gcm_decrypt key nonce ciphertext [] tag
  | CH_SS_CHACHA20_IETF_POLY1305 => cnet_chacha20poly1305_decrypt key nonce ciphertext [] tag
  end.

(** The padding characters at the end of a text; each of them takes a byte. *)
Fixpoint without_padding (reversed : bytes) (actual : Z) : Z :=
  match reversed with
  | 61 :: reversed' => without_padding reversed' (if actual >? 0 then actual - 1 else actual)
  | _ => actual
  end.

Definition ch_ss_prefix_from_base64 (encoded : bytes) (cipher : ch_ss_cipher) : result bytes :=
  let length := lenZ encoded in
  if length =? 0 then Done []
  else if (length >? 44) || negb (length mod 4 =? 0) then
    fail CH_ERROR_PARSE (str "Shadowsocks prefix is invalid Base64")
  else
    match EVP_DecodeBlock encoded with
    | None => fail CH_ERROR_PARSE (str "Shadowsocks prefix is invalid Base64")
    | Some decoded =>
        if lenZ decoded >? 33 then Fault
        else
          let actual := without_padding (reverse encoded) (lenZ decoded) in
          if actual >? salt_size cipher then
            fail CH_ERROR_INVALID_ARGUMENT (str "Shadowsocks prefix is longer than the cipher salt")
          else rds decoded 0 actual
    end.

(** ** Datagrams *)

Definition info : bytes := str "ss-subkey".
Definition zero_nonce : bytes := replicate CH_SS_NONCE_SIZE 0.

(** The salt: what [RAND_bytes] wrote, under the prefix. *)
Definition salted (cipher : ch_ss_cipher) (random : nat -> Z) (prefix : bytes) : bytes :=
  put (map random (seq 0 (Z.to_nat (salt_size cipher)))) 0 prefix.

Section Datagrams.
Context `{Inet}.

(** The frame; [random] is [None] when [RAND_bytes] fails. *)
Definition ch_ss_encrypt_datagram_with_prefix (cipher : ch_ss_cipher) (master_key prefix target payload : bytes)
    (random : option (nat -> Z)) : result bytes :=
  if lenZ prefix >? salt_size cipher then
    fail CH_ERROR_INVALID_ARGUMENT (str "invalid Shadowsocks UDP datagram input")
  else
    address ← Socks.ch_socks_encode_address target;
    if (salt_size cipher >? 65535) || (lenZ address >? 65535 - salt_size cipher)
       || (CH_SS_TAG_SIZE >? 65535 - salt_size cipher - lenZ address)
       || (lenZ payload >? 65535 - salt_size cipher - lenZ address - CH_SS_TAG_SIZE) then
      fail CH_ERROR_INVALID_ARGUMENT (str "Shadowsocks UDP datagram is too large")
    else
      match random with
      | None => fail CH_ERROR_INTERNAL (str "generate Shadowsocks UDP salt failed")
      | Some random =>
          let salt := salted cipher random prefix in
          subkey ← ch_ss_hkdf_sha1 (take (Z.to_nat (key_size cipher)) master_key) salt info (key_size cipher);
          match ch_ss_encrypt cipher subkey zero_nonce (address ++ payload) with
          | Done (ciphertext, tag) => Done (salt ++ ciphertext ++ tag)
          | _ => fail CH_ERROR_INTERNAL (str "encrypt Shadowsocks UDP datagram failed")
          end
      end.

Definition ch_ss_encrypt_datagram (cipher : ch_ss_cipher) (master_key target payload : bytes)
    (random : option (nat -> Z)) : result bytes :=
  ch_ss_encrypt_datagram_with_prefix cipher master_key [] target payload random.

(** The text of an endpoint. *)
Definition endpoint_text (host : bytes) (port : Z) : bytes :=
  let host := until_nul host in
  if bool_decide (58 ∈ host) then str "[" ++ host ++ str "]:" ++ dec port else host ++ str ":" ++ dec port.

(** The source and the payload of a frame. *)
Definition ch_ss_decrypt_datagram (cipher : ch_ss_cipher) (master_key frame : bytes) : result (bytes * bytes) :=
  let frame_length := lenZ frame in
  if frame_length <? salt_size cipher + CH_SS_TAG_SIZE + 1 then
    fail CH_ERROR_INVALID_ARGUMENT (str "invalid encrypted Shadowsocks UDP datagram")
  else
    let plaintext_length := frame_length - salt_size cipher - CH_SS_TAG_SIZE in
    salt ← rds frame 0 (salt_size cipher);
    ciphertext ← rds frame (salt_size cipher) plaintext_length;
    tag ← rds frame (frame_length - CH_SS_TAG_SIZE) CH_SS_TAG_SIZE;
    match (match ch_ss_hkdf_sha1 (take (Z.to_nat (key_size cipher)) master_key) salt info (key_size cipher) with
           | Done subkey =>
               match ch_ss_decrypt cipher subkey zero_nonce ciphertext tag with Done plaintext => Some plaintext | _ => None end
           | _ => None
           end) with
    | None => fail CH_ERROR_PARSE (str "authenticate Shadowsocks UDP datagram failed")
    | Some plaintext =>
        '(host, port, consumed) ← Socks.ch_socks_decode_address plaintext;
        if consumed >? plaintext_length then fail CH_ERROR_PARSE (str "invalid Shadowsocks UDP source address")
        else
          payload ← rds plaintext consumed (plaintext_length - consumed);
          Done (endpoint_text host port, payload)
    end.

End Datagrams.

(** ** Chunks

    A nonce is changed in place: the functions return it next to their result. *)

Definition ch_ss_decrypt_length (cipher : ch_ss_cipher) (subkey nonce length_frame : bytes) : bytes * result Z :=
  match ch_ss_decrypt cipher subkey nonce (sub length_frame 0 2) (sub length_frame 2 CH_SS_TAG_SIZE) with
  | Done length_bytes =>
      let nonce := ch_ss_nonce_increment nonce in
      let plaintext_length := Z.lor (Z.shiftl (byte_at length_bytes 0) 8) (byte_at length_bytes 1) in
      if (plaintext_length =? 0) || (plaintext_length >? CH_SS_MAX_CHUNK) then
        (nonce, fail CH_ERROR_PARSE (str "invalid Shadowsocks chunk length"))
      else (nonce, Done plaintext_length)
  | _ => (nonce, fail CH_ERROR_PARSE (str "authenticate Shadowsocks length failed"))
  end.

Definition ch_ss_decrypt_payload (cipher : ch_ss_cipher) (subkey nonce payload_frame : bytes) (plaintext_length : Z)
    : bytes * result bytes :=
  if (plaintext_length =? 0) || (plaintext_length >? CH_SS_MAX_CHUNK) then
    (nonce, fail CH_ERROR_INVALID_ARGUMENT (str "invalid Shadowsocks payload frame"))
  else
    match ch_ss_decrypt cipher subkey nonce (sub payload_frame 0 plaintext_length)
            (sub payload_frame plaintext_length CH_SS_TAG_SIZE) with
    | Done plaintext => (ch_ss_nonce_increment nonce, Done plaintext)
    | _ => (nonce, fail CH_ERROR_PARSE (str "authenticate Shadowsocks payload failed"))
    end.

Definition length_bytes (plaintext_length : Z) : bytes :=
  [u8 (Z.shiftr plaintext_length 8); u8 (Z.land plaintext_length 255)].

Definition ch_ss_encrypt_chunk (cipher : ch_ss_cipher) (subkey nonce plaintext : bytes) : bytes * result bytes :=
  if (lenZ plaintext =? 0) || (lenZ plaintext >? CH_SS_MAX_CHUNK) then
    (nonce, fail CH_ERROR_INVALID_ARGUMENT (str "invalid Shadowsocks chunk"))
  else
    let failed := fail CH_ERROR_INTERNAL (str "encrypt Shadowsocks chunk failed") in
    match ch_ss_encrypt cipher subkey nonce (length_bytes (lenZ plaintext)) with
    | Done (length_text, length_tag) =>
        let nonce := ch_ss_nonce_increment nonce in
        match ch_ss_encrypt cipher subkey nonce plaintext with
        | Done (text, tag) => (ch_ss_nonce_increment nonce, Done (length_text ++ length_tag ++ text ++ tag))
        | _ => (nonce, failed)
        end
    | _ => (nonce, failed)
    end.

Definition ch_ss_decrypt_chunk (cipher : ch_ss_cipher) (subkey nonce length_frame payload_frame : bytes)
    : bytes * result bytes :=
  let '(nonce, plaintext_length) := ch_ss_decrypt_length cipher subkey nonce length_frame in
  match plaintext_length with
  | Done plaintext_length =>
      if negb (lenZ payload_frame =? plaintext_length + CH_SS_TAG_SIZE) then
        (nonce, fail CH_ERROR_PARSE (str "invalid Shadowsocks chunk length"))
      else ch_ss_decrypt_payload cipher subkey nonce payload_frame plaintext_length
  | Raise e => (nonce, Raise e)
  | Fault => (nonce, Fault)
  end.

(** ** Streams *)

(** What was sent, the calls that are left and the error that stopped it.
    After the last call of the list the rest is taken. *)
Fixpoint ch_ss_send_all (calls : list write_call) (data : bytes) : bytes * list write_call * option bytes :=
  if lenZ data =? 0 then ([], calls, None)
  else
    match calls with
    | [] => (data, [], None)
    | Interrupted :: calls' => ch_ss_send_all calls' data
    | Refused message :: calls' => ([], calls', Some message)
    | Accepted written :: calls' =>
        if written <=? 0 then ([], calls', Some [])
        else
          let '(sent, calls', error) := ch_ss_send_all calls' (drop (Z.to_nat written) data) in
          (take (Z.to_nat written) data ++ sent, calls', error)
    end.

(** What a writer leaves: the bytes on the network, its nonce, the calls that
    are left and its result. *)
Record written : Type := mk_written {
  on_network : bytes;
  nonce_after : bytes;
  calls_left : list write_call;
  write_result : result unit
}.

(** Each round takes at least one byte. *)
Fixpoint write_chunks_loop (fuel : nat) (calls : list write_call) (cipher : ch_ss_cipher) (subkey nonce plaintext : bytes)
    : written :=
  match fuel with
  | O => mk_written [] nonce calls (Done tt)
  | S fuel' =>
      if lenZ plaintext >? 0 then
        let chunk_length := if lenZ plaintext >? CH_SS_MAX_CHUNK then CH_SS_MAX_CHUNK else lenZ plaintext in
        let '(nonce, frame) := ch_ss_encrypt_chunk cipher subkey nonce (take (Z.to_nat chunk_length) plaintext) in
        match frame with
        | Done frame =>
            let '(sent, calls, error) := ch_ss_send_all calls frame in
            match error with
            | Some message => mk_written sent nonce calls (fail CH_ERROR_IO (str "write Shadowsocks frame failed: " ++ message))
            | None =>
                let rest := write_chunks_loop fuel' calls cipher subkey nonce (drop (Z.to_nat chunk_length) plaintext) in
                mk_written (sent ++ on_network rest) (nonce_after rest) (calls_left rest) (write_result rest)
            end
        | Raise e => mk_written [] nonce calls (Raise e)
        | Fault => mk_written [] nonce calls Fault
        end
      else mk_written [] nonce calls (Done tt)
  end.

Definition ch_ss_write_chunks (calls : list write_call) (cipher : ch_ss_cipher) (subkey nonce plaintext : bytes) : written :=
  write_chunks_loop (length plaintext) calls cipher subkey nonce plaintext.

(** What a round of waiting for the network reports.  [Arrived] holds what is
    there to be received, nothing when the peer has closed. *)
Inductive net_round : Type := Poll_failed | Local_gone | Idle | Recv_interrupted | Arrived (data : bytes).

(** The bytes read and the rounds that are left; [None] when the stream ends
    first. *)
Fixpoint ch_ss_read_exact (rounds : list net_round) (n : nat) : option (bytes * list net_round) :=
  match n with
  | O => Some ([], rounds)
  | S _ =>
      match rounds with
      | [] | Poll_failed :: _ | Local_gone :: _ | Arrived [] :: _ => None
      | Idle :: rounds' | Recv_interrupted :: rounds' => ch_ss_read_exact rounds' n
      | Arrived data :: rounds' =>
          if (n <? length data)%nat then Some (take n data, Arrived (drop n data) :: rounds')
          else '(rest, rounds') ← ch_ss_read_exact rounds' (n - length data); Some (data ++ rest, rounds')
      end
  end.

Record ch_ss_pump : Type := mk_pump {
  p_cipher : ch_ss_cipher;
  master_key : bytes;
  write_subkey : bytes;
  write_nonce : bytes
}.

(** What waiting for the caller reports: a poll that fails, an interrupted
    call, bytes with the calls that send them on, or the end (with whether the
    descriptor has hung up). *)
Inductive local_round : Type :=
| Local_poll_failed
| Local_interrupted
| Local_data (data : bytes) (calls : list write_call)
| Local_end (hung_up : bool).

(** How the network side is shut down. *)
Inductive shut : Type := SHUT_WR | SHUT_RDWR.

(** The thread that sends: the bytes on the network and the shutdown. *)
Fixpoint ch_ss_outgoing_main (pump : ch_ss_pump) (nonce : bytes) (rounds : list local_round) : bytes * option shut :=
  match rounds with
  | [] | Local_poll_failed :: _ => ([], None)
  | Local_interrupted :: rounds' => ch_ss_outgoing_main pump nonce rounds'
  | Local_end hung_up :: _ => ([], Some (if hung_up then SHUT_RDWR else SHUT_WR))
  | Local_data data calls :: rounds' =>
      if lenZ data =? 0 then ([], Some SHUT_WR)
      else
        let w := ch_ss_write_chunks calls (p_cipher pump) (write_subkey pump) nonce data in
        match write_result w with
        | Done _ =>
            let '(rest, how) := ch_ss_outgoing_main pump (nonce_after w) rounds' in
            (on_network w ++ rest, how)
        | _ => (on_network w, Some SHUT_RDWR)
        end
  end.

(** The loop of the thread that receives: what reaches the caller.  Each round
    reads more than [CH_SS_LENGTH_FRAME_SIZE] bytes. *)
Fixpoint pump_loop (fuel : nat) (cipher : ch_ss_cipher) (read_subkey read_nonce : bytes) (rounds : list net_round)
    (calls : list write_call) : bytes :=
  match fuel with
  | O => []
  | S fuel' =>
      match ch_ss_read_exact rounds (Z.to_nat CH_SS_LENGTH_FRAME_SIZE) with
      | None => []
      | Some (length_frame, rounds) =>
          let '(read_nonce, plaintext_length) := ch_ss_decrypt_length cipher read_subkey read_nonce length_frame in
          match plaintext_length with
          | Done plaintext_length =>
              match ch_ss_read_exact rounds (Z.to_nat (plaintext_length + CH_SS_TAG_SIZE)) with
              | None => []
              | Some (payload_frame, rounds) =>
                  let '(read_nonce, plaintext) := ch_ss_decrypt_payload cipher read_subkey read_nonce payload_frame plaintext_length in
                  match plaintext with
                  | Done plaintext =>
                      let '(sent, calls, error) := ch_ss_send_all calls plaintext in
                      match error with
                      | Some _ => sent
                      | None => sent ++ pump_loop fuel' cipher read_subkey read_nonce rounds calls
                      end
                  | _ => []
                  end
              end
          | _ => []
          end
      end
  end.

(** The bytes that arrive in the rounds. *)
Definition arrivals (rounds : list net_round) : bytes :=
  concat (map (fun round => match round with Arrived data => data | _ => [] end) rounds).

Definition ch_ss_pump_main (pump : ch_ss_pump) (outgoing_started : bool) (rounds : list net_round) (calls : list write_call)
    : bytes :=
  if outgoing_started then
    match ch_ss_read_exact rounds (Z.to_nat (salt_size (p_cipher pump))) with
    | None => []
    | Some (salt, rounds) =>
        match ch_ss_hkdf_sha1 (take (Z.to_nat (key_size (p_cipher pump))) (master_key pump)) salt info (key_size (p_cipher pump)) with
        | Done read_subkey => pump_loop (length (arrivals rounds)) (p_cipher pump) read_subkey zero_nonce rounds calls
        | _ => []
        end
    end
  else [].

(** ** Dialing *)

Section Dial.
Context {D : Type} `{Inet}.

Definition ch_ss_optional_string (table : option (Config.toml_table D)) (key : String.string) : bytes :=
  match table with
  | None => []
  | Some t => match Config.ch_config_table_get_string t (str key) with Done s => s | _ => [] end
  end.

(** What the system reports while a connection is set up. *)
Record dial_env : Type := mk_dial_env {
  connect_tcp : bytes -> result unit;
  rand_bytes : option (nat -> Z);
  sends : list write_call;
  socketpair : option bytes;
  thread_started : bool
}.

(** The cipher, the master key and the prefix of a server. *)
Definition dial_keys (settings : option (Config.toml_table D)) : result (ch_ss_cipher * bytes * bytes) :=
  let method := ch_ss_optional_string settings "method" in
  let password := ch_ss_optional_string settings "password" in
  if beq method [] || beq password [] then
    fail CH_ERROR_INVALID_ARGUMENT
      (str "shadowsocks: " ++ (if beq method [] then str "method" else str "password") ++ str " is required")
  else
    cipher ← ch_ss_cipher_from_name method;
    key ← ch_ss_evp_bytes_to_key password (key_size cipher);
    prefix ← ch_ss_prefix_from_base64 (ch_ss_optional_string settings "prefix_base64") cipher;
    Done (cipher, key, prefix).

(** What is on the network when the dial returns, and the pump or the error. *)
Definition ch_protocol_shadowsocks_dial (server : Config.toml_table D) (underlying : bool) (target : bytes) (env : dial_env)
    : bytes * result ch_ss_pump :=
  match dial_keys (Config.toml_table_in server (str "settings")) with
  | Raise e => ([], Raise e)
  | Fault => ([], Fault)
  | Done (cipher, key, prefix) =>
      let server_address := ch_ss_optional_string (Some server) "address" in
      match (if underlying then Done tt
             else if beq server_address [] then
               fail CH_ERROR_INVALID_ARGUMENT (str "shadowsocks server address is required")
             else connect_tcp env server_address) with
      | Raise e => ([], Raise e)
      | Fault => ([], Fault)
      | Done _ =>
          match rand_bytes env with
          | None => ([], fail CH_ERROR_IO (str "initialize Shadowsocks salt failed"))
          | Some random =>
              let salt := salted cipher random prefix in
              let '(sent, calls, error) := ch_ss_send_all (sends env) salt in
              match error with
              | Some _ => (sent, fail CH_ERROR_IO (str "initialize Shadowsocks salt failed"))
              | None =>
                  match (subkey ← ch_ss_hkdf_sha1 key salt info (key_size cipher);
                         address ← Socks.ch_socks_encode_address target;
                         Done (subkey, address)) with
                  | Raise e => (sent, Raise e)
                  | Fault => (sent, Fault)
                  | Done (subkey, address) =>
                      let w := ch_ss_write_chunks calls cipher subkey zero_nonce address in
                      (sent ++ on_network w,
                       _ ← write_result w;
                       match socketpair env with
                       | Some message => fail CH_ERROR_IO (str "create Shadowsocks relay stream: " ++ message)
                       | None =>
                           if thread_started env then Done (mk_pump cipher key subkey (nonce_after w))
                           else fail CH_ERROR_IO (str "start Shadowsocks relay stream failed")
                       end)
                  end
              end
          end
      end
  end.

End Dial.
(** ** Facts *)

Definition evp_of (m : ch_ss_method) : EVP_CIPHER :=
  match m with
  | CH_SS_AES_128_GCM => aes_128_gcm
  | CH_SS_AES_256_GCM => aes_256_gcm
  | CH_SS_CHACHA20_IETF_POLY1305 => chacha20_poly1305
  end.

Lemma ss_encrypt_is cipher key nonce text :
  ch_ss_encrypt cipher key nonce text = cnet_aead_encrypt (evp_of (method cipher)) key nonce text [].
Proof. unfold ch_ss_encrypt. destruct (method cipher); reflexivity. Qed.

Lemma ss_decrypt_is cipher key nonce text tag :
  ch_ss_decrypt cipher key nonce text tag = cnet_aead_decrypt (evp_of (method cipher)) key nonce text [] tag.
Proof. unfold ch_ss_decrypt. destruct (method cipher); reflexivity. Qed.

Lemma ss_encrypt_lengths cipher key nonce text c t :
  ch_ss_encrypt cipher key nonce text = Done (c, t) -> lenZ c = lenZ text /\ lenZ t = CH_SS_TAG_SIZE.
Proof. rewrite ss_encrypt_is. intros [H1 H2]%encrypt_lengths. unfold lenZ. rewrite H1, H2. auto. Qed.

Lemma ss_decrypt_encrypt cipher key nonce text c t :
  ch_ss_encrypt cipher key nonce text = Done (c, t) -> ch_ss_decrypt cipher key nonce c t = Done text.
Proof. rewrite ss_encrypt_is, ss_decrypt_is. apply decrypt_encrypt. Qed.

(** Whether the cipher is there does not depend on what is encrypted. *)
Definition ready (cipher : ch_ss_cipher) : Prop :=
  evp_cipher (evp_of (method cipher)) = true /\ evp_init (evp_of (method cipher)) = true.

Lemma ss_encrypt_ready cipher key nonce text c t : ch_ss_encrypt cipher key nonce text = Done (c, t) -> ready cipher.
Proof.
  rewrite ss_encrypt_is. unfold cnet_aead_encrypt, ready. intros E.
  destruct (evp_cipher (evp_of (method cipher))); [|discriminate]. case_if_in E; [discriminate|].
  destruct (evp_init (evp_of (method cipher))); [auto|discriminate].
Qed.

Lemma ready_encrypts cipher key nonce text :
  ready cipher -> lenZ text <= INT_MAX -> exists c t, ch_ss_encrypt cipher key nonce text = Done (c, t).
Proof.
  intros [H1 H2] Hl. rewrite ss_encrypt_is. unfold cnet_aead_encrypt. rewrite H1, H2. cbn [negb orb].
  replace (lenZ text >? INT_MAX) with false by lia. change (lenZ [] >? INT_MAX) with false. cbn [orb].
  destruct (evp_seal _ _ _ _ _) as [c t]. eauto.
Qed.

(** *** Lengths *)

Lemma length_bytes_value n : 0 <= n <= 65535 ->
  Z.lor (Z.shiftl (byte_at (length_bytes n) 0) 8) (byte_at (length_bytes n) 1) = n.
Proof.
  intros Hn. unfold length_bytes. change (byte_at [?a; ?b] 0) with a. change (byte_at [?a; ?b] 1) with b.
  change 255 with (Z.ones 8). rewrite Z.land_ones, Z.shiftr_div_pow2 by lia. unfold u8. rewrite Z.mod_mod by lia.
  assert (0 <= n / 2 ^ 8 < 256) by (split; [apply Z.div_pos|apply Z.div_lt_upper_bound]; lia).
  rewrite (Z.mod_small (n / 2 ^ 8)) by lia. rewrite lor_shift8 by (apply Z.mod_pos_bound; lia).
  pose proof (Z.div_mod n (2 ^ 8)). lia.
Qed.

Lemma sub_front (a b : bytes) n : n = lenZ a -> sub (a ++ b) 0 n = a.
Proof. intros ->. unfold sub, lenZ. rewrite Nat2Z.id. cbn [drop Z.to_nat]. apply take_app_length. Qed.

Lemma sub_back (a b : bytes) i n : i = lenZ a -> n = lenZ b -> sub (a ++ b) i n = b.
Proof. intros -> ->. unfold sub, lenZ. rewrite !Nat2Z.id, drop_app_length. apply firstn_all. Qed.

(** A chunk is read back: its two frames, one after the other. *)
Lemma chunk_reads cipher key nonce text nonce' frame :
  ch_ss_encrypt_chunk cipher key nonce text = (nonce', Done frame) ->
  exists length_frame payload_frame, frame = length_frame ++ payload_frame /\
    lenZ length_frame = CH_SS_LENGTH_FRAME_SIZE /\ lenZ payload_frame = lenZ text + CH_SS_TAG_SIZE /\
    1 <= lenZ text <= CH_SS_MAX_CHUNK /\
    ch_ss_decrypt_length cipher key nonce length_frame = (ch_ss_nonce_increment nonce, Done (lenZ text)) /\
    ch_ss_decrypt_payload cipher key (ch_ss_nonce_increment nonce) payload_frame (lenZ text) = (nonce', Done text) /\
    nonce' = ch_ss_nonce_increment (ch_ss_nonce_increment nonce).
Proof.
  unfold ch_ss_encrypt_chunk. intros E. pose proof (lenZ_nonneg text). case_if_in E; [discriminate|].
  destruct (ch_ss_encrypt cipher key nonce (length_bytes (lenZ text))) as [[c1 t1]| |] eqn:E1; try discriminate.
  destruct (ch_ss_encrypt cipher key (ch_ss_nonce_increment nonce) text) as [[c2 t2]| |] eqn:E2; try discriminate.
  injection E as <- <-. pose proof (ss_encrypt_lengths _ _ _ _ _ _ E1) as [L1 T1]. pose proof (ss_encrypt_lengths _ _ _ _ _ _ E2) as [L2 T2].
  unfold CH_SS_MAX_CHUNK in *. change (lenZ (length_bytes (lenZ text))) with 2 in L1.
  exists (c1 ++ t1), (c2 ++ t2). rewrite <- app_assoc, !lenZ_app, L1, T1, L2, T2. unfold ch_ss_decrypt_length, ch_ss_decrypt_payload.
  rewrite (sub_front c1), (sub_back c1), (sub_front c2), (sub_back c2) by (symmetry; assumption).
  rewrite (ss_decrypt_encrypt _ _ _ _ _ _ E1), (ss_decrypt_encrypt _ _ _ _ _ _ E2). cbv zeta.
  rewrite length_bytes_value by lia. unfold CH_SS_MAX_CHUNK. rewrite (proj2 (orb_false_iff _ _)) by lia.
  split_and!; try reflexivity; lia.
Qed.

(** A chunk of the right size is encrypted. *)
Lemma chunk_encrypts cipher key nonce text :
  ready cipher -> 1 <= lenZ text <= CH_SS_MAX_CHUNK -> exists nonce' frame, ch_ss_encrypt_chunk cipher key nonce text = (nonce', Done frame).
Proof.
  intros Hr Hl. unfold ch_ss_encrypt_chunk. rewrite (proj2 (orb_false_iff _ _)) by lia.
  destruct (ready_encrypts cipher key nonce (length_bytes (lenZ text)) Hr) as (c1 & t1 & E1); [vm_compute; discriminate|].
  destruct (ready_encrypts cipher key (ch_ss_nonce_increment nonce) text Hr) as (c2 & t2 & E2).
  { unfold CH_SS_MAX_CHUNK, INT_MAX in *. lia. }
  rewrite E1, E2. eauto.
Qed.

(** *** Moving bytes *)

(** The calls of a descriptor that takes bytes, at its own pace. *)
Definition accepting (calls : list write_call) : Prop :=
  Forall (fun call => match call with Interrupted => True | Refused _ => False | Accepted count => 0 < count end) calls.

Lemma send_all_sent calls data sent left : ch_ss_send_all calls data = (sent, left, None) -> sent = data.
Proof.
  revert data sent. induction calls as [|call calls IH]; intros data sent; cbn [ch_ss_send_all].
  - case_if; intros E; injection E as <- <-; [|reflexivity]. destruct data; [reflexivity|rewrite lenZ_cons in *; pose proof (lenZ_nonneg data); lia].
  - case_if; [intros E; injection E as <- <-; destruct data; [reflexivity|rewrite lenZ_cons in *; pose proof (lenZ_nonneg data); lia]|].
    destruct call as [|m|count]; [apply IH|discriminate|]. case_if; [discriminate|].
    destruct (ch_ss_send_all calls (drop (Z.to_nat count) data)) as [[s l] e] eqn:E1. intros E.
    assert (e = None) as -> by congruence. assert (l = left) as -> by congruence. apply IH in E1. subst s.
    assert (sent = take (Z.to_nat count) data ++ drop (Z.to_nat count) data) as -> by congruence. apply take_drop.
Qed.

Lemma send_all_accepts calls data :
  accepting calls -> exists left, ch_ss_send_all calls data = (data, left, None) /\ accepting left.
Proof.
  intros Hc. assert (He : exists sent left, ch_ss_send_all calls data = (sent, left, None) /\ accepting left).
  { revert data. induction Hc as [|call calls Hcall Hcs IH]; intros data; cbn [ch_ss_send_all].
    - case_if; do 2 eexists; (split; [reflexivity|constructor]).
    - case_if; [do 2 eexists; split; [reflexivity|constructor; assumption]|].
      destruct call as [|m|count]; [apply IH|contradiction|]. replace (count <=? 0) with false by lia.
      destruct (IH (drop (Z.to_nat count) data)) as (s & l & -> & Hl). eauto. }
  destruct He as (sent & left & E & Hl). exists left. rewrite (send_all_sent _ _ _ _ E) in E. auto.
Qed.

(** A network from which bytes arrive, at its own pace. *)
Definition quiet (rounds : list net_round) : Prop :=
  Forall (fun round => match round with Idle | Recv_interrupted => True | Arrived data => data <> [] | _ => False end) rounds.

Lemma read_exact_arrives rounds a b :
  quiet rounds -> arrivals rounds = a ++ b ->
  exists rounds', ch_ss_read_exact rounds (length a) = Some (a, rounds') /\ quiet rounds' /\ arrivals rounds' = b.
Proof.
  intros Hq. revert a. induction Hq as [|round rounds Hr Hq IH]; intros a Ha.
  { symmetry in Ha. apply app_eq_nil in Ha as [-> ->]. exists []. repeat constructor. }
  destruct a as [|x a]; [exists (round :: rounds); split; [destruct round; reflexivity|split; [constructor; assumption|exact Ha]]|].
  destruct round as [| | | |data]; try contradiction; cbn [ch_ss_read_exact length]; try (apply (IH (x :: a)); exact Ha).
  unfold arrivals in Ha. cbn [map concat] in Ha. fold (arrivals rounds) in Ha.
  destruct data as [|d data]; [contradiction|]. cbv beta iota. set (l := d :: data) in *. set (want := x :: a) in *.
  destruct (Nat.ltb (S (length a)) (length l)) eqn:El.
  - apply Nat.ltb_lt in El. change (S (length a)) with (length want) in *.
    assert (Hw : want = take (length want) l).
    { transitivity (take (length want) (want ++ b)); [symmetry; apply take_app_length|rewrite <- Ha; apply take_app_le; lia]. }
    assert (Hb : b = drop (length want) l ++ arrivals rounds).
    { transitivity (drop (length want) (want ++ b)); [symmetry; apply drop_app_length|rewrite <- Ha; apply drop_app_le; lia]. }
    exists (Arrived (drop (length want) l) :: rounds). rewrite <- Hw. split; [reflexivity|]. split; [|symmetry; exact Hb].
    constructor; [|exact Hq]. intros E. apply (f_equal length) in E. rewrite length_drop in E. change (length []) with 0%nat in E. lia.
  - apply Nat.ltb_ge in El. change (S (length a)) with (length want) in *.
    assert (Hw : want = l ++ drop (length l) want).
    { rewrite <- (take_drop (length l) want) at 1. f_equal.
      transitivity (take (length l) (want ++ b)); [symmetry; apply take_app_le; lia|rewrite <- Ha; apply take_app_length]. }
    destruct (IH (drop (length l) want)) as (rounds' & E & Hq' & Ha').
    { transitivity (drop (length l) (l ++ arrivals rounds)); [symmetry; apply drop_app_length|rewrite Ha; apply drop_app_le; lia]. }
    rewrite length_drop in E. rewrite E. cbn [mbind option_bind]. exists rounds'. rewrite <- Hw. auto.
Qed.

Lemma read_exact_nothing rounds n : quiet rounds -> arrivals rounds = [] -> (0 < n)%nat -> ch_ss_read_exact rounds n = None.
Proof.
  intros Hq Ha Hn. destruct n as [|n]; [lia|]. induction Hq as [|round rounds Hr Hq IH]; [reflexivity|].
  destruct round as [| | | |data]; try contradiction; cbn [ch_ss_read_exact]; try (apply IH; exact Ha).
  unfold arrivals in Ha. cbn [map concat] in Ha. apply app_eq_nil in Ha as [-> _]. contradiction.
Qed.
(** *** Nonces *)

(** The number [v] in [n] bytes, the lowest first. *)
Fixpoint le_bytes (n : nat) (v : Z) : bytes :=
  match n with
  | O => []
  | S n' => v mod 256 :: le_bytes n' (v / 256)
  end.

Definition nonce_of (v : Z) : bytes := le_bytes CH_SS_NONCE_SIZE v.

Lemma increment_le_bytes n v : ch_ss_nonce_increment (le_bytes n v) = le_bytes n (v + 1).
Proof.
  revert v. induction n as [|n IH]; intros v; [reflexivity|]. cbn [le_bytes ch_ss_nonce_increment]. cbv zeta.
  pose proof (Z.mod_pos_bound v 256 ltac:(lia)) as Hb. pose proof (Z.div_mod v 256 ltac:(lia)) as Hv. unfold u8. change (2 ^ 8) with 256.
  destruct (Z.eq_dec (v mod 256) 255) as [E|E].
  - rewrite E. change ((255 + 1) mod 256) with 0. cbn [Z.eqb negb]. rewrite IH. f_equal.
    + apply Z.mod_unique with (v / 256 + 1); lia.
    + f_equal. apply Z.div_unique with 0; lia.
  - rewrite (Z.mod_small (v mod 256 + 1)) by lia. replace (v mod 256 + 1 =? 0) with false by lia. cbn [negb]. f_equal.
    + apply Z.mod_unique with (v / 256); lia.
    + f_equal. apply Z.div_unique with (v mod 256 + 1); lia.
Qed.

Lemma increment_nonce_of v : ch_ss_nonce_increment (nonce_of v) = nonce_of (v + 1).
Proof. apply increment_le_bytes. Qed.

Lemma le_bytes_injective n v w : 0 <= v < 256 ^ Z.of_nat n -> 0 <= w < 256 ^ Z.of_nat n -> le_bytes n v = le_bytes n w -> v = w.
Proof.
  revert v w. induction n as [|n IH]; intros v w Hv Hw E; [cbn in *; lia|]. cbn [le_bytes] in E. injection E as E1 E2.
  assert (Hp : 256 ^ Z.of_nat (S n) = 256 * 256 ^ Z.of_nat n) by (rewrite Nat2Z.inj_succ, Z.pow_succ_r; lia).
  apply IH in E2; [|split; [apply Z.div_pos|apply Z.div_lt_upper_bound]; lia..].
  pose proof (Z.div_mod v 256 ltac:(lia)). pose proof (Z.div_mod w 256 ltac:(lia)). lia.
Qed.

(** *** What a writer puts on the network *)

(** A text sealed with the [v]-th nonce, and its tag. *)
Definition sealed (cipher : ch_ss_cipher) (key : bytes) (v : Z) (text : bytes) : bytes :=
  match ch_ss_encrypt cipher key (nonce_of v) text with Done (c, t) => c ++ t | _ => [] end.

(** The frames of the pieces of a text: the length of each and the piece, each
    under a nonce of its own. *)
Fixpoint frames (cipher : ch_ss_cipher) (key : bytes) (v : Z) (pieces : list bytes) : bytes :=
  match pieces with
  | [] => []
  | p :: pieces' => sealed cipher key v (length_bytes (lenZ p)) ++ sealed cipher key (v + 1) p ++ frames cipher key (v + 2) pieces'
  end.

Lemma chunk_frame cipher key v text nonce' frame :
  ch_ss_encrypt_chunk cipher key (nonce_of v) text = (nonce', Done frame) ->
  frame = sealed cipher key v (length_bytes (lenZ text)) ++ sealed cipher key (v + 1) text /\ nonce' = nonce_of (v + 2).
Proof.
  unfold ch_ss_encrypt_chunk, sealed. rewrite increment_nonce_of. intros E. case_if_in E; [discriminate|].
  destruct (ch_ss_encrypt cipher key (nonce_of v) (length_bytes (lenZ text))) as [[c1 t1]| |]; try discriminate.
  destruct (ch_ss_encrypt cipher key (nonce_of (v + 1)) text) as [[c2 t2]| |]; try discriminate.
  rewrite increment_nonce_of in E. injection E as <- <-. rewrite <- !app_assoc. split; [reflexivity|]. f_equal. lia.
Qed.

(** The chunk that a round takes. *)
Lemma round_piece (plaintext : bytes) :
  0 < lenZ plaintext ->
  let chunk_length := if lenZ plaintext >? CH_SS_MAX_CHUNK then CH_SS_MAX_CHUNK else lenZ plaintext in
  let piece := take (Z.to_nat chunk_length) plaintext in
  1 <= lenZ piece <= CH_SS_MAX_CHUNK /\ lenZ piece = chunk_length /\
  piece ++ drop (Z.to_nat chunk_length) plaintext = plaintext /\
  (length (drop (Z.to_nat chunk_length) plaintext) < length plaintext)%nat.
Proof.
  intros Hp. cbv zeta. unfold CH_SS_MAX_CHUNK, lenZ in *. rewrite length_take, length_drop, take_drop.
  case_if; split_and!; try reflexivity; lia.
Qed.

Lemma write_loop_frames fuel calls cipher key v plaintext :
  (length plaintext <= fuel)%nat ->
  let w := write_chunks_loop fuel calls cipher key (nonce_of v) plaintext in
  write_result w = Done tt ->
  exists pieces, concat pieces = plaintext /\ Forall (fun p => 1 <= lenZ p <= CH_SS_MAX_CHUNK) pieces /\
    on_network w = frames cipher key v pieces /\ nonce_after w = nonce_of (v + 2 * lenZ pieces).
Proof.
  cbv zeta. revert calls v plaintext. induction fuel as [|fuel IH]; intros calls v plaintext Hf; cbn [write_chunks_loop].
  { intros _. exists []. destruct plaintext; [|cbn in Hf; lia]. cbn [on_network nonce_after]. change (lenZ []) with 0. rewrite Z.add_0_r. auto. }
  destruct (lenZ plaintext >? 0) eqn:E0.
  2:{ intros _. exists []. destruct plaintext; [|rewrite lenZ_cons in E0; pose proof (lenZ_nonneg plaintext); lia].
      cbn [on_network nonce_after]. change (lenZ []) with 0. rewrite Z.add_0_r. auto. }
  pose proof (round_piece plaintext ltac:(lia)) as Hp. cbv zeta in *.
  set (n := if lenZ plaintext >? CH_SS_MAX_CHUNK then CH_SS_MAX_CHUNK else lenZ plaintext) in *. destruct Hp as (Hp1 & _ & Hp2 & Hp3).
  destruct (ch_ss_encrypt_chunk cipher key (nonce_of v) (take (Z.to_nat n) plaintext)) as [nonce' [frame| |]] eqn:Ec; try discriminate.
  apply chunk_frame in Ec as [-> ->].
  destruct (ch_ss_send_all _ _) as [[sent left] [m|]] eqn:Es; [discriminate|]. apply send_all_sent in Es as ->.
  cbn [write_result on_network nonce_after]. intros Hw. apply IH in Hw as (pieces & H1 & H2 & H3 & H4); [|lia].
  exists (take (Z.to_nat n) plaintext :: pieces). cbn [concat frames]. rewrite H1, Hp2, H3, H4, lenZ_cons, <- !app_assoc.
  split_and!; auto. f_equal. lia.
Qed.

(** A writer with a cipher that is there and a network that accepts. *)
Lemma write_chunks_succeed fuel calls cipher key nonce plaintext :
  ready cipher -> accepting calls ->
  let w := write_chunks_loop fuel calls cipher key nonce plaintext in write_result w = Done tt /\ accepting (calls_left w).
Proof.
  intros Hr. cbv zeta. revert calls nonce plaintext. induction fuel as [|fuel IH]; intros calls nonce plaintext Hc; cbn [write_chunks_loop]; [auto|].
  destruct (lenZ plaintext >? 0) eqn:E0; [|auto]. pose proof (round_piece plaintext ltac:(lia)) as Hp. cbv zeta in *.
  set (n := if lenZ plaintext >? CH_SS_MAX_CHUNK then CH_SS_MAX_CHUNK else lenZ plaintext) in *. destruct Hp as (Hp1 & _ & _ & _).
  destruct (chunk_encrypts cipher key nonce (take (Z.to_nat n) plaintext) Hr Hp1) as (nonce' & frame & ->).
  destruct (send_all_accepts calls frame Hc) as (left & -> & Hl). cbn [write_result calls_left]. apply IH, Hl.
Qed.

(** *** What a reader makes of it *)

(** The frames of a writer are read back as the plaintext, and the reader goes
    on behind them with the writer's nonce. *)
Lemma loop_reads_frames wfuel wcalls cipher key nonce plaintext rest fuel rounds calls :
  (length plaintext <= wfuel)%nat ->
  let w := write_chunks_loop wfuel wcalls cipher key nonce plaintext in
  write_result w = Done tt -> quiet rounds -> accepting calls ->
  arrivals rounds = on_network w ++ rest -> (length (arrivals rounds) <= fuel)%nat ->
  exists fuel' rounds' calls', quiet rounds' /\ accepting calls' /\ arrivals rounds' = rest /\ (length rest <= fuel')%nat /\
    pump_loop fuel cipher key nonce rounds calls = plaintext ++ pump_loop fuel' cipher key (nonce_after w) rounds' calls'.
Proof.
  cbv zeta. revert wcalls nonce plaintext fuel rounds calls.
  induction wfuel as [|wfuel IH]; intros wcalls nonce plaintext fuel rounds calls Hf; cbn [write_chunks_loop].
  { intros _ Hq Hc Ha Hfu. destruct plaintext; [|cbn in Hf; lia]. exists fuel, rounds, calls. rewrite Ha in Hfu. auto. }
  destruct (lenZ plaintext >? 0) eqn:E0.
  2:{ intros _ Hq Hc Ha Hfu. destruct plaintext; [|rewrite lenZ_cons in E0; pose proof (lenZ_nonneg plaintext); lia].
      exists fuel, rounds, calls. rewrite Ha in Hfu. auto. }
  pose proof (round_piece plaintext ltac:(lia)) as Hp. cbv zeta in *.
  set (n := if lenZ plaintext >? CH_SS_MAX_CHUNK then CH_SS_MAX_CHUNK else lenZ plaintext) in *. destruct Hp as (Hp1 & _ & Hp2 & Hp3).
  destruct (ch_ss_encrypt_chunk cipher key nonce (take (Z.to_nat n) plaintext)) as [nonce' [frame| |]] eqn:Ec; try discriminate.
  destruct (ch_ss_send_all wcalls frame) as [[sent left] [m|]] eqn:Es; [discriminate|]. apply send_all_sent in Es as ->.
  cbn [write_result on_network nonce_after]. intros Hw Hq Hc Ha Hfu.
  apply chunk_reads in Ec as (lf & pf & -> & Hlf & Hpf & _ & Hdl & Hdp & _). rewrite <- !app_assoc in Ha.
  destruct fuel as [|fuel]. { rewrite Ha, length_app in Hfu. unfold lenZ, CH_SS_LENGTH_FRAME_SIZE, CH_SS_TAG_SIZE in Hlf. lia. }
  cbn [pump_loop]. assert (Hn1 : Z.to_nat CH_SS_LENGTH_FRAME_SIZE = length lf) by (unfold lenZ in Hlf; lia). rewrite Hn1.
  destruct (read_exact_arrives rounds lf _ Hq Ha) as (r1 & -> & Hq1 & Ha1). rewrite Hdl.
  assert (Hn2 : Z.to_nat (lenZ (take (Z.to_nat n) plaintext) + CH_SS_TAG_SIZE) = length pf) by (unfold lenZ in *; lia). rewrite Hn2.
  destruct (read_exact_arrives r1 pf _ Hq1 Ha1) as (r2 & -> & Hq2 & Ha2). rewrite Hdp.
  destruct (send_all_accepts calls (take (Z.to_nat n) plaintext) Hc) as (c2 & -> & Hc2).
  destruct (IH left nonce' (drop (Z.to_nat n) plaintext) fuel r2 c2) as (f3 & r3 & c3 & H1 & H2 & H3 & H4 & H5); auto; [lia| |].
  { rewrite Ha, !length_app in Hfu. rewrite Ha2, !length_app. unfold lenZ, CH_SS_LENGTH_FRAME_SIZE, CH_SS_TAG_SIZE in *. lia. }
  exists f3, r3, c3. split_and!; auto. rewrite H5, app_assoc, Hp2. reflexivity.
Qed.

Lemma loop_reads_nothing fuel cipher key nonce rounds calls :
  quiet rounds -> arrivals rounds = [] -> pump_loop fuel cipher key nonce rounds calls = [].
Proof. intros Hq Ha. destruct fuel; [reflexivity|]. cbn [pump_loop]. rewrite read_exact_nothing by (assumption || (vm_compute; lia)). reflexivity. Qed.
(** *** Keys *)

(** The blocks T(1), T(2), ... of RFC 5869, [n] of them from [counter] on. *)
Fixpoint hkdf_blocks (n : nat) (prk info previous : bytes) (counter : Z) : result bytes :=
  match n with
  | O => Done []
  | S n' =>
      t ← ch_ss_hmac_sha1 prk (previous ++ info ++ [counter]);
      rest ← hkdf_blocks n' prk info t (counter + 1);
      Done (t ++ rest)
  end.

Lemma hmac_length key data t : ch_ss_hmac_sha1 key data = Done t -> lenZ t = 20.
Proof.
  unfold ch_ss_hmac_sha1. case_if; [discriminate|]. destruct (hmac_sha1 key data) as [o|]; [|discriminate].
  case_if; [|discriminate]. intros E. injection E as <-. lia.
Qed.

(** The rest of the key, in whole blocks. *)
Lemma hkdf_loop_blocks n fuel prk info L counter previous out :
  20 * (Z.of_nat n - 1) < L - lenZ out <= 20 * Z.of_nat n -> 0 <= L - lenZ out -> (Z.to_nat (L - lenZ out) <= fuel)%nat ->
  0 <= counter -> counter + Z.of_nat n <= 256 ->
  hkdf_loop fuel prk info L counter previous out =
  (rest ← hkdf_blocks n prk info previous counter; Done (out ++ take (Z.to_nat (L - lenZ out)) rest)).
Proof.
  revert fuel counter previous out. induction n as [|n IH]; intros fuel counter previous out Hn H0L Hf Hc0 Hc.
  - assert (E : L - lenZ out = 0) by lia. cbn [hkdf_blocks mbind outcome_bind]. rewrite E. cbn [Z.to_nat take]. rewrite app_nil_r.
    destruct fuel; [reflexivity|]. cbn [hkdf_loop]. replace (lenZ out <? L) with false by lia. reflexivity.
  - destruct fuel as [|fuel]; [lia|]. cbn [hkdf_loop hkdf_blocks]. replace (lenZ out <? L) with true by lia.
    destruct (ch_ss_hmac_sha1 prk (previous ++ info ++ [counter])) as [t| |] eqn:Et; [|reflexivity..].
    cbn [mbind outcome_bind]. cbv zeta. apply hmac_length in Et. pose proof (lenZ_nonneg out).
    assert (Hs : 1 <= shorter (L - lenZ out) 20 <= 20 /\ shorter (L - lenZ out) 20 <= L - lenZ out /\
                 (shorter (L - lenZ out) 20 <> 20 -> n = 0%nat /\ shorter (L - lenZ out) 20 = L - lenZ out)).
    { unfold shorter. case_if; split_and!; try lia. }
    set (copy := shorter (L - lenZ out) 20) in *.
    assert (Hlen : lenZ (out ++ take (Z.to_nat copy) t) = lenZ out + copy).
    { rewrite lenZ_app. unfold lenZ in *. rewrite length_take. lia. }
    destruct (Z.eq_dec copy 20) as [E20|E20].
    + assert (Hu : n = 0%nat \/ u8 (counter + 1) = counter + 1).
      { destruct n as [|n']; [auto|right]. unfold u8. apply Z.mod_small. lia. }
      rewrite (IH fuel); try rewrite Hlen; try lia; [|unfold u8; apply Z.mod_pos_bound; lia|
        destruct Hu as [->| ->]; [|lia]; pose proof (Z.mod_pos_bound (counter + 1) (2 ^ 8) ltac:(lia)); unfold u8; lia].
      assert (Hb : hkdf_blocks n prk info t (u8 (counter + 1)) = hkdf_blocks n prk info t (counter + 1)).
      { destruct Hu as [->| ->]; reflexivity. }
      rewrite Hb. destruct (hkdf_blocks n prk info t (counter + 1)) as [rest| |]; [|reflexivity..]. cbn [mbind outcome_bind].
      rewrite <- app_assoc. do 2 f_equal. rewrite (firstn_all2 t) by (unfold lenZ in *; lia).
      rewrite take_app_ge by (unfold lenZ in *; lia). do 2 f_equal. unfold lenZ in *. lia.
    + destruct (proj2 (proj2 Hs) E20) as [-> Ecopy]. cbn [hkdf_blocks mbind outcome_bind]. rewrite app_nil_r, <- Ecopy.
      destruct fuel; [reflexivity|]. cbn [hkdf_loop]. rewrite Hlen. replace (lenZ out + copy <? L) with false by lia. reflexivity.
Qed.

(** The derivation of the subkeys is HKDF of RFC 5869: the first bytes of as
    many blocks as the key needs. *)
Theorem hkdf_is_rfc5869 secret salt info L :
  1 <= L <= 255 * 20 -> lenZ info <= 128 ->
  ch_ss_hkdf_sha1 secret salt info L =
  (prk ← ch_ss_hmac_sha1 salt secret;
   okm ← hkdf_blocks (Z.to_nat ((L + 19) / 20)) prk info [] 1;
   Done (take (Z.to_nat L) okm)).
Proof.
  intros HL Hi. unfold ch_ss_hkdf_sha1. replace (L =? 0) with false by lia. replace (L >? 255 * 20) with false by lia.
  replace (lenZ info >? 128) with false by lia. cbn [orb]. destruct (ch_ss_hmac_sha1 salt secret) as [prk| |]; [|reflexivity..].
  cbn [mbind outcome_bind]. pose proof (Z.div_mod (L + 19) 20 ltac:(lia)) as Hd. pose proof (Z.mod_pos_bound (L + 19) 20 ltac:(lia)) as Hm.
  rewrite (hkdf_loop_blocks (Z.to_nat ((L + 19) / 20))); rewrite ?lenZ_nil, ?Z.sub_0_r; try reflexivity; lia.
Qed.

Lemma hkdf_length secret salt info L key : ch_ss_hkdf_sha1 secret salt info L = Done key -> 0 <= L -> lenZ key = L.
Proof.
  intros E HL. assert (Hg : 1 <= L <= 255 * 20 /\ lenZ info <= 128).
  { unfold ch_ss_hkdf_sha1 in E. case_if_in E; [discriminate|]. lia. }
  rewrite hkdf_is_rfc5869 in E by lia. apply bind_Done_inv in E as (prk & _ & E). apply bind_Done_inv in E as (okm & Eo & E).
  injection E as <-. assert (Hb : forall n previous counter okm, hkdf_blocks n prk info previous counter = Done okm -> lenZ okm = 20 * Z.of_nat n).
  { intros n. induction n as [|n IH]; intros previous counter o Ho; cbn [hkdf_blocks] in Ho; [injection Ho as <-; reflexivity|].
    apply bind_Done_inv in Ho as (t & Et & Ho). apply bind_Done_inv in Ho as (r & Er & Ho). injection Ho as <-.
    apply hmac_length in Et. apply IH in Er. rewrite lenZ_app. lia. }
  apply Hb in Eo. pose proof (Z.div_mod (L + 19) 20 ltac:(lia)). pose proof (Z.mod_pos_bound (L + 19) 20 ltac:(lia)).
  unfold lenZ in *. rewrite length_take. lia.
Qed.

Lemma bytes_to_key_loop_length fuel password L previous out key :
  bytes_to_key_loop fuel password L previous out = Done key -> lenZ out <= L -> (Z.to_nat (L - lenZ out) <= fuel)%nat -> lenZ key = L.
Proof.
  revert previous out. induction fuel as [|fuel IH]; intros previous out E Hl Hf; cbn [bytes_to_key_loop] in E; [injection E as <-; lia|].
  case_if_in E; [|injection E as <-; lia]. destruct (md5 (previous ++ password)) as [digest|]; [|discriminate].
  case_if_in E; [|discriminate]. cbv zeta in E.
  assert (Hs : 1 <= shorter (L - lenZ out) 16 <= 16 /\ shorter (L - lenZ out) 16 <= L - lenZ out) by (unfold shorter; case_if; lia).
  apply IH in E; [exact E|..]; rewrite lenZ_app; unfold lenZ in *; rewrite length_take; lia.
Qed.

Lemma bytes_to_key_length password L key : 0 <= L -> ch_ss_evp_bytes_to_key password L = Done key -> lenZ key = L.
Proof.
  intros HL. unfold ch_ss_evp_bytes_to_key. case_if; [discriminate|]. intros E.
  apply bytes_to_key_loop_length in E; [exact E|..]; rewrite lenZ_nil; lia.
Qed.

(** *** Ciphers and salts *)

Lemma cipher_sizes name cipher : ch_ss_cipher_from_name name = Done cipher ->
  16 <= key_size cipher <= 32 /\ salt_size cipher = key_size cipher.
Proof.
  unfold ch_ss_cipher_from_name. intros E. repeat case_if_in E; try discriminate; injection E as <-; cbn; lia.
Qed.

Lemma salted_length cipher random prefix :
  0 <= salt_size cipher -> lenZ prefix <= salt_size cipher -> lenZ (salted cipher random prefix) = salt_size cipher.
Proof.
  intros Hs Hp. unfold salted, lenZ in *. rewrite Sha256.Sha256.put_length; rewrite ?length_map, ?length_seq; lia.
Qed.

Lemma salted_prefix cipher random prefix : take (length prefix) (salted cipher random prefix) = prefix.
Proof. unfold salted, put. change (Z.to_nat 0) with 0%nat. rewrite take_0, app_nil_l. apply take_app_length. Qed.

Lemma without_padding_bounds reversed actual : 0 <= actual -> 0 <= without_padding reversed actual <= actual.
Proof.
  revert actual. induction reversed as [|c r IH]; intros actual Ha; [cbn; lia|]. cbn [without_padding].
  destruct (Z.eq_dec c 61) as [->|Hc].
  - specialize (IH (if actual >? 0 then actual - 1 else actual)). case_if; lia.
  - destruct c as [|p|p]; try lia. repeat (destruct p as [p|p|]; try lia).
Qed.

(** The prefix fits into the salt, and the decoder stays in its buffer. *)
Lemma prefix_bounds encoded cipher :
  0 <= salt_size cipher ->
  match ch_ss_prefix_from_base64 encoded cipher with Done prefix => lenZ prefix <= salt_size cipher | Raise _ => True | Fault => False end.
Proof.
  intros Hs. unfold ch_ss_prefix_from_base64. cbv zeta. case_if; [cbn; exact Hs|]. case_if; [exact I|].
  destruct (EVP_DecodeBlock encoded) as [decoded|] eqn:Ed; [|exact I]. apply decode_block_bound in Ed. pose proof (lenZ_nonneg decoded).
  replace (lenZ decoded >? 33) with false by lia. pose proof (without_padding_bounds (reverse encoded) (lenZ decoded) ltac:(lia)).
  case_if; [exact I|]. rewrite rds_Done by lia. rewrite lenZ_sub by lia. lia.
Qed.

Lemma nonce_zero : zero_nonce = nonce_of 0.
Proof. reflexivity. Qed.
(** *** Whole streams *)

(** What the caller hands over until it closes. *)
Fixpoint given (rounds : list local_round) : bytes :=
  match rounds with
  | Local_interrupted :: rounds' => given rounds'
  | Local_data data _ :: rounds' => if lenZ data =? 0 then [] else data ++ given rounds'
  | _ => []
  end.

Definition accepted_rounds (rounds : list local_round) : Prop :=
  Forall (fun round => match round with Local_data _ calls => accepting calls | _ => True end) rounds.

Lemma outgoing_reads pump nonce locals fuel rounds calls :
  ready (p_cipher pump) -> accepted_rounds locals -> quiet rounds -> accepting calls ->
  arrivals rounds = (ch_ss_outgoing_main pump nonce locals).1 -> (length (arrivals rounds) <= fuel)%nat ->
  pump_loop fuel (p_cipher pump) (write_subkey pump) nonce rounds calls = given locals.
Proof.
  intros Hr Hl. revert nonce fuel rounds calls. induction Hl as [|local locals Hloc Hl IH]; intros nonce fuel rounds calls Hq Hc Ha Hf.
  { apply loop_reads_nothing; assumption. }
  destruct local as [| |data wcalls|hung]; cbn [ch_ss_outgoing_main given] in *; try (apply loop_reads_nothing; assumption).
  { apply IH; assumption. }
  destruct (lenZ data =? 0) eqn:E0; [apply loop_reads_nothing; assumption|].
  unfold ch_ss_write_chunks in Ha.
  destruct (write_chunks_succeed (length data) wcalls (p_cipher pump) (write_subkey pump) nonce data Hr Hloc) as [Hw _].
  rewrite Hw in Ha. destruct (ch_ss_outgoing_main pump _ locals) as [rest how] eqn:Eo. cbn [fst] in Ha.
  destruct (loop_reads_frames (length data) wcalls (p_cipher pump) (write_subkey pump) nonce data rest fuel rounds calls
              (le_n _) Hw Hq Hc Ha Hf) as (f' & r' & c' & H1 & H2 & H3 & H4 & ->).
  f_equal. apply IH; auto; [rewrite Eo; exact H3|rewrite H3; exact H4].
Qed.

Lemma write_ready calls cipher key nonce plaintext :
  0 < lenZ plaintext -> write_result (ch_ss_write_chunks calls cipher key nonce plaintext) = Done tt -> ready cipher.
Proof.
  intros Hp. unfold ch_ss_write_chunks. destruct plaintext as [|x p]; [change (lenZ []) with 0 in Hp; lia|]. cbn [length write_chunks_loop].
  replace (lenZ (x :: p) >? 0) with true by lia. cbv zeta. unfold ch_ss_encrypt_chunk at 1. case_if; [discriminate|].
  destruct (ch_ss_encrypt _ _ nonce (length_bytes _)) as [[c t]| |] eqn:E; try discriminate. intros _. apply (ss_encrypt_ready _ _ _ _ _ _ E).
Qed.

Section Streams.
Context {D : Type} `{Inet}.

Lemma encoded_nonempty target address : Socks.ch_socks_encode_address target = Done address -> 0 < lenZ address.
Proof.
  unfold Socks.ch_socks_encode_address. intros E. apply bind_Done_inv in E as ([host port] & _ & E).
  destruct (pton4 host); [|destruct (pton6 host)]; injection E as <-; cbn [app]; rewrite lenZ_cons;
    match goal with |- context [lenZ ?l] => pose proof (lenZ_nonneg l) end; lia.
Qed.

Lemma dial_keys_lengths (settings : option (Config.toml_table D)) cipher key prefix :
  dial_keys settings = Done (cipher, key, prefix) ->
  16 <= salt_size cipher <= 32 /\ lenZ key = key_size cipher /\ lenZ prefix <= salt_size cipher.
Proof.
  unfold dial_keys. cbv zeta. case_if; [discriminate|]. intros E. apply bind_Done_inv in E as (c & Ec & E).
  apply bind_Done_inv in E as (k & Ek & E). apply bind_Done_inv in E as (p & Ep & E). injection E as <- <- <-.
  apply cipher_sizes in Ec as [K1 K2]. apply bytes_to_key_length in Ek; [|lia].
  match type of Ep with ch_ss_prefix_from_base64 ?e _ = _ => pose proof (prefix_bounds e c ltac:(lia)) as Hp end. rewrite Ep in Hp. lia.
Qed.

(** What a dial that succeeds has done. *)
Lemma dial_sent (server : Config.toml_table D) underlying target env sent pump :
  ch_protocol_shadowsocks_dial server underlying target env = (sent, Done pump) ->
  exists salt address calls,
    let w := ch_ss_write_chunks calls (p_cipher pump) (write_subkey pump) zero_nonce address in
    lenZ salt = salt_size (p_cipher pump) /\ lenZ (master_key pump) = key_size (p_cipher pump) /\
    ch_ss_hkdf_sha1 (master_key pump) salt info (key_size (p_cipher pump)) = Done (write_subkey pump) /\
    Socks.ch_socks_encode_address target = Done address /\
    write_result w = Done tt /\ sent = salt ++ on_network w /\ write_nonce pump = nonce_after w.
Proof.
  unfold ch_protocol_shadowsocks_dial. intros E.
  destruct (dial_keys _) as [[[cipher key] prefix]| |] eqn:Ek; try (injection E as _ E; discriminate).
  apply dial_keys_lengths in Ek as (K1 & K2 & K3). cbv zeta in E.
  match type of E with (match ?m with _ => _ end = _) => destruct m end; try (injection E as _ E; discriminate).
  destruct (rand_bytes env) as [random|]; [|discriminate].
  destruct (ch_ss_send_all (sends env) (salted cipher random prefix)) as [[s calls] [m|]] eqn:Es; [discriminate|].
  apply send_all_sent in Es as ->.
  match type of E with (match ?m with _ => _ end = _) => destruct m as [[subkey address]| |] eqn:Em end; try (injection E as _ E; discriminate).
  apply bind_Done_inv in Em as (sk & Esk & Em). apply bind_Done_inv in Em as (addr & Ea & Em).
  apply done_pair in Em as [-> ->].
  destruct (write_result (ch_ss_write_chunks calls cipher subkey zero_nonce address)) as [[]| |] eqn:Ew; [|discriminate..].
  cbn [mbind outcome_bind] in E. destruct (socketpair env); [discriminate|]. destruct (thread_started env); [|discriminate].
  injection E as <- <-. exists (salted cipher random prefix), address, calls. cbn [p_cipher write_subkey master_key write_nonce].
  split_and!; auto. apply salted_length; lia.
Qed.

(** *** Properties *)

(** C14: Shadowsocks streams survive the network.  After a dial that succeeds,
    whatever the caller writes, in whatever pieces, and however the network
    takes and delivers the bytes, a peer that reads with the same master key
    receives exactly the target's address followed by what the caller wrote,
    and decodes the address to the host and port of the target. *)
Theorem shadowsocks_stream_round_trip (server : Config.toml_table D) underlying target env sent pump locals peer rounds calls :
  ch_protocol_shadowsocks_dial server underlying target env = (sent, Done pump) ->
  accepted_rounds locals ->
  p_cipher peer = p_cipher pump -> master_key peer = master_key pump ->
  quiet rounds -> accepting calls ->
  arrivals rounds = sent ++ (ch_ss_outgoing_main pump (write_nonce pump) locals).1 ->
  exists address host port,
    Socks.ch_socks_encode_address target = Done address /\
    Socks.ch_socks_split_address target = Done (host, port) /\
    ch_ss_pump_main peer true rounds calls = address ++ given locals /\
    Socks.ch_socks_decode_address (ch_ss_pump_main peer true rounds calls) = Done (Socks.canonical host, port, lenZ address).
Proof.
  intros Hd Hl Hpc Hpk Hq Hc Ha. destruct (dial_sent _ _ _ _ _ _ Hd) as (salt & address & wcalls & Hs & Hk & Hh & He & Hw & -> & Hn).
  pose proof (encoded_nonempty _ _ He) as Hne. pose proof (write_ready _ _ _ _ _ Hne Hw) as Hr.
  assert (Hmain : ch_ss_pump_main peer true rounds calls = address ++ given locals).
  { unfold ch_ss_pump_main. rewrite Hpc, Hpk. replace (Z.to_nat (salt_size (p_cipher pump))) with (length salt) by (unfold lenZ in Hs; lia).
    rewrite <- app_assoc in Ha. destruct (read_exact_arrives rounds salt _ Hq Ha) as (r1 & -> & Hq1 & Ha1).
    rewrite (firstn_all2 (master_key pump)) by (unfold lenZ in Hk; lia). rewrite Hh.
    destruct (loop_reads_frames (length address) wcalls (p_cipher pump) (write_subkey pump) zero_nonce address _ (length (arrivals r1)) r1 calls
                (le_n _) Hw Hq1 Hc Ha1 (le_n _)) as (f2 & r2 & c2 & K1 & K2 & K3 & K4 & ->).
    f_equal. fold (ch_ss_write_chunks wcalls (p_cipher pump) (write_subkey pump) zero_nonce address). rewrite <- Hn.
    apply outgoing_reads; auto. rewrite K3. exact K4. }
  pose proof He as He'. unfold Socks.ch_socks_encode_address in He'. apply bind_Done_inv in He' as ([host port] & Hsp & _).
  exists address, host, port. rewrite Hmain. split_and!; auto. apply (Socks.encode_decode target); assumption.
Qed.

(** C15: No nonce is used twice.  What a writer with the nonce of number [v]
    puts on the network is the sequence of its pieces, none empty or larger
    than the limit, each preceded by its length, the k-th of these texts sealed
    under the nonce of number [v + k], where different numbers below 2^96 have
    different nonces; the writer is left with the next nonce. *)
Theorem stream_frames_and_nonces calls cipher subkey v plaintext :
  let w := ch_ss_write_chunks calls cipher subkey (nonce_of v) plaintext in
  write_result w = Done tt ->
  exists pieces, concat pieces = plaintext /\ Forall (fun p => 1 <= lenZ p <= CH_SS_MAX_CHUNK) pieces /\
    on_network w = frames cipher subkey v pieces /\ nonce_after w = nonce_of (v + 2 * lenZ pieces) /\
    (forall i j, 0 <= i < 2 ^ 96 -> 0 <= j < 2 ^ 96 -> nonce_of i = nonce_of j -> i = j).
Proof.
  cbv zeta. intros Hw. destruct (write_loop_frames _ _ _ _ _ _ (le_n _) Hw) as (pieces & K1 & K2 & K3 & K4).
  exists pieces. split_and!; auto. intros i j Hi Hj. apply (le_bytes_injective CH_SS_NONCE_SIZE); assumption.
Qed.

(** C16: Shadowsocks datagrams survive the network.  Whatever frame is made
    for a target and a payload has at most 65535 bytes (the limit of 65507 for
    the payload of UDP is checked by the packet connection, before it sends),
    begins with the configured prefix, and decrypts under the same key to the
    payload and the text of the target (an IP literal in canonical form). *)
Theorem shadowsocks_datagram_round_trip name cipher master_key prefix target payload random frame :
  ch_ss_cipher_from_name name = Done cipher ->
  ch_ss_encrypt_datagram_with_prefix cipher master_key prefix target payload random = Done frame ->
  exists host port, Socks.ch_socks_split_address target = Done (host, port) /\
    ch_ss_decrypt_datagram cipher master_key frame = Done (endpoint_text (Socks.canonical host) port, payload) /\
    lenZ frame <= 65535 /\ take (length prefix) frame = prefix.
Proof.
  intros Hname E. apply cipher_sizes in Hname as [Hk Hss]. unfold ch_ss_encrypt_datagram_with_prefix in E. case_if_in E; [discriminate|].
  apply bind_Done_inv in E as (address & Ea & E). case_if_in E; [discriminate|]. destruct random as [random|]; [|discriminate].
  apply bind_Done_inv in E as (subkey & Esk & E).
  destruct (ch_ss_encrypt cipher subkey zero_nonce (address ++ payload)) as [[c t]| |] eqn:Ee; try discriminate. injection E as <-.
  pose proof (ss_encrypt_lengths _ _ _ _ _ _ Ee) as [Hc Ht]. rewrite lenZ_app in Hc.
  pose proof (encoded_nonempty _ _ Ea). pose proof (lenZ_nonneg payload).
  pose proof Ea as Ea'. unfold Socks.ch_socks_encode_address in Ea'. apply bind_Done_inv in Ea' as ([host port] & Hsp & _).
  exists host, port. split; [exact Hsp|]. set (salt := salted cipher random prefix) in *.
  assert (Hs : lenZ salt = salt_size cipher) by (apply salted_length; lia).
  assert (Hlen : lenZ (salt ++ c ++ t) = salt_size cipher + (lenZ address + lenZ payload) + CH_SS_TAG_SIZE).
  { rewrite !lenZ_app. lia. }
  split; [|split; [rewrite Hlen; unfold CH_SS_TAG_SIZE in *; lia|]].
  2:{ rewrite take_app_le by (unfold lenZ in *; lia). apply salted_prefix. }
  unfold ch_ss_decrypt_datagram. cbv zeta. rewrite Hlen. unfold CH_SS_TAG_SIZE in *.
  match goal with |- context [if ?b then _ else _] => replace b with false by lia end.
  assert (R1 : @rds ch_error (salt ++ c ++ t) 0 (salt_size cipher) = Done salt) by (apply (rds_mid [] salt); auto).
  assert (R2 : forall n, n = lenZ c -> @rds ch_error (salt ++ c ++ t) (salt_size cipher) n = Done c) by (intros; apply rds_mid; auto).
  assert (R3 : forall i, i = lenZ (salt ++ c) -> @rds ch_error (salt ++ c ++ t) i 16 = Done t).
  { intros i Hi. pose proof (@rds_mid ch_error (salt ++ c) t [] i 16 Hi (eq_sym Ht)) as R. rewrite app_nil_r, <- app_assoc in R. exact R. }
  rewrite R1, R2, R3 by (rewrite ?lenZ_app; lia). cbn [mbind outcome_bind].
  rewrite Esk, (ss_decrypt_encrypt _ _ _ _ _ _ Ee), (Socks.encode_decode target host port address payload Hsp Ea). cbn [mbind outcome_bind].
  match goal with |- context [if ?b then _ else _] => replace b with false by lia end.
  assert (R4 : forall n, n = lenZ payload -> @rds ch_error (address ++ payload) (lenZ address) n = Done payload).
  { intros n Hn. pose proof (@rds_mid ch_error address payload [] _ n eq_refl Hn) as R. rewrite app_nil_r in R. exact R. }
  rewrite R4 by lia. reflexivity.
Qed.

End Streams.
End Protocol.
(** ** Witnesses *)

(** A cipher and digests in the place of OpenSSL's. *)
Module PlainCrypto.

Definition masked (text : bytes) : bytes := map (fun b => Z.lxor b 165) text.
Definition mixed (n : nat) (parts : list bytes) : bytes :=
  let sum := fold_right Z.add 0 (concat parts) in map (fun i => (sum + Z.of_nat i) mod 256) (seq 0 n).

Lemma masked_twice text : masked (masked text) = text.
Proof.
  unfold masked. rewrite map_map. rewrite <- (map_id text) at 2. apply map_ext. intros b.
  rewrite Z.lxor_assoc, Z.lxor_nilpotent, Z.lxor_0_r. reflexivity.
Qed.

#[export, refine] Instance plain_evp : Evp := {|
  evp_cipher c := true;
  evp_init c := true;
  evp_seal c key nonce aad text := (masked text, mixed TAG_SIZE [key; nonce; aad; text]);
  evp_open c key nonce aad text := (masked text, mixed TAG_SIZE [key; nonce; aad; masked text])
|}.
Proof.
  - intros. apply length_map.
  - intros. apply length_map.
  - intros. apply length_map.
  - intros. cbn [fst snd]. rewrite masked_twice. reflexivity.
Defined.

#[export, refine] Instance plain_digest : Digest := {|
  md5 text := Some (mixed 16 [text]);
  hmac_sha1 key text := Some (mixed 20 [key; text]);
  EVP_DecodeBlock text := Some (take (3 * (length text / 4)) text)
|}.
Proof.
  intros text decoded E. assert (decoded = take (3 * (length text / 4)) text) as -> by congruence. unfold lenZ. rewrite length_take.
  pose proof (Nat.Div0.mul_div_le (length text) 4) as Hd. revert Hd. generalize (length text / 4)%nat. lia.
Defined.

End PlainCrypto.

Section Witnesses.
Import PlainInet PlainCrypto.

Definition w_string (key value : String.string) : bytes * Config.toml_raw unit :=
  (str key, Config.mk_raw (Some (str value)) None None None).

Definition w_server : Config.toml_table unit :=
  Config.mk_table [w_string "address" "192.0.2.1:8388"] []
    [(str "settings", Config.mk_table [w_string "method" "aes-128-gcm"; w_string "password" "secret"; w_string "prefix_base64" "R0VU"] [] [])].

Definition w_env : dial_env :=
  mk_dial_env (fun _ => Done tt) (Some (fun i => Z.of_nat i)) [Accepted 3; Interrupted; Accepted 100; Accepted 5] None true.

Definition w_locals : list local_round :=
  [Local_data (str "hello") [Accepted 1; Interrupted]; Local_interrupted; Local_data (str " world") []; Local_end false].

Abbreviation w_dialed := (ch_protocol_shadowsocks_dial w_server false (str "example.com:443") w_env).

Definition pump_of (r : result ch_ss_pump) : ch_ss_pump :=
  match r with Done p => p | _ => mk_pump (mk_cipher CH_SS_AES_128_GCM 0 0) [] [] [] end.

Lemma w_dialed_done : w_dialed = (w_dialed.1, Done (pump_of w_dialed.2)).
Proof. vm_compute. reflexivity. Qed.

Definition w_wire : bytes := w_dialed.1 ++ (ch_ss_outgoing_main (pump_of w_dialed.2) (write_nonce (pump_of w_dialed.2)) w_locals).1.

(** The network cuts the stream into other pieces. *)
Definition w_rounds : list net_round := [Arrived (take 20 w_wire); Idle; Arrived (take 13 (drop 20 w_wire)); Recv_interrupted; Arrived (drop 33 w_wire)].

Lemma w_rounds_quiet : quiet w_rounds.
Proof. repeat constructor; vm_compute; discriminate. Qed.

Lemma shadowsocks_stream_round_trip_witness :
  ch_ss_pump_main (pump_of w_dialed.2) true w_rounds [Accepted 4] =
  [3; 11] ++ str "example.com" ++ [1; 187] ++ str "hello world" /\
  exists address host port,
    Socks.ch_socks_encode_address (str "example.com:443") = Done address /\
    Socks.ch_socks_split_address (str "example.com:443") = Done (host, port) /\
    ch_ss_pump_main (pump_of w_dialed.2) true w_rounds [Accepted 4] = address ++ given w_locals /\
    Socks.ch_socks_decode_address (ch_ss_pump_main (pump_of w_dialed.2) true w_rounds [Accepted 4])
    = Done (Socks.canonical host, port, lenZ address).
Proof.
  split; [vm_compute; reflexivity|].
  apply (shadowsocks_stream_round_trip w_server false (str "example.com:443") w_env w_dialed.1 (pump_of w_dialed.2) w_locals).
  - exact w_dialed_done.
  - repeat constructor; lia.
  - reflexivity.
  - reflexivity.
  - exact w_rounds_quiet.
  - repeat constructor; lia.
  - vm_compute. reflexivity.
Defined.

Lemma stream_frames_and_nonces_witness :
  exists pieces, concat pieces = str "hello" /\ Forall (fun p => 1 <= lenZ p <= CH_SS_MAX_CHUNK) pieces /\
    on_network (ch_ss_write_chunks [] (mk_cipher CH_SS_AES_128_GCM 16 16) (str "0123456789abcdef") (nonce_of 255) (str "hello"))
    = frames (mk_cipher CH_SS_AES_128_GCM 16 16) (str "0123456789abcdef") 255 pieces /\
    nonce_after (ch_ss_write_chunks [] (mk_cipher CH_SS_AES_128_GCM 16 16) (str "0123456789abcdef") (nonce_of 255) (str "hello"))
    = nonce_of (255 + 2 * lenZ pieces) /\
    (forall i j, 0 <= i < 2 ^ 96 -> 0 <= j < 2 ^ 96 -> nonce_of i = nonce_of j -> i = j).
Proof. apply stream_frames_and_nonces. vm_compute. reflexivity. Defined.

Abbreviation w_frame := (ch_ss_encrypt_datagram_with_prefix (mk_cipher CH_SS_CHACHA20_IETF_POLY1305 32 32) (str "0123456789abcdef0123456789abcdef")
  (str "GET") (str "[2001:db8::1]:53") (str "ping") (Some (fun i => Z.of_nat i))).

Lemma shadowsocks_datagram_round_trip_witness :
  exists host port, Socks.ch_socks_split_address (str "[2001:db8::1]:53") = Done (host, port) /\
    ch_ss_decrypt_datagram (mk_cipher CH_SS_CHACHA20_IETF_POLY1305 32 32) (str "0123456789abcdef0123456789abcdef")
      (match w_frame with Done f => f | _ => [] end) = Done (endpoint_text (Socks.canonical host) port, str "ping") /\
    lenZ (match w_frame with Done f => f | _ => [] end) <= 65535 /\
    take (length (str "GET")) (match w_frame with Done f => f | _ => [] end) = str "GET".
Proof.
  apply (shadowsocks_datagram_round_trip (str "chacha20-ietf-poly1305")) with (random := Some (fun i => Z.of_nat i)).
  - vm_compute. reflexivity.
  - vm_compute. reflexivity.
Defined.

End Witnesses.
End Shadowsocks.
