(* ===== verification/Chain.v ===== *)
(** * Chains of proxies: [native/src/protocol.c]

    How a connection through a chain is made, hop by hop; the Trojan header;
    the TLS settings of a hop; and the thread that moves bytes between the
    caller's descriptor and a TLS stream.

    A connected descriptor is a value of a type [C], and the protocols that
    this file calls are the record [dialers] over it.  The results of the
    system calls and of OpenSSL are arguments; allocation is taken to
    succeed. *)

From S2P Require Import Prelude CLib Inet Socks Sha256 Crypto Config.

Module Chain.


Definition CH_PROTOCOL_BUFFER_SIZE : Z := 32768.

(** ** Targets and sockets *)

Definition ch_protocol_split_target (target : bytes) : result (bytes * bytes) :=
  match target with
  | [] => fail CH_ERROR_INVALID_ARGUMENT (str "dial target is required")
  | 91 :: host_start =>
      match split_first 93 host_start with
      | Some (host, 58 :: service) =>
          if beq service [] then fail CH_ERROR_INVALID_ARGUMENT (str "invalid bracketed dial target") else Done (host, service)
      | _ => fail CH_ERROR_INVALID_ARGUMENT (str "invalid bracketed dial target")
      end
  | _ =>
      match split_last 58 target with
      | Some (host, service) =>
          if beq host [] || beq service [] || bool_decide (58 ∈ host) then
            fail CH_ERROR_INVALID_ARGUMENT (str "dial target must be host:port")
          else Done (host, service)
      | None => fail CH_ERROR_INVALID_ARGUMENT (str "dial target must be host:port")
      end
  end.

(** What connecting to one address of the target reports: a descriptor, or the
    text of the error that is kept when the next address is tried. *)
Inductive attempt (S : Type) : Type := Connected (descriptor : S) | Not_connected (saved_error : bytes).
Arguments Connected {S} _.
Arguments Not_connected {S} _.

Fixpoint first_connected {S} (attempts : list (attempt S)) (saved_error : bytes) : S + bytes :=
  match attempts with
  | [] => inr saved_error
  | Connected descriptor :: _ => inl descriptor
  | Not_connected saved_error :: attempts' => first_connected attempts' saved_error
  end.

(** [lookup]: the attempts at the addresses that [getaddrinfo] returns, or the
    text of its error; [unreachable]: the text of EHOSTUNREACH. *)
Definition ch_protocol_connect_tcp {S} (lookup : bytes -> bytes -> list (attempt S) + bytes) (unreachable target : bytes)
    : result S :=
  '(host, service) ← ch_protocol_split_target target;
  match lookup host service with
  | inr message => fail CH_ERROR_IO (str "resolve dial target: " ++ message)
  | inl attempts =>
      match first_connected attempts unreachable with
      | inl descriptor => Done descriptor
      | inr message => fail CH_ERROR_IO (str "dial " ++ target ++ str ": " ++ message)
      end
  end.

(** ** Trojan *)

Definition hex : bytes := str "0123456789abcdef".

Definition hex_bytes (digest : bytes) : bytes :=
  concat (map (fun b => [byte_at hex (Z.shiftr b 4); byte_at hex (Z.land b 15)]) digest).

Section Trojan.
Context `{Inet}.

Definition ch_protocol_trojan_header_command (password : bytes) (command : Z) (target : bytes) : result bytes :=
  if beq password [] then
    fail CH_ERROR_INVALID_ARGUMENT (str "trojan password, target, and output are required")
  else
    address ← Socks.ch_socks_encode_address target;
    if lenZ address >? SIZE_MAX - 61 then fail CH_ERROR_OUT_OF_MEMORY (str "allocate Trojan header")
    else Done (hex_bytes (Crypto.cnet_sha224 password) ++ [13; 10] ++ [command] ++ address ++ [13; 10]).

Definition ch_protocol_trojan_header (password target : bytes) : result bytes :=
  ch_protocol_trojan_header_command password 1 target.

End Trojan.

(** ** TLS *)

Section Settings.
Context {D : Type} `{Inet}.
Implicit Types (settings server chain : Config.toml_table D).

Definition ch_protocol_optional_string (table : option (Config.toml_table D)) (key : String.string) : bytes :=
  match table with
  | None => []
  | Some t => match Config.ch_config_table_get_string t (str key) with Done s => s | _ => [] end
  end.

(** What the peer's certificate is checked for. *)
Inductive verification : Type := Verify_none | Verify_ip (address : bytes) | Verify_host (name : bytes).

(** What a TLS stream is configured with. *)
Record tls_config : Type := mk_tls {
  tls_verify : verification;
  tls_sni : option bytes;
  tls_alpn : option bytes
}.

(** Which of OpenSSL's settings succeed. *)
Record tls_calls : Type := mk_tls_calls {
  verify_paths : bool;
  set_ip : bool;
  set_host : bool;
  set_sni : bool;
  set_alpn : bool
}.

Definition is_ip (text : bytes) : bool :=
  match pton4 text with Some _ => true | None => match pton6 text with Some _ => true | None => false end end.

(** The list of protocols on the wire, each with its length before it. *)
Fixpoint alpn_wire (label : bytes) (values : list (Config.toml_item D)) (wire : bytes) : result bytes :=
  match values with
  | [] => Done wire
  | item :: values' =>
      match Config.string_at item with
      | Some value =>
          if beq value [] || (lenZ value >? 255) || (lenZ wire >? 65535 - lenZ value - 1) then
            fail CH_ERROR_INVALID_ARGUMENT (label ++ str " ALPN entries must contain 1 to 255 bytes")
          else alpn_wire label values' (wire ++ [lenZ value] ++ value)
      | None => fail CH_ERROR_INVALID_ARGUMENT (label ++ str " ALPN entries must contain 1 to 255 bytes")
      end
  end.

Definition ch_protocol_tls_configure (calls : tls_calls) (settings : option (Config.toml_table D)) (server_address label : bytes)
    : result tls_config :=
  let sni := ch_protocol_optional_string settings "sni" in
  sni ← (if beq sni [] then '(host, _) ← ch_protocol_split_target server_address; Done host else Done sni);
  let skip_verify :=
    match settings with
    | Some t => match Config.ch_config_table_get_bool t (str "skip_cert_verify") with Done b => b | _ => false end
    | None => false
    end in
  verify ←
    (if skip_verify then Done Verify_none
     else if negb (verify_paths calls) then fail CH_ERROR_IO (label ++ str " load default certificate authorities failed")
     else if is_ip sni then
       if set_ip calls then Done (Verify_ip sni)
       else fail CH_ERROR_IO (label ++ str " configure certificate IP verification failed")
     else if set_host calls then Done (Verify_host sni)
     else fail CH_ERROR_IO (label ++ str " configure certificate hostname verification failed"));
  tls_name ←
    (if negb (beq sni []) && negb (is_ip sni) then
       if set_sni calls then Done (Some sni) else fail CH_ERROR_IO (label ++ str " configure SNI failed")
     else Done None);
  let values := match settings with Some t => Config.items (Config.toml_array_in t (str "alpn")) | None => [] end in
  if lenZ values =? 0 then Done (mk_tls verify tls_name None)
  else
    wire ← alpn_wire label values [];
    if set_alpn calls then Done (mk_tls verify tls_name (Some wire))
    else fail CH_ERROR_IO (label ++ str " configure ALPN failed").

(** What [SSL_write] returned; after the last report the rest is taken.  The
    bytes written, and the text of the error. *)
Inductive ssl_write : Type := Ssl_wrote (count : Z) | Ssl_failed (detail : bytes).

Fixpoint ch_protocol_ssl_write_all (writes : list ssl_write) (data label : bytes) : bytes * result unit :=
  if lenZ data =? 0 then ([], Done tt)
  else
    match writes with
    | [] => (data, Done tt)
    | Ssl_failed detail :: _ => ([], fail CH_ERROR_IO (label ++ str " write handshake failed: " ++ detail))
    | Ssl_wrote written :: writes' =>
        let '(rest, r) := ch_protocol_ssl_write_all writes' (drop (Z.to_nat written) data) label in
        (take (Z.to_nat written) data ++ rest, r)
    end.

(** What OpenSSL and the system report while a stream is wrapped. *)
Record tls_session : Type := mk_tls_session {
  context_created : bool;
  stream_created : bool;
  configured : tls_calls;
  handshake_error : option bytes;
  payload_writes : list ssl_write;
  pair_error : option bytes;
  pump_started : bool
}.

(** What has been written through the TLS stream, and its configuration. *)
Definition ch_protocol_tls_wrap (session : tls_session) (settings : option (Config.toml_table D))
    (server_address initial_payload label : bytes) : bytes * result tls_config :=
  if negb (context_created session) then ([], fail CH_ERROR_IO (str "create " ++ label ++ str " TLS context failed"))
  else if negb (stream_created session) then ([], fail CH_ERROR_IO (str "create " ++ label ++ str " TLS stream failed"))
  else
    match ch_protocol_tls_configure (configured session) settings server_address label with
    | Raise e => ([], Raise e)
    | Fault => ([], Fault)
    | Done config =>
        match handshake_error session with
        | Some detail => ([], fail CH_ERROR_IO (label ++ str " TLS handshake failed: " ++ detail))
        | None =>
            let '(sent, status) := ch_protocol_ssl_write_all (payload_writes session) initial_payload label in
            (sent,
             _ ← status;
             match pair_error session with
             | Some message => fail CH_ERROR_IO (str "create " ++ label ++ str " TLS relay stream: " ++ message)
             | None =>
                 if pump_started session then Done config
                 else fail CH_ERROR_IO (str "start " ++ label ++ str " TLS relay stream failed")
             end)
        end
    end.

(** ** Hops *)

(** The protocols over connections of type [C].  [None] for the underlying
    connection stands for the descriptor -1. *)
Record dialers (C : Type) : Type := mk_dialers {
  connect_tcp : bytes -> result C;
  tls_wrap : option (Config.toml_table D) -> bytes -> C -> bytes -> bytes -> result C;
  shadowsocks_dial : option (Config.toml_table D) -> option C -> bytes -> result C;
  shadowtls_dial : option (Config.toml_table D) -> option C -> result C;
  tor_dial : option (Config.toml_table D) -> option C -> bytes -> result C;
  vmess_dial : option (Config.toml_table D) -> option C -> bytes -> result C;
  vmess_packet_stream : option (Config.toml_table D) -> option C -> bytes -> result C;
  wireguard_dial : option (Config.toml_table D) -> bytes -> result C;
  openvpn_dial : option (Config.toml_table D) -> bytes -> result C
}.
Arguments connect_tcp {C} _.
Arguments tls_wrap {C} _.
Arguments shadowsocks_dial {C} _.
Arguments shadowtls_dial {C} _.
Arguments tor_dial {C} _.
Arguments vmess_dial {C} _.
Arguments vmess_packet_stream {C} _.
Arguments wireguard_dial {C} _.
Arguments openvpn_dial {C} _.

Section Dial.
Context {C : Type} (net : dialers C).

Definition ch_protocol_trojan_dial_command (server : option (Config.toml_table D)) (underlying : option C) (target : bytes)
    (command : Z) : result C :=
  let settings := t ← server; Config.toml_table_in t (str "settings") in
  let password := ch_protocol_optional_string settings "password" in
  let server_address := ch_protocol_optional_string server "address" in
  if beq password [] then fail CH_ERROR_INVALID_ARGUMENT (str "trojan password is required")
  else
    underlying ←
      (match underlying with
       | Some c => Done c
       | None =>
           if beq server_address [] then fail CH_ERROR_INVALID_ARGUMENT (str "trojan server address is required")
           else connect_tcp net server_address
       end);
    header ← ch_protocol_trojan_header_command password command target;
    tls_wrap net settings server_address underlying header (str "trojan").

Definition ch_protocol_trojan_dial (server : option (Config.toml_table D)) (underlying : option C) (target : bytes) : result C :=
  ch_protocol_trojan_dial_command server underlying target 1.

Definition ch_protocol_trojan_packet_stream (server : option (Config.toml_table D)) (underlying : option C) : result C :=
  ch_protocol_trojan_dial_command server underlying (str "0.0.0.0:0") 3.

(** One hop of a chain of [count] servers; [last] for the last of them. *)
Definition dial_hop (count : Z) (first last : bool) (server : option (Config.toml_table D)) (descriptor : option C)
    (target hop_target : bytes) : result C :=
  let protocol := ch_protocol_optional_string server "protocol" in
  let of_kind name := strcaseeq protocol (str name) in
  let alone := (count =? 1) && first && match descriptor with None => true | Some _ => false end in
  if of_kind "direct"%string && (count =? 1) then connect_tcp net target
  else if of_kind "trojan"%string || of_kind "clambback"%string then ch_protocol_trojan_dial server descriptor hop_target
  else if of_kind "shadowsocks"%string then shadowsocks_dial net server descriptor hop_target
  else if of_kind "shadowtls"%string then
    if last then fail CH_ERROR_INVALID_ARGUMENT (str "shadowtls must be followed by an addressed protocol")
    else shadowtls_dial net server descriptor
  else if of_kind "tor"%string then tor_dial net server descriptor hop_target
  else if of_kind "vmess"%string then vmess_dial net server descriptor hop_target
  else if of_kind "wireguard"%string then
    if alone then wireguard_dial net server target
    else fail CH_ERROR_UNSUPPORTED (str "wireguard must be used as a single-hop chain")
  else if of_kind "openvpn"%string then
    if alone then openvpn_dial net server target
    else fail CH_ERROR_UNSUPPORTED (str "openvpn must be used as a single-hop chain")
  else fail CH_ERROR_UNSUPPORTED (str "native protocol " ++ protocol ++ str " is not ported yet").

(** The loop over the servers. *)
Fixpoint dial_hops (count : Z) (servers : list (Config.toml_item D)) (first : bool) (descriptor : option C) (target : bytes)
    : result (option C) :=
  match servers with
  | [] => Done descriptor
  | server :: servers' =>
      hop_target ←
        (match servers' with
         | [] => Done target
         | next :: _ =>
             let next_address := ch_protocol_optional_string (Config.table_at next) "address" in
             if beq next_address [] then fail CH_ERROR_INVALID_ARGUMENT (str "chained server address is required")
             else Done next_address
         end);
      descriptor ← dial_hop count first (match servers' with [] => true | _ => false end)
                     (Config.table_at server) descriptor target hop_target;
      dial_hops count servers' false (Some descriptor) target
  end.

Definition servers_of chain : list (Config.toml_item D) := Config.items (Config.toml_array_in chain (str "server")).

(** [Done None] would be a success without a descriptor. *)
Definition ch_protocol_chain_dial_current chain (network target : bytes) : result (option C) :=
  if negb (strcaseeq network (str "tcp")) then
    fail CH_ERROR_UNSUPPORTED (str "native encrypted chains currently support TCP only")
  else if lenZ (servers_of chain) =? 0 then
    fail CH_ERROR_INVALID_ARGUMENT (str "native chain requires at least one server")
  else dial_hops (lenZ (servers_of chain)) (servers_of chain) true None target.

Definition ch_protocol_chain_dial chain (network target : bytes) : result (option C) :=
  ch_protocol_chain_dial_current chain network target.

(** The hops before the last one, for datagrams. *)
Definition packet_hop (server : option (Config.toml_table D)) (descriptor : option C) (next_address : bytes) : result C :=
  let protocol := ch_protocol_optional_string server "protocol" in
  let of_kind name := strcaseeq protocol (str name) in
  if of_kind "direct"%string && match descriptor with None => true | Some _ => false end then connect_tcp net next_address
  else if of_kind "trojan"%string || of_kind "clambback"%string then ch_protocol_trojan_dial server descriptor next_address
  else if of_kind "shadowsocks"%string then shadowsocks_dial net server descriptor next_address
  else if of_kind "shadowtls"%string then shadowtls_dial net server descriptor
  else if of_kind "tor"%string then tor_dial net server descriptor next_address
  else if of_kind "vmess"%string then vmess_dial net server descriptor next_address
  else fail CH_ERROR_UNSUPPORTED (str "native packet carrier " ++ protocol ++ str " is not ported yet").

Fixpoint ch_protocol_chain_packet_prefix (servers : list (Config.toml_item D)) (descriptor : option C) : result (option C) :=
  match servers with
  | [] | [_] => Done descriptor
  | server :: (next :: _) as servers' =>
      let next_address := ch_protocol_optional_string (Config.table_at next) "address" in
      if beq next_address [] then fail CH_ERROR_INVALID_ARGUMENT (str "packet carrier and next address are required")
      else
        descriptor ← packet_hop (Config.table_at server) descriptor next_address;
        ch_protocol_chain_packet_prefix servers' (Some descriptor)
  end.

Definition ch_protocol_chain_trojan_packet_stream chain : result C :=
  let servers := servers_of chain in
  match list.last servers with
  | None => fail CH_ERROR_INVALID_ARGUMENT (str "native packet chain requires a server")
  | Some final_server =>
      descriptor ← ch_protocol_chain_packet_prefix servers None;
      let final_protocol := ch_protocol_optional_string (Config.table_at final_server) "protocol" in
      if negb (strcaseeq final_protocol (str "trojan")) && negb (strcaseeq final_protocol (str "clambback")) then
        fail CH_ERROR_UNSUPPORTED (str "packet stream chain must end in Trojan or clambback")
      else ch_protocol_trojan_packet_stream (Config.table_at final_server) descriptor
  end.

Definition ch_protocol_chain_vmess_packet_stream chain (target : bytes) : result C :=
  let servers := servers_of chain in
  match list.last servers with
  | None => fail CH_ERROR_INVALID_ARGUMENT (str "native packet chain requires a server")
  | Some final_server =>
      descriptor ← ch_protocol_chain_packet_prefix servers None;
      let final_protocol := ch_protocol_optional_string (Config.table_at final_server) "protocol" in
      if negb (strcaseeq final_protocol (str "vmess")) then
        fail CH_ERROR_UNSUPPORTED (str "VMESS packet stream chain must end in VMESS")
      else vmess_packet_stream net (Config.table_at final_server) descriptor target
  end.

End Dial.

(** The timeout of the thread is an argument of the dialers; it is put back
    whatever the dial returns. *)
Definition ch_protocol_chain_dial_timeout {C} (net : Z -> dialers C) chain (network target : bytes)
    (timeout_milliseconds ch_protocol_dial_timeout_ms : Z) : Z * result (option C) :=
  if (timeout_milliseconds =? 0) || (timeout_milliseconds >? Crypto.INT_MAX) then
    (ch_protocol_dial_timeout_ms,
     fail CH_ERROR_INVALID_ARGUMENT (str "chain dial timeout must be between 1 and INT_MAX ms"))
  else
    let previous := ch_protocol_dial_timeout_ms in
    (previous, ch_protocol_chain_dial_current (net timeout_milliseconds) chain network target).

End Settings.

Arguments connect_tcp {D C} _.
Arguments tls_wrap {D C} _.
Arguments shadowsocks_dial {D C} _.
Arguments shadowtls_dial {D C} _.
Arguments tor_dial {D C} _.
Arguments vmess_dial {D C} _.
Arguments vmess_packet_stream {D C} _.
Arguments wireguard_dial {D C} _.
Arguments openvpn_dial {D C} _.

(** ** The TLS pump

    [ch_protocol_tls_pump_main] waits for both descriptors and moves what they
    allow.  One pass through its loop is [pump_step]; a [round] holds what the
    system and OpenSSL report in it. *)

Record revents : Type := mk_revents { r_in : bool; r_out : bool; r_err : bool; r_hup : bool; r_nval : bool }.

Inductive send_report : Type := Sent (count : Z) | Send_retry | Send_failed.
Inductive recv_report : Type := Received (data : bytes) | Recv_retry | Recv_failed.
Inductive tls_write_report : Type := Wrote (count : Z) | Write_wants_read | Write_wants_write | Write_failed.
Inductive tls_read_report : Type := Got (data : bytes) | Read_wants_read | Read_wants_write | Read_failed.

Record round : Type := mk_round {
  polled : bool;
  on_local : revents;
  on_network : revents;
  local_sent : send_report;
  local_received : recv_report;
  tls_written : tls_write_report;
  tls_pending : bool;
  tls_got : tls_read_report
}.

(** The variables of the loop; the buffers from their offsets on.  The last
    four fields are what has passed each side so far. *)
Record pump : Type := mk_pump {
  outgoing : bytes;
  incoming : bytes;
  local_read_open : bool;
  tls_read_open : bool;
  write_wants_read : bool;
  read_wants_write : bool;
  shutdown_started : bool;
  from_local : bytes;
  to_tls : bytes;
  from_tls : bytes;
  to_local : bytes
}.

Definition is_empty (l : bytes) : bool := match l with [] => true | _ => false end.

(** The parts of a pass, in the order of the source. *)
Definition send_to_local (p : pump) (report : send_report) : pump :=
  let '(mk_pump out inc lo tl ww rw sd fl tt' ft tol) := p in
  match report with
  | Sent count =>
      if count >? 0 then
        mk_pump out (drop (Z.to_nat count) inc) lo tl ww rw sd fl tt' ft (tol ++ take (Z.to_nat count) inc)
      else mk_pump out [] false tl ww rw sd fl tt' ft tol
  | Send_retry => p
  | Send_failed => mk_pump out [] false tl ww rw sd fl tt' ft tol
  end.

Definition receive_from_local (p : pump) (report : recv_report) : pump :=
  let '(mk_pump out inc lo tl ww rw sd fl tt' ft tol) := p in
  match report with
  | Received (b :: data) => mk_pump (b :: data) inc lo tl false rw sd (fl ++ b :: data) tt' ft tol
  | Received [] | Recv_failed => mk_pump out inc false tl ww rw sd fl tt' ft tol
  | Recv_retry => p
  end.

Definition write_to_tls (p : pump) (report : tls_write_report) : pump :=
  let '(mk_pump out inc lo tl ww rw sd fl tt' ft tol) := p in
  match report with
  | Wrote count =>
      if count >? 0 then
        mk_pump (drop (Z.to_nat count) out) inc lo tl false rw sd fl (tt' ++ take (Z.to_nat count) out) ft tol
      else mk_pump [] inc false false ww rw sd fl tt' ft tol
  | Write_wants_read => mk_pump out inc lo tl true rw sd fl tt' ft tol
  | Write_wants_write => p
  | Write_failed => mk_pump [] inc false false ww rw sd fl tt' ft tol
  end.

Definition read_from_tls (p : pump) (report : tls_read_report) : pump :=
  let '(mk_pump out inc lo tl ww rw sd fl tt' ft tol) := p in
  match report with
  | Got (b :: data) => mk_pump out (b :: data) lo tl ww false sd fl tt' (ft ++ b :: data) tol
  | Got [] | Read_failed => mk_pump out inc lo false ww rw sd fl tt' ft tol
  | Read_wants_write => mk_pump out inc lo tl ww true sd fl tt' ft tol
  | Read_wants_read => p
  end.

Definition start_shutdown (p : pump) : pump :=
  let '(mk_pump out inc lo tl ww rw sd fl tt' ft tol) := p in
  mk_pump out inc lo tl ww rw (sd || (negb lo && is_empty out)) fl tt' ft tol.

Definition guarded {A} (condition : bool) (f : A -> A) (a : A) : A := if condition then f a else a.

(** A pass: the new variables, and whether the loop goes on.  [poll] reports
    only what was asked for, and errors. *)
Definition pump_step (p : pump) (r : round) : pump * bool :=
  let local_in := local_read_open p && is_empty (outgoing p) in
  let local_out := negb (is_empty (incoming p)) in
  let network_out := read_wants_write p || (negb (is_empty (outgoing p)) && negb (write_wants_read p)) in
  let network_in := (tls_read_open p && is_empty (incoming p) && negb (read_wants_write p)) || write_wants_read p in
  let failing events := r_err events || r_hup events in
  let local_readable := (r_in (on_local r) && local_in) || failing (on_local r) in
  let local_writable := (r_out (on_local r) && local_out) || failing (on_local r) in
  let network_readable := (r_in (on_network r) && network_in) || failing (on_network r) in
  let network_writable := (r_out (on_network r) && network_out) || failing (on_network r) in
  if negb (polled r) || r_nval (on_local r) || r_nval (on_network r) then (p, false)
  else
    let p := guarded (negb (is_empty (incoming p)) && local_writable) (fun p => send_to_local p (local_sent r)) p in
    let p := guarded (local_read_open p && is_empty (outgoing p) && local_readable)
               (fun p => receive_from_local p (local_received r)) p in
    let may_write := negb (is_empty (outgoing p)) &&
      ((negb (write_wants_read p) && network_writable) || (write_wants_read p && network_readable)) in
    let p := guarded may_write (fun p => write_to_tls p (tls_written r)) p in
    let may_read := tls_read_open p && is_empty (incoming p) &&
      (tls_pending r || (negb (read_wants_write p) && network_readable) || (read_wants_write p && network_writable)) in
    let p := guarded may_read (fun p => read_from_tls p (tls_got r)) p in
    let p := start_shutdown p in
    if negb (tls_read_open p) && is_empty (incoming p) && (negb (local_read_open p) || r_hup (on_local r)) then (p, false)
    else if r_hup (on_local r) && is_empty (outgoing p) && is_empty (incoming p) then (p, false)
    else (p, true).

Definition pump_start (nonblocking : bool) : pump := mk_pump [] [] nonblocking nonblocking false false false [] [] [] [].

(** The loop over the rounds: the variables, and whether it has ended. *)
Fixpoint ch_protocol_tls_pump_main (p : pump) (rounds : list round) : pump * bool :=
  if local_read_open p || tls_read_open p || negb (is_empty (outgoing p)) || negb (is_empty (incoming p)) then
    match rounds with
    | [] => (p, false)
    | r :: rounds' =>
        let '(p, continues) := pump_step p r in
        if continues then ch_protocol_tls_pump_main p rounds' else (p, true)
    end
  else (p, true).

(** ** Facts *)

(** What has gone out is what came in, in order; what is missing is in the
    buffer, or was dropped when the TLS stream failed. *)
Definition relays_out (p : pump) : Prop :=
  from_local p = to_tls p ++ outgoing p \/
  (outgoing p = [] /\ local_read_open p = false /\ tls_read_open p = false /\ exists lost, from_local p = to_tls p ++ lost).

Definition relays_in (p : pump) : Prop := from_tls p = to_local p ++ incoming p.

(** A part of a pass keeps a property of the variables. *)
Lemma guarded_keeps {A} (P : A -> Prop) condition (f : A -> A) a :
  P a -> (condition = true -> P (f a)) -> P (guarded condition f a).
Proof. unfold guarded. destruct condition; auto. Qed.

Ltac pump_cases :=
  match goal with |- forall p : pump, _ => intros [out inc lo tl ww rw sd fl tot ft tol] end;
  cbn [outgoing incoming local_read_open tls_read_open write_wants_read read_wants_write shutdown_started
       from_local to_tls from_tls to_local send_to_local receive_from_local write_to_tls read_from_tls start_shutdown is_empty].

Lemma send_relays_out : forall p : pump, forall report, relays_out p -> relays_out (send_to_local p report).
Proof.
  unfold relays_out. pump_cases. intros report Hp. destruct report as [count| |]; try case_if;
    cbn [outgoing local_read_open tls_read_open from_local to_tls]; intuition auto.
Qed.

Lemma receive_relays_out : forall p : pump, forall report,
  local_read_open p && is_empty (outgoing p) = true -> relays_out p -> relays_out (receive_from_local p report).
Proof.
  unfold relays_out. pump_cases. intros report [Hlo Ho]%andb_true_iff Hp. subst lo. destruct out; [|discriminate].
  destruct report as [[|b data]| |]; cbn [outgoing local_read_open tls_read_open from_local to_tls]; auto.
  - left. destruct Hp as [Hp|(_ & Hf & _)]; [exact Hp|discriminate].
  - left. destruct Hp as [->|(_ & Hf & _)]; [rewrite app_nil_r; reflexivity|discriminate].
  - left. destruct Hp as [Hp|(_ & Hf & _)]; [exact Hp|discriminate].
Qed.

Lemma write_relays_out : forall p : pump, forall report, relays_out p -> relays_out (write_to_tls p report).
Proof.
  unfold relays_out. pump_cases. intros report Hp.
  destruct report as [count| | |]; try case_if; cbn [outgoing local_read_open tls_read_open from_local to_tls]; auto.
  - destruct Hp as [->|(-> & -> & -> & lost & ->)].
    + left. rewrite <- app_assoc, take_drop. reflexivity.
    + right. rewrite drop_nil, take_nil, app_nil_r. eauto.
  - right. destruct Hp as [->|(-> & -> & -> & lost & ->)]; eauto.
  - right. destruct Hp as [->|(-> & -> & -> & lost & ->)]; eauto.
Qed.

Lemma read_relays_out : forall p : pump, forall report, relays_out p -> relays_out (read_from_tls p report).
Proof.
  unfold relays_out. pump_cases. intros report Hp.
  destruct report as [[|b data]| | |]; cbn [outgoing local_read_open tls_read_open from_local to_tls]; intuition auto.
Qed.

Lemma step_relays_out p r : relays_out p -> relays_out (pump_step p r).1.
Proof.
  intros Hp. unfold pump_step. cbv zeta. case_if; [exact Hp|].
  match goal with |- context [start_shutdown ?q] => assert (Hq : relays_out q) end.
  { apply guarded_keeps; [|intros _; apply read_relays_out]; apply guarded_keeps; try (intros _; apply write_relays_out);
    (apply guarded_keeps; [|intros Hc; apply andb_true_iff in Hc as [Hc _]; apply receive_relays_out; [exact Hc|]]);
    (apply guarded_keeps; [|intros _; apply send_relays_out]); exact Hp. }
  match goal with |- context [start_shutdown ?q] => set (q0 := q) in * end. clearbody q0.
  assert (Hs : relays_out (start_shutdown q0)) by (destruct q0; exact Hq).
  repeat case_if; exact Hs.
Qed.

Lemma send_relays_in : forall p : pump, forall report,
  report <> Send_failed -> (forall n, report = Sent n -> 0 < n) -> relays_in p -> relays_in (send_to_local p report).
Proof.
  unfold relays_in. pump_cases. intros report Hf Hs Hp. destruct report as [count| |]; [|exact Hp|contradiction].
  specialize (Hs count eq_refl). replace (count >? 0) with true by lia. cbn [from_tls to_local incoming].
  rewrite Hp, <- app_assoc, take_drop. reflexivity.
Qed.

Lemma read_relays_in : forall p : pump, forall report,
  is_empty (incoming p) = true -> relays_in p -> relays_in (read_from_tls p report).
Proof.
  unfold relays_in. pump_cases. intros report Hi Hp. destruct inc; [|discriminate].
  destruct report as [[|b data]| | |]; cbn [from_tls to_local incoming]; auto. rewrite Hp, app_nil_r. reflexivity.
Qed.

Lemma receive_relays_in : forall p : pump, forall report, relays_in p -> relays_in (receive_from_local p report).
Proof. unfold relays_in. pump_cases. intros report Hp. destruct report as [[|b data]| |]; exact Hp. Qed.

Lemma write_relays_in : forall p : pump, forall report, relays_in p -> relays_in (write_to_tls p report).
Proof. unfold relays_in. pump_cases. intros report Hp. destruct report as [count| | |]; try case_if; exact Hp. Qed.

(** The caller's descriptor takes bytes whenever it is written to. *)
Definition takes (r : round) : Prop :=
  match local_sent r with Sent count => 0 < count | Send_retry => True | Send_failed => False end.

Lemma step_relays_in p r : takes r -> relays_in p -> relays_in (pump_step p r).1.
Proof.
  intros Ht Hp. unfold pump_step. cbv zeta. case_if; [exact Hp|].
  match goal with |- context [start_shutdown ?q] => assert (Hq : relays_in q) end.
  { assert (Hsend : relays_in (send_to_local p (local_sent r))).
    { apply send_relays_in; [intros E|intros n E|exact Hp]; unfold takes in Ht; rewrite E in Ht; assumption. }
    apply guarded_keeps; [|intros Hc; apply andb_true_iff in Hc as [Hc _]; apply andb_true_iff in Hc as [_ Hc]; apply read_relays_in; [exact Hc|]];
    apply guarded_keeps; try (intros _; apply write_relays_in);
    (apply guarded_keeps; [|intros _; apply receive_relays_in]);
    (apply guarded_keeps; [|intros _]); assumption. }
  match goal with |- context [start_shutdown ?q] => set (q0 := q) in * end. clearbody q0.
  assert (Hs : relays_in (start_shutdown q0)) by (destruct q0; exact Hq).
  repeat case_if; exact Hs.
Qed.

(** *** Properties *)

(** C24: The pump relays.  After any number of passes, whatever the system and
    OpenSSL report, what was written to the TLS stream is the beginning of what
    the caller's descriptor gave, in order, without repetition; the rest is in
    the buffer, unless the TLS stream failed.  As long as the caller's
    descriptor does not fail, what it was given is the beginning of what the
    TLS stream gave, and the rest is in the buffer. *)
Theorem tls_pump_relays nonblocking rounds :
  let p := (ch_protocol_tls_pump_main (pump_start nonblocking) rounds).1 in
  relays_out p /\ (Forall takes rounds -> relays_in p).
Proof.
  cbv zeta. assert (Hg : forall p, relays_out p -> relays_out (ch_protocol_tls_pump_main p rounds).1 /\
    (Forall takes rounds -> relays_in p -> relays_in (ch_protocol_tls_pump_main p rounds).1)).
  { induction rounds as [|r rounds IH]; intros p Hp; cbn [ch_protocol_tls_pump_main]; case_if; try (split; auto; fail).
    pose proof (step_relays_out p r Hp) as Ho. pose proof (step_relays_in p r) as Hi.
    destruct (pump_step p r) as [p' continues]. cbn [fst] in *. destruct continues; cbn [fst].
    - destruct (IH p' Ho) as [H1 H2]. split; [exact H1|]. intros Ht Hp'. inversion_clear Ht. auto.
    - split; [exact Ho|]. intros Ht Hp'. inversion_clear Ht. auto. }
  destruct (Hg (pump_start nonblocking)) as [H1 H2]; [left; reflexivity|]. split; [exact H1|]. intros Ht. apply H2; [exact Ht|reflexivity].
Qed.

(** The caller has closed its end and bytes of it are at hand: [poll] reports
    the hang-up, receiving gives up to a buffer, and the TLS stream takes bytes;
    the peer is silent.  Nothing fails. *)
Record caller_closed (data : bytes) (r : round) : Prop := mk_caller_closed {
  closed_polled : polled r = true /\ r_nval (on_local r) = false /\ r_nval (on_network r) = false;
  closed_hup : r_hup (on_local r) = true;
  closed_data : local_received r = Received data /\ 1 <= lenZ data <= CH_PROTOCOL_BUFFER_SIZE;
  closed_out : r_out (on_network r) = true /\ exists n, tls_written r = Wrote n /\ 0 < n;
  closed_silent : tls_got r = Read_wants_read
}.

Lemma silent_read condition p : guarded condition (fun q => read_from_tls q Read_wants_read) p = p.
Proof. destruct p, condition; reflexivity. Qed.

(** A pass while the buffer for the TLS stream holds bytes. *)
Lemma drain_step b out data r first tot :
  caller_closed data r ->
  exists n, 0 < n /\ pump_step (mk_pump (b :: out) [] true true false false false first tot [] []) r =
    (mk_pump (drop (Z.to_nat n) (b :: out)) [] true true false false false first (tot ++ take (Z.to_nat n) (b :: out)) [] [],
     negb (is_empty (drop (Z.to_nat n) (b :: out)))).
Proof.
  intros [(Hp & Hl & Hn) Hh _ (Ho & n & Hw & Hpos) Hs]. exists n. split; [exact Hpos|]. unfold pump_step. rewrite Hp, Hl, Hn, Hh, Hs, Ho, Hw.
  cbv zeta. rewrite silent_read. cbn -[take drop Z.gtb Z.to_nat]. replace (n >? 0) with true by lia. cbn -[take drop Z.to_nat]. destruct (drop (Z.to_nat n) (b :: out)); reflexivity.
Qed.

Lemma drain_run out first tot rounds :
  first = tot ++ out -> out <> [] -> (length out <= length rounds)%nat -> Forall (fun r => exists data, caller_closed data r) rounds ->
  ch_protocol_tls_pump_main (mk_pump out [] true true false false false first tot [] []) rounds =
    (mk_pump [] [] true true false false false first first [] [], true).
Proof.
  revert out tot. induction rounds as [|r rounds IH]; intros out tot Hf Ho Hlen Hr; [destruct out; [contradiction|cbn in Hlen; lia]|].
  destruct out as [|b out]; [contradiction|]. inversion_clear Hr as [|? ? [data Hc] Hrs].
  cbn [ch_protocol_tls_pump_main local_read_open orb]. destruct (drain_step b out data r first tot Hc) as (n & Hn & ->).
  assert (Hcut : first = (tot ++ take (Z.to_nat n) (b :: out)) ++ drop (Z.to_nat n) (b :: out)) by (rewrite <- app_assoc, take_drop; exact Hf).
  destruct (drop (Z.to_nat n) (b :: out)) as [|y rest] eqn:Ed; cbn [is_empty negb].
  - rewrite app_nil_r in Hcut. rewrite <- Hcut. reflexivity.
  - apply IH; [exact Hcut|discriminate| |exact Hrs]. apply (f_equal length) in Ed. rewrite length_drop in Ed. cbn [length] in *. lia.
Qed.

(** C25: A caller that writes more than one buffer and closes loses the rest.
    When the caller has closed its end, [poll] reports the hang-up beside the
    bytes that are still to be read.  Then, while the peer is silent, every call
    succeeds and every write moves at least a byte, the pump ends after at most
    one pass per byte of the first buffer that it received, with both streams
    open, having received and written that buffer and nothing more, although
    every later pass has bytes of the caller at hand. *)
Theorem pump_ends_before_the_end first r rounds :
  caller_closed first r ->
  Forall (fun r => exists data, caller_closed data r) rounds -> (length first <= length rounds)%nat ->
  ch_protocol_tls_pump_main (pump_start true) (r :: rounds) =
    (mk_pump [] [] true true false false false first first [] [], true).
Proof.
  intros [(Hp & Hl & Hn) Hh [Hd Hsize] (Ho & n & Hw & Hpos) Hs] Hrs Hlen.
  destruct first as [|b out]; [rewrite lenZ_nil in Hsize; lia|].
  cbn [ch_protocol_tls_pump_main local_read_open pump_start orb]. unfold pump_step. rewrite Hp, Hl, Hn, Hh, Hs, Ho, Hw, Hd.
  cbv zeta. rewrite silent_read, !orb_true_r. destruct (r_err (on_network r) || r_hup (on_network r)).
  - cbn -[take drop Z.gtb Z.to_nat ch_protocol_tls_pump_main]. replace (n >? 0) with true by lia. cbn -[take drop Z.to_nat ch_protocol_tls_pump_main].
    pose proof (take_drop (Z.to_nat n) (b :: out)) as Hcut. destruct (drop (Z.to_nat n) (b :: out)) as [|y rest] eqn:Ed; cbn [is_empty andb].
    + rewrite app_nil_r in Hcut. rewrite Hcut. reflexivity.
    + apply drain_run; [symmetry; exact Hcut|discriminate| |exact Hrs]. apply (f_equal length) in Ed. rewrite length_drop in Ed. cbn [length] in *. lia.
  - cbn -[take drop Z.to_nat ch_protocol_tls_pump_main]. apply drain_run; [reflexivity|discriminate|exact Hlen|exact Hrs].
Qed.

(** ** The path of a chain *)

Section Paths.
Context {D : Type} `{Inet} {C : Type} (net : dialers (D := D) C).

Abbreviation address_of server := (ch_protocol_optional_string server "address").
Abbreviation protocol_of server := (ch_protocol_optional_string server "protocol").
Abbreviation named server name := (strcaseeq (protocol_of server) (str name) = true).

(** Trojan asks for a target: over the underlying connection, or over one to
    the server's address, a TLS stream is opened whose first bytes are the
    SHA-224 of the password, the command to connect and the target. *)
Definition trojan_asks (server : option (Config.toml_table D)) (via : option C) (target : bytes) (c : C) : Prop :=
  let settings := t ← server; Config.toml_table_in t (str "settings") in
  let password := ch_protocol_optional_string settings "password" in
  password <> [] /\
  exists u address,
    match via with Some d => u = d | None => address_of server <> [] /\ connect_tcp net (address_of server) = Done u end /\
    Socks.ch_socks_encode_address target = Done address /\ lenZ address <= SIZE_MAX - 61 /\
    tls_wrap net settings (address_of server) u
      (hex_bytes (Crypto.sha224 password) ++ [13; 10; 1] ++ address ++ [13; 10]) (str "trojan") = Done c.

(** The protocol that a server names was called for this server, over this
    underlying connection and for this target, and returned [c].  ShadowTLS
    asks its server for nothing. *)
Inductive dialed (server : option (Config.toml_table D)) (via : option C) (target : bytes) (c : C) : Prop :=
| by_trojan : named server "trojan" \/ named server "clambback" -> trojan_asks server via target c -> dialed server via target c
| by_shadowsocks : named server "shadowsocks" -> shadowsocks_dial net server via target = Done c -> dialed server via target c
| by_shadowtls : named server "shadowtls" -> shadowtls_dial net server via = Done c -> dialed server via target c
| by_tor : named server "tor" -> tor_dial net server via target = Done c -> dialed server via target c
| by_vmess : named server "vmess" -> vmess_dial net server via target = Done c -> dialed server via target c.

(** The servers were called in order, each over the connection that the one
    before it returned and for the address of the next one; the last one, which
    is not ShadowTLS, for the target. *)
Inductive dialed_through (target : bytes) : list (Config.toml_item D) -> option C -> C -> Prop :=
| last_server server via c :
    ~ named (Config.table_at server) "shadowtls" -> dialed (Config.table_at server) via target c ->
    dialed_through target [server] via c
| next_server server next servers via u c :
    address_of (Config.table_at next) <> [] -> dialed (Config.table_at server) via (address_of (Config.table_at next)) u ->
    dialed_through target (next :: servers) (Some u) c -> dialed_through target (server :: next :: servers) via c.

(** What a chain calls: the target itself when it is direct, a tunnel for the
    target, or its servers one through another, the first over nothing. *)
Inductive chain_dialed (target : bytes) (servers : list (Config.toml_item D)) (c : C) : Prop :=
| chain_direct server : servers = [server] -> named (Config.table_at server) "direct" -> connect_tcp net target = Done c ->
    chain_dialed target servers c
| chain_wireguard server : servers = [server] -> named (Config.table_at server) "wireguard" ->
    wireguard_dial net (Config.table_at server) target = Done c -> chain_dialed target servers c
| chain_openvpn server : servers = [server] -> named (Config.table_at server) "openvpn" ->
    openvpn_dial net (Config.table_at server) target = Done c -> chain_dialed target servers c
| chain_servers : dialed_through target servers None c -> chain_dialed target servers c.

Lemma kind_is p a b : strcaseeq p a = true -> strcaseeq p b = strcaseeq a b.
Proof. unfold strcaseeq. intros E. apply beq_true in E. rewrite E. reflexivity. Qed.

Lemma trojan_dial_asks server via target c :
  ch_protocol_trojan_dial net server via target = Done c <-> trojan_asks server via target c.
Proof.
  unfold ch_protocol_trojan_dial, ch_protocol_trojan_dial_command, trojan_asks, ch_protocol_trojan_header_command. cbv zeta.
  match goal with |- context [beq ?p []] => destruct (beq p []) eqn:Hp; [apply beq_true in Hp|apply beq_false in Hp] end; [split; [discriminate|intros [Hn _]; contradiction]|].
  rewrite <- Crypto.cnet_sha224_standard. split.
  - intros E. split; [exact Hp|]. apply bind_Done_inv in E as (u & Eu & E). apply bind_Done_inv in E as (header & Eh & E).
    apply bind_Done_inv in Eh as (address & Ea & Eh). case_if_in Eh; [discriminate|]. injection Eh as <-. exists u, address.
    split_and!; [|exact Ea|lia|exact E]. destruct via; [congruence|]. case_if_in Eu; [discriminate|]. split; [apply beq_false; assumption|exact Eu].
  - intros [_ (u & address & Hu & Ha & Hl & Ht)]. assert (Hv : (match via with Some d => Done d | None =>
      if beq (address_of server) [] then fail CH_ERROR_INVALID_ARGUMENT (str "trojan server address is required")
      else connect_tcp net (address_of server) end) = Done u).
    { destruct via; [congruence|]. destruct Hu as [Hn Hu]. rewrite (proj2 (beq_false _ _) Hn). exact Hu. }
    rewrite Hv. cbn [mbind outcome_bind]. rewrite Ha. cbn [mbind outcome_bind].
    replace (lenZ address >? SIZE_MAX - 61) with false by lia. exact Ht.
Qed.

(** The chain of tests on a protocol's name, once it is known. *)
Ltac by_name E := rewrite ?(kind_is _ _ _ E);
  repeat match goal with |- context [strcaseeq (str ?a) (str ?b)] =>
    let v := eval vm_compute in (strcaseeq (str a) (str b)) in change (strcaseeq (str a) (str b)) with v end;
  cbn [orb andb negb].

(** Names that are equal but for case are one protocol. *)
Lemma dialed_named server via target c :
  let of_kind name := strcaseeq (protocol_of server) (str name) in
  dialed server via target c <->
  (if of_kind "trojan"%string || of_kind "clambback"%string then ch_protocol_trojan_dial net server via target
   else if of_kind "shadowsocks"%string then shadowsocks_dial net server via target
   else if of_kind "shadowtls"%string then shadowtls_dial net server via
   else if of_kind "tor"%string then tor_dial net server via target
   else if of_kind "vmess"%string then vmess_dial net server via target
   else fail CH_ERROR_UNSUPPORTED []) = Done c.
Proof.
  cbv zeta. split.
  - intros Hd. destruct Hd as [[E|E] Hd|E Hd|E Hd|E Hd|E Hd]; by_name E; try exact Hd; apply trojan_dial_asks, Hd.
  - destruct (strcaseeq (protocol_of server) (str "trojan")) eqn:E1; [intros E; apply by_trojan; [auto|apply trojan_dial_asks, E]|].
    destruct (strcaseeq (protocol_of server) (str "clambback")) eqn:E2; [intros E; apply by_trojan; [auto|apply trojan_dial_asks, E]|].
    destruct (strcaseeq (protocol_of server) (str "shadowsocks")) eqn:E3; [apply by_shadowsocks, E3|].
    destruct (strcaseeq (protocol_of server) (str "shadowtls")) eqn:E4; [apply by_shadowtls, E4|].
    destruct (strcaseeq (protocol_of server) (str "tor")) eqn:E5; [apply by_tor, E5|].
    destruct (strcaseeq (protocol_of server) (str "vmess")) eqn:E6; [apply by_vmess, E6|discriminate].
Qed.

(** The five protocols that can be dialed over another one. *)
Lemma dialed_known server via target c :
  dialed server via target c -> exists name, named server name /\
    In name ["trojan"; "clambback"; "shadowsocks"; "shadowtls"; "tor"; "vmess"]%string.
Proof. intros [[E|E] _|E _|E _|E _|E _]; eexists; (split; [exact E|cbn [In]; auto 8]). Qed.

(** A hop of a longer chain. *)
Lemma hop_dialed count first last server via target hop_target c :
  1 < count ->
  dial_hop net count first last server via target hop_target = Done c <->
  (last = true -> ~ named server "shadowtls") /\ dialed server via hop_target c.
Proof.
  intros Hc. unfold dial_hop. cbv zeta. replace (count =? 1) with false by lia. rewrite !andb_false_r, !andb_false_l.
  rewrite dialed_named. cbv zeta.
  destruct (strcaseeq (protocol_of server) (str "shadowtls")) eqn:E.
  - by_name E. destruct last; (split; [intros Hd|intros [Hl Hd]]); try discriminate Hd.
    + exfalso. apply Hl; reflexivity.
    + split; [discriminate|exact Hd].
    + exact Hd.
  - split; [intros Hd; split; [intros _ Hn; discriminate|]|intros [_ Hd]]; revert Hd; repeat case_if; try discriminate; auto.
Qed.

(** The only server of a chain. *)
Lemma only_hop_dialed server target c :
  dial_hop net 1 true true (Config.table_at server) None target target = Done c <-> chain_dialed target [server] c.
Proof.
  set (t := Config.table_at server). split.
  - intros E. destruct (strcaseeq (protocol_of t) (str "direct")) eqn:E1; [apply (chain_direct _ _ _ server); [reflexivity|exact E1|]|
      destruct (strcaseeq (protocol_of t) (str "wireguard")) eqn:E2; [apply (chain_wireguard _ _ _ server); [reflexivity|exact E2|]|
      destruct (strcaseeq (protocol_of t) (str "openvpn")) eqn:E3; [apply (chain_openvpn _ _ _ server); [reflexivity|exact E3|]|]]];
      [revert E; unfold dial_hop; cbv zeta; by_name E1; auto|revert E; unfold dial_hop; cbv zeta; by_name E2; auto|
       revert E; unfold dial_hop; cbv zeta; by_name E3; auto|].
    apply chain_servers, last_server; revert E; unfold dial_hop; cbv zeta; fold t; rewrite E1, E2, E3; cbn [andb].
    + intros E Hn. revert E. by_name Hn. discriminate.
    + rewrite dialed_named. cbv zeta. repeat case_if; try discriminate; auto.
  - intros Hd. destruct Hd as [s Es Hn Hd|s Es Hn Hd|s Es Hn Hd|Hd]; try (injection Es as <-; unfold dial_hop; cbv zeta; fold t in Hn |- *; by_name Hn; exact Hd).
    inversion Hd as [s v c' Hn Hs|]; subst. fold t in Hn, Hs. pose proof (dialed_known _ _ _ _ Hs) as (name & En & Hin).
    apply dialed_named in Hs. cbv zeta in Hs. revert Hs. unfold dial_hop. cbv zeta.
    assert (H1 : strcaseeq (protocol_of t) (str "direct") = false) by (rewrite (kind_is _ _ _ En); cbn [In] in Hin; destruct_or!; subst; reflexivity || contradiction).
    rewrite H1. apply not_true_is_false in Hn. rewrite Hn. cbn [andb]. repeat case_if; try discriminate; auto.
Qed.

Lemma hops_dialed count servers first via target r :
  1 < count -> servers <> [] ->
  dial_hops net count servers first via target = Done r <-> exists c, r = Some c /\ dialed_through target servers via c.
Proof.
  intros Hc. revert first via. induction servers as [|s servers IH]; intros first via Hne; [contradiction|]. cbn [dial_hops].
  destruct servers as [|next servers]; cbn [mbind outcome_bind].
  - split.
    + intros E. apply bind_Done_inv in E as (c & Ec & E). injection E as <-. exists c. split; [reflexivity|].
      apply hop_dialed in Ec as [Hn Hd]; [|exact Hc]. apply last_server; auto.
    + intros (c & -> & Hd). inversion Hd; subst. rewrite (proj2 (hop_dialed _ _ _ _ _ _ _ c Hc)); auto.
  - destruct (beq (address_of (Config.table_at next)) []) eqn:Ea; cbn [mbind outcome_bind].
    + split; [discriminate|]. intros (c & -> & Hd). apply beq_true in Ea. inversion Hd; subst; contradiction.
    + apply beq_false in Ea. split.
      * intros E. apply bind_Done_inv in E as (u & Eu & E). apply IH in E as (c & -> & Hd); [|discriminate].
        apply hop_dialed in Eu as [_ Hu]; [|exact Hc]. exists c. split; [reflexivity|]. eapply next_server; eassumption.
      * intros (c & -> & Hd). inversion Hd as [|s' n' l' v' u c' Hn Hu Hd']; subst.
        rewrite (proj2 (hop_dialed _ _ _ _ _ _ _ u Hc)) by (split; [discriminate|exact Hu]). cbn [mbind outcome_bind].
        apply IH; [discriminate|]. eauto.
Qed.

(** *** Properties *)

(** C22: A chain leads where it says.  Dialing a chain succeeds exactly when the
    network is TCP and the calls of its protocols succeed that make its path:
    each server in order, by the protocol that it names, the first over no
    connection and each next one over the connection that the one before it
    returned; each for the address of the next server, the last one for the
    target; ShadowTLS, which asks for nothing, is never last.  Trojan connects
    to its server's address when it is first, and sends the target behind the
    hash of the password in a TLS stream.  A single direct server connects to
    the target itself; WireGuard and OpenVPN stand alone and are given the
    target.  The result is the connection of the last call, and a success
    always has one. *)
Theorem chain_dial_path chain network target r :
  ch_protocol_chain_dial net chain network target = Done r <->
  strcaseeq network (str "tcp") = true /\ exists c, r = Some c /\ chain_dialed target (servers_of chain) c.
Proof.
  unfold ch_protocol_chain_dial, ch_protocol_chain_dial_current.
  destruct (strcaseeq network (str "tcp")); cbn [negb]; [|split; [discriminate|intros [? _]; discriminate]].
  assert (Hlong : forall servers : list (Config.toml_item D), 1 < lenZ servers -> forall c,
    chain_dialed target servers c <-> dialed_through target servers None c).
  { intros servers Hl c. split; [|apply chain_servers]. intros [s -> _ _|s -> _ _|s -> _ _|Hd]; [unfold lenZ in Hl; cbn [length] in Hl; lia..|exact Hd]. }
  destruct (servers_of chain) as [|s [|next servers]] eqn:Es.
  - cbn. split; [discriminate|]. intros (_ & c & _ & [? ? _ _|? ? _ _|? ? _ _|Hd]); try discriminate. inversion Hd.
  - change (lenZ [s]) with 1. cbn [Z.eqb Pos.eqb dial_hops mbind outcome_bind]. split.
    + intros E. apply bind_Done_inv in E as (c & Ec & E). injection E as <-. apply only_hop_dialed in Ec. eauto.
    + intros (_ & c & -> & Hd). apply only_hop_dialed in Hd. rewrite Hd. reflexivity.
  - set (all := s :: next :: servers) in *. assert (Hl : 1 < lenZ all) by (unfold all; rewrite !lenZ_cons; pose proof (lenZ_nonneg servers); lia).
    replace (lenZ all =? 0) with false by lia. rewrite hops_dialed by (discriminate || exact Hl).
    setoid_rewrite (Hlong all Hl). tauto.
Qed.

(** The carriers of datagrams: as in a chain, up to the last server, which
    they lead to; a direct carrier only in front, to the next server. *)
Inductive carried_to : list (Config.toml_item D) -> option C -> C -> Prop :=
| carried_end server c : carried_to [server] (Some c) c
| carried_next server next servers via u c :
    address_of (Config.table_at next) <> [] ->
    dialed (Config.table_at server) via (address_of (Config.table_at next)) u \/
      (via = None /\ named (Config.table_at server) "direct" /\ connect_tcp net (address_of (Config.table_at next)) = Done u) ->
    carried_to (next :: servers) (Some u) c -> carried_to (server :: next :: servers) via c.

Lemma packet_hop_dialed server via next_address c :
  packet_hop net server via next_address = Done c <->
  dialed server via next_address c \/ (via = None /\ named server "direct" /\ connect_tcp net next_address = Done c).
Proof.
  destruct (strcaseeq (protocol_of server) (str "direct")) eqn:E.
  - assert (Hno : ~ dialed server via next_address c).
    { intros Hd. apply dialed_known in Hd as (name & En & Hin). rewrite (kind_is _ _ _ En) in E. cbn [In] in Hin.
      destruct_or!; subst; discriminate || contradiction. }
    unfold packet_hop. cbv zeta. by_name E. destruct via; intuition (discriminate || auto).
  - rewrite dialed_named. cbv zeta. unfold packet_hop. cbv zeta. rewrite E. cbn [andb].
    split; [intros Hd; left; revert Hd|intros [Hd|(_ & Hd & _)]; [revert Hd|discriminate]]; repeat case_if; try discriminate; auto.
Qed.

(** The connection under the last server of a chain for datagrams is that of
    the carriers before it; there is none before the only server. *)
Theorem packet_prefix_path servers via r :
  (2 <= length servers)%nat \/ (via <> None /\ servers <> []) ->
  ch_protocol_chain_packet_prefix net servers via = Done r <-> exists c, r = Some c /\ carried_to servers via c.
Proof.
  revert via. induction servers as [|s [|next servers] IH]; intros via Hne; [cbn in Hne; destruct Hne as [?|[_ ?]]; [lia|contradiction]| |].
  - destruct via as [u|]; [|cbn in Hne; destruct Hne as [?|[? _]]; [lia|contradiction]]. cbn.
    split; [intros E; injection E as <-; exists u; split; [reflexivity|constructor]|].
    intros (c & -> & Hc). inversion Hc; subst; reflexivity.
  - cbn [ch_protocol_chain_packet_prefix]. destruct (beq (address_of (Config.table_at next)) []) eqn:Ea.
    + split; [discriminate|]. intros (c & _ & Hc). apply beq_true in Ea. inversion Hc; contradiction.
    + apply beq_false in Ea. split.
      * intros E. apply bind_Done_inv in E as (u & Eu & E). apply packet_hop_dialed in Eu.
        apply (IH (Some u)) in E as (c & -> & Hc); [|right; split; discriminate]. exists c. split; [reflexivity|]. eapply carried_next; eassumption.
      * intros (c & -> & Hc). inversion Hc as [|s' n' l' v' u c' Hn Hu Hd]; subst.
        rewrite (proj2 (packet_hop_dialed _ _ _ u) Hu). cbn [mbind outcome_bind].
        apply (IH (Some u)); [right; split; discriminate|]. eauto.
Qed.
End Paths.
(** ** Trojan and TLS *)

Section Tls.
Context {D : Type} `{Inet}.

Lemma returned_value {E A} {a b : A} : Done a = Done b :> outcome E A -> a = b.
Proof. congruence. Qed.

Lemma hex_bytes_length digest : lenZ (hex_bytes digest) = 2 * lenZ digest.
Proof.
  induction digest as [|b digest IH]; [reflexivity|]. unfold hex_bytes in *. cbn [map concat]. unfold lenZ in *.
  rewrite length_app. cbn [length]. lia.
Qed.


(** The name that a hop is expected to have. *)
Definition expected_name (settings : option (Config.toml_table D)) (server_address name : bytes) : Prop :=
  let sni := ch_protocol_optional_string settings "sni" in
  if beq sni [] then exists service, ch_protocol_split_target server_address = Done (name, service) else name = sni.

Definition skips_verification (settings : option (Config.toml_table D)) : Prop :=
  exists t, settings = Some t /\ Config.ch_config_table_get_bool t (str "skip_cert_verify") = Done true.

(** The protocols that the settings name, in their order; none without any. *)
Definition configured_alpn (settings : option (Config.toml_table D)) : option (list bytes) :=
  match settings with
  | None => Some []
  | Some t => mapM Config.string_at (Config.items (Config.toml_array_in t (str "alpn")))
  end.

(** What is offered for them: nothing for none, else each behind its length. *)
Definition alpn_offer (names : list bytes) : option bytes :=
  match names with [] => None | _ => Some (concat (map (fun n => lenZ n :: n) names)) end.

Lemma alpn_wire_values label (values : list (Config.toml_item D)) wire r :
  alpn_wire label values wire = Done r ->
  exists names, mapM Config.string_at values = Some names /\ Forall (fun n => 1 <= lenZ n <= 255) names /\
    r = wire ++ concat (map (fun n => lenZ n :: n) names) /\ (lenZ wire <= 65535 -> lenZ r <= 65535).
Proof.
  revert wire. induction values as [|item values IH]; intros wire E; cbn [alpn_wire] in E.
  { injection E as <-. exists []. rewrite app_nil_r. auto. }
  destruct (Config.string_at item) as [value|] eqn:Ev; [|discriminate]. case_if_in E; [discriminate|].
  apply IH in E as (names & Hn & Hf & -> & Hl). exists (value :: names). cbn [mapM]. rewrite Ev, Hn. pose proof (lenZ_nonneg value).
  assert (Hv : 1 <= lenZ value <= 255).
  { destruct value; [discriminate|]. rewrite lenZ_cons in *. pose proof (lenZ_nonneg value). lia. }
  split_and!; [reflexivity|constructor; assumption|cbn [map concat]; rewrite <- !app_assoc; reflexivity|].
  intros Hw. apply Hl. rewrite !lenZ_app. change (lenZ [lenZ value]) with 1. lia.
Qed.


Lemma ssl_write_all_sent writes data label sent : ch_protocol_ssl_write_all writes data label = (sent, Done tt) -> sent = data.
Proof.
  revert data sent. induction writes as [|w writes IH]; intros data sent; cbn [ch_protocol_ssl_write_all];
    destruct data as [|x data]; cbn [lenZ length Z.of_nat Z.eqb]; try (intros E; injection E as <-; reflexivity).
  destruct (lenZ (x :: data) =? 0) eqn:E0; [rewrite lenZ_cons in E0; pose proof (lenZ_nonneg data); lia|].
  destruct w as [n|d]; [|discriminate].
  destruct (ch_protocol_ssl_write_all writes (drop (Z.to_nat n) (x :: data)) label) as [rest r] eqn:E. intros Er.
  assert (r = Done tt) as -> by congruence. apply IH in E as ->.
  assert (sent = take (Z.to_nat n) (x :: data) ++ drop (Z.to_nat n) (x :: data)) as -> by congruence. apply take_drop.
Qed.

(** A hop that is wrapped has received the whole payload, over a stream whose
    peer was verified as configured. *)
Theorem tls_wrap_sends session (settings : option (Config.toml_table D)) server_address payload label sent config :
  ch_protocol_tls_wrap session settings server_address payload label = (sent, Done config) ->
  sent = payload /\ ch_protocol_tls_configure (configured session) settings server_address label = Done config /\
  handshake_error session = None.
Proof.
  unfold ch_protocol_tls_wrap. case_if; [discriminate|]. case_if; [discriminate|].
  destruct (ch_protocol_tls_configure _ settings server_address label) as [c| |]; try discriminate.
  destruct (handshake_error session); [discriminate|].
  destruct (ch_protocol_ssl_write_all _ payload label) as [s status] eqn:Es. destruct status as [[]| |]; cbn [mbind outcome_bind]; try discriminate.
  apply ssl_write_all_sent in Es as ->. destruct (pair_error session); [discriminate|]. case_if; [|discriminate].
  intros E. injection E as <- <-. auto.
Qed.

End Tls.

(** ** Witnesses *)

Section Witnesses.
Import PlainInet.

Definition w_text (key value : String.string) : bytes * Config.toml_raw unit := (str key, Config.mk_raw (Some (str value)) None None None).

Definition w_hop (protocol address : String.string) : Config.toml_item unit :=
  Config.item_tab (Config.mk_table [w_text "protocol" protocol; w_text "address" address] []
    [(str "settings", Config.mk_table [w_text "password" "secret"] [] [])]).

Definition w_chain : Config.toml_table unit :=
  Config.mk_table [] [(str "server", Config.mk_array [w_hop "ShadowTLS" "192.0.2.1:443"; w_hop "shadowsocks" "192.0.2.2:8388"; w_hop "trojan" "192.0.2.3:443"])] [].

(** Connections that are the list of their endpoints; a Trojan header is read
    by the server. *)
Definition w_behind (server : option (Config.toml_table unit)) (underlying : option (list bytes)) : list bytes :=
  match underlying with Some p => p | None => [ch_protocol_optional_string server "address"] end.

Definition w_asked_in (header : bytes) : list bytes := [drop 59 header].

Definition w_net : dialers (D := unit) (list bytes) := {|
  connect_tcp a := Done [a];
  tls_wrap _ _ u header _ := Done (u ++ w_asked_in header);
  shadowsocks_dial s u t := Done (w_behind s u ++ [t]);
  shadowtls_dial s u := Done (w_behind s u);
  tor_dial s u t := Done (w_behind s u ++ [t]);
  vmess_dial s u t := Done (w_behind s u ++ [t]);
  vmess_packet_stream s u t := Done (w_behind s u ++ [t]);
  wireguard_dial s t := Done (w_behind s None ++ [t]);
  openvpn_dial s t := Done (w_behind s None ++ [t])
|}.

Lemma chain_dial_path_witness :
  ch_protocol_chain_dial w_net w_chain (str "TCP") (str "example.com:443") =
    Done (Some [str "192.0.2.1:443"; str "192.0.2.3:443"; [3; 11] ++ str "example.com" ++ [1; 187; 13; 10]]) /\
  exists c, chain_dialed w_net (str "example.com:443") (servers_of w_chain) c.
Proof.
  assert (E : ch_protocol_chain_dial w_net w_chain (str "TCP") (str "example.com:443") =
    Done (Some [str "192.0.2.1:443"; str "192.0.2.3:443"; [3; 11] ++ str "example.com" ++ [1; 187; 13; 10]])) by (vm_compute; reflexivity).
  split; [exact E|]. destruct (proj1 (chain_dial_path w_net w_chain (str "TCP") (str "example.com:443") _) E) as (_ & c & _ & Hc). exists c. exact Hc.
Defined.


Definition w_tls : Config.toml_table unit :=
  Config.mk_table [] [(str "alpn", Config.mk_array [Config.item_val (Config.mk_raw (Some (str "h2")) None None None)])] [].


Definition w_closing (data : bytes) : round :=
  mk_round true (mk_revents true false false true false) (mk_revents false true false false false) Send_retry
    (Received data) (Wrote (lenZ data)) false Read_wants_read.

Lemma pump_ends_before_the_end_witness :
  from_local (ch_protocol_tls_pump_main (pump_start true) (w_closing [1; 2] :: [w_closing [3; 4]; w_closing [5; 6]])).1 = [1; 2].
Proof.
  assert (Hc : forall data, 1 <= lenZ data <= CH_PROTOCOL_BUFFER_SIZE -> caller_closed data (w_closing data)).
  { intros data Hd. constructor; cbn [w_closing polled on_local on_network r_nval r_hup r_out local_received tls_written tls_got]; auto.
    split; [reflexivity|]. exists (lenZ data). split; [reflexivity|lia]. }
  rewrite (pump_ends_before_the_end [1; 2]); [reflexivity| | |cbn; lia].
  - apply Hc. vm_compute. split; discriminate.
  - repeat constructor; eexists; apply Hc; vm_compute; split; discriminate.
Defined.

Definition w_relay_round : round :=
  mk_round true (mk_revents true false false false false) (mk_revents true true false false false) Send_retry
    (Received (str "hello")) (Wrote 2) false (Got (str "hi")).

Lemma tls_pump_relays_witness :
  to_tls (ch_protocol_tls_pump_main (pump_start true) [w_relay_round; w_relay_round]).1 = str "he" /\
  relays_in (ch_protocol_tls_pump_main (pump_start true) [w_relay_round; w_relay_round]).1.
Proof. split; [vm_compute; reflexivity|]. apply (tls_pump_relays true [w_relay_round; w_relay_round]). repeat constructor. Defined.

End Witnesses.
End Chain.
