(* ===== verification/Packet.v ===== *)
(** * Packet connections: [native/src/protocol_packet.c]

    A connection that carries datagrams through a chain: directly, encrypted
    for Shadowsocks, framed in a Trojan stream, through a VMESS stream to a
    fixed target, or through a tunnel.  Here are the choice of the kind, the
    dial, sending and receiving.  What the sockets report, the conditioner's
    decision to drop and the tunnels are arguments; allocation is taken to
    succeed. *)

From S2P Require Import Prelude CLib Inet Socks Crypto Disk Config Policy Shadowsocks Chain.

Module Packet.
Import Crypto Disk Shadowsocks.

Definition CH_PACKET_MAX_WIRE_SIZE : Z := 65507.
Definition CH_TROJAN_MAX_FRAME_SIZE : Z := 65798.

Inductive ch_packet_kind : Type :=
| CH_PACKET_DIRECT | CH_PACKET_SHADOWSOCKS | CH_PACKET_TROJAN | CH_PACKET_VMESS | CH_PACKET_TUNNEL.

#[export] Instance ch_packet_kind_eq_dec : EqDecision ch_packet_kind.
Proof. solve_decision. Defined.

(** [C] is a connected stream, [T] a tunnel.  The capacity of the receive
    buffer is kept beside its bytes. *)
Record ch_packet_connection (C T : Type) : Type := mk_connection {
  kind : ch_packet_kind;
  ipv4_open : bool;
  ipv6_open : bool;
  stream : option C;
  cipher : option ch_ss_cipher;
  packet_key : bytes;
  shadowsocks_prefix : bytes;
  receive_buffer : bytes;
  receive_capacity : Z;
  fixed_target : bytes;
  tunnel_packet : option T
}.
Arguments mk_connection {C T} _ _ _ _ _ _ _ _ _ _ _.
Arguments kind {C T} _.
Arguments ipv4_open {C T} _.
Arguments ipv6_open {C T} _.
Arguments stream {C T} _.
Arguments cipher {C T} _.
Arguments packet_key {C T} _.
Arguments shadowsocks_prefix {C T} _.
Arguments receive_buffer {C T} _.
Arguments receive_capacity {C T} _.
Arguments fixed_target {C T} _.
Arguments tunnel_packet {C T} _.

(** ** Targets *)

Definition ch_packet_split_target (target : bytes) : result (bytes * bytes) :=
  match target with
  | [] => fail CH_ERROR_INVALID_ARGUMENT (str "packet target is required")
  | 91 :: host_start =>
      match split_first 93 host_start with
      | Some (host, 58 :: service) =>
          if beq service [] then fail CH_ERROR_INVALID_ARGUMENT (str "invalid bracketed packet target") else Done (host, service)
      | _ => fail CH_ERROR_INVALID_ARGUMENT (str "invalid bracketed packet target")
      end
  | _ =>
      match split_last 58 target with
      | Some (host, service) =>
          if beq host [] || beq service [] || bool_decide (58 ∈ host) then
            fail CH_ERROR_INVALID_ARGUMENT (str "packet target must be host:port")
          else Done (host, service)
      | None => fail CH_ERROR_INVALID_ARGUMENT (str "packet target must be host:port")
      end
  end.

(** [lookup]: what [getaddrinfo] makes of a host and a service. *)
Definition ch_packet_resolve {A} (lookup : bytes -> bytes -> list A + bytes) (target : bytes) : result (list A) :=
  '(host, service) ← ch_packet_split_target target;
  match lookup host service with
  | inr message => fail CH_ERROR_IO (str "resolve packet target: " ++ message)
  | inl addresses => Done addresses
  end.

(** [name]: the family of an address (true for IPv6), its host and its
    service, or the error of [getnameinfo]. *)
Definition ch_packet_format_source (name : bool * bytes * bytes + bytes) : result bytes :=
  match name with
  | inr message => fail CH_ERROR_IO (str "format UDP source: " ++ message)
  | inl (ipv6, host, service) => Done (if ipv6 : bool then str "[" ++ host ++ str "]:" ++ service else host ++ str ":" ++ service)
  end.

(** ** Dialing *)

Section Dial.
Context {D C T : Type} `{Inet} `{Evp} `{Digest}.
Implicit Types (chain : Config.toml_table D).

Definition ch_packet_optional_string (table : option (Config.toml_table D)) (key : String.string) : option bytes :=
  match table with
  | None => None
  | Some t =>
      if Config.toml_key_exists t (str key) then
        match Config.ch_config_table_get_string t (str key) with Done s => Some s | _ => None end
      else None
  end.

Definition ch_packet_allocate (kind : ch_packet_kind) : ch_packet_connection C T :=
  mk_connection kind false false None None [] [] [] 0 [] None.

(** The kind of connection of a chain, and its last server. *)
Definition packet_kind chain : result (ch_packet_kind * option (Config.toml_table D)) :=
  let servers := Chain.servers_of chain in
  match list.last servers with
  | None => fail CH_ERROR_INVALID_ARGUMENT (str "native packet chain requires one server")
  | Some item =>
      let server := Config.table_at item in
      match ch_packet_optional_string server "protocol" with
      | None => fail CH_ERROR_INVALID_ARGUMENT (str "packet chain protocol is required")
      | Some protocol =>
          let of_kind name := strcaseeq protocol (str name) in
          kind ←
            (if of_kind "direct"%string then Done CH_PACKET_DIRECT
             else if of_kind "shadowsocks"%string then Done CH_PACKET_SHADOWSOCKS
             else if of_kind "trojan"%string || of_kind "clambback"%string then Done CH_PACKET_TROJAN
             else if of_kind "vmess"%string then Done CH_PACKET_VMESS
             else if of_kind "wireguard"%string then Done CH_PACKET_TUNNEL
             else if of_kind "openvpn"%string then Done CH_PACKET_TUNNEL
             else fail CH_ERROR_UNSUPPORTED (str "native packet protocol " ++ protocol ++ str " is not ported yet"));
          if negb (lenZ servers =? 1) && negb (bool_decide (kind = CH_PACKET_TROJAN)) && negb (bool_decide (kind = CH_PACKET_VMESS)) then
            fail CH_ERROR_UNSUPPORTED (str "native datagram packet chains currently require one server")
          else Done (kind, server)
      end
  end.

(** What the system reports and the tunnels do. *)
Record packet_env : Type := mk_packet_env {
  udp_lookup : bytes -> bytes -> list (Chain.attempt unit) + bytes;
  unreachable : bytes;
  openvpn_open : option (Config.toml_table D) -> result T;
  wireguard_open : option (Config.toml_table D) -> result T
}.

Definition ch_packet_connect_server (env : packet_env) (target : bytes) : result unit :=
  addresses ← ch_packet_resolve (udp_lookup env) target;
  match Chain.first_connected addresses (unreachable env) with
  | inl _ => Done tt
  | inr message => fail CH_ERROR_IO (str "connect UDP server " ++ target ++ str ": " ++ message)
  end.

(** A setting, or another one when it is missing. *)
Definition or_else (a b : option bytes) : option bytes := match a with Some _ => a | None => b end.

Definition dial_shadowsocks (env : packet_env) (server : option (Config.toml_table D)) : result (ch_packet_connection C T) :=
  let settings := t ← server; Config.toml_table_in t (str "settings") in
  let get key := ch_packet_optional_string settings key in
  let method := or_else (get "udp_method"%string) (get "method"%string) in
  let password := or_else (get "udp_password"%string) (get "password"%string) in
  let address := or_else (get "udp_address"%string) (ch_packet_optional_string server "address") in
  let prefix := or_else (get "udp_prefix_base64"%string) (get "prefix_base64"%string) in
  let required := fail CH_ERROR_INVALID_ARGUMENT (str "Shadowsocks packet method, password, and address are required") in
  match method, password, address with
  | Some method, Some password, Some address =>
      if beq password [] || beq address [] then required
      else
        cipher ← ch_ss_cipher_from_name method;
        key ← ch_ss_evp_bytes_to_key password (key_size cipher);
        prefix ← ch_ss_prefix_from_base64 (default [] prefix) cipher;
        _ ← ch_packet_connect_server env address;
        Done (mk_connection CH_PACKET_SHADOWSOCKS true false None (Some cipher) key prefix [] 0 [] None)
  | _, _, _ => required
  end.

Definition ch_protocol_chain_dial_packet (net : Chain.dialers (D := D) C) (env : packet_env) chain (initial_target : bytes)
    : result (ch_packet_connection C T) :=
  '(kind, server) ← packet_kind chain;
  match kind with
  | CH_PACKET_DIRECT => Done (ch_packet_allocate CH_PACKET_DIRECT)
  | CH_PACKET_SHADOWSOCKS => dial_shadowsocks env server
  | CH_PACKET_TROJAN =>
      s ← Chain.ch_protocol_chain_trojan_packet_stream net chain;
      Done (mk_connection CH_PACKET_TROJAN false false (Some s) None [] [] [] 0 [] None)
  | CH_PACKET_VMESS =>
      s ← Chain.ch_protocol_chain_vmess_packet_stream net chain initial_target;
      Done (mk_connection CH_PACKET_VMESS false false (Some s) None [] [] [] 0 initial_target None)
  | CH_PACKET_TUNNEL =>
      t ← (match ch_packet_optional_string server "protocol" with
           | Some p => if strcaseeq p (str "openvpn") then openvpn_open env server else wireguard_open env server
           | None => wireguard_open env server
           end);
      Done (mk_connection CH_PACKET_TUNNEL false false None None [] [] [] 0 [] (Some t))
  end.

Definition ch_protocol_direct_packet_dial : ch_packet_connection C T := ch_packet_allocate CH_PACKET_DIRECT.

Definition ch_protocol_tunnel_packet_wrap (packet : T) : ch_packet_connection C T :=
  mk_connection CH_PACKET_TUNNEL false false None None [] [] [] 0 [] (Some packet).

(** ** Sending *)

(** An address of a target: its family (true for IPv6), the error of a new
    socket and the error of [sendto] (none when the whole datagram was sent). *)
Record candidate : Type := mk_candidate { family6 : bool; socket_error : option bytes; sendto_error : option bytes }.

Fixpoint send_candidates (ipv4 ipv6 : bool) (candidates : list candidate) (saved_error : bytes) : bool * bool * option bytes :=
  match candidates with
  | [] => (ipv4, ipv6, Some saved_error)
  | c :: candidates' =>
      let is_open := if family6 c then ipv6 else ipv4 in
      match (if is_open then None else socket_error c) with
      | Some error => send_candidates ipv4 ipv6 candidates' error
      | None =>
          let ipv4 := ipv4 || negb (family6 c) in
          let ipv6 := ipv6 || family6 c in
          match sendto_error c with
          | None => (ipv4, ipv6, None)
          | Some error => send_candidates ipv4 ipv6 candidates' error
          end
      end
  end.

Definition with_sockets (c : ch_packet_connection C T) (ipv4 ipv6 : bool) : ch_packet_connection C T :=
  mk_connection (kind c) ipv4 ipv6 (stream c) (cipher c) (packet_key c) (shadowsocks_prefix c) (receive_buffer c)
    (receive_capacity c) (fixed_target c) (tunnel_packet c).

(** What leaves the connection. *)
Inductive departure : Type :=
| To_target (target payload : bytes)
| To_server (frame : bytes)
| On_stream (data : bytes)
| Into_tunnel (target payload : bytes).

Record send_env : Type := mk_send_env {
  dropped : bool;
  send_lookup : bytes -> bytes -> list candidate + bytes;
  send_unreachable : bytes;
  send_random : option (nat -> Z);
  datagram_error : option bytes;
  stream_calls : list write_call;
  tunnel_result : result unit
}.

Definition ch_packet_send_direct (env : send_env) (c : ch_packet_connection C T) (target payload : bytes)
    : ch_packet_connection C T * list departure * result unit :=
  match ch_packet_resolve (send_lookup env) target with
  | Raise e => (c, [], Raise e)
  | Fault => (c, [], Fault)
  | Done candidates =>
      let '(ipv4, ipv6, error) := send_candidates (ipv4_open c) (ipv6_open c) candidates (send_unreachable env) in
      match error with
      | None => (with_sockets c ipv4 ipv6, [To_target target payload], Done tt)
      | Some message =>
          (with_sockets c ipv4 ipv6, [], fail CH_ERROR_IO (str "send UDP packet to " ++ target ++ str ": " ++ message))
      end
  end.

(** The frame of a datagram on a Trojan stream. *)
Definition trojan_frame (target payload : bytes) : result bytes :=
  address ← Socks.ch_socks_encode_address target;
  if (lenZ payload >? UINT16_MAX) || (lenZ address >? SIZE_MAX - lenZ payload - 4) then
    fail CH_ERROR_INVALID_ARGUMENT (str "Trojan UDP payload is too large")
  else Done (address ++ [u8 (Z.shiftr (lenZ payload) 8); u8 (lenZ payload); 13; 10] ++ payload).

Definition ch_packet_send_trojan (env : send_env) (target payload : bytes) : list departure * result unit :=
  match trojan_frame target payload with
  | Raise e => ([], Raise e)
  | Fault => ([], Fault)
  | Done frame =>
      let '(sent, _, error) := ch_ss_send_all (stream_calls env) frame in
      ([On_stream sent], match error with
                         | None => Done tt
                         | Some message => fail CH_ERROR_IO (str "send Trojan UDP frame: " ++ message)
                         end)
  end.

Definition ch_packet_send_vmess (env : send_env) (c : ch_packet_connection C T) (target payload : bytes)
    : list departure * result unit :=
  if negb (beq target (fixed_target c)) then
    ([], fail CH_ERROR_INVALID_ARGUMENT (str "VMESS UDP session target is fixed at dial time"))
  else if lenZ payload =? 0 then ([], fail CH_ERROR_UNSUPPORTED (str "VMESS UDP does not encode empty datagrams"))
  else
    match datagram_error env with
    | Some message => ([], fail CH_ERROR_IO (str "send VMESS UDP datagram: " ++ message))
    | None => ([On_stream payload], Done tt)
    end.

Definition send_shadowsocks (env : send_env) (c : ch_packet_connection C T) (target payload : bytes)
    : list departure * result unit :=
  match (cipher ← (match cipher c with Some k => Done k | None => Fault end);
         ch_ss_encrypt_datagram_with_prefix cipher (packet_key c) (shadowsocks_prefix c) target payload (send_random env)) with
  | Raise e => ([], Raise e)
  | Fault => ([], Fault)
  | Done frame =>
      if lenZ frame >? CH_PACKET_MAX_WIRE_SIZE then ([], fail CH_ERROR_INVALID_ARGUMENT (str "encrypted UDP packet is too large"))
      else
        match datagram_error env with
        | Some message => ([], fail CH_ERROR_IO (str "send Shadowsocks UDP packet: " ++ message))
        | None => ([To_server frame], Done tt)
        end
  end.

Definition ch_packet_connection_send (env : send_env) (c : ch_packet_connection C T) (target payload : bytes)
    : ch_packet_connection C T * list departure * result unit :=
  if lenZ payload >? CH_PACKET_MAX_WIRE_SIZE then (c, [], fail CH_ERROR_INVALID_ARGUMENT (str "invalid packet send input"))
  else if dropped env then (c, [], Done tt)
  else
    match kind c with
    | CH_PACKET_DIRECT => ch_packet_send_direct env c target payload
    | CH_PACKET_SHADOWSOCKS => let '(out, r) := send_shadowsocks env c target payload in (c, out, r)
    | CH_PACKET_TROJAN => let '(out, r) := ch_packet_send_trojan env target payload in (c, out, r)
    | CH_PACKET_TUNNEL => (c, [Into_tunnel target payload], tunnel_result env)
    | CH_PACKET_VMESS => let '(out, r) := ch_packet_send_vmess env c target payload in (c, out, r)
    end.

(** ** Receiving *)

(** What waiting for a datagram reports: no descriptor in time, an error, or
    which of the two sockets is readable with the datagram that it gives (with
    the source's name, and whether it was cut). *)
Inductive datagram_report : Type :=
| Timed_out
| Wait_failed (message : bytes)
| Receive_failed (message : bytes)
| Datagram (data : bytes) (truncated : bool) (name : bool * bytes * bytes + bytes)
| No_datagram.

Definition ch_packet_receive_direct (c : ch_packet_connection C T) (buffer_capacity : Z) (report : datagram_report)
    : result (bytes * bytes) :=
  if negb (ipv4_open c) && negb (ipv6_open c) then
    fail CH_ERROR_INVALID_STATE (str "send a direct UDP packet before receiving")
  else
    match report with
    | Timed_out => fail CH_ERROR_NOT_FOUND (str "UDP receive timed out")
    | Wait_failed message => fail CH_ERROR_IO (str "wait for UDP packet: " ++ message)
    | No_datagram => fail CH_ERROR_IO (str "UDP packet socket closed")
    | Receive_failed message => fail CH_ERROR_IO (str "receive UDP packet: " ++ message)
    | Datagram data truncated name =>
        if truncated || (lenZ data >? buffer_capacity) then
          fail CH_ERROR_INVALID_ARGUMENT (str "UDP receive buffer is too small")
        else source ← ch_packet_format_source name; Done (source, data)
    end.

Inductive address_state : Type := Incomplete | Invalid | Complete (address_length : Z).

Definition ch_packet_trojan_address_length (buffer : bytes) : address_state :=
  let ready address_length := if lenZ buffer <? address_length then Incomplete else Complete address_length in
  match buffer with
  | [] => Incomplete
  | atyp :: rest =>
      if atyp =? Socks.CH_SOCKS_ATYP_IPV4 then ready 7
      else if atyp =? Socks.CH_SOCKS_ATYP_IPV6 then ready 19
      else if atyp =? Socks.CH_SOCKS_ATYP_DOMAIN then
        match rest with
        | [] => Incomplete
        | domain_length :: _ => if domain_length =? 0 then Invalid else ready (2 + domain_length + 2)
        end
      else Invalid
  end.

(** The frame at the front of the buffer: [None] when more bytes are needed;
    otherwise the bytes behind it and its source and payload, or an error
    (which leaves the buffer as it is, but for a payload that does not fit). *)
Definition take_frame (buffer : bytes) (buffer_capacity : Z) : option (bytes * result (bytes * bytes)) :=
  match ch_packet_trojan_address_length buffer with
  | Invalid => Some (buffer, fail CH_ERROR_PARSE (str "invalid Trojan UDP source address"))
  | Incomplete => None
  | Complete address_length =>
      if lenZ buffer >=? address_length + 4 then
        let payload_length := Z.lor (Z.shiftl (byte_at buffer address_length) 8) (byte_at buffer (address_length + 1)) in
        let frame_length := address_length + 4 + payload_length in
        if frame_length >? CH_TROJAN_MAX_FRAME_SIZE then Some (buffer, fail CH_ERROR_PARSE (str "Trojan UDP frame is too large"))
        else if negb (byte_at buffer (address_length + 2) =? 13) || negb (byte_at buffer (address_length + 3) =? 10) then
          Some (buffer, fail CH_ERROR_PARSE (str "invalid Trojan UDP frame separator"))
        else if lenZ buffer >=? frame_length then
          match Socks.ch_socks_decode_address (sub buffer 0 address_length) with
          | Raise e => Some (buffer, Raise e)
          | Fault => Some (buffer, Fault)
          | Done (host, port, consumed) =>
              if negb (consumed =? address_length) then Some (buffer, Raise (mk_error CH_ERROR_PARSE []))
              else
                Some (drop (Z.to_nat frame_length) buffer,
                  if payload_length >? buffer_capacity then
                    fail CH_ERROR_INVALID_ARGUMENT (str "UDP receive buffer is too small")
                  else Done (endpoint_text host port, sub buffer (address_length + 4) payload_length))
          end
        else None
      else None
  end.

(** The capacity after it was made larger. *)
Definition grown (capacity : Z) : Z :=
  Z.min (if capacity =? 0 then 4096 else capacity * 2) CH_TROJAN_MAX_FRAME_SIZE.

(** What waiting for the stream reports; [Readable n]: that [recv] may take up
    to [n] of the bytes that are on their way. *)
Inductive stream_report : Type :=
| Stream_timed_out
| Stream_wait_failed (message : bytes)
| Stream_failed (message : bytes)
| Readable (n : Z).

(** The loop of the receiver over the bytes [wire] on their way: the buffer and
    its capacity, what is left of [wire], and the result, if there is one. *)
Fixpoint ch_packet_receive_trojan (reports : list stream_report) (buffer : bytes) (capacity : Z) (wire : bytes)
    (buffer_capacity : Z) : bytes * Z * bytes * option (result (bytes * bytes)) :=
  match take_frame buffer buffer_capacity with
  | Some (buffer, r) => (buffer, capacity, wire, Some r)
  | None =>
      match reports with
      | [] => (buffer, capacity, wire, None)
      | Stream_timed_out :: _ => (buffer, capacity, wire, Some (fail CH_ERROR_NOT_FOUND (str "Trojan UDP receive timed out")))
      | Stream_wait_failed message :: _ =>
          (buffer, capacity, wire, Some (fail CH_ERROR_IO (str "wait for Trojan UDP frame: " ++ message)))
      | report :: reports' =>
          let full := capacity =? lenZ buffer in
          if full && (grown capacity <=? capacity) then
            (buffer, capacity, wire, Some (fail CH_ERROR_PARSE (str "Trojan UDP frame exceeds maximum size")))
          else
            let capacity := if full then grown capacity else capacity in
            match report with
            | Readable n =>
                let count := Z.to_nat (Z.min (Z.max n 1) (capacity - lenZ buffer)) in
                if beq (take count wire) [] then
                  (buffer, capacity, wire, Some (fail CH_ERROR_IO (str "receive Trojan UDP frame: stream closed")))
                else ch_packet_receive_trojan reports' (buffer ++ take count wire) capacity (drop count wire) buffer_capacity
            | Stream_failed message =>
                (buffer, capacity, wire, Some (fail CH_ERROR_IO (str "receive Trojan UDP frame: " ++ message)))
            | _ => (buffer, capacity, wire, None)
            end
      end
  end.

Definition ch_packet_receive_vmess (c : ch_packet_connection C T) (buffer_capacity : Z) (report : datagram_report)
    : result (bytes * bytes) :=
  match report with
  | Timed_out => fail CH_ERROR_NOT_FOUND (str "VMESS UDP receive timed out")
  | Wait_failed message => fail CH_ERROR_IO (str "wait for VMESS UDP datagram: " ++ message)
  | No_datagram => fail CH_ERROR_IO (str "wait for VMESS UDP datagram: stream closed")
  | Receive_failed message => fail CH_ERROR_IO (str "receive VMESS UDP datagram: " ++ message)
  | Datagram data truncated _ =>
      if lenZ data =? 0 then fail CH_ERROR_IO (str "receive VMESS UDP datagram: stream closed")
      else if truncated || (lenZ data >? buffer_capacity) then
        fail CH_ERROR_INVALID_ARGUMENT (str "UDP receive buffer is too small")
      else Done (fixed_target c, data)
  end.

Definition receive_shadowsocks (c : ch_packet_connection C T) (buffer_capacity : Z) (report : datagram_report)
    : result (bytes * bytes) :=
  match report with
  | Timed_out => fail CH_ERROR_NOT_FOUND (str "Shadowsocks UDP receive timed out")
  | Wait_failed message | Receive_failed message => fail CH_ERROR_IO (str "receive Shadowsocks UDP packet: " ++ message)
  | No_datagram => fail CH_ERROR_IO (str "receive Shadowsocks UDP packet: ")
  | Datagram frame _ _ =>
      cipher ← (match cipher c with Some k => Done k | None => Fault end);
      '(source, payload) ← ch_ss_decrypt_datagram cipher (packet_key c) (take (Z.to_nat CH_PACKET_MAX_WIRE_SIZE) frame);
      if lenZ payload >? buffer_capacity then fail CH_ERROR_INVALID_ARGUMENT (str "UDP receive buffer is too small")
      else Done (source, payload)
  end.

(** What receiving meets: the datagram, or the bytes on the stream with what
    waiting for them reports, or the tunnel's result. *)
Record receive_env : Type := mk_receive_env {
  datagram : datagram_report;
  stream_reports : list stream_report;
  stream_wire : bytes;
  tunnel_received : result (bytes * bytes)
}.

Definition with_buffer (c : ch_packet_connection C T) (buffer : bytes) (capacity : Z) : ch_packet_connection C T :=
  mk_connection (kind c) (ipv4_open c) (ipv6_open c) (stream c) (cipher c) (packet_key c) (shadowsocks_prefix c) buffer
    capacity (fixed_target c) (tunnel_packet c).

(** The connection, what is left on the stream, and the source and payload;
    no result while it waits. *)
Definition ch_packet_connection_receive_timeout (env : receive_env) (c : ch_packet_connection C T)
    (buffer_capacity timeout_milliseconds : Z) : ch_packet_connection C T * bytes * option (result (bytes * bytes)) :=
  if (buffer_capacity =? 0) || (timeout_milliseconds <? -1) then
    (c, stream_wire env, Some (fail CH_ERROR_INVALID_ARGUMENT (str "invalid packet receive input")))
  else
    match kind c with
    | CH_PACKET_DIRECT => (c, stream_wire env, Some (ch_packet_receive_direct c buffer_capacity (datagram env)))
    | CH_PACKET_SHADOWSOCKS => (c, stream_wire env, Some (receive_shadowsocks c buffer_capacity (datagram env)))
    | CH_PACKET_TROJAN =>
        let '(buffer, capacity, wire, r) :=
          ch_packet_receive_trojan (stream_reports env) (receive_buffer c) (receive_capacity c) (stream_wire env) buffer_capacity in
        (with_buffer c buffer capacity, wire, r)
    | CH_PACKET_TUNNEL => (c, stream_wire env, Some (tunnel_received env))
    | CH_PACKET_VMESS => (c, stream_wire env, Some (ch_packet_receive_vmess c buffer_capacity (datagram env)))
    end.

Definition ch_packet_connection_receive (env : receive_env) (c : ch_packet_connection C T) (buffer_capacity : Z)
    : ch_packet_connection C T * bytes * option (result (bytes * bytes)) :=
  ch_packet_connection_receive_timeout env c buffer_capacity (-1).

(** ** Facts *)

Lemma string_key_exists (t : Config.toml_table D) key s : Config.toml_string_in t key = Some s -> Config.toml_key_exists t key = true.
Proof.
  unfold Config.toml_string_in, Config.toml_raw_in, Config.toml_key_exists, Config.toml_keys. intros E.
  rewrite existsb_app. apply orb_true_iff. left.
  destruct (Config.entry_in (Config.kvals t) key) as [raw|] eqn:Er; [|discriminate]. clear E.
  induction (Config.kvals t) as [|[k v] l IH]; [discriminate|]. cbn [Config.entry_in map existsb fst] in *.
  destruct (beq key k); [reflexivity|]. apply IH, Er.
Qed.

Lemma optional_string_is (server : option (Config.toml_table D)) key :
  ch_packet_optional_string server key = (s ← server; Config.toml_string_in s (str key)).
Proof.
  destruct server as [t|]; [|reflexivity]. unfold ch_packet_optional_string, Config.ch_config_table_get_string. cbn [mbind option_bind].
  destruct (Config.toml_string_in t (str key)) as [s|] eqn:E; [rewrite (string_key_exists _ _ _ E); reflexivity|].
  destruct (Config.toml_key_exists t (str key)); reflexivity.
Qed.

(** *** Trojan frames *)

(** Whatever part of an encoded address has arrived is either incomplete or
    recognised with its whole length. *)
Lemma address_length_prefix target address more k :
  Socks.ch_socks_encode_address target = Done address ->
  ch_packet_trojan_address_length (take k (address ++ more)) =
  if lenZ (take k (address ++ more)) <? lenZ address then Incomplete else Complete (lenZ address).
Proof.
  unfold Socks.ch_socks_encode_address. intros E. apply bind_Done_inv in E as ([host port] & Hs & E).
  destruct (Socks.split_address_bounds _ _ _ Hs) as [Hh _]. set (suffix := [u8 (Z.shiftr port 8); u8 (Z.land port 255)]) in *.
  assert (Hu : u8 (lenZ host) = lenZ host) by (apply Z.mod_small; lia). rewrite Hu in E. unfold ch_packet_trojan_address_length.
  destruct (pton4 host) as [raw|] eqn:E4; [|destruct (pton6 host) as [raw|] eqn:E6].
  - assert (address = 1 :: raw ++ suffix) as -> by (symmetry; exact (Chain.returned_value E)). apply pton4_address in E4 as [Hl _].
    assert (Ha : lenZ (1 :: raw ++ suffix) = 7) by (rewrite lenZ_cons, lenZ_app, Hl; reflexivity). rewrite Ha.
    destruct k as [|k]; [reflexivity|]. cbn [app take]. change (1 =? Socks.CH_SOCKS_ATYP_IPV4) with true. reflexivity.
  - assert (address = 4 :: raw ++ suffix) as -> by (symmetry; exact (Chain.returned_value E)). apply pton6_address in E6 as [Hl _].
    assert (Ha : lenZ (4 :: raw ++ suffix) = 19) by (rewrite lenZ_cons, lenZ_app, Hl; reflexivity). rewrite Ha.
    destruct k as [|k]; [reflexivity|]. cbn [app take]. change (4 =? Socks.CH_SOCKS_ATYP_IPV4) with false.
    change (4 =? Socks.CH_SOCKS_ATYP_IPV6) with true. reflexivity.
  - assert (address = 3 :: lenZ host :: host ++ suffix) as -> by (symmetry; exact (Chain.returned_value E)).
    assert (Ha : lenZ (3 :: lenZ host :: host ++ suffix) = 2 + lenZ host + 2)
      by (rewrite !lenZ_cons, lenZ_app; change (lenZ suffix) with 2; lia). rewrite Ha.
    destruct k as [|[|k]]; cbn [app take]; [replace (lenZ [] <? _) with true by (rewrite lenZ_nil; lia); reflexivity| |].
    + change (3 =? Socks.CH_SOCKS_ATYP_IPV4) with false. change (3 =? Socks.CH_SOCKS_ATYP_IPV6) with false.
      change (3 =? Socks.CH_SOCKS_ATYP_DOMAIN) with true. cbv beta iota. change (lenZ [3]) with 1. replace (1 <? _) with true by lia. reflexivity.
    + change (3 =? Socks.CH_SOCKS_ATYP_IPV4) with false. change (3 =? Socks.CH_SOCKS_ATYP_IPV6) with false.
      change (3 =? Socks.CH_SOCKS_ATYP_DOMAIN) with true. cbv beta iota. replace (lenZ host =? 0) with false by lia. reflexivity.
Qed.

Lemma encoded_length target address : Socks.ch_socks_encode_address target = Done address -> 0 < lenZ address <= 259.
Proof.
  unfold Socks.ch_socks_encode_address. intros E. apply bind_Done_inv in E as ([host port] & Hs & E).
  destruct (Socks.split_address_bounds _ _ _ Hs) as [Hh _].
  destruct (pton4 host) as [raw|] eqn:E4; [|destruct (pton6 host) as [raw|] eqn:E6].
  - apply pton4_address in E4 as [Hl _]. apply Chain.returned_value in E as <-. rewrite !lenZ_app, Hl. unfold lenZ. cbn [length]. lia.
  - apply pton6_address in E6 as [Hl _]. apply Chain.returned_value in E as <-. rewrite !lenZ_app, Hl. unfold lenZ. cbn [length]. lia.
  - apply Chain.returned_value in E as <-. rewrite !lenZ_app. unfold lenZ in *. cbn [length]. lia.
Qed.

Lemma frame_length_field n : 0 <= n <= 65535 -> Z.lor (Z.shiftl (u8 (Z.shiftr n 8)) 8) (u8 n) = n.
Proof.
  intros Hn. pose proof (length_bytes_value n Hn) as Hv. unfold length_bytes in Hv.
  change (byte_at [?a; ?b] 0) with a in Hv. change (byte_at [?a; ?b] 1) with b in Hv.
  replace (u8 n) with (u8 (Z.land n 255)); [exact Hv|]. change 255 with (Z.ones 8). rewrite Z.land_ones by lia. unfold u8. apply Z.mod_mod. lia.
Qed.
Lemma trojan_frame_parts target payload frame :
  trojan_frame target payload = Done frame ->
  exists address, Socks.ch_socks_encode_address target = Done address /\ 0 < lenZ address <= 259 /\ lenZ payload <= 65535 /\
    frame = address ++ [u8 (Z.shiftr (lenZ payload) 8); u8 (lenZ payload); 13; 10] ++ payload.
Proof.
  unfold trojan_frame. intros E. apply bind_Done_inv in E as (address & Ea & E). case_if_in E; [discriminate|].
  apply Chain.returned_value in E as <-. exists address. pose proof (encoded_length _ _ Ea). unfold UINT16_MAX in *. split_and!; auto; lia.
Qed.

Lemma byte_at_app (a b : bytes) i : i = lenZ a -> forall j, 0 <= j -> byte_at (a ++ b) (i + j) = byte_at b j.
Proof.
  intros -> j Hj. unfold byte_at, lenZ. rewrite lookup_app_r by lia. do 2 f_equal. lia.
Qed.

(** The fields behind a whole address. *)
Lemma take_frame_fields (target address payload tail : bytes) capacity :
  Socks.ch_socks_encode_address target = Done address -> lenZ payload <= 65535 ->
  let buffer := address ++ [u8 (Z.shiftr (lenZ payload) 8); u8 (lenZ payload); 13; 10] ++ tail in
  take_frame buffer capacity =
  if lenZ tail >=? lenZ payload then
    match Socks.ch_socks_decode_address address with
    | Raise e => Some (buffer, Raise e)
    | Fault => Some (buffer, Fault)
    | Done (host, port, consumed) =>
        if negb (consumed =? lenZ address) then Some (buffer, Raise (mk_error CH_ERROR_PARSE []))
        else Some (drop (length payload) tail,
               if lenZ payload >? capacity then fail CH_ERROR_INVALID_ARGUMENT (str "UDP receive buffer is too small")
               else Done (endpoint_text host port, take (length payload) tail))
    end
  else None.
Proof.
  intros Ea Hp. cbv zeta. pose proof (encoded_length _ _ Ea) as Hal. pose proof (lenZ_nonneg payload). pose proof (lenZ_nonneg tail).
  set (fields := [u8 (Z.shiftr (lenZ payload) 8); u8 (lenZ payload); 13; 10]).
  assert (Hb : lenZ (address ++ fields ++ tail) = lenZ address + 4 + lenZ tail) by (rewrite !lenZ_app; change (lenZ fields) with 4; lia).
  unfold take_frame. pose proof (address_length_prefix target address (fields ++ tail) (length (address ++ fields ++ tail)) Ea) as Hl.
  rewrite firstn_all in Hl. rewrite Hl, Hb. replace (lenZ address + 4 + lenZ tail <? lenZ address) with false by lia.
  replace (lenZ address + 4 + lenZ tail >=? lenZ address + 4) with true by lia.
  pose proof (byte_at_app address (fields ++ tail) _ eq_refl) as Hat.
  pose proof (Hat 0 ltac:(lia)) as H0'. rewrite Z.add_0_r in H0'. rewrite H0', !Hat by lia. clear H0'.
  change (byte_at (fields ++ tail) 0) with (u8 (Z.shiftr (lenZ payload) 8)). change (byte_at (fields ++ tail) 1) with (u8 (lenZ payload)).
  change (byte_at (fields ++ tail) 2) with 13. change (byte_at (fields ++ tail) 3) with 10.
  rewrite frame_length_field by lia. cbv zeta. unfold CH_TROJAN_MAX_FRAME_SIZE.
  replace (lenZ address + 4 + lenZ payload >? 65798) with false by lia. cbn [negb orb Z.eqb Pos.eqb].
  replace (lenZ address + 4 + lenZ tail >=? lenZ address + 4 + lenZ payload) with (lenZ tail >=? lenZ payload) by lia.
  destruct (lenZ tail >=? lenZ payload) eqn:E; [|reflexivity].
  rewrite (sub_front address) by reflexivity.
  assert (Hd : drop (Z.to_nat (lenZ address + 4 + lenZ payload)) (address ++ fields ++ tail) = drop (length payload) tail).
  { rewrite app_assoc. rewrite drop_app_ge; rewrite length_app; change (length fields) with 4%nat; unfold lenZ in *; [|lia]. f_equal. lia. }
  assert (Hs : sub (address ++ fields ++ tail) (lenZ address + 4) (lenZ payload) = take (length payload) tail).
  { unfold sub. rewrite app_assoc, drop_app_length' by (rewrite length_app; change (length fields) with 4%nat; unfold lenZ; lia).
    unfold lenZ. rewrite Nat2Z.id. reflexivity. }
  rewrite Hd, Hs. reflexivity.
Qed.

(** Less than a frame is not taken. *)
Lemma take_frame_short target payload frame rest k capacity :
  trojan_frame target payload = Done frame -> (k < length frame)%nat -> take_frame (take k (frame ++ rest)) capacity = None.
Proof.
  intros Hf Hk. destruct (trojan_frame_parts _ _ _ Hf) as (address & Ea & Hal & Hp & Hfr).
  set (fields := [u8 (Z.shiftr (lenZ payload) 8); u8 (lenZ payload); 13; 10]) in *. subst frame.
  assert (Hkl : (length address + 4 + length payload > k)%nat) by (rewrite !length_app in Hk; change (length fields) with 4%nat in Hk; lia).
  destruct (Nat.ltb k (length address + 4)) eqn:Ek.
  - apply Nat.ltb_lt in Ek. unfold take_frame. rewrite <- app_assoc. rewrite (address_length_prefix target address _ k Ea).
    case_if; [reflexivity|].
    destruct (lenZ (take k (address ++ (fields ++ payload) ++ rest)) >=? lenZ address + 4) eqn:Eg; [exfalso; unfold lenZ in Eg; rewrite length_take in Eg; apply Z.geb_le in Eg; lia|reflexivity].
  - apply Nat.ltb_ge in Ek.
    assert (Ht : take k ((address ++ fields ++ payload) ++ rest) = address ++ fields ++ take (k - length address - 4) (payload ++ rest)).
    { rewrite <- !app_assoc. rewrite take_app_ge by lia. f_equal. rewrite take_app_ge by (change (length fields) with 4%nat; lia). reflexivity. }
    rewrite Ht. unfold fields. rewrite (take_frame_fields target address payload _ capacity Ea Hp).
    match goal with |- context [if ?b then _ else _] => replace b with false; [reflexivity|] end. unfold lenZ. rewrite length_take. symmetry. rewrite Z.geb_leb. apply Z.leb_gt. lia.
Qed.

(** A whole frame is taken, and only it. *)
Lemma take_frame_whole target payload frame host port rest capacity :
  trojan_frame target payload = Done frame -> Socks.ch_socks_split_address target = Done (host, port) -> lenZ payload <= capacity ->
  take_frame (frame ++ rest) capacity = Some (rest, Done (endpoint_text (Socks.canonical host) port, payload)).
Proof.
  intros Hf Hs Hc. destruct (trojan_frame_parts _ _ _ Hf) as (address & Ea & Hal & Hp & ->). rewrite <- !app_assoc.
  rewrite (take_frame_fields target address payload (payload ++ rest) capacity Ea Hp).
  pose proof (lenZ_nonneg rest). rewrite lenZ_app. replace (lenZ payload + lenZ rest >=? lenZ payload) with true by lia.
  pose proof (Socks.encode_decode target host port address [] Hs Ea) as Hd. rewrite app_nil_r in Hd. rewrite Hd, Z.eqb_refl. cbn [negb].
  rewrite take_app_length, drop_app_length. replace (lenZ payload >? capacity) with false by lia. reflexivity.
Qed.
(** The buffer is within its capacity, and the capacity within its limit. *)
Definition buffered (buffer : bytes) (capacity : Z) : Prop := lenZ buffer <= capacity <= CH_TROJAN_MAX_FRAME_SIZE.

Definition readable (reports : list stream_report) : Prop := Forall (fun r => exists n, r = Readable n) reports.

Lemma grown_larger capacity : 0 <= capacity < CH_TROJAN_MAX_FRAME_SIZE -> capacity < grown capacity <= CH_TROJAN_MAX_FRAME_SIZE.
Proof. unfold grown, CH_TROJAN_MAX_FRAME_SIZE. intros Hc. case_if; lia. Qed.

Lemma take_frame_ready target payload frame host port buffer wire rest capacity :
  trojan_frame target payload = Done frame -> Socks.ch_socks_split_address target = Done (host, port) -> lenZ payload <= capacity ->
  (length frame <= length buffer)%nat -> buffer ++ wire = frame ++ rest ->
  take_frame buffer capacity = Some (drop (length frame) buffer, Done (endpoint_text (Socks.canonical host) port, payload)) /\
  drop (length frame) buffer ++ wire = rest.
Proof.
  intros Hf Hs Hc El Hw.
  assert (Hbuf : take (length frame) buffer = frame).
  { transitivity (take (length frame) (buffer ++ wire)); [symmetry; apply take_app_le; lia|rewrite Hw; apply take_app_length]. }
  split.
  - pose proof (take_frame_whole _ _ _ _ _ (drop (length frame) buffer) _ Hf Hs Hc) as Ht.
    rewrite <- Hbuf in Ht at 1. rewrite take_drop in Ht. exact Ht.
  - transitivity (drop (length frame) (buffer ++ wire)); [symmetry; apply drop_app_le; lia|rewrite Hw; apply drop_app_length].
Qed.

Lemma receive_one target payload frame host port reports buffer capacity wire rest buffer_capacity :
  trojan_frame target payload = Done frame -> Socks.ch_socks_split_address target = Done (host, port) ->
  lenZ payload <= buffer_capacity -> readable reports -> (length frame - length buffer <= length reports)%nat ->
  buffered buffer capacity -> buffer ++ wire = frame ++ rest ->
  exists buffer' capacity' wire',
    ch_packet_receive_trojan reports buffer capacity wire buffer_capacity
    = (buffer', capacity', wire', Some (Done (endpoint_text (Socks.canonical host) port, payload))) /\
    buffered buffer' capacity' /\ buffer' ++ wire' = rest.
Proof.
  intros Hf Hs Hc. revert buffer capacity wire. induction reports as [|report reports IH]; intros buffer capacity wire Hr Hn Hb Hw.
  all: destruct (Nat.leb (length frame) (length buffer)) eqn:El;
    [apply Nat.leb_le in El|apply Nat.leb_gt in El; assert (Hshort : buffer = take (length buffer) (frame ++ rest))
       by (rewrite <- Hw; symmetry; apply take_app_length)].
  1, 3: destruct (take_frame_ready _ _ _ _ _ _ _ _ _ Hf Hs Hc El Hw) as [Htf Hrest];
    exists (drop (length frame) buffer), capacity, wire; cbn [ch_packet_receive_trojan]; rewrite Htf;
    split; [reflexivity|split; [unfold buffered, lenZ in *; rewrite length_drop; lia|exact Hrest]].
  { cbn [length] in Hn. lia. }
  pose proof (take_frame_short _ _ _ rest _ buffer_capacity Hf El) as Hnone. rewrite <- Hshort in Hnone.
  cbn [ch_packet_receive_trojan]. rewrite Hnone.
  inversion_clear Hr as [|? ? [n ->] Hr']. cbv beta iota.
  assert (Hframe : lenZ frame <= CH_TROJAN_MAX_FRAME_SIZE).
  { destruct (trojan_frame_parts _ _ _ Hf) as (address & _ & Ha & Hp & ->). rewrite !lenZ_app. unfold CH_TROJAN_MAX_FRAME_SIZE, lenZ in *. cbn [length]. lia. }
  assert (Hlt : lenZ buffer < lenZ frame) by (unfold lenZ; lia). pose proof (lenZ_nonneg buffer) as Hb0. unfold buffered in Hb.
  set (capacity' := if capacity =? lenZ buffer then grown capacity else capacity).
  assert (Hcap : lenZ buffer < capacity' <= CH_TROJAN_MAX_FRAME_SIZE /\ (capacity =? lenZ buffer) && (grown capacity <=? capacity) = false).
  { unfold capacity'. destruct (capacity =? lenZ buffer) eqn:Ec; [|lia]. pose proof (grown_larger capacity). lia. }
  destruct Hcap as [Hcap ->]. set (count := Z.to_nat (Z.min (Z.max n 1) (capacity' - lenZ buffer))).
  assert (Hwire : (0 < length wire)%nat).
  { apply (f_equal length) in Hw. rewrite !length_app in Hw. lia. }
  assert (Hcount : (0 < count)%nat /\ Z.of_nat count <= capacity' - lenZ buffer) by (unfold count; lia).
  assert (Htake : (0 < length (take count wire))%nat) by (rewrite length_take; lia).
  destruct (beq (take count wire) []) eqn:Et; [apply beq_true in Et; rewrite Et in Htake; cbn in Htake; lia|].
  apply IH; auto.
  - rewrite length_app. cbn [length] in Hn. lia.
  - unfold buffered. rewrite lenZ_app. unfold lenZ at 2. rewrite length_take. unfold lenZ in *. lia.
  - rewrite <- app_assoc, take_drop. exact Hw.
Qed.

(** What a Trojan connection that sends puts on its stream. *)
Lemma trojan_sends env c target payload data :
  kind c = CH_PACKET_TROJAN -> ch_packet_connection_send env c target payload = (c, [On_stream data], Done tt) ->
  trojan_frame target payload = Done data.
Proof.
  unfold ch_packet_connection_send, ch_packet_send_trojan. intros ->. case_if; [discriminate|]. case_if; [discriminate|].
  destruct (trojan_frame target payload) as [frame| |]; try discriminate.
  destruct (ch_ss_send_all (stream_calls env) frame) as [[sent left] [m|]] eqn:E; [discriminate|]. apply send_all_sent in E as ->.
  intros E. congruence.
Qed.

(** Several calls: the connection after each, and its result. *)
Fixpoint receive_each (calls : list (list stream_report)) (c : ch_packet_connection C T) (wire : bytes) (buffer_capacity : Z)
    : list (ch_packet_connection C T * option (result (bytes * bytes))) :=
  match calls with
  | [] => []
  | reports :: calls' =>
      let '(c, wire, r) := ch_packet_connection_receive (mk_receive_env No_datagram reports wire Fault) c buffer_capacity in
      (c, r) :: receive_each calls' c wire buffer_capacity
  end.

(** The text of a target as the receiver sees it. *)
Definition seen_as (target : bytes) : bytes :=
  match Socks.ch_socks_split_address target with
  | Done (host, port) => endpoint_text (Socks.canonical host) port
  | _ => []
  end.

Lemma receive_each_spec messages frames calls c wire rest buffer_capacity :
  kind c = CH_PACKET_TROJAN -> 0 < buffer_capacity ->
  Forall2 (fun m frame => trojan_frame m.1 m.2 = Done frame /\ lenZ m.2 <= buffer_capacity) messages frames ->
  Forall2 (fun frame reports => readable reports /\ (length frame <= length reports)%nat) frames calls ->
  buffered (receive_buffer c) (receive_capacity c) -> receive_buffer c ++ wire = concat frames ++ rest ->
  map snd (receive_each calls c wire buffer_capacity) = map (fun m => Some (Done (seen_as m.1, m.2))) messages /\
  Forall (fun c => buffered (receive_buffer c) (receive_capacity c)) (map fst (receive_each calls c wire buffer_capacity)).
Proof.
  intros Hk Hc Hm. revert calls c wire Hk. induction Hm as [|[target payload] frame messages frames [Hf Hl] Hm IH]; intros calls c wire Hk Hr Hb Hw;
    inversion_clear Hr as [|? reports ? calls' [Hread Hlen] Hr']; [split; [reflexivity|constructor]|]. cbn [fst snd] in *.
  destruct (trojan_frame_parts _ _ _ Hf) as (address & Ea & _). pose proof Ea as Ea'. unfold Socks.ch_socks_encode_address in Ea'.
  apply bind_Done_inv in Ea' as ([host port] & Hs & _). cbn [concat] in Hw. rewrite <- app_assoc in Hw.
  destruct (receive_one target payload frame host port reports (receive_buffer c) (receive_capacity c) wire (concat frames ++ rest) buffer_capacity
              Hf Hs Hl Hread ltac:(lia) Hb Hw) as (b & cap & w & E & Hb' & Hw').
  cbn [receive_each map]. unfold ch_packet_connection_receive, ch_packet_connection_receive_timeout.
  cbn [stream_reports stream_wire]. rewrite (proj2 (orb_false_iff _ _)) by lia. rewrite Hk, E. cbn [map fst snd].
  match goal with |- context [receive_each calls' ?c' w buffer_capacity] => destruct (IH calls' c' w) as [Hres Hall]; auto end.
  rewrite Hres. split; [|constructor; [exact Hb'|exact Hall]]. unfold seen_as at 2. cbn [fst]. rewrite Hs. reflexivity.
Qed.

(** *** Properties *)

(** C21: Datagrams survive a Trojan stream.  Whatever datagrams one connection
    sends, to any targets, each call of the receiver on the other end returns
    the next of them, whole and in order, with the text of its target, however
    the stream delivers the bytes; after each call the receive buffer holds no
    more than it has room for, and its room is within
    [CH_TROJAN_MAX_FRAME_SIZE]. *)
Theorem trojan_datagrams_received sender messages envs frames receiver calls buffer_capacity :
  kind sender = CH_PACKET_TROJAN ->
  length envs = length messages -> length frames = length messages ->
  (forall i m env frame, messages !! i = Some m -> envs !! i = Some env -> frames !! i = Some frame ->
     ch_packet_connection_send env sender m.1 m.2 = (sender, [On_stream frame], Done tt) /\ lenZ m.2 <= buffer_capacity) ->
  kind receiver = CH_PACKET_TROJAN -> receive_buffer receiver = [] -> receive_capacity receiver = 0 -> 0 < buffer_capacity ->
  Forall2 (fun frame reports => readable reports /\ (length frame <= length reports)%nat) frames calls ->
  let received := receive_each calls receiver (concat frames) buffer_capacity in
  map snd received = map (fun m => Some (Done (seen_as m.1, m.2))) messages /\
  Forall (fun c => lenZ (receive_buffer c) <= receive_capacity c <= CH_TROJAN_MAX_FRAME_SIZE) (map fst received).
Proof.
  intros Hk He Hl Hsend Hrk Hrb Hrc Hc Hcalls. cbv zeta. apply (receive_each_spec messages frames calls receiver (concat frames) []); auto.
  - apply Forall2_same_length_lookup_2; [lia|]. intros i m frame Hm Hfr.
    destruct (lookup_lt_is_Some_2 envs i) as [env Henv]; [rewrite He; apply (lookup_lt_Some _ _ _ Hm)|].
    destruct (Hsend i m env frame Hm Henv Hfr) as [E Hle]. split; [|exact Hle]. apply (trojan_sends env sender); assumption.
  - rewrite Hrb, Hrc. unfold buffered, CH_TROJAN_MAX_FRAME_SIZE. change (lenZ []) with 0. lia.
  - rewrite Hrb, app_nil_r. reflexivity.
Qed.

(** The check that a chain carries datagrams and the dial agree: for every
    chain the check gives exactly the outcome, with the same error, of choosing
    the kind of connection when the chain is dialled. *)
Theorem supports_packet_agrees (chain : Config.toml_table D) :
  Policy.ch_protocol_chain_supports_packet chain = (_ ← packet_kind chain; Done tt).
Proof.
  unfold Policy.ch_protocol_chain_supports_packet, packet_kind. cbv zeta. change (Config.items (Config.toml_array_in chain (str "server"))) with (Chain.servers_of chain).
  destruct (list.last (Chain.servers_of chain)) as [item|]; [|reflexivity]. rewrite optional_string_is.
  destruct (Config.table_at item ≫= _) as [protocol|]; [|reflexivity].
  destruct (strcaseeq protocol (str "direct")) eqn:E1; [rewrite !(Chain.kind_is _ _ _ E1)|
    destruct (strcaseeq protocol (str "shadowsocks")) eqn:E2; [rewrite !(Chain.kind_is _ _ _ E2)|
    destruct (strcaseeq protocol (str "trojan")); [|destruct (strcaseeq protocol (str "clambback")); [|
    destruct (strcaseeq protocol (str "vmess")); [|
    destruct (strcaseeq protocol (str "wireguard")); [|destruct (strcaseeq protocol (str "openvpn"))]]]]]];
  cbn [mbind outcome_bind orb negb]; try reflexivity; destruct (lenZ (Chain.servers_of chain) =? 1); reflexivity.
Qed.
End Dial.
(** ** Witnesses *)

Section Witnesses.
Import PlainInet PlainCrypto.

Definition w_connection : ch_packet_connection unit unit := mk_connection CH_PACKET_TROJAN false false (Some tt) None [] [] [] 0 [] None.

Definition w_messages : list (bytes * bytes) := [(str "example.com:53", str "query"); (str "192.0.2.7:123", []); (str "[2001:db8::1]:443", str "quic")].

Definition w_send_env : send_env := mk_send_env false (fun _ _ => inr []) [] None None [Accepted 3; Interrupted; Accepted 4] (Done tt).

Definition w_frame_of (m : bytes * bytes) : bytes := match trojan_frame m.1 m.2 with Done f => f | _ => [] end.

(** The stream is read four bytes at a time. *)
Definition w_reports (frame : bytes) : list stream_report := replicate (length frame) (Readable 4).

Lemma trojan_datagrams_received_witness :
  map seen_as (map fst w_messages) = map str ["example.com:53"; "192.0.2.7:123"; "[2001:db8::1]:443"]%string /\
  map snd (receive_each (map w_reports (map w_frame_of w_messages)) w_connection (concat (map w_frame_of w_messages)) 1500)
  = map (fun m => Some (Done (seen_as m.1, m.2))) w_messages.
Proof.
  split; [vm_compute; reflexivity|].
  apply (trojan_datagrams_received w_connection w_messages (replicate 3 w_send_env) (map w_frame_of w_messages) w_connection).
  - reflexivity.
  - reflexivity.
  - reflexivity.
  - intros i m env frame Hm He Hf. destruct i as [|[|[|i]]]; cbn in Hm, He, Hf; try discriminate;
      (injection Hm as <-; injection He as <-; injection Hf as <-; split; [vm_compute; reflexivity|vm_compute; discriminate]).
  - reflexivity.
  - reflexivity.
  - reflexivity.
  - reflexivity.
  - repeat constructor; try (exists 4; reflexivity).
Defined.

End Witnesses.
End Packet.
