(* ===== verification/Outline.v ===== *)
(** * Outline access keys: [native/src/outline.c]

    An access key names a Shadowsocks server, as an [ss://] URL, or as an
    [ssconf://] URL from which a description is fetched (a URL, JSON or YAML).
    Here are the parsers, the fetch with its redirects, the review of a key and
    the request with which a profile is imported or refreshed.

    OpenSSL's Base64 is the class [Base64]; libyaml and libcurl are arguments
    (the document it parses, the responses it gets).  Reading a string past its
    terminator is a [Fault].  Allocation is taken to succeed, but for the JSON
    buffer. *)

From S2P Require Import Prelude CLib Inet Json JsonText HttpSafety Config RuleFeed FeedCache Crypto Shadowsocks ConfigMutation.

Module Outline.
Import Crypto Shadowsocks Json JsonText.

Definition CH_OUTLINE_MAX_BODY : Z := 64 * 1024.
Definition CH_OUTLINE_MAX_PREFIX : Z := 32.

Record outline_endpoint : Type := mk_endpoint {
  address : option bytes;
  e_method : option bytes;
  password : option bytes;
  prefix : bytes
}.

Definition no_endpoint : outline_endpoint := mk_endpoint None None None [].

Record outline_key : Type := mk_key {
  tcp : outline_endpoint;
  udp : outline_endpoint;
  suggested_name : option bytes;
  dynamic_key : option bytes;
  is_dynamic : bool;
  refreshed_at_ns : Z
}.

Definition no_key : outline_key := mk_key no_endpoint no_endpoint None None false 0.

(** ** Encodings *)

Definition outline_trim_copy (input : bytes) : bytes := trim input.

Fixpoint outline_percent_decode (plus_space : bool) (input : bytes) : result bytes :=
  let keep value rest :=
    if value =? 0 then fail CH_ERROR_PARSE (str "Outline URL contains an embedded NUL")
    else r ← rest; Done (value :: r) in
  match input with
  | [] => Done []
  | c :: input' =>
      if c =? 37 then
        match input' with
        | a :: b :: rest =>
            match ch_json_hex a, ch_json_hex b with
            | Some h, Some l => keep (h * 16 + l) (outline_percent_decode plus_space rest)
            | _, _ => fail CH_ERROR_PARSE (str "Outline URL contains invalid percent encoding")
            end
        | _ => fail CH_ERROR_PARSE (str "Outline URL contains invalid percent encoding")
        end
      else if (c =? 43) && plus_space then keep 32 (outline_percent_decode plus_space input')
      else keep c (outline_percent_decode plus_space input')
  end.

(** A byte of a C string: its terminator behind the last one, nothing beyond. *)
Definition char_at (text : bytes) (i : Z) : result Z :=
  if i <? lenZ text then rd text i else if i =? lenZ text then Done 0 else Fault.

(** The loop over the padding, from [index] down. *)
Fixpoint without_trailing (index : nat) (input : bytes) (actual : Z) : result Z :=
  match index with
  | O => Done actual
  | S i =>
      c ← char_at input (Z.of_nat i);
      if c =? 61 then without_trailing i input (if actual >? 0 then actual - 1 else actual) else Done actual
  end.

Section Keys.
Context `{Evp} `{Digest}.

Definition url_safe (c : Z) : Z := if c =? 45 then 43 else if c =? 95 then 47 else c.

Definition outline_base64_decode (input : bytes) : result bytes :=
  let length := lenZ input in
  if (length =? 0) || (length >? 16384) then fail CH_ERROR_PARSE (str "invalid Outline Base64 value")
  else
    let padded := Z.land (length + 3) (u64 (Z.lnot 3)) in
    match EVP_DecodeBlock (map url_safe input ++ replicate (Z.to_nat (padded - length)) 61) with
    | None => fail CH_ERROR_PARSE (str "invalid Outline Base64 value")
    | Some decoded =>
        actual ← without_trailing (Z.to_nat padded) input (lenZ decoded);
        let actual := if padded >? length then actual - (padded - length) else actual in
        rds decoded 0 actual
    end.

(** The code points of a UTF-8 text, each as a byte. *)
Fixpoint prefix_loop (input : bytes) (out : bytes) : result bytes :=
  let outside := fail CH_ERROR_PARSE (str "Outline prefix contains a character outside U+00FF") in
  let store codepoint rest :=
    if codepoint >? 255 then outside
    else if lenZ out >=? CH_OUTLINE_MAX_PREFIX then fail CH_ERROR_INVALID_ARGUMENT (str "Outline prefix exceeds 32 bytes")
    else rest (out ++ [codepoint]) in
  match input with
  | [] => Done out
  | c :: input' =>
      if c <? 128 then store c (prefix_loop input')
      else
        match input' with
        | d :: rest =>
            if (Z.land c 224 =? 192) && (Z.land d 192 =? 128) then
              let codepoint := Z.lor (Z.shiftl (Z.land c 31) 6) (Z.land d 63) in
              store (if codepoint <? 128 then 2 ^ 32 - 1 else codepoint) (prefix_loop rest)
            else outside
        | [] => outside
        end
  end.

Definition with_prefix (endpoint : outline_endpoint) (p : bytes) : outline_endpoint :=
  mk_endpoint (address endpoint) (e_method endpoint) (password endpoint) p.

Definition outline_prefix_from_utf8_bytes (input : bytes) (endpoint : outline_endpoint) : result outline_endpoint :=
  p ← prefix_loop input []; Done (with_prefix endpoint p).

Definition outline_prefix_from_utf8 (input : option bytes) (endpoint : outline_endpoint) : result outline_endpoint :=
  outline_prefix_from_utf8_bytes (default [] input) endpoint.

(** ** Queries *)

(** The parts of a text between the characters that [cut] tells. *)
Fixpoint split_where (cut : Z -> bool) (s : bytes) : list bytes :=
  match s with
  | [] => [[]]
  | c :: s' =>
      if cut c then [] :: split_where cut s'
      else match split_where cut s' with p :: ps => (c :: p) :: ps | [] => [[c]] end
  end.

(** A text up to a character. *)
Definition before (c : Z) (s : bytes) : bytes := match split_first c s with Some (a, _) => a | None => s end.

(** The key and the value of a part of a query; a part without an equals sign
    has no value. *)
Definition key_value (part : bytes) : bytes * option bytes :=
  match split_first 61 part with Some (k, v) => (k, Some v) | None => (part, None) end.

(** The escapes of a prefix; here a NUL is allowed. *)
Fixpoint decode_prefix (value : bytes) : result bytes :=
  match value with
  | [] => Done []
  | c :: value' =>
      if c =? 37 then
        match value' with
        | a :: b :: rest =>
            match ch_json_hex a, ch_json_hex b with
            | Some h, Some l => r ← decode_prefix rest; Done (h * 16 + l :: r)
            | _, _ => fail CH_ERROR_PARSE (str "Outline URL contains invalid percent encoding")
            end
        | _ => fail CH_ERROR_PARSE (str "Outline URL contains invalid percent encoding")
        end
      else r ← decode_prefix value'; Done ((if c =? 43 then 32 else c) :: r)
  end.

Fixpoint query_prefix_loop (parts : list bytes) (endpoint : outline_endpoint) : result outline_endpoint :=
  match parts with
  | [] => Done endpoint
  | part :: parts' =>
      match key_value part with
      | (k, Some value) =>
          if beq k (str "prefix") then decoded ← decode_prefix value; outline_prefix_from_utf8_bytes decoded endpoint
          else query_prefix_loop parts' endpoint
      | _ => query_prefix_loop parts' endpoint
      end
  end.

(** The query ends at a fragment. *)
Definition outline_query_prefix (query : bytes) (endpoint : outline_endpoint) : result outline_endpoint :=
  query_prefix_loop (split_where (fun c => c =? 38) (before 35 query)) endpoint.

Fixpoint query_value_loop (parts : list bytes) (name : bytes) : option bytes :=
  match parts with
  | [] => None
  | part :: parts' =>
      let '(k, v) := key_value part in
      if beq k name then match outline_percent_decode true (default [] v) with Done r => Some r | _ => None end
      else query_value_loop parts' name
  end.

(** Here the parts of a fragment are searched as well. *)
Definition outline_query_value (query name : bytes) : option bytes :=
  query_value_loop (split_where (fun c => (c =? 38) || (c =? 35)) query) name.

(** ** Endpoints *)

Definition outline_validate_endpoint (endpoint : outline_endpoint) : result unit :=
  match address endpoint, e_method endpoint, password endpoint with
  | Some ((a0 :: _) as address), Some ((_ :: _) as method), Some (_ :: _) =>
      let invalid := fail CH_ERROR_INVALID_ARGUMENT (str "Outline endpoint must be host:port") in
      port_text ←
        (if a0 =? 91 then
           match split_last 93 address with Some (_, 58 :: port_text) => Done port_text | _ => invalid end
         else match split_last 58 address with Some (_, port_text) => Done port_text | None => invalid end);
      let port := strtol port_text in
      if scan_range port || negb (scan_any port) || negb (beq (scan_rest port) []) || (scan_value port <? 1) || (scan_value port >? 65535)
      then fail CH_ERROR_INVALID_ARGUMENT (str "Outline endpoint port is invalid")
      else
        cipher ← ch_ss_cipher_from_name method;
        if lenZ (prefix endpoint) >? salt_size cipher then
          fail CH_ERROR_INVALID_ARGUMENT (str "Outline prefix is longer than the cipher salt")
        else Done tt
  | _, _, _ => fail CH_ERROR_INVALID_ARGUMENT (str "Outline endpoint requires address, cipher, and secret")
  end.

(** The key with one endpoint for both networks, when it is valid. *)
Definition with_endpoint (key : outline_key) (endpoint : outline_endpoint) : result outline_key :=
  _ ← outline_validate_endpoint endpoint;
  Done (mk_key endpoint endpoint (suggested_name key) (dynamic_key key) (is_dynamic key) (refreshed_at_ns key)).

Definition with_name (key : outline_key) (name : option bytes) : outline_key :=
  mk_key (tcp key) (udp key) name (dynamic_key key) (is_dynamic key) (refreshed_at_ns key).

(** ** [ss://] URLs *)

Fixpoint without_slashes (reversed : bytes) : bytes :=
  match reversed with 47 :: r => without_slashes r | _ => reversed end.

(** The user information, with its Base64 removed when it has a colon inside. *)
Definition cipher_information (userinfo : bytes) : result bytes :=
  match outline_base64_decode userinfo with
  | Done decoded => Done (if bool_decide (58 ∈ decoded) && negb (bool_decide (0 ∈ decoded)) then decoded else userinfo)
  | Raise _ => Done userinfo
  | Fault => Fault
  end.

(** [raw] begins with [ss://]; the text before the query and the fragment, the
    query and the fragment. *)
Definition url_split (value : bytes) : bytes * option bytes * option bytes :=
  let '(front, fragment) := match split_first 35 value with Some (a, f) => (a, Some f) | None => (value, None) end in
  match split_first 63 front with
  | Some (a, q) => (a, Some q, fragment)
  | None => (front, None, fragment)
  end.

(** The query as the code has it in memory, up to the end of the URL. *)
Definition query_text (query : bytes) (fragment : option bytes) : bytes :=
  query ++ match fragment with Some f => 35 :: f | None => [] end.

(** A key without user information is decoded and parsed again. *)
Fixpoint outline_parse_ss (fuel : nat) (value : bytes) (key : outline_key) : result outline_key :=
  let '(authority, query, fragment) := url_split value in
  if match query with
     | Some q => bool_decide (is_Some (outline_query_value (query_text q fragment) (str "plugin")))
     | None => false
     end
  then fail CH_ERROR_UNSUPPORTED (str "Outline Shadowsocks plugins are not supported")
  else
    name ←
      (match fragment, suggested_name key with
       | Some (f0 :: f), None => n ← outline_percent_decode false (f0 :: f); Done (Some n)
       | _, n => Done n
       end);
    let key := with_name key name in
    let authority := reverse (without_slashes (reverse authority)) in
    match split_last 64 authority with
    | None =>
        decoded ← outline_base64_decode authority;
        if bool_decide (0 ∈ decoded) then fail CH_ERROR_PARSE (str "Outline access key contains an embedded NUL")
        else
          let suffix :=
            match query, fragment with
            | Some q, _ => 63 :: query_text q fragment
            | None, Some f => 35 :: f
            | None, None => []
            end in
          match fuel with
          | O => Fault
          | S fuel' => outline_parse_ss fuel' (decoded ++ suffix) key
          end
    | Some (userinfo, server) =>
        userinfo ← outline_percent_decode false userinfo;
        info ← cipher_information userinfo;
        match split_first 58 info with
        | None => fail CH_ERROR_PARSE (str "Outline access key has no cipher separator")
        | Some (method, secret) =>
            let endpoint := mk_endpoint (Some server) (Some method) (Some secret) (prefix (tcp key)) in
            endpoint ← (match query with Some q => outline_query_prefix (query_text q fragment) endpoint | None => Done endpoint end);
            with_endpoint key endpoint
        end
    end.

(** ** JSON descriptions *)

Context `{Double}.

Definition outline_json_member (object : ch_json_value) (name : String.string) : option ch_json_value :=
  ch_json_object_get (Some object) (Some (str name)).

Definition outline_json_string_copy (object : ch_json_value) (name : String.string) : option bytes :=
  ch_json_string_value (outline_json_member object name).

(** [%s:%s] or [[%s]:%s], as the host has a colon. *)
Definition host_port (host port : bytes) : bytes :=
  if bool_decide (58 ∈ host) then [91] ++ host ++ [93; 58] ++ port else host ++ [58] ++ port.

(** The port as a number or as a text; 0 for anything else. *)
Definition json_port (value : option ch_json_value) : Z :=
  match ch_json_int64_value value with
  | Some port => port
  | None => match ch_json_string_value value with Some text => scan_value (strtol text) | None => 0 end
  end.

Definition outline_parse_legacy_json (body : bytes) (key : outline_key) : result outline_key :=
  root ← ch_json_parse (Some body);
  let port := json_port (outline_json_member root "server_port") in
  let address :=
    host ← outline_json_string_copy root "server";
    Some (if (port >? 0) && (port <=? 65535) then host_port host (dec port) else host) in
  let endpoint := mk_endpoint address (outline_json_string_copy root "method") (outline_json_string_copy root "password")
                    (prefix (tcp key)) in
  endpoint ←
    match ch_json_string_value (outline_json_member root "prefix") with
    | None => Done endpoint
    | Some prefix => outline_prefix_from_utf8 (Some prefix) endpoint
    end;
  with_endpoint key endpoint.

(** ** YAML descriptions *)

(** A node of a document of libyaml; other nodes are named by their index from
    one on. *)
Inductive yaml_node : Type :=
| YAML_SCALAR_NODE (value : bytes)
| YAML_SEQUENCE_NODE (items : list Z)
| YAML_MAPPING_NODE (pairs : list (Z * Z)).

Section Yaml.
Context (document : list yaml_node).

Definition outline_yaml_node (index : Z) : option yaml_node :=
  if index <=? 0 then None else document !! Z.to_nat (index - 1).

Definition outline_yaml_scalar_equal (node : option yaml_node) (value : bytes) : bool :=
  match node with Some (YAML_SCALAR_NODE v) => beq (until_nul v) value | _ => false end.

(** The last pair with the name, and whether there was one before. *)
Definition own_value (pairs : list (Z * Z)) (name : bytes) (duplicates : bool) : option yaml_node * bool :=
  fold_left (fun '(result, duplicates) '(key, value) =>
    if outline_yaml_scalar_equal (outline_yaml_node key) name
    then (outline_yaml_node value, duplicates || match result with Some _ => true | None => false end)
    else (result, duplicates)) pairs (None, duplicates).

(** [left] levels of merges are left: 17 at depth 0. *)
Fixpoint outline_yaml_mapping_value (left : nat) (mapping : option yaml_node) (name : bytes) (duplicates : bool)
    : option yaml_node * bool :=
  match left, mapping with
  | S left', Some (YAML_MAPPING_NODE pairs) =>
      let '(result, duplicates) := own_value pairs name duplicates in
      match result with
      | Some _ => (result, duplicates)
      | None =>
          fold_left (fun '(result, duplicates) '(key, value) =>
            if outline_yaml_scalar_equal (outline_yaml_node key) (str "<<") then
              match outline_yaml_node value with
              | Some (YAML_MAPPING_NODE _) => outline_yaml_mapping_value left' (outline_yaml_node value) name duplicates
              | Some (YAML_SEQUENCE_NODE items) =>
                  fold_left (fun '(result, duplicates) item =>
                    match result with
                    | Some _ => (result, duplicates)
                    | None => outline_yaml_mapping_value left' (outline_yaml_node item) name duplicates
                    end) items (result, duplicates)
              | _ => (result, duplicates)
              end
            else (result, duplicates)) pairs (None, duplicates)
      end
  | _, _ => (None, duplicates)
  end.

Fixpoint each {A} (check : A -> result unit) (l : list A) : result unit :=
  match l with [] => Done tt | x :: l' => _ ← check x; each check l' end.

(** The pairs of a mapping: each key a text that no later key repeats. *)
Fixpoint check_pairs (check : option yaml_node -> result unit) (pairs : list (Z * Z)) : result unit :=
  match pairs with
  | [] => Done tt
  | (key, value) :: pairs' =>
      match outline_yaml_node key with
      | Some (YAML_SCALAR_NODE outer) =>
          if existsb (fun '(key, _) =>
               match outline_yaml_node key with Some (YAML_SCALAR_NODE inner) => beq outer inner | _ => false end) pairs'
          then fail CH_ERROR_PARSE (str "Outline YAML contains a duplicate key")
          else _ ← check (outline_yaml_node value); check_pairs check pairs'
      | _ => fail CH_ERROR_PARSE (str "Outline YAML object keys must be strings")
      end
  end.

(** 65 levels are left at depth 0. *)
Fixpoint outline_yaml_reject_duplicate_keys (left : nat) (node : option yaml_node) : result unit :=
  match left, node with
  | S left', Some (YAML_SCALAR_NODE _) => Done tt
  | S left', Some (YAML_SEQUENCE_NODE items) =>
      each (fun item => outline_yaml_reject_duplicate_keys left' (outline_yaml_node item)) items
  | S left', Some (YAML_MAPPING_NODE pairs) => check_pairs (outline_yaml_reject_duplicate_keys left') pairs
  | _, _ => fail CH_ERROR_PARSE (str "Outline YAML aliases are too deeply nested")
  end.

Definition MERGES : nat := 17.
Definition LEVELS : nat := 65.

(** Every call has a field that is required. *)
Definition outline_yaml_scalar_copy (mapping : option yaml_node) (name : String.string) : result bytes :=
  match outline_yaml_mapping_value MERGES mapping (str name) false with
  | (_, true) => fail CH_ERROR_PARSE (str "Outline YAML contains duplicate " ++ str name ++ str " fields")
  | (Some (YAML_SCALAR_NODE value), _) => Done (until_nul value)
  | (None, _) => fail CH_ERROR_PARSE (str "Outline YAML is missing " ++ str name)
  | (Some _, _) => fail CH_ERROR_UNSUPPORTED (str "advanced Outline " ++ str name ++ str " values are not supported")
  end.

Definition outline_yaml_prefix (mapping : option yaml_node) (endpoint : outline_endpoint) : result outline_endpoint :=
  match outline_yaml_mapping_value MERGES mapping (str "prefix") false with
  | (_, true) => fail CH_ERROR_PARSE (str "Outline YAML contains duplicate prefix fields")
  | (None, _) => Done endpoint
  | (Some (YAML_SCALAR_NODE value), _) => outline_prefix_from_utf8_bytes value endpoint
  | (Some _, _) => fail CH_ERROR_UNSUPPORTED (str "advanced Outline prefix values are not supported")
  end.

(** Both are evaluated, and the error of the last one that fails is reported. *)
Definition both {A B} (x : result A) (y : result B) : result (A * B) :=
  match y, x with
  | Raise e, _ => Raise e
  | _, Raise e => Raise e
  | Done b, Done a => Done (a, b)
  | _, _ => Fault
  end.

Definition unsupported_transport {A} (type : bytes) : result A :=
  fail CH_ERROR_UNSUPPORTED (str "advanced Outline " ++ type ++ str " transport is not supported").

Definition outline_parse_yaml_endpoint (mapping : option yaml_node) (endpoint : outline_endpoint) : result outline_endpoint :=
  type ← outline_yaml_scalar_copy mapping "$type";
  if negb (beq type (str "shadowsocks")) then unsupported_transport type
  else
    '(address, method, password) ←
      both (both (outline_yaml_scalar_copy mapping "endpoint") (outline_yaml_scalar_copy mapping "cipher"))
        (outline_yaml_scalar_copy mapping "secret");
    endpoint ← outline_yaml_prefix mapping (mk_endpoint (Some address) (Some method) (Some password) (prefix endpoint));
    _ ← outline_validate_endpoint endpoint;
    Done endpoint.

(** A description without a transport is one of the legacy fields. *)
Definition yaml_legacy (root : option yaml_node) (key : outline_key) : result outline_key :=
  '(host, method, password, port) ←
    both (both (both (outline_yaml_scalar_copy root "server") (outline_yaml_scalar_copy root "method"))
      (outline_yaml_scalar_copy root "password")) (outline_yaml_scalar_copy root "server_port");
  endpoint ← outline_yaml_prefix root (mk_endpoint (Some (host_port host port)) (Some method) (Some password) (prefix (tcp key)));
  with_endpoint key endpoint.

Definition yaml_transport (transport : option yaml_node) (key : outline_key) : result outline_key :=
  type ← outline_yaml_scalar_copy transport "$type";
  if negb (beq type (str "tcpudp")) then unsupported_transport type
  else
    let '(t, duplicates) := outline_yaml_mapping_value MERGES transport (str "tcp") false in
    let '(u, duplicates) := outline_yaml_mapping_value MERGES transport (str "udp") duplicates in
    match t, u, duplicates with
    | Some _, Some _, false =>
        t ← outline_parse_yaml_endpoint t (tcp key);
        u ← outline_parse_yaml_endpoint u (udp key);
        Done (mk_key t u (suggested_name key) (dynamic_key key) (is_dynamic key) (refreshed_at_ns key))
    | _, _, _ => fail CH_ERROR_PARSE (str "Outline tcpudp YAML requires unique tcp and udp fields")
    end.

Definition yaml_key (key : outline_key) : result outline_key :=
  match head document with
  | Some (YAML_MAPPING_NODE pairs) =>
      let root := Some (YAML_MAPPING_NODE pairs) in
      _ ← outline_yaml_reject_duplicate_keys LEVELS root;
      match outline_yaml_mapping_value MERGES root (str "transport") false with
      | (_, true) => fail CH_ERROR_PARSE (str "Outline YAML contains duplicate transport fields")
      | (None, _) => yaml_legacy root key
      | (Some (YAML_MAPPING_NODE pairs), _) => yaml_transport (Some (YAML_MAPPING_NODE pairs)) key
      | (Some _, _) => fail CH_ERROR_UNSUPPORTED (str "advanced Outline transport values are not supported")
      end
  | _ => fail CH_ERROR_PARSE (str "Outline YAML root must be an object")
  end.

End Yaml.

(** libyaml: the problem it finds in a text, or the nodes of its document. *)
Context (yaml_parser_load : bytes -> bytes + list yaml_node).

Definition outline_parse_yaml (body : bytes) (key : outline_key) : result outline_key :=
  match yaml_parser_load body with
  | inl problem => fail CH_ERROR_PARSE (str "parse Outline YAML: " ++ problem)
  | inr document => yaml_key document key
  end.

(** ** Fetching *)

Definition outline_http_write (body data : bytes) : option bytes :=
  if lenZ data >? CH_OUTLINE_MAX_BODY - lenZ body then None else Some (body ++ data).

Fixpoint write_pieces (body : bytes) (pieces : list bytes) : option bytes :=
  match pieces with
  | [] => Some body
  | data :: pieces' => body ← outline_http_write body data; write_pieces body pieces'
  end.

(** The location after a line of the header. *)
Definition outline_http_header (location : option bytes) (data : bytes) : option bytes :=
  if (lenZ data >? 9) && RuleFeed.case_prefix (str "Location:") data then Some (until_nul (trim (drop 9 data))) else location.

(** One request: the body, the location and the status. *)
Definition perform (reply : FeedCache.http_reply) : result (bytes * option bytes * Z) :=
  match write_pieces [] (FeedCache.reply_body reply) with
  | None => fail CH_ERROR_INVALID_ARGUMENT (str "Outline configuration exceeds 64 KiB")
  | Some body =>
      match FeedCache.reply_result reply with
      | inl message => fail CH_ERROR_IO (str "fetch Outline configuration: " ++ message)
      | inr status => Done (body, fold_left outline_http_header (FeedCache.reply_headers reply) None, status)
      end
  end.

(** The network as the [n]-th preparation of an endpoint sees it, the reply to
    the [n]-th request, the resolution of redirects by libcurl, whether libcurl
    was initialized, and the clock after the fetch. *)
Context (network : nat -> HttpSafety.Network) (reply : HttpSafety.ch_http_endpoint -> nat -> FeedCache.http_reply)
  (resolve_redirect : bytes -> bytes -> option bytes) (curl_initialized : bool) (outline_now_ns : Z).

Definition prepare (n : nat) (url : bytes) : result HttpSafety.ch_http_endpoint :=
  @HttpSafety.ch_http_endpoint_prepare (network n) (Some url) (Some (str "Outline key")).

(** The requests from the [redirect]-th on, [left] redirects before the last. *)
Fixpoint fetch_loop (left redirect : nat) (initial endpoint : HttpSafety.ch_http_endpoint)
    : list HttpSafety.ch_http_endpoint * result (bytes * Z) :=
  match perform (reply endpoint redirect) with
  | Done (body, location, status) =>
      if negb (FeedCache.is_redirect status) then ([endpoint], Done (body, status))
      else
        match left, location with
        | S left', Some location =>
            match resolve_redirect (HttpSafety.ep_url endpoint) location with
            | None => ([endpoint], Raise (mk_error CH_ERROR_INVALID_ARGUMENT []))
            | Some next_url =>
                match prepare (redirect + 2) next_url with
                | Done next =>
                    if HttpSafety.ch_http_endpoint_same_origin (Some initial) (Some next) then
                      let '(requests, r) := fetch_loop left' (S redirect) initial next in (endpoint :: requests, r)
                    else ([endpoint], fail CH_ERROR_INVALID_ARGUMENT (str "Outline configuration redirect changes origin"))
                | Raise e => ([endpoint], Raise e)
                | Fault => ([endpoint], Fault)
                end
            end
        | _, _ => ([endpoint], fail CH_ERROR_IO (str "Outline configuration redirect is invalid"))
        end
  | Raise e => ([endpoint], Raise e)
  | Fault => ([endpoint], Fault)
  end.

Definition MAX_REDIRECTS : nat := 9.

(** The URL behind a dynamic key. *)
Definition dynamic_url (key : bytes) : bytes := before 35 (str "https://" ++ drop 9 key).

(** The endpoints that were asked, and the body. *)
Definition outline_fetch_dynamic (key : bytes) : list HttpSafety.ch_http_endpoint * result bytes :=
  if negb curl_initialized then ([], fail CH_ERROR_IO (str "initialize Outline HTTPS retrieval"))
  else if negb (RuleFeed.case_prefix (str "ssconf://") key) || (lenZ key <=? 9) then
    ([], fail CH_ERROR_INVALID_ARGUMENT (str "dynamic Outline key must use ssconf://"))
  else
    match initial ← prepare 0 (dynamic_url key); endpoint ← prepare 1 (dynamic_url key); Done (initial, endpoint) with
    | Done (initial, endpoint) =>
        let '(requests, r) := fetch_loop MAX_REDIRECTS 0 initial endpoint in
        (requests,
         '(body, status) ← r;
         if (status <? 200) || (status >=? 300) then fail CH_ERROR_IO (str "fetch Outline configuration: HTTP status " ++ dec status)
         else if lenZ body =? 0 then fail CH_ERROR_PARSE (str "Outline configuration is empty")
         else Done body)
    | Raise e => ([], Raise e)
    | Fault => ([], Fault)
    end.

(** ** Keys *)

Definition parse_ss_url (url : bytes) (key : outline_key) : result outline_key :=
  outline_parse_ss (length url) (drop 5 url) key.

Definition outline_parse_resolved_body (body : bytes) (key : outline_key) : result outline_key :=
  let trimmed := outline_trim_copy (until_nul body) in
  if RuleFeed.case_prefix (str "ss://") trimmed then parse_ss_url trimmed key
  else if match trimmed with c :: _ => c =? 123 | [] => false end then outline_parse_legacy_json trimmed key
  else if RuleFeed.case_prefix (str "ssconf://") trimmed then
    fail CH_ERROR_UNSUPPORTED (str "nested dynamic Outline keys are not supported")
  else outline_parse_yaml trimmed key.

(** The key inside a link of a web page, when there is one. *)
Definition linked_key (trimmed : bytes) : result bytes :=
  match split_first 35 trimmed with
  | Some (_, fragment) =>
      if RuleFeed.case_prefix (str "https://") trimmed then
        decoded ← outline_percent_decode false fragment;
        Done (if RuleFeed.case_prefix (str "ss://") decoded || RuleFeed.case_prefix (str "ssconf://") decoded then decoded else trimmed)
      else Done trimmed
  | None => Done trimmed
  end.

Definition as_dynamic (trimmed : bytes) : outline_key := mk_key no_endpoint no_endpoint None (Some trimmed) true 0.

(** The key of a description, with the name of the URL when it has none. *)
Definition finish_dynamic (trimmed : bytes) (key : outline_key) : result outline_key :=
  name ←
    match suggested_name key, split_first 35 trimmed with
    | None, Some (_, fragment) => n ← outline_percent_decode false fragment; Done (Some n)
    | n, _ => Done n
    end;
  Done (mk_key (tcp key) (udp key) name (dynamic_key key) (is_dynamic key) outline_now_ns).

(** The endpoints that were asked, and the key. *)
Definition outline_resolve (raw : bytes) : list HttpSafety.ch_http_endpoint * result outline_key :=
  match linked_key (outline_trim_copy raw) with
  | Raise e => ([], Raise e)
  | Fault => ([], Fault)
  | Done trimmed =>
      if RuleFeed.case_prefix (str "ss://") trimmed then ([], parse_ss_url trimmed no_key)
      else if RuleFeed.case_prefix (str "ssconf://") trimmed then
        let '(requests, body) := outline_fetch_dynamic trimmed in
        (requests, body ← body; key ← outline_parse_resolved_body body (as_dynamic trimmed); finish_dynamic trimmed key)
      else ([], fail CH_ERROR_UNSUPPORTED (str "use an Outline ss:// or ssconf:// access key"))
  end.

(** ** Requests *)

Definition request_text (request_json : option bytes) : bytes := default (str "{}") request_json.

Definition outline_request_string (request_json : option bytes) (name : String.string) (required : bool) : result (option bytes) :=
  root ← ch_json_parse (Some (request_text request_json));
  match ch_json_string_value (outline_json_member root name) with
  | Some value => Done (Some value)
  | None => if required then fail CH_ERROR_INVALID_ARGUMENT (str name ++ str " is required") else Done None
  end.

Definition outline_request_bool (root : ch_json_value) (name : String.string) (fallback : bool) : bool :=
  ch_json_bool_value (outline_json_member root name) fallback.

Definition outline_low_entropy (endpoint : outline_endpoint) : bool :=
  match ch_ss_cipher_from_name (default [] (e_method endpoint)) with
  | Done cipher => u64 (salt_size cipher - lenZ (prefix endpoint)) <? 8
  | _ => false
  end.

Section Texts.
Context (grow : Z -> bool).

Definition append_option (text : option bytes) : json_op := fun buffer => ch_json_append_string grow buffer text.

Definition outline_append_endpoint_review (endpoint : outline_endpoint) : json_op :=
  all_of [append grow ([123] ++ quoted_key "address"); append_option (address endpoint);
          append grow ([44] ++ quoted_key "cipher"); append_option (e_method endpoint);
          append grow ([44] ++ quoted_key "prefix_length" ++ dec (lenZ (prefix endpoint)) ++ [125])].

Definition outline_encode_review (parsed : outline_key) : result bytes :=
  take_text (all_of
    [append grow ([123] ++ quoted_key "kind"); append_text grow (str (if is_dynamic parsed then "dynamic" else "static"));
     append grow ([44] ++ quoted_key "suggested_name"); append_text grow (default (str "Outline") (suggested_name parsed));
     append grow ([44] ++ quoted_key "tcp"); outline_append_endpoint_review (tcp parsed);
     append grow ([44] ++ quoted_key "udp"); outline_append_endpoint_review (udp parsed);
     append grow ([44] ++ quoted_key "dynamic" ++ bool_text (is_dynamic parsed)
       ++ [44] ++ quoted_key "low_entropy_warning"
       ++ bool_text (outline_low_entropy (tcp parsed) || outline_low_entropy (udp parsed)) ++ [125])])
    (str "encode Outline review").

Definition ch_outline_review_request_json (request_json : option bytes) : list HttpSafety.ch_http_endpoint * result bytes :=
  match outline_request_string request_json "access_key" true with
  | Done access_key =>
      let '(requests, parsed) := outline_resolve (default [] access_key) in
      (requests, parsed ← parsed; outline_encode_review parsed)
  | Raise e => ([], Raise e)
  | Fault => ([], Fault)
  end.

Definition ch_outline_review_document_json (document : option bytes) : result bytes :=
  match document with
  | None => fail CH_ERROR_INVALID_ARGUMENT (str "Outline document and output are required")
  | Some document => parsed ← outline_parse_resolved_body document no_key; outline_encode_review parsed
  end.

Context (EVP_EncodeBlock : bytes -> bytes).

Definition outline_base64_encode (input : bytes) : bytes := if lenZ input =? 0 then [] else EVP_EncodeBlock input.

Definition endpoint_ops (endpoint : outline_endpoint) : list json_op :=
  [append_option (address endpoint);
   append grow ([44] ++ quoted_key "method"); append_option (e_method endpoint);
   append grow ([44] ++ quoted_key "password"); append_option (password endpoint);
   append grow ([44] ++ quoted_key "prefix_base64"); append_text grow (outline_base64_encode (prefix endpoint))].

Definition outline_mutation_json (parsed : outline_key) (profile_name : bytes) (activate refresh : bool) : result bytes :=
  take_text (all_of (
    [append grow ([123] ++ quoted_key "profile_name"); append_text grow profile_name;
     append grow ([44] ++ quoted_key "profile"); append_text grow profile_name;
     append grow ([44] ++ quoted_key "activate" ++ bool_text activate ++ [44] ++ quoted_key "refresh" ++ bool_text refresh
       ++ [44] ++ quoted_key "dynamic" ++ bool_text (is_dynamic parsed)
       ++ [44] ++ quoted_key "refreshed_at_ns" ++ dec (refreshed_at_ns parsed));
     append grow ([44] ++ quoted_key "dynamic_key"); append_text grow (default [] (dynamic_key parsed));
     append grow ([44] ++ quoted_key "tcp" ++ [123] ++ quoted_key "address")]
    ++ endpoint_ops (tcp parsed)
    ++ [append grow ([125; 44] ++ quoted_key "udp" ++ [123] ++ quoted_key "address")]
    ++ endpoint_ops (udp parsed)
    ++ [append grow [125; 125]]))
    (str "encode Outline profile mutation").

Definition profile_name_of (requested : option bytes) (parsed : outline_key) : bytes :=
  match option_map outline_trim_copy requested with
  | Some ((_ :: _) as name) => name
  | _ => match suggested_name parsed with Some ((_ :: _) as name) => name | _ => str "Outline" end
  end.

Definition ch_outline_import_mutation_request_json (request_json : option bytes)
    : list HttpSafety.ch_http_endpoint * result bytes :=
  match ch_json_parse (Some (request_text request_json)) with
  | Raise e => ([], Raise e)
  | Fault => ([], Fault)
  | Done root =>
      match ch_json_string_value (outline_json_member root "access_key") with
      | None => ([], fail CH_ERROR_INVALID_ARGUMENT (str "access_key is required"))
      | Some access =>
          let '(requests, parsed) := outline_resolve access in
          (requests,
           parsed ← parsed;
           outline_mutation_json parsed (profile_name_of (ch_json_string_value (outline_json_member root "profile_name")) parsed)
             (outline_request_bool root "activate" false) false)
      end
  end.

Context {D : Type}.

(** The first key that a server of the chains has, unless it is empty. *)
Definition server_key (server : Config.toml_item D) : option bytes :=
  server ← Config.table_at server;
  settings ← Config.toml_table_in server (str "settings");
  match Config.ch_config_table_get_string settings (str "outline_dynamic_key") with Done ((_ :: _) as key) => Some key | _ => None end.

Fixpoint first_some {A B} (f : A -> option B) (l : list A) : option B :=
  match l with
  | [] => None
  | x :: l' => match f x with Some y => Some y | None => first_some f l' end
  end.

Definition chain_key (chain : Config.toml_item D) : option bytes :=
  chain ← Config.table_at chain; first_some server_key (Config.items (Config.toml_array_in chain (str "server"))).

Definition ch_outline_refresh_mutation_request_json (config : option (Config.ch_config (D := D))) (request_json : option bytes)
    : list HttpSafety.ch_http_endpoint * result bytes :=
  match
    match config with
    | None => fail CH_ERROR_INVALID_ARGUMENT (str "config and Outline refresh output are required")
    | Some config =>
        requested ← outline_request_string request_json "profile" false;
        let named := match requested with Some (_ :: _) => true | _ => false end in
        match (if named then Config.ch_config_profile_named config requested else Config.ch_config_active_profile config) with
        | None => fail CH_ERROR_NOT_FOUND (str "Outline profile not found")
        | Some profile =>
            name ← (if named then Done (default [] requested) else Config.ch_config_table_get_string profile (str "name"));
            match first_some chain_key (Config.items (Config.toml_array_in profile (str "chain"))) with
            | None => fail CH_ERROR_INVALID_ARGUMENT (str "profile is not backed by a dynamic Outline key")
            | Some key => Done (name, key)
            end
        end
    end
  with
  | Raise e => ([], Raise e)
  | Fault => ([], Fault)
  | Done (profile_name, key) =>
      let '(requests, parsed) := outline_resolve key in
      (requests, parsed ← parsed; outline_mutation_json parsed profile_name false true)
  end.

End Texts.

End Keys.
(** ** Facts: Base64 *)

Section Facts.
Context `{Evp} `{Digest}.

Lemma padded_spec n : 0 <= n < 2 ^ 32 -> Z.land (n + 3) (u64 (Z.lnot 3)) = 4 * ((n + 3) / 4).
Proof.
  intros Hn. change (u64 (Z.lnot 3)) with (Z.ldiff (Z.ones 64) (Z.ones 2)).
  replace (Z.land (n + 3) (Z.ldiff (Z.ones 64) (Z.ones 2))) with (Z.ldiff (Z.land (n + 3) (Z.ones 64)) (Z.ones 2))
    by (apply Z.bits_inj'; intros i Hi; rewrite !Z.ldiff_spec, !Z.land_spec, Z.ldiff_spec; destruct (Z.testbit (n + 3) i), (Z.testbit (Z.ones 64) i), (Z.testbit (Z.ones 2) i); reflexivity).
  rewrite Z.land_ones by lia. rewrite Z.mod_small by (change (2 ^ 64) with (2 ^ 32 * 2 ^ 32); lia). rewrite Z.ldiff_ones_r by lia.
  rewrite Z.shiftr_div_pow2, Z.shiftl_mul_pow2 by lia. change (2 ^ 2) with 4. lia.
Qed.

Lemma char_at_end text : char_at text (lenZ text) = Done 0.
Proof. unfold char_at. rewrite (proj2 (Z.ltb_ge _ _)), Z.eqb_refl by lia. reflexivity. Qed.

Lemma without_trailing_bound index input actual r :
  without_trailing index input actual = Done r -> 0 <= actual -> 0 <= r <= actual.
Proof.
  revert actual. induction index as [|i IH]; intros actual; cbn [without_trailing]; [intros [=]; lia|].
  intros E Ha. apply bind_Done_inv in E as (c & _ & E). destruct (c =? 61); [|injection E as <-; lia].
  apply IH in E; [|case_if; lia]. destruct (actual >? 0) eqn:Eg in E; lia.
Qed.

(** The decoded text is shorter than the text. *)
Lemma base64_shorter input out : outline_base64_decode input = Done out -> (length out < length input)%nat.
Proof.
  unfold outline_base64_decode. cbv zeta. case_if; [discriminate|]. pose proof (lenZ_nonneg input) as Hn.
  assert (Hl : 1 <= lenZ input <= 16384) by lia. rewrite padded_spec by lia. intros E.
  destruct (EVP_DecodeBlock _) as [decoded|] eqn:Ed; [|discriminate]. apply decode_block_bound in Ed.
  rewrite lenZ_app, lenZ_replicate in Ed. unfold lenZ in Ed at 2. rewrite length_map in Ed. fold (lenZ input) in Ed.
  apply bind_Done_inv in E as (actual & Ea & E). apply without_trailing_bound in Ea; [|apply lenZ_nonneg].
  unfold rds in E. set (n := if _ >? _ then _ else _) in E.
  destruct ((0 <=? 0) && (0 <=? n) && (0 + n <=? lenZ decoded)) eqn:Eb; [|discriminate]. assert (out = sub decoded 0 n) as -> by congruence.
  enough (lenZ (sub decoded 0 n) < lenZ input) by (unfold lenZ in *; lia). rewrite lenZ_sub by lia.
  assert (Hpad : n = actual - (4 * ((lenZ input + 3) / 4) - lenZ input)).
  { unfold n. destruct (4 * ((lenZ input + 3) / 4) >? lenZ input) eqn:Eg; [reflexivity|]. rewrite Z.gtb_ltb in Eg. apply Z.ltb_ge in Eg.
    pose proof (Z.div_mod (lenZ input + 3) 4 ltac:(lia)). pose proof (Z.mod_pos_bound (lenZ input + 3) 4 ltac:(lia)). lia. }
  clearbody n. lia.
Qed.

(** Behind an unpadded text of two or three characters more than a multiple of
    four, the loop over the padding reads beyond the terminator. *)
Lemma base64_over_read input decoded :
  lenZ input <= 16384 -> lenZ input mod 4 = 1 \/ lenZ input mod 4 = 2 ->
  EVP_DecodeBlock (map url_safe input ++ replicate (Z.to_nat (- lenZ input mod 4)) 61) = Some decoded ->
  outline_base64_decode input = Fault.
Proof.
  intros Hl Hm Hd. unfold outline_base64_decode. cbv zeta. pose proof (lenZ_nonneg input) as Hn.
  replace ((lenZ input =? 0) || (lenZ input >? 16384)) with false by (symmetry; apply orb_false_iff; split; Z.to_euclidean_division_equations; lia).
  rewrite padded_spec by lia. replace (4 * ((lenZ input + 3) / 4) - lenZ input) with (- lenZ input mod 4) by (Z.to_euclidean_division_equations; lia). rewrite Hd.
  destruct (Z.to_nat (4 * ((lenZ input + 3) / 4))) as [|i] eqn:Ei; [Z.to_euclidean_division_equations; lia|]. cbn [without_trailing].
  unfold char_at. replace (Z.of_nat i <? lenZ input) with false by (Z.to_euclidean_division_equations; lia). replace (Z.of_nat i =? lenZ input) with false by (Z.to_euclidean_division_equations; lia). reflexivity.
Qed.

(** ** Facts: [ss://] URLs *)

(** What follows the authority of a URL. *)
Definition suffix_text (query fragment : option bytes) : bytes :=
  match query, fragment with
  | Some q, _ => 63 :: query_text q fragment
  | None, Some f => 35 :: f
  | None, None => []
  end.

Lemma url_split_text value a q f : url_split value = (a, q, f) -> value = a ++ suffix_text q f.
Proof.
  unfold url_split. destruct (split_first 35 value) as [[front fragment]|] eqn:Ef.
  - apply split_first_Some in Ef as [-> _]. destruct (split_first 63 front) as [[a' q']|] eqn:Eq; intros [= <- <- <-].
    + apply split_first_Some in Eq as [-> _]. cbn [suffix_text query_text]. rewrite <- app_assoc. reflexivity.
    + reflexivity.
  - destruct (split_first 63 value) as [[a' q']|] eqn:Eq; intros [= <- <- <-].
    + apply split_first_Some in Eq as [-> _]. unfold suffix_text, query_text. change (match None with Some f => 35 :: f | None => [] end) with (@nil Z). rewrite (app_nil_r q'). reflexivity.
    + cbn [suffix_text]. rewrite app_nil_r. reflexivity.
Qed.

Lemma without_slashes_length r : (length (without_slashes r) <= length r)%nat.
Proof.
  induction r as [|c r IH]; [cbn; lia|]. cbn [without_slashes length].
  repeat (match goal with |- context [match ?x with _ => _ end] => destruct x end; cbn [length]; try lia).
Qed.

(** The length of the URL is fuel enough: each decoding makes it shorter. *)
Lemma parse_ss_fuel n m value key :
  (length value <= n)%nat -> (length value <= m)%nat -> outline_parse_ss n value key = outline_parse_ss m value key.
Proof.
  revert m value key. induction n as [|n IH]; intros [|m] value key Hn Hm;
    try (destruct value; [reflexivity|cbn [length] in *; lia]).
  cbn [outline_parse_ss]. destruct (url_split value) as [[a q] f] eqn:Eu. apply url_split_text in Eu.
  case_if; [reflexivity|]. match goal with |- (?r ≫= _) = _ => destruct r as [name|e|]; [|reflexivity..] end. cbn [mbind outcome_bind].
  destruct (split_last 64 _); [reflexivity|]. destruct (outline_base64_decode _) as [decoded|e|] eqn:Ed; [|reflexivity..].
  cbn [mbind outcome_bind]. case_if; [reflexivity|]. fold (suffix_text q f). apply base64_shorter in Ed.
  rewrite length_reverse in Ed. pose proof (without_slashes_length (reverse a)) as Ha. rewrite length_reverse in Ha.
  subst value. rewrite length_app in Hn, Hm. apply IH; rewrite length_app; fold (suffix_text q f); lia.
Qed.

End Facts.
(** ** Facts: keys *)

(** The steps of a computation that succeeds. *)
Ltac steps E :=
  repeat match type of E with
         | Raise _ = Done _ => discriminate E
         | fail _ _ = Done _ => discriminate E
         | unsupported_transport _ = Done _ => discriminate E
         | Fault = Done _ => discriminate E
         | _ ≫= _ = Done _ => let x := fresh "x" in let Ex := fresh "Ex" in apply bind_Done_inv in E as (x & Ex & E)
         | (let '(_, _) := ?z in _) = Done _ => destruct z
         | (if ?b then _ else _) = Done _ => destruct b
         | match ?z with _ => _ end = Done _ => destruct z
         end.

Section Keys_facts.
Context `{Evp} `{Digest} `{Double}.

(** An endpoint that can be dialed: a host and a port, a cipher that is known, a
    secret, and a prefix that the salt can begin with. *)
Record usable (e : outline_endpoint) : Prop := {
  usable_address : exists host port_text, address e = Some (host ++ [58] ++ port_text) /\
    scan_any (strtol port_text) = true /\ scan_rest (strtol port_text) = [] /\ 1 <= scan_value (strtol port_text) <= 65535;
  usable_method : exists name cipher, e_method e = Some name /\ ch_ss_cipher_from_name name = Done cipher /\
    lenZ (prefix e) <= salt_size cipher <= CH_OUTLINE_MAX_PREFIX;
  usable_password : exists c secret, password e = Some (c :: secret)
}.

Lemma cipher_salt name cipher : ch_ss_cipher_from_name name = Done cipher -> 0 <= salt_size cipher <= CH_OUTLINE_MAX_PREFIX.
Proof.
  unfold ch_ss_cipher_from_name, CH_OUTLINE_MAX_PREFIX. repeat case_if; intros [= <-]; cbn [salt_size]; lia.
Qed.

Lemma validate_usable e : outline_validate_endpoint e = Done tt -> usable e.
Proof.
  unfold outline_validate_endpoint. destruct e as [[[|a0 a]|] [[|m0 m]|] [[|p0 p]|] pre]; try discriminate. cbn [address e_method password prefix].
  intros E. apply bind_Done_inv in E as (text & Et & E).
  assert (Hhost : exists host, a0 :: a = host ++ [58] ++ text).
  { destruct (a0 =? 91).
    - destruct (split_last 93 (a0 :: a)) as [[x [|c y]]|] eqn:Es; try discriminate. apply split_last_Some in Es as [-> _].
      exists (x ++ [93]). repeat (match type of Et with (match ?z with _ => _ end) = _ => destruct z end; try discriminate).
      injection Et as ->. rewrite <- app_assoc. reflexivity.
    - destruct (split_last 58 (a0 :: a)) as [[x y]|] eqn:Es; [|discriminate]. injection Et as ->. apply split_last_Some in Es as [-> _].
      exists x. reflexivity. }
  destruct Hhost as [host Hhost]. cbv zeta in E.
  destruct (scan_range (strtol text) || _ || _ || _ || _) eqn:Eb; [discriminate|].
  apply bind_Done_inv in E as (cipher & Ec & E). case_if_in E; [discriminate|]. pose proof (cipher_salt _ _ Ec).
  rewrite !orb_false_iff in Eb. destruct Eb as ((((Er & Ea) & Es) & Elo) & Ehi).
  apply negb_false_iff in Ea, Es. apply beq_true in Es.
  constructor; cbn [address e_method password prefix].
  - exists host, text. rewrite Hhost. split_and!; [reflexivity|exact Ea|exact Es|lia|lia].
  - exists (m0 :: m), cipher. split_and!; [reflexivity|exact Ec|lia|lia].
  - eauto.
Qed.

Definition key_usable (key : outline_key) : Prop := usable (tcp key) /\ usable (udp key).

Lemma with_endpoint_usable key e key' : with_endpoint key e = Done key' -> key_usable key'.
Proof.
  intros E. apply bind_Done_inv in E as ([] & Ev & E). apply validate_usable in Ev. injection E as <-. split; exact Ev.
Qed.

Lemma parse_ss_usable fuel value key key' : outline_parse_ss fuel value key = Done key' -> key_usable key'.
Proof.
  revert value key. induction fuel as [|fuel IH]; intros value key E; cbn [outline_parse_ss] in E; cbv zeta in E; steps E; eauto using with_endpoint_usable.
Qed.

Lemma legacy_json_usable body key key' : outline_parse_legacy_json body key = Done key' -> key_usable key'.
Proof. unfold outline_parse_legacy_json. cbv zeta. intros E. steps E; eauto using with_endpoint_usable. Qed.

Lemma yaml_endpoint_usable document mapping e e' : outline_parse_yaml_endpoint document mapping e = Done e' -> usable e'.
Proof.
  unfold outline_parse_yaml_endpoint. intros E. steps E. injection E as <-.
  match goal with Hv : outline_validate_endpoint _ = Done ?u |- _ => destruct u; apply validate_usable; exact Hv end.
Qed.

Lemma yaml_key_usable document key key' : yaml_key document key = Done key' -> key_usable key'.
Proof.
  unfold yaml_key, yaml_legacy, yaml_transport. cbv zeta. intros E.
  steps E; eauto using with_endpoint_usable. injection E as <-. split; cbn [tcp udp]; eauto using yaml_endpoint_usable.
Qed.

Lemma resolved_body_usable load body key key' : outline_parse_resolved_body load body key = Done key' -> key_usable key'.
Proof.
  unfold outline_parse_resolved_body, parse_ss_url, outline_parse_yaml. cbv zeta. intros E. case_if_in E; [exact (parse_ss_usable _ _ _ _ E)|].
  case_if_in E; [exact (legacy_json_usable _ _ _ E)|]. case_if_in E; [discriminate|].
  destruct (load _); [discriminate|exact (yaml_key_usable _ _ _ E)].
Qed.

End Keys_facts.
(** ** Facts: fetching *)

Section Fetching.
Context `{Evp} `{Digest} `{Double}.
Context (load : bytes -> bytes + list yaml_node) (network : nat -> HttpSafety.Network)
  (reply : HttpSafety.ch_http_endpoint -> nat -> FeedCache.http_reply) (redirection : bytes -> bytes -> option bytes).

(** An endpoint that was prepared against the network of its time, and lies on
    the origin of the first one. *)
Definition allowed (initial endpoint : HttpSafety.ch_http_endpoint) : Prop :=
  (exists n target, prepare network n target = Done endpoint) /\
  HttpSafety.ch_http_endpoint_same_origin (Some initial) (Some endpoint) = true.

Lemma fetch_loop_allowed left redirect initial endpoint :
  allowed initial endpoint ->
  let '(requests, r) := fetch_loop network reply redirection left redirect initial endpoint in
  (length requests <= S left)%nat /\ Forall (allowed initial) requests.
Proof.
  revert redirect endpoint. induction left as [|left IH]; intros redirect endpoint Ha; cbn [fetch_loop];
    (assert (Hone : Forall (allowed initial) [endpoint]) by (constructor; [exact Ha|constructor]));
    destruct (perform _) as [[[body location] status]|e|]; cbn [length]; try (split; [lia|exact Hone]);
    (case_if; cbn [length]; [split; [lia|exact Hone]|]); [split; [lia|exact Hone]|].
  destruct location as [location|]; cbn [length]; [|split; [lia|exact Hone]].
  destruct (redirection _ _) as [next_url|]; cbn [length]; [|split; [lia|exact Hone]].
  destruct (prepare network (redirect + 2) next_url) as [next|e|] eqn:Ep; cbn [length]; try (split; [lia|exact Hone]).
  case_if; cbn [length]; [|split; [lia|exact Hone]].
  specialize (IH (S redirect) next ltac:(split; [eauto|assumption])).
  destruct (fetch_loop _ _ _ _ _ _ _) as [requests r]. destruct IH as [Hl Hf]. cbn [length]. split; [lia|constructor; [exact Ha|exact Hf]].
Qed.

(** The requests of a fetch: at most ten, to public endpoints of one origin,
    that of the URL of the key. *)
Definition requests_public (key : bytes) (requests : list HttpSafety.ch_http_endpoint) : Prop :=
  lenZ requests <= 10 /\
  forall endpoint, endpoint ∈ requests ->
    (exists n target addresses, @HttpSafety.endpoint_public (network n) target endpoint addresses) /\
    exists initial, prepare network 0 (dynamic_url key) = Done initial /\
      HttpSafety.ch_http_endpoint_same_origin (Some initial) (Some endpoint) = true.

Lemma no_requests_public key : requests_public key [].
Proof. split; [vm_compute; discriminate|]. intros endpoint Hin. apply elem_of_nil in Hin. contradiction. Qed.

Lemma fetch_public initialized key :
  FeedCache.same_parser network -> requests_public key (outline_fetch_dynamic network reply redirection initialized key).1.
Proof.
  intros Hparser. unfold outline_fetch_dynamic. case_if; [apply no_requests_public|]. case_if; [apply no_requests_public|].
  destruct (prepare network 0 (dynamic_url key)) as [initial|e|] eqn:E0; cbn [mbind outcome_bind]; [|apply no_requests_public..].
  destruct (prepare network 1 (dynamic_url key)) as [endpoint|e|] eqn:E1; cbn [mbind outcome_bind]; [|apply no_requests_public..].
  assert (Hfirst : allowed initial endpoint).
  { split; [eauto|]. apply FeedCache.prepare_origin in E0 as (p0 & ep0 & U0 & S0 & H0' & P0), E1 as (p1 & ep1 & U1 & S1 & H1' & P1).
    unfold HttpSafety.url_parts in U0, U1. rewrite Hparser in U1. rewrite U1 in U0. injection U0 as -> ->.
    apply FeedCache.same_origin_refl; congruence. }
  pose proof (fetch_loop_allowed MAX_REDIRECTS 0 initial endpoint Hfirst) as Hloop.
  destruct (fetch_loop _ _ _ _ _ _ _) as [requests r]. destruct Hloop as [Hlen Hall]. cbn [fst].
  split; [unfold lenZ, MAX_REDIRECTS in *; lia|]. intros ep Hin. rewrite list.Forall_forall in Hall.
  destruct (Hall ep Hin) as [(n & target & Hp) Ho]. split; [|eauto]. exists n, target.
  unfold prepare in Hp. apply HttpSafety.prepare_public in Hp. exact Hp.
Qed.

(** What a key was read from is not changed by its description. *)
Definition same_kind (key key' : outline_key) : Prop := is_dynamic key' = is_dynamic key /\ dynamic_key key' = dynamic_key key.

Lemma with_endpoint_kind key e key' : with_endpoint key e = Done key' -> same_kind key key'.
Proof. intros E. apply bind_Done_inv in E as ([] & _ & E). injection E as <-. split; reflexivity. Qed.

Lemma parse_ss_kind fuel value key key' : outline_parse_ss fuel value key = Done key' -> same_kind key key'.
Proof.
  revert value key. induction fuel as [|fuel IH]; intros value key E; cbn [outline_parse_ss] in E; cbv zeta in E; steps E;
    first [apply with_endpoint_kind in E|apply IH in E]; exact E.
Qed.

Lemma resolved_body_kind body key key' : outline_parse_resolved_body load body key = Done key' -> same_kind key key'.
Proof.
  unfold outline_parse_resolved_body, parse_ss_url, outline_parse_legacy_json, outline_parse_yaml, yaml_key, yaml_legacy, yaml_transport.
  cbv zeta. intros E. case_if_in E; [exact (parse_ss_kind _ _ _ _ E)|].
  steps E; first [exact (with_endpoint_kind _ _ _ E)|injection E as <-; split; reflexivity].
Qed.

(** The key that a text gives: the text without the space around it, or the
    decoded fragment of a link to a web page. *)
Definition given_as (raw url : bytes) : Prop :=
  url = trim raw \/
  RuleFeed.case_prefix (str "https://") (trim raw) = true /\
  exists page fragment, split_first 35 (trim raw) = Some (page, fragment) /\ outline_percent_decode false fragment = Done url.

Lemma linked_key_given raw url : linked_key (outline_trim_copy raw) = Done url -> given_as raw url.
Proof.
  unfold linked_key, outline_trim_copy, given_as. destruct (split_first 35 (trim raw)) as [[page fragment]|]; [|intros [= <-]; auto].
  destruct (RuleFeed.case_prefix (str "https://") (trim raw)); [|intros [= <-]; auto]. intros E.
  apply bind_Done_inv in E as (decoded & Ed & E).
  destruct (RuleFeed.case_prefix (str "ss://") decoded || RuleFeed.case_prefix (str "ssconf://") decoded); injection E as <-; eauto 8.
Qed.

(** C19: A key that resolves can be dialed, and to resolve it only public
    endpoints are asked.  Both its endpoints have an address that ends in a port
    from 1 to 65535, a known cipher, a secret, and a prefix no longer than the
    salt of the cipher.  A static key is resolved without a request.  A dynamic
    one is kept as it was given, with its fragment: the text without the space
    around it, or the key in the fragment of a link; and it is fetched with at
    most ten requests, each to an address that was found public when it was
    resolved and on the origin of the key's URL, also behind redirects. *)
Theorem outline_resolve_safe initialized now raw requests key :
  FeedCache.same_parser network ->
  outline_resolve load network reply redirection initialized now raw = (requests, Done key) ->
  key_usable key /\
  if is_dynamic key
  then exists url, dynamic_key key = Some url /\ given_as raw url /\ RuleFeed.case_prefix (str "ssconf://") url = true /\
         requests_public url requests
  else dynamic_key key = None /\ requests = [].
Proof.
  intros Hparser. unfold outline_resolve. destruct (linked_key _) as [trimmed|e|] eqn:Elink; [|discriminate..].
  destruct (RuleFeed.case_prefix (str "ss://") trimmed).
  { intros E. apply pair_equal_spec in E as [<- E]. split; [exact (parse_ss_usable _ _ _ _ E)|].
    destruct (parse_ss_kind _ _ _ _ E) as [-> ->]. split; reflexivity. }
  destruct (RuleFeed.case_prefix (str "ssconf://") trimmed) eqn:Ec; [|discriminate].
  pose proof (fetch_public initialized trimmed Hparser) as Hf. destruct (outline_fetch_dynamic _ _ _ _ _) as [asked body].
  intros E. apply pair_equal_spec in E as [<- E]. apply bind_Done_inv in E as (text & _ & E). apply bind_Done_inv in E as (parsed & Ep & E).
  pose proof (resolved_body_usable _ _ _ _ Ep) as Hu. destruct (resolved_body_kind _ _ _ Ep) as [Hd Hk].
  apply bind_Done_inv in E as (name & _ & E). injection E as <-. split; [exact Hu|]. cbn [is_dynamic dynamic_key]. rewrite Hd, Hk.
  exists trimmed. split_and!; [reflexivity|exact (linked_key_given _ _ Elink)|exact Ec|exact Hf].
Qed.

End Fetching.
(** ** Facts: the encoder of Base64 *)

(** How many characters pad the encoded text. *)
Definition padding (text : bytes) : nat := Z.to_nat ((- lenZ text) mod 3).

Definition base64_char (c : Z) : bool := isalnum c || (c =? 43) || (c =? 47).

(** OpenSSL's encoder writes four characters for three bytes, the last ones
    padding; its decoder gives the bytes back with a zero for each of those. *)
Class Base64 `{Digest} (EVP_EncodeBlock : bytes -> bytes) : Prop := {
  encode_length text : bytes_ok text -> lenZ (EVP_EncodeBlock text) = 4 * ((lenZ text + 2) / 3);
  encode_padded text : bytes_ok text ->
    exists body, EVP_EncodeBlock text = body ++ replicate (padding text) 61 /\ forallb base64_char body = true;
  decode_encode text : bytes_ok text -> EVP_DecodeBlock (EVP_EncodeBlock text) = Some (text ++ replicate (padding text) 0)
}.

Section Encoder.
Context `{Evp} `{Digest} (encode : bytes -> bytes) `{!Base64 encode}.

Lemma body_not_padded body c : forallb base64_char (body ++ [c]) = true -> c <> 61.
Proof. rewrite forallb_app, andb_true_iff. intros [_ Hc] ->. discriminate. Qed.

Lemma without_padding_stop body actual : forallb base64_char body = true -> without_padding (reverse body) actual = actual.
Proof.
  destruct body as [|c body] using rev_ind; [reflexivity|]. intros Hb. apply body_not_padded in Hb. rewrite reverse_snoc.
  cbn [without_padding]. destruct c as [|p|p]; try reflexivity.
  repeat (match goal with |- match ?x with _ => _ end = _ => destruct x end; try reflexivity). contradiction.
Qed.

Lemma without_padding_count body n actual :
  forallb base64_char body = true -> Z.of_nat n <= actual ->
  without_padding (reverse (body ++ replicate n 61)) actual = actual - Z.of_nat n.
Proof.
  intros Hb. rewrite reverse_app, reverse_replicate. revert actual. induction n as [|n IH]; intros actual Hn.
  - cbn [replicate app]. rewrite (without_padding_stop body actual Hb). lia.
  - cbn [replicate app without_padding]. replace (actual >? 0) with true by lia. rewrite IH by lia. lia.
Qed.

Lemma padding_length text : lenZ text + Z.of_nat (padding text) = 3 * ((lenZ text + 2) / 3).
Proof. unfold padding. pose proof (lenZ_nonneg text). Z.to_euclidean_division_equations; lia. Qed.

(** A prefix of a server is what the protocol reads. *)
Lemma prefix_reads pre cipher :
  bytes_ok pre -> lenZ pre <= salt_size cipher <= CH_OUTLINE_MAX_PREFIX ->
  ch_ss_prefix_from_base64 (outline_base64_encode encode pre) cipher = Done pre.
Proof.
  intros Hb Hs. unfold ch_ss_prefix_from_base64, outline_base64_encode, CH_OUTLINE_MAX_PREFIX in *. pose proof (lenZ_nonneg pre) as Hn.
  destruct (lenZ pre =? 0) eqn:E0.
  { destruct pre; [reflexivity|rewrite lenZ_cons in E0; pose proof (lenZ_nonneg pre); lia]. }
  pose proof (encode_length pre Hb) as Hl. pose proof (padding_length pre) as Hp. cbv zeta.
  replace (lenZ (encode pre) =? 0) with false by (rewrite Hl; Z.to_euclidean_division_equations; lia).
  replace ((lenZ (encode pre) >? 44) || negb (lenZ (encode pre) mod 4 =? 0)) with false
    by (rewrite Hl; symmetry; apply orb_false_iff; split; [|apply negb_false_iff]; Z.to_euclidean_division_equations; lia).
  rewrite decode_encode by exact Hb. destruct (encode_padded pre Hb) as (body & -> & Hc).
  rewrite lenZ_app, lenZ_replicate, Hp. replace (3 * ((lenZ pre + 2) / 3) >? 33) with false by (Z.to_euclidean_division_equations; lia).
  rewrite without_padding_count by (try exact Hc; Z.to_euclidean_division_equations; lia).
  replace (3 * ((lenZ pre + 2) / 3) - Z.of_nat (padding pre)) with (lenZ pre) by lia.
  replace (lenZ pre >? salt_size cipher) with false by lia. apply (rds_mid []); reflexivity.
Qed.

Lemma char_at_last (l : bytes) c r i : i = lenZ l -> char_at (l ++ c :: r) i = Done c.
Proof. intros ->. unfold char_at. rewrite lenZ_app, lenZ_cons. pose proof (lenZ_nonneg r). case_if; [apply rd_mid; reflexivity|lia]. Qed.

Lemma without_trailing_count body n rest actual :
  forallb base64_char body = true -> Z.of_nat n <= actual ->
  without_trailing (length body + n) (body ++ replicate n 61 ++ rest) actual = Done (actual - Z.of_nat n).
Proof.
  intros Hb. revert rest actual. induction n as [|n IH]; intros rest actual Hn.
  - destruct body as [|c body] using rev_ind; [cbn; f_equal; lia|]. apply body_not_padded in Hb. rewrite length_app, !Nat.add_1_r, Nat.add_0_r.
    cbn [without_trailing replicate app]. rewrite <- app_assoc. cbn [app]. rewrite char_at_last by reflexivity. cbn [mbind outcome_bind].
    replace (c =? 61) with false by lia. f_equal; lia.
  - rewrite Nat.add_succ_r. cbn [without_trailing]. rewrite replicate_S_end. rewrite <- app_assoc. cbn [app].
    rewrite (app_assoc body). rewrite char_at_last by (unfold lenZ; rewrite length_app, length_replicate; reflexivity).
    cbn [mbind outcome_bind Z.eqb Pos.eqb]. replace (actual >? 0) with true by lia. rewrite <- app_assoc. rewrite IH by lia. f_equal; lia.
Qed.

Lemma url_safe_body body : forallb base64_char body = true -> map url_safe body = body.
Proof.
  rewrite forallb_forall. intros Hb. rewrite <- (map_id body) at 2. apply map_ext_in. intros c Hc. apply Hb in Hc.
  unfold url_safe. destruct (c =? 45) eqn:E1; [apply Z.eqb_eq in E1 as ->; discriminate|].
  destruct (c =? 95) eqn:E2; [apply Z.eqb_eq in E2 as ->; discriminate|]. reflexivity.
Qed.

Lemma url_safe_padding n : map url_safe (replicate n 61) = replicate n 61.
Proof. induction n as [|n IH]; [reflexivity|]. cbn [replicate map]. rewrite IH. reflexivity. Qed.

Lemma base64_reads text : bytes_ok text -> text <> [] -> lenZ text <= 12288 -> outline_base64_decode (encode text) = Done text.
Proof.
  intros Hb Hne Hlen. unfold outline_base64_decode. cbv zeta. pose proof (encode_length text Hb) as Hl. pose proof (padding_length text) as Hp.
  assert (Hpos : 0 < lenZ text) by (destruct text; [congruence|rewrite lenZ_cons; pose proof (lenZ_nonneg text); lia]).
  replace ((lenZ (encode text) =? 0) || (lenZ (encode text) >? 16384)) with false
    by (rewrite Hl; symmetry; apply orb_false_iff; split; Z.to_euclidean_division_equations; lia).
  rewrite padded_spec by (rewrite Hl; Z.to_euclidean_division_equations; lia).
  assert (Hpad : 4 * ((lenZ (encode text) + 3) / 4) = lenZ (encode text)) by (rewrite Hl; Z.to_euclidean_division_equations; lia).
  rewrite Hpad, Z.sub_diag. cbn [Z.to_nat replicate]. rewrite app_nil_r. pose proof (decode_encode text Hb) as Hd.
  destruct (encode_padded text Hb) as (body & Eb & Hc). rewrite Eb in *.
  rewrite map_app, url_safe_padding, (url_safe_body body Hc), Hd.
  replace (Z.to_nat (lenZ (body ++ replicate (padding text) 61))) with (length body + padding text)%nat
    by (unfold lenZ; rewrite Nat2Z.id, length_app, length_replicate; reflexivity).
  pose proof (without_trailing_count body (padding text) [] (lenZ (text ++ replicate (padding text) 0)) Hc) as Ht.
  rewrite app_nil_r in Ht. rewrite Ht by (rewrite lenZ_app, lenZ_replicate; pose proof (lenZ_nonneg text); lia). cbn [mbind outcome_bind].
  match goal with |- context [?a >? ?b] => replace (a >? b) with false by lia end.
  apply (rds_mid []); [reflexivity|rewrite lenZ_app, lenZ_replicate; lia].
Qed.

End Encoder.
(** ** Facts: the request with a key *)

Section Import.
Context `{Evp} `{Digest} `{Double} (encode : bytes -> bytes) `{!Base64 encode}.
Context (grow : Z -> bool).

(** Texts without a zero, as the parsers give them. *)
Record endpoint_ok (e : outline_endpoint) : Prop := {
  texts_ok : forall t, address e = Some t \/ e_method e = Some t \/ password e = Some t -> cstr_ok t;
  prefix_ok : bytes_ok (prefix e)
}.

Record key_ok (key : outline_key) : Prop := {
  tcp_ok : endpoint_ok (tcp key);
  udp_ok : endpoint_ok (udp key);
  dynamic_ok : cstr_ok (default [] (dynamic_key key));
  refreshed_ok : INT64_MIN <= refreshed_at_ns key <= INT64_MAX
}.

Definition endpoint_fields (e : outline_endpoint) : list field :=
  [text_field "address" (default [] (address e)); text_field "method" (default [] (e_method e));
   text_field "password" (default [] (password e)); text_field "prefix_base64" (outline_base64_encode encode (prefix e))].

Definition mutation_fields (key : outline_key) (name : bytes) (activate refresh : bool) : list field :=
  [text_field "profile_name" name; text_field "profile" name; bool_field "activate" activate; bool_field "refresh" refresh;
   bool_field "dynamic" (is_dynamic key); int_field "refreshed_at_ns" (refreshed_at_ns key);
   text_field "dynamic_key" (default [] (dynamic_key key));
   mk_field (str "tcp") (object_text (endpoint_fields (tcp key))) (object_value (endpoint_fields (tcp key)));
   mk_field (str "udp") (object_text (endpoint_fields (udp key))) (object_value (endpoint_fields (udp key)))].

Lemma usable_texts e : usable e -> exists a m p, address e = Some a /\ e_method e = Some m /\ password e = Some p.
Proof. intros [(h & t & E1 & _) (m & c & E2 & _) (p0 & p & E3)]. eauto 10. Qed.

Lemma mutation_text key name activate refresh text :
  key_usable key -> outline_mutation_json grow encode key name activate refresh = Done text ->
  text = object_text (mutation_fields key name activate refresh).
Proof.
  intros [Ht Hu] E. apply usable_texts in Ht as (ta & tm & tp & Eta & Etm & Etp), Hu as (ua & um & up & Eua & Eum & Eup).
  unfold outline_mutation_json in E. set (op := all_of _) in E.
  assert (Hw : writes grow op (object_text (mutation_fields key name activate refresh))).
  { unfold op, endpoint_ops, append_option. rewrite Eta, Etm, Etp, Eua, Eum, Eup. cbn [app]. eapply all_of_text.
    { repeat (apply Forall2_cons; [first [apply append_spec | apply append_text_spec]|]). apply Forall2_nil. }
    unfold mutation_fields, endpoint_fields, object_text, text_field, bool_field, int_field, key_text.
    cbn [map field_key field_text fst snd join concat app]. rewrite Eta, Etm, Etp, Eua, Eum, Eup. cbn [default]. same_text. }
  destruct (take_text_spec grow op _ (str "encode Outline profile mutation") Hw) as [[Hd|[e He]] _]; congruence.
Qed.

Lemma encode_cstr text : bytes_ok text -> cstr_ok (outline_base64_encode encode text).
Proof.
  intros Hb. unfold outline_base64_encode. case_if; [constructor|]. destruct (encode_padded text Hb) as (body & -> & Hc).
  apply Forall_app. split; [|apply Forall_replicate; unfold cchar_ok; lia].
  rewrite forallb_forall in Hc. apply list.Forall_forall. intros c Hin. apply list_elem_of_In, Hc in Hin.
  unfold base64_char, isalnum, isdigit, cchar_ok in *. lia.
Qed.

Lemma endpoint_reads e : endpoint_ok e -> Forall field_ok (endpoint_fields e).
Proof.
  intros [Ht Hp]. pose proof (encode_cstr _ Hp). assert (Hd : forall o, (forall t, o = Some t -> cstr_ok t) -> cstr_ok (default [] o)).
  { intros [t|] Ho; [apply Ho; reflexivity|constructor]. }
  repeat (apply List.Forall_cons; [apply text_field_ok; [apply literal_ok; reflexivity|first [apply Hd; auto|assumption]]|]). constructor.
Qed.

Lemma mutation_parses key name activate refresh :
  key_ok key -> cstr_ok name ->
  ch_json_parse (Some (object_text (mutation_fields key name activate refresh))) = Done (object_value (mutation_fields key name activate refresh)).
Proof.
  intros [Ht Hu Hd Hr] Hn. apply parse_text.
  - apply reads_fields. unfold mutation_fields.
    assert (Ho : forall k e, cstr_ok (str k) -> endpoint_ok e -> field_ok (mk_field (str k) (object_text (endpoint_fields e)) (object_value (endpoint_fields e)))).
    { intros k e Hk He. split; [exact Hk|apply reads_fields, endpoint_reads, He]. }
    repeat (apply List.Forall_cons; [first [apply text_field_ok; [apply literal_ok; reflexivity|assumption]
      |apply bool_field_ok, literal_ok; reflexivity|apply int_field_ok; [apply literal_ok; reflexivity|assumption]
      |apply Ho; [apply literal_ok; reflexivity|assumption]]|]). constructor.
  - vm_compute. discriminate.
Qed.

(** The text of a member. *)
Definition stored (v : option ch_json_value) (name : String.string) : option bytes := ch_json_string_value (Mutation.ask v name).

(** A prefix is stored so that the protocol reads it back for the cipher. *)
Definition stores_prefix (settings : option ch_json_value) (name : String.string) (e : outline_endpoint) : Prop :=
  exists encoded method cipher, stored settings name = Some encoded /\ e_method e = Some method /\
    ch_ss_cipher_from_name method = Done cipher /\ ch_ss_prefix_from_base64 encoded cipher = Done (prefix e).

(** A server of a configuration that is the one of a key. *)
Record server_of (key : outline_key) (server : ch_json_value) : Prop := {
  of_protocol : stored (Some server) "protocol" = Some (str "shadowsocks");
  of_address : stored (Some server) "address" = address (tcp key);
  of_method : stored (Mutation.ask (Some server) "settings") "method" = e_method (tcp key);
  of_password : stored (Mutation.ask (Some server) "settings") "password" = password (tcp key);
  of_prefix : stores_prefix (Mutation.ask (Some server) "settings") "prefix_base64" (tcp key);
  of_udp_address : stored (Mutation.ask (Some server) "settings") "udp_address" = address (udp key);
  of_udp_method : stored (Mutation.ask (Some server) "settings") "udp_method" = e_method (udp key);
  of_udp_password : stored (Mutation.ask (Some server) "settings") "udp_password" = password (udp key);
  of_udp_prefix : stores_prefix (Mutation.ask (Some server) "settings") "udp_prefix_base64" (udp key);
  of_dynamic_key : forall c url, dynamic_key key = Some (c :: url) ->
    stored (Mutation.ask (Some server) "settings") "outline_dynamic_key" = Some (c :: url)
}.

Definition endpoint_members (a m p x : bytes) : ch_json_value :=
  CH_JSON_OBJECT [(str "address", text_value a); (str "method", text_value m); (str "password", text_value p); (str "prefix_base64", text_value x)].

Lemma set_total o key v : Mutation.is_object o = true -> str key <> [] -> exists o', Mutation.mutation_set_owned o key v = Done o'.
Proof.
  intros Ho Hk. destruct o as [| | | | |ms]; try discriminate. destruct (object_set_get ms (str key) v Hk) as (ms' & E & _). eauto.
Qed.

(** Setting a member: the object afterwards, what it holds, and what it keeps. *)
Ltac set_member :=
  match goal with
  | Hi : Mutation.is_object ?o = true |- context [Mutation.mutation_set_owned ?o ?key ?v] =>
      let o' := fresh "o" in let E := fresh "E" in let Ha := fresh "Ha" in let Hk := fresh "Hk" in let Hi' := fresh "Hi" in
      destruct (set_total o key v Hi ltac:(discriminate)) as [o' E]; rewrite E; cbn [mbind outcome_bind];
      apply Mutation.set_done in E as (Ha & Hk & Hi'); clear Hi
  end.

Ltac kept_members :=
  repeat match goal with
  | Ha : Mutation.ask (Some ?o) ?key = _ |- context [Mutation.ask (Some ?o) ?key] => rewrite Ha
  | Hk : Mutation.keeps [_] ?old ?o |- context [Mutation.ask (Some ?o) ?key] => rewrite (Mutation.keeps_ask _ _ _ key Hk eq_refl)
  end.

(** The settings that a request leads to. *)
Lemma settings_stored request ta tm tp tx ua um up ux dynamic refreshed :
  Mutation.ask (Some request) "dynamic_key" = Some (text_value dynamic) ->
  Mutation.ask (Some request) "refreshed_at_ns" = Some (int_value refreshed) ->
  exists settings,
    Mutation.outline_settings (Some (endpoint_members ta tm tp tx)) (Some (endpoint_members ua um up ux)) request = Done settings /\
    stored (Some settings) "method" = Some tm /\ stored (Some settings) "password" = Some tp /\
    stored (Some settings) "prefix_base64" = Some tx /\ stored (Some settings) "udp_address" = Some ua /\
    stored (Some settings) "udp_method" = Some um /\ stored (Some settings) "udp_password" = Some up /\
    stored (Some settings) "udp_prefix_base64" = Some ux /\
    (dynamic <> [] -> stored (Some settings) "outline_dynamic_key" = Some dynamic).
Proof.
  intros Hd Hr. unfold Mutation.outline_settings, Mutation.mutation_outline_set_string. rewrite Hd, Hr.
  repeat match goal with |- context [Mutation.ask (Some (endpoint_members ?a ?m ?p ?x)) ?key] =>
    let t := match key with "address"%string => a | "method"%string => m | "password"%string => p | "prefix_base64"%string => x end in
    change (Mutation.ask (Some (endpoint_members a m p x)) key) with (Some (text_value t)) end.
  unfold text_value. cbn [ch_json_string_value ch_json_int64_value int_value number_is_integer number_integer].
  assert (Hnew : Mutation.is_object ch_json_value_new_object = true) by reflexivity. do 7 set_member.
  destruct dynamic as [|c dynamic]; [|do 2 set_member]; (eexists; split; [reflexivity|]); unfold stored; split_and!; intros; try congruence; kept_members; reflexivity.
Qed.

Lemma prefix_stored settings name e :
  usable e -> endpoint_ok e -> stored settings name = Some (outline_base64_encode encode (prefix e)) -> stores_prefix settings name e.
Proof.
  intros [_ (method & cipher & Em & Ec & Hl) _] [_ Hp] Hs. exists (outline_base64_encode encode (prefix e)), method, cipher.
  split_and!; [exact Hs|exact Em|exact Ec|]. exact (prefix_reads encode _ _ Hp Hl).
Qed.

Lemma applied_server key name activate refresh server :
  key_usable key -> key_ok key -> Mutation.is_object server = true ->
  exists server', Mutation.mutation_outline_apply_server server (object_value (mutation_fields key name activate refresh)) = Done server' /\
    server_of key server'.
Proof.
  intros [Ht Hu] [Kt Ku _ _] Ho. pose proof (usable_texts _ Ht) as (ta & tm & tp & Eta & Etm & Etp).
  pose proof (usable_texts _ Hu) as (ua & um & up & Eua & Eum & Eup). set (request := object_value _).
  set (tx := outline_base64_encode encode (prefix (tcp key))). set (ux := outline_base64_encode encode (prefix (udp key))).
  assert (Hat : Mutation.ask (Some request) "tcp" = Some (endpoint_members ta tm tp tx)).
  { change (Mutation.ask (Some request) "tcp") with (Some (object_value (endpoint_fields (tcp key)))).
    unfold endpoint_fields. rewrite Eta, Etm, Etp. reflexivity. }
  assert (Hau : Mutation.ask (Some request) "udp" = Some (endpoint_members ua um up ux)).
  { change (Mutation.ask (Some request) "udp") with (Some (object_value (endpoint_fields (udp key)))).
    unfold endpoint_fields. rewrite Eua, Eum, Eup. reflexivity. }
  destruct (settings_stored request ta tm tp tx ua um up ux (default [] (dynamic_key key)) (refreshed_at_ns key) eq_refl eq_refl)
    as (settings & Es & Sm & Sp & Sx & Sua & Sum & Sup & Sux & Sd).
  unfold Mutation.mutation_outline_apply_server. rewrite Hat, Hau. unfold endpoint_members at 1 2. cbv zeta.
  fold (endpoint_members ta tm tp tx) (endpoint_members ua um up ux). rewrite Es. unfold Mutation.mutation_outline_set_string.
  change (Mutation.ask (Some (endpoint_members ta tm tp tx)) "address") with (Some (CH_JSON_STRING ta)). cbn [ch_json_string_value].
  do 2 set_member. destruct (set_total o0 "settings" settings Hi0 ltac:(discriminate)) as [server' E]. exists server'. split; [exact E|].
  apply Mutation.set_done in E as (Has & Hks & _).
  constructor; rewrite ?Has, ?Eta, ?Etm, ?Etp, ?Eua, ?Eum, ?Eup; try assumption; try (unfold stored; kept_members; reflexivity).
  - apply prefix_stored; assumption.
  - apply prefix_stored; assumption.
  - intros c url Ek. rewrite Ek in Sd. apply Sd. discriminate.
Qed.

(** C18: The request that is made of a key configures the server of the key.  Its
    text is read back as JSON, and the mutation that applies it to a server
    stores, for both networks, the address, the cipher and the secret of the
    key, the prefix in a form which the protocol reads back as the prefix, and
    the dynamic key. *)
Theorem outline_mutation_configures key name activate refresh text server :
  key_usable key -> key_ok key -> cstr_ok name -> Mutation.is_object server = true ->
  outline_mutation_json grow encode key name activate refresh = Done text ->
  exists request server', ch_json_parse (Some text) = Done request /\
    Mutation.mutation_outline_apply_server server request = Done server' /\ server_of key server'.
Proof.
  intros Hu Hk Hn Ho E. apply mutation_text in E as ->; [|exact Hu]. exists (object_value (mutation_fields key name activate refresh)).
  destruct (applied_server key name activate refresh server Hu Hk Ho) as (server' & Ea & Hs). exists server'.
  split_and!; [apply mutation_parses; assumption|exact Ea|exact Hs].
Qed.

End Import.
(** ** Facts: reading an access key *)

(** Every byte with its escape, and the UTF-8 of a code point below 256. *)
Definition escape (s : bytes) : bytes := concat (map (fun b => [37; hex_digit (b / 16); hex_digit (b mod 16)]) s).
Definition utf8_text (s : bytes) : bytes := concat (map (fun b => if b <? 128 then [b] else [192 + b / 64; 128 + b mod 64]) s).

(** A key for a host and a port, as Outline writes them. *)
Definition server_text (host : bytes) (port : Z) : bytes := host ++ [58] ++ dec port.
Definition prefix_query (p : bytes) : bytes := str "prefix=" ++ escape (utf8_text p).
Definition access_key (encode : bytes -> bytes) (method secret host : bytes) (port : Z) (p name : bytes) : bytes :=
  str "ss://" ++ (encode (method ++ [58] ++ secret) ++ [64] ++ server_text host port ++ [47]) ++ [63] ++ prefix_query p ++ [35] ++ escape name.

(** All characters of a text are of a class. *)
Definition only (p : Z -> bool) (s : bytes) : Prop := forallb p s = true.

Lemma only_app p a b : only p (a ++ b) <-> only p a /\ only p b.
Proof. unfold only. rewrite forallb_app. apply andb_true_iff. Qed.

Lemma only_avoids p s c : only p s -> p c = false -> c ∉ s.
Proof. unfold only. rewrite forallb_forall. intros Hs Hc Hin. apply list_elem_of_In, Hs in Hin. congruence. Qed.

Definition host_char (c : Z) : bool := isalnum c || (c =? 45) || (c =? 46).
Definition escape_char (c : Z) : bool := isalnum c || (c =? 37).
Definition user_char (c : Z) : bool := base64_char c || (c =? 61).

Lemma escape_only s : bytes_ok s -> only escape_char (escape s).
Proof.
  induction 1 as [|b s Hb _ IH]; [reflexivity|]. unfold escape. cbn [map concat]. apply only_app. split; [|exact IH].
  unfold only, escape_char, isalnum, isdigit, hex_digit, byte_ok in *. cbn [forallb].
  assert (0 <= b / 16 < 16) by (Z.to_euclidean_division_equations; lia). assert (0 <= b mod 16 < 16) by (apply Z.mod_pos_bound; lia).
  destruct (b / 16 <? 10) eqn:E1, (b mod 16 <? 10) eqn:E2; lia.
Qed.

Lemma hex_reads v : 0 <= v < 16 -> ch_json_hex (hex_digit v) = Some v.
Proof.
  intros Hv. unfold ch_json_hex, hex_digit. destruct (v <? 10) eqn:E.
  - replace ((48 <=? 48 + v) && (48 + v <=? 57)) with true by lia. f_equal. lia.
  - replace ((48 <=? 87 + v) && (87 + v <=? 57)) with false by lia. replace ((97 <=? 87 + v) && (87 + v <=? 102)) with true by lia. f_equal. lia.
Qed.

Lemma hex_pair b : byte_ok b -> ch_json_hex (hex_digit (b / 16)) = Some (b / 16) /\ ch_json_hex (hex_digit (b mod 16)) = Some (b mod 16) /\ b / 16 * 16 + b mod 16 = b.
Proof.
  unfold byte_ok. intros Hb. split_and!; [apply hex_reads; Z.to_euclidean_division_equations; lia..|Z.to_euclidean_division_equations; lia].
Qed.

Lemma unescape_prefix s : bytes_ok s -> decode_prefix (escape s) = Done s.
Proof.
  induction 1 as [|b s Hb _ IH]; [reflexivity|]. destruct (hex_pair b Hb) as (H1 & H2 & H3).
  change (escape (b :: s)) with ([37; hex_digit (b / 16); hex_digit (b mod 16)] ++ escape s). cbn [app decode_prefix Z.eqb Pos.eqb].
  rewrite H1, H2, IH, H3. reflexivity.
Qed.

Lemma unescape_text plus s : cstr_ok s -> outline_percent_decode plus (escape s) = Done s.
Proof.
  induction 1 as [|b s Hb _ IH]; [reflexivity|]. unfold cchar_ok in Hb. destruct (hex_pair b ltac:(unfold byte_ok; lia)) as (H1 & H2 & H3).
  change (escape (b :: s)) with ([37; hex_digit (b / 16); hex_digit (b mod 16)] ++ escape s). cbn [app outline_percent_decode Z.eqb Pos.eqb].
  rewrite H1, H2, IH, H3. replace (b =? 0) with false by lia. reflexivity.
Qed.

(** A text without escapes is kept. *)
Lemma decode_plain s : only user_char s -> outline_percent_decode false s = Done s.
Proof.
  induction s as [|c s IH]; intros Hs; [reflexivity|]. unfold only in Hs. cbn [forallb] in Hs. apply andb_true_iff in Hs as [Hc Hs].
  cbn [outline_percent_decode]. rewrite (IH Hs).
  destruct (c =? 37) eqn:E1; [apply Z.eqb_eq in E1 as ->; discriminate|]. rewrite andb_false_r.
  destruct (c =? 0) eqn:E2; [apply Z.eqb_eq in E2 as ->; discriminate|]. reflexivity.
Qed.

Lemma utf8_bytes_ok s : bytes_ok s -> bytes_ok (utf8_text s).
Proof.
  induction 1 as [|b s Hb _ IH]; [constructor|]. unfold utf8_text. cbn [map concat]. apply Forall_app. split; [|exact IH].
  unfold byte_ok in *. case_if; repeat constructor; unfold byte_ok; Z.to_euclidean_division_equations; lia.
Qed.

Lemma code_point b : 128 <= b < 256 ->
  Z.land (192 + b / 64) 224 = 192 /\ Z.land (128 + b mod 64) 192 = 128 /\
  Z.lor (Z.shiftl (Z.land (192 + b / 64) 31) 6) (Z.land (128 + b mod 64) 63) = b /\ (192 + b / 64 <? 128) = false.
Proof.
  assert (Hall : forallb (fun b => (Z.land (192 + b / 64) 224 =? 192) && (Z.land (128 + b mod 64) 192 =? 128) &&
    (Z.lor (Z.shiftl (Z.land (192 + b / 64) 31) 6) (Z.land (128 + b mod 64) 63) =? b) && negb (192 + b / 64 <? 128)) (seqZ 128 128) = true)
    by (vm_compute; reflexivity).
  intros Hb. rewrite forallb_forall in Hall. specialize (Hall b ltac:(apply list_elem_of_In, elem_of_seqZ; lia)).
  rewrite !andb_true_iff, !Z.eqb_eq, negb_true_iff in Hall. tauto.
Qed.

Lemma prefix_loop_reads p out : bytes_ok p -> lenZ out + lenZ p <= CH_OUTLINE_MAX_PREFIX -> prefix_loop (utf8_text p) out = Done (out ++ p).
Proof.
  intros Hp. revert out. induction Hp as [|b p Hb _ IH]; intros out Hl; [cbn; rewrite app_nil_r; reflexivity|].
  rewrite lenZ_cons in Hl. pose proof (lenZ_nonneg p). unfold byte_ok in Hb. unfold utf8_text. cbn [map concat]. fold (utf8_text p).
  assert (Hstore : prefix_loop (utf8_text p) (out ++ [b]) = Done (out ++ b :: p)).
  { rewrite IH; [rewrite <- app_assoc; reflexivity|rewrite lenZ_app; change (lenZ [b]) with 1; lia]. }
  destruct (b <? 128) eqn:E; cbn [app prefix_loop].
  - rewrite E. replace (b >? 255) with false by lia. replace (lenZ out >=? CH_OUTLINE_MAX_PREFIX) with false by (rewrite Z.geb_leb; lia). exact Hstore.
  - destruct (code_point b ltac:(lia)) as (H1 & H2 & H3 & H4). rewrite H1, H2, H3, H4, E. cbn [Z.eqb Pos.eqb andb].
    replace (b >? 255) with false by lia. replace (lenZ out >=? CH_OUTLINE_MAX_PREFIX) with false by (rewrite Z.geb_leb; lia). exact Hstore.
Qed.

Lemma split_where_one cut s : only (fun c => negb (cut c)) s -> split_where cut s = [s].
Proof.
  induction s as [|c s IH]; intros Hs; [reflexivity|]. unfold only in Hs. cbn [forallb] in Hs. apply andb_true_iff in Hs as [Hc Hs].
  cbn [split_where]. apply negb_true_iff in Hc. rewrite Hc, (IH Hs). reflexivity.
Qed.

Lemma split_where_app cut a c b : only (fun c => negb (cut c)) a -> cut c = true -> split_where cut (a ++ c :: b) = a :: split_where cut b.
Proof.
  intros Ha Hc. induction a as [|x a IH]; cbn [app split_where]; [rewrite Hc; reflexivity|].
  unfold only in Ha. cbn [forallb] in Ha. apply andb_true_iff in Ha as [Hx Ha]. apply negb_true_iff in Hx. rewrite Hx, (IH Ha). reflexivity.
Qed.

Lemma only_weaken p q s : only p s -> (forall c, p c = true -> q c = true) -> only q s.
Proof. unfold only. rewrite !forallb_forall. auto. Qed.

Lemma without_slashes_last s c : c <> 47 -> reverse (without_slashes (reverse ((s ++ [c]) ++ [47]))) = s ++ [c].
Proof.
  intros Hc. assert (Hs : forall r, without_slashes (c :: r) = c :: r).
  { intros r. cbn [without_slashes]. destruct c as [|p|p]; try reflexivity.
    repeat (match goal with |- match ?x with _ => _ end = _ => destruct x end; try reflexivity). contradiction. }
  rewrite !reverse_snoc. change (without_slashes (47 :: c :: reverse s)) with (without_slashes (c :: reverse s)).
  rewrite Hs, <- reverse_snoc. apply reverse_involutive.
Qed.

Lemma trim_plain c s d : isspace c = false -> isspace d = false -> trim (c :: s ++ [d]) = c :: s ++ [d].
Proof.
  intros Hc Hd. unfold trim. rewrite skip_space_head by exact Hc.
  assert (Hr : forall l, trim_right (l ++ [d]) = l ++ [d]).
  { induction l as [|x l IH]; cbn [app trim_right]; [rewrite Hd; reflexivity|]. rewrite IH. destruct (l ++ [d]) eqn:E; [|reflexivity].
    destruct l; discriminate. }
  apply (Hr (c :: s)).
Qed.

Lemma dec_last port : 0 <= port -> exists d c, dec port = d ++ [c] /\ isdigit c = true.
Proof.
  intros Hp. unfold dec. replace (port <? 0) with false by lia. destruct (dec_nonneg_spec port Hp) as (Hok & _ & x & d & E & _). rewrite E in *.
  destruct (@exists_last _ (x :: d) ltac:(discriminate)) as (l & c & El). exists l, c. split; [exact El|].
  unfold digits_ok in Hok. rewrite El in Hok. apply Forall_app in Hok as [_ Hok]. inversion Hok. assumption.
Qed.

Section Reading.
Context `{Evp} `{Digest} `{Double} (encode : bytes -> bytes) `{!Base64 encode}.
Context (method secret host p name : bytes) (port : Z) (cipher : ch_ss_cipher).

(** The parts of a key: a cipher, a secret, a name of a host, a port, a prefix
    and a name for the profile. *)
Record parts_ok : Prop := {
  part_cipher : ch_ss_cipher_from_name method = Done cipher;
  part_secret : cstr_ok secret /\ secret <> [] /\ lenZ secret <= 12000;
  part_host : only host_char host /\ host <> [];
  part_port : 1 <= port <= 65535;
  part_prefix : bytes_ok p /\ lenZ p <= salt_size cipher;
  part_name : cstr_ok name /\ name <> []
}.

Context (ok : parts_ok).

Definition endpoint_of : outline_endpoint := mk_endpoint (Some (server_text host port)) (Some method) (Some secret) p.

Lemma method_plain : cstr_ok method /\ (58 ∉ method) /\ method <> [] /\ lenZ method <= 30.
Proof.
  assert (Hm : exists text, method = str text /\ text ∈ ["aes-128-gcm"; "aes-256-gcm"; "chacha20-ietf-poly1305"]%string).
  { pose proof (part_cipher ok) as E. unfold ch_ss_cipher_from_name in E.
    repeat match type of E with (if ?b then _ else _) = _ => destruct b eqn:?; try discriminate E end;
      match goal with Hb : beq method (str ?t) = true |- _ => exists t; split; [apply beq_true, Hb|rewrite !elem_of_cons; tauto] end. }
  destruct Hm as (text & -> & Ht). rewrite !elem_of_cons, elem_of_nil in Ht.
  destruct Ht as [-> |[-> |[-> |[]]]]; (split_and!; [apply literal_ok; reflexivity|apply (only_avoids host_char); reflexivity|discriminate|vm_compute; discriminate]).
Qed.

Lemma info_ok : cstr_ok (method ++ [58] ++ secret) /\ method ++ [58] ++ secret <> [] /\ lenZ (method ++ [58] ++ secret) <= 12288.
Proof.
  destruct method_plain as (Hm & _ & Hne & Hl). destruct (part_secret ok) as (Hs & _ & Hsl). split_and!.
  - apply Forall_app. split; [exact Hm|]. constructor; [unfold cchar_ok; lia|exact Hs].
  - destruct method; [congruence|discriminate].
  - rewrite !lenZ_app. change (lenZ [58]) with 1. lia.
Qed.

Lemma cstr_bytes s : cstr_ok s -> bytes_ok s.
Proof. apply Forall_impl. unfold cchar_ok, byte_ok. intros; lia. Qed.

Lemma information_reads : cipher_information (encode (method ++ [58] ++ secret)) = Done (method ++ [58] ++ secret).
Proof.
  destruct info_ok as (Hc & Hne & Hl). unfold cipher_information. rewrite (base64_reads encode) by (try apply cstr_bytes; assumption).
  rewrite bool_decide_eq_true_2 by (apply elem_of_app; right; left). rewrite bool_decide_eq_false_2; [reflexivity|].
  intros Hin. unfold cstr_ok in Hc. rewrite list.Forall_forall in Hc. apply Hc in Hin. unfold cchar_ok in Hin. lia.
Qed.

Lemma user_only text : bytes_ok text -> only user_char (encode text).
Proof.
  intros Hb. destruct (encode_padded text Hb) as (body & -> & Hc). apply only_app. split.
  - apply (only_weaken _ _ _ Hc). intros c E. unfold user_char. rewrite E. reflexivity.
  - generalize (padding text). induction n; [reflexivity|exact IHn].
Qed.

Lemma digits_only : only isdigit (dec port).
Proof.
  pose proof (dec_digits_only port ltac:(pose proof (part_port ok); lia)) as Hd. unfold only. apply forallb_forall. intros c Hin.
  unfold digits_ok in Hd. rewrite list.Forall_forall in Hd. apply Hd, list_elem_of_In, Hin.
Qed.

Lemma server_avoids c : host_char c = false -> c <> 58 -> c ∉ server_text host port.
Proof.
  intros Hc Hn. unfold server_text. rewrite !elem_of_app, list_elem_of_singleton. intros [Hin|[Hin|Hin]]; [|congruence|].
  - exact (only_avoids _ _ _ (proj1 (part_host ok)) Hc Hin).
  - refine (only_avoids _ _ _ digits_only _ Hin). unfold host_char, isalnum in Hc. destruct (isdigit c); [discriminate|reflexivity].
Qed.

Lemma endpoint_valid : outline_validate_endpoint endpoint_of = Done tt.
Proof.
  unfold outline_validate_endpoint, endpoint_of. cbn [address e_method password prefix]. destruct (part_host ok) as [Hh Hhn].
  destruct method_plain as (_ & _ & Hmn & _). destruct (part_secret ok) as (_ & Hsn & _). destruct (part_prefix ok) as [_ Hpl].
  pose proof (part_cipher ok) as Hc. pose proof (part_port ok) as Hport. unfold server_text.
  destruct host as [|h0 h]; [congruence|]. destruct secret; [congruence|]. destruct method as [|m0 m]; [congruence|]. cbn [app].
  assert (Hb : (h0 =? 91) = false).
  { unfold only in Hh. cbn [forallb] in Hh. apply andb_true_iff in Hh as [Hh _]. apply Z.eqb_neq. intros ->. discriminate. }
  rewrite Hb, app_comm_cons, split_last_app by (apply (only_avoids isdigit); [exact digits_only|reflexivity]). cbn [mbind outcome_bind].
  pose proof (strtol_dec port [] ltac:(unfold INT64_MIN, INT64_MAX; lia) eq_refl) as Hs. rewrite app_nil_r in Hs. rewrite Hs.
  cbn [scan_range scan_any scan_rest scan_value negb orb]. rewrite beq_refl. cbn [negb orb].
  replace (port <? 1) with false by lia. replace (port >? 65535) with false by lia. cbn [orb]. rewrite Hc. cbn [mbind outcome_bind].
  replace (lenZ p >? salt_size cipher) with false by lia. reflexivity.
Qed.

Definition authority : bytes := encode (method ++ [58] ++ secret) ++ [64] ++ server_text host port.

Lemma authority_avoids c : user_char c = false -> host_char c = false -> c <> 58 -> c <> 64 -> c ∉ authority.
Proof.
  intros Hu Hh H1' H2'. unfold authority. rewrite !elem_of_app, list_elem_of_singleton. intros [Hin|[Hin|Hin]]; [|congruence|].
  - refine (only_avoids _ _ _ (user_only _ _) Hu Hin). apply cstr_bytes, info_ok.
  - exact (server_avoids c Hh H1' Hin).
Qed.

Lemma query_avoids c : escape_char c = false -> c <> 61 -> c ∉ prefix_query p.
Proof.
  intros Hc Hn. unfold prefix_query. rewrite elem_of_app. intros [Hin|Hin].
  - apply list_elem_of_In in Hin. cbn in Hin. repeat destruct Hin as [<-|Hin]; first [discriminate|congruence|contradiction].
  - refine (only_avoids _ _ _ (escape_only _ (utf8_bytes_ok _ (proj1 (part_prefix ok)))) Hc Hin).
Qed.

Lemma name_only : only escape_char (escape name).
Proof. apply escape_only, cstr_bytes, (proj1 (part_name ok)). Qed.

Lemma url_reads : url_split (authority ++ [47] ++ [63] ++ prefix_query p ++ [35] ++ escape name)
  = (authority ++ [47], Some (prefix_query p), Some (escape name)).
Proof.
  unfold url_split. rewrite !app_assoc. rewrite <- (app_assoc _ [35]). cbn [app]. rewrite split_first_app.
  - rewrite <- (app_assoc _ [63]). cbn [app]. rewrite split_first_app; [reflexivity|].
    rewrite elem_of_app, list_elem_of_singleton. intros [Hin|Hin]; [|discriminate]. revert Hin. apply authority_avoids; (reflexivity || discriminate).
  - rewrite !elem_of_app, !list_elem_of_singleton. intros [[[Hin|Hin]|Hin]|Hin]; try discriminate; revert Hin.
    + apply authority_avoids; (reflexivity || discriminate).
    + apply query_avoids; (reflexivity || discriminate).
Qed.

Lemma query_only : only (fun c => negb ((c =? 38) || (c =? 35))) (prefix_query p).
Proof.
  apply only_app. split; [reflexivity|]. apply (only_weaken _ _ _ (escape_only _ (utf8_bytes_ok _ (proj1 (part_prefix ok))))).
  unfold escape_char, isalnum, isdigit. intros c. lia.
Qed.

Lemma query_key : key_value (prefix_query p) = (str "prefix", Some (escape (utf8_text p))).
Proof.
  unfold key_value, prefix_query. change (str "prefix=") with (str "prefix" ++ [61]). rewrite <- app_assoc. cbn [app].
  rewrite (split_first_app 61 (str "prefix")); [reflexivity|]. apply (only_avoids host_char); reflexivity.
Qed.

Lemma no_plugin : outline_query_value (query_text (prefix_query p) (Some (escape name))) (str "plugin") = None.
Proof.
  unfold outline_query_value, query_text. rewrite split_where_app by (try exact query_only; reflexivity).
  rewrite split_where_one by (apply (only_weaken _ _ _ name_only); unfold escape_char, isalnum, isdigit; intros c; lia).
  cbn [query_value_loop]. rewrite query_key. change (beq (str "prefix") (str "plugin")) with false. cbv iota.
  assert (Hk : key_value (escape name) = (escape name, None)).
  { unfold key_value. rewrite (proj2 (split_first_None 61 (escape name))); [reflexivity|]. apply (only_avoids escape_char); [exact name_only|reflexivity]. }
  rewrite Hk. destruct (part_name ok) as [_ Hn]. destruct name as [|c n]; [congruence|].
  rewrite (proj2 (beq_false _ _)); [reflexivity|]. discriminate.
Qed.

Lemma prefix_found e : prefix e = [] -> outline_query_prefix (query_text (prefix_query p) (Some (escape name))) e = Done (with_prefix e p).
Proof.
  intros He. unfold outline_query_prefix, query_text, before. rewrite split_first_app by (apply query_avoids; (reflexivity || discriminate)).
  rewrite split_where_one by (apply (only_weaken _ _ _ query_only); intros c; lia). cbn [query_prefix_loop]. rewrite query_key, beq_refl.
  destruct (part_prefix ok) as [Hb Hl]. rewrite unescape_prefix by (apply utf8_bytes_ok, Hb). cbn [mbind outcome_bind].
  unfold outline_prefix_from_utf8_bytes. pose proof (cipher_salt _ _ (part_cipher ok)). rewrite prefix_loop_reads; [reflexivity|exact Hb|].
  change (lenZ (@nil Z)) with 0. lia.
Qed.

Lemma access_key_parses fuel :
  outline_parse_ss fuel (authority ++ [47] ++ [63] ++ prefix_query p ++ [35] ++ escape name) no_key
  = Done (mk_key endpoint_of endpoint_of (Some name) None false 0).
Proof.
  destruct (part_name ok) as [Hname Hne]. destruct (escape name) as [|f0 f] eqn:Ef; [destruct name; [congruence|discriminate]|].
  assert (Hend : exists l c, authority = l ++ [c] /\ c <> 47).
  { destruct (dec_last port ltac:(pose proof (part_port ok); lia)) as (d & c & E & Hc).
    exists (encode (method ++ [58] ++ secret) ++ [64] ++ host ++ [58] ++ d), c. unfold authority, server_text. rewrite E, !app_assoc.
    split; [reflexivity|intros ->; discriminate]. }
  assert (Hname' : outline_percent_decode false (f0 :: f) = Done name) by (rewrite <- Ef; apply unescape_text, Hname).
  assert (Hat : split_last 64 authority = Some (encode (method ++ [58] ++ secret), server_text host port))
    by (apply split_last_app, server_avoids; (reflexivity || discriminate)).
  assert (Hcolon : split_first 58 (method ++ [58] ++ secret) = Some (method, secret)) by (apply split_first_app, method_plain).
  destruct Hend as (l & c & El & Hc). pose proof endpoint_valid as Hv. unfold endpoint_of in Hv. pose proof url_reads as Hu. pose proof no_plugin as Hp. pose proof prefix_found as Hq. rewrite Ef in Hu, Hp, Hq.
  destruct fuel; cbn [outline_parse_ss]; rewrite Hu, Hp; rewrite bool_decide_eq_false_2 by (intros [x Hx]; discriminate);
    cbn [suggested_name no_key]; rewrite Hname'; cbn [mbind outcome_bind]; rewrite El, without_slashes_last, <- El by exact Hc;
    rewrite Hat; rewrite decode_plain by (apply user_only, cstr_bytes, info_ok); cbn [mbind outcome_bind];
    rewrite information_reads; cbn [mbind outcome_bind]; rewrite Hcolon, Hq by reflexivity; cbn [mbind outcome_bind];
    unfold with_endpoint, with_prefix, endpoint_of; cbn [address e_method password]; rewrite Hv; reflexivity.
Qed.

(** C17: An access key is read back.  The key that is written for a cipher, a
    secret, a host, a port, a prefix and a name, with the cipher and the secret
    in Base64 and the prefix and the name escaped, resolves without a request to
    that endpoint for both networks, with the prefix and the name. *)
Theorem access_key_round_trip load network reply redirection initialized now :
  outline_resolve load network reply redirection initialized now (access_key encode method secret host port p name)
  = ([], Done (mk_key endpoint_of endpoint_of (Some name) None false 0)).
Proof.
  destruct (part_name ok) as [Hname Hne].
  assert (Hend : exists l c, escape name = l ++ [c] /\ isspace c = false).
  { destruct (@exists_last _ (escape name)) as (l & c & E); [destruct name; [congruence|discriminate]|]. exists l, c. split; [exact E|].
    pose proof name_only as Ho. rewrite E in Ho. apply only_app in Ho as [_ Ho]. unfold only in Ho. cbn [forallb] in Ho.
    unfold escape_char, isalnum, isdigit, isspace in *. lia. }
  destruct Hend as (l & c & El & Hc).
  assert (Ekey : access_key encode method secret host port p name = str "ss://" ++ authority ++ [47] ++ [63] ++ prefix_query p ++ [35] ++ escape name).
  { unfold access_key, authority. rewrite <- !app_assoc. reflexivity. }
  assert (Etrim : outline_trim_copy (access_key encode method secret host port p name) = access_key encode method secret host port p name).
  { rewrite Ekey, El. change (str "ss://") with (115 :: [115; 58; 47; 47]). rewrite !app_assoc, <- app_comm_cons. apply trim_plain; [reflexivity|exact Hc]. }
  unfold outline_resolve. rewrite Etrim. unfold linked_key.
  replace (RuleFeed.case_prefix (str "https://") (access_key encode method secret host port p name)) with false by reflexivity.
  match goal with |- context [match split_first ?c ?s with _ => _ end] => destruct (split_first c s) as [[x y]|] end;
    replace (RuleFeed.case_prefix (str "ss://") (access_key encode method secret host port p name)) with true by reflexivity;
    unfold parse_ss_url; rewrite Ekey; change (drop 5 (str "ss://" ++ ?x)) with x; rewrite access_key_parses; reflexivity.
Qed.

End Reading.

Section Unpadded.
Context `{Evp} `{Digest} `{Double}.

Lemma without_slashes_none s c : c <> 47 -> reverse (without_slashes (reverse (s ++ [c]))) = s ++ [c].
Proof.
  intros Hc. rewrite <- (without_slashes_last s c Hc) at 2. rewrite (reverse_snoc (s ++ [c]) 47). reflexivity.
Qed.

Lemma split_none c s : c ∉ s -> split_first c s = None.
Proof. apply split_first_None. Qed.

(** The user information of a key, read beyond its end. *)
Lemma unpadded_parses fuel user host port decoded key :
  only user_char user -> lenZ user <= 16384 -> lenZ user mod 4 = 1 \/ lenZ user mod 4 = 2 ->
  EVP_DecodeBlock (map url_safe user ++ replicate (Z.to_nat (- lenZ user mod 4)) 61) = Some decoded ->
  only host_char host -> 0 <= port ->
  outline_parse_ss fuel (user ++ [64] ++ server_text host port) key = Fault.
Proof.
  intros Hu Hl Hm Hd Hh Hp. destruct (dec_last port Hp) as (d & c & Ed & Hc).
  assert (Hdig : only isdigit (dec port)).
  { pose proof (dec_digits_only port Hp) as Hx. unfold only. apply forallb_forall. intros x Hin. unfold digits_ok in Hx.
    rewrite list.Forall_forall in Hx. apply Hx, list_elem_of_In, Hin. }
  assert (Hserver : forall x, host_char x = false -> x <> 58 -> x ∉ server_text host port).
  { intros x Hx Hn. unfold server_text. rewrite !elem_of_app, list_elem_of_singleton. intros [Hin|[Hin|Hin]]; [|congruence|].
    - exact (only_avoids _ _ _ Hh Hx Hin).
    - refine (only_avoids _ _ _ Hdig _ Hin). unfold host_char, isalnum in Hx. destruct (isdigit x); [discriminate|reflexivity]. }
  assert (Hall : forall x, user_char x = false -> host_char x = false -> x <> 58 -> x <> 64 -> x ∉ user ++ [64] ++ server_text host port).
  { intros x Hx Hx' H58 H64. rewrite !elem_of_app, list_elem_of_singleton. intros [Hin|[Hin|Hin]]; [|congruence|].
    - exact (only_avoids _ _ _ Hu Hx Hin).
    - exact (Hserver x Hx' H58 Hin). }
  assert (Hsplit : url_split (user ++ [64] ++ server_text host port) = (user ++ [64] ++ server_text host port, None, None)).
  { unfold url_split. rewrite !split_none by (apply Hall; (reflexivity || discriminate)). reflexivity. }
  assert (Hslash : reverse (without_slashes (reverse (user ++ [64] ++ server_text host port))) = user ++ [64] ++ server_text host port).
  { unfold server_text. rewrite Ed, !app_assoc. apply without_slashes_none. intros ->. discriminate. }
  assert (Hat : split_last 64 (user ++ [64] ++ server_text host port) = Some (user, server_text host port))
    by (apply split_last_app, Hserver; (reflexivity || discriminate)).
  destruct fuel; cbn [outline_parse_ss]; rewrite Hsplit; cbn [mbind outcome_bind]; rewrite Hslash, Hat, decode_plain by exact Hu;
    cbn [mbind outcome_bind]; unfold cipher_information; rewrite (base64_over_read user decoded Hl Hm Hd); reflexivity.
Qed.

(** C20: The parser reads beyond the end of a key.  When the user information of a key
    is Base64 without padding, one or two characters more than a multiple of
    four, the loop that counts its padding starts behind the
    padded length and reads the text beyond its terminator. *)
Theorem unpadded_key_over_read load network reply redirection initialized now user host port decoded :
  only user_char user -> lenZ user <= 16384 -> lenZ user mod 4 = 1 \/ lenZ user mod 4 = 2 ->
  EVP_DecodeBlock (map url_safe user ++ replicate (Z.to_nat (- lenZ user mod 4)) 61) = Some decoded ->
  only host_char host -> 0 <= port ->
  outline_resolve load network reply redirection initialized now (str "ss://" ++ user ++ [64] ++ server_text host port) = ([], Fault).
Proof.
  intros Hu Hl Hm Hd Hh Hp. destruct (dec_last port Hp) as (d & c & Ed & Hc).
  set (raw := str "ss://" ++ _).
  assert (Etrim : outline_trim_copy raw = raw).
  { unfold raw, server_text. rewrite Ed. change (str "ss://") with (115 :: [115; 58; 47; 47]). rewrite !app_assoc, <- app_comm_cons.
    apply trim_plain; [reflexivity|]. unfold isdigit, isspace in *. lia. }
  unfold outline_resolve. rewrite Etrim. unfold linked_key. replace (RuleFeed.case_prefix (str "https://") raw) with false by reflexivity.
  destruct (split_first 35 raw) as [[x y]|]; replace (RuleFeed.case_prefix (str "ss://") raw) with true by reflexivity; f_equal;
    exact (unpadded_parses (length raw) user host port decoded no_key Hu Hl Hm Hd Hh Hp).
Qed.

End Unpadded.
End Outline.

(** ** An instance of [Base64], and the witnesses *)

Module PlainBase64.
Import Crypto Shadowsocks Json JsonText Outline.

Definition letter (v : Z) : Z :=
  if v <? 26 then 65 + v else if v <? 52 then 71 + v else if v <? 62 then v - 4 else if v =? 62 then 43 else 47.

Definition value_of (c : Z) : option Z :=
  if (65 <=? c) && (c <=? 90) then Some (c - 65)
  else if (97 <=? c) && (c <=? 122) then Some (c - 71)
  else if (48 <=? c) && (c <=? 57) then Some (c + 4)
  else if c =? 43 then Some 62 else if c =? 47 then Some 63 else if c =? 61 then Some 0 else None.

Fixpoint plain_encode (text : bytes) : bytes :=
  match text with
  | a :: b :: c :: rest =>
      [letter (a / 4); letter (a mod 4 * 16 + b / 16); letter (b mod 16 * 4 + c / 64); letter (c mod 64)] ++ plain_encode rest
  | [a; b] => [letter (a / 4); letter (a mod 4 * 16 + b / 16); letter (b mod 16 * 4); 61]
  | [a] => [letter (a / 4); letter (a mod 4 * 16); 61; 61]
  | [] => []
  end.

Fixpoint plain_decode (text : bytes) : option bytes :=
  match text with
  | a :: b :: c :: d :: rest =>
      a ← value_of a; b ← value_of b; c ← value_of c; d ← value_of d; r ← plain_decode rest;
      Some (a * 4 + b / 16 :: b mod 16 * 16 + c / 4 :: c mod 4 * 64 + d :: r)
  | [] => Some []
  | _ => None
  end.

Lemma three_ind (P : bytes -> Prop) :
  P [] -> (forall a, P [a]) -> (forall a b, P [a; b]) -> (forall a b c l, P l -> P (a :: b :: c :: l)) -> forall l, P l.
Proof.
  intros H0 H1 H2 H3 l. assert (Hn : forall n l, (length l < n)%nat -> P l).
  { induction n as [|n IH]; [lia|]. intros [|a [|b [|c l']]] Hl; auto. apply H3, IH. cbn [length] in Hl. lia. }
  exact (Hn (S (length l)) l ltac:(lia)).
Qed.

Lemma decode_bound n : forall text decoded, (length text < n)%nat -> plain_decode text = Some decoded -> 4 * lenZ decoded <= 3 * lenZ text.
Proof.
  induction n as [|n IH]; [lia|]. intros [|a [|b [|c [|d rest]]]] decoded Hl E; try discriminate; [injection E as <-; vm_compute; discriminate|].
  cbn [plain_decode] in E. destruct (value_of a), (value_of b), (value_of c), (value_of d); try discriminate. cbn [mbind option_bind] in E.
  destruct (plain_decode rest) as [r|] eqn:Er; [|discriminate]. cbn [mbind option_bind] in E. injection E as <-.
  apply IH in Er; [|cbn [length] in Hl; lia]. rewrite !lenZ_cons. lia.
Qed.

#[export, refine] Instance digest_base64 : Digest := {|
  md5 text := Some (PlainCrypto.mixed 16 [text]);
  hmac_sha1 key text := Some (PlainCrypto.mixed 20 [key; text]);
  EVP_DecodeBlock := plain_decode
|}.
Proof. intros text decoded. apply (decode_bound (S (length text))). lia. Defined.

Lemma letter_reads v : 0 <= v < 64 -> value_of (letter v) = Some v.
Proof.
  assert (Hall : forallb (fun v => bool_decide (value_of (letter v) = Some v)) (seqZ 0 64) = true) by (vm_compute; reflexivity).
  intros Hv. rewrite forallb_forall in Hall. specialize (Hall v ltac:(apply list_elem_of_In, elem_of_seqZ; lia)). apply bool_decide_eq_true in Hall. exact Hall.
Qed.

Lemma letter_char v : 0 <= v < 64 -> base64_char (letter v) = true.
Proof.
  assert (Hall : forallb (fun v => base64_char (letter v)) (seqZ 0 64) = true) by (vm_compute; reflexivity).
  intros Hv. rewrite forallb_forall in Hall. apply Hall, list_elem_of_In, elem_of_seqZ. lia.
Qed.

Ltac byte_facts :=
  repeat match goal with
  | Hb : bytes_ok (_ :: _) |- _ => unfold bytes_ok in Hb
  | Hb : Forall byte_ok (_ :: _) |- _ => apply list.Forall_cons in Hb as [? Hb]
  end; unfold byte_ok in *.

Ltac sixbits := Z.to_euclidean_division_equations; lia.

Lemma encode_length_plain text : lenZ (plain_encode text) = 4 * ((lenZ text + 2) / 3).
Proof.
  induction text as [|a|a b|a b c l IH] using three_ind; try reflexivity. cbn [plain_encode]. rewrite lenZ_app, IH, !lenZ_cons.
  change (lenZ (@nil Z)) with 0. sixbits.
Qed.

Lemma padding_three a b c l : padding (a :: b :: c :: l) = padding l.
Proof. unfold padding. rewrite !lenZ_cons. f_equal. sixbits. Qed.

Lemma encode_padded_plain text : bytes_ok text -> exists body, plain_encode text = body ++ replicate (padding text) 61 /\ forallb base64_char body = true.
Proof.
  induction text as [|a|a b|a b c l IH] using three_ind; intros Hb; byte_facts.
  - exists []. split; reflexivity.
  - exists [letter (a / 4); letter (a mod 4 * 16)]. split; [reflexivity|]. cbn [forallb]. rewrite !letter_char by sixbits. reflexivity.
  - exists [letter (a / 4); letter (a mod 4 * 16 + b / 16); letter (b mod 16 * 4)]. split; [reflexivity|]. cbn [forallb].
    rewrite !letter_char by sixbits. reflexivity.
  - destruct (IH Hb) as (body & E & Hc). cbn [plain_encode]. rewrite E, app_assoc, padding_three. eexists. split; [reflexivity|].
    rewrite forallb_app, Hc. cbn [forallb]. rewrite !letter_char by sixbits. reflexivity.
Qed.

Lemma join_first a b : byte_ok a -> byte_ok b -> a / 4 * 4 + (a mod 4 * 16 + b / 16) / 16 = a.
Proof. unfold byte_ok. intros. sixbits. Qed.

Lemma join_second a b c : byte_ok b -> byte_ok c -> (a mod 4 * 16 + b / 16) mod 16 * 16 + (b mod 16 * 4 + c / 64) / 4 = b.
Proof. unfold byte_ok. intros. sixbits. Qed.

Lemma join_third b c : byte_ok c -> (b mod 16 * 4 + c / 64) mod 4 * 64 + c mod 64 = c.
Proof. unfold byte_ok. intros. sixbits. Qed.

Lemma decode_encode_plain text : bytes_ok text -> plain_decode (plain_encode text) = Some (text ++ replicate (padding text) 0).
Proof.
  assert (H0 : byte_ok 0) by (unfold byte_ok; lia).
  induction text as [|a|a b|a b c l IH] using three_ind; intros Hb.
  - reflexivity.
  - pose proof (join_first a 0 ltac:(inversion Hb; assumption) H0) as E1. pose proof (join_second a 0 0 H0 H0) as E2. rewrite Z.add_0_r in E1, E2.
    byte_facts. cbn [plain_encode plain_decode]. rewrite !letter_reads by sixbits. cbn [value_of mbind option_bind Z.leb Z.compare Pos.compare Pos.compare_cont andb Z.eqb Pos.eqb].
    change (0 mod 16 * 4 + 0 / 64) with 0 in E2. change (0 / 4) with 0 in *. rewrite Z.add_0_r in *. rewrite E1, E2. reflexivity.
  - pose proof Hb as Hb'. byte_facts. pose proof (join_first a b ltac:(assumption) ltac:(assumption)) as E1.
    assert (E2 : (a mod 4 * 16 + b / 16) mod 16 * 16 + b mod 16 * 4 / 4 = b) by sixbits.
    assert (E3 : (b mod 16 * 4) mod 4 * 64 + 0 = 0) by sixbits.
    cbn [plain_encode plain_decode]. rewrite !letter_reads by sixbits. cbn [value_of mbind option_bind Z.leb Z.compare Pos.compare Pos.compare_cont andb Z.eqb Pos.eqb].
    rewrite E1, E2, E3. reflexivity.
  - byte_facts. pose proof (join_first a b ltac:(assumption) ltac:(assumption)) as E1. pose proof (join_second a b c ltac:(assumption) ltac:(assumption)) as E2.
    pose proof (join_third b c ltac:(assumption)) as E3. cbn [plain_encode app plain_decode]. rewrite !letter_reads by sixbits. cbn [mbind option_bind].
    rewrite (IH Hb), padding_three. cbn [mbind option_bind app]. rewrite E1, E2, E3. reflexivity.
Qed.

#[export] Instance plain_base64 : Base64 plain_encode.
Proof. constructor; intros text Hb; [apply encode_length_plain|apply encode_padded_plain, Hb|apply decode_encode_plain, Hb]. Qed.

#[local] Existing Instance PlainCrypto.plain_evp.
#[local] Existing Instance plain_double.

Definition w_endpoint (host secret : bytes) : outline_endpoint :=
  mk_endpoint (Some (host ++ [58] ++ str "443")) (Some (str "aes-128-gcm")) (Some secret) [22; 3; 1; 200].

(** A key from a description that a server answers with. *)
Definition w_body : bytes :=
  [123; 34] ++ str "server" ++ [34; 58; 34] ++ str "host.example" ++ [34; 44; 34] ++ str "server_port" ++ [34; 58] ++ str "443" ++ [44; 34]
  ++ str "method" ++ [34; 58; 34] ++ str "aes-128-gcm" ++ [34; 44; 34] ++ str "password" ++ [34; 58; 34] ++ str "secret" ++ [34; 44; 34]
  ++ str "prefix" ++ [34; 58; 34] ++ [92] ++ str "u0016" ++ [92] ++ str "u0003" ++ [92] ++ str "u0001" ++ [195; 136] ++ [34; 125].

Definition w_reply (endpoint : HttpSafety.ch_http_endpoint) (n : nat) : FeedCache.http_reply :=
  FeedCache.mk_reply [str "HTTP/1.1 200 OK" ++ [13; 10]] [take 20 w_body; drop 20 w_body] (inr 200).

Definition w_load (text : bytes) : bytes + list yaml_node := inl (str "no document").

Definition w_resolve : bytes -> list HttpSafety.ch_http_endpoint * result outline_key :=
  outline_resolve w_load (fun _ => HttpSafety.w_network) w_reply (fun _ _ => None) true 7.

Definition w_key : outline_key :=
  mk_key (w_endpoint (str "host.example") (str "secret")) (w_endpoint (str "host.example") (str "secret")) (Some (str "home"))
    (Some (str "ssconf://Example.org./feed#home")) true 7.

Lemma outline_resolve_safe_witness :
  w_resolve (str "ssconf://Example.org./feed#home") = ([HttpSafety.w_endpoint], Done w_key) /\ key_usable w_key /\
  requests_public (fun _ => HttpSafety.w_network) (str "ssconf://Example.org./feed#home") [HttpSafety.w_endpoint].
Proof.
  assert (E : w_resolve (str "ssconf://Example.org./feed#home") = ([HttpSafety.w_endpoint], Done w_key)) by (vm_compute; reflexivity).
  split; [exact E|].
  destruct (outline_resolve_safe w_load (fun _ => HttpSafety.w_network) w_reply (fun _ _ => None) true 7 (str "ssconf://Example.org./feed#home")
    [HttpSafety.w_endpoint] w_key (fun _ => eq_refl) E) as [Hu (url & Eu & _ & _ & Hp)]. split; [exact Hu|].
  assert (url = str "ssconf://Example.org./feed#home") as -> by exact (eq_sym (f_equal (default []) Eu)). exact Hp.
Defined.

(** A key of the written form. *)
Definition w_parts : parts_ok (str "aes-128-gcm") (str "secret") (str "host.example") [22; 3; 1; 200] (str "home") 443 (mk_cipher CH_SS_AES_128_GCM 16 16).
Proof.
  constructor; [reflexivity|split_and!; [apply literal_ok; reflexivity|discriminate|vm_compute; discriminate]|split; [reflexivity|discriminate]|lia
    |split; [repeat constructor; unfold byte_ok; lia|vm_compute; discriminate]|split; [apply literal_ok; reflexivity|discriminate]].
Defined.

Lemma access_key_round_trip_witness :
  w_resolve (str "ss://YWVzLTEyOC1nY206c2VjcmV0@host.example:443/?prefix=%16%03%01%c3%88#%68%6f%6d%65")
  = ([], Done (mk_key (w_endpoint (str "host.example") (str "secret")) (w_endpoint (str "host.example") (str "secret")) (Some (str "home")) None false 0)).
Proof.
  refine (access_key_round_trip plain_encode (str "aes-128-gcm") (str "secret") (str "host.example") [22; 3; 1; 200] (str "home") 443
    (mk_cipher CH_SS_AES_128_GCM 16 16) w_parts w_load (fun _ => HttpSafety.w_network) w_reply (fun _ _ => None) true 7).
Defined.

(** Base64 without padding: texts of 23, 27 and 26 characters. *)
Lemma unpadded_key_over_read_witness :
  w_resolve (str "ss://YWVzLTEyOC1nY206c2VjcmU@host.example:443") <> ([], Fault) /\
  w_resolve (str "ss://YWVzLTEyOC1nY206c2VjcmV0ISE@host.example:443") <> ([], Fault) /\
  w_resolve (str "ss://YWVzLTEyOC1nY206c2VjcmV0IQ@host.example:443") = ([], Fault).
Proof.
  split_and!; [vm_compute; discriminate..|].
  refine (unpadded_key_over_read w_load (fun _ => HttpSafety.w_network) w_reply (fun _ _ => None) true 7
    (str "YWVzLTEyOC1nY206c2VjcmV0IQ") (str "host.example") 443 _ _ _ _ _ _ _); [reflexivity|vm_compute; discriminate|right; reflexivity|vm_compute; reflexivity
    |reflexivity|lia].
Defined.

Lemma w_usable : key_usable w_key.
Proof. split; apply validate_usable; vm_compute; reflexivity. Qed.

Lemma w_key_ok : key_ok w_key.
Proof.
  assert (He : endpoint_ok (w_endpoint (str "host.example") (str "secret"))).
  { constructor; [|repeat constructor; unfold byte_ok; lia]. cbn [w_endpoint address e_method password].
    intros t [E|[E|E]]; injection E as <-; apply literal_ok; vm_compute; reflexivity. }
  constructor; [exact He|exact He|apply literal_ok; vm_compute; reflexivity|vm_compute; split; discriminate].
Qed.

Lemma outline_mutation_configures_witness :
  exists text request server, outline_mutation_json (fun _ => true) plain_encode w_key (str "home") true false = Done text /\
    ch_json_parse (Some text) = Done request /\
    Mutation.mutation_outline_apply_server ch_json_value_new_object request = Done server /\ server_of w_key server.
Proof.
  eexists. assert (E : outline_mutation_json (fun _ => true) plain_encode w_key (str "home") true false = Done _) by (vm_compute; reflexivity).
  destruct (outline_mutation_configures plain_encode (fun _ => true) w_key (str "home") true false _ ch_json_value_new_object
    w_usable w_key_ok ltac:(apply literal_ok; reflexivity) eq_refl E) as (request & server & Hp & Ha & Hs).
  exists request, server. split_and!; [exact E|exact Hp|exact Ha|exact Hs].
Defined.

(** A description in YAML, with a merged anchor for both networks. *)
Definition w_yaml : list yaml_node :=
  [YAML_MAPPING_NODE [(2, 3)]; YAML_SCALAR_NODE (str "transport"); YAML_MAPPING_NODE [(4, 5); (6, 7); (8, 9)];
   YAML_SCALAR_NODE (str "$type"); YAML_SCALAR_NODE (str "tcpudp"); YAML_SCALAR_NODE (str "tcp"); YAML_MAPPING_NODE [(4, 10); (11, 12); (13, 14); (15, 16); (17, 18)];
   YAML_SCALAR_NODE (str "udp"); YAML_MAPPING_NODE [(19, 7); (17, 20)]; YAML_SCALAR_NODE (str "shadowsocks");
   YAML_SCALAR_NODE (str "endpoint"); YAML_SCALAR_NODE (str "host.example:443"); YAML_SCALAR_NODE (str "cipher"); YAML_SCALAR_NODE (str "aes-128-gcm");
   YAML_SCALAR_NODE (str "secret"); YAML_SCALAR_NODE (str "secret"); YAML_SCALAR_NODE (str "prefix"); YAML_SCALAR_NODE [22; 3; 1; 195; 136];
   YAML_SCALAR_NODE (str "<<"); YAML_SCALAR_NODE [22; 3; 1; 195; 136]].

Example yaml_ex : yaml_key w_yaml no_key
  = Done (mk_key (w_endpoint (str "host.example") (str "secret")) (w_endpoint (str "host.example") (str "secret")) None None false 0).
Proof. vm_compute. reflexivity. Qed.

(** A name after a query that reads like the name of a plugin. *)
Example plugin_in_name :
  snd (w_resolve (str "ss://YWVzLTEyOC1nY206c2VjcmV0@host.example:443/?prefix=%16#plugin"))
  = fail CH_ERROR_UNSUPPORTED (str "Outline Shadowsocks plugins are not supported").
Proof. vm_compute. reflexivity. Qed.

End PlainBase64.
